(* ===== verification/_CoqProject ===== *)
-Q . S2P
Prelude.v
Effects.v
Utf8.v
ImapCommand.v
ImapMutf7.v
Dates.v
ImapParser.v
ImapParserSafe.v
ImapMime.v
ImapResponse.v
ImapRoundTrip.v
ImapFetch.v
ImapSearch.v
Places.v
Network.v
Limiter.v
LimiterSafe.v
LimiterRuns.v
Slots.v
SendLimit.v
Acl.v
ImapMailboxes.v
ImapSession.v
ImapSessionSync.v
ImapSessionStore.v
ImapSessionRuns.v
ImapSessionFetch.v
ImapSessionFetchSafe.v
ImapSessionSelect.v
ImapSessionSearch.v
ImapSessionMailboxes.v
ImapSessionRead.v
ImapSessionDispatch.v
Srs.v
Rtf.v
Retention.v
Sasl.v
SieveStore.v
SieveStoreSafe.v
ManageSieve.v
ManageSieveScripts.v
ManageSieveSession.v
SmtpHeaders.v
Address.v
SmtpSession.v
SmtpSessionSafe.v
SmtpSample.v
Relay.v
SmtpClient.v
PublicIp.v
MtaSts.v
Microsoft.v
Queue.v
Delivery.v
DeliverySafe.v
DeliveryEnds.v
Outbound.v
OutboundSafe.v
SenderLists.v
MimeLimits.v
Forwarding.v
Filing.v
Receive.v
ReceiveSafe.v
Submission.v
SubmissionSafe.v
