(* ===== verification/Prelude.v ===== *)
(** * UwUMail Server: a verification library

    UwUMail Server is a mail server in Rust (workspace src\/crates): SMTP in and out
    (uwumail-smtp), a store on SQLite (uwumail-store), IMAP (uwumail-imap), JMAP, CalDAV
    and CardDAV, a web interface, backups, and a small gateway that carries its
    connections (uwumail-gateway). This library models the parts that carry its own
    logic and face strangers: the IMAP server from the bytes of a command to what a
    session tells its client, the ManageSieve server and the scripts in the store, the
    SMTP session that takes mail in and what becomes of a message at the door, the queue
    and the worker that send mail on, the conversation with other mail servers, the limits on logins, connections and sending,
    and some self-contained codecs and policies.

    ** How the code is modelled

    A byte is [Byte.byte], text is the list of its bytes; integers are [Z] with the wrap,
    saturation or check of the code written out. Structs are records, enums inductive
    types, in modules where constructors share names. A Rust method that can fail or
    panic is a computation of [Effects.M], whose outcome keeps an error the code
    returns, a panic and a loop out of fuel apart; [wp] never holds of the last two, so
    a theorem about an [Ok] or [Err] result also says that nothing panics or runs on.
    HashMaps are [gmap]s, Vecs lists. The clock is an argument of each call that reads
    it. A call of the store is an argument that holds its answer, [Got] or [Broken], or
    a function when one handler asks often: what others do to the mailbox between two
    calls shows in the next answer. Third-party code (base64, mail-parser, HMAC, the
    semaphore of tokio, Unicode lower casing) is a variable of the section or the class
    that uses it, with laws where a theorem needs them ([Slots.SemaphoreLaws],
    [Srs.srs_round_trip]'s digest of hexadecimal digits).

    ** The files

    - Prelude, Effects, Utf8, Places: bytes and integers as Rust has them, the monad and
      its rules, text of the standard library, counters in maps.
    - ImapCommand (command.rs), ImapParser (parser.rs), Dates: the commands and the
      parser. ImapParserSafe: it returns on every input, and how large what it returns
      can be. ImapMutf7 (mutf7.rs).
    - ImapMime (mime.rs), ImapResponse (response.rs): a message as a tree of ranges, and
      what is written about it. ImapFetch: sections of any message can be written;
      ImapRoundTrip: what is written is what the parser reads.
    - ImapSearch (search.rs), ImapMailboxes (mailboxes.rs), Acl (store acl.rs and
      session.rs): search criteria, names and patterns, rights.
    - ImapSession and ImapSessionStore, -Fetch, -Select, -Search, -Mailboxes, -Read,
      -Dispatch (session.rs): the selected mailbox and its refresh, and the commands.
      ImapSessionSync: the client stays in step, over every run of a session and of
      others beside it. ImapSessionRuns and ImapSessionFetchSafe: the commands are such
      runs, and what else they promise.
    - Network and Limiter (store limiter.rs): [AuthLimiter]. LimiterSafe: what holds in
      every state that interleaved calls reach; LimiterRuns: what holds over runs.
    - Slots (smtp client_slots.rs, gateway limits.rs), SendLimit (smtp send_limit.rs):
      places for connections, recipients per hour and day.
    - Sasl (store sasl.rs): OAUTHBEARER and XOAUTH2 messages. SieveStore (store
      sieve.rs): the tables of Sieve scripts; SieveStoreSafe: what they keep.
    - ManageSieve, ManageSieveScripts, ManageSieveSession (imap managesieve.rs): reading
      commands, the commands on scripts against a map from names to contents, and the
      connection with its logins.
    - SmtpHeaders (smtp headers.rs), Address (store address.rs): header fields as byte
      ranges, and the one form of an address.
    - SmtpSession (smtp inbound.rs): the session of a client, [Session::run] with every
      command and its deadlines. SmtpSessionSafe: what holds whatever a client sends;
      SmtpSample: sessions that show it.
    - Queue (store queue.rs), Delivery (smtp outbound.rs, dsn.rs): the tables of mail
      that waits, and the worker as steps that interleave with everything else.
      DeliverySafe and DeliveryEnds: nobody is lost, and retries end.
    - SmtpClient (smtp client.rs): replies, dot-stuffing. PublicIp (store public_ip.rs),
      MtaSts (smtp mta_sts.rs), Microsoft (smtp microsoft.rs), Relay (smtp relay.rs).
    - SenderLists (store sender_lists.rs, rules.rs, smtp sender_lists.rs): the lists of
      allowed and blocked senders and which entry of them decides about a message.
    - MimeLimits (store mime_limits.rs): what is counted before mail-parser sees a
      message. Forwarding (smtp forward.rs, vacation.rs): passing mail on, and responses.
      Filing (smtp rules.rs, sieve.rs): what a Sieve script decided, carried out.
    - Receive (smtp inbound.rs, [receive]): the checks, greylisting and the loop over the
      recipients. ReceiveSafe: nothing is left behind, doubled or forgotten.
    - Submission (smtp submission.rs): mail of our own people, to people here and elsewhere.
      SubmissionSafe: who it is from, what may leave, and what becomes of each recipient.
    - Outbound (smtp outbound.rs, dane.rs): where the mail of a domain goes, and a
      session with one of these servers. OutboundSafe: TLS where it is due, one message
      and true outcomes.
    - Srs (smtp srs.rs), Rtf (tnef rtf.rs), Retention (backup retention.rs): sender
      rewriting, compressed RTF, which backups stay.

    ** How the parts meet

    [ImapSessionRead.read_command] reads the bytes [ImapParser.parse_command] is given,
    and [ImapRoundTrip.literal_announced_is_read] says they agree on literals.
    [ImapSessionDispatch.dispatch_start] decides whether the command runs and with which
    rights; the handler asks [ImapMailboxes.find] and [ImapSearch.matches], reads
    messages through [ImapMime.parse], writes through [ImapResponse], and ends with
    [ImapSession.refresh]. A login goes through [Limiter.begin].

    A message comes in through [SmtpSession.finish_message], after [Srs] and the rights
    of the account decided about its recipients. [Receive.receive] answers the client: it
    reads [Relay] and [SmtpHeaders], asks [SenderLists.decide_], and for each recipient
    [Forwarding.plan] and [Forwarding.send], then [Filing.deliver] or the mailbox.
    [Submission.submit] does it for our own people: it takes from [SendLimit.take], passes on
    through [Forwarding.send] too, and [Submission.told_session] is what the session answers
    with. What goes elsewhere is written by [Queue.enqueue]; [Delivery.step] claims it, and the outcome of each recipient that
    [Delivery.mark_one] settles is what [Outbound.deliver_domain] returns: it asks
    [MtaSts.policy_for] and [PublicIp.is_public_ip] where to go, talks with
    [SmtpClient]'s replies, and reads refusals with [Microsoft.classify].

    ** What the theorems show

    - Nothing panics or runs on: parsing commands and messages, sections, FETCH, reading
      commands; with bounds on nesting, numbers of keys and items, and bytes held.
    - The client and the server agree: message numbers over every run, messages and what
      is told of their flags after a refresh (but for what a silent STORE took for known),
      flags after QRESYNC, what SEARCH and FETCH answer, what SELECT opens.
    - Rights: what STORE, COPY, MOVE and the mailbox commands ask of the store, which
      mailboxes a name leads to, whose and inside what a mailbox is made or moved, when a
      command runs at all.
    - Mail from outside: relaying only for accounts, senders that are theirs, no password
      in the clear, three wrong logins at most, clients that stall are let go; forged authentication results are
      taken out; who a message behind relays is from; which entry of the sender lists
      decides, and that the lists stay in their one form. Mail that is refused leaves
      nothing behind but what a person's own forwarding or script did with it; mail that is
      taken reaches each person once or is accounted for; scripts lose nothing; what is
      passed on goes in no circles and makes no forged sender of the forwarder's domain
      good; every message is judged by its MIME limits. Our own people send as nobody else,
      as far as the server reads their header, within their limits, and each recipient is
      accounted for.
    - Mail to the outside: a recipient that waits is never lost, but when an admin deletes
      the message, and tried a bounded number of times while no admin asks for more; a message is handed over at most once per try, to hosts and under
      TLS as MTA-STS and DANE want it; a message ends for every receiver where it is
      meant to end.
    - Sieve: the tables stay well-formed, the commands do what RFC 5804 says of a map,
      who is not let in changes nothing, and three wrong logins are the most.
    - Guessing: counts of attempts are exact under interleaving, guesses add up whatever
      succeeds in between, blocks are listed as they act, refused logins look alike.
    - Limits: connections and recipients against ledgers that never forget.
    - Round trips: strings, names, sets, modified UTF-7, dates, networks, rewritten
      senders, compressed RTF, policies, replies, stuffed messages.
    - Definitions against what they mean: search criteria, wildcard patterns, prefixes,
      rights, retention, public addresses.

    ** Fuel and bounds

    The loops of the parser run on the length of the input plus one, [search_key] on one
    frame per allowed level, [ImapMime.part] on its [MAX_DEPTH], reading commands on the
    bytes that are there; ImapParserSafe, ImapMime and ImapSessionRead prove that none
    runs out, since each turn takes a byte or a level. [Rtf.unpack] takes a byte of its
    input in each turn, [Client.drain] a line; the turns of [MimeLimits.scan] count a part
    or a header field each and end with their limits. The loop of an SMTP session runs on the
    reads that are given; it has no bound of its own but its deadlines. [usize] is 64 bits; a mailbox has fewer than 2^32 messages, as
    their UIDs are different [u32]s.

    ** What is assumed of the store

    [ImapSessionSync.evolves] (a UID is given once and in rising order) and
    [ImapSessionSync.moves_on] (the modseq of a mailbox rises with every change), [ImapSessionSelect.changed_since] (what left since a modseq is
    among what VANISHED asks for), [ImapSessionSearch.emails_for] (one email for each UID
    asked for). They are what imap.rs documents of its queries.

    ** What is not modelled

    Sockets, TLS handshakes and certificates, the wait of IDLE; DNS and DNSSEC lookups.
    Of [receive], what mail-auth, the virus scanner, the spam score with its
    floating-point points, the engine and compiler of sieve-rs and the label rules find
    are arguments; the session model takes the answers of [receive] and [submit] as such.
    SOCKS and WireGuard transport (egress.rs); the text of footers (footer.rs); the slots that script runs
    take turns in; bounces as text (dsn.rs); the SQL of the store outside queue.rs,
    sieve.rs and the sender lists; Argon2 and sessions of logins; JMAP, DAV,
    the web interface, the assistant, labels; the rest of TNEF; the tunnel; backup
    storage. They are I\/O, third-party protocol code, SQL or text heuristics. *)

From Corelib Require Export Init.Byte.
From Stdlib Require Strings.Byte.
From Stdlib Require Export ZArith Lia.
From stdpp Require Export prelude gmap strings.

#[global] Open Scope Z_scope.

(** ** Bytes

    A Rust [u8] is [Byte.byte]; [bz] and [zb] are the casts to and from the
    wider integers, [zb] wrapping modulo 256 as [as u8] does. *)

#[export] Instance byte_eq_decision : EqDecision byte := Byte.byte_eq_dec.

Definition bz (b : byte) : Z := Z.of_N (Byte.to_N b).

Definition zb (z : Z) : byte := default x00 (Byte.of_N (Z.to_N (z `mod` 256))).

#[export] Program Instance byte_countable : Countable byte :=
  inj_countable Byte.to_N Byte.of_N _.
Next Obligation. intros b. apply Byte.of_to_N. Qed.

(** A [str], [String] or byte slice is the list of its bytes; [bs] writes a
    literal. *)
Definition bs (s : string) : list byte := String.list_byte_of_string s.

(** ** ASCII helpers of the standard library *)

Definition is_ascii_digit (b : byte) : bool := (48 <=? bz b) && (bz b <=? 57).

Definition is_ascii_lowercase (b : byte) : bool := (97 <=? bz b) && (bz b <=? 122).

Definition is_ascii_uppercase (b : byte) : bool := (65 <=? bz b) && (bz b <=? 90).

Definition is_ascii_alphanumeric (b : byte) : bool :=
  is_ascii_digit b || is_ascii_lowercase b || is_ascii_uppercase b.

(** Space, tab, LF, form feed and CR. *)
Definition is_ascii_whitespace (b : byte) : bool :=
  bool_decide (b ∈ [x20; x09; x0a; x0c; x0d]).

Definition is_ascii (b : byte) : bool := bz b <? 128.

Definition upper_byte (b : byte) : byte := if is_ascii_lowercase b then zb (bz b - 32) else b.

Definition lower_byte (b : byte) : byte := if is_ascii_uppercase b then zb (bz b + 32) else b.

Definition to_ascii_uppercase (s : list byte) : list byte := map upper_byte s.

Definition to_ascii_lowercase (s : list byte) : list byte := map lower_byte s.

Definition eq_ignore_ascii_case (s t : list byte) : bool :=
  bool_decide (to_ascii_lowercase s = to_ascii_lowercase t).

(** ** Slices *)

(** [&s[from..to]] when the range is in bounds. *)
Definition slice {A} (s : list A) (from to : nat) : list A := take (to - from) (drop from s).

Definition get_slice {A} (s : list A) (from to : nat) : option (list A) :=
  if decide (from <= to <= length s)%nat then Some (slice s from to) else None.

(** [position]: the index of the first element a test accepts. *)
Fixpoint position {A} (p : A -> bool) (s : list A) : option nat :=
  match s with
  | [] => None
  | x :: s' => if p x then Some 0%nat else S <$> position p s'
  end.

(** [find_map]. *)
Fixpoint find_map {A B} (f : A -> option B) (l : list A) : option B :=
  match l with x :: l => match f x with Some y => Some y | None => find_map f l end | [] => None end.

(** [split_once] and [split] at a byte. *)
Fixpoint split_once (d : byte) (s : list byte) : option (list byte * list byte) :=
  match s with
  | [] => None
  | b :: s' =>
      if decide (b = d) then Some ([], s')
      else match split_once d s' with
           | Some (l, r) => Some (b :: l, r)
           | None => None
           end
  end.

Fixpoint split_on (d : byte) (s : list byte) : list (list byte) :=
  match s with
  | [] => [[]]
  | b :: s' =>
      if decide (b = d) then [] :: split_on d s'
      else match split_on d s' with
           | part :: parts => (b :: part) :: parts
           | [] => [[b]]
           end
  end.

(** [strip_suffix]. *)
Definition strip_suffix (suffix s : list byte) : option (list byte) :=
  let n := (length s - length suffix)%nat in
  if decide (length suffix <= length s)%nat
  then if decide (drop n s = suffix) then Some (take n s) else None
  else None.

(** [strip_prefix] and [starts_with]. *)
Definition strip_prefix (prefix s : list byte) : option (list byte) :=
  if decide (take (length prefix) s = prefix) then Some (drop (length prefix) s) else None.

Definition starts_with (prefix s : list byte) : bool := bool_decide (take (length prefix) s = prefix).

(** [split] at the bytes a test accepts. *)
Fixpoint split_test (p : byte -> bool) (s : list byte) : list (list byte) :=
  match s with
  | [] => [[]]
  | b :: s' =>
      if p b then [] :: split_test p s'
      else match split_test p s' with
           | part :: parts => (b :: part) :: parts
           | [] => [[b]]
           end
  end.

(** [str::replace] of a pattern that is not empty: every step takes a byte. *)
Fixpoint replace_fuel (fuel : nat) (pattern to s : list byte) : list byte :=
  match fuel, s with
  | S fuel', b :: s' =>
      match strip_prefix pattern s with
      | Some rest => to ++ replace_fuel fuel' pattern to rest
      | None => b :: replace_fuel fuel' pattern to s'
      end
  | _, _ => []
  end.

Definition replace (pattern to s : list byte) : list byte := replace_fuel (length s) pattern to s.

(** [rposition]: the index of the last element a test accepts. *)
Definition rposition {A} (p : A -> bool) (s : list A) : option nat :=
  (fun i => (length s - S i)%nat) <$> position p (rev s).

(** [rsplit_once] at a byte. *)
Definition rsplit_once (d : byte) (s : list byte) : option (list byte * list byte) :=
  i ← rposition (fun b => bool_decide (b = d)) s; Some (take i s, drop (i + 1) s).

(** The order of strings. *)
Fixpoint bytes_le (s t : list byte) : bool :=
  match s, t with
  | [], _ => true
  | _ :: _, [] => false
  | a :: s, b :: t => (bz a <? bz b) || ((bz a =? bz b) && bytes_le s t)
  end.

(** [join]. *)
Fixpoint join (sep : list byte) (parts : list (list byte)) : list byte :=
  match parts with
  | [] => []
  | [p] => p
  | p :: ps => p ++ sep ++ join sep ps
  end.

(** ** Machine integers *)

Definition u32_max : Z := 2 ^ 32 - 1.
Definition u64_max : Z := 2 ^ 64 - 1.
Definition i64_min : Z := - 2 ^ 63.
Definition i64_max : Z := 2 ^ 63 - 1.

(** [as i64] of a 64-bit pattern. *)
Definition wrap_i64 (z : Z) : Z := (z + 2 ^ 63) `mod` 2 ^ 64 - 2 ^ 63.

(** [i64::saturating_sub]. *)
Definition i64_saturating_sub (a b : Z) : Z := Z.max i64_min (Z.min i64_max (a - b)).

Definition digit_value (b : byte) : option Z :=
  if is_ascii_digit b then Some (bz b - 48) else None.

(** The digits of [from_str], with the overflow check of every step. *)
Fixpoint parse_digits (max acc : Z) (s : list byte) : option Z :=
  match s with
  | [] => Some acc
  | b :: s' =>
      match digit_value b with
      | Some d => if acc * 10 + d <=? max then parse_digits max (acc * 10 + d) s' else None
      | None => None
      end
  end.

(** [from_str] of an unsigned type with the largest value [max]: an optional
    [+], then at least one digit. *)
Definition parse_unsigned (max : Z) (s : list byte) : option Z :=
  match s with
  | [] => None
  | b :: s' =>
      if decide (b = "+"%byte)
      then match s' with [] => None | _ => parse_digits max 0 s' end
      else parse_digits max 0 s
  end.

(** [from_str] of [i64]. *)
Definition parse_i64 (s : list byte) : option Z :=
  match s with
  | [] => None
  | b :: s' =>
      if decide (b = "-"%byte)
      then match s' with [] => None | _ => Z.opp <$> parse_digits (2 ^ 63) 0 s' end
      else parse_unsigned i64_max s
  end.

(** [Display] of a non-negative integer. *)
Definition digit_byte (d : Z) : byte := zb (48 + d).

Fixpoint dec_digits (fuel : nat) (n : Z) (acc : list byte) : list byte :=
  match fuel with
  | O => acc
  | S fuel' =>
      let acc' := digit_byte (n `mod` 10) :: acc in
      if n / 10 =? 0 then acc' else dec_digits fuel' (n / 10) acc'
  end.

Definition dec (n : Z) : list byte := dec_digits (S (Z.to_nat (Z.log2 n))) n [].

(** [{:0width}] of a non-negative integer. *)
Definition dec_pad (width : nat) (n : Z) : list byte :=
  replicate (width - length (dec n)) "0"%byte ++ dec n.

(** ** Lemmas: bytes *)

Lemma bz_range b : 0 <= bz b < 256.
Proof. unfold bz. pose proof (Byte.to_N_bounded b). lia. Qed.

Lemma bz_inj a b : bz a = bz b -> a = b.
Proof.
  unfold bz. intros H. apply N2Z.inj in H.
  assert (Some a = Some b) by (rewrite <- !Byte.of_to_N; congruence). congruence.
Qed.

Lemma bz_zb z : bz (zb z) = z `mod` 256.
Proof.
  pose proof (Z.mod_pos_bound z 256 ltac:(lia)) as Hb.
  unfold zb, bz. destruct (Byte.of_N _) as [b|] eqn:E; simpl.
  - apply Byte.to_of_N in E. rewrite E. lia.
  - apply Byte.of_N_None_iff in E. lia.
Qed.

Lemma bz_zb_small z : 0 <= z < 256 -> bz (zb z) = z.
Proof. intros. rewrite bz_zb. by apply Z.mod_small. Qed.

Lemma zb_bz b : zb (bz b) = b.
Proof. apply bz_inj. rewrite bz_zb. apply Z.mod_small, bz_range. Qed.

Lemma cons_zb b z (s t : list byte) :
  bz b = z -> 0 <= z < 256 -> s = t -> b :: s = zb z :: t.
Proof. intros <- _ ->. by rewrite zb_bz. Qed.

(** Every byte, to decide a property of bytes by evaluation. *)
Definition all_bytes : list byte := zb ∘ Z.of_nat <$> seq 0 256.

Lemma elem_of_all_bytes b : b ∈ all_bytes.
Proof.
  unfold all_bytes. rewrite <- (zb_bz b).
  apply list_elem_of_fmap. exists (Z.to_nat (bz b)). pose proof (bz_range b).
  split; [unfold compose; f_equal; lia | apply elem_of_seq; lia].
Qed.

Lemma byte_forall (P : byte -> bool) : forallb P all_bytes = true -> forall b, P b = true.
Proof.
  intros H b. apply forallb_forall with (x := b) in H; [done|].
  apply list_elem_of_In, elem_of_all_bytes.
Qed.

(** Linear arithmetic with [/] and [mod] by constants. *)
Ltac dlia := Z.div_mod_to_equations; lia.

(** [by_bytes b] proves a goal about the byte [b] by checking all 256. *)
Ltac by_bytes b := destruct b; vm_compute; (reflexivity || discriminate || tauto).

Lemma digit_value_digit d : 0 <= d < 10 -> digit_value (digit_byte d) = Some d.
Proof.
  intros. unfold digit_value, digit_byte, is_ascii_digit. rewrite bz_zb_small by lia.
  case_match; [f_equal; lia | lia].
Qed.

Lemma digit_value_is_digit b d : digit_value b = Some d -> is_ascii_digit b = true /\ 0 <= d < 10.
Proof.
  unfold digit_value. destruct (is_ascii_digit b) eqn:E; [|done].
  intros [= <-]. unfold is_ascii_digit in E. split; [done | lia].
Qed.

Lemma is_ascii_digit_digit d : 0 <= d < 10 -> is_ascii_digit (digit_byte d) = true.
Proof. intros Hd%digit_value_digit. by apply digit_value_is_digit in Hd as [? _]. Qed.

Lemma eq_ignore_ascii_case_refl s : eq_ignore_ascii_case s s = true.
Proof. unfold eq_ignore_ascii_case. by apply bool_decide_eq_true. Qed.

Lemma eq_ignore_ascii_case_iff s t :
  eq_ignore_ascii_case s t = true <-> to_ascii_lowercase s = to_ascii_lowercase t.
Proof. unfold eq_ignore_ascii_case. apply bool_decide_eq_true. Qed.

Lemma lower_byte_idem b : lower_byte (lower_byte b) = lower_byte b.
Proof. by_bytes b. Qed.

Lemma lower_app s t : to_ascii_lowercase (s ++ t) = to_ascii_lowercase s ++ to_ascii_lowercase t.
Proof. apply map_app. Qed.

Lemma to_ascii_lowercase_idem s : to_ascii_lowercase (to_ascii_lowercase s) = to_ascii_lowercase s.
Proof. unfold to_ascii_lowercase. rewrite map_map. apply map_ext, lower_byte_idem. Qed.

(** ** Lemmas: slices *)

Lemma slice_app {A} (l m r : list A) :
  slice (l ++ m ++ r) (length l) (length l + length m) = m.
Proof.
  unfold slice. rewrite drop_app_length.
  replace (length l + length m - length l)%nat with (length m) by lia. apply take_app_length.
Qed.

Lemma length_slice {A} (s : list A) from to :
  (from <= to <= length s)%nat -> length (slice s from to) = (to - from)%nat.
Proof. intros. unfold slice. rewrite length_take, length_drop. lia. Qed.

Lemma slice_incl {A} (s : list A) from to : slice s from to ⊆ s.
Proof.
  unfold slice. intros x Hx. apply elem_of_take in Hx as (i & Hi & _).
  rewrite lookup_drop in Hi. by eapply list_elem_of_lookup_2.
Qed.

Lemma get_slice_Some {A} (s : list A) from to r :
  get_slice s from to = Some r -> (from <= to <= length s)%nat /\ r = slice s from to.
Proof. unfold get_slice. case_decide; [by intros [= <-] | done]. Qed.

(** ** Lemmas: bits *)

Lemma lor_shiftl_add a b k : 0 <= k -> 0 <= b < 2 ^ k -> Z.lor (Z.shiftl a k) b = a * 2 ^ k + b.
Proof.
  intros Hk Hb. rewrite <- Z.shiftl_mul_pow2 by done.
  assert (Hl : Z.land (Z.shiftl a k) b = 0).
  { apply Z.bits_inj'. intros n Hn. rewrite Z.land_spec, Z.bits_0.
    destruct (Z.ltb_spec n k) as [Hlt|Hge].
    - by rewrite Z.shiftl_spec_low.
    - destruct (decide (b = 0)) as [->|]; [by rewrite Z.bits_0, andb_false_r|].
      rewrite (Z.bits_above_log2 b n), andb_false_r; [done | lia |].
      apply Z.lt_le_trans with k; [apply Z.log2_lt_pow2; lia | lia]. }
  symmetry. by apply Z.add_nocarry_lor.
Qed.

Lemma land_ones_mod a k : 0 <= k -> Z.land a (Z.shiftl 1 k - 1) = a `mod` 2 ^ k.
Proof.
  intros. rewrite Z.shiftl_mul_pow2, Z.mul_1_l by done.
  replace (2 ^ k - 1) with (Z.ones k) by (rewrite Z.ones_equiv; lia). by apply Z.land_ones.
Qed.

Lemma position_Some {A} (p : A -> bool) s i :
  position p s = Some i -> exists x, s !! i = Some x /\ p x = true.
Proof.
  revert i. induction s as [|x s IH]; intros i H; [done|]. simpl in H.
  destruct (p x) eqn:E; [simplify_eq; by exists x|].
  destruct (position p s) as [j|]; [|done]. simplify_eq/=. by apply IH.
Qed.

Lemma position_is_Some {A} (p : A -> bool) s x : x ∈ s -> p x = true -> is_Some (position p s).
Proof.
  induction s as [|y s IH]; [by intros ?%elem_of_nil|]. intros Hx Hp. simpl. destruct (p y) eqn:E; [done|].
  apply elem_of_cons in Hx as [->|Hx]; [congruence|]. destruct (IH Hx Hp) as [i ->]. done.
Qed.

Lemma position_lt {A} (p : A -> bool) s i : position p s = Some i -> (i < length s)%nat.
Proof. intros (x & Hx & _)%position_Some. by eapply lookup_lt_Some. Qed.

(** ** Lemmas: splitting *)

Lemma split_once_Some d s l r :
  split_once d s = Some (l, r) <-> s = l ++ d :: r /\ d ∉ l.
Proof.
  revert l. induction s as [|b s IH]; intros l; simpl.
  { split; [done|]. intros [H _]. by destruct l. }
  case_decide as Hb.
  - subst. split.
    + intros [= <- <-]. split; [done | apply not_elem_of_nil].
    + intros [H Hn]. destruct l as [|b' l]; simplify_eq/=; [done|].
      exfalso. apply Hn. by left.
  - split.
    + destruct (split_once d s) as [[l' r']|]; [|done]. intros [= <- ->].
      destruct (proj1 (IH l') eq_refl) as [-> Hn]. split; [done|].
      by apply not_elem_of_cons.
    + intros [H Hn]. destruct l as [|b' l]; simplify_eq/=.
      apply not_elem_of_cons in Hn as [_ Hn].
      by rewrite (proj2 (IH l) (conj eq_refl Hn)).
Qed.

Lemma split_once_None d s : split_once d s = None <-> d ∉ s.
Proof.
  induction s as [|b s IH]; simpl; [split; [intros _; apply not_elem_of_nil | done]|].
  rewrite not_elem_of_cons. case_decide; [naive_solver|].
  destruct (split_once d s) as [[]|]; naive_solver.
Qed.

Lemma split_once_app d l r : d ∉ l -> split_once d (l ++ d :: r) = Some (l, r).
Proof. intros. by apply split_once_Some. Qed.

Lemma split_on_none d s : d ∉ s -> split_on d s = [s].
Proof.
  induction s as [|b s IH]; [done|]. rewrite not_elem_of_cons. intros [Hb Hs]. simpl.
  rewrite decide_False by done. by rewrite IH.
Qed.

Lemma split_on_app d l r : d ∉ l -> split_on d (l ++ d :: r) = l :: split_on d r.
Proof.
  induction l as [|b l IH]; simpl; [by rewrite decide_True by done|].
  rewrite not_elem_of_cons. intros [Hb Hl]. rewrite decide_False by done. by rewrite IH.
Qed.

Lemma position_app_r {A} (p : A -> bool) s x t :
  Forall (fun y => p y = false) s -> p x = true -> position p (s ++ x :: t) = Some (length s).
Proof.
  intros Hs Hx. induction Hs as [|y s Hy _ IH]; simpl; [by rewrite Hx|]. by rewrite Hy, IH.
Qed.

Lemma position_None {A} (p : A -> bool) s : position p s = None -> Forall (fun y => p y = false) s.
Proof.
  induction s as [|y s IH]; [constructor|]. simpl. destruct (p y) eqn:E; [done|]. destruct (position p s); [done|].
  constructor; [done | by apply IH].
Qed.

Lemma rsplit_once_app d l r : d ∉ r -> rsplit_once d (l ++ d :: r) = Some (l, r).
Proof.
  intros Hr. unfold rsplit_once, rposition. rewrite rev_app_distr. simpl. rewrite <-app_assoc. simpl.
  rewrite position_app_r; [|apply Forall_forall; intros b Hb; apply bool_decide_eq_false; intros ->;
    by apply Hr, list_elem_of_In, in_rev, list_elem_of_In | by apply bool_decide_eq_true].
  simpl. rewrite length_app, length_rev. simpl.
  replace (length l + S (length r) - S (length r))%nat with (length l) by lia.
  rewrite take_app_length. do 2 f_equal. replace (length l + 1)%nat with (S (length l)) by lia.
  by rewrite (cons_middle d l r), app_assoc, drop_app_length' by (rewrite length_app; cbn; lia).
Qed.

Lemma rsplit_once_Some d s l r : rsplit_once d s = Some (l, r) -> s = l ++ d :: r.
Proof.
  unfold rsplit_once, rposition. destruct (position _ (rev s)) as [i|] eqn:E; [|done]. cbn. intros [= <- <-].
  pose proof (position_lt _ _ _ E) as Hlt. apply position_Some in E as (b & Hb & ->%bool_decide_eq_true).
  rewrite length_rev in Hlt. rewrite <-(take_drop (length s - S i) s) at 1. f_equal.
  rewrite rev_alt in Hb. change (rev_append s []) with (reverse s) in Hb. rewrite reverse_lookup in Hb by done.
  rewrite Nat.add_1_r. by apply drop_S.
Qed.

(** A byte the elements of a list all fail a test for is not in it. *)
Lemma not_elem_of_test (p : byte -> bool) b s :
  p b = false -> Forall (fun x => p x = true) s -> b ∉ s.
Proof. intros Hb Hs Hin. rewrite Forall_forall in Hs. apply Hs in Hin. congruence. Qed.

(** ** Lemmas: decimal numbers *)

Lemma parse_digits_app max acc s t :
  parse_digits max acc (s ++ t) = v ← parse_digits max acc s; parse_digits max v t.
Proof. revert acc. induction s as [|b s IH]; intros acc; simpl; [done|]. repeat case_match; done. Qed.

Lemma parse_digits_all_digits max acc s v :
  parse_digits max acc s = Some v -> Forall (fun b => is_ascii_digit b = true) s.
Proof.
  revert acc. induction s as [|b s IH]; intros acc H; [constructor|]. simpl in H.
  destruct (digit_value b) eqn:E; [|done]. case_match; [|done].
  constructor; [by apply digit_value_is_digit in E as [? _] | eauto].
Qed.

Lemma parse_digits_bound max acc s v :
  0 <= acc <= max -> parse_digits max acc s = Some v -> acc <= v <= max.
Proof.
  revert acc. induction s as [|b s IH]; intros acc Hacc H; simpl in H; [simplify_eq; lia|].
  destruct (digit_value b) as [d|] eqn:E; [|done]. apply digit_value_is_digit in E as [_ Hd].
  destruct (acc * 10 + d <=? max) eqn:?; [|done]. apply IH in H; lia.
Qed.

Lemma dec_digits_parse fuel n acc max :
  0 <= n <= max -> n < 2 ^ Z.of_nat fuel ->
  parse_digits max 0 (dec_digits fuel n acc) = parse_digits max n acc.
Proof.
  revert n acc. induction fuel as [|fuel IH]; intros n acc Hn Hf.
  - simpl in *. assert (n = 0) as -> by lia. done.
  - assert (Hd : n / 10 <= n) by (apply Z.div_le_upper_bound; lia).
    assert (H0 : 0 <= n / 10) by (apply Z.div_pos; lia).
    pose proof (Z.mod_pos_bound n 10 ltac:(lia)) as Hm.
    assert (Hs : forall a, a = n / 10 ->
      parse_digits max a (digit_byte (n `mod` 10) :: acc) = parse_digits max n acc).
    { intros a ->. simpl. rewrite digit_value_digit by lia.
      replace (n / 10 * 10 + n `mod` 10) with n by dlia.
      destruct (n <=? max) eqn:?; [done | lia]. }
    cbn [dec_digits]. destruct (n / 10 =? 0) eqn:E; [apply Hs; lia|].
    rewrite IH; [by apply Hs | lia |].
    rewrite Nat2Z.inj_succ, Z.pow_succ_r in Hf by lia.
    apply Z.div_lt_upper_bound; lia.
Qed.

Lemma dec_fuel n : 0 <= n -> n < 2 ^ Z.of_nat (S (Z.to_nat (Z.log2 n))).
Proof.
  intros. rewrite Nat2Z.inj_succ, Z2Nat.id by apply Z.log2_nonneg.
  destruct (decide (n = 0)) as [->|]; [simpl; lia|]. apply Z.log2_spec; lia.
Qed.

Lemma parse_digits_dec max n : 0 <= n <= max -> parse_digits max 0 (dec n) = Some n.
Proof. intros. unfold dec. rewrite dec_digits_parse; [done | done | apply dec_fuel; lia]. Qed.

Lemma dec_digits_suffix fuel n acc : exists l, dec_digits fuel n acc = l ++ acc.
Proof.
  revert n acc. induction fuel as [|fuel IH]; intros n acc; simpl; [by exists []|].
  case_match; [by exists [digit_byte (n `mod` 10)]|].
  destruct (IH (n / 10) (digit_byte (n `mod` 10) :: acc)) as [l ->].
  exists (l ++ [digit_byte (n `mod` 10)]). by rewrite <- app_assoc.
Qed.

Lemma dec_nonempty n : dec n <> [].
Proof.
  unfold dec. simpl. case_match; [done|].
  destruct (dec_digits_suffix (Z.to_nat (Z.log2 n)) (n / 10) [digit_byte (n `mod` 10)]) as [l ->].
  by destruct l.
Qed.

Lemma dec_all_digits n : 0 <= n -> Forall (fun b => is_ascii_digit b = true) (dec n).
Proof. intros. eapply parse_digits_all_digits, (parse_digits_dec n); lia. Qed.

Lemma is_ascii_digit_not_plus b : is_ascii_digit b = true -> b <> "+"%byte.
Proof. intros H ->. done. Qed.

Lemma parse_unsigned_digits max s :
  s <> [] -> Forall (fun b => is_ascii_digit b = true) s -> parse_unsigned max s = parse_digits max 0 s.
Proof.
  intros Hne Hall. destruct s as [|b s]; [done|]. inversion_clear Hall.
  unfold parse_unsigned. case_decide; [|done]. by apply is_ascii_digit_not_plus in H.
Qed.

Lemma parse_unsigned_dec max n : 0 <= n <= max -> parse_unsigned max (dec n) = Some n.
Proof.
  intros. rewrite parse_unsigned_digits;
    [by apply parse_digits_dec | apply dec_nonempty | apply dec_all_digits; lia].
Qed.

Lemma parse_digits_zeros max k s : 0 <= max -> parse_digits max 0 (replicate k "0"%byte ++ s) = parse_digits max 0 s.
Proof. intros. induction k as [|k IH]; [done|].
  cbn [replicate app parse_digits]. change (digit_value "0"%byte) with (Some 0). cbv iota beta.
  change (0 * 10 + 0) with 0. destruct (0 <=? max) eqn:?; [done | lia].
Qed.

Lemma dec_pad_all_digits w n : 0 <= n -> Forall (fun b => is_ascii_digit b = true) (dec_pad w n).
Proof.
  intros. apply Forall_app. split; [by apply Forall_replicate | by apply dec_all_digits].
Qed.

Lemma parse_unsigned_dec_pad max w n : 0 <= n <= max -> parse_unsigned max (dec_pad w n) = Some n.
Proof.
  intros. rewrite parse_unsigned_digits.
  - unfold dec_pad. rewrite parse_digits_zeros by lia. apply parse_digits_dec. lia.
  - unfold dec_pad. intros [_ Hd]%app_nil. by apply dec_nonempty in Hd.
  - apply dec_pad_all_digits. lia.
Qed.

Lemma parse_unsigned_bound max s v :
  0 <= max -> parse_unsigned max s = Some v -> 0 <= v <= max.
Proof.
  unfold parse_unsigned. intros Hm H. destruct s as [|b s]; [done|].
  case_decide; [destruct s; [done|]|]; apply parse_digits_bound in H; lia.
Qed.

Lemma strip_suffix_Some suffix s t : strip_suffix suffix s = Some t -> s = t ++ suffix.
Proof.
  unfold strip_suffix. repeat case_decide; intros [= <-]. rewrite <- (take_drop (length s - length suffix) s) at 1.
  congruence.
Qed.

(** ** The order of strings *)

Lemma bytes_le_total s t : bytes_le s t = true \/ bytes_le t s = true.
Proof.
  revert t. induction s as [|a s IH]; intros [|b t]; cbn; auto.
  destruct (Z.lt_trichotomy (bz a) (bz b)) as [H|[H|H]].
  - left. apply Z.ltb_lt in H. by rewrite H.
  - rewrite H, Z.eqb_refl, Z.ltb_irrefl. apply IH.
  - right. apply Z.ltb_lt in H. by rewrite H.
Qed.

Lemma bytes_le_cons a s b t : bytes_le (a :: s) (b :: t) = true <-> bz a < bz b \/ a = b /\ bytes_le s t = true.
Proof.
  cbn. rewrite orb_true_iff, andb_true_iff, Z.ltb_lt, Z.eqb_eq. split; intros [H|[H H']]; [by left| |by left|].
  - right. split; [by apply bz_inj|done].
  - right. by subst.
Qed.

Lemma bytes_le_anti s t : bytes_le s t = true -> bytes_le t s = true -> s = t.
Proof.
  revert t. induction s as [|a s IH]; intros [|b t]; try done. rewrite !bytes_le_cons.
  intros [H|[-> H]] [H'|[Hb H']]; subst; try lia. f_equal. by apply IH.
Qed.

Lemma bytes_le_trans s t u : bytes_le s t = true -> bytes_le t u = true -> bytes_le s u = true.
Proof.
  revert t u. induction s as [|a s IH]; intros [|b t] [|c u]; try done. rewrite !bytes_le_cons.
  intros [H|[-> H]] [H'|[-> H']]; try (left; lia). right. split; [done|]. by apply (IH t).
Qed.

Create HintDb bytes.
#[export] Hint Resolve bz_range dec_nonempty : bytes.

(** ** Row ids

    What SQLite gives a new row of a table without AUTOINCREMENT: one more than the highest. *)
Definition next_rowid {A} (t : gmap Z A) : Z := map_fold (fun i _ m => Z.max (i + 1) m) 1 t.

Lemma next_rowid_above {A} (t : gmap Z A) i : is_Some (t !! i) -> i < next_rowid t.
Proof.
  unfold next_rowid. revert i. apply (map_fold_weak_ind (fun m t => forall i, is_Some (t !! i) -> i < m)); [by intros i [? ?]|].
  intros i x t' m _ IH j [y [[<- _]|[_ Hj]]%lookup_insert_Some]; [lia|]. specialize (IH j (mk_is_Some _ _ Hj)). lia.
Qed.

Lemma next_rowid_new {A} (t : gmap Z A) : t !! next_rowid t = None.
Proof. destruct (t !! next_rowid t) as [x|] eqn:E; [|done]. pose proof (next_rowid_above t _ (mk_is_Some _ _ E)). lia. Qed.

Lemma next_rowid_positive {A} (t : gmap Z A) : 0 < next_rowid t.
Proof. unfold next_rowid. apply (map_fold_weak_ind (fun m _ => 0 < m)); [lia|]. intros. lia. Qed.
