(* ===== verification/Effects.v ===== *)
(** * Stateful, fallible computations

    The monad the parsers and readers are written in: a Rust function
    [fn f(&mut self, ..) -> Result<A, E>] is a [M S E A], state passing with an
    outcome that keeps a panic, and a loop that ran out of fuel, apart from an
    error the code returns. The state is kept after an error as well, as
    [&mut self] is. The weakest precondition [wp] and its rules carry the proofs
    about them: a [wp] never holds of a computation that panics or does not end. *)

From S2P Require Import Prelude.

(** ** Outcomes *)

Inductive outcome (E A : Type) : Type :=
  | Ok (a : A)
  | Err (e : E)
  | Panicked
  | OutOfFuel.
Arguments Ok {E A} a.
Arguments Err {E A} e.
Arguments Panicked {E A}.
Arguments OutOfFuel {E A}.

#[export] Instance outcome_eq_decision {E A} `{EqDecision E, EqDecision A} :
  EqDecision (outcome E A).
Proof. solve_decision. Defined.

(** The outcome a function without a bug and with enough fuel has. *)
Definition returns {E A} (r : outcome E A) : Prop :=
  match r with Ok _ | Err _ => True | Panicked | OutOfFuel => False end.

(** ** The monad *)

Definition M (S E A : Type) : Type := S -> outcome E A * S.

#[export] Instance M_ret {S E} : MRet (M S E) := fun A a s => (Ok a, s).

#[export] Instance M_bind {S E} : MBind (M S E) := fun A B k m s =>
  match m s with
  | (Ok a, s') => k a s'
  | (Err e, s') => (Err e, s')
  | (Panicked, s') => (Panicked, s')
  | (OutOfFuel, s') => (OutOfFuel, s')
  end.

#[export] Instance M_fmap {S E} : FMap (M S E) := fun A B f m => a ← m; mret (f a).

Definition get {S E} : M S E S := fun s => (Ok s, s).

Definition put {S E} (s : S) : M S E unit := fun _ => (Ok tt, s).

Definition modify {S E} (f : S -> S) : M S E unit := fun s => (Ok tt, f s).

Definition throw {S E A} (e : E) : M S E A := fun s => (Err e, s).

Definition panic {S E A} : M S E A := fun s => (Panicked, s).

Definition out_of_fuel {S E A} : M S E A := fun s => (OutOfFuel, s).

(** [ok_or], and a value that must be there, as an index in bounds. *)
Definition ok_or {S E A} (o : option A) (e : E) : M S E A :=
  match o with Some a => mret a | None => throw e end.

Definition expect {S E A} (o : option A) : M S E A :=
  match o with Some a => mret a | None => panic end.

(** [is_ok]: the error is dropped, the state stays. *)
Definition is_ok {S E A} (m : M S E A) : M S E bool := fun s =>
  match m s with
  | (Ok _, s') => (Ok true, s')
  | (Err _, s') => (Ok false, s')
  | (Panicked, s') => (Panicked, s')
  | (OutOfFuel, s') => (OutOfFuel, s')
  end.

(** [ok]: the error is dropped, the state stays. *)
Definition try_result {S E A} (m : M S E A) : M S E (option A) := fun s =>
  match m s with
  | (Ok a, s') => (Ok (Some a), s')
  | (Err _, s') => (Ok None, s')
  | (Panicked, s') => (Panicked, s')
  | (OutOfFuel, s') => (OutOfFuel, s')
  end.

(** [map_err]. *)
Definition map_err {S E A} (f : E -> E) (m : M S E A) : M S E A := fun s =>
  match m s with
  | (Err e, s') => (Err (f e), s')
  | r => r
  end.

(** ** Weakest preconditions *)

(** The computation returns from [s]: with a value and a state in [Q], or with
    an error and a state in [F]. *)
Definition wp {S E A} (m : M S E A) (Q : A -> S -> Prop) (F : S -> Prop) (s : S) : Prop :=
  match m s with
  | (Ok a, s') => Q a s'
  | (Err _, s') => F s'
  | (Panicked, _) | (OutOfFuel, _) => False
  end.

Section rules.
Context {S E : Type}.
Implicit Types (F : S -> Prop) (s : S).

Lemma wp_returns {A} (m : M S E A) Q F s : wp m Q F s -> returns (fst (m s)).
Proof. unfold wp. by destruct (m s) as [[] ?]. Qed.

Lemma wp_Ok {A} (m : M S E A) Q F s a s' : wp m Q F s -> m s = (Ok a, s') -> Q a s'.
Proof. unfold wp. intros H Heq. by rewrite Heq in H. Qed.

Lemma wp_ret {A} (a : A) (Q : A -> S -> Prop) F s : Q a s -> wp (mret a : M S E A) Q F s.
Proof. done. Qed.

Lemma wp_bind {A B} (m : M S E A) (k : A -> M S E B) Q F s :
  wp m (fun a s' => wp (k a) Q F s') F s -> wp (m ≫= k) Q F s.
Proof. unfold wp, mbind, M_bind. by destruct (m s) as [[] ?]. Qed.

(** Two steps of a sequence taken as one. *)
Lemma wp_bind_assoc {A B C} (m : M S E A) (k : A -> M S E B) (f : B -> M S E C) Q F s :
  wp ((m ≫= k) ≫= f) Q F s -> wp (x ← m; k x ≫= f) Q F s.
Proof. unfold wp, mbind, M_bind. by destruct (m s) as [[] ?]. Qed.

Lemma wp_throw {A} (e : E) (Q : A -> S -> Prop) F s : F s -> wp (throw e) Q F s.
Proof. done. Qed.

Lemma wp_get (Q : S -> S -> Prop) F s : Q s s -> wp (get : M S E S) Q F s.
Proof. done. Qed.

Lemma wp_put (s0 : S) (Q : unit -> S -> Prop) F s : Q tt s0 -> wp (put s0 : M S E unit) Q F s.
Proof. done. Qed.

Lemma wp_modify (f : S -> S) (Q : unit -> S -> Prop) F s :
  Q tt (f s) -> wp (modify f : M S E unit) Q F s.
Proof. done. Qed.

Lemma wp_ok_or {A} (o : option A) (e : E) (Q : A -> S -> Prop) F s :
  (forall a, o = Some a -> Q a s) -> F s -> wp (ok_or o e) Q F s.
Proof. destruct o; unfold wp; simpl; auto. Qed.

Lemma wp_expect {A} (o : option A) a (Q : A -> S -> Prop) F s :
  o = Some a -> Q a s -> wp (expect o : M S E A) Q F s.
Proof. by intros ->. Qed.

Lemma wp_is_ok {A} (m : M S E A) Q F s :
  wp m (fun _ s' => Q true s') (fun s' => Q false s') s -> wp (is_ok m) Q F s.
Proof. unfold wp, is_ok. by destruct (m s) as [[] ?]. Qed.

Lemma wp_try_result {A} (m : M S E A) Q F s :
  wp m (fun a s' => Q (Some a) s') (fun s' => Q None s') s -> wp (try_result m) Q F s.
Proof. unfold wp, try_result. by destruct (m s) as [[] ?]. Qed.

Lemma wp_map_err {A} f (m : M S E A) Q F s : wp m Q F s -> wp (map_err f m) Q F s.
Proof. unfold wp, map_err. by destruct (m s) as [[] ?]. Qed.

Lemma wp_mono {A} (m : M S E A) (Q Q' : A -> S -> Prop) (F F' : S -> Prop) s :
  (forall a s', Q a s' -> Q' a s') -> (forall s', F s' -> F' s') -> wp m Q F s -> wp m Q' F' s.
Proof. unfold wp. intros HQ HF. destruct (m s) as [[] ?]; auto. Qed.

(** [wp] is monotone, so implications between postconditions rewrite. *)
#[export] Instance wp_proper {A} (m : M S E A) :
  Proper (pointwise_relation A (pointwise_relation S impl) ==>
          pointwise_relation S impl ==> pointwise_relation S impl) (wp m).
Proof. intros Q Q' HQ F F' HF s H. eapply wp_mono; [..|exact H]; eauto. Qed.

End rules.

(** One step along the structure of a computation; what is left are calls, which
    the lemmas about them decide. *)
Ltac wp_step :=
  lazymatch goal with
  | |- wp (mret _) _ _ _ => apply wp_ret
  | |- wp (_ ≫= _) _ _ _ => apply wp_bind
  | |- wp (throw _) _ _ _ => apply wp_throw
  | |- wp get _ _ _ => apply wp_get
  | |- wp (put _) _ _ _ => apply wp_put
  | |- wp (modify _) _ _ _ => apply wp_modify
  | |- wp (ok_or _ _) _ _ _ => apply wp_ok_or
  | |- wp (is_ok _) _ _ _ => apply wp_is_ok
  | |- wp (try_result _) _ _ _ => apply wp_try_result
  | |- wp (map_err _ _) _ _ _ => apply wp_map_err
  | |- wp (if ?b then _ else _) _ _ _ => destruct b eqn:?
  | |- wp (match ?x with _ => _ end) _ _ _ => destruct x eqn:?
  end.

(** A value computed elsewhere, its panic and fuel kept. *)
Definition lift {S E A} (r : outcome E A) : M S E A := fun s => (r, s).

(** A computation that returns no error, run on a state of its own. *)
Definition infallible {S E T A} (m : M T Empty_set A) (t : T) : M S E A := fun s =>
  match fst (m t) with
  | Ok a => (Ok a, s)
  | Err e => match e : Empty_set with end
  | Panicked => (Panicked, s)
  | OutOfFuel => (OutOfFuel, s)
  end.
