(* ===== verification/Utf8.v ===== *)
(** * UTF-8 and UTF-16 text

    What the program uses of the standard library's text types: [str::chars],
    [char::encode_utf8], [String::from_utf8], [String::from_utf8_lossy],
    [char::encode_utf16], [String::from_utf16] and its lossy form, with the byte
    ranges of the Unicode standard's table of well-formed sequences. A [char] is
    a Unicode scalar value. *)

From S2P Require Import Prelude.

Definition is_scalar (c : Z) : bool :=
  ((0 <=? c) && (c <? 0xD800)) || ((0xE000 <=? c) && (c <? 0x110000)).

(** [char::encode_utf8]. *)
Definition utf8_char (c : Z) : list byte :=
  if c <? 0x80 then [zb c]
  else if c <? 0x800 then [zb (0xC0 + c / 64); zb (0x80 + c `mod` 64)]
  else if c <? 0x10000 then
    [zb (0xE0 + c / 4096); zb (0x80 + (c / 64) `mod` 64); zb (0x80 + c `mod` 64)]
  else
    [zb (0xF0 + c / 262144); zb (0x80 + (c / 4096) `mod` 64); zb (0x80 + (c / 64) `mod` 64);
     zb (0x80 + c `mod` 64)].

Definition utf8 (cs : list Z) : list byte := cs ≫= utf8_char.

(** One step of the decoder: a character, or the longest prefix that can not
    belong to one, and what is left. *)
Inductive utf8_item : Type :=
  | Char (c : Z) (rest : list byte)
  | Invalid (rest : list byte)
  | End.

Definition in_range (lo hi : Z) (b : byte) : bool := (lo <=? bz b) && (bz b <=? hi).

Definition continuation : byte -> bool := in_range 0x80 0xBF.

Definition utf8_step (s : list byte) : utf8_item :=
  match s with
  | [] => End
  | b0 :: r0 =>
      if in_range 0 0x7F b0 then Char (bz b0) r0
      else if in_range 0xC2 0xDF b0 then
        match r0 with
        | b1 :: r1 =>
            if continuation b1 then Char ((bz b0 - 0xC0) * 64 + (bz b1 - 0x80)) r1 else Invalid r0
        | [] => Invalid r0
        end
      else if in_range 0xE0 0xEF b0 then
        let second :=
          if bz b0 =? 0xE0 then in_range 0xA0 0xBF
          else if bz b0 =? 0xED then in_range 0x80 0x9F else continuation in
        match r0 with
        | b1 :: r1 =>
            if second b1 then
              match r1 with
              | b2 :: r2 =>
                  if continuation b2
                  then Char ((bz b0 - 0xE0) * 4096 + (bz b1 - 0x80) * 64 + (bz b2 - 0x80)) r2
                  else Invalid r1
              | [] => Invalid r1
              end
            else Invalid r0
        | [] => Invalid r0
        end
      else if in_range 0xF0 0xF4 b0 then
        let second :=
          if bz b0 =? 0xF0 then in_range 0x90 0xBF
          else if bz b0 =? 0xF4 then in_range 0x80 0x8F else continuation in
        match r0 with
        | b1 :: r1 =>
            if second b1 then
              match r1 with
              | b2 :: r2 =>
                  if continuation b2 then
                    match r2 with
                    | b3 :: r3 =>
                        if continuation b3
                        then Char ((bz b0 - 0xF0) * 262144 + (bz b1 - 0x80) * 4096
                                   + (bz b2 - 0x80) * 64 + (bz b3 - 0x80)) r3
                        else Invalid r2
                    | [] => Invalid r2
                    end
                  else Invalid r1
              | [] => Invalid r1
              end
            else Invalid r0
        | [] => Invalid r0
        end
      else Invalid r0
  end.

(** [str::chars] of well-formed UTF-8, [None] for anything else. Every step takes
    a byte, so the length is fuel enough. *)
Fixpoint chars_fuel (fuel : nat) (s : list byte) : option (list Z) :=
  match fuel, utf8_step s with
  | _, End => Some []
  | S fuel', Char c rest => cons c <$> chars_fuel fuel' rest
  | _, _ => None
  end.

Definition chars (s : list byte) : option (list Z) := chars_fuel (length s) s.

(** [String::from_utf8]: the same bytes when they are UTF-8. *)
Definition from_utf8 (s : list byte) : option (list byte) :=
  match chars s with Some _ => Some s | None => None end.

(** [String::from_utf8_lossy]: U+FFFD for every invalid prefix. *)
Fixpoint lossy_fuel (fuel : nat) (s : list byte) : list byte :=
  match fuel, utf8_step s with
  | S fuel', Char c rest => utf8_char c ++ lossy_fuel fuel' rest
  | S fuel', Invalid rest => utf8_char 0xFFFD ++ lossy_fuel fuel' rest
  | _, _ => []
  end.

Definition from_utf8_lossy (s : list byte) : list byte := lossy_fuel (length s) s.

(** [char::encode_utf16]. *)
Definition utf16_char (c : Z) : list Z :=
  if c <? 0x10000 then [c]
  else [0xD800 + (c - 0x10000) / 1024; 0xDC00 + (c - 0x10000) `mod` 1024].

Definition utf16 (cs : list Z) : list Z := cs ≫= utf16_char.

Definition high_surrogate (u : Z) : bool := (0xD800 <=? u) && (u <? 0xDC00).
Definition low_surrogate (u : Z) : bool := (0xDC00 <=? u) && (u <? 0xE000).

(** [String::from_utf16]: [None] for a surrogate without its other half. *)
Fixpoint utf16_chars (units : list Z) : option (list Z) :=
  match units with
  | [] => Some []
  | u :: rest =>
      if high_surrogate u then
        match rest with
        | v :: rest' =>
            if low_surrogate v
            then cons (0x10000 + (u - 0xD800) * 1024 + (v - 0xDC00)) <$> utf16_chars rest'
            else None
        | [] => None
        end
      else if low_surrogate u then None
      else cons u <$> utf16_chars rest
  end.

Definition from_utf16 (units : list Z) : option (list byte) := utf8 <$> utf16_chars units.

(** [String::from_utf16_lossy]. *)
Fixpoint utf16_chars_lossy (units : list Z) : list Z :=
  match units with
  | [] => []
  | u :: rest =>
      if high_surrogate u then
        match rest with
        | v :: rest' =>
            if low_surrogate v
            then (0x10000 + (u - 0xD800) * 1024 + (v - 0xDC00)) :: utf16_chars_lossy rest'
            else 0xFFFD :: utf16_chars_lossy rest
        | [] => [0xFFFD]
        end
      else if low_surrogate u then 0xFFFD :: utf16_chars_lossy rest
      else u :: utf16_chars_lossy rest
  end.

(** [char::is_whitespace]: Unicode's White_Space. *)
Definition is_whitespace (c : Z) : bool :=
  ((9 <=? c) && (c <=? 13)) || bool_decide (c ∈ [0x20; 0x85; 0xA0; 0x1680; 0x2028; 0x2029; 0x202F; 0x205F; 0x3000])
  || ((0x2000 <=? c) && (c <=? 0x200A)).

(** [str::trim_start]. *)
Fixpoint trim_start_fuel (fuel : nat) (s : list byte) : list byte :=
  match fuel, utf8_step s with
  | S fuel', Char c rest => if is_whitespace c then trim_start_fuel fuel' rest else s
  | _, _ => s
  end.

Definition trim_start (s : list byte) : list byte := trim_start_fuel (length s) s.

(** [str::trim_end] and [str::trim], which leave anything but UTF-8 alone. *)
Fixpoint drop_whitespace (cs : list Z) : list Z :=
  match cs with
  | c :: cs' => if is_whitespace c then drop_whitespace cs' else cs
  | [] => []
  end.

Definition trim_end (s : list byte) : list byte :=
  match chars s with
  | Some cs => utf8 (rev (drop_whitespace (rev cs)))
  | None => s
  end.

Definition trim (s : list byte) : list byte := trim_end (trim_start s).

(** [contains(char::is_whitespace)] *)
Definition has_whitespace (s : list byte) : bool := existsb is_whitespace (default [] (chars s)).

(** [split] at the characters a test accepts, and [split_whitespace]. *)
Fixpoint split_at (p : Z -> bool) (cs : list Z) : list (list Z) :=
  match cs with
  | [] => [[]]
  | c :: cs => if p c then [] :: split_at p cs else match split_at p cs with w :: ws => (c :: w) :: ws | [] => [[c]] end
  end.

Definition split_chars (p : Z -> bool) (s : list byte) : list (list byte) := map utf8 (split_at p (default [] (chars s))).

Definition split_whitespace (s : list byte) : list (list byte) :=
  List.filter (fun w => negb (bool_decide (w = []))) (split_chars is_whitespace s).

(** [str::lines]: what each line feed ends, without the carriage return before it, and what
    is left after the last. *)
Definition drop_cr (line : list byte) : list byte := default line (strip_suffix [x0d] line).

Definition str_lines (s : list byte) : list (list byte) :=
  let pieces := split_on x0a s in
  map drop_cr (removelast pieces) ++ match last pieces with Some [] | None => [] | Some rest => [rest] end.

(** ** Lemmas *)

Lemma in_range_true lo hi b : in_range lo hi b = true <-> lo <= bz b <= hi.
Proof. unfold in_range. lia. Qed.

Lemma is_scalar_range c : is_scalar c = true <-> 0 <= c < 0xD800 \/ 0xE000 <= c < 0x110000.
Proof. unfold is_scalar. lia. Qed.

(** Turns the tests of a decoder branch into bounds. *)
Ltac ranges :=
  repeat match goal with
  | H : context [continuation] |- _ => unfold continuation in H
  | H : context [in_range] |- _ => unfold in_range in H
  end; unfold continuation, in_range.

Lemma utf8_step_char c rest :
  is_scalar c = true -> utf8_step (utf8_char c ++ rest) = Char c rest.
Proof.
  rewrite is_scalar_range. intros Hc. unfold utf8_char.
  repeat case_match; simpl app; cbn -[Z.add Z.mul Z.sub bz zb in_range continuation];
    ranges; rewrite !bz_zb_small by dlia;
    repeat (case_match; try (exfalso; rewrite ?bz_zb in *; dlia));
    try (f_equal; rewrite ?bz_zb in *; dlia).
Qed.

(** What a step reads as a character is that character's encoding. *)
Lemma utf8_step_inv s c rest :
  utf8_step s = Char c rest -> is_scalar c = true /\ s = utf8_char c ++ rest.
Proof.
  rewrite is_scalar_range. unfold utf8_step. intros H.
  repeat (case_match; try discriminate); simplify_eq; ranges;
    repeat match goal with b : byte |- _ =>
      lazymatch goal with H : 0 <= bz b < 256 |- _ => fail | _ => pose proof (bz_range b) end end;
    (split; [lia|]); unfold utf8_char;
    repeat (case_match; try (exfalso; lia));
    simpl app; repeat (apply cons_zb; [dlia | dlia |]); reflexivity.
Qed.

Lemma utf8_char_nonempty c : utf8_char c <> [].
Proof. unfold utf8_char. by repeat case_match. Qed.

Lemma utf8_char_length c : (1 <= length (utf8_char c) <= 4)%nat.
Proof. unfold utf8_char. repeat case_match; simpl; lia. Qed.

Lemma utf8_step_length s :
  match utf8_step s with
  | Char _ rest | Invalid rest => (length rest < length s)%nat
  | End => s = []
  end.
Proof. unfold utf8_step. repeat (case_match; try discriminate); simplify_eq; cbn [length]; lia || done. Qed.

Lemma chars_fuel_utf8 cs fuel :
  Forall (fun c => is_scalar c = true) cs -> (length (utf8 cs) <= fuel)%nat ->
  chars_fuel fuel (utf8 cs) = Some cs.
Proof.
  intros Hcs. revert fuel. induction Hcs as [|c cs Hc _ IH]; intros fuel Hf; [by destruct fuel|].
  unfold utf8 in Hf |- *. rewrite bind_cons in Hf |- *. rewrite length_app in Hf.
  pose proof (utf8_char_length c). destruct fuel as [|fuel]; [lia|].
  simpl. rewrite utf8_step_char by done. unfold utf8 in IH. rewrite IH by lia. done.
Qed.

Lemma chars_utf8 cs : Forall (fun c => is_scalar c = true) cs -> chars (utf8 cs) = Some cs.
Proof. intros. by apply chars_fuel_utf8. Qed.

Lemma chars_fuel_inv fuel s cs :
  chars_fuel fuel s = Some cs -> s = utf8 cs /\ Forall (fun c => is_scalar c = true) cs.
Proof.
  revert s cs. induction fuel as [|fuel IH]; intros s cs H.
  - simpl in H. pose proof (utf8_step_length s). destruct (utf8_step s); simplify_eq; by split.
  - simpl in H. pose proof (utf8_step_length s) as Hl.
    destruct (utf8_step s) as [c rest|rest|] eqn:E; [|done|simplify_eq; by split].
    apply utf8_step_inv in E as [Hc ->].
    destruct (chars_fuel fuel rest) as [cs'|] eqn:E'; [|done]. simplify_eq/=.
    apply IH in E' as [-> ?]. split; [done | by constructor].
Qed.

Lemma chars_Some s cs :
  chars s = Some cs <-> s = utf8 cs /\ Forall (fun c => is_scalar c = true) cs.
Proof. split; [apply chars_fuel_inv | intros [-> ?]; by apply chars_utf8]. Qed.

Lemma from_utf8_Some s t : from_utf8 s = Some t -> t = s /\ exists cs, chars s = Some cs.
Proof. unfold from_utf8. destruct (chars s); naive_solver. Qed.

Lemma from_utf8_utf8 cs :
  Forall (fun c => is_scalar c = true) cs -> from_utf8 (utf8 cs) = Some (utf8 cs).
Proof. intros. unfold from_utf8. by rewrite chars_utf8. Qed.

(** Lossy conversion keeps well-formed text. *)
Lemma lossy_fuel_utf8 cs fuel :
  Forall (fun c => is_scalar c = true) cs -> (length (utf8 cs) <= fuel)%nat ->
  lossy_fuel fuel (utf8 cs) = utf8 cs.
Proof.
  intros Hcs. revert fuel. induction Hcs as [|c cs Hc _ IH]; intros fuel Hf; [by destruct fuel|].
  unfold utf8 in Hf, IH |- *. rewrite bind_cons in Hf |- *. rewrite length_app in Hf.
  pose proof (utf8_char_length c). destruct fuel as [|fuel]; [lia|].
  simpl. rewrite utf8_step_char by done. by rewrite IH by lia.
Qed.

Lemma from_utf8_lossy_utf8 cs :
  Forall (fun c => is_scalar c = true) cs -> from_utf8_lossy (utf8 cs) = utf8 cs.
Proof. intros. by apply lossy_fuel_utf8. Qed.

Lemma from_utf8_lossy_valid s cs : chars s = Some cs -> from_utf8_lossy s = s.
Proof. intros [-> ?]%chars_Some. by apply from_utf8_lossy_utf8. Qed.

(** A byte that is not part of a character becomes the three of U+FFFD. *)
Lemma lossy_length s : (length (from_utf8_lossy s) <= 3 * length s)%nat.
Proof.
  unfold from_utf8_lossy. generalize (length s) at 1. intros fuel. revert s. induction fuel as [|fuel IH]; intros s; cbn [lossy_fuel]; [simpl; lia|].
  pose proof (utf8_step_length s) as Hl. destruct (utf8_step s) as [c rest|rest|] eqn:E; [| |simpl; lia].
  - apply utf8_step_inv in E as [_ ->]. rewrite !length_app. specialize (IH rest). lia.
  - rewrite length_app. specialize (IH rest). change (length (utf8_char 0xFFFD)) with 3%nat. lia.
Qed.

Lemma utf8_app cs ds : utf8 (cs ++ ds) = utf8 cs ++ utf8 ds.
Proof. apply bind_app. Qed.

(** ASCII text is its own list of characters. *)
Lemma utf8_ascii (s : list byte) :
  Forall (fun b => is_ascii b = true) s -> utf8 (bz <$> s) = s.
Proof.
  induction 1 as [|b s Hb _ IH]; [done|]. unfold utf8 in *. rewrite fmap_cons, bind_cons, IH.
  unfold utf8_char, is_ascii in *. rewrite Hb. simpl. by rewrite zb_bz.
Qed.

Lemma chars_ascii (s : list byte) :
  Forall (fun b => is_ascii b = true) s -> chars s = Some (bz <$> s).
Proof.
  intros H. apply chars_Some. rewrite utf8_ascii by done. split; [done|].
  apply Forall_fmap. eapply Forall_impl; [exact H|]. intros b Hb. simpl.
  unfold is_ascii in Hb. pose proof (bz_range b). apply is_scalar_range. lia.
Qed.

Lemma utf16_chars_app_char c us :
  is_scalar c = true -> utf16_chars (utf16_char c ++ us) = cons c <$> utf16_chars us.
Proof.
  rewrite is_scalar_range. intros Hc. unfold utf16_char. case_match; simpl;
    unfold high_surrogate, low_surrogate;
    repeat (case_match; try (exfalso; dlia)); f_equal; try (f_equal; dlia).
Qed.

Lemma utf16_chars_utf16 cs :
  Forall (fun c => is_scalar c = true) cs -> utf16_chars (utf16 cs) = Some cs.
Proof.
  induction 1 as [|c cs Hc _ IH]; [done|].
  unfold utf16 in *. rewrite bind_cons, utf16_chars_app_char by done. by rewrite IH.
Qed.

Lemma from_utf16_utf16 cs :
  Forall (fun c => is_scalar c = true) cs -> from_utf16 (utf16 cs) = Some (utf8 cs).
Proof. intros. unfold from_utf16. by rewrite utf16_chars_utf16. Qed.

Lemma utf16_range cs :
  Forall (fun c => is_scalar c = true) cs -> Forall (fun u => 0 <= u < 65536) (utf16 cs).
Proof.
  intros H. apply Forall_bind. eapply Forall_impl; [exact H|]. intros c Hc.
  apply is_scalar_range in Hc. simpl. unfold utf16_char.
  destruct (c <? 65536) eqn:?; repeat apply Forall_cons_2; try apply Forall_nil_2; dlia.
Qed.

(** Text without blanks keeps all of it when it is trimmed. *)
Definition graphic (b : byte) : bool := (33 <=? bz b) && (bz b <=? 126).

Lemma graphic_char b : graphic b = true -> is_ascii b = true /\ is_whitespace (bz b) = false.
Proof. revert b. intros b. by_bytes b. Qed.

Lemma trim_graphic s : Forall (fun b => graphic b = true) s -> trim s = s.
Proof.
  intros H.
  assert (Ha : Forall (fun b => is_ascii b = true) s)
    by (eapply Forall_impl; [exact H | intros; by apply graphic_char]).
  assert (trim_start s = s) as E.
  { destruct s as [|b s]; [done|]. unfold trim_start. cbn -[utf8_step is_whitespace].
    apply Forall_cons in H as [[_ Hw]%graphic_char _]. apply Forall_cons in Ha as [Hb _].
    assert (utf8_step (b :: s) = Char (bz b) s) as ->; [|by rewrite Hw].
    pose proof (utf8_step_char (bz b) s) as Hs. pose proof (bz_range b).
    unfold utf8_char, is_ascii in *. rewrite Hb, zb_bz in Hs. apply Hs, is_scalar_range. lia. }
  unfold trim. rewrite E. unfold trim_end. rewrite chars_ascii by done.
  assert (drop_whitespace (rev (bz <$> s)) = rev (bz <$> s)) as ->;
    [|by rewrite rev_involutive, utf8_ascii].
  destruct (rev (bz <$> s)) as [|c cs] eqn:Er; [done|]. simpl.
  assert (Hc : c ∈ bz <$> s) by (rewrite list_elem_of_In, in_rev, Er; by left).
  apply list_elem_of_fmap in Hc as (b & -> & Hb).
  by rewrite (proj2 (graphic_char b (proj1 (Forall_forall _ _) H b Hb))).
Qed.
