(* ===== verification/ImapCommand.v ===== *)
(** * IMAP commands (crates\/uwumail-imap\/src\/command.rs)

    The data a parsed command is made of, one [Module] per Rust enum so that the
    constructors keep their names, and the sequence set operations. Strings are
    UTF-8 byte lists; [u32], [u64] and [i64] fields are integers whose range the
    parser's theorems establish. *)

From S2P Require Import Prelude.

Module SeqNum.
Inductive SeqNum : Type := Value (n : Z) | Largest | Saved.
End SeqNum.
Abbreviation SeqNum := SeqNum.SeqNum.

#[export] Instance seqnum_eq_decision : EqDecision SeqNum.
Proof. solve_decision. Defined.

Definition resolve (n : SeqNum) (largest : Z) : Z :=
  match n with
  | SeqNum.Value value => value
  | SeqNum.Largest => largest
  | SeqNum.Saved => 0
  end.

(** Message sequence numbers or UIDs, like [1:4,7,9:*]. *)
Definition SequenceSet : Type := list (SeqNum * SeqNum).

Definition contains (set : SequenceSet) (number largest : Z) : bool :=
  existsb (fun '(from, to) =>
    let a := resolve from largest in
    let b := resolve to largest in
    (Z.min a b <=? number) && (number <=? Z.max a b)) set.

Definition uses_saved (set : SequenceSet) : bool :=
  existsb (fun '(from, to) => bool_decide (from = SeqNum.Saved) || bool_decide (to = SeqNum.Saved)) set.

Definition ranges (set : SequenceSet) (largest : Z) : list (Z * Z) :=
  map (fun '(from, to) =>
    let a := resolve from largest in
    let b := resolve to largest in
    (Z.min a b, Z.max a b)) set.

Record QresyncParams := {
  uid_validity : Z;
  qresync_modseq : Z;
  known_uids : option SequenceSet;
}.

Module StatusItem.
Inductive StatusItem : Type :=
  Messages | Recent | UidNext | UidValidity | Unseen | Size | Deleted | HighestModSeq.
End StatusItem.
Abbreviation StatusItem := StatusItem.StatusItem.

Module StoreAction.
Inductive StoreAction : Type := Replace | Add | Remove.
End StoreAction.
Abbreviation StoreAction := StoreAction.StoreAction.

Record ListCommand := {
  reference : list byte;
  patterns : list (list byte);
  subscribed : bool;
  special_use : bool;
  return_subscribed : bool;
  return_children : bool;
  return_special_use : bool;
  return_status : option (list StatusItem);
  extended : bool;
}.

(** [ListCommand::default()]. *)
Definition list_default : ListCommand := {|
  reference := [];
  patterns := [];
  subscribed := false;
  special_use := false;
  return_subscribed := false;
  return_children := false;
  return_special_use := false;
  return_status := None;
  extended := false;
|}.

(** Assignments to its fields. *)
Definition with_reference (r : list byte) (l : ListCommand) : ListCommand :=
  {| reference := r; patterns := patterns l; subscribed := subscribed l; special_use :=
     special_use l; return_subscribed := return_subscribed l; return_children :=
     return_children l; return_special_use := return_special_use l; return_status :=
     return_status l; extended := extended l |}.

Definition with_pattern (p : list byte) (l : ListCommand) : ListCommand :=
  {| reference := reference l; patterns := patterns l ++ [p]; subscribed := subscribed l;
     special_use := special_use l; return_subscribed := return_subscribed l; return_children :=
     return_children l; return_special_use := return_special_use l; return_status :=
     return_status l; extended := extended l |}.

Definition with_subscribed (l : ListCommand) : ListCommand :=
  {| reference := reference l; patterns := patterns l; subscribed := true; special_use :=
     special_use l; return_subscribed := return_subscribed l; return_children :=
     return_children l; return_special_use := return_special_use l; return_status :=
     return_status l; extended := extended l |}.

Definition with_special_use (l : ListCommand) : ListCommand :=
  {| reference := reference l; patterns := patterns l; subscribed := subscribed l; special_use
     := true; return_subscribed := return_subscribed l; return_children := return_children l;
     return_special_use := return_special_use l; return_status := return_status l; extended :=
     extended l |}.

Definition with_return_subscribed (l : ListCommand) : ListCommand :=
  {| reference := reference l; patterns := patterns l; subscribed := subscribed l; special_use
     := special_use l; return_subscribed := true; return_children := return_children l;
     return_special_use := return_special_use l; return_status := return_status l; extended :=
     extended l |}.

Definition with_return_children (l : ListCommand) : ListCommand :=
  {| reference := reference l; patterns := patterns l; subscribed := subscribed l; special_use
     := special_use l; return_subscribed := return_subscribed l; return_children := true;
     return_special_use := return_special_use l; return_status := return_status l; extended :=
     extended l |}.

Definition with_return_special_use (l : ListCommand) : ListCommand :=
  {| reference := reference l; patterns := patterns l; subscribed := subscribed l; special_use
     := special_use l; return_subscribed := return_subscribed l; return_children :=
     return_children l; return_special_use := true; return_status := return_status l; extended
     := extended l |}.

Definition with_extended (l : ListCommand) : ListCommand :=
  {| reference := reference l; patterns := patterns l; subscribed := subscribed l; special_use
     := special_use l; return_subscribed := return_subscribed l; return_children :=
     return_children l; return_special_use := return_special_use l; return_status :=
     return_status l; extended := true |}.

Definition with_return_status (items : list StatusItem) (l : ListCommand) : ListCommand :=
  {| reference := reference l; patterns := patterns l; subscribed := subscribed l; special_use
     := special_use l; return_subscribed := return_subscribed l; return_children :=
     return_children l; return_special_use := return_special_use l; return_status := Some
     items; extended := extended l |}.

Module SectionText.
Inductive SectionText : Type :=
  Header | HeaderFields (names : list (list byte)) | HeaderFieldsNot (names : list (list byte))
  | Text | Mime.
End SectionText.
Abbreviation SectionText := SectionText.SectionText.

#[export] Instance section_text_eq_decision : EqDecision SectionText.
Proof. solve_decision. Defined.

(** A part of a message: numbers of nested body parts, then what of that part. *)
Record BodySection := {
  section_part : list Z;
  section_text : option SectionText;
}.

#[export] Instance body_section_eq_decision : EqDecision BodySection.
Proof. solve_decision. Defined.

Module FetchItem.
Inductive FetchItem : Type :=
  | Envelope | Flags | InternalDate | Rfc822 | Rfc822Header | Rfc822Size | Rfc822Text
  | Body | BodyStructure | Uid | ModSeq
  | BodySection (section : BodySection) (partial : option (Z * Z)) (peek : bool)
  | Binary (part : list Z) (partial : option (Z * Z)) (peek : bool)
  | BinarySize (part : list Z).
End FetchItem.
Abbreviation FetchItem := FetchItem.FetchItem.

#[export] Instance fetch_item_eq_decision : EqDecision FetchItem.
Proof. solve_decision. Defined.

Module SearchReturn.
Inductive SearchReturn : Type := Min | Max | All | Count | Save.
End SearchReturn.
Abbreviation SearchReturn := SearchReturn.SearchReturn.

Module SearchKey.
Inductive SearchKey : Type :=
  | All
  | And (keys : list SearchKey)
  | Or (left right : SearchKey)
  | Not (inner : SearchKey)
  | SequenceSet (set : SequenceSet)
  | Uid (set : SequenceSet)
  | Keyword (name : list byte) | Unkeyword (name : list byte)
  | New | Old | Recent
  | Bcc (text : list byte) | Cc (text : list byte) | From (text : list byte) | To (text : list byte)
  | Subject (text : list byte) | Body (text : list byte) | Text (text : list byte)
  | Header (field text : list byte)
  | Before (day : Z) | On (day : Z) | Since (day : Z)
  | SentBefore (day : Z) | SentOn (day : Z) | SentSince (day : Z)
  | Larger (size : Z) | Smaller (size : Z) | ModSeq (modseq : Z)
  | Younger (seconds : Z) | Older (seconds : Z).
End SearchKey.
Abbreviation SearchKey := SearchKey.SearchKey.

Module CommandBody.
Inductive CommandBody : Type :=
  | Capability | Noop | Logout | StartTls | Id
  | Login (username password : list byte)
  | Authenticate (mechanism : list byte) (initial : option (list byte))
  | Enable (capabilities : list (list byte))
  | Namespace
  | Select (mailbox : list byte) (read_only condstore : bool) (qresync : option QresyncParams)
  | Create (mailbox : list byte)
  | Delete (mailbox : list byte)
  | Rename (from to : list byte)
  | Subscribe (mailbox : list byte)
  | Unsubscribe (mailbox : list byte)
  | List (command : ListCommand)
  | Lsub (reference pattern : list byte)
  | Status (mailbox : list byte) (items : list StatusItem)
  | Append (mailbox : list byte) (flags : list (list byte)) (date : option Z) (message : list byte)
  | Idle | Check | Close | Unselect
  | Expunge (uids : option SequenceSet)
  | Search (uid : bool) (returns : option (list SearchReturn)) (criteria : SearchKey)
  | Fetch (uid : bool) (set : SequenceSet) (items : list FetchItem) (changed_since : option Z)
      (vanished : bool)
  | Store (uid : bool) (set : SequenceSet) (unchanged_since : option Z) (action : StoreAction)
      (silent : bool) (flags : list (list byte))
  | Copy (uid : bool) (set : SequenceSet) (mailbox : list byte)
  | Move (uid : bool) (set : SequenceSet) (mailbox : list byte)
  | GetQuota (root : list byte)
  | GetQuotaRoot (mailbox : list byte)
  | Unauthenticate
  | GetAcl (mailbox : list byte)
  | SetAcl (mailbox identifier rights : list byte)
  | DeleteAcl (mailbox identifier : list byte)
  | ListRights (mailbox identifier : list byte)
  | MyRights (mailbox : list byte).
End CommandBody.
Abbreviation CommandBody := CommandBody.CommandBody.

Record Command := { tag : list byte; body : CommandBody }.

(** ** Measures of a search: how deep it nests and how many keys it has *)

Fixpoint key_depth (key : SearchKey) : nat :=
  match key with
  | SearchKey.And keys => S (foldr (fun k n => Nat.max (key_depth k) n) 0 keys)%nat
  | SearchKey.Or l r => S (Nat.max (key_depth l) (key_depth r))
  | SearchKey.Not k => S (key_depth k)
  | _ => 1%nat
  end.

Fixpoint key_count (key : SearchKey) : nat :=
  match key with
  | SearchKey.And keys => foldr (fun k n => key_count k + n)%nat 0%nat keys
  | SearchKey.Or l r => S (key_count l + key_count r)
  | SearchKey.Not k => S (key_count k)
  | _ => 1%nat
  end.

(** The sequence sets a search names. *)
Fixpoint key_sets (key : SearchKey) : list SequenceSet :=
  match key with
  | SearchKey.And keys => foldr (fun k sets => key_sets k ++ sets) [] keys
  | SearchKey.Or l r => key_sets l ++ key_sets r
  | SearchKey.Not k => key_sets k
  | SearchKey.SequenceSet set | SearchKey.Uid set => [set]
  | _ => []
  end.

(** The induction principle through the list of an [And]. *)
Section search_key_ind.
Variable P : SearchKey -> Prop.
Hypothesis Hand : forall keys, Forall P keys -> P (SearchKey.And keys).
Hypothesis Hor : forall l r, P l -> P r -> P (SearchKey.Or l r).
Hypothesis Hnot : forall k, P k -> P (SearchKey.Not k).
Hypothesis Hleaf : forall k,
  match k with SearchKey.And _ | SearchKey.Or _ _ | SearchKey.Not _ => True | _ => P k end.

Fixpoint search_key_ind' (k : SearchKey) : P k :=
  match k with
  | SearchKey.And keys => Hand keys
      ((fix go (ks : list SearchKey) : Forall P ks :=
          match ks with
          | [] => List.Forall_nil P
          | k' :: ks' => List.Forall_cons P k' ks' (search_key_ind' k') (go ks')
          end) keys)
  | SearchKey.Or l r => Hor l r (search_key_ind' l) (search_key_ind' r)
  | SearchKey.Not k' => Hnot k' (search_key_ind' k')
  | k' => Hleaf k'
  end.
End search_key_ind.

(** ** Sequence sets *)

Lemma set_contains_iff set number largest :
  contains set number largest = true <->
  exists r, r ∈ ranges set largest /\ r.1 <= number <= r.2.
Proof.
  unfold contains, ranges. rewrite existsb_exists. split.
  - intros ([from to] & Hin & H). exists (Z.min (resolve from largest) (resolve to largest),
      Z.max (resolve from largest) (resolve to largest)). split; [|simpl; lia].
    apply list_elem_of_In, in_map_iff. by exists (from, to).
  - intros (r & Hin & Hr). apply list_elem_of_In, in_map_iff in Hin as ([from to] & <- & Hin).
    exists (from, to). split; [done | simpl in *; lia].
Qed.

Lemma contains_app s t number largest :
  contains (s ++ t) number largest = contains s number largest || contains t number largest.
Proof. apply existsb_app. Qed.

