(* ===== verification/ImapMutf7.v ===== *)
(** * Modified UTF-7 (crates\/uwumail-imap\/src\/mutf7.rs)

    How mailbox names travel before a client enables UTF8=ACCEPT: [encode] and
    [decode], with the bit arithmetic of the base64 groups as the code writes it.
    The theorems: what [encode] writes, [decode] reads back, for every name there
    is, and it is printable ASCII. *)

From S2P Require Import Prelude Utf8.

Definition ALPHABET : list byte :=
  bs "ABCDEFGHIJKLMNOPQRSTUVWXYZabcdefghijklmnopqrstuvwxyz0123456789+,".

(** [ALPHABET[i]]; the indexes are six bits, so always in bounds. *)
Definition alphabet_at (i : Z) : byte := default x00 (ALPHABET !! Z.to_nat i).

(** [u16::to_be_bytes]. *)
Definition to_be_bytes (unit : Z) : list byte := [zb (Z.shiftr unit 8); zb unit].

Definition u32_shl (x k : Z) : Z := Z.land (Z.shiftl x k) u32_max.

(** The characters of one chunk of at most three bytes. *)
Definition encode_chunk (chunk : list byte) : list byte :=
  let byte_at i := bz (default x00 (chunk !! i)) in
  let n := Z.lor (Z.lor (u32_shl (byte_at 0%nat) 16) (u32_shl (byte_at 1%nat) 8)) (byte_at 2%nat) in
  (fun i => alphabet_at (Z.land (Z.shiftr n (18 - 6 * Z.of_nat i)) 0x3f)) <$> seq 0 (S (length chunk)).

(** [bytes.chunks(3)], each encoded. *)
Fixpoint encode_chunks (bytes : list byte) : list byte :=
  match bytes with
  | [] => []
  | b0 :: b1 :: b2 :: rest => encode_chunk [b0; b1; b2] ++ encode_chunks rest
  | chunk => encode_chunk chunk
  end.

(** The closure [flush]: what it appends to [out] for the pending units. *)
Definition flush (pending : list Z) : list byte :=
  match pending with
  | [] => []
  | _ => "&"%byte :: encode_chunks (pending ≫= to_be_bytes) ++ ["-"%byte]
  end.

Fixpoint encode_loop (pending : list Z) (out : list byte) (cs : list Z) : list byte :=
  match cs with
  | [] => out ++ flush pending
  | c :: cs' =>
      if c =? 0x26 then encode_loop [] (out ++ flush pending ++ bs "&-") cs'
      else if (0x20 <=? c) && (c <=? 0x7e)
      then encode_loop [] (out ++ flush pending ++ utf8_char c) cs'
      else encode_loop (pending ++ utf16_char c) out cs'
  end.

(** A [&str] is UTF-8, so there are always characters. *)
Definition encode (name : list byte) : list byte :=
  encode_loop [] [] (default [] (chars name)).

(** The loop over the bytes between [&] and [-]. *)
Fixpoint decode_bits (encoded : list byte) (bits count : Z) (bytes : list byte) : option (list byte) :=
  match encoded with
  | [] => Some bytes
  | b :: rest =>
      match position (fun a => bool_decide (a = b)) ALPHABET with
      | None => None
      | Some value =>
          let bits := Z.lor (u32_shl bits 6) (Z.of_nat value) in
          let count := count + 6 in
          if 8 <=? count then
            let count := count - 8 in
            decode_bits rest (Z.land bits (Z.shiftl 1 count - 1)) count
              (bytes ++ [zb (Z.shiftr bits count)])
          else decode_bits rest bits count bytes
      end
  end.

(** [bytes.chunks(2)] read as big-endian units; [None] when one is left over. *)
Fixpoint from_be_units (bytes : list byte) : option (list Z) :=
  match bytes with
  | [] => Some []
  | [_] => None
  | hi :: lo :: rest => cons (Z.lor (Z.shiftl (bz hi) 8) (bz lo)) <$> from_be_units rest
  end.

Definition decode_encoded (encoded : list byte) : option (list byte) :=
  match encoded with
  | [] => Some ["&"%byte]
  | _ =>
      bytes ← decode_bits encoded 0 0 [];
      units ← from_be_units bytes;
      from_utf16 units
  end.

(** The [while let] loop. Every turn takes at least the [&] and the [-], so the
    length is fuel enough ([decode_loop_fuel]). *)
Fixpoint decode_loop (fuel : nat) (rest : list byte) : option (list byte) :=
  match fuel with
  | O => None
  | S fuel' =>
      match split_once "&"%byte rest with
      | None => Some rest
      | Some (before, after) =>
          match split_once "-"%byte after with
          | None => None
          | Some (encoded, rest') =>
              text ← decode_encoded encoded;
              tail ← decode_loop fuel' rest';
              Some (before ++ text ++ tail)
          end
      end
  end.

Definition decode (text : list byte) : option (list byte) := decode_loop (S (length text)) text.

Example encode_umlaut : encode (utf8 [0x45; 0x6e; 0x74; 0x77; 0xfc; 0x72; 0x66; 0x65]) = bs "Entw&APw-rfe".
Proof. reflexivity. Qed.

Example encode_cat : encode (utf8 [0x1f431; 0x20; 0x4e]) = bs "&2D3cMQ- N".
Proof. reflexivity. Qed.

Example decode_cat : decode (bs "&2D3cMQ- N") = Some (utf8 [0x1f431; 0x20; 0x4e]).
Proof. reflexivity. Qed.

Example decode_broken : decode (bs "&Jjo!") = None.
Proof. reflexivity. Qed.

(** ** The base64 groups *)

Lemma alphabet_position v :
  0 <= v < 64 -> position (fun a => bool_decide (a = alphabet_at v)) ALPHABET = Some (Z.to_nat v).
Proof.
  intros Hv. assert (Hall : forallb (fun i => bool_decide
    (position (fun a => bool_decide (a = alphabet_at (Z.of_nat i))) ALPHABET = Some i)) (seq 0 64) = true)
    by (vm_compute; reflexivity).
  rewrite forallb_forall in Hall. specialize (Hall (Z.to_nat v)).
  rewrite Z2Nat.id in Hall by lia. eapply bool_decide_eq_true, Hall, in_seq. lia.
Qed.

(** No group holds a [-], and all of them are printable ASCII without [&]. *)
Lemma alphabet_at_ok v : 0 <= v < 64 ->
  alphabet_at v <> "-"%byte /\ alphabet_at v <> "&"%byte /\ 0x20 <= bz (alphabet_at v) <= 0x7e.
Proof.
  intros Hv. assert (Hall : forallb (fun i => let b := alphabet_at (Z.of_nat i) in
    bool_decide (b <> "-"%byte) && bool_decide (b <> "&"%byte) && (0x20 <=? bz b) && (bz b <=? 0x7e))
    (seq 0 64) = true) by (vm_compute; reflexivity).
  rewrite forallb_forall in Hall. specialize (Hall (Z.to_nat v)).
  rewrite Z2Nat.id in Hall by lia. destruct (andb_prop _ _ (Hall ltac:(apply in_seq; lia))) as [H1 H2].
  apply andb_prop in H1 as [H1 H3]. apply andb_prop in H1 as [H1 H4].
  split; [by apply bool_decide_eq_true in H1|]. split; [by apply bool_decide_eq_true in H4 | lia].
Qed.

Lemma u32_shl_small x k : 0 <= k -> 0 <= x * 2 ^ k <= u32_max -> u32_shl x k = x * 2 ^ k.
Proof.
  intros Hk Hx. unfold u32_shl. rewrite Z.shiftl_mul_pow2 by done.
  change u32_max with (Z.shiftl 1 32 - 1). rewrite land_ones_mod by done. apply Z.mod_small.
  unfold u32_max in Hx. lia.
Qed.

(** The sextets of a chunk as division and remainder. *)
Lemma encode_chunk_value b0 b1 b2 :
  Z.lor (Z.lor (u32_shl (bz b0) 16) (u32_shl (bz b1) 8)) (bz b2) = bz b0 * 65536 + bz b1 * 256 + bz b2.
Proof.
  pose proof (bz_range b0). pose proof (bz_range b1). pose proof (bz_range b2).
  rewrite !u32_shl_small by (unfold u32_max; lia).
  change (2 ^ 16) with (2 ^ 8 * 2 ^ 8). rewrite Z.mul_assoc.
  rewrite <- (Z.shiftl_mul_pow2 (bz b0 * 2 ^ 8)), <- (Z.shiftl_mul_pow2 (bz b1)) by lia.
  rewrite <- Z.shiftl_lor, <- (Z.shiftl_mul_pow2 (bz b0)), lor_shiftl_add, lor_shiftl_add by lia. lia.
Qed.

Definition sextet (n i : Z) : Z := (n / 2 ^ (18 - 6 * i)) `mod` 64.

Lemma sextet_range n i : 0 <= sextet n i < 64.
Proof. apply Z.mod_pos_bound. lia. Qed.

Lemma encode_chunk_eq chunk :
  (length chunk <= 3)%nat ->
  let byte_at i := bz (default x00 (chunk !! i)) in
  let n := byte_at 0%nat * 65536 + byte_at 1%nat * 256 + byte_at 2%nat in
  encode_chunk chunk = (fun i => alphabet_at (sextet n (Z.of_nat i))) <$> seq 0 (S (length chunk)).
Proof.
  intros Hlen byte_at n. unfold encode_chunk. rewrite encode_chunk_value. fold byte_at n.
  apply list_fmap_ext. intros k i Hi. apply lookup_seq in Hi as [-> Hi]. f_equal. unfold sextet.
  rewrite Z.shiftr_div_pow2 by lia. change 0x3f with (Z.shiftl 1 6 - 1). by apply land_ones_mod.
Qed.

Lemma decode_bits_step v rest bits count bytes :
  0 <= v < 64 -> 0 <= count < 8 -> 0 <= bits < 2 ^ count ->
  decode_bits (alphabet_at v :: rest) bits count bytes =
  if 2 <=? count
  then decode_bits rest ((bits * 64 + v) `mod` 2 ^ (count - 2)) (count - 2)
         (bytes ++ [zb ((bits * 64 + v) / 2 ^ (count - 2))])
  else decode_bits rest (bits * 64 + v) (count + 6) bytes.
Proof.
  intros Hv Hc Hb. cbn [decode_bits]. rewrite alphabet_position by done.
  assert (2 ^ count <= 2 ^ 7) by (apply Z.pow_le_mono_r; lia).
  rewrite u32_shl_small, Z2Nat.id by (unfold u32_max; lia).
  rewrite <- Z.shiftl_mul_pow2, lor_shiftl_add by lia.
  destruct (Z.leb_spec 2 count); case_match; try lia; [|done].
  rewrite land_ones_mod, Z.shiftr_div_pow2 by lia. by replace (count + 6 - 8) with (count - 2) by lia.
Qed.

Lemma decode_bits_first v rest bytes :
  0 <= v < 64 -> decode_bits (alphabet_at v :: rest) 0 0 bytes = decode_bits rest v 6 bytes.
Proof. intros. by rewrite decode_bits_step by lia. Qed.

Lemma decode_bits_emit v rest bits count count' bytes :
  0 <= v < 64 -> 0 <= count' < 6 -> count = count' + 2 -> 0 <= bits < 2 ^ count ->
  decode_bits (alphabet_at v :: rest) bits count bytes =
  decode_bits rest ((bits * 64 + v) `mod` 2 ^ count') count'
    (bytes ++ [zb ((bits * 64 + v) / 2 ^ count')]).
Proof.
  intros Hv Hc -> Hb. rewrite decode_bits_step by lia.
  destruct (2 <=? count' + 2) eqn:?; [|lia]. by replace (count' + 2 - 2) with count' by lia.
Qed.

(** The bytes sextets stand for, and the bits that stay over. *)
Lemma decode_sextets2 v0 v1 rest bytes :
  0 <= v0 < 64 -> 0 <= v1 < 64 ->
  decode_bits (alphabet_at v0 :: alphabet_at v1 :: rest) 0 0 bytes
  = decode_bits rest (v1 `mod` 16) 4 (bytes ++ [zb ((v0 * 64 + v1) / 16)]).
Proof.
  intros. rewrite decode_bits_first, (decode_bits_emit _ _ _ _ 4) by (done || lia).
  change (2 ^ 4) with 16. f_equal. dlia.
Qed.

Lemma decode_sextets3 v0 v1 v2 rest bytes :
  0 <= v0 < 64 -> 0 <= v1 < 64 -> 0 <= v2 < 64 ->
  decode_bits (alphabet_at v0 :: alphabet_at v1 :: alphabet_at v2 :: rest) 0 0 bytes
  = decode_bits rest (v2 `mod` 4) 2
      (bytes ++ [zb ((v0 * 64 + v1) / 16); zb (((v1 `mod` 16) * 64 + v2) / 4)]).
Proof.
  intros. rewrite decode_sextets2, (decode_bits_emit _ _ _ _ 2) by (done || dlia).
  change (2 ^ 2) with 4. rewrite <- app_assoc. f_equal. dlia.
Qed.

Lemma decode_sextets4 v0 v1 v2 v3 rest bytes :
  0 <= v0 < 64 -> 0 <= v1 < 64 -> 0 <= v2 < 64 -> 0 <= v3 < 64 ->
  decode_bits (alphabet_at v0 :: alphabet_at v1 :: alphabet_at v2 :: alphabet_at v3 :: rest) 0 0 bytes
  = decode_bits rest 0 0 (bytes ++
      [zb ((v0 * 64 + v1) / 16); zb (((v1 `mod` 16) * 64 + v2) / 4); zb ((v2 `mod` 4) * 64 + v3)]).
Proof.
  intros. rewrite decode_sextets3, (decode_bits_emit _ _ _ _ 0) by (done || dlia).
  change (2 ^ 0) with 1. by rewrite Z.mod_1_r, Z.div_1_r, <- app_assoc.
Qed.

Lemma decode_chunk3 b0 b1 b2 rest bytes :
  decode_bits (encode_chunk [b0; b1; b2] ++ rest) 0 0 bytes
  = decode_bits rest 0 0 (bytes ++ [b0; b1; b2]).
Proof.
  pose proof (bz_range b0). pose proof (bz_range b1). pose proof (bz_range b2).
  rewrite encode_chunk_eq by (simpl; lia). cbn -[Z.add Z.mul bz decode_bits alphabet_at sextet].
  rewrite decode_sextets4 by apply sextet_range. unfold sextet. simpl.
  do 2 f_equal. symmetry. repeat (apply cons_zb; [dlia | dlia |]). done.
Qed.

(** The text between [&] and [-] reads back as the bytes it was made of. *)
Lemma decode_chunks bytes acc :
  decode_bits (encode_chunks bytes) 0 0 acc = Some (acc ++ bytes).
Proof.
  revert acc. induction bytes as [bytes IH] using (well_founded_induction
    (well_founded_ltof _ (length (A:=byte)))); unfold ltof in IH. intros acc.
  destruct bytes as [|b0 [|b1 [|b2 bytes]]].
  - simpl. by rewrite app_nil_r.
  - pose proof (bz_range b0). unfold encode_chunks. rewrite encode_chunk_eq by (simpl; lia).
    cbn -[Z.add Z.mul bz decode_bits alphabet_at sextet].
    rewrite decode_sextets2 by apply sextet_range. simpl. unfold sextet. do 2 f_equal. symmetry.
    change (bz x00) with 0. repeat (apply cons_zb; [dlia | dlia |]). done.
  - pose proof (bz_range b0). pose proof (bz_range b1).
    unfold encode_chunks. rewrite encode_chunk_eq by (simpl; lia).
    cbn -[Z.add Z.mul bz decode_bits alphabet_at sextet].
    rewrite decode_sextets3 by apply sextet_range. simpl. unfold sextet. do 2 f_equal. symmetry.
    change (bz x00) with 0. repeat (apply cons_zb; [dlia | dlia |]). done.
  - cbn [encode_chunks]. rewrite decode_chunk3, IH by (simpl; lia). by rewrite <- app_assoc.
Qed.

Lemma from_be_units_to_be us :
  Forall (fun u => 0 <= u < 65536) us -> from_be_units (us ≫= to_be_bytes) = Some us.
Proof.
  induction 1 as [|u us Hu _ IH]; [done|]. rewrite bind_cons. unfold to_be_bytes at 1.
  cbn [app from_be_units]. rewrite IH. simpl. do 2 f_equal.
  rewrite Z.shiftr_div_pow2, !bz_zb by lia. change (2 ^ 8) with 256.
  rewrite lor_shiftl_add by dlia. change (2 ^ 8) with 256. dlia.
Qed.

Lemma encode_chunks_nonempty bytes : bytes <> [] -> encode_chunks bytes <> [].
Proof. destruct bytes as [|b0 [|b1 [|b2 bytes]]]; done. Qed.

(** A pending run of UTF-16 units reads back as its text. *)
Lemma decode_encoded_units cs :
  cs <> [] -> Forall (fun c => is_scalar c = true) cs ->
  decode_encoded (encode_chunks (utf16 cs ≫= to_be_bytes)) = Some (utf8 cs).
Proof.
  intros Hne Hcs. unfold decode_encoded.
  assert (encode_chunks (utf16 cs ≫= to_be_bytes) <> []) as Hnil.
  { apply encode_chunks_nonempty. destruct cs as [|c cs]; [done|].
    unfold utf16. rewrite bind_cons. unfold utf16_char. by case_match. }
  destruct (encode_chunks _) eqn:E; [done|]. rewrite <- E, decode_chunks. simpl.
  rewrite from_be_units_to_be by by apply utf16_range. simpl. by apply from_utf16_utf16.
Qed.

Lemma encode_chunk_chars chunk b :
  (length chunk <= 3)%nat -> b ∈ encode_chunk chunk -> exists v, 0 <= v < 64 /\ b = alphabet_at v.
Proof.
  intros Hlen. rewrite encode_chunk_eq by done. intros Hb.
  apply list_elem_of_fmap in Hb as (i & -> & _). eexists. split; [apply sextet_range | done].
Qed.

Lemma encode_chunks_chars bytes b :
  b ∈ encode_chunks bytes -> exists v, 0 <= v < 64 /\ b = alphabet_at v.
Proof.
  induction bytes as [bytes IH] using (well_founded_induction
    (well_founded_ltof _ (length (A:=byte)))); unfold ltof in IH.
  destruct bytes as [|b0 [|b1 [|b2 bytes]]]; intros Hb.
  - by apply not_elem_of_nil in Hb.
  - apply (encode_chunk_chars [b0]); [simpl; lia | exact Hb].
  - apply (encode_chunk_chars [b0; b1]); [simpl; lia | exact Hb].
  - cbn [encode_chunks] in Hb. apply elem_of_app in Hb as [Hb|Hb].
    + apply (encode_chunk_chars [b0; b1; b2]); [simpl; lia | exact Hb].
    + apply (IH bytes); [simpl; lia | exact Hb].
Qed.

(** ** The loop of [decode] *)

Lemma decode_loop_fuel fuel rest :
  (length rest < fuel)%nat -> decode_loop fuel rest = decode rest.
Proof.
  unfold decode. revert rest. assert (H : forall n fuel rest, (length rest < fuel)%nat ->
    (length rest < n)%nat -> decode_loop fuel rest = decode_loop n rest); [|intros; apply H; lia].
  induction n as [|n IH]; intros [|fuel'] rest Hf Hn; try lia. simpl.
  destruct (split_once "&"%byte rest) as [[before after]|] eqn:E1; [|done].
  destruct (split_once "-"%byte after) as [[encoded rest']|] eqn:E2; [|done].
  apply split_once_Some in E1 as [-> _]. apply split_once_Some in E2 as [-> _].
  repeat (rewrite ?length_app in *; simpl in * ).
  rewrite (IH fuel' rest') by lia. done.
Qed.

Lemma decode_eq rest :
  decode rest =
  match split_once "&"%byte rest with
  | None => Some rest
  | Some (before, after) =>
      match split_once "-"%byte after with
      | None => None
      | Some (encoded, rest') =>
          text ← decode_encoded encoded; tail ← decode rest'; Some (before ++ text ++ tail)
      end
  end.
Proof.
  unfold decode at 1. cbn [decode_loop].
  destruct (split_once "&"%byte rest) as [[before after]|] eqn:E1; [|done].
  destruct (split_once "-"%byte after) as [[encoded rest']|] eqn:E2; [|done].
  apply split_once_Some in E1 as [-> _]. apply split_once_Some in E2 as [-> _].
  rewrite decode_loop_fuel; [done|]. rewrite length_app. simpl. rewrite length_app. simpl. lia.
Qed.

(** [decodes s t]: wherever [s] stands at the start, it reads as [t]. *)
Definition decodes (s t : list byte) : Prop :=
  forall rest u, decode rest = Some u -> decode (s ++ rest) = Some (t ++ u).

Lemma decodes_app s1 t1 s2 t2 : decodes s1 t1 -> decodes s2 t2 -> decodes (s1 ++ s2) (t1 ++ t2).
Proof. intros H1 H2 rest u Hu. rewrite <- !app_assoc. by apply H1, H2. Qed.

Lemma decodes_nil : decodes [] [].
Proof. by intros rest u. Qed.

Lemma decodes_plain b : b <> "&"%byte -> decodes [b] [b].
Proof.
  intros Hb rest u Hu. rewrite decode_eq in Hu |- *. simpl app. cbn [split_once].
  rewrite decide_False by done.
  destruct (split_once "&"%byte rest) as [[before after]|]; [|by simplify_eq].
  destruct (split_once "-"%byte after) as [[encoded rest']|]; [|done].
  destruct (decode_encoded encoded) as [text|]; [|done]. simpl in *.
  destruct (decode rest') as [tail|]; [|done]. by simplify_eq/=.
Qed.

Lemma decodes_group encoded t :
  "-"%byte ∉ encoded -> decode_encoded encoded = Some t ->
  decodes ("&"%byte :: encoded ++ ["-"%byte]) t.
Proof.
  intros Hn He rest u Hu. rewrite decode_eq. simpl app. cbn [split_once].
  rewrite decide_True by done. rewrite <- app_assoc. simpl app.
  rewrite split_once_app by done. rewrite He. simpl. by rewrite Hu.
Qed.

Lemma decodes_amp : decodes (bs "&-") ["&"%byte].
Proof. by apply (decodes_group []); [apply not_elem_of_nil|]. Qed.

Lemma decodes_flush cs :
  Forall (fun c => is_scalar c = true) cs -> decodes (flush (utf16 cs)) (utf8 cs).
Proof.
  intros Hcs. unfold flush. destruct (utf16 cs) eqn:E.
  - destruct cs as [|c cs]; [apply decodes_nil|].
    exfalso. unfold utf16 in E. rewrite bind_cons in E. unfold utf16_char in E. by case_match.
  - rewrite <- E. apply decodes_group.
    + intros Hin. apply encode_chunks_chars in Hin as (v & Hv & Hb).
      by destruct (alphabet_at_ok v Hv) as [? _].
    + apply decode_encoded_units; [by intros ->|done].
Qed.

(** What the encoder appends for the characters left reads as those pending and
    those left. *)
Lemma encode_loop_decodes ps cs out :
  Forall (fun c => is_scalar c = true) ps -> Forall (fun c => is_scalar c = true) cs ->
  exists s, encode_loop (utf16 ps) out cs = out ++ s /\ decodes s (utf8 (ps ++ cs)).
Proof.
  intros Hps Hcs. revert ps out Hps. induction Hcs as [|c cs Hc _ IH]; intros ps out Hps.
  { exists (flush (utf16 ps)). rewrite app_nil_r. split; [done | by apply decodes_flush]. }
  cbn [encode_loop]. rewrite utf8_app. unfold utf8 at 2. rewrite bind_cons.
  destruct (c =? 0x26) eqn:E.
  - destruct (IH [] (out ++ flush (utf16 ps) ++ bs "&-") ltac:(constructor)) as (s & Hl & Hs).
    change (utf16 []) with (@nil Z) in Hl. rewrite Hl.
    exists (flush (utf16 ps) ++ bs "&-" ++ s). split; [by rewrite <- !app_assoc|].
    assert (c = 0x26) as -> by lia.
    apply decodes_app; [by apply decodes_flush|]. by apply (decodes_app _ ["&"%byte]); [apply decodes_amp|].
  - destruct ((0x20 <=? c) && (c <=? 0x7e)) eqn:E2.
    + destruct (IH [] (out ++ flush (utf16 ps) ++ utf8_char c) ltac:(constructor)) as (s & Hl & Hs).
      change (utf16 []) with (@nil Z) in Hl. rewrite Hl.
      exists (flush (utf16 ps) ++ utf8_char c ++ s). split; [by rewrite <- !app_assoc|].
      apply decodes_app; [by apply decodes_flush|]. apply decodes_app; [|done].
      unfold utf8_char. destruct (c <? 0x80) eqn:?; [|lia]. apply decodes_plain.
      intros Heq. apply (f_equal bz) in Heq. rewrite bz_zb_small in Heq by lia.
      change (bz "&"%byte) with 38 in Heq. lia.
    + destruct (IH (ps ++ [c]) out) as (s & Hs & Hd).
      { apply Forall_app. split; [done | by constructor]. }
      unfold utf16 in Hs. rewrite bind_app, bind_singleton in Hs. exists s. split; [done|].
      rewrite <- app_assoc, utf8_app in Hd. exact Hd.
Qed.

(** ** What the encoder writes *)

Definition printable (b : byte) : bool := (0x20 <=? bz b) && (bz b <=? 0x7e).

Lemma flush_printable us : Forall (fun b => printable b = true) (flush us).
Proof.
  unfold flush. destruct us; [constructor|]. apply Forall_cons. split; [done|].
  apply Forall_app. split; [|by repeat constructor].
  apply Forall_forall. intros b Hb. apply encode_chunks_chars in Hb as (v & Hv & ->).
  destruct (alphabet_at_ok v Hv) as (_ & _ & ?). unfold printable. lia.
Qed.

Lemma encode_loop_printable us out cs :
  Forall (fun b => printable b = true) out ->
  Forall (fun b => printable b = true) (encode_loop us out cs).
Proof.
  revert us out. induction cs as [|c cs IH]; intros us out Hout; cbn [encode_loop].
  { apply Forall_app. split; [done | apply flush_printable]. }
  repeat case_match; apply IH; try done; rewrite !Forall_app;
    (split; [done|]; split; [apply flush_printable|]); [by repeat constructor|].
  unfold utf8_char. destruct (c <? 0x80) eqn:?; [|lia]. constructor; [|constructor].
  unfold printable. rewrite bz_zb_small by lia. lia.
Qed.

Lemma decode_encode name cs : chars name = Some cs -> decode (encode name) = Some name.
Proof.
  intros Hname. unfold encode. rewrite Hname. simpl. apply chars_Some in Hname as [-> Hcs].
  destruct (encode_loop_decodes [] cs [] ltac:(constructor) Hcs) as (s & Hs & Hd).
  change (utf16 []) with (@nil Z) in Hs. rewrite Hs. simpl app in *.
  specialize (Hd [] [] eq_refl). by rewrite !app_nil_r in Hd.
Qed.

Lemma encode_printable name : Forall (fun b => printable b = true) (encode name).
Proof. unfold encode. apply encode_loop_printable. constructor. Qed.

(** Whatever a mailbox is called, the name a client is sent in modified UTF-7
    reads back as that name: [decode] undoes [encode] on every UTF-8 string, with
    surrogate pairs, [&] and runs of any length. *)
Theorem mutf7_round_trip name cs : chars name = Some cs -> decode (encode name) = Some name.
Proof. apply decode_encode. Qed.

Lemma mutf7_round_trip_witness :
  decode (encode (utf8 [0x26; 0x65E5; 0x1f431; 0x2d])) = Some (utf8 [0x26; 0x65E5; 0x1f431; 0x2d]).
Proof. apply (mutf7_round_trip _ [0x26; 0x65E5; 0x1f431; 0x2d]). reflexivity. Defined.

(** What [encode] writes is printable ASCII only, whatever the name holds: a
    mailbox name can not carry a line break, a NUL or an 8-bit byte into the
    session. *)
Theorem mutf7_printable name : Forall (fun b => printable b = true) (encode name).
Proof. apply encode_printable. Qed.
