(* ===== verification/Dates.v ===== *)
(** * Calendar dates

    Days since 1970-01-01 and dates of the proleptic Gregorian calendar, as the
    IMAP parser ([days_from_civil], [parse_date], [parse_date_time]), the IMAP
    response writer ([civil_from_days], [internal_date]) and the backup retention
    ([year_month]) compute them. [Z.div] is [div_euclid] for the positive divisors
    used here, and the [/] of Rust where the dividend is not negative. *)

From S2P Require Import Prelude Utf8.

(** ** crates\/uwumail-imap\/src\/parser.rs *)

Definition MONTHS : list (list byte) :=
  bs <$> ["jan"; "feb"; "mar"; "apr"; "may"; "jun"; "jul"; "aug"; "sep"; "oct"; "nov"; "dec"]%string.

Definition days_from_civil (year month day : Z) : Z :=
  let year := if month <=? 2 then year - 1 else year in
  let era := year / 400 in
  let yoe := year - era * 400 in
  let mp := (month + 9) `mod` 12 in
  let doy := (153 * mp + 2) / 5 + day - 1 in
  let doe := yoe * 365 + yoe / 4 - yoe / 100 + doy in
  era * 146097 + doe - 719468.

(** [17-Sep-2026] as days since 1970-01-01. *)
Definition parse_date (text : list byte) : option Z :=
  match split_on "-"%byte text with
  | day :: month :: year :: more =>
      day ← parse_unsigned u32_max day;
      index ← position (fun name => bool_decide (name = to_ascii_lowercase month)) MONTHS;
      year ← parse_i64 year;
      if decide (more <> [] \/ ~ (1 <= day <= 31) \/ ~ (1 <= year <= 9999)) then None
      else Some (days_from_civil year (Z.of_nat index + 1) day)
  | _ => None
  end.

(** The closure [number]: one or two digits. *)
Definition clock_number (part : list byte) : option Z :=
  if decide (part <> [] /\ (length part <= 2)%nat /\ forallb is_ascii_digit part = true)
  then Some (foldl (fun n digit => n * 10 + (bz digit - 48)) 0 part)
  else None.

(** [+0200]: the sign, hours and minutes. *)
Definition parse_zone (zone : list byte) : option (Z * Z * Z) :=
  match zone with
  | c :: rest =>
      if decide (length rest = 4%nat) then
        if decide (c = "+"%byte) then
          h ← clock_number (take 2 rest); m ← clock_number (drop 2 rest); Some (1, h, m)
        else if decide (c = "-"%byte) then
          h ← clock_number (take 2 rest); m ← clock_number (drop 2 rest); Some (-1, h, m)
        else None
      else None
  | [] => None
  end.

(** [17-Sep-2026 10:00:00 +0200] as a Unix time. *)
Definition parse_date_time (text : list byte) : option Z :=
  '(date, rest) ← split_once " "%byte (trim_start text);
  '(time, zone) ← split_once " "%byte rest;
  days ← parse_date date;
  match clock_number <$> split_on ":"%byte time with
  | [Some h; Some m; Some s] =>
      if decide (h > 23 \/ m > 59 \/ s > 60) then None
      else
        '(sign, zone_h, zone_m) ← parse_zone zone;
        Some (days * 86400 + h * 3600 + m * 60 + s - sign * (zone_h * 3600 + zone_m * 60))
  | _ => None
  end.

(** ** crates\/uwumail-imap\/src\/response.rs *)

Definition civil_from_days (days : Z) : Z * Z * Z :=
  let z := days + 719468 in
  let era := z / 146097 in
  let doe := z - era * 146097 in
  let yoe := (doe - doe / 1460 + doe / 36524 - doe / 146096) / 365 in
  let doy := doe - (365 * yoe + yoe / 4 - yoe / 100) in
  let mp := (5 * doy + 2) / 153 in
  let day := doy - (153 * mp + 2) / 5 + 1 in
  let month := if mp <? 10 then mp + 3 else mp - 9 in
  let year := yoe + era * 400 + (if month <=? 2 then 1 else 0) in
  (year, month, day).

Definition MONTH_NAMES : list (list byte) :=
  bs <$> ["Jan"; "Feb"; "Mar"; "Apr"; "May"; "Jun"; "Jul"; "Aug"; "Sep"; "Oct"; "Nov"; "Dec"]%string.

(** [{:04}] of an [i64]: the sign counts for the width. *)
Definition year_text (year : Z) : list byte :=
  if year <? 0 then "-"%byte :: dec_pad 3 (- year) else dec_pad 4 year.

(** INTERNALDATE without its quotes; [MONTHS[month - 1]] is in bounds by
    [civil_from_days_range]. *)
Definition internal_date_text (unix : Z) : list byte :=
  let days := unix / 86400 in
  let seconds := unix `mod` 86400 in
  let '(year, month, day) := civil_from_days days in
  dec_pad 2 day ++ bs "-" ++ default [] (MONTH_NAMES !! Z.to_nat (month - 1)) ++ bs "-" ++ year_text year
  ++ bs " " ++ dec_pad 2 (seconds / 3600) ++ bs ":" ++ dec_pad 2 ((seconds / 60) `mod` 60)
  ++ bs ":" ++ dec_pad 2 (seconds `mod` 60) ++ bs " +0000".

Definition internal_date (unix : Z) : list byte := x22 :: internal_date_text unix ++ [x22].

Example internal_date_epoch : internal_date_text 0 = bs "01-Jan-1970 00:00:00 +0000".
Proof. reflexivity. Qed.

Example parse_date_leap : parse_date (bs "29-Feb-2024") = Some 19782.
Proof. reflexivity. Qed.

(** Days are not checked against the month, and a sign is read. *)
Example parse_date_february_31 :
  parse_date (bs "31-Feb-2026") = parse_date (bs "3-Mar-2026") /\ parse_date (bs "+3-Mar-2026") = parse_date (bs "3-Mar-2026").
Proof. by vm_compute. Qed.

Example parse_date_time_zone :
  parse_date_time (bs " 1-Jan-2000 00:00:00 +0100") = Some (days_from_civil 2000 1 1 * 86400 - 3600).
Proof. reflexivity. Qed.

Example parse_date_time_broken : parse_date_time (bs "17-Sep-2026 10:00:00 +02:0") = None.
Proof. reflexivity. Qed.

(** ** The calendar *)

Lemma year_of_era doe :
  0 <= doe < 146097 ->
  let yoe := (doe - doe / 1460 + doe / 36524 - doe / 146096) / 365 in
  0 <= yoe < 400 /\ 0 <= doe - (365 * yoe + yoe / 4 - yoe / 100) <= 365.
Proof.
  intros Hd yoe.
  assert (Hq : 0 <= doe / 36524 <= 4) by dlia.
  assert (Hr : doe / 146096 = if doe =? 146096 then 1 else 0) by (case_match; dlia).
  unfold yoe. rewrite Hr. clear yoe Hr.
  assert (Hc : doe / 36524 = 0 \/ doe / 36524 = 1 \/ doe / 36524 = 2 \/ doe / 36524 = 3 \/ doe / 36524 = 4) by lia.
  destruct Hc as [Hc|[Hc|[Hc|[Hc|Hc]]]]; rewrite Hc; destruct (doe =? 146096) eqn:?; try (exfalso; dlia);
  dlia.
Qed.

Lemma civil_from_days_range days year month day :
  civil_from_days days = (year, month, day) -> 1 <= month <= 12 /\ 1 <= day <= 31.
Proof.
  unfold civil_from_days. set (doe := days + 719468 - _). intros Heq.
  assert (Hdoe : 0 <= doe < 146097) by (unfold doe; dlia). clearbody doe.
  pose proof (year_of_era doe Hdoe) as [_ Hy]. cbv zeta in Hy.
  set (doy := doe - (365 * _ + _ - _)) in *. clearbody doy.
  injection Heq as _ Hm Hd. destruct (_ <? 10) eqn:?; dlia.
Qed.

Lemma civil_from_days_inverse days year month day :
  civil_from_days days = (year, month, day) -> days_from_civil year month day = days.
Proof.
  unfold civil_from_days. set (era := (days + 719468) / 146097).
  set (doe := days + 719468 - era * 146097). intros Heq.
  assert (Hdoe : 0 <= doe < 146097) by (unfold doe, era; dlia).
  assert (Hdays : days = era * 146097 + doe - 719468) by (unfold doe; lia). clearbody doe era.
  pose proof (year_of_era doe Hdoe) as [Hyoe Hy]. cbv zeta in Hyoe, Hy.
  set (yoe := (doe - doe / 1460 + doe / 36524 - doe / 146096) / 365) in *. clearbody yoe.
  set (doy := doe - (365 * yoe + yoe / 4 - yoe / 100)) in *.
  assert (Hdoe' : doe = 365 * yoe + yoe / 4 - yoe / 100 + doy) by (unfold doy; lia). clearbody doy.
  injection Heq as Hyear Hm Hd. rewrite Hm in Hyear. unfold days_from_civil.
  assert (Hmonth : (month + 9) `mod` 12 = (5 * doy + 2) / 153) by (destruct (_ <? 10) eqn:?; dlia).
  rewrite Hmonth.
  replace (if month <=? 2 then year - 1 else year) with (yoe + era * 400)
    by (subst year; destruct (month <=? 2); lia).
  replace ((yoe + era * 400) / 400) with era by dlia.
  replace (yoe + era * 400 - era * 400) with yoe by lia. lia.
Qed.

(** The last day of a month. *)
Definition is_leap (year : Z) : bool :=
  (year `mod` 4 =? 0) && (negb (year `mod` 100 =? 0) || (year `mod` 400 =? 0)).

Definition days_in_month (year month : Z) : Z :=
  if month =? 2 then (if is_leap year then 29 else 28)
  else if bool_decide (month ∈ [4; 6; 9; 11]) then 30 else 31.

Lemma year_of_day yoe doy :
  0 <= yoe < 400 -> 0 <= doy <= 365 ->
  (doy = 365 -> is_leap (yoe + 1) = true) ->
  let doe := yoe * 365 + yoe / 4 - yoe / 100 + doy in
  0 <= doe < 146097 /\ (doe - doe / 1460 + doe / 36524 - doe / 146096) / 365 = yoe.
Proof.
  intros Hy Hd Hleap doe. unfold is_leap in Hleap.
  assert (Hc : yoe / 100 = 0 \/ yoe / 100 = 1 \/ yoe / 100 = 2 \/ yoe / 100 = 3) by dlia.
  unfold doe; destruct Hc as [Hc|[Hc|[Hc|Hc]]]; rewrite Hc; dlia.
Qed.

Lemma is_leap_era year k : is_leap (year - k * 400) = is_leap year.
Proof.
  unfold is_leap. replace ((year - k * 400) `mod` 4) with (year `mod` 4) by dlia.
  replace ((year - k * 400) `mod` 100) with (year `mod` 100) by dlia.
  by replace ((year - k * 400) `mod` 400) with (year `mod` 400) by dlia.
Qed.

(** The day of the year counted from March, and the month it gives back. *)
Lemma month_of_day month day mp :
  1 <= month <= 12 -> mp = (month + 9) `mod` 12 ->
  1 <= day <= (if month =? 2 then 29 else if bool_decide (month ∈ [4; 6; 9; 11]) then 30 else 31) ->
  (if mp <? 10 then mp + 3 else mp - 9) = month /\
  0 <= (153 * mp + 2) / 5 + day - 1 <= 365 /\
  (5 * ((153 * mp + 2) / 5 + day - 1) + 2) / 153 = mp /\
  ((153 * mp + 2) / 5 + day - 1 = 365 -> month = 2 /\ day = 29).
Proof.
  intros Hm Hmp Hd.
  assert (Hcase : month = 1 \/ month = 2 \/ month = 3 \/ month = 4 \/ month = 5 \/ month = 6 \/ month = 7
    \/ month = 8 \/ month = 9 \/ month = 10 \/ month = 11 \/ month = 12) by lia.
  repeat destruct Hcase as [Hcase|Hcase]; subst month; vm_compute in Hmp; subst mp;
    match type of Hd with context [if ?b then _ else _] =>
      let v := eval vm_compute in b in change b with v in Hd end; cbv iota in Hd;
    try match type of Hd with context [bool_decide ?P] =>
      let v := eval vm_compute in (bool_decide P) in change (bool_decide P) with v in Hd end;
    cbv iota in Hd; (split; [reflexivity|]); dlia.
Qed.

Lemma civil_from_days_of_civil year month day :
  1 <= month <= 12 -> 1 <= day <= days_in_month year month ->
  civil_from_days (days_from_civil year month day) = (year, month, day).
Proof.
  intros Hm Hd. unfold days_from_civil. set (mp := (month + 9) `mod` 12).
  set (year' := if month <=? 2 then year - 1 else year).
  destruct (month_of_day month day mp Hm eq_refl) as (Hmonth & Hdoy & Hmp & Hlast).
  { unfold days_in_month in Hd. destruct (month =? 2), (is_leap year); lia. }
  set (doy := (153 * mp + 2) / 5 + day - 1) in *.
  set (yoe := year' - year' / 400 * 400). assert (Hyoe : 0 <= yoe < 400) by (unfold yoe; dlia).
  replace (yoe * 365 + yoe / 4 - yoe / 100 + ((153 * mp + 2) / 5 + day - 1))
    with (yoe * 365 + yoe / 4 - yoe / 100 + doy) by (unfold doy; lia).
  destruct (year_of_day yoe doy Hyoe Hdoy) as [Hdoe Hyear].
  { intros H365. destruct (Hlast H365) as [-> ->]. unfold days_in_month in Hd. simpl in Hd.
    assert (Hy : yoe = year - 1 - (year - 1) / 400 * 400) by reflexivity.
    replace (yoe + 1) with (year - (year - 1) / 400 * 400) by lia.
    rewrite is_leap_era. destruct (is_leap year); [done | lia]. }
  set (doe := yoe * 365 + yoe / 4 - yoe / 100 + doy) in *.
  unfold civil_from_days. replace (_ - 719468 + 719468) with (year' / 400 * 146097 + doe) by lia.
  replace ((year' / 400 * 146097 + doe) / 146097) with (year' / 400) by dlia.
  replace (year' / 400 * 146097 + doe - year' / 400 * 146097) with doe by lia.
  rewrite Hyear. replace (doe - (365 * yoe + yoe / 4 - yoe / 100)) with doy by (unfold doe; lia).
  rewrite Hmp, Hmonth. f_equal; [f_equal|]; [|unfold doy; lia].
  unfold yoe, year'. destruct (month <=? 2); lia.
Qed.

(** ** Printing and parsing *)

Lemma clock_number_dec_pad n : 0 <= n < 100 -> clock_number (dec_pad 2 n) = Some n.
Proof.
  intros Hn. assert (Hall : forallb (fun i =>
    bool_decide (clock_number (dec_pad 2 (Z.of_nat i)) = Some (Z.of_nat i))) (seq 0 100) = true)
    by (vm_compute; reflexivity).
  rewrite forallb_forall in Hall. specialize (Hall (Z.to_nat n)).
  rewrite Z2Nat.id in Hall by lia. eapply bool_decide_eq_true, Hall, in_seq. lia.
Qed.

Lemma clock_number_range part n : clock_number part = Some n -> 0 <= n <= 99.
Proof.
  unfold clock_number. case_decide as H; [|done]. destruct H as (Hne & Hlen & Hd). intros [= <-].
  assert (Hv : forall b, is_ascii_digit b = true -> 0 <= bz b - 48 <= 9)
    by (intros b; unfold is_ascii_digit; lia).
  destruct part as [|a [|b [|]]]; simpl in *; try lia; try done;
    rewrite ?andb_true_r in Hd; [|apply andb_prop in Hd as [Hd Hd']; apply Hv in Hd']; apply Hv in Hd; lia.
Qed.

Lemma parse_zone_range zone sign h m :
  parse_zone zone = Some (sign, h, m) -> (sign = 1 \/ sign = -1) /\ 0 <= h <= 99 /\ 0 <= m <= 99.
Proof.
  unfold parse_zone. destruct zone as [|c rest]; [done|]. case_decide; [|done].
  destruct (clock_number (take 2 rest)) as [h'|] eqn:E1; destruct (clock_number (drop 2 rest)) as [m'|] eqn:E2;
    repeat case_decide; intros Heq; simplify_eq/=; apply clock_number_range in E1, E2; auto.
Qed.

Lemma month_name_position month :
  1 <= month <= 12 ->
  position (fun name => bool_decide (name = to_ascii_lowercase (default [] (MONTH_NAMES !! Z.to_nat (month - 1)))))
    MONTHS = Some (Z.to_nat (month - 1)).
Proof.
  intros Hm. assert (Hall : forallb (fun i => bool_decide (position (fun name => bool_decide
    (name = to_ascii_lowercase (default [] (MONTH_NAMES !! i)))) MONTHS = Some i)) (seq 0 12) = true)
    by (vm_compute; reflexivity).
  rewrite forallb_forall in Hall. specialize (Hall (Z.to_nat (month - 1))).
  eapply bool_decide_eq_true, Hall, in_seq. lia.
Qed.

Lemma month_name_alpha month :
  Forall (fun b => is_ascii_alphanumeric b = true) (default [] (MONTH_NAMES !! Z.to_nat (month - 1))).
Proof.
  destruct (MONTH_NAMES !! _) as [name|] eqn:E; [|constructor]. simpl.
  assert (Hall : Forall (Forall (fun b => is_ascii_alphanumeric b = true)) MONTH_NAMES)
    by (repeat constructor).
  rewrite Forall_lookup in Hall. by eapply Hall.
Qed.

Lemma is_ascii_digit_alphanumeric b : is_ascii_digit b = true -> is_ascii_alphanumeric b = true.
Proof. unfold is_ascii_alphanumeric. by intros ->. Qed.

Lemma dec_pad_no b w n : 0 <= n -> is_ascii_digit b = false -> b ∉ dec_pad w n.
Proof. intros. eapply not_elem_of_test; [done | by apply dec_pad_all_digits]. Qed.

Lemma month_name_no b month :
  is_ascii_alphanumeric b = false -> b ∉ default [] (MONTH_NAMES !! Z.to_nat (month - 1)).
Proof. intros. eapply not_elem_of_test; [done | apply month_name_alpha]. Qed.

(** [split_on] and [split_once] at the separators of the text. *)
Ltac split_text :=
  repeat first
    [ rewrite split_once_app by (apply dec_pad_no; [lia | reflexivity])
    | rewrite split_on_app by (apply dec_pad_no; [lia | reflexivity])
    | rewrite split_on_app by (apply month_name_no; reflexivity)
    | rewrite split_on_none by (apply dec_pad_no; [lia | reflexivity]) ].

Lemma parse_i64_dec_pad w n : 0 <= n <= i64_max -> parse_i64 (dec_pad w n) = Some n.
Proof.
  intros Hn. assert (Hu : parse_unsigned i64_max (dec_pad w n) = Some n) by by apply parse_unsigned_dec_pad.
  pose proof (dec_pad_no "-"%byte w n ltac:(lia) eq_refl) as Hno. unfold parse_i64.
  destruct (dec_pad w n) as [|b s]; [done|]. rewrite decide_False; [done|].
  intros ->. apply Hno. by left.
Qed.

Lemma parse_date_text year month day :
  1 <= year <= 9999 -> 1 <= month <= 12 -> 1 <= day <= 31 ->
  parse_date (dec_pad 2 day ++ "-"%byte :: default [] (MONTH_NAMES !! Z.to_nat (month - 1)) ++ "-"%byte :: dec_pad 4 year)
  = Some (days_from_civil year month day).
Proof.
  intros Hy Hm Hd. unfold parse_date. split_text; try lia.
  rewrite parse_unsigned_dec_pad by (unfold u32_max; lia). cbn [mbind option_bind].
  rewrite month_name_position by done. cbn [mbind option_bind].
  rewrite parse_i64_dec_pad by (unfold i64_max; lia). cbn [mbind option_bind].
  rewrite decide_False by naive_solver lia. do 2 f_equal. lia.
Qed.

Lemma trim_start_digit s b :
  is_ascii_digit b = true -> trim_start (b :: s) = b :: s.
Proof.
  intros Hb. unfold trim_start. cbn [length trim_start_fuel].
  unfold is_ascii_digit in Hb. unfold utf8_step, in_range.
  destruct ((0 <=? bz b) && (bz b <=? 0x7F)) eqn:E; [|lia].
  destruct (is_whitespace (bz b)) eqn:Ew; [|done]. exfalso. unfold is_whitespace in Ew.
  rewrite bool_decide_eq_false_2 in Ew; [lia|].
  { intros H.
    repeat (apply elem_of_cons in H as [H|H]; [lia|]). by apply not_elem_of_nil in H. }
Qed.

Lemma clock_text_parses h m s :
  0 <= h < 100 -> 0 <= m < 100 -> 0 <= s < 100 ->
  clock_number <$> split_on ":"%byte (dec_pad 2 h ++ ":"%byte :: dec_pad 2 m ++ ":"%byte :: dec_pad 2 s)
  = [Some h; Some m; Some s].
Proof. intros. split_text. cbn [fmap list_fmap]. by rewrite !clock_number_dec_pad by lia. Qed.

Lemma trim_start_dec_pad w n r : 0 <= n -> trim_start (dec_pad w n ++ r) = dec_pad w n ++ r.
Proof.
  intros Hn. pose proof (dec_pad_all_digits w n Hn) as Hall.
  destruct (dec_pad w n) as [|b t] eqn:E.
  - unfold dec_pad in E. apply app_nil in E as [_ E]. by apply dec_nonempty in E.
  - inversion_clear Hall. by apply trim_start_digit.
Qed.

(** The three parts of the text, as the parser splits it. *)
Lemma internal_date_text_parts unix year month day :
  civil_from_days (unix / 86400) = (year, month, day) -> 0 <= year ->
  internal_date_text unix =
  (dec_pad 2 day ++ "-"%byte :: default [] (MONTH_NAMES !! Z.to_nat (month - 1)) ++ "-"%byte :: dec_pad 4 year)
  ++ " "%byte ::
  (dec_pad 2 (unix `mod` 86400 / 3600) ++ ":"%byte :: dec_pad 2 ((unix `mod` 86400 / 60) `mod` 60)
   ++ ":"%byte :: dec_pad 2 ((unix `mod` 86400) `mod` 60))
  ++ " "%byte :: bs "+0000".
Proof.
  intros Hciv Hy. unfold internal_date_text, year_text. rewrite Hciv.
  destruct (year <? 0) eqn:?; [lia|]. rewrite <- !app_assoc. simpl. by rewrite <- !app_assoc.
Qed.

Lemma date_part_no_space year month day :
  0 <= day -> 0 <= year ->
  " "%byte ∉ dec_pad 2 day ++ "-"%byte :: default [] (MONTH_NAMES !! Z.to_nat (month - 1)) ++ "-"%byte :: dec_pad 4 year.
Proof.
  intros. rewrite !elem_of_app, elem_of_cons, elem_of_app, elem_of_cons.
  pose proof (dec_pad_no " "%byte 2 day). pose proof (dec_pad_no " "%byte 4 year).
  pose proof (month_name_no " "%byte month eq_refl). naive_solver.
Qed.

Lemma clock_part_no_space h m s :
  0 <= h -> 0 <= m -> 0 <= s ->
  " "%byte ∉ dec_pad 2 h ++ ":"%byte :: dec_pad 2 m ++ ":"%byte :: dec_pad 2 s.
Proof.
  intros. rewrite !elem_of_app, elem_of_cons, elem_of_app, elem_of_cons.
  pose proof (dec_pad_no " "%byte 2 h). pose proof (dec_pad_no " "%byte 2 m).
  pose proof (dec_pad_no " "%byte 2 s). naive_solver.
Qed.

(** The text the server writes as INTERNALDATE is read back by APPEND's date
    parser as the time it was made of, for every time in the years 1 to 9999:
    writing a date and parsing it lose nothing. *)
Theorem internal_date_round_trip unix year month day :
  civil_from_days (unix / 86400) = (year, month, day) -> 1 <= year <= 9999 ->
  parse_date_time (internal_date_text unix) = Some unix.
Proof.
  intros Hciv Hy. destruct (civil_from_days_range _ _ _ _ Hciv) as [Hm Hd].
  pose proof (civil_from_days_inverse _ _ _ _ Hciv) as Hinv.
  rewrite (internal_date_text_parts _ _ _ _ Hciv) by lia. unfold parse_date_time.
  assert (Hs : 0 <= unix `mod` 86400 < 86400) by dlia. set (s := unix `mod` 86400) in *.
  rewrite <- app_assoc, trim_start_dec_pad, app_assoc by lia.
  rewrite split_once_app by (apply date_part_no_space; lia). cbn [mbind option_bind].
  rewrite split_once_app by (apply clock_part_no_space; dlia). cbn [mbind option_bind].
  rewrite parse_date_text by lia. cbn [mbind option_bind].
  rewrite clock_text_parses by dlia. rewrite decide_False by dlia.
  change (parse_zone (bs "+0000")) with (Some (1, 0, 0)). cbn [mbind option_bind]. f_equal.
  rewrite Hinv. unfold s. dlia.
Qed.

Lemma internal_date_round_trip_witness :
  parse_date_time (internal_date_text 1789547400) = Some 1789547400.
Proof. apply (internal_date_round_trip _ 2026 9 16); [reflexivity | lia]. Defined.

Lemma parse_date_bounds text days : parse_date text = Some days -> -719162 <= days <= 2932896.
Proof.
  unfold parse_date. destruct (split_on _ _) as [|d [|m [|y more]]]; try done.
  destruct (parse_unsigned _ _) as [day|]; [|done]. cbn [mbind option_bind].
  destruct (position _ _) as [index|] eqn:Ei; [|done]. cbn [mbind option_bind].
  destruct (parse_i64 _) as [year|]; [|done]. cbn [mbind option_bind]. case_decide as Hc; [done|].
  assert (index < 12)%nat by (apply position_lt in Ei; exact Ei).
  intros [= <-]. assert (Hr : 1 <= day <= 31 /\ 1 <= year <= 9999) by lia. clear Hc Ei.
  unfold days_from_civil. destruct (Z.of_nat index + 1 <=? 2) eqn:?; dlia.
Qed.

(** A date and time the parser accepts lies between the years 0 and 10000, far
    inside [i64]: none of its additions and multiplications can overflow, whatever
    bytes a client sends. *)
Theorem parse_date_time_bounds text t :
  parse_date_time text = Some t -> -62135959140 <= t <= 253402663140.
Proof.
  unfold parse_date_time. intros H.
  destruct (split_once _ _) as [[date rest]|]; [|done]. cbn [mbind option_bind] in H.
  destruct (split_once _ _) as [[time zone]|]; [|done]. cbn [mbind option_bind] in H.
  destruct (parse_date date) as [days|] eqn:Ed; [|done]. cbn [mbind option_bind] in H.
  apply parse_date_bounds in Ed.
  destruct (clock_number <$> _) as [|[h|] [|[m|] [|[s|] [|]]]] eqn:Ec; try done.
  assert (Hr : Forall (fun o => forall n, o = Some n -> 0 <= n <= 99) [Some h; Some m; Some s]).
  { rewrite <- Ec. apply Forall_fmap, Forall_true. intros p n. apply clock_number_range. }
  rewrite !Forall_cons in Hr. destruct Hr as (Hh & Hm & Hs & _).
  specialize (Hh _ eq_refl). specialize (Hm _ eq_refl). specialize (Hs _ eq_refl).
  case_decide as Hc; [done|]. destruct (parse_zone zone) as [[[sign zh] zm]|] eqn:Ez; [|done].
  apply parse_zone_range in Ez. cbn [mbind option_bind] in H. injection H as <-.
  destruct Ez as ([->| ->] & ? & ?); lia.
Qed.

Lemma parse_date_time_bounds_witness :
  parse_date_time (bs "17-Sep-2026 10:00:00 +0200") = Some 1789632000 /\
  -62135959140 <= 1789632000 <= 253402663140.
Proof. split; [reflexivity|]. apply (parse_date_time_bounds (bs "17-Sep-2026 10:00:00 +0200")). reflexivity. Defined.

Lemma days_in_month_le year month : days_in_month year month <= 31.
Proof. unfold days_in_month. repeat case_match; lia. Qed.

(** On the dates of the calendar, leap years included, [civil_from_days] and
    [days_from_civil] are inverse to each other. *)
Theorem civil_days_inverse days year month day :
  1 <= month <= 12 -> 1 <= day <= days_in_month year month ->
  days_from_civil year month day = days <-> civil_from_days days = (year, month, day).
Proof.
  intros Hm Hd. split; [intros <-; by apply civil_from_days_of_civil | apply civil_from_days_inverse].
Qed.

Lemma civil_days_inverse_witness :
  days_from_civil 2024 2 29 = 19782 <-> civil_from_days 19782 = (2024, 2, 29).
Proof. apply civil_days_inverse; [lia | vm_compute; split; discriminate]. Defined.
