(* ===== verification/ImapParser.v ===== *)
(** * The IMAP command parser (crates\/uwumail-imap\/src\/parser.rs)

    The whole of [Parser] and [parse_command], one [Definition] per Rust method and
    one per arm of [Parser::command], in the monad of [Effects]: the state is the
    [pos], [depth] and [search_keys] of the struct, its [input] and [utf8], which no
    method changes, are the section's variables. Indexing and slicing panic out of
    bounds as they do in Rust. The loops run on the length of the input as fuel and
    [search_key] on one frame per allowed level; [ImapParserSafe] shows that neither
    ever runs out and that nothing panics. [usize] is 64 bits. *)

From S2P Require Import Prelude Effects Utf8 Dates ImapCommand ImapMutf7.

Definition MAX_SEARCH_DEPTH : nat := 32.
Definition MAX_SEARCH_KEYS : nat := 100.
Definition MAX_FETCH_ITEMS : nat := 100.

Record parser := { pos : nat; depth : nat; search_keys : nat }.

Definition set_pos (p : nat) (s : parser) : parser :=
  {| pos := p; depth := depth s; search_keys := search_keys s |}.

Definition set_depth (d : nat) (s : parser) : parser :=
  {| pos := pos s; depth := d; search_keys := search_keys s |}.

Definition set_search_keys (n : nat) (s : parser) : parser :=
  {| pos := pos s; depth := depth s; search_keys := n |}.

(** [word.as_str()] compared with a literal. *)
Definition is_word (w : list byte) (literal : string) : bool := bool_decide (w = bs literal).

Definition is_atom_char (b : byte) : bool :=
  (0x20 <? bz b) && (bz b <? 0x7f)
  && negb (bool_decide (b ∈ ["("; ")"; "{"; "%"; "*"; x22; "\"; "]"]%byte)).

(** crates\/uwumail-store\/src\/mutate.rs *)
Definition valid_keyword (keyword : list byte) : bool :=
  bool_decide (keyword <> []) && bool_decide (length keyword <= 255)%nat
  && forallb (fun b => (0x21 <=? bz b) && (bz b <=? 0x7e)
       && negb (bool_decide (b ∈ ["("; ")"; "]"; "{"; "%"; "*"; x22; "\"]%byte))) keyword.

(** The IMAP flag or keyword as the store keeps it. *)
Definition keyword_of_flag (flag : list byte) : option (list byte) :=
  let lower := to_ascii_lowercase flag in
  if is_word lower "\seen" then Some (bs "$seen")
  else if is_word lower "\answered" then Some (bs "$answered")
  else if is_word lower "\flagged" then Some (bs "$flagged")
  else if is_word lower "\draft" then Some (bs "$draft")
  else if is_word lower "\deleted" then Some (bs "$deleted")
  else if bool_decide (head lower = Some "\"%byte) then None
  else if negb (valid_keyword lower) then None
  else Some lower.

(** Where a literal starts in a line: [{123}] or [{123+}] right before its CRLF. *)
Definition literal_announcement (line : list byte) : option (Z * bool) :=
  line ← match strip_suffix [x0d; x0a] line with
         | Some l => Some l
         | None => strip_suffix [x0a] line
         end;
  inner ← strip_suffix (bs "}") line;
  open ← rposition (fun b => bool_decide (b = "{"%byte)) inner;
  let after := drop (S open) inner in
  let '(digits, plus) :=
    match strip_suffix (bs "+") after with
    | Some digits => (digits, true)
    | None => (after, false)
    end in
  if decide (digits = [] \/ (10 < length digits)%nat \/ forallb is_ascii_digit digits = false) then None
  else size ← parse_unsigned u64_max digits; Some (size, plus).

Section parser.
Context (input : list byte) (utf8 : bool).

Abbreviation P := (M parser (list byte)).

(** The fuel of a loop: each turn of one takes at least a byte. *)
Definition input_fuel : nat := S (length input).

(** ** Bytes *)

Definition position_now : P nat := s ← get; mret (pos s).

Definition advance (n : nat) : P unit := modify (fun s => set_pos (pos s + n) s).

Definition reset_to (start : nat) : P unit := modify (set_pos start).

Definition peek : P (option byte) := s ← get; mret (input !! pos s).

Definition peek_is (b : byte) : P bool := c ← peek; mret (bool_decide (c = Some b)).

Definition peek_test (p : byte -> bool) : P bool :=
  c ← peek; mret (match c with Some b => p b | None => false end).

(** [&self.input[start..self.pos]] *)
Definition taken_since (start : nat) : P (list byte) :=
  s ← get; expect (get_slice input start (pos s)).

Definition at_end : P bool :=
  s ← get;
  rest ← expect (get_slice input (pos s) (length input));
  mret (bool_decide (rest = [] \/ rest = [x0d; x0a] \/ rest = [x0a])).

Definition expect_end : P unit :=
  e ← at_end; if (e : bool) then mret tt else throw (bs "unexpected text at the end of the command").

Definition byte_ (expected : byte) : P unit :=
  c ← peek;
  if decide (c = Some expected) then advance 1
  else throw (bs "expected '" ++ [expected] ++ bs "'").

Definition sp : P unit := map_err (fun _ => bs "expected a space") (byte_ " "%byte).

Definition eat (expected : byte) : P bool := is_ok (byte_ expected).

(** ** Loops *)

(** [while self.peek().is_some_and(p) { self.pos += 1; }] *)
Fixpoint skip_while_fuel (fuel : nat) (p : byte -> bool) : P unit :=
  match fuel with
  | O => out_of_fuel
  | S fuel' =>
      more ← peek_test p;
      if (more : bool) then advance 1;; skip_while_fuel fuel' p else mret tt
  end.

Definition skip_while (p : byte -> bool) : P unit := skip_while_fuel input_fuel p.

(** [while self.eat(b) { .. }] over what the body changes. *)
Fixpoint while_eat_fuel {A} (fuel : nat) (b : byte) (body : A -> P A) (acc : A) : P A :=
  match fuel with
  | O => out_of_fuel
  | S fuel' =>
      more ← eat b;
      if (more : bool) then acc ← body acc; while_eat_fuel fuel' b body acc else mret acc
  end.

Definition while_eat {A} := @while_eat_fuel A input_fuel.

(** [while !self.eat(b) { .. }] *)
Fixpoint until_eat_fuel {A} (fuel : nat) (b : byte) (body : A -> P A) (acc : A) : P A :=
  match fuel with
  | O => out_of_fuel
  | S fuel' =>
      done ← eat b;
      if (done : bool) then mret acc else acc ← body acc; until_eat_fuel fuel' b body acc
  end.

Definition until_eat {A} := @until_eat_fuel A input_fuel.

(** [loop { ..; if self.eat(b')') { return } self.sp()?; }] *)
Fixpoint paren_loop_fuel {A} (fuel : nat) (body : A -> P A) (acc : A) : P A :=
  match fuel with
  | O => out_of_fuel
  | S fuel' =>
      acc ← body acc;
      done ← eat ")"%byte;
      if (done : bool) then mret acc else sp;; paren_loop_fuel fuel' body acc
  end.

Definition paren_loop {A} := @paren_loop_fuel A input_fuel.

(** A [Vec] filled by [push(item()?)]. *)
Definition push {A} (item : P A) (values : list A) : P (list A) :=
  value ← item; mret (values ++ [value]).

(** ** Words and numbers *)

Definition taken_word (start : nat) (empty : string) : P (list byte) :=
  s ← get;
  if decide (start = pos s) then throw (bs empty)
  else text ← taken_since start; ok_or (from_utf8 text) (bs "a word is not ASCII").

(** An atom-like word, with []] allowed where the caller wants it. *)
Definition word (allow_bracket : bool) : P (list byte) :=
  start ← position_now;
  skip_while (fun b => is_atom_char b || (allow_bracket && bool_decide (b = "]"%byte)));;
  taken_word start "expected a word".

Definition atom : P (list byte) := word false.

Definition upper_atom : P (list byte) := w ← atom; mret (to_ascii_uppercase w).

Definition item_name : P (list byte) :=
  start ← position_now;
  skip_while (fun b => is_atom_char b && negb (bool_decide (b = "["%byte)));;
  taken_word start "expected a FETCH item".

Definition keyword (expected : string) : P unit :=
  start ← position_now;
  w ← try_result atom;
  match w with
  | Some w =>
      if eq_ignore_ascii_case w (bs expected) then mret tt
      else reset_to start;; throw (bs "expected " ++ bs expected)
  | None => reset_to start;; throw (bs "expected " ++ bs expected)
  end.

Definition try_keyword (expected : string) : P bool :=
  s ← get;
  let start := pos s in
  let len := length (bs expected) in
  let matches :=
    match get_slice input start (start + len) with
    | Some w => eq_ignore_ascii_case w (bs expected)
    | None => false
    end
    && negb (match input !! (start + len)%nat with Some b => is_atom_char b | None => false end) in
  if matches then advance len;; mret true else mret false.

Definition number : P Z :=
  start ← position_now;
  skip_while is_ascii_digit;;
  digits ← taken_since start;
  ok_or (digits ← from_utf8 digits;
         if decide (digits <> [] /\ (length digits <= 20)%nat) then parse_unsigned u64_max digits else None)
    (bs "expected a number").

Definition nz_number32 : P Z :=
  n ← number;
  if (1 <=? n) && (n <=? 0xffffffff) then mret n
  else throw (bs "expected a number from 1 to 4294967295").

(** ** Strings *)

Fixpoint quoted_loop (fuel : nat) (value : list byte) : P (list byte) :=
  match fuel with
  | O => out_of_fuel
  | S fuel' =>
      c ← peek;
      match c with
      | Some b =>
          if decide (b = x22) then advance 1;; mret value
          else if decide (b = "\"%byte) then
            advance 1;;
            c' ← peek;
            match c' with
            | Some b' =>
                if decide (b' = x22 \/ b' = "\"%byte)
                then advance 1;; quoted_loop fuel' (value ++ [b'])
                else throw (bs "only \" ++ [x22] ++ bs " and \\ may be escaped in a quoted string")
            | None => throw (bs "only \" ++ [x22] ++ bs " and \\ may be escaped in a quoted string")
            end
          else if decide (b = x0d \/ b = x0a) then throw (bs "a quoted string is not closed")
          else advance 1;; quoted_loop fuel' (value ++ [b])
      | None => throw (bs "a quoted string is not closed")
      end
  end.

Definition quoted : P (list byte) := byte_ x22;; quoted_loop input_fuel [].

Definition literal : P (list byte) :=
  byte_ "{"%byte;;
  size ← number;
  _ ← eat "+"%byte;
  byte_ "}"%byte;;
  cr ← eat x0d;
  if (cr : bool) then
    byte_ x0a;;
    s ← get;
    let start := pos s in
    (* checked_add, then get: the sum is compared before it is a position *)
    if u64_max <? Z.of_nat start + size then throw (bs "the literal is longer than this server can hold")
    else if Z.of_nat (length input) <? Z.of_nat start + size
    then throw (bs "the literal is shorter than announced")
    else advance (Z.to_nat size);; mret (slice input start (start + Z.to_nat size))
  else throw (bs "a literal must end its line").

Definition string_ : P (list byte) :=
  c ← peek;
  if decide (c = Some x22) then quoted
  else if decide (c = Some "{"%byte) then literal
  else throw (bs "expected a string").

Definition astring_bytes : P (list byte) :=
  c ← peek;
  if decide (c = Some x22 \/ c = Some "{"%byte) then string_ else word true.

Definition astring : P (list byte) := b ← astring_bytes; mret (from_utf8_lossy b).

Definition nstring : P (option (list byte)) :=
  nil ← try_keyword "NIL";
  if (nil : bool) then mret None else b ← string_; mret (Some (from_utf8_lossy b)).

Definition mailbox_name (raw : list byte) : P (list byte) :=
  name ←
    (if utf8 then ok_or (from_utf8 raw) (bs "the mailbox name is not UTF-8")
     else text ← ok_or (from_utf8 raw) (bs "the mailbox name is not modified UTF-7");
          mret (default text (decode text)));
  mret (if eq_ignore_ascii_case name (bs "INBOX") then bs "INBOX" else name).

Definition mailbox : P (list byte) := raw ← astring_bytes; mailbox_name raw.

Definition mailbox_or_empty : P (list byte) :=
  raw ← astring_bytes; if decide (raw = []) then mret [] else mailbox_name raw.

(** A LIST pattern: like a mailbox name, but [%] and [*] may appear unquoted. *)
Definition list_pattern : P (list byte) :=
  c ← peek;
  raw ←
    (if decide (c = Some x22 \/ c = Some "{"%byte) then string_
     else
       start ← position_now;
       skip_while (fun b => is_atom_char b || bool_decide (b ∈ ["%"; "*"; "]"]%byte));;
       s ← get;
       if decide (start = pos s) then throw (bs "expected a mailbox pattern") else taken_since start);
  mailbox_name raw.

(** ** Sets, flags, dates *)

Definition seq_num : P SeqNum :=
  star ← eat "*"%byte;
  if (star : bool) then mret SeqNum.Largest else n ← nz_number32; mret (SeqNum.Value n).

Fixpoint sequence_set_loop (fuel : nat) (ranges : SequenceSet) : P SequenceSet :=
  match fuel with
  | O => out_of_fuel
  | S fuel' =>
      from ← seq_num;
      colon ← eat ":"%byte;
      to ← (if (colon : bool) then seq_num else mret from);
      comma ← eat ","%byte;
      if (comma : bool) then sequence_set_loop fuel' (ranges ++ [(from, to)])
      else mret (ranges ++ [(from, to)])
  end.

Definition sequence_set : P SequenceSet :=
  saved ← eat "$"%byte;
  if (saved : bool) then mret [(SeqNum.Saved, SeqNum.Saved)] else sequence_set_loop input_fuel [].

Definition flag : P (list byte) :=
  start ← position_now;
  _ ← eat "\"%byte;
  star ← peek_is "*"%byte;
  (if (star : bool) then advance 1 else (_ ← atom; mret tt));;
  text ← taken_since start;
  mret (from_utf8_lossy text).

Definition flag_list : P (list (list byte)) :=
  byte_ "("%byte;;
  empty ← eat ")"%byte;
  if (empty : bool) then mret [] else paren_loop (push flag) [].

(** Items in parentheses separated by spaces, or a single item without them. *)
Definition list_of {A} (item : P A) : P (list A) :=
  opened ← eat "("%byte;
  if (opened : bool) then
    empty ← eat ")"%byte;
    if (empty : bool) then mret [] else paren_loop (push item) []
  else value ← item; mret [value].

Definition date : P Z :=
  quoted ← eat x22;
  start ← position_now;
  skip_while (fun b => is_ascii_alphanumeric b || bool_decide (b = "-"%byte));;
  slice ← taken_since start;
  let text := default [] (from_utf8 slice) in
  (if (quoted : bool) then byte_ x22 else mret tt);;
  ok_or (parse_date text) (bs "expected a date like 17-Sep-2026").

Definition status_item : P StatusItem :=
  w ← upper_atom;
  if is_word w "MESSAGES" then mret StatusItem.Messages
  else if is_word w "RECENT" then mret StatusItem.Recent
  else if is_word w "UIDNEXT" then mret StatusItem.UidNext
  else if is_word w "UIDVALIDITY" then mret StatusItem.UidValidity
  else if is_word w "UNSEEN" then mret StatusItem.Unseen
  else if is_word w "SIZE" then mret StatusItem.Size
  else if is_word w "DELETED" then mret StatusItem.Deleted
  else if is_word w "HIGHESTMODSEQ" then mret StatusItem.HighestModSeq
  else throw (bs "unknown status item " ++ w).

(** [(item item ..)] of STATUS, after the opening parenthesis. *)
Definition status_items : P (list StatusItem) :=
  byte_ "("%byte;;
  first ← status_item;
  items ← while_eat " "%byte (push status_item) [first];
  byte_ ")"%byte;;
  mret items.

Fixpoint skip_parenthesized_loop (fuel : nat) (open : nat) : P unit :=
  match open, fuel with
  | O, _ => mret tt
  | _, O => out_of_fuel
  | S open', S fuel' =>
      c ← peek;
      match c with
      | Some b =>
          if decide (b = "("%byte) then advance 1;; skip_parenthesized_loop fuel' (S open)
          else if decide (b = ")"%byte) then advance 1;; skip_parenthesized_loop fuel' open'
          else if decide (b = x22) then _ ← quoted; skip_parenthesized_loop fuel' open
          else if decide (b = "{"%byte) then _ ← literal; skip_parenthesized_loop fuel' open
          else if decide (b = x0d \/ b = x0a) then throw (bs "a parenthesized list is not closed")
          else advance 1;; skip_parenthesized_loop fuel' open
      | None => throw (bs "a parenthesized list is not closed")
      end
  end.

Definition skip_parenthesized : P unit := byte_ "("%byte;; skip_parenthesized_loop input_fuel 1.

(** ** LIST *)

Definition list_option (l : ListCommand) : P ListCommand :=
  _ ← eat " "%byte;
  option ← upper_atom;
  if is_word option "SUBSCRIBED" then mret (with_subscribed l)
  else if is_word option "SPECIAL-USE" then mret (with_special_use l)
  else if is_word option "REMOTE" || is_word option "RECURSIVEMATCH" then mret l
  else throw (bs "unknown LIST option " ++ option).

Definition list_return_option (l : ListCommand) : P ListCommand :=
  _ ← eat " "%byte;
  option ← upper_atom;
  if is_word option "SUBSCRIBED" then mret (with_return_subscribed l)
  else if is_word option "CHILDREN" then mret (with_return_children l)
  else if is_word option "SPECIAL-USE" then mret (with_return_special_use l)
  else if is_word option "STATUS" then
    sp;; items ← status_items; mret (with_return_status items l)
  else throw (bs "unknown LIST return option " ++ option).

Definition push_pattern (l : ListCommand) : P ListCommand :=
  pattern ← list_pattern; mret (with_pattern pattern l).

Definition list_ : P ListCommand :=
  sp;;
  selection ← eat "("%byte;
  l ← (if (selection : bool)
       then l ← until_eat ")"%byte list_option (with_extended list_default); sp;; mret l
       else mret list_default);
  reference ← mailbox_or_empty;
  let l := with_reference reference l in
  sp;;
  several ← eat "("%byte;
  l ← (if (several : bool) then paren_loop push_pattern (with_extended l) else push_pattern l);
  more ← eat " "%byte;
  if (more : bool) then
    keyword "RETURN";; sp;; byte_ "("%byte;;
    until_eat ")"%byte list_return_option (with_extended l)
  else mret l.

(** ** FETCH *)

Definition partial : P (option (Z * Z)) :=
  opened ← eat "<"%byte;
  if (opened : bool) then
    n ← number;
    origin ← ok_or (if n <=? u32_max then Some n else None) (bs "the partial origin is too big");
    byte_ "."%byte;;
    count ← nz_number32;
    byte_ ">"%byte;;
    mret (Some (origin, count))
  else mret None.

Fixpoint binary_part_loop (fuel : nat) (part : list Z) : P (list Z) :=
  match fuel with
  | O => out_of_fuel
  | S fuel' =>
      digit ← peek_test is_ascii_digit;
      if (digit : bool) then
        n ← nz_number32;
        dot ← eat "."%byte;
        if (dot : bool) then binary_part_loop fuel' (part ++ [n]) else mret (part ++ [n])
      else mret part
  end.

Fixpoint section_loop (fuel : nat) (part : list Z) : P BodySection :=
  match fuel with
  | O => out_of_fuel
  | S fuel' =>
      digit ← peek_test is_ascii_digit;
      if (digit : bool) then
        n ← nz_number32;
        dot ← eat "."%byte;
        if (dot : bool) then section_loop fuel' (part ++ [n])
        else mret {| section_part := part ++ [n]; section_text := None |}
      else
        w ← word false;
        let w := to_ascii_uppercase w in
        text ←
          (if is_word w "HEADER" then mret SectionText.Header
           else if is_word w "TEXT" then mret SectionText.Text
           else if is_word w "MIME" && bool_decide (part <> []) then mret SectionText.Mime
           else if is_word w "HEADER.FIELDS" || is_word w "HEADER.FIELDS.NOT" then
             sp;;
             fields ← list_of astring;
             if decide (fields = []) then throw (bs "HEADER.FIELDS needs field names")
             else if is_word w "HEADER.FIELDS" then mret (SectionText.HeaderFields fields)
             else mret (SectionText.HeaderFieldsNot fields)
           else throw (bs "unknown section " ++ w));
        mret {| section_part := part; section_text := Some text |}
  end.

Definition section : P BodySection :=
  closed ← peek_is "]"%byte;
  if (closed : bool) then mret {| section_part := []; section_text := None |}
  else section_loop input_fuel [].

Definition binary_item (w : list byte) : P FetchItem :=
  byte_ "["%byte;;
  part ← binary_part_loop input_fuel [];
  byte_ "]"%byte;;
  if is_word w "BINARY.SIZE" then mret (FetchItem.BinarySize part)
  else p ← partial; mret (FetchItem.Binary part p (is_word w "BINARY.PEEK")).

Definition body_item (peek : bool) : P FetchItem :=
  opened ← peek_is "["%byte;
  if (opened : bool) then
    byte_ "["%byte;;
    sec ← section;
    byte_ "]"%byte;;
    p ← partial;
    mret (FetchItem.BodySection sec p peek)
  else if peek then throw (bs "BODY.PEEK needs a section") else mret FetchItem.Body.

Definition fetch_item : P FetchItem :=
  w ← item_name;
  let w := to_ascii_uppercase w in
  if is_word w "ENVELOPE" then mret FetchItem.Envelope
  else if is_word w "FLAGS" then mret FetchItem.Flags
  else if is_word w "INTERNALDATE" then mret FetchItem.InternalDate
  else if is_word w "RFC822" then mret FetchItem.Rfc822
  else if is_word w "RFC822.HEADER" then mret FetchItem.Rfc822Header
  else if is_word w "RFC822.SIZE" then mret FetchItem.Rfc822Size
  else if is_word w "RFC822.TEXT" then mret FetchItem.Rfc822Text
  else if is_word w "BODYSTRUCTURE" then mret FetchItem.BodyStructure
  else if is_word w "UID" then mret FetchItem.Uid
  else if is_word w "MODSEQ" then mret FetchItem.ModSeq
  else if is_word w "BODY" then body_item false
  else if is_word w "BODY.PEEK" then body_item true
  else if is_word w "BINARY" || is_word w "BINARY.PEEK" || is_word w "BINARY.SIZE" then binary_item w
  else throw (bs "unknown FETCH item " ++ w).

Definition fetch_macro (w : list byte) : option (list FetchItem) :=
  if is_word w "ALL"
  then Some [FetchItem.Flags; FetchItem.InternalDate; FetchItem.Rfc822Size; FetchItem.Envelope]
  else if is_word w "FAST" then Some [FetchItem.Flags; FetchItem.InternalDate; FetchItem.Rfc822Size]
  else if is_word w "FULL"
  then Some [FetchItem.Flags; FetchItem.InternalDate; FetchItem.Rfc822Size; FetchItem.Envelope; FetchItem.Body]
  else None.

Definition fetch_items : P (list FetchItem) :=
  several ← peek_is "("%byte;
  if (several : bool) then list_of fetch_item
  else
    start ← position_now;
    w ← upper_atom;
    match fetch_macro w with
    | Some items => mret items
    | None => reset_to start;; item ← fetch_item; mret [item]
    end.

(** Repeats are dropped; [None] when there are more than allowed. *)
Fixpoint distinct_items (items distinct : list FetchItem) : option (list FetchItem) :=
  match items with
  | [] => Some distinct
  | item :: items' =>
      if decide (item ∈ distinct) then distinct_items items' distinct
      else if decide (length distinct = MAX_FETCH_ITEMS) then None
      else distinct_items items' (distinct ++ [item])
  end.

Definition fetch_modifier (acc : option Z * bool) : P (option Z * bool) :=
  let '(changed_since, vanished) := acc in
  changedsince ← try_keyword "CHANGEDSINCE";
  if (changedsince : bool) then sp;; n ← number; mret (Some n, vanished)
  else
    vanished' ← try_keyword "VANISHED";
    if (vanished' : bool) then mret (changed_since, true) else throw (bs "unknown FETCH modifier").

Definition fetch (uid : bool) (set : SequenceSet) : P CommandBody :=
  items ← fetch_items;
  items ← ok_or (distinct_items items []) (bs "too many FETCH items");
  more ← eat " "%byte;
  modifiers ← (if (more : bool) then byte_ "("%byte;; paren_loop fetch_modifier (None, false)
               else mret (None, false));
  let '(changed_since, vanished) := modifiers in
  if vanished && (negb uid || bool_decide (changed_since = None))
  then throw (bs "VANISHED needs UID FETCH with CHANGEDSINCE")
  else mret (CommandBody.Fetch uid set items changed_since vanished).

(** ** STORE, COPY, MOVE *)

Definition store (uid : bool) (set : SequenceSet) : P CommandBody :=
  condition ← eat "("%byte;
  unchanged_since ←
    (if (condition : bool)
     then keyword "UNCHANGEDSINCE";; sp;; n ← number; byte_ ")"%byte;; sp;; mret (Some n)
     else mret None);
  plus ← eat "+"%byte;
  action ←
    (if (plus : bool) then mret StoreAction.Add
     else minus ← eat "-"%byte;
          mret (if (minus : bool) then StoreAction.Remove else StoreAction.Replace));
  item ← upper_atom;
  silent ← (if is_word item "FLAGS" then mret false
            else if is_word item "FLAGS.SILENT" then mret true
            else throw (bs "expected FLAGS or FLAGS.SILENT"));
  sp;;
  several ← peek_is "("%byte;
  flags ← (if (several : bool) then flag_list
           else first ← flag; while_eat " "%byte (push flag) [first]);
  mret (CommandBody.Store uid set unchanged_since action silent flags).

Definition copy_or_move (copy uid : bool) (set : SequenceSet) : P CommandBody :=
  mailbox ← mailbox;
  mret (if copy then CommandBody.Copy uid set mailbox else CommandBody.Move uid set mailbox).

(** ** SEARCH *)

Definition search_string : P (list byte) := sp;; astring.

(** The keys that are one word. *)
Definition flag_key (w : list byte) : option SearchKey :=
  if is_word w "ALL" then Some SearchKey.All
  else if is_word w "ANSWERED" then Some (SearchKey.Keyword (bs "$answered"))
  else if is_word w "DELETED" then Some (SearchKey.Keyword (bs "$deleted"))
  else if is_word w "DRAFT" then Some (SearchKey.Keyword (bs "$draft"))
  else if is_word w "FLAGGED" then Some (SearchKey.Keyword (bs "$flagged"))
  else if is_word w "SEEN" then Some (SearchKey.Keyword (bs "$seen"))
  else if is_word w "UNANSWERED" then Some (SearchKey.Unkeyword (bs "$answered"))
  else if is_word w "UNDELETED" then Some (SearchKey.Unkeyword (bs "$deleted"))
  else if is_word w "UNDRAFT" then Some (SearchKey.Unkeyword (bs "$draft"))
  else if is_word w "UNFLAGGED" then Some (SearchKey.Unkeyword (bs "$flagged"))
  else if is_word w "UNSEEN" then Some (SearchKey.Unkeyword (bs "$seen"))
  else if is_word w "NEW" then Some SearchKey.New
  else if is_word w "OLD" then Some SearchKey.Old
  else if is_word w "RECENT" then Some SearchKey.Recent
  else None.

(** The keys that take a string, a date, or a number. *)
Definition text_key (w : list byte) : option (list byte -> SearchKey) :=
  if is_word w "BCC" then Some SearchKey.Bcc
  else if is_word w "CC" then Some SearchKey.Cc
  else if is_word w "FROM" then Some SearchKey.From
  else if is_word w "TO" then Some SearchKey.To
  else if is_word w "SUBJECT" then Some SearchKey.Subject
  else if is_word w "BODY" then Some SearchKey.Body
  else if is_word w "TEXT" then Some SearchKey.Text
  else None.

Definition date_key (w : list byte) : option (Z -> SearchKey) :=
  if is_word w "BEFORE" then Some SearchKey.Before
  else if is_word w "ON" then Some SearchKey.On
  else if is_word w "SINCE" then Some SearchKey.Since
  else if is_word w "SENTBEFORE" then Some SearchKey.SentBefore
  else if is_word w "SENTON" then Some SearchKey.SentOn
  else if is_word w "SENTSINCE" then Some SearchKey.SentSince
  else None.

Definition number_key (w : list byte) : option (Z -> SearchKey) :=
  if is_word w "LARGER" then Some SearchKey.Larger
  else if is_word w "SMALLER" then Some SearchKey.Smaller
  else if is_word w "YOUNGER" then Some SearchKey.Younger
  else if is_word w "OLDER" then Some SearchKey.Older
  else None.

Definition keyword_key (w : list byte) : P SearchKey :=
  sp;;
  flag ← flag;
  name ← ok_or (keyword_of_flag flag) (bs "not a keyword");
  mret (if is_word w "KEYWORD" then SearchKey.Keyword name else SearchKey.Unkeyword name).

Definition modseq_key : P SearchKey :=
  sp;;
  entry ← peek_is x22;
  (if (entry : bool) then _ ← quoted; sp;; _ ← atom; sp else mret tt);;
  n ← number;
  mret (SearchKey.ModSeq n).

(** A list of one key is that key. *)
Definition and_keys (keys : list SearchKey) : SearchKey :=
  match keys with [key] => key | _ => SearchKey.And keys end.

(** [nested_search_key]; [search_key] is the method it calls back. *)
Definition nested_search_key (search_key : P SearchKey) : P SearchKey :=
  opened ← eat "("%byte;
  if (opened : bool) then
    first ← search_key;
    keys ← while_eat " "%byte (push search_key) [first];
    byte_ ")"%byte;;
    mret (and_keys keys)
  else
    set ← peek_test (fun b => is_ascii_digit b || bool_decide (b = "*"%byte) || bool_decide (b = "$"%byte));
    if (set : bool) then set ← sequence_set; mret (SearchKey.SequenceSet set)
    else
      w ← upper_atom;
      match flag_key w, text_key w, date_key w, number_key w with
      | Some key, _, _, _ => mret key
      | _, Some key, _, _ => text ← search_string; mret (key text)
      | _, _, Some key, _ => sp;; day ← date; mret (key day)
      | _, _, _, Some key => sp;; n ← number; mret (key n)
      | None, None, None, None =>
          if is_word w "KEYWORD" || is_word w "UNKEYWORD" then keyword_key w
          else if is_word w "HEADER" then
            field ← search_string; text ← search_string; mret (SearchKey.Header field text)
          else if is_word w "UID" then sp;; set ← sequence_set; mret (SearchKey.Uid set)
          else if is_word w "NOT" then sp;; key ← search_key; mret (SearchKey.Not key)
          else if is_word w "OR" then
            sp;; left ← search_key; sp;; right ← search_key; mret (SearchKey.Or left right)
          else if is_word w "MODSEQ" then modseq_key
          else throw (bs "unknown search key " ++ w)
      end.

(** [self.depth -= 1]: below zero is an overflow. *)
Definition leave : P unit :=
  s ← get; match depth s with O => panic | S d => put (set_depth d s) end.

(** The guard of [search_key] around its body, which leaves again on every path. *)
Definition guarded (body : P SearchKey) : P SearchKey :=
  modify (fun s => set_depth (S (depth s)) s);;
  s ← get;
  if decide (MAX_SEARCH_DEPTH < depth s)%nat
  then leave;; throw (bs "the search is nested too deeply")
  else
    modify (fun s => set_search_keys (S (search_keys s)) s);;
    s ← get;
    if decide (MAX_SEARCH_KEYS < search_keys s)%nat
    then leave;; throw (bs "the search has too many keys")
    else fun s =>
      match body s with
      | (Panicked, s') => (Panicked, s')
      | (OutOfFuel, s') => (OutOfFuel, s')
      | (key, s') =>
          match leave s' with
          | (Panicked, s'') => (Panicked, s'')
          | (_, s'') => (key, s'')
          end
      end.

(** One unit of fuel is one frame of the method on the stack. *)
Fixpoint search_key (fuel : nat) : P SearchKey :=
  match fuel with
  | O => out_of_fuel
  | S fuel' => guarded (nested_search_key (search_key fuel'))
  end.

Definition search_fuel : nat := S MAX_SEARCH_DEPTH.

Definition search_return (options : list SearchReturn) : P (list SearchReturn) :=
  _ ← eat " "%byte;
  w ← upper_atom;
  if is_word w "MIN" then mret (options ++ [SearchReturn.Min])
   else if is_word w "MAX" then mret (options ++ [SearchReturn.Max])
   else if is_word w "ALL" then mret (options ++ [SearchReturn.All])
   else if is_word w "COUNT" then mret (options ++ [SearchReturn.Count])
   else if is_word w "SAVE" then mret (options ++ [SearchReturn.Save])
   else throw (bs "unknown SEARCH return option " ++ w).

Definition search_returns : P (option (list SearchReturn)) :=
  given ← try_keyword "RETURN";
  if (given : bool) then
    sp;; byte_ "("%byte;;
    options ← until_eat ")"%byte search_return [];
    sp;;
    mret (Some (if decide (options = []) then [SearchReturn.All] else options))
  else mret None.

Definition search_charset : P unit :=
  given ← try_keyword "CHARSET";
  if (given : bool) then
    sp;;
    charset ← astring;
    if eq_ignore_ascii_case (bs "UTF-8") charset || eq_ignore_ascii_case (bs "US-ASCII") charset then sp
    else throw (bs "[BADCHARSET (UTF-8 US-ASCII)] only UTF-8 and US-ASCII")
  else mret tt.

Definition search (uid : bool) : P CommandBody :=
  returns ← search_returns;
  search_charset;;
  first ← search_key search_fuel;
  keys ← while_eat " "%byte (push (search_key search_fuel)) [first];
  mret (CommandBody.Search uid returns (and_keys keys)).

(** ** Commands *)

Definition message_command (name : list byte) (uid : bool) : P CommandBody :=
  sp;;
  if is_word name "SEARCH" then search uid
  else
    set ← sequence_set;
    sp;;
    if is_word name "FETCH" then fetch uid set
    else if is_word name "STORE" then store uid set
    else copy_or_move (is_word name "COPY") uid set.

Definition is_message_command (name : list byte) : bool :=
  is_word name "SEARCH" || is_word name "FETCH" || is_word name "STORE" || is_word name "COPY"
  || is_word name "MOVE".

(** The commands that are a word. *)
Definition plain_command (name : list byte) : option CommandBody :=
  if is_word name "CAPABILITY" then Some CommandBody.Capability
  else if is_word name "NOOP" then Some CommandBody.Noop
  else if is_word name "LOGOUT" then Some CommandBody.Logout
  else if is_word name "STARTTLS" then Some CommandBody.StartTls
  else if is_word name "NAMESPACE" then Some CommandBody.Namespace
  else if is_word name "IDLE" then Some CommandBody.Idle
  else if is_word name "CHECK" then Some CommandBody.Check
  else if is_word name "CLOSE" then Some CommandBody.Close
  else if is_word name "UNSELECT" then Some CommandBody.Unselect
  else if is_word name "EXPUNGE" then Some (CommandBody.Expunge None)
  else if is_word name "UNAUTHENTICATE" then Some CommandBody.Unauthenticate
  else None.

Definition id_command : P CommandBody :=
  sp;;
  nil ← try_keyword "NIL";
  (if (nil : bool) then mret tt else (_ ← list_of nstring; mret tt));;
  mret CommandBody.Id.

Definition login_command : P CommandBody :=
  sp;; username ← astring; sp;; password ← astring; mret (CommandBody.Login username password).

Definition authenticate_command : P CommandBody :=
  sp;;
  mechanism ← upper_atom;
  more ← eat " "%byte;
  initial ←
    (if (more : bool) then
       start ← position_now;
       skip_while (fun b => is_ascii_alphanumeric b || bool_decide (b ∈ ["+"; "/"; "="]%byte));;
       text ← taken_since start;
       mret (Some (from_utf8_lossy text))
     else mret None);
  mret (CommandBody.Authenticate mechanism initial).

Definition enable_command : P CommandBody :=
  capabilities ← while_eat " "%byte (push upper_atom) [];
  if decide (capabilities = []) then throw (bs "ENABLE needs a capability")
  else mret (CommandBody.Enable capabilities).

Definition qresync_params : P QresyncParams :=
  sp;; byte_ "("%byte;;
  validity ← nz_number32;
  sp;;
  modseq ← number;
  more ← eat " "%byte;
  known ←
    (if (more : bool) then
       seqs ← peek_is "("%byte;
       if (seqs : bool) then skip_parenthesized;; mret None
       else
         set ← sequence_set;
         more ← eat " "%byte;
         (if (more : bool) then skip_parenthesized else mret tt);;
         mret (Some set)
     else mret None);
  byte_ ")"%byte;;
  mret {| uid_validity := validity; qresync_modseq := modseq; known_uids := known |}.

Definition select_parameter (acc : bool * option QresyncParams) : P (bool * option QresyncParams) :=
  let '(condstore, qresync) := acc in
  condstore' ← try_keyword "CONDSTORE";
  if (condstore' : bool) then mret (true, qresync)
  else
    qresync' ← try_keyword "QRESYNC";
    if (qresync' : bool) then q ← qresync_params; mret (condstore, Some q)
    else throw (bs "unknown SELECT parameter").

Definition select_command (read_only : bool) : P CommandBody :=
  sp;;
  mailbox ← mailbox;
  more ← eat " "%byte;
  parameters ← (if (more : bool) then byte_ "("%byte;; paren_loop select_parameter (false, None)
                else mret (false, None));
  let '(condstore, qresync) := parameters in
  mret (CommandBody.Select mailbox read_only condstore qresync).

Definition mailbox_command (name : list byte) : P CommandBody :=
  sp;;
  mailbox ← mailbox;
  (if is_word name "CREATE" then
     more ← eat " "%byte;
     if (more : bool) then skip_parenthesized else mret tt
   else mret tt);;
  mret (if is_word name "CREATE" then CommandBody.Create mailbox
        else if is_word name "DELETE" then CommandBody.Delete mailbox
        else if is_word name "SUBSCRIBE" then CommandBody.Subscribe mailbox
        else CommandBody.Unsubscribe mailbox).

Definition rename_command : P CommandBody :=
  sp;; from ← mailbox; sp;; to ← mailbox; mret (CommandBody.Rename from to).

Definition lsub_command : P CommandBody :=
  sp;; reference ← mailbox_or_empty; sp;; pattern ← list_pattern; mret (CommandBody.Lsub reference pattern).

Definition status_command : P CommandBody :=
  sp;; mailbox ← mailbox; sp;; items ← status_items; mret (CommandBody.Status mailbox items).

Definition append_command : P CommandBody :=
  sp;;
  mailbox ← mailbox;
  sp;;
  listed ← peek_is "("%byte;
  flags ← (if (listed : bool) then flags ← flag_list; sp;; mret flags else mret []);
  dated ← peek_is x22;
  date ←
    (if (dated : bool) then
       text ← quoted;
       date ← ok_or (parse_date_time (from_utf8_lossy text))
         (bs "expected a date like " ++ [x22] ++ bs "17-Sep-2026 10:00:00 +0200" ++ [x22]);
       sp;;
       mret (Some date)
     else mret None);
  _ ← eat "~"%byte;
  message ← literal;
  mret (CommandBody.Append mailbox flags date message).

Definition uid_command : P CommandBody :=
  sp;;
  sub ← upper_atom;
  if is_message_command sub then message_command sub true
  else if is_word sub "EXPUNGE" then sp;; set ← sequence_set; mret (CommandBody.Expunge (Some set))
  else throw (bs "unknown command UID " ++ sub).

Definition acl_command (name : list byte) : P CommandBody :=
  sp;;
  mailbox ← mailbox;
  sp;;
  identifier ← astring;
  if is_word name "SETACL" then sp;; rights ← astring; mret (CommandBody.SetAcl mailbox identifier rights)
  else mret (if is_word name "DELETEACL" then CommandBody.DeleteAcl mailbox identifier
             else CommandBody.ListRights mailbox identifier).

Definition own_acl_command (name : list byte) : P CommandBody :=
  sp;;
  mailbox ← mailbox;
  mret (if is_word name "GETACL" then CommandBody.GetAcl mailbox else CommandBody.MyRights mailbox).

(** The [match] of [command]. *)
Definition command_body (name : list byte) : P CommandBody :=
  match plain_command name with
  | Some body => mret body
  | None =>
      if is_word name "ID" then id_command
      else if is_word name "LOGIN" then login_command
      else if is_word name "AUTHENTICATE" then authenticate_command
      else if is_word name "ENABLE" then enable_command
      else if is_word name "SELECT" || is_word name "EXAMINE" then select_command (is_word name "EXAMINE")
      else if is_word name "CREATE" || is_word name "DELETE" || is_word name "SUBSCRIBE"
              || is_word name "UNSUBSCRIBE" then mailbox_command name
      else if is_word name "RENAME" then rename_command
      else if is_word name "LIST" then l ← list_; mret (CommandBody.List l)
      else if is_word name "LSUB" then lsub_command
      else if is_word name "STATUS" then status_command
      else if is_word name "APPEND" then append_command
      else if is_message_command name then message_command name false
      else if is_word name "UID" then uid_command
      else if is_word name "GETQUOTA" then sp;; root ← astring; mret (CommandBody.GetQuota root)
      else if is_word name "GETQUOTAROOT" then sp;; m ← mailbox; mret (CommandBody.GetQuotaRoot m)
      else if is_word name "GETACL" || is_word name "MYRIGHTS" then own_acl_command name
      else if is_word name "SETACL" || is_word name "DELETEACL" || is_word name "LISTRIGHTS"
      then acl_command name
      else throw (bs "unknown command " ++ name)
  end.

Definition command : P CommandBody :=
  name ← upper_atom;
  body ← command_body name;
  expect_end;;
  mret body.

End parser.

Record ParseError := { error_tag : option (list byte); message : list byte }.

Definition initial : parser := {| pos := 0; depth := 0; search_keys := 0 |}.

(** Parses one complete command. [utf8] says whether the client enabled UTF8=ACCEPT. *)
Definition parse_command (input : list byte) (utf8 : bool) : outcome ParseError Command :=
  let no_tag := Err {| error_tag := None; message := bs "a command starts with a tag" |} in
  match word input false initial with
  | (Ok tag, s) =>
      if decide ("+"%byte ∈ tag) then no_tag
      else
        match (sp input;; command input utf8) s with
        | (Ok body, _) => Ok {| tag := tag; body := body |}
        | (Err message, _) => Err {| error_tag := Some tag; message := message |}
        | (Panicked, _) => Panicked
        | (OutOfFuel, _) => OutOfFuel
        end
  | (Err _, _) => no_tag
  | (Panicked, _) => Panicked
  | (OutOfFuel, _) => OutOfFuel
  end.

(** [trim_end_matches(['\r', '\n'])] *)
Fixpoint trim_end_fuel (fuel : nat) (s : list byte) : list byte :=
  match fuel, last s with
  | S fuel', Some b => if decide (b = x0d \/ b = x0a) then trim_end_fuel fuel' (removelast s) else s
  | _, _ => s
  end.

(** The client's answer to an AUTHENTICATE challenge, [None] when it cancelled. *)
Definition parse_continuation (line : list byte) : option (list byte) :=
  text ← from_utf8 line;
  let text := trim_end_fuel (length text) text in
  if decide (text = bs "*") then None else Some text.
