(* ===== verification/ImapParserSafe.v ===== *)
(** * The IMAP parser returns on every input

    Every method of the parser keeps [pos] inside the input, gives [depth] back as it
    found it, and never panics or runs out of fuel: [safe], proved method by method,
    the plain ones by the [harmless] automation. On top of that, what a command that
    parses looks like: how deep its search nests, how many keys and FETCH items it
    has, that it was read to its end. *)

From S2P Require Import Prelude Effects Utf8 Dates ImapCommand ImapMutf7 ImapParser.

Create HintDb parser.

Section safe.
Context (input : list byte) (utf8 : bool).

Abbreviation P := (M parser (list byte)).
Abbreviation limit := (length input).

Implicit Types s : parser.

Definition inside (s : parser) : Prop := (pos s <= limit)%nat.

(** What a method does to the parser, whether it succeeds or not. *)
Definition grow (s s' : parser) : Prop :=
  (pos s <= pos s' <= limit)%nat /\ depth s' = depth s /\ (search_keys s <= search_keys s')%nat.

(** What one does that reads no search key. *)
Definition step (s s' : parser) : Prop :=
  (pos s <= pos s' <= limit)%nat /\ depth s' = depth s /\ search_keys s' = search_keys s.

(** No panic, no lost fuel; on success the result is related by [R]. *)
Definition safe {A} (m : P A) (R : parser -> A -> parser -> Prop) : Prop :=
  forall s, inside s -> wp m (fun a s' => step s s' /\ R s a s') (grow s) s.

Definition harmless {A} (m : P A) : Prop := safe m (fun _ _ _ => True).

(** At least one byte is taken. *)
Definition eats (s s' : parser) : Prop := (pos s < pos s')%nat.

Lemma step_refl s : inside s -> step s s.
Proof. unfold step, inside. lia. Qed.

Lemma step_trans s1 s2 s3 : step s1 s2 -> step s2 s3 -> step s1 s3.
Proof. unfold step. lia. Qed.

Lemma step_inside s s' : step s s' -> inside s'.
Proof. unfold step, inside. lia. Qed.

Lemma step_grow s s' : step s s' -> grow s s'.
Proof. unfold step, grow. lia. Qed.

Lemma grow_trans s1 s2 s3 : grow s1 s2 -> grow s2 s3 -> grow s1 s3.
Proof. unfold grow. lia. Qed.

Lemma grow_inside s s' : grow s s' -> inside s'.
Proof. unfold grow, inside. lia. Qed.

Lemma grow_step s s' : grow s s' -> search_keys s' = search_keys s -> step s s'.
Proof. unfold grow, step. lia. Qed.

Hint Resolve step_refl step_trans step_inside step_grow grow_trans grow_inside : parser.

Ltac fails := apply wp_throw; eauto with parser.

(** Using what is known of a call inside a longer computation. *)
Lemma wp_safe {A} (m : P A) R s0 (Q : A -> parser -> Prop) s :
  safe m R -> step s0 s -> (forall a s', step s s' -> step s0 s' -> R s a s' -> Q a s') ->
  wp m Q (grow s0) s.
Proof.
  intros Hm Hs HQ. eapply wp_mono; [..|apply Hm]; eauto with parser.
  intros a s' [H1 H2]. eauto with parser.
Qed.

Lemma wp_safe_grow {A} (m : P A) R s0 (Q : A -> parser -> Prop) s :
  safe m R -> grow s0 s -> (forall a s', step s s' -> grow s0 s' -> R s a s' -> Q a s') ->
  wp m Q (grow s0) s.
Proof.
  intros Hm Hs HQ. eapply wp_mono; [..|apply Hm]; eauto with parser.
  intros a s' [H1 H2]. eauto with parser.
Qed.

Lemma safe_weaken {A} (m : P A) R R' :
  (forall s a s', step s s' -> R s a s' -> R' s a s') -> safe m R -> safe m R'.
Proof. intros HR Hm s Hs. eapply wp_mono; [..|by apply Hm]; naive_solver. Qed.

Lemma safe_harmless {A} (m : P A) R : safe m R -> harmless m.
Proof. by apply safe_weaken. Qed.

Lemma wp_harmless {A} (m : P A) s0 (Q : A -> parser -> Prop) s :
  harmless m -> step s0 s -> (forall a s', step s s' -> step s0 s' -> Q a s') -> wp m Q (grow s0) s.
Proof. intros Hm Hs HQ. eapply wp_safe; [exact Hm | done | eauto]. Qed.

Lemma harmless_bind {A B} (m : P A) (k : A -> P B) :
  harmless m -> (forall a, harmless (k a)) -> harmless (m ≫= k).
Proof.
  intros Hm Hk s Hs. apply wp_bind. eapply wp_safe; [exact Hm | by apply step_refl|].
  intros a s' _ H0 _. eapply wp_safe; [apply Hk | done |]. eauto.
Qed.

Lemma harmless_ret {A} (a : A) : harmless (mret a).
Proof. intros s Hs. apply wp_ret. auto with parser. Qed.

Lemma harmless_throw {A} e : harmless (throw e : P A).
Proof. intros s Hs. apply wp_throw. auto with parser. Qed.

Lemma harmless_ok_or {A} (o : option A) e : harmless (ok_or o e).
Proof. destruct o; [apply harmless_ret | apply harmless_throw]. Qed.

Lemma harmless_get : harmless (get : P parser).
Proof. intros s Hs. apply wp_get. auto with parser. Qed.

Lemma harmless_map_err {A} f (m : P A) : harmless m -> harmless (map_err f m).
Proof. intros Hm s Hs. apply wp_map_err. by apply Hm. Qed.

(** What a method makes, whatever the state. *)
Definition makes {A} (Q : A -> Prop) (m : P A) : Prop := safe m (fun _ a _ => Q a).

Lemma makes_bind {A B} Q (m : P A) (k : A -> P B) :
  harmless m -> (forall a, makes Q (k a)) -> makes Q (m ≫= k).
Proof.
  intros Hm Hk s Hs. apply wp_bind. eapply wp_harmless; [exact Hm | auto with parser |].
  intros a s1 _ H1. eapply wp_safe; [apply Hk | done |]. auto.
Qed.

Lemma makes_seq {A B} (Q' : A -> Prop) (Q : B -> Prop) (m : P A) (k : A -> P B) :
  makes Q' m -> (forall a, Q' a -> makes Q (k a)) -> makes Q (m ≫= k).
Proof.
  intros Hm Hk s Hs. apply wp_bind. eapply wp_safe; [exact Hm | auto with parser |].
  intros a s1 _ H1 Ha. eapply wp_safe; [by apply Hk | done |]. auto.
Qed.

Lemma makes_harmless {A} (Q : A -> Prop) (m : P A) : makes Q m -> harmless m.
Proof. apply safe_harmless. Qed.

Lemma makes_ret {A} (Q : A -> Prop) a : Q a -> makes Q (mret a).
Proof. intros HQ s Hs. apply wp_ret. auto with parser. Qed.

Lemma makes_throw {A} (Q : A -> Prop) e : makes Q (throw e).
Proof. intros s Hs. fails. Qed.

(** ** Bytes *)

Lemma wp_peek (Q : option byte -> parser -> Prop) F s : Q (input !! pos s) s -> wp (peek input) Q F s.
Proof. done. Qed.

Lemma wp_advance n (Q : unit -> parser -> Prop) F s :
  Q tt (set_pos (pos s + n) s) -> wp (advance n) Q F s.
Proof. done. Qed.

Lemma wp_peek_test p (Q : bool -> parser -> Prop) F s :
  Q (match input !! pos s with Some b => p b | None => false end) s -> wp (peek_test input p) Q F s.
Proof. done. Qed.

Lemma safe_peek : safe (peek input) (fun s c s' => s' = s /\ c = input !! pos s).
Proof. intros s Hs. unfold peek. repeat wp_step. eauto with parser. Qed.

Lemma harmless_peek : harmless (peek input).
Proof. eapply safe_harmless, safe_peek. Qed.

Lemma safe_peek_test p :
  safe (peek_test input p) (fun s c s' => s' = s /\ (c = true -> exists b, input !! pos s = Some b /\ p b = true)).
Proof.
  intros s Hs. unfold peek_test. apply wp_bind. eapply wp_safe; [apply safe_peek | auto with parser |].
  intros c s' _ H0 [-> ->]. apply wp_ret. split; [done|]. split; [done|].
  destruct (input !! pos s); [eauto | done].
Qed.

Lemma harmless_peek_test p : harmless (peek_test input p).
Proof. eapply safe_harmless, safe_peek_test. Qed.

Lemma harmless_peek_is b : harmless (peek_is input b).
Proof. apply harmless_bind; [apply harmless_peek | intros; apply harmless_ret]. Qed.

Lemma advance_step s : inside s -> is_Some (input !! pos s) -> step s (set_pos (pos s + 1) s).
Proof. intros Hs Hc%lookup_lt_is_Some. unfold step, set_pos. simpl. lia. Qed.

Lemma safe_byte b : safe (byte_ input b) (fun s _ s' => eats s s' /\ s' = set_pos (pos s + 1) s /\ input !! pos s = Some b).
Proof.
  intros s Hs. unfold byte_. apply wp_bind. eapply wp_safe; [apply safe_peek | auto with parser |].
  intros c s' _ _ [-> ->]. case_decide as H; [|fails].
  apply wp_modify. split; [apply advance_step; [done | by rewrite H]|].
  unfold eats. simpl. split; [lia | done].
Qed.

Lemma safe_sp : safe (sp input) (fun s _ s' => eats s s').
Proof.
  intros s Hs. apply wp_map_err. eapply wp_mono; [..|by apply safe_byte]; naive_solver.
Qed.

Lemma safe_eat b :
  safe (eat input b) (fun s c s' => c = true -> eats s s').
Proof.
  intros s Hs. unfold eat. apply wp_is_ok. unfold byte_, wp, mbind, M_bind, peek, get, mret, M_ret. simpl.
  unfold wp, mbind, M_bind, advance, modify, throw. case_decide as H.
  - split; [apply advance_step; [done | by rewrite H]|]. unfold eats. simpl. lia.
  - split; [auto with parser | discriminate].
Qed.

Lemma harmless_byte b : harmless (byte_ input b).
Proof. eapply safe_harmless, safe_byte. Qed.

Lemma harmless_sp : harmless (sp input).
Proof. eapply safe_harmless, safe_sp. Qed.

Lemma harmless_eat b : harmless (eat input b).
Proof. eapply safe_harmless, safe_eat. Qed.

Lemma harmless_at_end : harmless (at_end input).
Proof.
  intros s Hs. unfold at_end. repeat wp_step. eapply wp_expect.
  - unfold get_slice. rewrite decide_True by (unfold inside in Hs; lia). reflexivity.
  - apply wp_ret. auto with parser.
Qed.

Lemma safe_taken_since start s (Q : list byte -> parser -> Prop) F :
  inside s -> (start <= pos s)%nat ->
  (Q (slice input start (pos s)) s) -> wp (taken_since input start) Q F s.
Proof.
  intros Hs Hst HQ. unfold taken_since. repeat wp_step. eapply wp_expect; [|exact HQ].
  unfold get_slice. by rewrite decide_True.
Qed.

(** ** Loops *)

Lemma fuel_step {fuel s s'} :
  (limit - pos s < S fuel)%nat -> (pos s < pos s' <= limit)%nat -> (limit - pos s' < fuel)%nat.
Proof. lia. Qed.

Lemma input_fuel_enough s : (limit - pos s < input_fuel input)%nat.
Proof. unfold input_fuel. lia. Qed.

Lemma wp_skip_while_fuel p fuel s :
  inside s -> (limit - pos s < fuel)%nat ->
  wp (skip_while_fuel input fuel p)
    (fun _ s' => step s s' /\
       Forall (fun b => p b = true) (slice input (pos s) (pos s')) /\
       forall b, input !! pos s' = Some b -> p b = false) (fun _ => False) s.
Proof.
  revert s. induction fuel as [|fuel IH]; intros s Hs Hf; [lia|]. cbn [skip_while_fuel].
  apply wp_bind, wp_peek_test. destruct (input !! pos s) as [b|] eqn:Eb.
  - destruct (p b) eqn:Ep.
    + apply wp_bind, wp_modify. pose proof (advance_step s Hs ltac:(by rewrite Eb)) as Hadv.
      eapply wp_mono; [..|apply IH]; [| |eauto with parser|unfold step in Hadv; simpl in *; lia].
      * intros _ s' (Hst & Hall & Hend). split_and!; eauto with parser.
        unfold slice in *. simpl in *. unfold step in Hst. simpl in Hst.
        rewrite (drop_S _ b) by done. replace (pos s' - pos s)%nat with (S (pos s' - (pos s + 1))) by lia.
        simpl. constructor; [done|]. by replace (S (pos s)) with (pos s + 1)%nat by lia.
      * by intros s' [].
    + apply wp_ret. split_and!; auto with parser.
      * unfold slice. by rewrite Nat.sub_diag.
      * naive_solver.
  - apply wp_ret. split_and!; auto with parser.
    + unfold slice. by rewrite Nat.sub_diag.
    + by rewrite Eb.
Qed.

Lemma safe_skip_while p :
  safe (skip_while input p) (fun s _ s' =>
    Forall (fun b => p b = true) (slice input (pos s) (pos s')) /\
    forall b, input !! pos s' = Some b -> p b = false).
Proof.
  intros s Hs. eapply wp_mono; [..|apply (wp_skip_while_fuel p _ s Hs (input_fuel_enough s))];
    [naive_solver | by intros s' []].
Qed.

Lemma harmless_skip_while p : harmless (skip_while input p).
Proof. eapply safe_harmless, safe_skip_while. Qed.

(** [I acc n]: what holds of the accumulator when [n] search keys were read. *)
Lemma wp_while_eat {A} b (body : A -> P A) (I : A -> nat -> Prop) acc0 s :
  (forall acc s1, grow s s1 -> I acc (search_keys s1) ->
    wp (body acc) (fun acc' s' => grow s1 s' /\ I acc' (search_keys s')) (grow s1) s1) ->
  inside s -> I acc0 (search_keys s) ->
  wp (while_eat input b body acc0) (fun acc' s' => grow s s' /\ I acc' (search_keys s')) (grow s) s.
Proof.
  intros Hbody Hs HI0. unfold while_eat.
  assert (Hgo : forall fuel acc s1, grow s s1 -> (limit - pos s1 < fuel)%nat -> I acc (search_keys s1) ->
    wp (while_eat_fuel input fuel b body acc)
      (fun acc' s' => grow s s' /\ I acc' (search_keys s')) (grow s) s1).
  2: { apply Hgo; auto with parser. apply input_fuel_enough. }
  induction fuel as [|fuel IH]; intros acc s1 H1 Hf HI; [lia|]. cbn [while_eat_fuel].
  apply wp_bind. eapply wp_safe_grow; [apply safe_eat | done |]. intros more s2 H12 H2 Heat.
  assert (Hk : search_keys s2 = search_keys s1) by apply H12.
  rewrite <- Hk in HI. destruct more; [|by apply wp_ret]. specialize (Heat eq_refl). unfold eats in Heat.
  apply wp_bind. eapply wp_mono; [..|apply Hbody; [exact H2 | exact HI]].
  - intros acc' s3 [H23 HI']. apply IH; [eauto with parser | unfold step, grow in *; lia | done].
  - eauto with parser.
Qed.

(** The body of an [until_eat] must take a byte itself. *)
Lemma wp_until_eat {A} b (body : A -> P A) acc0 s :
  (forall acc, safe (body acc) (fun s _ s' => eats s s')) -> inside s ->
  wp (until_eat input b body acc0) (fun _ s' => step s s') (grow s) s.
Proof.
  intros Hbody Hs. unfold until_eat.
  assert (Hgo : forall fuel acc s1, step s s1 -> (limit - pos s1 < fuel)%nat ->
    wp (until_eat_fuel input fuel b body acc) (fun _ s' => step s s') (grow s) s1).
  2: { apply Hgo; auto with parser. apply input_fuel_enough. }
  induction fuel as [|fuel IH]; intros acc s1 H1 Hf; [lia|]. cbn [until_eat_fuel].
  apply wp_bind. eapply wp_safe; [apply safe_eat | done |]. intros done s2 H12 H2 _.
  destruct done; [by apply wp_ret|].
  apply wp_bind. eapply wp_safe; [apply Hbody | done |].
  intros acc' s3 H23 H3 Hlt. apply IH; [done | unfold step, eats in *; lia].
Qed.

Lemma wp_paren_loop {A} (I : A -> Prop) (body : A -> P A) acc0 s :
  (forall acc, I acc -> makes I (body acc)) -> I acc0 -> inside s ->
  wp (paren_loop input body acc0) (fun acc s' => step s s' /\ I acc) (grow s) s.
Proof.
  intros Hbody H0 Hs. unfold paren_loop.
  assert (Hgo : forall fuel acc s1, I acc -> step s s1 -> (limit - pos s1 < fuel)%nat ->
    wp (paren_loop_fuel input fuel body acc) (fun acc s' => step s s' /\ I acc) (grow s) s1).
  2: { apply Hgo; auto with parser. apply input_fuel_enough. }
  induction fuel as [|fuel IH]; intros acc s1 HI H1 Hf; [lia|]. cbn [paren_loop_fuel].
  apply wp_bind. eapply wp_safe; [by apply Hbody | done |]. intros acc' s2 H12 H2 HI'.
  apply wp_bind. eapply wp_safe; [apply safe_eat | done |]. intros done s3 H23 H3 _.
  destruct done; [by apply wp_ret|].
  apply wp_bind. eapply wp_safe; [apply safe_sp | done |]. intros [] s4 H34 H4 Hlt.
  apply IH; [done | done | unfold step, eats in *; lia].
Qed.

Lemma makes_paren_loop {A} (I : A -> Prop) (body : A -> P A) acc :
  (forall acc, I acc -> makes I (body acc)) -> I acc -> makes I (paren_loop input body acc).
Proof. intros Hb H0 s Hs. by apply wp_paren_loop. Qed.

Lemma makes_push {A} (Q : A -> Prop) (item : P A) values :
  makes Q item -> Forall Q values -> makes (Forall Q) (push item values).
Proof.
  intros Hi Hv s Hs. apply wp_bind. eapply wp_mono; [..|by apply Hi]; [|done].
  intros a s' [H1 Ha]. apply wp_ret. split; [done|]. by apply Forall_app; split; [|apply Forall_singleton].
Qed.

Lemma harmless_while_eat {A} b (body : A -> P A) acc :
  (forall acc, harmless (body acc)) -> harmless (while_eat input b body acc).
Proof.
  intros Hb s Hs. eapply wp_mono; [..|apply (wp_while_eat _ _ (fun _ n => n = search_keys s))]; auto.
  - intros a s' [Hg Hk]. auto using grow_step.
  - intros acc1 s1 H1 Hk. eapply wp_safe; [apply Hb | eauto with parser |].
    intros a s2 H12 H2 _. split; [auto with parser|]. unfold step in H12. lia.
Qed.

Lemma harmless_paren_loop {A} (body : A -> P A) acc :
  (forall acc, harmless (body acc)) -> harmless (paren_loop input body acc).
Proof. intros Hb. apply (makes_paren_loop (fun _ => True)); [intros acc0 _; apply Hb | done]. Qed.

Lemma harmless_until_eat {A} b (body : A -> P A) acc :
  (forall acc, safe (body acc) (fun s _ s' => eats s s')) ->
  harmless (until_eat input b body acc).
Proof. intros Hb s Hs. eapply wp_mono; [..|by apply wp_until_eat]; auto. Qed.

Lemma harmless_push {A} (item : P A) values : harmless item -> harmless (push item values).
Proof. intros Hi. apply harmless_bind; [done | intros; apply harmless_ret]. Qed.

(** ** Words and numbers *)

Lemma safe_taken_word start empty s :
  inside s -> (start <= pos s)%nat ->
  wp (taken_word input start empty)
    (fun w s' => s' = s /\ w = slice input start (pos s) /\ (start < pos s)%nat) (fun s' => s' = s) s.
Proof.
  intros Hs Hst. unfold taken_word. apply wp_bind, wp_get. case_decide; [fails|].
  apply wp_bind, safe_taken_since; [done..|]. unfold ok_or. destruct (from_utf8 _) as [t|] eqn:E; [|done].
  apply from_utf8_Some in E as [-> _]. apply wp_ret. repeat split; auto. lia.
Qed.

(** A run of bytes a test accepts, taken as a word: [word], [item_name]. *)
Lemma safe_run p empty :
  safe (start ← position_now; skip_while input p;; taken_word input start empty)
    (fun s w s' => eats s s' /\ w = slice input (pos s) (pos s') /\ Forall (fun b => p b = true) w /\
       forall b, input !! pos s' = Some b -> p b = false).
Proof.
  intros s Hs. unfold position_now. repeat wp_step.
  eapply wp_safe; [apply safe_skip_while | auto with parser |]. intros [] s' Hst _ (Hall & Hend).
  eapply wp_mono; [..|apply safe_taken_word; [eauto with parser | unfold step in Hst; lia]].
  - intros w s'' (-> & -> & Hlt). unfold eats. auto.
  - intros s'' ->. auto with parser.
Qed.

Lemma safe_word allow :
  safe (word input allow) (fun s w s' => eats s s' /\ w = slice input (pos s) (pos s')).
Proof. eapply safe_weaken; [|apply safe_run]. naive_solver. Qed.

Lemma safe_item_name : safe (item_name input) (fun s _ s' => eats s s').
Proof. eapply safe_weaken; [|apply safe_run]. naive_solver. Qed.

Lemma safe_upper_atom : safe (upper_atom input) (fun s _ s' => eats s s').
Proof.
  intros s Hs. apply wp_bind. eapply wp_safe; [apply safe_word | auto with parser |].
  intros w s' Hst _ [He _]. by apply wp_ret.
Qed.

Lemma harmless_word allow : harmless (word input allow).
Proof. eapply safe_harmless, safe_word. Qed.

Lemma harmless_item_name : harmless (item_name input).
Proof. eapply safe_harmless, safe_item_name. Qed.

Lemma harmless_upper_atom : harmless (upper_atom input).
Proof. eapply safe_harmless, safe_upper_atom. Qed.

Lemma harmless_keyword expected : harmless (keyword input expected).
Proof.
  intros s Hs. unfold keyword, position_now, reset_to. repeat wp_step.
  eapply wp_mono; [..|by apply safe_word].
  - intros w s' [Hst [Hlt _]]. repeat wp_step; auto.
    unfold step, grow, set_pos in *. simpl. lia.
  - intros s' Hst. repeat wp_step. unfold grow, set_pos in *. simpl. lia.
Qed.

Lemma harmless_try_keyword expected : harmless (try_keyword input expected).
Proof.
  intros s Hs. unfold try_keyword, advance. repeat wp_step; [|auto with parser].
  apply andb_prop in Heqb as [Hb _]. destruct (get_slice _ _ _) eqn:E; [|done].
  apply get_slice_Some in E as [Hr _]. split; [|done]. unfold step, set_pos. simpl. lia.
Qed.

Lemma safe_number :
  safe (number input) (fun s n s' => 0 <= n <= u64_max).
Proof.
  intros s Hs. unfold number, position_now. repeat wp_step.
  eapply wp_safe; [apply safe_skip_while | auto with parser |]. intros [] s' Hst _ _.
  apply wp_bind, safe_taken_since; [eauto with parser | unfold step in Hst; lia |].
  apply wp_ok_or; [|auto with parser]. intros n Hn. split; [done|].
  destruct (from_utf8 _) as [d|]; [|done]. simpl in Hn. case_decide; [|done].
  by apply parse_unsigned_bound in Hn.
Qed.

Lemma safe_nz_number32 :
  safe (nz_number32 input) (fun s n s' => 1 <= n <= u32_max).
Proof.
  intros s Hs. apply wp_bind. eapply wp_safe; [apply safe_number | auto with parser |].
  intros n s' Hst H1 Hn. wp_step; [|fails]. apply wp_ret.
  change u32_max with 0xffffffff. split; [done | lia].
Qed.

Lemma harmless_number : harmless (number input).
Proof. eapply safe_harmless, safe_number. Qed.

Lemma harmless_nz_number32 : harmless (nz_number32 input).
Proof. eapply safe_harmless, safe_nz_number32. Qed.

(** ** Strings *)

Lemma wp_quoted_loop fuel value s :
  inside s -> (limit - pos s < fuel)%nat ->
  wp (quoted_loop input fuel value) (fun _ s' => step s s') (grow s) s.
Proof.
  revert value s. induction fuel as [|fuel IH]; intros value s Hs Hf; [lia|]. cbn [quoted_loop].
  apply wp_bind, wp_peek.
  destruct (input !! pos s) as [b|] eqn:Eb; [|fails].
  pose proof (advance_step s Hs ltac:(by rewrite Eb)) as Hadv.
  assert (Hnext : forall v s1, step s s1 -> (pos s < pos s1)%nat ->
    wp (quoted_loop input fuel v) (fun _ s' => step s s') (grow s) s1).
  { intros v s1 H1 Hlt. eapply wp_mono; [..|apply IH; eauto with parser; unfold step in H1; lia]; eauto with parser. }
  case_decide; [apply wp_bind, wp_advance, wp_ret, Hadv|]. case_decide.
  - apply wp_bind, wp_advance, wp_bind, wp_peek.
    destruct (input !! pos (set_pos _ s)) as [b'|] eqn:Eb'; [|fails].
    case_decide; [|fails]. apply wp_bind, wp_advance, Hnext; [|simpl; lia].
    eapply step_trans; [exact Hadv|]. apply advance_step; [eauto with parser | by rewrite Eb'].
  - case_decide; [fails|]. apply wp_bind, wp_advance, Hnext; [done | simpl; lia].
Qed.

Lemma safe_quoted : safe (quoted input) (fun s _ s' => eats s s').
Proof.
  intros s Hs. apply wp_bind. eapply wp_safe; [apply safe_byte | auto with parser |].
  intros [] s1 H1 _ [Hlt _].
  eapply wp_mono; [..|apply wp_quoted_loop; [eauto with parser | apply input_fuel_enough]].
  - intros v s2 H2. split; [eauto with parser | unfold step, eats in *; lia].
  - eauto with parser.
Qed.

Lemma safe_literal : safe (literal input) (fun s _ s' => eats s s').
Proof.
  intros s Hs. apply wp_bind. eapply wp_safe; [apply safe_byte | auto with parser |].
  intros [] s1 H1 _ [Hlt _].
  apply wp_bind. eapply wp_safe; [apply safe_number | done |]. intros size s2 _ H2 Hn.
  apply wp_bind. eapply wp_safe; [apply harmless_eat | done |]. intros _ s3 _ H3 _.
  apply wp_bind. eapply wp_safe; [apply harmless_byte | done |]. intros _ s4 _ H4 _.
  apply wp_bind. eapply wp_safe; [apply harmless_eat | done |]. intros cr s5 _ H5 _.
  destruct cr; [|fails].
  apply wp_bind. eapply wp_safe; [apply safe_byte | done |]. intros _ s6 _ H6 [Hlt6 _].
  apply wp_bind, wp_get. cbv beta zeta. wp_step; [fails|]. wp_step; [fails|].
  apply wp_bind, wp_advance, wp_ret. unfold step, eats, set_pos in *. simpl. lia.
Qed.

Lemma harmless_quoted : harmless (quoted input).
Proof. eapply safe_harmless, safe_quoted. Qed.

Lemma harmless_literal : harmless (literal input).
Proof. eapply safe_harmless, safe_literal. Qed.

(** ** Everything else

    A method without a loop of its own is a composition of harmless ones:
    [harmless] walks through its text. *)

Hint Resolve harmless_ret harmless_throw harmless_ok_or harmless_get harmless_peek
  harmless_peek_test harmless_peek_is harmless_byte harmless_sp harmless_eat harmless_at_end
  harmless_skip_while harmless_word harmless_item_name harmless_upper_atom harmless_keyword
  harmless_try_keyword harmless_number harmless_nz_number32 harmless_quoted harmless_literal
  harmless_push : parser.

Ltac harmless_step :=
  first
    [ solve [auto with parser nocore]
    | cbv beta zeta;
      lazymatch goal with
      | |- harmless (_ ≫= _) => apply harmless_bind; [|intros ?]
      | |- harmless (map_err _ _) => apply harmless_map_err
      | |- harmless (while_eat _ _ _ _) => apply harmless_while_eat; intros ?
      | |- harmless (paren_loop _ _ _) => apply harmless_paren_loop; intros ?
      | |- harmless (push _ _) => apply harmless_push
      | |- harmless (if ?b then _ else _) => destruct b
      | |- harmless (match ?x with _ => _ end) => destruct x
      end ].

Ltac harmless := repeat harmless_step.

Ltac makes :=
  repeat first
    [ apply makes_throw
    | cbv beta zeta;
      lazymatch goal with
      | |- makes _ (mret _) => apply makes_ret
      | |- makes _ (_ ≫= _) => apply makes_bind; [solve [harmless] | intros ?]
      | |- makes _ (if ?b then _ else _) => destruct b
      | |- makes _ (match ?x with _ => _ end) => destruct x
      end ].

(** The text taken between a saved position and now. *)
Lemma harmless_since {A} (m : P A) (k : A -> list byte -> P (list byte)) :
  harmless m -> (forall a t, harmless (k a t)) ->
  harmless (start ← position_now; a ← m; t ← taken_since input start; k a t).
Proof.
  intros Hm Hk s Hs. apply wp_bind, wp_bind, wp_get, wp_ret.
  apply wp_bind. eapply wp_safe; [exact Hm | auto with parser |]. intros a s' Hst _ _.
  apply wp_bind, safe_taken_since; [eauto with parser | unfold step in Hst; lia|].
  eapply wp_safe; [apply Hk | done |]. auto.
Qed.

Lemma harmless_string : harmless (string_ input).
Proof. unfold string_. harmless. Qed.
Hint Resolve harmless_string : parser.

Lemma harmless_astring_bytes : harmless (astring_bytes input).
Proof. unfold astring_bytes. harmless. Qed.
Hint Resolve harmless_astring_bytes : parser.

Lemma harmless_astring : harmless (astring input).
Proof. unfold astring. harmless. Qed.

Lemma harmless_nstring : harmless (nstring input).
Proof. unfold nstring. harmless. Qed.

Lemma harmless_mailbox_name raw : harmless (mailbox_name utf8 raw).
Proof. unfold mailbox_name. harmless. Qed.
Hint Resolve harmless_astring harmless_nstring harmless_mailbox_name : parser.

Lemma harmless_mailbox : harmless (mailbox input utf8).
Proof. unfold mailbox. harmless. Qed.

Lemma harmless_mailbox_or_empty : harmless (mailbox_or_empty input utf8).
Proof. unfold mailbox_or_empty. harmless. Qed.

Lemma harmless_list_pattern : harmless (list_pattern input utf8).
Proof.
  unfold list_pattern. apply harmless_bind; [auto with parser | intros c].
  apply harmless_bind; [|auto with parser]. case_decide; [auto with parser|].
  intros s Hs. apply wp_bind, wp_bind, wp_get, wp_ret, wp_bind.
  eapply wp_safe; [apply harmless_skip_while | auto with parser |]. intros [] s' Hst _ _.
  apply wp_bind, wp_get. case_decide; [fails|].
  apply safe_taken_since; [eauto with parser | unfold step in Hst; lia | done].
Qed.
Hint Resolve harmless_mailbox harmless_mailbox_or_empty harmless_list_pattern : parser.

(** A number in a set: [*], or from 1 to 4294967295. *)
Definition seq_num_ok (n : SeqNum) : Prop :=
  match n with SeqNum.Value v => 1 <= v <= u32_max | _ => True end.

Definition set_ok (set : SequenceSet) : Prop :=
  Forall (fun '(from, to) => seq_num_ok from /\ seq_num_ok to) set.

Lemma safe_seq_num : safe (seq_num input) (fun s n s' => seq_num_ok n).
Proof.
  intros s Hs. apply wp_bind. eapply wp_safe; [apply safe_eat | auto with parser |].
  intros star s1 _ H1 _. destruct star; [by apply wp_ret|].
  apply wp_bind. eapply wp_safe; [apply safe_nz_number32 | done |].
  intros n s2 _ H2 Hn. by apply wp_ret.
Qed.

Lemma wp_sequence_set_loop fuel ranges s :
  inside s -> (limit - pos s < fuel)%nat -> set_ok ranges ->
  wp (sequence_set_loop input fuel ranges)
    (fun set s' => step s s' /\ set_ok set /\ set <> []) (grow s) s.
Proof.
  revert ranges s. induction fuel as [|fuel IH]; intros ranges s Hs Hf Hok; [lia|].
  cbn [sequence_set_loop].
  apply wp_bind. eapply wp_safe; [apply safe_seq_num | auto with parser |]. intros from s1 _ H1 Hfrom.
  apply wp_bind. eapply wp_safe; [apply safe_eat | done |]. intros colon s2 _ H2 _.
  assert (Hto : wp (if colon then seq_num input else mret from)
    (fun to s' => step s s' /\ seq_num_ok to) (grow s) s2).
  { destruct colon; [|by apply wp_ret]. eapply wp_safe; [apply safe_seq_num | done |]. auto. }
  apply wp_bind. eapply wp_mono; [| |exact Hto]; [|done]. intros to s3 (H3 & Hto').
  apply wp_bind. eapply wp_safe; [apply safe_eat | done |]. intros comma s4 H34 H4 Heat.
  assert (Hok' : set_ok (ranges ++ [(from, to)])) by (apply Forall_app; split; [done | by repeat constructor]).
  destruct comma.
  - specialize (Heat eq_refl). eapply wp_mono; [..|apply IH; [eauto with parser | unfold step, eats in *; lia | done]].
    + intros set s5 (H45 & Hset & Hne). eauto with parser.
    + eauto with parser.
  - apply wp_ret. split_and!; auto. by destruct ranges.
Qed.

Lemma safe_sequence_set :
  safe (sequence_set input) (fun s set s' => set_ok set /\ set <> []).
Proof.
  intros s Hs. apply wp_bind. eapply wp_safe; [apply safe_eat | auto with parser |].
  intros saved s1 _ H1 _. destruct saved; [apply wp_ret; split_and!; auto; by repeat constructor|].
  eapply wp_mono; [..|apply wp_sequence_set_loop; [eauto with parser | apply input_fuel_enough | constructor]].
  - intros set s2 (H12 & Hset & Hne). eauto with parser.
  - eauto with parser.
Qed.

Lemma harmless_sequence_set : harmless (sequence_set input).
Proof. eapply safe_harmless, safe_sequence_set. Qed.
Hint Resolve harmless_sequence_set : parser.

Lemma harmless_flag : harmless (flag input).
Proof.
  intros s Hs. unfold flag. apply wp_bind, wp_bind, wp_get, wp_ret.
  apply wp_bind. eapply wp_safe; [apply safe_eat | auto with parser |]. intros _ s1 _ H1 _.
  apply wp_bind. unfold peek_is. apply wp_bind, wp_peek, wp_ret. apply wp_bind.
  assert (H2 : wp (if bool_decide (input !! pos s1 = Some "*"%byte) then advance 1 else _ ← atom input; mret tt)
    (fun _ s' => step s s') (grow s) s1).
  { case_bool_decide as Hc; [apply wp_advance; eapply step_trans; [exact H1|];
      apply advance_step; [eauto with parser | by rewrite Hc]|].
    apply wp_bind. eapply wp_safe; [apply safe_word | done |]. intros w s2 _ H2 _. by apply wp_ret. }
  eapply wp_mono; [| |exact H2]; [|done]. intros [] s2 Hst.
  apply wp_bind, safe_taken_since; [eauto with parser | unfold step in Hst; lia |]. by apply wp_ret.
Qed.
Hint Resolve harmless_flag : parser.

Lemma harmless_flag_list : harmless (flag_list input).
Proof. unfold flag_list. harmless. Qed.

Lemma harmless_date : harmless (date input).
Proof.
  intros s Hs. unfold date. apply wp_bind. eapply wp_safe; [apply harmless_eat | auto with parser |].
  intros q s1 _ H1 _. apply wp_bind, wp_bind, wp_get, wp_ret. apply wp_bind.
  eapply wp_safe; [apply harmless_skip_while | done |]. intros [] s2 H12 H2 _.
  apply wp_bind, safe_taken_since; [eauto with parser | unfold step in H12; lia |].
  eapply wp_harmless; [harmless | done |]. eauto.
Qed.

Lemma harmless_status_item : harmless (status_item input).
Proof. unfold status_item. harmless. Qed.
Hint Resolve harmless_flag_list harmless_date harmless_status_item : parser.

Lemma harmless_status_items : harmless (status_items input).
Proof. unfold status_items. harmless. Qed.
Hint Resolve harmless_status_items : parser.

(** ** LIST *)

Lemma wp_skip_parenthesized_loop fuel open s :
  inside s -> (limit - pos s < fuel)%nat ->
  wp (skip_parenthesized_loop input fuel open) (fun _ s' => step s s') (grow s) s.
Proof.
  revert open s. induction fuel as [|fuel IH]; intros [|open] s Hs Hf; try lia;
    [by apply wp_ret, step_refl|]. cbn [skip_parenthesized_loop].
  assert (Hnext : forall o s1, step s s1 -> eats s s1 ->
    wp (skip_parenthesized_loop input fuel o) (fun _ s' => step s s') (grow s) s1).
  { intros o s1 H1 Hlt. eapply wp_mono;
      [..|apply IH; eauto with parser; unfold step, eats in *; lia]; eauto with parser. }
  apply wp_bind, wp_peek.
  destruct (input !! pos s) as [b|] eqn:Eb; [|fails].
  pose proof (advance_step s Hs ltac:(by rewrite Eb)) as Hadv.
  assert (Heats : eats s (set_pos (pos s + 1) s)) by (unfold eats; simpl; lia).
  repeat case_decide; try (apply wp_bind, wp_advance; by apply Hnext); [..|fails];
    apply wp_bind; (eapply wp_safe; [first [apply safe_quoted | apply safe_literal] | auto with parser |]);
    intros t s1 _ Hs1 Hlt; by apply Hnext.
Qed.

Lemma harmless_skip_parenthesized : harmless (skip_parenthesized input).
Proof.
  apply harmless_bind; [apply harmless_byte | intros _ s Hs].
  eapply wp_mono; [..|apply wp_skip_parenthesized_loop; [done | apply input_fuel_enough]]; auto.
Qed.
Hint Resolve harmless_skip_parenthesized : parser.

(** An option after its space: the word takes a byte. *)
Lemma safe_option {A} (k : list byte -> P A) :
  (forall w, harmless (k w)) ->
  safe (_ ← eat input " "%byte; w ← upper_atom input; k w) (fun s _ s' => eats s s').
Proof.
  intros Hk s Hs. apply wp_bind. eapply wp_safe; [apply safe_eat | auto with parser |].
  intros b s1 _ H1 _. apply wp_bind. eapply wp_safe; [apply safe_upper_atom | done |].
  intros w s2 _ H2 Hlt. eapply wp_harmless; [apply Hk | done |].
  intros a s3 H23 H3. split; [done|]. unfold step, eats in *. lia.
Qed.

Lemma safe_list_option l : safe (list_option input l) (fun s _ s' => eats s s').
Proof. apply safe_option. intros w. harmless. Qed.

Lemma safe_list_return_option l : safe (list_return_option input l) (fun s _ s' => eats s s').
Proof. apply safe_option. intros w. harmless. Qed.

Lemma safe_search_return o : safe (search_return input o) (fun s _ s' => eats s s').
Proof. apply safe_option. intros w. harmless. Qed.

Lemma harmless_list_options acc :
  harmless (until_eat input ")"%byte (list_option input) acc).
Proof. apply harmless_until_eat, safe_list_option. Qed.

Lemma harmless_list_return_options acc :
  harmless (until_eat input ")"%byte (list_return_option input) acc).
Proof. apply harmless_until_eat, safe_list_return_option. Qed.

Lemma harmless_search_return_options acc :
  harmless (until_eat input ")"%byte (search_return input) acc).
Proof. apply harmless_until_eat, safe_search_return. Qed.
Hint Resolve harmless_list_options harmless_list_return_options
  harmless_search_return_options : parser.

Lemma harmless_push_pattern l : harmless (push_pattern input utf8 l).
Proof. unfold push_pattern. harmless. Qed.
Hint Resolve harmless_push_pattern : parser.

Lemma harmless_list_ : harmless (list_ input utf8).
Proof. unfold list_. harmless. Qed.
Hint Resolve harmless_list_ : parser.

(** ** FETCH *)

(** A partial FETCH: from where, and at least one byte. *)
Definition partial_ok (partial : option (Z * Z)) : Prop :=
  match partial with Some (origin, count) => 0 <= origin <= u32_max /\ 1 <= count <= u32_max | None => True end.

Lemma makes_partial : makes partial_ok (partial input).
Proof.
  unfold partial. apply makes_bind; [auto with parser | intros opened]. destruct opened; [|by apply makes_ret].
  eapply makes_seq; [intros s Hs; apply (safe_number s Hs) | intros n Hn].
  apply (makes_seq (fun origin => 0 <= origin <= u32_max)).
  { intros s Hs. apply wp_ok_or; [|auto with parser]. intros origin. destruct (Z.leb_spec n u32_max); [|done].
    intros [= <-]. cbn beta in Hn. split; [done | lia]. }
  intros origin Ho. cbn beta in Ho. apply makes_bind; [auto with parser | intros _].
  eapply makes_seq; [intros s Hs; apply (safe_nz_number32 s Hs) | intros count Hc]. cbn beta in Hc.
  apply makes_bind; [auto with parser | intros _]. by apply makes_ret.
Qed.

(** Part numbers: none is 0, so [Part::find] can subtract one from them. *)
Definition numbers_ok (part : list Z) : Prop := Forall (fun n => 1 <= n <= u32_max) part.

Definition item_ok (item : FetchItem) : Prop :=
  match item with
  | FetchItem.BodySection sec p _ => numbers_ok (section_part sec) /\ partial_ok p
  | FetchItem.Binary part p _ => numbers_ok part /\ partial_ok p
  | FetchItem.BinarySize part => numbers_ok part
  | _ => True
  end.

Lemma numbers_ok_snoc part n : numbers_ok part -> 1 <= n <= u32_max -> numbers_ok (part ++ [n]).
Proof. intros Hp Hn. by apply Forall_app; split; [|apply Forall_singleton]. Qed.

Lemma wp_binary_part_loop fuel part s :
  inside s -> (limit - pos s < fuel)%nat -> numbers_ok part ->
  wp (binary_part_loop input fuel part) (fun part' s' => step s s' /\ numbers_ok part') (grow s) s.
Proof.
  revert part s. induction fuel as [|fuel IH]; intros part s Hs Hf Hp; [lia|]. cbn [binary_part_loop].
  apply wp_bind. eapply wp_safe; [apply harmless_peek_test | auto with parser |]. intros digit s1 _ H1 _.
  destruct digit; [|by apply wp_ret].
  apply wp_bind. eapply wp_safe; [apply safe_nz_number32 | done |]. intros n s2 _ H2 Hn.
  apply wp_bind. eapply wp_safe; [apply safe_eat | done |]. intros dot s3 H23 H3 Heat.
  pose proof (numbers_ok_snoc part n Hp Hn) as Hp'.
  destruct dot; [|by apply wp_ret]. specialize (Heat eq_refl).
  eapply wp_mono; [..|apply IH; [eauto with parser | unfold step, eats in *; lia | done]]; [|eauto with parser].
  intros part' s' [H3' ?]. eauto with parser.
Qed.

Lemma makes_binary_part : makes numbers_ok (binary_part_loop input (input_fuel input) []).
Proof. intros s Hs. apply wp_binary_part_loop; [done | apply input_fuel_enough | constructor]. Qed.

Lemma harmless_list_of {A} (item : P A) : harmless item -> harmless (list_of input item).
Proof. intros Hi. unfold list_of. harmless. Qed.
Hint Resolve harmless_list_of : parser.

Lemma makes_list_of {A} (Q : A -> Prop) (item : P A) : makes Q item -> makes (Forall Q) (list_of input item).
Proof.
  intros Hi. unfold list_of. apply makes_bind; [auto with parser | intros opened]. destruct opened.
  - apply makes_bind; [auto with parser | intros empty]. destruct empty; [apply makes_ret; constructor|].
    apply makes_paren_loop; [intros acc Hacc; by apply makes_push | constructor].
  - eapply makes_seq; [exact Hi | intros a Ha]. by apply makes_ret, Forall_singleton.
Qed.

(** The text of a section, after its part numbers. *)
Lemma makes_section_text (part : list Z) :
  makes (fun sec => section_part sec = part) (w ← word input false;
    let w := to_ascii_uppercase w in
    text ←
      (if is_word w "HEADER" then mret SectionText.Header
       else if is_word w "TEXT" then mret SectionText.Text
       else if is_word w "MIME" && bool_decide (part <> []) then mret SectionText.Mime
       else if is_word w "HEADER.FIELDS" || is_word w "HEADER.FIELDS.NOT" then
         sp input;;
         fields ← list_of input (astring input);
         if decide (fields = []) then throw (bs "HEADER.FIELDS needs field names")
         else if is_word w "HEADER.FIELDS" then mret (SectionText.HeaderFields fields)
         else mret (SectionText.HeaderFieldsNot fields)
       else throw (bs "unknown section " ++ w));
    mret {| section_part := part; section_text := Some text |}).
Proof. by makes. Qed.

Lemma wp_section_loop fuel part s :
  inside s -> (limit - pos s < fuel)%nat -> numbers_ok part ->
  wp (section_loop input fuel part) (fun sec s' => step s s' /\ numbers_ok (section_part sec)) (grow s) s.
Proof.
  revert part s. induction fuel as [|fuel IH]; intros part s Hs Hf Hp; [lia|]. cbn [section_loop].
  apply wp_bind. eapply wp_safe; [apply harmless_peek_test | auto with parser |]. intros digit s1 _ H1 _.
  destruct digit; [|eapply wp_safe; [apply makes_section_text | done | by intros sec s2 _ H2 ->]].
  apply wp_bind. eapply wp_safe; [apply safe_nz_number32 | done |]. intros n s2 _ H2 Hn.
  apply wp_bind. eapply wp_safe; [apply safe_eat | done |]. intros dot s3 H23 H3 Heat.
  pose proof (numbers_ok_snoc part n Hp Hn) as Hp'.
  destruct dot; [|by apply wp_ret]. specialize (Heat eq_refl).
  eapply wp_mono; [..|apply IH; [eauto with parser | unfold step, eats in *; lia | done]]; [|eauto with parser].
  intros sec s' [H3' ?]. eauto with parser.
Qed.

Lemma makes_section : makes (fun sec => numbers_ok (section_part sec)) (section input).
Proof.
  unfold section. apply makes_bind; [auto with parser | intros closed].
  destruct closed; [apply makes_ret; constructor|].
  intros s Hs. apply wp_section_loop; [done | apply input_fuel_enough | constructor].
Qed.

Lemma makes_binary_item w : makes item_ok (binary_item input w).
Proof.
  unfold binary_item. apply makes_bind; [auto with parser | intros _].
  eapply makes_seq; [apply makes_binary_part | intros part Hp].
  apply makes_bind; [auto with parser | intros _]. case_match; [by apply makes_ret|].
  eapply makes_seq; [apply makes_partial | intros p Hpart]. by apply makes_ret.
Qed.

Lemma makes_body_item p : makes item_ok (body_item input p).
Proof.
  unfold body_item. apply makes_bind; [auto with parser | intros opened]. destruct opened; [|by makes].
  apply makes_bind; [auto with parser | intros _].
  eapply makes_seq; [apply makes_section | intros sec Hsec]. apply makes_bind; [auto with parser | intros _].
  eapply makes_seq; [apply makes_partial | intros q Hq]. by apply makes_ret.
Qed.

Lemma makes_fetch_item : makes item_ok (fetch_item input).
Proof.
  unfold fetch_item. apply makes_bind; [auto with parser | intros w]. cbv zeta.
  repeat (case_match; [by makes; auto using makes_binary_item, makes_body_item|]). by makes.
Qed.

Lemma fetch_macro_ok w items : fetch_macro w = Some items -> Forall item_ok items.
Proof. unfold fetch_macro. intros H. repeat case_match; simplify_eq; by repeat constructor. Qed.

Lemma makes_fetch_items : makes (Forall item_ok) (fetch_items input).
Proof.
  apply makes_bind; [auto with parser | intros several].
  destruct several; [apply makes_list_of, makes_fetch_item|].
  intros s Hs. apply wp_bind, wp_bind, wp_get, wp_ret.
  apply wp_bind. eapply wp_safe; [apply safe_upper_atom | auto with parser |]. intros w s1 _ H1 _.
  destruct (fetch_macro w) eqn:E; [apply wp_ret; eauto using fetch_macro_ok|]. apply wp_bind, wp_modify.
  assert (Hback : step s (set_pos (pos s) s1)) by (unfold step, set_pos in *; simpl; lia).
  apply wp_bind. eapply wp_safe; [apply makes_fetch_item | exact Hback |].
  intros item s2 _ H2 Hitem. apply wp_ret. split; [done | by apply Forall_singleton].
Qed.

Lemma distinct_items_spec items distinct result :
  distinct_items items distinct = Some result -> NoDup distinct ->
  (length distinct <= MAX_FETCH_ITEMS)%nat ->
  NoDup result /\ (length result <= MAX_FETCH_ITEMS)%nat /\ (forall i, i ∈ result <-> i ∈ items \/ i ∈ distinct).
Proof.
  revert distinct. induction items as [|item items IH]; intros distinct; simpl.
  - intros [= ->] ??. split_and!; set_solver.
  - case_decide as Hin.
    + intros H Hnd Hlen. destruct (IH _ H Hnd Hlen) as (? & ? & Hi). split_and!; [done..|].
      intros i. rewrite Hi. set_solver.
    + case_decide; [done|]. intros H' Hnd Hlen. destruct (IH _ H') as (? & ? & Hi).
      * apply NoDup_app. split_and!; [done | set_solver | by apply NoDup_singleton].
      * rewrite length_app. simpl. lia.
      * split_and!; [done..|]. intros i. rewrite Hi. set_solver.
Qed.

Lemma harmless_fetch_modifier acc : harmless (fetch_modifier input acc).
Proof. unfold fetch_modifier. harmless. Qed.
Hint Resolve harmless_fetch_modifier : parser.

(** ** SEARCH

    A key read at depth [d], when [n] keys had been read before it and [n'] after:
    it nests no deeper than what is left, has no more keys than were counted, and
    the sets it names are well formed. *)

Definition key_fits (d n n' : nat) (k : SearchKey) : Prop :=
  (key_depth k + d <= MAX_SEARCH_DEPTH)%nat /\ (key_count k + n <= n')%nat /\
  (n' <= MAX_SEARCH_KEYS)%nat /\ Forall set_ok (key_sets k).

Definition keys_fit (d n n' : nat) (keys : list SearchKey) : Prop :=
  Forall (fun k => key_depth k + d <= MAX_SEARCH_DEPTH)%nat keys /\
  (key_count (SearchKey.And keys) + n <= n')%nat /\
  (n' <= MAX_SEARCH_KEYS)%nat /\ Forall (fun k => Forall set_ok (key_sets k)) keys.

Definition search_spec (d : nat) (m : P SearchKey) : Prop :=
  forall s, inside s -> depth s = d ->
    wp m (fun k s' => grow s s' /\ key_fits d (search_keys s) (search_keys s') k) (grow s) s.

Definition leaf (k : SearchKey) : Prop :=
  key_depth k = 1%nat /\ key_count k = 1%nat /\ Forall set_ok (key_sets k).

Ltac by_leaf := intros; split_and!; [done | done | by repeat constructor].

Lemma flag_key_leaf w k : flag_key w = Some k -> leaf k.
Proof. unfold flag_key. intros H. repeat case_match; simplify_eq; by_leaf. Qed.

Lemma text_key_leaf w k t : text_key w = Some k -> leaf (k t).
Proof. unfold text_key. intros H. repeat case_match; simplify_eq; by_leaf. Qed.

Lemma date_key_leaf w k n : date_key w = Some k -> leaf (k n).
Proof. unfold date_key. intros H. repeat case_match; simplify_eq; by_leaf. Qed.

Lemma number_key_leaf w k n : number_key w = Some k -> leaf (k n).
Proof. unfold number_key. intros H. repeat case_match; simplify_eq; by_leaf. Qed.

Lemma key_sets_And keys :
  Forall (fun k => Forall set_ok (key_sets k)) keys -> Forall set_ok (key_sets (SearchKey.And keys)).
Proof. induction 1; simpl; [constructor | by apply Forall_app]. Qed.

Lemma key_depth_And d keys :
  (d <= MAX_SEARCH_DEPTH)%nat -> Forall (fun k => key_depth k + d <= MAX_SEARCH_DEPTH)%nat keys ->
  (key_depth (SearchKey.And keys) + d <= S MAX_SEARCH_DEPTH)%nat.
Proof. intros Hd H. simpl. induction H; simpl; lia. Qed.

Lemma and_keys_fit d n n' keys :
  (d <= MAX_SEARCH_DEPTH)%nat -> keys_fit d n n' keys ->
  (key_depth (and_keys keys) + d <= S MAX_SEARCH_DEPTH)%nat /\
  (key_count (and_keys keys) + n <= n')%nat /\ (n' <= MAX_SEARCH_KEYS)%nat /\
  Forall set_ok (key_sets (and_keys keys)).
Proof.
  intros Hd (Hdepth & Hcount & Hn & Hsets).
  destruct keys as [|k [|]]; simpl and_keys; [|simpl in Hcount|];
    (split_and!; [| |done|]); eauto using key_depth_And, key_sets_And; try lia.
  - apply Forall_inv in Hdepth. lia.
  - by apply Forall_inv in Hsets.
Qed.

Lemma keys_fit_one d n n' k : key_fits d n n' k -> keys_fit d n n' [k].
Proof. intros (? & ? & ? & ?). split_and!; [by apply Forall_singleton | simpl; lia | done | by apply Forall_singleton]. Qed.

Lemma keys_fit_snoc d n n' n'' keys k :
  keys_fit d n n' keys -> key_fits d n' n'' k -> keys_fit d n n'' (keys ++ [k]).
Proof.
  intros (Hd & Hc & Hn & Hs) (Hd' & Hc' & Hn' & Hs').
  assert (Hsum : key_count (SearchKey.And (keys ++ [k])) = (key_count (SearchKey.And keys) + key_count k)%nat).
  { clear. simpl. induction keys; simpl in *; lia. }
  split_and!; [apply Forall_app | rewrite Hsum; lia | done | apply Forall_app]; auto.
Qed.

(** The first key and those that follow, at one level. *)
Lemma wp_keys d m s (Q : list SearchKey -> parser -> Prop) s0 :
  search_spec d m -> inside s -> depth s = d -> grow s0 s ->
  (forall keys s', grow s s' -> grow s0 s' -> keys_fit d (search_keys s) (search_keys s') keys -> Q keys s') ->
  wp (first ← m; while_eat input " "%byte (push m) [first]) Q (grow s0) s.
Proof.
  intros Hm Hs Hd H0 HQ. apply wp_bind. eapply wp_mono; [..|by apply Hm]; [|eauto with parser].
  intros first s1 [H1 Hfirst].
  eapply wp_mono; [..|apply (wp_while_eat _ _ (fun acc n => keys_fit d (search_keys s) n acc))].
  - intros keys s2 [H12 Hkeys]. apply HQ; eauto with parser.
  - eauto with parser.
  - intros acc s2 H12 Hacc. unfold push. apply wp_bind. eapply wp_mono; [..|apply Hm]; eauto with parser.
    + intros k s3 [H23 Hk]. apply wp_ret. split; [done|]. by eapply keys_fit_snoc.
    + unfold grow in *. lia.
  - eauto with parser.
  - by apply keys_fit_one.
Qed.

Lemma harmless_search_string : harmless (search_string input).
Proof. unfold search_string. harmless. Qed.
Hint Resolve harmless_search_string : parser.

Lemma harmless_atom : harmless (atom input).
Proof. apply harmless_word. Qed.
Hint Resolve harmless_atom : parser.

Abbreviation makes_leaf := (makes leaf).

Lemma makes_leaf_set (c : SequenceSet -> SearchKey) :
  (forall set, set_ok set -> leaf (c set)) -> makes_leaf (set ← sequence_set input; mret (c set)).
Proof.
  intros Hc s Hs. apply wp_bind. eapply wp_safe; [apply safe_sequence_set | auto with parser |].
  intros set s1 _ H1 [Hset _]. apply wp_ret. auto.
Qed.

Lemma makes_leaf_keyword w : makes_leaf (keyword_key input w).
Proof. unfold keyword_key. makes. destruct (is_word _ _); by_leaf. Qed.

Lemma makes_leaf_modseq : makes_leaf (modseq_key input).
Proof. unfold modseq_key. makes. by_leaf. Qed.

(** What a level adds to the keys it reads. *)
Definition level_post (s : parser) (k : SearchKey) (s' : parser) : Prop :=
  grow s s' /\ (key_depth k + depth s <= S MAX_SEARCH_DEPTH)%nat /\
  (key_count k + search_keys s <= S (search_keys s'))%nat /\ (search_keys s' <= MAX_SEARCH_KEYS)%nat /\
  Forall set_ok (key_sets k).

Definition level_pre (d : nat) (s : parser) : Prop :=
  inside s /\ depth s = d /\ (d <= MAX_SEARCH_DEPTH)%nat /\ (search_keys s <= MAX_SEARCH_KEYS)%nat.

Lemma wp_makes_leaf m s s0 d :
  makes_leaf m -> level_pre d s0 -> step s0 s -> wp m (level_post s0) (grow s0) s.
Proof.
  intros Hm (_ & Hd & Hle & Hk) H0. eapply wp_safe; [exact Hm | exact H0 |].
  intros k s1 _ H1 (Hdepth & Hc & Hsets). split_and!; auto with parser; unfold step in H1; lia.
Qed.

Lemma wp_parentheses d m s s0 :
  search_spec d m -> level_pre d s0 -> step s0 s ->
  wp (first ← m; keys ← while_eat input " "%byte (push m) [first]; byte_ input ")"%byte;; mret (and_keys keys))
    (level_post s0) (grow s0) s.
Proof.
  intros Hm (Hs0 & Hd & Hle & Hk) H0.
  apply wp_bind_assoc, wp_bind. eapply wp_keys; [exact Hm | eauto with parser | unfold step in H0; lia |
    auto with parser |].
  intros keys s1 H1 H01 Hkeys. apply and_keys_fit in Hkeys as (? & ? & ? & ?); [|done].
  apply wp_bind. eapply wp_safe_grow; [apply harmless_byte | done |]. intros [] s2 H12 H02 _.
  apply wp_ret. split_and!; auto with parser; unfold step in *; lia.
Qed.

Lemma wp_not d m s s0 :
  search_spec d m -> level_pre d s0 -> step s0 s ->
  wp (sp input;; key ← m; mret (SearchKey.Not key)) (level_post s0) (grow s0) s.
Proof.
  intros Hm (Hs0 & Hd & Hle & Hk) H0.
  apply wp_bind. eapply wp_harmless; [auto with parser | exact H0 |]. intros [] s1 _ H1.
  apply wp_bind. eapply wp_mono; [..|apply Hm; [eauto with parser | unfold step in H1; lia]]; [|eauto with parser].
  intros k s2 (H12 & ? & ? & ? & ?). apply wp_ret. split_and!; eauto with parser; simpl; unfold step in H1; lia.
Qed.

Lemma wp_or d m s s0 :
  search_spec d m -> level_pre d s0 -> step s0 s ->
  wp (sp input;; left ← m; sp input;; right ← m; mret (SearchKey.Or left right))
    (level_post s0) (grow s0) s.
Proof.
  intros Hm (Hs0 & Hd & Hle & Hk) H0.
  apply wp_bind. eapply wp_harmless; [auto with parser | exact H0 |]. intros [] s1 _ H1.
  apply wp_bind. eapply wp_mono; [..|apply Hm; [eauto with parser | unfold step in H1; lia]]; [|eauto with parser].
  intros l s2 (H12 & Hdl & Hcl & Hnl & Hsl). assert (H2 : grow s0 s2) by eauto with parser.
  apply wp_bind. eapply wp_safe_grow; [apply harmless_sp | exact H2 |]. intros [] s3 H23 H3 _.
  apply wp_bind. eapply wp_mono; [..|apply Hm; [eauto with parser | unfold grow in H3; lia]]; [|eauto with parser].
  intros r s4 (H34 & Hdr & Hcr & Hnr & Hsr). apply wp_ret.
  split_and!; eauto with parser; simpl; [unfold step in *; lia.. | by apply Forall_app].
Qed.

Ltac leaf_arm :=
  eapply wp_makes_leaf; [|eassumption|eassumption];
  makes; try by_leaf;
  eauto using flag_key_leaf, text_key_leaf, date_key_leaf, number_key_leaf.

Lemma wp_nested_search_key d m s :
  search_spec d m -> level_pre d s -> wp (nested_search_key input m) (level_post s) (grow s) s.
Proof.
  intros Hm Hpre. pose proof Hpre as (Hs & _). unfold nested_search_key.
  apply wp_bind. eapply wp_safe; [apply harmless_eat | auto with parser |]. intros opened s1 _ H1 _.
  destruct opened; [by eapply wp_parentheses|].
  apply wp_bind. eapply wp_harmless; [apply harmless_peek_test | done |]. intros set s2 _ H2.
  destruct set; [eapply wp_makes_leaf; [apply makes_leaf_set; by_leaf | done..]|].
  apply wp_bind. eapply wp_harmless; [apply harmless_upper_atom | done |]. intros w s3 _ H3.
  destruct (flag_key w) eqn:?, (text_key w) eqn:?, (date_key w) eqn:?, (number_key w) eqn:?;
    try solve [leaf_arm].
  repeat case_match.
  - eapply wp_makes_leaf; [apply makes_leaf_keyword | done..].
  - leaf_arm.
  - eapply wp_makes_leaf; [|done..]. apply makes_bind; [auto with parser|]. intros _.
    apply makes_leaf_set. by_leaf.
  - by eapply wp_not.
  - by eapply wp_or.
  - eapply wp_makes_leaf; [apply makes_leaf_modseq | done..].
  - fails.
Qed.

Lemma search_spec_guarded d body :
  (forall s, level_pre (S d) s -> wp body (level_post s) (grow s) s) -> search_spec d (guarded body).
Proof.
  intros Hbody s Hs Hd. unfold guarded.
  apply wp_bind, wp_modify, wp_bind, wp_get. cbv beta zeta. simpl depth.
  assert (Hleave : forall s', grow (set_depth (S d) s) s' -> wp leave (fun _ s'' => s'' = set_depth d s') (fun _ => False) s').
  { intros s' Hg. unfold leave. apply wp_bind, wp_get. cbv beta.
    assert (depth s' = S d) as -> by apply Hg. by apply wp_put. }
  assert (Hback : forall s', grow (set_depth (S d) s) s' -> grow s (set_depth d s')).
  { intros s' Hg. unfold grow, set_depth in *. simpl in *. lia. }
  rewrite Hd. case_decide as Hdeep.
  - apply wp_bind. eapply wp_mono; [..|apply (Hleave (set_depth (S d) s))]; [| done |].
    + intros [] s' ->. apply wp_throw, Hback. unfold grow. simpl. unfold inside in Hs. lia.
    + unfold grow. simpl. unfold inside in Hs. lia.
  - apply wp_bind, wp_modify, wp_bind, wp_get. cbv beta zeta. simpl search_keys.
    set (s1 := set_search_keys _ (set_depth _ s)).
    assert (H1 : grow (set_depth (S d) s) s1).
    { unfold grow, s1. simpl. unfold inside in Hs. lia. }
    case_decide as Hmany.
    + apply wp_bind. eapply wp_mono; [..|by apply (Hleave s1)]; [| done].
      intros [] s' ->. apply wp_throw, Hback, H1.
    + assert (Hpre : level_pre (S d) s1) by (unfold level_pre; split_and!; [done | done | lia | simpl; lia]).
      specialize (Hbody s1 Hpre). unfold wp in *. destruct (body s1) as [[k|e| |] s'] eqn:E; try done.
      * destruct Hbody as (Hg & Hdepth & Hcount & Hn & Hsets).
        assert (Hg' : grow (set_depth (S d) s) s') by eauto with parser.
        specialize (Hleave s' Hg'). unfold wp in Hleave. destruct (leave s') as [[] s'']; try done. subst s''.
        split; [by apply Hback|]. unfold key_fits. simpl in *. split_and!; [lia | lia | done | done].
      * assert (Hg' : grow (set_depth (S d) s) s') by eauto with parser.
        specialize (Hleave s' Hg'). unfold wp in Hleave. destruct (leave s') as [[] s'']; try done. subst s''.
        by apply Hback.
Qed.

Lemma search_key_spec fuel d :
  (d <= MAX_SEARCH_DEPTH)%nat -> (MAX_SEARCH_DEPTH < fuel + d)%nat -> search_spec d (search_key input fuel).
Proof.
  revert d. induction fuel as [|fuel IH]; intros d Hd Hf; [lia|].
  cbn [search_key]. apply search_spec_guarded. intros s (Hs & Hds & Hle & Hn).
  eapply (wp_nested_search_key (S d)); [|done]. apply IH; lia.
Qed.

(** ** Commands *)

Definition set_given (set : SequenceSet) : Prop := set_ok set /\ set <> [].

(** What holds of the parts of a command that parses. *)
Definition body_ok (body : CommandBody) : Prop :=
  match body with
  | CommandBody.Search _ _ k =>
      (key_depth k <= S MAX_SEARCH_DEPTH)%nat /\ (key_count k <= MAX_SEARCH_KEYS)%nat /\
      Forall set_ok (key_sets k)
  | CommandBody.Fetch _ set items _ _ =>
      set_given set /\ NoDup items /\ (length items <= MAX_FETCH_ITEMS)%nat /\ Forall item_ok items
  | CommandBody.Store _ set _ _ _ _ | CommandBody.Copy _ set _ | CommandBody.Move _ set _
  | CommandBody.Expunge (Some set) => set_given set
  | _ => True
  end.

Abbreviation makes_body := (makes body_ok).

Lemma harmless_search_returns : harmless (search_returns input).
Proof. unfold search_returns. harmless. Qed.

Lemma harmless_search_charset : harmless (search_charset input).
Proof. unfold search_charset. harmless. Qed.

Lemma wp_search uid s :
  inside s -> depth s = 0%nat -> search_keys s = 0%nat ->
  wp (search input uid) (fun b s' => grow s s' /\ body_ok b) (grow s) s.
Proof.
  intros Hs Hd Hk. unfold search.
  apply wp_bind. eapply wp_harmless; [apply harmless_search_returns | auto with parser |]. intros returns s1 _ H1.
  apply wp_bind. eapply wp_harmless; [apply harmless_search_charset | done |]. intros [] s2 _ H2.
  apply wp_bind_assoc, wp_bind. eapply wp_keys.
  - apply (search_key_spec search_fuel 0); unfold search_fuel; lia.
  - eauto with parser.
  - unfold step in H2. lia.
  - auto with parser.
  - intros keys s3 H23 H3 Hkeys. apply wp_ret. split; [done|].
    apply and_keys_fit in Hkeys; [|lia]. simpl. rewrite Nat.add_0_r in Hkeys.
    split_and!; try apply Hkeys. lia.
Qed.

Lemma makes_fetch uid set : set_given set -> makes_body (fetch input uid set).
Proof.
  intros Hset s Hs. apply wp_bind. eapply wp_safe; [apply makes_fetch_items | auto with parser |].
  intros items s1 _ H1 Hitems. apply wp_bind, wp_ok_or; [|auto with parser]. intros distinct Hd.
  eapply distinct_items_spec in Hd as (Hnd & Hlen & Hin); [|constructor | simpl; lia].
  assert (Hok : Forall item_ok distinct).
  { rewrite Forall_forall in Hitems |- *. intros i [Hi|Hi%elem_of_nil]%Hin; [by apply Hitems | done]. }
  eapply wp_safe; [|exact H1|]; [|by intros b s2 _ H2 Hb; split; [exact H2 | exact Hb]].
  match goal with |- safe ?m _ => change (makes body_ok m) end. by makes.
Qed.

Lemma makes_store uid set : set_given set -> makes_body (store input uid set).
Proof. intros Hset. unfold store. makes; done. Qed.

Lemma makes_copy_or_move copy uid set : set_given set -> makes_body (copy_or_move input utf8 copy uid set).
Proof. intros Hset. unfold copy_or_move. makes. by destruct copy. Qed.

(** A set and what follows it. *)
Lemma makes_after_set {B} (Q : B -> Prop) (k : SequenceSet -> P B) :
  (forall set, set_given set -> makes Q (k set)) -> makes Q (set ← sequence_set input; k set).
Proof.
  intros Hk s Hs. apply wp_bind. eapply wp_safe; [apply safe_sequence_set | auto with parser |].
  intros set s1 _ H1 Hset. eapply wp_safe; [by apply Hk | done |]. auto.
Qed.

Lemma wp_message_command name uid s :
  inside s -> depth s = 0%nat -> search_keys s = 0%nat ->
  wp (message_command input utf8 name uid) (fun b s' => grow s s' /\ body_ok b) (grow s) s.
Proof.
  intros Hs Hd Hk. apply wp_bind. eapply wp_harmless; [apply harmless_sp | auto with parser |].
  intros [] s1 _ H1. destruct (is_word name "SEARCH").
  - eapply wp_mono; [..|apply wp_search; [eauto with parser | unfold step in H1; lia..]]; eauto with parser.
    intros b s2 [H2 Hb]. eauto with parser.
  - eapply wp_safe; [apply (makes_after_set body_ok) | done | auto with parser].
    intros set Hset. apply makes_bind; [auto with parser | intros _].
    repeat case_match; auto using makes_fetch, makes_store, makes_copy_or_move.
Qed.

Lemma harmless_qresync_params : harmless (qresync_params input).
Proof. unfold qresync_params. harmless. Qed.
Hint Resolve harmless_qresync_params : parser.

Lemma harmless_select_parameter acc : harmless (select_parameter input acc).
Proof. unfold select_parameter. harmless. Qed.
Hint Resolve harmless_select_parameter : parser.

Lemma harmless_base64 :
  harmless (start ← position_now;
    skip_while input (fun b => is_ascii_alphanumeric b || bool_decide (b ∈ ["+"; "/"; "="]%byte));;
    text ← taken_since input start;
    mret (Some (from_utf8_lossy text))).
Proof.
  intros s Hs. apply wp_bind, wp_bind, wp_get, wp_ret.
  apply wp_bind. eapply wp_safe; [apply harmless_skip_while | auto with parser |]. intros [] s1 Hst H1 _.
  apply wp_bind, safe_taken_since; [eauto with parser | unfold step in Hst; lia|]. by apply wp_ret.
Qed.
Hint Resolve harmless_base64 : parser.

Ltac body := makes; done.

Lemma makes_simple_commands :
  makes_body (id_command input) /\ makes_body (login_command input) /\
  makes_body (authenticate_command input) /\ makes_body (enable_command input) /\
  (forall r, makes_body (select_command input utf8 r)) /\
  (forall n, makes_body (mailbox_command input utf8 n)) /\
  makes_body (rename_command input utf8) /\ makes_body (lsub_command input utf8) /\
  makes_body (status_command input utf8) /\ makes_body (append_command input utf8) /\
  (forall n, makes_body (own_acl_command input utf8 n)) /\ (forall n, makes_body (acl_command input utf8 n)).
Proof.
  split_and!; intros; unfold id_command, login_command, authenticate_command, enable_command,
    select_command, mailbox_command, rename_command, lsub_command, status_command,
    append_command, own_acl_command, acl_command; makes; repeat case_match; done.
Qed.

Lemma wp_uid_command s :
  inside s -> depth s = 0%nat -> search_keys s = 0%nat ->
  wp (uid_command input utf8) (fun b s' => grow s s' /\ body_ok b) (grow s) s.
Proof.
  intros Hs Hd Hk. apply wp_bind. eapply wp_harmless; [apply harmless_sp | auto with parser |].
  intros [] s1 _ H1. apply wp_bind. eapply wp_harmless; [apply harmless_upper_atom | done |].
  intros sub s2 _ H2. destruct (is_message_command sub).
  - eapply wp_mono; [..|apply wp_message_command; [eauto with parser | unfold step in H2; lia..]]; eauto with parser.
    intros b s3 [H3 Hb]. eauto with parser.
  - destruct (is_word sub "EXPUNGE"); [|fails].
    eapply wp_safe; [apply (makes_bind body_ok); [apply harmless_sp | intros _] | done | auto with parser].
    apply makes_after_set. intros set Hset. by apply makes_ret.
Qed.

Lemma plain_command_ok name b : plain_command name = Some b -> body_ok b.
Proof. unfold plain_command. intros H. repeat case_match; by simplify_eq. Qed.

Lemma wp_command_body name s :
  inside s -> depth s = 0%nat -> search_keys s = 0%nat ->
  wp (command_body input utf8 name) (fun b s' => grow s s' /\ body_ok b) (grow s) s.
Proof.
  intros Hs Hd Hk.
  pose proof makes_simple_commands as (? & ? & ? & ? & ? & ? & ? & ? & ? & ? & ? & ?).
  assert (Hmakes : forall m, makes_body m -> wp m (fun b s' => grow s s' /\ body_ok b) (grow s) s).
  { intros m Hm. eapply wp_safe; [exact Hm | auto with parser |]. auto with parser. }
  unfold command_body. destruct (plain_command name) as [b|] eqn:Eb.
  { apply wp_ret. eauto using plain_command_ok with parser. }
  repeat case_match; auto using wp_message_command, wp_uid_command;
    apply Hmakes; auto; body.
Qed.

Lemma wp_at_end (Q : bool -> parser -> Prop) F s :
  inside s ->
  (let rest := drop (pos s) input in Q (bool_decide (rest = [] \/ rest = [x0d; x0a] \/ rest = [x0a])) s) ->
  wp (at_end input) Q F s.
Proof.
  intros Hs HQ. unfold at_end. repeat wp_step. eapply wp_expect; [|apply wp_ret, HQ].
  unfold get_slice, slice. rewrite decide_True by (unfold inside in Hs; lia).
  by rewrite take_ge by (rewrite length_drop; lia).
Qed.

(** What is left of the line once a command was read. *)
Definition ended (s : parser) : Prop := drop (pos s) input ∈ [[]; [x0d; x0a]; [x0a]].

Lemma wp_command s :
  inside s -> depth s = 0%nat -> search_keys s = 0%nat ->
  wp (command input utf8) (fun b s' => grow s s' /\ body_ok b /\ ended s') (grow s) s.
Proof.
  intros Hs Hd Hk. apply wp_bind. eapply wp_harmless; [apply harmless_upper_atom | auto with parser |].
  intros name s1 _ H1. apply wp_bind.
  eapply wp_mono; [..|apply wp_command_body; [eauto with parser | unfold step in H1; lia..]]; [|eauto with parser].
  intros b s2 [H2 Hb]. apply wp_bind, wp_bind, wp_at_end; [eauto with parser|].
  cbv zeta. case_bool_decide as Hend; [|fails]. apply wp_ret, wp_ret. split_and!; [eauto with parser | done |].
  unfold ended. set_solver.
Qed.

End safe.

(** ** parse_command *)

Lemma safe_run_inside input allow :
  wp (word input allow)
    (fun w s => step input initial s /\ w = take (pos s) input /\ w <> [] /\
       Forall (fun b => is_atom_char b || (allow && bool_decide (b = "]"%byte)) = true) w)
    (fun _ => True) initial.
Proof.
  eapply wp_mono; [..|apply (safe_run input), step_inside with initial, step_refl; unfold inside; simpl; lia]; [|done].
  intros w s (Hst & Hlt & -> & Hall & _). split_and!; [done| |..].
  - unfold slice. simpl. by rewrite drop_0, Nat.sub_0_r.
  - unfold slice. simpl. rewrite drop_0, Nat.sub_0_r. unfold eats, step in *. simpl in *.
    destruct input; simpl in *; [lia|]. by destruct (pos s); [lia|].
  - done.
Qed.

(** Everything the parser guarantees of its result, for the properties below. *)
Lemma parse_command_cases input utf8 :
  (exists e, parse_command input utf8 = Err e) \/
  (exists b t s s', parse_command input utf8 = Ok {| tag := t; body := b |} /\ body_ok b /\
     word input false initial = (Ok t, s) /\ (sp input;; command input utf8) s = (Ok b, s') /\ ended input s').
Proof.
  unfold parse_command. pose proof (safe_run_inside input false) as Hw. unfold wp in Hw.
  destruct (word input false initial) as [[t|e| |] s]; eauto; try done.
  destruct Hw as (Hst & _). case_decide; [eauto|].
  assert (Hc : wp (sp input;; command input utf8) (fun b s' => body_ok b /\ ended input s') (fun _ => True) s).
  { assert (Hin : inside input s) by eauto using step_inside.
    eapply wp_mono; [intros b s' Hb; exact Hb | intros s' _; exact I |].
    eapply (wp_bind (sp input) _ _ (fun _ => True)), wp_mono; [..|apply (harmless_sp input _ Hin)]; [|done].
    intros [] s1 [H1 _]. eapply wp_mono; [..|apply (wp_command input utf8)]; [naive_solver | done |..];
      unfold step, inside in *; simpl in *; lia. }
  unfold wp in Hc. destruct ((sp input;; command input utf8) s) as [[b|e| |] s'] eqn:E; eauto; try done.
  destruct Hc. right. exists b, t, s, s'. split_and!; auto.
Qed.

(** C1: whatever bytes a client sends as one command, [parse_command] returns a
    command or an error: no index or slice of the parser is out of bounds, no
    counter underflows, every loop ends within the length of the input, and
    [search_key] never has more than [MAX_SEARCH_DEPTH + 1] frames on the stack. *)
Theorem parse_command_returns input utf8 : returns (parse_command input utf8).
Proof.
  destruct (parse_command_cases input utf8) as [[e ->]|(b & t & s & s' & -> & _)]; exact I.
Qed.

(** The criteria of a SEARCH that parses nest at most one level deeper than
    [MAX_SEARCH_DEPTH], have at most [MAX_SEARCH_KEYS] keys, and name only sequence
    sets of numbers from 1 to 4294967295. *)
Theorem parse_search_bounded input utf8 c uid options k :
  parse_command input utf8 = Ok c -> body c = CommandBody.Search uid options k ->
  (key_depth k <= S MAX_SEARCH_DEPTH)%nat /\ (key_count k <= MAX_SEARCH_KEYS)%nat /\
  Forall set_ok (key_sets k).
Proof.
  intros Hc Hk. destruct (parse_command_cases input utf8) as [[e He]|(b & t & s & s' & Hb & Hok & _)];
    rewrite Hc in *; simplify_eq. simpl in Hk. by subst b.
Qed.

(** A FETCH that parses asks for at most [MAX_FETCH_ITEMS] items, none of them
    twice, of a set that is not empty and whose numbers are from 1 to 4294967295, and
    no part number in an item is 0. *)
Theorem parse_fetch_bounded input utf8 c uid set items changed_since vanished :
  parse_command input utf8 = Ok c ->
  body c = CommandBody.Fetch uid set items changed_since vanished ->
  set_ok set /\ set <> [] /\ NoDup items /\ (length items <= MAX_FETCH_ITEMS)%nat /\ Forall item_ok items.
Proof.
  intros Hc Hk. destruct (parse_command_cases input utf8) as [[e He]|(b & t & s & s' & Hb & Hok & _)];
    rewrite Hc in *; simplify_eq. simpl in Hk. subst b. destruct Hok as ([] & ? & ? & ?). auto.
Qed.

(** The tag an answer to the line starts with. *)
Definition answer_tag (r : outcome ParseError Command) : option (list byte) :=
  match r with
  | Ok c => Some (tag c)
  | Err e => error_tag e
  | _ => None
  end.

(** The tag of a command, and of the error when only the rest of the line does not
    parse, is a word the line starts with: atom characters, no [+], at least one. So
    the tagged answer can carry no line break, no bracket and no continuation. *)
Theorem parse_command_tag input utf8 t :
  answer_tag (parse_command input utf8) = Some t ->
  t <> [] /\ Forall (fun b => is_atom_char b = true /\ b <> "+"%byte) t /\ exists rest, input = t ++ rest.
Proof.
  unfold parse_command. pose proof (safe_run_inside input false) as Hw. unfold wp in Hw.
  destruct (word input false initial) as [[w|e| |] s]; try done.
  destruct Hw as (_ & Hw & Hne & Hall). case_decide as Hplus; [done|]. intros Ht.
  assert (t = w) as ->.
  { destruct ((sp input;; command input utf8) s) as [[]]; by simplify_eq/=. }
  split_and!; [done| |].
  - apply Forall_forall. intros b Hb. rewrite Forall_forall in Hall. specialize (Hall b Hb).
    rewrite orb_false_r in Hall. split; [done | by intros ->].
  - exists (drop (pos s) input). rewrite Hw at 1. by rewrite take_drop.
Qed.

(** A command that parses was read to its end: the method that reads the body
    stops where only a line break, or nothing, is left of the input. *)
Theorem parse_command_whole input utf8 c :
  parse_command input utf8 = Ok c ->
  exists s s', word input false initial = (Ok (tag c), s) /\
    (sp input;; command input utf8) s = (Ok (body c), s') /\
    drop (pos s') input ∈ [[]; [x0d; x0a]; [x0a]].
Proof.
  intros Hc. destruct (parse_command_cases input utf8) as [[e He]|(b & t & s & s' & Hb & _ & Hw & Hrun & Hend)];
    rewrite Hc in *; simplify_eq. eauto.
Qed.

Definition search_line : list byte := bs "a1 UID SEARCH (OR 1:5 NOT SEEN) SUBJECT x".
Definition fetch_line : list byte := bs "a1 FETCH 1:* (FLAGS UID FLAGS)".

Lemma parse_search_bounded_witness :
  (key_depth (SearchKey.And [SearchKey.Or (SearchKey.SequenceSet [(SeqNum.Value 1, SeqNum.Value 5)])
     (SearchKey.Not (SearchKey.Keyword (bs "$seen"))); SearchKey.Subject (bs "x")]) <= S MAX_SEARCH_DEPTH)%nat.
Proof.
  refine (proj1 (parse_search_bounded search_line false
    {| tag := bs "a1"; body := CommandBody.Search true None _ |} true None _ _ eq_refl)).
  vm_compute. reflexivity.
Defined.

Lemma parse_fetch_bounded_witness : NoDup [FetchItem.Flags; FetchItem.Uid].
Proof.
  refine (proj1 (proj2 (proj2 (parse_fetch_bounded fetch_line false
    {| tag := bs "a1"; body := CommandBody.Fetch false [(SeqNum.Value 1, SeqNum.Largest)]
         [FetchItem.Flags; FetchItem.Uid] None false |} _ _ _ _ _ _ eq_refl)))).
  vm_compute. reflexivity.
Defined.

Lemma parse_command_tag_witness : bs "a1" <> [].
Proof.
  refine (proj1 (parse_command_tag (bs "a1 NONSENSE") true (bs "a1") _)). vm_compute. reflexivity.
Defined.

Lemma parse_command_whole_witness : exists s, word (bs "a1 NOOP") false initial = (Ok (bs "a1"), s).
Proof.
  destruct (parse_command_whole (bs "a1 NOOP") false {| tag := bs "a1"; body := CommandBody.Noop |})
    as (s & s' & Hw & _); [vm_compute; reflexivity | by exists s].
Defined.
