(* ===== verification/ImapMime.v ===== *)
(** * The MIME structure of a message (crates\/uwumail-imap\/src\/mime.rs)

    [parse] finds the header, the body and the nested parts of a raw message as byte
    ranges. Slicing panics when a range is out of bounds, as in Rust; the counter
    [parts] of [Parser] is the state; one unit of fuel of [part] is one level of
    nesting. No method fails, so the error type is empty: the theorems show that
    parsing any message returns a tree, that its ranges lie in the message, nested
    and in order, and that its size and depth are bounded. *)

From S2P Require Import Prelude Effects Utf8.

Definition MAX_DEPTH : nat := 32.
Definition MAX_PARTS : nat := 1000.

Definition Range : Type := nat * nat.

Inductive Part : Type := mk_part {
  header : Range;
  body : Range;
  media_type : list byte;
  subtype : list byte;
  params : list (list byte * list byte);
  id : option (list byte);
  description : option (list byte);
  encoding : option (list byte);
  md5 : option (list byte);
  disposition : option (list byte * list (list byte * list byte));
  language : option (list (list byte));
  location : option (list byte);
  children : list Part;
  message : option Part;
  lines : nat;
}.

Definition set_children (cs : list Part) (p : Part) : Part :=
  mk_part (header p) (body p) (media_type p) (subtype p) (params p) (id p) (description p)
    (encoding p) (md5 p) (disposition p) (language p) (location p) cs (message p) (lines p).

Definition set_message (m : Part) (p : Part) : Part :=
  mk_part (header p) (body p) (media_type p) (subtype p) (params p) (id p) (description p)
    (encoding p) (md5 p) (disposition p) (language p) (location p) (children p) (Some m) (lines p).

Definition set_lines (n : nat) (p : Part) : Part :=
  mk_part (header p) (body p) (media_type p) (subtype p) (params p) (id p) (description p)
    (encoding p) (md5 p) (disposition p) (language p) (location p) (children p) (message p) n.

Definition is_multipart (p : Part) : bool := bool_decide (media_type p = bs "multipart").

(** The fields of a header. *)
Record Field := { name : list byte; value : list byte; raw_field : list byte }.

Section ops.
Context {S : Type}.

Abbreviation R := (M S Empty_set).

(** [&s[range]] *)
Definition index {A} (s : list A) (r : Range) : R (list A) := expect (get_slice s r.1 r.2).

(** [children.get(number - 1)], whose subtraction panics for 0. *)
Definition child (p : Part) (number : Z) : R (option Part) :=
  if number <? 1 then panic else mret (children p !! Z.to_nat (number - 1)).

Fixpoint find_from (current : Part) (depth : nat) (path : list Z) : R (option Part) :=
  match path with
  | [] => mret (Some current)
  | number :: path' =>
      let container := match message current, depth with Some m, Datatypes.S _ => m | _, _ => current end in
      if is_multipart container then
        c ← child container number;
        match c with Some c => find_from c (Datatypes.S depth) path' | None => mret None end
      else if number =? 1 then find_from container (Datatypes.S depth) path'
      else mret None
  end.

(** The part with the IMAP part number [path]. *)
Definition find (p : Part) (path : list Z) : R (option Part) := find_from p 0 path.

(** The scan of [header_end] at index [i]; [bytes] is what is left there. *)
Fixpoint blank_line (bytes : list byte) (i : nat) : option nat :=
  match bytes with
  | [] => None
  | b :: rest =>
      if decide (b = x0a) then
        if starts_with [x0d; x0a] rest then Some (i + 3)%nat
        else if starts_with [x0a] rest then Some (i + 2)%nat
        else blank_line rest (i + 1)
      else blank_line rest (i + 1)
  end.

(** Where the header ends: after the first empty line, or at the end when there is none. *)
Definition header_end (raw : list byte) (range : Range) : R nat :=
  bytes ← index raw range;
  mret (if starts_with [x0d; x0a] bytes then (range.1 + 2)%nat
        else if starts_with [x0a] bytes then (range.1 + 1)%nat
        else match blank_line bytes 0 with
             | Some n => (range.1 + n)%nat
             | None => range.2
             end).

(** A field runs until a line that does not start with whitespace. *)
Fixpoint field_end (fuel : nat) (bytes : list byte) (en : nat) : R nat :=
  match fuel with
  | O => out_of_fuel
  | Datatypes.S fuel' =>
      rest ← index bytes (en, length bytes);
      match position (fun b => bool_decide (b = x0a)) rest with
      | Some offset =>
          let en := (en + (offset + 1))%nat in
          match bytes !! en with
          | Some b => if decide (b = " "%byte \/ b = x09) then field_end fuel' bytes en else mret en
          | None => mret en
          end
      | None => mret (length bytes)
      end
  end.

(** Folding removed: the lines trimmed, the empty ones dropped. *)
Definition unfolded (text : list byte) : list byte :=
  join (bs " ") (List.filter (fun s => bool_decide (s <> []))
    (map trim (split_test (fun b => bool_decide (b = x0d \/ b = x0a)) text))).

(** What the bytes of a field are, [None] when they are skipped. *)
Definition field_of (field : list byte) : option Field :=
  colon ← position (fun b => bool_decide (b = ":"%byte)) field;
  name ← from_utf8 (take colon field);
  let name := trim_end name in
  if bool_decide (name = []) || has_whitespace name then None
  else Some {| name := name;
               value := unfolded (from_utf8_lossy (drop (colon + 1) field));
               raw_field := field |}.

Fixpoint fields_loop (fuel : nat) (bytes : list byte) (start : nat) (fs : list Field) : R (list Field) :=
  match fuel with
  | O => out_of_fuel
  | Datatypes.S fuel' =>
      if decide (start < length bytes)%nat then
        en ← field_end (Datatypes.S (length bytes)) bytes start;
        field ← index bytes (start, en);
        fields_loop fuel' bytes en (match field_of field with Some f => fs ++ [f] | None => fs end)
      else mret fs
  end.

Definition fields (raw : list byte) (header : Range) : R (list Field) :=
  bytes ← index raw header;
  fields_loop (Datatypes.S (length bytes)) bytes 0 [].

(** The value of the first field of that name. *)
Definition field (fs : list Field) (wanted : string) : option (list byte) :=
  value <$> List.find (fun f => eq_ignore_ascii_case (name f) (bs wanted)) fs.

(** The scan of [value_and_params] over the characters of the value. *)
Fixpoint pieces_loop (cs : list Z) (in_quotes : bool) (current : list Z) (pieces : list (list Z))
    : list (list Z) :=
  match cs with
  | [] => pieces ++ [current]
  | c :: cs' =>
      if decide (c = 0x22) then pieces_loop cs' (negb in_quotes) (current ++ [c]) pieces
      else if bool_decide (c = 0x5c) && in_quotes then
        match cs' with
        | next :: cs'' => pieces_loop cs'' in_quotes (current ++ [c; next]) pieces
        | [] => pieces ++ [current ++ [c]]
        end
      else if bool_decide (c = 0x3b) && negb in_quotes then pieces_loop cs' in_quotes [] (pieces ++ [current])
      else pieces_loop cs' in_quotes (current ++ [c]) pieces
  end.

Definition unquoted (value : list byte) : list byte :=
  match strip_prefix [x22] value ≫= strip_suffix [x22] with
  | Some inner => replace (bs "\\") (bs "\") (replace (bs "\" ++ [x22]) [x22] inner)
  | None => value
  end.

Definition param (piece : list byte) : option (list byte * list byte) :=
  '(name, value) ← split_once "="%byte piece;
  let name := to_ascii_lowercase (trim name) in
  let value := unquoted (trim value) in
  if decide (name = []) then None else Some (name, value).

(** Splits [value; a=b; c=d] into the value and its parameters. *)
Definition value_and_params (value : list byte) : list byte * list (list byte * list byte) :=
  let pieces := map utf8 (pieces_loop (default [] (chars value)) false [] []) in
  (trim (default [] (head pieces)), omap param (tail pieces)).

Definition count_lines (bytes : list byte) : nat :=
  length (List.filter (fun b => bool_decide (b = x0a)) bytes).

(** The line break before a boundary belongs to it. *)
Definition part_end (bytes : list byte) (start line_start : nat) : nat :=
  let ends_with en b := bool_decide (start < en)%nat && bool_decide (bytes !! (en - 1)%nat = Some b) in
  if ends_with line_start x0a then
    let en := (line_start - 1)%nat in
    if ends_with en x0d then (en - 1)%nat else en
  else line_start.

(** A boundary line: [Some true] for the last one. *)
Definition boundary_line (delimiter line : list byte) : option bool :=
  rest ← strip_prefix delimiter line;
  let text := trim_end (from_utf8_lossy rest) in
  if decide (text = bs "--") then Some true else if decide (text = []) then Some false else None.

(** After the loop: an open part runs to the end of the body. *)
Definition split_end (base : Range) (part_start : option nat) (parts : list Range) : list Range :=
  match part_start with
  | Some start => parts ++ [((base.1 + start)%nat, base.2)]
  | None => parts
  end.

Definition close_part (bytes : list byte) (base : Range) (line_start : nat) (part_start : option nat)
    (parts : list Range) : list Range :=
  match part_start with
  | Some start =>
      parts ++ [((base.1 + start)%nat, (base.1 + Nat.max (part_end bytes start line_start) start)%nat)]
  | None => parts
  end.

Fixpoint split_loop (fuel : nat) (bytes delimiter : list byte) (base : Range) (line_start : nat)
    (part_start : option nat) (parts : list Range) : R (list Range) :=
  match fuel with
  | O => out_of_fuel
  | Datatypes.S fuel' =>
      if decide (line_start <= length bytes)%nat then
        rest ← index bytes (line_start, length bytes);
        let line_end :=
          match position (fun b => bool_decide (b = x0a)) rest with
          | Some p => (line_start + p + 1)%nat
          | None => length bytes
          end in
        line ← index bytes (line_start, line_end);
        let next part_start parts :=
          if decide (line_end = length bytes) then mret (split_end base part_start parts)
          else split_loop fuel' bytes delimiter base line_end part_start parts in
        match boundary_line delimiter line with
        | Some closing =>
            let parts := close_part bytes base line_start part_start parts in
            if (closing : bool) then mret parts else next (Some line_end) parts
        | None => next part_start parts
        end
      else mret (split_end base part_start parts)
  end.

(** Ranges of the parts of a multipart body, between the boundary lines. *)
Definition split_multipart (raw : list byte) (body : Range) (boundary : list byte) : R (list Range) :=
  bytes ← index raw body;
  split_loop (Datatypes.S (length bytes)) bytes (bs "--" ++ boundary) body 0 None [].

End ops.

Definition content_type (fs : list Field) (default_type : list byte * list byte)
    : list byte * list byte * list (list byte * list byte) :=
  match field fs "Content-Type" with
  | Some value =>
      let '(head, params) := value_and_params value in
      match split_once "/"%byte head with
      | Some (t, s) =>
          if decide (trim t <> [] /\ trim s <> [])
          then (to_ascii_lowercase (trim t), to_ascii_lowercase (trim s), params)
          else (bs "text", bs "plain", params)
      | None => (bs "text", bs "plain", params)
      end
  | None => (default_type.1, default_type.2, [])
  end.

Definition us_ascii : list byte * list byte := (bs "charset", bs "us-ascii").

Definition with_charset (media_type : list byte) (params : list (list byte * list byte)) :=
  if bool_decide (media_type = bs "text")
     && negb (existsb (fun p => bool_decide (p.1 = bs "charset")) params)
  then params ++ [us_ascii] else params.

(** The part [header] and [body] and its fields describe, before its content is read. *)
Definition described (header body : Range) (fs : list Field) (default_type : list byte * list byte) : Part :=
  let '(media_type, subtype, params) := content_type fs default_type in
  {| header := header; body := body;
     media_type := media_type; subtype := subtype; params := with_charset media_type params;
     id := field fs "Content-ID";
     description := field fs "Content-Description";
     encoding := to_ascii_lowercase <$> field fs "Content-Transfer-Encoding";
     md5 := field fs "Content-MD5";
     disposition := (fun v => let '(head, params) := value_and_params v in (to_ascii_lowercase head, params))
                    <$> field fs "Content-Disposition";
     language := (fun v => List.filter (fun tag => bool_decide (tag <> [])) (map trim (split_on ","%byte v)))
                 <$> field fs "Content-Language";
     location := field fs "Content-Location";
     children := []; message := None; lines := 0 |}.

(** The part a multipart without parts shows its body as. *)
Definition body_as_text (body : Range) (lines : nat) : Part :=
  {| header := (body.1, body.1); body := body;
     media_type := bs "text"; subtype := bs "plain"; params := [us_ascii];
     id := None; description := None; encoding := None; md5 := None; disposition := None;
     language := None; location := None; children := []; message := None; lines := lines |}.

(** The state is [self.parts]. *)
Abbreviation Parser := (M nat Empty_set).

Section parser.
Context (raw : list byte).

Fixpoint children_loop (part : Range -> Parser Part) (ranges : list Range) (acc : list Part)
    : Parser (list Part) :=
  match ranges with
  | [] => mret acc
  | range :: ranges' =>
      parts ← get;
      if decide (MAX_PARTS <= parts)%nat then mret acc
      else p ← part range; children_loop part ranges' (acc ++ [p])
  end.

Definition boundary_of (p : Part) : option (list byte) :=
  b ← snd <$> List.find (fun param => bool_decide (param.1 = bs "boundary")) (params p);
  if decide (b = []) then None else Some b.

(** A multipart: [part] reads its parts. *)
Definition multipart (part : (list byte * list byte) -> Range -> Parser Part) (p : Part) : Parser Part :=
  let child_default :=
    if decide (subtype p = bs "digest") then (bs "message", bs "rfc822") else (bs "text", bs "plain") in
  cs ← match boundary_of p with
       | Some boundary =>
           ranges ← split_multipart raw (body p) boundary;
           children_loop (part child_default) ranges []
       | None => mret []
       end;
  if decide (cs = []) then
    bytes ← index raw (body p);
    mret (set_children [body_as_text (body p) (count_lines bytes)] p)
  else mret (set_children cs p).

Fixpoint part (fuel : nat) (depth : nat) (default_type : list byte * list byte) (range : Range) : Parser Part :=
  match fuel with
  | O => out_of_fuel
  | S fuel' =>
      modify S;;
      header_end ← header_end raw range;
      let header := (range.1, header_end) in
      let body := (header_end, range.2) in
      fs ← fields raw header;
      let p := described header body fs default_type in
      parts ← get;
      let deep_enough := bool_decide (MAX_DEPTH <= depth)%nat || bool_decide (MAX_PARTS <= parts)%nat in
      if is_multipart p && negb deep_enough then multipart (part fuel' (S depth)) p
      else if bool_decide (media_type p = bs "message") && bool_decide (subtype p = bs "rfc822")
              && negb deep_enough then
        m ← part fuel' (S depth) (bs "text", bs "plain") body;
        bytes ← index raw body;
        mret (set_lines (count_lines bytes) (set_message m p))
      else if bool_decide (media_type p = bs "text") then
        bytes ← index raw body;
        mret (set_lines (count_lines bytes) p)
      else mret p
  end.

End parser.

(** The structure of a whole message. *)
Definition parse (raw : list byte) : outcome Empty_set Part :=
  fst (part raw (S MAX_DEPTH) 0 (bs "text", bs "plain") (0%nat, length raw) 0%nat).

(** ** What a parsed message looks like *)

(** The bytes a part takes. *)
Definition extent (p : Part) : Range := ((header p).1, (body p).2).

(** Ranges one after another between two positions. *)
Fixpoint ordered (lo hi : nat) (ranges : list Range) : Prop :=
  match ranges with
  | [] => (lo <= hi)%nat
  | (a, b) :: ranges' => (lo <= a <= b)%nat /\ ordered b hi ranges'
  end.

(** The header and the body of a part follow each other, its parts lie in its body
    one after another, and an enclosed message is the whole body. *)
Inductive well_formed : Part -> Prop :=
  | well_formed_intro p :
      ((header p).1 <= (header p).2)%nat -> (header p).2 = (body p).1 -> ((body p).1 <= (body p).2)%nat ->
      ordered (body p).1 (body p).2 (map extent (children p)) ->
      Forall well_formed (children p) ->
      (forall m, message p = Some m -> well_formed m /\ extent m = body p) ->
      well_formed p.

Fixpoint node_count (p : Part) : nat :=
  match p with
  | mk_part _ _ _ _ _ _ _ _ _ _ _ _ cs m _ =>
      S (foldr (fun c n => node_count c + n) 0 cs + match m with Some m => node_count m | None => 0 end)%nat
  end.

Fixpoint node_depth (p : Part) : nat :=
  match p with
  | mk_part _ _ _ _ _ _ _ _ _ _ _ _ cs m _ =>
      S (foldr (fun c n => Nat.max (node_depth c) n) 0 cs
         `max` match m with Some m => node_depth m | None => 0 end)%nat
  end.

(** An empty line follows the line break at [k]. *)
Definition blank_after (bytes : list byte) (k : nat) : Prop :=
  bytes !! k = Some x0a /\
  (starts_with [x0d; x0a] (drop (S k) bytes) = true \/ starts_with [x0a] (drop (S k) bytes) = true).

Lemma ordered_le lo hi rs : ordered lo hi rs -> (lo <= hi)%nat.
Proof. revert lo. induction rs as [|[a b] rs IH]; intros lo; simpl; [done|]. intros [? ?%IH]. lia. Qed.

Lemma ordered_weaken lo hi hi' rs : ordered lo hi rs -> (hi <= hi')%nat -> ordered lo hi' rs.
Proof. revert lo. induction rs as [|[a b] rs IH]; intros lo; simpl; [lia | naive_solver]. Qed.

Lemma ordered_snoc lo mid hi a b rs :
  ordered lo mid rs -> (mid <= a <= b)%nat -> (b <= hi)%nat -> ordered lo hi (rs ++ [(a, b)]).
Proof.
  revert lo. induction rs as [|[a' b'] rs IH]; intros lo; simpl; [lia|]. naive_solver.
Qed.

(** A range of an ordered list is between its bounds. *)
Lemma ordered_elem lo hi rs r : ordered lo hi rs -> r ∈ rs -> (lo <= r.1 <= r.2)%nat /\ (r.2 <= hi)%nat.
Proof.
  revert lo. induction rs as [|[a b] rs IH]; intros lo; simpl; [by intros _ ?%elem_of_nil|].
  intros [Hab Ho] [->|Hr]%elem_of_cons; [apply ordered_le in Ho; simpl; lia|].
  apply (IH b) in Hr; [lia | done].
Qed.

Section totality.
Context {S : Type}.
Implicit Types (st : S).

Lemma wp_index {A} (s : list A) r (Q : list A -> S -> Prop) F st :
  (r.1 <= r.2 <= length s)%nat -> Q (slice s r.1 r.2) st -> wp (index s r) Q F st.
Proof. intros Hr HQ. eapply wp_expect; [|exact HQ]. unfold get_slice. by rewrite decide_True. Qed.

Lemma starts_with_length prefix (s : list byte) : starts_with prefix s = true -> (length prefix <= length s)%nat.
Proof. intros H%bool_decide_eq_true. rewrite <- H, length_take. lia. Qed.

Lemma blank_after_cons b bytes k : blank_after (b :: bytes) (Datatypes.S k) <-> blank_after bytes k.
Proof. done. Qed.

Lemma blank_line_Some bytes i n :
  blank_line bytes i = Some n ->
  exists k, blank_after bytes k /\ (forall j, (j < k)%nat -> ~ blank_after bytes j) /\
    (n <= i + length bytes)%nat /\
    n = (i + k + if starts_with [x0d; x0a] (drop (Datatypes.S k) bytes) then 3 else 2)%nat.
Proof.
  revert i. induction bytes as [|b bytes IH]; intros i H; [done|]. simpl in H.
  assert (Hnext : ~ blank_after (b :: bytes) 0 -> blank_line bytes (i + 1) = Some n ->
    exists k, blank_after (b :: bytes) k /\ (forall j, (j < k)%nat -> ~ blank_after (b :: bytes) j) /\
      (n <= i + length (b :: bytes))%nat /\
      n = (i + k + if starts_with [x0d; x0a] (drop (Datatypes.S k) (b :: bytes)) then 3 else 2)%nat).
  { intros H0 (k & Hk & Hmin & Hle & Hn)%IH. exists (Datatypes.S k). simpl. split_and!; [done| |lia|].
    - intros [|j] Hj; [done|]. rewrite blank_after_cons. apply Hmin. lia.
    - destruct (starts_with _ _); lia. }
  case_decide as Hb; [|apply Hnext; [by intros [[= ->] _] | done]].
  subst b. destruct (starts_with [x0d; x0a] bytes) eqn:E1; [|destruct (starts_with [x0a] bytes) eqn:E2].
  - simplify_eq. exists 0%nat. pose proof (starts_with_length _ _ E1). simpl in *. rewrite skipn_O, E1.
    split_and!; [split; auto | lia | lia | lia].
  - simplify_eq. exists 0%nat. pose proof (starts_with_length _ _ E2). simpl in *. rewrite skipn_O, E1.
    split_and!; [split; auto | lia | lia | lia].
  - apply Hnext; [|done]. intros [_ [?|?]]; simpl in *; rewrite ?skipn_O in *; congruence.
Qed.

Lemma blank_line_None bytes i k : blank_line bytes i = None -> ~ blank_after bytes k.
Proof.
  revert i k. induction bytes as [|b bytes IH]; intros i k H; [by intros [? _]|]. simpl in H.
  destruct k as [|k].
  - intros [[= ->] Hs]. rewrite decide_True in H by done. simpl in Hs. rewrite skipn_O in Hs.
    destruct (starts_with [x0d; x0a] bytes), (starts_with [x0a] bytes); naive_solver.
  - rewrite blank_after_cons. repeat case_match; try done; by eapply IH.
Qed.

Lemma wp_header_end raw range (Q : nat -> S -> Prop) F st :
  (range.1 <= range.2 <= length raw)%nat ->
  (forall h, (range.1 <= h <= range.2)%nat -> Q h st) -> wp (header_end raw range) Q F st.
Proof.
  intros Hr HQ. apply wp_bind, wp_index; [done|]. apply wp_ret, HQ.
  pose proof (length_slice raw range.1 range.2 Hr) as Hl.
  destruct (starts_with [x0d; x0a] _) eqn:E1; [apply starts_with_length in E1; simpl in E1; lia|].
  destruct (starts_with [x0a] _) eqn:E2; [apply starts_with_length in E2; simpl in E2; lia|].
  destruct (blank_line _ 0) as [n|] eqn:E; [|lia].
  apply blank_line_Some in E as (k & _ & _ & Hle & _). lia.
Qed.

Lemma wp_field_end fuel bytes en st F :
  (en < length bytes)%nat -> (length bytes - en <= fuel)%nat ->
  wp (field_end fuel bytes en) (fun en' st' => st' = st /\ (en < en' <= length bytes)%nat) F st.
Proof.
  revert en. induction fuel as [|fuel IH]; intros en Hen Hf; [lia|]. cbn [field_end].
  apply wp_bind, wp_index; [simpl; lia|]. destruct (position _ _) as [off|] eqn:E; [|apply wp_ret; lia || (split; [done | lia])].
  apply position_lt in E. rewrite length_slice in E by (simpl; lia). simpl in E. cbv zeta.
  destruct (bytes !! _) as [b|] eqn:Eb; [|apply wp_ret; split; [done | lia]].
  apply lookup_lt_Some in Eb.
  case_decide; [|apply wp_ret; split; [done | lia]].
  eapply wp_mono; [..|apply IH; lia]; [|done]. intros en' st' [-> ?]. split; [done | lia].
Qed.

Lemma wp_fields raw header (Q : list Field -> S -> Prop) F st :
  (header.1 <= header.2 <= length raw)%nat -> (forall fs, Q fs st) -> wp (fields raw header) Q F st.
Proof.
  intros Hr HQ. apply wp_bind, wp_index; [done|]. set (bytes := slice _ _ _). clearbody bytes. clear Hr.
  assert (Hloop : forall fuel start fs, (length bytes - start < fuel)%nat ->
    wp (fields_loop fuel bytes start fs) Q F st); [|apply Hloop; lia].
  induction fuel as [|fuel IH]; intros start fs Hf; [lia|]. cbn [fields_loop].
  case_decide; [|apply wp_ret, HQ].
  apply wp_bind. eapply wp_mono; [..|apply (wp_field_end _ _ _ st (fun _ => False)); lia]; [|done].
  intros en st' [-> Hen]. apply wp_bind, wp_index; [simpl; lia|]. apply IH. lia.
Qed.

Lemma part_end_le bytes start line_start : (part_end bytes start line_start <= line_start)%nat.
Proof. unfold part_end. repeat case_match; lia. Qed.

Lemma wp_split_multipart raw body boundary (Q : list Range -> S -> Prop) F st :
  (body.1 <= body.2 <= length raw)%nat ->
  (forall rs, ordered body.1 body.2 rs -> Q rs st) -> wp (split_multipart raw body boundary) Q F st.
Proof.
  intros Hr HQ. apply wp_bind, wp_index; [done|].
  pose proof (length_slice raw body.1 body.2 Hr) as Hl. set (bytes := slice _ _ _) in *. clearbody bytes.
  assert (Hend : forall ls ps parts, (default ls ps <= ls <= length bytes)%nat ->
    ordered body.1 (body.1 + default ls ps) parts -> ordered body.1 body.2 (split_end body ps parts)).
  { intros ls [start|] parts Hls Ho; simpl in *.
    - eapply ordered_snoc; [exact Ho | lia | lia].
    - eapply ordered_weaken; [exact Ho | lia]. }
  assert (Hloop : forall fuel ls ps parts, (length bytes - ls < fuel)%nat ->
    (default ls ps <= ls <= length bytes)%nat -> ordered body.1 (body.1 + default ls ps) parts ->
    wp (split_loop fuel bytes (bs "--" ++ boundary) body ls ps parts) Q F st).
  2: { apply Hloop; simpl; lia. }
  induction fuel as [|fuel IH]; intros ls ps parts Hf Hls Ho; [lia|]. cbn [split_loop].
  rewrite decide_True by lia. apply wp_bind, wp_index; [simpl; lia|]. cbv zeta.
  set (le := match position _ _ with Some _ => _ | None => _ end).
  assert (Hle : (ls <= le <= length bytes)%nat /\ (le = length bytes \/ ls < le)%nat).
  { unfold le. destruct (position _ _) as [p|] eqn:E; [|lia].
    apply position_lt in E. rewrite length_slice in E by (simpl; lia). simpl in E. lia. }
  clearbody le. destruct Hle as [Hle Hprog]. apply wp_bind, wp_index; [simpl; lia|].
  assert (Hnext : forall ps' parts', (default le ps' <= le)%nat ->
    ordered body.1 (body.1 + default le ps') parts' ->
    wp (if decide (le = length bytes) then mret (split_end body ps' parts')
        else split_loop fuel bytes (bs "--" ++ boundary) body le ps' parts') Q F st).
  { intros ps' parts' Hps Ho'. case_decide; [apply wp_ret, HQ, (Hend le); [lia | done]|].
    apply IH; [lia | lia | done]. }
  destruct (boundary_line _ _) as [closing|].
  - assert (Hclose : ordered body.1 (body.1 + ls) (close_part bytes body ls ps parts)).
    { destruct ps as [start|]; simpl in *; [|done]. pose proof (part_end_le bytes start ls).
      eapply ordered_snoc; [exact Ho | lia | lia]. }
    destruct closing; [apply wp_ret, HQ; eapply ordered_weaken; [exact Hclose | lia]|].
    apply Hnext; simpl; [lia | eapply ordered_weaken; [exact Hclose | lia]].
  - apply Hnext; [destruct ps; simpl in *; lia|]. destruct ps; simpl in *; [done|].
    eapply ordered_weaken; [exact Ho | lia].
Qed.

End totality.

Section tree.
Context (raw : list byte).

(** What [part] promises of the tree it reads at a depth, when [n] parts were read
    before. *)
Definition tree_of (range : Range) (depth n : nat) (p : Part) (n' : nat) : Prop :=
  well_formed p /\ extent p = range /\ (n < n' <= MAX_PARTS)%nat /\
  (node_count p <= 2 * (n' - n))%nat /\ (node_depth p + depth <= S MAX_DEPTH)%nat.

Definition part_spec (depth : nat) (m : Range -> Parser Part) : Prop :=
  forall range n, (range.1 <= range.2 <= length raw)%nat -> (n < MAX_PARTS)%nat ->
    wp (m range) (tree_of range depth n) (fun _ => False) n.

Definition forest_count (ps : list Part) : nat := foldr (fun c n => node_count c + n)%nat 0%nat ps.

Definition forest_depth (ps : list Part) : nat := foldr (fun c n => Nat.max (node_depth c) n) 0%nat ps.

Lemma forest_count_snoc ps p : forest_count (ps ++ [p]) = (forest_count ps + node_count p)%nat.
Proof. unfold forest_count. induction ps; simpl in *; lia. Qed.

Lemma forest_depth_snoc ps p : forest_depth (ps ++ [p]) = Nat.max (forest_depth ps) (node_depth p).
Proof. unfold forest_depth. induction ps; simpl in *; lia. Qed.

Lemma node_count_unfold p :
  node_count p = S (forest_count (children p) + from_option node_count 0 (message p))%nat.
Proof. by destruct p as [????????????? [] ?]. Qed.

Lemma node_depth_unfold p :
  node_depth p = S (Nat.max (forest_depth (children p)) (from_option node_depth 0 (message p)))%nat.
Proof. by destruct p as [????????????? [] ?]. Qed.

Lemma ordered_app_inv lo hi r rs : ordered lo hi (r :: rs) -> (lo <= r.1 <= r.2)%nat /\ ordered r.2 hi rs.
Proof. by destruct r. Qed.

Lemma wp_children_loop m depth ranges acc lo hi n0 n :
  part_spec depth m -> (hi <= length raw)%nat -> ordered lo hi ranges ->
  Forall well_formed acc -> (forest_count acc <= 2 * (n - n0))%nat -> (n0 <= n <= MAX_PARTS)%nat ->
  (forest_depth acc + depth <= S MAX_DEPTH)%nat ->
  wp (children_loop m ranges acc)
    (fun ps n' => (exists ps', ps = acc ++ ps' /\ ordered lo hi (map extent ps')) /\ Forall well_formed ps /\
       (forest_count ps <= 2 * (n' - n0))%nat /\ (n <= n' <= MAX_PARTS)%nat /\
       (forest_depth ps + depth <= S MAX_DEPTH)%nat) (fun _ => False) n.
Proof.
  intros Hm Hhi Ho. revert acc lo n Ho.
  induction ranges as [|range ranges IH]; intros acc lo n Ho Hwf Hc Hn Hd; cbn [children_loop].
  { apply wp_ret. split_and!; auto; [|lia..]. exists []. by rewrite app_nil_r. }
  apply wp_bind, wp_get. cbv beta. case_decide.
  { apply wp_ret. split_and!; auto; [|lia..]. exists []. rewrite app_nil_r. split; [done|].
    by apply ordered_le in Ho. }
  apply ordered_app_inv in Ho as [Hr Ho]. apply wp_bind. pose proof (ordered_le _ _ _ Ho).
  eapply wp_mono; [..|apply Hm; lia]; [|done].
  intros p n1 (Hp & Hext & Hn1 & Hcount & Hdepth).
  eapply wp_mono; [..|apply (IH _ range.2)]; auto.
  - intros ps n2 ((ps' & -> & Hps') & ? & ? & ? & ?). split_and!; auto; [|lia..].
    exists (p :: ps'). split; [by rewrite <- app_assoc|]. rewrite map_cons, Hext. by destruct range.
  - by apply Forall_app; split; [|apply Forall_singleton].
  - rewrite forest_count_snoc. lia.
  - lia.
  - rewrite forest_depth_snoc. lia.
Qed.

Lemma body_as_text_ok range n : (range.1 <= range.2)%nat -> well_formed (body_as_text range n).
Proof. intros Hr. constructor; simpl; auto. done. Qed.

Lemma described_ok range h fs dt :
  (range.1 <= h <= range.2)%nat ->
  let p := described (range.1, h) (h, range.2) fs dt in
  well_formed p /\ extent p = range /\ node_count p = 1%nat /\ node_depth p = 1%nat /\ body p = (h, range.2) /\
  header p = (range.1, h) /\ children p = [] /\ message p = None.
Proof.
  intros Hh. unfold described. destruct (content_type fs dt) as [[t st] ps]. simpl. split_and!; auto.
  - constructor; simpl; auto; [lia..| |done]. by lia.
  - by destruct range.
Qed.

Lemma wp_multipart depth m p n0 n :
  (forall dt, part_spec (S depth) (m dt)) -> (depth < MAX_DEPTH)%nat -> (n0 < n < MAX_PARTS)%nat ->
  well_formed p -> ((body p).2 <= length raw)%nat -> node_count p = 1%nat -> node_depth p = 1%nat ->
  message p = None ->
  wp (multipart raw m p) (tree_of (extent p) depth n0) (fun _ => False) n.
Proof.
  intros Hm Hdeep Hn Hwf Hraw Hc1 Hd1 Hmsg. inversion Hwf as [p' H1 H2 H3 Ho Hall Hmess]; subst p'.
  assert (Hset : forall cs n', ordered (body p).1 (body p).2 (map extent cs) -> Forall well_formed cs ->
    (n0 < n' <= MAX_PARTS)%nat -> (S (forest_count cs) <= 2 * (n' - n0))%nat ->
    (forest_depth cs + S depth <= S MAX_DEPTH)%nat -> tree_of (extent p) depth n0 (set_children cs p) n').
  { intros cs n' Hocs Hcs Hn' Hcount Hdepth. unfold tree_of.
    rewrite node_count_unfold, node_depth_unfold. simpl. rewrite Hmsg. simpl. split_and!; auto; try lia.
    constructor; simpl; auto. }
  assert (Htext : forall n', (n0 < n' <= MAX_PARTS)%nat -> (n <= n')%nat ->
    wp (bytes ← index raw (body p); mret (set_children [body_as_text (body p) (count_lines bytes)] p))
      (tree_of (extent p) depth n0) (fun _ => False) n').
  { intros n' Hn' Hle. apply wp_bind, wp_index; [lia|]. apply wp_ret, Hset; [simpl; lia | |done|simpl; lia..].
    by apply Forall_singleton, body_as_text_ok. }
  unfold multipart. apply wp_bind. destruct (boundary_of p) as [b|]; [|by apply wp_ret, Htext; lia].
  apply wp_bind, wp_split_multipart; [lia|]. intros rs Hrs.
  eapply wp_mono; [..|apply (wp_children_loop _ (S depth) rs [] (body p).1 (body p).2 n n)]; auto; try (simpl; lia).
  intros cs n' ((ps & -> & Hps) & Hcs & Hcount & Hn' & Hdepth). simpl. destruct ps as [|c ps]; simpl.
  - apply Htext; lia.
  - apply wp_ret, Hset; simpl in *; auto; lia.
Qed.

Lemma part_spec_part fuel depth dt :
  (depth <= MAX_DEPTH)%nat -> (MAX_DEPTH < fuel + depth)%nat -> part_spec depth (part raw fuel depth dt).
Proof.
  revert depth dt. induction fuel as [|fuel IH]; intros depth dt Hd Hf range n Hr Hn; [lia|]. cbn [part].
  apply wp_bind, wp_modify, wp_bind, wp_header_end; [done|]. intros h Hh. cbv zeta.
  apply wp_bind, wp_fields; [simpl; lia|]. intros fs. cbv zeta. apply wp_bind, wp_get. cbv beta zeta.
  pose proof (described_ok range h fs dt Hh) as (Hwf & Hext & Hc & Hdep & Hbody & Hhead & Hch & Hmsg).
  set (p := described _ _ _ _) in *. clearbody p. cbv zeta in *.
  assert (Hleaf : forall k, tree_of range depth n (set_lines k p) (S n)).
  { intros k. inversion Hwf. unfold tree_of. rewrite node_count_unfold, node_depth_unfold. simpl.
    rewrite Hch, Hmsg. simpl. split_and!; auto; try lia. constructor; simpl; auto. }
  assert (Hplain : tree_of range depth n p (S n)) by (unfold tree_of; rewrite Hc, Hdep; split_and!; auto; lia).
  assert (Htext : wp (bytes ← index raw (h, range.2); mret (set_lines (count_lines bytes) p))
    (tree_of range depth n) (fun _ => False) (S n)).
  { apply wp_bind, wp_index; [simpl; lia|]. apply wp_ret, Hleaf. }
  destruct (bool_decide (MAX_DEPTH <= depth)%nat || bool_decide (MAX_PARTS <= S n)%nat) eqn:Edeep;
    rewrite ?andb_false_r, ?andb_true_r; simpl.
  { clear Edeep. by case_bool_decide; [|apply wp_ret]. }
  apply orb_false_iff in Edeep as [Edepth%bool_decide_eq_false Eparts%bool_decide_eq_false].
  destruct (is_multipart p).
  { rewrite <- Hext. apply wp_multipart; auto; [|lia..|].
    - intros dt'. apply IH; lia.
    - rewrite Hbody. simpl. lia. }
  destruct (_ && _); [|by case_bool_decide; [|apply wp_ret]].
  apply wp_bind. eapply wp_mono; [..|apply IH; [lia.. | simpl; lia | lia]]; [|done].
  intros m n' (Hm & Hmext & Hn' & Hcount & Hdepth). apply wp_bind, wp_index; [simpl; lia|]. apply wp_ret.
  inversion Hwf. unfold tree_of. rewrite node_count_unfold, node_depth_unfold. simpl. rewrite Hch. simpl.
  split_and!; auto; try lia. constructor; simpl; auto.
  intros m' [= <-]. by rewrite Hbody.
Qed.

(** Everything [parse] promises, for the properties below. *)
Lemma parse_tree : exists p n, parse raw = Ok p /\ tree_of (0%nat, length raw) 0 0 p n.
Proof.
  pose proof (part_spec_part (S MAX_DEPTH) 0 (bs "text", bs "plain") ltac:(lia) ltac:(lia)
    (0%nat, length raw) 0%nat ltac:(simpl; lia) ltac:(unfold MAX_PARTS; lia)) as H.
  unfold wp in H. unfold parse. destruct (part raw _ _ _ _ _) as [[p|e| |] n]; try done. by exists p, n.
Qed.

End tree.

(** Every message has a MIME structure: [parse] returns a tree for any bytes, never
    out of bounds, and the tree has at most [2 * MAX_PARTS] nodes and at most
    [MAX_DEPTH + 1] levels. *)
Theorem mime_parse_bounded raw :
  exists p, parse raw = Ok p /\ (node_count p <= 2 * MAX_PARTS)%nat /\ (node_depth p <= S MAX_DEPTH)%nat.
Proof.
  destruct (parse_tree raw) as (p & n & Hp & _ & _ & Hn & Hcount & Hdepth). exists p. split_and!; [done | lia | lia].
Qed.

(** C29: the ranges of a parsed message are those of a tree over it: the root is the whole
    message, the header of every part ends where its body starts, the parts of a
    multipart lie in its body one after another without overlap, and an enclosed
    message is the body of its part. *)
Theorem mime_parse_well_formed raw p :
  parse raw = Ok p -> well_formed p /\ extent p = (0%nat, length raw).
Proof.
  intros Hp. destruct (parse_tree raw) as (p' & n & Hp' & Hwf & Hext & _). rewrite Hp in Hp'. by simplify_eq.
Qed.

Definition two_parts : list byte :=
  bs "Content-Type: multipart/mixed; boundary=b" ++ [x0a; x0a] ++ bs "--b" ++ [x0a; x0a] ++ bs "x" ++ [x0a]
  ++ bs "--b" ++ [x0a; x0a] ++ bs "y" ++ [x0a] ++ bs "--b--".

Lemma mime_parse_well_formed_witness : exists p, well_formed p /\ length (children p) = 2%nat.
Proof.
  destruct (parse two_parts) as [p|e| |] eqn:E; try (vm_compute in E; discriminate).
  exists p. split; [exact (proj1 (mime_parse_well_formed two_parts p E)) |].
  vm_compute in E. injection E as <-. reflexivity.
Defined.

(** The header of a message ends after its first empty line, wherever that is, and
    takes the whole message when there is none. *)
Theorem header_end_first_blank raw h :
  fst (header_end raw (0%nat, length raw) tt) = Ok h ->
  if starts_with [x0d; x0a] raw then h = 2%nat
  else if starts_with [x0a] raw then h = 1%nat
  else (exists k, blank_after raw k /\ (forall j, (j < k)%nat -> ~ blank_after raw j) /\
          h = (k + if starts_with [x0d; x0a] (drop (S k) raw) then 3 else 2)%nat) \/
       ((forall k, ~ blank_after raw k) /\ h = length raw).
Proof.
  unfold header_end, index, get_slice. simpl fst. simpl snd. rewrite decide_True by lia.
  cbn -[starts_with slice]. unfold slice. rewrite drop_0, Nat.sub_0_r, take_ge by lia. intros [= <-].
  destruct (starts_with [x0d; x0a] raw); [done|]. destruct (starts_with [x0a] raw); [done|].
  destruct (blank_line raw 0) as [n|] eqn:E.
  - left. apply blank_line_Some in E as (k & Hk & Hmin & _ & ->). by exists k.
  - right. split; [|done]. intros k. by eapply blank_line_None.
Qed.

Lemma header_end_first_blank_witness :
  exists k, blank_after two_parts k /\ (forall j, (j < k)%nat -> ~ blank_after two_parts j).
Proof.
  destruct (header_end_first_blank two_parts 43 ltac:(vm_compute; reflexivity)) as [(k & Hk & Hmin & _)|[_ H]].
  - by exists k.
  - vm_compute in H. discriminate.
Defined.
