(* ===== verification/ImapResponse.v ===== *)
(** * Writing IMAP data (crates\/uwumail-imap\/src\/response.rs)

    [Out] and what goes through it: strings, mailbox names, flags, sequence sets,
    ENVELOPE, BODYSTRUCTURE and the bytes of a section. A method of [Out] is a
    function from the [Out] before to the one after. The base64 and mail-parser
    crates are variables of the section that uses them. [internal_date] is in
    [Dates]; [ImapRoundTrip] reads back what is written here. *)

From S2P Require Import Prelude Effects Utf8 ImapMutf7 ImapMime.
From S2P Require Import ImapCommand.
From S2P Require ImapParser.

(** ** Out *)

Record Out := { out_bytes : list byte; out_utf8 : bool }.

Definition out_new (utf8 : bool) : Out := {| out_bytes := []; out_utf8 := utf8 |}.

Definition out_raw (text : list byte) (o : Out) : Out :=
  {| out_bytes := out_bytes o ++ text; out_utf8 := out_utf8 o |}.

Definition out_number (n : Z) : Out -> Out := out_raw (dec n).

(** [{n}] and the line break, then the data. *)
Definition literal_text (data : list byte) : list byte :=
  bs "{" ++ dec (Z.of_nat (length data)) ++ bs "}" ++ [x0d; x0a] ++ data.

Definition out_literal (data : list byte) : Out -> Out := out_raw (literal_text data).

(** A literal8 when the data holds a NUL, which no plain literal may. *)
Definition out_literal8 (data : list byte) : Out -> Out :=
  if decide (x00 ∈ data) then out_raw (bs "~" ++ literal_text data) else out_literal data.

Definition escape (data : list byte) : list byte :=
  data ≫= fun b => if decide (b = x22 \/ b = "\"%byte) then ["\"%byte; b] else [b].

Definition quoted_text (data : list byte) : list byte := x22 :: escape data ++ [x22].

(** Whether [string] quotes the data. *)
Definition quotable (utf8 : bool) (data : list byte) : bool :=
  let plain := forallb (fun b => negb (bool_decide (b ∈ [x00; x0d; x0a]))) data in
  let encoding_ok := forallb is_ascii data || (utf8 && bool_decide (is_Some (from_utf8 data))) in
  bool_decide (length data <= 1024)%nat && plain && encoding_ok.

(** A string as a quoted string when it can be one, as a literal otherwise. *)
Definition out_string (data : list byte) (o : Out) : Out :=
  if quotable (out_utf8 o) data then out_raw (quoted_text data) o else out_literal data o.

Definition out_nstring (data : option (list byte)) (o : Out) : Out :=
  match data with Some data => out_string data o | None => out_raw (bs "NIL") o end.

Definition out_mailbox (name : list byte) (o : Out) : Out :=
  if out_utf8 o then out_string name o else out_string (encode name) o.

(** ** Sets and flags *)

(** The inner loop of [sequence_set]: the numbers that follow [en] one by one. *)
Fixpoint run_end (en : Z) (rest : list Z) : Z * list Z :=
  match rest with
  | n :: rest' => if n =? (en + 1) `mod` 2 ^ 32 then run_end n rest' else (en, rest)
  | [] => (en, [])
  end.

Definition range_text (start en : Z) : list byte :=
  if start =? en then dec start else dec start ++ bs ":" ++ dec en.

Fixpoint sequence_set_text_loop (fuel : nat) (numbers : list Z) (out : list byte) : list byte :=
  match fuel, numbers with
  | S fuel', start :: rest =>
      let '(en, rest) := run_end start rest in
      let out := if decide (out = []) then out else out ++ bs "," in
      sequence_set_text_loop fuel' rest (out ++ range_text start en)
  | _, _ => out
  end.

(** [1:3,5,7:9] from sorted numbers: every turn of the loop takes one. *)
Definition sequence_set_text (numbers : list Z) : list byte :=
  sequence_set_text_loop (length numbers) numbers [].

Definition registered_flags : list (string * string) :=
  [("$seen", "\Seen"); ("$answered", "\Answered"); ("$flagged", "\Flagged"); ("$draft", "\Draft");
   ("$deleted", "\Deleted"); ("$forwarded", "$Forwarded"); ("$mdnsent", "$MDNSent"); ("$junk", "$Junk");
   ("$notjunk", "$NotJunk"); ("$phishing", "$Phishing"); ("$important", "$Important")]%string.

(** The arms of the [match] over a keyword, in order. *)
Definition imap_flag (keyword : list byte) : list byte :=
  match List.find (fun arm => ImapParser.is_word keyword arm.1) registered_flags with
  | Some arm => bs arm.2
  | None => keyword
  end.

Definition flags (keywords : list (list byte)) : list byte :=
  bs "(" ++ join (bs " ") (map imap_flag (List.filter ImapParser.valid_keyword keywords)) ++ bs ")".

(** ** ENVELOPE and BODYSTRUCTURE *)

Section structure.
(** [base64::encode]; the addresses mail-parser finds in a To field, each with its
    name and address when it has one. *)
Context (base64_encode : list byte -> list byte)
        (parse_to : list byte -> list (option (list byte) * option (list byte))).

Definition encoded_word (text : list byte) : list byte :=
  bs "=?utf-8?b?" ++ base64_encode text ++ bs "?=".

(** Non-ASCII goes out as an encoded word unless the client takes UTF-8. *)
Definition out_text (text : option (list byte)) (o : Out) : Out :=
  match text with
  | None => out_raw (bs "NIL") o
  | Some text =>
      if out_utf8 o || forallb is_ascii text then out_string text o
      else out_string (encoded_word text) o
  end.

(** Items with a separator between them. *)
Fixpoint out_separated {A} (item : A -> Out -> Out) (items : list A) (o : Out) : Out :=
  match items with
  | [] => o
  | [x] => item x o
  | x :: items' => out_separated item items' (out_raw (bs " ") (item x o))
  end.

Definition params_list (params : list (list byte * list byte)) (o : Out) : Out :=
  match params with
  | [] => out_raw (bs "NIL") o
  | _ =>
      out_raw (bs ")")
        (out_separated
           (fun '(name, value) o =>
              out_text (Some value) (out_raw (bs " ") (out_string (to_ascii_uppercase name) o)))
           params (out_raw (bs "(") o))
  end.

(** The addresses with their names, those without an address left out. *)
Definition address_list (value : list byte) : list (option (list byte) * list byte) :=
  omap (fun '(name, address) =>
          address ← address;
          let name := name ← name; (let n := trim name in if decide (n = []) then None else Some n) in
          Some (name, trim address))
       (parse_to (bs "To: " ++ value ++ [x0d; x0a; x0d; x0a])).

Definition out_address (entry : option (list byte) * list byte) (o : Out) : Out :=
  let '(name, email) := entry in
  let '(local, host) :=
    match rsplit_once "@"%byte email with
    | Some (local, host) => (local, Some host)
    | None => (email, None)
    end in
  out_raw (bs ")")
    (out_text host (out_raw (bs " ") (out_text (Some local) (out_raw (bs " NIL ")
      (out_text name (out_raw (bs "(") o)))))).

Definition addresses (value : option (list byte)) (o : Out) : Out :=
  match value with
  | Some value =>
      if decide (trim value = []) then out_raw (bs "NIL") o
      else
        match address_list value with
        | [] => out_raw (bs "NIL") o
        | entries => out_raw (bs ")") (foldl (fun o e => out_address e o) (out_raw (bs "(") o) entries)
        end
  | None => out_raw (bs "NIL") o
  end.

(** [or]: the first that is there. *)
Definition or_else {A} (a b : option A) : option A := match a with Some _ => a | None => b end.

Definition envelope_of (get : string -> option (list byte)) (o : Out) : Out :=
  let sp := out_raw (bs " ") in
  let from := get "From"%string in
  let o := out_raw (bs "(") o in
  let o := sp (out_nstring (get "Date"%string) o) in
  let o := sp (out_nstring (get "Subject"%string) o) in
  let o := sp (addresses from o) in
  let o := sp (addresses (or_else (get "Sender"%string) from) o) in
  let o := addresses (or_else (get "Reply-To"%string) from) o in
  let o := foldl (fun o name => addresses (get name) (sp o)) o ["To"; "Cc"; "Bcc"]%string in
  let o := sp (out_nstring (get "In-Reply-To"%string) (sp o)) in
  out_raw (bs ")") (out_nstring (get "Message-ID"%string) o).

Context {S : Type}.
Abbreviation R := (M S Empty_set).

(** ENVELOPE of a message header. *)
Definition envelope (raw : list byte) (header : Range) (o : Out) : R Out :=
  fs ← fields raw header; mret (envelope_of (field fs) o).

(** Disposition, language and location. *)
Definition extension (p : Part) (o : Out) : Out :=
  let o := out_raw (bs " ") o in
  let o :=
    match disposition p with
    | Some (kind, ps) =>
        out_raw (bs ")") (params_list ps (out_raw (bs " ") (out_string (to_ascii_uppercase kind)
          (out_raw (bs "(") o))))
    | None => out_raw (bs "NIL") o
    end in
  let o := out_raw (bs " ") o in
  let o :=
    match language p with
    | Some (tag :: tags) =>
        out_raw (bs ")") (out_separated out_string (tag :: tags) (out_raw (bs "(") o))
    | _ => out_raw (bs "NIL") o
    end in
  out_text (location p) (out_raw (bs " ") o).

(** The fields of a leaf before the part of it that depends on its type. *)
Definition leaf_start (p : Part) (o : Out) : Out :=
  let sp := out_raw (bs " ") in
  let o := sp (out_string (to_ascii_uppercase (media_type p)) o) in
  let o := sp (out_string (to_ascii_uppercase (subtype p)) o) in
  let o := sp (params_list (params p) o) in
  let o := sp (out_text (id p) o) in
  let o := sp (out_text (description p) o) in
  let o := sp (out_string (to_ascii_uppercase (default (bs "7bit") (encoding p))) o) in
  out_number (Z.of_nat ((ImapMime.body p).2 - (ImapMime.body p).1)) o.

(** BODY (without extension data) or BODYSTRUCTURE (with it). *)
Fixpoint body_structure (raw : list byte) (extended : bool) (p : Part) (o : Out) {struct p} : R Out :=
  let o := out_raw (bs "(") o in
  if is_multipart p then
    o ← (fix go (cs : list Part) (o : Out) : R Out :=
           match cs with
           | [] => mret o
           | c :: cs' => o ← body_structure raw extended c o; go cs' o
           end) (children p) o;
    let o := out_string (to_ascii_uppercase (subtype p)) (out_raw (bs " ") o) in
    let o := if extended then extension p (params_list (params p) (out_raw (bs " ") o)) else o in
    mret (out_raw (bs ")") o)
  else
    let o := leaf_start p o in
    o ← match message p with
        | Some m =>
            o ← envelope raw (ImapMime.header m) (out_raw (bs " ") o);
            o ← body_structure raw extended m (out_raw (bs " ") o);
            mret (out_number (Z.of_nat (lines p)) (out_raw (bs " ") o))
        | None =>
            mret (if decide (media_type p = bs "text")
                  then out_number (Z.of_nat (lines p)) (out_raw (bs " ") o) else o)
        end;
    let o := if extended then extension p (out_text (md5 p) (out_raw (bs " ") o)) else o in
    mret (out_raw (bs ")") o).

End structure.

(** ** Sections *)

Section sections.
Context {S : Type}.
Abbreviation R := (M S Empty_set).

(** HEADER.FIELDS and HEADER.FIELDS.NOT: the fields of those names, or the others. *)
Definition header_fields (raw : list byte) (header : Range) (names : list (list byte)) (keep : bool)
    : R (list byte) :=
  fs ← fields raw header;
  let wanted f := bool_decide (existsb (fun n => eq_ignore_ascii_case n (name f)) names = keep) in
  let line f := raw_field f ++ (if bool_decide (last (raw_field f) = Some x0a) then [] else [x0d; x0a]) in
  mret (concat (map line (List.filter wanted fs)) ++ [x0d; x0a]).

(** The bytes a section names, [None] when the message has no such part. The
    [unreachable!] of the source is the [panic]. *)
Definition section_bytes (raw : list byte) (root : Part) (section : BodySection) : R (option (list byte)) :=
  found ← find root (section_part section);
  match found with
  | None => mret None
  | Some part =>
      let of_message (header body : Range) :=
        match section_text section with
        | Some SectionText.Header => Some <$> index raw header
        | Some SectionText.Text => Some <$> index raw body
        | Some (SectionText.HeaderFields names) => Some <$> header_fields raw header names true
        | Some (SectionText.HeaderFieldsNot names) => Some <$> header_fields raw header names false
        | Some SectionText.Mime => panic
        | None => mret None
        end in
      match section_text section, section_part section with
      | None, [] => mret (Some raw)
      | None, _ => Some <$> index raw (ImapMime.body part)
      | Some SectionText.Mime, _ => Some <$> index raw (ImapMime.header part)
      | Some _, [] => of_message (ImapMime.header root) (ImapMime.body root)
      | Some _, _ =>
          match ImapMime.message part with
          | Some m => of_message (ImapMime.header m) (ImapMime.body m)
          | None => mret None
          end
      end
  end.
End sections.

(** [char::to_digit(16)] *)
Definition hex (b : byte) : option Z :=
  if is_ascii_digit b then Some (bz b - 48)
  else if (97 <=? bz b) && (bz b <=? 102) then Some (bz b - 87)
  else if (65 <=? bz b) && (bz b <=? 70) then Some (bz b - 55)
  else None.

Fixpoint quoted_printable (body : list byte) : list byte :=
  match body with
  | [] => []
  | b :: rest =>
      if decide (b <> "="%byte) then b :: quoted_printable rest
      else
        match rest with
        | high :: rest1 =>
            match rest1 with
            | low :: rest2 =>
                if decide (high = x0d /\ low = x0a) then quoted_printable rest2
                else if decide (high = x0a) then quoted_printable rest1
                else match hex high, hex low with
                     | Some h, Some l => zb (h * 16 + l) :: quoted_printable rest2
                     | _, _ => "="%byte :: quoted_printable rest
                     end
            | [] => if decide (high = x0a) then quoted_printable rest1 else "="%byte :: quoted_printable rest
            end
        | [] => "="%byte :: quoted_printable rest
        end
  end.

Section binary.
Context {S : Type} (base64_decode : list byte -> option (list byte)).

(** A part with its content transfer encoding undone, empty when the message has no
    such part, [None] when the encoding is not known. *)
Definition binary_bytes (raw : list byte) (root : Part) (part : list Z) : M S Empty_set (option (list byte)) :=
  if decide (part = []) then mret (Some raw)
  else
    found ← find root part;
    match found with
    | None => mret (Some [])
    | Some found =>
        body ← index raw (ImapMime.body found);
        mret
          (match to_ascii_lowercase <$> encoding found with
           | None => Some body
           | Some e =>
               if ImapParser.is_word e "7bit" || ImapParser.is_word e "8bit" || ImapParser.is_word e "binary"
               then Some body
               else if ImapParser.is_word e "base64"
               then Some (default [] (base64_decode (List.filter (fun b => negb (is_ascii_whitespace b)) body)))
               else if ImapParser.is_word e "quoted-printable" then Some (quoted_printable body)
               else None
           end)
    end.
End binary.

(** [BINARY[1.2]] *)
Definition binary_label (part : list Z) : list byte :=
  bs "BINARY[" ++ join (bs ".") (map dec part) ++ bs "]".

Definition quote_field (name : list byte) : list byte :=
  if bool_decide (name <> [])
     && forallb (fun b => is_ascii_alphanumeric b || bool_decide (b = "-"%byte) || bool_decide (b = "_"%byte)) name
  then to_ascii_uppercase name
  else [x22] ++ replace [x22] (bs "\" ++ [x22]) (replace (bs "\") (bs "\\") name) ++ [x22].

Definition section_text_label (text : SectionText) : list byte :=
  match text with
  | SectionText.Header => bs "HEADER"
  | SectionText.Text => bs "TEXT"
  | SectionText.Mime => bs "MIME"
  | SectionText.HeaderFields names =>
      bs "HEADER.FIELDS (" ++ join (bs " ") (map quote_field names) ++ bs ")"
  | SectionText.HeaderFieldsNot names =>
      bs "HEADER.FIELDS.NOT (" ++ join (bs " ") (map quote_field names) ++ bs ")"
  end.

(** How a section is named in the answer, like [BODY[1.2.HEADER.FIELDS (FROM)]<0>]. *)
Definition section_label (section : BodySection) (origin : option Z) : list byte :=
  let parts := map dec (section_part section) in
  bs "BODY[" ++ join (bs ".") parts
  ++ match section_text section with
     | Some text => (if decide (parts = []) then [] else bs ".") ++ section_text_label text
     | None => []
     end
  ++ bs "]"
  ++ match origin with Some o => bs "<" ++ dec o ++ bs ">" | None => [] end.

Example sequence_set_text_example :
  sequence_set_text [1; 2; 3; 5; 7; 8; 9] = bs "1:3,5,7:9".
Proof. vm_compute. reflexivity. Qed.

Example flags_leave_out_keywords_that_are_no_atoms :
  flags [bs "$seen"; bs "a" ++ [x0d; x0a] ++ bs "* BYE x"; bs "x)"; bs "project-x"; bs "two words"]
  = bs "(\Seen project-x)".
Proof. vm_compute. reflexivity. Qed.

Example section_label_fields :
  section_label {| section_part := [1; 2]; section_text := Some (SectionText.HeaderFields [bs "from"; bs "a b"]) |}
    (Some 0) = bs "BODY[1.2.HEADER.FIELDS (FROM " ++ [x22] ++ bs "a b" ++ [x22] ++ bs ")]<0>".
Proof. vm_compute. reflexivity. Qed.

(** A field name is written as the client gave it, line breaks included. *)
Example section_label_line_break :
  section_label {| section_part := []; section_text := Some (SectionText.HeaderFields [bs "To" ++ [x0d; x0a] ++ bs "* BYE"]) |} None
  = bs "BODY[HEADER.FIELDS (" ++ [x22] ++ bs "To" ++ [x0d; x0a] ++ bs "* BYE" ++ [x22] ++ bs ")]".
Proof. reflexivity. Qed.
