(* ===== verification/ImapRoundTrip.v ===== *)
(** * What the response writer writes, the parser reads

    [reads m text a follow]: a method of the parser, started where [text] begins,
    returns [a] and stops behind [text], whatever is before and after it, as long as
    what follows satisfies [follow]. From the tokens up to strings, mailbox names,
    sequence sets and flag lists. *)

From Stdlib Require Import Sorting.Sorted.
From S2P Require Import Prelude Effects Utf8 ImapCommand ImapMutf7 ImapParser ImapParserSafe.
From S2P Require Import ImapResponse.

Definition reads {A} (m : list byte -> M parser (list byte) A) (text : list byte) (a : A)
    (follow : list byte -> Prop) : Prop :=
  forall pre post s, follow post -> pos s = length pre ->
    Z.of_nat (length (pre ++ text ++ post)) <= u64_max ->
    m (pre ++ text ++ post) s = (Ok a, set_pos (length pre + length text) s).

Definition anything (post : list byte) : Prop := True.

(** The first byte, if there is one, fails the test. *)
Definition no_more (p : byte -> bool) (post : list byte) : Prop :=
  match post with b :: _ => p b = false | [] => True end.

#[local] Arguments set_pos _ _ : simpl never.
#[local] Arguments escape _ : simpl never.

Lemma lookup_here (pre post : list byte) b : (pre ++ b :: post) !! length pre = Some b.
Proof. rewrite lookup_app_r by lia. by rewrite Nat.sub_diag. Qed.

Lemma lookup_next (pre post : list byte) : (pre ++ post) !! length pre = head post.
Proof. rewrite lookup_app_r by lia. rewrite Nat.sub_diag. by destruct post. Qed.

Lemma set_pos_set_pos a b s : set_pos a (set_pos b s) = set_pos a s.
Proof. done. Qed.

Lemma pos_set_pos n s : pos (set_pos n s) = n.
Proof. done. Qed.

Lemma set_pos_id s : set_pos (pos s) s = s.
Proof. by destruct s. Qed.

(** Two methods one after the other read two texts one after the other. *)
Lemma reads_bind {A B} m (k : A -> list byte -> M parser (list byte) B) t1 t2 a b (f1 f2 : list byte -> Prop) :
  reads m t1 a f1 -> reads (k a) t2 b f2 -> (forall post, f2 post -> f1 (t2 ++ post)) ->
  reads (fun input => x ← m input; k x input) (t1 ++ t2) b f2.
Proof.
  intros Hm Hk Hf pre post s Hpost Hpos Hlen. unfold mbind, M_bind.
  rewrite <- app_assoc in *. rewrite (Hm pre (t2 ++ post) s); [|by apply Hf|done|done].
  rewrite (app_assoc pre). rewrite (Hk (pre ++ t1) post); [|done|rewrite length_app; simpl; lia|].
  - rewrite set_pos_set_pos. do 2 f_equal. rewrite !length_app. lia.
  - by rewrite <- app_assoc.
Qed.

Lemma reads_ret {A} (a : A) : reads (fun _ => mret a) [] a anything.
Proof. intros pre post s _ Hpos _. simpl. by rewrite Nat.add_0_r, <- Hpos, set_pos_id. Qed.

Lemma reads_weaken {A} (m : list byte -> M parser (list byte) A) t a (f f' : list byte -> Prop) :
  (forall post, f' post -> f post) -> reads m t a f -> reads m t a f'.
Proof. intros Hf Hm pre post s Hpost. apply Hm. auto. Qed.

(** A method whose result is turned into another. *)
Lemma reads_map {A B} m (g : A -> B) t a f :
  reads m t a f -> reads (fun input => x ← m input; mret (g x)) t (g a) f.
Proof.
  intros Hm pre post s Hpost Hpos Hlen. unfold mbind, M_bind. by rewrite (Hm pre post s).
Qed.

Lemma reads_byte b : reads (fun input => byte_ input b) [b] tt anything.
Proof.
  intros pre post s _ Hpos _. unfold byte_, peek, mbind, M_bind. cbn. rewrite Hpos.
  rewrite lookup_here. rewrite decide_True by done. unfold advance, modify. by rewrite Hpos.
Qed.

Lemma reads_sp : reads (fun input => sp input) [" "%byte] tt anything.
Proof. intros pre post s H1 H2 H3. unfold sp, map_err. by rewrite (reads_byte " "%byte pre post s). Qed.

Lemma reads_eat_true b : reads (fun input => eat input b) [b] true anything.
Proof. intros pre post s H1 H2 H3. unfold eat, is_ok. by rewrite (reads_byte b pre post s). Qed.

Lemma reads_eat_false b : reads (fun input => eat input b) [] false (fun post => head post <> Some b).
Proof.
  intros pre post s H1 Hpos _. unfold eat, is_ok, byte_, peek, mbind, M_bind. cbn. rewrite Hpos, lookup_next.
  rewrite decide_False by done. cbn. by rewrite Nat.add_0_r, <- Hpos, set_pos_id.
Qed.

(** [peek], which reads nothing: the text it looks at follows. *)
Lemma peek_here input pre b post s :
  input = pre ++ b :: post -> pos s = length pre -> peek input s = (Ok (Some b), s).
Proof. intros -> Hpos. unfold peek, mbind, M_bind. cbn. by rewrite Hpos, lookup_here. Qed.

Lemma skip_while_fuel_run p text pre post s fuel :
  Forall (fun b => p b = true) text -> no_more p post -> pos s = length pre -> (length text < fuel)%nat ->
  skip_while_fuel (pre ++ text ++ post) fuel p s = (Ok tt, set_pos (length pre + length text) s).
Proof.
  intros Hall Hpost. revert pre s fuel. induction Hall as [|b text Hb _ IH]; intros pre s fuel Hpos Hf.
  - destruct fuel as [|fuel]; [simpl in Hf; lia|]. cbn [skip_while_fuel].
    unfold peek_test, peek, mbind, M_bind. cbn. rewrite Hpos, lookup_next.
    destruct post as [|b post]; cbn; [|rewrite Hpost]; cbn; by rewrite Nat.add_0_r, <- Hpos, set_pos_id.
  - destruct fuel as [|fuel]; [simpl in Hf; lia|]. cbn [skip_while_fuel].
    unfold peek_test, peek, mbind, M_bind. cbn. rewrite Hpos, lookup_here. cbn. rewrite Hb. cbn.
    specialize (IH (pre ++ [b]) (set_pos (pos s + 1) s) fuel). rewrite <- app_assoc in IH. cbn in IH.
    rewrite Hpos in IH |- *. rewrite IH; [|by rewrite length_app|cbn in Hf; lia].
    rewrite set_pos_set_pos, length_app. do 2 f_equal. cbn. lia.
Qed.

Lemma reads_skip_while p text :
  Forall (fun b => p b = true) text -> reads (fun input => skip_while input p) text tt (no_more p).
Proof.
  intros Hall pre post s Hpost Hpos _. apply skip_while_fuel_run; auto.
  unfold input_fuel. rewrite !length_app. lia.
Qed.

Lemma taken_since_run pre text post s :
  pos s = (length pre + length text)%nat ->
  taken_since (pre ++ text ++ post) (length pre) s = (Ok text, s).
Proof.
  intros Hpos. unfold taken_since, mbind, M_bind. cbn. rewrite Hpos. unfold get_slice.
  rewrite decide_True by (rewrite !length_app; lia). by rewrite slice_app.
Qed.

(** ** Numbers *)

Lemma dec_digits_length fuel n acc k :
  0 <= n < 10 ^ Z.of_nat k -> (0 < k)%nat -> (length (dec_digits fuel n acc) <= k + length acc)%nat.
Proof.
  revert n acc k. induction fuel as [|fuel IH]; intros n acc k Hn Hk; [cbn; lia|]. cbn [dec_digits].
  destruct (n / 10 =? 0) eqn:E; [cbn; lia|]. destruct k as [|[|k]]; [lia| |].
  - change (10 ^ Z.of_nat 1) with 10 in Hn. exfalso. dlia.
  - specialize (IH (n / 10) (digit_byte (n `mod` 10) :: acc) (S k)). cbn [length] in IH.
    assert (0 <= n / 10 < 10 ^ Z.of_nat (S k)); [|lia].
    rewrite (Nat2Z.inj_succ (S k)), Z.pow_succ_r in Hn by lia. dlia.
Qed.

Lemma dec_length_u64 n : 0 <= n <= u64_max -> (length (dec n) <= 20)%nat.
Proof.
  intros Hn. pose proof (dec_digits_length (S (Z.to_nat (Z.log2 n))) n [] 20) as H. cbn [length] in H.
  unfold dec. unfold u64_max in Hn. change (10 ^ Z.of_nat 20) with 100000000000000000000 in H. lia.
Qed.

Lemma from_utf8_ascii s : Forall (fun b => is_ascii b = true) s -> from_utf8 s = Some s.
Proof. intros H. unfold from_utf8. by rewrite chars_ascii. Qed.

Lemma is_ascii_digit_ascii b : is_ascii_digit b = true -> is_ascii b = true.
Proof. by_bytes b. Qed.

(** Any run of digits, leading zeros and all. *)
Lemma reads_digits digits n :
  digits <> [] -> (length digits <= 20)%nat -> Forall (fun b => is_ascii_digit b = true) digits ->
  parse_unsigned u64_max digits = Some n ->
  reads (fun input => number input) digits n (no_more is_ascii_digit).
Proof.
  intros Hne Hl Hall Hn pre post s Hpost Hpos Hlen.
  unfold number, position_now, mbind, M_bind. cbn [get mret M_ret].
  rewrite Hpos. rewrite (reads_skip_while is_ascii_digit digits) by auto.
  rewrite taken_since_run by done.
  rewrite from_utf8_ascii by (eapply Forall_impl; [exact Hall | apply is_ascii_digit_ascii]).
  cbn [option_bind]. rewrite decide_True by done. by rewrite Hn.
Qed.

Lemma reads_number n :
  0 <= n <= u64_max -> reads (fun input => number input) (dec n) n (no_more is_ascii_digit).
Proof.
  intros Hn. apply reads_digits; auto using dec_nonempty, dec_length_u64, parse_unsigned_dec.
  apply dec_all_digits. lia.
Qed.

(** ** Strings *)

Definition no_line_break (data : list byte) : Prop := Forall (fun b => b <> x0d /\ b <> x0a) data.

Lemma escape_cons b data :
  escape (b :: data) = (if decide (b = x22 \/ b = "\"%byte) then ["\"%byte; b] else [b]) ++ escape data.
Proof. done. Qed.

Lemma quoted_loop_end input fuel value s :
  input !! pos s = Some x22 -> quoted_loop input (S fuel) value s = (Ok value, set_pos (pos s + 1) s).
Proof.
  intros H. cbn [quoted_loop]. unfold peek, mbind, M_bind. cbn [get mret M_ret]. rewrite H.
  by rewrite decide_True by done.
Qed.

Lemma quoted_loop_escaped input fuel value s b :
  input !! pos s = Some "\"%byte -> input !! (pos s + 1)%nat = Some b -> b = x22 \/ b = "\"%byte ->
  quoted_loop input (S fuel) value s = quoted_loop input fuel (value ++ [b]) (set_pos (pos s + 2) s).
Proof.
  intros H1 H2 Hb. cbn [quoted_loop]. unfold peek, advance, modify, mbind, M_bind. cbn [get mret M_ret].
  rewrite H1. rewrite decide_False by done. rewrite decide_True by done. cbn [get mret M_ret].
  change (pos (set_pos (pos s + 1) s)) with (pos s + 1)%nat. rewrite H2, decide_True by done.
  rewrite set_pos_set_pos. change (pos (set_pos (pos s + 1) s)) with (pos s + 1)%nat.
  by replace (pos s + 1 + 1)%nat with (pos s + 2)%nat by lia.
Qed.

Lemma quoted_loop_plain input fuel value s b :
  input !! pos s = Some b -> b <> x22 -> b <> "\"%byte -> b <> x0d -> b <> x0a ->
  quoted_loop input (S fuel) value s = quoted_loop input fuel (value ++ [b]) (set_pos (pos s + 1) s).
Proof.
  intros H1 H2 H3 H4 H5. cbn [quoted_loop]. unfold peek, advance, modify, mbind, M_bind. cbn [get mret M_ret].
  rewrite H1. by rewrite !decide_False by naive_solver.
Qed.

Lemma quoted_loop_run data pre post s value fuel :
  no_line_break data -> pos s = length pre -> (length (escape data) < fuel)%nat ->
  quoted_loop (pre ++ escape data ++ x22 :: post) fuel value s
  = (Ok (value ++ data), set_pos (length pre + length (escape data) + 1) s).
Proof.
  intros Hd. revert pre s value fuel. induction Hd as [|b data [Hcr Hlf] _ IH]; intros pre s value fuel Hpos Hf;
    (destruct fuel as [|fuel]; [simpl in Hf; lia|]).
  - rewrite quoted_loop_end by (rewrite Hpos; apply lookup_here).
    by rewrite app_nil_r, Nat.add_0_r, Hpos.
  - rewrite escape_cons in Hf |- *. rewrite length_app in Hf |- *.
    specialize (IH (pre ++ if decide (b = x22 \/ b = "\"%byte) then ["\"%byte; b] else [b])).
    destruct (decide (b = x22 \/ b = "\"%byte)) as [Hb|Hb]; cbn [app length] in *.
    + rewrite (quoted_loop_escaped _ _ _ _ b); [|rewrite Hpos; apply lookup_here| |done].
      * rewrite <- (app_assoc pre) in IH. cbn [app] in IH. rewrite IH; [|rewrite pos_set_pos, length_app; cbn; lia|lia].
        rewrite set_pos_set_pos, length_app, <- app_assoc. do 2 f_equal. cbn. lia.
      * rewrite Hpos, lookup_app_r by lia. by replace (length pre + 1 - length pre)%nat with 1%nat by lia.
    + apply Decidable.not_or in Hb as [Hq Hs]. rewrite (quoted_loop_plain _ _ _ _ b); auto; [|rewrite Hpos; apply lookup_here].
      rewrite <- (app_assoc pre) in IH. cbn [app] in IH. rewrite IH; [|rewrite pos_set_pos, length_app; cbn; lia|lia].
      rewrite set_pos_set_pos, length_app, <- app_assoc. do 2 f_equal. cbn. lia.
Qed.

Lemma reads_quoted data :
  no_line_break data -> reads (fun input => quoted input) (quoted_text data) data anything.
Proof.
  intros Hd. unfold quoted_text. change (x22 :: escape data ++ [x22]) with ([x22] ++ (escape data ++ [x22])).
  unfold quoted. eapply reads_bind; [apply reads_byte | | done].
  intros pre post s _ Hpos _. rewrite <- app_assoc. cbn [app]. rewrite quoted_loop_run; [|done..|].
  - cbn. do 2 f_equal. rewrite length_app. cbn. lia.
  - unfold input_fuel. rewrite !length_app. cbn. lia.
Qed.

(** What [literal] does after the line break: the announced bytes are the value. *)
Lemma reads_literal_data data :
  reads (fun input => s ← get;
      let start := pos s in
      if u64_max <? Z.of_nat start + Z.of_nat (length data)
      then throw (bs "the literal is longer than this server can hold")
      else if Z.of_nat (length input) <? Z.of_nat start + Z.of_nat (length data)
      then throw (bs "the literal is shorter than announced")
      else advance (Z.to_nat (Z.of_nat (length data)));;
        mret (slice input start (start + Z.to_nat (Z.of_nat (length data)))))
    data data anything.
Proof.
  intros pre post s _ Hpos Hlen. unfold mbind, M_bind, advance, modify. cbn -[Z.ltb Z.add]. rewrite !Hpos.
  rewrite !length_app in Hlen. destruct (Z.ltb_spec u64_max (Z.of_nat (length pre) + Z.of_nat (length data))); [lia|].
  rewrite !length_app.
  destruct (Z.ltb_spec (Z.of_nat (length pre + (length data + length post)))
    (Z.of_nat (length pre) + Z.of_nat (length data))); [lia|].
  cbn. rewrite Hpos, Nat2Z.id. by rewrite slice_app.
Qed.

Lemma reads_literal data :
  reads (fun input => literal input) (literal_text data) data anything.
Proof.
  intros pre post s Hpost Hpos Hlen.
  assert (Hsize : 0 <= Z.of_nat (length data) <= u64_max).
  { unfold literal_text in Hlen. rewrite !length_app in Hlen. cbn in Hlen. lia. }
  assert (H : reads (fun input => literal input)
    (["{"%byte] ++ dec (Z.of_nat (length data)) ++ [] ++ ["}"%byte] ++ [x0d] ++ [x0a] ++ data) data anything);
    [|by apply H].
  unfold literal.
  eapply reads_bind; [apply reads_byte | | done]. cbv beta.
  eapply reads_bind; [by apply reads_number | | done]. cbv beta.
  eapply reads_bind; [apply reads_eat_false | | done]. cbv beta.
  eapply reads_bind; [apply reads_byte | | done]. cbv beta.
  eapply reads_bind; [apply reads_eat_true | | done]. cbv beta iota.
  eapply reads_bind; [apply reads_byte | | done]. cbv beta.
  apply reads_literal_data.
Qed.

(** The parser's [string] reads what [Out::string] wrote. *)
Definition string_text (utf8 : bool) (data : list byte) : list byte :=
  if quotable utf8 data then quoted_text data else literal_text data.

Lemma out_string_text data o : out_string data o = out_raw (string_text (out_utf8 o) data) o.
Proof. unfold out_string, string_text, out_literal. by destruct (quotable _ _). Qed.

Lemma quotable_no_line_break utf8 data : quotable utf8 data = true -> no_line_break data.
Proof.
  unfold quotable. intros [[_ Hp]%andb_prop _]%andb_prop. apply Forall_forall. intros b Hb.
  rewrite forallb_forall in Hp. apply list_elem_of_In in Hb. specialize (Hp b Hb).
  apply negb_true_iff, bool_decide_eq_false in Hp. set_solver.
Qed.

Lemma reads_string utf8 data : reads (fun input => string_ input) (string_text utf8 data) data anything.
Proof.
  unfold string_text. destruct (quotable utf8 data) eqn:E.
  - intros pre post s H1 H2 H3. unfold string_, mbind, M_bind.
    rewrite (peek_here _ pre x22 ((escape data ++ [x22]) ++ post) s); [|done..].
    rewrite decide_True by done. apply reads_quoted; eauto using quotable_no_line_break.
  - intros pre post s H1 H2 H3. unfold string_, mbind, M_bind.
    rewrite (peek_here _ pre "{"%byte ((dec (Z.of_nat (length data)) ++ bs "}" ++ [x0d; x0a] ++ data) ++ post) s);
      [|done..].
    rewrite decide_False by done. rewrite decide_True by done. by apply reads_literal.
Qed.

Lemma reads_astring_bytes utf8 data :
  reads (fun input => astring_bytes input) (string_text utf8 data) data anything.
Proof.
  intros pre post s H1 H2 H3. unfold astring_bytes, mbind, M_bind.
  assert (Hpeek : exists b, peek (pre ++ string_text utf8 data ++ post) s = (Ok (Some b), s) /\
    (Some b = Some x22 \/ Some b = Some "{"%byte)).
  { unfold string_text. destruct (quotable utf8 data).
    - exists x22. split; [|by left]. by apply (peek_here _ pre x22 ((escape data ++ [x22]) ++ post)).
    - exists "{"%byte. split; [|by right]. by eapply (peek_here _ pre "{"%byte). }
  destruct Hpeek as (b & -> & Hb). rewrite decide_True by done. by apply reads_string.
Qed.

(** ** Mailbox names *)

(** [INBOX] in any case is the inbox. *)
Definition normalised (name : list byte) : list byte :=
  if eq_ignore_ascii_case name (bs "INBOX") then bs "INBOX" else name.

Definition mailbox_text (utf8 : bool) (name : list byte) : list byte :=
  if utf8 then string_text true name else string_text false (encode name).

Lemma out_mailbox_text name o : out_mailbox name o = out_raw (mailbox_text (out_utf8 o) name) o.
Proof. unfold out_mailbox, mailbox_text. destruct (out_utf8 o) eqn:E; by rewrite out_string_text, E. Qed.

Lemma reads_mailbox utf8 name cs :
  chars name = Some cs -> reads (fun input => mailbox input utf8) (mailbox_text utf8 name) (normalised name) anything.
Proof.
  intros Hname pre post s H1 H2 H3. unfold mailbox, mailbox_text, mbind, M_bind in *.
  assert (Hutf8 : from_utf8 name = Some name) by (unfold from_utf8; by rewrite Hname).
  assert (Hascii : from_utf8 (encode name) = Some (encode name)).
  { apply from_utf8_ascii. eapply Forall_impl; [apply encode_printable|].
    unfold printable, is_ascii. intros b Hb. lia. }
  destruct utf8; rewrite reads_astring_bytes by done; unfold mailbox_name, mbind, M_bind.
  - by rewrite Hutf8.
  - rewrite Hascii. unfold ok_or. cbn [mret M_ret]. by rewrite (decode_encode name cs).
Qed.

(** ** Sequence sets *)

(** The ranges of [sequence_set_text]. *)
Fixpoint runs (fuel : nat) (numbers : list Z) : list (Z * Z) :=
  match fuel, numbers with
  | S fuel', start :: rest => let '(en, rest) := run_end start rest in (start, en) :: runs fuel' rest
  | _, _ => []
  end.

Definition runs_text (rs : list (Z * Z)) : list byte := join (bs ",") (map (fun r => range_text r.1 r.2) rs).

Lemma range_text_nonempty a b : range_text a b <> [].
Proof.
  unfold range_text. destruct (a =? b); [apply dec_nonempty|]. intros [H _]%app_nil. by apply dec_nonempty in H.
Qed.

Lemma join_cons (sep p : list byte) ps : join sep (p :: ps) = p ++ concat (map (fun q => sep ++ q) ps).
Proof.
  revert p. induction ps as [|q ps IH]; intros p; [cbn; by rewrite app_nil_r|].
  change (join sep (p :: q :: ps)) with (p ++ sep ++ join sep (q :: ps)). rewrite IH. cbn. by rewrite <- app_assoc.
Qed.

(** The ranges after the first, each with its comma. *)
Definition more_text (rs : list (Z * Z)) : list byte := concat (map (fun r => bs "," ++ range_text r.1 r.2) rs).

Lemma runs_text_cons r rs : runs_text (r :: rs) = range_text r.1 r.2 ++ more_text rs.
Proof. unfold runs_text, more_text. cbn [map]. by rewrite join_cons, map_map. Qed.

Lemma sequence_set_text_loop_more fuel numbers out :
  out <> [] -> sequence_set_text_loop fuel numbers out = out ++ more_text (runs fuel numbers).
Proof.
  revert numbers out. induction fuel as [|fuel IH]; intros [|start rest] out Hout;
    try (cbn; by rewrite app_nil_r). cbn [sequence_set_text_loop runs].
  destruct (run_end start rest) as [en rest']. rewrite decide_False by done. rewrite IH.
  - unfold more_text. cbn [map concat fst snd]. by rewrite <- !app_assoc.
  - by intros [[? _]%app_nil _]%app_nil.
Qed.

Lemma sequence_set_text_runs numbers :
  sequence_set_text numbers = runs_text (runs (length numbers) numbers).
Proof.
  unfold sequence_set_text. destruct numbers as [|start rest]; [done|].
  cbn [length sequence_set_text_loop runs]. destruct (run_end start rest) as [en rest'].
  rewrite decide_True by done. cbn [app]. rewrite sequence_set_text_loop_more by apply range_text_nonempty.
  by rewrite runs_text_cons.
Qed.

(** What may follow a set. *)
Definition set_follow : list byte -> Prop :=
  no_more (fun b => is_ascii_digit b || bool_decide (b = ":"%byte) || bool_decide (b = ","%byte)).

Definition set_of (rs : list (Z * Z)) : SequenceSet := map (fun r => (SeqNum.Value r.1, SeqNum.Value r.2)) rs.

Lemma dec_head n : 0 <= n -> exists b t, dec n = b :: t /\ is_ascii_digit b = true.
Proof.
  intros Hn. pose proof (dec_all_digits n Hn) as H. pose proof (dec_nonempty n).
  destruct (dec n) as [|b t]; [done|]. apply Forall_cons in H as [Hb _]. by exists b, t.
Qed.

Lemma reads_nz_number32 n :
  1 <= n <= u32_max -> reads (fun input => nz_number32 input) (dec n) n (no_more is_ascii_digit).
Proof.
  intros Hn pre post s H1 H2 H3. unfold nz_number32, mbind, M_bind. unfold u32_max in Hn.
  rewrite reads_number by (unfold u64_max; auto; lia).
  destruct (Z.leb_spec 1 n), (Z.leb_spec n 0xffffffff); try lia. done.
Qed.

(** Nothing is taken when the byte is not there; the text may follow. *)
Lemma eat_not_here pre text post b c s t :
  text = c :: t -> b <> c -> pos s = length pre -> eat (pre ++ text ++ post) b s = (Ok false, s).
Proof.
  intros -> Hbc Hpos. unfold eat, is_ok, byte_, mbind, M_bind.
  rewrite (peek_here _ pre c (t ++ post)) by done. rewrite decide_False by congruence. done.
Qed.

Lemma reads_seq_num n :
  1 <= n <= u32_max -> reads (fun input => seq_num input) (dec n) (SeqNum.Value n) (no_more is_ascii_digit).
Proof.
  intros Hn pre post s H1 H2 H3. destruct (dec_head n) as (b & t & Ht & Hb); [lia|].
  unfold seq_num, mbind, M_bind.
  rewrite (eat_not_here pre (dec n) post _ b s t) by (auto; by intros <-).
  by rewrite reads_nz_number32.
Qed.

Lemma no_more_weaken (p q : byte -> bool) post :
  (forall b, q b = true -> p b = true) -> no_more p post -> no_more q post.
Proof.
  destruct post as [|b post]; [done|]. cbn. intros Hpq Hp. destruct (q b) eqn:E; [|done].
  apply Hpq in E. congruence.
Qed.

Lemma no_more_head p post b : no_more p post -> p b = true -> head post <> Some b.
Proof. destruct post; [done|]. cbn. intros ?? [= ->]. congruence. Qed.

(** [bind] of a step whose outcome is known. *)
Lemma bind_Ok {S E A B} (m : M S E A) (k : A -> M S E B) s a s' :
  m s = (Ok a, s') -> (m ≫= k) s = k a s'.
Proof. unfold mbind, M_bind. by intros ->. Qed.

Lemma sequence_set_loop_step a b pre rest s acc fuel :
  1 <= a <= b -> b <= u32_max -> pos s = length pre ->
  no_more (fun c => is_ascii_digit c || bool_decide (c = ":"%byte)) rest ->
  Z.of_nat (length (pre ++ range_text a b ++ rest)) <= u64_max ->
  let input := pre ++ range_text a b ++ rest in
  sequence_set_loop input (S fuel) acc s =
  (comma ← eat input ","%byte;
   let acc' := acc ++ [(SeqNum.Value a, SeqNum.Value b)] in
   if (comma : bool) then sequence_set_loop input fuel acc' else mret acc')
    (set_pos (length pre + length (range_text a b)) s).
Proof.
  intros Hab Hb Hpos Hrest Hlen input. subst input. cbn [sequence_set_loop]. unfold range_text in *.
  assert (Hdig : no_more is_ascii_digit rest) by (eapply no_more_weaken; [|exact Hrest]; intros c Hc; cbn; by rewrite Hc).
  destruct (Z.eqb_spec a b) as [->|Hne].
  - erewrite bind_Ok; [|apply reads_seq_num; [lia|done..]].
    erewrite bind_Ok.
    2: { rewrite (app_assoc pre). apply (reads_eat_false ":"%byte (pre ++ dec b) rest); [|by rewrite pos_set_pos, length_app|].
         - eapply no_more_head; [exact Hrest|]. reflexivity.
         - by rewrite <- app_assoc. }
    erewrite bind_Ok by reflexivity. rewrite set_pos_set_pos, length_app. cbn [length]. by rewrite Nat.add_0_r.
  - rewrite <- !app_assoc in *. cbn [app bs] in *.
    erewrite bind_Ok; [|apply reads_seq_num; [lia|done..]].
    rewrite (app_assoc pre (dec a)).
    erewrite bind_Ok.
    2: { apply (reads_eat_true ":"%byte (pre ++ dec a) (dec b ++ rest));
           [done | by rewrite pos_set_pos, length_app | by rewrite <- app_assoc]. }
    rewrite set_pos_set_pos. change (?x ++ ":"%byte :: ?y) with (x ++ [":"%byte] ++ y). rewrite (app_assoc _ [":"%byte]).
    erewrite bind_Ok.
    2: { apply (reads_seq_num b); [lia|exact Hdig | rewrite pos_set_pos, !length_app; done |
         by rewrite <- !app_assoc]. }
    rewrite set_pos_set_pos, !length_app. cbn [length]. by rewrite !Nat.add_assoc.
Qed.

Definition ranges_ok (rs : list (Z * Z)) : Prop := Forall (fun r => 1 <= r.1 <= r.2 /\ r.2 <= u32_max) rs.

Lemma more_text_cons r rs : more_text (r :: rs) = ","%byte :: range_text r.1 r.2 ++ more_text rs.
Proof. done. Qed.

Lemma sequence_set_loop_run rs r pre post s acc fuel :
  ranges_ok (r :: rs) -> set_follow post -> pos s = length pre -> (length rs < fuel)%nat ->
  Z.of_nat (length (pre ++ (range_text r.1 r.2 ++ more_text rs) ++ post)) <= u64_max ->
  sequence_set_loop (pre ++ (range_text r.1 r.2 ++ more_text rs) ++ post) fuel acc s
  = (Ok (acc ++ set_of (r :: rs)), set_pos (length pre + length (range_text r.1 r.2 ++ more_text rs)) s).
Proof.
  revert r pre s acc fuel. induction rs as [|r' rs IH]; intros r pre s acc fuel Hok Hpost Hpos Hf Hlen;
    apply Forall_cons in Hok as [[Hr1 Hr2] Hok]; (destruct fuel as [|fuel]; [cbn in Hf; lia|]).
  - cbn [more_text map concat] in *. rewrite app_nil_r in *.
    rewrite sequence_set_loop_step; auto; [|eapply no_more_weaken; [|exact Hpost]; intros c Hc; cbn; apply orb_prop in Hc as [Hc|Hc]; rewrite Hc; by rewrite ?orb_true_r].
    erewrite bind_Ok.
    2: { rewrite (app_assoc pre). apply (reads_eat_false ","%byte (pre ++ range_text r.1 r.2) post);
           [|by rewrite pos_set_pos, length_app | by rewrite <- app_assoc].
         eapply no_more_head; [exact Hpost|]. reflexivity. }
    rewrite set_pos_set_pos, length_app. cbn. by rewrite Nat.add_0_r.
  - rewrite more_text_cons in *. rewrite <- (app_assoc (range_text r.1 r.2)) in *. cbn [app] in *.
    rewrite sequence_set_loop_step; auto; [|reflexivity].
    set (rest := (range_text r'.1 r'.2 ++ more_text rs) ++ post) in *.
    erewrite bind_Ok.
    2: { rewrite (app_assoc pre). apply (reads_eat_true ","%byte (pre ++ range_text r.1 r.2) rest);
           [done | by rewrite pos_set_pos, length_app | by rewrite <- app_assoc]. }
    rewrite set_pos_set_pos. cbv zeta iota.
    assert (Hassoc : pre ++ range_text r.1 r.2 ++ ","%byte :: rest = (pre ++ range_text r.1 r.2 ++ [","%byte]) ++ rest)
      by (by rewrite <- !app_assoc).
    rewrite Hassoc in *. unfold rest in *. rewrite IH; auto; [|rewrite pos_set_pos, !length_app; cbn; lia|cbn in Hf; lia].
    rewrite set_pos_set_pos, <- app_assoc. do 2 f_equal. rewrite !length_app. cbn. rewrite !length_app. lia.
Qed.

Lemma reads_sequence_set rs :
  rs <> [] -> ranges_ok rs -> reads (fun input => sequence_set input) (runs_text rs) (set_of rs) set_follow.
Proof.
  intros Hne Hok pre post s Hpost Hpos Hlen. destruct rs as [|r rs]; [done|]. rewrite runs_text_cons in *.
  pose proof (Forall_inv Hok) as [Hr _]. destruct (dec_head r.1) as (b & t & Hdec & Hb); [lia|].
  assert (Ht : exists t', range_text r.1 r.2 ++ more_text rs = b :: t').
  { unfold range_text. rewrite Hdec. destruct (_ =? _); eexists; reflexivity. }
  destruct Ht as [t' Ht]. unfold sequence_set.
  erewrite bind_Ok by (eapply eat_not_here; [exact Ht | by intros <- | done]).
  cbv beta iota. rewrite sequence_set_loop_run; auto. unfold input_fuel. rewrite !length_app.
  assert (length rs <= length (more_text rs))%nat; [|lia].
  clear. induction rs; cbn -[more_text]; [lia|]. rewrite more_text_cons. cbn. rewrite length_app. lia.
Qed.

(** The numbers a run takes are those up to its end. *)
Lemma run_end_spec start rest en rest' :
  run_end start rest = (en, rest') -> StronglySorted Z.lt (start :: rest) ->
  Forall (fun n => 1 <= n <= u32_max) (start :: rest) ->
  start <= en <= u32_max /\ StronglySorted Z.lt rest' /\ Forall (fun n => 1 <= n <= u32_max) rest' /\
  (length rest' <= length rest)%nat /\
  (forall n, n ∈ start :: rest <-> start <= n <= en \/ n ∈ rest').
Proof.
  revert start. induction rest as [|n rest IH]; intros start Hrun Hsort Hall; cbn in Hrun.
  - simplify_eq. apply Forall_cons in Hall as [? ?]. split_and!; auto; try lia; [constructor|].
    intros m. rewrite list_elem_of_singleton. set_unfold. lia.
  - apply Forall_cons in Hall as [Hs Hall]. apply StronglySorted_inv in Hsort as [Hsort Hlt].
    pose proof (Forall_inv Hlt) as Hn. pose proof (Forall_inv Hall) as Hn'.
    rewrite Z.mod_small in Hrun by (unfold u32_max in *; lia).
    destruct (Z.eqb_spec n (start + 1)) as [->|Hne]; [|simplify_eq].
    + destruct (IH (start + 1) Hrun Hsort Hall) as (? & ? & ? & ? & Hmem). split_and!; auto; try (cbn; lia).
      intros m. rewrite elem_of_cons, Hmem. split.
      * intros [->|[?|?]]; [left; lia | left; lia | by right].
      * intros [?|?]; [destruct (decide (m = start)); [by left | right; left; lia] | by right; right].
    + split_and!; auto; try lia. intros m. rewrite elem_of_cons.
      split; [intros [->|?]; [left; lia | by right] | intros [?|?]; [left; lia | by right]].
Qed.

Lemma runs_spec fuel numbers :
  StronglySorted Z.lt numbers -> Forall (fun n => 1 <= n <= u32_max) numbers -> (length numbers <= fuel)%nat ->
  ranges_ok (runs fuel numbers) /\
  forall n, n ∈ numbers <-> exists r, r ∈ runs fuel numbers /\ r.1 <= n <= r.2.
Proof.
  revert numbers. induction fuel as [|fuel IH]; intros [|start rest] Hsort Hall Hf; cbn [runs];
    try (split; [constructor | intros n; set_solver]); [cbn in Hf; lia|].
  destruct (run_end start rest) as [en rest'] eqn:E.
  pose proof (Forall_inv Hall) as Hs.
  apply run_end_spec in E as (Hen & Hsort' & Hall' & Hlen & Hmem); [|done..].
  destruct (IH rest') as [Hok Hr]; [done..|cbn in Hf; lia|]. split.
  - constructor; [cbn in *; lia | done].
  - intros n. rewrite Hmem, Hr. split.
    + intros [H|(r & Hin & H)]; [exists (start, en); split; [by left | done] | exists r; split; [by right | done]].
    + intros (r & [->|Hin]%elem_of_cons & H); [by left | right; by exists r].
Qed.

(** ** Flags *)

(** A flag as it is written: an atom, with a backslash before it or not. *)
Definition flag_shape (f : list byte) : Prop :=
  exists w, w <> [] /\ Forall (fun b => is_atom_char b = true) w /\ (f = w \/ f = "\"%byte :: w).

Lemma is_atom_char_ascii b : is_atom_char b = true -> is_ascii b = true /\ b <> "*"%byte /\ b <> "\"%byte.
Proof. destruct b; vm_compute; try discriminate; intros _; (split; [done | split; discriminate]). Qed.

Lemma reads_atom w :
  w <> [] -> Forall (fun b => is_atom_char b = true) w ->
  reads (fun input => atom input) w w (no_more is_atom_char).
Proof.
  intros Hne Hall pre post s Hpost Hpos Hlen. unfold atom, word, position_now.
  erewrite bind_Ok by reflexivity. rewrite Hpos.
  erewrite bind_Ok.
  2: { apply reads_skip_while; auto.
       - eapply Forall_impl; [exact Hall|]. intros b Hb. cbn. by rewrite Hb.
       - eapply no_more_weaken; [|exact Hpost]. intros b Hb. cbn in Hb. by rewrite orb_false_r in Hb. }
  unfold taken_word. erewrite bind_Ok by reflexivity. rewrite pos_set_pos, decide_False.
  - erewrite bind_Ok by (by apply taken_since_run).
    rewrite from_utf8_ascii; [done|]. eapply Forall_impl; [exact Hall|]. intros b Hb. by apply is_atom_char_ascii.
  - destruct w; [done|]. cbn. lia.
Qed.

Lemma reads_flag f : flag_shape f -> reads (fun input => flag input) f f (no_more is_atom_char).
Proof.
  intros (w & Hne & Hall & Hf) pre post s Hpost Hpos Hlen.
  assert (Hlossy : from_utf8_lossy f = f).
  { eapply from_utf8_lossy_valid, chars_ascii. destruct Hf as [->| ->]; [|constructor; [done|]];
      (eapply Forall_impl; [exact Hall|]; intros b Hb; by apply is_atom_char_ascii). }
  destruct w as [|b w0] eqn:Ew; [done|]. rewrite <- Ew in *.
  pose proof Hall as Hb. rewrite Ew in Hb. apply Forall_inv, is_atom_char_ascii in Hb as (_ & Hstar & Hback).
  unfold flag, position_now. erewrite bind_Ok by reflexivity. rewrite Hpos.
  assert (Hrest : forall pre' s', pos s' = length pre' -> pre ++ f ++ post = pre' ++ w ++ post ->
    (star ← peek_is (pre ++ f ++ post) "*"%byte;
     (if (star : bool) then advance 1 else _ ← atom (pre ++ f ++ post); mret tt);;
     text ← taken_since (pre ++ f ++ post) (length pre);
     mret (from_utf8_lossy text)) s' = (Ok f, set_pos (length pre + length f) s')).
  { intros pre' s' Hpos' Hin. unfold peek_is at 1.
    erewrite bind_Ok.
    2: { erewrite bind_Ok; [reflexivity|]. rewrite Hin. apply (peek_here _ pre' b (tail w ++ post)); [by rewrite Ew | done]. }
    rewrite bool_decide_false by congruence.
    erewrite bind_Ok.
    2: { erewrite bind_Ok; [reflexivity|]. rewrite Hin. apply reads_atom; auto. by rewrite <- Hin. }
    erewrite bind_Ok.
    2: { apply taken_since_run. rewrite pos_set_pos. apply (f_equal length) in Hin.
         rewrite !length_app in Hin. lia. }
    unfold mret, M_ret. rewrite Hlossy. do 2 f_equal.
    apply (f_equal length) in Hin. rewrite !length_app in Hin. lia. }
  destruct Hf as [Hf|Hf].
  - erewrite bind_Ok by (eapply eat_not_here; [by rewrite Hf, Ew | congruence | done]). apply (Hrest pre); [done|].
    by rewrite Hf.
  - erewrite bind_Ok.
    2: { rewrite Hf. apply (reads_eat_true "\"%byte pre (w ++ post)); [done..|]. by rewrite Hf in Hlen. }
    rewrite (Hrest (pre ++ ["\"%byte])); [by rewrite set_pos_set_pos | |].
    + rewrite pos_set_pos, length_app. done.
    + rewrite Hf. by rewrite <- app_assoc.
Qed.

(** [(item item ..)], after the opening parenthesis and at least one item. *)
Definition items_text {A} (text : A -> list byte) (x : A) (xs : list A) : list byte :=
  text x ++ concat (map (fun y => " "%byte :: text y) xs) ++ bs ")".

Lemma paren_loop_run {A} (item : list byte -> M parser (list byte) A) (text : A -> list byte) (p : byte -> bool)
    xs x pre post s acc fuel :
  p " "%byte = false -> p ")"%byte = false ->
  Forall (fun y => reads item (text y) y (no_more p)) (x :: xs) ->
  pos s = length pre -> (length xs < fuel)%nat ->
  Z.of_nat (length (pre ++ items_text text x xs ++ post)) <= u64_max ->
  let input := pre ++ items_text text x xs ++ post in
  paren_loop_fuel input fuel (push (item input)) acc s
  = (Ok (acc ++ x :: xs), set_pos (length pre + length (items_text text x xs)) s).
Proof.
  intros Hsp Hpar. revert x pre s acc fuel.
  induction xs as [|y xs IH]; intros x pre s acc fuel Hitems Hpos Hf Hlen input; subst input;
    apply Forall_cons in Hitems as [Hx Hitems]; (destruct fuel as [|fuel]; [cbn in Hf; lia|]);
    cbn [paren_loop_fuel]; unfold items_text in *; cbn [map concat app] in *.
  - rewrite <- app_assoc in *. cbn [app] in *.
    erewrite bind_Ok by (unfold push; erewrite bind_Ok by (by apply Hx); reflexivity).
    rewrite (app_assoc pre).
    erewrite bind_Ok.
    2: { apply (reads_eat_true ")"%byte (pre ++ text x) post); [done | by rewrite pos_set_pos, length_app |].
         by rewrite <- app_assoc. }
    rewrite set_pos_set_pos, !length_app. cbn. by rewrite Nat.add_assoc.
  - set (more := concat (map (fun z => " "%byte :: text z) xs) ++ bs ")") in *.
    assert (Htail : (text x ++ " "%byte :: (text y ++ concat (map (fun z => " "%byte :: text z) xs)) ++ bs ")") ++ post
      = text x ++ " "%byte :: (text y ++ more) ++ post).
    { unfold more. rewrite <- !app_assoc. cbn [app]. by rewrite <- !app_assoc. }
    rewrite Htail in *.
    erewrite bind_Ok by (unfold push; erewrite bind_Ok by (by apply Hx); reflexivity).
    rewrite (app_assoc pre).
    erewrite bind_Ok.
    2: { apply (eat_not_here (pre ++ text x) (" "%byte :: text y ++ more) post _ " "%byte _ (text y ++ more));
           [done | done | by rewrite pos_set_pos, length_app]. }
    cbv iota beta.
    erewrite bind_Ok.
    2: { apply (reads_sp (pre ++ text x) ((text y ++ more) ++ post)); [done | by rewrite pos_set_pos, length_app|].
         by rewrite <- app_assoc. }
    rewrite set_pos_set_pos.
    specialize (IH y ((pre ++ text x) ++ [" "%byte]) (set_pos (length (pre ++ text x) + length [" "%byte]) s) (acc ++ [x]) fuel).
    fold more in IH. rewrite <- (app_assoc (pre ++ text x)) in IH. cbn [app] in IH.
    rewrite IH; [|done|rewrite pos_set_pos, !length_app; cbn; lia|cbn in Hf; lia|by rewrite <- app_assoc].
    rewrite set_pos_set_pos, <- app_assoc. do 2 f_equal. rewrite !length_app. cbn. rewrite !length_app. cbn.
    unfold more. rewrite length_app. cbn. lia.
Qed.

Lemma flags_text (fs : list (list byte)) :
  bs "(" ++ join (bs " ") fs ++ bs ")"
  = match fs with [] => bs "()" | f :: fs' => "("%byte :: items_text (fun f => f) f fs' end.
Proof. destruct fs as [|f fs]; [done|]. unfold items_text. rewrite join_cons, <- !app_assoc. done. Qed.

Lemma reads_flag_list fs :
  Forall flag_shape fs ->
  reads (fun input => flag_list input) (bs "(" ++ join (bs " ") fs ++ bs ")") fs anything.
Proof.
  intros Hfs pre post s _ Hpos Hlen. rewrite flags_text in *. unfold flag_list. destruct fs as [|f fs].
  - change (pre ++ bs "()" ++ post) with (pre ++ "("%byte :: ")"%byte :: post) in *.
    erewrite bind_Ok by (apply (reads_byte "("%byte pre (")"%byte :: post)); done).
    change (pre ++ "("%byte :: ")"%byte :: post) with (pre ++ ["("%byte] ++ [")"%byte] ++ post) in *.
    rewrite (app_assoc pre) in *.
    erewrite bind_Ok.
    2: { apply (reads_eat_true ")"%byte (pre ++ ["("%byte]) post); [done | by rewrite pos_set_pos, length_app | done]. }
    rewrite set_pos_set_pos, length_app. cbn. do 2 f_equal. lia.
  - change (pre ++ ("("%byte :: items_text (fun f => f) f fs) ++ post)
      with (pre ++ ["("%byte] ++ items_text (fun f => f) f fs ++ post) in *.
    erewrite bind_Ok by (apply (reads_byte "("%byte pre (items_text (fun f => f) f fs ++ post)); done).
    rewrite (app_assoc pre) in *.
    pose proof (Forall_inv Hfs) as (w & Hne & Hall & Hf).
    assert (Hhead : exists b t, items_text (fun f => f) f fs = b :: t /\ ")"%byte <> b).
    { destruct w as [|b w]; [done|]. apply Forall_inv in Hall.
      destruct Hf as [->| ->]; [exists b|exists "\"%byte]; eexists; (split; [reflexivity|]); [|done].
      by intros <-. }
    destruct Hhead as (b & t & Ht & Hb).
    erewrite bind_Ok by (eapply eat_not_here; [exact Ht | exact Hb | by rewrite pos_set_pos, length_app]).
    cbv iota beta. unfold paren_loop.
    rewrite (paren_loop_run (fun input => flag input) (fun f => f) is_atom_char); [|done|done| | | |done].
    + rewrite set_pos_set_pos, length_app. cbn. do 2 f_equal. lia.
    + eapply Forall_impl; [exact Hfs|]. intros g Hg. by apply reads_flag.
    + by rewrite pos_set_pos, length_app.
    + unfold input_fuel. rewrite !length_app.
      assert (length fs <= length (items_text (fun f => f) f fs))%nat; [|lia].
      unfold items_text. rewrite !length_app.
      assert (length fs <= length (concat (map (fun y => " "%byte :: y) fs)))%nat; [|lia].
      clear. induction fs; cbn; [lia|]. rewrite length_app. lia.
Qed.

Lemma valid_keyword_atom k :
  valid_keyword k = true -> k <> [] /\ Forall (fun b => is_atom_char b = true) k.
Proof.
  unfold valid_keyword. intros [[Hne _]%andb_prop Hall]%andb_prop. apply bool_decide_eq_true in Hne. split; [done|].
  apply Forall_forall. intros b Hb%list_elem_of_In. rewrite forallb_forall in Hall. specialize (Hall b Hb).
  revert Hall. clear. by_bytes b.
Qed.

Lemma imap_flag_cases k :
  (exists arm, arm ∈ registered_flags /\ k = bs arm.1 /\ imap_flag k = bs arm.2) \/ imap_flag k = k.
Proof.
  unfold imap_flag. destruct (List.find _ _) as [arm|] eqn:E; [|by right]. left.
  apply find_some in E as [Hin Hk]. exists arm. apply bool_decide_eq_true in Hk.
  by apply list_elem_of_In in Hin.
Qed.

Lemma imap_flag_shape k : valid_keyword k = true -> flag_shape (imap_flag k).
Proof.
  intros Hk. destruct (imap_flag_cases k) as [(arm & Hin & _ & ->)| ->].
  - assert (Hall : Forall (fun arm : string * string => exists w, w <> [] /\
      Forall (fun b => is_atom_char b = true) w /\ (bs arm.2 = w \/ bs arm.2 = "\"%byte :: w)) registered_flags).
    { repeat constructor; cbn;
        (eexists; split; [|split; [|solve [right; reflexivity | left; reflexivity]]]; [done | by repeat constructor]). }
    rewrite Forall_forall in Hall. by apply Hall.
  - apply valid_keyword_atom in Hk as [Hne Hall]. exists k. auto.
Qed.

Lemma keyword_of_flag_imap_flag k :
  valid_keyword k = true -> to_ascii_lowercase k = k -> keyword_of_flag (imap_flag k) = Some k.
Proof.
  intros Hk Hlow. destruct (imap_flag_cases k) as [(arm & Hin & Hk1 & ->)|Heq].
  - assert (Hall : Forall (fun arm : string * string => keyword_of_flag (bs arm.2) = Some (bs arm.1)) registered_flags).
    { repeat constructor; vm_compute; reflexivity. }
    rewrite Forall_forall in Hall. rewrite Hk1. by apply Hall.
  - rewrite Heq. unfold keyword_of_flag. rewrite Hlow. pose proof (valid_keyword_atom k Hk) as [Hne Hall].
    destruct k as [|b k]; [done|]. apply Forall_inv, is_atom_char_ascii in Hall as (_ & _ & Hb).
    assert (Hw : forall w, head (bs w) = Some "\"%byte -> is_word (b :: k) w = false).
    { intros w Hw. apply bool_decide_eq_false. intros Hbk. rewrite <- Hbk in Hw. by simplify_eq/=. }
    rewrite !Hw by done. cbn [head]. rewrite bool_decide_false by congruence. by rewrite Hk.
Qed.

(** ** Properties *)

(** Whatever the server puts in a string (a subject, a name, a header with
    quotes, backslashes, line breaks, NULs or 8-bit bytes), what [Out::string]
    appends is one string a conforming reader takes back whole: the parser's own
    [string], started where it was written, returns the data and stops right
    behind it. Nothing in the data can end the string early. *)
Theorem string_round_trip o data :
  exists text, out_bytes (out_string data o) = out_bytes o ++ text /\
  forall post s, pos s = length (out_bytes o) ->
    Z.of_nat (length (out_bytes o ++ text ++ post)) <= u64_max ->
    string_ (out_bytes o ++ text ++ post) s = (Ok data, set_pos (length (out_bytes o) + length text) s).
Proof.
  exists (string_text (out_utf8 o) data). rewrite out_string_text. split; [done|].
  intros post s Hpos Hlen. by apply reads_string.
Qed.

(** A mailbox name goes to the client and back: what [Out::mailbox] writes,
    [Parser::mailbox] reads as the same name under the same UTF8=ACCEPT setting, with
    any spelling of INBOX read as [INBOX]. *)
Theorem mailbox_round_trip o name cs :
  chars name = Some cs ->
  exists text, out_bytes (out_mailbox name o) = out_bytes o ++ text /\
  forall post s, pos s = length (out_bytes o) ->
    Z.of_nat (length (out_bytes o ++ text ++ post)) <= u64_max ->
    mailbox (out_bytes o ++ text ++ post) (out_utf8 o) s
    = (Ok (if eq_ignore_ascii_case name (bs "INBOX") then bs "INBOX" else name),
       set_pos (length (out_bytes o) + length text) s).
Proof.
  intros Hname. exists (mailbox_text (out_utf8 o) name). rewrite out_mailbox_text. split; [done|].
  intros post s Hpos Hlen. by apply (reads_mailbox _ _ cs).
Qed.

(** The set [sequence_set] writes for numbers in order names exactly those
    numbers: the parser reads it back, whatever it stands between, and its [contains]
    holds of a number if and only if it was in the list. *)
Theorem sequence_set_round_trip numbers pre post s :
  numbers <> [] -> StronglySorted Z.lt numbers -> Forall (fun n => 1 <= n <= u32_max) numbers ->
  set_follow post -> pos s = length pre ->
  Z.of_nat (length (pre ++ sequence_set_text numbers ++ post)) <= u64_max ->
  exists set, sequence_set (pre ++ sequence_set_text numbers ++ post) s
    = (Ok set, set_pos (length pre + length (sequence_set_text numbers)) s) /\
  forall n largest, contains set n largest = true <-> n ∈ numbers.
Proof.
  intros Hne Hsort Hall Hpost Hpos Hlen. rewrite sequence_set_text_runs in *.
  destruct (runs_spec (length numbers) numbers Hsort Hall ltac:(lia)) as [Hok Hmem].
  exists (set_of (runs (length numbers) numbers)). split.
  - apply reads_sequence_set; auto. intros Hnil. destruct numbers as [|n numbers]; [done|].
    cbn in Hnil. by destruct (run_end _ _).
  - intros n largest. rewrite set_contains_iff, Hmem. unfold ranges, set_of. rewrite map_map. cbn.
    split; intros (r & Hin & Hr).
    + apply list_elem_of_In, in_map_iff in Hin as (q & <- & Hq). apply list_elem_of_In in Hq.
      exists q. split; [done|]. unfold ranges_ok in Hok. rewrite Forall_forall in Hok.
      specialize (Hok q Hq). cbn in *. lia.
    + exists r. split; [|done]. apply list_elem_of_In, in_map_iff. exists r.
      unfold ranges_ok in Hok. rewrite Forall_forall in Hok. specialize (Hok r Hin). split; [|by apply list_elem_of_In].
      destruct r. cbn in *. f_equal; lia.
Qed.

(** The flags of a message, whatever keywords the store holds: the list
    [flags] writes is read back by [flag_list] as the flags of the keywords that are
    valid, and the store's keyword of each of them is the keyword it came from. A
    stored keyword can not end the list or add a line of its own. *)
Theorem flags_round_trip keywords pre post s :
  Forall (fun k => to_ascii_lowercase k = k) keywords -> pos s = length pre ->
  Z.of_nat (length (pre ++ flags keywords ++ post)) <= u64_max ->
  exists fs, flag_list (pre ++ flags keywords ++ post) s
    = (Ok fs, set_pos (length pre + length (flags keywords)) s) /\
  map keyword_of_flag fs = map Some (List.filter valid_keyword keywords).
Proof.
  intros Hlow Hpos Hlen. unfold flags in *.
  exists (map imap_flag (List.filter valid_keyword keywords)). split.
  - apply reads_flag_list; [|exact I|done..]. apply Forall_forall. intros f Hf.
    apply list_elem_of_In, in_map_iff in Hf as (k & <- & Hk). apply filter_In in Hk as [_ Hk].
    by apply imap_flag_shape.
  - rewrite map_map. apply map_ext_in. intros k Hk. apply filter_In in Hk as [Hin Hk].
    rewrite Forall_forall in Hlow. apply keyword_of_flag_imap_flag; [done|]. by apply Hlow, list_elem_of_In.
Qed.

(** ** Literals on the wire *)

Lemma rposition_Some p (s : list byte) i :
  rposition p s = Some i -> exists l b r, s = l ++ b :: r /\ length l = i /\ p b = true.
Proof.
  unfold rposition. destruct (position p (rev s)) as [j|] eqn:E; [|done]. cbn. intros [= <-].
  apply position_Some in E as (b & Hb & Hp). pose proof (lookup_lt_Some _ _ _ Hb) as Hj. rewrite length_rev in Hj.
  apply take_drop_middle in Hb. apply (f_equal (@rev byte)) in Hb.
  rewrite rev_involutive, rev_app_distr in Hb. cbn in Hb. rewrite <- app_assoc in Hb. symmetry in Hb.
  eexists _, b, _. split; [exact Hb|]. split; [|done].
  rewrite length_rev, length_drop, length_rev. lia.
Qed.

(** What a line that announces a literal looks like. *)
Lemma literal_announcement_inv line size plus :
  literal_announcement (line ++ [x0d; x0a]) = Some (size, plus) ->
  exists l digits, line = l ++ bs "{" ++ digits ++ (if plus then bs "+" else []) ++ bs "}" /\
    digits <> [] /\ (length digits <= 10)%nat /\ Forall (fun b => is_ascii_digit b = true) digits /\
    parse_unsigned u64_max digits = Some size.
Proof.
  unfold literal_announcement. intros H.
  assert (Hcrlf : strip_suffix [x0d; x0a] (line ++ [x0d; x0a]) = Some line).
  { unfold strip_suffix. rewrite length_app. cbn [length]. rewrite decide_True by lia.
    replace (length line + 2 - 2)%nat with (length line) by lia.
    rewrite drop_app_length, decide_True by done. by rewrite take_app_length. }
  rewrite Hcrlf in H. cbn [mbind option_bind] in H.
  destruct (strip_suffix (bs "}") line) as [inner|] eqn:E1; [|done]. cbn [mbind option_bind] in H.
  destruct (rposition _ inner) as [open|] eqn:E2; [|done]. cbn [mbind option_bind] in H.
  apply strip_suffix_Some in E1 as ->. apply rposition_Some in E2 as (l & b & r & -> & <- & Hb).
  apply bool_decide_eq_true in Hb as ->.
  assert (Hdrop : drop (S (length l)) (l ++ "{"%byte :: r) = r).
  { replace (l ++ "{"%byte :: r) with ((l ++ ["{"%byte]) ++ r) by (by rewrite <- app_assoc).
    replace (S (length l)) with (length (l ++ ["{"%byte])) by (rewrite length_app; cbn; lia). apply drop_app_length. }
  rewrite Hdrop in H. clear Hdrop. exists l.
  destruct (strip_suffix (bs "+") r) as [digits|] eqn:E3; cbv zeta beta iota in H; case_decide as Hd; try done;
    apply Decidable.not_or in Hd as [Hne Hd]; apply Decidable.not_or in Hd as [Hlen Hdig];
    apply not_false_is_true in Hdig;
    (destruct (parse_unsigned u64_max _) as [n|] eqn:En; [|done]); cbn in H; simplify_eq.
  - apply strip_suffix_Some in E3 as ->. exists digits. split_and!; auto; [|lia|].
    + rewrite <- !app_assoc. cbn. by rewrite <- ?app_assoc.
    + apply Forall_forall. intros b Hb. rewrite forallb_forall in Hdig. by apply Hdig, list_elem_of_In.
  - exists r. split_and!; auto; [|lia|].
    + rewrite <- !app_assoc. cbn. by rewrite <- ?app_assoc.
    + apply Forall_forall. intros b Hb. rewrite forallb_forall in Hdig. by apply Hdig, list_elem_of_In.
Qed.

(** A literal as a client sends it, synchronizing or not. *)
Lemma reads_announced_literal digits plus data :
  digits <> [] -> (length digits <= 10)%nat -> Forall (fun b => is_ascii_digit b = true) digits ->
  parse_unsigned u64_max digits = Some (Z.of_nat (length data)) ->
  reads (fun input => literal input)
    (["{"%byte] ++ digits ++ (if plus : bool then bs "+" else []) ++ ["}"%byte] ++ [x0d] ++ [x0a] ++ data) data anything.
Proof.
  intros Hne Hlen Hdig Hsize. unfold literal.
  eapply reads_bind; [apply reads_byte | | done]. cbv beta.
  eapply reads_bind; [apply reads_digits; [done | lia | done | exact Hsize] | | by destruct plus]. cbv beta.
  apply (reads_bind (fun input => eat input "+"%byte)
    (fun _ input => byte_ input "}"%byte;; cr ← eat input x0d;
      if (cr : bool) then byte_ input x0a;; s ← get;
        let start := pos s in
        if u64_max <? Z.of_nat start + Z.of_nat (length data)
        then throw (bs "the literal is longer than this server can hold")
        else if Z.of_nat (length input) <? Z.of_nat start + Z.of_nat (length data)
        then throw (bs "the literal is shorter than announced")
        else advance (Z.to_nat (Z.of_nat (length data)));;
          mret (slice input start (start + Z.to_nat (Z.of_nat (length data))))
      else throw (bs "a literal must end its line")) _ _ plus _
    (fun post => plus = false -> head post <> Some "+"%byte) anything); [| |by destruct plus].
  { destruct plus; [eapply reads_weaken; [|apply reads_eat_true]; done|].
    eapply reads_weaken; [|apply reads_eat_false]. cbn. auto. }
  cbv beta.
  eapply reads_bind; [apply reads_byte | | done]. cbv beta.
  eapply reads_bind; [apply reads_eat_true | | done]. cbv beta iota.
  eapply reads_bind; [apply reads_byte | | done]. cbv beta.
  apply reads_literal_data.
Qed.

(** The session and the parser agree on where a literal starts and how long it
    is: when [literal_announcement] finds [size] bytes announced at the end of a line
    and the session appends that many, [Parser::literal], started at the brace, takes
    exactly those bytes, whatever they are and whatever follows. *)
Theorem literal_announced_is_read line size plus data post :
  literal_announcement (line ++ [x0d; x0a]) = Some (size, plus) ->
  Z.of_nat (length data) = size ->
  Z.of_nat (length (line ++ [x0d; x0a] ++ data ++ post)) <= u64_max ->
  exists brace, (brace < length line)%nat /\ line !! brace = Some "{"%byte /\
  forall s, pos s = brace ->
    literal (line ++ [x0d; x0a] ++ data ++ post) s = (Ok data, set_pos (length line + 2 + length data) s).
Proof.
  intros H Hsize Hlen. apply literal_announcement_inv in H as (l & digits & -> & Hne & Hl & Hdig & Hp).
  exists (length l). split; [rewrite !length_app; cbn; lia|].
  split; [rewrite lookup_app_r by lia; by rewrite Nat.sub_diag|].
  intros s Hpos. subst size.
  pose proof (reads_announced_literal digits plus data Hne Hl Hdig Hp l post s I Hpos) as Hr.
  assert (Hin : (l ++ bs "{" ++ digits ++ (if plus then bs "+" else []) ++ bs "}") ++ [x0d; x0a] ++ data ++ post
    = l ++ (["{"%byte] ++ digits ++ (if plus then bs "+" else []) ++ ["}"%byte] ++ [x0d] ++ [x0a] ++ data) ++ post).
  { change (bs "{") with ["{"%byte]. change (bs "}") with ["}"%byte].
    change [x0d; x0a] with ([x0d] ++ [x0a]). by rewrite <- !app_assoc. }
  rewrite Hin in *. rewrite Hr by exact Hlen.
  do 2 f_equal. rewrite !length_app. cbn. lia.
Qed.

Lemma string_round_trip_witness :
  string_ (quoted_text (bs "a" ++ [x22]) ++ bs " x") initial = (Ok (bs "a" ++ [x22]), set_pos 5 initial).
Proof.
  destruct (string_round_trip (out_new false) (bs "a" ++ [x22])) as (text & Ht & Hr). cbn in Ht. subst text.
  apply (Hr (bs " x") initial); vm_compute; [reflexivity | discriminate].
Defined.

Lemma mailbox_round_trip_witness :
  mailbox (mailbox_text false (utf8 [0x26; 0x1f431])) false initial
  = (Ok (utf8 [0x26; 0x1f431]), set_pos 12 initial).
Proof.
  destruct (mailbox_round_trip (out_new false) (utf8 [0x26; 0x1f431]) [0x26; 0x1f431] eq_refl) as (text & Ht & Hr).
  vm_compute in Ht. subst text. specialize (Hr [] initial eq_refl ltac:(vm_compute; discriminate)).
  vm_compute in Hr |- *. exact Hr.
Defined.

Lemma sequence_set_round_trip_witness :
  exists set, sequence_set (bs "1:3,5 FLAGS") initial = (Ok set, set_pos 5 initial) /\
  (contains set 2 0 = true <-> 2 ∈ [1; 2; 3; 5]).
Proof.
  destruct (sequence_set_round_trip [1; 2; 3; 5] [] (bs " FLAGS") initial) as (set & Hs & Hc);
    [done | repeat constructor; lia | repeat constructor; vm_compute; discriminate | vm_compute; reflexivity
     | reflexivity | vm_compute; discriminate |].
  exists set. split; [exact Hs | apply Hc].
Defined.

Lemma flags_round_trip_witness :
  exists fs, flag_list (bs "(\Seen x)") initial = (Ok fs, set_pos 9 initial) /\
  map keyword_of_flag fs = [Some (bs "$seen"); Some (bs "x")].
Proof.
  apply (flags_round_trip [bs "$seen"; bs "x)"; bs "x"] [] [] initial);
    [repeat constructor | reflexivity | vm_compute; discriminate].
Defined.

Lemma literal_announced_is_read_witness :
  exists brace, literal (bs "a LOGIN {4+}" ++ [x0d; x0a] ++ bs "mini x") (set_pos brace initial)
    = (Ok (bs "mini"), set_pos 18 initial).
Proof.
  destruct (literal_announced_is_read (bs "a LOGIN {4+}") 4 true (bs "mini") (bs " x")) as (brace & _ & _ & H);
    [vm_compute; reflexivity | reflexivity | vm_compute; discriminate |].
  exists brace. exact (H (set_pos brace initial) eq_refl).
Defined.

(** After a bare line feed the session waits for a literal that the parser then refuses. *)
Example announced_by_bare_line_feed :
  literal_announcement (bs "a LOGIN {3}" ++ [x0a]) = Some (3, false) /\
  parse_command (bs "a LOGIN {3}" ++ [x0a] ++ bs "leo x") false
  = Err {| error_tag := Some (bs "a"); message := bs "a literal must end its line" |}.
Proof. by vm_compute. Qed.
