(* ===== verification/ImapFetch.v ===== *)
(** * FETCH of parts of a message

    Where the parser, the MIME structure and the writer meet: the part numbers of a
    FETCH that parses, looked up in the tree of any message, never subtract one from
    zero, and the ranges of the tree never slice out of the message. Then what the
    bytes of a section are, and the decoder of quoted-printable. *)

From S2P Require Import Prelude Effects Utf8 ImapMime ImapCommand.
From S2P Require ImapParser ImapParserSafe.
From S2P Require Import ImapResponse.

(** A tree inside a message. *)
Definition tree_in (raw : list byte) (p : Part) : Prop :=
  well_formed p /\ ((extent p).2 <= length raw)%nat.

(** ** Quoted-printable, as RFC 2045 writes it *)

Inductive qp_token : Type :=
  | Plain (b : byte)
  | Escaped (h l : Z)
  | SoftBreak (crlf : bool).

Definition hex_digit (d : Z) : byte := if d <? 10 then zb (48 + d) else zb (55 + d).

Definition qp_ok (t : qp_token) : Prop :=
  match t with
  | Plain b => b <> "="%byte
  | Escaped h l => 0 <= h < 16 /\ 0 <= l < 16
  | SoftBreak _ => True
  end.

Definition qp_text (t : qp_token) : list byte :=
  match t with
  | Plain b => [b]
  | Escaped h l => ["="%byte; hex_digit h; hex_digit l]
  | SoftBreak crlf => "="%byte :: if crlf then [x0d; x0a] else [x0a]
  end.

Definition qp_value (t : qp_token) : list byte :=
  match t with
  | Plain b => [b]
  | Escaped h l => [zb (h * 16 + l)]
  | SoftBreak _ => []
  end.

(** ** Trees *)

Lemma well_formed_le p : well_formed p -> ((extent p).1 <= (header p).2 <= (extent p).2)%nat.
Proof. intros H. inversion H. unfold extent. simpl. lia. Qed.

Lemma tree_in_header raw p : tree_in raw p -> ((header p).1 <= (header p).2 <= length raw)%nat.
Proof.
  intros [Hwf Hle]. pose proof (well_formed_le _ Hwf). inversion Hwf. unfold extent in *. simpl in *. lia.
Qed.

Lemma tree_in_body raw p : tree_in raw p -> ((ImapMime.body p).1 <= (ImapMime.body p).2 <= length raw)%nat.
Proof. intros [Hwf Hle]. inversion Hwf. unfold extent in *. simpl in *. lia. Qed.

Lemma tree_in_child raw p c : tree_in raw p -> c ∈ children p -> tree_in raw c.
Proof.
  intros [Hwf Hle] Hc. inversion Hwf as [p' _ _ _ Ho Hall _]; subst p'. rewrite Forall_forall in Hall.
  split; [by apply Hall|]. apply (ordered_elem _ _ _ (extent c)) in Ho; [unfold extent in *; simpl in *; lia|].
  apply list_elem_of_In, in_map, list_elem_of_In, Hc.
Qed.

Lemma tree_in_message raw p m : tree_in raw p -> ImapMime.message p = Some m -> tree_in raw m.
Proof.
  intros [Hwf Hle] Hm. inversion Hwf as [p' _ _ _ _ _ Hmess]; subst p'.
  destruct (Hmess m Hm) as [Hwfm Hext]. split; [done|]. rewrite Hext. unfold extent in Hle. done.
Qed.

Lemma parse_tree_in raw root : parse raw = Ok root -> tree_in raw root /\ extent root = (0%nat, length raw).
Proof.
  intros Hp. destruct (parse_tree raw) as (p & n & Hp' & Hwf & Hext & _). rewrite Hp in Hp'. simplify_eq.
  split; [|done]. split; [done|]. by rewrite Hext.
Qed.

Section fetch.
Context {S : Type}.
Implicit Types (st : S).

Lemma wp_find_from raw p depth path (Q : option Part -> S -> Prop) st :
  tree_in raw p -> Forall (fun n => 1 <= n) path ->
  (forall r, (forall q, r = Some q -> tree_in raw q) -> Q r st) ->
  wp (find_from p depth path) Q (fun _ => False) st.
Proof.
  revert p depth. induction path as [|n path IH]; intros p depth Hp Hpath HQ; cbn [find_from].
  { apply wp_ret, HQ. by intros q [= <-]. }
  apply Forall_cons in Hpath as [Hn Hpath].
  set (container := match ImapMime.message p with Some m => _ | None => _ end).
  assert (Hc : tree_in raw container).
  { unfold container. destruct (ImapMime.message p) eqn:E, depth; eauto using tree_in_message. }
  clearbody container. destruct (is_multipart container).
  - apply wp_bind. unfold child. destruct (Z.ltb_spec n 1); [lia|]. apply wp_ret.
    destruct (_ !! _) as [c|] eqn:E; [|apply wp_ret, HQ; done].
    apply IH; auto. eapply tree_in_child; [exact Hc|]. by eapply list_elem_of_lookup_2.
  - destruct (n =? 1); [by apply IH | by apply wp_ret, HQ].
Qed.

Lemma wp_fmap {A B} (f : A -> B) (m : M S Empty_set A) (Q : B -> S -> Prop) F st :
  wp m (fun a => Q (f a)) F st -> wp (f <$> m) Q F st.
Proof. intros H. apply wp_bind. exact H. Qed.

Lemma wp_header_fields raw h names keep (Q : list byte -> S -> Prop) F st :
  (h.1 <= h.2 <= length raw)%nat -> (forall r, Q r st) -> wp (header_fields raw h names keep) Q F st.
Proof. intros Hh HQ. apply wp_bind, wp_fields; [done|]. intros fs. apply wp_ret, HQ. Qed.

Lemma wp_section_bytes raw root section (Q : option (list byte) -> S -> Prop) st :
  tree_in raw root -> Forall (fun n => 1 <= n) (section_part section) ->
  (forall r, Q r st) -> wp (section_bytes raw root section) Q (fun _ => False) st.
Proof.
  intros Hroot Hpath HQ. apply wp_bind. eapply wp_find_from; [exact Hroot | exact Hpath |].
  intros [q|] Hq; [|apply wp_ret, HQ]. specialize (Hq q eq_refl).
  assert (Hindex : forall r, (r.1 <= r.2 <= length raw)%nat ->
    wp (Some <$> index raw r) Q (fun _ => False) st) by (intros r Hr; apply wp_fmap, wp_index; [done | apply HQ]).
  assert (Hfields : forall h names keep, (h.1 <= h.2 <= length raw)%nat ->
    wp (Some <$> header_fields raw h names keep) Q (fun _ => False) st)
    by (intros h names keep Hh; apply wp_fmap, wp_header_fields; [done | intros r; apply HQ]).
  destruct (section_text section) as [[]|], (section_part section); cbv zeta;
    try (destruct (ImapMime.message q) as [m|] eqn:Em; [|apply wp_ret, HQ];
         pose proof (tree_in_message _ _ _ Hq Em));
    first [apply Hindex | apply Hfields | apply wp_ret, HQ]; eauto using tree_in_header, tree_in_body.
Qed.
End fetch.

(** A client that asks for any section of any message gets an answer: for a FETCH
    that parses and a message of any bytes, [section_bytes] finds the part and cuts
    its bytes without an index out of bounds, a part number 0 or the arm the source
    calls unreachable. *)
Theorem fetch_section_total input utf8 c uid set items changed_since vanished section partial peek raw root :
  ImapParser.parse_command input utf8 = Ok c ->
  body c = CommandBody.Fetch uid set items changed_since vanished ->
  FetchItem.BodySection section partial peek ∈ items ->
  parse raw = Ok root ->
  exists r, section_bytes raw root section tt = (Ok r, tt).
Proof.
  intros Hc Hbody Hitem Hroot. apply parse_tree_in in Hroot as [Hroot _].
  assert (Hpath : Forall (fun n => 1 <= n) (section_part section)).
  { destruct (ImapParserSafe.parse_command_cases input utf8) as [[e He]|(b & t & s & s' & Hb & Hok & _)];
      rewrite Hc in *; simplify_eq. cbn in Hbody. subst b. destruct Hok as (_ & _ & _ & Hitems).
    rewrite Forall_forall in Hitems. specialize (Hitems _ Hitem). cbn in Hitems.
    eapply Forall_impl; [exact (proj1 Hitems)|]. cbn. lia. }
  pose proof (wp_section_bytes raw root section (fun _ st => st = tt) tt Hroot Hpath) as H.
  unfold wp in H. destruct (section_bytes raw root section tt) as [[r|e| |] []]; try (exfalso; by apply H); eauto.
Qed.

Definition header_section : BodySection := {| section_part := []; section_text := Some SectionText.Header |}.
Definition text_section : BodySection := {| section_part := []; section_text := Some SectionText.Text |}.

(** BODY[HEADER] and BODY[TEXT] of a message are the message cut in two: what a
    client fetches in parts is what BODY[] gives it whole. *)
Theorem header_and_text_are_the_message raw root :
  parse raw = Ok root ->
  exists h t, section_bytes raw root header_section tt = (Ok (Some h), tt) /\
    section_bytes raw root text_section tt = (Ok (Some t), tt) /\ h ++ t = raw.
Proof.
  intros Hp. apply parse_tree_in in Hp as [Hroot Hext]. pose proof (tree_in_header _ _ Hroot) as Hh.
  destruct Hroot as [Hwf _]. inversion Hwf as [p H1 H2 H3 _ _ _]; subst p.
  unfold extent in Hext. injection Hext as Hstart Hend.
  exists (slice raw (header root).1 (header root).2), (slice raw (ImapMime.body root).1 (ImapMime.body root).2).
  unfold section_bytes. cbn. unfold index, get_slice, expect. rewrite !decide_True by lia. cbn.
  split; [done|]. split; [done|]. rewrite Hstart, Hend, H2. unfold slice. rewrite drop_0, Nat.sub_0_r.
  rewrite (take_ge (drop _ _)) by (rewrite length_drop; lia). apply take_drop.
Qed.

Lemma hex_hex_digit d : 0 <= d < 16 -> hex (hex_digit d) = Some d /\ hex_digit d <> x0a /\ hex_digit d <> x0d.
Proof.
  intros Hd. assert (Hcases : d ∈ (Z.of_nat <$> seq 0 16)).
  { apply list_elem_of_fmap. exists (Z.to_nat d). split; [lia | apply elem_of_seq; lia]. }
  clear Hd. revert d Hcases. apply Forall_forall. repeat constructor; vm_compute; done.
Qed.

(** [quoted_printable] decodes every encoding RFC 2045 allows (a byte as it is, a
    byte as two hexadecimal digits, soft line breaks with and without CR, in any
    order) to the bytes that were encoded. *)
Theorem quoted_printable_decodes tokens :
  Forall qp_ok tokens -> quoted_printable (concat (map qp_text tokens)) = concat (map qp_value tokens).
Proof.
  induction 1 as [|t tokens Ht _ IH]; [done|]. cbn [map concat]. destruct t as [b|h l|crlf]; cbn [qp_text qp_value app].
  - cbn [quoted_printable]. rewrite decide_True by done. by rewrite IH.
  - destruct Ht as [Hh Hl]. destruct (hex_hex_digit h Hh) as (Hh1 & Hh2 & Hh3), (hex_hex_digit l Hl) as (Hl1 & _).
    cbn [quoted_printable]. rewrite decide_False by (intros H; by apply H).
    rewrite !decide_False by naive_solver. rewrite Hh1, Hl1. by rewrite IH.
  - destruct crlf; cbn [quoted_printable app]; rewrite decide_False by (intros H; by apply H).
    + by rewrite decide_True.
    + assert (Hnext : forall r, r = concat (map qp_text tokens) ->
        match r with
        | low :: rest2 =>
            if decide (x0a = x0d /\ low = x0a) then quoted_printable rest2
            else if decide (x0a = x0a) then quoted_printable r
            else match hex x0a, hex low with
                 | Some h, Some l => zb (h * 16 + l) :: quoted_printable rest2
                 | _, _ => "="%byte :: quoted_printable (x0a :: r)
                 end
        | [] => if decide (x0a = x0a) then quoted_printable r else "="%byte :: quoted_printable [x0a]
        end = concat (map qp_value tokens)); [|by apply Hnext].
      intros [|low rest2] Hr; [by rewrite Hr|]. rewrite decide_False by naive_solver.
      rewrite decide_True by done. by rewrite Hr.
Qed.

(** Decoding never grows a body. *)
Theorem quoted_printable_length body : (length (quoted_printable body) <= length body)%nat.
Proof.
  induction body as [body IH] using (well_founded_induction (well_founded_ltof _ (@length byte))).
  unfold ltof in IH. destruct body as [|b rest]; [done|]. cbn [quoted_printable].
  pose proof (IH rest ltac:(cbn; lia)) as H0. case_decide; [cbn; lia|].
  destruct rest as [|high [|low rest2]]; [cbn; lia| |].
  - pose proof (IH [] ltac:(cbn; lia)). cbn [length] in *. case_decide; cbn [length]; lia.
  - pose proof (IH (low :: rest2) ltac:(cbn; lia)). pose proof (IH rest2 ltac:(cbn; lia)).
    repeat (case_decide || case_match); cbn [length] in *; lia.
Qed.

(** ** BODYSTRUCTURE *)

Lemma node_count_child p c : c ∈ children p -> (node_count c < node_count p)%nat.
Proof.
  rewrite (node_count_unfold p). unfold forest_count.
  induction (children p) as [|d ds IH]; [by intros ?%elem_of_nil|].
  intros [->|Hc]%elem_of_cons; simpl; [lia|]. specialize (IH Hc). lia.
Qed.

Lemma node_count_message p m : ImapMime.message p = Some m -> (node_count m < node_count p)%nat.
Proof. intros Hm. rewrite (node_count_unfold p), Hm. simpl. lia. Qed.

Section structure.
Context {S : Type} (base64_encode : list byte -> list byte)
        (parse_to : list byte -> list (option (list byte) * option (list byte))).
Context (raw : list byte) (extended : bool).

Abbreviation structure := (body_structure (S := S) base64_encode parse_to raw extended).

Lemma wp_envelope h o (Q : Out -> S -> Prop) F st :
  (h.1 <= h.2 <= length raw)%nat -> (forall o, Q o st) ->
  wp (envelope base64_encode parse_to raw h o) Q F st.
Proof. intros Hh HQ. apply wp_bind, wp_fields; [done|]. intros fs. apply wp_ret, HQ. Qed.

Lemma wp_body_structure n p o (Q : Out -> S -> Prop) st :
  (node_count p <= n)%nat -> tree_in raw p -> (forall o, Q o st) -> wp (structure p o) Q (fun _ => False) st.
Proof.
  revert p o Q. induction n as [|n IH]; intros p o Q Hn Hp HQ; [rewrite node_count_unfold in Hn; lia|].
  assert (Hchildren : forall cs o (Q' : Out -> S -> Prop), (forall c, c ∈ cs -> c ∈ children p) -> (forall o, Q' o st) ->
    wp ((fix go (cs : list Part) (o : Out) : M S Empty_set Out :=
           match cs with [] => mret o | c :: cs' => o ← structure c o; go cs' o end) cs o) Q' (fun _ => False) st).
  { induction cs as [|c cs IHcs]; intros o' Q' Hcs HQ'; [apply wp_ret, HQ'|].
    assert (Hc : c ∈ children p) by (apply Hcs; by left).
    apply wp_bind, IH; [pose proof (node_count_child p c Hc); lia | by eapply tree_in_child |].
    intros o''. apply IHcs; [|done]. intros d Hd. apply Hcs. by right. }
  assert (Hmessage : forall m o (Q' : Out -> S -> Prop), ImapMime.message p = Some m -> (forall o, Q' o st) ->
    wp (o ← envelope base64_encode parse_to raw (header m) (out_raw (bs " ") o);
        o ← structure m (out_raw (bs " ") o);
        mret (out_number (Z.of_nat (lines p)) (out_raw (bs " ") o))) Q' (fun _ => False) st).
  { intros m o' Q' Hm HQ'. pose proof (tree_in_message _ _ _ Hp Hm) as Htm.
    apply wp_bind, wp_envelope; [by eapply tree_in_header|]. intros o''.
    apply wp_bind, IH; [pose proof (node_count_message p m Hm); lia | done |]. intros o'''. apply wp_ret, HQ'. }
  destruct p as [h b mt st' ps i d e m5 di la lo cs ms ls]. cbn [body_structure].
  destruct (is_multipart _); cbn [children ImapMime.message].
  - apply wp_bind, (Hchildren cs); [done|]. intros o'. apply wp_ret, HQ.
  - apply wp_bind. destruct ms as [m|].
    + apply (Hmessage m); [done|]. intros o'. apply wp_ret, HQ.
    + apply wp_ret, wp_ret, HQ.
Qed.
End structure.

(** BODY and BODYSTRUCTURE of any message can be written, whatever the base64
    encoder and the address parser return: every header the writer reads again is
    inside the message. *)
Theorem body_structure_total base64_encode parse_to raw extended root o :
  parse raw = Ok root ->
  exists o', body_structure base64_encode parse_to raw extended root o tt = (Ok o', tt).
Proof.
  intros Hp. apply parse_tree_in in Hp as [Hp _].
  pose proof (wp_body_structure base64_encode parse_to raw extended _ root o (fun _ st => st = tt) tt
    (le_n _) Hp ltac:(done)) as H.
  unfold wp in H. destruct (body_structure _ _ _ _ _ _ tt) as [[o'|e| |] []]; try done. by exists o'.
Qed.

Definition fetch_part_line : list byte := bs "a FETCH 1 BODY[2.MIME]".

Definition mime_section : BodySection := {| section_part := [2]; section_text := Some SectionText.Mime |}.

Lemma fetch_section_total_witness : exists root r, section_bytes two_parts root mime_section tt = (Ok r, tt).
Proof.
  destruct (parse two_parts) as [root|e| |] eqn:E; try (vm_compute in E; discriminate).
  exists root.
  apply (fetch_section_total fetch_part_line false
    {| tag := bs "a"; body := CommandBody.Fetch false [(SeqNum.Value 1, SeqNum.Value 1)]
        [FetchItem.BodySection mime_section None false] None false |}
    false [(SeqNum.Value 1, SeqNum.Value 1)] [FetchItem.BodySection mime_section None false] None false
    mime_section None false two_parts root); [vm_compute; reflexivity | reflexivity | by left | exact E].
Defined.

Lemma header_and_text_are_the_message_witness : exists h t : list byte, h ++ t = two_parts.
Proof.
  destruct (parse two_parts) as [root|e| |] eqn:E; try (vm_compute in E; discriminate).
  destruct (header_and_text_are_the_message two_parts root E) as (h & t & _ & _ & H). by exists h, t.
Defined.

Lemma quoted_printable_decodes_witness :
  quoted_printable (bs "a=3D" ++ bs "=" ++ [x0d; x0a] ++ bs "b") = bs "a=b".
Proof.
  apply (quoted_printable_decodes [Plain "a"%byte; Escaped 3 13; SoftBreak true; Plain "b"%byte]).
  repeat constructor; done.
Defined.

Lemma body_structure_total_witness :
  exists root o, body_structure (fun s => s) (fun _ => []) two_parts true root (out_new false) tt = (Ok o, tt).
Proof.
  destruct (parse two_parts) as [root|e| |] eqn:E; try (vm_compute in E; discriminate).
  exists root. exact (body_structure_total (fun s => s) (fun _ => []) two_parts true root (out_new false) E).
Defined.
