(* ===== verification/ImapSearch.v ===== *)
(** * SEARCH (crates\/uwumail-imap\/src\/search.rs)

    [prepare] asks the store once for what a search needs, [matches] then decides the
    criteria for each message of the mailbox. [satisfies] is what the criteria mean,
    with the full-text index and the message headers asked directly; [matches] after
    [prepare] decides it. The store's index and blobs and the Unicode lower casing of
    the standard library are variables. *)

From S2P Require Import Prelude Effects Utf8 Dates ImapMime.
From S2P Require Import ImapCommand.

Record EmailAddress := { address_name : option (list byte); email : list byte }.

(** crates\/uwumail-store\/src\/imap.rs *)
Record ImapEmail := {
  uid : Z;
  email_id : Z;
  modseq : Z;
  keywords : list (list byte);
  blob : list byte;
  size : Z;
  received_at : Z;
  sent_at : option Z;
  subject : list byte;
  from : list EmailAddress;
  to : list EmailAddress;
  cc : list EmailAddress;
  bcc : list EmailAddress;
}.

(** The full-text hits per term, the header fields per email id. *)
Record Prepared := {
  text : gmap (list byte) (gset Z);
  headers : gmap Z (list (list byte * list byte));
}.

Record Target := { msn : Z; target_email : ImapEmail }.

Record Scope := { largest_msn : Z; largest_uid : Z; now : Z }.

(** [walk]: the keys in the order they are visited. *)
Fixpoint walk (key : SearchKey) : list SearchKey :=
  key ::
  match key with
  | SearchKey.And keys => foldr (fun k visited => walk k ++ visited) [] keys
  | SearchKey.Or l r => walk l ++ walk r
  | SearchKey.Not inner => walk inner
  | _ => []
  end.

Definition is_modseq (key : SearchKey) : bool :=
  match key with SearchKey.ModSeq _ => true | _ => false end.

(** [found |= matches!(..)] over the visit. *)
Definition uses_modseq (key : SearchKey) : bool :=
  foldl (fun found k => found || is_modseq k) false (walk key).

Definition term_of (key : SearchKey) : option (list byte) :=
  match key with SearchKey.Body term | SearchKey.Text term => Some term | _ => None end.

Definition is_header (key : SearchKey) : bool :=
  match key with SearchKey.Header _ _ => true | _ => false end.

(** [str::contains] *)
Fixpoint has_substring (needle haystack : list byte) : bool :=
  starts_with needle haystack || match haystack with [] => false | _ :: rest => has_substring needle rest end.

Definition day (unix : Z) : Z := unix / 86400.

Section search.
Context {E : Type}
        (to_lowercase : list byte -> list byte)
        (search_emails : list byte -> outcome E (list Z))
        (read_blob : list byte -> outcome E (list byte)).

Abbreviation R := (M Prepared E).

Definition set_text (t : gmap (list byte) (gset Z)) (p : Prepared) : Prepared :=
  {| text := t; headers := headers p |}.

Definition set_headers (h : gmap Z (list (list byte * list byte))) (p : Prepared) : Prepared :=
  {| text := text p; headers := h |}.

(** One term, unless it was looked up before. *)
Definition prepare_term (term : list byte) : R unit :=
  p ← get;
  if decide (is_Some (text p !! term)) then mret tt
  else
    ids ← lift (search_emails term);
    modify (fun p => set_text (<[term := list_to_set ids]> (text p)) p).

(** The header fields of one message, in lower case. *)
Definition header_entry (f : Field) : list byte * list byte :=
  (to_ascii_lowercase (name f), to_lowercase (value f)).

Definition message_headers (raw : list byte) : R (list (list byte * list byte)) :=
  root ← infallible (S := Prepared) (lift (parse raw)) tt;
  fs ← infallible (fields raw (header root)) tt;
  mret (map header_entry fs).

Definition prepare_headers (e : ImapEmail) : R unit :=
  raw ← lift (read_blob (blob e));
  entries ← message_headers raw;
  modify (fun p => set_headers (<[email_id e := entries]> (headers p)) p).

Fixpoint for_each {A} (f : A -> R unit) (items : list A) : R unit :=
  match items with
  | [] => mret tt
  | item :: items' => f item;; for_each f items'
  end.

(** Looks up full-text terms and, if needed, message headers. *)
Definition prepare (key : SearchKey) (emails : list ImapEmail) : outcome E Prepared :=
  let terms := omap term_of (walk key) in
  let wants_headers := existsb is_header (walk key) in
  let run : R Prepared :=
    for_each prepare_term terms;;
    (if wants_headers then for_each prepare_headers emails else mret tt);;
    get in
  fst (run {| text := ∅; headers := ∅ |}).

Definition contains (haystack needle : list byte) : bool :=
  bool_decide (needle = []) || has_substring (to_lowercase needle) (to_lowercase haystack).

Definition addresses_contain (addresses : list EmailAddress) (needle : list byte) : bool :=
  existsb (fun a => contains (email a) needle
                    || match address_name a with Some n => contains n needle | None => false end) addresses.

Definition has_keyword (e : ImapEmail) (keyword : list byte) : bool :=
  existsb (fun k => bool_decide (k = keyword)) (keywords e).

Definition sent_day (e : ImapEmail) : Z := day (default (received_at e) (sent_at e)).

Definition age (scope : Scope) (e : ImapEmail) : Z := i64_saturating_sub (now scope) (received_at e).

Definition matches_header (prepared : Prepared) (e : ImapEmail) (field text : list byte) : bool :=
  match headers prepared !! email_id e with
  | Some entries =>
      existsb (fun '(name, value) => eq_ignore_ascii_case name field && has_substring (to_lowercase text) value) entries
  | None => false
  end.

Definition matches_text (prepared : Prepared) (e : ImapEmail) (term : list byte) : bool :=
  bool_decide (trim term = [])
  || match text prepared !! term with Some ids => bool_decide (email_id e ∈ ids) | None => false end.

Fixpoint matches (key : SearchKey) (target : Target) (scope : Scope) (prepared : Prepared) : bool :=
  let e := target_email target in
  match key with
  | SearchKey.All => true
  | SearchKey.And keys => forallb (fun key => matches key target scope prepared) keys
  | SearchKey.Or l r => matches l target scope prepared || matches r target scope prepared
  | SearchKey.Not inner => negb (matches inner target scope prepared)
  | SearchKey.SequenceSet set => ImapCommand.contains set (msn target) (largest_msn scope)
  | SearchKey.Uid set => ImapCommand.contains set (uid e) (largest_uid scope)
  | SearchKey.Keyword keyword => has_keyword e keyword
  | SearchKey.Unkeyword keyword => negb (has_keyword e keyword)
  | SearchKey.New | SearchKey.Recent => false
  | SearchKey.Old => true
  | SearchKey.Bcc text => addresses_contain (bcc e) text
  | SearchKey.Cc text => addresses_contain (cc e) text
  | SearchKey.From text => addresses_contain (from e) text
  | SearchKey.To text => addresses_contain (to e) text
  | SearchKey.Subject text => contains (subject e) text
  | SearchKey.Body term | SearchKey.Text term => matches_text prepared e term
  | SearchKey.Header field text => matches_header prepared e field text
  | SearchKey.Before d => day (received_at e) <? d
  | SearchKey.On d => day (received_at e) =? d
  | SearchKey.Since d => d <=? day (received_at e)
  | SearchKey.SentBefore d => sent_day e <? d
  | SearchKey.SentOn d => sent_day e =? d
  | SearchKey.SentSince d => d <=? sent_day e
  | SearchKey.Larger n => n <? size e
  | SearchKey.Smaller n => size e <? n
  | SearchKey.ModSeq n => n <=? modseq e
  | SearchKey.Younger seconds => age scope e <=? wrap_i64 seconds
  | SearchKey.Older seconds => wrap_i64 seconds <? age scope e
  end.

(** ** What the criteria mean *)

(** From 2^63 seconds on, the cast makes a negative number of it: nothing is younger. *)
Example younger_wraps target scope prepared :
  matches (SearchKey.Younger (2 ^ 63)) target scope prepared = (age scope (target_email target) <=? - 2 ^ 63).
Proof. reflexivity. Qed.

(** The header fields of a message as its blob has them. *)
Definition blob_headers (e : ImapEmail) (entries : list (list byte * list byte)) : Prop :=
  exists raw root fs, read_blob (blob e) = Ok raw /\ parse raw = Ok root /\
    fst (fields raw (header root) tt) = Ok fs /\ entries = map header_entry fs.

(** A text contains another, in any case; the empty one is in every text. *)
Definition mentions (haystack needle : list byte) : Prop :=
  needle = [] \/ exists before after, to_lowercase haystack = before ++ to_lowercase needle ++ after.

Definition some_address (addresses : list EmailAddress) (needle : list byte) : Prop :=
  exists a, a ∈ addresses /\
    (mentions (email a) needle \/ exists n, address_name a = Some n /\ mentions n needle).

Fixpoint satisfies (key : SearchKey) (target : Target) (scope : Scope) : Prop :=
  let e := target_email target in
  match key with
  | SearchKey.All | SearchKey.Old => True
  | SearchKey.New | SearchKey.Recent => False
  | SearchKey.And keys => foldr (fun key p => satisfies key target scope /\ p) True keys
  | SearchKey.Or l r => satisfies l target scope \/ satisfies r target scope
  | SearchKey.Not inner => ~ satisfies inner target scope
  | SearchKey.SequenceSet set => exists r, r ∈ ranges set (largest_msn scope) /\ r.1 <= msn target <= r.2
  | SearchKey.Uid set => exists r, r ∈ ranges set (largest_uid scope) /\ r.1 <= uid e <= r.2
  | SearchKey.Keyword keyword => keyword ∈ keywords e
  | SearchKey.Unkeyword keyword => keyword ∉ keywords e
  | SearchKey.Bcc text => some_address (bcc e) text
  | SearchKey.Cc text => some_address (cc e) text
  | SearchKey.From text => some_address (from e) text
  | SearchKey.To text => some_address (to e) text
  | SearchKey.Subject text => mentions (subject e) text
  | SearchKey.Body term | SearchKey.Text term =>
      trim term = [] \/ exists ids, search_emails term = Ok ids /\ email_id e ∈ ids
  | SearchKey.Header field text =>
      exists entries, blob_headers e entries /\
        exists name value, (name, value) ∈ entries /\ to_ascii_lowercase name = to_ascii_lowercase field /\
          exists before after, value = before ++ to_lowercase text ++ after
  | SearchKey.Before d => day (received_at e) < d
  | SearchKey.On d => day (received_at e) = d
  | SearchKey.Since d => d <= day (received_at e)
  | SearchKey.SentBefore d => sent_day e < d
  | SearchKey.SentOn d => sent_day e = d
  | SearchKey.SentSince d => d <= sent_day e
  | SearchKey.Larger n => n < size e
  | SearchKey.Smaller n => size e < n
  | SearchKey.ModSeq n => n <= modseq e
  | SearchKey.Younger seconds => age scope e <= wrap_i64 seconds
  | SearchKey.Older seconds => wrap_i64 seconds < age scope e
  end.

(** ** Lemmas *)

Implicit Types (p : Prepared).

Lemma has_substring_iff needle haystack :
  has_substring needle haystack = true <-> exists before after, haystack = before ++ needle ++ after.
Proof.
  assert (Hprefix : forall h, starts_with needle h = true <-> exists after, h = needle ++ after).
  { intros h. unfold starts_with. rewrite bool_decide_eq_true. split.
    - intros Ht. exists (drop (length needle) h). rewrite <- Ht at 1. by rewrite take_drop.
    - intros [after ->]. apply take_app_length. }
  induction haystack as [|b h IH]; simpl; rewrite orb_true_iff, Hprefix, ?IH; split.
  - intros [[after ->]|?]; [by exists [], after | done].
  - intros ([|b before] & after & H); [left; by exists after | done].
  - intros [[after ->]|(before & after & ->)]; [by exists [], after | by exists (b :: before), after].
  - intros ([|b' before] & after & H); [left; by exists after | right; simplify_eq/=; by exists before, after].
Qed.

Lemma contains_mentions haystack needle : contains haystack needle = true <-> mentions haystack needle.
Proof. unfold contains, mentions. by rewrite orb_true_iff, bool_decide_eq_true, has_substring_iff. Qed.

Lemma addresses_contain_iff addresses needle :
  addresses_contain addresses needle = true <-> some_address addresses needle.
Proof.
  unfold addresses_contain, some_address. rewrite existsb_exists.
  setoid_rewrite <- contains_mentions. split; intros (a & Ha & H); exists a;
    (split; [by apply list_elem_of_In|]); revert H; rewrite orb_true_iff; destruct (address_name a); naive_solver.
Qed.

Lemma has_keyword_iff e k : has_keyword e k = true <-> k ∈ keywords e.
Proof.
  unfold has_keyword. rewrite existsb_exists. split.
  - intros (x & Hx & ->%bool_decide_eq_true). by apply list_elem_of_In.
  - intros Hk. exists k. split; [by apply list_elem_of_In | by apply bool_decide_eq_true].
Qed.

(** The terms looked up are in the map, each with its hits. *)
Definition text_ok (terms : list (list byte)) (p : Prepared) : Prop :=
  forall term, term ∈ terms -> exists ids, search_emails term = Ok ids /\ text p !! term = Some (list_to_set ids).

Lemma wp_run {S E' A} (m : M S E' A) (Q : A -> S -> Prop) s a s' :
  wp m Q (fun _ => True) s -> m s = (Ok a, s') -> Q a s'.
Proof. intros H Heq. unfold wp in H. by rewrite Heq in H. Qed.

(** The maps hold nothing but what was asked. *)
Definition text_sound (p : Prepared) : Prop :=
  forall term ids, text p !! term = Some ids -> exists l, search_emails term = Ok l /\ ids = list_to_set l.

Lemma prepare_terms_run terms p p' :
  for_each prepare_term terms p = (Ok tt, p') -> text_sound p ->
  text_sound p' /\ headers p' = headers p /\ (forall term, is_Some (text p !! term) -> is_Some (text p' !! term)) /\
  (forall term, term ∈ terms -> is_Some (text p' !! term)).
Proof.
  revert p. induction terms as [|term terms IH]; intros p H Hp.
  { injection H as <-. split_and!; auto. by intros term ?%elem_of_nil. }
  cbn [for_each] in H. unfold mbind, M_bind in H.
  assert (Hstep : forall p1, prepare_term term p = (Ok tt, p1) ->
    text_sound p1 /\ headers p1 = headers p /\ (forall t, is_Some (text p !! t) -> is_Some (text p1 !! t)) /\
    is_Some (text p1 !! term)).
  { intros p1 H1. unfold prepare_term, mbind, M_bind in H1. cbn [get] in H1. case_decide as Hin.
    - injection H1 as <-. auto.
    - unfold lift in H1. destruct (search_emails term) as [ids| | |] eqn:Es; try discriminate.
      injection H1 as <-. unfold text_sound. cbn [text headers set_text]. split_and!; auto.
      + intros t l. rewrite lookup_insert. case_decide; [subst; intros [= <-]; eauto | apply Hp].
      + intros t Ht. rewrite lookup_insert. case_decide; [by eexists | done].
      + rewrite lookup_insert_eq. by eexists. }
  destruct (prepare_term term p) as [[[]| | |] p1] eqn:E1; simplify_eq.
  destruct (Hstep p1 eq_refl) as (Hp1 & Hh1 & Hk1 & Ht1).
  destruct (IH p1 H Hp1) as (Hp' & Hh & Hk & Hall). split_and!; [done | congruence | auto |].
  intros t [->|Ht]%elem_of_cons; auto.
Qed.

(** What is known of one message's entry. *)
Definition headers_sound (emails : list ImapEmail) (p : Prepared) : Prop :=
  forall id entries, headers p !! id = Some entries ->
    exists e, e ∈ emails /\ email_id e = id /\ blob_headers e entries.

Lemma message_headers_run raw p entries p' :
  message_headers raw p = (Ok entries, p') ->
  p' = p /\ exists root fs, parse raw = Ok root /\ fst (fields raw (header root) tt) = Ok fs /\
    entries = map header_entry fs.
Proof.
  unfold message_headers, infallible, mbind, M_bind, lift. cbn.
  destruct (parse raw) as [root|[]| |]; try done. cbn.
  destruct (fst (fields raw (header root) tt)) as [fs|[]| |] eqn:Ef; try done. cbn. intros [= <- <-]. split; [done|]. by exists root, fs.
Qed.

Lemma prepare_headers_run all emails p p' :
  for_each prepare_headers emails p = (Ok tt, p') -> emails ⊆ all -> headers_sound all p ->
  headers_sound all p' /\ text p' = text p /\
  (forall e, is_Some (headers p !! email_id e) -> is_Some (headers p' !! email_id e)) /\
  (forall e, e ∈ emails -> is_Some (headers p' !! email_id e)).
Proof.
  revert p. induction emails as [|e emails IH]; intros p H Hsub Hp.
  { injection H as <-. split_and!; auto. by intros e ?%elem_of_nil. }
  cbn [for_each] in H. unfold mbind, M_bind in H.
  destruct (prepare_headers e p) as [[[]| | |] p1] eqn:E1; simplify_eq.
  assert (Hstep : exists entries, blob_headers e entries /\ p1 = set_headers (<[email_id e := entries]> (headers p)) p).
  { unfold prepare_headers, mbind, M_bind, lift in E1.
    destruct (read_blob (blob e)) as [raw| | |] eqn:Er; try discriminate.
    destruct (message_headers raw p) as [[entries| | |] p2] eqn:E2; try discriminate. injection E1 as <-.
    apply message_headers_run in E2 as (-> & root & fs & ? & ? & ->).
    eexists. split; [|reflexivity]. by exists raw, root, fs. }
  destruct Hstep as (entries & Hentries & ->).
  destruct (IH _ H) as (Hp' & Ht & Hk & Hall).
  - set_solver.
  - intros id l. cbn [headers set_headers]. rewrite lookup_insert. case_decide; [|apply Hp].
    intros [= <-]. exists e. split; [set_solver | done].
  - cbn [headers set_headers] in Hk. split_and!; [done | done | |].
    + intros e' He'. apply Hk. rewrite lookup_insert. case_decide; [by eexists | done].
    + intros e' [->|He']%elem_of_cons; [|auto]. apply Hk. rewrite lookup_insert_eq. by eexists.
Qed.

(** What [prepare] returns holds the hits of every term and, when a header is asked
    for, the fields of every message. *)
Lemma prepare_sound key emails prepared :
  prepare key emails = Ok prepared ->
  text_sound prepared /\ headers_sound emails prepared /\
  (forall k term, k ∈ walk key -> term_of k = Some term -> is_Some (text prepared !! term)) /\
  (forall k e, k ∈ walk key -> is_header k = true -> e ∈ emails -> is_Some (headers prepared !! email_id e)).
Proof.
  unfold prepare, mbind, M_bind. set (p0 := {| text := ∅; headers := ∅ |}).
  destruct (for_each prepare_term _ p0) as [[[]| | |] p1] eqn:E1; try discriminate.
  apply prepare_terms_run in E1 as (Hp1 & Hh1 & _ & Hterms); [|intros t ids; cbn; by rewrite lookup_empty].
  assert (H0 : headers_sound emails p1) by (intros id l; rewrite Hh1; cbn; by rewrite lookup_empty).
  assert (Hterm : forall k term, k ∈ walk key -> term_of k = Some term -> term ∈ omap term_of (walk key))
    by (intros k term Hk Ht; apply list_elem_of_omap; eauto).
  destruct (existsb is_header (walk key)) eqn:Eh.
  - destruct (for_each prepare_headers emails p1) as [[[]| | |] p2] eqn:E2; try discriminate. intros [= <-].
    apply (prepare_headers_run emails) in E2 as (Hp2 & Ht2 & _ & Hall); [|done..].
    split_and!; eauto.
    + intros t ids Ht. rewrite Ht2 in Ht. by apply Hp1.
    + intros k term Hk Ht. rewrite Ht2. eauto.
  - intros [= <-]. split_and!; eauto.
    intros k e Hk Hhead. exfalso. apply not_true_iff_false in Eh. apply Eh, existsb_exists.
    exists k. split; [by apply list_elem_of_In | done].
Qed.

Lemma walk_self key : key ∈ walk key.
Proof. destruct key; by left. Qed.

Lemma walk_And keys k : k ∈ keys -> walk k ⊆ walk (SearchKey.And keys).
Proof.
  intros Hk x Hx. simpl. right. induction keys as [|k' keys IH]; [by apply elem_of_nil in Hk|].
  simpl. apply elem_of_app. apply elem_of_cons in Hk as [<-|Hk]; [by left | right; by apply IH].
Qed.

(** What [matches] needs of [prepared], for one message and the keys of one search. *)
Definition prepared_for (key : SearchKey) (e : ImapEmail) (p : Prepared) : Prop :=
  (forall k term, k ∈ walk key -> term_of k = Some term ->
     exists ids, search_emails term = Ok ids /\ text p !! term = Some (list_to_set ids)) /\
  (forall k, k ∈ walk key -> is_header k = true ->
     exists entries, blob_headers e entries /\ headers p !! email_id e = Some entries).

Lemma prepared_for_sub key key' e p : walk key' ⊆ walk key -> prepared_for key e p -> prepared_for key' e p.
Proof. intros Hs [H1 H2]. split; [intros k t Hk; apply H1 | intros k Hk; apply H2]; by apply Hs. Qed.

Lemma blob_headers_unique e l l' : blob_headers e l -> blob_headers e l' -> l = l'.
Proof. intros (r & t & f & ? & ? & ? & ->) (r' & t' & f' & ? & ? & ? & ->). congruence. Qed.

Lemma matches_text_iff key term target p :
  prepared_for key (target_email target) p -> term_of key = Some term ->
  matches_text p (target_email target) term = true <->
  trim term = [] \/ exists ids, search_emails term = Ok ids /\ email_id (target_email target) ∈ ids.
Proof.
  intros [Hp _] Hterm. destruct (Hp key term (walk_self key) Hterm) as (ids & Hids & Hlook).
  unfold matches_text. rewrite orb_true_iff, bool_decide_eq_true, Hlook, bool_decide_eq_true.
  rewrite elem_of_list_to_set, Hids. naive_solver.
Qed.

Lemma matches_header_iff field text target p :
  prepared_for (SearchKey.Header field text) (target_email target) p ->
  matches_header p (target_email target) field text = true <->
  exists entries, blob_headers (target_email target) entries /\
    exists name value, (name, value) ∈ entries /\ to_ascii_lowercase name = to_ascii_lowercase field /\
      exists before after, value = before ++ to_lowercase text ++ after.
Proof.
  intros [_ Hp]. destruct (Hp _ (walk_self _) eq_refl) as (entries & Hentries & Hlook).
  unfold matches_header. rewrite Hlook, existsb_exists. split.
  - intros ([name value] & Hin & [Hn Hv]%andb_prop). exists entries. split; [done|].
    exists name, value. split_and!; [by apply list_elem_of_In | by apply eq_ignore_ascii_case_iff | by apply has_substring_iff].
  - intros (entries' & He & name & value & Hin & Hn & Hv).
    rewrite (blob_headers_unique _ _ _ He Hentries) in Hin. exists (name, value).
    split; [by apply list_elem_of_In|]. apply andb_true_intro.
    split; [by apply eq_ignore_ascii_case_iff | by apply has_substring_iff].
Qed.

Lemma matches_satisfies key target scope p :
  prepared_for key (target_email target) p -> matches key target scope p = true <-> satisfies key target scope.
Proof.
  pattern key.
  refine (search_key_ind' _ _ _ _ _ key); [intros keys IH|intros l r IHl IHr|intros k IHk|clear key; intros key].
  - intros Hp. simpl. rewrite forallb_forall.
    assert (Hp' : forall k, k ∈ keys -> prepared_for k (target_email target) p)
      by (intros k Hk; eapply prepared_for_sub; [by apply walk_And | done]).
    clear Hp. induction IH as [|k keys Hk _ IHks]; [split; [done | by intros _ k []]|].
    simpl. rewrite <- Hk by (apply Hp'; by left). rewrite <- IHks by (intros k' Hk'; apply Hp'; by right).
    split; [intros H; split; [apply H; by left | intros x Hx; apply H; by right] | intros [H1 H2] x [<-|Hx]; auto].
  - intros Hp. simpl. rewrite orb_true_iff.
    rewrite IHl, IHr; [done|..]; (eapply prepared_for_sub; [|exact Hp]); simpl; set_solver.
  - intros Hp. simpl. rewrite negb_true_iff, <- not_true_iff_false.
    rewrite IHk; [done|]. eapply prepared_for_sub; [|exact Hp]. simpl. set_solver.
  - destruct key; try done; intros Hp; simpl;
      rewrite ?set_contains_iff, ?addresses_contain_iff, ?contains_mentions; try done; try lia.
    + apply has_keyword_iff.
    + rewrite negb_true_iff, <- not_true_iff_false. by rewrite has_keyword_iff.
    + by eapply matches_text_iff.
    + by eapply matches_text_iff.
    + by apply matches_header_iff.
Qed.

End search.

Lemma prepared_matches {E} to_lowercase search_emails (read_blob : list byte -> outcome E (list byte))
    key emails prepared target scope :
  prepare to_lowercase search_emails read_blob key emails = Ok prepared ->
  target_email target ∈ emails -> NoDup (email_id <$> emails) ->
  matches to_lowercase key target scope prepared = true <->
  satisfies to_lowercase search_emails read_blob key target scope.
Proof.
  intros Hprep Hin Hnd. apply matches_satisfies.
  apply prepare_sound in Hprep as (Htext & Hheaders & Hterms & Hall). split.
  - intros k term Hk Ht. destruct (Hterms k term Hk Ht) as [ids Hids].
    destruct (Htext term ids Hids) as (l & Hl & ->). by exists l.
  - intros k Hk Hhead. destruct (Hall k _ Hk Hhead Hin) as [entries Hentries].
    destruct (Hheaders _ _ Hentries) as (e & He & Hid & Hblob).
    assert (e = target_email target) as ->.
    { apply list_elem_of_lookup in He as [i Hi], Hin as [j Hj].
      assert (i = j) as ->; [|congruence].
      eapply (NoDup_lookup (email_id <$> emails)); [exact Hnd | by rewrite list_lookup_fmap, Hi |].
      rewrite list_lookup_fmap, Hj. simpl. by rewrite Hid. }
    by exists entries.
Qed.

(** C19: SEARCH answers what its criteria mean. When [prepare] returned, [matches]
    accepts exactly the messages that satisfy the criteria: sequence numbers and UIDs
    in the ranges, keywords, sizes and dates of the message, full-text hits as the
    index gives them for each term, header fields as the message's own blob has them;
    AND, OR and NOT are those of logic. What was gathered once for all messages makes
    no difference. *)
Theorem search_decides_criteria {E} to_lowercase search_emails (read_blob : list byte -> outcome E (list byte))
    key emails prepared target scope :
  prepare to_lowercase search_emails read_blob key emails = Ok prepared ->
  target_email target ∈ emails -> NoDup (email_id <$> emails) ->
  matches to_lowercase key target scope prepared = true <->
  satisfies to_lowercase search_emails read_blob key target scope.
Proof. apply prepared_matches. Qed.

(** An answer to SEARCH carries the highest modseq exactly when MODSEQ stands
    somewhere in the criteria, at any depth. *)
Theorem uses_modseq_iff key : uses_modseq key = true <-> exists n, SearchKey.ModSeq n ∈ walk key.
Proof.
  unfold uses_modseq.
  assert (Hfold : forall keys found, foldl (fun found k => found || is_modseq k) found keys = true <->
    found = true \/ exists n, SearchKey.ModSeq n ∈ keys).
  { induction keys as [|k keys IH]; intros found; simpl.
    - split; [by left | intros [?|[n ?%elem_of_nil]]; done].
    - rewrite IH, orb_true_iff. setoid_rewrite elem_of_cons. destruct k; simpl; naive_solver. }
  rewrite Hfold. naive_solver.
Qed.

Definition one_email : ImapEmail :=
  {| uid := 3; email_id := 7; modseq := 9; keywords := [bs "$seen"]; blob := bs "h"; size := 20;
     received_at := 0; sent_at := None; subject := bs "Cats"; from := []; to := []; cc := []; bcc := [] |}.

Definition cat_search : SearchKey :=
  SearchKey.And [SearchKey.Body (bs "cat"); SearchKey.Not (SearchKey.Header (bs "subject") (bs "Dog"))].

Definition cat_index (term : list byte) : outcome Empty_set (list Z) := Ok [7].

Definition cat_blobs (hash : list byte) : outcome Empty_set (list byte) := Ok (bs "Subject: Cats").

Definition cat_prepared : Prepared :=
  {| text := {[ bs "cat" := {[ 7 ]} ]}; headers := {[ 7 := [(bs "subject", bs "cats")] ]} |}.

Definition cat_target : Target := {| msn := 1; target_email := one_email |}.

Definition cat_scope : Scope := {| largest_msn := 1; largest_uid := 3; now := 0 |}.

Lemma search_decides_criteria_witness :
  matches to_ascii_lowercase cat_search cat_target cat_scope cat_prepared = true /\
  satisfies to_ascii_lowercase cat_index cat_blobs cat_search cat_target cat_scope.
Proof.
  assert (Hm : matches to_ascii_lowercase cat_search cat_target cat_scope cat_prepared = true)
    by (vm_compute; reflexivity).
  split; [exact Hm|].
  apply (search_decides_criteria to_ascii_lowercase cat_index cat_blobs cat_search [one_email] cat_prepared
    cat_target cat_scope); [vm_compute; reflexivity | by left | repeat constructor; set_solver | exact Hm].
Defined.
