(* ===== verification/Places.v ===== *)
(** * Counting maps

    Several parts of the server count what is under way per key in a map: the first of
    a key makes an entry, the last one removes it. [take_one] and [release_one] are
    those operations on counters of [w] bits; [places] says how a count stands in such
    a map, and the lemmas that the operations keep it exact. *)

From stdpp Require Import gmap.
From S2P Require Import Prelude.

Section places.
Context {K : Type} `{Countable K}.

(** [*map.entry(k).or_default() += 1] *)
Definition take_one (w : Z) (k : K) (m : gmap K Z) : gmap K Z :=
  <[k := (default 0 (m !! k) + 1) `mod` 2 ^ w]> m.

(** One less, and no entry when none is left. *)
Definition release_one (w : Z) (k : K) (m : gmap K Z) : gmap K Z :=
  match m !! k with
  | Some count =>
      let count := (count - 1) `mod` 2 ^ w in if count =? 0 then delete k m else <[k := count]> m
  | None => m
  end.

(** How a count stands in a map. *)
Definition places (n : nat) : option Z := if decide (n = 0%nat) then None else Some (Z.of_nat n).

Lemma default_places n : default 0 (places n) = Z.of_nat n.
Proof. unfold places. case_decide; simpl; lia. Qed.

Lemma take_place w (m : gmap K Z) (c : K -> nat) k :
  (forall k, m !! k = places (c k)) -> Z.of_nat (c k) + 1 < 2 ^ w ->
  forall k', take_one w k m !! k' = places ((if decide (k = k') then 1 else 0) + c k')%nat.
Proof.
  intros Hm Hk k'. unfold take_one. rewrite Hm, default_places, Z.mod_small by lia. case_decide; subst.
  - rewrite lookup_insert_eq. unfold places. case_decide; [lia|]. f_equal. lia.
  - by rewrite lookup_insert_ne.
Qed.

Lemma release_place w (m : gmap K Z) (c : K -> nat) k :
  (forall k', m !! k' = places ((if decide (k = k') then 1 else 0) + c k')%nat) -> Z.of_nat (c k) + 1 < 2 ^ w ->
  forall k', release_one w k m !! k' = places (c k').
Proof.
  intros Hm Hk k'. unfold release_one. rewrite (Hm k), decide_True by done. unfold places at 1.
  destruct (decide (1 + c k = 0)%nat); [lia|]. rewrite Z.mod_small by lia.
  destruct (Z.eqb_spec (Z.of_nat (1 + c k) - 1) 0) as [E|E]; destruct (decide (k = k')) as [<-|Hne].
  - rewrite lookup_delete_eq. unfold places. by rewrite decide_True by lia.
  - rewrite lookup_delete_ne, Hm, decide_False by done. done.
  - rewrite lookup_insert_eq. unfold places. rewrite decide_False by lia. f_equal. lia.
  - rewrite lookup_insert_ne, Hm, decide_False by done. done.
Qed.

(** How many of the things under way have a key: [R a k] when [a] counts for [k]. *)
Definition having {A} (R : A -> K -> Prop) `{!RelDecision R} (s : list A) (k : K) : nat :=
  length (filter (fun a => R a k) s).

Context {A : Type} (R : A -> K -> Prop) `{!RelDecision R}.

Lemma having_cons a s k : having R (a :: s) k = ((if decide (R a k) then 1 else 0) + having R s k)%nat.
Proof. unfold having. rewrite filter_cons. by case_decide. Qed.

Lemma having_delete s i a k : s !! i = Some a ->
  having R s k = ((if decide (R a k) then 1 else 0) + having R (delete i s) k)%nat.
Proof. intros Hi. rewrite <-having_cons. unfold having. by rewrite (delete_Permutation s i a Hi) at 1. Qed.

Lemma having_le s k : (having R s k <= length s)%nat.
Proof. apply length_filter. Qed.

End places.
