(* ===== verification/Network.v ===== *)
(** * Addresses and networks (crates\/uwumail-store\/src\/limiter.rs)

    [IpAddr] with what the limiter uses of the standard library: the canonical form,
    parsing and printing. [Network] is an address or a network on the list of those
    that are never blocked, [key] the network failures are counted for, [public]
    whether strangers can come from an address. *)

From stdpp Require Import gmap.
From S2P Require Import Prelude Utf8.

(** ** Addresses *)

(** An IPv4 address is 32 bits, an IPv6 address 128. *)
Inductive IpAddr : Type :=
  | V4 (bits : Z)
  | V6 (bits : Z).

#[export] Instance IpAddr_eq_dec : EqDecision IpAddr.
Proof. solve_decision. Defined.

#[export] Instance IpAddr_countable : Countable IpAddr.
Proof.
  refine (inj_countable' (fun ip => match ip with V4 a => inl a | V6 a => inr a end)
    (fun s => match s with inl a => V4 a | inr a => V6 a end) _).
  by intros [].
Defined.

Definition ip_ok (ip : IpAddr) : Prop :=
  match ip with V4 a => 0 <= a < 2 ^ 32 | V6 a => 0 <= a < 2 ^ 128 end.

#[export] Instance ip_ok_dec ip : Decision (ip_ok ip).
Proof. destruct ip; unfold ip_ok; apply _. Defined.

Definition is_ipv4 (ip : IpAddr) : bool := match ip with V4 _ => true | V6 _ => false end.

(** [to_canonical]: an IPv4-mapped address, [::ffff:a.b.c.d], is the IPv4 address. *)
Definition to_canonical (ip : IpAddr) : IpAddr :=
  match ip with
  | V6 a => if Z.shiftr a 32 =? 0xffff then V4 (a `mod` 2 ^ 32) else ip
  | V4 _ => ip
  end.

(** The order of [IpAddr]: IPv4 first, then by number. *)
Definition ip_le (a b : IpAddr) : Prop :=
  match a, b with
  | V4 x, V4 y | V6 x, V6 y => x <= y
  | V4 _, V6 _ => True
  | V6 _, V4 _ => False
  end.

#[export] Instance ip_le_dec : RelDecision ip_le.
Proof. intros [] []; unfold ip_le; apply _. Defined.

(** Octet [i] of an IPv4 address, segment [i] of an IPv6 address, from the left. *)
Definition octet (a i : Z) : Z := Z.land (Z.shiftr a (24 - 8 * i)) 0xff.

Definition segment (a i : Z) : Z := Z.land (Z.shiftr a (112 - 16 * i)) 0xffff.

(** ** The network an address is counted for *)

(** The /64 of an IPv6 address: segments 4 to 7 cleared. *)
Definition key (ip : IpAddr) : IpAddr :=
  match to_canonical ip with
  | V4 a => V4 a
  | V6 a => V6 (Z.shiftl (Z.shiftr a 64) 64)
  end.

(** Whether strangers can come from this address at all. *)
Definition public (ip : IpAddr) : bool :=
  match to_canonical ip with
  | V4 v4 =>
      let a := octet v4 0 in
      let b := octet v4 1 in
      let is_loopback := a =? 127 in
      let is_private := (a =? 10) || ((a =? 172) && ((16 <=? b) && (b <=? 31))) || ((a =? 192) && (b =? 168)) in
      let is_link_local := (a =? 169) && (b =? 254) in
      let is_unspecified := v4 =? 0 in
      let is_broadcast := v4 =? 2 ^ 32 - 1 in
      negb (is_loopback || is_private || is_link_local || is_unspecified || is_broadcast
            || ((a =? 100) && ((64 <=? b) && (b <? 128))))
  | V6 v6 =>
      let first := segment v6 0 in
      negb ((v6 =? 1) || (v6 =? 0) || (Z.land first 0xfe00 =? 0xfc00) || (Z.land first 0xffc0 =? 0xfe80))
  end.

(** ** Networks *)

Record Network := { address : IpAddr; prefix : Z }.

#[export] Instance Network_eq_dec : EqDecision Network.
Proof. solve_decision. Defined.

(** [checked_shl] on [w] bits *)
Definition checked_shl (w x n : Z) : option Z := if n <? w then Some (Z.shiftl x n `mod` 2 ^ w) else None.

(** The bits a network fixes; the subtraction wraps as [u32] does. *)
Definition mask (w prefix : Z) : Z := default 0 (checked_shl w (2 ^ w - 1) ((w - prefix) `mod` 2 ^ 32)).

Definition contains (n : Network) (ip : IpAddr) : bool :=
  match address n, to_canonical ip with
  | V4 net, V4 ip => Z.land net (mask 32 (prefix n)) =? Z.land ip (mask 32 (prefix n))
  | V6 net, V6 ip => Z.land net (mask 128 (prefix n)) =? Z.land ip (mask 128 (prefix n))
  | _, _ => false
  end.

Definition longest (ip : IpAddr) : Z := if is_ipv4 ip then 32 else 128.

(** ** Parsing addresses, as [IpAddr::from_str] does *)

(** [char::to_digit]: the digits of a number in [radix], at most 16. *)
Definition to_digit (radix : Z) (b : byte) : option Z :=
  let d :=
    if is_ascii_digit b then Some (bz b - 48)
    else if is_ascii_lowercase b then Some (bz b - 87)
    else if is_ascii_uppercase b then Some (bz b - 55) else None in
  d ≫= fun d => if d <? radix then Some d else None.

(** The digits at the front of [s]: their value, how many, and the rest. *)
Fixpoint read_digits (radix value : Z) (count : nat) (s : list byte) : Z * nat * list byte :=
  match s with
  | b :: s' =>
      match to_digit radix b with
      | Some d => read_digits radix (value * radix + d) (S count) s'
      | None => (value, count, s)
      end
  | [] => (value, count, s)
  end.

Definition read_number (radix : Z) (max_digits : nat) (allow_zero_prefix : bool) (max : Z) (s : list byte)
    : option (Z * list byte) :=
  let '(value, count, rest) := read_digits radix 0 0 s in
  if decide (count = 0 \/ max_digits < count)%nat then None
  else if negb allow_zero_prefix && bool_decide (head s = Some "0"%byte) && bool_decide (1 < count)%nat then None
  else if max <? value then None
  else Some (value, rest).

Definition read_char (c : byte) (s : list byte) : option (list byte) :=
  match s with b :: s' => if decide (b = c) then Some s' else None | [] => None end.

Definition read_octet : list byte -> option (Z * list byte) := read_number 10 3 false 255.

Definition read_ipv4 (s : list byte) : option (Z * list byte) :=
  '(a, s) ← read_octet s; s ← read_char "."%byte s;
  '(b, s) ← read_octet s; s ← read_char "."%byte s;
  '(c, s) ← read_octet s; s ← read_char "."%byte s;
  '(d, s) ← read_octet s;
  Some (((a * 256 + b) * 256 + c) * 256 + d, s).

(** [read_groups]: at most [limit] groups, an IPv4 address at the end taking two.
    [Some v4] in the result when it ended in one; [first] before the first group. *)
Fixpoint read_groups (limit : nat) (first : bool) (s : list byte) : list Z * bool * list byte :=
  match limit with
  | O => ([], false, s)
  | S limit' =>
      let after := if first then Some s else read_char ":"%byte s in
      match (if decide (limit' = 0%nat) then None else after ≫= read_ipv4) with
      | Some (v4, s') => ([Z.shiftr v4 16; Z.land v4 0xffff], true, s')
      | None =>
          match after ≫= read_number 16 4 true 0xffff with
          | Some (g, s') => let '(gs, ipv4, s'') := read_groups limit' false s' in (g :: gs, ipv4, s'')
          | None => ([], false, s)
          end
      end
  end.

Definition of_segments (segments : list Z) : Z := foldl (fun a s => a * 0x10000 + s) 0 segments.

Definition read_ipv6 (s : list byte) : option (Z * list byte) :=
  let '(head, ipv4, s) := read_groups 8 true s in
  if decide (length head = 8%nat) then Some (of_segments head, s)
  else if (ipv4 : bool) then None
  else
    s ← read_char ":"%byte s; s ← read_char ":"%byte s;
    let '(tail, _, s) := read_groups (7 - length head) true s in
    Some (of_segments (head ++ replicate (8 - length head - length tail) 0 ++ tail), s).

Definition parse_ip (s : list byte) : option IpAddr :=
  '(ip, rest) ← match read_ipv4 s with
                | Some (a, rest) => Some (V4 a, rest)
                | None => '(a, rest) ← read_ipv6 s; Some (V6 a, rest)
                end;
  if decide (rest = []) then Some ip else None.

(** [Network::from_str]: [192.0.2.7], [192.0.2.0/24], [2001:db8::/32]. *)
Definition parse_network (text : list byte) : option Network :=
  let text := trim text in
  let '(address, prefix) :=
    match split_once "/"%byte text with
    | Some (address, prefix) => (address, Some prefix)
    | None => (text, None)
    end in
  address ← to_canonical <$> parse_ip address;
  let longest := longest address in
  prefix ← match prefix with
           | Some prefix =>
               if bool_decide (prefix <> []) && forallb is_ascii_digit prefix then parse_unsigned 255 prefix
               else None
           | None => Some longest
           end;
  if longest <? prefix then None else Some {| address := address; prefix := prefix |}.

(** ** Printing *)

Definition show_ipv4 (a : Z) : list byte := join (bs ".") (map (fun i => dec (octet a i)) [0; 1; 2; 3]).

Definition hex_digit (d : Z) : byte := if d <? 10 then zb (48 + d) else zb (87 + d).

(** A segment in hexadecimal, without leading zeros. *)
Definition show_segment (s : Z) : list byte :=
  let digits := map (fun i => hex_digit (Z.land (Z.shiftr s i) 0xf)) [12; 8; 4; 0] in
  drop (if s <? 0x10 then 3%nat else if s <? 0x100 then 2%nat else if s <? 0x1000 then 1%nat else 0%nat) digits.

(** The longest run of zero segments, the first of them when there are several: its
    start and length. *)
Fixpoint zero_run (segments : list Z) (i : nat) (current longest : nat * nat) : nat * nat :=
  match segments with
  | [] => longest
  | s :: segments' =>
      if s =? 0 then
        let current := (if decide (current.2 = 0%nat) then i else current.1, S current.2) in
        zero_run segments' (S i) current (if decide (longest.2 < current.2)%nat then current else longest)
      else zero_run segments' (S i) (0, 0)%nat longest
  end.

Definition show_ipv6 (a : Z) : list byte :=
  if Z.shiftr a 32 =? 0xffff then bs "::ffff:" ++ show_ipv4 (a `mod` 2 ^ 32)
  else
    let segments := map (segment a) [0; 1; 2; 3; 4; 5; 6; 7] in
    let show segments := join (bs ":") (map show_segment segments) in
    let '(start, len) := zero_run segments 0 (0, 0)%nat (0, 0)%nat in
    if decide (1 < len)%nat
    then show (take start segments) ++ bs "::" ++ show (drop (start + len) segments)
    else show segments.

Definition show_ip (ip : IpAddr) : list byte := match ip with V4 a => show_ipv4 a | V6 a => show_ipv6 a end.

(** [impl Display for Network] *)
Definition show_network (n : Network) : list byte :=
  if prefix n =? longest (address n) then show_ip (address n)
  else show_ip (address n) ++ bs "/" ++ dec (prefix n).

(** ** Lemmas: networks *)

Lemma mask_bits w p i : 0 <= p <= w -> w < 2 ^ 32 -> 0 <= i ->
  Z.testbit (mask w p) i = (w - p <=? i) && (i <? w).
Proof.
  intros Hp Hw Hi. unfold mask, checked_shl. rewrite (Z.mod_small (w - p)) by lia.
  destruct (w - p <? w) eqn:E; simpl.
  - replace (2 ^ w - 1) with (Z.ones w) by (rewrite Z.ones_equiv; lia).
    destruct (Z.ltb_spec i w).
    + rewrite Z.mod_pow2_bits_low by lia. rewrite Z.shiftl_spec by lia.
      destruct (Z.leb_spec (w - p) i); simpl.
      * apply Z.ones_spec_low. lia.
      * apply Z.testbit_neg_r. lia.
    + rewrite Z.mod_pow2_bits_high by lia. by rewrite andb_false_r.
  - rewrite Z.bits_0. lia.
Qed.

Lemma testbit_above w a i : 0 <= a < 2 ^ w -> w <= i -> Z.testbit a i = false.
Proof.
  intros Ha Hi. destruct (decide (a = 0)) as [->|]; [by rewrite Z.bits_0|].
  apply Z.bits_above_log2; [lia|]. assert (Z.log2 a < w) by (apply Z.log2_lt_pow2; lia). lia.
Qed.

Lemma land_mask_iff w p a b : 0 <= p <= w -> w < 2 ^ 32 -> 0 <= a < 2 ^ w -> 0 <= b < 2 ^ w ->
  Z.land a (mask w p) = Z.land b (mask w p) <-> Z.shiftr a (w - p) = Z.shiftr b (w - p).
Proof.
  intros Hp Hw Ha Hb. split; intros H; apply Z.bits_inj'; intros i Hi.
  - rewrite !Z.shiftr_spec by lia. destruct (Z.ltb_spec (i + (w - p)) w).
    + assert (Hbit := f_equal (fun z => Z.testbit z (i + (w - p))) H). simpl in Hbit.
      rewrite !Z.land_spec, !mask_bits in Hbit by lia.
      by rewrite (proj2 (Z.leb_le _ _)), (proj2 (Z.ltb_lt _ _)), !andb_true_r in Hbit by lia.
    + by rewrite !(testbit_above w) by lia.
  - rewrite !Z.land_spec, mask_bits by lia. destruct (Z.leb_spec (w - p) i); [|by rewrite !andb_false_r].
    f_equal. assert (Hbit := f_equal (fun z => Z.testbit z (i - (w - p))) H). simpl in Hbit.
    rewrite !Z.shiftr_spec in Hbit by lia. by replace (i - (w - p) + (w - p)) with i in Hbit by lia.
Qed.

Lemma to_canonical_ok ip : ip_ok ip -> ip_ok (to_canonical ip).
Proof.
  intros H. destruct ip as [a|a]; [exact H|]. unfold to_canonical.
  destruct (_ =? _); [|exact H]. unfold ip_ok. apply Z.mod_pos_bound. lia.
Qed.

Lemma to_canonical_idem ip : to_canonical (to_canonical ip) = to_canonical ip.
Proof.
  destruct ip as [a|a]; [reflexivity|]. unfold to_canonical.
  destruct (Z.shiftr a 32 =? 0xffff) eqn:E; [reflexivity | by rewrite E].
Qed.

Lemma key_canonical ip : key (to_canonical ip) = key ip.
Proof. unfold key. by rewrite to_canonical_idem. Qed.

Lemma cleared_not_mapped h : (Z.shiftr (Z.shiftl h 64) 32 =? 0xffff) = false.
Proof.
  rewrite Z.shiftr_shiftl_l by lia. change (64 - 32) with 32.
  rewrite Z.shiftl_mul_pow2 by lia. change (2 ^ 32) with 4294967296. lia.
Qed.

Lemma to_canonical_key ip : to_canonical (key ip) = key ip.
Proof.
  unfold key. destruct (to_canonical ip) as [a|a]; [reflexivity|].
  unfold to_canonical. by rewrite cleared_not_mapped.
Qed.

(** The key of a network is the network. *)
Lemma key_idem ip : key (key ip) = key ip.
Proof.
  unfold key at 1. rewrite to_canonical_key. unfold key. destruct (to_canonical ip) as [a|a]; [reflexivity|].
  rewrite Z.shiftr_shiftl_l by lia. by rewrite Z.shiftl_0_r.
Qed.

(** ** Lemmas: parsing *)

Lemma read_digits_app radix s : forall v c t v' c',
  read_digits radix v c s = (v', c', []) -> read_digits radix v c (s ++ t) = read_digits radix v' c' t.
Proof.
  induction s as [|b s IH]; simpl; intros v c t v' c' H; [congruence|].
  destruct (to_digit radix b); [by apply IH | congruence].
Qed.

(** What may follow a decimal number. *)
Definition number_ends (t : list byte) : Prop :=
  match t with b :: _ => to_digit 10 b = None | [] => True end.

Definition octet_reads (n : Z) : bool :=
  let '(v, c, rest) := read_digits 10 0 0 (dec n) in
  (v =? n) && bool_decide (1 <= c <= 3)%nat && bool_decide (rest = [])
  && (negb (bool_decide (head (dec n) = Some "0"%byte)) || bool_decide (c = 1%nat)).

Lemma octets_read : forallb octet_reads (Z.of_nat <$> seq 0 256) = true.
Proof. vm_compute. reflexivity. Qed.

Lemma read_octet_dec n t : 0 <= n < 256 -> number_ends t -> read_octet (dec n ++ t) = Some (n, t).
Proof.
  intros Hn Ht. pose proof (proj1 (forallb_forall _ _) octets_read n) as H.
  unfold octet_reads in H. destruct (read_digits 10 0 0 (dec n)) as [[v c] rest] eqn:E.
  assert (Hin : List.In n (Z.of_nat <$> seq 0 256)).
  { apply list_elem_of_In, list_elem_of_fmap. exists (Z.to_nat n). split; [lia|]. apply elem_of_seq. lia. }
  specialize (H Hin). rewrite !andb_true_iff, !bool_decide_eq_true in H.
  destruct H as [[[Hv%Z.eqb_eq Hc] ->] Hz]. subst v.
  unfold read_octet, read_number. rewrite (read_digits_app _ _ _ _ _ _ _ E).
  assert (read_digits 10 n c t = (n, c, t)) as ->.
  { destruct t as [|b t]; [done|]. simpl in Ht |- *. by rewrite Ht. }
  destruct (decide (c = 0 \/ 3 < c)%nat); [lia|].
  rewrite head_app. destruct (dec n) eqn:Ed; [by apply dec_nonempty in Ed|]. simpl in Hz |- *.
  replace (255 <? n) with false by lia.
  destruct (bool_decide (Some b = _)) eqn:Eb; simpl in *; [|done].
  apply bool_decide_eq_true in Hz as ->. done.
Qed.

Lemma octet_range a i : 0 <= octet a i < 256.
Proof. unfold octet. change 0xff with (Z.ones 8). rewrite Z.land_ones by lia. apply Z.mod_pos_bound. lia. Qed.

Lemma octets a : 0 <= a < 2 ^ 32 ->
  ((octet a 0 * 256 + octet a 1) * 256 + octet a 2) * 256 + octet a 3 = a.
Proof.
  intros Ha. unfold octet. simpl. change 255 with (Z.ones 8). rewrite !Z.land_ones by lia.
  rewrite !Z.shiftr_div_pow2 by lia. change (2 ^ 24) with 16777216. change (2 ^ 16) with 65536.
  change (2 ^ 8) with 256. change (2 ^ 0) with 1. rewrite Z.div_1_r. dlia.
Qed.

Lemma read_octet_dot n t : 0 <= n < 256 -> read_octet (dec n ++ bs "." ++ t) = Some (n, "."%byte :: t).
Proof. intros Hn. by apply read_octet_dec. Qed.

Lemma read_char_head c t : read_char c (c :: t) = Some t.
Proof. simpl. by rewrite decide_True. Qed.

Lemma read_ipv4_show a t : 0 <= a < 2 ^ 32 -> number_ends t -> read_ipv4 (show_ipv4 a ++ t) = Some (a, t).
Proof.
  intros Ha Ht. rewrite <-(octets a Ha) at 2. unfold show_ipv4. cbn [map join]. rewrite <-!app_assoc.
  unfold read_ipv4. unfold mbind, option_bind.
  do 3 (rewrite read_octet_dot by apply octet_range; cbv beta iota; rewrite read_char_head; cbv beta iota).
  by rewrite read_octet_dec by (apply octet_range || done).
Qed.

Lemma digit_graphic b : is_ascii_digit b = true -> graphic b = true /\ b <> "/"%byte.
Proof.
  intros H. unfold is_ascii_digit, graphic in *. split; [lia|]. intros ->. discriminate H.
Qed.

Definition slash_free (s : list byte) : Prop := Forall (fun b => graphic b = true /\ b <> "/"%byte) s.

Lemma show_ipv4_text a : slash_free (show_ipv4 a).
Proof.
  assert (Hd : forall n, 0 <= n -> slash_free (dec n)).
  { intros n Hn. eapply Forall_impl; [by apply dec_all_digits | apply digit_graphic]. }
  assert (Ho : forall i, slash_free (dec (octet a i))) by (intros i; apply Hd; pose proof (octet_range a i); lia).
  assert (Hdot : slash_free (bs ".")) by (by repeat constructor).
  unfold show_ipv4. cbn [map join]. unfold slash_free in *. by repeat apply Forall_app_2.
Qed.

Lemma parse_ip_show a : 0 <= a < 2 ^ 32 -> parse_ip (show_ipv4 a) = Some (V4 a).
Proof.
  intros Ha. unfold parse_ip. rewrite <-(app_nil_r (show_ipv4 a)), read_ipv4_show by done. reflexivity.
Qed.

Lemma slash_not_in s : slash_free s -> "/"%byte ∉ s.
Proof. intros H Hin. by apply (proj1 (Forall_forall _ _) H) in Hin as []. Qed.

Lemma slash_free_trim s : slash_free s -> trim s = s.
Proof. intros H. apply trim_graphic. eapply Forall_impl; [exact H | by intros ? []]. Qed.

Lemma read_digits_range radix s : 0 <= radix -> forall v c, 0 <= v -> 0 <= (read_digits radix v c s).1.1.
Proof.
  intros Hr. induction s as [|b s IH]; intros v c Hv; simpl; [done|].
  destruct (to_digit radix b) as [d|] eqn:E; [|done]. apply IH.
  unfold to_digit in E. apply bind_Some in E as (d' & Hd & E). destruct (d' <? radix); [|done].
  assert (0 <= d) by (unfold is_ascii_digit, is_ascii_lowercase, is_ascii_uppercase in Hd;
    repeat case_match; simplify_eq; lia). nia.
Qed.

Lemma read_number_range radix m z max s v rest : 0 <= radix ->
  read_number radix m z max s = Some (v, rest) -> 0 <= v <= max.
Proof.
  intros Hr. unfold read_number. pose proof (read_digits_range radix s Hr 0 0%nat ltac:(lia)) as H.
  destruct (read_digits radix 0 0 s) as [[v' c] t]. simpl in H.
  repeat case_match; intros; simplify_eq; lia.
Qed.

Lemma read_ipv4_range s a rest : read_ipv4 s = Some (a, rest) -> 0 <= a < 2 ^ 32.
Proof.
  unfold read_ipv4. intros H. do 3 (apply bind_Some in H as ([? ?] & ? & H); apply bind_Some in H as (? & _ & H)).
  apply bind_Some in H as ([? ?] & ? & H).
  repeat match goal with E : read_octet _ = Some _ |- _ => apply read_number_range in E; [|lia] end.
  injection H as <- <-. lia.
Qed.

Definition segment_ok (g : Z) : Prop := 0 <= g < 0x10000.

Lemma halves_ok v : 0 <= v < 2 ^ 32 -> segment_ok (Z.shiftr v 16) /\ segment_ok (Z.land v 0xffff).
Proof.
  intros Hv. unfold segment_ok. change 0xffff with (Z.ones 16). rewrite Z.land_ones, Z.shiftr_div_pow2 by lia.
  change (2 ^ 16) with 65536. dlia.
Qed.

Lemma read_groups_range limit : forall first s gs ipv4 rest,
  read_groups limit first s = (gs, ipv4, rest) -> Forall segment_ok gs /\ (length gs <= limit)%nat.
Proof.
  induction limit as [|limit IH]; intros first s gs ipv4 rest H.
  { simpl in H. injection H as <- <- <-. split; [constructor | simpl; lia]. }
  cbn [read_groups] in H. set (after := if first then _ else _) in H.
  destruct (if decide (limit = 0%nat) then _ else _) as [[v4 s']|] eqn:E4.
  - destruct (decide (limit = 0%nat)); [done|]. apply bind_Some in E4 as (t & _ & E4).
    apply read_ipv4_range in E4. simplify_eq. split; [|simpl; lia].
    apply halves_ok in E4 as [? ?]. repeat (apply Forall_cons; split; [done|]). apply Forall_nil_2.
  - destruct (after ≫= read_number 16 4 true 0xffff) as [[g s']|] eqn:Eg; [|injection H as <- <- <-; split; [constructor | simpl; lia]].
    apply bind_Some in Eg as (t & _ & Eg). apply read_number_range in Eg; [|lia].
    destruct (read_groups limit false s') as [[gs' i'] s''] eqn:E. simplify_eq.
    apply IH in E as [Hall Hlen]. split; [constructor; [unfold segment_ok; lia | done] | simpl; lia].
Qed.

Lemma of_segments_range segments : Forall segment_ok segments ->
  0 <= of_segments segments < 2 ^ (16 * Z.of_nat (length segments)).
Proof.
  unfold of_segments. intros H. induction segments as [|g gs IH] using rev_ind; [done|].
  apply Forall_app in H as [H [Hg _]%Forall_cons]. specialize (IH H). unfold segment_ok in Hg.
  rewrite foldl_app, length_app. simpl.
  replace (16 * Z.of_nat (length gs + 1)) with (16 * Z.of_nat (length gs) + 16) by lia.
  rewrite Z.pow_add_r by lia. change (2 ^ 16) with 65536. nia.
Qed.

Lemma read_ipv6_range s a rest : read_ipv6 s = Some (a, rest) -> 0 <= a < 2 ^ 128.
Proof.
  unfold read_ipv6. destruct (read_groups 8 true s) as [[hd i] t] eqn:E.
  apply read_groups_range in E as [Hhd Hlen]. case_decide.
  { intros [= <- <-]. replace 128 with (16 * Z.of_nat (length hd)) by lia. by apply of_segments_range. }
  destruct i; [done|]. intros H1. apply bind_Some in H1 as (t1 & _ & H1). apply bind_Some in H1 as (t2 & _ & H1).
  destruct (read_groups (7 - length hd) true t2) as [[tl j] t3] eqn:E.
  apply read_groups_range in E as [Htl Hlen']. simplify_eq.
  set (all := hd ++ _). assert (128 = 16 * Z.of_nat (length all)) as Hall.
  { unfold all. rewrite !length_app, length_replicate. lia. }
  rewrite Hall. apply of_segments_range. unfold all.
  repeat apply Forall_app_2; [done | apply Forall_replicate; unfold segment_ok; lia | done].
Qed.

Lemma parse_ip_ok s ip : parse_ip s = Some ip -> ip_ok ip.
Proof.
  unfold parse_ip. intros H. apply bind_Some in H as ([ip' rest] & Hr & H). case_decide; simplify_eq.
  destruct (read_ipv4 s) as [[a t]|] eqn:E.
  - simplify_eq. by apply read_ipv4_range in E.
  - apply bind_Some in Hr as ([a t] & Hr & ?). simplify_eq. by apply read_ipv6_range in Hr.
Qed.

(** What the list of networks holds: canonical addresses and prefixes in range. *)
Definition network_ok (n : Network) : Prop :=
  ip_ok (address n) /\ to_canonical (address n) = address n /\ 0 <= prefix n <= longest (address n).

(** The bits of an address a network of its family compares. *)
Definition leading_bits (ip : IpAddr) (count : Z) : Z :=
  match ip with V4 a => Z.shiftr a (32 - count) | V6 a => Z.shiftr a (128 - count) end.

(** ** Properties *)

(** What is read as a network is a network: the address is in range and in its
    canonical form, so that an IPv4-mapped one is IPv4, and the prefix is no longer
    than the address. *)
Theorem parse_network_ok text n : parse_network text = Some n -> network_ok n.
Proof.
  unfold parse_network. destruct (split_once _ _) as [[a p]|]; intros H;
    apply bind_Some in H as (ip & Hip & H); apply fmap_Some in Hip as (ip' & Hip & ->);
    apply parse_ip_ok, to_canonical_ok in Hip; apply bind_Some in H as (prefix & Hp & H);
    (destruct (_ <? _) eqn:El; [done|]); injection H as <-;
    (split; [exact Hip|]); (split; [apply to_canonical_idem|]); simpl.
  - destruct (_ && _); [|done]. apply parse_unsigned_bound in Hp; lia.
  - injection Hp as <-. unfold longest. destruct (is_ipv4 _); lia.
Qed.

Lemma parse_network_ok_witness :
  exists n, parse_network (bs "::ffff:192.0.2.0/24") = Some n /\ network_ok n /\ is_ipv4 (address n) = true.
Proof.
  destruct (parse_network (bs "::ffff:192.0.2.0/24")) as [n|] eqn:E; [|vm_compute in E; discriminate].
  exists n. split; [reflexivity|]. split; [exact (parse_network_ok _ n E)|].
  vm_compute in E. injection E as <-. reflexivity.
Defined.

(** An address is in a network exactly when it is of the same family, an
    IPv4-mapped address counting as IPv4, and has the bits the prefix covers. The
    whole family for a prefix of 0, the address alone for the longest prefix. *)
Theorem contains_iff n ip : network_ok n -> ip_ok ip ->
  contains n ip = true <->
  is_ipv4 (address n) = is_ipv4 (to_canonical ip) /\
  leading_bits (address n) (prefix n) = leading_bits (to_canonical ip) (prefix n).
Proof.
  intros (Hok & _ & Hp) Hip%to_canonical_ok. unfold contains, longest in *.
  destruct (address n) as [a|a], (to_canonical ip) as [b|b]; simpl in Hp |- *;
    (split; [|by intros []] || (rewrite Z.eqb_eq, land_mask_iff by (assumption || lia); naive_solver)).
  all: done.
Qed.

Lemma contains_iff_witness :
  exists n ip, contains n ip = true /\ leading_bits (address n) (prefix n) = leading_bits (to_canonical ip) (prefix n).
Proof.
  set (n := {| address := V4 0xC0000200; prefix := 24 |}). set (ip := V6 0xffffC0000207).
  assert (Hn : network_ok n) by (vm_compute; intuition discriminate).
  assert (Hip : ip_ok ip) by (vm_compute; intuition discriminate).
  exists n, ip. split; [vm_compute; reflexivity|]. apply (contains_iff n ip Hn Hip). vm_compute. reflexivity.
Defined.

(** An IPv4 network is read back as it is printed, with or without a prefix. *)
Theorem network_round_trip n : network_ok n -> is_ipv4 (address n) = true ->
  parse_network (show_network n) = Some n.
Proof.
  destruct n as [[a|a] p]; [|done]. intros (Ha & _ & Hp) _. change (0 <= p <= 32) in Hp.
  unfold show_network. cbn [address prefix show_ip]. change (longest (V4 a)) with 32.
  pose proof (show_ipv4_text a) as Htext.
  assert (Hslash : split_once "/"%byte (show_ipv4 a) = None) by exact (proj2 (split_once_None _ _) (slash_not_in _ Htext)).
  destruct (Z.eqb_spec p 32) as [->|Hne].
  - unfold parse_network. rewrite slash_free_trim by done.
    rewrite Hslash, parse_ip_show by exact Ha. reflexivity.
  - assert (Hd : Forall (fun b => is_ascii_digit b = true) (dec p)) by (apply dec_all_digits; lia).
    unfold parse_network. rewrite trim_graphic; cycle 1.
    { apply Forall_app_2; [eapply Forall_impl; [exact Htext | by intros ? []]|].
      constructor; [reflexivity|]. eapply Forall_impl; [exact Hd | intros; by apply digit_graphic]. }
    change (bs "/" ++ dec p) with ("/"%byte :: dec p). rewrite split_once_app by exact (slash_not_in _ Htext).
    rewrite parse_ip_show by exact Ha. cbn -[dec parse_unsigned Z.ltb]. rewrite bool_decide_true by apply dec_nonempty.
    rewrite (proj2 (forallb_forall _ _)) by (intros b Hb; by apply (proj1 (List.Forall_forall _ _) Hd)).
    rewrite parse_unsigned_dec by lia. cbn -[Z.ltb]. by replace (32 <? p) with false by lia.
Qed.

Lemma network_round_trip_witness :
  parse_network (show_network {| address := V4 0xC0000200; prefix := 24 |})
  = Some {| address := V4 0xC0000200; prefix := 24 |}.
Proof. apply network_round_trip; [vm_compute; intuition discriminate | reflexivity]. Defined.
