(* ===== verification/Limiter.v ===== *)
(** * The login limiter (crates\/uwumail-store\/src\/limiter.rs)

    [AuthLimiter] counts failed logins per network, spaces out the tries at one login,
    keeps networks out for a day or a week, and reserves a place for each password
    check that is under way. A method is a function from the limiter before to the one
    after; it reads the clock once, and that reading is its argument. What goes to the
    reporter and to the database is kept in the limiter as a log. The maps are behind
    a mutex each: [begin] is split at [reserve], the step that decides, so that
    [LimiterSafe] can interleave other calls there. Unicode lower casing is a variable. *)

From stdpp Require Import gmap sorting.
From S2P Require Import Prelude Utf8 Places Network.

(** ** Constants; a [Duration] and an [Instant] are nanoseconds, a unix time is seconds *)

Definition from_secs (s : Z) : Z := s * 10 ^ 9.
Definition as_secs (d : Z) : Z := d / 10 ^ 9.

Definition WINDOW : Z := from_secs (15 * 60).
Definition MAX_FAILURES : Z := 10.
Definition MAX_UNKNOWN : Z := 3.
Definition ACCOUNT_FREE_FAILURES : Z := 10.
Definition ACCOUNT_SPACING : Z := from_secs 30.
Definition LOGINS_PER_NETWORK : nat := 16.
Definition MAX_ENTRIES : Z := 100000.
Definition MAX_BLOCKS : Z := 20000.
Definition BLOCK_FIRST : Z := from_secs (24 * 3600).
Definition BLOCK_AGAIN : Z := from_secs (7 * 24 * 3600).
Definition BLOCK_MEMORY : Z := from_secs (30 * 24 * 3600).
Definition KNOWN_FOR : Z := from_secs (30 * 24 * 3600).
Definition KNOWN_REFRESH : Z := 24 * 3600.
Definition SHARED_FOR : Z := from_secs (365 * 24 * 3600).
Definition REPORT_AFTER : Z := 10.
Definition WINDOW_BLOCK_OUTSIDE : Z := from_secs 3600.

Definition NOT_AN_ADDRESS : list byte := bs "not_an_address".
Definition UNKNOWN_LOGINS : list byte := bs "unknown_logins".
Definition WRONG_PASSWORDS : list byte := bs "wrong_passwords".

Definition u32 (z : Z) : Z := z `mod` 2 ^ 32.
Definition u64 (z : Z) : Z := z `mod` 2 ^ 64.
Definition u32_saturating_add (a b : Z) : Z := Z.min u32_max (a + b).
Definition saturating_sub (a b : Z) : Z := Z.max 0 (a - b).

(** A reading of both clocks: [Instant::now] and [unix_now]. *)
Record Clock := { instant : Z; unix : Z }.

Definition elapsed (now : Clock) (since : Z) : Z := saturating_sub (instant now) since.

(** ** State *)

Record Block := {
  ip : IpAddr; reason : list byte; block_login : list byte; protocol : list byte;
  since : Z; until : Z; times : Z }.

#[export] Instance Block_eq_dec : EqDecision Block.
Proof. solve_decision. Defined.

Record Failures := { wrong : Z; unknown : Z; by_login : gmap (list byte) Z }.

Definition no_failures : Failures := {| wrong := 0; unknown := 0; by_login := ∅ |}.

Definition over_the_line (f : Failures) : bool := (MAX_FAILURES <=? wrong f) || (MAX_UNKNOWN <=? unknown f).

Inductive Tried := Unknown | Wrong (login : option (list byte)).

Record AccountFailures := { count : Z; last : Z }.

Record Known := { seen : Z; login : list byte; shared : bool }.

Definition still (k : Known) (now : Z) : bool :=
  saturating_sub now (seen k) <=? as_secs (if shared k then SHARED_FOR else KNOWN_FOR).

Record InFlight := { networks : gmap IpAddr Z; logins : gmap (list byte) Z }.

(** A call of the reporter: the address, how long it is kept out, and why. *)
Definition Report : Type := IpAddr * option Z * list byte.

Record AuthLimiter := {
  failures : gmap IpAddr (Failures * Z);
  accounts : gmap (list byte) AccountFailures;
  in_flight : InFlight;
  reporter : bool;
  reports : list Report;
  blocks : gmap IpAddr Block;
  turned_away : gmap IpAddr Z;
  known : gmap IpAddr Known;
  remember : bool;
  remembered : list (IpAddr * Z * list byte * bool);
  exempt : list Network;
  exempt_hosts : gmap (list byte) (list IpAddr) }.

Definition new_limiter : AuthLimiter :=
  {| failures := ∅; accounts := ∅; in_flight := {| networks := ∅; logins := ∅ |};
     reporter := false; reports := []; blocks := ∅; turned_away := ∅; known := ∅;
     remember := false; remembered := []; exempt := []; exempt_hosts := ∅ |}.

Definition set_failures (f : gmap IpAddr (Failures * Z)) (l : AuthLimiter) : AuthLimiter :=
  {| failures := f; accounts := accounts l; in_flight := in_flight l; reporter := reporter l;
     reports := reports l; blocks := blocks l; turned_away := turned_away l; known := known l;
     remember := remember l; remembered := remembered l; exempt := exempt l; exempt_hosts := exempt_hosts l |}.

Definition set_accounts (a : gmap (list byte) AccountFailures) (l : AuthLimiter) : AuthLimiter :=
  {| failures := failures l; accounts := a; in_flight := in_flight l; reporter := reporter l;
     reports := reports l; blocks := blocks l; turned_away := turned_away l; known := known l;
     remember := remember l; remembered := remembered l; exempt := exempt l; exempt_hosts := exempt_hosts l |}.

Definition set_in_flight (i : InFlight) (l : AuthLimiter) : AuthLimiter :=
  {| failures := failures l; accounts := accounts l; in_flight := i; reporter := reporter l;
     reports := reports l; blocks := blocks l; turned_away := turned_away l; known := known l;
     remember := remember l; remembered := remembered l; exempt := exempt l; exempt_hosts := exempt_hosts l |}.

Definition set_reporter (r : bool) (l : AuthLimiter) : AuthLimiter :=
  {| failures := failures l; accounts := accounts l; in_flight := in_flight l; reporter := r;
     reports := reports l; blocks := blocks l; turned_away := turned_away l; known := known l;
     remember := remember l; remembered := remembered l; exempt := exempt l; exempt_hosts := exempt_hosts l |}.

Definition set_reports (r : list Report) (l : AuthLimiter) : AuthLimiter :=
  {| failures := failures l; accounts := accounts l; in_flight := in_flight l; reporter := reporter l;
     reports := r; blocks := blocks l; turned_away := turned_away l; known := known l;
     remember := remember l; remembered := remembered l; exempt := exempt l; exempt_hosts := exempt_hosts l |}.

Definition set_blocks (b : gmap IpAddr Block) (l : AuthLimiter) : AuthLimiter :=
  {| failures := failures l; accounts := accounts l; in_flight := in_flight l; reporter := reporter l;
     reports := reports l; blocks := b; turned_away := turned_away l; known := known l;
     remember := remember l; remembered := remembered l; exempt := exempt l; exempt_hosts := exempt_hosts l |}.

Definition set_turned_away (t : gmap IpAddr Z) (l : AuthLimiter) : AuthLimiter :=
  {| failures := failures l; accounts := accounts l; in_flight := in_flight l; reporter := reporter l;
     reports := reports l; blocks := blocks l; turned_away := t; known := known l;
     remember := remember l; remembered := remembered l; exempt := exempt l; exempt_hosts := exempt_hosts l |}.

Definition set_known (k : gmap IpAddr Known) (l : AuthLimiter) : AuthLimiter :=
  {| failures := failures l; accounts := accounts l; in_flight := in_flight l; reporter := reporter l;
     reports := reports l; blocks := blocks l; turned_away := turned_away l; known := k;
     remember := remember l; remembered := remembered l; exempt := exempt l; exempt_hosts := exempt_hosts l |}.

Definition set_remembered (b : bool) (r : list (IpAddr * Z * list byte * bool)) (l : AuthLimiter) : AuthLimiter :=
  {| failures := failures l; accounts := accounts l; in_flight := in_flight l; reporter := reporter l;
     reports := reports l; blocks := blocks l; turned_away := turned_away l; known := known l;
     remember := b; remembered := r; exempt := exempt l; exempt_hosts := exempt_hosts l |}.

Definition replace_exempt (e : list Network) (l : AuthLimiter) : AuthLimiter :=
  {| failures := failures l; accounts := accounts l; in_flight := in_flight l; reporter := reporter l;
     reports := reports l; blocks := blocks l; turned_away := turned_away l; known := known l;
     remember := remember l; remembered := remembered l; exempt := e; exempt_hosts := exempt_hosts l |}.

Definition replace_hosts (h : gmap (list byte) (list IpAddr)) (l : AuthLimiter) : AuthLimiter :=
  {| failures := failures l; accounts := accounts l; in_flight := in_flight l; reporter := reporter l;
     reports := reports l; blocks := blocks l; turned_away := turned_away l; known := known l;
     remember := remember l; remembered := remembered l; exempt := exempt l; exempt_hosts := h |}.

(** The reporter is told, when there is one. *)
Definition report (r : Report) (l : AuthLimiter) : AuthLimiter :=
  if reporter l then set_reports (reports l ++ [r]) l else l.

(** [report_to] and [remember_with]: the second only ever takes the first it is given. *)
Definition report_to (r : bool) (l : AuthLimiter) : AuthLimiter := set_reporter r l.

Definition remember_with (l : AuthLimiter) : AuthLimiter := set_remembered true (remembered l) l.

(** The entries to keep, when there are many. *)
Definition swept {K A} `{Countable K} (keep : A -> bool) (m : gmap K A) : gmap K A :=
  if MAX_ENTRIES <? Z.of_nat (size m) then filter (fun kv => keep kv.2 = true) m else m.

(** ** Who is never blocked, who is known *)

Definition is_exempt (l : AuthLimiter) (ip : IpAddr) : bool :=
  existsb (fun n => contains n ip) (exempt l)
  || bool_decide (map_Exists (fun _ addresses => to_canonical ip ∈ addresses) (exempt_hosts l)).

Definition is_known (now : Clock) (l : AuthLimiter) (ip : IpAddr) : bool :=
  match known l !! key ip with Some k => still k (unix now) | None => false end.

Definition is_shared (now : Clock) (l : AuthLimiter) (ip : IpAddr) : bool :=
  match known l !! key ip with Some k => shared k && still k (unix now) | None => false end.

Definition may_block_at_once (now : Clock) (l : AuthLimiter) (ip : IpAddr) : bool :=
  public ip && negb (is_exempt l ip) && negb (is_known now l ip).

Definition kept_out (now : Clock) (l : AuthLimiter) (ip : IpAddr) : bool :=
  match blocks l !! key ip with Some b => unix now <? until b | None => false end.

(** ** Being turned away *)

Definition turn_away (now : Clock) (ip : IpAddr) (l : AuthLimiter) : AuthLimiter :=
  let times := u32_saturating_add (default 0 (turned_away l !! key ip)) 1 in
  let l := set_turned_away (<[key ip := times]> (turned_away l)) l in
  if negb (times `mod` REPORT_AFTER =? 0) then l
  else
    match blocks l !! key ip with
    | Some b =>
        if unix now <? until b then
          let why :=
            if decide (reason b = NOT_AN_ADDRESS)
            then bs "kept coming after a login that is not an address"
            else bs "kept coming after a login that nobody here has" in
          report (ip, Some (from_secs (until b - unix now)), why) l
        else l
    | None => l
    end.

Definition is_blocked (now : Clock) (ip : IpAddr) (l : AuthLimiter) : bool * AuthLimiter :=
  if is_exempt l ip then (false, l)
  else if kept_out now l ip then (true, turn_away now ip l)
  else
    match failures l !! key ip with
    | Some (counted, since) =>
        if WINDOW <? elapsed now since then (false, set_failures (delete (key ip) (failures l)) l)
        else (over_the_line counted, l)
    | None => (false, l)
    end.

Section limiter.
Context (to_lowercase : list byte -> list byte).

(** A login the way it is counted. *)
Definition login_key (login : list byte) : list byte := to_lowercase (trim login).

Definition account_throttled (now : Clock) (login : list byte) (l : AuthLimiter) : bool * AuthLimiter :=
  let login := login_key login in
  match accounts l !! login with
  | Some account =>
      if WINDOW <? elapsed now (last account) then (false, set_accounts (delete login (accounts l)) l)
      else ((ACCOUNT_FREE_FAILURES <=? count account) && (elapsed now (last account) <? ACCOUNT_SPACING), l)
  | None => (false, l)
  end.

(** ** Password checks under way *)

Record Attempt := { network : IpAddr; attempt_login : list byte }.

(** What [begin] has read when it comes to the places under way. *)
Record View := { v_exempt : bool; v_wrong : Z; v_count : Z; v_last : option Z }.

(** The failures of the network, [None] when it is over the line. *)
Definition network_failures (now : Clock) (network : IpAddr) (exempt : bool) (l : AuthLimiter)
    : option Z * AuthLimiter :=
  match failures l !! network with
  | Some (counted, since) =>
      if WINDOW <? elapsed now since then (Some 0, set_failures (delete network (failures l)) l)
      else if over_the_line counted && negb exempt then (None, l)
      else (Some (wrong counted), l)
  | None => (Some 0, l)
  end.

Definition login_failures (now : Clock) (login : list byte) (l : AuthLimiter) : Z * option Z * AuthLimiter :=
  match accounts l !! login with
  | Some account =>
      if WINDOW <? elapsed now (last account) then (0, None, set_accounts (delete login (accounts l)) l)
      else (count account, Some (last account), l)
  | None => (0, None, l)
  end.

(** [begin] up to the places under way: [None] when the network is turned away. *)
Definition look (now : Clock) (ip : IpAddr) (login : list byte) (l : AuthLimiter) : option View * AuthLimiter :=
  let network := key ip in
  let login := login_key login in
  let exempt := is_exempt l ip in
  if negb exempt && kept_out now l ip then (None, turn_away now ip l)
  else
    let '(wrong, l) := network_failures now network exempt l in
    match wrong with
    | None => (None, l)
    | Some wrong =>
        let '(count, last, l) := login_failures now login l in
        (Some {| v_exempt := exempt; v_wrong := wrong; v_count := count; v_last := last |}, l)
    end.

Definition refused (now : Clock) (v : View) (from_network for_login : Z) : bool :=
  let spaced_out := ACCOUNT_FREE_FAILURES <=? u32 (v_count v + for_login) in
  (negb (v_exempt v) && (MAX_FAILURES <=? u32 (v_wrong v + from_network)))
  || (spaced_out
      && ((0 <? for_login)
          || match v_last v with Some last => elapsed now last <? ACCOUNT_SPACING | None => false end)).

(** The rest of [begin], under the mutex of the places. *)
Definition reserve (now : Clock) (v : View) (network : IpAddr) (login : list byte) (l : AuthLimiter)
    : option Attempt * AuthLimiter :=
  let from_network := default 0 (networks (in_flight l) !! network) in
  let for_login := default 0 (logins (in_flight l) !! login) in
  if refused now v from_network for_login then (None, l)
  else
    (Some {| network := network; attempt_login := login |},
     set_in_flight
       {| networks := take_one 32 network (networks (in_flight l));
          logins := take_one 32 login (logins (in_flight l)) |} l).

Definition begin (now : Clock) (ip : IpAddr) (login : list byte) (l : AuthLimiter) : option Attempt * AuthLimiter :=
  match look now ip login l with
  | (Some v, l) => reserve now v (key ip) (login_key login) l
  | (None, l) => (None, l)
  end.

(** [Attempt::drop] *)
Definition drop_attempt (a : Attempt) (l : AuthLimiter) : AuthLimiter :=
  set_in_flight {| networks := release_one 32 (network a) (networks (in_flight l));
                   logins := release_one 32 (attempt_login a) (logins (in_flight l)) |} l.

(** ** Failures and successes *)

(** A try counted. *)
Definition count_try (tried : Tried) (f : Failures) : Failures :=
  match tried with
  | Unknown => {| wrong := wrong f; unknown := u32 (unknown f + 1); by_login := by_login f |}
  | Wrong None => {| wrong := u32 (wrong f + 1); unknown := unknown f; by_login := by_login f |}
  | Wrong (Some login) =>
      {| wrong := u32 (wrong f + 1); unknown := unknown f;
         by_login :=
           match by_login f !! login with
           | Some own => <[login := u32 (own + 1)]> (by_login f)
           | None =>
               if decide (size (by_login f) < LOGINS_PER_NETWORK)%nat then <[login := 1]> (by_login f)
               else by_login f
           end |}
  end.

Definition is_unknown (tried : Tried) : bool := match tried with Unknown => true | Wrong _ => false end.

(** The entry a try is counted in: fresh when there is none in this window. *)
Definition entry_of (now : Clock) (network : IpAddr) (failures : gmap IpAddr (Failures * Z)) : Failures * Z :=
  let entry := default (no_failures, instant now) (failures !! network) in
  if WINDOW <? elapsed now entry.2 then (no_failures, instant now) else entry.

Definition record (now : Clock) (ip : IpAddr) (tried : Tried) (l : AuthLimiter) : AuthLimiter :=
  if is_exempt l ip then l
  else
    let failures := swept (fun e => elapsed now e.2 <=? WINDOW) (failures l) in
    let entry := entry_of now (key ip) failures in
    let counted := count_try tried entry.1 in
    let crossed := negb (over_the_line entry.1) && over_the_line counted in
    let l := set_failures (<[key ip := (counted, entry.2)]> failures) l in
    if crossed then
      let why := if is_unknown tried then bs "tried logins that do not exist" else bs "wrong passwords" in
      report (ip, Some WINDOW_BLOCK_OUTSIDE, why) l
    else l.

(** The account after a wrong password. *)
Definition account_failed (now : Clock) (account : option AccountFailures) : AccountFailures :=
  let account := default {| count := 0; last := instant now |} account in
  let count := if WINDOW <? elapsed now (last account) then 0 else count account in
  {| count := u32 (count + 1); last := instant now |}.

Definition record_failure (now : Clock) (ip : IpAddr) (login : list byte) (l : AuthLimiter) : AuthLimiter :=
  let login := login_key login in
  let accounts := swept (fun account => elapsed now (last account) <=? WINDOW) (accounts l) in
  let l := set_accounts (<[login := account_failed now (accounts !! login)]> accounts) l in
  record now ip (Wrong (Some login)) l.

Definition record_wrong_token (now : Clock) (ip : IpAddr) (l : AuthLimiter) : AuthLimiter :=
  record now ip (Wrong None) l.

Definition record_unknown_login (now : Clock) (ip : IpAddr) (l : AuthLimiter) : AuthLimiter :=
  record now ip Unknown l.

(** The login's own failures taken back. *)
Definition forgive (login : list byte) (f : Failures) : Failures :=
  match by_login f !! login with
  | Some own =>
      {| wrong := saturating_sub (wrong f) own; unknown := unknown f; by_login := delete login (by_login f) |}
  | None => f
  end.

(** What is known of a network after [account] got in, and whether it changed. *)
Definition known_after (now : Z) (account : list byte) (before : option Known) : Known * bool :=
  match before with
  | Some k =>
      if still k now then
        let named := bool_decide (login k = []) && bool_decide (account <> []) in
        let known_by := if named then account else login k in
        let became_shared := negb (shared k) && bool_decide (account <> []) && bool_decide (known_by <> account) in
        let changed := named || became_shared || (KNOWN_REFRESH <=? saturating_sub now (seen k)) in
        ({| seen := if changed then now else seen k; login := known_by; shared := shared k || became_shared |}, changed)
      else ({| seen := now; login := account; shared := false |}, true)
  | None => ({| seen := now; login := account; shared := false |}, true)
  end.

Definition record_success_of (now : Clock) (ip : IpAddr) (login account : list byte) (l : AuthLimiter)
    : AuthLimiter :=
  let login := login_key login in
  let account := login_key account in
  let l := set_accounts (delete login (accounts l)) l in
  let l :=
    match failures l !! key ip with
    | Some (counted, since) => set_failures (<[key ip := (forgive login counted, since)]> (failures l)) l
    | None => l
    end in
  let known := swept (fun k => still k (unix now)) (known l) in
  let '(k, changed) := known_after (unix now) account (known !! key ip) in
  let l := set_known (<[key ip := k]> known) l in
  if changed && remember l then
    set_remembered true (remembered l ++ [(key ip, seen k, Limiter.login k, shared k)]) l
  else l.

Definition record_success (now : Clock) (ip : IpAddr) (login : list byte) (l : AuthLimiter) : AuthLimiter :=
  record_success_of now ip login login l.

End limiter.

(** ** Lasting blocks *)

(** [char::is_control] *)
Definition is_control (c : Z) : bool := (c <=? 0x1f) || ((0x7f <=? c) && (c <=? 0x9f)).

(** Whatever was sent as a login, cut to what a login can be. *)
Definition cut_login (login : list byte) : list byte :=
  utf8 (take 320 (List.filter (fun c => negb (is_control c)) (default [] (chars (trim login))))).

(** Whether a block is over but not forgotten. *)
Definition remembered_block (now : Clock) (b : Block) : bool := unix now <? u64 (until b + as_secs BLOCK_MEMORY).

(** A new block of a network that was blocked [before] times, written down; it comes
    back as a network that was never turned away. *)
Definition block_for (now : Clock) (addr : IpAddr) (reason login protocol : list byte) (before : Z)
    (l : AuthLimiter) : option Block * AuthLimiter :=
  let how_long := if before =? 0 then BLOCK_FIRST else BLOCK_AGAIN in
  let b := {| ip := addr; reason := reason; block_login := cut_login login; protocol := protocol;
              since := unix now; until := u64 (unix now + as_secs how_long); times := u32 (before + 1) |} in
  let away := if MAX_BLOCKS <=? Z.of_nat (size (turned_away l)) then ∅ else turned_away l in
  (Some b, set_turned_away (delete (key addr) away) (set_blocks (<[key addr := b]> (blocks l)) l)).

Definition block (now : Clock) (ip : IpAddr) (reason login protocol : list byte) (l : AuthLimiter)
    : option Block * AuthLimiter :=
  if negb (may_block_at_once now l ip) then (None, l)
  else
    let full := MAX_BLOCKS <=? Z.of_nat (size (blocks l)) in
    let swept := if full then filter (fun kv => remembered_block now kv.2 = true) (blocks l) else blocks l in
    let l := set_blocks swept l in
    if full && (MAX_BLOCKS <=? Z.of_nat (size swept)) && bool_decide (swept !! key ip = None) then (None, l)
    else
      match swept !! key ip with
      | Some b =>
          if unix now <? until b then (None, l)
          else
            let before := if remembered_block now b then times b else 0 in
            block_for now ip reason login protocol before l
      | None => block_for now ip reason login protocol 0 l
      end.

Definition unblock (ip : IpAddr) (l : AuthLimiter) : bool * AuthLimiter :=
  let lasting := bool_decide (is_Some (blocks l !! key ip)) in
  let l := set_blocks (delete (key ip) (blocks l)) l in
  let l := set_turned_away (delete (key ip) (turned_away l)) l in
  let counted := bool_decide (is_Some (failures l !! key ip)) in
  let l := set_failures (delete (key ip) (failures l)) l in
  (lasting || counted, report (ip, None, []) l).

(** A network over the line, as a block for what is left of its window. *)
Definition window_block (now : Clock) (network : IpAddr) (entry : Failures * Z) : Block :=
  let age := elapsed now entry.2 in
  {| ip := network;
     reason := if MAX_UNKNOWN <=? unknown entry.1 then UNKNOWN_LOGINS else WRONG_PASSWORDS;
     block_login := []; protocol := [];
     since := saturating_sub (unix now) (as_secs age);
     until := u64 (unix now + as_secs (WINDOW - age));
     times := 1 |}.

(** Whether the failures of a network are listed next to the blocks before them. *)
Definition window_listed (now : Clock) (network : IpAddr) (entry : Failures * Z) (listed : list Block) : bool :=
  negb (WINDOW <? elapsed now entry.2) && over_the_line entry.1
  && negb (existsb (fun b => bool_decide (key (ip b) = network)) listed).

Definition add_window (now : Clock) (listed : list Block) (kv : IpAddr * (Failures * Z)) : list Block :=
  if window_listed now kv.1 kv.2 listed then listed ++ [window_block now kv.1 kv.2] else listed.

(** The newest block first, then by address. *)
Definition block_le (a b : Block) : Prop := since b < since a \/ (since a = since b /\ ip_le (ip a) (ip b)).

#[export] Instance block_le_dec : RelDecision block_le.
Proof. intros a b. unfold block_le. apply _. Defined.

(** Every network that is kept out right now. *)
Definition blocked (now : Clock) (l : AuthLimiter) : list Block :=
  let lasting := List.filter (fun b => unix now <? until b) (map snd (map_to_list (blocks l))) in
  let listed := foldl (add_window now) lasting (map_to_list (failures l)) in
  merge_sort block_le (List.filter (fun b => negb (is_exempt l (ip b))) listed).

(** ** The list of networks that are never blocked *)

(** Lets in every address of the list that is exempt now. *)
Definition let_in (listed : list Block) (l : AuthLimiter) : list IpAddr * AuthLimiter :=
  let inside := List.filter (is_exempt l) (map ip listed) in
  (inside, foldl (fun l a => snd (unblock a l)) l inside).

Definition set_exempt (now : Clock) (networks : list Network) (l : AuthLimiter) : list IpAddr * AuthLimiter :=
  let_in (blocked now l) (replace_exempt networks l).

Definition set_exempt_hosts (hosts : list (list byte)) (l : AuthLimiter) : AuthLimiter :=
  replace_hosts
    (foldl (fun m host => <[host := default [] (exempt_hosts l !! host)]> m) ∅ hosts) l.

Definition set_host_addresses (now : Clock) (host : list byte) (addresses : list IpAddr) (l : AuthLimiter)
    : list IpAddr * AuthLimiter :=
  match exempt_hosts l !! host with
  | None => ([], l)
  | Some _ => let_in (blocked now l) (replace_hosts (<[host := map to_canonical addresses]> (exempt_hosts l)) l)
  end.

(** What the database remembers, put back after a start. *)
Definition restore (bs : list Block) (ks : list (IpAddr * Known)) (networks : list Network)
    (hosts : list (list byte)) (l : AuthLimiter) : AuthLimiter :=
  let l := set_exempt_hosts hosts l in
  let l := set_blocks (foldl (fun m b => <[key (ip b) := b]> m) (blocks l) bs) l in
  let l := set_known (foldl (fun m k => <[key k.1 := k.2]> m) (known l) ks) l in
  replace_exempt networks l.
