(* ===== verification/LimiterSafe.v ===== *)
(** * What the login limiter guarantees

    [call] is any method of the limiter, [step] one step of a server that uses it from
    many threads: a [begin] is two steps, with those of other threads in between, and
    the checks under way are the list of live attempts. The theorems are about every
    state that is reached, and about runs of calls at one network. *)

From stdpp Require Import gmap sorting.
From S2P Require Import Prelude Utf8 Places Network Limiter.

Section limiter.
Context (to_lowercase : list byte -> list byte).

Abbreviation login_key := (login_key to_lowercase).

(** ** Calls and steps *)

Inductive Call :=
  | IsBlocked (ip : IpAddr)
  | AccountThrottled (login : list byte)
  | Look (ip : IpAddr) (login : list byte)
  | RecordFailure (ip : IpAddr) (login : list byte)
  | RecordWrongToken (ip : IpAddr)
  | RecordUnknownLogin (ip : IpAddr)
  | RecordSuccessOf (ip : IpAddr) (login account : list byte)
  | DoBlock (ip : IpAddr) (reason login protocol : list byte)
  | Unblock (ip : IpAddr)
  | SetExempt (networks : list Network)
  | SetExemptHosts (hosts : list (list byte))
  | SetHostAddresses (host : list byte) (addresses : list IpAddr)
  | ReportTo (reporter : bool).

Definition call (now : Clock) (c : Call) (l : AuthLimiter) : AuthLimiter :=
  match c with
  | IsBlocked ip => (is_blocked now ip l).2
  | AccountThrottled login => (account_throttled to_lowercase now login l).2
  | Look ip login => (look to_lowercase now ip login l).2
  | RecordFailure ip login => record_failure to_lowercase now ip login l
  | RecordWrongToken ip => record_wrong_token now ip l
  | RecordUnknownLogin ip => record_unknown_login now ip l
  | RecordSuccessOf ip login account => record_success_of to_lowercase now ip login account l
  | DoBlock ip reason login protocol => (block now ip reason login protocol l).2
  | Unblock ip => (unblock ip l).2
  | SetExempt networks => (set_exempt now networks l).2
  | SetExemptHosts hosts => set_exempt_hosts hosts l
  | SetHostAddresses host addresses => (set_host_addresses now host addresses l).2
  | ReportTo reporter => report_to reporter l
  end.

(** The limiter, the [begin]s that have looked and not reserved yet, and the attempts
    that have not been dropped. *)
Record System := {
  limiter : AuthLimiter;
  pending : list (View * IpAddr * list byte);
  live : list Attempt }.

Inductive step : System -> System -> Prop :=
  | step_call now c s :
      step s {| limiter := call now c (limiter s); pending := pending s; live := live s |}
  | step_look now ip login v l s :
      look to_lowercase now ip login (limiter s) = (Some v, l) ->
      step s {| limiter := l; pending := (v, key ip, login_key login) :: pending s; live := live s |}
  | step_reserve now i v network login a l s :
      pending s !! i = Some (v, network, login) ->
      reserve now v network login (limiter s) = (Some a, l) ->
      step s {| limiter := l; pending := delete i (pending s); live := a :: live s |}
  | step_refused now i v network login l s :
      pending s !! i = Some (v, network, login) ->
      reserve now v network login (limiter s) = (None, l) ->
      step s {| limiter := l; pending := delete i (pending s); live := live s |}
  | step_drop i a s :
      live s !! i = Some a ->
      step s {| limiter := drop_attempt a (limiter s); pending := pending s; live := delete i (live s) |}.

(** Reached in [n] steps from a new limiter. *)
Inductive reached : nat -> System -> Prop :=
  | reached_new : reached 0 {| limiter := new_limiter; pending := []; live := [] |}
  | reached_step n s t : reached n s -> step s t -> reached (S n) t.

(** The steps a machine has time for: no 32-bit count overflows before. *)
Definition MAX_STEPS : Z := 2 ^ 31.

(** ** The invariant *)

Definition total (m : gmap (list byte) Z) : Z := map_fold (fun _ v acc => v + acc) 0 m.

(** Counts of at most [n], no more forgiven than counted. *)
Definition failures_ok (n : Z) (f : Failures) : Prop :=
  0 <= wrong f <= n /\ 0 <= unknown f <= n /\ (size (by_login f) <= LOGINS_PER_NETWORK)%nat
  /\ map_Forall (fun _ own => 1 <= own) (by_login f) /\ total (by_login f) <= wrong f.

Definition account_ok (n : Z) (a : AccountFailures) : Prop := 0 <= count a <= n.

Definition block_ok (k : IpAddr) (b : Block) : Prop := key (ip b) = k.

Definition limiter_ok (n : Z) (l : AuthLimiter) : Prop :=
  map_Forall (fun k e => key k = k /\ failures_ok n e.1) (failures l)
  /\ map_Forall (fun _ a => account_ok n a) (accounts l)
  /\ map_Forall block_ok (blocks l)
  /\ Z.of_nat (size (blocks l)) <= MAX_BLOCKS.

Definition view_ok (n : Z) (v : View) : Prop := 0 <= v_wrong v <= n /\ 0 <= v_count v <= n.

Definition of_network (a : Attempt) (n : IpAddr) : Prop := network a = n.
Definition of_login (a : Attempt) (login : list byte) : Prop := attempt_login a = login.

#[export] Instance of_network_dec : RelDecision of_network.
Proof. intros a n. unfold of_network. apply _. Defined.

#[export] Instance of_login_dec : RelDecision of_login.
Proof. intros a login. unfold of_login. apply _. Defined.

Definition at_network (s : list Attempt) (n : IpAddr) : nat := having of_network s n.
Definition at_login (s : list Attempt) (login : list byte) : nat := having of_login s login.

Definition counted_in (i : InFlight) (s : list Attempt) : Prop :=
  (forall n, networks i !! n = places (at_network s n)) /\ (forall login, logins i !! login = places (at_login s login)).

(** ** Sums *)

Lemma total_insert m k v : m !! k = None -> total (<[k := v]> m) = v + total m.
Proof. intros H. unfold total. rewrite map_fold_insert_L; [done | intros; lia | done]. Qed.

Lemma total_delete m k v : m !! k = Some v -> total m = v + total (delete k m).
Proof.
  intros H. rewrite <-(insert_delete_id m k v H) at 1. apply total_insert, lookup_delete_eq.
Qed.

Lemma total_nonneg m : map_Forall (fun _ own => 1 <= own) m -> 0 <= total m.
Proof.
  induction m as [|k v m Hk IH] using map_ind; [done|]. intros [Hv H]%map_Forall_insert; [|done].
  rewrite total_insert by done. specialize (IH H). lia.
Qed.

Lemma u32_le z : 0 <= z -> 0 <= u32 z <= z.
Proof. intros H. unfold u32. pose proof (Z.mod_le z (2 ^ 32)). pose proof (Z.mod_pos_bound z (2 ^ 32)). lia. Qed.

Lemma u32_small z : 0 <= z < 2 ^ 32 -> u32 z = z.
Proof. apply Z.mod_small. Qed.

Lemma own_le_total m k v : map_Forall (fun _ own => 1 <= own) m -> m !! k = Some v -> 1 <= v <= total m.
Proof.
  intros Hm Hk. rewrite (total_delete m k v Hk). pose proof (total_nonneg (delete k m)) as H.
  pose proof (map_Forall_lookup_1 _ _ _ _ Hm Hk) as Hv. simpl in Hv.
  specialize (H (map_Forall_delete _ _ _ Hm)). lia.
Qed.

(** ** Every call keeps the invariant *)

Lemma failures_ok_mono n m f : n <= m -> failures_ok n f -> failures_ok m f.
Proof. unfold failures_ok. intuition lia. Qed.

Lemma limiter_ok_mono n m l : n <= m -> limiter_ok n l -> limiter_ok m l.
Proof.
  intros Hn (Hf & Ha & Hb & Hs). split_and!; [| |done|done].
  - eapply map_Forall_impl; [exact Hf|]. intros k e []. split; [done|]. by eapply failures_ok_mono.
  - eapply map_Forall_impl; [exact Ha|]. unfold account_ok. intros; simpl in *; lia.
Qed.

Lemma no_failures_ok n : 0 <= n -> failures_ok n no_failures.
Proof.
  intros. unfold failures_ok, no_failures. cbn [wrong unknown by_login]. rewrite map_size_empty.
  split_and!; try lia; [apply map_Forall_empty | done].
Qed.

Lemma count_try_ok n tried f : n < MAX_STEPS -> failures_ok n f -> failures_ok (n + 1) (count_try tried f).
Proof.
  unfold MAX_STEPS. intros Hn (Hw & Hu & Hs & Hall & Ht).
  destruct tried as [|[login|]]; unfold failures_ok; cbn [count_try wrong unknown by_login];
    rewrite ?u32_small by lia; [split_and!; (done || lia)| |split_and!; (done || lia)].
  split; [lia|]. split; [lia|]. destruct (by_login f !! login) as [own|] eqn:El.
  - pose proof (own_le_total _ _ _ Hall El). rewrite u32_small by lia.
    rewrite map_size_insert_Some by done. rewrite <-insert_delete_eq.
    split_and!; [done | apply map_Forall_insert_2; [lia | by apply map_Forall_delete] |].
    rewrite total_insert by apply lookup_delete_eq. rewrite (total_delete _ _ _ El) in Ht. lia.
  - case_decide; [|split_and!; (done || lia)]. rewrite map_size_insert_None by done.
    split_and!; [lia | by apply map_Forall_insert_2 |]. rewrite total_insert by done. lia.
Qed.

Lemma forgive_ok n login f : failures_ok n f -> failures_ok n (forgive login f).
Proof.
  intros (Hw & Hu & Hs & Hall & Ht). unfold forgive.
  destruct (by_login f !! login) as [own|] eqn:El; [|done].
  pose proof (own_le_total _ _ _ Hall El). rewrite (total_delete _ _ _ El) in *.
  pose proof (total_nonneg _ (map_Forall_delete _ _ login Hall)).
  unfold failures_ok, saturating_sub. cbn [wrong unknown by_login].
  rewrite map_size_delete_Some by done. split_and!; try lia. by apply map_Forall_delete.
Qed.

Lemma failures_ok_set n l f :
  limiter_ok n l -> map_Forall (fun k e => key k = k /\ failures_ok n e.1) f -> limiter_ok n (set_failures f l).
Proof. intros (_ & H) Hf. exact (conj Hf H). Qed.

Lemma delete_failures_ok n k l : limiter_ok n l -> limiter_ok n (set_failures (delete k (failures l)) l).
Proof. intros H. apply failures_ok_set; [done|]. apply map_Forall_delete, H. Qed.

Lemma accounts_ok_set n l a :
  limiter_ok n l -> map_Forall (fun _ => account_ok n) a -> limiter_ok n (set_accounts a l).
Proof. intros (Hf & _ & H) Ha. exact (conj Hf (conj Ha H)). Qed.

Lemma delete_accounts_ok n k l : limiter_ok n l -> limiter_ok n (set_accounts (delete k (accounts l)) l).
Proof. intros H. apply accounts_ok_set; [done|]. apply map_Forall_delete, H. Qed.

Lemma report_ok n r l : limiter_ok n l -> limiter_ok n (report r l).
Proof. unfold report. by case_match. Qed.

Lemma turn_away_ok n now ip l : limiter_ok n l -> limiter_ok n (turn_away now ip l).
Proof. intros H. unfold turn_away. repeat case_match; try exact H; apply report_ok, H. Qed.

Lemma is_blocked_ok n now ip l : limiter_ok n l -> limiter_ok n (is_blocked now ip l).2.
Proof.
  intros H. unfold is_blocked. repeat case_match; try exact H; [by apply turn_away_ok | by apply delete_failures_ok].
Qed.

Lemma network_failures_ok n now network exempt l : limiter_ok n l -> limiter_ok n (network_failures now network exempt l).2.
Proof. intros H. unfold network_failures. repeat case_match; try exact H. by apply delete_failures_ok. Qed.

Lemma login_failures_ok n now login l : limiter_ok n l -> limiter_ok n (login_failures now login l).2.
Proof. intros H. unfold login_failures. repeat case_match; try exact H. by apply delete_accounts_ok. Qed.

Lemma look_ok n now ip login l : limiter_ok n l -> limiter_ok n (look to_lowercase now ip login l).2.
Proof.
  intros H. unfold look. case_match; [by apply turn_away_ok|].
  pose proof (network_failures_ok n now (key ip) (is_exempt l ip) l H) as Hn.
  destruct (network_failures _ _ _ _) as [[w|] l']; [|exact Hn]. simpl in Hn.
  pose proof (login_failures_ok n now (login_key login) l' Hn) as Hl.
  by destruct (login_failures _ _ _) as [[c t] l''].
Qed.

Lemma entry_of_ok n now ip m :
  0 <= n -> map_Forall (fun k e => key k = k /\ failures_ok n e.1) m -> failures_ok n (entry_of now ip m).1.
Proof.
  intros Hn H. unfold entry_of. destruct (m !! ip) as [e|] eqn:E; simpl.
  - apply H in E as [_ E]. by case_match; [apply no_failures_ok|].
  - by case_match; apply no_failures_ok.
Qed.

Lemma swept_Forall {K A} `{Countable K} (P : K -> A -> Prop) keep (m : gmap K A) :
  map_Forall P m -> map_Forall P (swept keep m).
Proof. unfold swept. case_match; [|done]. intros HP k x [Hx _]%map_lookup_filter_Some. by apply HP. Qed.

Lemma record_ok n now ip tried l :
  0 <= n < MAX_STEPS -> limiter_ok n l -> limiter_ok (n + 1) (record now ip tried l).
Proof.
  intros Hn H. unfold record. case_match; [by eapply limiter_ok_mono; [|exact H]; lia|].
  cbv zeta. set (m := swept _ (failures l)).
  assert (Hs : map_Forall (fun k e => key k = k /\ failures_ok n e.1) m) by (apply swept_Forall, H).
  assert (Hc : limiter_ok (n + 1) (set_failures (<[key ip :=
     (count_try tried (entry_of now (key ip) m).1, (entry_of now (key ip) m).2)]> m) l)).
  { apply failures_ok_set; [eapply limiter_ok_mono; [|exact H]; lia|]. apply map_Forall_insert_2.
    - split; [apply key_idem|]. apply count_try_ok; [lia|]. apply entry_of_ok; [lia | done].
    - eapply map_Forall_impl; [exact Hs|]. intros k e []. split; [done|]. eapply failures_ok_mono; [|done]. lia. }
  case_match; [by apply report_ok | done].
Qed.

Lemma account_failed_ok n now a :
  0 <= n -> (forall a', a = Some a' -> account_ok n a') -> account_ok (n + 1) (account_failed now a).
Proof.
  intros Hn Ha. unfold account_ok, account_failed. cbn [count]. destruct a as [a|]; simpl.
  - specialize (Ha a eq_refl). unfold account_ok in Ha.
    case_match; [pose proof (u32_le (0 + 1)) | pose proof (u32_le (count a + 1))]; lia.
  - case_match; pose proof (u32_le (0 + 1)); lia.
Qed.

(** Counting a try does not touch the accounts. *)
Lemma record_set_accounts now ip tried a l : record now ip tried (set_accounts a l) = set_accounts a (record now ip tried l).
Proof.
  unfold record, is_exempt. cbn [exempt exempt_hosts set_accounts failures].
  case_match; [done|]. cbv zeta. case_match; [|done]. unfold report. cbn [reporter set_failures set_accounts].
  by case_match.
Qed.

Lemma record_failure_ok n now ip login l :
  0 <= n < MAX_STEPS -> limiter_ok n l -> limiter_ok (n + 1) (record_failure to_lowercase now ip login l).
Proof.
  intros Hn H. unfold record_failure. cbv zeta. set (m := swept _ (accounts l)).
  assert (Hs : map_Forall (fun _ => account_ok n) m) by (apply swept_Forall, H).
  (* the accounts are counted up first: give them their new bound, then count the network *)
  set (a := <[_ := _]> m).
  assert (Ha : map_Forall (fun _ => account_ok (n + 1)) a).
  { apply map_Forall_insert_2; [apply account_failed_ok; [lia | intros; by eapply Hs]|].
    eapply map_Forall_impl; [exact Hs|]. unfold account_ok. intros; simpl in *; lia. }
  pose proof (record_ok n now ip (Wrong (Some (login_key login))) l Hn H) as Hr.
  rewrite record_set_accounts. by apply accounts_ok_set.
Qed.

Lemma record_success_ok n now ip login account l :
  limiter_ok n l -> limiter_ok n (record_success_of to_lowercase now ip login account l).
Proof.
  intros H. unfold record_success_of. cbv zeta. set (l1 := set_accounts _ l).
  assert (H1 : limiter_ok n l1) by (by apply delete_accounts_ok).
  set (l2 := match failures l1 !! key ip with Some _ => _ | None => _ end).
  assert (H2 : limiter_ok n l2).
  { unfold l2. destruct (failures l1 !! key ip) as [[f since]|] eqn:E; [|done]. apply failures_ok_set; [done|].
    apply map_Forall_insert_2; [|apply H1]. destruct H1 as (Hf & _). apply Hf in E as [? E].
    split; [done|]. by apply forgive_ok. }
  destruct (known_after _ _ _) as [k changed]. case_match; exact H2.
Qed.

Lemma blocks_ok_set n l b :
  limiter_ok n l -> map_Forall block_ok b -> Z.of_nat (size b) <= MAX_BLOCKS -> limiter_ok n (set_blocks b l).
Proof. intros (Hf & Ha & _) Hb Hs. exact (conj Hf (conj Ha (conj Hb Hs))). Qed.

Lemma size_filter_le {K A} `{Countable K} (P : K * A -> Prop) `{!forall x, Decision (P x)} (m : gmap K A) :
  (size (filter P m) <= size m)%nat.
Proof. apply map_subseteq_size, map_filter_subseteq. Qed.

Lemma block_for_ok n now ip reason login protocol before l :
  limiter_ok n l -> Z.of_nat (size (blocks l)) < MAX_BLOCKS \/ is_Some (blocks l !! key ip) ->
  limiter_ok n (block_for now ip reason login protocol before l).2.
Proof.
  intros H Hroom. unfold block_for. cbv zeta. cbn [snd]. set (b := {| ip := ip |}).
  change (limiter_ok n (set_blocks (<[key ip := b]> (blocks l)) l)).
  apply blocks_ok_set; [done | apply map_Forall_insert_2; [done | apply H] |].
  destruct Hroom as [Hs|Hb].
  - rewrite map_size_insert. case_match; simpl; lia.
  - rewrite map_size_insert_Some by done. apply H.
Qed.

Lemma block_call_ok n now ip reason login protocol l :
  limiter_ok n l -> limiter_ok n (block now ip reason login protocol l).2.
Proof.
  intros H. unfold block. case_match; [done|]. cbv zeta. set (sw := if _ <=? _ then filter _ _ else _).
  assert (Hsw : map_Forall block_ok sw /\ (size sw <= size (blocks l))%nat).
  { destruct H as (_ & _ & Hb & _). unfold sw. case_match; [|done]. split; [|apply size_filter_le].
    intros k x [Hx _]%map_lookup_filter_Some. by apply Hb. }
  assert (Hs : limiter_ok n (set_blocks sw l)).
  { destruct H as (? & ? & ? & ?), Hsw. apply blocks_ok_set; [done | done | lia]. }
  destruct (_ && _) eqn:Eroom; [exact Hs|].
  destruct (sw !! key ip) as [b|] eqn:Eb; cbn [blocks set_blocks].
  - case_match; [exact Hs|]. apply block_for_ok; [exact Hs|]. right. cbn [blocks set_blocks]. by rewrite Eb.
  - apply block_for_ok; [exact Hs|]. left. cbn [blocks set_blocks]. rewrite bool_decide_true, andb_true_r in Eroom by done.
    apply andb_false_iff in Eroom as [Hf|]; [|lia]. subst sw. rewrite Hf. lia.
Qed.

Lemma unblock_ok n ip l : limiter_ok n l -> limiter_ok n (unblock ip l).2.
Proof.
  intros H. unfold unblock. cbv zeta. cbn [snd]. apply report_ok. apply delete_failures_ok.
  change (limiter_ok n (set_blocks (delete (key ip) (blocks l)) l)).
  destruct H as (? & ? & Hb & ?). apply blocks_ok_set; [done | by apply map_Forall_delete |].
  assert (size (delete (key ip) (blocks l)) <= size (blocks l))%nat
    by apply map_subseteq_size, delete_subseteq. lia.
Qed.

Lemma let_in_ok n listed l : limiter_ok n l -> limiter_ok n (let_in listed l).2.
Proof.
  unfold let_in. cbn [snd]. generalize (List.filter (is_exempt l) (map ip listed)). intros inside.
  revert l. induction inside as [|a inside IH]; intros l H; [done|]. by apply IH, unblock_ok.
Qed.

(** The counts of the limiter after a call that counts one more. *)
Lemma call_ok n now c l : 0 <= n < MAX_STEPS -> limiter_ok n l -> limiter_ok (n + 1) (call now c l).
Proof.
  intros Hn H. destruct c; cbn [call];
    try (by apply record_failure_ok || by apply record_ok); eapply limiter_ok_mono with (n := n); try lia.
  - by apply is_blocked_ok.
  - unfold account_throttled. repeat case_match; try exact H. by apply delete_accounts_ok.
  - by apply look_ok.
  - by apply record_success_ok.
  - by apply block_call_ok.
  - by apply unblock_ok.
  - by apply let_in_ok.
  - exact H.
  - unfold set_host_addresses. case_match; [by apply let_in_ok | exact H].
  - exact H.
Qed.

(** ** Only [reserve] and the end of an attempt touch the places under way *)

Lemma report_in_flight r l : in_flight (report r l) = in_flight l.
Proof. unfold report. by case_match. Qed.

Lemma turn_away_in_flight now ip l : in_flight (turn_away now ip l) = in_flight l.
Proof. unfold turn_away. repeat case_match; rewrite ?report_in_flight; done. Qed.

Lemma record_in_flight now ip tried l : in_flight (record now ip tried l) = in_flight l.
Proof. unfold record. cbv zeta. repeat case_match; rewrite ?report_in_flight; done. Qed.

Lemma look_in_flight now ip login l : in_flight (look to_lowercase now ip login l).2 = in_flight l.
Proof.
  unfold look, network_failures, login_failures. cbv zeta.
  repeat case_match; simplify_eq; cbn [snd in_flight set_failures set_accounts]; rewrite ?turn_away_in_flight; done.
Qed.

Lemma unblock_in_flight ip l : in_flight (unblock ip l).2 = in_flight l.
Proof. unfold unblock. cbv zeta. cbn [snd]. by rewrite report_in_flight. Qed.

Lemma let_in_in_flight listed l : in_flight (let_in listed l).2 = in_flight l.
Proof.
  unfold let_in. cbn [snd]. generalize (List.filter (is_exempt l) (map ip listed)). intros inside.
  revert l. induction inside as [|a inside IH]; intros l; [done|]. cbn [foldl]. by rewrite IH, unblock_in_flight.
Qed.

Lemma call_in_flight now c l : in_flight (call now c l) = in_flight l.
Proof.
  destruct c; cbn [call]; try done.
  - unfold is_blocked. repeat case_match; cbn [snd]; rewrite ?turn_away_in_flight; done.
  - unfold account_throttled. by repeat case_match.
  - apply look_in_flight.
  - unfold record_failure. cbv zeta. by rewrite record_in_flight.
  - apply record_in_flight.
  - apply record_in_flight.
  - unfold record_success_of. cbv zeta. by repeat case_match.
  - unfold block, block_for. cbv zeta. by repeat case_match.
  - apply unblock_in_flight.
  - exact (let_in_in_flight _ (replace_exempt networks l)).
  - unfold set_host_addresses. case_match; [exact (let_in_in_flight _ (replace_hosts _ l)) | done].
Qed.

(** ** The places under way are the live attempts *)

Lemma at_network_delete s i a n : s !! i = Some a ->
  at_network s n = ((if decide (network a = n) then 1 else 0) + at_network (delete i s) n)%nat.
Proof. exact (having_delete of_network s i a n). Qed.

Lemma at_login_delete s i a login : s !! i = Some a ->
  at_login s login = ((if decide (attempt_login a = login) then 1 else 0) + at_login (delete i s) login)%nat.
Proof. exact (having_delete of_login s i a login). Qed.

(** What holds of a system after [n] steps. *)
Definition system_ok (n : Z) (s : System) : Prop :=
  limiter_ok n (limiter s)
  /\ Forall (fun p => view_ok n p.1.1) (pending s)
  /\ counted_in (in_flight (limiter s)) (live s)
  /\ Z.of_nat (length (live s)) <= n
  /\ (forall login, (at_login (live s) login <= 10)%nat).

Lemma at_network_le s n : (at_network s n <= length s)%nat.
Proof. apply having_le. Qed.

Lemma view_ok_mono n m (s : list (View * IpAddr * list byte)) :
  n <= m -> Forall (fun p => view_ok n p.1.1) s -> Forall (fun p => view_ok m p.1.1) s.
Proof. intros H Hs. eapply Forall_impl; [exact Hs|]. unfold view_ok. intros [[v k] login]. simpl. lia. Qed.

Lemma look_view n now ip login v l l' :
  0 <= n -> limiter_ok n l -> look to_lowercase now ip login l = (Some v, l') -> view_ok n v.
Proof.
  intros Hn (Hf & Ha & _). unfold look, network_failures, login_failures, view_ok. cbv zeta.
  repeat case_match; intros; simplify_eq; cbn [v_wrong v_count];
    repeat match goal with
    | E : failures _ !! _ = Some _ |- _ => apply Hf in E as [_ (?&_)]; cbn [fst] in *
    | E : accounts _ !! _ = Some _ |- _ => apply Ha in E; unfold account_ok in E
    end; lia.
Qed.

(** What [reserve] does when it grants a place. *)
Lemma reserve_granted now v network login l a l' :
  reserve now v network login l = (Some a, l') ->
  refused now v (default 0 (networks (in_flight l) !! network)) (default 0 (logins (in_flight l) !! login)) = false
  /\ a = {| network := network; attempt_login := login |}
  /\ l' = set_in_flight
       {| networks := take_one 32 network (networks (in_flight l));
          logins := take_one 32 login (logins (in_flight l)) |} l.
Proof. unfold reserve. case_match; intros [= <- <-]. done. Qed.

Lemma reserve_refused now v network login l l' : reserve now v network login l = (None, l') -> l' = l.
Proof. unfold reserve. case_match; by intros [= <-]. Qed.

(** A place that is granted: below the limits as they were seen. *)
Lemma not_refused n now v from_network for_login :
  view_ok n v -> n < MAX_STEPS -> 0 <= from_network <= n -> 0 <= for_login <= 10 ->
  refused now v from_network for_login = false ->
  for_login < 10 /\ (v_exempt v = false -> v_wrong v + from_network < 10).
Proof.
  unfold MAX_STEPS. intros [Hw Hc] Hn Hf Hl. unfold refused. rewrite !u32_small by lia. unfold ACCOUNT_FREE_FAILURES, MAX_FAILURES.
  intros [H1 H2]%orb_false_iff. split.
  - apply andb_false_iff in H2 as [|[? _]%orb_false_iff]; lia.
  - intros Hx. rewrite Hx in H1. simpl in H1. lia.
Qed.

Lemma step_ok n s t : 0 <= n < MAX_STEPS -> system_ok n s -> step s t -> system_ok (n + 1) t.
Proof.
  intros Hn (Hl & Hp & [Hnet Hlog] & Hlive & Hten) Hstep.
  assert (Hp' : Forall (fun p => view_ok (n + 1) p.1.1) (pending s)) by (eapply view_ok_mono; [|exact Hp]; lia).
  unfold MAX_STEPS in Hn.
  destruct Hstep as [now c s|now ip login v l s Hlook|now i v nw login a l s Hi Hres|now i v network login l s Hi Hres|i a s Hi];
    unfold system_ok, counted_in; cbn [limiter pending live].
  - split_and!; try done; [by apply call_ok | by rewrite call_in_flight | by rewrite call_in_flight | lia].
  - pose proof (look_in_flight now ip login (limiter s)) as Hfl. rewrite Hlook in Hfl. simpl in Hfl. rewrite Hfl.
    pose proof (look_ok n now ip login _ Hl) as Hl'. rewrite Hlook in Hl'. simpl in Hl'.
    split_and!; try done; [eapply limiter_ok_mono; [|exact Hl']; lia | | lia].
    constructor; [|done]. eapply look_view; [lia | | exact Hlook]. eapply limiter_ok_mono; [|exact Hl]; lia.
  - apply reserve_granted in Hres as (Href & -> & ->). rewrite Hnet, Hlog, !default_places in Href.
    pose proof (at_network_le (live s) nw) as Hle.
    assert (Hv : view_ok n v) by exact (proj1 (Forall_lookup _ _) Hp i _ Hi).
    apply (not_refused n) in Href as [Hfew _]; [|done|unfold MAX_STEPS; lia|lia|specialize (Hten login); lia].
    cbn [in_flight set_in_flight networks logins length]. split_and!.
    + eapply limiter_ok_mono; [|exact Hl]; lia.
    + by apply Forall_delete.
    + intros k. unfold at_network. rewrite having_cons. apply (take_place 32 _ (at_network (live s))); [done | cbn [network]; lia].
    + intros k. unfold at_login. rewrite having_cons. apply (take_place 32 _ (at_login (live s))); [done | cbn [attempt_login]; lia].
    + lia.
    + intros k. unfold at_login. rewrite having_cons. case_decide as Hk; [|apply Hten]. unfold of_login in Hk. cbn in Hk. subst. fold (at_login (live s) k). lia.
  - apply reserve_refused in Hres as ->.
    split_and!; try done; [eapply limiter_ok_mono; [|exact Hl]; lia | by apply Forall_delete | lia].
  - pose proof (delete_Permutation _ _ _ Hi) as Hperm. apply Permutation_length in Hperm. simpl in Hperm.
    pose proof (at_network_le (delete i (live s)) (network a)) as Hle.
    assert (Hlog' : forall k, (at_login (delete i (live s)) k <= at_login (live s) k)%nat)
      by (intros k; rewrite (at_login_delete _ _ _ k Hi); lia).
    cbn [drop_attempt in_flight set_in_flight networks logins]. split_and!; try done.
    + eapply limiter_ok_mono; [|exact Hl]; lia.
    + apply (release_place 32 _ (at_network (delete i (live s)))); [|lia]. intros k. by rewrite Hnet, (at_network_delete _ _ _ k Hi).
    + apply (release_place 32 _ (at_login (delete i (live s)))); [|specialize (Hlog' (attempt_login a)); specialize (Hten (attempt_login a)); lia].
      intros k. by rewrite Hlog, (at_login_delete _ _ _ k Hi).
    + lia.
    + intros k. specialize (Hlog' k). specialize (Hten k). lia.
Qed.

Lemma new_system_ok : system_ok 0 {| limiter := new_limiter; pending := []; live := [] |}.
Proof.
  unfold system_ok, limiter_ok, counted_in. cbn.
  split_and!; try done; try apply map_Forall_empty; try lia; constructor.
Qed.

Lemma limiter_reached_ok n s : reached n s -> Z.of_nat n <= MAX_STEPS -> system_ok (Z.of_nat n) s.
Proof.
  induction 1 as [|n s t Hr IH Hs]; intros Hn; [exact new_system_ok|].
  rewrite Nat2Z.inj_succ. apply (step_ok (Z.of_nat n) s t); [lia | apply IH; lia | done].
Qed.

(** A [begin] nothing comes in between is two steps. *)
Lemma begin_reached n s now ip login a : reached n s ->
  (begin to_lowercase now ip login (limiter s)).1 = Some a ->
  reached (S (S n))
    {| limiter := (begin to_lowercase now ip login (limiter s)).2; pending := pending s; live := a :: live s |}.
Proof.
  intros Hr H. unfold begin in *. destruct (look _ _ _ _ _) as [[v|] l] eqn:Hlook; [|done].
  pose proof (reached_step _ _ _ Hr (step_look now ip login v l s Hlook)) as H1.
  destruct (reserve _ _ _ _ _) as [a' l'] eqn:Hres. simpl in H. subst a'.
  apply (reached_step _ _ _ H1). by apply (step_reserve now 0 v (key ip) (login_key login) a l'
    {| limiter := l; pending := (v, key ip, login_key login) :: pending s; live := live s |}).
Qed.

(** ** What [begin] decides *)

(** What counts of a network and of a login in this window. *)
Definition window_of (now : Clock) (l : AuthLimiter) (network : IpAddr) : Failures :=
  match failures l !! network with
  | Some (f, since) => if WINDOW <? elapsed now since then no_failures else f
  | None => no_failures
  end.

Definition account_of (now : Clock) (l : AuthLimiter) (login : list byte) : option AccountFailures :=
  match accounts l !! login with
  | Some a => if WINDOW <? elapsed now (last a) then None else Some a
  | None => None
  end.

(** Whether the network may try, with [running] of its checks under way. *)
Definition network_may (now : Clock) (l : AuthLimiter) (ip : IpAddr) (running : Z) : Prop :=
  kept_out now l ip = false /\ over_the_line (window_of now l (key ip)) = false
  /\ wrong (window_of now l (key ip)) + running < MAX_FAILURES.

(** Whether the login may be tried: below its count, or alone and after a pause. *)
Definition login_may (now : Clock) (l : AuthLimiter) (login : list byte) (running : Z) : Prop :=
  match account_of now l login with
  | Some a => count a + running < ACCOUNT_FREE_FAILURES \/ (running = 0 /\ ACCOUNT_SPACING <= elapsed now (last a))
  | None => running < ACCOUNT_FREE_FAILURES
  end.

Lemma network_failures_spec now network exempt l :
  (network_failures now network exempt l).1
  = if over_the_line (window_of now l network) && negb exempt then None else Some (wrong (window_of now l network)).
Proof. unfold network_failures, window_of. repeat (case_match; simplify_eq; try done). Qed.

Lemma network_failures_rest now network exempt l :
  accounts (network_failures now network exempt l).2 = accounts l
  /\ in_flight (network_failures now network exempt l).2 = in_flight l.
Proof. unfold network_failures. by repeat case_match. Qed.

Lemma login_failures_spec now login l :
  (login_failures now login l).1
  = match account_of now l login with Some a => (count a, Some (last a)) | None => (0, None) end
  /\ in_flight (login_failures now login l).2 = in_flight l.
Proof. unfold login_failures, account_of. by repeat case_match; simplify_eq. Qed.

Lemma window_of_ok n now l network : 0 <= n -> limiter_ok n l -> failures_ok n (window_of now l network).
Proof.
  intros Hn (Hf & _). unfold window_of. destruct (failures l !! network) as [[f s]|] eqn:E; [|by apply no_failures_ok].
  case_match; [by apply no_failures_ok | by apply (Hf _ _ E)].
Qed.

(** [begin] with what it reads looked up. *)
Lemma begin_eq now ip login l :
  let window := window_of now l (key ip) in
  let account := account_of now l (login_key login) in
  (begin to_lowercase now ip login l).1 =
    if (negb (is_exempt l ip) && (kept_out now l ip || over_the_line window))
       || refused now
            {| v_exempt := is_exempt l ip; v_wrong := wrong window;
               v_count := match account with Some a => count a | None => 0 end; v_last := last <$> account |}
            (default 0 (networks (in_flight l) !! key ip)) (default 0 (logins (in_flight l) !! login_key login))
    then None else Some {| network := key ip; attempt_login := login_key login |}.
Proof.
  intros window account. unfold begin, look. destruct (is_exempt l ip) eqn:Ex; cbn [negb andb].
  2: destruct (kept_out now l ip) eqn:Ek; cbn [orb]; [done|].
  all: pose proof (network_failures_spec now (key ip) (is_exempt l ip) l) as Hn;
    pose proof (network_failures_rest now (key ip) (is_exempt l ip) l) as [Ha Hi]; rewrite Ex in *;
    destruct (network_failures _ _ _ _) as [w l1]; cbn [fst snd negb] in *; rewrite ?andb_false_r, ?andb_true_r in Hn;
    fold window in Hn.
  2: destruct (over_the_line window); [by subst w|].
  all: subst w; pose proof (login_failures_spec now (login_key login) l1) as [Hl Hi'];
    assert (account_of now l1 (login_key login) = account) as Eacc by (unfold account_of, account; by rewrite Ha);
    rewrite Eacc in Hl; destruct (login_failures _ _ _) as [[c t] l2]; cbn [fst snd] in *;
    unfold reserve; rewrite Hi', Hi; destruct account; injection Hl as -> ->; cbn [fmap option_fmap option_map];
    by case_match.
Qed.

Lemma refused_false n now v from_network for_login :
  view_ok n v -> n < MAX_STEPS -> 0 <= from_network <= n -> 0 <= for_login <= 10 ->
  refused now v from_network for_login = false <->
  (v_exempt v = true \/ v_wrong v + from_network < 10)
  /\ (v_count v + for_login < 10
      \/ (for_login = 0 /\ match v_last v with Some t => ACCOUNT_SPACING <= elapsed now t | None => True end)).
Proof.
  intros [Hw Hc] Hn Hf Hl. unfold MAX_STEPS in Hn. unfold refused. rewrite !u32_small by lia.
  unfold ACCOUNT_FREE_FAILURES, MAX_FAILURES. rewrite orb_false_iff, !andb_false_iff, orb_false_iff, negb_false_iff.
  destruct (v_last v); rewrite ?Z.leb_gt, ?Z.ltb_ge; split; intros [H1 H2]; (split; [exact H1 || lia |]);
    destruct H2 as [|[? ?]]; (lia || auto with lia).
Qed.

(** ** Properties *)

(** C20: whatever calls of whatever threads come in between, the places under way are
    exactly the attempts that have begun and not ended: per network and per login, with
    no entry left behind. No login is ever tried more than ten times at once. *)
Theorem attempts_counted n s : reached n s -> Z.of_nat n <= MAX_STEPS ->
  (forall network, networks (in_flight (limiter s)) !! network = places (at_network (live s) network))
  /\ (forall login, logins (in_flight (limiter s)) !! login = places (at_login (live s) login))
  /\ (forall login, (at_login (live s) login <= 10)%nat).
Proof. intros Hr Hn. destruct (limiter_reached_ok n s Hr Hn) as (_ & _ & [] & _ & ?). by split_and!. Qed.

(** A place is only granted within the failures that are left: the wrong passwords
    the network was seen with and its checks under way, the new one included, are at
    most ten, even when other checks began or ended since it was looked at. *)
Theorem reserve_within_failures n s i v network login now a l :
  reached n s -> Z.of_nat n < MAX_STEPS ->
  pending s !! i = Some (v, network, login) -> v_exempt v = false ->
  reserve now v network login (limiter s) = (Some a, l) ->
  v_wrong v + Z.of_nat (at_network (a :: live s) network) <= MAX_FAILURES.
Proof.
  intros Hr Hn Hi Hx Hres. destruct (limiter_reached_ok n s Hr ltac:(lia)) as (_ & Hp & [Hnet Hlog] & Hlive & Hten).
  apply reserve_granted in Hres as (Href & -> & _). rewrite Hnet, Hlog, !default_places in Href.
  pose proof (at_network_le (live s) network). specialize (Hten login).
  apply (not_refused (Z.of_nat n)) in Href as [_ Hw]; [|exact (proj1 (Forall_lookup _ _) Hp i _ Hi)|done|lia|lia].
  unfold at_network in *. rewrite having_cons, decide_True by done. specialize (Hw Hx).
  unfold MAX_FAILURES. lia.
Qed.

(** When a check may begin. The network must not be kept out, must be below the
    line and have a wrong password left for every check it has under way, or be exempt;
    the login must be below its free failures, or nobody else is trying it and its last
    failure is half a minute ago: a delay for whoever knows the password, never a
    lockout. *)
Theorem begin_decides n s now ip login :
  reached n s -> Z.of_nat n < MAX_STEPS ->
  is_Some (begin to_lowercase now ip login (limiter s)).1 <->
  (is_exempt (limiter s) ip = true \/ network_may now (limiter s) ip (Z.of_nat (at_network (live s) (key ip))))
  /\ login_may now (limiter s) (login_key login) (Z.of_nat (at_login (live s) (login_key login))).
Proof.
  intros Hr Hn. destruct (limiter_reached_ok n s Hr ltac:(lia)) as (Hl & _ & [Hnet Hlog] & Hlive & Hten).
  rewrite begin_eq. cbv zeta. rewrite Hnet, Hlog, !default_places.
  pose proof (window_of_ok (Z.of_nat n) now _ (key ip) ltac:(lia) Hl) as (Hw & _).
  pose proof (at_network_le (live s) (key ip)). specialize (Hten (login_key login)).
  assert (Hacc : forall a, account_of now (limiter s) (login_key login) = Some a -> 0 <= count a <= Z.of_nat n).
  { unfold account_of. destruct Hl as (_ & Ha & _). intros a.
    destruct (accounts _ !! _) as [a'|] eqn:E; [|done]. case_match; [done|]. intros [= <-]. by apply Ha in E. }
  assert (Hsome : forall (b : bool) (a : Attempt), is_Some (if b then None else Some a) <-> b = false)
    by (intros [] ?; unfold is_Some; naive_solver).
  rewrite Hsome, orb_false_iff, (refused_false (Z.of_nat n));
    [|split; cbn [v_wrong v_count]; [exact Hw|] | lia | lia | lia].
  2: destruct (account_of _ _ _); [by apply Hacc | lia].
  cbn [v_exempt v_wrong v_count v_last]. unfold network_may, login_may, MAX_FAILURES, ACCOUNT_FREE_FAILURES.
  destruct (is_exempt _ _), (kept_out _ _ _), (over_the_line _), (account_of _ _ _);
    cbn [negb andb orb fmap option_fmap option_map]; naive_solver lia.
Qed.

(** A success takes back the failures of the login that succeeded, all of them and
    no others: what was counted for other logins, for tokens and for logins that do not
    exist stays, and nothing is cut off by the saturating subtraction. *)
Theorem success_forgives_own n s now ip login account f since :
  reached n s -> Z.of_nat n <= MAX_STEPS ->
  failures (limiter s) !! key ip = Some (f, since) ->
  let own := default 0 (by_login f !! login_key login) in
  exists f', failures (record_success_of to_lowercase now ip login account (limiter s)) !! key ip = Some (f', since)
    /\ wrong f' = wrong f - own /\ unknown f' = unknown f
    /\ by_login f' = delete (login_key login) (by_login f) /\ total (by_login f') <= wrong f'.
Proof.
  intros Hr Hn Hf own. destruct (limiter_reached_ok n s Hr Hn) as ((Hall & _) & _).
  assert (Hok := Hall _ _ Hf). destruct Hok as (_ & Hok). cbn [fst] in Hok.
  exists (forgive (login_key login) f). split.
  { unfold record_success_of. cbv zeta. cbn [failures set_accounts]. rewrite Hf.
    destruct (known_after _ _ _). case_match; cbn [failures set_known set_failures set_remembered]; apply lookup_insert_eq. }
  pose proof (forgive_ok _ (login_key login) _ Hok) as (_ & _ & _ & _ & Ht).
  destruct Hok as (_ & _ & _ & Hge & Htot). subst own. unfold forgive in *.
  destruct (by_login f !! login_key login) as [own|] eqn:E; cbn [default wrong unknown by_login from_option] in *.
  - pose proof (own_le_total _ _ _ Hge E). unfold saturating_sub in *. cbn in *. split_and!; (done || lia).
  - rewrite delete_id by done. split_and!; (done || lia).
Qed.

(** The limiter stays well-formed: failures are counted for networks and not for
    single addresses, never more taken back than counted, at most sixteen logins of a
    network apart; a lasting block is kept under the network of its address, and there
    are at most [MAX_BLOCKS] of them. *)
Theorem limiter_well_formed n s : reached n s -> Z.of_nat n <= MAX_STEPS ->
  (forall k f since, failures (limiter s) !! k = Some (f, since) ->
     key k = k /\ total (by_login f) <= wrong f /\ (size (by_login f) <= LOGINS_PER_NETWORK)%nat)
  /\ (forall k b, blocks (limiter s) !! k = Some b -> k = key (ip b))
  /\ Z.of_nat (size (blocks (limiter s))) <= MAX_BLOCKS.
Proof.
  intros Hr Hn. destruct (limiter_reached_ok n s Hr Hn) as ((Hf & _ & Hb & Hs) & _). split_and!; [|by intros k b ?%Hb|done].
  intros k f since [Hk (_ & _ & ? & _ & ?)]%Hf. by split_and!.
Qed.

End limiter.

(** ** Examples *)

Definition home : IpAddr := V4 0xC0000207.
Definition mini : list byte := bs "mini@example.org".
Definition noon : Clock := {| instant := 10 ^ 12; unix := 1000000 |}.

(** One wrong password, then a check under way. *)
Definition one_failure : System :=
  {| limiter := call to_ascii_lowercase noon (RecordFailure home mini) new_limiter; pending := []; live := [] |}.

Definition trying : System :=
  {| limiter := (begin to_ascii_lowercase noon home mini (limiter one_failure)).2; pending := [];
     live := [{| network := home; attempt_login := mini |}] |}.

Lemma one_failure_reached : reached to_ascii_lowercase 1 one_failure.
Proof. exact (reached_step _ _ _ _ (reached_new _) (step_call _ noon (RecordFailure home mini) _)). Qed.

Lemma trying_reached : reached to_ascii_lowercase 3 trying.
Proof. apply (begin_reached _ _ one_failure); [apply one_failure_reached | vm_compute; reflexivity]. Qed.

Lemma attempts_counted_witness :
  networks (in_flight (limiter trying)) !! home = Some 1 /\ (at_login (live trying) mini <= 10)%nat.
Proof.
  destruct (attempts_counted to_ascii_lowercase 3 trying trying_reached) as (Hn & _ & Hl); [vm_compute; discriminate|].
  split; [exact (Hn home) | exact (Hl mini)].
Defined.

Lemma reserve_within_failures_witness :
  exists v l, look to_ascii_lowercase noon home mini (limiter trying) = (Some v, l) /\ v_wrong v = 1 /\
    v_wrong v + Z.of_nat (at_network ({| network := home; attempt_login := mini |} :: live trying) home) <= MAX_FAILURES.
Proof.
  set (v := {| v_exempt := false; v_wrong := 1; v_count := 1; v_last := Some (instant noon) |}).
  assert (Hlook : look to_ascii_lowercase noon home mini (limiter trying) = (Some v, limiter trying))
    by (vm_compute; reflexivity).
  exists v, (limiter trying). split; [exact Hlook|]. split; [reflexivity|].
  set (a := {| network := home; attempt_login := mini |}).
  set (l := (reserve noon v home mini (limiter trying)).2).
  assert (Hres : reserve noon v home mini (limiter trying) = (Some a, l)) by (vm_compute; reflexivity).
  exact (reserve_within_failures to_ascii_lowercase 4
    {| limiter := limiter trying; pending := [(v, home, mini)]; live := live trying |} 0 v home mini noon a l
    (reached_step _ _ _ _ trying_reached (step_look _ noon home mini v _ trying Hlook)) eq_refl eq_refl eq_refl Hres).
Defined.

Lemma begin_decides_witness :
  is_Some (begin to_ascii_lowercase noon home mini (limiter trying)).1 /\
  login_may noon (limiter trying) mini (Z.of_nat (at_login (live trying) mini)).
Proof.
  assert (H : is_Some (begin to_ascii_lowercase noon home mini (limiter trying)).1) by (vm_compute; by eexists).
  split; [exact H|].
  apply (begin_decides to_ascii_lowercase 3 trying noon home mini trying_reached) in H as [_ H]; [exact H|].
  vm_compute. reflexivity.
Defined.

Definition one_wrong : Failures := {| wrong := 1; unknown := 0; by_login := {[ mini := 1 ]} |}.

Lemma one_wrong_counted : failures (limiter trying) !! home = Some (one_wrong, instant noon).
Proof. vm_compute. reflexivity. Qed.

Lemma success_forgives_own_witness :
  exists f since f', failures (limiter trying) !! home = Some (f, since) /\ wrong f = 1 /\ wrong f' = 0.
Proof.
  destruct (success_forgives_own to_ascii_lowercase 3 trying noon home mini mini one_wrong (instant noon) trying_reached)
    as (f' & _ & Hw & _); [vm_compute; discriminate | exact one_wrong_counted |].
  exists one_wrong, (instant noon), f'. split; [exact one_wrong_counted|]. split; [reflexivity|].
  rewrite Hw. vm_compute. reflexivity.
Defined.

Lemma limiter_well_formed_witness :
  exists k f since, failures (limiter trying) !! k = Some (f, since) /\ total (by_login f) <= wrong f.
Proof.
  destruct (limiter_well_formed to_ascii_lowercase 3 trying trying_reached) as (H & _); [vm_compute; discriminate|].
  exists home, one_wrong, (instant noon). split; [exact one_wrong_counted|].
  exact (proj1 (proj2 (H home one_wrong (instant noon) one_wrong_counted))).
Defined.
