(* ===== verification/LimiterRuns.v ===== *)
(** * Runs of the login limiter

    What the limiter does over a sequence of calls: guesses at others' logins add up
    to a refusal however often an own login succeeds in between, a lasting block holds
    for its time and is reported on every tenth visit, and the networks that are
    listed as kept out are those that are turned away. *)

From stdpp Require Import gmap sorting.
From S2P Require Import Prelude Utf8 Network Limiter LimiterSafe.

Section runs.
Context (to_lowercase : list byte -> list byte).

Abbreviation login_key := (login_key to_lowercase).
Abbreviation call := (call to_lowercase).

(** ** Guesses between successes *)

Definition run (calls : list (Clock * Call)) (l : AuthLimiter) : AuthLimiter :=
  foldl (fun l c => call c.1 c.2 l) l calls.

(** The wrong passwords a call adds for [net], those for the login [mine] left out. *)
Definition guesses (mine : list byte) (net : IpAddr) (c : Call) : Z :=
  match c with
  | RecordFailure ip login => if decide (key ip = net /\ login_key login <> mine) then 1 else 0
  | RecordWrongToken ip => if decide (key ip = net) then 1 else 0
  | _ => 0
  end.

Definition guessed (mine : list byte) (net : IpAddr) (calls : list (Clock * Call)) : Z :=
  foldr (fun c n => guesses mine net c.2 + n) 0 calls.

(** Calls by which nobody but [mine] gets in from [net], and no admin steps in. *)
Definition only_mine (mine : list byte) (net : IpAddr) (c : Call) : Prop :=
  match c with
  | RecordSuccessOf ip login _ => key ip = net -> login_key login = mine
  | Unblock ip => key ip <> net
  | SetExempt _ | SetExemptHosts _ | SetHostAddresses _ _ => False
  | _ => True
  end.

(** The failures of [net] after [k] guesses since [t0]. *)
Definition guesses_counted (mine : list byte) (net : IpAddr) (t0 k : Z) (l : AuthLimiter) : Prop :=
  match failures l !! net with
  | Some (f, since) => t0 <= since /\ k + default 0 (by_login f !! mine) <= wrong f
  | None => k = 0
  end.

Definition in_window (t0 : Z) (now : Clock) : Prop := t0 <= instant now <= t0 + WINDOW.

Lemma not_expired t0 now since : in_window t0 now -> t0 <= since -> (WINDOW <? elapsed now since) = false.
Proof. unfold in_window, elapsed, saturating_sub. intros. assert (0 <= WINDOW) by (vm_compute; discriminate). lia. Qed.

Lemma failures_report r l : failures (report r l) = failures l.
Proof. unfold report. by case_match. Qed.

Lemma failures_turn_away now ip l : failures (turn_away now ip l) = failures l.
Proof. unfold turn_away. repeat case_match; rewrite ?failures_report; done. Qed.

Lemma keep_guesses mine net t0 k l l' :
  failures l' !! net = failures l !! net -> guesses_counted mine net t0 k l -> guesses_counted mine net t0 k l'.
Proof. unfold guesses_counted. by intros ->. Qed.

Lemma swept_lookup {K A} `{Countable K} keep (m : gmap K A) k :
  (forall x, m !! k = Some x -> keep x = true) -> swept keep m !! k = m !! k.
Proof.
  intros Hk. unfold swept. case_match; [|done]. destruct (m !! k) as [x|] eqn:E.
  - apply map_lookup_filter_Some. split; [done | by apply Hk].
  - apply map_lookup_filter_None. by left.
Qed.

(** The failures of [net] once a try from [ip] is counted. *)
Lemma record_failures now ip tried l net t0 :
  in_window t0 now -> is_exempt l ip = false ->
  (forall f since, failures l !! net = Some (f, since) -> t0 <= since) ->
  failures (record now ip tried l) !! net =
    if decide (key ip = net) then
      match failures l !! net with
      | Some (f, since) => Some (count_try tried f, since)
      | None => Some (count_try tried no_failures, instant now)
      end
    else failures l !! net.
Proof.
  intros Hwin Hx Hsince. unfold record. rewrite Hx. cbv zeta.
  set (m := swept _ _). assert (Hm : m !! net = failures l !! net).
  { apply swept_lookup. intros [f since] H%Hsince. simpl. pose proof (not_expired _ _ _ Hwin H). lia. }
  assert (E : forall e r, failures (if e : bool then report r (set_failures (<[key ip := (count_try tried
    (entry_of now (key ip) m).1, (entry_of now (key ip) m).2)]> m) l) else set_failures (<[key ip := (count_try tried
    (entry_of now (key ip) m).1, (entry_of now (key ip) m).2)]> m) l)
    = <[key ip := (count_try tried (entry_of now (key ip) m).1, (entry_of now (key ip) m).2)]> m).
  { intros [] r; [by rewrite failures_report | done]. }
  rewrite E. case_decide as Hk; [subst net; rewrite lookup_insert_eq | by rewrite lookup_insert_ne].
  unfold entry_of. rewrite Hm. destruct (failures l !! key ip) as [[f since]|] eqn:Ef; cbn [default from_option id snd fst].
  - by rewrite (not_expired t0) by (done || by eapply Hsince).
  - rewrite (not_expired t0); [done | done | apply Hwin].
Qed.

(** Who is never blocked. *)
Definition lists (l : AuthLimiter) := (exempt l, exempt_hosts l).

Lemma lists_report r l : lists (report r l) = lists l.
Proof. unfold report. by case_match. Qed.

Lemma lists_turn_away now ip l : lists (turn_away now ip l) = lists l.
Proof. unfold turn_away. repeat case_match; by rewrite ?lists_report. Qed.

Lemma lists_record now ip tried l : lists (record now ip tried l) = lists l.
Proof. unfold record. cbv zeta. repeat case_match; by rewrite ?lists_report. Qed.

Lemma lists_unchanged mine net now c l : only_mine mine net c -> lists (call now c l) = lists l.
Proof.
  destruct c; cbn [only_mine LimiterSafe.call]; intros Hc; try done; try by apply lists_record.
  - unfold is_blocked. repeat case_match; cbn [snd]; by rewrite ?lists_turn_away.
  - unfold account_throttled. by repeat case_match.
  - unfold look, network_failures, login_failures. cbv zeta.
    repeat case_match; simplify_eq; cbn [snd]; by rewrite ?lists_turn_away.
  - unfold record_failure. cbv zeta. by rewrite lists_record.
  - unfold record_success_of. cbv zeta. by repeat case_match.
  - unfold block, block_for. cbv zeta. by repeat case_match.
  - unfold unblock. cbv zeta. cbn [snd]. by rewrite lists_report.
Qed.

Lemma is_exempt_lists l l' ip : lists l' = lists l -> is_exempt l' ip = is_exempt l ip.
Proof. intros [= He Hh]. unfold is_exempt. by rewrite He, Hh. Qed.

(** A counted try, for the guesses. *)
Lemma guess_try mine n tried f : failures_ok n f -> n + 1 < 2 ^ 32 ->
  wrong f - default 0 (by_login f !! mine)
  + match tried with
    | Wrong (Some login) => if decide (login <> mine) then 1 else 0
    | Wrong None => 1
    | Unknown => 0
    end
  <= wrong (count_try tried f) - default 0 (by_login (count_try tried f) !! mine).
Proof.
  intros (Hw & _ & _ & Hall & Ht) Hn. destruct tried as [|[login|]]; cbn [count_try wrong by_login];
    rewrite ?u32_small by lia; [lia| |lia].
  destruct (by_login f !! login) as [own|] eqn:El; [|destruct (decide (size (by_login f) < LOGINS_PER_NETWORK)%nat)].
  - pose proof (own_le_total _ _ _ Hall El). rewrite u32_small by lia.
    case_decide; [rewrite lookup_insert_ne by done; lia|].
    destruct (decide (login = mine)) as [->|]; [|by exfalso; auto]. rewrite lookup_insert_eq, El. simpl. lia.
  - case_decide; [rewrite lookup_insert_ne by done; lia|].
    destruct (decide (login = mine)) as [->|]; [|by exfalso; auto]. rewrite lookup_insert_eq, El. simpl. lia.
  - case_decide; lia.
Qed.

Lemma guesses_record n now ip tried mine net t0 k l :
  0 <= n < MAX_STEPS -> limiter_ok n l -> in_window t0 now -> is_exempt l ip = false ->
  guesses_counted mine net t0 k l ->
  guesses_counted mine net t0
    (k + if decide (key ip = net) then
           match tried with
           | Wrong (Some login) => if decide (login <> mine) then 1 else 0
           | Wrong None => 1
           | Unknown => 0
           end
         else 0) (record now ip tried l).
Proof.
  intros Hn Hok Hwin Hx Hk. unfold guesses_counted in *. unfold MAX_STEPS in Hn.
  rewrite (record_failures now ip tried l net t0); [|done|done|].
  2: { intros f since Hf. rewrite Hf in Hk. apply Hk. }
  case_decide as Hkey; [|replace (k + 0) with k by lia; exact Hk].
  destruct (failures l !! net) as [[f since]|] eqn:Ef.
  - destruct Hok as (Hf & _). apply Hf in Ef as [_ Hfok]. cbn [fst] in Hfok.
    pose proof (guess_try mine n tried f Hfok ltac:(lia)). destruct Hk. split; [done | lia].
  - pose proof (guess_try mine n tried no_failures (no_failures_ok n ltac:(lia)) ltac:(lia)) as Hg.
    cbn [no_failures wrong by_login] in Hg. rewrite lookup_empty in Hg. simpl default in Hg. subst k.
    split; [apply Hwin | lia].
Qed.

Lemma failures_block now ip reason login protocol l : failures (block now ip reason login protocol l).2 = failures l.
Proof. unfold block, block_for. cbv zeta. by repeat case_match. Qed.

(** What only reads or removes expired failures leaves those of [net]. *)
Lemma failures_kept mine net t0 k now c l :
  in_window t0 now -> only_mine mine net c -> guesses_counted mine net t0 k l ->
  match c with RecordFailure _ _ | RecordWrongToken _ | RecordUnknownLogin _ | RecordSuccessOf _ _ _ => False | _ => True end ->
  failures (call now c l) !! net = failures l !! net.
Proof.
  intros Hwin Hc Hk Hkind.
  assert (Hdel : forall i, (forall f since, failures l !! i = Some (f, since) -> (WINDOW <? elapsed now since) = true) ->
    delete i (failures l) !! net = failures l !! net).
  { intros i Hi. destruct (decide (i = net)) as [->|]; [|by rewrite lookup_delete_ne].
    rewrite lookup_delete_eq. destruct (failures l !! net) as [[f since]|] eqn:E; [|done].
    unfold guesses_counted in Hk. rewrite E in Hk. specialize (Hi f since eq_refl).
    by rewrite (not_expired t0) in Hi by (done || apply Hk). }
  destruct c; cbn [LimiterSafe.call] in *; try done.
  - unfold is_blocked. repeat case_match; cbn [snd]; rewrite ?failures_turn_away; try done.
    apply Hdel. naive_solver.
  - unfold account_throttled. by repeat case_match.
  - unfold look, network_failures, login_failures. cbv zeta.
    repeat case_match; simplify_eq; cbn [snd failures set_failures set_accounts]; rewrite ?failures_turn_away; try done;
      apply Hdel; naive_solver.
  - by rewrite failures_block.
  - unfold unblock. cbv zeta. cbn [snd]. rewrite failures_report. cbn [failures set_failures set_turned_away set_blocks].
    apply lookup_delete_ne. exact Hc.
Qed.

Lemma guesses_success mine net t0 k n now ip login account l :
  limiter_ok n l -> (key ip = net -> login_key login = mine) ->
  guesses_counted mine net t0 k l ->
  guesses_counted mine net t0 k (record_success_of to_lowercase now ip login account l).
Proof.
  intros (Hf & _) Hc Hk.
  assert (E : failures (record_success_of to_lowercase now ip login account l) =
    match failures l !! key ip with
    | Some (f, since) => <[key ip := (forgive (login_key login) f, since)]> (failures l)
    | None => failures l
    end).
  { unfold record_success_of. cbv zeta. cbn [failures set_accounts].
    destruct (failures l !! key ip) as [[f since]|]; destruct (known_after _ _ _); by case_match. }
  unfold guesses_counted in *. rewrite E. destruct (failures l !! key ip) as [[f since]|] eqn:Ef; [|done].
  destruct (decide (key ip = net)) as [Hkey|]; [|by rewrite lookup_insert_ne].
  rewrite <-Hkey in *. rewrite (Hc eq_refl). rewrite Ef in Hk. rewrite lookup_insert_eq. destruct Hk as [Hs Hk].
  split; [done|]. apply Hf in Ef as [_ (_ & _ & _ & Hall & Ht)]. cbn [fst] in *. unfold forgive.
  destruct (by_login f !! mine) as [own|] eqn:El; [|rewrite El; exact Hk].
  pose proof (own_le_total _ _ _ Hall El). cbn [wrong by_login]. rewrite lookup_delete_eq.
  cbn [default from_option id] in *. unfold saturating_sub. lia.
Qed.

Lemma guesses_call mine net t0 k n now c l :
  0 <= n < MAX_STEPS -> limiter_ok n l -> in_window t0 now -> only_mine mine net c ->
  (forall ip, key ip = net -> is_exempt l ip = false) ->
  guesses_counted mine net t0 k l -> guesses_counted mine net t0 (k + guesses mine net c) (call now c l).
Proof.
  intros Hn Hok Hwin Hc Hx Hk.
  assert (Hrec : forall ip tried l, limiter_ok n l -> (forall ip, key ip = net -> is_exempt l ip = false) ->
    guesses_counted mine net t0 k l -> guesses_counted mine net t0
    (k + if decide (key ip = net) then
           match tried with
           | Wrong (Some login) => if decide (login <> mine) then 1 else 0
           | Wrong None => 1
           | Unknown => 0
           end
         else 0) (record now ip tried l)).
  { clear -Hn Hwin. intros ip tried l Hok Hx Hk. destruct (is_exempt l ip) eqn:E; [|by eapply guesses_record].
    rewrite decide_False by (intros Hkey; by rewrite (Hx ip Hkey) in E).
    unfold record. rewrite E. by replace (k + 0) with k by lia. }
  assert (Hsame : guesses mine net c = 0 ->
    match c with RecordFailure _ _ | RecordWrongToken _ | RecordUnknownLogin _ | RecordSuccessOf _ _ _ => False | _ => True end ->
    guesses_counted mine net t0 (k + guesses mine net c) (call now c l)).
  { intros -> Hkind. replace (k + 0) with k by lia. eapply keep_guesses; [|exact Hk]. by eapply failures_kept. }
  destruct c; try (by apply Hsame); clear Hsame; cbn [LimiterSafe.call guesses].
  - unfold record_failure. cbv zeta. set (a := <[_ := _]> _).
    specialize (Hrec ip (Wrong (Some (login_key login))) l Hok Hx Hk).
    rewrite record_set_accounts. unfold guesses_counted. cbn [failures set_accounts].
    replace (if decide (key ip = net /\ login_key login <> mine) then 1 else 0) with
      (if decide (key ip = net) then if decide (login_key login <> mine) then 1 else 0 else 0); [exact Hrec|].
    repeat case_decide; naive_solver.
  - exact (Hrec ip (Wrong None) l Hok Hx Hk).
  - specialize (Hrec ip Unknown l Hok Hx Hk). by destruct (decide (key ip = net)).
  - replace (k + 0) with k by lia. by eapply guesses_success.
Qed.

Lemma guesses_run mine net t0 calls : forall n k l,
  Z.of_nat (n + length calls) <= MAX_STEPS -> limiter_ok (Z.of_nat n) l ->
  Forall (fun c => in_window t0 c.1 /\ only_mine mine net c.2) calls ->
  (forall ip, key ip = net -> is_exempt l ip = false) ->
  guesses_counted mine net t0 k l ->
  guesses_counted mine net t0 (k + guessed mine net calls) (run calls l)
  /\ (forall ip, key ip = net -> is_exempt (run calls l) ip = false).
Proof.
  induction calls as [|[now c] calls IH]; intros n k l Hn Hok Hall Hx Hk; cbn [run guessed foldl foldr fst snd] in *.
  { by replace (k + 0) with k by lia. }
  apply Forall_cons in Hall as [[Hwin Hc] Hall]. cbn [length fst snd] in *.
  assert (Hok' : limiter_ok (Z.of_nat (S n)) (call now c l)).
  { rewrite Nat2Z.inj_succ. apply call_ok; [lia | done]. }
  rewrite Z.add_assoc. apply (IH (S n)); [lia | done | done | |].
  - intros ip Hkey. rewrite (is_exempt_lists l) by (by eapply lists_unchanged). by apply Hx.
  - apply (guesses_call mine net t0 k (Z.of_nat n)); (done || lia).
Qed.

Lemma run_ok n calls l : Z.of_nat (n + length calls) <= MAX_STEPS -> limiter_ok (Z.of_nat n) l ->
  limiter_ok (Z.of_nat (n + length calls)) (run calls l).
Proof.
  revert n l. induction calls as [|c calls IH]; intros n l Hn Hok; cbn [run foldl length] in *; [by rewrite Nat.add_0_r|].
  rewrite Nat.add_succ_r, <-Nat.add_succ_l in *. apply IH; [done|]. rewrite Nat2Z.inj_succ. apply call_ok; [lia | done].
Qed.

(** ** Properties *)

(** C18: an own account does not help guessing at others. Once a network had ten wrong
    passwords for logins other than [mine], or for tokens, within one window, none of
    its addresses is let in to try again, however often [mine] logged in successfully
    between the guesses, and whatever other networks did. *)
Theorem guesses_add_up n s mine net t0 calls now ip login :
  reached to_lowercase n s -> Z.of_nat (n + length calls) <= MAX_STEPS ->
  failures (limiter s) !! net = None ->
  (forall ip, key ip = net -> is_exempt (limiter s) ip = false) ->
  Forall (fun c => in_window t0 c.1 /\ only_mine mine net c.2) calls ->
  MAX_FAILURES <= guessed mine net calls ->
  key ip = net -> in_window t0 now ->
  (is_blocked now ip (run calls (limiter s))).1 = true
  /\ (begin to_lowercase now ip login (run calls (limiter s))).1 = None.
Proof.
  intros Hr Hn Hnone Hx Hall Hten Hkey Hwin.
  destruct (limiter_reached_ok _ n s Hr ltac:(lia)) as (Hok & _).
  destruct (guesses_run mine net t0 calls n 0 (limiter s)) as [Hk Hx']; try done.
  { unfold guesses_counted. by rewrite Hnone. }
  set (l := run calls (limiter s)) in *. specialize (Hx' ip Hkey). rewrite Z.add_0_l in Hk.
  assert (Hown : forall n f since, limiter_ok n l -> failures l !! net = Some (f, since) -> 0 <= default 0 (by_login f !! mine)).
  { intros n' f since (Hf & _) Hs. apply Hf in Hs as [_ (_ & _ & _ & Hge & _)]. cbn [fst] in Hge.
    destruct (by_login f !! mine) as [own|] eqn:E; [|done]. apply Hge in E. simpl in *. lia. }
  unfold guesses_counted in Hk. destruct (failures l !! net) as [[f since]|] eqn:Ef; [|unfold MAX_FAILURES in *; lia].
  destruct Hk as [Hs Hk].
  assert (Hline : over_the_line f = true).
  { unfold over_the_line. assert (0 <= default 0 (by_login f !! mine)); [|unfold MAX_FAILURES in *; lia].
    eapply Hown; [|done]. eapply run_ok; [exact Hn | exact Hok]. }
  split.
  - unfold is_blocked. rewrite Hx'. case_match; [done|]. rewrite Hkey, Ef, (not_expired t0) by done. exact Hline.
  - rewrite begin_eq. cbv zeta. rewrite Hx'. unfold window_of. rewrite Hkey, Ef, (not_expired t0) by done.
    rewrite Hline, orb_true_r. done.
Qed.

End runs.

(** ** Lasting blocks *)

(** The blocks once those that are forgotten are swept out of a full list. *)
Definition swept_blocks (now : Clock) (l : AuthLimiter) : gmap IpAddr Block :=
  if MAX_BLOCKS <=? Z.of_nat (size (blocks l)) then filter (fun kv => remembered_block now kv.2 = true) (blocks l)
  else blocks l.

(** Whether the list of blocks has room for this network. *)
Definition has_room (now : Clock) (l : AuthLimiter) (ip : IpAddr) : Prop :=
  Z.of_nat (size (swept_blocks now l)) < MAX_BLOCKS \/ is_Some (swept_blocks now l !! key ip).

(** How often the network was blocked before, as far as that is remembered. *)
Definition times_before (now : Clock) (l : AuthLimiter) (ip : IpAddr) : Z :=
  match blocks l !! key ip with Some b => if remembered_block now b then times b else 0 | None => 0 end.

Lemma swept_blocks_lookup now l k :
  match swept_blocks now l !! k with
  | Some b => blocks l !! k = Some b
  | None => forall b, blocks l !! k = Some b -> remembered_block now b = false
  end.
Proof.
  unfold swept_blocks. destruct (MAX_BLOCKS <=? _); [|by destruct (blocks l !! k)].
  destruct (filter _ _ !! k) as [b|] eqn:E; [by apply map_lookup_filter_Some in E as [E _]|].
  intros b Hb. apply map_lookup_filter_None in E as [E|E]; [congruence|].
  specialize (E b Hb). cbn [snd] in E. by destruct (remembered_block now b).
Qed.

Lemma u64_small z : 0 <= z < 2 ^ 64 -> u64 z = z.
Proof. apply Z.mod_small. Qed.

(** A block that still runs is remembered. *)
Lemma running_remembered now b : 0 <= until b < 2 ^ 63 -> unix now < until b -> remembered_block now b = true.
Proof.
  intros Hb Hu. unfold remembered_block.
  assert (0 <= as_secs BLOCK_MEMORY < 2 ^ 32) by (vm_compute; intuition discriminate).
  rewrite u64_small by lia. lia.
Qed.

Definition blocks_fit (l : AuthLimiter) : Prop := map_Forall (fun _ b => 0 <= until b < 2 ^ 63) (blocks l).

(** [block] with the sweep looked through. *)
Lemma block_eq now addr reason login protocol l : blocks_fit l ->
  (block now addr reason login protocol l).1 =
    (if decide (may_block_at_once now l addr = true /\ kept_out now l addr = false /\ has_room now l addr)
     then (block_for now addr reason login protocol (times_before now l addr) (set_blocks (swept_blocks now l) l)).1
     else None)
  /\ (forall b, (block now addr reason login protocol l).1 = Some b ->
       blocks (block now addr reason login protocol l).2 = <[key addr := b]> (swept_blocks now l)).
Proof.
  intros Hfit. unfold block. destruct (may_block_at_once now l addr) eqn:Hmay; cbn [negb].
  2: { rewrite decide_False by (by intros (? & _ & _)). by split. }
  cbv zeta. fold (swept_blocks now l).
  pose proof (swept_blocks_lookup now l (key addr)) as Hl. unfold times_before, kept_out, has_room in *.
  assert (Hsize : (MAX_BLOCKS <=? Z.of_nat (size (blocks l))) && (MAX_BLOCKS <=? Z.of_nat (size (swept_blocks now l)))
                  = negb (Z.of_nat (size (swept_blocks now l)) <? MAX_BLOCKS)).
  { unfold swept_blocks. destruct (MAX_BLOCKS <=? Z.of_nat (size (blocks l))) eqn:F; cbn [andb]; lia. }
  rewrite Hsize. destruct (swept_blocks now l !! key addr) as [b|] eqn:E.
  - rewrite (bool_decide_false (Some b = None)), andb_false_r by done. cbn [blocks set_blocks]. rewrite Hl.
    destruct (unix now <? until b) eqn:Eu.
    { rewrite decide_False by (by intros (_ & ? & _)). by split. }
    rewrite decide_True by (split_and!; [done | done | right; by eexists]). split; [done|].
    by intros b' [= <-].
  - rewrite (bool_decide_true (None = None)), andb_true_r by done. cbn [blocks set_blocks].
    destruct (Z.ltb_spec (Z.of_nat (size (swept_blocks now l))) MAX_BLOCKS) as [Hs|Hs]; cbn [negb].
    + destruct (blocks l !! key addr) as [b|] eqn:Eb.
      * specialize (Hl b eq_refl). rewrite Hl. pose proof (Hfit _ _ Eb) as Hb.
        destruct (Z.ltb_spec (unix now) (until b)) as [Hu|];
          [by rewrite (running_remembered now b Hb Hu) in Hl|].
        rewrite decide_True by (split_and!; [done | done | by left]). split; [done|]. by intros b' [= <-].
      * rewrite decide_True by (split_and!; [done | done | by left]). split; [done|]. by intros b' [= <-].
    + rewrite decide_False; [done|]. intros (_ & _ & [?|[? ?]]); [lia | done].
Qed.

Definition how_long (times : Z) : Z := as_secs (if times =? 0 then BLOCK_FIRST else BLOCK_AGAIN).

(** When a bad login keeps its network out, and for how long. A block is made
    exactly when the address may be blocked, is not kept out already and the list has
    room; it lasts a day, or a week when the network was blocked before and that is
    not forgotten, and for just that time every address of the network is kept out. *)
Theorem block_decides now addr reason login protocol l :
  blocks_fit l -> 0 <= unix now < 2 ^ 62 ->
  let '(made, l') := block now addr reason login protocol l in
  (is_Some made <-> may_block_at_once now l addr = true /\ kept_out now l addr = false /\ has_room now l addr)
  /\ forall b, made = Some b ->
       ip b = addr /\ since b = unix now /\ until b = unix now + how_long (times_before now l addr)
       /\ forall other later, key other = key addr -> kept_out later l' other = (unix later <? until b).
Proof.
  intros Hfit Hnow. pose proof (block_eq now addr reason login protocol l Hfit) as [Hm Hb].
  destruct (block now addr reason login protocol l) as [made l']. cbn [fst snd] in *. split.
  - rewrite Hm. case_decide as H; split; [done | intros _; by eexists | intros [? ?]; done | done].
  - intros b ->. specialize (Hb b eq_refl). case_decide; [|done]. injection Hm as ->.
    split; [done|]. split; [done|]. split.
    + unfold how_long. cbn [until]. apply u64_small.
      assert (0 <= as_secs (if times_before now l addr =? 0 then BLOCK_FIRST else BLOCK_AGAIN) < 2 ^ 32)
        by (case_match; vm_compute; intuition discriminate). lia.
    + intros other later Hkey. unfold kept_out. rewrite Hb, Hkey, lookup_insert_eq. done.
Qed.

(** ** Visits of a network that is kept out *)

(** [n] visits, one after the other. *)
Fixpoint visits (now : Clock) (addr : IpAddr) (n : nat) (l : AuthLimiter) : AuthLimiter :=
  match n with O => l | S n' => (is_blocked now addr (visits now addr n' l)).2 end.

Lemma visits_state now addr l n b :
  is_exempt l addr = false -> blocks l !! key addr = Some b -> unix now < until b -> reporter l = true ->
  turned_away l !! key addr = None -> Z.of_nat n < 2 ^ 32 ->
  let l' := visits now addr n l in
  lists l' = lists l /\ blocks l' = blocks l /\ reporter l' = true
  /\ default 0 (turned_away l' !! key addr) = Z.of_nat n
  /\ exists why, reports l' = reports l ++ replicate (n / 10) (addr, Some (from_secs (until b - unix now)), why).
Proof.
  intros Hx Hb Hu Hrep Haway. set (why := if decide (reason b = NOT_AN_ADDRESS)
    then bs "kept coming after a login that is not an address" else bs "kept coming after a login that nobody here has").
  intros Hn. cbv zeta.
  cut (lists (visits now addr n l) = lists l /\ blocks (visits now addr n l) = blocks l
       /\ reporter (visits now addr n l) = true
       /\ default 0 (turned_away (visits now addr n l) !! key addr) = Z.of_nat n
       /\ reports (visits now addr n l) = reports l ++ replicate (n / 10) (addr, Some (from_secs (until b - unix now)), why)).
  { intros (? & ? & ? & ? & ?). split_and!; eauto. }
  induction n as [|n IH]; cbn [visits].
  { rewrite Haway, app_nil_r. done. }
  destruct IH as (Hl & Hbl & Hr & Ha & Hreps); [lia|]. set (l' := visits now addr n l) in *.
  unfold is_blocked. rewrite (is_exempt_lists l l' addr Hl), Hx. unfold kept_out. rewrite Hbl, Hb.
  assert (unix now <? until b = true) as -> by lia. cbn [snd].
  unfold turn_away. rewrite Ha. unfold u32_saturating_add, u32_max. rewrite Z.min_r by lia.
  cbv zeta. cbn [blocks set_turned_away]. rewrite Hbl, Hb. assert (unix now <? until b = true) as -> by lia.
  pose proof (Nat.div_mod_eq n 10) as Hdn. pose proof (Nat.mod_upper_bound n 10 ltac:(lia)) as Hmn.
  pose proof (Nat.div_mod_eq (S n) 10) as Hds. pose proof (Nat.mod_upper_bound (S n) 10 ltac:(lia)) as Hms.
  destruct (Z.eqb_spec ((Z.of_nat n + 1) `mod` REPORT_AFTER) 0) as [E|E]; unfold REPORT_AFTER in E; cbn [negb].
  - unfold report. cbn [reporter set_turned_away]. rewrite Hr.
    split_and!; [exact Hl | done | exact Hr | |].
    + cbn [turned_away set_reports set_turned_away]. rewrite lookup_insert_eq. simpl. lia.
    + cbn [reports set_reports set_turned_away]. rewrite Hreps, <-app_assoc. fold why. f_equal.
      assert (S n / 10 = S (n / 10))%nat as -> by dlia. by rewrite <-replicate_cons_app.
  - split_and!; [exact Hl | done | exact Hr | |].
    + cbn [turned_away set_turned_away]. rewrite lookup_insert_eq. simpl. lia.
    + cbn [reports set_turned_away]. rewrite Hreps. assert (S n / 10 = n / 10)%nat as -> by dlia. done.
Qed.

(** A network that is kept out is told on: of [n] visits since its block was made
    every one is turned away, and every tenth is reported further out, for what is
    left of the block, and no other. *)
Theorem visits_reported now addr l n b :
  is_exempt l addr = false -> blocks l !! key addr = Some b -> unix now < until b -> reporter l = true ->
  turned_away l !! key addr = None -> Z.of_nat n < 2 ^ 32 ->
  (is_blocked now addr (visits now addr n l)).1 = true
  /\ exists why, reports (visits now addr n l)
       = reports l ++ replicate (n / 10) (addr, Some (from_secs (until b - unix now)), why).
Proof.
  intros Hx Hb Hu Hrep Haway Hn.
  destruct (visits_state now addr l n b Hx Hb Hu Hrep Haway Hn) as (Hl & Hbl & _ & _ & Hreps).
  split; [|exact Hreps]. unfold is_blocked. rewrite (is_exempt_lists l _ addr Hl), Hx.
  unfold kept_out. rewrite Hbl, Hb. by assert (unix now <? until b = true) as -> by lia.
Qed.

(** ** The list of what is kept out *)

Definition nets (bs : list Block) : list IpAddr := map (fun b => key (ip b)) bs.

(** Whether an entry of the failures turns its network away. *)
Definition over_now (now : Clock) (kv : IpAddr * (Failures * Z)) : Prop :=
  (WINDOW <? elapsed now kv.2.2) = false /\ over_the_line kv.2.1 = true.

Lemma not_listed k bs : existsb (fun b => bool_decide (key (ip b) = k)) bs = false <-> k ∉ nets bs.
Proof.
  unfold nets. rewrite <-not_true_iff_false, existsb_exists, list_elem_of_In, in_map_iff.
  setoid_rewrite bool_decide_eq_true. naive_solver.
Qed.

Lemma add_window_elem now bs kv b : b ∈ add_window now bs kv ->
  b ∈ bs \/ (b = window_block now kv.1 kv.2 /\ over_now now kv).
Proof.
  unfold add_window, window_listed, over_now. case_match eqn:E; [|by left].
  rewrite elem_of_app, list_elem_of_singleton. rewrite !andb_true_iff in E. destruct E as [[Hw Ho] _].
  apply negb_true_iff in Hw. intuition.
Qed.

Lemma add_windows_elem now kvs : forall bs b, b ∈ foldl (add_window now) bs kvs ->
  b ∈ bs \/ exists kv, kv ∈ kvs /\ b = window_block now kv.1 kv.2 /\ over_now now kv.
Proof.
  induction kvs as [|kv kvs IH]; intros bs b Hb; cbn [foldl] in Hb; [by left|].
  apply IH in Hb as [[Hb|[-> Ho]]%add_window_elem|(kv' & ? & ?)]; [by left | right | right].
  - exists kv. split; [by left | done].
  - exists kv'. split; [by right | done].
Qed.

Lemma add_windows_mono now kvs : forall bs b, b ∈ bs -> b ∈ foldl (add_window now) bs kvs.
Proof.
  induction kvs as [|kv kvs IH]; intros bs b Hb; cbn [foldl]; [done|]. apply IH. unfold add_window.
  case_match; [by apply elem_of_app; left | done].
Qed.

Lemma add_windows_listed now kvs kv : kv ∈ kvs -> key kv.1 = kv.1 -> over_now now kv ->
  forall bs, kv.1 ∈ nets (foldl (add_window now) bs kvs).
Proof.
  intros Hin Hkey [Hw Ho]. induction kvs as [|kv' kvs IH]; intros bs; [by apply elem_of_nil in Hin|].
  cbn [foldl]. apply elem_of_cons in Hin as [<-|Hin]; [|by apply IH].
  assert (H : kv.1 ∈ nets (add_window now bs kv)).
  { unfold add_window, window_listed. rewrite Hw, Ho. cbn [negb andb].
    destruct (existsb _ bs) eqn:E; cbn [negb].
    - destruct (decide (kv.1 ∈ nets bs)) as [|Hn]; [done|]. apply not_listed in Hn. congruence.
    - unfold nets. rewrite map_app, elem_of_app. right. apply list_elem_of_singleton. symmetry. exact Hkey. }
  unfold nets in *. apply list_elem_of_In, in_map_iff in H as (b & Hb & H). apply list_elem_of_In, in_map_iff.
  exists b. split; [done|]. apply list_elem_of_In. apply add_windows_mono. by apply list_elem_of_In.
Qed.

Lemma add_windows_NoDup now kvs : (forall kv, kv ∈ kvs -> key kv.1 = kv.1) ->
  forall bs, NoDup (nets bs) -> NoDup (nets (foldl (add_window now) bs kvs)).
Proof.
  induction kvs as [|kv kvs IH]; intros Hkey bs Hbs; cbn [foldl]; [done|].
  apply IH; [intros kv' ?; apply Hkey; by right|]. unfold add_window, window_listed.
  destruct (existsb _ bs) eqn:E; [by rewrite andb_false_r|]. case_match; [|done].
  unfold nets. rewrite map_app. apply NoDup_app. split; [done|]. split; [|apply NoDup_singleton].
  intros k Hk Hs. apply list_elem_of_singleton in Hs. cbn [ip window_block] in Hs. rewrite Hkey in Hs by (by left).
  subst k. apply not_listed in E. contradiction.
Qed.

(** The blocks that run, before those are added that are over the line. *)
Definition lasting (now : Clock) (l : AuthLimiter) : list Block :=
  List.filter (fun b => unix now <? until b) (map snd (map_to_list (blocks l))).

Lemma lasting_elem now l b : b ∈ lasting now l <-> exists k, blocks l !! k = Some b /\ unix now < until b.
Proof.
  unfold lasting. rewrite list_elem_of_In, List.filter_In, in_map_iff. split.
  - intros [([k b'] & Heq & Hin) Hu]. simpl in Heq. subst b'. exists k. split; [|lia].
    by apply elem_of_map_to_list, list_elem_of_In.
  - intros (k & Hk & Hu). split; [|lia]. exists (k, b). split; [done|]. by apply list_elem_of_In, elem_of_map_to_list.
Qed.

Lemma filter_nets_NoDup (p : Block -> bool) bs : NoDup (nets bs) -> NoDup (nets (List.filter p bs)).
Proof.
  induction bs as [|b bs IH]; [done|]. simpl. intros [Hb Hbs]%NoDup_cons. specialize (IH Hbs).
  destruct (p b); [|done]. simpl. apply NoDup_cons. split; [|done]. intros H. apply Hb. unfold nets in *.
  apply list_elem_of_In, in_map_iff in H as (b' & Hb' & [H _]%List.filter_In). apply list_elem_of_In, in_map_iff.
  by exists b'.
Qed.

Lemma lasting_NoDup now l : map_Forall block_ok (blocks l) -> NoDup (nets (lasting now l)).
Proof.
  intros Hok. apply filter_nets_NoDup. unfold nets. rewrite map_map.
  assert (map (fun kv : IpAddr * Block => key (ip kv.2)) (map_to_list (blocks l)) = (map_to_list (blocks l)).*1) as ->.
  { apply map_ext_in. intros [k b] Hin. apply list_elem_of_In, elem_of_map_to_list in Hin. exact (Hok _ _ Hin). }
  apply NoDup_fst_map_to_list.
Qed.

#[local] Instance block_le_total : Total block_le.
Proof.
  intros a b. unfold block_le. destruct (Z.lt_trichotomy (since a) (since b)) as [|[]]; [by right; left| |by left; left].
  destruct (ip a) as [x|x], (ip b) as [y|y]; simpl; try (by left; right); try (by right; right);
    (destruct (Z.le_ge_cases x y); [left | right]; right; by split).
Qed.

Lemma blocked_elem now l b : b ∈ blocked now l <->
  b ∈ foldl (add_window now) (lasting now l) (map_to_list (failures l)) /\ is_exempt l (ip b) = false.
Proof.
  unfold blocked. fold (lasting now l). rewrite (merge_sort_Permutation block_le), list_elem_of_In, List.filter_In, <-list_elem_of_In.
  by rewrite negb_true_iff.
Qed.

(** The list the admin sees is what is enforced. A network none of whose addresses
    is exempt is on it exactly when its addresses are turned away; each network is
    there once, and the newest block first. *)
Theorem listed_iff_turned_away to_lowercase n s now addr :
  reached to_lowercase n s -> Z.of_nat n <= MAX_STEPS ->
  (forall other, key other = key addr -> is_exempt (limiter s) other = false) ->
  ((is_blocked now addr (limiter s)).1 = true <-> exists b, b ∈ blocked now (limiter s) /\ key (ip b) = key addr)
  /\ NoDup (nets (blocked now (limiter s))) /\ Sorted block_le (blocked now (limiter s)).
Proof.
  intros Hr Hn Hx. destruct (limiter_reached_ok _ n s Hr Hn) as ((Hf & _ & Hb & _) & _). set (l := limiter s) in *.
  assert (Hkeys : forall kv, kv ∈ map_to_list (failures l) -> key kv.1 = kv.1).
  { intros [k e] Hin%elem_of_map_to_list. by apply Hf in Hin as []. }
  split; [split|split].
  - unfold is_blocked. rewrite Hx by done. unfold kept_out.
    destruct (blocks l !! key addr) as [b|] eqn:Eb; [destruct (Z.ltb_spec (unix now) (until b)) as [Hu|]|].
    1: { intros _. assert (Hk : key (ip b) = key addr) by exact (Hb _ _ Eb). exists b. split; [|done].
         apply blocked_elem. split; [|by apply Hx]. apply add_windows_mono, lasting_elem. by exists (key addr). }
    all: intros Hb1; assert (Hw : exists e, failures l !! key addr = Some e /\ over_now now (key addr, e))
      by (destruct (failures l !! key addr) as [[f since]|]; [|done]; exists (f, since); unfold over_now; simpl;
          destruct (WINDOW <? elapsed now since); done);
      destruct Hw as (e & He & Ho);
      assert (Hin : (key addr, e) ∈ map_to_list (failures l)) by (by apply elem_of_map_to_list);
      pose proof (add_windows_listed now _ _ Hin (key_idem addr) Ho (lasting now l)) as Hl;
      unfold nets in Hl; apply list_elem_of_In, in_map_iff in Hl as (b' & Hk & Hin'); cbn [fst] in Hk;
      exists b'; (split; [|exact Hk]); apply blocked_elem; (split; [by apply list_elem_of_In | by apply Hx]).
  - intros (b & [Hin Hex]%blocked_elem & Hk). unfold is_blocked. rewrite Hx by done. unfold kept_out.
    apply add_windows_elem in Hin as [(k & Hkb & Hu)%lasting_elem|([k [f since]] & Hin & -> & Hw & Ho)].
    + assert (Hkk : key (ip b) = k) by exact (Hb _ _ Hkb). rewrite <-Hk, Hkk, Hkb.
      by assert ((unix now <? until b) = true) as -> by lia.
    + pose proof (Hkeys _ Hin) as Hkk. cbn [fst snd ip window_block] in *. apply elem_of_map_to_list in Hin.
      rewrite <-Hk, Hkk, Hin, Hw. by repeat case_match.
  - assert (Hnd : NoDup (nets (List.filter (fun b => negb (is_exempt l (ip b)))
      (foldl (add_window now) (lasting now l) (map_to_list (failures l)))))).
    { apply filter_nets_NoDup, add_windows_NoDup; [exact Hkeys | by apply lasting_NoDup]. }
    unfold blocked. fold (lasting now l). unfold nets in *. by rewrite (merge_sort_Permutation block_le).
  - apply Sorted_merge_sort, _.
Qed.

(** ** Letting networks back in *)

(** Nothing kept of a network. *)
Definition clean (l : AuthLimiter) (net : IpAddr) : Prop := blocks l !! net = None /\ failures l !! net = None.

Lemma clean_not_blocked now l addr : clean l (key addr) -> (is_blocked now addr l).1 = false.
Proof. intros [Hb Hf]. unfold is_blocked, kept_out. rewrite Hb, Hf. by case_match. Qed.

Lemma report_maps r l : blocks (report r l) = blocks l /\ failures (report r l) = failures l.
Proof. unfold report. by case_match. Qed.

Lemma unblock_maps a l :
  blocks (unblock a l).2 = delete (key a) (blocks l) /\ failures (unblock a l).2 = delete (key a) (failures l).
Proof.
  unfold unblock. cbv zeta. cbn [snd]. split.
  - etransitivity; [apply (report_maps (a, None, [])) | reflexivity].
  - etransitivity; [apply (report_maps (a, None, [])) | reflexivity].
Qed.

Lemma unblock_clean a net l : key a = net \/ clean l net -> clean (unblock a l).2 net.
Proof.
  destruct (unblock_maps a l) as [Hb Hf]. unfold clean. rewrite Hb, Hf. intros [->|[H1 H2]].
  - by rewrite !lookup_delete_eq.
  - destruct (decide (key a = net)) as [->|]; [by rewrite !lookup_delete_eq | by rewrite !lookup_delete_ne].
Qed.

Lemma unblock_all_clean inside net : forall l, (exists a, a ∈ inside /\ key a = net) \/ clean l net ->
  clean (foldl (fun l a => (unblock a l).2) l inside) net.
Proof.
  induction inside as [|a inside IH]; intros l H; cbn [foldl].
  - destruct H as [(a & Ha & _)|]; [by apply elem_of_nil in Ha | done].
  - apply IH. destruct H as [(a' & [->|Ha]%elem_of_cons & Hk)|]; [right | left; by exists a' | right];
      apply unblock_clean; [by left | by right].
Qed.

(** Unblocking lets the whole network in, at any time after, and forgets what it
    did: the answer says whether there was anything, and the reporter is told once,
    whether or not there was. *)
Theorem unblock_lets_in addr l now other : key other = key addr ->
  let '(had, l') := unblock addr l in
  (is_blocked now other l').1 = false /\ clean l' (key addr)
  /\ had = bool_decide (~ clean l (key addr))
  /\ (reporter l = true -> reports l' = reports l ++ [(addr, None, [])]).
Proof.
  intros Hkey. pose proof (unblock_clean addr (key addr) l (or_introl eq_refl)) as Hc.
  destruct (unblock addr l) as [had l'] eqn:E. cbn [snd] in Hc. split_and!.
  - apply clean_not_blocked. by rewrite Hkey.
  - done.
  - unfold unblock in E. injection E as <- _. unfold clean. cbn [failures set_turned_away set_blocks].
    destruct (blocks l !! key addr), (failures l !! key addr);
      repeat (case_bool_decide; unfold is_Some in *); naive_solver.
  - intros Hr. unfold unblock in E. injection E as _ <-. unfold report. cbn [reporter set_failures set_turned_away set_blocks].
    by rewrite Hr.
Qed.

(** A network put on the list of exceptions while it is kept out is let in at once:
    every address that was listed and is exempt now is returned, in order, and none of
    the addresses of its network is turned away any more. *)
Theorem set_exempt_lets_in now networks l :
  let '(inside, l') := set_exempt now networks l in
  exempt l' = networks
  /\ inside = List.filter (is_exempt l') (map ip (blocked now l))
  /\ forall a other later, a ∈ inside -> key other = key a -> (is_blocked later other l').1 = false.
Proof.
  unfold set_exempt, let_in. set (l1 := replace_exempt networks l). set (inside := List.filter _ _).
  assert (Hl : lists (foldl (fun l a => (unblock a l).2) l1 inside) = lists l1).
  { generalize inside l1. clear. intros inside. induction inside as [|a inside IH]; intros l; cbn [foldl]; [done|].
    rewrite IH. unfold unblock. cbv zeta. cbn [snd]. by rewrite lists_report. }
  split; [by injection Hl|]. split.
  - unfold inside. apply filter_ext. intros a. symmetry. by apply is_exempt_lists.
  - intros a other later Ha Hkey. apply clean_not_blocked. rewrite Hkey. apply unblock_all_clean. left. by exists a.
Qed.

(** ** Examples *)

Definition victim : list byte := bs "mira@example.org".
Definition later : Clock := {| instant := 10 ^ 12 + 10 ^ 9; unix := 1000001 |}.

(** Ten guesses at an account of somebody else, each followed by a login of one's own. *)
Definition guessing : list (Clock * Call) :=
  concat (replicate 10 [(noon, RecordFailure home victim); (noon, RecordSuccessOf home mini mini)]).

Lemma guesses_add_up_witness :
  (is_blocked later home (run to_ascii_lowercase guessing new_limiter)).1 = true
  /\ (begin to_ascii_lowercase later home mini (run to_ascii_lowercase guessing new_limiter)).1 = None.
Proof.
  apply (guesses_add_up to_ascii_lowercase 0 {| limiter := new_limiter; pending := []; live := [] |} mini home
    (instant noon) guessing later home mini (reached_new _)).
  - vm_compute. discriminate.
  - reflexivity.
  - intros ip _. reflexivity.
  - unfold guessing. cbn [replicate concat app]. repeat constructor; try (vm_compute; discriminate).
  - vm_compute. discriminate.
  - reflexivity.
  - split; vm_compute; discriminate.
Defined.

Lemma block_decides_witness :
  exists b, (block noon home NOT_AN_ADDRESS (bs "root") (bs "imap") new_limiter).1 = Some b
    /\ until b = unix noon + 24 * 3600.
Proof.
  assert (Hfit : blocks_fit new_limiter) by apply map_Forall_empty.
  assert (Hclock : 0 <= unix noon < 2 ^ 62) by (split; vm_compute; (discriminate || reflexivity)).
  assert (Hmay : may_block_at_once noon new_limiter home = true) by (vm_compute; reflexivity).
  assert (Hout : kept_out noon new_limiter home = false) by reflexivity.
  assert (Hroom : has_room noon new_limiter home) by (left; vm_compute; reflexivity).
  pose proof (block_decides noon home NOT_AN_ADDRESS (bs "root") (bs "imap") new_limiter Hfit Hclock) as H.
  destruct (block noon home NOT_AN_ADDRESS (bs "root") (bs "imap") new_limiter) as [made l'].
  destruct H as [[_ Hmade] H].
  destruct (Hmade (conj Hmay (conj Hout Hroom))) as [b ->].
  exists b. split; [reflexivity|]. destruct (H b eq_refl) as (_ & _ & -> & _). vm_compute. reflexivity.
Defined.

(** A limiter with a reporter and one block. *)
Definition one_block : AuthLimiter :=
  (block noon home NOT_AN_ADDRESS (bs "root") (bs "imap") (report_to true new_limiter)).2.

Lemma visits_reported_witness :
  (is_blocked later home (visits later home 25 one_block)).1 = true.
Proof.
  set (b := {| ip := home; reason := NOT_AN_ADDRESS; block_login := bs "root"; protocol := bs "imap";
               since := 1000000; until := 1086400; times := 1 |}).
  apply (visits_reported later home one_block 25 b); vm_compute; reflexivity.
Defined.

Lemma listed_iff_turned_away_witness :
  exists s b, b ∈ blocked noon (limiter s) /\ key (ip b) = home.
Proof.
  set (s := {| limiter := call to_ascii_lowercase noon (DoBlock home NOT_AN_ADDRESS (bs "root") (bs "imap")) new_limiter;
               pending := []; live := [] |}).
  exists s.
  apply (listed_iff_turned_away to_ascii_lowercase 1 s noon home
    (reached_step _ _ _ _ (reached_new _) (step_call _ noon _ _))).
  - vm_compute. discriminate.
  - intros other _. reflexivity.
  - vm_compute. reflexivity.
Defined.

Lemma unblock_lets_in_witness :
  (is_blocked later home (unblock home one_block).2).1 = false /\ (unblock home one_block).1 = true.
Proof.
  pose proof (unblock_lets_in home one_block later home eq_refl) as H.
  destruct (unblock home one_block) as [had l'] eqn:E. destruct H as (H & _). split; [exact H|].
  vm_compute in E. by injection E as <- _.
Defined.

Lemma set_exempt_lets_in_witness :
  (is_blocked later home (set_exempt later [{| address := home; prefix := 32 |}] one_block).2).1 = false.
Proof.
  pose proof (set_exempt_lets_in later [{| address := home; prefix := 32 |}] one_block) as H.
  assert (Hin : (set_exempt later [{| address := home; prefix := 32 |}] one_block).1 = [home])
    by (vm_compute; reflexivity).
  destruct (set_exempt later [{| address := home; prefix := 32 |}] one_block) as [inside l'].
  destruct H as (_ & _ & H). simpl in Hin. subst inside. apply (H home home later); [by left | reflexivity].
Defined.
