(* ===== verification/Slots.v ===== *)
(** * Places for connections (crates\/uwumail-smtp\/src\/client_slots.rs,
    crates\/uwumail-gateway\/src\/limits.rs)

    [ClientSlots] counts the connections of each client of the mail server, [Gateway]
    those the gateway carries, in all, per network and per IPv6 site, and [Handshakes]
    the tunnel handshakes of strangers. A place is given back when its value is
    dropped. The semaphore of the gateway is tokio's: what the code relies on is the
    class [Semaphore]. *)

From stdpp Require Import gmap.
From S2P Require Import Prelude Places Network.

(** The connections of a client: the keys of those that are open. *)
Definition same_key (a k : IpAddr) : Prop := a = k.

#[export] Instance same_key_dec : RelDecision same_key.
Proof. intros a k. unfold same_key. apply _. Defined.

Module ClientSlots.

(** [counts]: open connections per client. *)
Abbreviation ClientSlots := (gmap IpAddr Z).

(** What a client is counted as: its IPv4 address, or its IPv6 /64. *)
Definition client_key (peer : IpAddr) : IpAddr :=
  match to_canonical peer with
  | V6 v6 => V6 (Z.shiftl (Z.shiftr v6 64) 64)
  | v4 => v4
  end.

(** A place for one more connection from [peer], or none when it has [max] open. *)
Definition take (peer : IpAddr) (max : Z) (counts : ClientSlots) : option IpAddr * ClientSlots :=
  let key := client_key peer in
  let counts := match counts !! key with Some _ => counts | None => <[key := 0]> counts end in
  if Z.max max 1 <=? default 0 (counts !! key) then (None, counts)
  else (Some key, take_one 64 key counts).

(** [ClientSlot::drop] *)
Definition drop_slot (key : IpAddr) (counts : ClientSlots) : ClientSlots := release_one 64 key counts.

(** Connections come and go; [max] is the limit the listeners use. *)
Inductive step (max : Z) : ClientSlots * list IpAddr -> ClientSlots * list IpAddr -> Prop :=
  | step_taken peer key counts counts' live :
      take peer max counts = (Some key, counts') -> step max (counts, live) (counts', key :: live)
  | step_refused peer counts counts' live :
      take peer max counts = (None, counts') -> step max (counts, live) (counts', live)
  | step_closed i key counts live :
      live !! i = Some key -> step max (counts, live) (drop_slot key counts, delete i live).

Inductive reached (max : Z) : ClientSlots * list IpAddr -> Prop :=
  | reached_new : reached max (∅, [])
  | reached_step s t : reached max s -> step max s t -> reached max t.

Definition exact (max : Z) (s : ClientSlots * list IpAddr) : Prop :=
  (forall k, s.1 !! k = places (having same_key s.2 k)) /\ (forall k, Z.of_nat (having same_key s.2 k) <= Z.max max 1).

Lemma take_eq peer max counts live :
  (forall k, counts !! k = places (having same_key live k)) ->
  take peer max counts =
    if Z.max max 1 <=? Z.of_nat (having same_key live (client_key peer)) then (None, counts)
    else (Some (client_key peer), take_one 64 (client_key peer) counts).
Proof.
  intros Hc. unfold take. rewrite (Hc (client_key peer)). unfold places. case_decide as Hz.
  - rewrite Hz. cbv iota. rewrite lookup_insert_eq. cbn [default from_option id].
    change (Z.of_nat 0) with 0. replace (Z.max max 1 <=? 0) with false by lia.
    unfold take_one. rewrite lookup_insert_eq, insert_insert_eq, Hc. unfold places. rewrite Hz. by rewrite decide_True.
  - cbv iota. rewrite Hc, default_places. done.
Qed.

Lemma step_exact max s t : max < 2 ^ 64 -> exact max s -> step max s t -> exact max t.
Proof.
  intros Hmax [Hc Hle] Hstep. destruct Hstep as [peer key counts counts' live Ht|peer counts counts' live Ht|i key counts live Hi];
    unfold exact; cbn [fst snd] in *.
  - rewrite (take_eq _ _ _ live Hc) in Ht. case_match eqn:E; [done|]. injection Ht as <- <-. split; intros k; rewrite having_cons.
    + apply (take_place 64 _ (having same_key live)); [done | lia].
    + case_decide as Hk; [unfold same_key in Hk; subst; lia | apply Hle].
  - rewrite (take_eq _ _ _ live Hc) in Ht. case_match; [|done]. injection Ht as <-. by split.
  - assert (Hd : forall k, having same_key live k
      = ((if decide (same_key key k) then 1 else 0) + having same_key (delete i live) k)%nat) by (intros; by apply having_delete).
    split; intros k; [|specialize (Hle k); specialize (Hd k); lia].
    apply (release_place 64 _ (having same_key (delete i live))); [intros k'; rewrite Hc, Hd; done|].
    specialize (Hle key). rewrite Hd, decide_True in Hle by done. lia.
Qed.

Lemma slots_reached_exact max s : max < 2 ^ 64 -> reached max s -> exact max s.
Proof.
  intros Hmax. induction 1 as [|s t _ IH Hs]; [|by eapply step_exact].
  split; intros k; [done | cbn; lia].
Qed.

(** The open connections are counted exactly, with no entry left for a client that
    has none, and no client, an IPv6 client being its whole \/64, ever has more than
    the limit open, or than one when the limit is zero. *)
Theorem client_slots_exact max counts live : max < 2 ^ 64 -> reached max (counts, live) ->
  (forall peer, counts !! client_key peer = places (having same_key live (client_key peer)))
  /\ (forall peer, Z.of_nat (having same_key live (client_key peer)) <= Z.max max 1).
Proof. intros Hmax Hr. destruct (slots_reached_exact _ _ Hmax Hr) as [Hc Hle]. by split. Qed.

Definition two : ClientSlots * list IpAddr := ((take (V6 0xffffC0000201) 2 {[ V4 0xC0000201 := 1 ]}).2, [V4 0xC0000201; V4 0xC0000201]).

Lemma client_slots_exact_witness :
  fst two !! client_key (V4 0xC0000201) = Some 2 /\ (take (V4 0xC0000201) 2 (fst two)).1 = None.
Proof.
  assert (Hr : reached 2 two).
  { apply (reached_step 2 ({[ V4 0xC0000201 := 1 ]}, [V4 0xC0000201])).
    - apply (reached_step 2 (∅, []) _ (reached_new 2)). apply (step_taken 2 (V4 0xC0000201)). vm_compute. reflexivity.
    - apply (step_taken 2 (V6 0xffffC0000201)). vm_compute. reflexivity. }
  destruct (client_slots_exact 2 (fst two) (snd two) eq_refl Hr) as [Hc _].
  split; [exact (Hc (V4 0xC0000201)) | vm_compute; reflexivity].
Defined.

End ClientSlots.

(** What the gateway relies on of a semaphore: it counts permits. *)
Class Semaphore (S : Type) := {
  sem_new : Z -> S;
  try_acquire : S -> option S;
  release : S -> S;
  available : S -> Z }.

Class SemaphoreLaws (S : Type) `{Semaphore S} := {
  new_available n : 0 <= n -> available (sem_new n) = n;
  acquire_some s t : try_acquire s = Some t -> 0 < available s /\ available t = available s - 1;
  acquire_none s : try_acquire s = None <-> available s <= 0;
  release_available s : available (release s) = available s + 1 }.

(** A counter is one. *)
#[export] Instance counter_semaphore : Semaphore Z := {|
  sem_new n := n;
  try_acquire n := if 0 <? n then Some (n - 1) else None;
  release n := n + 1;
  available n := n |}.

#[export] Instance counter_laws : SemaphoreLaws Z.
Proof.
  split; cbn [available sem_new try_acquire release counter_semaphore].
  - done.
  - intros s t. case_match; [|done]. intros [= <-]. lia.
  - intros s. case_match; split; (done || lia).
  - done.
Qed.

Module Gateway.

Section gateway.
Context {S : Type} `{SemaphoreLaws S}.

Record Limits := { total : S; counts : gmap IpAddr Z; max_per_network : Z; max_per_site : Z }.

(** A place for one connection. *)
Record Admission := { network : IpAddr; site : option IpAddr }.

Definition new (max_total max_per_network max_per_site : Z) : Limits :=
  {| total := sem_new (Z.max max_total 1); counts := ∅;
     max_per_network := Z.max max_per_network 1; max_per_site := Z.max max_per_site 1 |}.

(** [u128::MAX << n] *)
Definition high_bits (n : Z) : Z := Z.shiftl (2 ^ 128 - 1) n `mod` 2 ^ 128.

Definition network_of (ip : IpAddr) : IpAddr :=
  match to_canonical ip with
  | V6 v6 => V6 (Z.land v6 (high_bits 64))
  | v4 => v4
  end.

(** The /48, kept apart from the /64s by its last bit. *)
Definition site_of (ip : IpAddr) : option IpAddr :=
  match to_canonical ip with
  | V6 v6 => Some (V6 (Z.lor (Z.land v6 (high_bits 80)) 1))
  | V4 _ => None
  end.

Definition set_total (t : S) (l : Limits) : Limits :=
  {| total := t; counts := counts l; max_per_network := max_per_network l; max_per_site := max_per_site l |}.

Definition set_counts (c : gmap IpAddr Z) (l : Limits) : Limits :=
  {| total := total l; counts := c; max_per_network := max_per_network l; max_per_site := max_per_site l |}.

(** [admit] under the mutex of the counts, its permit taken. *)
Definition count_in (ip : IpAddr) (l : Limits) : option Admission * Limits :=
  let network := network_of ip in
  let site := site_of ip in
  if max_per_network l <=? default 0 (counts l !! network) then (None, l)
  else if match site with Some site => max_per_site l <=? default 0 (counts l !! site) | None => false end
  then (None, l)
  else
    let counts := take_one 64 network (counts l) in
    let counts := match site with Some site => take_one 64 site counts | None => counts end in
    (Some {| network := network; site := site |}, set_counts counts l).

(** [Limits::admit]; a permit that is not kept goes back. *)
Definition admit_ (ip : IpAddr) (l : Limits) : option Admission * Limits :=
  match try_acquire (total l) with
  | None => (None, l)
  | Some t =>
      match count_in ip (set_total t l) with
      | (Some a, l) => (Some a, l)
      | (None, l) => (None, set_total (release (total l)) l)
      end
  end.

(** [Admission::drop], after which its permit goes back. *)
Definition count_out (a : Admission) (l : Limits) : Limits :=
  let counts := release_one 64 (network a) (counts l) in
  set_counts (match site a with Some site => release_one 64 site counts | None => counts end) l.

Definition drop_admission (a : Admission) (l : Limits) : Limits :=
  let l := count_out a l in set_total (release (total l)) l.

(** The gateway with many connections at once: [held] permits belong to an [admit]
    that has not counted yet, or to a drop that has not given its permit back. *)
Record System := { limits : Limits; held : nat; live : list Admission }.

Inductive step : System -> System -> Prop :=
  | step_acquire t s :
      try_acquire (total (limits s)) = Some t ->
      step s {| limits := set_total t (limits s); held := Datatypes.S (held s); live := live s |}
  | step_counted ip a l h s :
      held s = Datatypes.S h -> count_in ip (limits s) = (Some a, l) ->
      step s {| limits := l; held := h; live := a :: live s |}
  | step_refused ip l s :
      held s <> 0%nat -> count_in ip (limits s) = (None, l) ->
      step s {| limits := l; held := held s; live := live s |}
  | step_count_out i a s :
      live s !! i = Some a ->
      step s {| limits := count_out a (limits s); held := Datatypes.S (held s); live := delete i (live s) |}
  | step_give_back h s :
      held s = Datatypes.S h ->
      step s {| limits := set_total (release (total (limits s))) (limits s); held := h; live := live s |}.

Inductive reached (max_total max_per_network max_per_site : Z) : System -> Prop :=
  | reached_new :
      reached max_total max_per_network max_per_site
        {| limits := new max_total max_per_network max_per_site; held := 0; live := [] |}
  | reached_step s t :
      reached max_total max_per_network max_per_site s -> step s t -> reached max_total max_per_network max_per_site t.

(** ** Lemmas *)

Definition at_network (a : Admission) (k : IpAddr) : Prop := network a = k.
Definition at_site (a : Admission) (k : IpAddr) : Prop := site a = Some k.
Definition counts_for (a : Admission) (k : IpAddr) : Prop := at_network a k \/ at_site a k.

#[local] Instance at_network_dec : RelDecision at_network.
Proof. intros a k. unfold at_network. apply _. Defined.
#[local] Instance at_site_dec : RelDecision at_site.
Proof. intros a k. unfold at_site. apply _. Defined.
#[local] Instance counts_for_dec : RelDecision counts_for.
Proof. intros a k. unfold counts_for. apply _. Defined.

(** The key of a network is not the key of a site. *)
Definition is_site (k : IpAddr) : bool := match k with V6 a => Z.testbit a 0 | V4 _ => false end.

Lemma network_of_site ip : is_site (network_of ip) = false.
Proof.
  unfold network_of. destruct (to_canonical ip) as [a|a]; [done|]. cbn [is_site].
  rewrite Z.land_spec. assert (Z.testbit (high_bits 64) 0 = false) as -> by (vm_compute; reflexivity).
  apply andb_false_r.
Qed.

Lemma site_of_site ip k : site_of ip = Some k -> is_site k = true.
Proof.
  unfold site_of. destruct (to_canonical ip) as [a|a]; [done|]. intros [= <-]. cbn [is_site].
  rewrite Z.lor_spec. apply orb_true_r.
Qed.

(** An admission's keys, as [count_in] makes them. *)
Definition admission_ok (a : Admission) : Prop :=
  is_site (network a) = false /\ match site a with Some k => is_site k = true | None => True end.

Lemma keys_differ a k : admission_ok a -> site a = Some k -> network a <> k.
Proof. intros [Hn Hs] E Heq. rewrite E in Hs. congruence. Qed.

Lemma counts_for_split a k : admission_ok a ->
  (if decide (counts_for a k) then 1 else 0)%nat
  = ((if decide (network a = k) then 1 else 0) + (if decide (site a = Some k) then 1 else 0))%nat.
Proof.
  intros Ha. unfold counts_for, at_network, at_site. repeat case_decide; try tauto; try lia.
  subst. by eapply keys_differ in Ha.
Qed.

Lemma having_split s k : Forall admission_ok s ->
  having counts_for s k = (having at_network s k + having at_site s k)%nat.
Proof.
  induction 1 as [|a s Ha _ IH]; [done|]. rewrite !having_cons, counts_for_split, IH by done.
  unfold at_network at 2, at_site at 2. repeat case_decide; try lia; unfold at_network, at_site in *; contradiction.
Qed.

Lemma having_nothing R `{!RelDecision R} (s : list Admission) (k : IpAddr) :
  Forall (fun a => ~ R a k) s -> having R s k = 0%nat.
Proof. intros Hall. induction Hall as [|a s Ha _ IH]; [done|]. by rewrite having_cons, IH, decide_False. Qed.

(** A network is only counted as a network, a site as a site. *)
Lemma counted_network s k : Forall admission_ok s -> is_site k = false ->
  having counts_for s k = having at_network s k.
Proof.
  intros Hs Hk. rewrite having_split by done. rewrite (having_nothing at_site); [lia|].
  eapply Forall_impl; [exact Hs|]. intros a [_ Ha] E. unfold at_site in E. rewrite E in Ha. congruence.
Qed.

Lemma counted_site s k : Forall admission_ok s -> is_site k = true ->
  having counts_for s k = having at_site s k.
Proof.
  intros Hs Hk. rewrite having_split by done. rewrite (having_nothing at_network); [lia|].
  eapply Forall_impl; [exact Hs|]. intros a [Ha _] E. unfold at_network in E. congruence.
Qed.

(** ** The invariant *)

Section bounds.
Context (max_total per_network per_site : Z).
Hypotheses (Htotal : 0 <= max_total) (Hnet : per_network < 2 ^ 64) (Hsite : per_site < 2 ^ 64).

Definition system_ok (s : System) : Prop :=
  max_per_network (limits s) = Z.max per_network 1 /\ max_per_site (limits s) = Z.max per_site 1
  /\ Forall admission_ok (live s)
  /\ (forall k, counts (limits s) !! k = places (having counts_for (live s) k))
  /\ (forall k, Z.of_nat (having at_network (live s) k) <= Z.max per_network 1)
  /\ (forall k, Z.of_nat (having at_site (live s) k) <= Z.max per_site 1)
  /\ 0 <= available (total (limits s))
  /\ available (total (limits s)) + Z.of_nat (held s) + Z.of_nat (length (live s)) = Z.max max_total 1.

Lemma place_fits s k : system_ok s -> Z.of_nat (having counts_for (live s) k) < 2 ^ 64.
Proof.
  intros (_ & _ & Hok & _ & Hn & Hs & _). destruct (is_site k) eqn:E.
  - rewrite counted_site by done. specialize (Hs k). lia.
  - rewrite counted_network by done. specialize (Hn k). lia.
Qed.

(** What [count_in] decides and does. *)
Lemma count_in_some s ip a l : system_ok s -> count_in ip (limits s) = (Some a, l) ->
  a = {| network := network_of ip; site := site_of ip |} /\ admission_ok a
  /\ l = set_counts (counts l) (limits s)
  /\ (forall k, counts l !! k = places (having counts_for (a :: live s) k))
  /\ Z.of_nat (having at_network (live s) (network_of ip)) < Z.max per_network 1
  /\ (forall k, site_of ip = Some k -> Z.of_nat (having at_site (live s) k) < Z.max per_site 1).
Proof.
  intros (Hmn & Hms & Hok & Hc & _) Hin. unfold count_in in Hin. rewrite Hmn, Hms, Hc, default_places in Hin.
  rewrite (counted_network _ _ Hok (network_of_site ip)) in Hin.
  destruct (Z.leb_spec (Z.max per_network 1) (Z.of_nat (having at_network (live s) (network_of ip)))); [done|].
  set (c := having counts_for (live s)) in *.
  assert (Ha : admission_ok {| network := network_of ip; site := site_of ip |}).
  { split; cbn [network site]; [apply network_of_site|]. destruct (site_of ip) eqn:E; [by eapply site_of_site | done]. }
  assert (Hone : forall k, take_one 64 (network_of ip) (counts (limits s)) !! k
    = places ((if decide (network_of ip = k) then 1 else 0) + c k)%nat).
  { apply take_place; [exact Hc|]. unfold c. rewrite (counted_network _ _ Hok (network_of_site ip)). lia. }
  destruct (site_of ip) as [k|] eqn:Ek.
  - rewrite Hc, default_places in Hin. pose proof (site_of_site _ _ Ek) as Hsk. unfold c in Hin. rewrite (counted_site _ _ Hok Hsk) in Hin.
    case_match; [done|]. injection Hin as <- <-. split_and!; try done; [| intros k' [= <-]; lia].
    intros k'. rewrite having_cons, counts_for_split by done. cbn [network site counts set_counts]. fold c.
    rewrite (take_place 64 _ (fun k => (if decide (network_of ip = k) then 1 else 0) + c k)%nat);
      [f_equal | exact Hone |].
    + assert (decide (k = k') = decide (k = k')) as _ by done.
      destruct (decide (k = k')), (decide (Some k = Some k')); simplify_eq; try congruence; lia.
    + rewrite decide_False by (by apply (keys_differ {| network := network_of ip; site := Some k |})).
      unfold c. rewrite (counted_site _ _ Hok Hsk). lia.
  - injection Hin as <- <-. split_and!; try done. intros k. rewrite having_cons, counts_for_split by done.
    cbn [network site counts set_counts]. fold c. rewrite Hone. f_equal.
    destruct (decide (None = Some k)); [done | lia].
Qed.

Lemma count_in_none s ip l : count_in ip (limits s) = (None, l) -> l = limits s.
Proof. unfold count_in. repeat case_match; by intros [= <-]. Qed.

Lemma having_delete_le R `{!RelDecision R} (s : list Admission) i a (k : IpAddr) : s !! i = Some a ->
  (having R (delete i s) k <= having R s k)%nat.
Proof. intros Hi. rewrite (having_delete R s i a k Hi). lia. Qed.

Lemma count_out_exact s i a : system_ok s -> live s !! i = Some a ->
  forall k, counts (count_out a (limits s)) !! k = places (having counts_for (delete i (live s)) k).
Proof.
  intros Hs Hi. assert (Hall := Hs). destruct Hs as (_ & _ & Hok & Hc & Hn & Hst & _).
  assert (Ha : admission_ok a) by (eapply Forall_lookup_1; [exact Hok | exact Hi]).
  set (c := having counts_for (delete i (live s))).
  assert (Hd : forall k, having counts_for (live s) k
    = ((if decide (network a = k) then 1 else 0) + ((if decide (site a = Some k) then 1 else 0) + c k))%nat).
  { intros k. rewrite (having_delete counts_for _ i a k Hi), counts_for_split by done. unfold c. lia. }
  assert (Hone : forall k, release_one 64 (network a) (counts (limits s)) !! k
    = places ((if decide (site a = Some k) then 1 else 0) + c k)%nat).
  { apply release_place; [intros k; by rewrite Hc, Hd|].
    pose proof (place_fits s (network a) Hall) as Hf. rewrite Hd, decide_True in Hf by done. lia. }
  intros k. unfold count_out. cbn [counts set_counts]. destruct (site a) as [k'|] eqn:Ek.
  - apply release_place.
    + intros k''. rewrite Hone. f_equal. destruct (decide (k' = k'')), (decide (Some k' = Some k'')); simplify_eq; lia.
    + pose proof (place_fits s k' Hall) as Hf. rewrite Hd, (decide_True (P := Some k' = Some k')) in Hf by done.
      case_decide; lia.
  - rewrite Hone. by destruct (decide (None = Some k)).
Qed.

Lemma system_step s t : system_ok s -> step s t -> system_ok t.
Proof.
  intros Hs Hstep. assert (Hall := Hs). destruct Hs as (Hmn & Hms & Hok & Hc & Hn & Hst & Hav & Hsum).
  destruct Hstep as [t s Hacq|ip a l h s Hh Hin|ip l s Hh Hin|i a s Hi|h s Hh]; unfold system_ok; cbn [limits held live].
  - apply acquire_some in Hacq as [? ?]. cbn [total counts max_per_network max_per_site set_total]. split_and!; try done; lia.
  - apply (count_in_some s) in Hin as (-> & Ha & -> & Hcs & Hlt & Hlts); [|done].
    cbn [total counts max_per_network max_per_site set_counts length]. split_and!; try done; try lia.
    + by constructor.
    + intros k. rewrite having_cons. case_decide as E; [|apply Hn]. unfold at_network in E. cbn in E. subst k. lia.
    + intros k. rewrite having_cons. case_decide as E; [|apply Hst]. unfold at_site in E. cbn in E. specialize (Hlts k E). lia.
  - apply count_in_none in Hin as ->. by split_and!.
  - pose proof (delete_Permutation _ _ _ Hi) as Hp. apply Permutation_length in Hp. cbn [length] in Hp.
    split_and!; try done.
    + by apply Forall_delete.
    + by apply count_out_exact.
    + intros k. pose proof (having_delete_le at_network _ _ _ k Hi). specialize (Hn k). lia.
    + intros k. pose proof (having_delete_le at_site _ _ _ k Hi). specialize (Hst k). lia.
    + unfold count_out. cbn [total set_counts]. lia.
  - cbn [total counts max_per_network max_per_site set_total]. rewrite release_available. split_and!; try done; lia.
Qed.

Lemma gateway_reached_ok s : reached max_total per_network per_site s -> system_ok s.
Proof.
  induction 1 as [|s t _ IH Hs]; [|by eapply system_step].
  unfold system_ok, new. cbn [limits held live total counts max_per_network max_per_site].
  rewrite new_available by lia. split_and!; try done; cbn [length]; try lia; intros k; change (Z.of_nat (having _ [] k)) with 0; lia.
Qed.

End bounds.

(** Whatever connections come and go at once, what the gateway has counted is what
    it carries: no network more than its limit, no IPv6 site more than its own, and
    all together no more than the permits, of which none gets lost; a network and a
    site never share a count. *)
Theorem admissions_exact max_total per_network per_site s :
  0 <= max_total -> per_network < 2 ^ 64 -> per_site < 2 ^ 64 ->
  reached max_total per_network per_site s ->
  (forall ip, counts (limits s) !! network_of ip = places (having at_network (live s) (network_of ip))
              /\ Z.of_nat (having at_network (live s) (network_of ip)) <= Z.max per_network 1)
  /\ (forall ip k, site_of ip = Some k -> counts (limits s) !! k = places (having at_site (live s) k)
              /\ Z.of_nat (having at_site (live s) k) <= Z.max per_site 1)
  /\ Z.of_nat (length (live s)) <= Z.max max_total 1
  /\ available (total (limits s)) = Z.max max_total 1 - Z.of_nat (held s) - Z.of_nat (length (live s)).
Proof.
  intros Ht Hn Hs Hr. apply gateway_reached_ok in Hr; [|done..].
  destruct Hr as (_ & _ & Hok & Hc & Hnets & Hsites & Hav & Hsum). split_and!; try lia.
  - intros ip. rewrite Hc, (counted_network _ _ Hok (network_of_site ip)). split; [done | apply Hnets].
  - intros ip k Hk. rewrite Hc, (counted_site _ _ Hok (site_of_site ip k Hk)). split; [done | apply Hsites].
Qed.

End gateway.

(** A gateway for three connections, two of a network, after the first was admitted. *)
Definition one_admitted : Limits (S := Z) * list Admission :=
  let a := {| network := V6 (0x20010db8 * 2 ^ 96); site := Some (V6 (0x20010db8 * 2 ^ 96 + 1)) |} in
  ((admit_ (V6 (0x20010db8 * 2 ^ 96 + 7)) (new 3 2 2)).2, [a]).

Lemma admissions_exact_witness :
  counts (one_admitted.1) !! V6 (0x20010db8 * 2 ^ 96) = Some 1 /\ available (total one_admitted.1) = 2.
Proof.
  set (ip := V6 (0x20010db8 * 2 ^ 96 + 7)).
  set (s := {| limits := one_admitted.1; held := 0; live := one_admitted.2 |}).
  assert (Hr : reached (S := Z) 3 2 2 s).
  { eapply reached_step; [eapply reached_step; [apply reached_new|]|].
    - apply (step_acquire 2). reflexivity.
    - apply (step_counted ip _ one_admitted.1 0); vm_compute; reflexivity. }
  destruct (admissions_exact 3 2 2 s ltac:(lia) eq_refl eq_refl Hr) as (Hn & _ & _ & Hav).
  split; [|exact Hav]. destruct (Hn ip) as [Hc _]. vm_compute in Hc |- *. exact Hc.
Defined.

End Gateway.

Module Handshakes.

Definition HANDSHAKE_WINDOW : Z := 60 * 10 ^ 9.

(** [HandshakeState]; an [Instant] is nanoseconds. *)
Record HandshakeState := { total : Z; pending : gmap IpAddr Z; started : gmap IpAddr (Z * Z) }.

Record Handshakes := { max_total : Z; max_per_network : Z; per_minute : Z }.

Definition new (max_total max_per_network per_minute : Z) : Handshakes :=
  {| max_total := Z.max max_total 1; max_per_network := Z.max max_per_network 1; per_minute := Z.max per_minute 1 |}.

Definition elapsed (now since : Z) : Z := Z.max 0 (now - since).

Definition network_of : IpAddr -> IpAddr := Gateway.network_of.

(** The entry a handshake is counted in: fresh when there is none in this window. *)
Definition entry_of (now : Z) (network : IpAddr) (started : gmap IpAddr (Z * Z)) : Z * Z :=
  let entry := default (0, now) (started !! network) in
  if HANDSHAKE_WINDOW <=? elapsed now entry.2 then (0, now) else entry.

(** [Handshakes::begin]; the slot is its network. *)
Definition begin (h : Handshakes) (now : Z) (ip : IpAddr) (s : HandshakeState) : option IpAddr * HandshakeState :=
  let network := network_of ip in
  if (max_total h <=? total s) || (max_per_network h <=? default 0 (pending s !! network)) then (None, s)
  else
    let swept :=
      if 10000 <? Z.of_nat (size (started s))
      then filter (fun kv => elapsed now kv.2.2 < HANDSHAKE_WINDOW) (started s) else started s in
    let '(count, since) := entry_of now network swept in
    if per_minute h <=? count
    then (None, {| total := total s; pending := pending s; started := <[network := (count, since)]> swept |})
    else
      (Some network,
       {| total := (total s + 1) `mod` 2 ^ 64;
          pending := take_one 64 network (pending s);
          started := <[network := ((count + 1) `mod` 2 ^ 32, since)]> swept |}).

(** [HandshakeSlot::drop] *)
Definition drop_slot (network : IpAddr) (s : HandshakeState) : HandshakeState :=
  {| total := (total s - 1) `mod` 2 ^ 64; pending := release_one 64 network (pending s); started := started s |}.

(** Handshakes begin and end. *)
Inductive step (h : Handshakes) : HandshakeState * list IpAddr -> HandshakeState * list IpAddr -> Prop :=
  | step_begun now ip network s s' live :
      begin h now ip s = (Some network, s') -> step h (s, live) (s', network :: live)
  | step_refused now ip s s' live :
      begin h now ip s = (None, s') -> step h (s, live) (s', live)
  | step_ended i network s live :
      live !! i = Some network -> step h (s, live) (drop_slot network s, delete i live).

Definition new_state : HandshakeState := {| total := 0; pending := ∅; started := ∅ |}.

Inductive reached (h : Handshakes) : HandshakeState * list IpAddr -> Prop :=
  | reached_new : reached h (new_state, [])
  | reached_step s t : reached h s -> step h s t -> reached h t.

Section bounds.
Context (max_total_ max_per_network_ per_minute_ : Z).
Hypotheses (Ht : max_total_ < 2 ^ 64) (Hp : max_per_network_ < 2 ^ 64).
Abbreviation h := (new max_total_ max_per_network_ per_minute_).

Definition exact (s : HandshakeState * list IpAddr) : Prop :=
  total s.1 = Z.of_nat (length s.2) /\ Z.of_nat (length s.2) <= Z.max max_total_ 1
  /\ (forall k, pending s.1 !! k = places (having same_key s.2 k))
  /\ (forall k, Z.of_nat (having same_key s.2 k) <= Z.max max_per_network_ 1).

Lemma begin_cases now ip s r s' : begin h now ip s = (r, s') ->
  match r with
  | Some network =>
      network = network_of ip /\ total s < Z.max max_total_ 1
      /\ default 0 (pending s !! network) < Z.max max_per_network_ 1
      /\ total s' = (total s + 1) `mod` 2 ^ 64 /\ pending s' = take_one 64 network (pending s)
  | None => total s' = total s /\ pending s' = pending s
  end.
Proof.
  unfold begin. destruct (_ || _) eqn:E; [by intros [= <- <-]|]. apply orb_false_iff in E as [E1 E2].
  cbn [max_total max_per_network new] in E1, E2. cbv zeta. destruct (entry_of _ _ _) as [count since].
  case_match; intros [= <- <-]; [done|]. cbn [total pending]. split_and!; (done || lia).
Qed.

Lemma handshakes_reached_exact s : reached h s -> exact s.
Proof.
  induction 1 as [|s t _ (Htot & Hmax & Hc & Hle) Hs].
  { unfold exact. cbn [fst snd new_state total pending length]. split_and!; try done; try lia.
    intros k. change (Z.of_nat (having same_key [] k)) with 0. lia. }
  destruct Hs as [now ip network s s' live Hb|now ip s s' live Hb|i network s live Hi]; unfold exact; cbn [fst snd] in *.
  - apply begin_cases in Hb as (_ & Ht1 & Hp1 & -> & ->). rewrite Hc, default_places in Hp1. cbn [length].
    split_and!; [rewrite Z.mod_small by lia; lia | lia | |].
    + intros k. rewrite having_cons. apply (take_place 64 _ (having same_key live)); [done | lia].
    + intros k. rewrite having_cons. case_decide as E; [unfold same_key in E; subst; lia | apply Hle].
  - apply begin_cases in Hb as (-> & ->). by split_and!.
  - pose proof (delete_Permutation _ _ _ Hi) as Hperm. apply Permutation_length in Hperm. cbn [length] in Hperm.
    assert (Hd : forall k, having same_key live k
      = ((if decide (same_key network k) then 1 else 0) + having same_key (delete i live) k)%nat)
      by (intros; by apply having_delete).
    cbn [drop_slot total pending]. split_and!; [rewrite Z.mod_small by lia; lia | lia | |].
    + apply (release_place 64 _ (having same_key (delete i live))); [intros k'; rewrite Hc, Hd; done|].
      specialize (Hle network). rewrite Hd, decide_True in Hle by done. lia.
    + intros k. specialize (Hle k). specialize (Hd k). lia.
Qed.

End bounds.

(** The handshakes of strangers that are under way are counted exactly, in all and
    per network, and neither passes its limit. *)
Theorem handshakes_exact max_total_ max_per_network_ per_minute_ s live :
  max_total_ < 2 ^ 64 -> max_per_network_ < 2 ^ 64 ->
  reached (new max_total_ max_per_network_ per_minute_) (s, live) ->
  total s = Z.of_nat (length live) /\ total s <= Z.max max_total_ 1
  /\ forall ip, pending s !! network_of ip = places (having same_key live (network_of ip))
     /\ Z.of_nat (having same_key live (network_of ip)) <= Z.max max_per_network_ 1.
Proof.
  intros Ht Hp Hr. apply handshakes_reached_exact in Hr as (Htot & Hmax & Hc & Hle); [|done..]. cbn [fst snd] in *.
  split_and!; [done | lia | by split].
Qed.

(** ** Handshakes per minute *)

(** Handshakes that are tried one after the other, and how many of [net] are let in. *)
Fixpoint tries (h : Handshakes) (net : IpAddr) (calls : list (Z * IpAddr)) (s : HandshakeState)
    : nat * HandshakeState :=
  match calls with
  | [] => (0%nat, s)
  | (now, ip) :: calls =>
      let '(r, s) := begin h now ip s in
      let '(n, s) := tries h net calls s in
      ((if decide (r = Some net) then 1 else 0) + n, s)%nat
  end.

(** Counts of a window stay within the limit. *)
Definition started_ok (h : Handshakes) (s : HandshakeState) : Prop :=
  map_Forall (fun _ e => 0 <= e.1 <= per_minute h) (started s).

(** How many can still be let in while less than a window passes since [t]: what the
    window under way leaves, and those of another one when it began before [t]. *)
Definition left_of (h : Handshakes) (t : Z) (entry : option (Z * Z)) : Z :=
  match entry with
  | Some (count, since) => per_minute h - count + (if t <=? since then 0 else per_minute h)
  | None => per_minute h
  end.

Definition entry_ok (h : Handshakes) (entry : Z * Z) : Prop := 0 <= entry.1 <= per_minute h.

Lemma expired_before t now since : t <= now < t + HANDSHAKE_WINDOW -> HANDSHAKE_WINDOW <= elapsed now since -> since < t.
Proof. unfold elapsed. assert (0 < HANDSHAKE_WINDOW) by (vm_compute; reflexivity). lia. Qed.

Lemma entry_of_left h t now network m : 0 < per_minute h -> t <= now < t + HANDSHAKE_WINDOW ->
  map_Forall (fun _ => entry_ok h) m ->
  entry_ok h (entry_of now network m) /\ left_of h t (Some (entry_of now network m)) <= left_of h t (m !! network).
Proof.
  intros Hm Hnow Hok. unfold entry_of. destruct (m !! network) as [[count since]|] eqn:E; cbn [default from_option id snd].
  - apply Hok in E. unfold entry_ok in *. cbn [fst] in *.
    destruct (Z.leb_spec HANDSHAKE_WINDOW (elapsed now since)) as [Hx|]; [|split; [done | lia]].
    apply (expired_before t) in Hx; [|done]. unfold left_of. cbn [fst].
    replace (t <=? now) with true by lia. replace (t <=? since) with false by lia. lia.
  - unfold elapsed. replace (now - now) with 0 by lia. unfold entry_ok, left_of. cbn [fst].
    destruct (HANDSHAKE_WINDOW <=? _); cbn [fst]; replace (t <=? now) with true by lia; lia.
Qed.

Lemma swept_left h t now (m : gmap IpAddr (Z * Z)) net : t <= now < t + HANDSHAKE_WINDOW ->
  map_Forall (fun _ => entry_ok h) m ->
  left_of h t (filter (fun kv => elapsed now kv.2.2 < HANDSHAKE_WINDOW) m !! net) <= left_of h t (m !! net).
Proof.
  intros Hnow Hok. destruct (filter _ m !! net) as [e|] eqn:E.
  { apply map_lookup_filter_Some in E as [-> _]. done. }
  apply map_lookup_filter_None in E as [->|E]; [done|]. destruct (m !! net) as [[count since]|] eqn:Em; [|done].
  specialize (E _ eq_refl). cbn [snd] in E. apply Hok in Em. unfold entry_ok in Em. cbn [fst] in Em.
  assert (since < t) by (apply (expired_before t now); [done | lia]). unfold left_of.
  replace (t <=? since) with false by lia. lia.
Qed.

Lemma begin_left h t net now ip s r s' :
  0 < per_minute h < 2 ^ 32 -> map_Forall (fun _ => entry_ok h) (started s) -> t <= now < t + HANDSHAKE_WINDOW ->
  begin h now ip s = (r, s') ->
  map_Forall (fun _ => entry_ok h) (started s')
  /\ left_of h t (started s' !! net) + (if decide (r = Some net) then 1 else 0) <= left_of h t (started s !! net).
Proof.
  intros Hm Hok Hnow Hb. unfold begin in Hb. destruct (_ || _).
  { injection Hb as <- <-. split; [done|]. rewrite decide_False by done. lia. }
  cbv zeta in Hb. set (sw := if 10000 <? _ then filter _ _ else _) in Hb.
  assert (Hsw : map_Forall (fun _ => entry_ok h) sw /\ left_of h t (sw !! net) <= left_of h t (started s !! net)).
  { unfold sw. destruct (10000 <? _); [|done]. split; [|by apply swept_left].
    intros k e [He _]%map_lookup_filter_Some. by eapply Hok. }
  destruct Hsw as [Hswok Hleft]. destruct (entry_of_left h t now (network_of ip) sw) as [He Hel]; [lia | done | done |].
  destruct (entry_of now (network_of ip) sw) as [count since]. unfold entry_ok in He. cbn [fst] in He.
  destruct (Z.leb_spec (per_minute h) count); injection Hb as <- <-; cbn [started].
  - split; [by apply map_Forall_insert_2|]. rewrite decide_False by done.
    destruct (decide (network_of ip = net)) as [<-|]; [rewrite lookup_insert_eq | rewrite lookup_insert_ne by done]; lia.
  - rewrite Z.mod_small by lia. split; [apply map_Forall_insert_2; [unfold entry_ok; cbn [fst]; lia | done]|].
    destruct (decide (network_of ip = net)) as [<-|].
    + rewrite decide_True, lookup_insert_eq by done. unfold left_of at 1. unfold left_of at 1 in Hel. lia.
    + rewrite decide_False, lookup_insert_ne by (done || congruence). lia.
Qed.

Lemma tries_left h t net calls : 0 < per_minute h < 2 ^ 32 -> Forall (fun c => t <= c.1 < t + HANDSHAKE_WINDOW) calls ->
  forall s, map_Forall (fun _ => entry_ok h) (started s) ->
  0 <= left_of h t (started (tries h net calls s).2 !! net)
  /\ Z.of_nat (tries h net calls s).1 + left_of h t (started (tries h net calls s).2 !! net) <= left_of h t (started s !! net).
Proof.
  intros Hm Hall. induction Hall as [|[now ip] calls Hnow _ IH]; intros s Hok; cbn [tries].
  - cbn [fst snd]. split; [|lia]. unfold left_of. destruct (started s !! net) as [[count since]|] eqn:E; [|lia].
    apply Hok in E. unfold entry_ok in E. cbn [fst] in E. case_match; lia.
  - destruct (begin h now ip s) as [r s'] eqn:Hb. apply (begin_left h t net) in Hb as [Hok' Hb]; [|done..].
    specialize (IH s' Hok'). destruct (tries h net calls s') as [n s'']. cbn [fst snd] in *.
    case_decide; lia.
Qed.

Lemma reached_entries max_total_ max_per_network_ per_minute_ s live :
  per_minute_ < 2 ^ 32 -> reached (new max_total_ max_per_network_ per_minute_) (s, live) ->
  map_Forall (fun _ => entry_ok (new max_total_ max_per_network_ per_minute_)) (started s).
Proof.
  intros Hm Hr. remember (s, live) as p eqn:Ep. replace s with p.1 by by rewrite Ep. clear s live Ep.
  induction Hr as [|p q _ IH Hs]; [apply map_Forall_empty|].
  assert (Hb : forall now ip s r s', map_Forall (fun _ => entry_ok (new max_total_ max_per_network_ per_minute_)) (started s) ->
    begin (new max_total_ max_per_network_ per_minute_) now ip s = (r, s') ->
    map_Forall (fun _ => entry_ok (new max_total_ max_per_network_ per_minute_)) (started s')).
  { intros now ip s r s' Hok Hb. eapply (begin_left _ now ip) in Hb as [Hb _]; [exact Hb | | done |].
    - cbn [per_minute new]. lia.
    - assert (0 < HANDSHAKE_WINDOW) by (vm_compute; reflexivity). lia. }
  destruct Hs; cbn [fst] in *; [by eapply Hb | by eapply Hb | done].
Qed.

(** Strangers get no more handshakes than the limit per minute allows: within any
    sixty seconds a network begins at most twice [per_minute], the end of one counted
    minute and the start of the next, whatever other networks try in between. *)
Theorem handshakes_per_minute max_total_ max_per_network_ per_minute_ s live net t calls :
  per_minute_ < 2 ^ 32 ->
  let h := new max_total_ max_per_network_ per_minute_ in
  reached h (s, live) ->
  Forall (fun c => t <= c.1 < t + HANDSHAKE_WINDOW) calls ->
  Z.of_nat (tries h net calls s).1 <= 2 * Z.max per_minute_ 1.
Proof.
  intros Hm h Hr Hall. assert (Hok : map_Forall (fun _ => entry_ok h) (started s)) by by eapply reached_entries.
  pose proof (tries_left h t net calls ltac:(cbn; lia) Hall s Hok) as [H0 H].
  assert (left_of h t (started s !! net) <= 2 * Z.max per_minute_ 1); [|lia].
  unfold left_of. destruct (started s !! net) as [[count since]|] eqn:E; [|cbn [per_minute h new]; lia].
  apply Hok in E. unfold entry_ok in E. cbn [fst per_minute new h] in *. case_match; lia.
Qed.

Definition busy : list (Z * IpAddr) := replicate 5 (0, V4 0xC0000201).

Lemma handshakes_per_minute_witness :
  Z.of_nat (tries (new 100 100 2) (V4 0xC0000201) busy new_state).1 <= 4
  /\ (tries (new 100 100 2) (V4 0xC0000201) busy new_state).1 = 2%nat.
Proof.
  split; [|vm_compute; reflexivity].
  apply (handshakes_per_minute 100 100 2 new_state [] (V4 0xC0000201) 0 busy eq_refl (reached_new _)).
  unfold busy. repeat constructor; vm_compute; discriminate.
Defined.

Lemma handshakes_exact_witness :
  exists s, reached (new 3 2 20) (s, [V4 0xC0000201]) /\ total s = 1.
Proof.
  set (s := (begin (new 3 2 20) 0 (V4 0xC0000201) new_state).2).
  assert (Hr : reached (new 3 2 20) (s, [V4 0xC0000201])).
  { apply (reached_step _ (new_state, []) _ (reached_new _)). apply (step_begun _ 0 (V4 0xC0000201)). vm_compute. reflexivity. }
  exists s. split; [exact Hr|]. exact (proj1 (handshakes_exact 3 2 20 s [V4 0xC0000201] eq_refl eq_refl Hr)).
Defined.

End Handshakes.
