(* ===== verification/SendLimit.v ===== *)
(** * How many people an account may send to (crates\/uwumail-smtp\/src\/send_limit.rs)

    [SendLimits] keeps, per account, the recipients of each minute of the last day and
    refuses a submission that would pass the limit of an hour or of a day. The
    specification is a ledger that keeps every accepted submission for ever;
    [send_limits_refine] shows that forgetting, sweeping and adding up per minute make
    no difference, and [hour_holds] and [day_holds] are about the ledger. *)

From stdpp Require Import gmap sorting.
From S2P Require Import Prelude.

Definition MINUTE : Z := 60.
Definition HOUR : Z := 3600.
Definition DAY : Z := 24 * HOUR.

Inductive Window := Hour | Day.

(** Recipients per minute of each account, oldest first; when quiet ones were last
    forgotten. *)
Record State := { accounts : gmap Z (list (Z * Z)); swept_at : Z }.

Definition saturating_sub (a b : Z) : Z := Z.max 0 (a - b).
Definition usize (z : Z) : Z := z `mod` 2 ^ 64.
Definition usize_saturating_add (a b : Z) : Z := Z.min u64_max (a + b).

Definition day_start (now : Z) : Z := saturating_sub now DAY / MINUTE.
Definition hour_start (now : Z) : Z := saturating_sub now HOUR / MINUTE.

Fixpoint forget_until (start : Z) (sent : list (Z * Z)) : list (Z * Z) :=
  match sent with
  | (minute, count) :: rest => if minute <=? start then forget_until start rest else sent
  | [] => []
  end.

Definition forget_old (now : Z) (sent : list (Z * Z)) : list (Z * Z) := forget_until (day_start now) sent.

(** Every account forgets, those left with nothing are removed. *)
Definition sweep (now : Z) (s : State) : State :=
  if HOUR <=? saturating_sub now (swept_at s)
  then {| accounts := filter (fun kv => kv.2 <> []) (forget_old now <$> accounts s); swept_at := now |}
  else s.

(** What an account sent this hour and this day. *)
Definition sums (now : Z) (sent : list (Z * Z)) : Z * Z :=
  foldl (fun '(in_hour, in_day) '(minute, count) =>
           (if hour_start now <? minute then usize (in_hour + count) else in_hour, usize (in_day + count)))
        (0, 0) sent.

(** Recipients are added to the minute under way, or begin one. *)
Definition push (minute recipients : Z) (sent : list (Z * Z)) : list (Z * Z) :=
  match last sent with
  | Some (m, count) =>
      if m =? minute then removelast sent ++ [(m, usize (count + recipients))] else sent ++ [(minute, recipients)]
  | None => [(minute, recipients)]
  end.

(** The limit that is in the way, if one is. *)
Definition in_the_way (in_hour in_day recipients per_hour per_day : Z) : option Window :=
  if (0 <? per_hour) && (per_hour <? usize_saturating_add in_hour recipients) then Some Hour
  else if (0 <? per_day) && (per_day <? usize_saturating_add in_day recipients) then Some Day
  else None.

Definition take (account recipients per_hour per_day now : Z) (s : State) : option Window * State :=
  let s := sweep now s in
  let sent := forget_old now (default [] (accounts s !! account)) in
  let '(in_hour, in_day) := sums now sent in
  let kept sent := {| accounts := <[account := sent]> (accounts s); swept_at := swept_at s |} in
  match in_the_way in_hour in_day recipients per_hour per_day with
  | Some window => (Some window, kept sent)
  | None => (None, kept (push (now / MINUTE) recipients sent))
  end.

(** ** Specification: a ledger of all that was accepted *)

(** When, who, and to how many. *)
Record Entry := { time : Z; account : Z; recipients : Z }.

(** The recipients of an account in the minutes after [start]. *)
Definition since (who start : Z) (ledger : list Entry) : Z :=
  foldr (fun e n => (if decide (account e = who /\ start < time e / MINUTE) then recipients e else 0) + n) 0 ledger.

(** A submission: who, to how many, under which limits, when. *)
Record Call := { by_ : Z; to_ : Z; per_hour : Z; per_day : Z; at_ : Z }.

Definition spec_take (c : Call) (ledger : list Entry) : option Window * list Entry :=
  match
    if decide (0 < per_hour c < since (by_ c) (hour_start (at_ c)) ledger + to_ c) then Some Hour
    else if decide (0 < per_day c < since (by_ c) (day_start (at_ c)) ledger + to_ c) then Some Day else None
  with
  | Some window => (Some window, ledger)
  | None => (None, {| time := at_ c; account := by_ c; recipients := to_ c |} :: ledger)
  end.

(** The answers to a run of submissions, and where it ends. *)
Fixpoint runs {S} (take : Call -> S -> option Window * S) (calls : list Call) (s : S) : list (option Window) * S :=
  match calls with
  | [] => ([], s)
  | c :: calls =>
      let '(answer, s) := take c s in
      let '(answers, s) := runs take calls s in
      (answer :: answers, s)
  end.

Definition code_take (c : Call) (s : State) : option Window * State :=
  take (by_ c) (to_ c) (per_hour c) (per_day c) (at_ c) s.

(** ** Lemmas *)

(** The recipients in the minutes after [start] that are kept. *)
Definition kept_since (start : Z) (sent : list (Z * Z)) : Z :=
  foldr (fun e n => (if start <? e.1 then e.2 else 0) + n) 0 sent.

Lemma kept_cons start e sent : kept_since start (e :: sent) = (if start <? e.1 then e.2 else 0) + kept_since start sent.
Proof. done. Qed.

Lemma kept_since_app start s t : kept_since start (s ++ t) = kept_since start s + kept_since start t.
Proof. induction s as [|e s IH]; cbn [app]; [done|]. rewrite !kept_cons, IH. lia. Qed.

Lemma forget_since start now sent : now <= start -> kept_since start (forget_until now sent) = kept_since start sent.
Proof.
  intros H. induction sent as [|[m c] sent IH]; [done|]. cbn [forget_until]. destruct (Z.leb_spec m now); [|done].
  rewrite IH, kept_cons. cbn [fst]. by replace (start <? m) with false by lia.
Qed.

(** Minutes in order, none after [until], no negative count. *)
Definition sent_ok (until : Z) (sent : list (Z * Z)) : Prop :=
  StronglySorted (fun a b => a.1 < b.1) sent /\ Forall (fun e => e.1 <= until /\ 0 <= e.2) sent.

Lemma forget_ok until start sent : sent_ok until sent ->
  sent_ok until (forget_until start sent) /\ Forall (fun e => start < e.1) (forget_until start sent).
Proof.
  intros [Hs Hu]. induction sent as [|[m c] sent IH]; cbn [forget_until]; [done|].
  inversion_clear Hs as [|? ? Hs' Hlt]. apply Forall_cons in Hu as [Hm Hu].
  destruct (Z.leb_spec m start); [by apply IH|].
  split; [split; constructor; done|]. constructor; [cbn; lia|].
  eapply Forall_impl; [exact Hlt|]. intros [m' c'] Hm'. cbn in *. lia.
Qed.

Lemma kept_nonneg start until sent : sent_ok until sent -> 0 <= kept_since start sent.
Proof.
  intros [_ Hu]. induction Hu as [|e sent [_ He] _ IH]; [done|]. rewrite kept_cons. case_match; lia.
Qed.

Lemma kept_mono start start' until sent : sent_ok until sent -> start <= start' -> kept_since start' sent <= kept_since start sent.
Proof.
  intros [_ Hu] Hle. induction Hu as [|e sent [_ He] _ IH]; [done|]. rewrite !kept_cons.
  destruct (Z.ltb_spec start' e.1), (Z.ltb_spec start e.1); lia.
Qed.

Lemma usize_small z : 0 <= z < 2 ^ 64 -> usize z = z.
Proof. apply Z.mod_small. Qed.

(** The running sums, when they fit. *)
Lemma sums_eq now until sent : forall h d,
  Forall (fun e => e.1 <= until /\ 0 <= e.2) sent -> Forall (fun e => day_start now < e.1) sent -> 0 <= h <= d ->
  d + kept_since (day_start now) sent < 2 ^ 64 ->
  foldl (fun '(in_hour, in_day) '(minute, count) =>
           (if hour_start now <? minute then usize (in_hour + count) else in_hour, usize (in_day + count))) (h, d) sent
  = (h + kept_since (hour_start now) sent, d + kept_since (day_start now) sent).
Proof.
  induction sent as [|[m c] sent IH]; intros h d Hok Hd Hh Hfit; cbn [foldl].
  { cbn [kept_since foldr]. f_equal; lia. }
  apply Forall_cons in Hok as [[_ Hc] Hok]. apply Forall_cons in Hd as [Hm Hd]. cbn [fst snd] in *.
  assert (Hk : kept_since (day_start now) ((m, c) :: sent) = c + kept_since (day_start now) sent).
  { rewrite kept_cons. cbn [fst snd]. by replace (day_start now <? m) with true by lia. }
  pose proof (kept_cons (hour_start now) (m, c) sent) as Hk'. cbn [fst snd] in Hk'.
  assert (0 <= kept_since (day_start now) sent).
  { clear -Hok. induction Hok as [|e sent [_ He] _ IH]; [done|]. rewrite kept_cons. case_match; lia. }
  rewrite Hk in Hfit |- *. rewrite Hk'. rewrite (usize_small (h + c)), (usize_small (d + c)) by lia.
  destruct (hour_start now <? m).
  - rewrite IH; [f_equal; lia | done | done | lia | lia].
  - rewrite IH; [f_equal; lia | done | done | lia | lia].
Qed.

Lemma push_since start minute r until sent :
  sent_ok until sent -> 0 <= r ->
  Forall (fun e => e.2 + r < 2 ^ 64) sent ->
  kept_since start (push minute r sent) = (if start <? minute then r else 0) + kept_since start sent.
Proof.
  intros [_ Hu] Hr Hfit. unfold push. destruct (last sent) as [[m c]|] eqn:El.
  - apply last_Some in El as [s ->]. apply Forall_app in Hu as [_ [[_ Hc] _]%Forall_cons].
    apply Forall_app in Hfit as [_ [Hf _]%Forall_cons]. cbn [fst snd] in *.
    destruct (Z.eqb_spec m minute) as [->|].
    + rewrite removelast_last, !kept_since_app, !kept_cons. cbn [fst snd]. rewrite usize_small by lia.
      cbn [kept_since foldr]. case_match; lia.
    + rewrite !kept_since_app, !kept_cons. cbn [fst snd kept_since foldr]. lia.
  - apply last_None in El as ->. rewrite !kept_cons. done.
Qed.

Lemma push_ok until minute r sent :
  sent_ok until sent -> until <= minute -> 0 <= r -> sent_ok minute (push minute r sent).
Proof.
  intros [Hs Hu] Hle Hr. unfold push. destruct (last sent) as [[m c]|] eqn:El.
  - apply last_Some in El as [s ->]. assert (Hu' := Hu). apply Forall_app in Hu' as [Hus [[Hm Hc] _]%Forall_cons]. cbn [fst snd] in *.
    assert (Hs' : StronglySorted (fun a b : Z * Z => a.1 < b.1) s /\ Forall (fun e => e.1 < m) s).
    { clear -Hs. induction s as [|e s IH]; [by split; constructor|]. inversion_clear Hs as [|? ? Hs' Hlt].
      apply Forall_app in Hlt as [Hlt [Hm _]%Forall_cons]. destruct (IH Hs'). split; by constructor. }
    destruct Hs' as [Hs1 Hs2].
    assert (Happ : forall (x : Z * Z) l, StronglySorted (fun a b : Z * Z => a.1 < b.1) l -> Forall (fun e => e.1 < x.1) l ->
      StronglySorted (fun a b : Z * Z => a.1 < b.1) (l ++ [x])).
    { clear. intros x l Hl Hx. induction Hl as [|e l Hl IH He]; [repeat constructor|].
      apply Forall_cons in Hx as [Hx1 Hx]. constructor; [by apply IH|]. apply Forall_app. split; [done | by repeat constructor]. }
    destruct (Z.eqb_spec m minute) as [->|].
    + rewrite removelast_last. split; [by apply Happ|]. apply Forall_app. split.
      * eapply Forall_impl; [exact Hus|]. cbn. intros; lia.
      * repeat constructor; cbn; [lia|]. unfold usize. apply Z.mod_pos_bound. lia.
    + split; [apply Happ; [done|] |].
      * apply Forall_app. split; [|repeat constructor; cbn; lia].
        eapply Forall_impl; [exact Hs2|]. cbn. intros. lia.
      * apply Forall_app. split; [|by repeat constructor; cbn; lia]. eapply Forall_impl; [exact Hu|]. cbn. intros; lia.
  - split; repeat constructor; cbn; lia.
Qed.

(** ** The state and the ledger *)

(** What is kept of an account agrees with the ledger for the last day, as of [now]. *)
Definition agrees (now : Z) (who : Z) (sent : list (Z * Z)) (ledger : list Entry) : Prop :=
  sent_ok (now / MINUTE) sent /\ forall start, day_start now <= start -> kept_since start sent = since who start ledger.

Definition matches (now : Z) (s : State) (ledger : list Entry) : Prop :=
  forall who, agrees now who (default [] (accounts s !! who)) ledger.

Lemma day_start_mono a b : a <= b -> day_start a <= day_start b.
Proof. intros H. unfold day_start, saturating_sub. apply Z.div_le_mono; unfold MINUTE; lia. Qed.

Lemma sent_ok_mono a b sent : a <= b -> sent_ok a sent -> sent_ok b sent.
Proof. intros H [Hs Hu]. split; [done|]. eapply Forall_impl; [exact Hu|]. cbn. intros; lia. Qed.

Lemma agrees_forget now later who sent ledger : now <= later -> agrees now who sent ledger ->
  agrees later who (forget_old later sent) ledger /\ agrees later who sent ledger
  /\ Forall (fun e => day_start later < e.1) (forget_old later sent).
Proof.
  intros Hle [Hok Hk]. pose proof (day_start_mono _ _ Hle). unfold forget_old.
  assert (Hok' : sent_ok (later / MINUTE) sent).
  { eapply sent_ok_mono; [|exact Hok]. apply Z.div_le_mono; unfold MINUTE; lia. }
  destruct (forget_ok _ (day_start later) _ Hok') as [Hf Hd]. split_and!; [|split; [done|] | done].
  - split; [done|]. intros start Hs. rewrite forget_since by done. apply Hk. lia.
  - intros start Hs. apply Hk. lia.
Qed.

Lemma sweep_matches now later s ledger : now <= later -> matches now s ledger -> matches later (sweep later s) ledger.
Proof.
  intros Hle Hm who. destruct (agrees_forget now later who _ ledger Hle (Hm who)) as (Hf & Hs & _). unfold sweep.
  destruct (HOUR <=? _); [|exact Hs]. cbn [accounts].
  destruct (accounts s !! who) as [sent|] eqn:E; cbn [default from_option id] in *.
  - destruct (decide (forget_old later sent = [])) as [Hnil|Hne].
    + assert (filter (fun kv : Z * list (Z * Z) => kv.2 <> []) (forget_old later <$> accounts s) !! who = None) as ->.
      { apply map_lookup_filter_None. right. intros x. rewrite lookup_fmap, E. intros [= <-]. cbn. by intros []. }
      cbn [default from_option id]. by rewrite <-Hnil.
    + assert (filter (fun kv : Z * list (Z * Z) => kv.2 <> []) (forget_old later <$> accounts s) !! who
              = Some (forget_old later sent)) as ->; [|done].
      apply map_lookup_filter_Some. split; [by rewrite lookup_fmap, E | done].
  - assert (filter (fun kv : Z * list (Z * Z) => kv.2 <> []) (forget_old later <$> accounts s) !! who = None) as ->; [|done].
    apply map_lookup_filter_None. left. by rewrite lookup_fmap, E.
Qed.

(** All that an account was allowed. *)
Definition all_of (ledger : list Entry) : Z := foldr (fun e n => recipients e + n) 0 ledger.

Lemma since_le who start ledger : Forall (fun e => 0 <= recipients e) ledger -> 0 <= since who start ledger <= all_of ledger.
Proof.
  induction 1 as [|e ledger He _ IH]; [done|]. unfold since, all_of in *. cbn [foldr]. case_decide; lia.
Qed.

Lemma entry_le start until sent e : sent_ok until sent -> e ∈ sent -> start < e.1 -> e.2 <= kept_since start sent.
Proof.
  intros [_ Hu] He Hlt. induction Hu as [|e' sent [_ Hc] Hu IH]; [by apply elem_of_nil in He|].
  assert (0 <= kept_since start sent).
  { clear -Hu. induction Hu as [|x sent [_ Hx] _ IH]; [done|]. rewrite kept_cons. case_match; lia. }
  rewrite kept_cons. apply elem_of_cons in He as [<-|He].
  - replace (start <? e.1) with true by lia. lia.
  - specialize (IH He). case_match; lia.
Qed.

(** A submission that is in order: not before the second day of 1970, no limit or
    count below zero or beyond 64 bits. *)
Definition call_ok (c : Call) : Prop :=
  DAY <= at_ c /\ 0 <= to_ c /\ 0 <= per_hour c < 2 ^ 64 /\ 0 <= per_day c < 2 ^ 64.

(** One submission: the same answer, and the state still agrees. *)
Lemma take_matches now c s ledger :
  call_ok c -> now <= at_ c -> matches now s ledger -> Forall (fun e => 0 <= recipients e) ledger ->
  all_of ledger + to_ c < 2 ^ 64 ->
  (code_take c s).1 = (spec_take c ledger).1 /\ matches (at_ c) (code_take c s).2 (spec_take c ledger).2.
Proof.
  intros (_ & Hto & Hph & Hpd) Hnow Hm Hpos Hfit.
  pose proof (sweep_matches _ _ _ _ Hnow Hm) as Hs. set (s' := sweep (at_ c) s) in *.
  destruct (agrees_forget (at_ c) (at_ c) (by_ c) _ ledger ltac:(lia) (Hs (by_ c))) as ([Hok Hk] & _ & Hd).
  unfold code_take, take. fold s'. set (sent := forget_old _ _) in *.
  pose proof (since_le (by_ c) (hour_start (at_ c)) ledger Hpos) as Hsh.
  pose proof (since_le (by_ c) (day_start (at_ c)) ledger Hpos) as Hsd.
  assert (Hhd : day_start (at_ c) <= hour_start (at_ c)).
  { unfold day_start, hour_start, saturating_sub, DAY, HOUR. apply Z.div_le_mono; unfold MINUTE; lia. }
  unfold sums. rewrite (sums_eq (at_ c) (at_ c / MINUTE)); [|apply Hok|done|lia|rewrite Hk by lia; lia].
  rewrite !Z.add_0_l, !Hk by lia. unfold in_the_way, usize_saturating_add, u64_max, spec_take.
  rewrite !Z.min_r by lia.
  assert (Hkeep : forall w, (by_ c = w /\ w = by_ c) \/ w <> by_ c) by (intros; destruct (decide (w = by_ c)); auto).
  assert (Hsame : forall sent', agrees (at_ c) (by_ c) sent' ledger ->
    matches (at_ c) {| accounts := <[by_ c := sent']> (accounts s'); swept_at := swept_at s' |} ledger).
  { intros sent' Hs' who. cbn [accounts]. destruct (decide (who = by_ c)) as [->|].
    - by rewrite lookup_insert_eq.
    - rewrite lookup_insert_ne by done. apply Hs. }
  assert (Hpush : matches (at_ c) {| accounts := <[by_ c := push (at_ c / MINUTE) (to_ c) sent]> (accounts s'); swept_at := swept_at s' |}
    ({| time := at_ c; account := by_ c; recipients := to_ c |} :: ledger)).
  { intros who. cbn [accounts]. destruct (decide (who = by_ c)) as [->|].
    - rewrite lookup_insert_eq. cbn [default from_option id]. split; [by apply (push_ok (at_ c / MINUTE))|].
      intros start Hst. rewrite (push_since _ _ _ (at_ c / MINUTE)); [|done|done|].
      + unfold since at 1. cbn [foldr account time recipients]. fold (since (by_ c) start ledger). rewrite Hk by done.
        f_equal. destruct (Z.ltb_spec start (at_ c / MINUTE)); [by rewrite decide_True | rewrite decide_False by lia; done].
      + apply Forall_forall. intros e He.
        pose proof (entry_le (day_start (at_ c)) _ _ e Hok He (proj1 (Forall_forall _ _) Hd e He)) as Hle.
        rewrite Hk in Hle by lia. lia.
    - rewrite lookup_insert_ne by done. destruct (Hs who) as [Hw Hkw]. split; [done|]. intros start Hst.
      rewrite Hkw by done. unfold since at 2. cbn [foldr account]. rewrite decide_False by (by intros [? _]). done. }
  case_decide as H1; [|case_decide as H2].
  - replace (_ && _) with true by lia. cbn [fst snd]. split; [done|]. by apply Hsame.
  - replace ((0 <? per_hour c) && _) with false by lia. replace (_ && _) with true by lia.
    split; [done|]. by apply Hsame.
  - replace ((0 <? per_hour c) && _) with false by lia. replace (_ && _) with false by lia. done.
Qed.

(** ** Runs *)

Definition no_accounts : State := {| accounts := ∅; swept_at := 0 |}.

(** The clock does not go back from [now]. *)
Fixpoint in_order (now : Z) (calls : list Call) : Prop :=
  match calls with
  | [] => True
  | c :: calls => now <= at_ c /\ in_order (at_ c) calls
  end.

(** All that the submissions ask for. *)
Definition asked (calls : list Call) : Z := foldr (fun c n => to_ c + n) 0 calls.

(** The submissions that were let through, in order. *)
Fixpoint accepted (calls : list Call) (answers : list (option Window)) : list Entry :=
  match calls, answers with
  | c :: calls, None :: answers => {| time := at_ c; account := by_ c; recipients := to_ c |} :: accepted calls answers
  | _ :: calls, Some _ :: answers => accepted calls answers
  | _, _ => []
  end.

(** What an account sent in the minutes after [lo] up to [hi]. *)
Definition sent_between (who lo hi : Z) (entries : list Entry) : Z :=
  foldr (fun e n => (if decide (account e = who /\ lo < time e / MINUTE <= hi) then recipients e else 0) + n) 0 entries.

Lemma asked_nonneg calls : Forall call_ok calls -> 0 <= asked calls.
Proof. induction 1 as [|c calls (_ & H & _) _ IH]; [done|]. cbn [asked foldr]. unfold asked in IH. lia. Qed.

(** A submission leaves the ledger within what was asked. *)
Lemma spec_take_ledger c ledger : 0 <= to_ c -> Forall (fun e => 0 <= recipients e) ledger ->
  Forall (fun e => 0 <= recipients e) (spec_take c ledger).2 /\ all_of (spec_take c ledger).2 <= all_of ledger + to_ c.
Proof.
  intros Hc Hl. unfold spec_take. case_decide; [|case_decide]; cbn [snd]; [split; [done | lia]..|].
  split; [by constructor|]. unfold all_of. cbn [foldr recipients]. lia.
Qed.

Lemma runs_match calls : forall now s ledger,
  Forall call_ok calls -> in_order now calls -> matches now s ledger -> Forall (fun e => 0 <= recipients e) ledger ->
  all_of ledger + asked calls < 2 ^ 64 ->
  (runs code_take calls s).1 = (runs spec_take calls ledger).1.
Proof.
  induction calls as [|c calls IH]; intros now s ledger Hok Ho Hm Hl Hfit; [done|].
  apply Forall_cons in Hok as [Hc Hok]. destruct Ho as [Hnow Ho].
  assert (asked (c :: calls) = to_ c + asked calls) as Ha by done.
  pose proof (asked_nonneg calls Hok). rewrite Ha in Hfit.
  destruct (take_matches now c s ledger Hc Hnow Hm Hl ltac:(lia)) as [Hans Hm'].
  destruct (spec_take_ledger c ledger) as [Hl' Hsum]; [apply Hc | done|].
  cbn [runs]. destruct (code_take c s) as [answer s'], (spec_take c ledger) as [answer' ledger']. cbn [fst snd] in *. subst answer'.
  specialize (IH (at_ c) s' ledger' Hok Ho Hm' Hl' ltac:(lia)).
  destruct (runs code_take calls s') as [answers ?], (runs spec_take calls ledger') as [answers' ?]. cbn [fst] in *. by subst.
Qed.

Lemma starts_matching : matches 0 no_accounts [].
Proof. intros who. unfold no_accounts. cbn [accounts]. rewrite lookup_empty. split; [repeat constructor | done]. Qed.

Lemma between_since who lo lo' hi ledger : Forall (fun e => 0 <= recipients e) ledger -> lo' <= lo ->
  sent_between who lo hi ledger <= since who lo' ledger.
Proof.
  intros Hl Hlo. induction Hl as [|e ledger He _ IH]; [done|]. unfold sent_between, since in *. cbn [foldr].
  destruct (decide (account e = who /\ lo < _ <= hi)) as [(? & ? & ?)|]; [rewrite decide_True by lia; lia|].
  case_decide; lia.
Qed.

Lemma between_app who lo hi a b : sent_between who lo hi (a ++ b) = sent_between who lo hi a + sent_between who lo hi b.
Proof. induction a as [|e a IH]; [done|]. unfold sent_between in *. cbn [app foldr]. rewrite IH. lia. Qed.

Lemma between_cons who lo hi e l : sent_between who lo hi (e :: l) =
  (if decide (account e = who /\ lo < time e / MINUTE <= hi) then recipients e else 0) + sent_between who lo hi l.
Proof. done. Qed.

(** If a submission is refused whenever more than [limit] would be sent in the
    minutes since [start], then no [width] minutes hold more than [limit]. *)
Lemma window_holds (start : Z -> Z) width limit who d calls :
  0 <= d -> (forall now, d < now / MINUTE <= d + width -> start now <= d) -> Forall (fun c => 0 <= to_ c) calls ->
  Forall (fun c => forall ledger, (spec_take c ledger).1 = None -> since (by_ c) (start (at_ c)) ledger + to_ c <= limit) calls ->
  forall ledger, Forall (fun e => 0 <= recipients e) ledger -> sent_between who d (d + width) ledger <= limit ->
  sent_between who d (d + width) (accepted calls (runs spec_take calls ledger).1) + sent_between who d (d + width) ledger <= limit.
Proof.
  intros Hd Hstart. induction calls as [|c calls IH]; intros Hto Hrefuse ledger Hl Hw; [cbn; lia|].
  apply Forall_cons in Hto as [Hc Hto]. apply Forall_cons in Hrefuse as [Hr Hrefuse]. specialize (IH Hto Hrefuse). specialize (Hr ledger).
  assert (Hcase : (exists w, spec_take c ledger = (Some w, ledger))
                  \/ spec_take c ledger = (None, {| time := at_ c; account := by_ c; recipients := to_ c |} :: ledger)).
  { unfold spec_take. case_decide; [by eauto|]. case_decide; by eauto. }
  cbn [runs]. destruct Hcase as [[w ->]| Hnone].
  - destruct (runs spec_take calls ledger) as [answers ?] eqn:E. specialize (IH ledger Hl Hw). rewrite E in IH. exact IH.
  - rewrite Hnone in Hr |- *. specialize (Hr eq_refl).
    set (e := {| time := at_ c; account := by_ c; recipients := to_ c |}) in *.
    assert (Hw' : sent_between who d (d + width) (e :: ledger) <= limit).
    { rewrite between_cons. case_decide as Hin; [|lia]. cbn in Hin. destruct Hin as [<- Hin].
      pose proof (between_since (by_ c) d (start (at_ c)) (d + width) ledger Hl (Hstart _ Hin)). cbn [recipients e]. lia. }
    specialize (IH (e :: ledger) ltac:(by constructor) Hw').
    destruct (runs spec_take calls (e :: ledger)) as [answers ?]. cbn [fst accepted] in *.
    rewrite between_cons in IH. fold e. rewrite between_cons. lia.
Qed.

Lemma hour_start_le d now : 0 <= d -> d < now / MINUTE <= d + 60 -> hour_start now <= d.
Proof. intros Hd H. unfold hour_start, saturating_sub, HOUR, MINUTE in *. Z.div_mod_to_equations. lia. Qed.

Lemma day_start_le d now : 0 <= d -> d < now / MINUTE <= d + 1440 -> day_start now <= d.
Proof. intros Hd H. unfold day_start, saturating_sub, DAY, HOUR, MINUTE in *. Z.div_mod_to_equations. lia. Qed.

Lemma hour_refuses c ledger : 0 < per_hour c -> (spec_take c ledger).1 = None ->
  since (by_ c) (hour_start (at_ c)) ledger + to_ c <= per_hour c.
Proof. unfold spec_take. intros H. case_decide; [done|]. intros _. lia. Qed.

Lemma day_refuses c ledger : 0 < per_day c -> (spec_take c ledger).1 = None ->
  since (by_ c) (day_start (at_ c)) ledger + to_ c <= per_day c.
Proof. unfold spec_take. intros H. case_decide; [done|]. case_decide; [done|]. intros _. lia. Qed.

(** SendLimits::take, starting from nothing and with a clock that does not go back,
    answers every submission as a ledger that never forgets would: forgetting old
    minutes, sweeping quiet accounts and counting per minute change no answer. *)
Theorem send_limits_refine calls :
  Forall call_ok calls -> in_order 0 calls -> asked calls < 2 ^ 64 ->
  (runs code_take calls no_accounts).1 = (runs spec_take calls []).1.
Proof.
  intros Hok Ho Hfit. apply (runs_match calls 0); [done | done | exact starts_matching | done | exact Hfit].
Qed.

(** With a limit per hour, no sixty minutes in a row hold more recipients of an
    account than the limit. *)
Theorem hour_holds who limit d calls :
  Forall call_ok calls -> in_order 0 calls -> asked calls < 2 ^ 64 ->
  0 < limit -> Forall (fun c => per_hour c = limit) calls -> 0 <= d ->
  sent_between who d (d + 60) (accepted calls (runs code_take calls no_accounts).1) <= limit.
Proof.
  intros Hok Ho Hfit Hlimit Hall Hd.
  rewrite (runs_match calls 0 _ []); [| done | done | exact starts_matching | done | exact Hfit].
  assert (Hr : Forall (fun c => forall ledger, (spec_take c ledger).1 = None -> since (by_ c) (hour_start (at_ c)) ledger + to_ c <= limit) calls).
  { eapply Forall_impl; [exact Hall|]. intros c <- ledger. by apply hour_refuses. }
  pose proof (window_holds hour_start 60 limit who d calls Hd (fun now => hour_start_le d now Hd)
                (Forall_impl _ _ _ Hok (fun c H => proj1 (proj2 H))) Hr [] (Forall_nil_2 _)) as W.
  change (sent_between _ _ _ []) with 0 in W. lia.
Qed.

(** With a limit per day, no 1,440 minutes in a row hold more recipients of an
    account than the limit. *)
Theorem day_holds who limit d calls :
  Forall call_ok calls -> in_order 0 calls -> asked calls < 2 ^ 64 ->
  0 < limit -> Forall (fun c => per_day c = limit) calls -> 0 <= d ->
  sent_between who d (d + 1440) (accepted calls (runs code_take calls no_accounts).1) <= limit.
Proof.
  intros Hok Ho Hfit Hlimit Hall Hd.
  rewrite (runs_match calls 0 _ []); [| done | done | exact starts_matching | done | exact Hfit].
  assert (Hr : Forall (fun c => forall ledger, (spec_take c ledger).1 = None -> since (by_ c) (day_start (at_ c)) ledger + to_ c <= limit) calls).
  { eapply Forall_impl; [exact Hall|]. intros c <- ledger. by apply day_refuses. }
  pose proof (window_holds day_start 1440 limit who d calls Hd (fun now => day_start_le d now Hd)
                (Forall_impl _ _ _ Hok (fun c H => proj1 (proj2 H))) Hr [] (Forall_nil_2 _)) as W.
  change (sent_between _ _ _ []) with 0 in W. lia.
Qed.

(** ** Witnesses *)

(** An account with 10 an hour and 12 a day: 8, then 5 (refused), two hours later 4, then
    2 (refused by the day), and the next day 5. *)
Definition some_calls : list Call :=
  [ {| by_ := 7; to_ := 8; per_hour := 10; per_day := 12; at_ := 100000 |};
    {| by_ := 7; to_ := 5; per_hour := 10; per_day := 12; at_ := 100060 |};
    {| by_ := 7; to_ := 4; per_hour := 10; per_day := 12; at_ := 107200 |};
    {| by_ := 7; to_ := 2; per_hour := 10; per_day := 12; at_ := 107260 |};
    {| by_ := 7; to_ := 5; per_hour := 10; per_day := 12; at_ := 190000 |} ].

Ltac calls_ok := repeat constructor; vm_compute; congruence.

Example some_answers : (runs code_take some_calls no_accounts).1 = [None; Some Hour; None; Some Day; None].
Proof. vm_compute. reflexivity. Qed.

Lemma send_limits_refine_witness :
  (runs code_take some_calls no_accounts).1 = (runs spec_take some_calls []).1.
Proof. apply (send_limits_refine some_calls); calls_ok. Defined.

Lemma hour_holds_witness :
  sent_between 7 1640 (1640 + 60) (accepted some_calls (runs code_take some_calls no_accounts).1) <= 10.
Proof. apply (hour_holds 7 10 1640 some_calls); calls_ok. Defined.

Lemma day_holds_witness :
  sent_between 7 1640 (1640 + 1440) (accepted some_calls (runs code_take some_calls no_accounts).1) <= 12.
Proof. apply (day_holds 7 12 1640 some_calls); calls_ok. Defined.
