(* ===== verification/Acl.v ===== *)
(** * Rights on shared mailboxes (crates\/uwumail-store\/src\/acl.rs,
    crates\/uwumail-imap\/src\/session.rs)

    The letters of RFC 4314 a mailbox is shared with: how a set of them is normalised
    ([normalize_rights]) and asked ([has_rights]), the levels the portal offers
    ([ShareLevel]), what SETACL makes of [+] and [-] ([wanted_rights]), and which flags
    a set of rights lets its holder change ([may_set_keyword]). Rights are ASCII
    letters, a string of them the list of its bytes. *)

From S2P Require Import Prelude.

(** Every right, in the order RFC 4314 lists them. *)
Definition ALL_RIGHTS : list byte := bs "lrswipkxtea".

(** [rights.contains(c)] *)
Definition has_letter (rights : list byte) (c : byte) : bool := bool_decide (c ∈ rights).

Module ShareLevel.
Inductive ShareLevel : Type := Read | Write | All.
End ShareLevel.
Abbreviation ShareLevel := ShareLevel.ShareLevel.

#[export] Instance share_level_eq_decision : EqDecision ShareLevel.
Proof. solve_decision. Defined.

Definition level_rights (level : ShareLevel) : list byte :=
  match level with
  | ShareLevel.Read => bs "lr"
  | ShareLevel.Write => bs "lrswite"
  | ShareLevel.All => ALL_RIGHTS
  end.

Definition as_str (level : ShareLevel) : list byte :=
  match level with
  | ShareLevel.Read => bs "read"
  | ShareLevel.Write => bs "write"
  | ShareLevel.All => bs "all"
  end.

Definition parse_level (value : list byte) : option ShareLevel :=
  if decide (value = bs "read") then Some ShareLevel.Read
  else if decide (value = bs "write") then Some ShareLevel.Write
  else if decide (value = bs "all") then Some ShareLevel.All
  else None.

(** The level closest to a set of rights. *)
Definition level_of (rights : list byte) : ShareLevel :=
  if has_letter rights "a"%byte then ShareLevel.All
  else if existsb (has_letter (bs "switexk")) rights then ShareLevel.Write
  else ShareLevel.Read.

(** The letters a letter stands for; none when it is unknown. *)
Definition letters_of (c : byte) : option (list byte) :=
  if decide (c = "c"%byte) then Some (bs "k")
  else if decide (c = "d"%byte) then Some (bs "xte")
  else if has_letter ALL_RIGHTS c then Some [c]
  else None.

(** The loop over the input. *)
Fixpoint wanted_loop (input wanted : list byte) : option (list byte) :=
  match input with
  | [] => Some wanted
  | c :: input =>
      match letters_of c with
      | Some letters => wanted_loop input (wanted ++ letters)
      | None => None
      end
  end.

(** In the usual order, without repeats; nothing when a letter is unknown. *)
Definition normalize_rights (input : list byte) : option (list byte) :=
  wanted ← wanted_loop input [];
  Some (List.filter (has_letter wanted) ALL_RIGHTS).

Definition has_rights (rights needed : list byte) : bool := forallb (has_letter rights) needed.

(** ** SETACL and DELETEACL *)

(** What is to be stored for someone who has [current]: nothing to delete, [+] and [-]
    change it, anything else replaces it. None when letters after [-] are unknown. *)
Definition wanted_rights (current : list byte) (rights : option (list byte)) : option (list byte) :=
  match rights with
  | None => Some []
  | Some rights =>
      match strip_prefix (bs "+") rights, strip_prefix (bs "-") rights with
      | Some added, _ => Some (current ++ added)
      | None, Some removed =>
          removed ← normalize_rights removed;
          Some (List.filter (fun right => negb (has_letter removed right)) current)
      | None, None => Some rights
      end
  end.

(** The rights the store keeps after it, normalised; none when it answers BAD. *)
Definition set_rights (current : list byte) (rights : option (list byte)) : option (list byte) :=
  wanted ← wanted_rights current rights; normalize_rights wanted.

(** ** Flags *)

Definition DELETED_KEYWORD : list byte := bs "$deleted".

(** [\Seen] needs [s], [\Deleted] needs [t], everything else [w]. *)
Definition may_set_keyword (rights keyword : list byte) : bool :=
  let needed := if decide (keyword = bs "$seen") then "s"%byte
                else if decide (keyword = DELETED_KEYWORD) then "t"%byte
                else "w"%byte in
  has_letter rights needed.

(** The PERMANENTFLAGS of a writable mailbox. *)
Definition permanent_flags (rights : list byte) : list byte :=
  let w := has_letter rights "w"%byte in
  join (bs " ")
    ((if w then [bs "\Answered"; bs "\Flagged"; bs "\Draft"] else [])
     ++ (if has_letter rights "t"%byte then [bs "\Deleted"] else [])
     ++ (if has_letter rights "s"%byte then [bs "\Seen"] else [])
     ++ (if w then [bs "\*"] else [])).

(** Whether some right to change anything is among them. *)
Definition may_change (rights : list byte) : bool := existsb (has_letter (bs "stwe")) rights.

(** ** Lemmas *)

Lemma has_letter_iff rights c : has_letter rights c = true <-> c ∈ rights.
Proof. apply bool_decide_eq_true. Qed.

Lemma wanted_loop_some input : forall wanted out, wanted_loop input wanted = Some out <->
  Forall (fun c => is_Some (letters_of c)) input /\ out = wanted ++ (input ≫= fun c => default [] (letters_of c)).
Proof.
  induction input as [|c input IH]; intros wanted out; cbn [wanted_loop mbind list_bind].
  { rewrite app_nil_r. split; [intros [= ->]; by split | by intros [_ ->]]. }
  destruct (letters_of c) as [letters|] eqn:E; cbn [default from_option id].
  - rewrite IH, app_assoc, Forall_cons, E. naive_solver.
  - rewrite Forall_cons, E. split; [done|]. by intros [[[? [=]] _] _].
Qed.

Lemma normalize_some input out : normalize_rights input = Some out <->
  Forall (fun c => is_Some (letters_of c)) input
  /\ out = List.filter (has_letter (input ≫= fun c => default [] (letters_of c))) ALL_RIGHTS.
Proof.
  unfold normalize_rights. destruct (wanted_loop input []) as [wanted|] eqn:E; cbn [mbind option_bind].
  - apply wanted_loop_some in E as [Hall ->]. split; [intros [= <-]; by split | by intros [_ ->]].
  - split; [done|]. intros [Hall ->].
    assert (wanted_loop input [] = Some ([] ++ (input ≫= fun c => default [] (letters_of c)))) by by apply wanted_loop_some.
    congruence.
Qed.

Lemma letters_of_right c : c ∈ ALL_RIGHTS -> letters_of c = Some [c].
Proof.
  intros H. unfold ALL_RIGHTS in H. cbn in H.
  repeat (apply elem_of_cons in H as [->|H]; [reflexivity|]). by apply elem_of_nil in H.
Qed.

Lemma elem_of_filter_rights wanted c :
  c ∈ List.filter (has_letter wanted) ALL_RIGHTS <-> c ∈ wanted /\ c ∈ ALL_RIGHTS.
Proof. rewrite list_elem_of_In, filter_In, <-list_elem_of_In, has_letter_iff. tauto. Qed.

Lemma letters_of_rights c letters : letters_of c = Some letters -> letters ⊆ ALL_RIGHTS.
Proof.
  unfold letters_of. intros H. repeat case_decide;
    [injection H as <-; apply (bool_decide_unpack _); vm_compute; exact I..|].
  destruct (has_letter ALL_RIGHTS c) eqn:E; [|done]. apply has_letter_iff in E. injection H as <-.
  intros x ->%list_elem_of_singleton. done.
Qed.

(** The letters of a normal form are those the input stands for. *)
Lemma normalize_letters input out : normalize_rights input = Some out ->
  forall r, r ∈ out <-> exists c letters, c ∈ input /\ letters_of c = Some letters /\ r ∈ letters.
Proof.
  intros [Hall ->]%normalize_some r. rewrite elem_of_filter_rights, list_elem_of_bind. split.
  - intros [(c & Hr & Hc) _]. destruct (letters_of c) as [letters|] eqn:E; [|by apply elem_of_nil in Hr].
    by exists c, letters.
  - intros (c & letters & Hc & E & Hr). split; [exists c; rewrite E; by split|]. by eapply letters_of_rights.
Qed.

(** A part of the rights in their order is its own normal form. *)
Lemma normalize_part (p : byte -> bool) :
  normalize_rights (List.filter p ALL_RIGHTS) = Some (List.filter p ALL_RIGHTS).
Proof.
  apply normalize_some. split.
  - apply Forall_forall. intros c Hc%list_elem_of_In%filter_In. destruct Hc as [Hc%list_elem_of_In _].
    by rewrite letters_of_right.
  - assert (Hfix : forall l, l ⊆ ALL_RIGHTS -> (l ≫= fun c => default [] (letters_of c)) = l).
    { induction l as [|c l IH]; intros Hl; [done|]. cbn. rewrite letters_of_right by (apply Hl, elem_of_cons; by left). cbn.
      f_equal. apply IH. intros x Hx. apply Hl, elem_of_cons. by right. }
    rewrite Hfix by (intros c [Hc _]%list_elem_of_In%filter_In; by apply list_elem_of_In).
    apply filter_ext_in. intros c Hc. destruct (p c) eqn:E.
    + symmetry. apply has_letter_iff, list_elem_of_In, filter_In. by split.
    + symmetry. apply not_true_iff_false. rewrite has_letter_iff, list_elem_of_In, filter_In. intros [_ ?]. congruence.
Qed.

Lemma normalize_is_part input out : normalize_rights input = Some out -> exists p, out = List.filter p ALL_RIGHTS.
Proof. intros [_ ->]%normalize_some. eauto. Qed.

(** ** What the operations do *)

(** The rights a string of letters stands for. *)
Definition stands_for (input : list byte) (right : byte) : Prop :=
  exists c letters, c ∈ input /\ letters_of c = Some letters /\ right ∈ letters.

Lemma part_sublist (p : byte -> bool) l : List.filter p l `sublist_of` l.
Proof. induction l as [|c l IH]; cbn; [constructor|]. case_match; by constructor. Qed.

Lemma stands_for_rights current : current ⊆ ALL_RIGHTS -> forall r, stands_for current r <-> r ∈ current.
Proof.
  intros Hc r. split.
  - intros (c & letters & Hin & E & Hr). rewrite letters_of_right in E by by apply Hc. injection E as <-.
    apply list_elem_of_singleton in Hr. by subst.
  - intros Hr. exists r, [r]. split; [done|]. rewrite letters_of_right by by apply Hc. split; [done | set_solver].
Qed.

Lemma stands_for_app s t r : stands_for (s ++ t) r <-> stands_for s r \/ stands_for t r.
Proof. unfold stands_for. set_solver. Qed.

Lemma normalize_none input : normalize_rights input = None <-> exists c, c ∈ input /\ letters_of c = None.
Proof.
  destruct (decide (Forall (fun c => is_Some (letters_of c)) input)) as [Hall|Hall].
  - rewrite (proj2 (normalize_some _ _) (conj Hall eq_refl)). split; [done|]. intros (c & Hc & E).
    rewrite Forall_forall in Hall. apply Hall in Hc as [? ?]. congruence.
  - split; [intros _|].
    + apply not_Forall_Exists in Hall; [|apply _]. apply Exists_exists in Hall as (c & Hc & E).
      exists c. split; [done|]. by apply eq_None_not_Some.
    + intros _. destruct (normalize_rights input) eqn:E; [|done]. by apply normalize_some in E as [? _].
Qed.

(** Rights are refused exactly when a letter is unknown; otherwise they are kept as
    the letters they stand for ([c] for [k], [d] for [xte]), each once and in the order
    of RFC 4314, and normalising them again changes nothing. *)
Theorem rights_normal_form input :
  (normalize_rights input = None <-> exists c, c ∈ input /\ letters_of c = None)
  /\ forall out, normalize_rights input = Some out ->
     normalize_rights out = Some out /\ out `sublist_of` ALL_RIGHTS /\ NoDup out
     /\ forall r, r ∈ out <-> stands_for input r.
Proof.
  split; [apply normalize_none|]. intros out Hout. pose proof (normalize_letters _ _ Hout) as Hr.
  apply normalize_is_part in Hout as [p ->]. split_and!; [apply normalize_part | apply part_sublist | | exact Hr].
  apply (sublist_NoDup _ ALL_RIGHTS); [|apply part_sublist]. apply (bool_decide_unpack _). vm_compute. exact I.
Qed.

(** What SETACL means: the rights given, those added to what there was, or what there was
    without those taken away. *)
Definition meant (current : list byte) (rights : option (list byte)) (r : byte) : Prop :=
  match rights with
  | None => False
  | Some rights =>
      match rights with
      | c :: letters =>
          if decide (c = "+"%byte) then r ∈ current \/ stands_for letters r
          else if decide (c = "-"%byte) then r ∈ current /\ ~ stands_for letters r
          else stands_for rights r
      | [] => False
      end
  end.

Lemma strip_prefix_byte (p c : byte) (s : list byte) : strip_prefix [p] (c :: s) = if decide (c = p) then Some s else None.
Proof. unfold strip_prefix. simpl. rewrite take_0, drop_0. repeat case_decide; simplify_eq; done. Qed.

(** SETACL and DELETEACL leave exactly the rights they mean: [+] adds to what was
    there, [-] takes away what its letters stand for and nothing else, anything else
    replaces it. What is stored is in normal form. *)
Theorem set_rights_meant current rights out :
  current ⊆ ALL_RIGHTS -> set_rights current rights = Some out ->
  normalize_rights out = Some out /\ forall r, r ∈ out <-> meant current rights r.
Proof.
  intros Hc. unfold set_rights. destruct (wanted_rights current rights) as [wanted|] eqn:E; [|done].
  cbn [mbind option_bind]. intros Hout. assert (Hr : forall r, r ∈ out <-> stands_for wanted r) by exact (normalize_letters _ _ Hout).
  split; [apply normalize_is_part in Hout as [p ->]; apply normalize_part|].
  intros r. rewrite Hr. clear Hr Hout. unfold wanted_rights in E. destruct rights as [[|c s]|]; cbn [meant].
  - injection E as <-. unfold stands_for. set_solver.
  - change (bs "+") with ["+"%byte] in E. change (bs "-") with ["-"%byte] in E. rewrite !strip_prefix_byte in E.
    case_decide; [|case_decide].
    + injection E as <-. by rewrite stands_for_app, (stands_for_rights current).
    + destruct (normalize_rights s) as [removed|] eqn:Es; [|done]. injection E as <-.
      assert (Hrem : forall r, r ∈ removed <-> stands_for s r) by exact (normalize_letters _ _ Es). rewrite stands_for_rights.
      * rewrite list_elem_of_In, filter_In, <-list_elem_of_In, negb_true_iff, <-not_true_iff_false, has_letter_iff, Hrem. done.
      * intros x Hx%list_elem_of_In%filter_In. apply Hc, list_elem_of_In, Hx.
    + by injection E as <-.
  - injection E as <-. unfold stands_for. set_solver.
Qed.

(** The level a share is shown as is the one it was given. *)
Lemma level_round_trip level : level_of (level_rights level) = level /\ parse_level (as_str level) = Some level.
Proof. by destruct level. Qed.

(** ** Witnesses *)

Lemma rights_normal_form_witness :
  normalize_rights (bs "dcrl") = Some (bs "lrkxte") /\ NoDup (bs "lrkxte") /\ normalize_rights (bs "lz") = None.
Proof.
  destruct (rights_normal_form (bs "dcrl")) as [_ H]. destruct (rights_normal_form (bs "lz")) as [[_ Hn] _].
  split; [vm_compute; reflexivity|]. split; [apply (H (bs "lrkxte")); vm_compute; reflexivity|].
  apply Hn. exists "z"%byte. split; [apply list_elem_of_In; vm_compute; tauto | vm_compute; reflexivity].
Defined.

Lemma set_rights_meant_witness :
  set_rights (bs "lrswite") (Some (bs "-d")) = Some (bs "lrswi") /\ normalize_rights (bs "lrswi") = Some (bs "lrswi").
Proof.
  split; [vm_compute; reflexivity|].
  apply (set_rights_meant (bs "lrswite") (Some (bs "-d")) (bs "lrswi")); [|vm_compute; reflexivity].
  apply (bool_decide_unpack _). vm_compute. exact I.
Defined.
