(* ===== verification/ImapMailboxes.v ===== *)
(** * Mailbox names (crates\/uwumail-imap\/src\/mailboxes.rs)

    Mailboxes as IMAP shows them: full paths with [\/] between the levels, [INBOX] for
    the inbox ([named], [find], [normalize]), other people's mailboxes under
    [Shared\/<login>\/] ([shared_named]), and the LIST patterns ([matches]), whose walk
    over sets of positions is proved to accept what the wildcards mean. The data of a
    mailbox is the store's [ImapMailbox] (crates\/uwumail-store\/src\/imap.rs). *)

From stdpp Require Import sorting.
From S2P Require Import Prelude Utf8 Acl.

(** ** Data *)

Module MailboxRole.
Inductive MailboxRole : Type := Inbox | Drafts | Sent | Archive | Junk | Trash.
End MailboxRole.
Abbreviation MailboxRole := MailboxRole.MailboxRole.

#[export] Instance mailbox_role_eq_decision : EqDecision MailboxRole.
Proof. solve_decision. Defined.

Record ImapMailbox := {
  box_id : Z; parent_id : option Z; box_name : list byte; role : option MailboxRole; subscribed : bool;
  box_uid_validity : Z; box_uid_next : Z }.

Record Named := {
  named_mailbox : ImapMailbox; path : list byte; has_children : bool; named_owner : Z;
  named_rights : list byte; placeholder : bool }.

(** Someone else's mailbox the account may use (crates\/uwumail-store\/src\/acl.rs). *)
Record SharedMailbox := {
  owner_id : Z; owner_login : list byte; owner_name : list byte; shared_box : ImapMailbox; shared_rights : list byte }.

Definition SEPARATOR : byte := "/"%byte.
Definition SHARED_PREFIX : list byte := bs "Shared".
Definition INBOX : list byte := bs "INBOX".

Definition may (n : Named) (rights : list byte) : bool := negb (placeholder n) && has_rights (named_rights n) rights.

(** ** Paths *)

Definition is_inbox (m : ImapMailbox) : bool := bool_decide (role m = Some MailboxRole.Inbox /\ parent_id m = None).

(** A map of mailboxes by id, a later one in place of an earlier. *)
Definition by_id_of (mailboxes : list ImapMailbox) : gmap Z ImapMailbox :=
  foldl (fun m b => <[box_id b := b]> m) ∅ mailboxes.

(** The names from a mailbox up, at most [fuel] of them. *)
Fixpoint levels (fuel : nat) (by_id : gmap Z ImapMailbox) (mailbox : ImapMailbox) : list (list byte) :=
  match fuel with
  | O => []
  | S fuel =>
      if is_inbox mailbox then [INBOX]
      else box_name mailbox ::
        match parent ← parent_id mailbox; by_id !! parent with
        | Some parent => levels fuel by_id parent
        | None => []
        end
  end.

(** The loop ends once [depth > 64]. *)
Definition path_of (by_id : gmap Z ImapMailbox) (mailbox : ImapMailbox) : list byte :=
  join [SEPARATOR] (rev (levels 65 by_id mailbox)).

Definition rank (n : Named) : Z := if is_inbox (named_mailbox n) then 0 else 1.

(** INBOX first, then by path. *)
Definition named_le (a b : Named) : Prop :=
  (rank a <? rank b) || ((rank a =? rank b) && bytes_le (path a) (path b)) = true.

#[export] Instance named_le_dec : RelDecision named_le.
Proof. intros a b. unfold named_le. apply _. Defined.

Definition named (mailboxes : list ImapMailbox) (owner : Z) : list Named :=
  let by_id := by_id_of mailboxes in
  merge_sort named_le
    (map (fun mailbox =>
            {| named_mailbox := mailbox; path := path_of by_id mailbox;
               has_children := existsb (fun other => bool_decide (parent_id other = Some (box_id mailbox))) mailboxes;
               named_owner := owner; named_rights := ALL_RIGHTS; placeholder := false |}) mailboxes).

(** ** Shared mailboxes *)

(** The part behind the last separator. *)
Definition last_level (path : list byte) : list byte := default path (last (split_on SEPARATOR path)).

Definition placeholder_of (path : list byte) (owner : Z) : Named :=
  {| named_mailbox :=
       {| box_id := 0; parent_id := None; box_name := last_level path; role := None; subscribed := true;
          box_uid_validity := 1; box_uid_next := 1 |};
     path := path; has_children := true; named_owner := owner; named_rights := []; placeholder := true |}.

(** [by_path.entry(path).or_insert_with(placeholder)] *)
Definition or_placeholder (path : list byte) (owner : Z) (by_path : gmap (list byte) Named) : gmap (list byte) Named :=
  match by_path !! path with
  | Some _ => by_path
  | None => <[path := placeholder_of path owner]> by_path
  end.

(** The paths of an owner's mailboxes by id. *)
Definition paths_of (tree : list ImapMailbox) (owner : Z) : gmap Z (list byte) :=
  foldl (fun m n => <[box_id (named_mailbox n) := path n]> m) ∅ (named tree owner).

(** The levels above a path, nearest to the root first. *)
Definition ancestors (prefix own_path : list byte) : list (list byte) :=
  let parts := split_on SEPARATOR own_path in
  map (fun depth => prefix ++ [SEPARATOR] ++ join [SEPARATOR] (take depth parts)) (seq 1 (length parts - 1)).

Definition shared_prefix (login : list byte) : list byte := SHARED_PREFIX ++ [SEPARATOR] ++ login.

Definition shared_entry (e : SharedMailbox) (own_path : list byte) : Named :=
  let m := shared_box e in
  {| named_mailbox :=
       {| box_id := box_id m; parent_id := parent_id m; box_name := box_name m; role := None; subscribed := true;
          box_uid_validity := box_uid_validity m; box_uid_next := box_uid_next m |};
     path := shared_prefix (owner_login e) ++ [SEPARATOR] ++ own_path; has_children := false;
     named_owner := owner_id e; named_rights := shared_rights e; placeholder := false |}.

(** One shared mailbox and the levels above it. *)
Definition add_shared (trees : gmap Z (list ImapMailbox)) (by_path : gmap (list byte) Named) (e : SharedMailbox) :
    gmap (list byte) Named :=
  match paths_of (default [] (trees !! owner_id e)) (owner_id e) !! box_id (shared_box e) with
  | None => by_path
  | Some own_path =>
      let prefix := shared_prefix (owner_login e) in
      let by_path := or_placeholder prefix (owner_id e) by_path in
      let by_path := foldl (fun m ancestor => or_placeholder ancestor (owner_id e) m) by_path (ancestors prefix own_path) in
      <[path (shared_entry e own_path) := shared_entry e own_path]> by_path
  end.

Definition set_has_children (b : bool) (n : Named) : Named :=
  {| named_mailbox := named_mailbox n; path := path n; has_children := b; named_owner := named_owner n;
     named_rights := named_rights n; placeholder := placeholder n |}.

Definition key_le (a b : list byte * Named) : Prop := bytes_le a.1 b.1 = true.

#[export] Instance key_le_dec : RelDecision key_le.
Proof. intros a b. unfold key_le. apply _. Defined.

(** Sorted by path, as a [BTreeMap] is. *)
Definition shared_named (shared : list SharedMailbox) (trees : gmap Z (list ImapMailbox)) : list Named :=
  match shared with
  | [] => []
  | _ =>
      let by_path := foldl (add_shared trees) {[ SHARED_PREFIX := placeholder_of SHARED_PREFIX 0 ]} shared in
      let sorted := merge_sort key_le (map_to_list by_path) in
      map (fun '(path, n) =>
             set_has_children (existsb (fun other => starts_with (path ++ [SEPARATOR]) other) (map fst sorted)) n) sorted
  end.

(** The account's own mailboxes, then the shared ones whose path is not taken. *)
Definition all_named (own : list Named) (shared : list Named) : list Named :=
  foldl (fun named entry =>
           if existsb (fun o => bool_decide (path o = path entry)) named then named else named ++ [entry]) own shared.

Definition split_shared (path : list byte) : option (list byte * list byte) :=
  rest ← strip_prefix SHARED_PREFIX path;
  rest ← strip_prefix [SEPARATOR] rest;
  split_once SEPARATOR rest.

(** ** Looking up *)

(** [trim_end_matches(SEPARATOR)] *)
Fixpoint drop_separators (s : list byte) : list byte :=
  match s with
  | b :: s' => if decide (b = SEPARATOR) then drop_separators s' else s
  | [] => []
  end.

Definition trim_separators (path : list byte) : list byte := rev (drop_separators (rev path)).

Definition normalize (path : list byte) : list byte :=
  let trimmed := trim_separators path in
  match split_once SEPARATOR trimmed with
  | Some (first, rest) => if eq_ignore_ascii_case first INBOX then INBOX ++ [SEPARATOR] ++ rest else trimmed
  | None => if eq_ignore_ascii_case trimmed INBOX then INBOX else trimmed
  end.

Definition find (named : list Named) (p : list byte) : option Named :=
  let p := normalize p in List.find (fun n => bool_decide (path n = p)) named.

(** ** LIST patterns *)

Definition star : Z := 42.
Definition percent : Z := 37.
Definition slash : Z := 47.

Definition is_wild (p : Z) : bool := (p =? star) || (p =? percent).

(** A wildcard may also match nothing: one pass over the positions, in order. *)
Fixpoint close (pattern : list Z) (reached : list bool) : list bool :=
  match pattern, reached with
  | p :: pattern, r :: next :: reached => r :: close pattern ((next || (r && is_wild p)) :: reached)
  | _, _ => reached
  end.

(** The positions reached after a character: [carry] is what the position before sets. *)
Fixpoint advance (c : Z) (pattern : list Z) (reached : list bool) (carry : bool) : list bool :=
  match pattern, reached with
  | p :: pattern, r :: reached =>
      let stay := r && ((p =? star) || ((p =? percent) && negb (c =? slash))) in
      let move := r && negb (is_wild p) && (p =? c) in
      (carry || stay) :: advance c pattern reached move
  | _, _ => [carry]
  end.

Fixpoint walk (pattern path : list Z) (reached : list bool) : bool :=
  match path with
  | [] => default false (reached !! length pattern)
  | c :: path =>
      let next := close pattern (advance c pattern reached false) in
      if existsb id next then walk pattern path next else false
  end.

Definition matches_chars (pattern path : list Z) : bool :=
  if 255 <? Z.of_nat (length pattern) then false
  else walk pattern path (close pattern (true :: replicate (length pattern) false)).

Definition normalize_pattern (pattern : list byte) : list byte :=
  if bool_decide (5 <= length pattern)%nat && eq_ignore_ascii_case (take 5 pattern) INBOX
     && match drop 5 pattern with c :: _ => bool_decide (c = SEPARATOR) | [] => true end
  then INBOX ++ drop 5 pattern else pattern.

(** Both are strings: their bytes are those of characters. *)
Definition matches (pattern path : list byte) : bool :=
  match chars (normalize_pattern pattern), chars path with
  | Some pattern, Some path => matches_chars pattern path
  | _, _ => false
  end.

Definition special_use (role : option MailboxRole) : option (list byte) :=
  role ← role;
  match role with
  | MailboxRole.Inbox => None
  | MailboxRole.Drafts => Some (bs "\Drafts")
  | MailboxRole.Sent => Some (bs "\Sent")
  | MailboxRole.Archive => Some (bs "\Archive")
  | MailboxRole.Junk => Some (bs "\Junk")
  | MailboxRole.Trash => Some (bs "\Trash")
  end.

(** What the wildcards mean: [*] is any characters, [%] any without the separator. *)
Inductive glob : list Z -> list Z -> Prop :=
  | glob_nil : glob [] []
  | glob_char c pattern path : is_wild c = false -> glob pattern path -> glob (c :: pattern) (c :: path)
  | glob_nothing p pattern path : is_wild p = true -> glob pattern path -> glob (p :: pattern) path
  | glob_star c pattern path : glob (star :: pattern) path -> glob (star :: pattern) (c :: path)
  | glob_percent c pattern path : c <> slash -> glob (percent :: pattern) path -> glob (percent :: pattern) (c :: path).

(** ** Lemmas: patterns *)

(** From some position reached, the rest of the pattern means the rest of the path. *)
Fixpoint accepts (pattern : list Z) (reached : list bool) (s : list Z) {struct reached} : Prop :=
  match reached with
  | [] => False
  | r :: reached =>
      (r = true /\ glob pattern s) \/ match pattern with _ :: pattern => accepts pattern reached s | [] => False end
  end.

(** Behind a wildcard reached, the next position is reached. *)
Fixpoint closed (pattern : list Z) (reached : list bool) : Prop :=
  match pattern, reached with
  | p :: pattern, r :: reached => (r = true -> is_wild p = true -> head reached = Some true) /\ closed pattern reached
  | _, _ => True
  end.

Lemma length_close pattern : forall reached, length (close pattern reached) = length reached.
Proof.
  induction pattern as [|p pattern IH]; intros [|r [|n reached]]; try done. cbn [close length].
  by rewrite (IH ((n || (r && is_wild p)) :: reached)).
Qed.

Lemma length_advance c pattern : forall reached carry, length reached = S (length pattern) ->
  length (advance c pattern reached carry) = S (length pattern).
Proof.
  induction pattern as [|p pattern IH]; intros [|r reached] carry H; try done. cbn [advance length] in *.
  by rewrite IH by lia.
Qed.

Lemma head_close pattern reached r : head reached = Some r -> head (close pattern reached) = Some r.
Proof. destruct pattern, reached as [|r' [|n reached]]; done. Qed.

Lemma close_closed pattern : forall reached, length reached = S (length pattern) -> closed pattern (close pattern reached).
Proof.
  induction pattern as [|p pattern IH]; intros [|r [|n reached]] H; try done. cbn [close closed]. split.
  - intros -> Hw. rewrite Hw. apply head_close. cbn. by rewrite orb_true_r.
  - apply IH. cbn [length] in *. lia.
Qed.

Lemma accepts_cons pattern r reached s : accepts pattern (r :: reached) s <->
  (r = true /\ glob pattern s) \/ match pattern with _ :: pattern => accepts pattern reached s | [] => False end.
Proof. done. Qed.

Lemma close_accepts pattern s : forall reached, length reached = S (length pattern) ->
  accepts pattern (close pattern reached) s <-> accepts pattern reached s.
Proof.
  induction pattern as [|p pattern IH]; intros [|r [|n reached]] H; try done. cbn [close].
  rewrite accepts_cons, IH, !accepts_cons by (cbn [length] in *; lia).
  destruct r, (is_wild p) eqn:E, n; cbn [orb andb]; try tauto; try naive_solver.
  split; [|naive_solver]. intros [?|[[_ H1]|?]]; [tauto | left; split; [done | by apply glob_nothing] | tauto].
Qed.

(** What the first position reached accepts, a later one does where it ends. *)
Lemma advance_accepts c s pattern : forall reached carry,
  length reached = S (length pattern) -> closed pattern reached ->
  accepts pattern (advance c pattern reached carry) s <->
  (carry = true /\ glob pattern s) \/ accepts pattern reached (c :: s).
Proof.
  induction pattern as [|p pattern IH]; intros [|r reached] carry Hlen Hc; try done.
  - cbn [advance accepts]. destruct reached; [|done].
    split; [tauto|]. intros [?|[[_ H]|[]]]; [tauto|]. inversion H.
  - destruct Hc as [Hw Hc]. cbn [advance accepts]. rewrite IH by (cbn in *; lia || done).
    assert (Hmove : (r && negb (is_wild p) && (p =? c) = true /\ glob pattern s)
                    \/ (r && ((p =? star) || (p =? percent) && negb (c =? slash)) = true /\ glob (p :: pattern) s)
                    \/ accepts pattern reached (c :: s)
                    <-> (r = true /\ glob (p :: pattern) (c :: s)) \/ accepts pattern reached (c :: s)).
    { split.
      - intros [[H Hg]|[[H Hg]|H]]; [| |tauto].
        + apply andb_true_iff in H as [[-> Hn]%andb_true_iff ->%Z.eqb_eq]. left. split; [done|].
          apply glob_char; [by apply negb_true_iff | done].
        + apply andb_true_iff in H as [-> H]. left. split; [done|]. apply orb_true_iff in H as [->%Z.eqb_eq|H].
          * by apply glob_star.
          * apply andb_true_iff in H as [->%Z.eqb_eq H]. apply glob_percent; [lia | done].
      - intros [[-> Hg]|H]; [|tauto]. inversion Hg as [|x pat pa Hx Hg'|x pat pa Hx Hg'|x pat pa Hg'|x pat pa Hx Hg']; subst.
        + left. rewrite Hx, Z.eqb_refl. done.
        + right. right. specialize (Hw eq_refl Hx). destruct reached as [|r' reached]; [done|]. injection Hw as ->.
          apply accepts_cons. by left.
        + right. left. done.
        + right. left. by replace (c =? slash) with false by lia. }
    destruct carry; cbn [orb]; naive_solver.
Qed.

Lemma accepts_none pattern s : forall reached, existsb id reached = false -> ~ accepts pattern reached s.
Proof.
  intros reached. revert pattern. induction reached as [|r reached IH]; intros pattern H; [by intros []|].
  cbn [existsb id] in H. apply orb_false_iff in H as [Hr H]. unfold id in Hr. subst. cbn [accepts].
  intros [[? _]|Ha]; [done|]. destruct pattern; [done|]. by eapply IH.
Qed.

Lemma accepts_end pattern : forall reached, length reached = S (length pattern) -> closed pattern reached ->
  accepts pattern reached [] <-> default false (reached !! length pattern) = true.
Proof.
  induction pattern as [|p pattern IH]; intros [|r reached] Hlen Hc; try done.
  - cbn. destruct reached; [|done]. destruct r; naive_solver (constructor || done).
  - destruct Hc as [Hw Hc]. cbn [accepts length lookup list_lookup]. rewrite <-IH by (cbn in *; lia || done).
    split; [|tauto]. intros [[-> Hg]|?]; [|done]. inversion Hg as [| |x pat pa Hx Hg'| |]; subst.
    specialize (Hw eq_refl Hx). destruct reached as [|r' reached]; [done|]. injection Hw as ->. apply accepts_cons. by left.
Qed.

Lemma walk_accepts pattern path : forall reached, length reached = S (length pattern) -> closed pattern reached ->
  walk pattern path reached = true <-> accepts pattern reached path.
Proof.
  induction path as [|c path IH]; intros reached Hlen Hc; cbn [walk].
  { by rewrite accepts_end. }
  assert (Ha : length (advance c pattern reached false) = S (length pattern)) by by apply length_advance.
  pose proof (advance_accepts c path pattern reached false Hlen Hc) as Hs.
  rewrite <-(close_accepts _ _ _ Ha) in Hs.
  destruct (existsb id _) eqn:E.
  - rewrite IH; [naive_solver | by rewrite length_close | by apply close_closed].
  - apply accepts_none with (pattern := pattern) (s := path) in E. naive_solver.
Qed.

Lemma accepts_start pattern path : accepts pattern (true :: replicate (length pattern) false) path <-> glob pattern path.
Proof.
  cbn [accepts]. split; [|tauto]. intros [[_ ?]|H]; [done|]. destruct pattern as [|p pattern]; [done|]. exfalso.
  revert H. apply accepts_none. cbn [length]. generalize (S (length pattern)). intros n. by induction n.
Qed.

(** LIST and LSUB show the mailboxes their pattern means: [*] stands for any
    characters, [%] for any but the separator. Keeping the set of positions reached
    accepts exactly what trying every split for every wildcard would, for patterns of
    up to 255 characters; longer ones match nothing. *)
Theorem matches_chars_glob pattern path :
  matches_chars pattern path = true <-> Z.of_nat (length pattern) <= 255 /\ glob pattern path.
Proof.
  unfold matches_chars. destruct (Z.ltb_spec 255 (Z.of_nat (length pattern))); [naive_solver lia|].
  rewrite walk_accepts.
  - rewrite close_accepts, accepts_start by (cbn; by rewrite length_replicate). naive_solver.
  - rewrite length_close. cbn. by rewrite length_replicate.
  - apply close_closed. cbn. by rewrite length_replicate.
Qed.

(** ** Lemmas: who may do what where *)

(** An entry of the shared namespace: a level without rights, or something shared. *)
Definition shared_ok (shared : list SharedMailbox) (n : Named) : Prop :=
  placeholder n = true \/
  exists e, e ∈ shared /\ named_owner n = owner_id e /\ box_id (named_mailbox n) = box_id (shared_box e)
    /\ named_rights n = shared_rights e /\ starts_with (shared_prefix (owner_login e) ++ [SEPARATOR]) (path n) = true.

Lemma or_placeholder_ok shared p owner m :
  map_Forall (fun _ => shared_ok shared) m -> map_Forall (fun _ => shared_ok shared) (or_placeholder p owner m).
Proof.
  intros H. unfold or_placeholder. destruct (m !! p); [done|]. apply map_Forall_insert_2; [by left | done].
Qed.

Lemma add_shared_ok shared trees m e : e ∈ shared ->
  map_Forall (fun _ => shared_ok shared) m -> map_Forall (fun _ => shared_ok shared) (add_shared trees m e).
Proof.
  intros He H. unfold add_shared. destruct (_ !! _) as [own_path|]; [|done]. apply map_Forall_insert_2.
  - right. exists e. split_and!; try done. unfold shared_entry. cbn [path]. apply bool_decide_eq_true.
    by rewrite app_assoc, take_app_length.
  - assert (Hfold : forall l m, map_Forall (fun _ => shared_ok shared) m ->
      map_Forall (fun _ => shared_ok shared) (foldl (fun m ancestor => or_placeholder ancestor (owner_id e) m) m l)).
    { induction l as [|a l IH]; intros m' Hm'; [done|]. by apply IH, or_placeholder_ok. }
    by apply Hfold, or_placeholder_ok.
Qed.

Lemma shared_named_ok shared trees n : n ∈ shared_named shared trees -> shared_ok shared n.
Proof.
  unfold shared_named. destruct shared as [|e0 shared']; [by intros ?%elem_of_nil|].
  set (by_path := foldl _ _ _).
  assert (Hok : map_Forall (fun _ => shared_ok (e0 :: shared')) by_path).
  { unfold by_path. assert (Hfold : forall l m, l ⊆ e0 :: shared' -> map_Forall (fun _ => shared_ok (e0 :: shared')) m ->
      map_Forall (fun _ => shared_ok (e0 :: shared')) (foldl (add_shared trees) m l)).
    { induction l as [|e l IH]; intros m Hl Hm; [done|]. apply IH; [set_solver|]. apply add_shared_ok; [set_solver | done]. }
    apply Hfold; [reflexivity|]. apply map_Forall_singleton. by left. }
  intros ([p x] & -> & Hx)%list_elem_of_fmap. rewrite merge_sort_Permutation in Hx.
  apply elem_of_map_to_list, Hok in Hx. exact Hx.
Qed.

Lemma elem_of_all_named shared : forall own n, n ∈ all_named own shared -> n ∈ own \/ n ∈ shared.
Proof.
  unfold all_named. induction shared as [|e shared IH]; intros own n H; cbn [foldl] in H; [by left|].
  apply IH in H as [H|H]; [|right; by right]. case_match; [by left|].
  apply elem_of_app in H as [H|H%list_elem_of_singleton]; [by left | right; subst; by left].
Qed.

Lemma elem_of_named n boxes me : n ∈ named boxes me -> named_owner n = me /\ named_mailbox n ∈ boxes /\ placeholder n = false.
Proof. unfold named. rewrite merge_sort_Permutation. by intros (m & -> & Hm)%list_elem_of_fmap. Qed.

Lemma find_some named p n : find named p = Some n -> n ∈ named /\ path n = normalize p.
Proof. intros [Hin Hp%bool_decide_eq_true]%find_some. split; [by apply list_elem_of_In | done]. Qed.

(** A name only ever leads to a mailbox the account may use that way: what [find]
    gives for a path, and [may] allows, is one of the account's own mailboxes or one
    that is shared with it with all of those rights. The levels listed above a shared
    mailbox allow nothing. *)
Theorem found_is_allowed me boxes shared trees p rights n :
  find (all_named (named boxes me) (shared_named shared trees)) p = Some n -> may n rights = true ->
  path n = normalize p /\
  ((named_owner n = me /\ named_mailbox n ∈ boxes) \/
   exists e, e ∈ shared /\ named_owner n = owner_id e /\ box_id (named_mailbox n) = box_id (shared_box e)
     /\ has_rights (shared_rights e) rights = true).
Proof.
  intros [Hin Hp]%find_some [Hplace Hmay]%andb_true_iff. apply negb_true_iff in Hplace. split; [done|].
  apply elem_of_all_named in Hin as [Hin|Hin].
  - apply elem_of_named in Hin as (? & ? & _). by left.
  - apply shared_named_ok in Hin as [H|(e & He & Ho & Hb & Hr & _)]; [congruence|].
    right. exists e. split_and!; congruence.
Qed.

Lemma all_named_app shared : forall own, exists l, all_named own shared = own ++ l.
Proof.
  unfold all_named. induction shared as [|e shared IH]; intros own; cbn [foldl]; [exists []; by rewrite app_nil_r|].
  case_match; [apply IH|]. destruct (IH (own ++ [e])) as [l ->]. exists (e :: l). by rewrite <-app_assoc.
Qed.

(** An own folder of the same name wins over a shared one. *)
Lemma own_mailbox_wins own shared p n : find own p = Some n -> find (all_named own shared) p = Some n.
Proof.
  unfold find. destruct (all_named_app shared own) as [l ->]. induction own as [|o own IH]; [done|].
  cbn [app List.find]. by destruct (bool_decide _).
Qed.

(** ** Examples *)

Definition box (id : Z) (parent : option Z) (name : string) (r : option MailboxRole) : ImapMailbox :=
  {| box_id := id; parent_id := parent; box_name := bs name; role := r; subscribed := true;
     box_uid_validity := 1; box_uid_next := 1 |}.

Definition own_boxes : list ImapMailbox :=
  [box 1 None "Posteingang" (Some MailboxRole.Inbox); box 2 (Some 1) "Rechnungen" None; box 3 None "Projekte" None;
   box 4 (Some 3) "UwUMail" None; box 5 None "Sent" (Some MailboxRole.Sent)].

Example paths_of_own_boxes :
  map path (named own_boxes 1) = [bs "INBOX"; bs "INBOX/Rechnungen"; bs "Projekte"; bs "Projekte/UwUMail"; bs "Sent"]
  /\ (box_id ∘ named_mailbox <$> find (named own_boxes 1) (bs "inbox/Rechnungen/")) = Some 2
  /\ find (named own_boxes 1) (bs "projekte") = None.
Proof. vm_compute. done. Qed.

(** Leni shares [Projekte\/UwUMail], to be read, with account 7. *)
Definition lenis : SharedMailbox :=
  {| owner_id := 1; owner_login := bs "leni"; owner_name := bs "Leni"; shared_box := box 4 (Some 3) "UwUMail" None;
     shared_rights := bs "lr" |}.

Definition mini_sees : list Named := all_named (named [box 9 None "Inbox" (Some MailboxRole.Inbox)] 7) (shared_named [lenis] {[ 1 := own_boxes ]}).

Example shared_levels :
  map (fun n => (path n, placeholder n)) mini_sees
  = [(bs "INBOX", false); (bs "Shared", true); (bs "Shared/leni", true); (bs "Shared/leni/Projekte", true);
     (bs "Shared/leni/Projekte/UwUMail", false)].
Proof. vm_compute. reflexivity. Qed.

Lemma found_is_allowed_witness :
  exists n, find mini_sees (bs "Shared/leni/Projekte/UwUMail/") = Some n /\ may n (bs "r") = true
    /\ path n = bs "Shared/leni/Projekte/UwUMail".
Proof.
  exists (shared_entry lenis (bs "Projekte/UwUMail")).
  assert (Hf : find mini_sees (bs "Shared/leni/Projekte/UwUMail/") = Some (shared_entry lenis (bs "Projekte/UwUMail")))
    by (vm_compute; reflexivity).
  split; [exact Hf|]. split; [vm_compute; reflexivity|].
  exact (proj1 (found_is_allowed 7 [box 9 None "Inbox" (Some MailboxRole.Inbox)] [lenis] {[ 1 := own_boxes ]}
    (bs "Shared/leni/Projekte/UwUMail/") (bs "r") (shared_entry lenis (bs "Projekte/UwUMail")) Hf eq_refl)).
Defined.

Example patterns :
  matches (bs "*") (bs "Projekte/UwUMail") = true /\ matches (bs "%") (bs "Projekte/UwUMail") = false
  /\ matches (bs "Projekte/%") (bs "Projekte/UwUMail") = true /\ matches (bs "Inbox/*") (bs "INBOX/Rechnungen") = true
  /\ matches (bs "Inboxen") (bs "INBOX") = false.
Proof. vm_compute. done. Qed.
