(* ===== verification/ImapSession.v ===== *)
(** * A selected mailbox (crates\/uwumail-imap\/src\/session.rs)

    What the client believes a mailbox holds ([Selected]), and the functions of the
    session that keep that in step with the store: [refresh] tells the client what
    changed, [report_removed] what it removed itself, [recheck_rights] reads the rights
    of a shared mailbox again. What the store answers at the time of a call is an
    argument: between two calls other connections may have changed anything. What is
    sent is a list of untagged answers, [untagged_text] their bytes. A mailbox has fewer
    than 2^32 messages, since their UIDs are different [u32]s, so counts and positions
    need no wrapping. *)

From S2P Require Import Prelude ImapCommand ImapResponse Acl.

(** ** Data of the store (crates\/uwumail-store\/src\/imap.rs) *)

Record ImapMessage := {
  message_uid : Z; message_email_id : Z; message_modseq : Z; message_keywords : list (list byte) }.

(** The messages of a mailbox, sorted by UID. *)
Record ImapMessages := {
  state_uid_validity : Z; state_uid_next : Z; state_highest_modseq : Z; state_sharing_modseq : Z;
  state_messages : list ImapMessage }.

(** The errors the session tells apart. *)
Inductive StoreError := NotFound | QuotaExceeded | Rule (message : list byte) | OtherError.

Inductive answer (A : Type) := Got (a : A) | Broken (e : StoreError).
Arguments Got {A} a.
Arguments Broken {A} e.

(** ** State *)

Record Known := { known_uid : Z; known_modseq : Z; known_keywords : list (list byte); expunged : bool }.

Record Selected := {
  mailbox_id : Z; owner : Z; rights : list byte; read_only : bool; messages : list Known;
  highest_modseq : Z; sharing_modseq : Z }.

Definition set_messages (m : list Known) (s : Selected) : Selected :=
  {| mailbox_id := mailbox_id s; owner := owner s; rights := rights s; read_only := read_only s; messages := m;
     highest_modseq := highest_modseq s; sharing_modseq := sharing_modseq s |}.

Definition set_rights_of (r : list byte) (ro : bool) (s : Selected) : Selected :=
  {| mailbox_id := mailbox_id s; owner := owner s; rights := r; read_only := ro; messages := messages s;
     highest_modseq := highest_modseq s; sharing_modseq := sharing_modseq s |}.

Definition set_modseqs (highest sharing : Z) (s : Selected) : Selected :=
  {| mailbox_id := mailbox_id s; owner := owner s; rights := rights s; read_only := read_only s; messages := messages s;
     highest_modseq := highest; sharing_modseq := sharing |}.

(** What the client enabled. *)
Record Enabled := { utf8 : bool; condstore : bool; qresync : bool; rev2 : bool }.

(** ** Untagged answers *)

(** [FetchItems] keeps, beside the items as they are written, the flags and the UID that
    are among them. [Raw] are the bytes of an answer that was given up after they were
    sent. *)
Inductive Untagged :=
  | Exists_ (n : Z)
  | Recent
  | Expunge_ (n : Z)
  | Vanished (uids : list Z)
  | VanishedEarlier (uids : list Z)
  | Fetch_ (n : Z) (flags : option (list (list byte))) (uid modseq : option Z)
  | FetchItems (n : Z) (items : list byte) (flags : option (list (list byte))) (uid : option Z)
  | FetchEarlier (n uid : Z) (flags : list (list byte)) (modseq : Z)
  | Line (text : list byte)
  | Raw (bytes : list byte).

Definition CRLF : list byte := [x0d; x0a].

Definition numbered (n : Z) (text : list byte) : list byte := bs "* " ++ dec n ++ bs " " ++ text ++ CRLF.

Definition untagged_text (u : Untagged) : list byte :=
  match u with
  | Exists_ n => numbered n (bs "EXISTS")
  | Recent => bs "* 0 RECENT" ++ CRLF
  | Expunge_ n => numbered n (bs "EXPUNGE")
  | Vanished uids => bs "* VANISHED " ++ sequence_set_text uids ++ CRLF
  | VanishedEarlier uids => bs "* VANISHED (EARLIER) " ++ sequence_set_text uids ++ CRLF
  | Fetch_ n fl uid modseq =>
      numbered n (bs "FETCH (" ++
        join (bs " ")
          (match fl with Some fl => [bs "FLAGS " ++ flags fl] | None => [] end
           ++ match uid with Some uid => [bs "UID " ++ dec uid] | None => [] end
           ++ match modseq with Some m => [bs "MODSEQ (" ++ dec m ++ bs ")"] | None => [] end) ++ bs ")")
  | FetchItems n items _ _ => numbered n (bs "FETCH (" ++ items ++ bs ")")
  | FetchEarlier n uid fl modseq =>
      numbered n (bs "FETCH (UID " ++ dec uid ++ bs " FLAGS " ++ flags fl ++ bs " MODSEQ (" ++ dec modseq ++ bs "))")
  | Line text => bs "* " ++ text ++ CRLF
  | Raw bytes => bytes
  end.

(** ** Looking at the selection *)

(** [index as u32 + 1] *)
Definition seq_of (index : nat) : Z := Z.of_nat index + 1.

Definition largest_uid (s : Selected) : Z := match last (messages s) with Some k => known_uid k | None => 0 end.

(** The 0-based positions of the elements a test accepts, in order. *)
Definition positions_of {A} (p : A -> bool) (l : list A) : list nat :=
  List.filter (fun i => match l !! i with Some a => p a | None => false end) (seq 0 (length l)).

Definition resolve (s : Selected) (set : SequenceSet) (uid : bool) : list nat :=
  if uid then positions_of (fun k => contains set (known_uid k) (largest_uid s)) (messages s)
  else List.filter (fun i => contains set (seq_of i) (Z.of_nat (length (messages s)))) (seq 0 (length (messages s))).

(** The UIDs are in order, so the binary search finds the one position there is. *)
Definition position (s : Selected) (uid : Z) : option nat := Prelude.position (fun k => known_uid k =? uid) (messages s).

Definition is_gone (uids : list Z) (k : Known) : bool := bool_decide (known_uid k ∈ uids).

Definition forget (s : Selected) (uids : list Z) : list nat * Selected :=
  (rev (positions_of (is_gone uids) (messages s)),
   set_messages (List.filter (fun k => negb (is_gone uids k)) (messages s)) s).

(** Messages this session removed. *)
Definition report_removed (e : Enabled) (uids : list Z) (s : Selected) : list Untagged * Selected :=
  match uids with
  | [] => ([], s)
  | _ =>
      let '(positions, s) := forget s uids in
      (if qresync e then [Vanished uids] else map (fun i => Expunge_ (seq_of i)) positions, s)
  end.

(** ** Rights *)

(** What is left of a share for reading: nothing without [r]. *)
Definition readable (shared : option (list byte)) : option (list byte) :=
  r ← shared; if has_letter r "r"%byte then Some r else None.

Inductive Rechecked := Holds (s : Selected) | NoLongerShared.

(** [shared]: the rights the mailbox is shared with now, if it is. *)
Definition recheck_rights (me : Z) (end_if_gone : bool) (shared : option (list byte)) (s : Selected) : Rechecked :=
  if owner s =? me then Holds s
  else
    match readable shared with
    | Some r => Holds (set_rights_of r (read_only s || negb (may_change r)) s)
    | None => if end_if_gone then NoLongerShared else Holds (set_rights_of [] true s)
    end.

(** ** Telling the client about changes *)

Definition current_of (state : ImapMessages) : gmap Z ImapMessage :=
  foldl (fun m message => <[message_uid message := message]> m) ∅ (state_messages state).

Definition mark (current : gmap Z ImapMessage) (k : Known) : Known :=
  match current !! known_uid k with
  | Some _ => k
  | None => {| known_uid := known_uid k; known_modseq := known_modseq k; known_keywords := known_keywords k; expunged := true |}
  end.

(** The last first, so that the numbers of those before stay. *)
Fixpoint expunge_loop (n : nat) (messages : list Known) : list Known * list Untagged :=
  match n with
  | O => (messages, [])
  | S index =>
      match messages !! index with
      | Some k =>
          if expunged k then
            let '(messages, out) := expunge_loop index (delete index messages) in
            (messages, Expunge_ (seq_of index) :: out)
          else expunge_loop index messages
      | None => expunge_loop index messages
      end
  end.

Definition report_expunges (e : Enabled) (messages : list Known) : list Known * list Untagged :=
  let gone := map known_uid (List.filter expunged messages) in
  match gone with
  | [] => (messages, [])
  | _ =>
      if qresync e then (List.filter (fun k => negb (expunged k)) messages, [Vanished gone])
      else expunge_loop (length messages) messages
  end.

Definition updated (message : ImapMessage) (k : Known) : Known :=
  {| known_uid := known_uid k; known_modseq := message_modseq message; known_keywords := message_keywords message;
     expunged := expunged k |}.

Fixpoint tell_changes (e : Enabled) (current : gmap Z ImapMessage) (index : nat) (messages : list Known) :
    list Known * list Untagged :=
  match messages with
  | [] => ([], [])
  | k :: messages =>
      let '(messages, out) := tell_changes e current (S index) messages in
      match current !! known_uid k with
      | Some message =>
          if decide (message_keywords message <> known_keywords k \/ message_modseq message <> known_modseq k) then
            let k := updated message k in
            (k :: messages,
             Fetch_ (seq_of index) (Some (known_keywords k))
               (if condstore e then Some (known_uid k) else None)
               (if condstore e then Some (known_modseq k) else None) :: out)
          else (k :: messages, out)
      | None => (k :: messages, out)
      end
  end.

Definition known_of (message : ImapMessage) : Known :=
  {| known_uid := message_uid message; known_modseq := message_modseq message;
     known_keywords := message_keywords message; expunged := false |}.

Definition new_messages (state : ImapMessages) (largest : Z) : list Known :=
  map known_of (List.filter (fun m => largest <? message_uid m) (state_messages state)).

(** The new state of a mailbox, told to the client. *)
Definition catch_up (e : Enabled) (expunges : bool) (state : ImapMessages) (s : Selected) : list Untagged * Selected :=
  let current := current_of state in
  let marked := map (mark current) (messages s) in
  let '(kept, removed) := if expunges then report_expunges e marked else (marked, []) in
  let '(told, changes) := tell_changes e current 0 kept in
  let new := new_messages state (largest_uid (set_messages told s)) in
  let all := told ++ new in
  let added := match new with
               | [] => []
               | _ => Exists_ (Z.of_nat (length all)) :: (if rev2 e then [] else [Recent])
               end in
  (removed ++ changes ++ added,
   set_modseqs (state_highest_modseq state) (state_sharing_modseq state) (set_messages all s)).

Inductive Refreshed :=
  | Same
  | Told (out : list Untagged) (s : Selected)
  | Ended (bye : list byte)
  | Failed.

Definition BYE_NOT_SHARED : list byte := bs "BYE The selected mailbox is no longer shared with you".
Definition BYE_DELETED : list byte := bs "BYE The selected mailbox was deleted".

(** What the store answers along the way: the modseqs of the mailbox, the rights of the
    share (asked for other people's mailboxes), the messages. *)
Definition refresh (e : Enabled) (me : Z) (expunges : bool) (modseqs : answer (option (Z * Z)))
    (shared : answer (option (list byte))) (state : answer ImapMessages) (s : Selected) : Refreshed :=
  match modseqs with
  | Broken _ => Failed
  | Got modseqs =>
      if bool_decide (modseqs = Some (highest_modseq s, sharing_modseq s))
         && negb (expunges && existsb expunged (messages s))
      then Same
      else
        match (if owner s =? me then Got None
               else match shared with
                    | Got shared => Got (Some (default [] (readable shared)))
                    | Broken e => Broken e
                    end) with
        | Broken _ => Failed
        | Got now =>
            match state with
            | Got state =>
                if bool_decide (now = Some []) then Ended BYE_NOT_SHARED
                else
                  let s := match now with Some r => set_rights_of r (read_only s) s | None => s end in
                  let '(out, s) := catch_up e expunges state s in Told out s
            | Broken NotFound => Ended BYE_DELETED
            | Broken _ => Failed
            end
        end
  end.

(** ** Examples *)

Definition message (uid modseq : Z) (keywords : list string) : ImapMessage :=
  {| message_uid := uid; message_email_id := uid + 100; message_modseq := modseq; message_keywords := map bs keywords |}.

Definition mailbox_at (modseq uid_next : Z) (messages : list ImapMessage) : ImapMessages :=
  {| state_uid_validity := 1; state_uid_next := uid_next; state_highest_modseq := modseq; state_sharing_modseq := 0;
     state_messages := messages |}.

Definition selected_at (state : ImapMessages) : Selected :=
  {| mailbox_id := 1; owner := 1; rights := ALL_RIGHTS; read_only := false; messages := map known_of (state_messages state);
     highest_modseq := state_highest_modseq state; sharing_modseq := 0 |}.

Definition plain : Enabled := {| utf8 := false; condstore := false; qresync := false; rev2 := false |}.

Definition three : ImapMessages := mailbox_at 5 4 [message 1 1 []; message 2 2 ["$seen"]; message 3 3 []]%string.
Definition then_two : ImapMessages := mailbox_at 9 5 [message 2 7 ["$flagged"; "$seen"]; message 4 9 []]%string.

Example a_refresh :
  (fun r => match r with Told out _ => mjoin (map untagged_text out) | _ => [] end)
    (refresh plain 1 true (Got (Some (9, 0))) (Got None) (Got then_two) (selected_at three))
  = bs "* 3 EXPUNGE" ++ CRLF ++ bs "* 1 EXPUNGE" ++ CRLF ++ bs "* 1 FETCH (FLAGS (\Flagged \Seen))" ++ CRLF
    ++ bs "* 2 EXISTS" ++ CRLF ++ bs "* 0 RECENT" ++ CRLF.
Proof. vm_compute. reflexivity. Qed.
