(* ===== verification/ImapSessionSync.v ===== *)
(** * The client stays in step (crates\/uwumail-imap\/src\/session.rs)

    IMAP names messages by their position, so a client that counts wrong acts on the
    wrong messages. [hears] is what an untagged answer does to what a client believes;
    the theorems say that a client that applies every answer of the session believes
    what the session thinks it believes ([numbers_in_step]), and that a refresh makes
    that the mailbox as it is ([refresh_catches_up]). What is assumed of the store is in
    [evolves], that a UID is given once, in rising order, and in [moves_on], that every
    change raises the modseq of the mailbox. *)

From stdpp Require Import sorting.
From S2P Require Import Prelude ImapCommand Acl ImapSession.

Abbreviation View := (list (Z * list (list byte))).

(** What an untagged answer does to a client's list of UIDs and flags. The UIDs and
    flags of messages that EXISTS announces are learned from the server. *)
Inductive hears : View -> Untagged -> View -> Prop :=
  | hears_exists view new n : n = Z.of_nat (length (view ++ new)) -> hears view (Exists_ n) (view ++ new)
  | hears_recent view : hears view Recent view
  | hears_expunge view i : (i < length view)%nat -> hears view (Expunge_ (seq_of i)) (delete i view)
  | hears_vanished view uids : hears view (Vanished uids) (List.filter (fun e => negb (bool_decide (e.1 ∈ uids))) view)
  | hears_fetch view i u fl fl' uid modseq :
      view !! i = Some (u, fl) -> (uid = None \/ uid = Some u) ->
      hears view (Fetch_ (seq_of i) fl' uid modseq) (<[i := (u, default fl fl')]> view)
  | hears_items view i u fl items fl' uid :
      view !! i = Some (u, fl) -> (uid = None \/ uid = Some u) ->
      hears view (FetchItems (seq_of i) items fl' uid) (<[i := (u, default fl fl')]> view)
  | hears_fetch_earlier view i u fl fl' modseq :
      view !! i = Some (u, fl) -> hears view (FetchEarlier (seq_of i) u fl' modseq) (<[i := (u, fl')]> view)
  | hears_earlier view uids : hears view (VanishedEarlier uids) view
  | hears_line view text : hears view (Line text) view.

Inductive hears_all : View -> list Untagged -> View -> Prop :=
  | hears_nil view : hears_all view [] view
  | hears_cons view u view1 out view2 : hears view u view1 -> hears_all view1 out view2 -> hears_all view (u :: out) view2.

(** What the session thinks the client believes. *)
Definition view_of (messages : list Known) : View := map (fun k => (known_uid k, known_keywords k)) messages.

Definition uids_of (messages : list Known) : list Z := map known_uid messages.

(** ** The mailbox over time *)

Definition state_uids (m : ImapMessages) : list Z := map message_uid (state_messages m).

(** Sorted by UID, every UID below the next one. *)
Definition state_ok (m : ImapMessages) : Prop :=
  StronglySorted Z.lt (state_uids m) /\ Forall (fun u => 1 <= u < state_uid_next m) (state_uids m).

(** What other connections and deliveries may do in between: messages leave, change their
    flags, arrive with UIDs from the next one on. *)
Definition evolves (m m' : ImapMessages) : Prop :=
  state_uid_next m <= state_uid_next m' /\ forall u, u ∈ state_uids m' -> u < state_uid_next m -> u ∈ state_uids m.

(** The selection was true of the mailbox when it was [m], but for what is to be told. *)
Definition in_step (s : Selected) (m : ImapMessages) : Prop :=
  StronglySorted Z.lt (uids_of (messages s))
  /\ Forall (fun k => 1 <= known_uid k < state_uid_next m) (messages s)
  /\ (forall k, k ∈ messages s -> expunged k = true -> known_uid k ∉ state_uids m)
  /\ (forall u, u ∈ state_uids m -> u <= largest_uid s -> u ∈ uids_of (messages s)).

Lemma evolves_refl m : evolves m m.
Proof. by split. Qed.

Lemma evolves_trans m1 m2 m3 : evolves m1 m2 -> evolves m2 m3 -> evolves m1 m3.
Proof. intros [H1 H2] [H3 H4]. split; [lia|]. intros u Hu Hlt. apply H2; [apply H4; [done | lia] | done]. Qed.

#[export] Instance evolves_preorder : PreOrder evolves.
Proof. split; [exact evolves_refl | exact evolves_trans]. Qed.

(** ** Hearing *)

Lemma hears_app view out1 view1 out2 view2 :
  hears_all view out1 view1 -> hears_all view1 out2 view2 -> hears_all view (out1 ++ out2) view2.
Proof. induction 1; [done|]. intros H2. cbn [app]. econstructor; eauto. Qed.

Lemma view_uids messages : map fst (view_of messages) = uids_of messages.
Proof. unfold view_of, uids_of. by rewrite map_map. Qed.

Lemma positions_of_snoc {A} (p : A -> bool) l a :
  positions_of p (l ++ [a]) = positions_of p l ++ if p a then [length l] else [].
Proof.
  unfold positions_of. rewrite length_app. cbn [length]. rewrite seq_app, List.filter_app. f_equal.
  - apply filter_ext_in. intros i Hi%in_seq. by rewrite lookup_app_l by lia.
  - cbn [seq List.filter]. rewrite Nat.add_0_l, list_lookup_middle by done. by destruct (p a).
Qed.

(** Naming positions from the last to the first takes out just those. *)
Lemma hears_positions (p : Known -> bool) messages : forall w,
  hears_all (view_of messages ++ w) (map (fun i => Expunge_ (seq_of i)) (rev (positions_of p messages)))
            (view_of (List.filter (fun k => negb (p k)) messages) ++ w).
Proof.
  induction messages as [|k messages IH] using rev_ind; intros w; [constructor|].
  rewrite positions_of_snoc, rev_app_distr, List.filter_app, map_app. unfold view_of. rewrite !map_app, <-!app_assoc.
  cbn [List.filter map]. destruct (p k); cbn [negb rev app map].
  - econstructor; [|by apply IH].
    replace (view_of messages ++ w) with (delete (length messages) (view_of messages ++ (known_uid k, known_keywords k) :: w)).
    + apply hears_expunge. rewrite length_app. unfold view_of. rewrite length_map. cbn. lia.
    + replace (length messages) with (length (view_of messages)) by (unfold view_of; by rewrite length_map).
      by rewrite delete_middle.
  - apply (IH ((known_uid k, known_keywords k) :: w)).
Qed.

Lemma expunge_loop_positions (messages : list Known) : forall w,
  expunge_loop (length messages) (messages ++ w)
  = (List.filter (fun k => negb (expunged k)) messages ++ w, map (fun i => Expunge_ (seq_of i)) (rev (positions_of expunged messages))).
Proof.
  induction messages as [|k messages IH] using rev_ind; intros w; [done|].
  rewrite length_app, Nat.add_1_r. cbn [expunge_loop]. rewrite <-app_assoc. cbn [app]. rewrite list_lookup_middle by done.
  rewrite positions_of_snoc, rev_app_distr, List.filter_app, map_app. cbn [List.filter]. destruct (expunged k); cbn [negb].
  - rewrite delete_middle, IH. cbn [rev app map]. by rewrite app_nil_r.
  - rewrite IH, <-app_assoc. done.
Qed.

Lemma view_filter uids messages :
  List.filter (fun e : Z * list (list byte) => negb (bool_decide (e.1 ∈ uids))) (view_of messages)
  = view_of (List.filter (fun k => negb (is_gone uids k)) messages).
Proof.
  unfold view_of. induction messages as [|k messages IH]; [done|]. cbn [map List.filter fst]. unfold is_gone at 1.
  rewrite IH. by destruct (bool_decide _).
Qed.

(** In a list without repeated UIDs, those to go are named by their UIDs. *)
Lemma gone_filter messages : NoDup (uids_of messages) ->
  List.filter (fun k => negb (is_gone (map known_uid (List.filter expunged messages)) k)) messages
  = List.filter (fun k => negb (expunged k)) messages.
Proof.
  intros Hnd. apply filter_ext_in. intros k Hk. f_equal. unfold is_gone.
  destruct (expunged k) eqn:E.
  - apply bool_decide_eq_true, list_elem_of_In, in_map, filter_In. done.
  - apply bool_decide_eq_false. rewrite list_elem_of_In, in_map_iff. intros (k' & Hu & [Hk' He]%filter_In).
    assert (k' = k); [|congruence]. apply list_elem_of_In in Hk, Hk'.
    apply list_elem_of_lookup in Hk as [i Hi], Hk' as [j Hj].
    assert (uids_of messages !! i = Some (known_uid k)) by (unfold uids_of; by rewrite list_lookup_fmap, Hi).
    assert (uids_of messages !! j = Some (known_uid k)) by (unfold uids_of; rewrite list_lookup_fmap, Hj; cbn; by rewrite Hu).
    assert (i = j) as -> by by eapply NoDup_lookup. congruence.
Qed.

Lemma report_expunges_ok e messages : NoDup (uids_of messages) ->
  (report_expunges e messages).1 = List.filter (fun k => negb (expunged k)) messages
  /\ hears_all (view_of messages) (report_expunges e messages).2 (view_of (report_expunges e messages).1).
Proof.
  intros Hnd. unfold report_expunges. destruct (map known_uid (List.filter expunged messages)) as [|u gone] eqn:E.
  - assert (Hno : forall k, In k messages -> negb (expunged k) = true).
    { intros k Hk. destruct (expunged k) eqn:Ek; [|done]. exfalso.
      assert (Hin : In (known_uid k) []) by (rewrite <-E; apply in_map, filter_In; done). destruct Hin. }
    split; [|constructor]. cbn [fst]. symmetry. clear -Hno. induction messages as [|k messages IH]; [done|].
    cbn [List.filter]. rewrite (Hno k) by by left. f_equal. apply IH. intros k' Hk'. apply Hno. by right.
  - rewrite <-E. destruct (qresync e).
    + split; [done|]. cbn [fst snd]. econstructor; [|constructor]. rewrite <-(gone_filter _ Hnd), <-view_filter. constructor.
    + pose proof (expunge_loop_positions messages []) as H. rewrite !app_nil_r in H. rewrite H. split; [done|]. cbn [fst snd].
      pose proof (hears_positions expunged messages []) as Hh. by rewrite !app_nil_r in Hh.
Qed.

Lemma report_removed_ok e uids s :
  hears_all (view_of (messages s)) (report_removed e uids s).1 (view_of (messages (report_removed e uids s).2))
  /\ messages (report_removed e uids s).2 = List.filter (fun k => negb (is_gone uids k)) (messages s).
Proof.
  unfold report_removed. destruct uids as [|u uids'] eqn:E.
  - split; [constructor|]. cbn [snd]. symmetry. clear. induction (messages s) as [|k l IH]; [done|]. cbn. by rewrite IH.
  - rewrite <-E. cbn [forget fst snd set_messages messages]. split; [|done]. destruct (qresync e).
    + econstructor; [|constructor]. rewrite <-view_filter. constructor.
    + pose proof (hears_positions (is_gone uids) (messages s) []) as Hh. by rewrite !app_nil_r in Hh.
Qed.

(** What a change does to what is known. *)
Definition upd (current : gmap Z ImapMessage) (k : Known) : Known :=
  match current !! known_uid k with Some message => updated message k | None => k end.

Lemma upd_uid current k : known_uid (upd current k) = known_uid k.
Proof. unfold upd. by destruct (_ !! _). Qed.

Lemma tell_changes_ok e current messages : forall pre,
  (tell_changes e current (length pre) messages).1 = map (upd current) messages
  /\ hears_all (pre ++ view_of messages) (tell_changes e current (length pre) messages).2
       (pre ++ view_of (map (upd current) messages)).
Proof.
  induction messages as [|k messages IH]; intros pre; [split; [done | constructor]|]. cbn [tell_changes].
  specialize (IH (pre ++ [(known_uid k, known_keywords (upd current k))])). rewrite length_app, Nat.add_1_r in IH.
  destruct (tell_changes e current (S (length pre)) messages) as [told out]. cbn [fst snd] in IH. destruct IH as [-> IH].
  rewrite <-!app_assoc in IH. cbn [app] in IH. cbn [map view_of]. fold (view_of messages). rewrite upd_uid.
  fold (view_of (map (upd current) messages)).
  assert (Hsame : upd current k = k -> hears_all (pre ++ (known_uid k, known_keywords k) :: view_of messages) out
                    (pre ++ (known_uid k, known_keywords (upd current k)) :: view_of (map (upd current) messages))).
  { intros E. rewrite E in IH |- *. exact IH. }
  destruct (current !! known_uid k) as [message|] eqn:E.
  - assert (Hu : upd current k = updated message k) by (unfold upd; by rewrite E). rewrite Hu in *. case_decide as Hd; cbn [fst snd].
    + split; [done|]. econstructor; [|exact IH].
      replace (pre ++ (known_uid k, known_keywords (updated message k)) :: view_of messages)
        with (<[length pre := (known_uid k, default (known_keywords k) (Some (known_keywords (updated message k))))]>
                (pre ++ (known_uid k, known_keywords k) :: view_of messages)).
      * apply hears_fetch; [by apply list_lookup_middle|]. destruct (condstore e); [by right | by left].
      * rewrite insert_app_r_alt by done. by rewrite Nat.sub_diag.
    + assert (Hk : updated message k = k).
      { unfold updated. destruct (decide (message_keywords message = known_keywords k)) as [->|]; [|tauto].
        destruct (decide (message_modseq message = known_modseq k)) as [->|]; [by destruct k | tauto]. }
      rewrite Hk in *. split; [done | by apply Hsame].
  - assert (Hu : upd current k = k) by (unfold upd; by rewrite E). rewrite Hu in *. split; [done | by apply Hsame].
Qed.

(** Of a message that changed the client is told. *)
Lemma tell_changes_tells e current messages i k x : messages !! i = Some k -> current !! known_uid k = Some x ->
  message_keywords x <> known_keywords k \/ message_modseq x <> known_modseq k ->
  forall base, Fetch_ (seq_of (base + i)) (Some (message_keywords x)) (if condstore e then Some (known_uid k) else None)
    (if condstore e then Some (message_modseq x) else None) ∈ (tell_changes e current base messages).2.
Proof.
  intros Hk Hx Hne. revert i Hk. induction messages as [|k0 messages IH]; intros [|i] Hk base; [done|done| |]; cbn [tell_changes].
  - injection Hk as ->. destruct (tell_changes e current (S base) messages) as [told out]. rewrite Hx, decide_True by done.
    rewrite Nat.add_0_r. by left.
  - specialize (IH i Hk (S base)). replace (base + S i)%nat with (S base + i)%nat by lia.
    destruct (tell_changes e current (S base) messages) as [told out]. cbn [snd] in IH.
    destruct (current !! known_uid k0); [|done]. case_decide; [by right|done].
Qed.

(** ** Sorted numbers *)

Lemma sorted_NoDup (l : list Z) : StronglySorted Z.lt l -> NoDup l.
Proof.
  induction 1 as [|x l _ IH Hx]; [constructor|]. constructor; [|done]. intros Hin.
  rewrite Forall_forall in Hx. apply Hx in Hin. lia.
Qed.

Lemma sorted_filter (p : Z -> bool) l : StronglySorted Z.lt l -> StronglySorted Z.lt (List.filter p l).
Proof.
  induction 1 as [|x l _ IH Hx]; [constructor|]. cbn. destruct (p x); [|done]. constructor; [done|].
  apply Forall_forall. intros y Hy%list_elem_of_In%filter_In. rewrite Forall_forall in Hx. apply Hx, list_elem_of_In, Hy.
Qed.

Lemma sorted_ext (l1 l2 : list Z) : StronglySorted Z.lt l1 -> StronglySorted Z.lt l2 ->
  (forall u, u ∈ l1 <-> u ∈ l2) -> l1 = l2.
Proof.
  intros H1 H2 Hext. eapply StronglySorted_unique_strong; [|exact H1|exact H2|].
  - intros x y _ _ ? ?. lia.
  - apply NoDup_Permutation; [by apply sorted_NoDup.. | done].
Qed.

Lemma sorted_last (l : list Z) u : StronglySorted Z.lt l -> u ∈ l -> exists x, last l = Some x /\ x ∈ l /\ u <= x.
Proof.
  intros Hs. revert u. induction Hs as [|x l Hs IH Hx]; intros u Hu; [by apply elem_of_nil in Hu|]. destruct l as [|y l].
  - apply list_elem_of_singleton in Hu as ->. exists x. split_and!; [done | by left | lia].
  - rewrite last_cons_cons. apply elem_of_cons in Hu as [->|Hu].
    + destruct (IH y) as (z & Hz & Hin & Hle); [by left|]. exists z. split_and!; [done | by right|].
      rewrite Forall_forall in Hx. specialize (Hx z Hin). lia.
    + destruct (IH u Hu) as (z & Hz & Hin & Hle). exists z. split_and!; [done | by right | done].
Qed.

Lemma elem_of_filter_bool (p : Z -> bool) l u : u ∈ List.filter p l <-> u ∈ l /\ p u = true.
Proof. by rewrite !list_elem_of_In, filter_In. Qed.

(** What is still there and what is new make up the mailbox. *)
Lemma merge_uids (old M kept : list Z) L :
  StronglySorted Z.lt M -> StronglySorted Z.lt kept ->
  (forall u, u ∈ kept <-> u ∈ old /\ u ∈ M) -> (forall u, u ∈ kept -> u <= L) ->
  (forall u, u ∈ M -> u <= L -> u ∈ old) ->
  kept ++ List.filter (fun u => L <? u) M = M.
Proof.
  intros HM Hk Hkept HL HLo. apply sorted_ext; [|done|].
  - apply StronglySorted_app. split_and!; [|done | by apply sorted_filter].
    intros x y Hx [_ Hy]%elem_of_filter_bool. apply HL in Hx. lia.
  - intros u. rewrite elem_of_app, elem_of_filter_bool, Hkept. split; [tauto|]. intros Hu.
    destruct (Z.ltb_spec L u); [by right | left; auto].
Qed.

(** ** The selection and the mailbox *)

Lemma largest_uid_spec s : StronglySorted Z.lt (uids_of (messages s)) ->
  (forall u, u ∈ uids_of (messages s) -> u <= largest_uid s)
  /\ (largest_uid s = 0 \/ largest_uid s ∈ uids_of (messages s)).
Proof.
  intros Hs. unfold largest_uid. assert (Hl : last (uids_of (messages s)) = known_uid <$> last (messages s)).
  { unfold uids_of. by rewrite <-fmap_last. }
  split.
  - intros u Hu. destruct (sorted_last _ _ Hs Hu) as (x & Hx & _ & Hle). rewrite Hl in Hx.
    destruct (last (messages s)); [|done]. by injection Hx as ->.
  - destruct (last (messages s)) as [k|] eqn:E; [right | by left]. apply last_Some in E as [l ->].
    unfold uids_of. rewrite map_app. apply elem_of_app. right. by left.
Qed.

Lemma current_of_some m u : is_Some (current_of m !! u) <-> u ∈ state_uids m.
Proof.
  unfold current_of, state_uids. assert (H : forall l (m0 : gmap Z ImapMessage), is_Some (foldl (fun m message => <[message_uid message := message]> m) m0 l !! u)
    <-> is_Some (m0 !! u) \/ u ∈ map message_uid l).
  { induction l as [|a l IH]; intros m0; cbn [foldl map].
    - rewrite elem_of_nil. tauto.
    - rewrite IH, lookup_insert_is_Some', elem_of_cons. naive_solver. }
  rewrite H, lookup_empty, is_Some_alt. tauto.
Qed.

Lemma current_of_lookup m message : NoDup (state_uids m) -> message ∈ state_messages m ->
  current_of m !! message_uid message = Some message.
Proof.
  unfold current_of, state_uids. assert (H : forall l (m0 : gmap Z ImapMessage), NoDup (map message_uid l) ->
    (message ∈ l \/ (message_uid message ∉ map message_uid l /\ m0 !! message_uid message = Some message)) ->
    foldl (fun m message => <[message_uid message := message]> m) m0 l !! message_uid message = Some message).
  { induction l as [|a l IH]; intros m0 Hnd Hin; cbn [foldl map] in *.
    - destruct Hin as [?%elem_of_nil|[_ ?]]; done.
    - apply NoDup_cons in Hnd as [Ha Hnd]. apply IH; [done|]. destruct Hin as [Hin|[Hin Hm]].
      + apply elem_of_cons in Hin as [->|Hin]; [right; split; [done | apply lookup_insert_eq] | by left].
      + apply not_elem_of_cons in Hin as [Hne Hin]. right. split; [done|]. by rewrite lookup_insert_ne. }
  intros Hnd Hin. apply H; [done | by left].
Qed.

Lemma mark_uid current k : known_uid (mark current k) = known_uid k.
Proof. unfold mark. by destruct (_ !! _). Qed.

Lemma mark_view current messages : view_of (map (mark current) messages) = view_of messages.
Proof.
  unfold view_of. rewrite map_map. apply map_ext. intros k. unfold mark. by destruct (_ !! _).
Qed.

Lemma uids_map f messages : (forall k, known_uid (f k) = known_uid k) -> uids_of (map f messages) = uids_of messages.
Proof. intros H. unfold uids_of. rewrite map_map. by apply map_ext. Qed.

Lemma uids_filter_sorted p messages : StronglySorted Z.lt (uids_of messages) -> StronglySorted Z.lt (uids_of (List.filter p messages)).
Proof.
  unfold uids_of. induction messages as [|k messages IH]; [done|]. cbn [map]. intros Hs. inversion_clear Hs as [|? ? Hs' Hx].
  cbn [List.filter]. destruct (p k); [|by apply IH]. cbn [map]. constructor; [by apply IH|].
  apply Forall_forall. intros u (k' & -> & Hk')%list_elem_of_fmap. rewrite Forall_forall in Hx. apply Hx.
  apply list_elem_of_In, filter_In in Hk' as [Hk' _]. apply list_elem_of_fmap. exists k'. split; [done | by apply list_elem_of_In].
Qed.

Lemma elem_of_uids u messages : u ∈ uids_of messages <-> exists k, k ∈ messages /\ known_uid k = u.
Proof. unfold uids_of. rewrite list_elem_of_fmap. naive_solver. Qed.

(** Those that are not marked are those still there. *)
Lemma marked_uids s m m' : in_step s m -> evolves m m' -> forall u,
  u ∈ uids_of (List.filter (fun k => negb (expunged k)) (map (mark (current_of m')) (messages s)))
  <-> u ∈ uids_of (messages s) /\ u ∈ state_uids m'.
Proof.
  intros (_ & Hlt & Hex & _) [_ Hev] u. rewrite !elem_of_uids. split.
  - intros (k & Hk & <-). apply list_elem_of_In, filter_In in Hk as [Hk%list_elem_of_In Hn].
    apply list_elem_of_fmap in Hk as (k0 & -> & Hk0). rewrite mark_uid. split; [by exists k0|].
    apply current_of_some. unfold mark in Hn. by destruct (current_of m' !! known_uid k0).
  - intros [(k & Hk & <-) Hu]. exists (mark (current_of m') k). split; [|apply mark_uid].
    apply list_elem_of_In, filter_In. split; [by apply in_map, list_elem_of_In|].
    assert (Hs : is_Some (current_of m' !! known_uid k)) by by apply current_of_some. destruct Hs as [x Hx].
    unfold mark. rewrite Hx. apply negb_true_iff. destruct (expunged k) eqn:E; [|done]. exfalso.
    apply (Hex k Hk E). apply Hev; [done|]. rewrite Forall_forall in Hlt. by apply Hlt.
Qed.

(** A message of the mailbox as the client is to know it. *)
Definition as_known (current : gmap Z ImapMessage) (u : Z) : Known :=
  match current !! u with
  | Some message => known_of message
  | None => {| known_uid := u; known_modseq := 0; known_keywords := []; expunged := false |}
  end.

Lemma as_known_messages m ms : NoDup (state_uids m) -> ms ⊆ state_messages m ->
  map known_of ms = map (as_known (current_of m)) (map message_uid ms).
Proof.
  intros Hnd Hms. rewrite map_map. apply map_ext_in. intros x Hx. unfold as_known.
  by rewrite (current_of_lookup m x Hnd) by by apply Hms, list_elem_of_In.
Qed.

Lemma new_messages_uids m L : NoDup (state_uids m) ->
  new_messages m L = map (as_known (current_of m)) (List.filter (fun u => L <? u) (state_uids m)).
Proof.
  intros Hnd. unfold new_messages. rewrite (as_known_messages m) by (done || intros x [Hx _]%list_elem_of_In%filter_In; by apply list_elem_of_In).
  f_equal. unfold state_uids. induction (state_messages m) as [|a l IH]; [done|]. cbn. destruct (L <? message_uid a); cbn; by rewrite IH.
Qed.

Lemma upd_alive current k : is_Some (current !! known_uid k) -> expunged k = false ->
  (forall message, current !! known_uid k = Some message -> message_uid message = known_uid k) ->
  upd current k = as_known current (known_uid k).
Proof.
  intros [message E] Hx Hu. unfold upd, as_known. rewrite E. unfold updated, known_of. rewrite Hx, <-(Hu message E). done.
Qed.

Lemma current_of_uid m u message : current_of m !! u = Some message -> message_uid message = u.
Proof.
  unfold current_of. assert (H : forall l (m0 : gmap Z ImapMessage), (forall u x, m0 !! u = Some x -> message_uid x = u) ->
    forall u x, foldl (fun m message => <[message_uid message := message]> m) m0 l !! u = Some x -> message_uid x = u).
  { induction l as [|a l IH]; intros m0 H0; [exact H0|]. apply IH. intros v x [[<- <-]|[_ Hx]]%lookup_insert_Some; [done | eauto]. }
  apply H. intros v x Hx. by rewrite lookup_empty in Hx.
Qed.

Definition alive (current : gmap Z ImapMessage) (messages : list Known) : list Known :=
  List.filter (fun k => negb (expunged k)) (map (mark current) messages).

Lemma alive_as_known m messages :
  map (upd (current_of m)) (alive (current_of m) messages) = map (as_known (current_of m)) (uids_of (alive (current_of m) messages)).
Proof.
  unfold uids_of. rewrite map_map. apply map_ext_in. intros k Hk. apply filter_In in Hk as [Hk Hx].
  apply in_map_iff in Hk as (k0 & <- & _). apply upd_alive.
  - rewrite mark_uid. unfold mark in Hx. by destruct (current_of m !! known_uid k0).
  - by apply negb_true_iff.
  - intros message. apply current_of_uid.
Qed.

Lemma filter_upd current messages :
  List.filter (fun k => negb (expunged k)) (map (upd current) messages)
  = map (upd current) (List.filter (fun k => negb (expunged k)) messages).
Proof.
  induction messages as [|k messages IH]; [done|]. cbn [map List.filter].
  assert (expunged (upd current k) = expunged k) as -> by (unfold upd; by destruct (_ !! _)).
  destruct (expunged k); cbn [negb map]; by rewrite IH.
Qed.

Lemma filter_all {A} (p : A -> bool) l : (forall a, In a l -> p a = true) -> List.filter p l = l.
Proof.
  induction l as [|a l IH]; intros H; [done|]. cbn. rewrite (H a) by by left. f_equal. apply IH. intros b Hb. apply H. by right.
Qed.

Lemma map_lookup {A B} (f : A -> B) l i : map f l !! i = f <$> l !! i.
Proof. apply list_lookup_fmap. Qed.

(** ** A refresh *)

Definition kept_of (expunges : bool) (current : gmap Z ImapMessage) (messages : list Known) : list Known :=
  if expunges then alive current messages else map (mark current) messages.

Definition told_of (expunges : bool) (m : ImapMessages) (s : Selected) : list Known :=
  map (upd (current_of m)) (kept_of expunges (current_of m) (messages s)).

(** What is sent, heard, is what is known then. *)
Lemma catch_up_hears e expunges m s : StronglySorted Z.lt (uids_of (messages s)) ->
  messages (catch_up e expunges m s).2
    = told_of expunges m s ++ new_messages m (largest_uid (set_messages (told_of expunges m s) s))
  /\ hears_all (view_of (messages s)) (catch_up e expunges m s).1 (view_of (messages (catch_up e expunges m s).2))
  /\ (expunges = false -> forall u, u ∈ (catch_up e expunges m s).1 ->
        match u with Expunge_ _ | Vanished _ => False | _ => True end).
Proof.
  intros Hs. unfold catch_up. set (cur := current_of m). set (marked := map (mark cur) (messages s)).
  assert (Hnd : NoDup (uids_of marked)) by (unfold marked; rewrite uids_map by apply mark_uid; by apply sorted_NoDup).
  assert (Hrem : exists kept removed, (if expunges then report_expunges e marked else (marked, [])) = (kept, removed)
    /\ kept = kept_of expunges cur (messages s) /\ hears_all (view_of (messages s)) removed (view_of kept)
    /\ (expunges = false -> removed = [])).
  { rewrite <-(mark_view cur). fold marked. destruct expunges.
    - destruct (report_expunges_ok e marked Hnd) as [H1 H2]. destruct (report_expunges e marked) as [kept removed].
      exists kept, removed. by split_and!.
    - exists marked, []. split_and!; [done | done | constructor | done]. }
  destruct Hrem as (kept & removed & -> & Hkept & Hh & Hno).
  destruct (tell_changes_ok e cur kept []) as [Ht Htell]. cbn [length app] in *.
  assert (Hch : forall u, u ∈ (tell_changes e cur 0 kept).2 -> match u with Expunge_ _ | Vanished _ => False | _ => True end).
  { generalize 0%nat. clear. induction kept as [|k kept IH]; intros i u; cbn [tell_changes]; [by intros ?%elem_of_nil|].
    specialize (IH (S i)). destruct (tell_changes e cur (S i) kept) as [told out]. cbn [snd] in IH.
    case_match; [|apply IH]. case_decide; [|apply IH]. cbn [snd]. intros [->|?]%elem_of_cons; [done | by apply IH]. }
  destruct (tell_changes e cur 0 kept) as [told changes]. cbn [fst snd] in *. subst told.
  rewrite Hkept in *. fold (told_of expunges m s) in *. change (map (upd cur) (kept_of expunges cur (messages s))) with (told_of expunges m s) in *.
  set (new := new_messages m _). cbn [messages set_modseqs set_messages]. split; [done|]. split.
  - eapply hears_app; [exact Hh|]. eapply hears_app; [exact Htell|]. destruct new as [|k new'] eqn:E.
    + rewrite app_nil_r. constructor.
    + rewrite <-E. apply (hears_cons _ _ (view_of (told_of expunges m s ++ new))).
      * unfold view_of. rewrite map_app. apply hears_exists. by rewrite <-map_app, length_map.
      * destruct (rev2 e); [constructor|]. econstructor; constructor.
  - intros Hf u. rewrite (Hno Hf). cbn [app]. intros [Hu|Hu]%elem_of_app; [by apply Hch|].
    destruct new; [by apply elem_of_nil in Hu|]. destruct (rev2 e); repeat apply elem_of_cons in Hu as [->|Hu]; try done; by apply elem_of_nil in Hu.
Qed.

Section refresh.
Context (e : Enabled) (expunges : bool) (m m' : ImapMessages) (s : Selected).
Hypotheses (Hstep : in_step s m) (Hok : state_ok m') (Hev : evolves m m').

Lemma kept_sorted : StronglySorted Z.lt (uids_of (kept_of expunges (current_of m') (messages s))).
Proof.
  destruct Hstep as [Hs _]. unfold kept_of, alive. destruct expunges; [apply uids_filter_sorted|]; by rewrite uids_map by apply mark_uid.
Qed.

Lemma told_uids : uids_of (told_of expunges m' s) = uids_of (kept_of expunges (current_of m') (messages s)).
Proof. unfold told_of. by rewrite uids_map by apply upd_uid. Qed.

Lemma kept_known k : k ∈ kept_of expunges (current_of m') (messages s) -> exists k0, k0 ∈ messages s /\ k = mark (current_of m') k0.
Proof.
  intros Hk. assert (Hm : k ∈ map (mark (current_of m')) (messages s)).
  { unfold kept_of, alive in Hk. destruct expunges; [|done]. apply list_elem_of_In, filter_In in Hk as [Hk _]. by apply list_elem_of_In. }
  apply list_elem_of_fmap in Hm as (k0 & -> & Hk0). by exists k0.
Qed.

Lemma kept_alive_uids u : u ∈ uids_of (alive (current_of m') (messages s)) -> u ∈ uids_of (kept_of expunges (current_of m') (messages s)).
Proof.
  unfold kept_of. destruct expunges; [done|]. rewrite !elem_of_uids. intros (k & Hk & <-). exists k. split; [|done].
  apply list_elem_of_In, filter_In in Hk as [Hk _]. by apply list_elem_of_In.
Qed.

Definition L : Z := largest_uid (set_messages (told_of expunges m' s) s).

Lemma told_largest : (forall u, u ∈ uids_of (told_of expunges m' s) -> u <= L) /\ (L = 0 \/ L ∈ uids_of (told_of expunges m' s)).
Proof.
  apply (largest_uid_spec (set_messages (told_of expunges m' s) s)). cbn [messages set_messages].
  rewrite told_uids. apply kept_sorted.
Qed.

(** Nothing of the mailbox up to the last one kept is missing. *)
Lemma known_below u : u ∈ state_uids m' -> u <= L -> u ∈ uids_of (messages s).
Proof.
  intros Hu Hle. destruct Hstep as (Hs & Hlt & _ & Hcov). destruct Hok as [_ Hpos]. rewrite Forall_forall in Hpos.
  specialize (Hpos u Hu). destruct told_largest as [_ [H0|HL]]; [lia|].
  rewrite told_uids in HL. apply elem_of_uids in HL as (k & (k0 & Hk0 & ->)%kept_known & HL). rewrite mark_uid in HL.
  assert (Hle' : known_uid k0 <= largest_uid s) by (apply (largest_uid_spec s Hs), elem_of_uids; by exists k0).
  rewrite Forall_forall in Hlt. specialize (Hlt k0 Hk0). apply Hcov; [apply Hev; [done | lia] | lia].
Qed.

(** What is known and not marked is the mailbox. *)
Lemma alive_and_new :
  map (upd (current_of m')) (alive (current_of m') (messages s)) ++ new_messages m' L = map known_of (state_messages m').
Proof.
  assert (Hnd : NoDup (state_uids m')) by apply sorted_NoDup, Hok.
  rewrite alive_as_known, (new_messages_uids m' L Hnd), <-map_app, (as_known_messages m' (state_messages m') Hnd (reflexivity _)). f_equal.
  apply (merge_uids (uids_of (messages s))).
  - apply Hok.
  - unfold alive. apply uids_filter_sorted. rewrite uids_map by apply mark_uid. apply Hstep.
  - intros u. by apply (marked_uids s m m').
  - intros u Hu%kept_alive_uids. apply told_largest. by rewrite told_uids.
  - intros u. apply known_below.
Qed.

Lemma catch_up_alive : List.filter (fun k => negb (expunged k)) (messages (catch_up e expunges m' s).2) = map known_of (state_messages m').
Proof.
  destruct (catch_up_hears e expunges m' s) as (-> & _); [apply Hstep|]. rewrite List.filter_app, <-alive_and_new. f_equal.
  - unfold told_of. rewrite filter_upd. f_equal. unfold kept_of. destruct expunges; [|done].
    apply filter_all. intros k [_ Hk]%filter_In. done.
  - fold L. apply filter_all. intros k Hk. apply in_map_iff in Hk as (x & <- & _). done.
Qed.

Lemma catch_up_all : expunges = true -> messages (catch_up e expunges m' s).2 = map known_of (state_messages m').
Proof.
  intros He. rewrite <-catch_up_alive. symmetry. apply filter_all. intros k Hk.
  destruct (catch_up_hears e expunges m' s) as (Hm & _); [apply Hstep|]. rewrite Hm in Hk. apply in_app_iff in Hk as [Hk|Hk].
  - unfold told_of, kept_of in Hk. rewrite He in Hk. apply in_map_iff in Hk as (k0 & <- & Hk0%filter_In).
    destruct Hk0 as [_ Hx]. unfold upd. by destruct (_ !! _).
  - apply in_map_iff in Hk as (x & <- & _). done.
Qed.

(** Who is still there is told of each change, by the number it has then. *)
Lemma catch_up_tells k x : expunges = true -> k ∈ messages s -> x ∈ state_messages m' -> message_uid x = known_uid k ->
  message_keywords x <> known_keywords k \/ message_modseq x <> known_modseq k ->
  exists i, messages (catch_up e expunges m' s).2 !! i = Some (known_of x)
    /\ Fetch_ (seq_of i) (Some (message_keywords x)) (if condstore e then Some (message_uid x) else None)
         (if condstore e then Some (message_modseq x) else None) ∈ (catch_up e expunges m' s).1.
Proof.
  intros He Hk Hx Hu Hne. assert (Hnd : NoDup (state_uids m')) by apply sorted_NoDup, Hok.
  pose proof (current_of_lookup m' x Hnd Hx) as Hc. rewrite Hu in Hc.
  assert (Hin : known_uid k ∈ state_uids m') by (rewrite <-Hu; by apply list_elem_of_In, in_map, list_elem_of_In).
  assert (Halive : expunged k = false).
  { destruct (expunged k) eqn:Ex; [|done]. destruct Hstep as (_ & Hlt & Hex & _). exfalso. apply (Hex k Hk Ex).
    apply Hev; [done|]. rewrite Forall_forall in Hlt. by apply Hlt. }
  assert (Hkept : k ∈ alive (current_of m') (messages s)).
  { apply list_elem_of_In, filter_In. split; [|by rewrite Halive]. replace k with (mark (current_of m') k) by (unfold mark; by rewrite Hc).
    by apply in_map, list_elem_of_In. }
  apply list_elem_of_lookup in Hkept as [i Hi]. exists i.
  destruct (catch_up_hears e expunges m' s) as (Hm & _); [apply Hstep|]. rewrite Hm. split.
  - apply lookup_app_l_Some. unfold told_of, kept_of. rewrite He, map_lookup, Hi. cbn. f_equal.
    unfold upd. rewrite Hc. unfold updated, known_of. by rewrite Halive, Hu.
  - unfold catch_up. rewrite He. set (cur := current_of m') in *. set (marked := map (mark cur) (messages s)).
    assert (NoDup (uids_of marked)) as Hndm by (unfold marked; rewrite uids_map by apply mark_uid; apply sorted_NoDup, Hstep).
    pose proof (report_expunges_ok e marked Hndm) as [H1 _]. destruct (report_expunges e marked) as [kept removed]. cbn [fst] in H1. subst kept.
    pose proof (tell_changes_tells e cur (alive cur (messages s)) i k x Hi Hc Hne 0) as Ht. rewrite Hu. unfold alive in Ht. fold marked in Ht.
    destruct (tell_changes e cur 0 _) as [told changes]. cbn [fst snd] in *. rewrite !elem_of_app. auto.
Qed.

(** The session stays in step. *)
Lemma catch_up_in_step : in_step (catch_up e expunges m' s).2 m'.
Proof.
  pose proof catch_up_alive as Halive. destruct (catch_up_hears e expunges m' s) as (Hm & _); [apply Hstep|].
  fold L in Hm. destruct Hok as [Hsort Hpos]. assert (Hnd : NoDup (state_uids m')) by by apply sorted_NoDup.
  assert (Hnew : forall k, k ∈ new_messages m' L -> known_uid k ∈ state_uids m' /\ L < known_uid k /\ expunged k = false).
  { intros k Hk. apply list_elem_of_fmap in Hk as (x & -> & Hx). apply list_elem_of_In, filter_In in Hx as [Hx Hlt].
    split_and!; [change (message_uid x ∈ state_uids m'); by apply list_elem_of_In, in_map | cbn; lia | done]. }
  assert (Htold : forall k, k ∈ told_of expunges m' s -> exists k0, k0 ∈ messages s /\ known_uid k = known_uid k0
            /\ expunged k = expunged (mark (current_of m') k0)).
  { intros k Hk. apply list_elem_of_fmap in Hk as (k1 & -> & (k0 & Hk0 & ->)%kept_known). exists k0.
    rewrite upd_uid, mark_uid. split_and!; [done | done|]. unfold upd. by destruct (_ !! _). }
  destruct Hstep as (Hs & Hlt & Hex & Hcov). split_and!.
  - rewrite Hm. unfold uids_of. rewrite map_app. apply StronglySorted_app. split_and!.
    + intros x y Hx Hy. apply told_largest in Hx. apply list_elem_of_fmap in Hy as (k & -> & Hk). apply Hnew in Hk. lia.
    + fold (uids_of (told_of expunges m' s)). rewrite told_uids. apply kept_sorted.
    + rewrite (new_messages_uids m' L Hnd). unfold as_known. rewrite map_map.
      rewrite (map_ext_in _ (fun u => u)); [rewrite map_id; by apply sorted_filter|].
      intros u [Hu _]%filter_In. assert (Hc : is_Some (current_of m' !! u)) by by apply current_of_some, list_elem_of_In.
      destruct Hc as [x Hx]. rewrite Hx. by apply current_of_uid in Hx.
  - rewrite Hm. apply Forall_forall. intros k [Hk|Hk]%elem_of_app.
    + apply Htold in Hk as (k0 & Hk0 & -> & _). rewrite Forall_forall in Hlt. specialize (Hlt k0 Hk0). destruct Hev. lia.
    + apply Hnew in Hk as (Hk & _). rewrite Forall_forall in Hpos. by apply Hpos.
  - rewrite Hm. intros k [Hk|Hk]%elem_of_app Hx; [|apply Hnew in Hk; destruct Hk as (_ & _ & ?); congruence].
    apply Htold in Hk as (k0 & Hk0 & Hu & He). rewrite Hu. rewrite Hx in He. intros Hin.
    assert (Hc : is_Some (current_of m' !! known_uid k0)) by by apply current_of_some. destruct Hc as [x Hc].
    unfold mark in He. rewrite Hc in He. apply (Hex k0 Hk0); [done|]. destruct Hev as [_ Hev']. apply Hev'; [done|].
    rewrite Forall_forall in Hlt. by apply Hlt.
  - intros u Hu _. assert (Hin : u ∈ uids_of (map known_of (state_messages m'))).
    { unfold uids_of, state_uids in *. by rewrite map_map. }
    rewrite <-Halive in Hin. rewrite elem_of_uids in Hin |- *. destruct Hin as (k & Hk & <-). exists k. split; [|done].
    apply list_elem_of_In, filter_In in Hk as [Hk _]. by apply list_elem_of_In.
Qed.
End refresh.

(** ** A session over time *)

(** An answer to FETCH or STORE names a message the selection has, by its number, and by
    its UID when it gives one. *)
Definition names_known (s : Selected) (u : Untagged) : Prop :=
  match u with
  | Fetch_ n _ uid _ | FetchItems n _ _ uid => exists i k, messages s !! i = Some k /\ n = seq_of i /\ (uid = None \/ uid = Some (known_uid k))
  | Line _ | Recent | VanishedEarlier _ => True
  | _ => False
  end.

(** What the session and others do, and what the client is sent. *)
Inductive step (me : Z) : Selected * ImapMessages -> list Untagged -> Selected * ImapMessages -> Prop :=
  | step_others s m m' : state_ok m' -> evolves m m' -> step me (s, m) [] (s, m')
  | step_refresh e expunges modseqs shared s m out s' :
      refresh e me expunges modseqs shared (Got m) s = Told out s' -> step me (s, m) out (s', m)
  | step_removed e uids s m :
      (forall u, u ∈ uids -> u ∉ state_uids m) ->
      step me (s, m) (report_removed e uids s).1 ((report_removed e uids s).2, m)
  | step_rechecked ends shared s s' m : recheck_rights me ends shared s = Holds s' -> step me (s, m) [] (s', m)
  | step_answered s s' m out :
      Forall (names_known s) out -> uids_of (messages s') = uids_of (messages s) ->
      map expunged (messages s') = map expunged (messages s) -> step me (s, m) out (s', m).

Inductive run (me : Z) : Selected * ImapMessages -> list Untagged -> Selected * ImapMessages -> Prop :=
  | run_nothing c : run me c [] c
  | run_step c1 out1 c2 out2 c3 : step me c1 out1 c2 -> run me c2 out2 c3 -> run me c1 (out1 ++ out2) c3.

(** A mailbox as SELECT opens it. *)
Definition opened (s : Selected) (m : ImapMessages) : Prop := messages s = map known_of (state_messages m) /\ state_ok m.

Lemma opened_in_step s m : opened s m -> in_step s m.
Proof.
  intros [Hm [Hs Hp]]. assert (Hu : uids_of (messages s) = state_uids m) by (rewrite Hm; unfold uids_of; by rewrite map_map).
  split_and!.
  - by rewrite Hu.
  - apply Forall_forall. intros k Hk. rewrite Forall_forall in Hp. apply Hp. rewrite <-Hu. apply elem_of_uids. by exists k.
  - intros k Hk Hx. rewrite Hm in Hk. by apply list_elem_of_fmap in Hk as (x & -> & _).
  - intros u Hin _. by rewrite Hu.
Qed.

Lemma fst_lookup (v w : View) i u fl : map fst w = map fst v -> v !! i = Some (u, fl) -> exists f, w !! i = Some (u, f).
Proof.
  intros Hw Hi. assert (Hx : map fst w !! i = Some u) by (rewrite Hw; by rewrite map_lookup, Hi).
  rewrite map_lookup in Hx. destruct (w !! i) as [[u' f]|]; [|done]. injection Hx as ->. by exists f.
Qed.

Lemma fst_insert (v w : View) i u f g : map fst w = map fst v -> map fst (<[i := (u, f)]> w) = map fst (<[i := (u, g)]> v).
Proof.
  intros Hw. change (fst <$> <[i := (u, f)]> w = fst <$> <[i := (u, g)]> v). rewrite !list_fmap_insert. cbn [fst]. by f_equal.
Qed.

(** Flags make no difference to the numbers. *)
Lemma hears_uids v u v' w : hears v u v' -> map fst w = map fst v -> exists w', hears w u w' /\ map fst w' = map fst v'.
Proof.
  intros H Hw. assert (Hlen : length w = length v) by (by rewrite <-(length_map fst w), Hw, length_map).
  destruct H as [v new n ->|v|v i Hi|v uids|v i u fl fl' uid modseq Hi Hu|v i u fl items fl' uid Hi Hu|v i u fl fl' modseq Hi|v uids|v text].
  - exists (w ++ new). split; [apply hears_exists; rewrite !length_app; lia | by rewrite !map_app, Hw].
  - exists w. split; [constructor | done].
  - exists (delete i w). split; [constructor; lia|]. change (fst <$> delete i w = fst <$> delete i v).
    rewrite !list_fmap_delete. by f_equal.
  - exists (List.filter (fun e => negb (bool_decide (e.1 ∈ uids))) w). split; [constructor|]. clear Hlen. revert v Hw.
    induction w as [|[x a] w IH]; intros [|[y b] v] Hw; try done. cbn in Hw. injection Hw as -> Hw. cbn [List.filter fst].
    destruct (bool_decide _); cbn [negb map]; [by apply IH | by rewrite (IH v)].
  - destruct (fst_lookup _ _ _ _ _ Hw Hi) as [f E].
    exists (<[i := (u, default f fl')]> w). split; [by apply hears_fetch | by apply fst_insert].
  - destruct (fst_lookup _ _ _ _ _ Hw Hi) as [f E].
    exists (<[i := (u, default f fl')]> w). split; [by apply hears_items | by apply fst_insert].
  - destruct (fst_lookup _ _ _ _ _ Hw Hi) as [f E].
    exists (<[i := (u, fl')]> w). split; [by eapply hears_fetch_earlier | by apply fst_insert].
  - exists w. split; [constructor | done].
  - exists w. split; [constructor | done].
Qed.

Lemma hears_all_uids v out v' : hears_all v out v' -> forall w, map fst w = map fst v ->
  exists w', hears_all w out w' /\ map fst w' = map fst v'.
Proof.
  induction 1 as [v|v u v1 out v2 Hu Hout IH]; intros w Hw; [exists w; split; [constructor | done]|].
  destruct (hears_uids _ _ _ _ Hu Hw) as (w1 & Hu1 & Hw1). destruct (IH w1 Hw1) as (w2 & Hout2 & Hw2).
  exists w2. split; [by econstructor | done].
Qed.

Lemma refresh_told e me expunges modseqs shared m s out s' :
  refresh e me expunges modseqs shared (Got m) s = Told out s' ->
  exists s0, messages s0 = messages s /\ catch_up e expunges m s0 = (out, s').
Proof.
  unfold refresh. intros H. destruct modseqs as [modseqs|]; [|done]. destruct (_ && _); [done|].
  destruct (if owner s =? me then _ else _) as [now|]; [|done]. destruct (bool_decide (now = Some [])); [done|].
  exists (match now with Some r => set_rights_of r (read_only s) s | None => s end).
  split; [by destruct now|]. destruct (catch_up _ _ _ _). congruence.
Qed.

Lemma in_step_messages s s' m : messages s' = messages s -> in_step s m -> in_step s' m.
Proof. unfold in_step, largest_uid. by intros ->. Qed.

Lemma hears_answers s out : Forall (names_known s) out -> forall w, map fst w = uids_of (messages s) ->
  exists w', hears_all w out w' /\ map fst w' = uids_of (messages s).
Proof.
  induction 1 as [|u out Hu _ IH]; intros w Hw; [exists w; split; [constructor | done]|].
  assert (Hex : exists w1, hears w u w1 /\ map fst w1 = uids_of (messages s)).
  { assert (Hfetch : forall i k (uid : option Z), messages s !! i = Some k -> exists f, w !! i = Some (known_uid k, f)).
    { intros i k uid Hi. assert (Hx : map fst w !! i = Some (known_uid k)) by (rewrite Hw; unfold uids_of; by rewrite map_lookup, Hi).
      rewrite map_lookup in Hx. destruct (w !! i) as [[u' f]|]; [|done]. injection Hx as ->. by exists f. }
    assert (Hsame : forall i k f g, w !! i = Some (known_uid k, f) -> map fst (<[i := (known_uid k, g)]> w) = uids_of (messages s)).
    { intros i k f g E. rewrite (fst_insert w w i _ g f) by done. by rewrite list_insert_id. }
    destruct u as [| | | | |n fl uid modseq|n items fl uid| | |]; try done; try (exists w; split; [constructor | done]);
      destruct Hu as (i & k & Hi & -> & Huid); destruct (Hfetch i k uid Hi) as [f E];
      exists (<[i := (known_uid k, default f fl)]> w);
      (split; [(by apply hears_fetch) || (by apply hears_items) | by eapply Hsame]). }
  destruct Hex as (w1 & Hu1 & Hw1). destruct (IH w1 Hw1) as (w2 & Hout & Hw2). exists w2. split; [by econstructor | done].
Qed.

Lemma removed_in_step e uids s m : (forall u, u ∈ uids -> u ∉ state_uids m) -> in_step s m ->
  in_step (report_removed e uids s).2 m.
Proof.
  intros Hgone (Hs & Hlt & Hex & Hcov). destruct (report_removed_ok e uids s) as [_ Hm]. set (s' := (report_removed e uids s).2) in *.
  assert (Hsub : forall k, k ∈ messages s' -> k ∈ messages s).
  { intros k Hk. rewrite Hm in Hk. apply list_elem_of_In, filter_In in Hk as [Hk _]. by apply list_elem_of_In. }
  assert (Hs' : StronglySorted Z.lt (uids_of (messages s'))) by (rewrite Hm; by apply uids_filter_sorted).
  split_and!; [done | | by intros k Hk%Hsub; apply Hex |].
  - apply Forall_forall. intros k Hk%Hsub. rewrite Forall_forall in Hlt. by apply Hlt.
  - intros u Hu Hle. assert (Hle' : u <= largest_uid s).
    { destruct (largest_uid_spec s' Hs') as [_ [H0|Hin]].
      - unfold largest_uid in H0, Hle |- *. destruct (last (messages s)) as [k|] eqn:E; [|lia].
        destruct (decide (known_uid k ∈ uids)) as [Hk|Hk].
        + assert (1 <= known_uid k); [|lia]. rewrite Forall_forall in Hlt. apply Hlt. apply last_Some in E as [l ->].
          apply elem_of_app. right. by left.
        + assert (1 <= known_uid k); [|lia]. rewrite Forall_forall in Hlt. apply Hlt. apply last_Some in E as [l ->].
          apply elem_of_app. right. by left.
      - apply elem_of_uids in Hin as (k & Hk%Hsub & Hk'). rewrite <-Hk' in Hle.
        assert (known_uid k <= largest_uid s); [|lia]. apply (largest_uid_spec s Hs), elem_of_uids. by exists k. }
    specialize (Hcov u Hu Hle'). rewrite elem_of_uids in Hcov |- *. destruct Hcov as (k & Hk & Heq). exists k. split; [|done].
    rewrite Hm. apply list_elem_of_In, filter_In. split; [by apply list_elem_of_In|]. apply negb_true_iff, bool_decide_eq_false.
    intros Hin. apply Hgone in Hin. congruence.
Qed.

Lemma others_in_step s m m' : state_ok m' -> evolves m m' -> in_step s m -> in_step s m'.
Proof.
  intros [_ Hp] [Hnext Hev] (Hs & Hlt & Hex & Hcov). rewrite Forall_forall in Hlt. rewrite Forall_forall in Hp. split_and!.
  - done.
  - apply Forall_forall. intros k Hk. specialize (Hlt k Hk). lia.
  - intros k Hk Hx Hu. apply (Hex k Hk Hx), Hev; [done|]. by apply Hlt.
  - intros u Hu Hle. apply Hcov; [|done]. apply Hev; [done|]. destruct (largest_uid_spec s Hs) as [_ [H0|HL]].
    + specialize (Hp u Hu). lia.
    + apply elem_of_uids in HL as (k & Hk & HL). specialize (Hlt k Hk). lia.
Qed.

(** Flags and modseqs make no difference. *)
Lemma answered_in_step s s' m : uids_of (messages s') = uids_of (messages s) ->
  map expunged (messages s') = map expunged (messages s) -> in_step s m -> in_step s' m.
Proof.
  intros Hu Hx (Hs & Hlt & Hex & Hcov).
  assert (Hl : largest_uid s' = largest_uid s).
  { assert (E : last (uids_of (messages s')) = last (uids_of (messages s))) by by rewrite Hu.
    unfold uids_of in E. change (last (known_uid <$> messages s') = last (known_uid <$> messages s)) in E.
    rewrite !fmap_last in E. unfold largest_uid. destruct (last (messages s')), (last (messages s)); by simplify_eq/=. }
  assert (Hsame : forall k, k ∈ messages s' -> exists k0, k0 ∈ messages s /\ known_uid k0 = known_uid k /\ expunged k0 = expunged k).
  { intros k [i Hi]%list_elem_of_lookup.
    assert (E1 : uids_of (messages s) !! i = Some (known_uid k)) by (rewrite <-Hu; unfold uids_of; by rewrite map_lookup, Hi).
    assert (E2 : map expunged (messages s) !! i = Some (expunged k)) by (rewrite <-Hx; by rewrite map_lookup, Hi).
    unfold uids_of in E1. rewrite map_lookup in E1. rewrite map_lookup in E2.
    destruct (messages s !! i) as [k0|] eqn:E; [|done]. exists k0. split; [by eapply list_elem_of_lookup_2|]. by simplify_eq/=. }
  split_and!.
  - by rewrite Hu.
  - apply Forall_forall. intros k (k0 & Hk0 & <- & _)%Hsame. rewrite Forall_forall in Hlt. by apply Hlt.
  - intros k (k0 & Hk0 & <- & <-)%Hsame. by apply Hex.
  - rewrite Hl, Hu. done.
Qed.

(** One step: heard by a client in step, it leaves the client in step. *)
Lemma step_in_step me s m out s' m' : state_ok m -> in_step s m -> step me (s, m) out (s', m') ->
  state_ok m' /\ in_step s' m' /\
  forall w, map fst w = uids_of (messages s) -> exists w', hears_all w out w' /\ map fst w' = uids_of (messages s').
Proof.
  intros Hok Hin Hstep.
  inversion Hstep as [? ? ? Hok' Hev|? ? ? ? ? ? ? ? Href|? ? ? ? Hgone|? ? ? ? ? Hre|? ? ? ? Hout Hu Hx]; subst; clear Hstep.
  - split_and!; [done | by apply (others_in_step _ m) | intros w Hw; exists w; split; [constructor | done]].
  - apply refresh_told in Href as (s0 & Hm0 & Hc).
    assert (Hin0 : in_step s0 m') by by eapply in_step_messages.
    pose proof (catch_up_in_step e expunges m' m' s0 Hin0 Hok (evolves_refl _)) as Hi.
    destruct (catch_up_hears e expunges m' s0 (proj1 Hin0)) as (_ & Hh & _). rewrite Hc in Hi, Hh. cbn [fst snd] in *.
    split_and!; [done | done|]. intros w Hw. rewrite <-Hm0, <-view_uids in Hw.
    destruct (hears_all_uids _ _ _ Hh w Hw) as (w' & Hw1 & Hw2). exists w'. by rewrite view_uids in Hw2.
  - split_and!; [done | by apply removed_in_step|]. intros w Hw. rewrite <-view_uids in Hw.
    destruct (report_removed_ok e uids s) as [Hh _]. destruct (hears_all_uids _ _ _ Hh w Hw) as (w' & Hw1 & Hw2).
    exists w'. by rewrite view_uids in Hw2.
  - assert (Hms : messages s' = messages s) by (unfold recheck_rights in Hre; repeat case_match; by simplify_eq).
    split_and!; [done | by eapply in_step_messages|]. intros w Hw. exists w. split; [constructor | by rewrite Hms].
  - split_and!; [done | by eapply answered_in_step|]. intros w Hw. rewrite Hu. by apply hears_answers.
Qed.

Lemma run_in_step me c out c' : run me c out c' -> state_ok c.2 -> in_step c.1 c.2 ->
  state_ok c'.2 /\ in_step c'.1 c'.2 /\
  forall w, map fst w = uids_of (messages c.1) -> exists w', hears_all w out w' /\ map fst w' = uids_of (messages c'.1).
Proof.
  induction 1 as [c|[s m] out1 [s1 m1] out2 c3 Hstep _ IH]; intros Hok Hin.
  - split_and!; [done | done|]. intros w Hw. exists w. split; [constructor | done].
  - destruct (step_in_step _ _ _ _ _ _ Hok Hin Hstep) as (Hok1 & Hin1 & Hh1). destruct (IH Hok1 Hin1) as (Hok3 & Hin3 & Hh3).
    split_and!; [done | done|]. intros w Hw. destruct (Hh1 w Hw) as (w1 & Hw1 & Hu1). destruct (Hh3 w1 Hu1) as (w3 & Hw3 & Hu3).
    exists w3. split; [by eapply hears_app | done].
Qed.

(** C15: The client counts right. Whatever the session does after a mailbox was opened
    (refreshes with and without EXPUNGE, its own removals, FETCH and STORE answers,
    rights read again) and whatever others do to the mailbox in between, a client that
    applies every answer it was sent has the messages the session takes it to have, by
    number and UID; their UIDs rise, and none of the mailbox is missing among them. *)
Theorem numbers_in_step me s0 m0 out s m :
  opened s0 m0 -> run me (s0, m0) out (s, m) ->
  (exists view, hears_all (view_of (messages s0)) out view /\ map fst view = uids_of (messages s))
  /\ StronglySorted Z.lt (uids_of (messages s))
  /\ (forall u, u ∈ state_uids m -> u <= largest_uid s -> u ∈ uids_of (messages s)).
Proof.
  intros Ho Hr. destruct (run_in_step _ _ _ _ Hr) as (_ & (Hs & _ & _ & Hcov) & Hh); [apply Ho | by apply opened_in_step|].
  split_and!; [|done | done]. by apply Hh, view_uids.
Qed.

(** What the store promises of the modseq of a mailbox: it never goes back, and whatever
    changes among the messages raises it. *)
Definition moves_on (m m' : ImapMessages) : Prop :=
  evolves m m' /\ state_highest_modseq m <= state_highest_modseq m'
  /\ (state_highest_modseq m' = state_highest_modseq m -> state_messages m' = state_messages m).

(** Where the mailbox is still at the modseq the session remembers, the session knows it. *)
Definition up_to_date (s : Selected) (m : ImapMessages) : Prop :=
  highest_modseq s <= state_highest_modseq m
  /\ (state_highest_modseq m = highest_modseq s -> List.filter (fun k => negb (expunged k)) (messages s) = map known_of (state_messages m)).

(** What a refresh makes of the session and the client. *)
Definition caught_up (e : Enabled) (s : Selected) (m : ImapMessages) (out : list Untagged) (s' : Selected) : Prop :=
  messages s' = map known_of (state_messages m) /\ highest_modseq s' = state_highest_modseq m /\ in_step s' m /\ up_to_date s' m
  /\ hears_all (view_of (messages s)) out (view_of (messages s'))
  /\ forall k x, k ∈ messages s -> x ∈ state_messages m -> message_uid x = known_uid k ->
       message_keywords x <> known_keywords k \/ message_modseq x <> known_modseq k ->
       exists i, messages s' !! i = Some (known_of x)
         /\ Fetch_ (seq_of i) (Some (message_keywords x)) (if condstore e then Some (message_uid x) else None)
              (if condstore e then Some (message_modseq x) else None) ∈ out.


(** A refresh that may not tell about removals (after FETCH, STORE and SEARCH by
    number) keeps every number: it sends no EXPUNGE and no VANISHED, the messages the
    client has stay where they are and new ones come behind them; the flags of all that
    are still there are told. *)
Theorem refresh_keeps_numbers e me modseqs shared s m0 m out s' :
  in_step s m0 -> state_ok m -> evolves m0 m ->
  refresh e me false modseqs shared (Got m) s = Told out s' ->
  (exists new, uids_of (messages s') = uids_of (messages s) ++ new)
  /\ (forall u, u ∈ out -> match u with Expunge_ _ | Vanished _ => False | _ => True end)
  /\ List.filter (fun k => negb (expunged k)) (messages s') = map known_of (state_messages m)
  /\ hears_all (view_of (messages s)) out (view_of (messages s')).
Proof.
  intros Hin Hok Hev (s0 & Hm0 & Hc)%refresh_told. rewrite <-Hm0. assert (Hin0 : in_step s0 m0) by by eapply in_step_messages.
  pose proof (catch_up_alive e false m0 m s0 Hin0 Hok Hev) as Hal.
  destruct (catch_up_hears e false m s0 (proj1 Hin0)) as (Hm & Hh & Hno). rewrite Hc in *. cbn [fst snd] in *.
  split_and!; [|by apply Hno | done | done]. rewrite Hm. unfold uids_of. rewrite map_app. eexists. f_equal.
  unfold told_of, kept_of. rewrite !map_map. apply map_ext. intros k. by rewrite upd_uid, mark_uid.
Qed.

(** ** Witnesses *)

Ltac concrete := repeat constructor; vm_compute; congruence.

Lemma three_ok : state_ok three.
Proof. split; concrete. Defined.

Lemma then_two_ok : state_ok then_two.
Proof. split; concrete. Defined.

Lemma three_then_two : evolves three then_two.
Proof.
  split; [vm_compute; congruence|]. intros u [->|[->|[]%elem_of_nil]%elem_of_cons]%elem_of_cons Hlt; [|vm_compute in Hlt; congruence].
  right. by left.
Defined.

Lemma three_opened : opened (selected_at three) three.
Proof. split; [reflexivity | exact three_ok]. Defined.

(** What the refresh of the example leaves. *)
Definition after_refresh (e : Enabled) (expunges : bool) : list Untagged * Selected := catch_up e expunges then_two (selected_at three).

Lemma numbers_in_step_witness :
  exists view, hears_all (view_of (messages (selected_at three))) (after_refresh plain true).1 view
    /\ map fst view = [2; 4].
Proof.
  assert (Hr : run 1 (selected_at three, three) ([] ++ (after_refresh plain true).1 ++ []) ((after_refresh plain true).2, then_two)).
  { apply (run_step 1 _ [] (selected_at three, then_two)).
    - apply step_others; [exact then_two_ok | exact three_then_two].
    - apply (run_step 1 _ (after_refresh plain true).1 ((after_refresh plain true).2, then_two)); [|constructor].
      apply (step_refresh 1 plain true (Got (Some (9, 0))) (Got None)). vm_compute. reflexivity. }
  destruct (numbers_in_step 1 (selected_at three) three _ _ then_two three_opened Hr) as ((view & Hv & Hu) & _).
  exists view. split; [exact Hv | exact Hu].
Defined.


Lemma refresh_keeps_numbers_witness :
  exists new, uids_of (messages (after_refresh plain false).2) = uids_of (messages (selected_at three)) ++ new.
Proof.
  apply (refresh_keeps_numbers plain 1 (Got (Some (9, 0))) (Got None) (selected_at three) three then_two (after_refresh plain false).1);
    [exact (opened_in_step _ _ three_opened) | exact then_two_ok | exact three_then_two | vm_compute; reflexivity].
Defined.
