(* ===== verification/ImapSessionStore.v ===== *)
(** * EXPUNGE, STORE, COPY and MOVE (crates\/uwumail-imap\/src\/session.rs)

    The commands that change a mailbox. Each is split at its calls of the store: what it
    asks for ([expunge_request], [store_request], [copy_request]) is decided by the
    selection and its rights alone, and is what the theorems about rights are about;
    what it answers is a function of what the store returned. [finish] is the refresh
    every one of them ends with. *)

From stdpp Require Import sorting.
From S2P Require Import Prelude ImapCommand ImapParser ImapResponse ImapSearch Acl ImapMailboxes ImapSession.

(** ** Answers *)

(** [no] *)
Definition no (tag : list byte) (code : option (list byte)) (text : list byte) : list byte :=
  match code with
  | Some code => tag ++ bs " NO [" ++ code ++ bs "] " ++ text ++ CRLF
  | None => tag ++ bs " NO " ++ text ++ CRLF
  end.

Definition no_permission (tag : list byte) : list byte := no tag (Some (bs "NOPERM")) (bs "You may not do that in this mailbox").

Definition store_error (tag : list byte) (e : StoreError) : list byte :=
  match e with
  | NotFound => no tag (Some (bs "NONEXISTENT")) (bs "No such mailbox")
  | QuotaExceeded => no tag (Some (bs "OVERQUOTA")) (bs "The mailbox is full")
  | Rule message => no tag (Some (bs "CANNOT")) message
  | OtherError => no tag (Some (bs "SERVERBUG")) (bs "Something went wrong, please try again")
  end.

Definition cannot_read_only (tag : list byte) : list byte := no tag (Some (bs "CANNOT")) (bs "The mailbox is read-only").

Definition ok (tag text : list byte) : list byte := tag ++ bs " OK " ++ text ++ CRLF.

(** What a command sends, and what is selected after it. *)
Record Answered := { sent : list Untagged; tagged : list byte; selected_then : option Selected }.

(** What a command asks of the store, or the answer that refuses it. *)
Inductive request (A : Type) := Refused (answer : list byte) | Ask (a : A).
Arguments Refused {A} answer.
Arguments Ask {A} a.

(** What the store answers a refresh. *)
Record Reads := {
  read_modseqs : answer (option (Z * Z)); read_shared : answer (option (list byte)); read_state : answer ImapMessages }.

(** The refresh at the end of a command, its error turned into one of the store
    ([map_err(io_error)]). [text] is the tagged answer, given the selection by then. *)
Definition finish (e : Enabled) (me : Z) (expunges : bool) (r : Reads) (tag : list byte) (out : list Untagged)
    (text : Selected -> list byte) (s : Selected) : Answered :=
  match refresh e me expunges (read_modseqs r) (read_shared r) (read_state r) s with
  | Same => {| sent := out; tagged := text s; selected_then := Some s |}
  | Told told s => {| sent := out ++ told; tagged := text s; selected_then := Some s |}
  | Ended bye => {| sent := out ++ [Line bye]; tagged := store_error tag OtherError; selected_then := None |}
  | Failed => {| sent := out; tagged := store_error tag OtherError; selected_then := Some s |}
  end.

(** A refusal changes nothing. *)
Definition refuse (answer : list byte) (s : Selected) : Answered :=
  {| sent := []; tagged := answer; selected_then := Some s |}.

(** ** EXPUNGE *)

(** The UIDs to expunge among, all of them when there are none. *)
Definition expunge_request (tag : list byte) (uids : option SequenceSet) (s : Selected) : request (option (list Z)) :=
  if read_only s then Refused (cannot_read_only tag)
  else if negb (has_letter (rights s) "e"%byte) then Refused (no_permission tag)
  else Ask ((fun set => List.filter (fun uid => ImapCommand.contains set uid (largest_uid s)) (map known_uid (messages s))) <$> uids).

(** [imap_expunge]: the UIDs it removed. *)
Definition expunge (e : Enabled) (me : Z) (tag : list byte) (uids : option SequenceSet)
    (imap_expunge : option (list Z) -> answer (list Z)) (r : Reads) (s : Selected) : Answered :=
  match expunge_request tag uids s with
  | Refused answer => refuse answer s
  | Ask among =>
      match imap_expunge among with
      | Broken err => refuse (store_error tag err) s
      | Got removed =>
          let '(out, s) := report_removed e removed s in
          finish e me true r tag out (fun _ => ok tag (bs "Expunge completed")) s
      end
  end.

(** ** STORE *)

Inductive FlagChange := Add (flags : list (list byte)) | Remove (flags : list (list byte)) | Replace (flags : list (list byte)).

(** The keywords of the flags, without [\Recent]; the first flag that is none. *)
Fixpoint store_keywords (flags keywords : list (list byte)) : list (list byte) + list byte :=
  match flags with
  | [] => inl keywords
  | flag :: flags =>
      if eq_ignore_ascii_case flag (bs "\Recent") then store_keywords flags keywords
      else match keyword_of_flag flag with
           | Some keyword => store_keywords flags (keywords ++ [keyword])
           | None => inr flag
           end
  end.

(** The messages a command means, by position and UID: those the set names that are not
    gone already. *)
Definition targets_of (s : Selected) (set : SequenceSet) (uid : bool) : list (nat * Z) :=
  omap (fun i => match messages s !! i with
                 | Some k => if expunged k then None else Some (i, known_uid k)
                 | None => None
                 end) (resolve s set uid).

#[export] Instance store_action_eq_decision : EqDecision StoreAction.
Proof. solve_decision. Defined.

Definition flag_change (action : StoreAction) (keywords : list (list byte)) : FlagChange :=
  match action with
  | StoreAction.Add => Add keywords
  | StoreAction.Remove => Remove keywords
  | StoreAction.Replace => Replace keywords
  end.

Definition store_request (tag : list byte) (uid : bool) (set : SequenceSet) (action : StoreAction)
    (flags : list (list byte)) (s : Selected) : request (list (nat * Z) * FlagChange) :=
  if read_only s then Refused (cannot_read_only tag)
  else
    match store_keywords flags [] with
    | inr flag => Refused (tag ++ bs " BAD " ++ flag ++ bs " cannot be stored" ++ CRLF)
    | inl keywords =>
        if bool_decide (action = StoreAction.Replace) && negb (has_rights (rights s) (bs "swt"))
        then Refused (no_permission tag)
        else
          let allowed := List.filter (may_set_keyword (rights s)) keywords in
          if bool_decide (keywords <> [] /\ allowed = []) then Refused (no_permission tag)
          else Ask (targets_of s set uid, flag_change action allowed)
    end.

(** What is known of a message once its email was read. *)
Definition as_read (email : ImapEmail) (k : Known) : Known :=
  {| known_uid := known_uid k; known_modseq := modseq email; known_keywords := keywords email; expunged := expunged k |}.

Definition emails_by_uid (emails : list ImapEmail) : gmap Z ImapEmail := foldl (fun m e => <[uid e := e]> m) ∅ emails.

(** The answers to STORE, and what is known after them. *)
Fixpoint store_answers (e : Enabled) (by_uid silent : bool) (skipped : list Z) (emails : gmap Z ImapEmail)
    (targets : list (nat * Z)) (messages : list Known) : list Known * list Untagged :=
  match targets with
  | [] => (messages, [])
  | (index, message_uid) :: targets =>
      match emails !! message_uid, messages !! index with
      | Some email, Some known =>
          let changed := bool_decide (known_keywords known <> keywords email \/ known_modseq known <> modseq email) in
          let messages := <[index := as_read email known]> messages in
          let '(after, out) := store_answers e by_uid silent skipped emails targets messages in
          if bool_decide (message_uid ∈ skipped) || (silent && negb (condstore e && changed)) then (after, out)
          else
            (after,
             Fetch_ (seq_of index) (if silent then None else Some (keywords email))
               (if by_uid || condstore e then Some (uid email) else None)
               (if condstore e then Some (modseq email) else None) :: out)
      | _, _ => store_answers e by_uid silent skipped emails targets messages
      end
  end.

(** The tagged answer; without UID the numbers are those after the refresh. *)
Definition store_text (tag : list byte) (by_uid : bool) (skipped : list Z) (s : Selected) : list byte :=
  match skipped with
  | [] => ok tag (bs "Store completed")
  | _ =>
      let numbers := if by_uid then skipped
                     else merge_sort Z.le (omap (fun u => seq_of <$> ImapSession.position s u) skipped) in
      ok tag (bs "[MODIFIED " ++ sequence_set_text numbers ++ bs "] Conditional store failed")
  end.

(** [imap_store_flags_by]: the UIDs it left alone; [imap_emails]: the messages after it. *)
Definition store_flags (e : Enabled) (me : Z) (tag : list byte) (by_uid : bool) (set : SequenceSet)
    (unchanged_since : option Z) (action : StoreAction) (silent : bool) (flags : list (list byte))
    (imap_store_flags_by : list Z -> FlagChange -> option Z -> answer (list Z))
    (imap_emails : list Z -> answer (list ImapEmail)) (r : Reads) (s : Selected) : Enabled * Answered :=
  match store_request tag by_uid set action flags s with
  | Refused answer => (e, refuse answer s)
  | Ask (targets, change) =>
      let e := {| utf8 := utf8 e; condstore := condstore e || bool_decide (is_Some unchanged_since);
                  qresync := qresync e; rev2 := rev2 e |} in
      let uids := map snd targets in
      (e,
       match imap_store_flags_by uids change unchanged_since with
       | Broken err => refuse (store_error tag err) s
       | Got skipped =>
           match imap_emails uids with
           | Broken err => refuse (store_error tag err) s
           | Got emails =>
               let '(messages, out) := store_answers e by_uid silent skipped (emails_by_uid emails) targets (messages s) in
               finish e me false r tag out (store_text tag by_uid skipped) (set_messages messages s)
           end
       end)
  end.

(** ** COPY and MOVE *)

(** COPYUID lists keep the order of the pairs. *)
Definition uid_list (uids : list Z) : list byte :=
  if decide (merge_sort Z.le uids = uids) then sequence_set_text uids else join (bs ",") (map dec uids).

(** The UIDs to copy and where to. *)
Definition copy_request (tag : list byte) (by_uid : bool) (set : SequenceSet) (path : list byte) (remove_source : bool)
    (named : list Named) (s : Selected) : request (list Z * Named) :=
  if remove_source && read_only s then Refused (cannot_read_only tag)
  else if remove_source && negb (has_rights (rights s) (bs "te")) then Refused (no_permission tag)
  else
    match find named path with
    | Some target =>
        if placeholder target then Refused (no tag (Some (bs "TRYCREATE")) (bs "No such mailbox"))
        else if may target (bs "i") then Ask (map snd (targets_of s set by_uid), target)
        else Refused (no_permission tag)
    | None => Refused (no tag (Some (bs "TRYCREATE")) (bs "No such mailbox"))
    end.

(** The flags a copy into someone else's mailbox keeps. *)
Definition copied_keywords (target : Named) (email : ImapEmail) : list (list byte) :=
  List.filter (may_set_keyword (named_rights target)) (keywords email).

(** [copy_across]: each message becomes a new email; [ingest] is what the store does with
    the original and the flags it is to have. It ends at the first that fails. *)
Fixpoint copy_across (ingest : ImapEmail -> list (list byte) -> answer Z) (target : Named) (emails : list ImapEmail)
    (pairs : list (Z * Z)) : answer (list (Z * Z)) :=
  match emails with
  | [] => Got pairs
  | email :: emails =>
      match ingest email (copied_keywords target email) with
      | Got copied => copy_across ingest target emails (pairs ++ [(uid email, copied)])
      | Broken err => Broken err
      end
  end.

Definition copy_code (target : Named) (pairs : list (Z * Z)) : list byte :=
  match pairs with
  | [] => []
  | _ => bs "[COPYUID " ++ dec (box_uid_validity (named_mailbox target)) ++ bs " " ++ uid_list (map fst pairs) ++ bs " "
         ++ uid_list (map snd pairs) ++ bs "] "
  end.

(** [imap_copy] within an account, [imap_emails] and [ingest] into another's,
    [imap_remove] the originals. *)
Definition copy (e : Enabled) (me : Z) (tag : list byte) (by_uid : bool) (set : SequenceSet) (path : list byte)
    (remove_source : bool) (named : list Named)
    (imap_copy : list Z -> Z -> bool -> answer (list (Z * Z)))
    (imap_emails : list Z -> answer (list ImapEmail)) (ingest : ImapEmail -> list (list byte) -> answer Z)
    (imap_remove : list Z -> answer (list Z)) (r : Reads) (s : Selected) : Answered :=
  match copy_request tag by_uid set path remove_source named s with
  | Refused answer => refuse answer s
  | Ask (uids, target) =>
      let same := named_owner target =? owner s in
      match
        if same then imap_copy uids (box_id (named_mailbox target)) remove_source
        else match imap_emails uids with
             | Got emails => copy_across ingest target emails []
             | Broken err => Broken err
             end
      with
      | Broken err => refuse (store_error tag err) s
      | Got pairs =>
          let code := copy_code target pairs in
          if negb remove_source then
            finish e me by_uid r tag [] (fun _ => ok tag (code ++ bs "Copy completed")) s
          else
            let moved := map fst pairs in
            let done := fun _ : Selected => ok tag (bs "Move completed") in
            if box_id (named_mailbox target) =? mailbox_id s then finish e me true r tag [] done s
            else
              match (if same then Got [] else imap_remove moved) with
              | Broken err => refuse (store_error tag err) s
              | Got _ =>
                  let line := match code with [] => [] | _ => [Line (bs "OK " ++ code ++ bs "Moved")] end in
                  let '(out, s) := report_removed e moved s in
                  finish e me true r tag (line ++ out) done s
              end
      end
  end.

(** ** Lemmas *)

Lemma elem_of_positions {A} (p : A -> bool) l i : i ∈ positions_of p l <-> exists a, l !! i = Some a /\ p a = true.
Proof.
  unfold positions_of. rewrite list_elem_of_In, filter_In, in_seq. split.
  - intros [_ H]. destruct (l !! i) as [a|]; [by exists a | done].
  - intros (a & Hi & Hp). rewrite Hi. pose proof (lookup_lt_Some _ _ _ Hi). split; [lia | done].
Qed.

(** Whether a set names a message of the selection, by UID or by number. *)
Definition names (s : Selected) (set : SequenceSet) (by_uid : bool) (i : nat) (k : Known) : Prop :=
  (if by_uid then ImapCommand.contains set (known_uid k) (largest_uid s)
   else ImapCommand.contains set (seq_of i) (Z.of_nat (length (messages s)))) = true.

Lemma elem_of_resolve s set by_uid i :
  i ∈ resolve s set by_uid <-> exists k, messages s !! i = Some k /\ names s set by_uid i k.
Proof.
  unfold resolve, names. destruct by_uid; [apply elem_of_positions|].
  rewrite list_elem_of_In, filter_In, in_seq. split.
  - intros [Hi Hc]. destruct (lookup_lt_is_Some_2 (messages s) i) as [k Hk]; [lia|]. by exists k.
  - intros (k & Hk & Hc). pose proof (lookup_lt_Some _ _ _ Hk). split; [lia | done].
Qed.

(** The targets are the messages the set names that are still there. *)
Lemma elem_of_targets s set by_uid i u : (i, u) ∈ targets_of s set by_uid <->
  exists k, messages s !! i = Some k /\ known_uid k = u /\ expunged k = false /\ names s set by_uid i k.
Proof.
  unfold targets_of. rewrite list_elem_of_omap. split.
  - intros (j & Hj & H). apply elem_of_resolve in Hj as (k & Hk & Hn). rewrite Hk in H.
    destruct (expunged k) eqn:E; [done|]. injection H as -> <-. by exists k.
  - intros (k & Hk & <- & Hx & Hn). exists i. split; [apply elem_of_resolve; by exists k|]. by rewrite Hk, Hx.
Qed.

(** The keywords a change is about. *)
Definition change_keywords (c : FlagChange) : list (list byte) :=
  match c with Add k | Remove k | Replace k => k end.

(** C23: STORE changes only what the rights allow, and only the messages it names: never
    in a read-only mailbox; each keyword it adds or removes is one the rights cover
    ([s] for [\Seen], [t] for [\Deleted], [w] for the others); all flags are replaced only
    with all three; and the messages are exactly those the set names, by number or UID,
    that are not gone. *)
Theorem store_within_rights tag by_uid set action flags s targets change :
  store_request tag by_uid set action flags s = Ask (targets, change) ->
  read_only s = false
  /\ Forall (fun keyword => may_set_keyword (rights s) keyword = true) (change_keywords change)
  /\ (forall k, change = Replace k -> has_rights (rights s) (bs "swt") = true)
  /\ forall i u, (i, u) ∈ targets <->
       exists k, messages s !! i = Some k /\ known_uid k = u /\ expunged k = false /\ names s set by_uid i k.
Proof.
  unfold store_request. destruct (read_only s); [done|]. destruct (store_keywords flags []) as [asked|flag]; [|done].
  destruct (bool_decide (action = StoreAction.Replace) && _) eqn:Er; [done|]. destruct (bool_decide (asked <> [] /\ _)); [done|].
  intros [= <- <-]. split_and!; [done | | |].
  - assert (Hc : change_keywords (flag_change action (List.filter (may_set_keyword (rights s)) asked))
              = List.filter (may_set_keyword (rights s)) asked) by by destruct action.
    rewrite Hc. apply Forall_forall. intros k [_ Hk]%list_elem_of_In%filter_In. done.
  - intros k Hk. destruct action; try done. by apply negb_false_iff.
  - intros i u. apply elem_of_targets.
Qed.

(** MOVE takes messages out only with the right to delete and expunge, in a mailbox
    that is not read-only, and COPY and MOVE put them only into a mailbox the account may
    insert into; the messages are those the set names that are not gone. *)
Theorem copy_within_rights tag by_uid set path remove_source named s uids target :
  copy_request tag by_uid set path remove_source named s = Ask (uids, target) ->
  (remove_source = true -> read_only s = false /\ has_rights (rights s) (bs "te") = true)
  /\ find named path = Some target /\ may target (bs "i") = true
  /\ forall u, u ∈ uids <-> exists i k, messages s !! i = Some k /\ known_uid k = u /\ expunged k = false /\ names s set by_uid i k.
Proof.
  unfold copy_request. destruct (remove_source && read_only s) eqn:E1; [done|].
  destruct (remove_source && negb _) eqn:E2; [done|]. destruct (find named path) as [t|] eqn:Ef; [|done].
  destruct (placeholder t); [done|]. destruct (may t (bs "i")) eqn:Em; [|done]. intros [= <- <-]. split_and!; try done.
  - intros ->. cbn [andb] in *. by apply negb_false_iff in E2.
  - intros u. change (map snd (targets_of s set by_uid)) with (snd <$> targets_of s set by_uid). rewrite list_elem_of_fmap. split.
    + intros ([i u'] & -> & H). apply elem_of_targets in H as (k & ?). by exists i, k.
    + intros (i & k & H). exists (i, u). split; [done|]. apply elem_of_targets. by exists k.
Qed.
