(* ===== verification/ImapSessionRuns.v ===== *)
(** * The commands keep the client in step (crates\/uwumail-imap\/src\/session.rs)

    EXPUNGE, STORE, COPY and MOVE as runs of the steps of ImapSessionSync.v: what holds of
    every run ([numbers_in_step]) holds of the commands. Two examples show what the
    session does not tell: flags that it read itself, and that it goes on after BYE. *)

From S2P Require Import Prelude ImapCommand ImapParser ImapResponse ImapSearch Acl ImapMailboxes ImapSession ImapSessionSync ImapSessionStore.

(** ** Steps *)

Lemma run_one me c out c' : step me c out c' -> run me c out c'.
Proof. intros H. rewrite <-(app_nil_r out). eapply run_step; [exact H | constructor]. Qed.

Lemma run_app me c1 out1 c2 out2 c3 : run me c1 out1 c2 -> run me c2 out2 c3 -> run me c1 (out1 ++ out2) c3.
Proof. induction 1; [done|]. intros H2. rewrite <-app_assoc. eapply run_step; eauto. Qed.

Lemma run_others me s m m' : state_ok m' -> evolves m m' -> run me (s, m) [] (s, m').
Proof. intros. apply run_one. by apply step_others. Qed.

(** A store that answers a refresh with the mailbox as it is then. *)
Definition reads_from (r : Reads) (m m' : ImapMessages) : Prop := read_state r = Got m' /\ state_ok m' /\ evolves m m'.

Lemma finish_runs e me expunges r tag out text s m m' c0 s' :
  reads_from r m m' -> run me c0 out (s, m) ->
  selected_then (finish e me expunges r tag out text s) = Some s' ->
  run me c0 (sent (finish e me expunges r tag out text s)) (s', m').
Proof.
  intros (Hr & Hok & Hev) Hrun. unfold finish. rewrite Hr.
  destruct (refresh e me expunges (read_modseqs r) (read_shared r) (Got m') s) as [|told s1|bye|] eqn:E; cbn [selected_then sent];
    [| |done|]; intros [= <-].
  - rewrite <-(app_nil_r out). eapply run_app; [exact Hrun|]. by apply run_others.
  - eapply run_app; [exact Hrun|]. change told with ([] ++ told). eapply run_app; [by apply run_others|].
    apply run_one. by eapply step_refresh.
  - rewrite <-(app_nil_r out). eapply run_app; [exact Hrun|]. by apply run_others.
Qed.

Lemma refuse_runs me answer s m m' s' : state_ok m' -> evolves m m' ->
  selected_then (refuse answer s) = Some s' -> run me (s, m) (sent (refuse answer s)) (s', m').
Proof. intros Hok Hev [= <-]. by apply run_others. Qed.

(** ** EXPUNGE *)

(** EXPUNGE keeps the client in step: when what the store says it removed is no
    longer there, the answers to EXPUNGE and what the refresh tells are a run of the
    session. *)
Theorem expunge_in_step e me tag uids imap_expunge r s m1 m' s' m0 :
  state_ok m1 -> evolves m0 m1 ->
  (forall among removed, imap_expunge among = Got removed -> forall u, u ∈ removed -> u ∉ state_uids m1) ->
  reads_from r m1 m' ->
  selected_then (expunge e me tag uids imap_expunge r s) = Some s' ->
  run me (s, m0) (sent (expunge e me tag uids imap_expunge r s)) (s', m').
Proof.
  intros Hok1 Hev1 Hgone Hreads. pose proof Hreads as (_ & Hok & Hev). assert (Hev' : evolves m0 m') by by etrans.
  unfold expunge. destruct (expunge_request tag uids s) as [answer|among]; [by apply refuse_runs|].
  destruct (imap_expunge among) as [removed|err] eqn:E; [|by apply refuse_runs].
  pose proof (step_removed me e removed s m1 (Hgone _ _ E)) as Hstep.
  destruct (report_removed e removed s) as [out s1]. cbn [fst snd] in Hstep.
  apply (finish_runs _ _ _ _ _ _ _ _ m1); [done|].
  change out with ([] ++ out). eapply run_app; [by apply (run_others me s m0 m1) | by apply run_one].
Qed.

(** ** STORE *)

Lemma by_uid_insert l : forall m : gmap Z ImapEmail, (forall u e, m !! u = Some e -> uid e = u) ->
  forall u e, foldl (fun m e => <[uid e := e]> m) m l !! u = Some e -> uid e = u.
Proof.
  induction l as [|a l IH]; intros m H0; [exact H0|]. apply IH. intros v x [[<- <-]|[_ Hx]]%lookup_insert_Some; [done | eauto].
Qed.

Lemma emails_by_uid_uid emails u email : emails_by_uid emails !! u = Some email -> uid email = u.
Proof. apply by_uid_insert. intros v x Hx. by rewrite lookup_empty in Hx. Qed.

Lemma map_insert_same {A B} (f : A -> B) l i a b : l !! i = Some a -> f b = f a -> map f (<[i := b]> l) = map f l.
Proof.
  intros Hi Hf. change (f <$> <[i := b]> l = f <$> l). rewrite list_fmap_insert, Hf. apply list_insert_id.
  by rewrite list_lookup_fmap, Hi.
Qed.

Lemma store_answers_ok e by_uid silent skipped emails s targets : forall messages0,
  uids_of messages0 = uids_of (messages s) -> map expunged messages0 = map expunged (messages s) ->
  (forall i u, (i, u) ∈ targets -> exists k, messages s !! i = Some k /\ known_uid k = u) ->
  let '(after, out) := store_answers e by_uid silent skipped (emails_by_uid emails) targets messages0 in
  uids_of after = uids_of (messages s) /\ map expunged after = map expunged (messages s) /\ Forall (names_known s) out.
Proof.
  induction targets as [|[i u] targets IH]; intros ms Hu Hx Ht; [by split_and!|]. cbn [store_answers].
  assert (Ht' : forall i u, (i, u) ∈ targets -> exists k, messages s !! i = Some k /\ known_uid k = u) by (intros; apply Ht; by right).
  destruct (emails_by_uid emails !! u) as [email|] eqn:Ee; [|by apply IH].
  destruct (ms !! i) as [known|] eqn:Ek; [|by apply IH].
  specialize (IH (<[i := as_read email known]> ms)).
  destruct (store_answers e by_uid silent skipped (emails_by_uid emails) targets (<[i := as_read email known]> ms)) as [after out].
  destruct IH as (Hu' & Hx' & Hout).
  { unfold uids_of. by rewrite (map_insert_same known_uid ms i known). }
  { by rewrite (map_insert_same expunged ms i known). }
  { done. }
  destruct (bool_decide (u ∈ skipped) || _); [by split_and!|]. split_and!; [done | done|]. constructor; [|done].
  destruct (Ht i u) as (k & Hk & Hku); [by left|]. exists i, k. split_and!; [done | done|].
  apply emails_by_uid_uid in Ee. rewrite Ee, Hku. destruct (by_uid || condstore e); [by right | by left].
Qed.

(** STORE keeps the client in step: each FETCH it answers names a message by the
    number, and the UID, the client knows it by, and no number changes before the
    tagged answer. *)
Theorem store_in_step e me tag by_uid set since action silent fl imap_store_flags_by imap_emails r s m0 m' s' :
  reads_from r m0 m' ->
  let a := (store_flags e me tag by_uid set since action silent fl imap_store_flags_by imap_emails r s).2 in
  selected_then a = Some s' -> run me (s, m0) (sent a) (s', m').
Proof.
  intros Hreads. pose proof Hreads as (_ & Hok & Hev). cbv zeta. unfold store_flags.
  destruct (store_request tag by_uid set action fl s) as [answer|[targets change]] eqn:Er; cbn [snd]; [by apply refuse_runs|].
  destruct (imap_store_flags_by _ _ _) as [skipped|]; [|by apply refuse_runs].
  destruct (imap_emails _) as [emails|]; [|by apply refuse_runs].
  set (e' := {| utf8 := _ |}).
  pose proof (store_answers_ok e' by_uid silent skipped emails s targets (messages s) eq_refl eq_refl) as H.
  destruct (store_answers e' by_uid silent skipped (emails_by_uid emails) targets (messages s)) as [after out].
  destruct H as (Hu & Hx & Hout).
  { intros i u Hin. assert (Ht : targets = targets_of s set by_uid).
    { unfold store_request in Er. repeat case_match; by simplify_eq. }
    rewrite Ht in Hin. apply elem_of_targets in Hin as (k & Hk & Hku & _). by exists k. }
  apply (finish_runs _ _ _ _ _ _ _ _ m0); [done|]. apply run_one. by apply step_answered.
Qed.

(** ** COPY and MOVE *)

(** COPY and MOVE keep the client in step: what was moved away is named to the
    client as removed, or by its UID, once the store has it no longer. *)
Theorem copy_in_step e me tag by_uid set path remove_source named imap_copy imap_emails ingest imap_remove r s m0 m1 m' s' :
  state_ok m1 -> evolves m0 m1 ->
  (forall uids target pairs, imap_copy uids target true = Got pairs -> target <> mailbox_id s ->
     forall u, u ∈ map fst pairs -> u ∉ state_uids m1) ->
  (forall uids removed, imap_remove uids = Got removed -> forall u, u ∈ uids -> u ∉ state_uids m1) ->
  reads_from r m1 m' ->
  let a := copy e me tag by_uid set path remove_source named imap_copy imap_emails ingest imap_remove r s in
  selected_then a = Some s' -> run me (s, m0) (sent a) (s', m').
Proof.
  intros Hok1 Hev1 Hcopy Hremove Hreads. pose proof Hreads as (_ & Hok & Hev). assert (Hev' : evolves m0 m') by by etrans.
  cbv zeta. unfold copy. destruct (copy_request _ _ _ _ _ _ _) as [answer|[uids target]]; [by apply refuse_runs|].
  destruct (if named_owner target =? owner s then _ else _) as [pairs|] eqn:Ep; [|by apply refuse_runs].
  assert (Hbegin : forall out s1, run me (s, m1) out (s1, m1) -> run me (s, m0) out (s1, m1)).
  { intros out s1 H. change out with ([] ++ out). eapply (run_app _ _ _ (s, m1)); [by apply run_others | exact H]. }
  destruct (negb remove_source) eqn:Erm.
  { apply (finish_runs _ _ _ _ _ _ _ _ m1); [done|]. apply Hbegin. constructor. }
  destruct (Z.eqb_spec (box_id (named_mailbox target)) (mailbox_id s)) as [|Hne].
  { apply (finish_runs _ _ _ _ _ _ _ _ m1); [done|]. apply Hbegin. constructor. }
  apply negb_false_iff in Erm. subst remove_source.
  assert (Hgone : forall gone, (if named_owner target =? owner s then Got [] else imap_remove (map fst pairs)) = Got gone ->
            forall u, u ∈ map fst pairs -> u ∉ state_uids m1).
  { intros gone Hg. destruct (named_owner target =? owner s); [by eapply Hcopy | by eapply Hremove]. }
  destruct (if named_owner target =? owner s then Got [] else imap_remove (map fst pairs)) as [gone|] eqn:Eg; [|by apply refuse_runs].
  pose proof (step_removed me e (map fst pairs) s m1 (Hgone _ eq_refl)) as Hstep.
  destruct (report_removed e (map fst pairs) s) as [out s1]. cbn [fst snd] in Hstep.
  apply (finish_runs _ _ _ _ _ _ _ _ m1); [done|]. apply Hbegin.
  eapply (run_app _ _ _ (s, m1)); [|by apply run_one].
  apply run_one, step_answered; [|done|done]. destruct (copy_code target pairs); repeat constructor.
Qed.

(** ** Witnesses *)

Definition mail (u m : Z) (kw : list string) : ImapEmail :=
  {| uid := u; email_id := u + 100; modseq := m; keywords := map bs kw; blob := []; size := 0; received_at := 0;
     sent_at := None; subject := []; from := []; to := []; cc := []; bcc := [] |}.

Definition reading (m : ImapMessages) : Reads :=
  {| read_modseqs := Got (Some (state_highest_modseq m, state_sharing_modseq m)); read_shared := Got None; read_state := Got m |}.

Definition number (n : Z) : SequenceSet := [(SeqNum.Value n, SeqNum.Value n)].

(** The mailbox once its second message was flagged. *)
Definition flagged_two : ImapMessages := mailbox_at 6 4 [message 1 1 []; message 2 6 ["$flagged"; "$seen"]; message 3 3 []]%string.

(** STORE 2 +FLAGS (\Flagged). *)
Definition stored : Answered :=
  (store_flags plain 1 (bs "a") false (number 2) None StoreAction.Add false [bs "\Flagged"]
     (fun _ _ _ => Got []) (fun _ => Got [mail 2 6 ["$flagged"; "$seen"]]) (reading flagged_two) (selected_at three)).2.

Lemma flagged_two_ok : state_ok flagged_two.
Proof. split; concrete. Defined.

Lemma three_flagged_two : evolves three flagged_two.
Proof. split; [vm_compute; congruence|]. done. Defined.

Lemma store_in_step_witness :
  exists s', selected_then stored = Some s' /\ run 1 (selected_at three, three) (sent stored) (s', flagged_two)
    /\ mjoin (map untagged_text (sent stored)) = bs "* 2 FETCH (FLAGS (\Flagged \Seen))" ++ CRLF.
Proof.
  destruct (selected_then stored) as [s'|] eqn:E; [|vm_compute in E; discriminate]. exists s'. split; [done|].
  split; [|vm_compute; reflexivity].
  refine (store_in_step plain 1 (bs "a") false (number 2) None StoreAction.Add false [bs "\Flagged"]
    (fun _ _ _ => Got []) (fun _ => Got [mail 2 6 ["$flagged"; "$seen"]]) (reading flagged_two) (selected_at three) three flagged_two s' _ E).
  split; [reflexivity | split; [exact flagged_two_ok | exact three_flagged_two]].
Defined.

Lemma store_within_rights_witness :
  may_set_keyword (rights (selected_at three)) (bs "$flagged") = true.
Proof.
  pose proof (store_within_rights (bs "a") false (number 2) StoreAction.Add [bs "\Flagged"] (selected_at three)
    [(1%nat, 2)] (Add [bs "$flagged"]) eq_refl) as (_ & H & _). by apply Forall_cons in H as [H _].
Defined.

(** The mailbox once its first message was expunged. *)
Definition without_one : ImapMessages := mailbox_at 6 4 [message 2 2 ["$seen"]; message 3 3 []]%string.

Definition expunged_one : Answered :=
  expunge plain 1 (bs "a") None (fun _ => Got [1]) (reading without_one) (selected_at three).

Lemma without_one_ok : state_ok without_one.
Proof. split; concrete. Defined.

Lemma three_without_one : evolves three without_one.
Proof. split; [vm_compute; congruence|]. intros u Hu _. by right. Defined.

Lemma expunge_in_step_witness :
  exists s', selected_then expunged_one = Some s' /\ run 1 (selected_at three, three) (sent expunged_one) (s', without_one)
    /\ mjoin (map untagged_text (sent expunged_one)) = bs "* 1 EXPUNGE" ++ CRLF.
Proof.
  destruct (selected_then expunged_one) as [s'|] eqn:E; [|vm_compute in E; discriminate]. exists s'. split; [done|].
  split; [|vm_compute; reflexivity].
  refine (expunge_in_step plain 1 (bs "a") None (fun _ => Got [1]) (reading without_one) (selected_at three) without_one without_one
    s' three without_one_ok three_without_one _ _ E).
  - intros among removed [= <-] u ->%list_elem_of_singleton. apply (bool_decide_unpack _). vm_compute. exact I.
  - split; [reflexivity | split; [exact without_one_ok | reflexivity]].
Defined.

Definition archive : Named :=
  {| named_mailbox := box 2 None "Archive" (Some MailboxRole.Archive); path := bs "Archive"; has_children := false;
     named_owner := 1; named_rights := ALL_RIGHTS; placeholder := false |}.

(** MOVE 1 Archive, by UID, where it becomes the ninth. *)
Definition moved_one : Answered :=
  copy plain 1 (bs "a") true (number 1) (bs "Archive") true [archive] (fun uids _ _ => Got [(1, 9)]) (fun _ => Got [])
    (fun _ _ => Broken OtherError) (fun _ => Broken OtherError) (reading without_one) (selected_at three).

Lemma copy_in_step_witness :
  exists s', selected_then moved_one = Some s' /\ run 1 (selected_at three, three) (sent moved_one) (s', without_one)
    /\ mjoin (map untagged_text (sent moved_one)) = bs "* OK [COPYUID 1 1 9] Moved" ++ CRLF ++ bs "* 1 EXPUNGE" ++ CRLF.
Proof.
  destruct (selected_then moved_one) as [s'|] eqn:E; [|vm_compute in E; discriminate]. exists s'. split; [done|].
  split; [|vm_compute; reflexivity].
  refine (copy_in_step plain 1 (bs "a") true (number 1) (bs "Archive") true [archive] (fun uids _ _ => Got [(1, 9)]) (fun _ => Got [])
    (fun _ _ => Broken OtherError) (fun _ => Broken OtherError) (reading without_one) (selected_at three) three without_one without_one
    s' without_one_ok three_without_one _ _ _ E).
  - intros uids target pairs [= <-] _ u ->%list_elem_of_singleton. apply (bool_decide_unpack _). vm_compute. exact I.
  - intros uids removed [=].
  - split; [reflexivity | split; [exact without_one_ok | reflexivity]].
Defined.

Lemma copy_within_rights_witness : may archive (bs "i") = true.
Proof.
  apply (copy_within_rights (bs "a") true (number 1) (bs "Archive") true [archive] (selected_at three) [1] archive).
  vm_compute. reflexivity.
Defined.

(** ** What is not told *)

(** A second connection flagged message 2; this one then stores \Answered on it without an
    answer (.SILENT): the session takes the flags for known, and the refresh tells
    nothing. The client never hears of \Flagged. *)
Definition answered_two : ImapMessages :=
  mailbox_at 7 4 [message 1 1 []; message 2 7 ["$answered"; "$flagged"; "$seen"]; message 3 3 []]%string.

Definition stored_silently : Answered :=
  (store_flags plain 1 (bs "a") false (number 2) None StoreAction.Add true [bs "\Answered"]
     (fun _ _ _ => Got []) (fun _ => Got [mail 2 7 ["$answered"; "$flagged"; "$seen"]]) (reading answered_two) (selected_at three)).2.

Example silent_store_hides_other_flags :
  sent stored_silently = [] /\
  (messages <$> selected_then stored_silently) = Some (map known_of (state_messages answered_two)).
Proof. vm_compute. done. Qed.

(** A share is taken back while a STORE runs: the client is sent BYE, and then the
    tagged answer of a server bug on a connection that goes on without a mailbox. *)
Definition not_shared : Reads :=
  {| read_modseqs := Got (Some (9, 0)); read_shared := Got None; read_state := Got three |}.

Example bye_and_then_no :
  finish plain 7 false not_shared (bs "a") [] (fun _ => []) (selected_at three)
  = {| sent := [Line BYE_NOT_SHARED]; tagged := store_error (bs "a") OtherError; selected_then := None |}.
Proof. vm_compute. reflexivity. Qed.
