(* ===== verification/ImapSessionFetch.v ===== *)
(** * FETCH (crates\/uwumail-imap\/src\/session.rs)

    [fetch_request] decides what is read and for which messages, [fetch_item] writes one
    item of one message, [fetch_loop] the answers, and [fetch] puts them together with
    the store's answers and the refresh at the end. What waits to be sent goes out when
    it is more than 256 KiB ([send_piece]), which shows only when the store fails later. *)

From stdpp Require Import sorting.
From S2P Require Import Prelude Effects Dates ImapMime ImapCommand ImapResponse ImapSearch Acl ImapSession ImapSessionStore.

Abbreviation R := (M unit Empty_set).

(** ** What to fetch *)

Definition has_item (item : FetchItem) (items : list FetchItem) : bool := bool_decide (item ∈ items).

(** The bytes of a partial FETCH, and where they start; the addition saturates. *)
Definition partial_bytes (bytes : list byte) (partial : option (Z * Z)) : R (list byte * option Z) :=
  match partial with
  | Some (origin, count) =>
      let len := Z.of_nat (length bytes) in
      let start := Z.min origin len in
      let en := Z.min (Z.min u64_max (start + count)) len in
      bytes ← index bytes (Z.to_nat start, Z.to_nat en);
      mret (bytes, Some origin)
  | None => mret (bytes, None)
  end.

(** The items with those CHANGEDSINCE and UID add. *)
Definition fetch_items_of (by_uid : bool) (changed_since : option Z) (items : list FetchItem) : list FetchItem :=
  let items := match changed_since with
               | Some _ => if has_item FetchItem.ModSeq items then items else items ++ [FetchItem.ModSeq]
               | None => items
               end in
  if by_uid && negb (has_item FetchItem.Uid items) then FetchItem.Uid :: items else items.

Definition needs_blob (items : list FetchItem) : bool :=
  existsb (fun item => match item with
    | FetchItem.Envelope | FetchItem.Rfc822 | FetchItem.Rfc822Header | FetchItem.Rfc822Text | FetchItem.Body
    | FetchItem.BodyStructure | FetchItem.BodySection _ _ _ | FetchItem.Binary _ _ _ | FetchItem.BinarySize _ => true
    | _ => false end) items.

(** Reading marks a message seen, where the seen flag may be kept. *)
Definition marks_seen (s : Selected) (items : list FetchItem) : bool :=
  negb (read_only s || negb (has_letter (rights s) "s"%byte))
  && existsb (fun item => match item with
       | FetchItem.Rfc822 | FetchItem.Rfc822Text => true
       | FetchItem.BodySection _ _ peek | FetchItem.Binary _ _ peek => negb peek
       | _ => false end) items.

(** [VANISHED (EARLIER)] for what left since. *)
Definition vanished_line (s : Selected) (set : SequenceSet) (gone : list Z) : list Untagged :=
  match List.filter (fun u => ImapCommand.contains set u (Z.max (largest_uid s) u)) gone with
  | [] => []
  | gone => [VanishedEarlier gone]
  end.

(** ** One item *)

Section fetch.
Context (base64_encode : list byte -> list byte) (base64_decode : list byte -> option (list byte))
        (parse_addresses : list byte -> list (option (list byte) * option (list byte))).

Definition labelled (label : list byte) (bytes : list byte) (o : Out) : Out := out_literal bytes (out_raw (label ++ bs " ") o).

(** The item as it is written, and whether its encoding was unknown. *)
Definition fetch_item (item : FetchItem) (e : ImapEmail) (raw : list byte) (root : option Part) (o : Out) : R (Out * bool) :=
  match item with
  | FetchItem.Uid => mret (out_raw (bs "UID " ++ dec (uid e)) o, false)
  | FetchItem.Flags => mret (out_raw (bs "FLAGS " ++ flags (keywords e)) o, false)
  | FetchItem.ModSeq => mret (out_raw (bs "MODSEQ (" ++ dec (modseq e) ++ bs ")") o, false)
  | FetchItem.InternalDate => mret (out_raw (bs "INTERNALDATE " ++ internal_date (received_at e)) o, false)
  | FetchItem.Rfc822Size => mret (out_raw (bs "RFC822.SIZE " ++ dec (size e)) o, false)
  | FetchItem.Envelope =>
      root ← expect root;
      o ← envelope base64_encode parse_addresses raw (ImapMime.header root) (out_raw (bs "ENVELOPE ") o); mret (o, false)
  | FetchItem.Body | FetchItem.BodyStructure =>
      root ← expect root;
      let extended := match item with FetchItem.BodyStructure => true | _ => false end in
      o ← body_structure base64_encode parse_addresses raw extended root
            (out_raw (if extended then bs "BODYSTRUCTURE " else bs "BODY ") o);
      mret (o, false)
  | FetchItem.Rfc822 => _ ← expect root; mret (labelled (bs "RFC822") raw o, false)
  | FetchItem.Rfc822Header =>
      root ← expect root; bytes ← index raw (ImapMime.header root); mret (labelled (bs "RFC822.HEADER") bytes o, false)
  | FetchItem.Rfc822Text =>
      root ← expect root; bytes ← index raw (ImapMime.body root); mret (labelled (bs "RFC822.TEXT") bytes o, false)
  | FetchItem.BodySection section partial _ =>
      root ← expect root;
      bytes ← section_bytes raw root section;
      r ← partial_bytes (default [] bytes) partial;
      let '(bytes, origin) := r in
      mret (labelled (section_label section origin) bytes o, false)
  | FetchItem.Binary part partial _ =>
      root ← expect root;
      bytes ← binary_bytes base64_decode raw root part;
      match bytes with
      | Some bytes =>
          r ← partial_bytes bytes partial;
          let '(bytes, origin) := r in
          let label := binary_label part ++ match origin with Some n => bs "<" ++ dec n ++ bs ">" | None => [] end in
          mret (out_literal8 bytes (out_raw (label ++ bs " ") o), false)
      | None => mret (out_raw (binary_label part ++ bs " NIL") o, true)
      end
  | FetchItem.BinarySize part =>
      root ← expect root;
      bytes ← binary_bytes base64_decode raw root part;
      let size := Z.of_nat (length (default [] bytes)) in
      mret (out_raw (bs "BINARY.SIZE" ++ drop (length (bs "BINARY")) (binary_label part) ++ bs " " ++ dec size) o,
            bool_decide (bytes = None))
  end.

(** The items of one message, with a space between them, as the pieces after each of
    which the bytes that wait are counted. *)
Fixpoint fetch_pieces (utf8 first : bool) (items : list FetchItem) (e : ImapEmail) (raw : list byte) (root : option Part) :
    R (list (list byte) * bool) :=
  match items with
  | [] => mret ([], false)
  | item :: items =>
      piece ← fetch_item item e raw root (if first then out_new utf8 else out_raw (bs " ") (out_new utf8));
      rest ← fetch_pieces utf8 false items e raw root;
      mret (out_bytes piece.1 :: rest.1, piece.2 || rest.2)
  end.

(** MODSEQ goes with flags that were not asked for with it. *)
Definition modseq_suffix (enabled : Enabled) (items : list FetchItem) (e : ImapEmail) : list byte :=
  if condstore enabled && negb (has_item FetchItem.ModSeq items) && has_item FetchItem.Flags items
  then bs " MODSEQ (" ++ dec (modseq e) ++ bs ")" else [].

(** The answer for one message, and its bytes in pieces. *)
Definition fetch_one (enabled : Enabled) (items : list FetchItem) (index : nat) (e : ImapEmail) (raw : option (list byte)) :
    R (Untagged * list (list byte) * bool) :=
  root ← match raw with Some raw => Some <$> lift (parse raw) | None => mret None end;
  r ← fetch_pieces (utf8 enabled) true items e (default [] raw) root;
  let items_text := mjoin r.1 ++ modseq_suffix enabled items e in
  mret (FetchItems (seq_of index) items_text
          (if has_item FetchItem.Flags items then Some (keywords e) else None)
          (if has_item FetchItem.Uid items then Some (uid e) else None),
        (match r.1 with
         | piece :: pieces => (bs "* " ++ dec (seq_of index) ++ bs " FETCH (" ++ piece) :: pieces
         | [] => [bs "* " ++ dec (seq_of index) ++ bs " FETCH ("]
         end) ++ [modseq_suffix enabled items e ++ bs ")" ++ CRLF], r.2).

(** Bytes that were sent, and bytes that wait: they are sent when they are more than
    256 KiB. *)
Definition Sending : Type := list byte * list byte.

Definition SEND_AT : Z := 256 * 1024.

Definition send_piece (sending : Sending) (piece : list byte) : Sending :=
  let waiting := sending.2 ++ piece in
  if SEND_AT <? Z.of_nat (length waiting) then (sending.1 ++ waiting, []) else (sending.1, waiting).

(** What a FETCH read is taken for known, whatever was asked for. *)
Definition note_read (index : nat) (e : ImapEmail) (messages : list Known) : list Known :=
  match messages !! index with
  | Some known => if known_uid known =? uid e then <[index := as_read e known]> messages else messages
  | None => messages
  end.

(** An answer that was given up: only what was sent before. *)
Definition given_up (sending : Sending) : list Untagged :=
  match sending.1 with [] => [] | bytes => [Raw bytes] end.

(** The answers, and what is known after them; a message whose blob cannot be read ends
    them. *)
Fixpoint fetch_loop (enabled : Enabled) (items : list FetchItem) (changed_since : option Z)
    (read_blob : list byte -> answer (list byte)) (emails : gmap Z ImapEmail) (targets : list (nat * Z))
    (messages : list Known) (out : list Untagged) (sending : Sending) (unknown : bool) :
    R (list Known * list Untagged * answer bool) :=
  match targets with
  | [] => mret (messages, out, Got unknown)
  | (index, message_uid) :: targets =>
      let next := fetch_loop enabled items changed_since read_blob emails targets in
      match emails !! message_uid with
      | None => next messages out sending unknown
      | Some e =>
          if match changed_since with Some since => modseq e <=? since | None => false end
          then next messages out sending unknown
          else
            match (if needs_blob items then match read_blob (blob e) with Got raw => Got (Some raw) | Broken err => Broken err end
                   else Got None) with
            | Broken err => mret (messages, given_up sending, Broken err)
            | Got raw =>
                r ← fetch_one enabled items index e raw;
                let '(answer, pieces, not_undone) := r in
                next (note_read index e messages) (out ++ [answer]) (foldl send_piece sending pieces) (unknown || not_undone)
            end
      end
  end.

(** ** The command *)

Definition unseen_of (emails : gmap Z ImapEmail) : list Z :=
  merge_sort Z.le (map fst (List.filter (fun ue => negb (bool_decide (bs "$seen" ∈ keywords ue.2))) (map_to_list emails))).

(** The emails as they are once those not seen yet are marked, and whether some were. *)
Definition mark_seen (imap_store_flags : list Z -> FlagChange -> answer (list Z)) (imap_emails : list Z -> answer (list ImapEmail))
    (emails : gmap Z ImapEmail) : answer (gmap Z ImapEmail * bool) :=
  match unseen_of emails with
  | [] => Got (emails, false)
  | unseen =>
      match imap_store_flags unseen (Add [bs "$seen"]) with
      | Broken err => Broken err
      | Got _ =>
          match imap_emails unseen with
          | Broken err => Broken err
          | Got again => Got (foldl (fun m e => <[uid e := e]> m) emails again, true)
          end
      end
  end.

Definition fetch (enabled : Enabled) (me : Z) (tag : list byte) (by_uid : bool) (set : SequenceSet) (items : list FetchItem)
    (changed_since : option Z) (vanished : bool) (imap_vanished : Z -> answer (list Z))
    (imap_emails imap_emails_after : list Z -> answer (list ImapEmail))
    (imap_store_flags : list Z -> FlagChange -> answer (list Z)) (read_blob : list byte -> answer (list byte))
    (r : Reads) (s : Selected) : R (Enabled * Answered) :=
  let items := fetch_items_of by_uid changed_since items in
  let enabled := {| utf8 := utf8 enabled; condstore := condstore enabled || has_item FetchItem.ModSeq items;
                    qresync := qresync enabled; rev2 := rev2 enabled |} in
  match
    match vanished, changed_since with
    | true, Some since => match imap_vanished since with Got gone => Got (vanished_line s set gone) | Broken err => Broken err end
    | _, _ => Got []
    end
  with
  | Broken err => mret (enabled, refuse (store_error tag err) s)
  | Got earlier =>
      let targets := targets_of s set by_uid in
      match imap_emails (map snd targets) with
      | Broken err => mret (enabled, refuse (store_error tag err) s)
      | Got emails =>
          match (if marks_seen s items then mark_seen imap_store_flags imap_emails_after (emails_by_uid emails)
                 else Got (emails_by_uid emails, false)) with
          | Broken err => mret (enabled, refuse (store_error tag err) s)
          | Got (emails, marked) =>
              let items := if marked && negb (has_item FetchItem.Flags items) then items ++ [FetchItem.Flags] else items in
              done ← fetch_loop enabled items changed_since read_blob emails targets (messages s) earlier
                       ([], mjoin (map untagged_text earlier)) false;
              let '(known, out, done) := done in
              let s := set_messages known s in
              match done with
              | Broken err => mret (enabled, {| sent := out; tagged := store_error tag err; selected_then := Some s |})
              | Got unknown =>
                  mret (enabled,
                        finish enabled me by_uid r tag out
                          (fun _ => if (unknown : bool)
                                    then no tag (Some (bs "UNKNOWN-CTE")) (bs "A part has a transfer encoding this server cannot undo")
                                    else ok tag (bs "Fetch completed")) s)
              end
          end
      end
  end.
End fetch.
