(* ===== verification/ImapSessionFetchSafe.v ===== *)
(** * What FETCH does (crates\/uwumail-imap\/src\/session.rs)

    A FETCH that parses is answered whatever the messages hold ([fetch_total]), its
    answers keep the client in step ([fetch_in_step]), and nobody's message is marked
    seen who may not ([fetch_marks_seen]). An example shows what is on the wire when the
    store fails half way. *)

From S2P Require Import Prelude Effects ImapMime ImapCommand ImapParser ImapParserSafe ImapResponse ImapFetch ImapSearch Acl.
From S2P Require Import ImapSession ImapSessionSync ImapSessionStore ImapSessionRuns ImapSessionFetch.

(** ** It answers *)

Lemma item_ok_numbers part : numbers_ok part -> Forall (fun n => 1 <= n) part.
Proof. intros H. eapply Forall_impl; [exact H|]. cbn. lia. Qed.

Lemma wp_binary_bytes decode raw root part (Q : option (list byte) -> unit -> Prop) st :
  tree_in raw root -> Forall (fun n => 1 <= n) part -> (forall r, Q r st) ->
  wp (binary_bytes decode raw root part) Q (fun _ => False) st.
Proof.
  intros Hroot Hpath HQ. unfold binary_bytes. case_decide; [apply wp_ret, HQ|].
  apply wp_bind. eapply wp_find_from; [exact Hroot | exact Hpath |].
  intros [q|] Hq; [|apply wp_ret, HQ]. specialize (Hq q eq_refl).
  apply wp_bind, wp_index; [by eapply tree_in_body|]. apply wp_ret, HQ.
Qed.

Lemma wp_partial_bytes bytes partial (Q : list byte * option Z -> unit -> Prop) st :
  partial_ok partial -> (forall r, Q r st) -> wp (partial_bytes bytes partial) Q (fun _ => False) st.
Proof.
  intros Hp HQ. destruct partial as [[origin count]|]; [|apply wp_ret, HQ]. destruct Hp as [Ho Hc].
  assert (u32_max < u64_max) by done.
  apply wp_bind, wp_index; [cbn; lia|]. apply wp_ret, HQ.
Qed.

(** The items that need the message have it. *)
Definition has_root (items : list FetchItem) (raw : list byte) (root : option Part) : Prop :=
  needs_blob items = true -> exists p, root = Some p /\ tree_in raw p.

Section total.
Context (base64_encode : list byte -> list byte) (base64_decode : list byte -> option (list byte))
        (parse_to : list byte -> list (option (list byte) * option (list byte))).

Lemma wp_fetch_item item e raw root o (Q : Out * bool -> unit -> Prop) st :
  item_ok item -> has_root [item] raw root -> (forall r, Q r st) ->
  wp (fetch_item base64_encode base64_decode parse_to item e raw root o) Q (fun _ => False) st.
Proof.
  intros Hok Hroot HQ. unfold has_root in Hroot. destruct item; cbn [needs_blob existsb orb] in Hroot;
    try (apply wp_ret, HQ);
    (destruct (Hroot eq_refl) as (p & -> & Hp); cbn [fetch_item]; apply wp_bind, wp_ret; try (apply wp_ret, HQ)).
  - apply wp_bind, wp_envelope; [by eapply tree_in_header|]. intros o'. apply wp_ret, HQ.
  - apply wp_bind, wp_index; [by eapply tree_in_header|]. apply wp_ret, HQ.
  - apply wp_bind, wp_index; [by eapply tree_in_body|]. apply wp_ret, HQ.
  - apply wp_bind. eapply wp_body_structure; [done | exact Hp |]. intros o'. apply wp_ret, HQ.
  - apply wp_bind. eapply wp_body_structure; [done | exact Hp |]. intros o'. apply wp_ret, HQ.
  - destruct Hok as [Hn Hpart]. apply wp_bind, wp_section_bytes; [done | by apply item_ok_numbers |]. intros b.
    apply wp_bind, wp_partial_bytes; [done|]. intros [? ?]. apply wp_ret, HQ.
  - destruct Hok as [Hn Hpart]. apply wp_bind, wp_binary_bytes; [done | by apply item_ok_numbers |].
    intros [b|]; [|apply wp_ret, HQ]. apply wp_bind, wp_partial_bytes; [done|]. intros [? ?]. apply wp_ret, HQ.
  - apply wp_bind, wp_binary_bytes; [done | by apply item_ok_numbers |]. intros b. apply wp_ret, HQ.
Qed.

Lemma wp_fetch_pieces utf8 e raw root items : forall first (Q : list (list byte) * bool -> unit -> Prop) st,
  Forall item_ok items -> has_root items raw root -> (forall r, Q r st) ->
  wp (fetch_pieces base64_encode base64_decode parse_to utf8 first items e raw root) Q (fun _ => False) st.
Proof.
  induction items as [|item items IH]; intros first Q st Hok Hroot HQ; [apply wp_ret, HQ|].
  apply Forall_cons in Hok as [Hitem Hok]. cbn [fetch_pieces].
  apply wp_bind, wp_fetch_item; [done | |].
  { intros H. apply Hroot. unfold needs_blob in *. cbn [existsb] in *. destruct item; done. }
  intros piece. apply wp_bind, IH; [done | |].
  { intros H. apply Hroot. unfold needs_blob in *. cbn [existsb]. rewrite H. apply orb_true_r. }
  intros rest. apply wp_ret, HQ.
Qed.

Lemma wp_fetch_one enabled items i e raw (Q : Untagged * list (list byte) * bool -> unit -> Prop) st :
  Forall item_ok items -> (needs_blob items = true -> is_Some raw) ->
  (forall text fl uid' pieces not_undone, uid' = None \/ uid' = Some (uid e) ->
     Q (FetchItems (seq_of i) text fl uid', pieces, not_undone) st) ->
  wp (fetch_one base64_encode base64_decode parse_to enabled items i e raw) Q (fun _ => False) st.
Proof.
  intros Hok Hraw HQ. unfold fetch_one.
  assert (Hrest : forall root, has_root items (default [] raw) root ->
    wp (r ← fetch_pieces base64_encode base64_decode parse_to (utf8 enabled) true items e (default [] raw) root;
        let items_text := mjoin r.1 ++ modseq_suffix enabled items e in
        mret (FetchItems (seq_of i) items_text
          (if has_item FetchItem.Flags items then Some (keywords e) else None)
          (if has_item FetchItem.Uid items then Some (uid e) else None),
          (match r.1 with
           | piece :: pieces => (bs "* " ++ dec (seq_of i) ++ bs " FETCH (" ++ piece) :: pieces
           | [] => [bs "* " ++ dec (seq_of i) ++ bs " FETCH ("]
           end) ++ [modseq_suffix enabled items e ++ bs ")" ++ CRLF], r.2)) Q (fun _ => False) st).
  { intros root Hroot. apply wp_bind, wp_fetch_pieces; [done | done |]. intros r. apply wp_ret, HQ.
    destruct (has_item _ _); [by right | by left]. }
  apply wp_bind. destruct raw as [raw|]; [|apply wp_ret, Hrest; intros [? [=]]%Hraw].
  apply wp_fmap. destruct (parse_tree raw) as (p & n & Hp & Hwf & Hext & _).
  unfold lift, wp. rewrite Hp. apply Hrest. intros _. exists p. split; [done|]. by apply parse_tree_in.
Qed.
End total.

Lemma fetch_items_ok by_uid changed_since items : Forall item_ok items -> Forall item_ok (fetch_items_of by_uid changed_since items).
Proof.
  intros H. unfold fetch_items_of. assert (Hm : Forall item_ok (items ++ [FetchItem.ModSeq])).
  { apply Forall_app. split; [done | by repeat constructor]. }
  destruct changed_since; repeat case_match; try apply Forall_cons; done.
Qed.

Lemma flags_too_ok (b : bool) items : Forall item_ok items -> Forall item_ok (if b then items ++ [FetchItem.Flags] else items).
Proof. intros H. destruct b; [|done]. apply Forall_app. split; [done | by repeat constructor]. Qed.

(** ** The answers *)

(** The messages a FETCH answers for: those there are, changed since. *)
Definition to_answer (changed_since : option Z) (emails : gmap Z ImapEmail) (targets : list (nat * Z)) : list (nat * Z) :=
  List.filter (fun t => match emails !! t.2 with
                        | Some e => negb match changed_since with Some since => modseq e <=? since | None => false end
                        | None => false end) targets.

(** The answer to the FETCH of a message. *)
Definition answers_for (s : Selected) (t : nat * Z) (u : Untagged) : Prop :=
  exists text fl uid, u = FetchItems (seq_of t.1) text fl uid /\ (uid = None \/ uid = Some t.2).

Definition same_numbers (ms ms' : list Known) : Prop := uids_of ms' = uids_of ms /\ map expunged ms' = map expunged ms.

Lemma note_read_same i e ms : same_numbers ms (note_read i e ms).
Proof.
  unfold note_read, same_numbers. destruct (ms !! i) as [known|] eqn:E; [|done]. destruct (known_uid known =? uid e); [|done].
  split; by apply (map_insert_same _ _ _ known).
Qed.

Section loop.
Context (base64_encode : list byte -> list byte) (base64_decode : list byte -> option (list byte))
        (parse_to : list byte -> list (option (list byte) * option (list byte))).
Context (enabled : Enabled) (items : list FetchItem) (changed_since : option Z) (read_blob : list byte -> answer (list byte)).
Context (emails : gmap Z ImapEmail) (s : Selected).
Hypothesis items_are_ok : Forall item_ok items.
Hypothesis emails_by : forall u e, emails !! u = Some e -> uid e = u.

Abbreviation one := (fetch_one base64_encode base64_decode parse_to).
Abbreviation loop := (fetch_loop base64_encode base64_decode parse_to enabled items changed_since read_blob emails).

(** What the loop leaves: the numbers as they were, and an answer for each message, or
    the store's failure. *)
Lemma wp_fetch_loop targets : forall ms out sending unknown st,
  wp (loop targets ms out sending unknown)
     (fun r st' => st' = st /\ same_numbers ms r.1.1 /\
        match r.2 with
        | Got _ => exists answers, r.1.2 = out ++ answers /\ Forall2 (answers_for s) (to_answer changed_since emails targets) answers
        | Broken _ => exists b, read_blob b = Broken (match r.2 with Broken e => e | _ => OtherError end)
        end) (fun _ => False) st.
Proof.
  induction targets as [|[i u] targets IH]; intros ms out sending unknown st; cbn [fetch_loop to_answer List.filter].
  { apply wp_ret. split; [done|]. split; [done|]. exists []. by rewrite app_nil_r. }
  destruct (emails !! u) as [e|] eqn:Ee; cbn [snd]; rewrite Ee; [|apply IH].
  destruct (match changed_since with Some _ => _ | None => _ end) eqn:Esince; cbn [negb]; [apply IH|].
  destruct (if needs_blob items then _ else _) as [raw|err] eqn:Eraw.
  - apply wp_bind. assert (Hraw : needs_blob items = true -> is_Some raw).
    { intros Hb. rewrite Hb in Eraw. destruct (read_blob _); [|done]. injection Eraw as <-. done. }
    apply wp_fetch_one; [done | done |]. intros text fl uid' pieces not_undone Huid.
    set (a := FetchItems _ _ _ _). rewrite (emails_by _ _ Ee) in Huid.
    assert (Ha : answers_for s (i, u) a) by (by eexists _, _, _).
    eapply wp_mono; [| |apply IH]; [|done]. intros [[ms' out'] done'] st' (-> & Hsame & Hdone). split; [done|].
    split; [destruct (note_read_same i e ms), Hsame; split; by etrans|].
    destruct done' as [unknown'|err]; [|done]. destruct Hdone as (answers & Hout & Hall). cbn [fst snd] in Hout |- *.
    exists (a :: answers). split; [by rewrite Hout, <-app_assoc|]. by constructor.
  - apply wp_ret. split; [done|]. split; [done|]. exists (blob e). destruct (needs_blob items); [|done].
    destruct (read_blob _) as [|x] eqn:E; [done|]. cbn [snd]. congruence.
Qed.
End loop.

Lemma mark_seen_uids store emails_after emails emails' marked :
  (forall u e, emails !! u = Some e -> uid e = u) -> mark_seen store emails_after emails = Got (emails', marked) ->
  forall u e, emails' !! u = Some e -> uid e = u.
Proof.
  intros H. unfold mark_seen. destruct (unseen_of emails); [intros [= <- _]; exact H|]. destruct (store _ _); [|done].
  destruct (emails_after _); [|done]. intros [= <- _]. by apply by_uid_insert.
Qed.

(** ** The command *)

(** The numbers of the messages that FETCH answers name. *)
Definition fetched_numbers (out : list Untagged) : list Z :=
  omap (fun u => match u with FetchItems n _ _ _ => Some n | _ => None end) out.

Lemma parsed_items_ok input u8 c by_uid set items changed_since vanished :
  parse_command input u8 = Ok c -> body c = CommandBody.Fetch by_uid set items changed_since vanished -> Forall item_ok items.
Proof.
  intros Hc Hbody. destruct (parse_command_cases input u8) as [[e He]|(b & t & s & s' & Hb & Hok & _)]; rewrite Hc in *; simplify_eq.
  cbn in Hbody. subst b. by destruct Hok as (_ & _ & _ & Hitems).
Qed.

Lemma answered_targets s set by_uid changed_since emails answers :
  Forall2 (answers_for s) (to_answer changed_since emails (targets_of s set by_uid)) answers -> Forall (names_known s) answers.
Proof.
  intros Hall. apply Forall_forall. intros u [j Hu]%list_elem_of_lookup.
  destruct (Forall2_lookup_r _ _ _ _ _ Hall Hu) as ([i w] & Ht & text & fl & uid' & -> & Huid).
  apply list_elem_of_lookup_2, list_elem_of_In, filter_In in Ht as [Ht _]. apply list_elem_of_In, elem_of_targets in Ht as (k & Hk & <- & _).
  by exists i, k.
Qed.

Lemma answered_numbers s targets answers :
  Forall2 (answers_for s) targets answers -> fetched_numbers answers = map (fun t => seq_of t.1) targets.
Proof. induction 1 as [|t u ts us (text & fl & uid' & -> & _) _ IH]; [done|]. cbn. by f_equal. Qed.

Lemma fetched_told e expunges m s : fetched_numbers (catch_up e expunges m s).1 = [].
Proof.
  assert (Hnone : forall out, Forall (fun u => match u with FetchItems _ _ _ _ => False | _ => True end) out -> fetched_numbers out = []).
  { induction 1 as [|u out Hu _ IH]; [done|]. destruct u; try exact IH. done. }
  assert (Hchanges : forall l i ms, Forall (fun u => match u with FetchItems _ _ _ _ => False | _ => True end) (tell_changes e l i ms).2).
  { intros l i ms. revert i. induction ms as [|k ms IH]; intros i; [constructor|]. cbn [tell_changes]. specialize (IH (S i)).
    destruct (tell_changes e l (S i) ms) as [ms' out]. destruct (l !! known_uid k); [|done]. case_decide; [|done]. by constructor. }
  assert (Hloop : forall n ms, Forall (fun u => match u with FetchItems _ _ _ _ => False | _ => True end) (expunge_loop n ms).2).
  { induction n as [|n IH]; intros ms; [constructor|]. cbn [expunge_loop]. destruct (ms !! n); [|apply IH]. destruct (expunged _); [|apply IH].
    specialize (IH (delete n ms)). destruct (expunge_loop n (delete n ms)). by constructor. }
  apply Hnone. unfold catch_up. cbv zeta. set (marked := map _ _).
  assert (Hremoved : Forall (fun u => match u with FetchItems _ _ _ _ => False | _ => True end)
                       (if expunges then report_expunges e marked else (marked, [])).2).
  { destruct expunges; [|constructor]. unfold report_expunges. destruct (map known_uid _); [constructor|]. destruct (qresync e); [by repeat constructor | apply Hloop]. }
  destruct (if expunges then _ else _) as [kept removed]. specialize (Hchanges (current_of m) 0%nat kept).
  destruct (tell_changes _ _ _ kept) as [told changes]. cbn [fst snd] in *. repeat (apply Forall_app; split); [done | done |].
  destruct (new_messages _ _); [constructor|]. destruct (rev2 e); by repeat constructor.
Qed.

Lemma fetched_numbers_app out1 out2 : fetched_numbers (out1 ++ out2) = fetched_numbers out1 ++ fetched_numbers out2.
Proof. apply omap_app. Qed.

Section command.
Context (base64_encode : list byte -> list byte) (base64_decode : list byte -> option (list byte))
        (parse_to : list byte -> list (option (list byte) * option (list byte))).
Context (enabled : Enabled) (me : Z) (tag : list byte) (by_uid : bool) (set : SequenceSet) (changed_since : option Z) (vanished : bool).
Context (imap_vanished : Z -> answer (list Z)) (imap_emails imap_emails_after : list Z -> answer (list ImapEmail)).
Context (read_blob : list byte -> answer (list byte)) (r : Reads) (s : Selected).

Abbreviation command items imap_store_flags :=
  (fetch base64_encode base64_decode parse_to enabled me tag by_uid set items changed_since vanished imap_vanished
     imap_emails imap_emails_after imap_store_flags read_blob r s).

(** How a FETCH ends. *)
Inductive fetch_ends (items : list FetchItem) (a : Answered) : Prop :=
  | fetch_refused err :
      (exists since, imap_vanished since = Broken err) \/ imap_emails (map snd (targets_of s set by_uid)) = Broken err
        \/ marks_seen s (fetch_items_of by_uid changed_since items) = true ->
      a = refuse (store_error tag err) s -> fetch_ends items a
  | fetch_broken b err ms out : read_blob b = Broken err -> same_numbers (messages s) ms ->
      a = {| sent := out; tagged := store_error tag err; selected_then := Some (set_messages ms s) |} -> fetch_ends items a
  | fetch_done e' earlier answers emails ms text :
      (earlier = [] \/ exists gone, earlier = [VanishedEarlier gone]) ->
      same_numbers (messages s) ms ->
      Forall2 (answers_for s) (to_answer changed_since emails (targets_of s set by_uid)) answers ->
      (forall s, exists rest, text s = tag ++ bs " " ++ rest) ->
      (forall read, marks_seen s (fetch_items_of by_uid changed_since items) = false ->
         imap_emails (map snd (targets_of s set by_uid)) = Got read -> emails = emails_by_uid read) ->
      a = finish e' me by_uid r tag (earlier ++ answers) text (set_messages ms s) -> fetch_ends items a.

Lemma fetch_cases items imap_store_flags : Forall item_ok items ->
  exists e' a, command items imap_store_flags tt = (Ok (e', a), tt) /\ fetch_ends items a.
Proof.
  intros Hitems%(fetch_items_ok by_uid changed_since). unfold fetch. cbv zeta. set (items' := fetch_items_of _ _ _) in *.
  assert (Hrefuse : forall e' err,
    (exists since, imap_vanished since = Broken err) \/ imap_emails (map snd (targets_of s set by_uid)) = Broken err
      \/ marks_seen s items' = true -> exists e'' a, (mret (e', refuse (store_error tag err) s) : M unit Empty_set (Enabled * Answered)) tt = (Ok (e'', a), tt) /\ fetch_ends items a).
  { intros e' err Hwhy. eexists _, _. split; [reflexivity|]. by eapply fetch_refused. }
  destruct (if vanished then _ else _) as [earlier|err] eqn:Ev;
    [|apply Hrefuse; left; destruct vanished, changed_since as [since|]; try done; exists since; by destruct (imap_vanished since); simplify_eq].
  destruct (imap_emails _) as [emails|err] eqn:Ee; [|apply Hrefuse; auto].
  destruct (if marks_seen s items' then _ else _) as [[emails' marked]|err] eqn:Em;
    [|apply Hrefuse; destruct (marks_seen s items'); [auto | discriminate]].
  assert (Huids : forall u e, emails' !! u = Some e -> uid e = u).
  { destruct (marks_seen s items'); [eapply mark_seen_uids; [|exact Em] | injection Em as <- _]; apply emails_by_uid_uid. }
  set (enabled' := {| utf8 := _ |}). set (items'' := if _ && _ then _ else _).
  assert (Hok : Forall item_ok items'') by by apply flags_too_ok.
  pose proof (wp_fetch_loop base64_encode base64_decode parse_to enabled' items'' changed_since read_blob emails' s Hok Huids
    (targets_of s set by_uid) (messages s) earlier ([], mjoin (map untagged_text earlier)) false tt) as H.
  clearbody items'' enabled'. unfold mbind, M_bind. unfold wp in H.
  destruct (fetch_loop _ _ _ _ _ _ _ _ _ _ _ _ _ tt) as [[[[ms out] done]|x| |] st]; [|by destruct H..].
  destruct H as (-> & Hsame & Hdone). destruct done as [unknown|err]; cbn [fst snd] in Hdone.
  - destruct Hdone as (answers & -> & Hall). eexists _, _. split; [reflexivity|].
    eapply fetch_done; [|done | exact Hall | | |reflexivity].
    + unfold vanished_line in Ev. repeat case_match; simplify_eq; eauto.
    + intros s'. destruct unknown; eexists; unfold no, ok; rewrite <-?app_assoc; reflexivity.
    + intros read Hm Hread. rewrite Hread in Ee. injection Ee as <-. fold items' in Hm. rewrite Hm in Em. by injection Em as <- _.
  - destruct Hdone as (b & Hb). eexists _, _. split; [reflexivity|]. by eapply fetch_broken.
Qed.
(** C16: A FETCH that parses is answered, by its tag, whatever the messages it reads are,
    the base64 coder and the address parser do, and the store answers: no part number
    and no range of a message makes it panic. *)
Theorem fetch_total input u8 c items imap_store_flags :
  parse_command input u8 = Ok c -> body c = CommandBody.Fetch by_uid set items changed_since vanished -> ImapCommand.tag c = tag ->
  exists e' a rest, command items imap_store_flags tt = (Ok (e', a), tt) /\ tagged a = tag ++ bs " " ++ rest.
Proof.
  intros Hc Hbody _. destruct (fetch_cases items imap_store_flags) as (e' & a & Ha & Hends); [by eapply parsed_items_ok|].
  assert (Herr : forall err, exists rest, store_error tag err = tag ++ bs " " ++ rest) by (intros []; by eexists).
  exists e', a. enough (H : exists rest, tagged a = tag ++ bs " " ++ rest) by (destruct H as [rest Hrest]; by exists rest).
  clear Ha. destruct Hends as [err _ ->|b err ms out _ _ ->|e2 earlier answers emails ms text _ _ _ Htext _ ->]; cbn [refuse tagged].
  - destruct (Herr err) as [rest Hrest]. by exists rest.
  - destruct (Herr err) as [rest Hrest]. by exists rest.
  - unfold finish. destruct (refresh _ _ _ _ _ _ _) as [|told s1|bye|];
      [destruct (Htext (set_messages ms s)) as [rest Hrest] | destruct (Htext s1) as [rest Hrest]
      | destruct (Herr OtherError) as [rest Hrest] ..]; by exists rest.
Qed.

(** FETCH keeps the client in step: what it sends is a run of the session, in which
    each answer names a message by the number the client knows it by, and by its UID
    when it gives one, and no number changes before the tagged answer. *)
Theorem fetch_in_step items imap_store_flags m0 m' e' a s' :
  Forall item_ok items -> reads_from r m0 m' -> (forall b, exists raw, read_blob b = Got raw) ->
  command items imap_store_flags tt = (Ok (e', a), tt) -> selected_then a = Some s' ->
  run me (s, m0) (sent a) (s', m').
Proof.
  intros Hitems Hreads Hblobs Ha Hs. destruct (fetch_cases items imap_store_flags Hitems) as (e2 & a2 & Ha2 & Hends).
  rewrite Ha in Ha2. injection Ha2 as <- <-. pose proof Hreads as (_ & Hok & Hev).
  destruct Hends as [err _ ->|b err ms out Hb _ _|e3 earlier answers emails ms text Hearlier [Hu Hx] Hall _ _ ->].
  - by apply refuse_runs.
  - destruct (Hblobs b) as [raw Hraw]. by rewrite Hb in Hraw.
  - apply (finish_runs _ _ _ _ _ _ _ _ m0); [done| |done]. apply run_one. apply step_answered; [|done|done].
    apply Forall_app. split; [destruct Hearlier as [->|[gone ->]]; by repeat constructor|].
    by eapply answered_targets.
Qed.

(** FETCH answers once, in their order, for every message of the set that is still
    there and, with CHANGEDSINCE, was changed since; for no other message. *)
Theorem fetch_answers items imap_store_flags e' a read m :
  Forall item_ok items -> marks_seen s (fetch_items_of by_uid changed_since items) = false ->
  imap_emails (map snd (targets_of s set by_uid)) = Got read -> (forall b, exists raw, read_blob b = Got raw) ->
  read_state r = Got m -> (forall since, exists gone, imap_vanished since = Got gone) ->
  command items imap_store_flags tt = (Ok (e', a), tt) ->
  fetched_numbers (sent a)
  = map (fun t => seq_of t.1) (to_answer changed_since (emails_by_uid read) (targets_of s set by_uid)).
Proof.
  intros Hitems Hmarks Hread Hblobs Hstate Hvanished Ha. destruct (fetch_cases items imap_store_flags Hitems) as (e2 & a2 & Ha2 & Hends).
  rewrite Ha in Ha2. assert (a = a2) as <- by congruence. clear Ha2.
  destruct Hends as [err Hwhy _|b err ms out Hb _ _|e3 earlier answers emails ms text Hearlier _ Hall _ Hemails ->].
  - destruct Hwhy as [[since H]|[H|H]]; [destruct (Hvanished since) as [gone Hgone] | |]; congruence.
  - destruct (Hblobs b) as [raw Hraw]. by rewrite Hb in Hraw.
  - rewrite <-(Hemails read Hmarks Hread), <-(answered_numbers _ _ _ Hall).
    assert (Hout : fetched_numbers (earlier ++ answers) = fetched_numbers answers).
    { rewrite fetched_numbers_app. by destruct Hearlier as [->|[gone ->]]. }
    rewrite <-Hout. set (out := earlier ++ answers). clearbody out. unfold finish. rewrite Hstate.
    destruct (refresh _ _ _ _ _ _ _) as [|told s1|bye|] eqn:E; cbn [sent]; rewrite ?fetched_numbers_app; [done| |apply app_nil_r|done].
    apply refresh_told in E as (s0 & _ & E). change told with (told, s1).1. rewrite <-E, fetched_told. apply app_nil_r.
Qed.

(** An item that reads a message without marking it seen. *)
Definition peeks (item : FetchItem) : Prop :=
  match item with
  | FetchItem.Rfc822 | FetchItem.Rfc822Text => False
  | FetchItem.BodySection _ _ peek | FetchItem.Binary _ _ peek => peek = true
  | _ => True
  end.

Lemma peeks_only items : Forall peeks items -> marks_seen s items = false.
Proof.
  intros H. unfold marks_seen. apply andb_false_intro2. induction H as [|item items Hitem _ IH]; [done|]. cbn [existsb].
  destruct item; cbn in Hitem |- *; subst; done.
Qed.

Lemma peeks_items items : Forall peeks items -> Forall peeks (fetch_items_of by_uid changed_since items).
Proof.
  intros H. unfold fetch_items_of. assert (Hm : Forall peeks (items ++ [FetchItem.ModSeq])).
  { apply Forall_app. split; [done | by repeat constructor]. }
  destruct changed_since; repeat case_match; try apply Forall_cons; done.
Qed.

(** Reading marks messages seen only for who may keep the seen flag, and only when the
    client reads without PEEK: otherwise the answer does not depend on what the store
    would do with flags, because it is never asked to store any. *)
Theorem fetch_marks_seen items imap_store_flags imap_store_flags' :
  read_only s = true \/ has_letter (rights s) "s"%byte = false \/ Forall peeks items ->
  command items imap_store_flags = command items imap_store_flags'.
Proof.
  intros H. assert (Hm : marks_seen s (fetch_items_of by_uid changed_since items) = false).
  { destruct H as [H|[H|H]]; [unfold marks_seen; rewrite H; try done..|].
    - by rewrite orb_true_r.
    - by apply peeks_only, peeks_items. }
  unfold fetch. cbv zeta. by rewrite Hm.
Qed.
End command.

(** ** Examples *)

Definition no_encoder (s : list byte) : list byte := s.
Definition no_decoder (s : list byte) : option (list byte) := None.
Definition no_addresses (s : list byte) : list (option (list byte) * option (list byte)) := [].

(** a FETCH 2:3 (FLAGS BODY.PEEK[2.MIME]) *)
Definition peek_line : list byte := bs "a FETCH 2:3 (FLAGS BODY.PEEK[2.MIME])".
Definition two_three : SequenceSet := [(SeqNum.Value 2, SeqNum.Value 3)].
Definition peek_items : list FetchItem := [FetchItem.Flags; FetchItem.BodySection mime_section None true].

Definition peeked : outcome Empty_set (Enabled * Answered) :=
  (fetch no_encoder no_decoder no_addresses plain 1 (bs "a") false two_three peek_items None false (fun _ => Got [])
     (fun uids => Got [mail 2 2 ["$seen"]; mail 3 3 []]%string) (fun _ => Got []) (fun _ _ => Broken OtherError)
     (fun _ => Got two_parts) (reading three) (selected_at three) tt).1.

Lemma fetch_total_witness : exists e a rest, peeked = Ok (e, a) /\ tagged a = bs "a" ++ bs " " ++ rest.
Proof.
  destruct (fetch_total no_encoder no_decoder no_addresses plain 1 (bs "a") false two_three None false (fun _ => Got [])
     (fun uids => Got [mail 2 2 ["$seen"]; mail 3 3 []]%string) (fun _ => Got []) (fun _ => Got two_parts) (reading three) (selected_at three)
     peek_line false {| ImapCommand.tag := bs "a"; body := CommandBody.Fetch false two_three peek_items None false |} peek_items
     (fun _ _ => Broken OtherError) ltac:(vm_compute; reflexivity) eq_refl eq_refl) as (e & a & rest & Ha & Hrest).
  exists e, a, rest. split; [|exact Hrest]. unfold peeked. by rewrite Ha.
Defined.

Lemma fetch_in_step_witness :
  exists e a s', peeked = Ok (e, a) /\ run 1 (selected_at three, three) (sent a) (s', three).
Proof.
  destruct peeked as [[e a]|x| |] eqn:E; [|vm_compute in E; discriminate..]. exists e, a.
  destruct (selected_then a) as [s'|] eqn:Es; [|exfalso; vm_compute in E; injection E as _ <-; discriminate]. exists s'. split; [done|].
  refine (fetch_in_step no_encoder no_decoder no_addresses plain 1 (bs "a") false two_three None false (fun _ => Got [])
     (fun uids => Got [mail 2 2 ["$seen"]; mail 3 3 []]%string) (fun _ => Got []) (fun _ => Got two_parts) (reading three) (selected_at three)
     peek_items (fun _ _ => Broken OtherError) three three e a s' _ _ _ _ Es).
  - repeat constructor; vm_compute; done.
  - split; [reflexivity | split; [exact three_ok | reflexivity]].
  - intros b. by exists two_parts.
  - unfold peeked in E. destruct (fetch _ _ _ _ _ _ _ _ _ _ _ _ _ _ _ _ _ _ tt) as [r []]. cbn [fst] in E. by rewrite E.
Defined.

Lemma fetch_answers_witness : exists e a, peeked = Ok (e, a) /\ fetched_numbers (sent a) = [2; 3].
Proof.
  destruct peeked as [[e a]|x| |] eqn:E; [|vm_compute in E; discriminate..]. exists e, a. split; [done|].
  refine (fetch_answers no_encoder no_decoder no_addresses plain 1 (bs "a") false two_three None false (fun _ => Got [])
     (fun uids => Got [mail 2 2 ["$seen"]; mail 3 3 []]%string) (fun _ => Got []) (fun _ => Got two_parts) (reading three) (selected_at three)
     peek_items (fun _ _ => Broken OtherError) e a [mail 2 2 ["$seen"]; mail 3 3 []]%string three _ _ _ _ _ _ _).
  - repeat constructor; vm_compute; done.
  - reflexivity.
  - reflexivity.
  - intros b. by exists two_parts.
  - reflexivity.
  - intros since. by exists [].
  - unfold peeked in E. destruct (fetch _ _ _ _ _ _ _ _ _ _ _ _ _ _ _ _ _ _ tt) as [r []]. cbn [fst] in E. by rewrite E.
Defined.

Definition peeked_with (imap_store_flags : list Z -> FlagChange -> answer (list Z)) : M unit Empty_set (Enabled * Answered) :=
  fetch no_encoder no_decoder no_addresses plain 1 (bs "a") false two_three peek_items None false (fun _ => Got [])
    (fun uids => Got [mail 2 2 ["$seen"]; mail 3 3 []]%string) (fun _ => Got []) imap_store_flags (fun _ => Got two_parts) (reading three)
    (selected_at three).

Lemma fetch_marks_seen_witness : peeked_with (fun _ _ => Got []) = peeked_with (fun _ _ => Broken OtherError).
Proof.
  refine (fetch_marks_seen no_encoder no_decoder no_addresses plain 1 (bs "a") false two_three None false (fun _ => Got [])
    (fun uids => Got [mail 2 2 ["$seen"]; mail 3 3 []]%string) (fun _ => Got []) (fun _ => Got two_parts) (reading three) (selected_at three)
    peek_items (fun _ _ => Got []) (fun _ _ => Broken OtherError) _).
  right. right. by repeat constructor.
Defined.

(** ** What was sent before the store failed *)

(** Two messages are asked for, the first as large as [SEND_AT], the blob of the second
    cannot be read: the client gets the first answer without its end, and then the tagged
    NO, inside what it reads as a FETCH. *)
Definition large : list byte := CRLF ++ CRLF ++ repeat "x"%byte (Z.to_nat (SEND_AT - 4)).

Definition torn : outcome Empty_set (Enabled * Answered) :=
  (fetch no_encoder no_decoder no_addresses plain 1 (bs "a") false two_three [FetchItem.Rfc822; FetchItem.Flags] None false (fun _ => Got [])
     (fun uids => Got [mail 2 2 ["$seen"]; {| uid := 3; email_id := 103; modseq := 3; keywords := [bs "$seen"]; blob := bs "b"; size := 0;
        received_at := 0; sent_at := None; subject := []; from := []; to := []; cc := []; bcc := [] |}]%string)
     (fun _ => Got []) (fun _ _ => Got [])
     (fun b => if decide (b = []) then Got large else Broken OtherError) (reading three) (selected_at three) tt).1.

Example torn_answer :
  match torn with
  | Ok (_, {| sent := [Raw bytes]; tagged := answer |}) =>
      bool_decide (bytes = bs "* 2 FETCH (RFC822 {262144}" ++ CRLF ++ large)
      && bool_decide (answer = bs "a NO [SERVERBUG] Something went wrong, please try again" ++ CRLF)
  | _ => false
  end = true.
Proof. vm_compute. reflexivity. Qed.
