(* ===== verification/ImapSessionSelect.v ===== *)
(** * SELECT and EXAMINE (crates\/uwumail-imap\/src\/session.rs)

    [select] opens a mailbox: what it tells the client first, and the selection the
    session keeps from then on. With QRESYNC it also tells what changed since the client
    was last there; [hear_earlier] is what a client does with that to the flags it kept. *)

From stdpp Require Import sorting.
From S2P Require Import Prelude ImapCommand ImapParser ImapResponse Acl ImapMailboxes ImapSession ImapSessionSync ImapSessionStore.

(** ** The operation *)

Definition is_system_keyword (keyword : list byte) : bool :=
  bool_decide (keyword ∈ [bs "$seen"; bs "$answered"; bs "$flagged"; bs "$draft"; DELETED_KEYWORD]).

Definition space_list (items : list (list byte)) : list byte := mjoin (map (fun item => bs " " ++ item) items).

Definition keyword_le (a b : list byte) : Prop := bytes_le a b = true.

#[export] Instance keyword_le_dec : RelDecision keyword_le.
Proof. intros a b. unfold keyword_le. apply _. Defined.

(** [dedup]: equal neighbours become one. *)
Fixpoint dedup {A} `{EqDecision A} (l : list A) : list A :=
  match l with
  | a :: (b :: _) as l' => if decide (a = b) then dedup l' else a :: dedup l'
  | _ => l
  end.

Definition custom_keywords (state : ImapMessages) : list (list byte) :=
  List.filter (fun k => negb (is_system_keyword k) && valid_keyword k)
    (dedup (merge_sort keyword_le (mjoin (map message_keywords (state_messages state))))).

Definition first_unseen (state : ImapMessages) : option nat :=
  Prelude.position (fun m => negb (bool_decide (bs "$seen" ∈ message_keywords m))) (state_messages state).

(** What changed since the client knew the mailbox. *)
Definition earlier_changes (state : ImapMessages) (q : QresyncParams) (vanished : list Z) : list Untagged :=
  let vanished := match known_uids q with
                  | Some known => List.filter (fun uid => ImapCommand.contains known uid u32_max) vanished
                  | None => vanished
                  end in
  (match vanished with [] => [] | _ => [VanishedEarlier vanished] end)
  ++ map (fun im => FetchEarlier (seq_of im.1) (message_uid im.2) (message_keywords im.2) (message_modseq im.2))
       (List.filter (fun im => qresync_modseq q <? message_modseq im.2) (imap pair (state_messages state))).

(** Enabled by SELECT's own parameters. *)
Definition select_enables (e : Enabled) (condstore_asked : bool) (qresync : option QresyncParams) : Enabled :=
  {| utf8 := utf8 e; condstore := condstore e || condstore_asked || bool_decide (is_Some qresync); qresync := ImapSession.qresync e;
     rev2 := rev2 e |}.

(** What is told about the mailbox that was opened, QRESYNC apart. *)
Definition opening (e : Enabled) (found : Named) (read_only : bool) (state : ImapMessages) : list Untagged :=
  [Line (bs "FLAGS (\Answered \Flagged \Deleted \Seen \Draft" ++ space_list (custom_keywords state) ++ bs ")");
   Line (if read_only then bs "OK [PERMANENTFLAGS ()] Read-only mailbox"
         else bs "OK [PERMANENTFLAGS (" ++ permanent_flags (named_rights found) ++ bs ")] Flags permitted");
   Exists_ (Z.of_nat (length (state_messages state)))]
  ++ (if rev2 e then
        [Line (out_bytes (out_mailbox (path found) (out_raw (bs "LIST () " ++ [x22; SEPARATOR; x22] ++ bs " ") (out_new (utf8 e)))))]
      else
        Recent :: match first_unseen state with
                  | Some first => [Line (bs "OK [UNSEEN " ++ dec (seq_of first) ++ bs "] First unseen")]
                  | None => []
                  end)
  ++ [Line (bs "OK [UIDVALIDITY " ++ dec (state_uid_validity state) ++ bs "] UIDs valid");
      Line (bs "OK [UIDNEXT " ++ dec (state_uid_next state) ++ bs "] Predicted next UID");
      Line (bs "OK [HIGHESTMODSEQ " ++ dec (state_highest_modseq state) ++ bs "] Highest")].

Definition selection (found : Named) (read_only : bool) (state : ImapMessages) : Selected :=
  {| mailbox_id := box_id (named_mailbox found); owner := named_owner found; rights := named_rights found; read_only := read_only;
     messages := map known_of (state_messages state); highest_modseq := state_highest_modseq state;
     sharing_modseq := state_sharing_modseq state |}.

(** [find], a level of the shared namespace left out. *)
Definition find_selectable (named : list Named) (p : list byte) : option Named :=
  found ← ImapMailboxes.find named p; if placeholder found then None else Some found.

(** [was_selected]: whether a mailbox was selected before, which it is not any more,
    whatever becomes of this command. [imap_messages] and [imap_vanished] are the store's
    answers for the mailbox of an owner. *)
Definition select (e : Enabled) (was_selected : bool) (tag p : list byte) (read_only_asked condstore_asked : bool)
    (qresync : option QresyncParams) (named : answer (list Named)) (imap_messages : Z -> Z -> answer ImapMessages)
    (imap_vanished : Z -> Z -> Z -> answer (list Z)) : Enabled * Answered :=
  let closed := if was_selected && (ImapSession.qresync e || rev2 e) then [Line (bs "OK [CLOSED] Previous mailbox closed")] else [] in
  let e := select_enables e condstore_asked qresync in
  let given_up_ answer := (e, {| sent := closed; tagged := answer; selected_then := None |}) in
  match named with
  | Broken err => given_up_ (store_error tag err)
  | Got named =>
      match find_selectable named p with
      | None => given_up_ (no tag (Some (bs "NONEXISTENT")) (bs "No such mailbox"))
      | Some found =>
          if negb (may found (bs "r")) then given_up_ (no_permission tag)
          else
            let read_only := read_only_asked || negb (may_change (named_rights found)) in
            match imap_messages (named_owner found) (box_id (named_mailbox found)) with
            | Broken err => given_up_ (store_error tag err)
            | Got state =>
                match (match qresync with
                       | Some q =>
                           if ImapCommand.uid_validity q =? state_uid_validity state
                           then match imap_vanished (named_owner found) (box_id (named_mailbox found)) (qresync_modseq q) with
                                | Got vanished => Got (earlier_changes state q vanished)
                                | Broken err => Broken err
                                end
                           else Got []
                       | None => Got []
                       end) with
                | Broken err => given_up_ (store_error tag err)
                | Got earlier =>
                    (e, {| sent := closed ++ opening e found read_only state ++ earlier;
                           tagged := tag ++ bs " OK [" ++ (if read_only then bs "READ-ONLY" else bs "READ-WRITE") ++ bs "] Select completed" ++ CRLF;
                           selected_then := Some (selection found read_only state) |})
                end
            end
      end
  end.

(** ** What a client keeps *)

(** The flags of a mailbox's messages by UID, as a client that can QRESYNC keeps them. *)
Abbreviation Cache := (gmap Z (list (list byte))).

Definition flags_of (messages : list ImapMessage) : Cache :=
  list_to_map (map (fun m => (message_uid m, message_keywords m)) messages).

Definition hear_earlier (cache : Cache) (u : Untagged) : Cache :=
  match u with
  | VanishedEarlier uids => filter (fun uf => uf.1 ∉ uids) cache
  | FetchEarlier _ uid fl _ => <[uid := fl]> cache
  | _ => cache
  end.

(** What the store knows to have changed in a mailbox since a modseq, when it was [m0]. *)
Record changed_since (since : Z) (m0 m : ImapMessages) (vanished : list Z) : Prop := {
  unchanged_kept : forall message, message ∈ state_messages m -> message_modseq message <= since ->
    flags_of (state_messages m0) !! message_uid message = Some (message_keywords message);
  vanished_told : forall u, u ∈ state_uids m0 -> u ∉ state_uids m -> u ∈ vanished;
  vanished_gone : forall u, u ∈ vanished -> u ∉ state_uids m }.

Lemma flags_of_spec l u fl : NoDup (map message_uid l) ->
  flags_of l !! u = Some fl <-> exists m, m ∈ l /\ message_uid m = u /\ message_keywords m = fl.
Proof.
  intros Hnd. unfold flags_of. rewrite <-elem_of_list_to_map by by rewrite <-list_fmap_compose.
  rewrite list_elem_of_fmap. split; intros (m & H & H'); exists m; naive_solver.
Qed.

Lemma flags_of_none l u : flags_of l !! u = None <-> u ∉ map message_uid l.
Proof. unfold flags_of. rewrite <-not_elem_of_list_to_map. by rewrite <-list_fmap_compose. Qed.

Lemma hear_changes l : forall cache : Cache, NoDup (map (fun im : nat * ImapMessage => message_uid im.2) l) ->
  foldl hear_earlier cache (map (fun im => FetchEarlier (seq_of im.1) (message_uid im.2) (message_keywords im.2) (message_modseq im.2)) l)
  = flags_of (map snd l) ∪ cache.
Proof.
  induction l as [|[i m] l IH]; intros cache Hnd; [symmetry; apply map_empty_union|]. cbn [map foldl hear_earlier snd] in *.
  apply NoDup_cons in Hnd as [Hm Hnd]. rewrite (IH _ Hnd). unfold flags_of. cbn [map snd]. rewrite list_to_map_cons.
  rewrite <-insert_union_l, <-insert_union_r; [done|]. apply flags_of_none. by rewrite map_map.
Qed.

(** ** How SELECT ends *)

Lemma select_cases e was tag p ro cs q named imap_messages imap_vanished e' a s :
  select e was tag p ro cs q named imap_messages imap_vanished = (e', a) -> selected_then a = Some s ->
  exists l found state closed earlier,
    named = Got l /\ find_selectable l p = Some found /\ may found (bs "r") = true /\
    imap_messages (named_owner found) (box_id (named_mailbox found)) = Got state /\
    s = selection found (ro || negb (may_change (named_rights found))) state /\
    (closed = [] \/ exists text, closed = [Line text]) /\
    sent a = closed ++ opening e' found (read_only s) state ++ earlier /\
    (earlier = [] \/ exists q' vanished, q = Some q' /\ imap_vanished (named_owner found) (box_id (named_mailbox found)) (qresync_modseq q') = Got vanished /\
       earlier = earlier_changes state q' vanished) /\
    (forall q', q = Some q' -> ImapCommand.uid_validity q' = state_uid_validity state ->
       exists vanished, imap_vanished (named_owner found) (box_id (named_mailbox found)) (qresync_modseq q') = Got vanished /\
         earlier = earlier_changes state q' vanished).
Proof.
  unfold select. cbv zeta. set (closed := if was && _ then _ else _). set (e1 := select_enables _ _ _).
  assert (Hgive : forall answer, (e1, {| sent := closed; tagged := answer; selected_then := None |}) = (e', a) -> selected_then a = Some s -> False)
    by (intros answer [= <- <-]; done).
  destruct named as [l|]; [|intros H1 H2; by destruct (Hgive _ H1)]. destruct (find_selectable l p) as [found|] eqn:Ef; [|intros H1 H2; by destruct (Hgive _ H1)].
  destruct (may found (bs "r")) eqn:Em; [|intros H1 H2; by destruct (Hgive _ H1)].
  destruct (imap_messages _ _) as [state|] eqn:Es; [|intros H1 H2; by destruct (Hgive _ H1)].
  cbn [negb]. destruct (match q with Some _ => _ | None => _ end) as [earlier|] eqn:Ee; [|intros H1 H2; by destruct (Hgive _ H1)].
  intros [= <- <-]. cbn [selected_then sent]. intros [= <-]. exists l, found, state, closed, earlier. cbn [read_only selection].
  split_and!; try done.
  - unfold closed. destruct (was && _); eauto.
  - destruct q as [q|]; [|left; congruence]. destruct (_ =? _); [|left; congruence].
    destruct (imap_vanished _ _ _) as [vanished|] eqn:Ev; [|done]. right. exists q, vanished. split_and!; [done | done | congruence].
  - intros q' -> Hv. rewrite (proj2 (Z.eqb_eq _ _) Hv) in Ee. destruct (imap_vanished _ _ _) as [vanished|]; [|done].
    exists vanished. split; [done | congruence].
Qed.

Lemma hears_lines view out : Forall (fun u => exists text, u = Line text) out -> hears_all view out view.
Proof. induction 1 as [|u out [text ->] _ IH]; [constructor|]. econstructor; [constructor | exact IH]. Qed.

Lemma hears_earlier_changes state l (view : View) :
  Forall (fun im => view !! im.1 = Some (message_uid im.2, message_keywords im.2)) l ->
  hears_all view (map (fun im => FetchEarlier (seq_of im.1) (message_uid im.2) (message_keywords im.2) (state im)) l) view.
Proof.
  intros H. induction H as [|[i m] l Hi _ IH]; [constructor|]. cbn [map fst snd] in *.
  econstructor; [by eapply hears_fetch_earlier|]. by rewrite list_insert_id.
Qed.

Lemma hears_opening e found ro state : 
  hears_all [] (opening e found ro state) (view_of (map known_of (state_messages state))).
Proof.
  set (view := view_of _). assert (Hlen : Z.of_nat (length (state_messages state)) = Z.of_nat (length ([] ++ view)))
    by (unfold view, view_of; cbn [app]; by rewrite !length_map).
  unfold opening. do 2 (econstructor; [constructor|]). econstructor; [by apply (hears_exists [] view)|]. cbn [app].
  apply hears_app with view; [|apply hears_lines; repeat constructor; eauto].
  destruct (rev2 e); [apply hears_lines; repeat constructor; eauto|].
  econstructor; [constructor|]. apply hears_lines. destruct (first_unseen state); repeat constructor; eauto.
Qed.

Lemma elem_of_imap_pair {A} (l : list A) i a : (i, a) ∈ imap pair l -> l !! i = Some a.
Proof. intros [j Hj]%list_elem_of_lookup. rewrite list_lookup_imap in Hj. destruct (l !! j) eqn:E; cbn in Hj; congruence. Qed.

Lemma hears_qresync state q vanished :
  hears_all (view_of (map known_of (state_messages state))) (earlier_changes state q vanished) (view_of (map known_of (state_messages state))).
Proof.
  unfold earlier_changes. eapply hears_app.
  { destruct (match known_uids q with Some _ => _ | None => _ end); [constructor|]. econstructor; [apply hears_earlier | constructor]. }
  apply (hears_earlier_changes (fun im => message_modseq im.2)). apply Forall_forall. intros [i m] Hi.
  apply list_elem_of_In, filter_In in Hi as [Hi _]. apply list_elem_of_In, elem_of_imap_pair in Hi.
  cbn [fst snd]. unfold view_of. by rewrite !map_lookup, Hi.
Qed.

(** SELECT opens what is there and no more than is allowed: the mailbox it finds is one
    the account may read, the selection holds the messages the store has in it, and the
    client that listens comes to believe the same; it is open for changes only when the
    client asked for SELECT and has a right to change something. *)
Theorem select_opens e was tag p ro cs q named imap_messages imap_vanished e' a s :
  select e was tag p ro cs q named imap_messages imap_vanished = (e', a) -> selected_then a = Some s ->
  exists l found state,
    named = Got l /\ ImapMailboxes.find l p = Some found /\ placeholder found = false /\ may found (bs "r") = true /\
    imap_messages (named_owner found) (box_id (named_mailbox found)) = Got state /\
    messages s = map known_of (state_messages state) /\ rights s = named_rights found /\ owner s = named_owner found /\
    hears_all [] (sent a) (view_of (messages s)) /\
    (read_only s = false <-> ro = false /\ exists c, c ∈ bs "stwe" /\ c ∈ rights s).
Proof.
  intros H Hs. destruct (select_cases _ _ _ _ _ _ _ _ _ _ _ _ _ H Hs)
    as (l & found & state & closed & earlier & -> & Hf & Hm & Hstate & -> & Hclosed & Hsent & Hearlier & _).
  unfold find_selectable in Hf. destruct (ImapMailboxes.find l p) as [found'|] eqn:Efind; [|done]. cbn in Hf.
  destruct (placeholder found') eqn:Ep; [done|]. injection Hf as ->.
  exists l, found, state. cbn [messages rights owner read_only selection] in *. split_and!; try done.
  - rewrite Hsent. apply hears_app with []; [destruct Hclosed as [->|[text ->]]; [constructor | by apply hears_lines; repeat constructor; eauto]|].
    eapply hears_app; [apply hears_opening|]. destruct Hearlier as [->|(q' & vanished & -> & _ & ->)]; [constructor | apply hears_qresync].
  - rewrite orb_false_iff, negb_false_iff. unfold may_change. rewrite existsb_exists. split; intros [? (c & H1 & H2)]; (split; [done|]); exists c.
    + apply bool_decide_eq_true in H2. by apply list_elem_of_In in H1.
    + split; [by apply list_elem_of_In | by apply bool_decide_eq_true].
Qed.

Lemma hear_opening e found ro state closed (cache : Cache) :
  (closed = [] \/ exists text, closed = [Line text]) -> foldl hear_earlier cache (closed ++ opening e found ro state) = cache.
Proof.
  intros Hclosed. rewrite foldl_app. assert (foldl hear_earlier cache closed = cache) as -> by (by destruct Hclosed as [->|[text ->]]).
  unfold opening. rewrite !foldl_app. cbn [foldl hear_earlier]. destruct (rev2 e); [done|]. by destruct (first_unseen state).
Qed.

(** The messages told as changed. *)
Definition changed_of (state : ImapMessages) (since : Z) : list ImapMessage :=
  map snd (List.filter (fun im : nat * ImapMessage => since <? message_modseq im.2) (imap pair (state_messages state))).

Lemma imap_pair_snd {A} (l : list A) : map snd (imap pair l) = l.
Proof.
  apply list_eq. intros i. change (map snd (imap pair l)) with (snd <$> imap pair l). rewrite list_lookup_fmap, list_lookup_imap.
  by destruct (l !! i).
Qed.

Lemma changed_of_filter state since : changed_of state since = List.filter (fun m => since <? message_modseq m) (state_messages state).
Proof.
  unfold changed_of. rewrite <-(imap_pair_snd (state_messages state)) at 2. induction (imap pair (state_messages state)) as [|[i m] l IH]; [done|].
  cbn [List.filter map snd]. destruct (since <? message_modseq m); cbn [map snd]; by rewrite IH.
Qed.

Lemma changed_of_nodup state since : NoDup (state_uids state) -> NoDup (map message_uid (changed_of state since)).
Proof.
  unfold state_uids. rewrite changed_of_filter. induction (state_messages state) as [|m l IH]; [done|]. cbn [map List.filter].
  intros [Hm Hnd]%NoDup_cons. specialize (IH Hnd). destruct (since <? message_modseq m); [|done]. cbn [map]. apply NoDup_cons. split; [|done].
  contradict Hm. apply list_elem_of_fmap in Hm as (x & Hx & Hin). apply list_elem_of_fmap. exists x. split; [done|].
  apply list_elem_of_In, filter_In in Hin as [Hin _]. by apply list_elem_of_In.
Qed.

Lemma changed_flags state since u fl : NoDup (state_uids state) ->
  flags_of (changed_of state since) !! u = Some fl <->
  exists m, m ∈ state_messages state /\ message_uid m = u /\ message_keywords m = fl /\ since < message_modseq m.
Proof.
  intros Hnd. rewrite flags_of_spec by by apply changed_of_nodup. rewrite changed_of_filter.
  setoid_rewrite list_elem_of_In. setoid_rewrite filter_In. setoid_rewrite <-list_elem_of_In. setoid_rewrite Z.ltb_lt. naive_solver.
Qed.

(** What is told as vanished, of what vanished. *)
Definition told_vanished (q : QresyncParams) (vanished : list Z) : list Z :=
  match known_uids q with
  | Some known => List.filter (fun uid => ImapCommand.contains known uid u32_max) vanished
  | None => vanished
  end.

Lemma told_vanished_spec q vanished u :
  u ∈ told_vanished q vanished <-> u ∈ vanished /\ forall known, known_uids q = Some known -> ImapCommand.contains known u u32_max = true.
Proof.
  unfold told_vanished. destruct (known_uids q) as [known|]; [|naive_solver].
  rewrite list_elem_of_In, filter_In, <-list_elem_of_In. naive_solver.
Qed.

Lemma hear_earlier_changes state q vanished cache : NoDup (state_uids state) ->
  foldl hear_earlier cache (earlier_changes state q vanished)
  = flags_of (changed_of state (qresync_modseq q)) ∪ filter (fun uf => uf.1 ∉ told_vanished q vanished) cache.
Proof.
  intros Hnd. unfold earlier_changes. rewrite foldl_app. fold (told_vanished q vanished). set (told := told_vanished q vanished).
  assert (foldl hear_earlier cache (match told with [] => [] | _ => [VanishedEarlier told] end) = filter (fun uf => uf.1 ∉ told) cache) as ->.
  { destruct told; [|done]. cbn [foldl]. symmetry. apply map_filter_id. intros u fl _ H. by apply elem_of_nil in H. }
  rewrite hear_changes; [done|]. pose proof (changed_of_nodup state (qresync_modseq q) Hnd) as H. unfold changed_of in H. by rewrite map_map in H.
Qed.

(** C22: QRESYNC catches a client up: whatever part it kept of the flags the mailbox had when
    its modseq was that of the client, once it heard the answer to SELECT it keeps
    nothing that is not so now; and a client that kept them all then has them all, as
    they are now. *)
Theorem qresync_catches_up e was tag p ro cs q named imap_messages imap_vanished e' a s m0 m cache vanished :
  select e was tag p ro cs (Some q) named imap_messages imap_vanished = (e', a) -> selected_then a = Some s ->
  imap_messages (owner s) (mailbox_id s) = Got m -> ImapCommand.uid_validity q = state_uid_validity m ->
  imap_vanished (owner s) (mailbox_id s) (qresync_modseq q) = Got vanished ->
  changed_since (qresync_modseq q) m0 m vanished -> NoDup (state_uids m) -> NoDup (state_uids m0) ->
  cache ⊆ flags_of (state_messages m0) ->
  (forall known u, known_uids q = Some known -> is_Some (cache !! u) -> ImapCommand.contains known u u32_max = true) ->
  foldl hear_earlier cache (sent a) ⊆ flags_of (state_messages m) /\
  (cache = flags_of (state_messages m0) -> foldl hear_earlier cache (sent a) = flags_of (state_messages m)).
Proof.
  intros H Hs Hm Hvalid Hvanished [Hkept Htold Hgone] Hnd Hnd0 Hcache Hknown.
  destruct (select_cases _ _ _ _ _ _ _ _ _ _ _ _ _ H Hs)
    as (l & found & state & closed & earlier & _ & _ & _ & Hstate & -> & Hclosed & Hsent & _ & Hearlier).
  cbn [owner mailbox_id selection] in *. rewrite Hstate in Hm. injection Hm as ->.
  destruct (Hearlier q eq_refl Hvalid) as (v & Hv & ->). rewrite Hvanished in Hv. injection Hv as <-.
  rewrite Hsent, app_assoc, foldl_app, hear_opening, hear_earlier_changes by done. set (heard := _ ∪ _).
  assert (Hheard : forall u fl, heard !! u = Some fl -> flags_of (state_messages m) !! u = Some fl).
  { intros u fl [Hu|[Hnew Hu]]%lookup_union_Some_raw.
    - apply changed_flags in Hu as (x & Hx & <- & <- & _); [|done]. apply flags_of_spec; [done|]. by exists x.
    - apply map_lookup_filter_Some in Hu as [Hu Htold']. cbn [fst] in Htold'.
      assert (Hin : u ∈ state_uids m).
      { destruct (decide (u ∈ state_uids m)) as [|Hout]; [done|]. destruct Htold'. apply told_vanished_spec.
        pose proof (lookup_weaken _ _ _ _ Hu Hcache) as H0. split; [|intros known Hk; by eapply Hknown].
        apply Htold; [|done]. apply flags_of_spec in H0 as (x & Hx & <- & _); [|done]. apply list_elem_of_fmap. by exists x. }
      apply list_elem_of_fmap in Hin as (x & -> & Hx). apply flags_of_spec; [done|]. exists x. split_and!; [done | done|].
      destruct (Z_lt_le_dec (qresync_modseq q) (message_modseq x)) as [Hlt|Hle].
      + assert (Hsome : flags_of (changed_of m (qresync_modseq q)) !! message_uid x = Some (message_keywords x)) by (apply changed_flags; [done|]; by exists x).
        congruence.
      + pose proof (lookup_weaken _ _ _ _ Hu Hcache) as H0. rewrite (Hkept x Hx Hle) in H0. congruence. }
  split; [by apply map_subseteq_spec|]. intros ->. apply map_eq. intros u. destruct (heard !! u) as [fl|] eqn:E; [symmetry; by apply Hheard|].
  symmetry. apply flags_of_none. intros (x & -> & Hx)%list_elem_of_fmap. apply lookup_union_None in E as [Hnew Hold].
  destruct (Z_lt_le_dec (qresync_modseq q) (message_modseq x)) as [Hlt|Hle].
  - assert (Hsome : flags_of (changed_of m (qresync_modseq q)) !! message_uid x = Some (message_keywords x)) by (apply changed_flags; [done|]; by exists x).
    congruence.
  - pose proof (Hkept x Hx Hle) as H0. assert (Hsome : filter (fun uf => uf.1 ∉ told_vanished q vanished) (flags_of (state_messages m0)) !! message_uid x = Some (message_keywords x)); [|congruence].
    apply map_lookup_filter_Some. split; [done|]. cbn [fst]. intros [Hv _]%told_vanished_spec. apply (Hgone _ Hv), list_elem_of_fmap. by exists x.
Qed.

(** ** Witnesses *)

Definition inbox : Named :=
  {| named_mailbox := box 1 None "Inbox" (Some MailboxRole.Inbox); path := bs "INBOX"; has_children := false; named_owner := 1;
     named_rights := ALL_RIGHTS; placeholder := false |}.

Definition since_five : QresyncParams := {| ImapCommand.uid_validity := 1; qresync_modseq := 5; known_uids := None |}.

(** SELECT inbox (QRESYNC (1 5)), when two messages left, one changed and one came. *)
Definition resynced : Enabled * Answered :=
  select plain false (bs "a") (bs "inbox") false false (Some since_five) (Got [inbox]) (fun _ _ => Got then_two) (fun _ _ _ => Got [1; 3]).

Example resynced_text :
  mjoin (map untagged_text (drop 7 (sent resynced.2)))
  = bs "* OK [HIGHESTMODSEQ 9] Highest" ++ CRLF ++ bs "* VANISHED (EARLIER) 1,3" ++ CRLF
    ++ bs "* 1 FETCH (UID 2 FLAGS (\Flagged \Seen) MODSEQ (7))" ++ CRLF ++ bs "* 2 FETCH (UID 4 FLAGS () MODSEQ (9))" ++ CRLF.
Proof. vm_compute. reflexivity. Qed.

Lemma select_opens_witness : exists s, selected_then resynced.2 = Some s /\ hears_all [] (sent resynced.2) (view_of (messages s)).
Proof.
  destruct (selected_then resynced.2) as [s|] eqn:E; [|vm_compute in E; discriminate]. exists s. split; [done|].
  destruct (select_opens plain false (bs "a") (bs "inbox") false false (Some since_five) (Got [inbox]) (fun _ _ => Got then_two)
    (fun _ _ _ => Got [1; 3]) resynced.1 resynced.2 s eq_refl E) as (l & found & state & _ & _ & _ & _ & _ & _ & _ & _ & H & _). exact H.
Defined.

Lemma three_then_two_changed : changed_since 5 three then_two [1; 3].
Proof.
  split.
  - intros message Hm. repeat (apply elem_of_cons in Hm as [->|Hm]; [vm_compute; congruence|]). by apply elem_of_nil in Hm.
  - intros u Hu Hout. repeat (apply elem_of_cons in Hu as [->|Hu]; [apply (bool_decide_unpack _); vm_compute; exact I ||
      (destruct Hout; apply (bool_decide_unpack _); vm_compute; exact I)|]). by apply elem_of_nil in Hu.
  - intros u Hu. repeat (apply elem_of_cons in Hu as [->|Hu]; [apply (bool_decide_unpack _); vm_compute; exact I|]). by apply elem_of_nil in Hu.
Defined.

Lemma qresync_catches_up_witness :
  foldl hear_earlier (flags_of (state_messages three)) (sent resynced.2) = flags_of (state_messages then_two).
Proof.
  destruct (selected_then resynced.2) as [s|] eqn:E; [|vm_compute in E; discriminate].
  refine (proj2 (qresync_catches_up plain false (bs "a") (bs "inbox") false false since_five (Got [inbox]) (fun _ _ => Got then_two)
    (fun _ _ _ => Got [1; 3]) resynced.1 resynced.2 s three then_two (flags_of (state_messages three)) [1; 3]
    eq_refl E eq_refl eq_refl eq_refl three_then_two_changed _ _ _ _) eq_refl).
  - apply (bool_decide_unpack _). vm_compute. exact I.
  - apply (bool_decide_unpack _). vm_compute. exact I.
  - done.
  - intros known u [=].
Defined.
