(* ===== verification/ImapSessionSearch.v ===== *)
(** * SEARCH in a session (crates\/uwumail-imap\/src\/session.rs)

    [search] asks ImapSearch.v which messages of the selection satisfy the criteria and
    answers SEARCH or ESEARCH; RETURN (SAVE) keeps the UIDs it found, which [fill_saved]
    puts in place of [$] in a later command. *)

From stdpp Require Import sorting.
From S2P Require Import Prelude Effects ImapCommand ImapResponse ImapSearch Acl ImapSession ImapSessionSync ImapSessionStore ImapSessionRuns.

(** ** [$] *)

Definition fill (s : Selected) (saved : list Z) (set : SequenceSet) (by_uid : bool) : SequenceSet :=
  if negb (uses_saved set) then set
  else
    let numbers := if by_uid then saved else map seq_of (omap (ImapSession.position s) saved) in
    map (fun n => (SeqNum.Value n, SeqNum.Value n)) numbers.

Fixpoint fill_key (s : Selected) (saved : list Z) (key : SearchKey) : SearchKey :=
  match key with
  | SearchKey.SequenceSet set => SearchKey.SequenceSet (fill s saved set false)
  | SearchKey.Uid set => SearchKey.Uid (fill s saved set true)
  | SearchKey.And keys => SearchKey.And (map (fill_key s saved) keys)
  | SearchKey.Or l r => SearchKey.Or (fill_key s saved l) (fill_key s saved r)
  | SearchKey.Not inner => SearchKey.Not (fill_key s saved inner)
  | other => other
  end.

Definition fill_saved (selected : option Selected) (saved : list Z) (body : CommandBody) : CommandBody :=
  match selected with
  | None => body
  | Some s =>
      match body with
      | CommandBody.Fetch uid set items changed_since vanished => CommandBody.Fetch uid (fill s saved set uid) items changed_since vanished
      | CommandBody.Store uid set since action silent flags => CommandBody.Store uid (fill s saved set uid) since action silent flags
      | CommandBody.Copy uid set mailbox => CommandBody.Copy uid (fill s saved set uid) mailbox
      | CommandBody.Move uid set mailbox => CommandBody.Move uid (fill s saved set uid) mailbox
      | CommandBody.Expunge (Some set) => CommandBody.Expunge (Some (fill s saved set true))
      | CommandBody.Search uid returns criteria => CommandBody.Search uid returns (fill_key s saved criteria)
      | other => other
      end
  end.

(** ** What is found *)

Section search.
Context (to_lowercase : list byte -> list byte).

(** The numbers and the UIDs of the messages found, and the highest modseq among them;
    nothing when the store returned a message that was not asked for, where the code
    panics. *)
Fixpoint search_found (s : Selected) (by_uid : bool) (criteria : SearchKey) (scope : Scope) (prepared : Prepared)
    (emails : list ImapEmail) : option (list Z * list Z * Z) :=
  match emails with
  | [] => Some ([], [], 0)
  | email :: emails =>
      i ← ImapSession.position s (uid email);
      r ← search_found s by_uid criteria scope prepared emails;
      let '(found, found_uids, highest) := r in
      Some (if ImapSearch.matches to_lowercase criteria {| msn := seq_of i; target_email := email |} scope prepared
            then ((if by_uid then uid email else seq_of i) :: found, uid email :: found_uids, Z.max (modseq email) highest)
            else r)
  end.
End search.

(** ** The answer *)

Definition sorted (l : list Z) : list Z := merge_sort Z.le l.

(** IMAP4rev2 always answers with ESEARCH. *)
Definition returns_of (e : Enabled) (returns : option (list SearchReturn)) : option (list SearchReturn) :=
  match returns with
  | None => if rev2 e then Some [SearchReturn.All] else None
  | Some options => Some options
  end.

Definition is_save (option : SearchReturn) : bool := match option with SearchReturn.Save => true | _ => false end.
Definition is_count (option : SearchReturn) : bool := match option with SearchReturn.Count => true | _ => false end.
Definition is_min (option : SearchReturn) : bool := match option with SearchReturn.Min => true | _ => false end.
Definition is_max (option : SearchReturn) : bool := match option with SearchReturn.Max => true | _ => false end.

(** The options without the first SAVE, when there is one. *)
Definition take_save (options : list SearchReturn) : option (list SearchReturn) :=
  i ← Prelude.position is_save options; Some (delete i options).

(** What SAVE keeps, [options] being those beside it. *)
Definition saved_of (options : list SearchReturn) (found_uids : list Z) : list Z :=
  let only_ends := negb (bool_decide (options = [])) && forallb (fun o => is_min o || is_max o) options in
  match found_uids with
  | first :: _ =>
      if only_ends then
        let last := default first (last found_uids) in
        match (if existsb is_min options then [first] else []) ++ (if existsb is_max options then [last] else []) with
        | [a; b] => if a =? b then [a] else [a; b]
        | ends => ends
        end
      else found_uids
  | [] => []
  end.

Definition esearch_option (found : list Z) (option : SearchReturn) : list byte :=
  match option with
  | SearchReturn.Min => bs " MIN " ++ dec (default 0 (head found))
  | SearchReturn.Max => bs " MAX " ++ dec (default 0 (last found))
  | SearchReturn.All => bs " ALL " ++ sequence_set_text found
  | SearchReturn.Count => bs " COUNT " ++ dec (Z.of_nat (length found))
  | SearchReturn.Save => []
  end.

(** The SEARCH or ESEARCH answer, without its line break. *)
Definition search_line (e : Enabled) (tag : list byte) (by_uid : bool) (returns : option (list SearchReturn)) (found : list Z)
    (with_modseq : bool) (highest : Z) : list byte :=
  match returns with
  | None =>
      bs "SEARCH" ++ mjoin (map (fun n => bs " " ++ dec n) found)
      ++ (if with_modseq && negb (bool_decide (found = [])) then bs " (MODSEQ " ++ dec highest ++ bs ")" else [])
  | Some options =>
      out_bytes (out_string tag (out_raw (bs "ESEARCH (TAG ") (out_new (utf8 e)))) ++ bs ")" ++ (if by_uid then bs " UID" else [])
      ++ (if bool_decide (found = []) then if existsb is_count options then bs " COUNT 0" else []
          else mjoin (map (esearch_option found) options) ++ (if with_modseq then bs " MODSEQ " ++ dec highest else []))
  end.

(** ** The command *)

Section command.
Context (to_lowercase : list byte -> list byte) (search_emails : list byte -> outcome StoreError (list Z))
        (read_blob : list byte -> outcome StoreError (list byte)).

(** [saved] is what an earlier search saved; [now] the clock. *)
Definition search (e : Enabled) (me : Z) (tag : list byte) (by_uid : bool) (returns : option (list SearchReturn)) (criteria : SearchKey)
    (now : Z) (imap_emails : list Z -> answer (list ImapEmail)) (r : Reads) (saved : list Z) (s : Selected) :
    outcome Empty_set (Enabled * list Z * Answered) :=
  let uids := map known_uid (List.filter (fun k => negb (expunged k)) (messages s)) in
  let scope := {| largest_msn := Z.of_nat (length (messages s)); ImapSearch.largest_uid := ImapSession.largest_uid s; now := now |} in
  match imap_emails uids with
  | Broken err => Ok (e, saved, refuse (store_error tag err) s)
  | Got emails =>
      match prepare to_lowercase search_emails read_blob criteria emails with
      | Err err => Ok (e, saved, refuse (store_error tag err) s)
      | Panicked => Panicked
      | OutOfFuel => OutOfFuel
      | Ok prepared =>
          match search_found to_lowercase s by_uid criteria scope prepared emails with
          | None => Panicked
          | Some (found, found_uids, highest) =>
              let found := sorted found in
              let found_uids := sorted found_uids in
              let with_modseq := uses_modseq criteria in
              let e := {| utf8 := utf8 e; condstore := condstore e || with_modseq; qresync := qresync e; rev2 := rev2 e |} in
              let returns := returns_of e returns in
              match options ← returns; take_save options with
              | Some options =>
                  let saved := saved_of options found_uids in
                  Ok (e, saved,
                      match options with
                      | [] => finish e me by_uid r tag [] (fun _ => ok tag (bs "Search completed, result saved")) s
                      | _ => finish e me by_uid r tag [Line (search_line e tag by_uid (Some options) found with_modseq highest)]
                               (fun _ => ok tag (bs "Search completed")) s
                      end)
              | None =>
                  Ok (e, saved, finish e me by_uid r tag [Line (search_line e tag by_uid returns found with_modseq highest)]
                                  (fun _ => ok tag (bs "Search completed")) s)
              end
          end
      end
  end.
End command.

(** ** Positions *)

Lemma position_spec s u i : NoDup (uids_of (messages s)) ->
  ImapSession.position s u = Some i <-> exists k, messages s !! i = Some k /\ known_uid k = u.
Proof.
  intros Hnd. unfold ImapSession.position. split.
  - intros (k & Hk & Hu)%position_Some. apply Z.eqb_eq in Hu. by exists k.
  - intros (k & Hk & Hu).
    destruct (Prelude.position (fun k => known_uid k =? u) (messages s)) as [j|] eqn:E.
    + apply position_Some in E as (k' & Hk' & Hu'). apply Z.eqb_eq in Hu'. f_equal.
      apply (NoDup_lookup (uids_of (messages s)) j i u); [exact Hnd | ..]; unfold uids_of; rewrite map_lookup; [rewrite Hk' | rewrite Hk]; cbn; congruence.
    + apply list_elem_of_lookup_2 in Hk. destruct (position_is_Some (fun k => known_uid k =? u) _ _ Hk) as [j Hj]; [by apply Z.eqb_eq | congruence].
Qed.

Lemma position_inj s u v i : NoDup (uids_of (messages s)) ->
  ImapSession.position s u = Some i -> ImapSession.position s v = Some i -> u = v.
Proof. intros Hnd (k & Hk & <-)%position_spec (k' & Hk' & <-)%position_spec; congruence. Qed.

(** A set of single numbers. *)
Lemma contains_singles numbers x largest :
  ImapCommand.contains (map (fun n => (SeqNum.Value n, SeqNum.Value n)) numbers) x largest = true <-> x ∈ numbers.
Proof.
  unfold ImapCommand.contains. rewrite existsb_exists. setoid_rewrite in_map_iff. split.
  - intros (ft & (n & <- & Hn) & H). cbn in H. apply andb_prop in H as [H1%Z.leb_le H2%Z.leb_le]. assert (x = n) as -> by lia. by apply list_elem_of_In.
  - intros Hx. exists (SeqNum.Value x, SeqNum.Value x). split; [exists x; split; [done | by apply list_elem_of_In]|]. cbn.
    apply andb_true_intro. rewrite !Z.leb_le. lia.
Qed.

Lemma filter_ext_elem {A} (p q : A -> bool) l : (forall a, a ∈ l -> p a = true <-> q a = true) -> List.filter p l = List.filter q l.
Proof.
  intros H. apply filter_ext_in. intros a Ha%list_elem_of_In. specialize (H a Ha). destruct (p a), (q a); naive_solver.
Qed.

Lemma seq_of_inj i j : seq_of i = seq_of j -> i = j.
Proof. unfold seq_of. lia. Qed.

(** The positions of the messages with some UIDs. *)
Lemma resolve_filled s saved set by_uid : NoDup (uids_of (messages s)) -> uses_saved set = true ->
  ImapSession.resolve s (fill s saved set by_uid) by_uid = positions_of (fun k => bool_decide (known_uid k ∈ saved)) (messages s).
Proof.
  intros Hnd Hsaved. unfold fill. rewrite Hsaved. cbn [negb]. unfold ImapSession.resolve, positions_of. destruct by_uid.
  - apply filter_ext_elem. intros i _. destruct (messages s !! i) as [k|]; [|done]. by rewrite contains_singles, bool_decide_eq_true.
  - apply filter_ext_elem. intros i Hi%elem_of_seq. destruct (lookup_lt_is_Some_2 (messages s) i) as [k Hk]; [lia|]. rewrite Hk.
    rewrite contains_singles, bool_decide_eq_true, list_elem_of_fmap. setoid_rewrite list_elem_of_omap. split.
    + intros (j & Hj%seq_of_inj & u & Hu & Hpos). subst j. apply position_spec in Hpos as (k' & Hk' & <-); [|done]. congruence.
    + intros Hin. exists i. split; [done|]. exists (known_uid k). split; [done|]. apply position_spec; [done|]. by exists k.
Qed.

(** ** What is found *)

Lemma sorted_perm l : sorted l ≡ₚ l.
Proof. apply merge_sort_Permutation. Qed.

Lemma sorted_sorted l : NoDup l -> StronglySorted Z.lt (sorted l).
Proof.
  intros Hnd. assert (Hs : StronglySorted Z.le (sorted l)) by apply (StronglySorted_merge_sort Z.le).
  assert (Hn : NoDup (sorted l)) by (by rewrite sorted_perm).
  induction Hs as [|x xs Hs IH Hx]; [constructor|]. apply NoDup_cons in Hn as [Hout Hn]. constructor; [by apply IH|].
  rewrite Forall_forall in Hx |- *. intros y Hy. specialize (Hx y Hy). destruct (decide (x = y)) as [->|]; [done | lia].
Qed.

(** The number a search names a message by. *)
Definition number_of (by_uid : bool) (h : nat * ImapEmail) : Z := if by_uid then uid h.2 else seq_of h.1.

Lemma search_found_hits lower s by_uid criteria scope prepared emails : forall found found_uids highest,
  search_found lower s by_uid criteria scope prepared emails = Some (found, found_uids, highest) ->
  exists hits : list (nat * ImapEmail),
    found = map (number_of by_uid) hits /\ found_uids = map (fun h => uid h.2) hits /\ map snd hits `sublist_of` emails /\
    forall i email, (i, email) ∈ hits <->
      email ∈ emails /\ ImapSession.position s (uid email) = Some i /\
      ImapSearch.matches lower criteria {| msn := seq_of i; target_email := email |} scope prepared = true.
Proof.
  induction emails as [|e emails IH]; intros found found_uids highest H; cbn [search_found] in H.
  { injection H as <- <- <-. exists []. split_and!; [done..|]. intros i email. split; [by intros ?%elem_of_nil | intros [?%elem_of_nil _]; done]. }
  destruct (ImapSession.position s (uid e)) as [i|] eqn:Ei; [|done]. cbn in H.
  destruct (search_found _ _ _ _ _ _ emails) as [[[f u] h]|]; [|done]. cbn in H. destruct (IH f u h eq_refl) as (hits & -> & -> & Hsub & Hhits).
  destruct (ImapSearch.matches _ _ _ _ _) eqn:Em; injection H as <- <- _.
  - exists ((i, e) :: hits). split_and!; [by destruct by_uid | done | by constructor |]. intros j email. rewrite !elem_of_cons, Hhits.
    split; [intros [[= -> ->]|]; naive_solver|]. intros ([->|Hin] & Hpos & Hm); [left; congruence | right; done].
  - exists hits. split_and!; [done | done | by constructor|]. intros j email. rewrite elem_of_cons, Hhits.
    split; [naive_solver|]. intros ([->|Hin] & Hpos & Hm); [congruence | done].
Qed.

(** What the store returns for a list of UIDs: some of their messages, each once. *)
Record emails_for (uids : list Z) (emails : list ImapEmail) : Prop := {
  asked_for : Forall (fun e => uid e ∈ uids) emails;
  each_once : NoDup (map uid emails);
  own_ids : NoDup (map email_id emails) }.

Definition asked_of (s : Selected) : list Z := map known_uid (List.filter (fun k => negb (expunged k)) (messages s)).

Definition scope_of (s : Selected) (now : Z) : Scope :=
  {| largest_msn := Z.of_nat (length (messages s)); ImapSearch.largest_uid := ImapSession.largest_uid s; now := now |}.

Section finds.
Context (to_lowercase : list byte -> list byte) (search_emails : list byte -> outcome StoreError (list Z))
        (read_blob : list byte -> outcome StoreError (list byte)).
Context (s : Selected) (criteria : SearchKey) (now : Z) (emails : list ImapEmail).

(** A message of the selection that satisfies the criteria. *)
Definition hit (i : nat) (email : ImapEmail) : Prop :=
  email ∈ emails /\ (exists k, messages s !! i = Some k /\ known_uid k = uid email) /\
  satisfies to_lowercase search_emails read_blob criteria {| msn := seq_of i; target_email := email |} (scope_of s now).

(** A list holds the numbers of the hits, in order. *)
Definition numbers_of_hits (by_uid : bool) (l : list Z) : Prop :=
  StronglySorted Z.lt l /\ forall n, n ∈ l <-> exists i email, hit i email /\ n = number_of by_uid (i, email).

Lemma finds by_uid prepared found found_uids highest :
  NoDup (uids_of (messages s)) -> emails_for (asked_of s) emails ->
  prepare to_lowercase search_emails read_blob criteria emails = Ok prepared ->
  search_found to_lowercase s by_uid criteria (scope_of s now) prepared emails = Some (found, found_uids, highest) ->
  numbers_of_hits by_uid (sorted found) /\ numbers_of_hits true (sorted found_uids).
Proof.
  intros Hnd [_ Honce Hids] Hprep (hits & -> & -> & Hsub & Hhits)%search_found_hits.
  assert (Hhit : forall i email, (i, email) ∈ hits <-> hit i email).
  { intros i email. rewrite Hhits. unfold hit. rewrite <-(position_spec s _ _ Hnd). split; intros (Hin & Hpos & H); (split_and!; [done | done|]);
      eapply (prepared_matches to_lowercase search_emails read_blob criteria emails prepared); eauto. }
  assert (Hnum : forall by_uid, numbers_of_hits by_uid (sorted (map (number_of by_uid) hits))).
  { intros b. split.
    - apply sorted_sorted. assert (Huids : NoDup (map (fun h => uid h.2) hits)).
      { rewrite <-map_map. eapply sublist_NoDup; [exact Honce|]. by apply (fmap_sublist uid). }
      destruct b; [done|]. revert Huids. clear -Hhits Hnd. cut (forall l, (forall h, h ∈ l -> h ∈ hits) -> NoDup (map (fun h => uid h.2) l) -> NoDup (map (number_of false) l)); [eauto|].
      induction l as [|[i e] l IH]; intros Hl; [constructor|]. cbn [map]. intros [Hout Hn]%NoDup_cons. apply NoDup_cons.
      split; [|apply IH; [intros h Hh; apply Hl; by right | done]].
      intros ([j e'] & Hj & Hin)%list_elem_of_fmap. cbn in Hj. apply seq_of_inj in Hj as <-. apply Hout, list_elem_of_fmap. exists (i, e'). split; [|done].
      cbn. assert (H1 : (i, e) ∈ hits) by (apply Hl; by left). assert (H2 : (i, e') ∈ hits) by (apply Hl; by right).
      apply Hhits in H1 as (_ & H1 & _), H2 as (_ & H2 & _). by eapply position_inj.
    - intros n. rewrite sorted_perm, list_elem_of_fmap. split.
      + intros ([i email] & -> & Hin). exists i, email. split; [by apply Hhit | done].
      + intros (i & email & Hh & ->). exists (i, email). split; [done | by apply Hhit]. }
  split; [apply Hnum | apply (Hnum true)].
Qed.
End finds.

(** ** The command *)

Lemma search_found_some lower s by_uid criteria scope prepared emails :
  Forall (fun e => is_Some (ImapSession.position s (uid e))) emails ->
  is_Some (search_found lower s by_uid criteria scope prepared emails).
Proof.
  induction 1 as [|e emails [i Hi] _ [[[f u] h] IH]]; [done|]. cbn [search_found]. rewrite Hi. cbn. rewrite IH. cbn. done.
Qed.

Lemma asked_position s u : u ∈ asked_of s -> is_Some (ImapSession.position s u).
Proof.
  intros (k & -> & Hk)%list_elem_of_fmap. apply list_elem_of_In, filter_In in Hk as [Hk _].
  apply (position_is_Some _ _ k); [by apply list_elem_of_In | by apply Z.eqb_eq].
Qed.

Lemma finish_sent e me expunges r tag line out text s :
  exists told, sent (finish e me expunges r tag (line :: out) text s) = line :: told.
Proof. unfold finish. destruct (refresh _ _ _ _ _ _ _); eexists; reflexivity. Qed.

Section theorems.
Context (to_lowercase : list byte -> list byte) (search_emails : list byte -> outcome StoreError (list Z))
        (read_blob : list byte -> outcome StoreError (list byte)).
Context (e : Enabled) (me : Z) (tag : list byte) (by_uid : bool) (criteria : SearchKey) (now : Z)
        (imap_emails : list Z -> answer (list ImapEmail)) (r : Reads) (s : Selected) (emails : list ImapEmail).

Abbreviation hits := (numbers_of_hits to_lowercase search_emails read_blob s criteria now emails).

Lemma search_ends returns saved prepared :
  NoDup (uids_of (messages s)) -> imap_emails (asked_of s) = Got emails -> emails_for (asked_of s) emails ->
  prepare to_lowercase search_emails read_blob criteria emails = Ok prepared ->
  exists e' saved' a found uids highest,
    search to_lowercase search_emails read_blob e me tag by_uid returns criteria now imap_emails r saved s = Ok (e', saved', a) /\
    hits by_uid found /\ hits true uids /\
    match options ← returns_of e returns; take_save options with
    | None => saved' = saved /\
        exists told, sent a = Line (search_line e' tag by_uid (returns_of e returns) found (uses_modseq criteria) highest) :: told
    | Some options => saved' = saved_of options uids /\
        (options = [] \/ exists told, sent a = Line (search_line e' tag by_uid (Some options) found (uses_modseq criteria) highest) :: told)
    end.
Proof.
  intros Hnd Hemails Hfor Hprep. unfold search. cbv zeta. fold (asked_of s). rewrite Hemails, Hprep. fold (scope_of s now).
  destruct (search_found_some to_lowercase s by_uid criteria (scope_of s now) prepared emails) as [[[found uids] highest] Hfound].
  { destruct Hfor as [Hasked _ _]. eapply Forall_impl; [exact Hasked|]. intros x. apply asked_position. }
  rewrite Hfound. destruct (finds _ _ _ _ _ _ _ _ _ _ _ _ Hnd Hfor Hprep Hfound) as [H1 H2].
  set (e' := {| utf8 := utf8 e |}). assert (returns_of e' returns = returns_of e returns) as -> by by destruct returns.
  destruct (options ← returns_of e returns; take_save options) as [options|] eqn:Eo.
  - eexists e', _, _, (sorted found), (sorted uids), highest. split; [reflexivity|]. split_and!; [done | done | done|].
    destruct options as [|o options]; [by left | right]. apply finish_sent.
  - eexists e', _, _, (sorted found), (sorted uids), highest. split; [reflexivity|]. split_and!; [done | done | done|]. apply finish_sent.
Qed.

(** C24: SEARCH answers the numbers of the messages of the selection that satisfy its
    criteria, in order and each once; UID SEARCH their UIDs. It never fails on a message
    the store returns for what it was asked. *)
Theorem search_answers returns saved prepared :
  NoDup (uids_of (messages s)) -> imap_emails (asked_of s) = Got emails -> emails_for (asked_of s) emails ->
  prepare to_lowercase search_emails read_blob criteria emails = Ok prepared ->
  (options ← returns_of e returns; take_save options) = None ->
  exists e' a found highest told,
    search to_lowercase search_emails read_blob e me tag by_uid returns criteria now imap_emails r saved s = Ok (e', saved, a) /\
    hits by_uid found /\
    sent a = Line (search_line e' tag by_uid (returns_of e returns) found (uses_modseq criteria) highest) :: told.
Proof.
  intros Hnd Hemails Hfor Hprep Hsave.
  destruct (search_ends returns saved prepared Hnd Hemails Hfor Hprep) as (e' & saved' & a & found & uids & highest & H & H1 & _ & Hends).
  rewrite Hsave in Hends. destruct Hends as [-> [told Ht]]. by exists e', a, found, highest, told.
Qed.

(** What SEARCH RETURN (SAVE) kept is what [$] names later: in a command by numbers and in
    one by UIDs, those messages of the selection by then, and no others, that the search
    had found. *)
Theorem saved_search_names_hits saved prepared s' set by_uid' :
  NoDup (uids_of (messages s)) -> imap_emails (asked_of s) = Got emails -> emails_for (asked_of s) emails ->
  prepare to_lowercase search_emails read_blob criteria emails = Ok prepared ->
  NoDup (uids_of (messages s')) -> uses_saved set = true ->
  exists e' saved' a,
    search to_lowercase search_emails read_blob e me tag by_uid (Some [SearchReturn.Save]) criteria now imap_emails r saved s = Ok (e', saved', a) /\
    forall i, i ∈ ImapSession.resolve s' (fill s' saved' set by_uid') by_uid' <->
      exists k, messages s' !! i = Some k /\
        exists j email, hit to_lowercase search_emails read_blob s criteria now emails j email /\ uid email = known_uid k.
Proof.
  intros Hnd Hemails Hfor Hprep Hnd' Hset.
  destruct (search_ends (Some [SearchReturn.Save]) saved prepared Hnd Hemails Hfor Hprep) as (e' & saved' & a & found & uids & highest & H & _ & [_ H2] & Hends).
  cbn in Hends. destruct Hends as [Hsaved _]. exists e', saved', a. split; [exact H|]. intros i.
  rewrite resolve_filled, elem_of_positions by done. setoid_rewrite bool_decide_eq_true.
  assert (saved' = uids) as -> by (rewrite Hsaved; by destruct uids).
  split; intros (k & Hk & Hin); exists k; (split; [done|]).
  - apply H2 in Hin as (j & email & Hhit & Heq). by exists j, email.
  - apply H2. destruct Hin as (j & email & Hhit & Heq). by exists j, email.
Qed.

(** SEARCH keeps the client in step. *)
Lemma search_in_step returns saved m0 m' e' saved' a s' :
  reads_from r m0 m' ->
  search to_lowercase search_emails read_blob e me tag by_uid returns criteria now imap_emails r saved s = Ok (e', saved', a) ->
  selected_then a = Some s' -> run me (s, m0) (sent a) (s', m').
Proof.
  intros Hreads. pose proof Hreads as (_ & Hok & Hev). unfold search. cbv zeta.
  destruct (imap_emails _); [|intros [= <- <- <-]; by apply refuse_runs].
  destruct (prepare _ _ _ _ _) as [prepared|err| |]; [|intros [= <- <- <-]; by apply refuse_runs|done|done].
  destruct (search_found _ _ _ _ _ _ _) as [[[found uids] highest]|]; [|done].
  assert (Hline : forall e' out text, Forall (fun u => exists text, u = Line text) out -> selected_then (finish e' me by_uid r tag out text s) = Some s' ->
    run me (s, m0) (sent (finish e' me by_uid r tag out text s)) (s', m')).
  { intros e1 out text Hout. apply (finish_runs _ _ _ _ _ _ _ _ m0); [done|]. apply run_one, step_answered; [|done|done].
    eapply Forall_impl; [exact Hout|]. intros u [t ->]. done. }
  destruct (options ← _; take_save options) as [[|o options]|]; intros [= <- <- <-]; apply Hline; repeat constructor; eauto.
Qed.
End theorems.

(** ** Witnesses *)

Definition unseen : SearchKey := SearchKey.Unkeyword (bs "$seen").

Definition no_index (term : list byte) : outcome StoreError (list Z) := Err OtherError.
Definition no_blob (hash : list byte) : outcome StoreError (list byte) := Err OtherError.

Definition three_mails : list ImapEmail := [mail 1 1 []; mail 2 2 ["$seen"]; mail 3 3 []]%string.

Lemma three_mails_for : emails_for (asked_of (selected_at three)) three_mails.
Proof. split; apply (bool_decide_unpack _); vm_compute; exact I. Defined.

Lemma three_uids : NoDup (uids_of (messages (selected_at three))).
Proof. apply (bool_decide_unpack _). vm_compute. exact I. Defined.

(** a SEARCH UNSEEN *)
Definition searched (returns : option (list SearchReturn)) : outcome Empty_set (Enabled * list Z * Answered) :=
  search to_ascii_lowercase no_index no_blob plain 1 (bs "a") false returns unseen 0 (fun _ => Got three_mails) (reading three) [] (selected_at three).

Example searched_text :
  match searched None with Ok (_, _, a) => mjoin (map untagged_text (sent a)) | _ => [] end = bs "* SEARCH 1 3" ++ CRLF.
Proof. vm_compute. reflexivity. Qed.

Example searched_esearch :
  match searched (Some [SearchReturn.Save; SearchReturn.Min; SearchReturn.Max]) with
  | Ok (_, saved, a) => (saved, mjoin (map untagged_text (sent a))) | _ => ([], []) end
  = ([1; 3], bs "* ESEARCH (TAG " ++ [x22] ++ bs "a" ++ [x22] ++ bs ") MIN 1 MAX 3" ++ CRLF).
Proof. vm_compute. reflexivity. Qed.

Lemma search_answers_witness : exists e a found highest told,
  searched None = Ok (e, [], a) /\ sent a = Line (search_line e (bs "a") false None found false highest) :: told.
Proof.
  destruct (search_answers to_ascii_lowercase no_index no_blob plain 1 (bs "a") false unseen 0 (fun _ => Got three_mails) (reading three)
    (selected_at three) three_mails None [] {| text := ∅; headers := ∅ |} three_uids eq_refl three_mails_for ltac:(vm_compute; reflexivity) eq_refl)
    as (e & a & found & highest & told & H & _ & Hsent).
  exists e, a, found, highest, told. split; [exact H | exact Hsent].
Defined.

Lemma saved_search_names_hits_witness : exists e saved a,
  searched (Some [SearchReturn.Save]) = Ok (e, saved, a) /\
  forall i, i ∈ ImapSession.resolve (selected_at then_two) (fill (selected_at then_two) saved [(SeqNum.Saved, SeqNum.Saved)] false) false <->
    exists k, messages (selected_at then_two) !! i = Some k /\
      exists j email, hit to_ascii_lowercase no_index no_blob (selected_at three) unseen 0 three_mails j email /\ uid email = known_uid k.
Proof.
  refine (saved_search_names_hits to_ascii_lowercase no_index no_blob plain 1 (bs "a") false unseen 0 (fun _ => Got three_mails) (reading three)
    (selected_at three) three_mails [] {| text := ∅; headers := ∅ |} (selected_at then_two) [(SeqNum.Saved, SeqNum.Saved)] false
    three_uids eq_refl three_mails_for _ _ eq_refl).
  - vm_compute. reflexivity.
  - apply (bool_decide_unpack _). vm_compute. exact I.
Defined.
