(* ===== verification/ImapSessionMailboxes.v ===== *)
(** * Commands on mailboxes (crates\/uwumail-imap\/src\/session.rs)

    CREATE, DELETE, RENAME, SUBSCRIBE, LIST, STATUS, APPEND and the commands of RFC 4314.
    Each is given what [named] lists and says what it asks the store to change
    ([StoreCall]) beside what it answers; [allowed] is what those rights allow, and no
    command asks for more ([mailbox_commands_allowed]). *)

From S2P Require Import Prelude Utf8 ImapCommand ImapParser ImapResponse Acl ImapMailboxes ImapSession ImapSessionStore ImapSessionSelect.

(** ** What the store is asked to change *)

Inductive StoreCall :=
  | CreateMailbox (owner : Z) (name : list byte) (parent : option Z)
  | DestroyMailbox (owner id : Z)
  | MoveMailbox (owner id : Z) (name : list byte) (parent : option Z)
  | SetSubscribed (owner id : Z) (subscribed : bool)
  | Ingest (owner mailbox : Z) (keywords : list (list byte)) (received_at : option Z) (message : list byte)
  | SetMailboxAcl (owner mailbox : Z) (grantee_login rights : list byte).

(** What a command asks, sends, and answers or fails with. *)
Record Done := { calls : list StoreCall; lines : list (list byte); answered : answer (list byte) }.

Definition done_with (text : list byte) : Done := {| calls := []; lines := []; answered := Got text |}.

Definition broken (err : StoreError) : Done := {| calls := []; lines := []; answered := Broken err |}.

(** The tagged answer, as [dispatch] sends it. *)
Definition tagged_of (tag : list byte) (d : Done) : list byte :=
  match answered d with Got text => text | Broken err => store_error tag err end.

(** An answer to what the store did. *)
Definition when_done {A} (done : answer A) (text : list byte) : answer (list byte) :=
  match done with Got _ => Got text | Broken err => Broken err end.

Definition bad (tag text : list byte) : list byte := tag ++ bs " BAD " ++ text ++ CRLF.

Definition no_such (tag : list byte) : list byte := no tag (Some (bs "NONEXISTENT")) (bs "No such mailbox").

(** ** CREATE *)

Definition levels_of (p : list byte) : list (list byte) := split_on SEPARATOR p.

Definition join_levels (levels : list (list byte)) : list byte := join [SEPARATOR] levels.

(** The deepest level above [depth] that exists. *)
Fixpoint deepest (named : list Named) (levels : list (list byte)) (depth : nat) : option (nat * Named) :=
  match depth with
  | O => None
  | S d =>
      match ImapMailboxes.find named (join_levels (take depth levels)) with
      | Some found => Some (depth, found)
      | None => deepest named levels d
      end
  end.

(** One mailbox inside the other; [create_mailbox] gives the id of each. *)
Fixpoint create_levels (create_mailbox : Z -> list byte -> option Z -> answer Z) (owner : Z) (parent : option Z) (levels : list (list byte)) :
    list StoreCall * answer unit :=
  match levels with
  | [] => ([], Got tt)
  | level :: levels =>
      match create_mailbox owner level parent with
      | Broken err => ([CreateMailbox owner level parent], Broken err)
      | Got id =>
          let '(calls, done) := create_levels create_mailbox owner (Some id) levels in
          (CreateMailbox owner level parent :: calls, done)
      end
  end.

(** Whose the new mailbox becomes, inside what, and from which level on. *)
Definition place_of (me : Z) (named : list Named) (levels : list (list byte)) : option (Z * option Z * nat) :=
  match deepest named levels (length levels - 1) with
  | None => Some (me, None, 0%nat)
  | Some (start, found) =>
      if (named_owner found =? me) && negb (placeholder found) then Some (me, Some (box_id (named_mailbox found)), start)
      else if may found (bs "k") then Some (named_owner found, Some (box_id (named_mailbox found)), start)
      else None
  end.

Definition create (create_mailbox : Z -> list byte -> option Z -> answer Z) (me : Z) (tag p : list byte) (named : list Named) : Done :=
  let p := normalize p in
  if bool_decide (p = []) || existsb (fun level => bool_decide (trim level = [])) (levels_of p)
  then done_with (bad tag (bs "The mailbox name is empty"))
  else
    match ImapMailboxes.find named p with
    | Some _ => done_with (no tag (Some (bs "ALREADYEXISTS")) (bs "The mailbox exists already"))
    | None =>
        let levels := levels_of p in
        match place_of me named levels with
        | None => done_with (no_permission tag)
        | Some (owner, parent, start) =>
            let '(calls, done) := create_levels create_mailbox owner parent (drop start levels) in
            {| calls := calls; lines := []; answered := when_done done (ok tag (bs "Create completed")) |}
        end
    end.

(** ** DELETE *)

Definition found_inbox (found : Named) : bool :=
  bool_decide (path found = INBOX) || match split_shared (path found) with Some (_, inner) => bool_decide (inner = INBOX) | None => false end.

Definition delete_request (tag p : list byte) (named : list Named) : request Named :=
  match find_selectable named p with
  | None => Refused (no_such tag)
  | Some found =>
      if negb (may found (bs "x")) then Refused (no_permission tag)
      else if found_inbox found then Refused (no tag (Some (bs "CANNOT")) (bs "The INBOX cannot be deleted"))
      else if has_children found then Refused (no tag (Some (bs "INUSE")) (bs "Delete the mailboxes inside it first"))
      else Ask found
  end.

(** The selection goes with the mailbox. *)
Definition delete (destroyed : answer unit) (tag p : list byte) (named : list Named) (selected : option Selected) : Done * option Selected :=
  match delete_request tag p named with
  | Refused answer => (done_with answer, selected)
  | Ask found =>
      let id := box_id (named_mailbox found) in
      ({| calls := [DestroyMailbox (named_owner found) id]; lines := [];
          answered := when_done destroyed (ok tag (bs "Delete completed")) |},
       match selected with Some s => if mailbox_id s =? id then None else Some s | None => None end)
  end.

(** ** RENAME *)

Inductive Parent := Inside (parent : option Z) | CreateFirst (p : list byte) | NotThere.

(** Where a mailbox of [owner] may move to: a mailbox stays with its owner, someone else's
    only within what they shared. *)
Definition parent_for (me owner : Z) (named : list Named) (parent_path : option (list byte)) : Parent :=
  match parent_path with
  | Some parent_path =>
      match ImapMailboxes.find named parent_path with
      | Some parent =>
          if negb (placeholder parent) && (named_owner parent =? owner) && ((owner =? me) || may parent (bs "k"))
          then Inside (Some (box_id (named_mailbox parent)))
          else if placeholder parent && negb (owner =? me) && (named_owner parent =? owner)
                  && (length (List.filter (fun b => bool_decide (b = SEPARATOR)) (path parent)) =? 1)%nat
          then Inside None
          else NotThere
      | None => if owner =? me then CreateFirst parent_path else NotThere
      end
  | None => if owner =? me then Inside None else NotThere
  end.

(** [named_then] and [named_after]: what is listed when the parent is created, and after it. *)
Definition rename (create_mailbox : Z -> list byte -> option Z -> answer Z) (updated : answer unit) (me : Z) (tag from to : list byte)
    (named named_then named_after : list Named) : Done :=
  match find_selectable named from with
  | None => done_with (no_such tag)
  | Some source =>
      if found_inbox source then done_with (no tag (Some (bs "CANNOT")) (bs "The INBOX cannot be renamed"))
      else if negb (may source (bs "x")) then done_with (no_permission tag)
      else
        let target := normalize to in
        match ImapMailboxes.find named target with
        | Some _ => done_with (no tag (Some (bs "ALREADYEXISTS")) (bs "A mailbox with that name exists already"))
        | None =>
            let '(parent_path, name) := match rsplit_once SEPARATOR target with
                                        | Some (parent, name) => (Some parent, name)
                                        | None => (None, target)
                                        end in
            if bool_decide (trim name = []) then done_with (bad tag (bs "The mailbox name is empty"))
            else
              let owner := named_owner source in
              let move before parent :=
                {| calls := before ++ [MoveMailbox owner (box_id (named_mailbox source)) name parent]; lines := [];
                   answered := when_done updated (ok tag (bs "Rename completed")) |} in
              match parent_for me owner named parent_path with
              | Inside parent => move [] parent
              | NotThere => done_with (no_permission tag)
              | CreateFirst parent_path =>
                  let created := create create_mailbox me tag parent_path named_then in
                  let cannot := {| calls := calls created; lines := [];
                                   answered := Got (no tag (Some (bs "CANNOT")) (bs "The parent mailbox could not be created")) |} in
                  match answered created with
                  | Broken err => {| calls := calls created; lines := []; answered := Broken err |}
                  | Got _ =>
                      match ImapMailboxes.find named_after parent_path with
                      | Some parent => if named_owner parent =? me then move (calls created) (Some (box_id (named_mailbox parent))) else cannot
                      | None => cannot
                      end
                  end
              end
        end
  end.

(** ** SUBSCRIBE and UNSUBSCRIBE *)

Definition subscribe (updated : answer unit) (me : Z) (tag p : list byte) (subscribed : bool) (named : list Named) : Done :=
  match ImapMailboxes.find named p with
  | None => done_with (no_such tag)
  | Some found =>
      if (named_owner found =? me) && negb (placeholder found) then
        {| calls := [SetSubscribed (named_owner found) (box_id (named_mailbox found)) subscribed]; lines := [];
           answered := when_done updated (ok tag (bs "Done")) |}
      else done_with (ok tag (bs "Done"))
  end.

(** ** STATUS *)

Record ImapStatus := {
  status_messages : Z; status_unseen : Z; status_deleted : Z; status_size : Z; status_uid_next : Z; status_uid_validity : Z;
  status_highest_modseq : Z }.

Definition status_item (status : ImapStatus) (item : StatusItem) : list byte :=
  match item with
  | StatusItem.Messages => bs "MESSAGES " ++ dec (status_messages status)
  | StatusItem.Recent => bs "RECENT 0"
  | StatusItem.UidNext => bs "UIDNEXT " ++ dec (status_uid_next status)
  | StatusItem.UidValidity => bs "UIDVALIDITY " ++ dec (status_uid_validity status)
  | StatusItem.Unseen => bs "UNSEEN " ++ dec (status_unseen status)
  | StatusItem.Size => bs "SIZE " ++ dec (status_size status)
  | StatusItem.Deleted => bs "DELETED " ++ dec (status_deleted status)
  | StatusItem.HighestModSeq => bs "HIGHESTMODSEQ " ++ dec (status_highest_modseq status)
  end.

Definition status_items (items : list StatusItem) (status : ImapStatus) : list byte := join (bs " ") (map (status_item status) items).

Definition status_line (utf8 : bool) (p : list byte) (items : list StatusItem) (status : ImapStatus) : list byte :=
  out_bytes (out_raw (bs " (" ++ status_items items status ++ bs ")" ++ CRLF) (out_mailbox p (out_raw (bs "* STATUS ") (out_new utf8)))).

Definition status (imap_status : Z -> Z -> answer ImapStatus) (utf8 : bool) (tag p : list byte) (items : list StatusItem) (named : list Named) : Done :=
  match find_selectable named p with
  | None => done_with (no_such tag)
  | Some found =>
      if negb (may found (bs "r")) then done_with (no_permission tag)
      else match imap_status (named_owner found) (box_id (named_mailbox found)) with
           | Got status => {| calls := []; lines := [status_line utf8 (path found) items status]; answered := Got (ok tag (bs "Status completed")) |}
           | Broken err => broken err
           end
  end.

(** ** LIST and LSUB *)

Definition full_pattern (list_ : ListCommand) (pattern : list byte) : list byte :=
  if bool_decide (reference list_ = []) then pattern else trim_separators (reference list_) ++ [SEPARATOR] ++ pattern.

(** Whether a mailbox is listed. *)
Definition listed (list_ : ListCommand) (n : Named) : bool :=
  (placeholder n || has_letter (named_rights n) "l"%byte)
  && existsb (fun pattern => ImapMailboxes.matches (full_pattern list_ pattern) (path n)) (ImapCommand.patterns list_)
  && negb (ImapCommand.subscribed list_ && negb (ImapMailboxes.subscribed (named_mailbox n)))
  && negb (ImapCommand.special_use list_ && bool_decide (ImapMailboxes.special_use (role (named_mailbox n)) = None)).

Definition attributes (list_ : ListCommand) (n : Named) : list (list byte) :=
  (if placeholder n then [bs "\Noselect"] else [])
  ++ [if has_children n then bs "\HasChildren" else bs "\HasNoChildren"]
  ++ (if ImapMailboxes.subscribed (named_mailbox n) && (ImapCommand.subscribed list_ || return_subscribed list_) then [bs "\Subscribed"] else [])
  ++ match ImapMailboxes.special_use (role (named_mailbox n)) with Some special => [special] | None => [] end.

Definition list_line (utf8 : bool) (verb : list byte) (list_ : ListCommand) (n : Named) : list byte :=
  out_bytes (out_raw CRLF (out_mailbox (path n)
    (out_raw (bs "* " ++ verb ++ bs " (" ++ join (bs " ") (attributes list_ n) ++ bs ") " ++ [x22; SEPARATOR; x22] ++ bs " ") (out_new utf8)))).

(** The lines for the mailboxes, ended by a STATUS that fails. *)
Fixpoint list_loop (imap_status : Z -> Z -> answer ImapStatus) (utf8 : bool) (verb : list byte) (list_ : ListCommand) (named : list Named) :
    list (list byte) * answer unit :=
  match named with
  | [] => ([], Got tt)
  | n :: named =>
      if negb (listed list_ n) then list_loop imap_status utf8 verb list_ named
      else
        match (match return_status list_ with
               | Some items =>
                   if may n (bs "r") then
                     match imap_status (named_owner n) (box_id (named_mailbox n)) with
                     | Got status => Got [status_line utf8 (path n) items status]
                     | Broken err => Broken err
                     end
                   else Got []
               | None => Got []
               end) with
        | Broken err => ([], Broken err)
        | Got status =>
            let '(lines, done) := list_loop imap_status utf8 verb list_ named in
            ((list_line utf8 verb list_ n :: status) ++ lines, done)
        end
  end.

Definition list_ (imap_status : Z -> Z -> answer ImapStatus) (utf8 : bool) (tag verb : list byte) (command : ListCommand) (named : answer (list Named)) : Done :=
  let name := if bool_decide (verb = bs "LSUB") then bs "Lsub" else bs "List" in
  if forallb (fun pattern => bool_decide (pattern = [])) (ImapCommand.patterns command)
  then {| calls := []; lines := [bs "* " ++ verb ++ bs " (\Noselect) " ++ [x22; SEPARATOR; x22; x20; x22; x22] ++ CRLF];
          answered := Got (ok tag (name ++ bs " completed")) |}
  else match named with
       | Broken err => broken err
       | Got named =>
           let '(lines, done) := list_loop imap_status utf8 verb command named in
           {| calls := []; lines := lines; answered := when_done done (ok tag (name ++ bs " completed")) |}
       end.

(** ** GETQUOTA and GETQUOTAROOT *)

Record Account := { account_id : Z; account_login : list byte; quota_bytes : Z; used_bytes : Z }.

Definition quota_line (account : Account) : list byte :=
  if 0 <? quota_bytes account
  then bs "* QUOTA " ++ [x22; x22] ++ bs " (STORAGE " ++ dec (Z.max 0 (used_bytes account) / 1024) ++ bs " "
       ++ dec (quota_bytes account / 1024) ++ bs ")" ++ CRLF
  else bs "* QUOTA " ++ [x22; x22] ++ bs " ()" ++ CRLF.

Definition quota (account : answer (option Account)) (utf8 : bool) (tag : list byte) (root mailbox : option (list byte)) (named : answer (list Named)) : Done :=
  match account with
  | Broken err => broken err
  | Got None => done_with (no tag (Some (bs "SERVERBUG")) (bs "The account is gone"))
  | Got (Some account) =>
      let completed := Got (ok tag (bs "Quota completed")) in
      if match root with Some root => negb (bool_decide (root = [])) | None => false end
      then done_with (no tag (Some (bs "NONEXISTENT")) (bs "No such quota root"))
      else match mailbox with
           | None => {| calls := []; lines := [quota_line account]; answered := completed |}
           | Some mailbox =>
               match named with
               | Broken err => broken err
               | Got named =>
                   match ImapMailboxes.find named mailbox with
                   | None => done_with (no_such tag)
                   | Some found =>
                       let root := out_mailbox (path found) (out_raw (bs "* QUOTAROOT ") (out_new utf8)) in
                       if negb (named_owner found =? account_id account)
                       then {| calls := []; lines := [out_bytes (out_raw CRLF root)]; answered := completed |}
                       else {| calls := []; lines := [out_bytes (out_raw (bs " " ++ [x22; x22] ++ CRLF) root); quota_line account]; answered := completed |}
                   end
               end
           end
  end.

(** ** APPEND *)

(** The flags a new message keeps: those that are keywords and may be set there. *)
Definition appended_keywords (found : Named) (flags : list (list byte)) : list (list byte) :=
  List.filter (may_set_keyword (named_rights found)) (omap keyword_of_flag flags).

(** [ingest] gives the UID; [refreshed] is whether telling the client what changed worked. *)
Definition append (ingest : answer Z) (refreshed : answer unit) (tag p : list byte) (flags : list (list byte)) (date : option Z)
    (message : list byte) (named : list Named) : Done :=
  match find_selectable named p with
  | None => done_with (no tag (Some (bs "TRYCREATE")) (bs "No such mailbox"))
  | Some found =>
      if negb (may found (bs "i")) then done_with (no_permission tag)
      else if bool_decide (message = []) then done_with (bad tag (bs "The message is empty"))
      else
        {| calls := [Ingest (named_owner found) (box_id (named_mailbox found)) (appended_keywords found flags) date message]; lines := [];
           answered := match ingest with
                       | Broken err => Broken err
                       | Got uid => when_done refreshed
                           (ok tag (bs "[APPENDUID " ++ dec (box_uid_validity (named_mailbox found)) ++ bs " " ++ dec uid ++ bs "] Append completed"))
                       end |}
  end.

(** ** Access control *)

(** [owner]: the login of the owner, [entries]: the logins the mailbox is shared with and
    their rights. *)
Definition get_acl (owner : list byte) (entries : answer (list (list byte * list byte))) (utf8 : bool) (tag p : list byte) (named : list Named) : Done :=
  match find_selectable named p with
  | None => done_with (no_such tag)
  | Some found =>
      if negb (may found (bs "a")) then done_with (no_permission tag)
      else match entries with
           | Broken err => broken err
           | Got entries =>
               let o := out_string owner (out_raw (bs " ") (out_mailbox (path found) (out_raw (bs "* ACL ") (out_new utf8)))) in
               let o := out_raw (bs " " ++ ALL_RIGHTS) o in
               let o := foldl (fun o entry => out_string entry.2 (out_raw (bs " ") (out_string entry.1 (out_raw (bs " ") o)))) o entries in
               {| calls := []; lines := [out_bytes (out_raw CRLF o)]; answered := Got (ok tag (bs "Getacl completed")) |}
           end
  end.

(** SETACL with [rights], DELETEACL without. *)
Definition set_acl (owner : list byte) (entries : answer (list (list byte * list byte))) (set_mailbox_acl : answer unit) (tag p identifier : list byte)
    (rights : option (list byte)) (named : list Named) : Done :=
  match find_selectable named p with
  | None => done_with (no_such tag)
  | Some found =>
      if negb (may found (bs "a")) then done_with (no_permission tag)
      else if starts_with (bs "-") identifier then done_with (no tag (Some (bs "CANNOT")) (bs "Negative rights are not supported"))
      else if eq_ignore_ascii_case identifier (bs "anyone") || eq_ignore_ascii_case identifier (bs "authenticated")
      then done_with (no tag (Some (bs "CANNOT")) (bs "Mailboxes are shared with people on this server, one by one"))
      else if eq_ignore_ascii_case identifier owner then done_with (no tag (Some (bs "CANNOT")) (bs "The owner always has every right"))
      else match entries with
           | Broken err => broken err
           | Got entries =>
               let current := default [] (snd <$> List.find (fun entry => eq_ignore_ascii_case entry.1 identifier) entries) in
               match wanted_rights current rights with
               | None => done_with (bad tag (bs "Unknown rights " ++ default [] rights))
               | Some wanted =>
                   if bool_decide (normalize_rights wanted = None) then done_with (bad tag (bs "Unknown rights " ++ wanted))
                   else
                     {| calls := [SetMailboxAcl (named_owner found) (box_id (named_mailbox found)) identifier wanted]; lines := [];
                        answered := match set_mailbox_acl with
                                    | Got _ => Got (ok tag ((if rights then bs "Setacl" else bs "Deleteacl") ++ bs " completed"))
                                    | Broken NotFound => Got (no tag (Some (bs "CANNOT")) (bs "No such person on this server"))
                                    | Broken err => Broken err
                                    end |}
               end
           end
  end.

Definition list_rights (owner : list byte) (utf8 : bool) (tag p identifier : list byte) (named : list Named) : Done :=
  match find_selectable named p with
  | None => done_with (no_such tag)
  | Some found =>
      if negb (may found (bs "a")) then done_with (no_permission tag)
      else
        let o := out_string identifier (out_raw (bs " ") (out_mailbox (path found) (out_raw (bs "* LISTRIGHTS ") (out_new utf8)))) in
        let o := if eq_ignore_ascii_case identifier owner then out_raw (bs " " ++ ALL_RIGHTS) o
                 else out_raw (bs " " ++ [x22; x22] ++ mjoin (map (fun right => bs " " ++ [right]) ALL_RIGHTS)) o in
        {| calls := []; lines := [out_bytes (out_raw CRLF o)]; answered := Got (ok tag (bs "Listrights completed")) |}
  end.

Definition my_rights (utf8 : bool) (tag p : list byte) (named : list Named) : Done :=
  match find_selectable named p with
  | None => done_with (no_such tag)
  | Some found =>
      let o := out_string (named_rights found) (out_raw (bs " ") (out_mailbox (path found) (out_raw (bs "* MYRIGHTS ") (out_new utf8)))) in
      {| calls := []; lines := [out_bytes (out_raw CRLF o)]; answered := Got (ok tag (bs "Myrights completed")) |}
  end.

(** ** One command *)

(** What the store answers: to each call that changes something, and to what is read. *)
Record MailStore := {
  create_mailbox : Z -> list byte -> option Z -> answer Z; update_mailbox : answer unit; destroy_mailbox : answer unit;
  ingest : answer Z; refreshed : answer unit; set_mailbox_acl : answer unit;
  login_of : list byte; mailbox_acl : answer (list (list byte * list byte)); imap_status : Z -> Z -> answer ImapStatus;
  account_by_id : answer (option Account);
  named_now : answer (list Named); named_then : list Named; named_after : list Named }.

Definition with_named (st : MailStore) (f : list Named -> Done) : Done :=
  match named_now st with Got named => f named | Broken err => broken err end.

(** The commands of [dispatch] that are about mailboxes by name. *)
Definition mailbox_command (st : MailStore) (me : Z) (utf8 : bool) (selected : option Selected) (tag : list byte) (body : CommandBody) : option Done :=
  match body with
  | CommandBody.GetAcl p => Some (with_named st (get_acl (login_of st) (mailbox_acl st) utf8 tag p))
  | CommandBody.SetAcl p identifier rights =>
      Some (with_named st (set_acl (login_of st) (mailbox_acl st) (set_mailbox_acl st) tag p identifier (Some rights)))
  | CommandBody.DeleteAcl p identifier =>
      Some (with_named st (set_acl (login_of st) (mailbox_acl st) (set_mailbox_acl st) tag p identifier None))
  | CommandBody.ListRights p identifier => Some (with_named st (list_rights (login_of st) utf8 tag p identifier))
  | CommandBody.MyRights p => Some (with_named st (my_rights utf8 tag p))
  | CommandBody.Create p => Some (with_named st (create (create_mailbox st) me tag p))
  | CommandBody.Delete p => Some (with_named st (fun named => (delete (destroy_mailbox st) tag p named selected).1))
  | CommandBody.Rename from to =>
      Some (with_named st (fun named => rename (create_mailbox st) (update_mailbox st) me tag from to named (named_then st) (named_after st)))
  | CommandBody.Subscribe p => Some (with_named st (subscribe (update_mailbox st) me tag p true))
  | CommandBody.Unsubscribe p => Some (with_named st (subscribe (update_mailbox st) me tag p false))
  | CommandBody.List command => Some (list_ (imap_status st) utf8 tag (bs "LIST") command (named_now st))
  | CommandBody.Lsub reference pattern =>
      Some (list_ (imap_status st) utf8 tag (bs "LSUB") (with_subscribed (with_pattern pattern (with_reference reference list_default))) (named_now st))
  | CommandBody.Status p items => Some (with_named st (status (imap_status st) utf8 tag p items))
  | CommandBody.Append p flags date message => Some (with_named st (append (ingest st) (refreshed st) tag p flags date message))
  | CommandBody.GetQuota root => Some (quota (account_by_id st) utf8 tag (Some root) None (named_now st))
  | CommandBody.GetQuotaRoot mailbox => Some (quota (account_by_id st) utf8 tag None (Some mailbox) (named_now st))
  | _ => None
  end.

(** ** What is allowed *)

(** Where a mailbox of [owner] may be made, for who is listed [named] and has asked [before]
    for others: at the top of one's own, in a mailbox of one's own, in one of someone else
    with the right k, or in one that was made just before. *)
Inductive may_hold (f : Z -> list byte -> option Z -> answer Z) (me : Z) (named : list Named) (before : list StoreCall) : Z -> option Z -> Prop :=
  | hold_top : may_hold f me named before me None
  | hold_own n : n ∈ named -> named_owner n = me -> placeholder n = false -> may_hold f me named before me (Some (box_id (named_mailbox n)))
  | hold_shared n : n ∈ named -> may n (bs "k") = true -> may_hold f me named before (named_owner n) (Some (box_id (named_mailbox n)))
  | hold_made owner name parent id : CreateMailbox owner name parent ∈ before -> f owner name parent = Got id ->
      may_hold f me named before owner (Some id).

(** Where a mailbox of [owner] may be moved to: inside one of the same owner, which is one's own,
    also one that is only listed [after]wards, or has the right k; to the top of one's own, or
    to the level that stands for everything of somebody else. *)
Definition may_move_to (me : Z) (named after : list Named) (owner : Z) (parent : option Z) : Prop :=
  match parent with
  | Some id => exists p, box_id (named_mailbox p) = id /\ named_owner p = owner
                 /\ (p ∈ named /\ placeholder p = false /\ (owner = me \/ may p (bs "k") = true) \/ p ∈ after /\ owner = me)
  | None => owner = me \/ exists level, level ∈ named /\ placeholder level = true /\ named_owner level = owner
              /\ length (List.filter (fun b => bool_decide (b = SEPARATOR)) (path level)) = 1%nat
  end.

(** What an account may ask for that is listed [named]. *)
Inductive allowed (f : Z -> list byte -> option Z -> answer Z) (me : Z) (named after : list Named) (before : list StoreCall) : StoreCall -> Prop :=
  | allow_create owner name parent : may_hold f me named before owner parent -> allowed f me named after before (CreateMailbox owner name parent)
  | allow_destroy n : n ∈ named -> may n (bs "x") = true -> found_inbox n = false -> has_children n = false ->
      allowed f me named after before (DestroyMailbox (named_owner n) (box_id (named_mailbox n)))
  | allow_move n name parent : n ∈ named -> may n (bs "x") = true -> found_inbox n = false -> may_move_to me named after (named_owner n) parent ->
      allowed f me named after before (MoveMailbox (named_owner n) (box_id (named_mailbox n)) name parent)
  | allow_subscribe n b : n ∈ named -> named_owner n = me -> allowed f me named after before (SetSubscribed me (box_id (named_mailbox n)) b)
  | allow_ingest n kws date message : n ∈ named -> may n (bs "i") = true -> Forall (fun k => may_set_keyword (named_rights n) k = true) kws ->
      allowed f me named after before (Ingest (named_owner n) (box_id (named_mailbox n)) kws date message)
  | allow_acl n grantee rights normal : n ∈ named -> may n (bs "a") = true -> normalize_rights rights = Some normal ->
      allowed f me named after before (SetMailboxAcl (named_owner n) (box_id (named_mailbox n)) grantee rights).

(** Of each call, and what was asked before it. *)
Fixpoint in_order (P : list StoreCall -> StoreCall -> Prop) (before cs : list StoreCall) : Prop :=
  match cs with [] => True | c :: cs => P before c /\ in_order P (before ++ [c]) cs end.

Lemma in_order_app (P : list StoreCall -> StoreCall -> Prop) before xs ys : in_order P before (xs ++ ys) <-> in_order P before xs /\ in_order P (before ++ xs) ys.
Proof.
  revert before. induction xs as [|x xs IH]; intros before; cbn; [by rewrite app_nil_r; split; [|intros [_ ?]]|].
  rewrite IH, <- app_assoc. cbn. tauto.
Qed.

Lemma in_order_impl (P Q : list StoreCall -> StoreCall -> Prop) cs : (forall before c, P before c -> Q before c) -> forall before, in_order P before cs -> in_order Q before cs.
Proof. intros H. induction cs as [|c cs IH]; intros before; [done|]. intros [Hc Hcs]. split; [by apply H|by apply IH]. Qed.

Lemma find_in named p n : ImapMailboxes.find named p = Some n -> n ∈ named.
Proof. by intros [Hin _]%find_some. Qed.

Lemma selectable_in named p n : find_selectable named p = Some n -> n ∈ named /\ placeholder n = false.
Proof.
  unfold find_selectable. destruct (ImapMailboxes.find named p) as [found|] eqn:E; [|done]. cbn. destruct (placeholder found) eqn:Ep; [done|].
  intros [= <-]. split; [by eapply find_in | done].
Qed.

Lemma deepest_in named levels depth start n : deepest named levels depth = Some (start, n) ->
  ImapMailboxes.find named (join_levels (take start levels)) = Some n /\ (0 < start <= depth)%nat.
Proof.
  induction depth as [|d IH]; [done|]. cbn [deepest].
  destruct (ImapMailboxes.find named (join_levels (take (S d) levels))) as [found|] eqn:E.
  - intros ?; simplify_eq. split; [done | lia].
  - intros [H1 H2]%IH. split; [done | lia].
Qed.

Lemma create_levels_allowed f me named after owner levels : forall before parent, may_hold f me named before owner parent ->
  in_order (fun before c => allowed f me named after before c /\ exists o n p, c = CreateMailbox o n p) before (create_levels f owner parent levels).1.
Proof.
  induction levels as [|level levels IH]; intros before parent Hp; [done|]. cbn [create_levels].
  assert (forall before, may_hold f me named before owner parent -> allowed f me named after before (CreateMailbox owner level parent)
    /\ exists o n p, CreateMailbox owner level parent = CreateMailbox o n p) as Hone by (split; [by apply allow_create|by repeat eexists]).
  destruct (f owner level parent) as [id|err] eqn:E; [|by split; [apply Hone|]].
  specialize (IH (before ++ [CreateMailbox owner level parent]) (Some id)). destruct (create_levels f owner (Some id) levels) as [calls done].
  cbn [fst in_order] in *. split; [by apply Hone|]. apply IH. eapply hold_made; [|exact E]. apply elem_of_app. right. by apply list_elem_of_singleton.
Qed.

Lemma create_allowed f me tag p named after :
  in_order (fun before c => allowed f me named after before c /\ exists o n p, c = CreateMailbox o n p) [] (calls (create f me tag p named)).
Proof.
  unfold create. destruct (_ || _); [done|]. destruct (ImapMailboxes.find _ _); [done|]. unfold place_of.
  assert (H : forall owner parent start, may_hold f me named [] owner parent ->
    in_order (fun before c => allowed f me named after before c /\ exists o n p, c = CreateMailbox o n p) []
      (calls (let '(calls, done) := create_levels f owner parent (drop start (levels_of (normalize p))) in
      {| calls := calls; lines := []; answered := when_done done (ok tag (bs "Create completed")) |}))).
  { intros owner parent start Hp. pose proof (create_levels_allowed f me named after owner (drop start (levels_of (normalize p))) [] parent Hp) as Hc.
    by destruct (create_levels _ _ _ _) as [cs done]. }
  destruct (deepest _ _ _) as [[start found]|] eqn:E; [|apply H, hold_top].
  apply deepest_in in E as [E _]. apply find_in in E.
  destruct (_ && negb (placeholder found)) eqn:Eo; [apply andb_prop in Eo as [Eo%Z.eqb_eq Ep%negb_true_iff]; by apply H, hold_own|].
  destruct (may found (bs "k")) eqn:Em; [|done]. by apply H, hold_shared.
Qed.

Lemma parent_allowed me owner named after p parent : parent_for me owner named p = Inside parent -> may_move_to me named after owner parent.
Proof.
  unfold parent_for. destruct p as [p|]; [|destruct (Z.eqb_spec owner me); [intros [= <-]; by left | done]].
  destruct (ImapMailboxes.find named p) as [n|] eqn:E; [|by destruct (_ =? _)]. apply find_in in E.
  destruct (negb (placeholder n) && _ && _) eqn:E1.
  - intros [= <-]. apply andb_prop in E1 as [[Hp%negb_true_iff Ho%Z.eqb_eq]%andb_prop Hk]. exists n. split_and!; [done..|]. left. split_and!; [done..|].
    apply orb_prop in Hk as [Hk%Z.eqb_eq|Hk]; [by left | by right].
  - destruct (placeholder n && _ && _ && _) eqn:E2; [|done]. intros [= <-]. right. exists n.
    apply andb_prop in E2 as [[[Hp _]%andb_prop Ho%Z.eqb_eq]%andb_prop Hn%Nat.eqb_eq]. done.
Qed.

Lemma rename_allowed f updated me tag from to named named_then named_after :
  in_order (fun before c => allowed f me named named_after before c \/ (exists o n p, c = CreateMailbox o n p) /\ allowed f me named_then named_after before c)
    [] (calls (rename f updated me tag from to named named_then named_after)).
Proof.
  unfold rename. destruct (find_selectable named from) as [source|] eqn:Es; [|done]. apply selectable_in in Es as [Hin _].
  destruct (found_inbox source) eqn:Ei; [done|]. destruct (may source (bs "x")) eqn:Ex; [|done]. cbn [negb].
  destruct (ImapMailboxes.find named (normalize to)); [done|]. destruct (match rsplit_once _ _ with Some _ => _ | None => _ end) as [parent_path name].
  destruct (bool_decide _); [done|]. destruct (parent_for me (named_owner source) named parent_path) as [parent|p|] eqn:Ep; [| |done].
  - cbn [calls app in_order]. split; [|done]. left. apply allow_move; [done..|]. by eapply parent_allowed.
  - assert (Hme : named_owner source = me).
    { unfold parent_for in Ep. destruct parent_path as [pp|]; [|by destruct (_ =? _)]. destruct (ImapMailboxes.find named pp); [by repeat destruct (_ && _)|].
      by destruct (Z.eqb_spec (named_owner source) me). }
    pose proof (create_allowed f me tag p named_then named_after) as Hc.
    apply (in_order_impl _ (fun before c => allowed f me named named_after before c \/ (exists o n p, c = CreateMailbox o n p) /\ allowed f me named_then named_after before c)) in Hc;
      [|intros before c [H1 H2]; by right].
    destruct (answered (create f me tag p named_then)); [|exact Hc]. destruct (ImapMailboxes.find named_after p) as [parent|] eqn:Ea; [|exact Hc].
    destruct (Z.eqb_spec (named_owner parent) me); [|exact Hc]. cbn [calls]. apply in_order_app. split; [exact Hc|]. split; [|done]. left.
    apply allow_move; [done..|]. exists parent. apply find_in in Ea. split_and!; [done|congruence|]. by right.
Qed.

Lemma list_reads f utf8 tag verb command named : calls (list_ f utf8 tag verb command named) = [].
Proof. unfold list_. destruct (forallb _ _); [done|]. destruct named; [|done]. by destruct (list_loop _ _ _ _ _). Qed.

Lemma quota_reads account utf8 tag root mailbox named : calls (quota account utf8 tag root mailbox named) = [].
Proof. unfold quota. by repeat case_match. Qed.

Lemma status_reads f utf8 tag p items named : calls (status f utf8 tag p items named) = [].
Proof. unfold status. by repeat case_match. Qed.

Lemma get_acl_reads owner entries utf8 tag p named : calls (get_acl owner entries utf8 tag p named) = [].
Proof. unfold get_acl. by repeat case_match. Qed.

Lemma list_rights_reads owner utf8 tag p identifier named : calls (list_rights owner utf8 tag p identifier named) = [].
Proof. unfold list_rights. by repeat case_match. Qed.

Lemma my_rights_reads utf8 tag p named : calls (my_rights utf8 tag p named) = [].
Proof. unfold my_rights. by repeat case_match. Qed.

Lemma set_acl_allowed f after owner entries done me tag p identifier rights named :
  Forall (allowed f me named after []) (calls (set_acl owner entries done tag p identifier rights named)).
Proof.
  unfold set_acl. destruct (find_selectable named p) as [n|] eqn:E; [|constructor]. apply selectable_in in E as [Hin _].
  destruct (may n (bs "a")) eqn:Em; [|constructor]. cbn [negb]. repeat case_match; cbn [calls done_with broken]; try apply Forall_nil_2;
    apply Forall_singleton; (destruct (normalize_rights _) as [normal|] eqn:En; [by eapply allow_acl | done]).
Qed.

Lemma subscribe_allowed f after updated me tag p b named : Forall (allowed f me named after []) (calls (subscribe updated me tag p b named)).
Proof.
  unfold subscribe. destruct (ImapMailboxes.find named p) as [n|] eqn:E; [|constructor]. apply find_in in E.
  destruct (Z.eqb_spec (named_owner n) me) as [Ho|]; [|constructor]. destruct (placeholder n); [constructor|]. apply Forall_singleton.
  rewrite Ho. by apply allow_subscribe.
Qed.

Lemma delete_allowed f after destroyed me tag p named selected : Forall (allowed f me named after []) (calls (delete destroyed tag p named selected).1).
Proof.
  unfold delete, delete_request. destruct (find_selectable named p) as [found|] eqn:Ef; [|constructor]. apply selectable_in in Ef as [Hin _].
  destruct (may found (bs "x")) eqn:Em; [|constructor]. destruct (found_inbox found) eqn:Ei; [constructor|]. destruct (has_children found) eqn:Eh; [constructor|].
  apply Forall_singleton. by apply allow_destroy.
Qed.

Lemma append_allowed f after ingested refreshed me tag p flags date message named :
  Forall (allowed f me named after []) (calls (append ingested refreshed tag p flags date message named)).
Proof.
  unfold append. destruct (find_selectable named p) as [found|] eqn:Ef; [|constructor]. apply selectable_in in Ef as [Hin _].
  destruct (may found (bs "i")) eqn:Em; [|constructor]. cbn [negb]. destruct (bool_decide _); [constructor|]. apply Forall_singleton. apply allow_ingest; [done..|].
  apply Forall_forall. intros k Hk. by apply list_elem_of_In, filter_In in Hk as [_ Hk].
Qed.

Lemma set_acl_once owner entries done tag p identifier rights named : (length (calls (set_acl owner entries done tag p identifier rights named)) <= 1)%nat.
Proof. unfold set_acl. repeat case_match; cbn; lia. Qed.

Lemma subscribe_once updated me tag p b named : (length (calls (subscribe updated me tag p b named)) <= 1)%nat.
Proof. unfold subscribe. repeat case_match; cbn; lia. Qed.

Lemma delete_once destroyed tag p named selected : (length (calls (delete destroyed tag p named selected).1) <= 1)%nat.
Proof. unfold delete. repeat case_match; cbn; lia. Qed.

Lemma append_once ingested refreshed tag p flags date message named : (length (calls (append ingested refreshed tag p flags date message named)) <= 1)%nat.
Proof. unfold append. repeat case_match; cbn; lia. Qed.

(** C17: No command on mailboxes asks the store for more than the account's rights allow: it
    creates in its own account or inside a mailbox with the right k, with that one's owner;
    deletes and renames only with x, never an inbox, and deletes no mailbox with others
    inside; moves a mailbox only to a parent of the same owner, which is its own or has the
    right k, or to the top of that owner's; adds a message only with i and with the flags it may set there;
    shares on only with a, and only letters that are rights. The commands that read ask
    for no change. *)
Theorem mailbox_commands_allowed st me utf8 selected tag body named d :
  named_now st = Got named -> mailbox_command st me utf8 selected tag body = Some d ->
  in_order (fun before c => allowed (create_mailbox st) me named (named_after st) before c \/
    (exists from to, body = CommandBody.Rename from to) /\ (exists o n p, c = CreateMailbox o n p)
      /\ allowed (create_mailbox st) me (named_then st) (named_after st) before c) [] (calls d).
Proof.
  intros Hn. set (P := fun before c => _). assert (Hone : forall cs, (length cs <= 1)%nat -> Forall (allowed (create_mailbox st) me named (named_after st) []) cs -> in_order P [] cs).
  { intros [|c [|]] Hl; cbn in *; [done| |lia]. intros H. apply Forall_inv in H. unfold P. split; [by left|done]. }
  unfold mailbox_command, with_named. rewrite Hn. destruct body; try done; intros [= <-];
    rewrite ?list_reads, ?quota_reads, ?status_reads, ?get_acl_reads, ?list_rights_reads, ?my_rights_reads; try done.
  - eapply in_order_impl, create_allowed. intros before c [H _]. unfold P. by left.
  - apply Hone; [apply delete_once|apply delete_allowed].
  - eapply in_order_impl, rename_allowed. intros before c [H|[H1 H2]]; unfold P; [by left|right]. by split_and!; [repeat eexists|..].
  - apply Hone; [apply subscribe_once|apply subscribe_allowed].
  - apply Hone; [apply subscribe_once|apply subscribe_allowed].
  - apply Hone; [apply append_once|apply append_allowed].
  - apply Hone; [apply set_acl_once|apply set_acl_allowed].
  - apply Hone; [apply set_acl_once|apply set_acl_allowed].
Qed.

(** ** What CREATE makes *)

Lemma split_on_not_nil d s : split_on d s <> [].
Proof. destruct s as [|b s]; [done|]. cbn. destruct (decide _); [done|]. by destruct (split_on d s). Qed.

Lemma join_levels_of p : join_levels (levels_of p) = p.
Proof.
  unfold join_levels, levels_of. induction p as [|b p IH]; [done|]. cbn [split_on]. pose proof (split_on_not_nil SEPARATOR p) as Hne.
  destruct (split_on SEPARATOR p) as [|part parts]; [done|]. destruct (decide (b = SEPARATOR)) as [->|].
  - change (join [SEPARATOR] ([] :: part :: parts)) with (SEPARATOR :: join [SEPARATOR] (part :: parts)). by rewrite IH.
  - rewrite <-IH. by destruct parts.
Qed.

(** One mailbox inside the other, the first inside [parent]. *)
Inductive chain (f : Z -> list byte -> option Z -> answer Z) (owner : Z) : option Z -> list (list byte) -> list StoreCall -> Prop :=
  | chain_nil parent : chain f owner parent [] []
  | chain_cons parent name id names calls : f owner name parent = Got id -> chain f owner (Some id) names calls ->
      chain f owner parent (name :: names) (CreateMailbox owner name parent :: calls).

Lemma create_levels_chain f owner levels : forall parent calls,
  create_levels f owner parent levels = (calls, Got tt) -> chain f owner parent levels calls.
Proof.
  induction levels as [|level levels IH]; intros parent cs; cbn [create_levels]; [intros [= <-]; constructor|].
  destruct (f owner level parent) as [id|] eqn:E; [|done]. destruct (create_levels f owner (Some id) levels) as [cs' done] eqn:Ec.
  intros [= <- ->]. by eapply chain_cons, IH.
Qed.

Lemma deepest_none named levels depth : deepest named levels depth = None ->
  forall k, (0 < k <= depth)%nat -> ImapMailboxes.find named (join_levels (take k levels)) = None.
Proof.
  induction depth as [|d IH]; [lia|]. cbn [deepest]. destruct (ImapMailboxes.find named (join_levels (take (S d) levels))) eqn:E; [done|].
  intros H k Hk. destruct (decide (k = S d)) as [->|]; [done | apply IH; [done | lia]].
Qed.

Lemma deepest_above named levels depth start n : deepest named levels depth = Some (start, n) ->
  forall k, (start < k <= depth)%nat -> ImapMailboxes.find named (join_levels (take k levels)) = None.
Proof.
  induction depth as [|d IH]; [done|]. cbn [deepest]. destruct (ImapMailboxes.find named (join_levels (take (S d) levels))) eqn:E.
  - intros ? k Hk. simplify_eq. lia.
  - intros H k Hk. destruct (decide (k = S d)) as [->|]; [done | apply IH; [done | lia]].
Qed.

(** What a mailbox at a path is made inside of: nothing, in one's own account, or a mailbox
    that exists, and its owner's. *)
Definition made_inside (me : Z) (named : list Named) (above : list (list byte)) (owner : Z) (parent : option Z) : Prop :=
  (above = [] /\ owner = me /\ parent = None) \/
  exists n, ImapMailboxes.find named (join_levels above) = Some n /\ owner = named_owner n /\ parent = Some (box_id (named_mailbox n)) /\ placeholder n = false.

(** CREATE makes the path it is asked for and nothing else: below the deepest level that
    exists already, one mailbox inside the other, and they belong to whom that level
    belongs to. *)
Theorem create_makes_path f me tag p named text :
  answered (create f me tag p named) = Got text -> calls (create f me tag p named) <> [] ->
  exists above names owner parent,
    join_levels (above ++ names) = normalize p /\ made_inside me named above owner parent /\
    (forall k, (0 < k < length names)%nat -> ImapMailboxes.find named (join_levels (above ++ take k names)) = None) /\
    ImapMailboxes.find named (normalize p) = None /\
    chain f owner parent names (calls (create f me tag p named)).
Proof.
  unfold create. destruct (_ || _); [done|]. destruct (ImapMailboxes.find named (normalize p)) eqn:Ef; [done|].
  unfold place_of. set (levels := levels_of (normalize p)).
  assert (Hmake : forall owner parent start, (start < length levels)%nat -> made_inside me named (take start levels) owner parent ->
    (forall k, (start < k <= length levels - 1)%nat -> ImapMailboxes.find named (join_levels (take k levels)) = None) ->
    forall cs done, create_levels f owner parent (drop start levels) = (cs, done) -> when_done done (ok tag (bs "Create completed")) = Got text ->
    exists above names owner parent, join_levels (above ++ names) = normalize p /\ made_inside me named above owner parent /\
      (forall k, (0 < k < length names)%nat -> ImapMailboxes.find named (join_levels (above ++ take k names)) = None) /\
      (None : option Named) = None /\ chain f owner parent names cs).
  { intros owner parent start Hlt Hin Hnone cs done Hc Hdone. exists (take start levels), (drop start levels), owner, parent. split_and!; try done.
    - rewrite take_drop. apply join_levels_of.
    - intros k Hk. rewrite length_drop in Hk. rewrite take_take_drop. apply Hnone. lia.
    - apply create_levels_chain. destruct done as [[]|]; [done | discriminate]. }
  assert (Hlen : (0 < length levels)%nat) by (pose proof (split_on_not_nil SEPARATOR (normalize p)); unfold levels, levels_of; by destruct (split_on _ _); [|cbn; lia]).
  destruct (deepest named levels (length levels - 1)) as [[start found]|] eqn:Ed.
  - destruct (deepest_in _ _ _ _ _ Ed) as [Hfound Hstart]. pose proof (deepest_above _ _ _ _ _ Ed) as Habove.
    destruct ((named_owner found =? me) && negb (placeholder found)) eqn:Eo; [|destruct (may found (bs "k")) eqn:Em; [|done]];
      destruct (create_levels f _ _ _) as [cs done] eqn:Ec; intros Ha _; cbn [answered calls] in *;
      (eapply (Hmake _ _ start); [lia | right; exists found; split_and!; [exact Hfound | | reflexivity |] | exact Habove | exact Ec | exact Ha]).
    + apply andb_prop in Eo as [Eo%Z.eqb_eq _]. congruence.
    + by apply andb_prop in Eo as [_ Eo%negb_true_iff].
    + done.
    + by apply andb_prop in Em as [Em%negb_true_iff _].
  - pose proof (deepest_none _ _ _ Ed) as Hnone. destruct (create_levels f _ _ _) as [cs done] eqn:Ec. intros Ha _; cbn [answered calls] in *.
    eapply (Hmake _ _ 0%nat); [exact Hlen | by left | exact Hnone | exact Ec | exact Ha].
Qed.

(** ** Witnesses and examples *)

Definition two_boxes : list Named := named [box 1 None "Inbox" (Some MailboxRole.Inbox); box 3 None "Work" None] 1.

Definition made (owner : Z) (name : list byte) (parent : option Z) : answer Z := Got (default 10 (Z.add 1 <$> parent)).

Lemma create_makes_path_witness : exists above names owner parent,
  join_levels (above ++ names) = bs "Work/2024/Taxes" /\
  chain made owner parent names [CreateMailbox 1 (bs "2024") (Some 3); CreateMailbox 1 (bs "Taxes") (Some 4)].
Proof.
  destruct (create_makes_path made 1 (bs "a") (bs "Work/2024/Taxes/") two_boxes (bs "a OK Create completed" ++ CRLF) eq_refl ltac:(vm_compute; discriminate))
    as (above & names & owner & parent & H1 & _ & _ & _ & H2).
  exists above, names, owner, parent. split; [exact H1 | exact H2].
Defined.

(** A mailbox someone else shared for reading and creating. *)
Definition lenis_box (rights : list byte) : Named :=
  {| named_mailbox := box 9 None "Team" None; path := bs "Shared/leni@example.org/Team"; has_children := false; named_owner := 2;
     named_rights := rights; placeholder := false |}.

Definition some_store (rights : list byte) : MailStore :=
  {| create_mailbox := made; update_mailbox := Got tt; destroy_mailbox := Got tt; ingest := Got 5; refreshed := Got tt; set_mailbox_acl := Got tt;
     login_of := bs "leni@example.org"; mailbox_acl := Got []; imap_status := fun _ _ => Broken OtherError; account_by_id := Got None;
     named_now := Got [lenis_box rights]; named_then := []; named_after := [] |}.

Lemma mailbox_commands_allowed_witness : may (lenis_box (bs "lrk")) (bs "k") = true.
Proof.
  pose proof (mailbox_commands_allowed (some_store (bs "lrk")) 1 false None (bs "a") (CommandBody.Create (bs "Shared/leni@example.org/Team/New"))
    [lenis_box (bs "lrk")] {| calls := [CreateMailbox 2 (bs "New") (Some 9)]; lines := []; answered := Got (bs "a OK Create completed" ++ CRLF) |}
    eq_refl ltac:(vm_compute; reflexivity)) as H.
  destruct H as [[H|[[from [to [=]]] _]] _]. inversion H as [o name parent Hp| | | | |]; subst. inversion Hp as [|n Hin Ho|n Hin Hmay|o nm parent id Hb _]; subst;
    [apply list_elem_of_singleton in Hin; subst n; exact Hmay|by apply elem_of_nil in Hb].
Defined.

(** The letters a client gives are echoed as they are: with a literal that holds a line
    break, SETACL answers with a line of the client's own. *)
Example set_acl_echoes_line_breaks :
  tagged_of (bs "a") (set_acl (bs "mini@example.org") (Got []) (Got tt) (bs "a") (bs "Work") (bs "leni@example.org")
    (Some (bs "z" ++ CRLF ++ bs "* BYE")) two_boxes)
  = bs "a BAD Unknown rights z" ++ CRLF ++ bs "* BYE" ++ CRLF.
Proof. vm_compute. reflexivity. Qed.
