(* ===== verification/ImapSessionRead.v ===== *)
(** * Reading a command (crates\/uwumail-imap\/src\/session.rs)

    [read_command] reads lines and the literals they announce until a line announces
    none. What a client sends until it hangs up is a list of bytes; what is sent to it on
    the way is kept in order. Each turn of the loop takes a line that is not empty, so
    the bytes there are bound its turns. *)

From S2P Require Import Prelude Effects Utf8 ImapCommand ImapParser ImapSession ImapSessionStore ImapSessionMailboxes.

Definition MAX_LINE : Z := 64 * 1024.
Definition MAX_COMMAND : Z := 256 * 1024.
Definition MAX_LITERAL_BEFORE_LOGIN : Z := 8 * 1024.
Definition MAX_COMMAND_BEFORE_LOGIN : Z := MAX_LINE.

Definition len (s : list byte) : Z := Z.of_nat (length s).

(** [take(limit + 1).read_until]: a line, or what there is of it; none when it is longer
    than the limit. The rest of the input comes with it. *)
Definition read_line (limit : Z) (input : list byte) : option (list byte) * list byte :=
  let window := take (Z.to_nat (limit + 1)) input in
  let line := match Prelude.position (fun b => bool_decide (b = x0a)) window with
              | Some i => take (S i) window
              | None => window
              end in
  (if limit <? len line then None else Some line, drop (length line) input).

Inductive ReadCommand :=
  | ReadWhole (command : list byte)
  | HungUp
  | Invalid (message : list byte)
  | UnexpectedEof.

(** Who is connected: nobody yet, or someone whose messages may be so large. *)
Definition Login := option Z.

Definition words (s : list byte) : list (list byte) := split_on x20 s.

Definition is_append (command : list byte) : bool :=
  match words (from_utf8_lossy (take 64 command)) !! 1%nat with
  | Some word => eq_ignore_ascii_case word (bs "APPEND")
  | None => false
  end.

(** The largest literal, and the largest command with its literals. *)
Definition limits (login : Login) (append : bool) : Z * Z :=
  match login with
  | None => (MAX_LITERAL_BEFORE_LOGIN, MAX_COMMAND_BEFORE_LOGIN)
  | Some max_append => if append then (max_append, max_append + MAX_COMMAND) else (MAX_COMMAND, 2 * MAX_COMMAND)
  end.

Definition too_big (command : list byte) (append : bool) : list byte :=
  let tag := default (bs "*") (head (words (from_utf8_lossy command))) in
  if append then no tag (Some (bs "TOOBIG")) (bs "The message is too big") else bad tag (bs "Too much data").

Definition continuation : list byte := bs "+ Ready for literal data" ++ CRLF.

(** What is read, what is left of the input, what is sent meanwhile, and how many bytes of
    one command were [held] at most: its lines and literals so far, with what has come of the
    line or the literal that is being read. *)
Record CommandRead := {
  outcome_of : outcome Empty_set ReadCommand; unread : list byte; sent_meanwhile : list (list byte); held : Z }.

Definition came_to (r : outcome Empty_set ReadCommand) (rest : list byte) (sent : list (list byte)) (held : Z) : CommandRead :=
  {| outcome_of := r; unread := rest; sent_meanwhile := sent; held := held |}.

Fixpoint read_loop (fuel : nat) (login : Login) (command input : list byte) (sent : list (list byte)) (held : Z) : CommandRead :=
  match fuel with
  | O => came_to OutOfFuel input sent held
  | S fuel =>
      let '(line, rest) := read_line MAX_LINE input in
      let held := Z.max held (len command + (len input - len rest)) in
      match line with
      | None => came_to (Ok (Invalid (bs "Line too long"))) rest sent held
      | Some line =>
          if negb (bool_decide (last line = Some x0a)) then came_to (Ok HungUp) rest sent held
          else
            let command := command ++ line in
            match literal_announcement line with
            | None => came_to (Ok (ReadWhole command)) rest sent held
            | Some (size, non_synchronizing) =>
                let append := is_append command in
                let '(limit, in_all) := limits login append in
                if (limit <? size) || (in_all <? len command + size) then
                  if non_synchronizing then came_to (Ok (Invalid (bs "Literal too big"))) rest sent held
                  else read_loop fuel login [] rest (sent ++ [too_big command append]) held
                else
                  let sent := if non_synchronizing then sent else sent ++ [continuation] in
                  let literal := take (Z.to_nat size) rest in
                  let held := Z.max held (len command + len literal) in
                  if len literal <? size then came_to (Ok UnexpectedEof) [] sent held
                  else read_loop fuel login (command ++ literal) (drop (Z.to_nat size) rest) sent held
            end
      end
  end.

Definition read_command (login : Login) (input : list byte) : CommandRead := read_loop (S (length input)) login [] input [] 0.

(** ** Lines *)

Lemma take_length_drop {A} k (l : list A) : l = take k l ++ drop (length (take k l)) l.
Proof.
  rewrite length_take. destruct (Nat.le_ge_cases k (length l)) as [H|H].
  - by rewrite Nat.min_l, take_drop.
  - by rewrite Nat.min_r, take_ge, drop_all, app_nil_r.
Qed.

(** What is taken of the input is at most one byte more than the limit. *)
Lemma read_line_takes limit input : 0 <= limit -> 0 <= len input - len (read_line limit input).2 <= limit + 1.
Proof.
  intros Hl. unfold read_line. cbn [snd]. set (window := take _ input). unfold len. rewrite length_drop.
  match goal with |- context [length (match ?d with _ => _ end)] => assert ((length (match d with Some i => take (S i) window | None => window end) <= length window)%nat) as H
    by (destruct d; rewrite ?length_take; lia) end.
  assert ((length window <= Z.to_nat (limit + 1) /\ length window <= length input)%nat) as [H1 H2] by (unfold window; rewrite length_take; lia). lia.
Qed.

Lemma read_line_reads limit input line rest : read_line limit input = (Some line, rest) -> input = line ++ rest /\ len line <= limit.
Proof.
  unfold read_line. set (window := take _ input).
  assert (Hline : exists k, match Prelude.position (fun b => bool_decide (b = x0a)) window with Some i => take (S i) window | None => window end = take k input).
  { destruct (Prelude.position _ window) as [i|]; [|by eexists]. unfold window. rewrite take_take. by eexists. }
  destruct Hline as [k ->]. destruct (Z.ltb_spec limit (len (take k input))) as [|Hlen]; [done|]. intros [= <- <-].
  split; [apply take_length_drop | done].
Qed.

(** ** What is read *)

Definition in_all (login : Login) : Z :=
  match login with None => MAX_COMMAND_BEFORE_LOGIN | Some max_append => Z.max (max_append + MAX_COMMAND) (2 * MAX_COMMAND) end.

Lemma last_app_line (s t : list byte) b : last t = Some b -> last (s ++ t) = Some b.
Proof. intros H. by rewrite last_app, H. Qed.

Lemma limits_in_all login append : (limits login append).2 <= in_all login.
Proof. destruct login as [m|], append; cbn; lia. Qed.

Lemma literal_size_nonneg line size plus : literal_announcement line = Some (size, plus) -> 0 <= size.
Proof.
  unfold literal_announcement. intros H. destruct (match strip_suffix [x0d; x0a] line with Some _ => _ | None => _ end) as [l|]; [|done]. cbn [mbind option_bind] in H.
  destruct (strip_suffix (bs "}") l) as [inner|]; [|done]. cbn [mbind option_bind] in H. destruct (rposition _ inner) as [i|]; [|done]. cbn [mbind option_bind] in H.
  destruct (match strip_suffix (bs "+") _ with Some _ => _ | None => _ end) as [digits b]. case_decide; [done|].
  destruct (parse_unsigned u64_max digits) as [n|] eqn:E; [|done]. cbn [mbind option_bind] in H. injection H as <- _. apply parse_unsigned_bound in E; [lia | done].
Qed.

Lemma in_all_nonneg login : 0 <= in_all login.
Proof. destruct login; cbn; unfold MAX_COMMAND, MAX_COMMAND_BEFORE_LOGIN, MAX_LINE; lia. Qed.

(** The bytes of a command are a piece of the input up to what is left of it; neither it nor
    anything held on the way is more than the limits; the loop always ends. *)
Definition reads_ok (login : Login) (input : list byte) (r : CommandRead) : Prop :=
  held r <= in_all login + MAX_LINE + 1 /\
  match outcome_of r with
  | Ok (ReadWhole command) =>
      (exists dropped, input = dropped ++ command ++ unread r) /\ len command <= in_all login + MAX_LINE /\ last command = Some x0a
  | Ok _ => True
  | _ => False
  end.

Lemma reads_ok_drop login dropped input r : reads_ok login input r -> reads_ok login (dropped ++ input) r.
Proof.
  unfold reads_ok. intros [Hh H]. split; [done|]. destruct (outcome_of r) as [[command| | |]| | |]; try done. destruct H as [[d ->] H]. split; [|done].
  exists (dropped ++ d). by rewrite app_assoc.
Qed.

Lemma read_loop_ok fuel login : forall command input sent held,
  (length input < fuel)%nat -> len command <= in_all login -> held <= in_all login + MAX_LINE + 1 ->
  reads_ok login (command ++ input) (read_loop fuel login command input sent held).
Proof.
  induction fuel as [|fuel IH]; intros command input sent held Hfuel Hcommand Hheld; [lia|]. cbn [read_loop].
  pose proof (read_line_takes MAX_LINE input ltac:(done)) as Htaken. destruct (read_line MAX_LINE input) as [line rest] eqn:El. cbn [snd] in Htaken. cbv zeta.
  set (held1 := Z.max held _). assert (held1 <= in_all login + MAX_LINE + 1) as Hheld1 by lia. clearbody held1.
  destruct line as [line|]; [|done]. apply read_line_reads in El as [-> Hline]. case_bool_decide as Hlast; cbn [negb]; [|done].
  assert (Hne : (0 < length line)%nat) by (destruct line; [done | cbn; lia]). rewrite length_app in Hfuel.
  destruct (literal_announcement line) as [[size plus]|] eqn:Ea.
  - pose proof (literal_size_nonneg _ _ _ Ea) as Hsize. pose proof (limits_in_all login (is_append (command ++ line))) as Hlim.
    destruct (limits login _) as [limit all]. cbn [snd] in Hlim. destruct (_ || _) eqn:Eb.
    + destruct plus; [done|]. rewrite app_assoc. apply reads_ok_drop, (IH []); [lia | apply in_all_nonneg | done].
    + apply orb_false_iff in Eb as [_ Hfits%Z.ltb_ge]. assert (len (take (Z.to_nat size) rest) <= size) as Hliteral by (unfold len; rewrite length_take; lia).
      assert (Z.max held1 (len (command ++ line) + len (take (Z.to_nat size) rest)) <= in_all login + MAX_LINE + 1) as Hheld2 by (assert (0 <= MAX_LINE) by done; lia).
      destruct (Z.ltb_spec (len (take (Z.to_nat size) rest)) size) as [|Hrest]; [done|].
      rewrite app_assoc. rewrite <-(take_drop (Z.to_nat size) rest) at 1. rewrite app_assoc.
      apply IH; [rewrite length_drop; lia| |done].
      assert (forall xs ys, len (xs ++ ys) = len xs + len ys) as Hlen by (intros xs ys; unfold len; rewrite length_app; lia). rewrite Hlen. lia.
  - split; [done|]. cbn. split_and!; [exists []; by rewrite <-app_assoc| |by apply last_app_line].
    unfold len in *. rewrite length_app. lia.
Qed.

(** C27: Reading ends for whatever a client sends; what it reads are the bytes that were sent,
    in order, up to a line break; and nobody makes the server hold more of one command than the
    limits of a command and one more line, whether it is read to its end, refused or broken
    off: before logging in a line of 64 KiB (and a byte) on top of the 64 KiB that lines and literals
    may come to where a literal is announced. *)
Theorem read_command_ok login input : reads_ok login input (read_command login input).
Proof. apply (read_loop_ok _ login []); [lia | apply in_all_nonneg | pose proof (in_all_nonneg login); unfold MAX_LINE; lia]. Qed.

(** ** Examples *)

(** A login with two literals, the second sent without waiting, and what comes after it. *)
Definition login_line : list byte :=
  bs "a LOGIN {4}" ++ CRLF ++ bs "mini {6+}" ++ CRLF ++ bs "secret" ++ CRLF ++ bs "b NOOP" ++ CRLF.

Example a_login_is_read :
  read_command None login_line
  = came_to (Ok (ReadWhole (bs "a LOGIN {4}" ++ CRLF ++ bs "mini {6+}" ++ CRLF ++ bs "secret" ++ CRLF))) (bs "b NOOP" ++ CRLF) [continuation] 32.
Proof. vm_compute. reflexivity. Qed.

Example a_large_literal_is_refused :
  read_command None (bs "a LOGIN {8193}" ++ CRLF ++ bs "b NOOP" ++ CRLF)
  = came_to (Ok (ReadWhole (bs "b NOOP" ++ CRLF))) [] [bs "a BAD Too much data" ++ CRLF] 16.
Proof. vm_compute. reflexivity. Qed.

(** Before logging in a command may hold more than [MAX_COMMAND_BEFORE_LOGIN]: the limit is
    only looked at where a literal is announced. *)
Definition long_line : list byte := bs "a NOOP" ++ repeat x20 (Z.to_nat MAX_LINE - 8) ++ CRLF.

Definition announcing : list byte := bs "a LOGIN {8000+}" ++ CRLF.

Example more_than_a_command_before_login :
  match outcome_of (read_command None (announcing ++ repeat x20 8000 ++ long_line)) with
  | Ok (ReadWhole command) => len command - MAX_COMMAND_BEFORE_LOGIN
  | _ => 0
  end = 8017.
Proof. vm_compute. reflexivity. Qed.
