(* ===== verification/ImapSessionDispatch.v ===== *)
(** * What a connection may do (crates\/uwumail-imap\/src\/session.rs)

    The state of a connection ([Session]) and the part of [dispatch] that every command
    goes through before it runs ([dispatch_start]): whether it may be given now, whether
    the login still holds, the rights of a shared mailbox read again, [$] filled in. Then
    the commands that change only the connection, and logging in, which ends the
    connection after [MAX_AUTH_FAILURES]. *)

From S2P Require Import Prelude Utf8 ImapCommand ImapResponse Acl ImapMailboxes ImapSession ImapSessionStore ImapSessionMailboxes ImapSessionSearch.

(** ** State *)

(** [account] is who logged in, by id. *)
Record Session := {
  account : option Z; auth_failures : Z; enabled : Enabled; selected : option Selected; saved : list Z }.

Definition nothing_enabled : Enabled := {| utf8 := false; condstore := false; qresync := false; rev2 := false |}.

Definition new_session : Session := {| account := None; auth_failures := 0; enabled := nothing_enabled; selected := None; saved := [] |}.

Definition set_account (a : option Z) (s : Session) : Session :=
  {| account := a; auth_failures := auth_failures s; enabled := enabled s; selected := selected s; saved := saved s |}.
Definition set_enabled (e : Enabled) (s : Session) : Session :=
  {| account := account s; auth_failures := auth_failures s; enabled := e; selected := selected s; saved := saved s |}.
Definition set_selected (sel : option Selected) (s : Session) : Session :=
  {| account := account s; auth_failures := auth_failures s; enabled := enabled s; selected := sel; saved := saved s |}.

(** ** Before a command runs *)

Definition needs_selection (body : CommandBody) : bool :=
  match body with
  | CommandBody.Close | CommandBody.Unselect | CommandBody.Expunge _ | CommandBody.Search _ _ _ | CommandBody.Fetch _ _ _ _ _
  | CommandBody.Store _ _ _ _ _ _ | CommandBody.Copy _ _ _ | CommandBody.Move _ _ _ | CommandBody.Check => true
  | _ => false
  end.

(** Why a command may not be given now. *)
Definition gate (authenticated has_selection : bool) (body : CommandBody) : option (list byte) :=
  match body with
  | CommandBody.Capability | CommandBody.Noop | CommandBody.Logout | CommandBody.Id => None
  | CommandBody.Login _ _ | CommandBody.Authenticate _ _ | CommandBody.StartTls =>
      if authenticated then Some (bs "Already logged in") else None
  | _ =>
      if negb authenticated then Some (bs "Log in first")
      else if needs_selection body && negb has_selection then Some (bs "Select a mailbox first")
      else None
  end.

Inductive Start :=
  | Rejected (text : list byte)
  | LoginEnded
  | NotShared
  | StoreFailed
  | Runs (s : Session) (body : CommandBody).

Definition is_logout (body : CommandBody) : bool := match body with CommandBody.Logout => true | _ => false end.
Definition closes (body : CommandBody) : bool := match body with CommandBody.Close | CommandBody.Unselect => true | _ => false end.

(** [login_holds]: the account as it is now, if the login still holds. [shared]: the
    rights the selected mailbox is shared with now. *)
Definition dispatch_start (login_holds : option Z) (shared : answer (option (list byte))) (s : Session) (body : CommandBody) : Start :=
  let authenticated := bool_decide (is_Some (account s)) in
  match gate authenticated (bool_decide (is_Some (selected s))) body with
  | Some text => Rejected text
  | None =>
      let checked := authenticated && negb (is_logout body) in
      if checked && bool_decide (login_holds = None) then LoginEnded
      else
        let s := if checked then set_account login_holds s else s in
        match selected s with
        | Some sel =>
            if needs_selection body then
              let me := default 0 (account s) in
              if owner sel =? me then Runs s (fill_saved (Some sel) (saved s) body)
              else
                match shared with
                | Broken _ => StoreFailed
                | Got shared =>
                    match recheck_rights me (negb (closes body)) shared sel with
                    | Holds sel => Runs (set_selected (Some sel) s) (fill_saved (Some sel) (saved s) body)
                    | NoLongerShared => NotShared
                    end
                end
            else Runs s (fill_saved (Some sel) (saved s) body)
        | None => Runs s (fill_saved None (saved s) body)
        end
  end.

(** ** Commands on the connection itself *)

(** ENABLE of one capability, and the name it is answered with. *)
Definition enable_one (e : Enabled) (capability : list byte) : Enabled * option (list byte) :=
  if bool_decide (capability = bs "CONDSTORE") then
    ({| utf8 := utf8 e; condstore := true; qresync := qresync e; rev2 := rev2 e |}, Some capability)
  else if bool_decide (capability = bs "QRESYNC") then
    ({| utf8 := utf8 e; condstore := true; qresync := true; rev2 := rev2 e |}, Some capability)
  else if bool_decide (capability = bs "UTF8=ACCEPT") then
    ({| utf8 := true; condstore := condstore e; qresync := qresync e; rev2 := rev2 e |}, Some capability)
  else if bool_decide (capability = bs "IMAP4REV2") then
    ({| utf8 := true; condstore := condstore e; qresync := qresync e; rev2 := true |}, Some (bs "IMAP4rev2"))
  else (e, None).

Fixpoint enable_all (e : Enabled) (capabilities : list (list byte)) : Enabled * list (list byte) :=
  match capabilities with
  | [] => (e, [])
  | capability :: capabilities =>
      let '(e, name) := enable_one e capability in
      let '(e, names) := enable_all e capabilities in
      (e, match name with Some name => name :: names | None => names end)
  end.

Definition enable (tag : list byte) (capabilities : list (list byte)) (s : Session) : Session * list byte * list byte :=
  let '(e, names) := enable_all (enabled s) capabilities in
  (set_enabled e s, bs "* ENABLED" ++ mjoin (map (fun name => bs " " ++ name) names) ++ CRLF, ok tag (bs "Enabled")).

(** UNAUTHENTICATE: nothing of the login stays; the failed logins of the connection do. *)
Definition unauthenticate (s : Session) : Session :=
  {| account := None; auth_failures := auth_failures s; enabled := nothing_enabled; selected := None; saved := [] |}.

(** CLOSE and UNSELECT: whether the store is asked to expunge, and the selection. *)
Definition close (expunging : bool) (s : Session) : Session * bool * list (list byte) :=
  let expunges := match selected s with
                  | Some sel => expunging && negb (read_only sel) && has_letter (rights sel) "e"%byte
                  | None => false
                  end in
  ({| account := account s; auth_failures := auth_failures s; enabled := enabled s; selected := None; saved := [] |}, expunges,
   if qresync (enabled s) then [bs "* OK [CLOSED] Previous mailbox closed" ++ CRLF] else []).

(** ** Logging in *)

Module Denied.
Inductive Denied : Type := Invalid | UnknownLogin | AppPasswordRequired | Expired | WrongScope | ProtocolOff.
End Denied.
Abbreviation Denied := Denied.Denied.

#[export] Instance Denied_eq_dec : EqDecision Denied.
Proof. solve_decision. Defined.

Inductive Checked := LoggedIn (account : Z) | LoginDenied (reason : Denied) | CheckFailed.

Definition MAX_AUTH_FAILURES : Z := 3.

(** What the limiter is told, and how. *)
Inductive Told_ := Success | UnknownLogin_ | Failure | Nothing.

Definition told_limiter (checked : Checked) : Told_ :=
  match checked with
  | LoggedIn _ => Success
  | LoginDenied Denied.AppPasswordRequired => Nothing
  | LoginDenied Denied.UnknownLogin => UnknownLogin_
  | LoginDenied _ => Failure
  | CheckFailed => Nothing
  end.

Definition denied_text (reason : Denied) : list byte :=
  match reason with
  | Denied.AppPasswordRequired => bs "This account needs an app password for mail apps"
  | Denied.Expired => bs "The token or app password has expired"
  | _ => bs "Wrong login or password"
  end.

(** [capabilities_after_login] *)
Definition capabilities_after_login (max_append : Z) : list byte :=
  bs "IMAP4rev1 IMAP4rev2 LITERAL+ ID ENABLE IDLE NAMESPACE UIDPLUS MOVE UNSELECT CHILDREN SPECIAL-USE "
  ++ bs "LIST-EXTENDED LIST-STATUS ESEARCH SEARCHRES CONDSTORE QRESYNC QUOTA QUOTA=RES-STORAGE UTF8=ACCEPT "
  ++ bs "STATUS=SIZE WITHIN BINARY UNAUTHENTICATE ACL RIGHTS=kxte APPENDLIMIT=" ++ dec max_append.

(** The session, what is sent, and whether the connection goes on. A refused token is
    first answered with a challenge, whose own answer may not come in time. *)
Definition finish_login (max_append : Z) (tag : list byte) (checked : Checked) (challenge : option (list byte * bool)) (s : Session) : Session * list (list byte) * bool :=
  match checked with
  | LoggedIn account =>
      (set_account (Some account) s,
       [tag ++ bs " OK [CAPABILITY " ++ capabilities_after_login max_append ++ bs "] Logged in, hi" ++ CRLF], true)
  | LoginDenied reason =>
      let failures := auth_failures s + 1 in
      let s := {| account := account s; auth_failures := failures; enabled := enabled s; selected := selected s; saved := saved s |} in
      let refusal := no tag (Some (bs "AUTHENTICATIONFAILED")) (denied_text reason) in
      let first := match challenge with Some (encoded, _) => [bs "+ " ++ encoded ++ CRLF] | None => [] end in
      if match challenge with Some (_, false) => true | _ => false end
      then (s, first ++ [bs "* BYE Autologout, you were idle for too long" ++ CRLF], false)
      else if MAX_AUTH_FAILURES <=? failures then (s, first ++ [refusal; bs "* BYE Too many failed logins" ++ CRLF], false)
      else (s, first ++ [refusal], true)
  | CheckFailed => (s, [no tag (Some (bs "UNAVAILABLE")) (bs "Temporary authentication failure")], true)
  end.

(** The answer to AUTHENTICATE PLAIN: a login to try, or why there is none. *)
Inductive Plain := InvalidPlain | SomeoneElse | TryLogin (username password : list byte).

(** [decoded]: the answer with its base64 undone. *)
Definition plain_login (decoded : option (list byte)) : Plain :=
  match map from_utf8_lossy <$> (split_on x00 <$> decoded) with
  | Some [authorize; username; password] =>
      if negb (bool_decide (authorize = [])) && negb (eq_ignore_ascii_case authorize username) then SomeoneElse
      else TryLogin username password
  | _ => InvalidPlain
  end.

(** ** Theorems *)

(** What may be given without a login. *)
Definition before_login (body : CommandBody) : bool :=
  match body with
  | CommandBody.Capability | CommandBody.Noop | CommandBody.Logout | CommandBody.Id | CommandBody.Login _ _ | CommandBody.Authenticate _ _
  | CommandBody.StartTls => true
  | _ => false
  end.

Lemma gate_passes authenticated has_selection body : gate authenticated has_selection body = None ->
  (authenticated = false -> before_login body = true) /\ (needs_selection body = true -> has_selection = true).
Proof.
  unfold gate. destruct body; destruct authenticated, has_selection; cbn; try done; naive_solver.
Qed.

Lemma rechecked_rights me ends shared sel sel' : owner sel <> me -> recheck_rights me ends shared sel = Holds sel' ->
  owner sel' = owner sel /\ rights sel' = default [] (readable shared) /\ (readable shared = None -> ends = false /\ read_only sel' = true).
Proof.
  intros Hne. unfold recheck_rights. rewrite (proj2 (Z.eqb_neq _ _) Hne). destruct (readable shared) as [r|]; [intros [= <-]; done|].
  destruct ends; [done|]. by intros [= <-].
Qed.

(** C26: When a command runs at all: without a login only those that do nothing but log in or
    ask and end; with one, only while the login holds; a command on messages only with a
    mailbox selected, so the code that unwraps the selection never panics; and in a
    mailbox someone else shares it has the rights of the share as they are now, none of
    those it had when it was selected, and may then only close it when nothing is left. *)
Theorem dispatch_start_ok login_holds shared s body s' body' :
  dispatch_start login_holds shared s body = Runs s' body' ->
  (account s = None -> before_login body = true) /\
  (account s <> None -> is_logout body = false -> account s' = login_holds /\ login_holds <> None) /\
  (needs_selection body = true -> exists sel, selected s' = Some sel /\
     forall me, account s' = Some me -> owner sel <> me ->
       exists now, shared = Got now /\ rights sel = default [] (readable now) /\ (readable now = None -> closes body = true /\ read_only sel = true)).
Proof.
  unfold dispatch_start. destruct (gate _ _ body) as [text|] eqn:Eg; [done|]. apply gate_passes in Eg as [Hlogin Hsel].
  rewrite bool_decide_eq_false, bool_decide_eq_true in *.
  set (checked := _ && negb (is_logout body)). destruct (checked && bool_decide (login_holds = None)) eqn:Ec; [done|].
  set (s1 := if checked then _ else s). intros H.
  assert (Hacc : account s' = account s1).
  { destruct (selected s1) as [sel|]; [|by injection H as <- _]. destruct (needs_selection body); [|by injection H as <- _].
    destruct (owner sel =? _); [by injection H as <- _|]. destruct shared; [|done]. by destruct (recheck_rights _ _ _ _); [injection H as <- _|]. }
  assert (Hsame : selected s1 = selected s) by (unfold s1; by destruct checked).
  split_and!.
  - intros Hn. apply Hlogin. rewrite Hn. by intros [].
  - intros Ha Hl. assert (Hc : checked = true).
    { unfold checked. rewrite Hl, andb_true_r. apply bool_decide_eq_true. by apply not_eq_None_Some. }
    rewrite Hacc. unfold s1. rewrite Hc in *. cbn in Ec |- *. by apply bool_decide_eq_false in Ec.
  - intros Hneeds. rewrite Hneeds in H. destruct (Hsel Hneeds) as [sel Es]. rewrite Hsame, Es in H.
    destruct (Z.eqb_spec (owner sel) (default 0 (account s1))) as [Ho|Ho].
    + injection H as <- _. exists sel. split; [by rewrite Hsame|]. intros me Hme Hne. rewrite Hme in Ho. cbn in Ho. done.
    + destruct shared as [now|]; [|done]. destruct (recheck_rights _ _ now sel) as [sel'|] eqn:Er; [|done]. injection H as <- _. exists sel'. split; [done|].
      intros me Hme Hne. exists now. destruct (rechecked_rights _ _ _ _ _ Ho Er) as (_ & Hr & Hgone). split_and!; [done | done|].
      intros Hg. destruct (Hgone Hg) as [He Hro]. split; [by apply negb_false_iff|done].
Qed.

(** A connection, how many logins were refused on it, and whether it goes on: whatever
    else happens in between, UNAUTHENTICATE among it, keeps the count. *)
Inductive connection : Session -> Z -> bool -> Prop :=
  | connected : connection new_session 0 true
  | something_else s n s' : connection s n true -> auth_failures s' = auth_failures s -> connection s' n true
  | a_login s n max_append tag checked challenge s' sent on :
      connection s n true -> finish_login max_append tag checked challenge s = (s', sent, on) ->
      connection s' (match checked with LoginDenied _ => n + 1 | _ => n end) on.

Lemma unauthenticate_keeps s n : connection s n true -> connection (unauthenticate s) n true.
Proof. intros H. by eapply something_else. Qed.

(** A connection gets at most three refused logins, however many succeed in between and
    however often it logs out without closing: at the third it ends. *)
Theorem logins_end s n on : connection s n on -> 0 <= n <= MAX_AUTH_FAILURES /\ (on = true -> n < MAX_AUTH_FAILURES).
Proof.
  intros H. cut (auth_failures s = n /\ 0 <= n <= MAX_AUTH_FAILURES /\ (on = true -> n < MAX_AUTH_FAILURES)); [naive_solver|].
  unfold MAX_AUTH_FAILURES. induction H as [|s n s' _ (IH1 & IH2 & IH3) Hs|s n max_append tag checked challenge s' sent on _ (IH1 & IH2 & IH3) Hl].
  - cbn. lia.
  - split; [congruence | done].
  - specialize (IH3 eq_refl). unfold finish_login, MAX_AUTH_FAILURES in Hl. destruct checked as [acc|reason|].
    + injection Hl as <- <- <-. cbn. lia.
    + cbv zeta in Hl. destruct (match challenge with Some (_, false) => true | _ => false end).
      * injection Hl as <- <- <-. cbn. split; [congruence|]. split; [lia | done].
      * destruct (Z.leb_spec 3 (auth_failures s + 1)); injection Hl as <- <- <-; cbn; (split; [congruence|]); split; [lia | done | lia | lia].
    + injection Hl as <- <- <-. lia.
Qed.

(** A refused login does not tell whether there is such a login: for a wrong password, a
    login nobody has, a password for something else and a protocol that is switched off,
    all that is sent, and what becomes of the connection, is the same. *)
Theorem refusals_alike max_append tag challenge s r1 r2 :
  ~ r1 ∈ [Denied.AppPasswordRequired; Denied.Expired] -> ~ r2 ∈ [Denied.AppPasswordRequired; Denied.Expired] ->
  finish_login max_append tag (LoginDenied r1) challenge s = finish_login max_append tag (LoginDenied r2) challenge s.
Proof.
  intros H1 H2. assert (denied_text r1 = denied_text r2) as Ht; [|unfold finish_login; by rewrite Ht].
  destruct r1, r2; try reflexivity; exfalso;
    first [apply H1; by left | apply H1; right; by left | apply H2; by left | apply H2; right; by left].
Qed.

(** ** Witnesses *)

Definition lenis_selection : Selected :=
  {| mailbox_id := 9; owner := 2; rights := ALL_RIGHTS; read_only := false; messages := []; highest_modseq := 0; sharing_modseq := 0 |}.

Definition in_lenis_box : Session :=
  {| account := Some 1; auth_failures := 0; enabled := nothing_enabled; selected := Some lenis_selection; saved := [] |}.

(** EXPUNGE in a mailbox whose share was narrowed to reading after it was selected. *)
Lemma dispatch_start_ok_witness : exists s body sel,
  dispatch_start (Some 1) (Got (Some (bs "lr"))) in_lenis_box (CommandBody.Expunge None) = Runs s body /\
  selected s = Some sel /\ rights sel = bs "lr" /\ read_only sel = true.
Proof.
  destruct (dispatch_start (Some 1) (Got (Some (bs "lr"))) in_lenis_box (CommandBody.Expunge None)) as [| | | |s body] eqn:E;
    try (vm_compute in E; discriminate).
  exists s, body.
  destruct (dispatch_start_ok (Some 1) (Got (Some (bs "lr"))) in_lenis_box (CommandBody.Expunge None) s body E) as (_ & Ha & Hs).
  destruct (Hs eq_refl) as (sel & Hsel & Hr). exists sel. split; [done|]. split; [done|].
  vm_compute in E. injection E as <- _. cbn in Hsel. injection Hsel as <-.
  destruct (Hr 1 eq_refl ltac:(discriminate)) as (now & [= <-] & Hrights & _). split; [exact Hrights | reflexivity].
Defined.

Definition refused (n : Z) : Session :=
  {| account := None; auth_failures := n; enabled := nothing_enabled; selected := None; saved := [] |}.

Lemma three_refusals : connection (refused 3) 3 false.
Proof.
  refine (a_login (refused 2) 2 0 [] (LoginDenied Denied.Invalid) None _ _ _ _ eq_refl).
  refine (a_login (refused 1) 1 0 [] (LoginDenied Denied.Invalid) None _ _ _ _ eq_refl).
  exact (a_login (refused 0) 0 0 [] (LoginDenied Denied.Invalid) None _ _ _ connected eq_refl).
Defined.

Lemma logins_end_witness : 3 <= MAX_AUTH_FAILURES.
Proof. exact (proj2 (proj1 (logins_end (refused 3) 3 false three_refusals))). Defined.

Lemma refusals_alike_witness :
  finish_login 1000 (bs "a") (LoginDenied Denied.UnknownLogin) None (refused 0) = finish_login 1000 (bs "a") (LoginDenied Denied.Invalid) None (refused 0).
Proof.
  apply (refusals_alike 1000 (bs "a") None (refused 0)); apply (bool_decide_unpack _); vm_compute; exact I.
Defined.

Example only_the_own_login :
  plain_login (Some ([x00] ++ bs "mini" ++ [x00] ++ bs "secret")) = TryLogin (bs "mini") (bs "secret")
  /\ plain_login (Some (bs "leni" ++ [x00] ++ bs "mini" ++ [x00] ++ bs "secret")) = SomeoneElse
  /\ plain_login (Some (bs "MINI" ++ [x00] ++ bs "mini" ++ [x00] ++ bs "secret")) = TryLogin (bs "mini") (bs "secret")
  /\ plain_login (Some (bs "mini" ++ [x00] ++ bs "secret")) = InvalidPlain.
Proof. vm_compute. done. Qed.
