(* ===== verification/Srs.v ===== *)
(** * Sender rewriting (crates\/uwumail-smtp\/src\/srs.rs)

    [rewrite] makes the sender of forwarded mail an address of the server's own, with the
    day and a keyed hash; [reverse] gives the sender back for a bounce. The hash (the
    first bytes of an HMAC from aws-lc-rs, in hexadecimal) is a variable, of which only
    is known that it is made of hexadecimal digits; the day is an argument. *)

From S2P Require Import Prelude.

Definition MAX_AGE_DAYS : Z := 21.
Definition BASE32 : list byte := bs "abcdefghijklmnopqrstuvwxyz234567".

Definition base32 (i : Z) : byte := default x00 (BASE32 !! Z.to_nat i).

(** The day, two characters. *)
Definition day_tag (day : Z) : list byte :=
  let day := day mod 1024 in [base32 (Z.shiftr day 5); base32 (Z.land day 31)].

Definition value (b : byte) : option Z := Z.of_nat <$> Prelude.position (fun c => bool_decide (c = lower_byte b)) BASE32.

(** The most recent day with a tag. *)
Definition day_from_tag (tag : list byte) (today : Z) : option Z :=
  match tag with
  | [a; b] =>
      high ← value a; low ← value b;
      Some (today - (today - (high * 32 + low)) mod 1024)
  | _ => None
  end.

(** [address[..5]] equals [srs0=] in any case. *)
Definition looks_like_srs (address : list byte) : bool :=
  (5 <=? length address)%nat && eq_ignore_ascii_case (take 5 address) (bs "srs0=").

(** [splitn(4, '=')], when there are four parts. *)
Definition split_four (s : list byte) : option (list byte * list byte * list byte * list byte) :=
  '(a, s) ← split_once "="%byte s; '(b, s) ← split_once "="%byte s; '(c, d) ← split_once "="%byte s; Some (a, b, c, d).

Section srs.
(** [hex::encode(&hmac::sign(key, data)[..4])] *)
Context (digest : list byte -> list byte -> list byte).

Definition hash (secret tag domain local : list byte) : list byte :=
  digest secret (to_ascii_lowercase (tag ++ bs "=" ++ domain ++ bs "=" ++ local)).

(** A sender without an [@] stays as it is. *)
Definition rewrite_ (secret sender our_domain : list byte) (today : Z) : list byte :=
  match rsplit_once "@"%byte sender with
  | None => sender
  | Some (local, domain) =>
      let tag := day_tag today in
      bs "SRS0=" ++ hash secret tag domain local ++ bs "=" ++ tag ++ bs "=" ++ domain ++ bs "=" ++ local ++ bs "@" ++ our_domain
  end.

Definition reverse_ (secret address : list byte) (today : Z) : option (list byte) :=
  '(local, _) ← rsplit_once "@"%byte address;
  if negb (looks_like_srs local) then None
  else
    '(hash_part, tag, domain, original_local) ← split_four (drop 5 local);
    if bool_decide (original_local = []) || bool_decide (domain = []) then None
    else
      let valid := bool_decide (hash secret tag domain original_local = to_ascii_lowercase hash_part) in
      day ← day_from_tag tag today;
      if valid && (today - day <=? MAX_AGE_DAYS) then Some (original_local ++ bs "@" ++ domain) else None.
End srs.

(** ** Days *)

Lemma base32_value i : 0 <= i < 32 -> value (base32 i) = Some i /\ lower_byte (base32 i) = base32 i /\ base32 i <> "="%byte /\ base32 i <> "@"%byte.
Proof.
  intros Hi. assert (H : i ∈ (Z.of_nat <$> seq 0 32)) by (apply list_elem_of_fmap; exists (Z.to_nat i); split; [lia | apply elem_of_seq; lia]).
  clear Hi. revert i H. apply Forall_forall. repeat constructor; vm_compute; done.
Qed.

Lemma day_tag_parts day : exists high low, 0 <= high < 32 /\ 0 <= low < 32 /\ day mod 1024 = high * 32 + low /\ day_tag day = [base32 high; base32 low].
Proof.
  exists (day mod 1024 / 32), (day mod 1024 mod 32). pose proof (Z.mod_pos_bound day 1024 ltac:(lia)) as H.
  split_and!; try (apply Z.mod_pos_bound; lia).
  - apply Z.div_pos; lia.
  - apply Z.div_lt_upper_bound; lia.
  - rewrite (Z.div_mod (day mod 1024) 32) at 1 by lia. lia.
  - unfold day_tag. rewrite Z.shiftr_div_pow2 by lia. change 31 with (Z.ones 5). by rewrite Z.land_ones by lia.
Qed.

Lemma day_from_day_tag day today : 0 <= today - day < 1024 -> day_from_tag (day_tag day) today = Some day.
Proof.
  intros H. destruct (day_tag_parts day) as (high & low & Hh & Hl & Hd & ->). cbn [day_from_tag].
  destruct (base32_value high Hh) as [-> _], (base32_value low Hl) as [-> _]. cbn. f_equal. rewrite <-Hd.
  rewrite Zminus_mod_idemp_r, Z.mod_small by lia. lia.
Qed.

Lemma day_from_tag_recent tag today day : day_from_tag tag today = Some day -> 0 <= today - day < 1024.
Proof.
  unfold day_from_tag. destruct tag as [|a [|b [|]]]; try done. destruct (value a) as [h|]; [|done]. destruct (value b) as [l|]; [|done]. cbn.
  intros [= <-]. pose proof (Z.mod_pos_bound (today - (h * 32 + l)) 1024 ltac:(lia)). lia.
Qed.

(** ** Round trip *)

Definition is_hex (b : byte) : bool := existsb (fun c => bool_decide (b = c)) (bs "0123456789abcdef").

Lemma hex_byte b : is_hex b = true -> lower_byte b = b /\ b <> "="%byte /\ b <> "@"%byte.
Proof. unfold is_hex. rewrite existsb_exists. intros (c & Hc & ->%bool_decide_eq_true). repeat (destruct Hc as [<-|Hc]; [by vm_compute|]). done. Qed.

Lemma lower_byte_eq b c : c ∈ ["="%byte; "@"%byte] -> lower_byte b = c -> b = c.
Proof. intros Hc. apply list_elem_of_In in Hc. destruct Hc as [<-|[<-|[]]]; destruct b; vm_compute; congruence. Qed.

Lemma lower_not_in c s : c ∈ ["="%byte; "@"%byte] -> c ∉ s -> c ∉ to_ascii_lowercase s.
Proof. intros Hc Hs (b & Hb & Hin)%list_elem_of_fmap. symmetry in Hb. by apply lower_byte_eq in Hb as ->. Qed.

Section theorems.
Context (digest : list byte -> list byte -> list byte).
Hypothesis digest_hex : forall secret data, Forall (fun b => is_hex b = true) (digest secret data).

Abbreviation rewrite := (rewrite_ digest).
Abbreviation reverse := (reverse_ digest).

Lemma digest_plain secret data : to_ascii_lowercase (digest secret data) = digest secret data /\ "="%byte ∉ digest secret data.
Proof.
  induction (digest_hex secret data) as [|b s Hb _ [IH1 IH2]]; [split; [done | apply not_elem_of_nil]|].
  destruct (hex_byte b Hb) as (H1 & H2 & _). cbn [to_ascii_lowercase map]. split; [by rewrite H1; f_equal|]. by apply not_elem_of_cons.
Qed.

Lemma split_four_app a b c d : "="%byte ∉ a -> "="%byte ∉ b -> "="%byte ∉ c ->
  split_four (a ++ bs "=" ++ b ++ bs "=" ++ c ++ bs "=" ++ d) = Some (a, b, c, d).
Proof.
  intros Ha Hb Hc. unfold split_four. change (bs "=") with ["="%byte]. cbn [app].
  rewrite split_once_app by done. cbn. rewrite split_once_app by done. cbn. by rewrite split_once_app.
Qed.

(** What [reverse] makes of the pieces of a rewritten address. *)
Lemma reverse_pieces secret prefix h tag domain local our today :
  length prefix = 5%nat -> eq_ignore_ascii_case prefix (bs "srs0=") = true ->
  "="%byte ∉ h -> "="%byte ∉ tag -> "="%byte ∉ domain -> "@"%byte ∉ our -> local <> [] -> domain <> [] ->
  reverse secret (prefix ++ h ++ bs "=" ++ tag ++ bs "=" ++ domain ++ bs "=" ++ local ++ bs "@" ++ our) today
  = day ← day_from_tag tag today;
    if bool_decide (hash digest secret tag domain local = to_ascii_lowercase h) && (today - day <=? MAX_AGE_DAYS)
    then Some (local ++ bs "@" ++ domain) else None.
Proof.
  intros Hlen Hprefix Hh Ht Hd Hour Hlocal Hdomain. unfold reverse_.
  set (inner := prefix ++ h ++ bs "=" ++ tag ++ bs "=" ++ domain ++ bs "=" ++ local).
  assert (prefix ++ h ++ bs "=" ++ tag ++ bs "=" ++ domain ++ bs "=" ++ local ++ bs "@" ++ our = inner ++ "@"%byte :: our) as ->
    by (unfold inner; change (bs "@") with ["@"%byte]; by rewrite <-!app_assoc).
  rewrite rsplit_once_app by done. cbn [mbind option_bind].
  assert (looks_like_srs inner = true) as ->.
  { unfold looks_like_srs, inner. rewrite length_app, Hlen. rewrite take_app_length' by done. by rewrite Hprefix. }
  cbn [negb]. assert (drop 5 inner = h ++ bs "=" ++ tag ++ bs "=" ++ domain ++ bs "=" ++ local) as ->
    by (unfold inner; by rewrite drop_app_length').
  rewrite split_four_app by done. cbn [mbind option_bind]. by rewrite !bool_decide_eq_false_2 by done.
Qed.

(** C31: A bounce to a rewritten address reaches the sender it was made from, and only for
    [MAX_AGE_DAYS]: for local parts of any bytes and domains without a [=], on any day less
    than 1024 later (when the tag of the day begins anew, [tag_wraps]), [reverse] gives the
    sender back when it is recent and nothing when it is not; and a server on the way that
    writes the address in lower case makes no difference but that. Of a domain with a [=] what is
    behind it comes back in the local part ([equals_moves]). *)
Theorem srs_round_trip secret local domain our today later :
  local <> [] -> domain <> [] -> "@"%byte ∉ domain -> "="%byte ∉ domain -> "@"%byte ∉ our -> 0 <= later - today < 1024 ->
  let sender := local ++ bs "@" ++ domain in
  let recent := later - today <=? MAX_AGE_DAYS in
  reverse secret (rewrite secret sender our today) later = (if recent then Some sender else None) /\
  reverse secret (to_ascii_lowercase (rewrite secret sender our today)) later = (if recent then Some (to_ascii_lowercase sender) else None).
Proof.
  intros Hlocal Hdomain Hat Heq Hour Hday. cbv zeta. unfold rewrite_. change (bs "@") with ["@"%byte]. cbn [app]. rewrite rsplit_once_app by done.
  set (tag := day_tag today). set (h := hash digest secret tag domain local).
  assert (to_ascii_lowercase h = h /\ "="%byte ∉ h) as [Hlower Hplain] by apply digest_plain.
  assert (Htag : to_ascii_lowercase tag = tag /\ "="%byte ∉ tag).
  { unfold tag. destruct (day_tag_parts today) as (i & j & Hi & Hj & _ & ->).
    destruct (base32_value i Hi) as (_ & H1 & H2 & _), (base32_value j Hj) as (_ & H3 & H4 & _). cbn [to_ascii_lowercase map].
    split; [congruence|]. rewrite !not_elem_of_cons. split_and!; [done | done | apply not_elem_of_nil]. }
  destruct Htag as [Htag1 Htag2]. pose proof (day_from_day_tag today later Hday) as Hfrom. fold tag in Hfrom. split.
  - change ("@"%byte :: our) with (bs "@" ++ our). rewrite reverse_pieces by (reflexivity || done). rewrite Hfrom. cbn [mbind option_bind].
    rewrite bool_decide_eq_true_2 by by rewrite Hlower. done.
  - change ("@"%byte :: our) with (bs "@" ++ our). rewrite !lower_app, Htag1, Hlower.
    change (to_ascii_lowercase (bs "=")) with (bs "="). change (to_ascii_lowercase (bs "@")) with (bs "@").
    rewrite reverse_pieces; try done.
    + rewrite Hfrom. cbn [mbind option_bind]. rewrite bool_decide_eq_true_2; [|].
      * cbn [andb]. destruct (_ <=? _); [|done]. reflexivity.
      * rewrite Hlower. unfold h, hash. by rewrite !lower_app, !to_ascii_lowercase_idem.
    + apply lower_not_in; [|done]. by left.
    + apply lower_not_in; [|done]. right. by left.
    + intros H. by apply map_eq_nil in H.
    + intros H. by apply map_eq_nil in H.
Qed.

Lemma split_four_Some s a b c d : split_four s = Some (a, b, c, d) -> s = a ++ bs "=" ++ b ++ bs "=" ++ c ++ bs "=" ++ d.
Proof.
  unfold split_four. destruct (split_once "="%byte s) as [[a' s1]|] eqn:E1; [|done]. cbn.
  destruct (split_once "="%byte s1) as [[b' s2]|] eqn:E2; [|done]. cbn. destruct (split_once "="%byte s2) as [[c' d']|] eqn:E3; [|done]. cbn.
  intros [= <- <- <- <-]. apply split_once_Some in E1 as [-> _], E2 as [-> _], E3 as [-> _]. done.
Qed.

(** A bounce is only passed on to the sender the keyed hash in its address is of, for a
    day in the last [MAX_AGE_DAYS]: whoever does not know the secret reaches nobody
    without guessing a hash. *)
Theorem reverse_only_signed secret address sender today :
  reverse secret address today = Some sender ->
  exists prefix h tag domain local our day,
    address = prefix ++ h ++ bs "=" ++ tag ++ bs "=" ++ domain ++ bs "=" ++ local ++ bs "@" ++ our /\
    length prefix = 5%nat /\ sender = local ++ bs "@" ++ domain /\
    to_ascii_lowercase h = digest secret (to_ascii_lowercase (tag ++ bs "=" ++ domain ++ bs "=" ++ local)) /\
    day_from_tag tag today = Some day /\ 0 <= today - day <= MAX_AGE_DAYS.
Proof.
  unfold reverse_. destruct (rsplit_once _ address) as [[inner our]|] eqn:Ea; [|done]. cbn [mbind option_bind].
  destruct (looks_like_srs inner) eqn:Es; [|done]. cbn [negb]. destruct (split_four (drop 5 inner)) as [[[[h tag] domain] local]|] eqn:E4; [|done].
  cbn [mbind option_bind]. destruct (_ || _); [done|]. destruct (day_from_tag tag today) as [day|] eqn:Ed; [|done]. cbn [mbind option_bind].
  destruct (bool_decide _) eqn:Ev; [|done]. cbn [andb]. destruct (Z.leb_spec (today - day) MAX_AGE_DAYS) as [Hday|]; [|done]. intros [= <-].
  apply bool_decide_eq_true in Ev. apply rsplit_once_Some in Ea as ->. apply split_four_Some in E4.
  apply andb_prop in Es as [Hlen%Nat.leb_le _].
  exists (take 5 inner), h, tag, domain, local, our, day. split_and!; try done.
  - rewrite <-(take_drop 5 inner) at 1. rewrite E4, <-!app_assoc. done.
  - rewrite length_take. lia.
  - apply day_from_tag_recent in Ed. lia.
Qed.
End theorems.

(** ** Witnesses *)

(** A hash that is always the same digits. *)
Definition same_digits (secret data : list byte) : list byte := bs "0badcafe".

Lemma same_digits_hex secret data : Forall (fun b => is_hex b = true) (same_digits secret data).
Proof. repeat constructor. Defined.

Definition forwarded : list byte := rewrite_ same_digits (bs "key") (bs "Oma.Heinz@example.net") (bs "example.org") 20710.

Lemma srs_round_trip_witness :
  forwarded = bs "SRS0=0badcafe=hg=example.net=Oma.Heinz@example.org" /\
  reverse_ same_digits (bs "key") forwarded 20731 = Some (bs "Oma.Heinz@example.net").
Proof.
  split; [vm_compute; reflexivity|].
  refine (proj1 (srs_round_trip same_digits same_digits_hex (bs "key") (bs "Oma.Heinz") (bs "example.net") (bs "example.org") 20710 20731 _ _ _ _ _ _));
    first [discriminate | lia | apply (bool_decide_unpack _); vm_compute; exact I].
Defined.

(** After 1024 days a rewritten address is as good as new. *)
Example tag_wraps : reverse_ same_digits (bs "key") forwarded (20710 + 1023) = None
  /\ reverse_ same_digits (bs "key") forwarded (20710 + 1024) = Some (bs "Oma.Heinz@example.net").
Proof. vm_compute. by split. Qed.

(** What stands behind a [=] of the domain comes back as part of the local part: the hash is the
    same for both addresses. *)
Example equals_moves :
  reverse_ same_digits (bs "key") (rewrite_ same_digits (bs "key") (bs "x@a=b") (bs "example.org") 20710) 20710 = Some (bs "b=x@a") /\
  forall digest secret tag, hash digest secret tag (bs "a=b") (bs "x") = hash digest secret tag (bs "a") (bs "b=x").
Proof.
  split; [vm_compute; reflexivity|]. intros digest secret tag. reflexivity.
Qed.

Lemma reverse_only_signed_witness : exists h : list byte, to_ascii_lowercase h = bs "0badcafe".
Proof.
  destruct (reverse_only_signed same_digits (bs "key") forwarded (bs "Oma.Heinz@example.net") 20731 ltac:(vm_compute; reflexivity))
    as (prefix & h & tag & domain & local & our & day & _ & _ & _ & Hh & _). by exists h.
Defined.
