(* ===== verification/Rtf.v ===== *)
(** * Compressed RTF (crates\/uwumail-tnef\/src\/rtf.rs)

    [decompress] of the format MS-OXRTFCP: literal bytes and references into a circular
    dictionary of 4096 bytes that starts with [PREBUF]. What the format means is
    [expand], where a reference copies from all that came before; [pack] writes it. *)

From S2P Require Import Prelude.

Definition PREBUF : list byte :=
  bs "{\rtf1\ansi\mac\deff0\deftab720{\fonttbl;}{\f0\fnil \froman \fswiss \fmodern \fscript \fdecor MS Sans SerifSymbolArialTimes New RomanCourier{\colortbl\red0\green0\blue0"
  ++ [x0d; x0a] ++ bs "\par \pard\plain\f0\fs20\b\i\u\tab\tx".

Definition LZFU : Z := 0x75465A4C.
Definition MELA : Z := 0x414C454D.

Inductive RtfError := Malformed | TooLarge.

(** [u32::from_le_bytes] *)
Definition word (data : list byte) (i : nat) : Z :=
  let at_ k := bz (default x00 (data !! (i + k)%nat)) in at_ 0%nat + 2 ^ 8 * at_ 1%nat + 2 ^ 16 * at_ 2%nat + 2 ^ 24 * at_ 3%nat.

Record Unpack := { dict : list byte; write : Z; out : list byte }.

Definition unpack_start : Unpack :=
  {| dict := PREBUF ++ repeat x00 (4096 - length PREBUF); write := Z.of_nat (length PREBUF); out := [] |}.

Definition put (b : byte) (u : Unpack) : Unpack :=
  {| dict := <[Z.to_nat (write u) := b]> (dict u); write := (write u + 1) mod 4096; out := out u ++ [b] |}.

(** [for k in 0..len] *)
Fixpoint copy (offset : Z) (n : nat) (u : Unpack) : Unpack :=
  match n with
  | O => u
  | S n => copy (offset + 1) n (put (default x00 (dict u !! Z.to_nat (offset mod 4096))) u)
  end.

Inductive Step := Ended (u : Unpack) | More (input : list byte) (u : Unpack) | Over.

(** What is left of the eight bits of a control byte. *)
Fixpoint unpack_bits (max : Z) (bits : nat) (bit control : Z) (input : list byte) (u : Unpack) : Step :=
  match bits with
  | O => More input u
  | S bits =>
      let next input u := if max <? Z.of_nat (length (out u)) then Over else unpack_bits max bits (bit + 1) control input u in
      if Z.testbit control bit then
        match input with
        | hi :: lo :: input =>
            let reference := Z.lor (Z.shiftl (bz hi) 8) (bz lo) in
            let offset := Z.shiftr reference 4 in
            let len := Z.land reference 15 + 2 in
            if offset =? write u then Ended u else next input (copy offset (Z.to_nat len) u)
        | _ => Ended u
        end
      else
        match input with
        | byte :: input => next input (put byte u)
        | [] => Ended u
        end
  end.

(** The loop over the control bytes: each turn takes one, so [fuel] is the length of the
    input. *)
Fixpoint unpack (fuel : nat) (max : Z) (input : list byte) (u : Unpack) : list byte + RtfError :=
  match fuel, input with
  | S fuel, control :: input =>
      match unpack_bits max 8 0 (bz control) input u with
      | Ended u => inl (out u)
      | More input u => unpack fuel max input u
      | Over => inr TooLarge
      end
  | _, _ => inl (out u)
  end.

(** The bytes after the header, as many as it says. *)
Definition body_of (data : list byte) : list byte :=
  let en := Z.max 16 (Z.min (word data 0 + 4) (Z.of_nat (length data))) in
  slice data 16 (Z.to_nat en).

Definition decompress (data : list byte) (max : Z) : list byte + RtfError :=
  if (length data <? 16)%nat then inr Malformed
  else
    let raw_size := word data 4 in
    let magic := word data 8 in
    let body := body_of data in
    if magic =? MELA then
      let n := Z.min raw_size (Z.of_nat (length body)) in
      if max <? n then inr TooLarge else inl (take (Z.to_nat n) body)
    else if negb (magic =? LZFU) then inr Malformed
    else unpack (length body) max body unpack_start.

(** ** What the format means *)

(** A byte, or [n] bytes from [d] back: up to 4095, bytes written meanwhile included. *)
Inductive Token := Lit (b : byte) | Back (d : Z) (n : nat).

Definition token_ok (t : Token) : Prop := match t with Lit _ => True | Back d n => 1 <= d < 4096 /\ (2 <= n <= 17)%nat end.

(** All that came before: zeros, [PREBUF], what was written. *)
Definition before : list byte := repeat x00 (4096 - length PREBUF) ++ PREBUF.

Fixpoint repeat_back (d : Z) (n : nat) (h : list byte) : list byte :=
  match n with
  | O => h
  | S n => repeat_back d n (h ++ [default x00 (h !! Z.to_nat (Z.of_nat (length h) - d))])
  end.

Definition expand_token (h : list byte) (t : Token) : list byte :=
  match t with Lit b => h ++ [b] | Back d n => repeat_back d n h end.

Definition expand (tokens : list Token) : list byte := drop (length before) (foldl expand_token before tokens).

(** ** How it is written *)

Definition token_length (t : Token) : Z := match t with Lit _ => 1 | Back _ n => Z.of_nat n end.

(** The bytes of a token when the dictionary is written next at [w]. *)
Definition token_bytes (w : Z) (t : Token) : list byte :=
  match t with
  | Lit b => [b]
  | Back d n => let reference := (w - d) mod 4096 * 16 + (Z.of_nat n - 2) in [zb (reference / 256); zb (reference mod 256)]
  end.

Definition is_back (t : Token) : bool := match t with Back _ _ => true | Lit _ => false end.

(** The bits of a control byte, the first token's the lowest; [en] above the last. *)
Fixpoint control_of (tokens : list Token) (en : Z) : Z :=
  match tokens with
  | [] => en
  | t :: tokens => 2 * control_of tokens en + Z.b2z (is_back t)
  end.

Fixpoint tokens_bytes (w : Z) (tokens : list Token) : list byte :=
  match tokens with
  | [] => []
  | t :: tokens => token_bytes w t ++ tokens_bytes ((w + token_length t) mod 4096) tokens
  end.

Definition write_after (w : Z) (tokens : list Token) : Z := foldl (fun w t => (w + token_length t) mod 4096) w tokens.

(** Eight tokens at a time, then fewer and the reference that ends it. *)
Fixpoint pack (w : Z) (chunks : list (list Token)) (last : list Token) : list byte :=
  match chunks with
  | chunk :: chunks => zb (control_of chunk 0) :: tokens_bytes w chunk ++ pack (write_after w chunk) chunks last
  | [] =>
      let en := write_after w last * 16 in
      zb (control_of last 1) :: tokens_bytes w last ++ [zb (en / 256); zb (en mod 256)]
  end.

Definition little_endian (n : Z) : list byte :=
  [zb (n mod 256); zb (n / 2 ^ 8 mod 256); zb (n / 2 ^ 16 mod 256); zb (n / 2 ^ 24 mod 256)].

Definition compressed (chunks : list (list Token)) (last : list Token) : list byte :=
  let body := pack (Z.of_nat (length PREBUF)) chunks last in
  little_endian (Z.of_nat (length body) + 12) ++ little_endian (Z.of_nat (length (expand (concat chunks ++ last))))
  ++ little_endian LZFU ++ little_endian 0 ++ body.

Example hello :
  decompress (compressed [map Lit (bs "Hallo Ha")] [Back 6 5; Lit "!"%byte]) 100 = inl (bs "Hallo Hallo H!").
Proof. vm_compute. reflexivity. Qed.

(** ** No more than allowed *)

Lemma length_copy offset n u : length (out (copy offset n u)) = (length (out u) + n)%nat.
Proof.
  revert offset u. induction n as [|n IH]; intros offset u; simpl; [lia|].
  rewrite IH. simpl. rewrite length_app. simpl. lia.
Qed.

Lemma unpack_bits_bounded max bits bit control input u :
  Z.of_nat (length (out u)) <= max ->
  match unpack_bits max bits bit control input u with
  | Ended u | More _ u => Z.of_nat (length (out u)) <= max
  | Over => True
  end.
Proof.
  revert bit input u. induction bits as [|bits IH]; intros bit input u Hu; simpl; [done|].
  assert (forall input u, match (if max <? Z.of_nat (length (out u)) then Over else unpack_bits max bits (bit + 1) control input u) with
    Ended u | More _ u => Z.of_nat (length (out u)) <= max | Over => True end) as Hnext.
  { intros input' u'. destruct (Z.ltb_spec max (Z.of_nat (length (out u')))); [done|by apply IH]. }
  destruct (Z.testbit control bit).
  - destruct input as [|hi [|lo input]]; [done..|]. destruct (_ =? _); [done|apply Hnext].
  - destruct input as [|b input]; [done|apply (Hnext input (put b u))].
Qed.

Lemma unpack_bounded fuel max input u o :
  Z.of_nat (length (out u)) <= max -> unpack fuel max input u = inl o -> Z.of_nat (length o) <= max.
Proof.
  revert input u. induction fuel as [|fuel IH]; intros input u Hu; [by intros [= <-]|].
  destruct input as [|control input]; [by intros [= <-]|]. cbn [unpack].
  pose proof (unpack_bits_bounded max 8 0 (bz control) input u Hu) as Hb.
  destruct (unpack_bits _ _ _ _ _ _) as [u'|input' u'|]; [by intros [= <-]|by apply IH|done].
Qed.

Lemma word_nonneg data i : 0 <= word data i.
Proof.
  unfold word. pose proof (bz_range (default x00 (data !! (i + 0)%nat))). pose proof (bz_range (default x00 (data !! (i + 1)%nat))).
  pose proof (bz_range (default x00 (data !! (i + 2)%nat))). pose proof (bz_range (default x00 (data !! (i + 3)%nat))). lia.
Qed.

(** Whatever the header says, what is unpacked is never longer than allowed. *)
Theorem decompress_bounded data max o : 0 <= max -> decompress data max = inl o -> Z.of_nat (length o) <= max.
Proof.
  intros Hmax. unfold decompress. destruct (length data <? 16)%nat; [done|].
  destruct (word data 8 =? MELA).
  - destruct (Z.ltb_spec max (Z.min (word data 4) (Z.of_nat (length (body_of data))))) as [|Hn]; [done|].
    intros [= <-]. rewrite length_take.
    pose proof (word_nonneg data 4).
    lia.
  - destruct (negb _); [done|]. by apply unpack_bounded.
Qed.

Definition aaaaaa : list byte := compressed [] [Lit "a"%byte; Back 1 5].

Lemma decompress_bounded_witness : decompress aaaaaa 6 = inl (bs "aaaaaa") /\ Z.of_nat (length (bs "aaaaaa")) <= 6.
Proof.
  assert (decompress aaaaaa 6 = inl (bs "aaaaaa")) as H by (vm_compute; reflexivity).
  split; [exact H|]. apply (decompress_bounded aaaaaa 6 (bs "aaaaaa")); [lia|exact H].
Defined.

(** ** The window *)

(** The dictionary holds the last 4096 bytes of [h]. *)
Record window (h : list byte) (u : Unpack) : Prop := {
  window_length : length (dict u) = 4096%nat;
  window_enough : 4096 <= Z.of_nat (length h);
  window_write : write u = (Z.of_nat (length h) + 207) mod 4096;
  window_holds d : 1 <= d <= 4096 -> dict u !! Z.to_nat ((write u - d) mod 4096) = h !! Z.to_nat (Z.of_nat (length h) - d);
  window_out : h = before ++ out u;
}.

Lemma window_start : window before unpack_start.
Proof.
  split; [done|by vm_compute|done| |done]. intros d Hd.
  assert (forallb (fun d => bool_decide (dict unpack_start !! Z.to_nat ((write unpack_start - d) mod 4096) = before !! Z.to_nat (Z.of_nat (length before) - d))) (seqZ 1 4096) = true) as Ha by (vm_compute; reflexivity).
  rewrite forallb_forall in Ha. specialize (Ha d). rewrite bool_decide_eq_true in Ha. apply Ha.
  apply list_elem_of_In, elem_of_seqZ. lia.
Qed.

Lemma window_put h u b : window h u -> window (h ++ [b]) (put b u).
Proof.
  intros [Hl He Hw Hd Ho]. pose proof (Z.mod_pos_bound (Z.of_nat (length h) + 207) 4096 ltac:(lia)).
  split; simpl.
  - by rewrite length_insert.
  - rewrite length_app. lia.
  - rewrite Hw, length_app. simpl. rewrite Zplus_mod_idemp_l. f_equal. lia.
  - intros d Hb. rewrite Zminus_mod_idemp_l, length_app. simpl.
    replace (Z.of_nat (length h + 1) - d) with (Z.of_nat (length h) - (d - 1)) by lia.
    replace (write u + 1 - d) with (write u - (d - 1)) by lia.
    destruct (decide (d = 1)) as [->|].
    + replace ((write u - (1 - 1)) mod 4096) with (write u) by (rewrite Z.mod_small; lia).
      rewrite list_lookup_insert_eq by lia. rewrite lookup_app_r by lia. by replace (Z.to_nat _ - length h)%nat with 0%nat by lia.
    + rewrite lookup_app_l by lia. rewrite <-Hd by lia. apply list_lookup_insert_ne.
      intros Heq. assert (write u = (write u - (d - 1)) mod 4096) as Hm by (pose proof (Z.mod_pos_bound (write u - (d - 1)) 4096); lia).
      pose proof (Z.div_mod (write u - (d - 1)) 4096). nia.
  - by rewrite Ho at 1; rewrite <-app_assoc.
Qed.

Lemma window_copy d n offset h u :
  1 <= d < 4096 -> offset mod 4096 = (write u - d) mod 4096 -> window h u -> window (repeat_back d n h) (copy offset n u).
Proof.
  intros Hd. revert offset h u. induction n as [|n IH]; intros offset h u Hoff Hu; simpl; [done|].
  pose proof (window_holds _ _ Hu d ltac:(lia)) as Hat. rewrite <-Hoff in Hat. rewrite Hat.
  apply IH; [|by apply window_put]. simpl. rewrite Zminus_mod_idemp_l, <-Zplus_mod_idemp_l, Hoff, Zplus_mod_idemp_l. f_equal. lia.
Qed.

Lemma length_repeat_back d n h : length (repeat_back d n h) = (length h + n)%nat.
Proof. revert h. induction n as [|n IH]; intros h; simpl; [lia|]. rewrite IH, length_app. simpl. lia. Qed.

Lemma length_expand h t : Z.of_nat (length (expand_token h t)) = Z.of_nat (length h) + token_length t.
Proof. destruct t; simpl; [rewrite length_app; simpl; lia|]. rewrite length_repeat_back. lia. Qed.

Lemma length_expand_all h tokens : (length h <= length (foldl expand_token h tokens))%nat.
Proof.
  revert h. induction tokens as [|t tokens IH]; intros h; simpl; [done|].
  etransitivity; [|apply IH]. pose proof (length_expand h t). destruct t; simpl in *; lia.
Qed.

(** ** Reading what was written *)

Lemma window_range h u : window h u -> 0 <= write u < 4096.
Proof. intros Hu. rewrite (window_write _ _ Hu). by apply Z.mod_pos_bound. Qed.

(** A reference in two bytes. *)
Lemma reference_bytes offset n :
  0 <= offset < 4096 -> 0 <= n < 16 ->
  let reference := Z.lor (Z.shiftl (bz (zb ((offset * 16 + n) / 256))) 8) (bz (zb ((offset * 16 + n) mod 256))) in
  Z.shiftr reference 4 = offset /\ Z.land reference 15 = n.
Proof.
  intros Ho Hn. rewrite !bz_zb_small by (first [by apply Z.mod_pos_bound | split; [apply Z.div_pos|apply Z.div_lt_upper_bound]; lia]).
  rewrite lor_shiftl_add by (try apply Z.mod_pos_bound; lia). simpl.
  replace ((offset * 16 + n) / 256 * 2 ^ 8 + (offset * 16 + n) mod 256) with (offset * 16 + n) by (pose proof (Z.div_mod (offset * 16 + n) 256); lia).
  split.
  - rewrite Z.shiftr_div_pow2 by lia. change (2 ^ 4) with 16. rewrite Z.div_add_l, Z.div_small by lia. lia.
  - change 15 with (Z.ones 4). rewrite Z.land_ones by lia. change (2 ^ 4) with 16. rewrite Z.add_comm, Z.mod_add, Z.mod_small; lia.
Qed.

(** After one token: the rest of the control byte, or too much. *)
Definition next (max : Z) (bits : nat) (bit control : Z) (input : list byte) (u : Unpack) : Step :=
  if max <? Z.of_nat (length (out u)) then Over else unpack_bits max bits bit control input u.

Lemma read_token max bits bit control t rest h u :
  token_ok t -> Z.testbit control bit = is_back t -> window h u ->
  exists u', window (expand_token h t) u' /\
    unpack_bits max (S bits) bit control (token_bytes (write u) t ++ rest) u = next max bits (bit + 1) control rest u'.
Proof.
  intros Ht Hbit Hu. pose proof (window_range _ _ Hu) as Hw. destruct t as [b|d n]; simpl in Ht, Hbit.
  - exists (put b u). split; [by apply window_put|]. simpl. by rewrite Hbit.
  - set (offset := (write u - d) mod 4096).
    assert (0 <= offset < 4096) as Hoff by (apply Z.mod_pos_bound; lia).
    destruct (reference_bytes offset (Z.of_nat n - 2) Hoff ltac:(lia)) as [Hs Hl].
    exists (copy offset n u). split.
    { apply window_copy; [lia| |done]. unfold offset. apply Zmod_mod. }
    cbn [unpack_bits]. rewrite Hbit. cbn [token_bytes app]. fold offset. rewrite Hs, Hl.
    replace (offset =? write u) with false.
    { unfold next. by replace (Z.to_nat (Z.of_nat n - 2 + 2)) with n by lia. }
    symmetry. apply Z.eqb_neq. unfold offset. intros Heq. pose proof (Z.div_mod (write u - d) 4096). nia.
Qed.

Lemma next_write h u t u' : window h u -> window (expand_token h t) u' -> write u' = (write u + token_length t) mod 4096.
Proof.
  intros Hu Hu'. rewrite (window_write _ _ Hu'), (window_write _ _ Hu), length_expand, Zplus_mod_idemp_l. f_equal. lia.
Qed.

Lemma control_first t tokens en : Z.testbit (control_of (t :: tokens) en) 0 = is_back t.
Proof. apply Z.testbit_0_r. Qed.

Lemma control_next t tokens en k : 0 <= k -> Z.testbit (control_of (t :: tokens) en) (k + 1) = Z.testbit (control_of tokens en) k.
Proof. intros. rewrite Z.add_1_r. by apply Z.testbit_succ_r. Qed.

Lemma window_out_length h u : window h u -> length h = (length before + length (out u))%nat.
Proof. intros Hu. rewrite (window_out _ _ Hu) at 1. apply length_app. Qed.

(** Some state of the window after any tokens. *)
Lemma copy_all tokens h u :
  Forall token_ok tokens -> window h u ->
  exists u', window (foldl expand_token h tokens) u' /\ write u' = write_after (write u) tokens.
Proof.
  intros Hok. revert h u. induction Hok as [|t tokens Ht Hok IH]; intros h u Hu; [by exists u|].
  assert (exists u1, window (expand_token h t) u1) as [u1 Hu1].
  { destruct t as [b|d n]; [exists (put b u); by apply window_put|].
    exists (copy (write u - d) n u). apply window_copy; [apply Ht|done|done]. }
  destruct (IH _ _ Hu1) as (u' & Hu' & Hw). exists u'. by rewrite Hw, (next_write _ _ _ _ Hu Hu1).
Qed.

(** The tokens of a control byte are read one after the other, as long as what is there is
    not too much. *)
Lemma read_tokens max control tokens en bit bits rest h u :
  0 <= bit -> Forall token_ok tokens -> window h u ->
  (forall k, 0 <= k -> Z.testbit control (bit + k) = Z.testbit (control_of tokens en) k) ->
  Z.of_nat (length (out u)) <= max ->
  exists u', window (foldl expand_token h tokens) u' /\ write u' = write_after (write u) tokens /\
    unpack_bits max (length tokens + bits) bit control (tokens_bytes (write u) tokens ++ rest) u =
      if max <? Z.of_nat (length (out u')) then Over else unpack_bits max bits (bit + Z.of_nat (length tokens)) control rest u'.
Proof.
  intros Hbit Hok. revert bit h u Hbit. induction Hok as [|t tokens Ht Hok IH]; intros bit h u Hbit Hu Hc Hmax.
  - exists u. split; [done|]. split; [done|]. simpl. rewrite Z.add_0_r. by destruct (Z.ltb_spec max (Z.of_nat (length (out u)))); [lia|].
  - destruct (read_token max (length tokens + bits) bit control t (tokens_bytes ((write u + token_length t) mod 4096) tokens ++ rest) h u) as (u1 & Hu1 & Hread); [done| |done|].
    { specialize (Hc 0 ltac:(lia)). rewrite Z.add_0_r in Hc. by rewrite Hc, control_first. }
    cbn [length Nat.add tokens_bytes]. rewrite <-app_assoc, Hread, <-(next_write _ _ _ _ Hu Hu1). unfold next.
    destruct (Z.ltb_spec max (Z.of_nat (length (out u1)))) as [Hover|Hfits].
    + destruct (copy_all tokens (expand_token h t) u1 Hok Hu1) as (u' & Hu' & Hw').
      exists u'. split; [done|]. split; [by rewrite Hw', (next_write _ _ _ _ Hu Hu1)|].
      pose proof (length_expand_all (expand_token h t) tokens) as Hle.
      pose proof (window_out_length _ _ Hu1). pose proof (window_out_length _ _ Hu').
      by destruct (Z.ltb_spec max (Z.of_nat (length (out u')))); [|lia].
    + destruct (IH (bit + 1) (expand_token h t) u1) as (u' & Hu' & Hw' & Hrest); [lia|done| |lia|].
      { intros k Hk. rewrite <-(control_next t) by done. rewrite <-Hc by lia. f_equal. lia. }
      exists u'. split; [done|]. split; [by rewrite Hw', (next_write _ _ _ _ Hu Hu1)|].
      rewrite Hrest. by replace (bit + 1 + Z.of_nat (length tokens)) with (bit + Z.of_nat (S (length tokens))) by lia.
Qed.

(** A control byte is one. *)
Lemma control_range tokens en : 0 <= en <= 1 -> 0 <= control_of tokens en < (1 + en) * 2 ^ Z.of_nat (length tokens).
Proof.
  intros He. induction tokens as [|t tokens IH]; cbn [control_of length]; [simpl; lia|].
  rewrite Nat2Z.inj_succ, Z.pow_succ_r by lia. destruct (is_back t); simpl; lia.
Qed.

(** Whether what is written after [h] is allowed. *)
Definition verdict (max : Z) (h : list byte) : list byte + RtfError :=
  if max <? Z.of_nat (length h) - Z.of_nat (length before) then inr TooLarge else inl (drop (length before) h).

Lemma verdict_window max h u :
  window h u -> verdict max h = if max <? Z.of_nat (length (out u)) then inr TooLarge else inl (out u).
Proof.
  intros Hu. unfold verdict. rewrite (window_out_length _ _ Hu). rewrite (window_out _ _ Hu) at 1.
  rewrite drop_app_length. by replace (Z.of_nat (length before + length (out u)) - Z.of_nat (length before)) with (Z.of_nat (length (out u))) by lia.
Qed.

Lemma verdict_over max h h' :
  (length h <= length h')%nat -> verdict max h = inr TooLarge -> verdict max h' = inr TooLarge.
Proof. unfold verdict. intros. repeat case_match; simplify_eq; try lia; done. Qed.

Lemma unpack_cons fuel max control input u :
  unpack (S fuel) max (control :: input) u =
    match unpack_bits max 8 0 (bz control) input u with
    | Ended u => inl (out u)
    | More input u => unpack fuel max input u
    | Over => inr TooLarge
    end.
Proof. reflexivity. Qed.

(** One control byte with all eight tokens. *)
Lemma unpack_chunk fuel max chunk rest h u :
  length chunk = 8%nat -> Forall token_ok chunk -> window h u -> Z.of_nat (length (out u)) <= max ->
  exists u', window (foldl expand_token h chunk) u' /\ write u' = write_after (write u) chunk /\
    unpack (S fuel) max (zb (control_of chunk 0) :: tokens_bytes (write u) chunk ++ rest) u =
      if max <? Z.of_nat (length (out u')) then inr TooLarge else unpack fuel max rest u'.
Proof.
  intros H8 Hok Hu Hmax. pose proof (control_range chunk 0 ltac:(lia)) as Hc. rewrite H8 in Hc.
  destruct (read_tokens max (control_of chunk 0) chunk 0 0 0 rest h u) as (u' & Hu' & Hw & Hread); [lia|done..|].
  exists u'. split; [done|]. split; [done|]. rewrite unpack_cons, bz_zb_small by (simpl in Hc; lia).
  rewrite H8 in Hread. change (8 + 0)%nat with 8%nat in Hread. rewrite Hread. by destruct (max <? _).
Qed.

(** The last control byte, with the reference that ends it. *)
Lemma unpack_last fuel max last h u :
  (length last <= 7)%nat -> Forall token_ok last -> window h u -> Z.of_nat (length (out u)) <= max ->
  unpack (S fuel) max (pack (write u) [] last) u = verdict max (foldl expand_token h last).
Proof.
  intros H7 Hok Hu Hmax. pose proof (control_range last 1 ltac:(lia)) as Hc.
  assert (2 ^ Z.of_nat (length last) <= 2 ^ 7) by (apply Z.pow_le_mono_r; lia).
  set (en := write_after (write u) last * 16).
  destruct (read_tokens max (control_of last 1) last 1 0 (8 - length last) [zb (en / 256); zb (en mod 256)] h u) as (u' & Hu' & Hw & Hread); [lia|done..|].
  cbn [pack]. fold en. rewrite unpack_cons, bz_zb_small by (simpl in *; lia).
  replace (length last + (8 - length last))%nat with 8%nat in Hread by lia. rewrite Hread, (verdict_window _ _ _ Hu').
  destruct (max <? _); [done|].
  assert (unpack_bits max (8 - length last) (0 + Z.of_nat (length last)) (control_of last 1) [zb (en / 256); zb (en mod 256)] u' = Ended u') as ->; [|done].
  replace (8 - length last)%nat with (S (7 - length last)) by lia. cbn [unpack_bits].
  replace (Z.testbit (control_of last 1) (0 + Z.of_nat (length last))) with true.
  - destruct (reference_bytes (write u') 0) as [Hs _]; [by apply (window_range _ _ Hu')|lia|].
    rewrite Z.add_0_r, Hw in Hs. fold en in Hs. rewrite Hs, <-Hw, Z.eqb_refl. done.
  - clear. rewrite Z.add_0_l. induction last as [|t last IH]; [done|].
    cbn [length]. rewrite Nat2Z.inj_succ, <-Z.add_1_r, control_next by lia. exact IH.
Qed.

Lemma unpack_pack fuel max chunks last h u :
  Forall (fun chunk => length chunk = 8%nat /\ Forall token_ok chunk) chunks ->
  (length last <= 7)%nat -> Forall token_ok last -> window h u -> Z.of_nat (length (out u)) <= max ->
  (length chunks < fuel)%nat ->
  unpack fuel max (pack (write u) chunks last) u = verdict max (foldl expand_token h (concat chunks ++ last)).
Proof.
  intros Hchunks H7 Hlast. revert fuel h u. induction Hchunks as [|chunk chunks [H8 Hok] _ IH]; intros fuel h u Hu Hmax Hfuel.
  - destruct fuel as [|fuel]; [simpl in Hfuel; lia|]. by apply unpack_last.
  - destruct fuel as [|fuel]; [simpl in Hfuel; lia|]. simpl in Hfuel. cbn [pack concat]. rewrite <-app_assoc, foldl_app.
    destruct (unpack_chunk fuel max chunk (pack (write_after (write u) chunk) chunks last) h u) as (u' & Hu' & Hw & ->); [done..|].
    pose proof (verdict_window max _ _ Hu') as Hv.
    destruct (Z.ltb_spec max (Z.of_nat (length (out u')))).
    + symmetry. eapply verdict_over; [apply length_expand_all|exact Hv].
    + rewrite <-Hw. apply IH; [done|lia|lia].
Qed.

(** ** The header *)

Lemma word_little_endian l n r i : i = length l -> 0 <= n < 2 ^ 32 -> word (l ++ little_endian n ++ r) i = n.
Proof.
  assert (forall k, (l ++ little_endian n ++ r) !! (length l + k)%nat = (little_endian n ++ r) !! k) as Hat.
  { intros k. rewrite lookup_app_r by lia. f_equal. lia. }
  intros -> Hn. unfold word. cbv zeta beta. rewrite !Hat. cbn. rewrite !bz_zb_small by (apply Z.mod_pos_bound; lia).
  change (2 ^ 8) with 256. change (2 ^ 16) with 65536. change (2 ^ 24) with 16777216. change (2 ^ 32) with 4294967296 in Hn.
  replace (n / 65536) with (n / 256 / 256) by (by rewrite Z.div_div).
  replace (n / 16777216) with (n / 256 / 256 / 256) by (by rewrite !Z.div_div).
  Z.div_mod_to_equations. lia.
Qed.

Lemma length_pack w chunks last : (length chunks < length (pack w chunks last))%nat.
Proof. revert w. induction chunks as [|chunk chunks IH]; intros w; simpl; [lia|]. rewrite length_app. specialize (IH (write_after w chunk)). lia. Qed.

(** Tokens as they are written: eight to a control byte, the last with room for the end. *)
Definition packable (chunks : list (list Token)) (last : list Token) : Prop :=
  Forall (fun chunk => length chunk = 8%nat /\ Forall token_ok chunk) chunks /\ (length last <= 7)%nat /\ Forall token_ok last
  /\ Z.of_nat (length (pack (Z.of_nat (length PREBUF)) chunks last)) + 12 < 2 ^ 32.

(** C30: what any tokens were compressed to is unpacked to what they mean, from a window
    that wraps around: every byte, or nothing but the error when it is longer than
    allowed. *)
Theorem decompress_round_trip chunks last max :
  0 <= max -> packable chunks last ->
  let text := expand (concat chunks ++ last) in
  decompress (compressed chunks last) max = if max <? Z.of_nat (length text) then inr TooLarge else inl text.
Proof.
  intros Hmax (Hchunks & H7 & Hlast & Hsize). cbn zeta. unfold compressed.
  set (body := pack _ chunks last) in *. set (text := expand _).
  set (a := little_endian (Z.of_nat (length body) + 12)). set (b := little_endian (Z.of_nat (length text))).
  set (data := a ++ b ++ little_endian LZFU ++ little_endian 0 ++ body).
  assert (word data 0 = Z.of_nat (length body) + 12) as H0 by (apply (word_little_endian []); [done|lia]).
  assert (word data 8 = LZFU) as Hlz.
  { unfold data. rewrite app_assoc. by apply word_little_endian. }
  assert (length data = 16 + length body)%nat as Hlen by (unfold data; rewrite !length_app; done).
  assert (body_of data = body) as Hbody.
  { unfold body_of. rewrite H0, Hlen.
    replace (Z.to_nat _) with (16 + length body)%nat by lia.
    unfold data. rewrite !app_assoc, <-(app_nil_r (_ ++ body)), <-(app_assoc _ body). exact (slice_app (((a ++ b) ++ little_endian LZFU) ++ little_endian 0) body []). }
  unfold decompress. rewrite Hlen, Hlz, Hbody.
  replace (16 + length body <? 16)%nat with false by (symmetry; apply Nat.ltb_ge; lia).
  change (LZFU =? MELA) with false. change (negb (LZFU =? LZFU)) with false. cbn iota.
  assert (unpack (length body) max body unpack_start = verdict max (foldl expand_token before (concat chunks ++ last))) as ->.
  { exact (unpack_pack (length body) max chunks last before unpack_start Hchunks H7 Hlast window_start Hmax (length_pack _ _ _)). }
  unfold verdict, text, expand. rewrite length_drop.
  pose proof (length_expand_all before (concat chunks ++ last)).
  by replace (Z.of_nat (length (foldl expand_token before (concat chunks ++ last)) - length before)) with
    (Z.of_nat (length (foldl expand_token before (concat chunks ++ last))) - Z.of_nat (length before)) by lia.
Qed.

Lemma decompress_round_trip_witness :
  packable [map Lit (bs "Hallo Ha")] [Back 6 5; Lit "!"%byte] /\
  decompress (compressed [map Lit (bs "Hallo Ha")] [Back 6 5; Lit "!"%byte]) 100 = inl (bs "Hallo Hallo H!").
Proof.
  assert (packable [map Lit (bs "Hallo Ha")] [Back 6 5; Lit "!"%byte]) as H.
  { split; [|split; [simpl; lia|split; [repeat constructor; simpl; lia|vm_compute; reflexivity]]]. repeat constructor. }
  split; [exact H|].
  rewrite (decompress_round_trip _ _ 100 ltac:(lia) H). vm_compute. reflexivity.
Defined.
