(* ===== verification/Retention.v ===== *)
(** * Which backups stay (crates\/uwumail-backup\/src\/retention.rs)

    [keep] picks the snapshots that stay: the newest of each of the last days, weeks and
    months that have one, and the newest of all. *)

From stdpp Require Import sorting.
From S2P Require Import Prelude Dates.

Record Retention := { daily : nat; weekly : nat; monthly : nat }.

Definition retention_default : Retention := {| daily := 7; weekly := 4; monthly := 6 |}.

Definition year_month (days : Z) : Z * Z := fst (civil_from_days days).

Definition Bucket := Z -> Z.

Definition day_of : Bucket := fun time => time / 86400.

(** Weeks start on Monday; 1970-01-01 was a Thursday. *)
Definition week_of : Bucket := fun time => (time / 86400 + 3) / 7.

Definition month_of : Bucket := fun time => let '(year, month) := year_month (time / 86400) in year * 12 + month.

Definition buckets (r : Retention) : list (nat * Bucket) := [(daily r, day_of); (weekly r, week_of); (monthly r, month_of)].

Definition at_ (times : list Z) (i : nat) : Z := default 0 (times !! i).

(** The stable sort of the indexes by [Reverse(times[index])]: of equal times the first
    index comes first. *)
Definition newer_le (times : list Z) (i j : nat) : Prop := at_ times j < at_ times i \/ (at_ times i = at_ times j /\ (i <= j)%nat).

#[export] Instance newer_le_dec times : RelDecision (newer_le times).
Proof. intros i j. unfold newer_le. apply _. Defined.

Definition order_of (times : list Z) : list nat := merge_sort (newer_le times) (seq 0 (length times)).

(** One turn over [order], until [count] buckets are [seen]. *)
Fixpoint keep_newest (count : nat) (bucket : nat -> Z) (order : list nat) (seen : gset Z) (kept : gset nat) : gset nat :=
  match order with
  | [] => kept
  | index :: order =>
      if decide (count <= size seen)%nat then kept
      else if decide (bucket index ∈ seen) then keep_newest count bucket order seen kept
      else keep_newest count bucket order ({[bucket index]} ∪ seen) ({[index]} ∪ kept)
  end.

Definition keep (times : list Z) (r : Retention) : gset nat :=
  let order := order_of times in
  let kept := match order with newest :: _ => {[newest]} | [] => ∅ end in
  foldl (fun kept '(count, bucket_of) => keep_newest count (fun i => bucket_of (at_ times i)) order ∅ kept) kept (buckets r).

Example none_keeps_newest : keep [5; 9; 7] {| daily := 0; weekly := 0; monthly := 0 |} = {[1%nat]}.
Proof. vm_compute. reflexivity. Qed.

Example months : map year_month [0; 20454] = [(1970, 1); (2026, 1)].
Proof. vm_compute. reflexivity. Qed.

(** ** The order *)

#[local] Instance newer_le_total times : Total (newer_le times).
Proof. intros i j. unfold newer_le. lia. Qed.

#[local] Instance newer_le_trans times : Transitive (newer_le times).
Proof. intros i j k. unfold newer_le. lia. Qed.

Lemma order_perm times : order_of times ≡ₚ seq 0 (length times).
Proof. apply merge_sort_Permutation. Qed.

Lemma order_sorted times : StronglySorted (newer_le times) (order_of times).
Proof. apply (StronglySorted_merge_sort _). Qed.

Lemma elem_of_order times i : i ∈ order_of times <-> (i < length times)%nat.
Proof. rewrite order_perm, elem_of_seq. lia. Qed.

(** [j] comes before [i]: made later, or at the same time and listed first. *)
Definition newer (times : list Z) (j i : nat) : Prop :=
  (j < length times)%nat /\ (at_ times i < at_ times j \/ (at_ times j = at_ times i /\ (j < i)%nat)).

Lemma before_newer times l i r j :
  order_of times = l ++ i :: r -> j ∈ l <-> newer times j i.
Proof.
  intros Heq. pose proof (order_sorted times) as Hs. pose proof (order_perm times) as Hp.
  assert (NoDup (order_of times)) as Hnd by (rewrite Hp; apply NoDup_seq).
  pose proof (elem_of_order times j) as Hin. rewrite Heq in Hs, Hnd, Hin. split.
  - intros Hj. assert (newer_le times j i) as Hle by (apply (StronglySorted_app_1_elem_of _ _ _ _ _ Hs); [done|left]).
    assert (j <> i) by (intros ->; apply NoDup_app in Hnd; destruct Hnd as (_ & Hd & _); apply (Hd i Hj); left).
    split; [apply Hin, elem_of_app; by left|]. unfold newer_le in Hle. lia.
  - intros [Hlt Hn]. apply Hin, elem_of_app in Hlt as [Hj|Hj]; [done|]. exfalso.
    apply elem_of_cons in Hj as [->|Hj]; [lia|].
    assert (newer_le times i j) as Hle.
    { apply StronglySorted_app in Hs as (_ & _ & Hs'). apply StronglySorted_inv in Hs' as [_ Hall].
      rewrite Forall_forall in Hall. by apply Hall. }
    unfold newer_le in Hle. lia.
Qed.

(** ** What stays *)

(** The buckets of the snapshots newer than [i]. *)
Definition later_buckets (times : list Z) (bucket_of : Bucket) (i : nat) : gset Z :=
  list_to_set (map (fun j => bucket_of (at_ times j)) (filter (fun j => newer times j i) (seq 0 (length times)))).

(** [i] is the newest of its bucket, and its bucket one of the last [count]. *)
Definition among_last (times : list Z) (count : nat) (bucket_of : Bucket) (i : nat) : Prop :=
  bucket_of (at_ times i) ∉ later_buckets times bucket_of i /\ (size (later_buckets times bucket_of i) < count)%nat.

#[export] Instance newer_dec times : RelDecision (newer times).
Proof. intros i j. unfold newer. apply _. Defined.

Lemma later_prefix times bucket_of l i r :
  order_of times = l ++ i :: r -> (list_to_set (map (fun j => bucket_of (at_ times j)) l) : gset Z) = later_buckets times bucket_of i.
Proof.
  intros Heq. apply set_eq. intros b. unfold later_buckets. rewrite !elem_of_list_to_set, !list_elem_of_fmap.
  pose proof (fun j => before_newer times l i r j Heq) as Hb. split; intros (j & Hj & Hin); exists j; (split; [done|]).
  - apply list_elem_of_filter. apply Hb in Hin. split; [done|]. apply elem_of_seq. destruct Hin. lia.
  - apply list_elem_of_filter in Hin as [Hin _]. by apply Hb.
Qed.

Lemma keep_newest_spec count bucket order seen kept i :
  i ∈ keep_newest count bucket order seen kept <->
    i ∈ kept \/ exists l r, order = l ++ i :: r /\ let all := seen ∪ list_to_set (map bucket l) in bucket i ∉ all /\ (size all < count)%nat.
Proof.
  revert seen kept. induction order as [|index order IH]; intros seen kept; cbn [keep_newest].
  { split; [by left|]. intros [?|(l & r & Hl & _)]; [done|]. by destruct l. }
  destruct (decide (count <= size seen)%nat) as [Hfull|Hroom].
  { split; [by left|]. intros [?|(l & r & _ & _ & Hsize)]; [done|].
    assert (size seen <= size (seen ∪ list_to_set (map bucket l) : gset Z))%nat by (apply subseteq_size; set_solver). lia. }
  destruct (decide (bucket index ∈ seen)) as [Hseen|Hnew]; rewrite IH; clear IH.
  - f_equiv. split.
    + intros (l & r & -> & Hall). exists (index :: l), r. split; [done|]. cbn zeta.
      replace (seen ∪ list_to_set (map bucket (index :: l))) with (seen ∪ list_to_set (map bucket l) : gset Z) by set_solver. done.
    + intros ([|x l] & r & [= -> ->] & Hall); [set_solver|]. exists l, r. split; [done|]. cbn zeta in *.
      by replace (seen ∪ list_to_set (map bucket l) : gset Z) with (seen ∪ list_to_set (map bucket (x :: l)) : gset Z) by set_solver.
  - split.
    + intros [Hk|(l & r & -> & Hall)].
      * apply elem_of_union in Hk as [->%elem_of_singleton|Hk]; [|by left].
        right. exists [], order. split; [done|]. cbn. rewrite union_empty_r_L. split; [done|lia].
      * right. exists (index :: l), r. split; [done|]. cbn zeta in *.
        by replace (seen ∪ list_to_set (map bucket (index :: l))) with ({[bucket index]} ∪ seen ∪ list_to_set (map bucket l) : gset Z) by set_solver.
    + intros [Hk|([|x l] & r & [= -> ->] & Hall)]; [set_solver| |].
      * left. set_solver.
      * right. exists l, r. split; [done|]. cbn zeta in *.
        by replace ({[bucket x]} ∪ seen ∪ list_to_set (map bucket l) : gset Z) with (seen ∪ list_to_set (map bucket (x :: l)) : gset Z) by set_solver.
Qed.

Lemma keep_newest_order times count bucket_of kept i :
  i ∈ keep_newest count (fun j => bucket_of (at_ times j)) (order_of times) ∅ kept <->
    i ∈ kept \/ (i < length times)%nat /\ among_last times count bucket_of i.
Proof.
  rewrite keep_newest_spec. f_equiv. cbn zeta. split.
  - intros (l & r & Heq & Hall). rewrite union_empty_l_L, (later_prefix _ _ _ _ _ Heq) in Hall. split; [|done].
    apply elem_of_order. rewrite Heq. set_solver.
  - intros [Hi Hall]. apply elem_of_order, list_elem_of_split in Hi as (l & r & Heq).
    exists l, r. by rewrite union_empty_l_L, (later_prefix _ _ _ _ _ Heq).
Qed.

Lemma keep_newest_first times i :
  i ∈ (match order_of times with newest :: _ => {[newest]} | [] => ∅ end : gset nat) <->
    (i < length times)%nat /\ forall j, ~ newer times j i.
Proof.
  split.
  - destruct (order_of times) as [|newest order] eqn:Heq; [set_solver|]. intros ->%elem_of_singleton. split.
    + apply elem_of_order. rewrite Heq. left.
    + intros j Hj. apply (before_newer times [] newest order j Heq) in Hj. set_solver.
  - intros [Hi Hnone]. apply elem_of_order, list_elem_of_split in Hi as ([|x l] & r & Heq); rewrite Heq; [set_solver|].
    exfalso. apply (Hnone x). apply (before_newer _ _ _ _ _ Heq). left.
Qed.

(** A snapshot stays exactly when it is the newest of all, or the newest of one of
    the last [daily] days, [weekly] weeks or [monthly] months that have one; of snapshots
    made in the same second the first listed counts as the newest. *)
Theorem keep_exactly times r i :
  i ∈ keep times r <->
    (i < length times)%nat /\
    ((forall j, ~ newer times j i) \/ exists count bucket_of, (count, bucket_of) ∈ buckets r /\ among_last times count bucket_of i).
Proof.
  unfold keep, buckets. cbn [foldl]. rewrite !keep_newest_order, keep_newest_first. split.
  - intros [[[Hn|Hd]|Hw]|Hm]; (split; [naive_solver|]); [left; naive_solver|right..];
      eexists _, _; (split; [|naive_solver]); set_solver.
  - intros [Hi [Hn|(count & bucket_of & Hin & Hall)]]; [naive_solver|].
    rewrite !elem_of_cons in Hin. destruct Hin as [[= -> ->]|[[= -> ->]|[[= -> ->]|[]%elem_of_nil]]]; naive_solver.
Qed.
