(* ===== verification/Sasl.v ===== *)
(** * Signing in with a token (crates\/uwumail-store\/src\/sasl.rs)

    What an app sends with OAUTHBEARER (RFC 7628) and XOAUTH2: the login it names and the
    token. IMAP and ManageSieve share it. The JSON of a refusal is written by serde_json,
    a variable. *)

From S2P Require Import Prelude Utf8.

Record SaslBearer := { user : option (list byte); token : list byte }.

#[export] Instance SaslBearer_eq_dec : EqDecision SaslBearer.
Proof. solve_decision. Defined.

(** The token of [auth=Bearer token]. *)
Definition bearer (value : list byte) : option (list byte) :=
  '(scheme, token) ← split_once x20 value;
  let token := trim token in
  if eq_ignore_ascii_case scheme (bs "bearer") && negb (bool_decide (token = [])) then Some token else None.

(** [=2C] is a comma and [=3D] an equals sign. *)
Definition decode_saslname (name : list byte) : option (list byte) :=
  let decoded := replace (bs "=3D") (bs "=") (replace (bs "=2C") (bs ",") name) in
  if bool_decide (decoded = []) then None else Some decoded.

(** One of the pairs between the [^A]s; the last token counts. *)
Definition auth_pair (token : option (list byte)) (pair : list byte) : option (list byte) :=
  match strip_prefix (bs "auth=") pair with Some value => bearer value | None => token end.

Definition parse_oauthbearer (message : list byte) : option SaslBearer :=
  message ← from_utf8 message;
  '(gs2, rest) ← split_once x01 message;
  '(binding, parts) ← split_once ","%byte gs2;
  if negb (bool_decide (binding = bs "n") || bool_decide (binding = bs "y")) then None
  else
    '(authzid, last) ← split_once ","%byte parts;
    user ← (if bool_decide (authzid = []) then Some None
            else name ← strip_prefix (bs "a=") authzid; user ← decode_saslname name; Some (Some user));
    if negb (bool_decide (last = [])) then None
    else token ← foldl auth_pair None (split_on x01 rest); Some {| user := user; token := token |}.

Definition user_pair (read : option (list byte) * option (list byte)) (pair : list byte) : option (list byte) * option (list byte) :=
  match strip_prefix (bs "user=") pair with
  | Some value => (if bool_decide (trim value = []) then None else Some (trim value), read.2)
  | None => (read.1, auth_pair read.2 pair)
  end.

Definition parse_xoauth2 (message : list byte) : option SaslBearer :=
  message ← from_utf8 message;
  let '(user, token) := foldl user_pair (None, None) (split_on x01 message) in
  user ← user; token ← token; Some {| user := Some user; token := token |}.

Definition sasl_user_matches (user : option (list byte)) (login : list byte) : bool :=
  match user with Some user => eq_ignore_ascii_case (trim user) login | None => true end.

(** The fields of the error, its JSON written by [to_json]. *)
Definition sasl_bearer_error (to_json : list (list byte * list byte) -> list byte) (xoauth2 : bool) (scope : list byte) (hostname : option (list byte)) : list byte :=
  to_json ([(bs "status", if xoauth2 then bs "401" else bs "invalid_token"); (bs "scope", scope)]
    ++ (if xoauth2 then [(bs "schemes", bs "bearer")] else [])
    ++ match hostname with
       | Some hostname => [(bs "openid-configuration", bs "https://" ++ hostname ++ bs "/.well-known/openid-configuration")]
       | None => []
       end).

Example rfc_7628 :
  parse_oauthbearer (bs "n,a=user@example.com," ++ [x01] ++ bs "host=server.example.com" ++ [x01] ++ bs "auth=Bearer vF9df=" ++ [x01; x01])
  = Some {| user := Some (bs "user@example.com"); token := bs "vF9df=" |}.
Proof. vm_compute. reflexivity. Qed.

Example dummy_answer : parse_oauthbearer [x01] = None.
Proof. reflexivity. Qed.

(** ** What an app writes *)

Definition encode_byte (b : byte) : list byte :=
  if decide (b = ","%byte) then bs "=2C" else if decide (b = "="%byte) then bs "=3D" else [b].

(** RFC 5801's [saslname]. *)
Definition saslname (name : list byte) : list byte := name ≫= encode_byte.

Definition oauthbearer (user : option (list byte)) (pairs : list (list byte)) (token : list byte) : list byte :=
  bs "n," ++ match user with Some user => bs "a=" ++ saslname user | None => [] end ++ bs "," ++ [x01]
  ++ (pairs ≫= fun pair => pair ++ [x01]) ++ bs "auth=Bearer " ++ token ++ [x01; x01].

(** Commas undone. *)
Definition half_byte (b : byte) : list byte := if decide (b = "="%byte) then bs "=3D" else [b].

Lemma strip_prefix_app p s : strip_prefix p (p ++ s) = Some s.
Proof. unfold strip_prefix. by rewrite take_app_length, decide_True, drop_app_length. Qed.

Lemma replace_fuel_hit fuel p to s : p <> [] -> (length (p ++ s) <= fuel)%nat ->
  exists fuel', (length s <= fuel')%nat /\ replace_fuel fuel p to (p ++ s) = to ++ replace_fuel fuel' p to s.
Proof.
  intros Hp Hf. destruct p as [|b p]; [done|]. destruct fuel as [|fuel]; [simpl in Hf; lia|].
  exists fuel. split; [simpl in Hf; rewrite length_app in Hf; lia|]. pose proof (strip_prefix_app (b :: p) s) as H. cbn [replace_fuel app] in *. by rewrite H.
Qed.

Lemma replace_fuel_miss fuel p to b s : take (length p) (b :: s) <> p -> (length (b :: s) <= fuel)%nat ->
  exists fuel', (length s <= fuel')%nat /\ replace_fuel fuel p to (b :: s) = b :: replace_fuel fuel' p to s.
Proof.
  intros Hp Hf. destruct fuel as [|fuel]; [simpl in Hf; lia|]. exists fuel. split; [simpl in Hf; lia|].
  cbn [replace_fuel]. unfold strip_prefix. by rewrite decide_False.
Qed.

Lemma commas_undone name fuel : (length (saslname name) <= fuel)%nat ->
  replace_fuel fuel (bs "=2C") (bs ",") (saslname name) = name ≫= half_byte.
Proof.
  revert fuel. induction name as [|b name IH]; intros fuel Hf; [by destruct fuel|].
  change (saslname (b :: name)) with (encode_byte b ++ saslname name) in *.
  change ((b :: name) ≫= half_byte) with (half_byte b ++ (name ≫= half_byte)).
  unfold encode_byte in *. unfold half_byte at 1. destruct (decide (b = ","%byte)) as [->|Hc].
  - destruct (replace_fuel_hit fuel (bs "=2C") (bs ",") (saslname name)) as (f & Hf' & ->); [done|done|]. by rewrite IH.
  - destruct (decide (b = "="%byte)) as [->|He].
    + change (bs "=3D") with ["="%byte; "3"%byte; "D"%byte] in *. cbn [app] in *.
      do 3 (match goal with |- context [replace_fuel ?f ?p ?t (?b :: ?s)] =>
        let H := fresh in destruct (replace_fuel_miss f p t b s) as (? & H & ->); [done | simpl in *; lia |] end).
      by rewrite IH.
    + cbn [app] in *. destruct (replace_fuel_miss fuel (bs "=2C") (bs ",") b (saslname name)) as (f & Hf' & ->); [|done|by rewrite IH].
      cbn. congruence.
Qed.

Lemma equals_undone name fuel : (length (name ≫= half_byte) <= fuel)%nat ->
  replace_fuel fuel (bs "=3D") (bs "=") (name ≫= half_byte) = name.
Proof.
  revert fuel. induction name as [|b name IH]; intros fuel Hf; [by destruct fuel|].
  change ((b :: name) ≫= half_byte) with (half_byte b ++ (name ≫= half_byte)) in *.
  unfold half_byte at 1 in Hf. unfold half_byte at 1. destruct (decide (b = "="%byte)) as [->|He].
  - destruct (replace_fuel_hit fuel (bs "=3D") (bs "=") (name ≫= half_byte)) as (f & Hf' & ->); [done|done|]. by rewrite IH.
  - cbn [app] in *. destruct (replace_fuel_miss fuel (bs "=3D") (bs "=") b (name ≫= half_byte)) as (f & Hf' & ->); [|done|by rewrite IH].
    cbn. congruence.
Qed.

Lemma decode_saslname_encoded name : name <> [] -> decode_saslname (saslname name) = Some name.
Proof.
  intros Hne. unfold decode_saslname.
  assert (replace (bs "=2C") (bs ",") (saslname name) = name ≫= half_byte) as -> by by apply commas_undone.
  assert (replace (bs "=3D") (bs "=") (name ≫= half_byte) = name) as -> by by apply equals_undone.
  by rewrite bool_decide_false.
Qed.

Lemma elem_of_saslname b name : b ∈ saslname name -> b ∈ ["="%byte; "2"%byte; "3"%byte; "C"%byte; "D"%byte] \/ b ∈ name /\ b <> ","%byte.
Proof.
  intros (x & Hx & Hin)%list_elem_of_bind. unfold encode_byte in Hx.
  destruct (decide (x = ","%byte)) as [->|]; [left; change (bs "=2C") with ["="%byte; "2"%byte; "C"%byte] in Hx; set_solver|].
  destruct (decide (x = "="%byte)) as [->|]; [left; change (bs "=3D") with ["="%byte; "3"%byte; "D"%byte] in Hx; set_solver|].
  right. apply list_elem_of_singleton in Hx as ->. done.
Qed.

Lemma comma_not_in_saslname name : ","%byte ∉ saslname name.
Proof. intros [H|[_ H]]%elem_of_saslname; [|done]. rewrite !elem_of_cons, elem_of_nil in H. naive_solver. Qed.

Lemma control_not_in_saslname name : x01 ∉ name -> x01 ∉ saslname name.
Proof. intros Hn [H|[H _]]%elem_of_saslname; [|done]. rewrite !elem_of_cons, elem_of_nil in H. naive_solver. Qed.

(** A token as apps have it: visible ASCII characters. *)
Definition token_ok (token : list byte) : Prop := token <> [] /\ Forall (fun b => graphic b = true) token.

Lemma bearer_token token : token_ok token -> bearer (bs "Bearer " ++ token) = Some token.
Proof.
  intros [Hne Hg]. unfold bearer. change (bs "Bearer " ++ token) with (bs "Bearer" ++ x20 :: token).
  rewrite split_once_app by (apply (bool_decide_unpack _); vm_compute; exact I).
  cbn [mbind option_bind]. rewrite trim_graphic by done. by rewrite bool_decide_false.
Qed.

Lemma foldl_pairs {A} (f : A -> list byte -> A) a pairs rest :
  Forall (fun pair => x01 ∉ pair) pairs ->
  foldl f a (split_on x01 ((pairs ≫= fun pair => pair ++ [x01]) ++ rest)) = foldl f (foldl f a pairs) (split_on x01 rest).
Proof.
  intros Hp. revert a. induction Hp as [|pair pairs Hpair _ IH]; intros a; [done|].
  change ((pair :: pairs) ≫= fun pair => pair ++ [x01]) with ((pair ++ [x01]) ++ (pairs ≫= fun pair => pair ++ [x01])).
  rewrite <-!app_assoc. cbn [app]. rewrite split_on_app by done. cbn [foldl]. apply IH.
Qed.

Lemma not_in_bs b (s : list byte) : bool_decide (b ∉ s) = true -> b ∉ s.
Proof. apply bool_decide_eq_true_1. Qed.

Lemma foldl_others token pairs :
  Forall (fun pair => strip_prefix (bs "auth=") pair = None) pairs -> foldl auth_pair token pairs = token.
Proof. intros Hp. induction Hp as [|pair pairs Hpair _ IH]; [done|]. cbn [foldl]. unfold auth_pair at 2. by rewrite Hpair. Qed.

(** What may stand between the [^A]s besides the token. *)
Definition other_pair (pair : list byte) : Prop := x01 ∉ pair /\ strip_prefix (bs "auth=") pair = None.

Lemma last_pair token acc : token_ok token ->
  foldl auth_pair acc (split_on x01 (bs "auth=Bearer " ++ token ++ [x01; x01])) = Some token.
Proof.
  intros Ht. assert (x01 ∉ bs "auth=Bearer " ++ token) as Hn.
  { intros [H|H]%elem_of_app; [revert H; by apply not_in_bs|].
    destruct Ht as [_ Hg]. rewrite Forall_forall in Hg. by specialize (Hg _ H). }
  rewrite app_assoc. rewrite split_on_app by done. change (split_on x01 [x01]) with [[]; [] : list byte]. cbn [foldl].
  assert (auth_pair acc (bs "auth=Bearer " ++ token) = Some token) as ->; [|done].
  unfold auth_pair. change (bs "auth=Bearer " ++ token) with (bs "auth=" ++ bs "Bearer " ++ token).
  rewrite strip_prefix_app. by apply bearer_token.
Qed.

(** An app that signs in with OAUTHBEARER is understood: whatever login it names,
    commas and equals signs included, whatever pairs it adds, and whether it names a
    login at all, the server reads that login and that token. *)
Theorem oauthbearer_round_trip name pairs text :
  (forall n, name = Some n -> n <> [] /\ x01 ∉ n) -> Forall other_pair pairs -> token_ok text ->
  is_Some (from_utf8 (oauthbearer name pairs text)) ->
  parse_oauthbearer (oauthbearer name pairs text) = Some {| user := name; token := text |}.
Proof.
  intros Hname Hpairs Htext [m Hm]. pose proof Hm as [-> _]%from_utf8_Some.
  unfold parse_oauthbearer. rewrite Hm. cbn [mbind option_bind]. unfold oauthbearer.
  set (authzid := match name with Some _ => _ | None => _ end).
  assert (x01 ∉ authzid) as Hx.
  { unfold authzid. destruct name as [n|]; [|by apply not_elem_of_nil]. destruct (Hname n eq_refl) as [_ Hn].
    intros [H|H]%elem_of_app; [revert H; by apply not_in_bs | by apply (control_not_in_saslname n)]. }
  assert (","%byte ∉ authzid) as Hc.
  { unfold authzid. destruct name as [n|]; [|by apply not_elem_of_nil].
    intros [H|H]%elem_of_app; [revert H; by apply not_in_bs | by apply (comma_not_in_saslname n)]. }
  set (rest := (pairs ≫= fun pair => pair ++ [x01]) ++ bs "auth=Bearer " ++ text ++ [x01; x01]).
  replace (bs "n," ++ authzid ++ bs "," ++ [x01] ++ rest) with ((bs "n" ++ ","%byte :: authzid ++ [","%byte]) ++ x01 :: rest)
    by (rewrite <-!app_assoc; cbn [app]; by rewrite <-!app_assoc).
  rewrite split_once_app.
  2:{ intros [H|H]%elem_of_app; [revert H; by apply not_in_bs|]. rewrite elem_of_cons, elem_of_app, list_elem_of_singleton in H. naive_solver. }
  cbn [mbind option_bind]. rewrite split_once_app by by apply not_in_bs. cbn [mbind option_bind].
  rewrite bool_decide_true by done. cbn [orb negb]. rewrite split_once_app by done. cbn [mbind option_bind].
  assert (foldl auth_pair None (split_on x01 rest) = Some text) as Htok.
  { unfold rest. rewrite foldl_pairs by (eapply Forall_impl; [exact Hpairs | by intros ? []]).
    by apply last_pair. }
  destruct name as [n|]; subst authzid; cbv beta iota.
  - destruct (Hname n eq_refl) as [Hn _]. rewrite (bool_decide_false (bs "a=" ++ saslname n = [])) by (intros H; discriminate H). rewrite strip_prefix_app. cbn [mbind option_bind].
    rewrite decode_saslname_encoded by done. cbn [mbind option_bind]. by rewrite Htok.
  - rewrite bool_decide_true by done. cbn [mbind option_bind]. by rewrite Htok.
Qed.

Lemma oauthbearer_round_trip_witness :
  parse_oauthbearer (oauthbearer (Some (bs "leni=work,2")) [bs "port=143"] (bs "abc")) = Some {| user := Some (bs "leni=work,2"); token := bs "abc" |}.
Proof.
  apply (oauthbearer_round_trip (Some (bs "leni=work,2")) [bs "port=143"] (bs "abc")).
  - intros n [= <-]. split; [done|]. apply not_in_bs. vm_compute. reflexivity.
  - constructor; [|constructor]. split; [apply not_in_bs; vm_compute; reflexivity | vm_compute; reflexivity].
  - split; [done|]. repeat constructor.
  - eexists. vm_compute. reflexivity.
Defined.
