(* ===== verification/SieveStore.v ===== *)
(** * Sieve scripts in the store (crates\/uwumail-store\/src\/sieve.rs)

    The scripts of all accounts are the rows of a table; the state is that table, the
    modseq of each account and the change log. A write is a transaction: a computation
    whose state is kept only when it returns a value. SQLite's part is what its
    documentation says of the statements in the source: an INSERT or UPDATE that breaks a
    UNIQUE index fails, and a new row gets an id no row has, which is all that is known of
    [new_rowid]. The hash of a blob is a variable. *)

From stdpp Require Import sorting.
From S2P Require Import Prelude Effects Utf8.

Definition SIEVE_MAX_SCRIPTS : nat := 16.
Definition SIEVE_MAX_SCRIPT_SIZE : Z := 65536.
Definition SIEVE_MAX_NAME_SIZE : Z := 512.

(** Why SQLite or the store fails. *)
Inductive DbError := NoAccount | Constraint | RowGone.

Inductive SieveError :=
  | AlreadyExists (existing : Z) | TooMany | TooLarge | InvalidName (problem : list byte) | InvalidContent (problem : list byte)
  | NoScript | IsActive | Failed (e : DbError).

(** A row of [sieve_scripts]. *)
Record Row := {
  account_id : Z; name : list byte; content : list byte; blob_hash : list byte; active : bool; created_at : Z; updated_at : Z }.

(** A script without its content. *)
Record SieveScript := { script_id : Z; script_name : list byte; blob : list byte; script_size : Z; is_active : bool }.

Inductive Changed := Created | Updated | Destroyed.

(** [changes]: (account, modseq, id), of this kind of object. *)
Record Db := { scripts : gmap Z Row; modseqs : gmap Z Z; changes : gmap (Z * Z * Z) Changed }.

Record SieveActivation := { deactivated : option Z; activated : option Z }.

Abbreviation D := (M Db SieveError).

(** ** What may be stored *)

Definition forbidden (c : Z) : bool :=
  ((0 <=? c) && (c <=? 0x1f)) || ((0x7f <=? c) && (c <=? 0x9f)) || (c =? 0x2028) || (c =? 0x2029).

Definition validate_sieve_name (name : list byte) : unit + SieveError :=
  if bool_decide (name = []) then inr (InvalidName (bs "the name is empty"))
  else if SIEVE_MAX_NAME_SIZE <? Z.of_nat (length name)
  then inr (InvalidName (bs "the name is longer than " ++ dec SIEVE_MAX_NAME_SIZE ++ bs " bytes"))
  else if existsb forbidden (default [] (chars name)) then inr (InvalidName (bs "the name contains control characters"))
  else inl tt.

Definition check_content (content : list byte) : list byte + SieveError :=
  if SIEVE_MAX_SCRIPT_SIZE <? Z.of_nat (length content) then inr TooLarge
  else if bool_decide (content = []) then inr (InvalidContent (bs "the script is empty"))
  else match from_utf8 content with Some content => inl content | None => inr (InvalidContent (bs "the script is not UTF-8")) end.

(** [?] on a result. *)
Definition try_ {A} (r : A + SieveError) : D A := match r with inl a => mret a | inr e => throw e end.

Section store.
Context (blob_of : list byte -> list byte) (new_rowid : gmap Z Row -> Z).

(** ** Statements *)

Definition script_of (i : Z) (r : Row) : SieveScript :=
  {| script_id := i; script_name := name r; blob := blob_hash r; script_size := Z.of_nat (length (content r)); is_active := active r |}.

Definition load (account i : Z) (db : Db) : option SieveScript :=
  r ← scripts db !! i; if account_id r =? account then Some (script_of i r) else None.

(** The rows of an account. *)
Definition rows_of (account : Z) (t : gmap Z Row) : list (Z * Row) := List.filter (fun ir => account_id ir.2 =? account) (map_to_list t).

Definition id_named (account : Z) (n : list byte) (db : Db) : option Z :=
  fst <$> List.find (fun ir => bool_decide (name ir.2 = n)) (rows_of account (scripts db)).

Definition count (account : Z) (db : Db) : nat := length (rows_of account (scripts db)).

Definition active_id (account : Z) (db : Db) : option Z := fst <$> List.find (fun ir => active ir.2) (rows_of account (scripts db)).

(** [UNIQUE (account_id, name)] and the unique index on the active one, of a row that is
    about to be written. *)
Definition breaks_unique (i : Z) (r : Row) (t : gmap Z Row) : bool :=
  existsb (fun jq => negb (jq.1 =? i) && (bool_decide (name jq.2 = name r) || (active jq.2 && active r))) (rows_of (account_id r) t).

Definition write_row (i : Z) (r : Row) : D unit :=
  db ← get;
  if breaks_unique i r (scripts db) then throw (Failed Constraint)
  else put {| scripts := <[i := r]> (scripts db); modseqs := modseqs db; changes := changes db |}.

(** [UPDATE .. WHERE id]: a row that is there. *)
Definition update_row (i : Z) (f : Row -> Row) : D unit :=
  db ← get; match scripts db !! i with Some r => write_row i (f r) | None => mret tt end.

Definition next_modseq (account : Z) : D Z :=
  db ← get;
  match modseqs db !! account with
  | None => throw (Failed NoAccount)
  | Some modseq => put {| scripts := scripts db; modseqs := <[account := modseq + 1]> (modseqs db); changes := changes db |};; mret (modseq + 1)
  end.

(** [INSERT OR IGNORE] *)
Definition logged (k : Z * Z * Z) (c : Changed) (cs : gmap (Z * Z * Z) Changed) : gmap (Z * Z * Z) Changed :=
  match cs !! k with Some _ => cs | None => <[k := c]> cs end.

Definition record_change (account modseq i : Z) (c : Changed) : D unit :=
  modify (fun db => {| scripts := scripts db; modseqs := modseqs db; changes := logged (account, modseq, i) c (changes db) |}).

(** [load] of a row that was just written. *)
Definition loaded (account i : Z) : D SieveScript := db ← get; ok_or (load account i db) (Failed RowGone).

(** [script-<n>], the first that is free; [fuel] names are tried. *)
Fixpoint free_name (fuel : nat) (account number : Z) (db : Db) : option (list byte) :=
  match fuel with
  | O => None
  | S fuel =>
      let n := bs "script-" ++ dec number in
      match id_named account n db with None => Some n | Some _ => free_name fuel account (number + 1) db end
  end.

Definition insert (account : Z) (n c : list byte) (now : Z) : D (SieveScript * Z) :=
  modseq ← next_modseq account;
  db ← get;
  let i := new_rowid (scripts db) in
  write_row i {| account_id := account; name := n; content := c; blob_hash := blob_of c; active := false; created_at := now; updated_at := now |};;
  record_change account modseq i Created;;
  script ← loaded account i;
  mret (script, modseq).

Definition set_name (n : list byte) (r : Row) : Row :=
  {| account_id := account_id r; name := n; content := content r; blob_hash := blob_hash r; active := active r; created_at := created_at r; updated_at := updated_at r |}.
Definition set_content (c : list byte) (r : Row) : Row :=
  {| account_id := account_id r; name := name r; content := c; blob_hash := blob_of c; active := active r; created_at := created_at r; updated_at := updated_at r |}.
Definition set_updated (now : Z) (r : Row) : Row :=
  {| account_id := account_id r; name := name r; content := content r; blob_hash := blob_hash r; active := active r; created_at := created_at r; updated_at := now |}.
Definition set_active (b : bool) (r : Row) : Row :=
  {| account_id := account_id r; name := name r; content := content r; blob_hash := blob_hash r; active := b; created_at := created_at r; updated_at := updated_at r |}.

Definition change (account i : Z) (n c : option (list byte)) (now : Z) : D Z :=
  modseq ← next_modseq account;
  match n with Some n => update_row i (set_name n) | None => mret tt end;;
  match c with Some c => update_row i (set_content c) | None => mret tt end;;
  update_row i (set_updated now);;
  record_change account modseq i Updated;;
  mret modseq.

Definition activate (account : Z) (i : option Z) : D (SieveActivation * option Z) :=
  db ← get;
  let current := active_id account db in
  if bool_decide (current = i) then mret ({| deactivated := None; activated := None |}, None)
  else
    modseq ← next_modseq account;
    match current with Some c => update_row c (set_active false);; record_change account modseq c Updated | None => mret tt end;;
    match i with Some i => update_row i (set_active true);; record_change account modseq i Updated | None => mret tt end;;
    mret ({| deactivated := current; activated := i |}, Some modseq).

(** ** The store's methods *)

(** A transaction; with its value comes the modseq listeners are told of. It is rolled
    back for an error of the database only: the other refusals are values to it. *)
Definition write_sieve {A} (f : D (A * option Z)) : D (A * option Z) := fun db =>
  match f db with
  | (Ok a, db') => (Ok a, db')
  | (Err (Failed e), _) => (Err (Failed e), db)
  | (Err e, db') => (Err e, db')
  | (r, _) => (r, db)
  end.

Definition row_le (a b : Z * Row) : Prop :=
  (if bool_decide (name a.2 = name b.2) then a.1 <=? b.1 else bytes_le (name a.2) (name b.2)) = true.

#[export] Instance row_le_dec : RelDecision row_le.
Proof. intros a b. unfold row_le. apply _. Defined.

Definition sieve_scripts (account : Z) (db : Db) : list SieveScript :=
  map (fun ir => script_of ir.1 ir.2) (merge_sort row_le (rows_of account (scripts db))).

Definition sieve_script (account i : Z) (db : Db) : option (SieveScript * list byte) :=
  script ← load account i db; r ← scripts db !! i; Some (script, content r).

(** Two reads: what others do in [between] shows. *)
Definition sieve_script_named (between : Db -> Db) (account : Z) (n : list byte) (db : Db) : option (SieveScript * list byte) :=
  i ← id_named account n db; sieve_script account i (between db).

Definition active_sieve_script (between : Db -> Db) (account : Z) (db : Db) : option (SieveScript * list byte) :=
  i ← active_id account db; sieve_script account i (between db).

Definition sieve_script_blob (account : Z) (hash : list byte) (db : Db) : option (list byte) :=
  (fun ir => content ir.2) <$> List.find (fun ir => bool_decide (blob_hash ir.2 = hash)) (rows_of account (scripts db)).

Definition create_sieve_script (account : Z) (n : option (list byte)) (c : list byte) (now : Z) : D (SieveScript * option Z) :=
  match n with Some n => try_ (validate_sieve_name n) | None => mret tt end;;
  c ← try_ (check_content c);
  write_sieve (
    db ← get;
    if (SIEVE_MAX_SCRIPTS <=? count account db)%nat then throw TooMany
    else
      n ← match n with
          | Some n => match id_named account n db with Some existing => throw (AlreadyExists existing) | None => mret n end
          | None => match free_name (S (count account db)) account 1 db with Some n => mret n | None => out_of_fuel end
          end;
      r ← insert account n c now;
      mret (r.1, Some r.2)).

Definition update_sieve_script (account i : Z) (n c : option (list byte)) (now : Z) : D (SieveScript * option Z) :=
  match n with Some n => try_ (validate_sieve_name n) | None => mret tt end;;
  c ← match c with Some c => c ← try_ (check_content c); mret (Some c) | None => mret None end;
  write_sieve (
    db ← get;
    match load account i db with
    | None => throw NoScript
    | Some before =>
        let n := match n with Some n => if bool_decide (n = script_name before) then None else Some n | None => None end in
        match n ≫= (fun n => id_named account n db) with
        | Some existing => throw (AlreadyExists existing)
        | None =>
            match n, c with
            | None, None => mret (before, None)
            | _, _ =>
                modseq ← change account i n c now;
                script ← loaded account i;
                mret (script, Some modseq)
            end
        end
    end).

Definition put_sieve_script (account : Z) (n c : list byte) (now : Z) : D (SieveScript * bool * option Z) :=
  try_ (validate_sieve_name n);;
  c ← try_ (check_content c);
  write_sieve (
    db ← get;
    match id_named account n db with
    | Some i =>
        modseq ← change account i None (Some c) now;
        script ← loaded account i;
        mret ((script, false), Some modseq)
    | None =>
        if (SIEVE_MAX_SCRIPTS <=? count account db)%nat then throw TooMany
        else r ← insert account n c now; mret ((r.1, true), Some r.2)
    end).

Definition destroy_sieve_script (account i : Z) : D (unit * option Z) :=
  write_sieve (
    db ← get;
    match load account i db with
    | None => throw NoScript
    | Some script =>
        if is_active script then throw IsActive
        else
          modseq ← next_modseq account;
          modify (fun db => {| scripts := delete i (scripts db); modseqs := modseqs db; changes := changes db |});;
          record_change account modseq i Destroyed;;
          mret (tt, Some modseq)
    end).

Definition activate_sieve_script (account : Z) (i : option Z) : D (SieveActivation * option Z) :=
  write_sieve (
    db ← get;
    if match i with Some i => negb (bool_decide (is_Some (load account i db))) | None => false end then throw NoScript
    else activate account i).

End store.
