(* ===== verification/SieveStoreSafe.v ===== *)
(** * The store of Sieve scripts stays well-formed (crates\/uwumail-store\/src\/sieve.rs)

    The methods of SieveStore.v seen as changes of one map by name per account ([view]):
    [stepped] says what a change did to it. No call breaks the tables or fails for the
    database's sake ([sieve_store_well_formed]). *)

From stdpp Require Import sorting.
From S2P Require Import Prelude Effects Utf8 SieveStore.

(** ** The rows *)

Lemma elem_of_rows a t i r : (i, r) ∈ rows_of a t <-> t !! i = Some r /\ account_id r = a.
Proof.
  unfold rows_of. rewrite list_elem_of_In, filter_In, <-list_elem_of_In, elem_of_map_to_list. cbn. by rewrite Z.eqb_eq.
Qed.

Lemma rows_insert_fresh a i r t : t !! i = None ->
  length (rows_of a (<[i := r]> t)) = ((if (account_id r =? a)%Z then 1 else 0) + length (rows_of a t))%nat.
Proof.
  intros Hi. unfold rows_of.
  assert (forall (p : Z * Row -> bool) l l', l ≡ₚ l' -> length (List.filter p l) = length (List.filter p l')) as Hperm.
  { intros p l l' H. induction H; cbn; repeat (case_match; cbn); congruence. }
  rewrite (Hperm _ _ _ (map_to_list_insert t i r Hi)). cbn. by case_match.
Qed.

Lemma rows_delete a i r t : t !! i = Some r ->
  length (rows_of a t) = ((if (account_id r =? a)%Z then 1 else 0) + length (rows_of a (delete i t)))%nat.
Proof.
  intros Hi. rewrite <-(insert_delete_id t i r Hi) at 1. apply rows_insert_fresh, lookup_delete_eq.
Qed.

Lemma rows_update a i r r' t : t !! i = Some r -> account_id r' = account_id r ->
  length (rows_of a (<[i := r']> t)) = length (rows_of a t).
Proof.
  intros Hi Ha. rewrite <-insert_delete_eq, rows_insert_fresh by apply lookup_delete_eq. rewrite (rows_delete a i r t Hi). by rewrite Ha.
Qed.

Lemma find_rows (p : Z * Row -> bool) a t i :
  fst <$> List.find p (rows_of a t) = Some i -> exists r, t !! i = Some r /\ account_id r = a /\ p (i, r) = true.
Proof.
  destruct (List.find p (rows_of a t)) as [[j r]|] eqn:E; [|done]. intros [= <-]. exists r.
  apply List.find_some in E as [Hin Hp]. apply list_elem_of_In, elem_of_rows in Hin as [? ?]. done.
Qed.

Lemma find_rows_None (p : Z * Row -> bool) a t :
  fst <$> List.find p (rows_of a t) = None -> forall i r, t !! i = Some r -> account_id r = a -> p (i, r) = false.
Proof.
  intros H i r Hi Ha. destruct (List.find p (rows_of a t)) eqn:E; [done|].
  apply (List.find_none _ _ E). by apply list_elem_of_In, elem_of_rows.
Qed.

(** What the unique indexes hold of a table. *)
Definition unique_ok (t : gmap Z Row) : Prop :=
  forall i j r q, t !! i = Some r -> t !! j = Some q -> account_id r = account_id q ->
    name r = name q \/ (active r = true /\ active q = true) -> i = j.

Lemma id_named_spec a n db i : unique_ok (scripts db) ->
  id_named a n db = Some i <-> exists r, scripts db !! i = Some r /\ account_id r = a /\ name r = n.
Proof.
  intros Hu. split.
  - intros (r & Hi & Ha & Hn)%find_rows. exists r. by apply bool_decide_eq_true in Hn.
  - intros (r & Hi & Ha & Hn). destruct (id_named a n db) as [j|] eqn:E.
    + apply find_rows in E as (q & Hj & Hqa & Hqn). apply bool_decide_eq_true in Hqn. cbn in Hqn.
      f_equal. apply (Hu j i q r); try done; [congruence | left; congruence].
    + pose proof (find_rows_None _ _ _ E i r Hi Ha) as Hf. apply bool_decide_eq_false in Hf. done.
Qed.

Lemma id_named_None a n db : id_named a n db = None -> forall i r, scripts db !! i = Some r -> account_id r = a -> name r <> n.
Proof. intros H i r Hi Ha. pose proof (find_rows_None _ _ _ H i r Hi Ha) as Hf. by apply bool_decide_eq_false in Hf. Qed.

Lemma active_id_spec a db i : unique_ok (scripts db) ->
  active_id a db = Some i <-> exists r, scripts db !! i = Some r /\ account_id r = a /\ active r = true.
Proof.
  intros Hu. split.
  - by intros (r & Hi & Ha & Hn)%find_rows; exists r.
  - intros (r & Hi & Ha & Hn). destruct (active_id a db) as [j|] eqn:E.
    + apply find_rows in E as (q & Hj & Hqa & Hqn). cbn in Hqn.
      f_equal. apply (Hu j i q r); try done; [congruence | by right].
    + pose proof (find_rows_None _ _ _ E i r Hi Ha) as Hf. cbn in Hf. congruence.
Qed.

Lemma active_id_None a db : active_id a db = None -> forall i r, scripts db !! i = Some r -> account_id r = a -> active r = false.
Proof. intros H i r Hi Ha. by apply (find_rows_None _ _ _ H i r Hi Ha). Qed.

Lemma breaks_unique_false i r t :
  (forall j q, t !! j = Some q -> account_id q = account_id r -> j <> i -> name q <> name r /\ ~ (active q = true /\ active r = true)) ->
  breaks_unique i r t = false.
Proof.
  intros H. unfold breaks_unique. apply not_true_is_false. intros ([j q] & Hin & Hb)%existsb_exists.
  apply list_elem_of_In, elem_of_rows in Hin as [Hj Ha]. cbn in Hb. apply andb_true_iff in Hb as [Hne Hb].
  destruct (H j q Hj Ha) as [Hn Hact].
  - intros ->. by rewrite Z.eqb_refl in Hne.
  - apply orb_true_iff in Hb as [Hb|Hb]; [by apply bool_decide_eq_true in Hb|]. by apply andb_true_iff in Hb.
Qed.

(** A row may be written when no other of its account has its name, or is active too. *)
Definition fits (i : Z) (r : Row) (t : gmap Z Row) : Prop :=
  forall j q, t !! j = Some q -> account_id q = account_id r -> j <> i -> name q <> name r /\ ~ (active q = true /\ active r = true).

Lemma unique_write i r t : unique_ok t -> fits i r t -> unique_ok (<[i := r]> t).
Proof.
  intros Hu Hf j k q p Hj Hk Ha Hs. destruct (decide (j = i)) as [->|Hji], (decide (k = i)) as [->|Hki]; [done| | |].
  - rewrite lookup_insert_eq in Hj. rewrite lookup_insert_ne in Hk by done. injection Hj as <-.
    destruct (Hf k p Hk) as [Hn Hact]; [done|done|]. exfalso. destruct Hs as [Hs|[]]; [by apply Hn|by apply Hact].
  - rewrite lookup_insert_eq in Hk. rewrite lookup_insert_ne in Hj by done. injection Hk as <-.
    destruct (Hf j q Hj) as [Hn Hact]; [done|done|]. exfalso. destruct Hs as [Hs|[]]; [by apply Hn|by apply Hact].
  - rewrite lookup_insert_ne in Hj, Hk by done. by apply (Hu j k q p).
Qed.

(** Nothing that decides who fits changed. *)
Lemma fits_same i r r' t : unique_ok t -> t !! i = Some r -> account_id r' = account_id r -> name r' = name r -> active r' = active r -> fits i r' t.
Proof.
  intros Hu Hi Ha Hn Hact j q Hj Hq Hne. split.
  - intros Heq. apply Hne. apply (Hu j i q r); [done|done|congruence|left; congruence].
  - intros [H1 H2]. apply Hne. apply (Hu j i q r); [done|done|congruence|right; split; congruence].
Qed.

Definition with_scripts (t : gmap Z Row) (db : Db) : Db := {| scripts := t; modseqs := modseqs db; changes := changes db |}.

Lemma write_row_fits i r db : fits i r (scripts db) -> write_row i r db = (Ok tt, with_scripts (<[i := r]> (scripts db)) db).
Proof. intros Hf. unfold write_row, mbind, M_bind, get. cbn. by rewrite breaks_unique_false. Qed.

Lemma update_row_fits i f r db : scripts db !! i = Some r -> fits i (f r) (scripts db) ->
  update_row i f db = (Ok tt, with_scripts (<[i := f r]> (scripts db)) db).
Proof. intros Hi Hf. unfold update_row, mbind, M_bind, get. cbn. rewrite Hi. by apply write_row_fits. Qed.

Lemma next_modseq_is a m db : modseqs db !! a = Some m ->
  next_modseq a db = (Ok (m + 1), {| scripts := scripts db; modseqs := <[a := m + 1]> (modseqs db); changes := changes db |}).
Proof. intros Hm. unfold next_modseq, mbind, M_bind, get. cbn. by rewrite Hm. Qed.

(** A database after one change. *)
Definition changed (a m i : Z) (c : Changed) (t : gmap Z Row) (db : Db) : Db :=
  {| scripts := t; modseqs := <[a := m + 1]> (modseqs db); changes := logged (a, m + 1, i) c (changes db) |}.

Section store_lemmas.
Context (blob_of : list byte -> list byte) (new_rowid : gmap Z Row -> Z).

Lemma insert_is a n c now m db :
  let i := new_rowid (scripts db) in
  let r := {| account_id := a; name := n; content := c; blob_hash := blob_of c; active := false; created_at := now; updated_at := now |} in
  modseqs db !! a = Some m -> fits i r (scripts db) ->
  insert blob_of new_rowid a n c now db = (Ok (script_of i r, m + 1), changed a m i Created (<[i := r]> (scripts db)) db).
Proof.
  intros i r Hm Hf. unfold insert, mbind, M_bind. rewrite (next_modseq_is a m) by done. cbn [get]. cbn [scripts]. fold i r.
  rewrite write_row_fits by done. cbn. unfold loaded, load, mbind, M_bind, get, ok_or. cbn. rewrite lookup_insert_eq. cbn.
  by rewrite Z.eqb_refl.
Qed.

Lemma update_row_same i f r db :
  unique_ok (scripts db) -> scripts db !! i = Some r -> account_id (f r) = account_id r -> name (f r) = name r -> active (f r) = active r ->
  update_row i f db = (Ok tt, with_scripts (<[i := f r]> (scripts db)) db).
Proof. intros Hu Hi Ha Hn Hact. apply update_row_fits; [done|]. by apply (fits_same i r). Qed.

Definition changed_row (n c : option (list byte)) (now : Z) (r : Row) : Row :=
  let r := match n with Some n => set_name n r | None => r end in
  let r := match c with Some c => set_content blob_of c r | None => r end in
  set_updated now r.

Lemma change_is a i n c now m r db :
  unique_ok (scripts db) -> modseqs db !! a = Some m -> scripts db !! i = Some r -> account_id r = a ->
  (forall n', n = Some n' -> fits i (set_name n' r) (scripts db)) ->
  change blob_of a i n c now db = (Ok (m + 1), changed a m i Updated (<[i := changed_row n c now r]> (scripts db)) db).
Proof.
  intros Hu Hm Hi Ha Hn. unfold change, mbind, M_bind. rewrite (next_modseq_is a m) by done.
  set (db1 := {| scripts := scripts db; modseqs := _; changes := _ |}).
  set (r1 := match n with Some n => set_name n r | None => r end).
  assert (match n with Some n => update_row i (set_name n) | None => mret tt end db1
          = (Ok tt, with_scripts (<[i := r1]> (scripts db1)) db1) /\ unique_ok (<[i := r1]> (scripts db1)) /\ account_id r1 = a) as (-> & Hu1 & Ha1).
  { unfold r1. destruct n as [n|].
    - split; [apply update_row_fits; [done | by apply Hn]|]. split; [by apply unique_write; [|apply Hn]|done].
    - rewrite insert_id by done. split; [by destruct db|]. done. }
  set (r2 := match c with Some c => set_content blob_of c r1 | None => r1 end).
  assert (match c with Some c => update_row i (set_content blob_of c) | None => mret tt end (with_scripts (<[i := r1]> (scripts db1)) db1)
          = (Ok tt, with_scripts (<[i := r2]> (scripts db1)) db1) /\ unique_ok (<[i := r2]> (scripts db1))) as (-> & Hu2).
  { unfold r2. destruct c as [c|]; [|done]. split.
    - rewrite (update_row_same i _ r1); [|done|cbn; by rewrite lookup_insert_eq|done..]. unfold with_scripts. cbn. by rewrite insert_insert_eq.
    - rewrite <-(insert_insert_eq (scripts db1) i _ r1). apply unique_write; [done|]. by apply (fits_same i r1); [|rewrite lookup_insert_eq|..]. }
  rewrite (update_row_same i (set_updated now) r2); [|done|cbn; by rewrite lookup_insert_eq|done..].
  unfold with_scripts, changed, changed_row. cbn. by rewrite insert_insert_eq.
Qed.

Definition switch_row (b : bool) (i : option Z) (t : gmap Z Row) : gmap Z Row := match i with Some i => alter (set_active b) i t | None => t end.

Lemma alter_is b i r (t : gmap Z Row) : t !! i = Some r -> alter (set_active b) i t = <[i := set_active b r]> t.
Proof. intros Hi. apply map_eq. intros j. destruct (decide (j = i)) as [->|]; [by rewrite lookup_alter_eq, lookup_insert_eq, Hi | by rewrite lookup_alter_ne, lookup_insert_ne]. Qed.

Lemma off_fits i r t : unique_ok t -> t !! i = Some r -> fits i (set_active false r) t.
Proof.
  intros Hu Hi j q Hj Ha Hne. split; [|by intros []]. intros Hn. apply Hne. by apply (Hu j i q r Hj Hi Ha); left.
Qed.

(** The rows after the active one was switched off. *)
Lemma switched_off a db : unique_ok (scripts db) ->
  let t := switch_row false (active_id a db) (scripts db) in
  unique_ok t /\ (forall j q, t !! j = Some q -> account_id q = a -> active q = false) /\
  (forall j r, scripts db !! j = Some r -> exists q, t !! j = Some q /\ account_id q = account_id r /\ name q = name r).
Proof.
  intros Hu. cbn zeta. destruct (active_id a db) as [i|] eqn:E; cbn [switch_row].
  - pose proof (proj1 (active_id_spec a db i Hu) E) as (r & Hi & Ha & Hact). rewrite (alter_is false i r) by done.
    split; [by apply unique_write, off_fits|]. split.
    + intros j q Hj Hq. destruct (decide (j = i)) as [->|]; [rewrite lookup_insert_eq in Hj; by injection Hj as <-|].
      rewrite lookup_insert_ne in Hj by done. apply not_true_is_false. intros Hq'. apply n. apply (Hu j i q r Hj Hi); [congruence|by right].
    + intros j q Hj. destruct (decide (j = i)) as [->|]; [|exists q; by rewrite lookup_insert_ne].
      exists (set_active false r). rewrite lookup_insert_eq. simplify_eq. done.
  - split; [done|]. split; [by apply active_id_None|]. intros j r Hj. by exists r.
Qed.

Definition activated_db (a m : Z) (current i : option Z) (db : Db) : Db :=
  let log := fun (j : option Z) cs => match j with Some j => logged (a, m + 1, j) Updated cs | None => cs end in
  {| scripts := switch_row true i (switch_row false current (scripts db));
     modseqs := <[a := m + 1]> (modseqs db); changes := log i (log current (changes db)) |}.

Lemma activate_is a i m db :
  unique_ok (scripts db) -> modseqs db !! a = Some m ->
  (forall j, i = Some j -> exists r, scripts db !! j = Some r /\ account_id r = a) -> active_id a db <> i ->
  activate a i db = (Ok ({| deactivated := active_id a db; activated := i |}, Some (m + 1)), activated_db a m (active_id a db) i db).
Proof.
  intros Hu Hm Hi Hne. unfold activate. unfold mbind at 1, M_bind at 1, get at 1. rewrite bool_decide_false by done.
  unfold mbind, M_bind. rewrite (next_modseq_is a m) by done. pose proof (switched_off a db Hu) as (Hu' & Hoff & Hrows). cbn zeta in *.
  set (current := active_id a db) in *. set (t := switch_row false current (scripts db)) in *.
  set (db1 := {| scripts := scripts db; modseqs := _; changes := _ |}).
  assert (match current with Some c => fun s => match update_row c (set_active false) s with
            | (Ok _, s') => record_change a (m + 1) c Updated s' | (Err e, s') => (Err e, s') | (Panicked, s') => (Panicked, s') | (OutOfFuel, s') => (OutOfFuel, s') end
          | None => mret tt end db1
    = (Ok tt, {| scripts := t; modseqs := modseqs db1; changes := match current with Some c => logged (a, m + 1, c) Updated (changes db) | None => changes db end |})) as ->.
  { unfold t. destruct current as [c|] eqn:E; [|done]. pose proof (proj1 (active_id_spec a db c Hu) E) as (r & Hc & Ha & _).
    rewrite (update_row_fits c _ r) by (try done; by apply off_fits). unfold switch_row. by rewrite (alter_is false c r). }
  unfold activated_db. fold t. destruct i as [j|]; [|done]. destruct (Hi j eq_refl) as (r & Hj & Ha).
  destruct (Hrows j r Hj) as (q & Hq & Hqa & Hqn).
  rewrite (update_row_fits j _ q); [cbn; by rewrite (alter_is true j q)|done|].
  intros k p Hk Hp Hkj. split.
  - intros Hn. apply Hkj. cbn in Hn. by apply (Hu' k j p q Hk Hq); [|left].
  - intros [Hact _]. cbn in Hp. rewrite (Hoff k p) in Hact; [done|done|congruence].
Qed.
End store_lemmas.

(** ** What an account sees: its scripts by name *)

Abbreviation View := (gmap (list byte) (list byte * bool)).

Definition entry (r : Row) : list byte * bool := (content r, active r).

Definition view (a : Z) (t : gmap Z Row) : View := list_to_map (map (fun ir => (name ir.2, entry ir.2)) (rows_of a t)).

Lemma rows_NoDup a t : NoDup (rows_of a t).
Proof. unfold rows_of. apply NoDup_ListNoDup, List.NoDup_filter, NoDup_ListNoDup, NoDup_map_to_list. Qed.

Lemma view_keys a t : unique_ok t -> NoDup (map (fun ir : Z * Row => name ir.2) (rows_of a t)).
Proof.
  intros Hu. apply (NoDup_fmap_2_strong (fun ir : Z * Row => name ir.2)); [|apply rows_NoDup].
  intros [i r] [j q] Hi Hj Hn. apply elem_of_rows in Hi as [Hi Ha], Hj as [Hj Hb]. cbn in Hn.
  assert (i = j) as -> by (apply (Hu i j r q Hi Hj); [congruence|by left]). congruence.
Qed.

Lemma view_lookup a t n x : unique_ok t ->
  view a t !! n = Some x <-> exists i r, t !! i = Some r /\ account_id r = a /\ name r = n /\ x = entry r.
Proof.
  intros Hu. unfold view. rewrite <-elem_of_list_to_map.
  2:{ rewrite <-list_fmap_compose. by apply view_keys. }
  rewrite list_elem_of_fmap. split.
  - intros ([i r] & [= -> ->] & Hin). apply elem_of_rows in Hin as [Hi Ha]. by exists i, r.
  - intros (i & r & Hi & Ha & <- & ->). exists (i, r). split; [done|]. by apply elem_of_rows.
Qed.

Lemma view_None a t n : unique_ok t -> (forall i r, t !! i = Some r -> account_id r = a -> name r <> n) -> view a t !! n = None.
Proof. intros Hu H. apply eq_None_not_Some. intros [x (i & r & Hi & Ha & Hn & _)%view_lookup]; [by eapply H|done]. Qed.

Lemma size_view a t : unique_ok t -> size (view a t) = length (rows_of a t).
Proof.
  intros Hu. unfold view. rewrite map_size_list_to_map by (rewrite <-list_fmap_compose; by apply view_keys). apply length_map.
Qed.

Lemma view_ext (a : Z) (t : gmap Z Row) (v : View) : unique_ok t ->
  (forall n x, v !! n = Some x <-> exists i r, t !! i = Some r /\ account_id r = a /\ name r = n /\ x = entry r) -> view a t = v.
Proof. intros Hu H. apply map_eq. intros n. apply option_eq. intros x. by rewrite H, view_lookup. Qed.

(** The rows of others are not looked at. *)
Lemma view_other a i r t : (forall q, t !! i = Some q -> account_id q <> a) -> account_id r <> a -> unique_ok t -> unique_ok (<[i := r]> t) ->
  view a (<[i := r]> t) = view a t.
Proof.
  intros Hi Hr Hu Hu'. apply view_ext; [done|]. intros n x. rewrite view_lookup by done. split; intros (j & q & Hj & Ha & Hn & Hx); exists j, q.
  - split; [|done]. rewrite lookup_insert_ne; [done|]. intros <-. by apply (Hi q).
  - split; [|done]. destruct (decide (j = i)) as [->|]; [|by rewrite lookup_insert_ne in Hj]. rewrite lookup_insert_eq in Hj. congruence.
Qed.

Lemma view_add a i r t : t !! i = None -> account_id r = a -> unique_ok t -> unique_ok (<[i := r]> t) ->
  view a (<[i := r]> t) = <[name r := entry r]> (view a t).
Proof.
  intros Hi Ha Hu Hu'. apply view_ext; [done|]. intros n x. destruct (decide (n = name r)) as [->|Hne].
  - rewrite lookup_insert_eq. split.
    + intros [= <-]. exists i, r. by rewrite lookup_insert_eq.
    + intros (j & q & Hj & Hqa & Hn & ->). assert (j = i) as -> by (apply (Hu' j i q r Hj); [by rewrite lookup_insert_eq|congruence|by left]).
      rewrite lookup_insert_eq in Hj. congruence.
  - rewrite lookup_insert_ne, view_lookup by done. split; intros (j & q & Hj & Hqa & Hn & Hx); exists j, q.
    + split; [|done]. rewrite lookup_insert_ne by congruence. done.
    + split; [|done]. destruct (decide (j = i)) as [->|]; [|by rewrite lookup_insert_ne in Hj]. rewrite lookup_insert_eq in Hj. congruence.
Qed.

Lemma unique_delete i t : unique_ok t -> unique_ok (delete i t).
Proof. intros Hu j k q p [_ Hj]%lookup_delete_Some [_ Hk]%lookup_delete_Some. by apply (Hu j k q p). Qed.

Lemma view_delete a i r t : t !! i = Some r -> account_id r = a -> unique_ok t -> view a (delete i t) = delete (name r) (view a t).
Proof.
  intros Hi Ha Hu.
  pose proof (unique_delete i t Hu) as Hu'.
  apply view_ext; [done|]. intros n x. rewrite lookup_delete_Some, view_lookup by done. split.
  - intros [Hne (j & q & Hj & Hqa & Hn & Hx)]. exists j, q. split; [|done]. rewrite lookup_delete_ne; [done|]. intros <-. congruence.
  - intros (j & q & Hj & Hqa & Hn & Hx). rewrite lookup_delete_Some in Hj. destruct Hj as [Hne Hj]. split; [|by exists j, q].
    intros Heq. apply Hne. symmetry. apply (Hu j i q r Hj Hi); [congruence|left; congruence].
Qed.

Lemma view_change a i r r' t : t !! i = Some r -> account_id r = a -> account_id r' = a -> unique_ok t -> unique_ok (<[i := r']> t) ->
  view a (<[i := r']> t) = <[name r' := entry r']> (delete (name r) (view a t)).
Proof.
  intros Hi Ha Ha' Hu Hu'. rewrite <-(view_delete a i r) by done. rewrite <-insert_delete_eq in *. apply view_add; [by apply lookup_delete_eq|done| |done].
  by apply unique_delete.
Qed.

(** ** The store stays well-formed *)

Section well_formed.
Context (blob_of : list byte -> list byte) (new_rowid : gmap Z Row -> Z).
Hypothesis new_rowid_is_new : forall t, t !! new_rowid t = None.

(** A script as [validate_sieve_name] and [check_content] let it through. *)
Definition row_ok (r : Row) : Prop :=
  validate_sieve_name (name r) = inl tt /\ check_content (content r) = inl (content r) /\ blob_hash r = blob_of (content r).

Definition rows_ok (t : gmap Z Row) (ms : gmap Z Z) : Prop := forall i r, t !! i = Some r -> row_ok r /\ is_Some (ms !! account_id r).

(** No change is logged ahead of its account. *)
Definition entries_ok (cs : gmap (Z * Z * Z) Changed) (ms : gmap Z Z) : Prop :=
  forall a m i c, cs !! (a, m, i) = Some c -> exists now, ms !! a = Some now /\ m <= now.

Record db_ok (db : Db) : Prop := {
  ok_rows : rows_ok (scripts db) (modseqs db);
  ok_unique : unique_ok (scripts db);
  ok_count a : (count a db <= SIEVE_MAX_SCRIPTS)%nat;
  ok_changes : entries_ok (changes db) (modseqs db) }.

Lemma entries_next cs ms a m : entries_ok cs ms -> ms !! a = Some m -> entries_ok cs (<[a := m + 1]> ms).
Proof.
  intros H Hm b k i c Hc. destruct (H b k i c Hc) as (now & Hn & Hle). destruct (decide (b = a)) as [->|].
  - exists (m + 1). rewrite lookup_insert_eq. split; [done|]. replace now with m in Hle by congruence. lia.
  - exists now. by rewrite lookup_insert_ne.
Qed.

Lemma entries_logged cs ms a m i c : entries_ok cs ms -> ms !! a = Some m -> entries_ok (logged (a, m, i) c cs) ms.
Proof.
  intros H Hm b k j x. unfold logged. case_match; [by apply H|]. destruct (decide ((b, k, j) = (a, m, i))) as [[= -> -> ->]|Hne].
  - intros _. by exists m.
  - rewrite lookup_insert_ne by congruence. apply H.
Qed.

(** What an account sees after a change of its own, and nobody else does. *)
Definition stepped (a m : Z) (v : View) (db db' : Db) : Prop :=
  db_ok db' /\ view a (scripts db') = v /\ (forall b, b <> a -> view b (scripts db') = view b (scripts db)) /\ modseqs db' = <[a := m + 1]> (modseqs db).

Lemma rows_next t ms a m : rows_ok t ms -> rows_ok t (<[a := m + 1]> ms).
Proof.
  intros H i r Hi. destruct (H i r Hi) as [Hr Ha]. split; [done|]. destruct (decide (account_id r = a)) as [->|]; [rewrite lookup_insert_eq; by eexists|].
  by rewrite lookup_insert_ne.
Qed.

Lemma rows_write t ms i r : rows_ok t ms -> row_ok r -> is_Some (ms !! account_id r) -> rows_ok (<[i := r]> t) ms.
Proof.
  intros H Hr Ha j q. destruct (decide (j = i)) as [->|]; [rewrite lookup_insert_eq; intros [= <-]; done|].
  rewrite lookup_insert_ne by done. apply H.
Qed.

Lemma changed_steps a m i c t v db :
  db_ok db -> modseqs db !! a = Some m -> rows_ok t (modseqs db) -> unique_ok t -> (forall b, (length (rows_of b t) <= SIEVE_MAX_SCRIPTS)%nat) ->
  view a t = v -> (forall b, b <> a -> view b t = view b (scripts db)) ->
  stepped a m v db (changed a m i c t db).
Proof.
  intros Hok Hm Hrows Hu Hcount Hv Hother. split; [|done]. split; [by apply rows_next|done|done|].
  apply entries_logged; [by apply entries_next; [apply Hok|] | apply lookup_insert_eq].
Qed.

Lemma insert_steps a n c now m db :
  db_ok db -> modseqs db !! a = Some m -> validate_sieve_name n = inl tt -> check_content c = inl c ->
  view a (scripts db) !! n = None -> (size (view a (scripts db)) < SIEVE_MAX_SCRIPTS)%nat ->
  exists script db', insert blob_of new_rowid a n c now db = (Ok (script, m + 1), db') /\
    stepped a m (<[n := (c, false)]> (view a (scripts db))) db db'.
Proof.
  intros Hok Hm Hn Hc Hfree Hsize. pose proof (ok_unique _ Hok) as Hu.
  set (r := {| account_id := a; name := n; content := c; blob_hash := blob_of c; active := false; created_at := now; updated_at := now |}).
  set (i := new_rowid (scripts db)). assert (scripts db !! i = None) as Hi by apply new_rowid_is_new.
  assert (fits i r (scripts db)) as Hf.
  { intros j q Hj Ha _. split; [|by intros []]. intros Hq. cbn in Ha, Hq.
    assert (view a (scripts db) !! n = Some (entry q)) as Hsome by (apply view_lookup; [done|]; by exists j, q). congruence. }
  pose proof (unique_write i r _ Hu Hf) as Hu'.
  eexists _, _. split; [by apply insert_is|]. fold i r.
  apply changed_steps; try done.
  - apply rows_write; [apply Hok|done|by exists m].
  - intros b. rewrite rows_insert_fresh by done. rewrite (size_view a _ Hu) in Hsize. pose proof (ok_count _ Hok b) as Hb. unfold count in Hb. cbn [account_id r].
    destruct (Z.eqb_spec a b) as [<-|]; lia.
  - by rewrite view_add.
  - intros b Hb. apply view_other; [by rewrite Hi|cbn; congruence|done|done].
Qed.

Lemma change_steps a i n c now m r db :
  db_ok db -> modseqs db !! a = Some m -> scripts db !! i = Some r -> account_id r = a ->
  (forall n', n = Some n' -> validate_sieve_name n' = inl tt /\ n' <> name r /\ view a (scripts db) !! n' = None) ->
  (forall c', c = Some c' -> check_content c' = inl c') ->
  exists script db', (modseq ← change blob_of a i n c now; script ← loaded a i; mret (script, Some modseq)) db = (Ok (script, Some (m + 1)), db') /\
    stepped a m (<[default (name r) n := (default (content r) c, active r)]> (delete (name r) (view a (scripts db)))) db db'.
Proof.
  intros Hok Hm Hi Ha Hn Hc. pose proof (ok_unique _ Hok) as Hu.
  assert (forall n', n = Some n' -> fits i (set_name n' r) (scripts db)) as Hf.
  { intros n' ->. destruct (Hn n' eq_refl) as (_ & _ & Hfree). intros j q Hj Hq Hne. split.
    - intros Hname. cbn in Hname, Hq. assert (view a (scripts db) !! n' = Some (entry q)) by (apply view_lookup; [done|]; exists j, q; naive_solver congruence). congruence.
    - intros [Hqa Hra]. apply Hne. apply (Hu j i q r); [done|done|done|]. by right. }
  set (r' := changed_row blob_of n c now r).
  assert (account_id r' = a /\ name r' = default (name r) n /\ content r' = default (content r) c /\ active r' = active r) as (Ha' & Hn' & Hc' & Hact')
    by (unfold r', changed_row; destruct n, c; done).
  assert (unique_ok (<[i := r']> (scripts db))) as Hu'.
  { apply unique_write; [done|]. intros j q Hj Hq Hne.
    destruct n as [n|].
    - destruct (Hf n eq_refl j q Hj) as [H1 H2]; [cbn; congruence|done|]. rewrite Hn', Hact'. done.
    - destruct (fits_same i r r (scripts db) Hu Hi eq_refl eq_refl eq_refl j q Hj) as [H1 H2]; [congruence|done|]. rewrite Hn', Hact'. done. }
  pose proof (ok_rows _ Hok i r Hi) as [(Hr1 & Hr2 & Hr3) Hacc].
  assert (row_ok r') as Hrow.
  { split; [|split].
    + rewrite Hn'. destruct n as [n|]; [by apply Hn|done].
    + rewrite Hc'. destruct c as [c|]; [by apply Hc|done].
    + unfold r', changed_row. destruct n, c; done. }
  unfold mbind, M_bind. rewrite (change_is blob_of a i n c now m r) by done. fold r'. clearbody r'.
  eexists _, _. split.
  { unfold loaded, load, mbind, M_bind, get. cbn. rewrite lookup_insert_eq. cbn. rewrite Ha', Z.eqb_refl. reflexivity. }
  apply changed_steps; try done.
  - apply rows_write; [apply Hok|done|by rewrite Ha', Hm].
  - intros b. rewrite (rows_update b i r r') by congruence. apply (ok_count _ Hok b).
  - rewrite (view_change a i r r') by done. unfold entry. by rewrite Hn', Hc', Hact'.
  - intros b Hb. apply view_other; [naive_solver congruence|congruence|done|done].
Qed.

Lemma destroy_steps a i m r db :
  db_ok db -> modseqs db !! a = Some m -> scripts db !! i = Some r -> account_id r = a -> active r = false ->
  exists db', destroy_sieve_script a i db = (Ok (tt, Some (m + 1)), db') /\ stepped a m (delete (name r) (view a (scripts db))) db db'.
Proof.
  intros Hok Hm Hi Ha Hact. pose proof (ok_unique _ Hok) as Hu. exists (changed a m i Destroyed (delete i (scripts db)) db). split.
  - unfold destroy_sieve_script, write_sieve, mbind, M_bind, get. unfold load at 1. rewrite Hi. cbn. rewrite (proj2 (Z.eqb_eq _ _) Ha). cbn. rewrite Hact.
    by rewrite (next_modseq_is a m).
  - apply changed_steps; try done.
    + intros j q Hj. apply lookup_delete_Some in Hj as [_ Hj]. by apply (ok_rows _ Hok j).
    + by apply unique_delete.
    + intros b. pose proof (ok_count _ Hok b) as Hb. unfold count in Hb. rewrite (rows_delete b i r) in Hb by done. lia.
    + by apply view_delete.
    + intros b Hb. apply view_ext; [by apply unique_delete|]. intros n x. rewrite view_lookup by done.
      split; intros (j & q & Hj & Hqa & Hn & Hx); exists j, q; (split; [|done]); [rewrite lookup_delete_ne; [done|]; intros <-; congruence|].
      by apply lookup_delete_Some in Hj as [_ Hj].
Qed.

(** Only [target] is active. *)
Definition switched (target : option (list byte)) (v : View) : View :=
  map_imap (fun n e => Some (e.1, bool_decide (target = Some n))) v.

Lemma set_active_id r : set_active (active r) r = r.
Proof. by destruct r. Qed.

Lemma switch_lookup a i db j :
  unique_ok (scripts db) -> (forall k, i = Some k -> exists r, scripts db !! k = Some r /\ account_id r = a) ->
  switch_row true i (switch_row false (active_id a db) (scripts db)) !! j =
    (fun q => if account_id q =? a then set_active (bool_decide (i = Some j)) q else q) <$> scripts db !! j.
Proof.
  intros Hu Hi.
  assert (switch_row false (active_id a db) (scripts db) !! j = (fun q => if account_id q =? a then set_active false q else q) <$> scripts db !! j) as Hoff.
  { destruct (active_id a db) as [k|] eqn:E; cbn [switch_row].
    - pose proof (proj1 (active_id_spec a db k Hu) E) as (r & Hk & Ha & Hact). destruct (decide (j = k)) as [->|Hne].
      + rewrite lookup_alter_eq, Hk. cbn. by rewrite Ha, Z.eqb_refl.
      + rewrite lookup_alter_ne by done. destruct (scripts db !! j) as [q|] eqn:Hj; [|done]. cbn. f_equal. destruct (Z.eqb_spec (account_id q) a); [|done].
        replace false with (active q); [by rewrite set_active_id|]. apply not_true_is_false. intros Hq. apply Hne. apply (Hu j k q r Hj Hk); [congruence|by right].
    - destruct (scripts db !! j) as [q|] eqn:Hj; [|done]. cbn. f_equal. destruct (Z.eqb_spec (account_id q) a); [|done].
      rewrite <-(active_id_None a db E j q) by done. by rewrite set_active_id. }
  destruct i as [k|]; cbn [switch_row].
  - destruct (Hi k eq_refl) as (r & Hk & Ha). destruct (decide (j = k)) as [->|Hne].
    + rewrite lookup_alter_eq, Hoff, Hk. cbn. rewrite Ha, Z.eqb_refl, bool_decide_true by done. done.
    + rewrite lookup_alter_ne, Hoff by done. by rewrite bool_decide_false by congruence.
  - by rewrite Hoff, bool_decide_false.
Qed.

Lemma rows_alter b a i t : length (rows_of a (alter (set_active b) i t)) = length (rows_of a t).
Proof.
  destruct (t !! i) as [r|] eqn:Hi; [rewrite (alter_is b i r) by done; by apply (rows_update a i r)|].
  replace (alter (set_active b) i t) with t; [done|]. apply map_eq. intros j.
  destruct (decide (j = i)) as [->|]; [by rewrite lookup_alter_eq, Hi | by rewrite lookup_alter_ne].
Qed.

Lemma activate_steps a i m db :
  db_ok db -> modseqs db !! a = Some m -> (forall k, i = Some k -> exists r, scripts db !! k = Some r /\ account_id r = a) ->
  active_id a db <> i ->
  exists db', activate a i db = (Ok ({| deactivated := active_id a db; activated := i |}, Some (m + 1)), db') /\
    stepped a m (switched (k ← i; name <$> scripts db !! k) (view a (scripts db))) db db'.
Proof.
  intros Hok Hm Hi Hne. pose proof (ok_unique _ Hok) as Hu. exists (activated_db a m (active_id a db) i db).
  split; [by apply activate_is|]. set (t := switch_row true i (switch_row false (active_id a db) (scripts db))).
  assert (forall j q, t !! j = Some q -> exists r, scripts db !! j = Some r /\ q = if account_id r =? a then set_active (bool_decide (i = Some j)) r else r) as Ht.
  { intros j q Hj. unfold t in Hj. rewrite switch_lookup in Hj by done. apply fmap_Some in Hj as (r & Hj & ->). by exists r. }
  assert (unique_ok t) as Hu'.
  { intros j k q p Hj Hk Ha Hs. apply Ht in Hj as (r & Hj & ->), Hk as (s & Hk & ->).
    assert (account_id r = account_id s) as Hrs by (repeat case_match; done).
    destruct Hs as [Hs|[Hr Hs]]; [apply (Hu j k r s); [done..|left; repeat case_match; done]|].
    rewrite Hrs in Hr. destruct (account_id s =? a); [|by apply (Hu j k r s); [..|right]].
    cbn in Hr, Hs. apply bool_decide_eq_true in Hr, Hs. congruence. }
  assert (forall j, t !! j = (fun q => if account_id q =? a then set_active (bool_decide (i = Some j)) q else q) <$> scripts db !! j) as Hlook
    by (intros j; by apply switch_lookup).
  assert (forall j r n, scripts db !! j = Some r -> account_id r = a -> name r = n ->
    bool_decide ((k ← i; name <$> scripts db !! k) = Some n) = bool_decide (i = Some j)) as Htarget.
  { intros j r n Hj Ha Hn. apply bool_decide_ext. split; [|by intros ->; cbn; rewrite Hj; cbn; congruence].
    intros (k & -> & (s & Hk & Hs)%fmap_Some)%bind_Some. f_equal. destruct (Hi k eq_refl) as (s' & Hk' & Hs').
    apply (Hu k j s r); [done|done|congruence|left; congruence]. }
  split; [|split; [|split; [|done]]].
  - split.
    + apply rows_next. intros j q Hj. apply Ht in Hj as (r & Hj & ->). pose proof (ok_rows _ Hok j r Hj) as [Hr Ha]. by case_match.
    + done.
    + intros b. pose proof (ok_count _ Hok b) as Hb. unfold count in *. cbn [scripts activated_db]. unfold switch_row.
      destruct i, (active_id a db); by rewrite ?rows_alter.
    + cbn [changes modseqs activated_db]. pose proof (entries_next _ _ a m (ok_changes _ Hok) Hm) as He.
      destruct i, (active_id a db); repeat apply entries_logged; try done; apply lookup_insert_eq.
  - cbn [scripts activated_db]. fold t. apply view_ext; [done|]. intros n x. unfold switched. rewrite map_lookup_imap, bind_Some. split.
    + intros ([c act] & (j & r & Hj & Ha & Hn & [= -> ->])%view_lookup & [= <-]); [|done]. exists j, (set_active (bool_decide (i = Some j)) r).
      rewrite Hlook, Hj. cbn. rewrite Ha, Z.eqb_refl. split; [done|]. split; [done|]. split; [done|]. unfold entry. cbn. f_equal.
      by rewrite (Htarget j r).
    + intros (j & q & Hj & Ha & Hn & ->). apply Ht in Hj as (r & Hj & ->).
      assert (account_id r = a) as Hra by (revert Ha; case_match; done). rewrite (proj2 (Z.eqb_eq _ _) Hra) in *. cbn in Hn.
      exists (entry r). split; [apply view_lookup; [done|]; by exists j, r|]. unfold entry. cbn. do 2 f_equal.
      by rewrite (Htarget j r).
  - intros b Hb. cbn [scripts activated_db]. fold t. apply view_ext; [done|]. intros n x. rewrite view_lookup by done.
    split; intros (j & q & Hj & Ha & Hn & Hx).
    + exists j, q. split; [|done]. rewrite Hlook, Hj. cbn. rewrite (proj2 (Z.eqb_neq _ _)); [done|congruence].
    + apply Ht in Hj as (r & Hj & ->). exists j, r. destruct (Z.eqb_spec (account_id r) a); [cbn in Ha; congruence|done].
Qed.

(** ** The methods *)

Lemma named_in_view a n db : unique_ok (scripts db) -> id_named a n db = None <-> view a (scripts db) !! n = None.
Proof.
  intros Hu. split; intros H.
  - apply view_None; [done|]. by apply id_named_None.
  - apply eq_None_not_Some. intros [i (r & Hi & Ha & Hn)%id_named_spec]; [|done].
    assert (view a (scripts db) !! n = Some (entry r)) by (apply view_lookup; [done|]; by exists i, r). congruence.
Qed.

Lemma count_view a db : unique_ok (scripts db) -> count a db = size (view a (scripts db)).
Proof. intros Hu. by rewrite size_view. Qed.

Lemma write_sieve_is {A} (f : D (A * option Z)) db x db' : f db = (Ok x, db') -> write_sieve f db = (Ok x, db').
Proof. unfold write_sieve. by intros ->. Qed.

Lemma check_content_is c c' : check_content c = inl c' -> c' = c.
Proof. unfold check_content. repeat case_match; try done. intros [= <-]. by apply from_utf8_Some in H1 as [-> _]. Qed.

Lemma put_checked a n c now db :
  validate_sieve_name n = inl tt -> check_content c = inl c ->
  put_sieve_script blob_of new_rowid a n c now db =
    write_sieve (match id_named a n db with
                 | Some i => modseq ← change blob_of a i None (Some c) now; script ← loaded a i; mret ((script, false), Some modseq)
                 | None => if (SIEVE_MAX_SCRIPTS <=? count a db)%nat then throw TooMany
                           else r ← insert blob_of new_rowid a n c now; mret ((r.1, true), Some r.2)
                 end) db.
Proof. intros Hn Hc. unfold put_sieve_script, try_. by rewrite Hn, Hc. Qed.

(** PUTSCRIPT: the script by that name gets the content, or there is a new one. *)
Lemma put_is a n c now m db :
  db_ok db -> modseqs db !! a = Some m -> validate_sieve_name n = inl tt -> check_content c = inl c ->
  let put := put_sieve_script blob_of new_rowid a n c now db in
  match view a (scripts db) !! n with
  | Some (_, act) => exists script db', put = (Ok (script, false, Some (m + 1)), db') /\ stepped a m (<[n := (c, act)]> (view a (scripts db))) db db'
  | None =>
      if decide (SIEVE_MAX_SCRIPTS <= size (view a (scripts db)))%nat then put = (Err TooMany, db)
      else exists script db', put = (Ok (script, true, Some (m + 1)), db') /\ stepped a m (<[n := (c, false)]> (view a (scripts db))) db db'
  end.
Proof.
  intros Hok Hm Hn Hc. cbn zeta. pose proof (ok_unique _ Hok) as Hu. rewrite put_checked by done.
  destruct (view a (scripts db) !! n) as [[c0 act]|] eqn:Hv.
  - apply view_lookup in Hv as (i & r & Hi & Ha & Hname & [= -> ->]); [|done].
    assert (id_named a n db = Some i) as -> by (apply id_named_spec; [done|]; by exists r).
    destruct (change_steps a i None (Some c) now m r db) as (script & db' & Hch & Hst); [done..|by intros ? [= <-]|].
    exists script, db'. cbn [default from_option id] in Hst. rewrite insert_delete_eq, Hname in Hst. split; [|done].
    apply write_sieve_is. revert Hch. unfold mbind, M_bind. destruct (change _ _ _ _ _ _ _) as [[] ?]; try done.
    by destruct (loaded _ _ _) as [[] ?]; try done; intros [= -> -> ->].
  - rewrite (proj2 (named_in_view a n db Hu) Hv), count_view by done. case_decide as Hsize.
    + by rewrite (proj2 (Nat.leb_le _ _) Hsize).
    + rewrite (proj2 (Nat.leb_gt _ _)) by lia. destruct (insert_steps a n c now m db) as (script & db' & Hins & Hst); [done..|lia|].
      exists script, db'. split; [|done]. apply write_sieve_is. unfold mbind, M_bind. by rewrite Hins.
Qed.

Lemma rename_checked a i n now r db :
  validate_sieve_name n = inl tt -> scripts db !! i = Some r -> account_id r = a ->
  update_sieve_script blob_of a i (Some n) None now db =
    write_sieve (if decide (n = name r) then mret (script_of i r, None)
                 else match id_named a n db with
                      | Some existing => throw (AlreadyExists existing)
                      | None => modseq ← change blob_of a i (Some n) None now; script ← loaded a i; mret (script, Some modseq)
                      end) db.
Proof.
  intros Hn Hi Ha. unfold update_sieve_script, try_. rewrite Hn.
  assert (load a i db = Some (script_of i r)) as Hload by (unfold load; rewrite Hi; cbn; by rewrite Ha, Z.eqb_refl).
  unfold write_sieve, mbind, M_bind, get. cbn [mret M_ret]. rewrite Hload. cbn [script_name script_of].
  case_decide; [by rewrite bool_decide_true|]. rewrite bool_decide_false by done.
  unfold mbind, option_bind. by destruct (id_named a n db).
Qed.

(** RENAMESCRIPT, of a script that is there. *)
Lemma rename_is a i n now m r db :
  db_ok db -> modseqs db !! a = Some m -> scripts db !! i = Some r -> account_id r = a -> validate_sieve_name n = inl tt ->
  let rename := update_sieve_script blob_of a i (Some n) None now db in
  let v := view a (scripts db) in
  if decide (n = name r) then rename = (Ok (script_of i r, None), db)
  else match v !! n with
       | Some _ => exists existing, rename = (Err (AlreadyExists existing), db)
       | None => exists script db', rename = (Ok (script, Some (m + 1)), db') /\ stepped a m (<[n := entry r]> (delete (name r) v)) db db'
       end.
Proof.
  intros Hok Hm Hi Ha Hn. cbn zeta. pose proof (ok_unique _ Hok) as Hu. rewrite (rename_checked a i n now r) by done.
  case_decide as Hsame; [done|]. destruct (view a (scripts db) !! n) as [x|] eqn:Hv.
  - destruct (id_named a n db) as [existing|] eqn:Hid; [by eexists|]. apply named_in_view in Hid; [congruence|done].
  - rewrite (proj2 (named_in_view a n db Hu) Hv).
    destruct (change_steps a i (Some n) None now m r db) as (script & db' & Hch & Hst); [done..|by intros ? [= <-]|done|].
    exists script, db'. split; [|done]. by apply write_sieve_is.
Qed.

Lemma load_row a i r db : scripts db !! i = Some r -> account_id r = a -> load a i db = Some (script_of i r).
Proof. intros Hi Ha. unfold load. rewrite Hi. cbn. by rewrite Ha, Z.eqb_refl. Qed.

Lemma load_Some a i db x : load a i db = Some x -> exists r, scripts db !! i = Some r /\ account_id r = a /\ x = script_of i r.
Proof.
  unfold load. intros (r & Hi & Hr)%bind_Some. exists r. destruct (Z.eqb_spec (account_id r) a); [|done]. by injection Hr as <-.
Qed.

(** SETACTIVE *)
Lemma activate_call_is a i m db :
  db_ok db -> modseqs db !! a = Some m -> (forall k, i = Some k -> exists r, scripts db !! k = Some r /\ account_id r = a) ->
  let call := activate_sieve_script a i db in
  if decide (active_id a db = i) then call = (Ok ({| deactivated := None; activated := None |}, None), db)
  else exists x db', call = (Ok (x, Some (m + 1)), db') /\ stepped a m (switched (k ← i; name <$> scripts db !! k) (view a (scripts db))) db db'.
Proof.
  intros Hok Hm Hi. cbn zeta. unfold activate_sieve_script.
  assert (match i with Some i => negb (bool_decide (is_Some (load a i db))) | None => false end = false) as Hthere.
  { destruct i as [k|]; [|done]. destruct (Hi k eq_refl) as (r & Hk & Ha). rewrite (load_row a k r) by done. by rewrite bool_decide_true. }
  unfold write_sieve, mbind at 1 2, M_bind at 1 2, get. rewrite Hthere. case_decide as Hcur.
  - unfold activate, mbind at 1, M_bind at 1, get. by rewrite bool_decide_true.
  - destruct (activate_steps a i m db) as (db' & Hact & Hst); [done..|]. exists {| deactivated := active_id a db; activated := i |}, db'.
    rewrite Hact. by split.
Qed.

Lemma activate_nobody a k db : load a k db = None -> activate_sieve_script a (Some k) db = (Err NoScript, db).
Proof. intros Hk. unfold activate_sieve_script, write_sieve, mbind, M_bind, get. by rewrite Hk, bool_decide_false by (by intros []). Qed.

Lemma destroy_is a i db : 
  match load a i db with
  | None => destroy_sieve_script a i db = (Err NoScript, db)
  | Some script => is_active script = true -> destroy_sieve_script a i db = (Err IsActive, db)
  end.
Proof.
  destruct (load a i db) as [s|] eqn:Hl; [intros Hs|]; unfold destroy_sieve_script, write_sieve, mbind, M_bind, get; rewrite Hl; [by rewrite Hs|done].
Qed.

(** [script-<n>]: one of the first names is free, and may be a name. *)
Lemma script_name_inj k l : 0 <= k <= u32_max -> 0 <= l <= u32_max -> bs "script-" ++ dec k = bs "script-" ++ dec l -> k = l.
Proof.
  intros Hk Hl H%app_inv_head. apply (f_equal (parse_unsigned u32_max)) in H. rewrite !parse_unsigned_dec in H by done. by injection H.
Qed.

Lemma free_name_spec fuel a number db :
  match free_name fuel a number db with
  | Some n => exists k, number <= k < number + Z.of_nat fuel /\ n = bs "script-" ++ dec k /\ id_named a n db = None
  | None => forall k, number <= k < number + Z.of_nat fuel -> is_Some (id_named a (bs "script-" ++ dec k) db)
  end.
Proof.
  revert number. induction fuel as [|fuel IH]; intros number; cbn [free_name]; [intros k; lia|].
  destruct (id_named a _ db) as [i|] eqn:Hid.
  - specialize (IH (number + 1)). destruct (free_name fuel a (number + 1) db) as [n|].
    + destruct IH as (k & Hk & Hn). exists k. split; [lia|done].
    + intros k Hk. destruct (decide (k = number)) as [->|]; [by eexists|]. apply IH. lia.
  - exists number. split; [lia|done].
Qed.

Lemma free_name_there a db : unique_ok (scripts db) -> (count a db < SIEVE_MAX_SCRIPTS)%nat ->
  exists n, free_name (S (count a db)) a 1 db = Some n /\ id_named a n db = None /\ validate_sieve_name n = inl tt.
Proof.
  intros Hu Hc. pose proof (free_name_spec (S (count a db)) a 1 db) as H. destruct (free_name _ _ _ _) as [n|].
  - exists n. destruct H as (k & Hk & -> & Hid). split; [done|]. split; [done|].
    assert (forallb (fun k => match validate_sieve_name (bs "script-" ++ dec k) with inl _ => true | inr _ => false end) (seqZ 1 17) = true) as Hall by (vm_compute; reflexivity).
    rewrite forallb_forall in Hall. unfold SIEVE_MAX_SCRIPTS in Hc. specialize (Hall k). rewrite <-list_elem_of_In, elem_of_seqZ in Hall.
    specialize (Hall ltac:(lia)). destruct (validate_sieve_name _) as [[]|]; done.
  - exfalso. set (names := (fun k => bs "script-" ++ dec k) <$> seqZ 1 (Z.of_nat (S (count a db)))).
    assert (NoDup names) as Hnd.
    { apply NoDup_fmap_2_strong; [|apply NoDup_seqZ]. intros k l Hk%elem_of_seqZ Hl%elem_of_seqZ Hkl. unfold SIEVE_MAX_SCRIPTS in Hc.
      assert (20 <= u32_max) by done. apply script_name_inj; [lia|lia|done]. }
    assert (names ⊆ (map_to_list (view a (scripts db))).*1) as Hsub.
    { intros n (k & -> & Hk%elem_of_seqZ)%list_elem_of_fmap. destruct (H k ltac:(lia)) as [i (r & Hi & Ha & Hn)%id_named_spec]; [|done].
      apply list_elem_of_fmap. exists (bs "script-" ++ dec k, entry r). split; [done|]. apply elem_of_map_to_list, view_lookup; [done|]. by exists i, r. }
    pose proof (submseteq_length _ _ (NoDup_submseteq _ _ Hnd Hsub)) as Hlen.
    unfold names in Hlen. rewrite !length_fmap, length_map_to_list, length_seqZ, <-(count_view a db Hu) in Hlen. lia.
Qed.

(** What every call keeps: well-formed tables, the scripts of others, and all of them when
    it refuses; and it is never SQLite that refuses. *)
Definition kept {A} (a : Z) (db : Db) (r : outcome SieveError A * Db) : Prop :=
  db_ok r.2 /\ (forall b, b <> a -> view b (scripts r.2) = view b (scripts db)) /\
  match r.1 with Ok _ => True | Err (Failed _) => False | Err _ => r.2 = db | Panicked | OutOfFuel => False end.

Lemma kept_refused {A} a db e : db_ok db -> match e with Failed _ => False | _ => True end -> kept a db ((Err e, db) : outcome SieveError A * Db).
Proof. intros Hok He. split; [done|]. split; [done|]. by destruct e. Qed.

Lemma kept_same {A} a db (x : A) : db_ok db -> kept a db ((Ok x, db) : outcome SieveError A * Db).
Proof. done. Qed.

Lemma kept_stepped {A} a m v db db' (x : A) : stepped a m v db db' -> kept a db ((Ok x, db') : outcome SieveError A * Db).
Proof. intros (Hok & _ & Ho & _). done. Qed.

Lemma validate_not_failed n e : validate_sieve_name n = inr e -> match e with Failed _ => False | _ => True end.
Proof. unfold validate_sieve_name. repeat case_match; intros ?; simplify_eq; done. Qed.

Lemma check_not_failed c e : check_content c = inr e -> match e with Failed _ => False | _ => True end.
Proof. unfold check_content. intros H. destruct e; repeat case_match; simplify_eq; done. Qed.

Inductive Call :=
  | Create (n : option (list byte)) (c : list byte)
  | Update (i : Z) (n c : option (list byte))
  | Put (n c : list byte)
  | Destroy (i : Z)
  | Activate (i : option Z).

Definition run_call (a now : Z) (call : Call) : D unit :=
  match call with
  | Create n c => create_sieve_script blob_of new_rowid a n c now;; mret tt
  | Update i n c => update_sieve_script blob_of a i n c now;; mret tt
  | Put n c => put_sieve_script blob_of new_rowid a n c now;; mret tt
  | Destroy i => destroy_sieve_script a i;; mret tt
  | Activate i => activate_sieve_script a i;; mret tt
  end.

Lemma kept_then {A} a db (m : D A) : kept a db (m db) -> kept a db ((m;; mret tt) db).
Proof. unfold mbind, M_bind. by destruct (m db) as [[] ?]. Qed.

Lemma kept_try {A B} a db (r : A + SieveError) (k : A -> D B) :
  db_ok db -> (forall e, r = inr e -> match e with Failed _ => False | _ => True end) ->
  (forall x, r = inl x -> kept a db (k x db)) -> kept a db ((x ← try_ r; k x) db).
Proof. intros Hok He Hk. destruct r as [x|e]; [by apply Hk|]. apply kept_refused; [done|]. by apply He. Qed.

Lemma kept_write {A} a db (f : D (A * option Z)) : kept a db (f db) -> kept a db (write_sieve f db).
Proof.
  unfold write_sieve. destruct (f db) as [[x|e| |] db']; [done| |by intros (_ & _ & [])..].
  intros (Hok & Ho & He). cbn in *. by destruct e.
Qed.

Lemma create_kept a n c now m db : db_ok db -> modseqs db !! a = Some m -> kept a db (create_sieve_script blob_of new_rowid a n c now db).
Proof.
  intros Hok Hm. pose proof (ok_unique _ Hok) as Hu. unfold create_sieve_script.
  assert (forall n, validate_sieve_name n = inl tt -> id_named a n db = None -> forall c, check_content c = inl c -> (count a db < SIEVE_MAX_SCRIPTS)%nat ->
    kept a db ((r ← insert blob_of new_rowid a n c now; mret (r.1, Some r.2)) db)) as Hins.
  { intros n' Hn Hid c' Hc Hcount. rewrite count_view in Hcount by done.
    destruct (insert_steps a n' c' now m db) as (script & db' & Hi & Hst); [done..|by apply named_in_view|done|].
    unfold mbind, M_bind. rewrite Hi. by eapply kept_stepped. }
  assert (forall c', check_content c = inl c' -> check_content c' = inl c') as Hcc by (intros c' Hc; pose proof (check_content_is _ _ Hc) as ->; done).
  destruct n as [n|].
  - apply kept_try; [done|apply validate_not_failed|]. intros [] Hn. apply kept_try; [done|apply check_not_failed|]. intros c' Hc.
    apply kept_write. unfold mbind at 1, M_bind at 1, get. destruct (Nat.leb_spec SIEVE_MAX_SCRIPTS (count a db)); [by apply kept_refused|].
    destruct (id_named a n db) eqn:Hid; [by apply kept_refused|]. by apply Hins; [..|apply Hcc|].
  - match goal with |- kept _ _ ((mret tt ≫= ?k) db) => change (kept a db (k tt db)) end. apply kept_try; [done|apply check_not_failed|]. intros c' Hc.
    apply kept_write. unfold mbind at 1, M_bind at 1, get. destruct (Nat.leb_spec SIEVE_MAX_SCRIPTS (count a db)); [by apply kept_refused|].
    destruct (free_name_there a db) as (n & -> & Hid & Hn); [done..|]. by apply Hins; [..|apply Hcc|].
Qed.

Lemma update_kept a i n c now m db : db_ok db -> modseqs db !! a = Some m -> kept a db (update_sieve_script blob_of a i n c now db).
Proof.
  intros Hok Hm. pose proof (ok_unique _ Hok) as Hu. unfold update_sieve_script.
  set (write := fun c => write_sieve _).
  assert (forall c', (forall n', n = Some n' -> validate_sieve_name n' = inl tt) -> (forall x, c' = Some x -> check_content x = inl x) -> kept a db (write c' db)) as Hwrite.
  { intros c' Hn Hc. apply kept_write. unfold mbind at 1, M_bind at 1, get. destruct (load a i db) as [before|] eqn:Hload; [|by apply kept_refused].
    apply load_Some in Hload as (r & Hi & Ha & ->). cbn [script_name script_of].
    set (n' := match n with Some n => if bool_decide (n = name r) then None else Some n | None => None end).
    destruct (n' ≫= fun n => id_named a n db) eqn:Hid; [by apply kept_refused|].
    destruct (change_steps a i n' c' now m r db) as (script & db' & Hch & Hst); try done.
    - intros x Hx. unfold n' in *. destruct n as [n|]; [|done]. case_bool_decide; [done|]. injection Hx as ->.
      split; [by apply Hn|]. split; [done|]. by apply named_in_view.
    - assert (kept a db ((modseq ← change blob_of a i n' c' now; script ← loaded a i; mret (script, Some modseq)) db)) as Hk by (rewrite Hch; by eapply kept_stepped).
      destruct n', c'; try exact Hk. by apply kept_same. }
  assert ((forall n', n = Some n' -> validate_sieve_name n' = inl tt) -> kept a db ((c ← match c with Some c => c ← try_ (check_content c); mret (Some c) | None => mret None end; write c) db)) as Hc.
  { intros Hn. destruct c as [c|]; [|by apply Hwrite]. unfold mbind at 1, M_bind at 1.
    destruct (check_content c) as [c'|e] eqn:Hc; [|by apply kept_refused; [|eapply check_not_failed]].
    cbn. apply Hwrite; [done|]. intros x [= <-]. pose proof (check_content_is _ _ Hc) as ->. done. }
  destruct n as [n|]; [|by apply Hc]. apply kept_try; [done|apply validate_not_failed|]. intros [] Hn. apply Hc. by intros n' [= <-].
Qed.

(** C37: Whatever is asked of the scripts of an account, by IMAP apps, the portal or JMAP,
    the tables stay well-formed: names are valid and each is there once, no account has
    more than [SIEVE_MAX_SCRIPTS], at most one is active, contents are UTF-8 and within
    their limit with the blob id of what they are, and no change is logged ahead of the
    account's modseq. The checks are all there are: no unique index ever refuses, no row
    is gone, the search for a free name ends; a call that is refused leaves everything as
    it was, and the scripts of other accounts stay as they are. *)
Theorem sieve_store_well_formed a now call db :
  db_ok db -> is_Some (modseqs db !! a) -> kept a db (run_call a now call db).
Proof.
  intros Hok [m Hm]. destruct call as [n c|i n c|n c|i|i]; apply kept_then.
  - by eapply create_kept.
  - by eapply update_kept.
  - destruct (validate_sieve_name n) as [[]|e] eqn:Hn; [destruct (check_content c) as [c'|e] eqn:Hc|].
    + pose proof (check_content_is _ _ Hc) as ->. pose proof (put_is a n c now m db Hok Hm Hn Hc) as H. cbn zeta in H.
      destruct (view a (scripts db) !! n) as [[? ?]|]; [|case_decide].
      * destruct H as (script & db' & -> & Hst). by eapply kept_stepped.
      * rewrite H. by apply kept_refused.
      * destruct H as (script & db' & -> & Hst). by eapply kept_stepped.
    + unfold put_sieve_script, try_. rewrite Hn, Hc. apply kept_refused; [done|]. by eapply check_not_failed.
    + unfold put_sieve_script, try_. rewrite Hn. apply kept_refused; [done|]. by eapply validate_not_failed.
  - pose proof (destroy_is a i db) as H. destruct (load a i db) as [s|] eqn:Hload; [|rewrite H; by apply kept_refused].
    apply load_Some in Hload as (r & Hi & Ha & ->). destruct (active r) eqn:Hact; [rewrite H by done; by apply kept_refused|].
    destruct (destroy_steps a i m r db) as (db' & -> & Hst); [done..|]. by eapply kept_stepped.
  - assert ((forall k, i = Some k -> is_Some (load a k db)) \/ exists k, i = Some k /\ load a k db = None) as [Hi|(k & -> & Hk)].
    { destruct i as [k|]; [|by left]. destruct (load a k db) as [x|] eqn:E; [left; intros ? [= <-]; rewrite E; by eexists | right; by exists k]. }
    + pose proof (activate_call_is a i m db Hok Hm) as H. cbn zeta in H.
      assert (forall k, i = Some k -> exists r, scripts db !! k = Some r /\ account_id r = a) as Hrow.
      { intros k Hk. destruct (Hi k Hk) as [x (r & Hr & Ha & _)%load_Some]. by exists r. }
      specialize (H Hrow). case_decide; [rewrite H; by apply kept_same|]. destruct H as (x & db' & -> & Hst). by eapply kept_stepped.
    + rewrite activate_nobody by done. by apply kept_refused.
Qed.

End well_formed.

(** ** Witness *)

Definition no_scripts : Db := {| scripts := ∅; modseqs := {[ 1 := 40 ]}; changes := ∅ |}.

Lemma no_scripts_ok blob_of : db_ok blob_of no_scripts.
Proof.
  split.
  - intros i r H. cbn [scripts changes no_scripts] in H. by rewrite lookup_empty in H.
  - intros i j r q H. cbn [scripts changes no_scripts] in H. by rewrite lookup_empty in H.
  - intros a. unfold count, rows_of. cbn [scripts no_scripts]. rewrite map_to_list_empty. apply Nat.le_0_l.
  - intros a m i c H. cbn [scripts changes no_scripts] in H. by rewrite lookup_empty in H.
Defined.

Lemma sieve_store_well_formed_witness :
  db_ok id (run_call id next_rowid 1 0 (Put (bs "rules") (bs "keep;")) no_scripts).2 /\
  view 1 (scripts (run_call id next_rowid 1 0 (Put (bs "rules") (bs "keep;")) no_scripts).2) = {[ bs "rules" := (bs "keep;", false) ]}.
Proof.
  destruct (sieve_store_well_formed id next_rowid next_rowid_new 1 0 (Put (bs "rules") (bs "keep;")) no_scripts (no_scripts_ok id)) as (H & _).
  - exists 40. reflexivity.
  - split; [exact H | vm_compute; reflexivity].
Defined.

(** A row id is used again: who looked a script up by its name before another connection
    deleted it and stored a new one deletes the new one. *)
Definition stored (n c : list byte) (db : Db) : Db := (run_call id next_rowid 1 0 (Put n c) db).2.

Example deletes_another :
  let before := stored (bs "old") (bs "keep;") no_scripts in
  let id_of_old := default 0 (id_named 1 (bs "old") before) in
  let meanwhile := stored (bs "new") (bs "stop;") (run_call id next_rowid 1 0 (Destroy id_of_old) before).2 in
  view 1 (scripts meanwhile) = {[ bs "new" := (bs "stop;", false) ]} /\
  view 1 (scripts (run_call id next_rowid 1 0 (Destroy id_of_old) meanwhile).2) = ∅.
Proof. vm_compute. by split. Qed.
