(* ===== verification/ManageSieve.v ===== *)
(** * ManageSieve on the wire (crates\/uwumail-imap\/src\/managesieve.rs)

    Strings as the server writes them ([string_]), the tokens of a line ([tokenize]) and
    reading a command with its literals ([read_command]). What a client sends until it
    hangs up is a list of bytes. *)

From S2P Require Import Prelude Effects Utf8 SieveStore.

Module Sieve.

Definition MAX_LINE : Z := 8 * 1024.
Definition MAX_LITERAL_BEFORE_LOGIN : Z := 4 * 1024.
Definition MAX_LITERALS_AFTER_LOGIN : Z := SIEVE_MAX_SCRIPT_SIZE + MAX_LITERAL_BEFORE_LOGIN.
Definition MAX_LITERAL_DISCARD : Z := 1024 * 1024.
Definition MAX_COMMAND_LINES : Z := 8.

Definition len (s : list byte) : Z := Z.of_nat (length s).
Definition CRLF : list byte := [x0d; x0a].

(** ** Strings *)

Definition quoted_text (value : list byte) : list byte :=
  [x22] ++ replace [x22] (bs "\" ++ [x22]) (replace (bs "\") (bs "\\") value) ++ [x22].

Definition literal_text (value : list byte) : list byte := bs "{" ++ dec (len value) ++ bs "}" ++ CRLF ++ value.

Definition may_quote (value : list byte) : bool :=
  (len value <=? 1024) && negb (existsb (fun b => bool_decide (b ∈ [x0d; x0a; x00])) value).

(** [string]: quoted when it can be, a literal otherwise. *)
Definition string_ (value : list byte) : list byte := if may_quote value then quoted_text value else literal_text value.

Definition ok (text : list byte) : list byte := bs "OK " ++ string_ text ++ CRLF.

Definition no (code : option (list byte)) (text : list byte) : list byte :=
  match code with
  | Some code => bs "NO (" ++ code ++ bs ") " ++ string_ text ++ CRLF
  | None => bs "NO " ++ string_ text ++ CRLF
  end.

(** ** Tokens *)

Inductive Arg := Atom (text : list byte) | Text (bytes : list byte).

Definition text (a : Arg) : option (list byte) := match a with Text bytes => Some bytes | Atom _ => None end.
Definition utf8 (a : Arg) : option (list byte) := bytes ← text a; from_utf8 bytes.

(** The rest of a quoted string, and what follows it. *)
Fixpoint quoted (value s : list byte) : (list byte * list byte) + list byte :=
  match s with
  | [] => inr (bs "Unterminated string")
  | b :: s =>
      if decide (b = x22) then inl (value, s)
      else if decide (b = "\"%byte) then
        match s with
        | [] => inr (bs "Unterminated string")
        | c :: s => quoted (value ++ [c]) s
        end
      else quoted (value ++ [b]) s
  end.

Definition ends_atom (b : byte) : bool := bool_decide (b ∈ [x20; x09; x22; "{"%byte; "("%byte; ")"%byte]).

Fixpoint atom (s : list byte) : list byte * list byte :=
  match s with
  | b :: s' => if ends_atom b then ([], s) else let '(a, r) := atom s' in (b :: a, r)
  | [] => ([], [])
  end.

(** The size a literal announces, from its brace to the end of the line. *)
Definition literal_size (s : list byte) : Z + list byte :=
  match Prelude.position (fun b => bool_decide (b = "}"%byte)) s with
  | None => inr (bs "Bad literal")
  | Some en =>
      if negb (S en =? length s)%nat then inr (bs "A literal must end the line")
      else
        let inner := slice s 1 en in
        let digits := default inner (strip_suffix (bs "+") inner) in
        if bool_decide (digits = []) || (10 <? length digits)%nat || negb (forallb is_ascii_digit digits) then inr (bs "Bad literal")
        else match parse_unsigned u64_max digits with Some size => inl size | None => inr (bs "Bad literal") end
  end.

(** What is left of the line from the position on; every turn takes a byte. *)
Fixpoint tokens (fuel : nat) (s : list byte) (args : list Arg) : outcome (list byte) (list Arg * option Z) :=
  match fuel with
  | O => OutOfFuel
  | S fuel =>
      match s with
      | [] => Ok (args, None)
      | b :: rest =>
          if decide (b = x20 \/ b = x09) then tokens fuel rest args
          else if decide (b = x22) then
            match quoted [] rest with
            | inl (value, rest) => tokens fuel rest (args ++ [Text value])
            | inr err => Err err
            end
          else if decide (b = "{"%byte) then
            match literal_size s with inl size => Ok (args, Some size) | inr err => Err err end
          else
            let '(a, rest) := atom s in
            if bool_decide (a = []) then Err (bs "Unexpected character")
            else tokens fuel rest (args ++ [Atom (from_utf8_lossy a)])
      end
  end.

Definition tokenize (line : list byte) (args : list Arg) : outcome (list byte) (list Arg * option Z) := tokens (S (length line)) line args.

Example tokens_of_a_command :
  tokenize (bs "Putscript " ++ quoted_text (bs "my \best" ++ [x22]) ++ bs " {31+}") []
  = Ok ([Atom (bs "Putscript"); Text (bs "my \best" ++ [x22])], Some 31).
Proof. vm_compute. reflexivity. Qed.

(** ** Reading a command *)

Inductive Read := Command (args : list Arg) | TooBig | Closed | Invalid (message : list byte) | UnexpectedEof.

(** A line without its break, empty when the connection ended in it, none when it is too
    long; with it what is left. *)
Definition read_line (input : list byte) : option (list byte) * list byte :=
  let window := take (Z.to_nat (MAX_LINE + 1)) input in
  let line := match Prelude.position (fun b => bool_decide (b = x0a)) window with Some i => take (S i) window | None => window end in
  let rest := drop (length line) input in
  if MAX_LINE <? len line then (None, rest)
  else
    match strip_suffix [x0a] line with
    | None => (Some [], rest)
    | Some line => (Some (default line (strip_suffix [x0d] line)), rest)
    end.

Definition limits (logged_in : bool) : Z * Z :=
  if logged_in then (SIEVE_MAX_SCRIPT_SIZE, MAX_LITERALS_AFTER_LOGIN) else (MAX_LITERAL_BEFORE_LOGIN, MAX_LITERAL_BEFORE_LOGIN).

(** What one command has so far: its arguments, whether a literal was dropped, the bytes
    of literals kept and read, its lines. *)
Record Reading := { args : list Arg; too_big : bool; kept : Z; read : Z; lines : Z }.

Definition reading_start : Reading := {| args := []; too_big := false; kept := 0; read := 0; lines := 0 |}.

(** The loop of [read_command]: a turn that goes on took a byte. *)
Fixpoint read_loop (fuel : nat) (logged_in : bool) (input : list byte) (r : Reading) : outcome Empty_set Read * list byte :=
  match fuel with
  | O => (OutOfFuel, input)
  | S fuel =>
      match read_line input with
      | (None, rest) => (Ok (Invalid (bs "Line too long")), rest)
      | (Some line, rest) =>
          if bool_decide (line = []) && bool_decide (args r = []) then
            if bool_decide (rest = []) then (Ok Closed, rest) else read_loop fuel logged_in rest r
          else if MAX_COMMAND_LINES <? lines r + 1 then (Ok (Invalid (bs "Too many literals in one command")), rest)
          else
            match tokenize line (args r) with
            | Err err => (Ok (Invalid err), rest)
            | Ok (args, None) => (Ok (if too_big r then TooBig else Command args), rest)
            | Ok (args, Some size) =>
                let '(limit, keep) := limits logged_in in
                let read := Z.min u64_max (read r + size) in
                if (limit <? size) || (keep <? kept r + size) then
                  if negb logged_in || (MAX_LITERAL_DISCARD <? read) then (Ok (Invalid (bs "Literal too big")), rest)
                  else read_loop fuel logged_in (drop (Z.to_nat size) rest)
                         {| args := args ++ [Text []]; too_big := true; kept := kept r; read := read; lines := lines r + 1 |}
                else if len rest <? size then (Ok UnexpectedEof, [])
                else read_loop fuel logged_in (drop (Z.to_nat size) rest)
                       {| args := args ++ [Text (take (Z.to_nat size) rest)]; too_big := too_big r; kept := kept r + size; read := read; lines := lines r + 1 |}
            | Panicked => (Panicked, rest)
            | OutOfFuel => (OutOfFuel, rest)
            end
      end
  end.

Definition read_command (logged_in : bool) (input : list byte) : outcome Empty_set Read * list byte :=
  read_loop (S (length input)) logged_in input reading_start.

(** A command cut off by the end of the connection behind a literal is run. *)
Example cut_off_is_run :
  read_command true (bs "DELETESCRIPT {5+}" ++ CRLF ++ bs "rules")
  = (Ok (Command [Atom (bs "DELETESCRIPT"); Text (bs "rules")]), []).
Proof. vm_compute. reflexivity. Qed.

(** ** Reading ends, and how much it holds *)

Lemma quoted_length value s v rest : quoted value s = inl (v, rest) ->
  (length rest < length s)%nat /\ (length v + length rest < length value + length s)%nat.
Proof.
  revert value. assert (forall n, (length s <= n)%nat -> forall value, quoted value s = inl (v, rest) ->
    (length rest < length s)%nat /\ (length v + length rest < length value + length s)%nat) as H; [|by apply (H (length s))].
  intros n. revert s. induction n as [|n IH]; intros [|b s] Hn value; cbn [quoted length] in *; try done; try lia.
  destruct (decide (b = x22)); [intros [= -> ->]; lia|]. destruct (decide (b = "\"%byte)).
  - destruct s as [|c s]; [done|]. intros H. cbn [length] in *. apply IH in H; [|lia]. rewrite length_app in H. simpl in H. lia.
  - intros H. apply IH in H; [|lia]. rewrite length_app in H. simpl in H. lia.
Qed.

Lemma atom_app s : s = (atom s).1 ++ (atom s).2.
Proof. induction s as [|b s IH]; [done|]. cbn [atom]. destruct (ends_atom b); [done|]. destruct (atom s). cbn in *. by f_equal. Qed.

Lemma literal_size_pos s n : literal_size s = inl n -> 0 <= n.
Proof.
  unfold literal_size. intros H. repeat case_match; simplify_eq.
  by match goal with Hs : parse_unsigned _ _ = Some n |- _ => apply parse_unsigned_bound in Hs; [lia|] end.
Qed.

(** Bytes the arguments hold. *)
Definition arg_size (a : Arg) : Z := match a with Atom t | Text t => len t end.
Definition size_of (args : list Arg) : Z := foldr (fun a n => arg_size a + n) 0 args.

Lemma size_of_app l m : size_of (l ++ m) = size_of l + size_of m.
Proof. unfold size_of. induction l as [|a l IH]; cbn; lia. Qed.

(** What tokens take: an atom may grow where it is not UTF-8. *)
Lemma tokens_ok fuel s args : (length s < fuel)%nat ->
  match tokens fuel s args with
  | Ok (args', o) => size_of args' <= size_of args + 3 * len s /\ (forall n, o = Some n -> 0 <= n)
  | Err _ => True
  | Panicked | OutOfFuel => False
  end.
Proof.
  unfold len. revert s args. induction fuel as [|fuel IH]; intros [|b rest] args Hf; cbn [tokens length] in *; try lia.
  { split; [lia|done]. }
  destruct (decide (b = x20 \/ b = x09)).
  { specialize (IH rest args ltac:(lia)). destruct (tokens _ _ _) as [[]| | |]; try done. split; [lia|apply IH]. }
  destruct (decide (b = x22)).
  { destruct (quoted [] rest) as [[v r]|] eqn:Hq; [|done]. apply quoted_length in Hq. cbn in Hq.
    specialize (IH r (args ++ [Text v]) ltac:(lia)). destruct (tokens _ _ _) as [[]| | |]; try done.
    destruct IH as [IH ?]. rewrite size_of_app in IH. cbn in IH. unfold len in IH. split; [lia|done]. }
  destruct (decide (b = "{"%byte)).
  { destruct (literal_size (b :: rest)) as [size|] eqn:Hn; [|done]. split; [lia|]. intros m [= <-]. by apply (literal_size_pos (b :: rest)). }
  pose proof (atom_app (b :: rest)) as Ha. destruct (atom (b :: rest)) as [a r]. cbn [fst snd] in Ha.
  case_bool_decide as Hne; [done|]. apply (f_equal length) in Ha. rewrite length_app in Ha. cbn [length] in Ha.
  assert (0 < length a)%nat by (destruct a; [done|simpl; lia]).
  specialize (IH r (args ++ [Atom (from_utf8_lossy a)]) ltac:(lia)). destruct (tokens _ _ _) as [[]| | |]; try done.
  destruct IH as [IH ?]. rewrite size_of_app in IH. cbn in IH. unfold len in IH. pose proof (lossy_length a). split; [lia|done].
Qed.

Lemma read_line_ok input : exists k, (read_line input).2 = drop k input /\ (input <> [] -> (0 < k)%nat)
  /\ forall line, (read_line input).1 = Some line -> len line <= MAX_LINE.
Proof.
  unfold read_line. set (window := take _ input). set (line := match Prelude.position _ window with Some i => _ | None => _ end).
  exists (length line). split; [by repeat case_match|]. split.
  - intros Hi. assert (length window <> 0)%nat as Hw by (unfold window; rewrite length_take; destruct input; [done|simpl; lia]).
    unfold line. destruct (Prelude.position _ window); [rewrite length_take|]; lia.
  - assert (forall suffix l l', strip_suffix suffix l = Some l' -> len l' <= len l) as Hs.
    { intros suffix l l' ->%strip_suffix_Some. unfold len. rewrite length_app. lia. }
    destruct (Z.ltb_spec MAX_LINE (len line)); [done|]. destruct (strip_suffix [x0a] line) as [l|] eqn:E; cbn; intros ? [= <-]; [|done].
    apply Hs in E. destruct (strip_suffix [x0d] l) as [l'|] eqn:E'; cbn; [apply Hs in E'|]; lia.
Qed.

(** The limit on the literals of a command. *)
Definition keep (logged_in : bool) : Z := (limits logged_in).2.

Definition holds (logged_in : bool) (r : Reading) : Prop :=
  0 <= lines r <= MAX_COMMAND_LINES /\ 0 <= kept r <= keep logged_in /\ size_of (args r) <= 3 * MAX_LINE * lines r + kept r.

Definition read_ok (logged_in : bool) (input : list byte) (out : outcome Empty_set Read * list byte) : Prop :=
  exists read rest taken, out = (Ok read, rest) /\ input = taken ++ rest /\ (input <> [] -> taken <> []) /\
    forall args, read = Command args -> size_of args <= keep logged_in + 3 * MAX_LINE * MAX_COMMAND_LINES.

Lemma take_some k (input : list byte) : (input <> [] -> (0 < k)%nat) -> input <> [] -> take k input <> [].
Proof. intros Hk Hi. specialize (Hk Hi). destruct k; [lia|]. by destruct input. Qed.

Lemma read_ok_ends logged_in input rest k x : rest = drop k input -> (input <> [] -> (0 < k)%nat) -> (forall args, x <> Command args) -> read_ok logged_in input (Ok x, rest).
Proof.
  intros -> Hk Hx. exists x, (drop k input), (take k input). split; [done|]. split; [by rewrite take_drop|].
  split; [by apply take_some|]. intros args ->. by destruct (Hx args).
Qed.

Lemma read_ok_drop logged_in input k j out : (input <> [] -> (0 < k)%nat) -> read_ok logged_in (drop j (drop k input)) out -> read_ok logged_in input out.
Proof.
  intros Hk (x & rest & taken & -> & Hd & _ & Hs). exists x, rest, (take (k + j) input ++ taken). split; [done|]. split.
  { rewrite <-app_assoc, <-Hd, drop_drop, take_drop. done. }
  split; [|done]. intros Hi [Ht _]%app_eq_nil. revert Ht. apply take_some; [|done]. intros ?. specialize (Hk Hi). lia.
Qed.

Local Ltac next_holds :=
  unfold holds, keep; cbn [args kept lines]; rewrite size_of_app; cbn [size_of foldr arg_size];
  match goal with H : limits _ = _ |- _ => rewrite H end; cbn [snd];
  unfold MAX_LINE, MAX_COMMAND_LINES, len in *; rewrite ?length_take; cbn [length]; lia.

Lemma read_loop_bounded fuel logged_in input r : (length input < fuel)%nat -> holds logged_in r -> read_ok logged_in input (read_loop fuel logged_in input r).
Proof.
  revert input r. induction fuel as [|fuel IH]; intros input r Hf Hr; [lia|]. cbn [read_loop].
  pose proof (read_line_ok input) as (k & Hrest & Hk & Hline). destruct (read_line input) as [[line|] rest] eqn:Hsplit; cbn [fst snd] in *;
    [|by eapply read_ok_ends]. specialize (Hline line eq_refl).
  assert (input <> [] -> length rest < length input)%nat as Hless.
  { intros Hi. specialize (Hk Hi). rewrite Hrest, length_drop. destruct input; [done|]. simpl. lia. }
  assert (forall j, length (drop j rest) <= length rest)%nat as Hdrop by (intros j; rewrite length_drop; lia).
  destruct (bool_decide (line = []) && bool_decide (args r = [])) eqn:Hempty.
  { destruct (decide (rest = [])) as [He|He]; [rewrite bool_decide_true by done; by eapply read_ok_ends|].
    rewrite bool_decide_false by done. apply (read_ok_drop _ _ k 0); [done|]. rewrite drop_0, <-Hrest. apply IH; [|done].
    assert (input <> []) as Hi by (intros ->; by rewrite drop_nil in Hrest). specialize (Hless Hi). lia. }
  destruct (Z.ltb_spec MAX_COMMAND_LINES (lines r + 1)); [by eapply read_ok_ends|].
  pose proof (tokens_ok (S (length line)) line (args r) ltac:(lia)) as Ht. fold (tokenize line (args r)) in Ht.
  destruct Hr as (Hl & Hkept & Hsize).
  assert (line <> [] -> input <> []) as Hi by (intros Hne ->; injection Hsplit; congruence).
  destruct (tokenize line (args r)) as [[args' [size|]]|err| |] eqn:Htok; try done; [| |by eapply read_ok_ends].
  - destruct Ht as [Ht Hsz]. specialize (Hsz size eq_refl).
    specialize (Hless (Hi ltac:(intros Hnil; rewrite Hnil in Htok; discriminate Htok))).
    assert (forall j r', holds logged_in r' -> read_ok logged_in input (read_loop fuel logged_in (drop j rest) r')) as Hnext.
    { intros j r' Hr'. apply (read_ok_drop _ _ k j); [done|]. rewrite <-Hrest. apply IH; [specialize (Hdrop j); lia | done]. }
    unfold keep in Hkept, Hnext, IH |- *. destruct (limits logged_in) as [limit kp] eqn:Hlim; cbn [snd] in *. unfold keep in *. rewrite ?Hlim in *. cbn [snd] in *.
    destruct ((limit <? size) || (kp <? kept r + size)) eqn:Hbig.
    + destruct (negb logged_in || _); [by eapply read_ok_ends|]. apply Hnext. next_holds.
    + destruct (Z.ltb_spec (len rest) size).
      { exists UnexpectedEof, [], input. split; [done|]. by rewrite app_nil_r. }
      apply orb_false_iff in Hbig as [_ Hbig]. apply Hnext. next_holds.
  - destruct Ht as [Ht _]. exists (if too_big r then TooBig else Command args'), rest, (take k input).
    split; [done|]. split; [by rewrite Hrest, take_drop|]. split; [by apply take_some|]. intros x Hx. destruct (too_big r); [done|]. injection Hx as <-. unfold MAX_LINE, MAX_COMMAND_LINES in *. lia.
Qed.

(** Reading a ManageSieve command ends, whatever the client sends, with a command or
    with why there is none, and takes a prefix of what was sent; the arguments of a
    command hold no more than the limit on its literals ([MAX_LITERALS_AFTER_LOGIN], before
    the login [MAX_LITERAL_BEFORE_LOGIN]) and its at most [MAX_COMMAND_LINES] lines of at
    most [MAX_LINE] bytes, three times these where an atom is not UTF-8. *)
Theorem read_command_bounded logged_in input : read_ok logged_in input (read_command logged_in input).
Proof. apply read_loop_bounded; [lia|]. unfold holds, keep, limits. destruct logged_in; by vm_compute. Qed.

(** What is left after a command. *)
Lemma read_command_rest logged_in input : exists x rest, read_command logged_in input = (Ok x, rest) /\ (length rest <= length input)%nat
  /\ match x with Command _ | TooBig => (length rest < length input)%nat | _ => True end.
Proof.
  destruct (read_loop_bounded (S (length input)) logged_in input reading_start ltac:(lia)) as (x & rest & taken & Heq & Hi & Ht & _).
  { unfold holds, keep, limits. destruct logged_in; by vm_compute. }
  exists x, rest. split; [done|]. pose proof (f_equal length Hi) as Hl. rewrite length_app in Hl. split; [lia|].
  destruct (decide (input = [])) as [->|Hne].
  - unfold read_loop in Heq. destruct logged_in; vm_compute in Heq; by injection Heq as <- <-.
  - specialize (Ht Hne). destruct taken; [done|]. cbn in Hl. destruct x; lia || done.
Qed.

End Sieve.
