(* ===== verification/ManageSieveScripts.v ===== *)
(** * The script commands of ManageSieve (crates\/uwumail-imap\/src\/managesieve.rs)

    The handlers of [Scripts] over the store of SieveStore.v, and what they promise: each
    is an operation on a map from names to contents and whether they are active. A handler
    may take two transactions; what other connections do between them is a function on
    the database. The checker of scripts (sieve-rs) is a variable; reads of the database
    do not fail here. *)

From stdpp Require Import sorting.
From S2P Require Import Prelude Effects Utf8 SieveStore SieveStoreSafe ManageSieve.
Import Sieve.

Section scripts.
Context (blob_of : list byte -> list byte) (new_rowid : gmap Z Row -> Z).
(** [uwumail_smtp::sieve::validate]: none, or the problem; and the text of a store error. *)
Context (validate : list byte -> option (list byte)) (failed_text : DbError -> list byte).

Abbreviation C := (M Db Empty_set).

(** A call of the store whose errors are looked at. *)
Definition attempt {A} (m : D A) : C (A + SieveError) := fun db =>
  match m db with
  | (Ok a, db') => (Ok (inl a), db')
  | (Err e, db') => (Ok (inr e), db')
  | (Panicked, db') => (Panicked, db')
  | (OutOfFuel, db') => (OutOfFuel, db')
  end.

Definition message_of (e : SieveError) : list byte :=
  match e with
  | AlreadyExists _ => bs "a script with this name exists already"
  | TooMany => bs "at most 16 scripts"
  | TooLarge => bs "a script may have at most 65536 bytes"
  | InvalidName problem | InvalidContent problem => problem
  | NoScript => bs "no such script"
  | IsActive => bs "the script is active"
  | Failed e => failed_text e
  end.

Definition store_error (e : SieveError) : list byte :=
  match e with
  | AlreadyExists _ => no (Some (bs "ALREADYEXISTS")) (bs "A script with that name exists already")
  | TooMany => no (Some (bs "QUOTA/MAXSCRIPTS")) (bs "At most 16 scripts")
  | TooLarge => no (Some (bs "QUOTA/MAXSIZE")) (bs "That is more than a script may have")
  | InvalidName problem | InvalidContent problem => no None problem
  | NoScript => no (Some (bs "NONEXISTENT")) (bs "There is no script by that name")
  | IsActive => no (Some (bs "ACTIVE")) (bs "Switch the script off before deleting it")
  | Failed _ => no (Some (bs "TRYLATER")) (bs "Something went wrong, please try again")
  end.

(** [Scripts::name]: the name, or the answer. *)
Definition name_at (params : list Arg) (index : nat) : list byte + list byte :=
  match params !! index ≫= utf8 with
  | None => inr (no None (bs "Expected a script name"))
  | Some name => match validate_sieve_name name with inl _ => inl name | inr e => inr (no None (message_of e)) end
  end.

Definition nonexistent : list byte := no (Some (bs "NONEXISTENT")) (bs "There is no script by that name").

Section account.
Context (between : Db -> Db) (account now : Z).

(** The two reads of [sieve_script_named], and [Scripts::id_named] that keeps the id. *)
Definition find_named (name : list byte) : C (option (SieveScript * list byte)) :=
  db ← get; modify between;; mret (sieve_script_named between account name db).

Definition script_id_named (name : list byte) : C (option Z) :=
  found ← find_named name; mret ((fun s => script_id s.1) <$> found).

Definition havespace (params : list Arg) : C (list byte) :=
  match name_at params 0 with
  | inr answer => mret answer
  | inl name =>
      match params !! 1%nat ≫= (fun a => match a with Atom number => parse_unsigned u64_max number | Text _ => None end) with
      | None => mret (no None (bs "Expected a size"))
      | Some size =>
          if SIEVE_MAX_SCRIPT_SIZE <? size then mret (no (Some (bs "QUOTA/MAXSIZE")) (bs "That is more than a script may have"))
          else
            found ← script_id_named name;
            match found with
            | Some _ => mret (ok (bs "There is room"))
            | None =>
                modify between;;
                db ← get;
                if (SIEVE_MAX_SCRIPTS <=? length (sieve_scripts account db))%nat
                then mret (no (Some (bs "QUOTA/MAXSCRIPTS")) (bs "At most 16 scripts"))
                else mret (ok (bs "There is room"))
            end
      end
  end.

Definition putscript (params : list Arg) : C (list byte) :=
  match name_at params 0 with
  | inr answer => mret answer
  | inl name =>
      match params !! 1%nat ≫= text with
      | None => mret (no None (bs "Expected the script"))
      | Some script =>
          match validate script with
          | Some problem => mret (no None problem)
          | None =>
              r ← attempt (put_sieve_script blob_of new_rowid account name script now);
              mret (match r with inl _ => ok (bs "Stored") | inr e => store_error e end)
          end
      end
  end.

Definition list_line (s : SieveScript) : list byte :=
  string_ (script_name s) ++ (if is_active s then bs " ACTIVE" else []) ++ CRLF.

Definition listscripts : C (list byte) :=
  db ← get; mret (concat (map list_line (sieve_scripts account db)) ++ ok (bs "Listscripts completed")).

Definition setactive (params : list Arg) : C (list byte) :=
  match head params ≫= utf8 with
  | None => mret (no None (bs "Expected a script name"))
  | Some name =>
      id ← (if bool_decide (name = []) then mret (inl None)
            else found ← script_id_named name; mret (match found with Some i => inl (Some i) | None => inr nonexistent end));
      match id with
      | inr answer => mret answer
      | inl id =>
          modify between;;
          r ← attempt (activate_sieve_script account id);
          mret (match r with
                | inl _ => ok (match id with Some _ => bs "The script is active" | None => bs "No script is active now" end)
                | inr e => store_error e
                end)
      end
  end.

Definition getscript (params : list Arg) : C (list byte) :=
  match head params ≫= utf8 with
  | None => mret (no None (bs "Expected a script name"))
  | Some name =>
      found ← find_named name;
      mret (match found with
            | Some (_, content) => literal_text content ++ CRLF ++ ok (bs "Getscript completed")
            | None => nonexistent
            end)
  end.

Definition deletescript (params : list Arg) : C (list byte) :=
  match head params ≫= utf8 with
  | None => mret (no None (bs "Expected a script name"))
  | Some name =>
      found ← script_id_named name;
      match found with
      | None => mret nonexistent
      | Some i =>
          modify between;;
          r ← attempt (destroy_sieve_script account i);
          mret (match r with inl _ => ok (bs "Deleted") | inr e => store_error e end)
      end
  end.

Definition renamescript (params : list Arg) : C (list byte) :=
  match head params ≫= utf8 with
  | None => mret (no None (bs "Expected a script name"))
  | Some old =>
      match name_at params 1 with
      | inr answer => mret answer
      | inl new =>
          found ← script_id_named old;
          match found with
          | None => mret nonexistent
          | Some i =>
              modify between;;
              r ← attempt (update_sieve_script blob_of account i (Some new) None now);
              mret (match r with inl _ => ok (bs "Renamed") | inr e => store_error e end)
          end
      end
  end.

Definition checkscript (params : list Arg) : C (list byte) :=
  mret (match head params ≫= text with
        | Some script => match validate script with None => ok (bs "The script is fine") | Some problem => no None problem end
        | None => no None (bs "Expected the script")
        end).

Inductive ScriptCommand := HaveSpace | PutScript | ListScripts | SetActive | GetScript | DeleteScript | RenameScript | CheckScript.

Definition script_command (c : ScriptCommand) (params : list Arg) : C (list byte) :=
  match c with
  | HaveSpace => havespace params
  | PutScript => putscript params
  | ListScripts => listscripts
  | SetActive => setactive params
  | GetScript => getscript params
  | DeleteScript => deletescript params
  | RenameScript => renamescript params
  | CheckScript => checkscript params
  end.
End account.

(** No handler panics, whatever the tables hold. *)
Lemma wp_write {A} (f : D (A * option Z)) db : (forall db, wp f (fun _ _ => True) (fun _ => True) db) -> wp (write_sieve f) (fun _ _ => True) (fun _ => True) db.
Proof. intros H. specialize (H db). unfold wp, write_sieve in *. destruct (f db) as [[|[]| |] ?]; done. Qed.

Lemma wp_attempt {A} (m : D A) (Q : A + SieveError -> Db -> Prop) F db :
  wp m (fun _ _ => True) (fun _ => True) db -> (forall r db', Q r db') -> wp (attempt m) Q F db.
Proof. unfold wp, attempt. intros H HQ. by destruct (m db) as [[] ?]. Qed.

Lemma wp_update i f db : wp (update_row i f) (fun _ _ => True) (fun _ => True) db.
Proof. unfold update_row, write_row. by repeat wp_step. Qed.

Ltac statements :=
  repeat first [progress wp_step | apply wp_write; intros ? | done
    | match goal with |- wp (update_row ?i ?f) _ _ _ => eapply wp_mono; [| |apply wp_update]; [intros ? ? _ | done] end].

Lemma put_returns n c account now db : wp (put_sieve_script blob_of new_rowid account n c now) (fun _ _ => True) (fun _ => True) db.
Proof. unfold put_sieve_script, try_, change, insert, write_row, next_modseq, record_change, loaded. by statements. Qed.

Lemma update_returns i n c account now db : wp (update_sieve_script blob_of account i n c now) (fun _ _ => True) (fun _ => True) db.
Proof. unfold update_sieve_script, try_, change, next_modseq, record_change, loaded. by statements. Qed.

Lemma destroy_returns i account db : wp (destroy_sieve_script account i) (fun _ _ => True) (fun _ => True) db.
Proof. unfold destroy_sieve_script, next_modseq, record_change. by statements. Qed.

Lemma activate_returns i account db : wp (activate_sieve_script account i) (fun _ _ => True) (fun _ => True) db.
Proof. unfold activate_sieve_script, activate, next_modseq, record_change. by statements. Qed.

Lemma script_command_returns between account now c params db :
  wp (script_command between account now c params) (fun _ _ => True) (fun _ => True) db.
Proof.
  unfold script_command, havespace, putscript, listscripts, setactive, getscript, deletescript, renamescript, checkscript, script_id_named, find_named.
  repeat first [progress wp_step | done | apply wp_attempt; [auto using put_returns, update_returns, destroy_returns, activate_returns|intros ? ?]].
Qed.

(** ** What they promise, on the scripts by name *)

(** Which of the texts a refusal has is decided by what the store would say of it. *)
Definition put_text (n c : list byte) (v : View) : list byte * View :=
  match check_content c with
  | inr e => (store_error e, v)
  | inl c =>
      match v !! n with
      | Some (_, act) => (ok (bs "Stored"), <[n := (c, act)]> v)
      | None => if decide (SIEVE_MAX_SCRIPTS <= size v)%nat then (store_error TooMany, v) else (ok (bs "Stored"), <[n := (c, false)]> v)
      end
  end.

Definition name_le (a b : list byte * (list byte * bool)) : Prop := bytes_le a.1 b.1 = true.

#[export] Instance name_le_dec : RelDecision name_le.
Proof. intros a b. unfold name_le. apply _. Defined.

#[export] Instance name_le_total : Total name_le.
Proof. intros a b. apply bytes_le_total. Qed.

#[export] Instance name_le_trans : Transitive name_le.
Proof. intros a b c. apply bytes_le_trans. Qed.

Lemma row_le_iff (a b : Z * Row) : row_le a b <-> bytes_le (name a.2) (name b.2) = true /\ (name a.2 = name b.2 -> a.1 <= b.1).
Proof.
  unfold row_le. case_bool_decide as Hn; [|tauto]. rewrite Hn, Z.leb_le. pose proof (bytes_le_total (name b.2) (name b.2)). tauto.
Qed.

#[export] Instance row_le_total : Total row_le.
Proof.
  intros [i r] [j q]. unfold row_le. cbn. destruct (decide (name r = name q)) as [Heq|Hne].
  - rewrite !bool_decide_true by done. destruct (Z.leb_spec i j); [by left | right]. apply Z.leb_le. lia.
  - rewrite !bool_decide_false by done. apply bytes_le_total.
Qed.

#[export] Instance row_le_trans : Transitive row_le.
Proof.
  intros a b c Hab Hbc. apply row_le_iff in Hab as [Hab Hi], Hbc as [Hbc Hj]. apply row_le_iff. split; [by apply (bytes_le_trans _ (name b.2))|].
  intros Heq. assert (name a.2 = name b.2) as Hn by (apply bytes_le_anti; congruence). specialize (Hi Hn). specialize (Hj ltac:(congruence)). lia.
Qed.

Definition spec (c : ScriptCommand) (params : list Arg) (v : View) : list byte * View :=
  match c with
  | HaveSpace =>
      match name_at params 0, params !! 1%nat ≫= (fun a => match a with Atom number => parse_unsigned u64_max number | Text _ => None end) with
      | inr answer, _ => (answer, v)
      | inl _, None => (no None (bs "Expected a size"), v)
      | inl n, Some size =>
          (if SIEVE_MAX_SCRIPT_SIZE <? size then store_error TooLarge
           else if bool_decide (v !! n = None /\ SIEVE_MAX_SCRIPTS <= base.size v)%nat then store_error TooMany
           else ok (bs "There is room"), v)
      end
  | PutScript =>
      match name_at params 0, params !! 1%nat ≫= text with
      | inr answer, _ => (answer, v)
      | inl _, None => (no None (bs "Expected the script"), v)
      | inl n, Some script => match validate script with Some problem => (no None problem, v) | None => put_text n script v end
      end
  | ListScripts =>
      (concat (map (fun e => string_ e.1 ++ (if e.2.2 : bool then bs " ACTIVE" else []) ++ CRLF) (merge_sort name_le (map_to_list v)))
         ++ ok (bs "Listscripts completed"), v)
  | SetActive =>
      match head params ≫= utf8 with
      | None => (no None (bs "Expected a script name"), v)
      | Some n =>
          if bool_decide (n = []) then (ok (bs "No script is active now"), switched None v)
          else match v !! n with Some _ => (ok (bs "The script is active"), switched (Some n) v) | None => (nonexistent, v) end
      end
  | GetScript =>
      match head params ≫= utf8 with
      | None => (no None (bs "Expected a script name"), v)
      | Some n => (match v !! n with Some (c, _) => literal_text c ++ CRLF ++ ok (bs "Getscript completed") | None => nonexistent end, v)
      end
  | DeleteScript =>
      match head params ≫= utf8 with
      | None => (no None (bs "Expected a script name"), v)
      | Some n => match v !! n with
                  | None => (nonexistent, v)
                  | Some (_, true) => (store_error IsActive, v)
                  | Some (_, false) => (ok (bs "Deleted"), delete n v)
                  end
      end
  | RenameScript =>
      match head params ≫= utf8, name_at params 1 with
      | None, _ => (no None (bs "Expected a script name"), v)
      | Some _, inr answer => (answer, v)
      | Some old, inl new =>
          match v !! old, v !! new with
          | None, _ => (nonexistent, v)
          | Some e, None => (ok (bs "Renamed"), <[new := e]> (delete old v))
          | Some _, Some _ => if bool_decide (new = old) then (ok (bs "Renamed"), v) else (no (Some (bs "ALREADYEXISTS")) (bs "A script with that name exists already"), v)
          end
      end
  | CheckScript =>
      (match head params ≫= text with
       | Some script => match validate script with None => ok (bs "The script is fine") | Some problem => no None problem end
       | None => no None (bs "Expected the script")
       end, v)
  end.
End scripts.

(** ** The handlers keep it *)

Section refinement.
Context (blob_of : list byte -> list byte) (new_rowid : gmap Z Row -> Z).
Context (validate : list byte -> option (list byte)) (failed_text : DbError -> list byte).
Hypothesis new_rowid_is_new : forall t, t !! new_rowid t = None.

(** The answer, with the scripts of the account as they then are and those of others as
    they were; the next command can be told the same of. *)
Definition promised (a : Z) (db : Db) (answer : list byte) (v : View) (r : outcome Empty_set (list byte) * Db) : Prop :=
  exists db', r = (Ok answer, db') /\ db_ok blob_of db' /\ view a (scripts db') = v
    /\ (forall b, b <> a -> view b (scripts db') = view b (scripts db)) /\ is_Some (modseqs db' !! a).

Context (a now m : Z) (db : Db).
Hypothesis Hok : db_ok blob_of db.
Hypothesis Hm : modseqs db !! a = Some m.

Lemma promised_same answer : promised a db answer (view a (scripts db)) (Ok answer, db).
Proof. exists db. by rewrite Hm. Qed.

Lemma promised_stepped answer v db' : stepped blob_of a m v db db' -> promised a db answer v (Ok answer, db').
Proof. intros (Hok' & Hv & Ho & Hms). exists db'. split; [done|]. rewrite Hms, lookup_insert_eq. done. Qed.

(** Reading a script by its name, when nobody comes between. *)
Lemma find_named_is n :
  match view a (scripts db) !! n with
  | None => find_named (fun d => d) a n db = (Ok None, db)
  | Some e => exists i r, scripts db !! i = Some r /\ account_id r = a /\ name r = n /\ entry r = e
                /\ find_named (fun d => d) a n db = (Ok (Some (script_of i r, content r)), db)
  end.
Proof.
  pose proof (ok_unique _ _ Hok) as Hu.
  assert (find_named (fun d => d) a n db = (Ok (sieve_script_named (fun d => d) a n db), db)) as -> by done.
  unfold sieve_script_named, sieve_script. destruct (view a (scripts db) !! n) as [e|] eqn:Hn.
  - apply view_lookup in Hn as (i & r & Hi & Ha & Hname & ->); [|done]. exists i, r. repeat (split; [done|]).
    rewrite (proj2 (id_named_spec a n db i Hu)) by (by exists r). cbn. rewrite (load_row a i r) by done. cbn. by rewrite Hi.
  - by rewrite (proj2 (named_in_view a n db Hu) Hn).
Qed.

Lemma script_id_named_is n :
  match view a (scripts db) !! n with
  | None => script_id_named (fun d => d) a n db = (Ok None, db)
  | Some e => exists i r, scripts db !! i = Some r /\ account_id r = a /\ name r = n /\ entry r = e
                /\ script_id_named (fun d => d) a n db = (Ok (Some i), db)
  end.
Proof.
  unfold script_id_named, mbind, M_bind. pose proof (find_named_is n) as H. destruct (view a (scripts db) !! n) as [e|]; [|by rewrite H].
  destruct H as (i & r & Hi & Ha & Hn & He & ->). by exists i, r.
Qed.

Lemma put_refines n c answer v :
  validate_sieve_name n = inl tt -> put_text n c (view a (scripts db)) = (answer, v) ->
  promised a db answer v ((r ← attempt (put_sieve_script blob_of new_rowid a n c now);
                          mret (match r with inl _ => ok (bs "Stored") | inr e => store_error e end)) db).
Proof.
  intros Hn. unfold put_text. destruct (check_content c) as [c'|e] eqn:Hc.
  - pose proof (check_content_is _ _ Hc) as ->. pose proof (put_is blob_of new_rowid new_rowid_is_new a n c now m db Hok Hm Hn Hc) as H. cbn zeta in H.
    unfold mbind, M_bind, attempt. destruct (view a (scripts db) !! n) as [[c0 act]|]; [|case_decide].
    + destruct H as (script & db' & -> & Hst). intros [= <- <-]. by apply promised_stepped.
    + rewrite H. intros [= <- <-]. apply promised_same.
    + destruct H as (script & db' & -> & Hst). intros [= <- <-]. by apply promised_stepped.
  - intros [= <- <-]. unfold mbind, M_bind, attempt, put_sieve_script, try_. rewrite Hn, Hc. apply promised_same.
Qed.

Lemma delete_refines params answer v :
  spec validate failed_text DeleteScript params (view a (scripts db)) = (answer, v) -> promised a db answer v (deletescript (fun d => d) a params db).
Proof.
  unfold spec, deletescript. destruct (head params ≫= utf8) as [n|]; [|intros [= <- <-]; apply promised_same].
  unfold mbind, M_bind. pose proof (script_id_named_is n) as H. destruct (view a (scripts db) !! n) as [[c act]|] eqn:Hn; [|rewrite H; intros [= <- <-]; apply promised_same].
  destruct H as (i & r & Hi & Ha & Hname & He & ->). injection He as <- <-. cbn [modify]. unfold attempt.
  destruct (active r) eqn:Hact.
  - intros [= <- <-]. pose proof (destroy_is a i db) as H. rewrite (load_row a i r) in H by done. rewrite H by done. apply promised_same.
  - intros [= <- <-]. destruct (destroy_steps blob_of a i m r db) as (db' & -> & Hst); [done..|].
    rewrite Hname in Hst. by apply promised_stepped.
Qed.

Lemma rename_refines params answer v :
  spec validate failed_text RenameScript params (view a (scripts db)) = (answer, v) ->
  promised a db answer v (renamescript blob_of failed_text (fun d => d) a now params db).
Proof.
  unfold spec, renamescript. destruct (head params ≫= utf8) as [old|]; [|intros [= <- <-]; apply promised_same].
  destruct (name_at failed_text params 1) as [new|answer'] eqn:Hnew; [|intros [= <- <-]; apply promised_same].
  assert (validate_sieve_name new = inl tt) as Hvalid.
  { unfold name_at in Hnew. destruct (params !! 1%nat ≫= utf8) as [x|]; [|done]. destruct (validate_sieve_name x) as [[]|] eqn:E; [|done]. by injection Hnew as ->. }
  unfold mbind, M_bind. pose proof (script_id_named_is old) as H.
  destruct (view a (scripts db) !! old) as [e|] eqn:Hold; [|rewrite H; intros [= <- <-]; apply promised_same].
  destruct H as (i & r & Hi & Ha & Hname & He & ->). cbn [modify]. unfold attempt.
  pose proof (rename_is blob_of a i new now m r db Hok Hm Hi Ha Hvalid) as H. cbn zeta in H. rewrite Hname in H. case_decide as Heq.
  - subst new. rewrite Hold, H, bool_decide_true by done. intros [= <- <-]. apply promised_same.
  - destruct (view a (scripts db) !! new) as [e'|] eqn:Htaken.
    + rewrite bool_decide_false by done. destruct H as (existing & ->). intros [= <- <-]. apply promised_same.
    + destruct H as (script & db' & -> & Hst). intros [= <- <-]. rewrite <-He. by apply promised_stepped.
Qed.

(** Switching to what is on already. *)
Lemma switched_same i : active_id a db = i -> switched (k ← i; name <$> scripts db !! k) (view a (scripts db)) = view a (scripts db).
Proof.
  intros <-. pose proof (ok_unique _ _ Hok) as Hu. apply map_eq. intros n. unfold switched. rewrite map_lookup_imap.
  destruct (view a (scripts db) !! n) as [e|] eqn:Hn; [|done]. cbn. f_equal. destruct e as [c act]. cbn. f_equal.
  apply view_lookup in Hn as (j & r & Hj & Ha & Hname & [= -> ->]); [|done].
  destruct (active_id a db) as [k|] eqn:Hk.
  - apply active_id_spec in Hk as (q & Hk & Hqa & Hact); [|done]. cbn. rewrite Hk. cbn. destruct (active r) eqn:Hr.
    + apply bool_decide_eq_true. assert (j = k) as -> by (apply (Hu j k r q Hj Hk); [congruence|by right]). congruence.
    + apply bool_decide_eq_false. intros [= Hn]. assert (j = k) as -> by (apply (Hu j k r q Hj Hk); [congruence|left; congruence]). congruence.
  - cbn. rewrite (active_id_None a db Hk j r) by done. done.
Qed.

Lemma setactive_refines params answer v :
  spec validate failed_text SetActive params (view a (scripts db)) = (answer, v) -> promised a db answer v (setactive (fun d => d) a params db).
Proof.
  assert (forall i n, (forall k, i = Some k -> exists r, scripts db !! k = Some r /\ account_id r = a) ->
    (k ← i; name <$> scripts db !! k) = n -> forall text, promised a db text (switched n (view a (scripts db)))
      ((r ← attempt (activate_sieve_script a i); mret (match r with inl _ => text | inr e => store_error e end)) db)) as Hact.
  { intros i n Hi <- txt. pose proof (activate_call_is blob_of a i m db Hok Hm Hi) as H. cbn zeta in H. unfold mbind, M_bind, attempt. case_decide.
    - rewrite H, switched_same by done. apply promised_same.
    - destruct H as (x & db' & -> & Hst). by apply promised_stepped. }
  unfold spec, setactive. destruct (head params ≫= utf8) as [n|]; [|intros [= <- <-]; apply promised_same].
  destruct (decide (n = [])) as [->|Hne]; [rewrite !bool_decide_true by done | rewrite !bool_decide_false by done].
  - intros [= <- <-]. by apply (Hact None).
  - unfold mbind, M_bind. pose proof (script_id_named_is n) as H.
    destruct (view a (scripts db) !! n) as [e|] eqn:Hn; [|rewrite H; intros [= <- <-]; apply promised_same].
    destruct H as (i & r & Hi & Ha & Hname & He & ->). intros [= <- <-]. apply (Hact (Some i)).
    + intros k [= <-]. by exists r.
    + cbn. by rewrite Hi; cbn; rewrite Hname.
Qed.

Lemma map_sorted {A B} (R : A -> A -> Prop) (R' : B -> B -> Prop) (f : A -> B) l :
  (forall x y, R x y -> R' (f x) (f y)) -> StronglySorted R l -> StronglySorted R' (map f l).
Proof. intros Hf. induction 1; cbn; constructor; [done|]. apply Forall_map. eapply Forall_impl; [done|]. intros y. apply Hf. Qed.

(** What is listed, by name. *)
Lemma listed_length : length (sieve_scripts a db) = base.size (view a (scripts db)).
Proof.
  unfold sieve_scripts. rewrite length_map, size_view by apply Hok. apply Permutation_length, merge_sort_Permutation.
Qed.

Lemma listed_is :
  map (fun s => (script_name s, is_active s)) (sieve_scripts a db)
  = map (fun e => (e.1, e.2.2)) (merge_sort name_le (map_to_list (view a (scripts db)))).
Proof.
  pose proof (ok_unique _ _ Hok) as Hu. set (f := fun ir : Z * Row => (name ir.2, entry ir.2)).
  assert (map_to_list (view a (scripts db)) ≡ₚ map f (rows_of a (scripts db))) as Hrows.
  { unfold view. apply map_to_list_to_map. rewrite <-list_fmap_compose. by apply view_keys. }
  assert (merge_sort name_le (map_to_list (view a (scripts db))) = map f (merge_sort row_le (rows_of a (scripts db)))) as ->.
  { apply (StronglySorted_unique_strong name_le).
    - intros [n x] [n' x'] Hx Hx' H1 H2. unfold name_le in *. cbn in *. pose proof (bytes_le_anti _ _ H1 H2) as ->.
      rewrite merge_sort_Permutation in Hx. rewrite merge_sort_Permutation, <-Hrows in Hx'. apply elem_of_map_to_list in Hx, Hx'. congruence.
    - apply StronglySorted_merge_sort; apply _.
    - apply (map_sorted row_le); [|apply StronglySorted_merge_sort; apply _].
      by intros x y [H _]%row_le_iff.
    - by rewrite !merge_sort_Permutation, Hrows. }
  unfold sieve_scripts. rewrite !map_map. done.
Qed.

Lemma have_refines params answer v :
  spec validate failed_text HaveSpace params (view a (scripts db)) = (answer, v) -> promised a db answer v (havespace failed_text (fun d => d) a params db).
Proof.
  unfold spec, havespace. destruct (name_at failed_text params 0) as [n|]; [|intros [= <- <-]; apply promised_same].
  destruct (_ ≫= _) as [size|]; [|intros [= <- <-]; apply promised_same]. destruct (SIEVE_MAX_SCRIPT_SIZE <? size); [intros [= <- <-]; apply promised_same|].
  unfold mbind, M_bind. pose proof (script_id_named_is n) as H. destruct (view a (scripts db) !! n) as [e|] eqn:Hn.
  - destruct H as (i & r & _ & _ & _ & _ & ->). rewrite bool_decide_false by (by intros []). intros [= <- <-]. apply promised_same.
  - rewrite H. cbn [modify get]. rewrite listed_length.
    destruct (Nat.leb_spec SIEVE_MAX_SCRIPTS (base.size (view a (scripts db)))).
    + rewrite bool_decide_true by done. intros [= <- <-]. apply promised_same.
    + rewrite bool_decide_false by lia. intros [= <- <-]. apply promised_same.
Qed.

Lemma get_refines params answer v :
  spec validate failed_text GetScript params (view a (scripts db)) = (answer, v) -> promised a db answer v (getscript (fun d => d) a params db).
Proof.
  unfold spec, getscript. destruct (head params ≫= utf8) as [n|]; [|intros [= <- <-]; apply promised_same].
  unfold mbind, M_bind. pose proof (find_named_is n) as H. destruct (view a (scripts db) !! n) as [[c act]|]; [|rewrite H; intros [= <- <-]; apply promised_same].
  destruct H as (i & r & _ & _ & _ & [= <- <-] & ->). intros [= <- <-]. apply promised_same.
Qed.

Lemma list_refines : promised a db (spec validate failed_text ListScripts [] (view a (scripts db))).1 (view a (scripts db)) (listscripts a db).
Proof.
  unfold spec, listscripts, mbind, M_bind, get, mret, M_ret. cbn [fst].
  assert (map list_line (sieve_scripts a db)
    = map (fun e => string_ e.1 ++ (if e.2.2 : bool then bs " ACTIVE" else []) ++ CRLF) (merge_sort name_le (map_to_list (view a (scripts db))))) as ->; [|apply promised_same].
  pose proof (f_equal (map (fun l : list byte * bool => string_ l.1 ++ (if l.2 then bs " ACTIVE" else []) ++ CRLF)) listed_is) as H.
  by rewrite !map_map in H.
Qed.

(** The script commands of ManageSieve do what RFC 5804 says of an account's scripts,
    a map from names to contents and which of them is active: each gives the answer
    [spec] gives for that map, refusals and their codes included, and leaves the account
    with the scripts [spec] leaves it, the scripts of others as they are and the store
    well-formed, as long as no other connection comes between its two transactions. *)
Theorem script_commands_refine c params :
  let '(answer, v) := spec validate failed_text c params (view a (scripts db)) in
  promised a db answer v (script_command blob_of new_rowid validate failed_text (fun d => d) a now c params db).
Proof.
  destruct (spec _ _ _ _ _) as [answer v] eqn:Hspec. destruct c; cbn [script_command].
  - by apply have_refines.
  - unfold spec in Hspec. unfold putscript. destruct (name_at failed_text params 0) as [n|] eqn:Hn; [|injection Hspec as <- <-; apply promised_same].
    destruct (_ ≫= _) as [script|]; [|injection Hspec as <- <-; apply promised_same].
    destruct (validate script); [injection Hspec as <- <-; apply promised_same|]. apply put_refines; [|done].
    unfold name_at in Hn. destruct (params !! 0%nat ≫= utf8) as [x|]; [|done]. destruct (validate_sieve_name x) as [[]|] eqn:E; [|done]. by injection Hn as ->.
  - injection Hspec as <- <-. apply list_refines.
  - by apply setactive_refines.
  - by apply get_refines.
  - by apply delete_refines.
  - by apply rename_refines.
  - injection Hspec as <- <-. apply promised_same.
Qed.
End refinement.

(** ** Witness *)

Definition stored_rules : Db := (script_command id next_rowid (fun _ => None) (fun _ => []) (fun d => d) 1 0 PutScript [Text (bs "rules"); Text (bs "keep;")] no_scripts).2.

Lemma script_commands_refine_witness :
  script_command id next_rowid (fun _ => None) (fun _ => []) (fun d => d) 1 0 SetActive [Text (bs "rules")] stored_rules
  = (Ok (ok (bs "The script is active")), (script_command id next_rowid (fun _ => None) (fun _ => []) (fun d => d) 1 0 SetActive [Text (bs "rules")] stored_rules).2)
  /\ exists db', promised id 1 stored_rules (ok (bs "The script is active")) {[ bs "rules" := (bs "keep;", true) ]} (Ok (ok (bs "The script is active")), db').
Proof.
  assert (db_ok id stored_rules) as Hok.
  { pose proof (script_commands_refine id next_rowid (fun _ => None) (fun _ => []) next_rowid_new 1 0 40 no_scripts (no_scripts_ok id) eq_refl PutScript [Text (bs "rules"); Text (bs "keep;")]) as H.
    destruct (spec _ _ _ _ _) as [answer v]. destruct H as (db' & Heq & Hok & _). unfold stored_rules. rewrite Heq. exact Hok. }
  split; [vm_compute; reflexivity|].
  pose proof (script_commands_refine id next_rowid (fun _ => None) (fun _ => []) next_rowid_new 1 0 41 stored_rules Hok ltac:(vm_compute; reflexivity) SetActive [Text (bs "rules")]) as H.
  destruct (script_command _ _ _ _ _ _ _ _ _ stored_rules) as [r db'] eqn:E. exists db'.
  assert (r = Ok (ok (bs "The script is active"))) as -> by (change r with (r, db').1; rewrite <-E; vm_compute; reflexivity).
  vm_compute in H. exact H.
Defined.
