(* ===== verification/ManageSieveSession.v ===== *)
(** * A ManageSieve connection (crates\/uwumail-imap\/src\/managesieve.rs)

    The session from the greeting on: reading commands, [dispatch], STARTTLS, AUTHENTICATE
    and the logins, over the scripts of the store. What the connection cannot decide
    itself is a [World] for each command: whether time ran out, what the store says of the
    login, what the limiter says, what the TLS handshake comes to. Sending does not fail.
    Beside the fields of the source a [Conn] keeps what was sent, what the limiter was told and
    every login that was tried, with the answer of the store. *)

From S2P Require Import Prelude Effects Utf8 Sasl SieveStore ManageSieve ManageSieveScripts ImapSessionDispatch.
Import Sieve.

Record Account := { account_id_of : Z; login_of : list byte }.

(** [MailAuth] or the failure of the store. *)
Inductive Auth := AuthOk (account : Account) | AuthDenied (reason : Denied) | AuthFailed.

(** What the store was asked to let in, over TLS or not, and its answer. *)
Inductive Credential := Password (login password : list byte) | Token (user : option (list byte)) (token : list byte).

Record Try := { over_tls : bool; credential : Credential; verdict : Auth }.

(** What the limiter was told. *)
Inductive Told := ToldSuccess (username login : list byte) | ToldUnknown (username : list byte) | ToldFailure (username : list byte).

(** [late]: the command did not come in time; [late_response] and [late_answer]: the
    response to AUTHENTICATE, and the answer to a refused token, did not. [unbuffered]: nothing of what was sent behind STARTTLS was read yet. [handshake]: what
    comes in through TLS, given what came in behind STARTTLS. *)
Record World := {
  late : bool; late_response : bool; late_answer : bool; live_login : option Account; blocked : bool; begins : bool; auth : Auth;
  unbuffered : bool; handshake : list byte -> option (list byte); between : Db -> Db; now : Z }.

(** [trim_ascii] of bytes. *)
Fixpoint skip_spaces (s : list byte) : list byte :=
  match s with b :: s' => if is_ascii_whitespace b then skip_spaces s' else s | [] => [] end.

Definition trim_ascii (s : list byte) : list byte := rev (skip_spaces (rev (skip_spaces s))).

Record Conn := {
  encrypted : bool; account : option Account; login : option Z; auth_failures : Z;
  input : list byte; db : Db; sent : list byte; told : list Told; tried : list Try }.

Inductive Flow := Continue | Close.

Abbreviation N := (M Conn unit).

Section session.
Context (blob_of : list byte -> list byte) (new_rowid : gmap Z Row -> Z) (validate : list byte -> option (list byte))
        (failed_text : DbError -> list byte) (decode64 : list byte -> option (list byte)) (encode64 : list byte -> list byte)
        (to_json : list (list byte * list byte) -> list byte) (hostname : option (list byte)).

Definition set_login (a : option Account) (c : Conn) : Conn :=
  {| encrypted := encrypted c; account := a; login := account_id_of <$> a; auth_failures := auth_failures c;
     input := input c; db := db c; sent := sent c; told := told c; tried := tried c |}.
Definition set_account (a : option Account) (c : Conn) : Conn :=
  {| encrypted := encrypted c; account := a; login := login c; auth_failures := auth_failures c;
     input := input c; db := db c; sent := sent c; told := told c; tried := tried c |}.
Definition set_input (i : list byte) (c : Conn) : Conn :=
  {| encrypted := encrypted c; account := account c; login := login c; auth_failures := auth_failures c;
     input := i; db := db c; sent := sent c; told := told c; tried := tried c |}.
Definition set_encrypted (i : list byte) (c : Conn) : Conn :=
  {| encrypted := true; account := account c; login := login c; auth_failures := auth_failures c;
     input := i; db := db c; sent := sent c; told := told c; tried := tried c |}.
Definition set_db (d : Db) (c : Conn) : Conn :=
  {| encrypted := encrypted c; account := account c; login := login c; auth_failures := auth_failures c;
     input := input c; db := d; sent := sent c; told := told c; tried := tried c |}.
Definition one_failure (c : Conn) : Conn :=
  {| encrypted := encrypted c; account := account c; login := login c; auth_failures := auth_failures c + 1;
     input := input c; db := db c; sent := sent c; told := told c; tried := tried c |}.

Definition send (s : list byte) : N unit := modify (fun c =>
  {| encrypted := encrypted c; account := account c; login := login c; auth_failures := auth_failures c;
     input := input c; db := db c; sent := sent c ++ s; told := told c; tried := tried c |}).
Definition tell (t : Told) : N unit := modify (fun c =>
  {| encrypted := encrypted c; account := account c; login := login c; auth_failures := auth_failures c;
     input := input c; db := db c; sent := sent c; told := told c ++ [t]; tried := tried c |}).
Definition trying (what : Credential) (said : Auth) : N unit := modify (fun c =>
  {| encrypted := encrypted c; account := account c; login := login c; auth_failures := auth_failures c;
     input := input c; db := db c; sent := sent c; told := told c; tried := tried c ++ [{| over_tls := encrypted c; credential := what; verdict := said |}] |}).

Definition answered (s : list byte) : N Flow := send s;; mret Continue.
Definition bye (s : list byte) : N Flow := send (bs "BYE " ++ string_ s ++ CRLF);; mret Close.

Definition EXTENSIONS : list (list byte) :=
  [bs "body"; bs "comparator-i;ascii-casemap"; bs "comparator-i;ascii-numeric"; bs "comparator-i;octet"; bs "copy"; bs "envelope";
   bs "fileinto"; bs "imap4flags"; bs "mailbox"; bs "mailboxid"; bs "relational"; bs "subaddress"; bs "variables"].

Definition quoted_word (s : list byte) : list byte := [x22] ++ s ++ [x22].

Definition capabilities (c : Conn) : list byte :=
  join CRLF ([quoted_word (bs "IMPLEMENTATION") ++ bs " " ++ string_ (bs "UwUMail Server");
              quoted_word (bs "SIEVE") ++ bs " " ++ string_ (join (bs " ") EXTENSIONS);
              quoted_word (bs "SASL") ++ bs " " ++ string_ (if encrypted c then bs "PLAIN OAUTHBEARER XOAUTH2" else []);
              quoted_word (bs "MAXREDIRECTS") ++ bs " " ++ quoted_word (dec 1);
              quoted_word (bs "VERSION") ++ bs " " ++ quoted_word (bs "1.0");
              quoted_word (bs "UNAUTHENTICATE")]
             ++ (if encrypted c then [] else [quoted_word (bs "STARTTLS")])
             ++ match account c with Some a => [quoted_word (bs "OWNER") ++ bs " " ++ string_ (login_of a)] | None => [] end) ++ CRLF.

(** [read_command] of the connection; what ends it is for the caller to see. *)
Definition next_command : N Read := fun c =>
  match read_command (bool_decide (is_Some (account c))) (input c) with
  | (Ok r, rest) => (Ok r, set_input rest c)
  | (Err e, rest) => match e with end
  | (Panicked, rest) => (Panicked, c)
  | (OutOfFuel, rest) => (OutOfFuel, c)
  end.

(** [?]: an error of reading ends the session. *)
Definition taken (r : Read) : N (option (list Arg)) :=
  match r with
  | Command args => mret (Some args)
  | TooBig | Closed => mret None
  | Invalid _ | UnexpectedEof => throw tt
  end.

(** The first string of the answer to a challenge. *)
Definition response_of (r : option (list Arg)) : option (list byte) := args ← r; a ← head args; text a.

(** ** Logging in *)

Definition failure_text (reason : Denied) : list byte :=
  match reason with
  | Denied.AppPasswordRequired => bs "This account needs an app password for mail apps"
  | _ => bs "Wrong login or password"
  end.

Definition refused_login (t : list byte) : N Flow :=
  c ← get;
  if MAX_AUTH_FAILURES <=? auth_failures c then bye (bs "Too many failed logins") else answered (no None t).

Definition login_with (w : World) (username password : list byte) : N Flow :=
  if negb (begins w) then answered (no (Some (bs "TRYLATER")) (bs "Too many failed logins, try again later"))
  else
    trying (Password username password) (auth w);;
    match auth w with
    | AuthOk a => tell (ToldSuccess username (login_of a));; modify (set_login (Some a));; answered (ok (bs "Logged in, hi"))
    | AuthDenied reason =>
        match reason with
        | Denied.AppPasswordRequired => mret tt
        | Denied.UnknownLogin => tell (ToldUnknown username)
        | _ => tell (ToldFailure username)
        end;;
        modify one_failure;;
        refused_login (failure_text reason)
    | AuthFailed => answered (no (Some (bs "TRYLATER")) (bs "Temporary authentication failure"))
    end.

(** [read_response]: late is as good as no answer. *)
Definition read_response (w : World) : N (option (list byte)) :=
  if late_answer w then mret None else r ← next_command; args ← taken r; mret (response_of args).

Definition bearer_login (w : World) (message : list byte) (xoauth2 : bool) : N Flow :=
  match (if xoauth2 then parse_xoauth2 message else parse_oauthbearer message) with
  | None => answered (no None (bs "Invalid token data"))
  | Some parsed =>
      if blocked w then answered (no (Some (bs "TRYLATER")) (bs "Too many failed logins, try again later"))
      else
        let username := default [] (user parsed) in
        trying (Token (user parsed) (token parsed)) (auth w);;
        match auth w with
        | AuthFailed => answered (no (Some (bs "TRYLATER")) (bs "Temporary authentication failure"))
        | r =>
            match match r with AuthOk a => if sasl_user_matches (user parsed) (login_of a) then Some a else None | _ => None end with
            | Some a => tell (ToldSuccess username (login_of a));; modify (set_login (Some a));; answered (ok (bs "Logged in, hi"))
            | None =>
                tell (ToldFailure username);;
                modify one_failure;;
                send (string_ (encode64 (sasl_bearer_error to_json xoauth2 (bs "mail") hostname)) ++ CRLF);;
                _ ← read_response w;
                refused_login (bs "The token is not valid")
            end
        end
  end.

Definition authenticate (w : World) (params : list Arg) : N Flow :=
  c ← get;
  let mechanism := to_ascii_uppercase (default [] (a ← head params; utf8 a)) in
  if negb (existsb (fun m => bool_decide (m = mechanism)) [bs "PLAIN"; bs "OAUTHBEARER"; bs "XOAUTH2"])
  then answered (no None (bs "Only PLAIN, OAUTHBEARER and XOAUTH2 are supported"))
  else if negb (encrypted c) then answered (no (Some (bs "ENCRYPT-NEEDED")) (bs "Switch to TLS with STARTTLS first"))
  else
    r ← (match params !! 1%nat with
         | Some initial => mret (Some (text initial))
         | None =>
             send (quoted_word [] ++ CRLF);;
             if late_response w then mret None else r ← next_command; args ← taken r; mret (Some (response_of args))
         end);
    match r with
    | None => bye (bs "You were idle for too long, bye")
    | Some response =>
        match (response ← response; if bool_decide (response = bs "*") then None else Some response) with
        | None => answered (no None (bs "Authentication cancelled"))
        | Some response =>
            let decoded := decode64 (trim_ascii response) in
            if negb (bool_decide (mechanism = bs "PLAIN")) then bearer_login w (default [] decoded) (bool_decide (mechanism = bs "XOAUTH2"))
            else
              match plain_login decoded with
              | InvalidPlain => answered (no None (bs "Invalid PLAIN data"))
              | SomeoneElse => answered (no None (bs "Logging in as someone else is not allowed"))
              | TryLogin username password => login_with w username password
              end
        end
    end.

Definition starttls (w : World) : N Flow :=
  c ← get;
  if encrypted c then answered (no None (bs "TLS is already on"))
  else
    send (ok (bs "Begin TLS negotiation now"));;
    if negb (unbuffered w) then mret Close
    else
      match handshake w (input c) with
      | None => mret Close
      | Some inside =>
          modify (set_encrypted inside);;
          c ← get;
          answered (capabilities c ++ bs "OK " ++ string_ (bs "TLS is on, you may log in") ++ CRLF)
      end.

(** ** Commands *)

Definition script_command_of (command : list byte) : option ScriptCommand :=
  snd <$> List.find (fun e => bool_decide (e.1 = command))
    [(bs "HAVESPACE", HaveSpace); (bs "PUTSCRIPT", PutScript); (bs "LISTSCRIPTS", ListScripts); (bs "SETACTIVE", SetActive);
     (bs "GETSCRIPT", GetScript); (bs "DELETESCRIPT", DeleteScript); (bs "RENAMESCRIPT", RenameScript); (bs "CHECKSCRIPT", CheckScript)].

Definition run_script (w : World) (c : ScriptCommand) (params : list Arg) : N Flow :=
  s ← get;
  let account := match account s with Some a => account_id_of a | None => 0 end in
  match script_command blob_of new_rowid validate failed_text (between w) account (now w) c params (db s) with
  | (Ok answer, d) => modify (set_db d);; answered answer
  | (Err e, _) => match e with end
  | (Panicked, _) => panic
  | (OutOfFuel, _) => out_of_fuel
  end.

(** [login_holds] *)
Definition login_holds (w : World) : N bool :=
  c ← get;
  match login c with
  | None => mret true
  | Some _ => match live_login w with Some a => modify (set_account (Some a));; mret true | None => mret false end
  end.

Definition command (w : World) (name : list byte) (params : list Arg) : N Flow :=
  c ← get;
  let logged_in := bool_decide (is_Some (account c)) in
  let named s := bool_decide (name = s) in
  still ← (if logged_in && negb (named (bs "LOGOUT")) then login_holds w else mret true);
  if negb still then bye (bs "Your login is no longer valid, please log in again")
  else
    c ← get;
    if named (bs "CAPABILITY") then answered (capabilities c ++ bs "OK " ++ string_ (bs "Capability completed") ++ CRLF)
    else if named (bs "NOOP") then
      answered match (a ← head params; text a) with
               | Some tag => bs "OK (TAG " ++ string_ (from_utf8_lossy tag) ++ bs ") " ++ string_ (bs "Done") ++ CRLF
               | None => ok (bs "NOOP completed")
               end
    else if named (bs "LOGOUT") then send (ok (bs "Logout completed, see you"));; mret Close
    else if named (bs "STARTTLS") && negb logged_in then starttls w
    else if named (bs "AUTHENTICATE") && negb logged_in then authenticate w params
    else if named (bs "STARTTLS") || named (bs "AUTHENTICATE") then answered (no None (bs "Already logged in"))
    else if named (bs "UNAUTHENTICATE") then
      if logged_in then modify (set_login None);; answered (ok (bs "Logged out, the connection stays"))
      else answered (no None (bs "Not logged in"))
    else match script_command_of name with
         | Some s => if logged_in then run_script w s params else answered (no None (bs "Log in first"))
         | None => answered (no None (bs "Unknown command"))
         end.

Definition dispatch (w : World) (args : list Arg) : N Flow :=
  match args with
  | Atom name :: params => command w (to_ascii_uppercase name) params
  | _ => answered (no None (bs "Expected a command"))
  end.

(** ** The connection *)

(** One turn of [run]: whether it goes on. *)
Definition turn (w : World) : N Flow :=
  if late w then bye (bs "You were idle for too long, bye")
  else
    r ← next_command;
    match r with
    | Invalid problem => bye problem
    | UnexpectedEof => throw tt
    | TooBig => answered (no (Some (bs "QUOTA/MAXSIZE")) (bs "That is more than a script may have"))
    | Closed => mret Close
    | Command args => dispatch w args
    end.

Fixpoint turns (fuel : nat) (worlds : nat -> World) : N unit :=
  match fuel with
  | O => out_of_fuel
  | S fuel =>
      flow ← turn (worlds O);
      match flow with Close => mret tt | Continue => turns fuel (fun n => worlds (S n)) end
  end.

Definition greeting : N unit :=
  c ← get; send (capabilities c ++ bs "OK " ++ string_ (bs "UwUMail ManageSieve ready, nya") ++ CRLF).

Definition run (fuel : nat) (worlds : nat -> World) : N unit := greeting;; turns fuel worlds.

Definition accepted (sent_by_client : list byte) (d : Db) : Conn :=
  {| encrypted := false; account := None; login := None; auth_failures := 0; input := sent_by_client; db := d; sent := []; told := []; tried := [] |}.

(** ** What holds of a connection *)

Definition denies (w : World) : Prop := match auth w with AuthOk _ => False | _ => True end.

(** A login the store answered for, and that is not let in: refused, or a token of somebody
    else than the client says it is. *)
Definition wrong_login (t : Try) : bool :=
  match verdict t, credential t with
  | AuthDenied _, _ => true
  | AuthOk a, Token user _ => negb (sasl_user_matches user (login_of a))
  | _, _ => false
  end.

Definition wrong_logins (c : Conn) : list Try := List.filter wrong_login (tried c).

(** Secrets are only tried, and someone is only logged in, over TLS; every wrong login was
    counted; where nobody may log in nobody is, and the scripts are as they were. *)
Record inv (denied : Prop) (d0 : Db) (c : Conn) : Prop := {
  inv_tls : Forall (fun t => over_tls t = true) (tried c) /\ (account c <> None -> encrypted c = true);
  inv_failures : Z.of_nat (length (wrong_logins c)) = auth_failures c /\ auth_failures c <= MAX_AUTH_FAILURES;
  inv_denied : denied -> account c = None /\ db c = d0 }.

(** What is left to read, TLS counted first. *)
Definition no_longer (c c' : Conn) : Prop :=
  encrypted c = false /\ encrypted c' = true \/ encrypted c' = encrypted c /\ (length (input c') <= length (input c))%nat.

Definition goes_on (c : Conn) (flow : Flow) (c' : Conn) : Prop :=
  no_longer c c' /\ match flow with Continue => auth_failures c' < MAX_AUTH_FAILURES | Close => True end.

Lemma no_longer_refl c : no_longer c c.
Proof. by right. Qed.

Lemma no_longer_trans c c' c'' : no_longer c c' -> no_longer c' c'' -> no_longer c c''.
Proof.
  unfold no_longer. intros [[H1 H1']|[H1 H1']] [[H2 H2']|[H2 H2']]; try (left; split; congruence). right. split; [congruence|lia].
Qed.

Section kept.
Context (denied : Prop) (d0 : Db).

Definition good (c : Conn) (flow : Flow) (c' : Conn) : Prop := inv denied d0 c' /\ goes_on c flow c'.

(** A step that leaves all but the output, and what is left to read, as it is. *)
Definition similar (c c' : Conn) : Prop :=
  encrypted c' = encrypted c /\ account c' = account c /\ auth_failures c' = auth_failures c /\ tried c' = tried c /\ db c' = db c
  /\ (length (input c') <= length (input c))%nat.

Lemma similar_inv c c' : similar c c' -> inv denied d0 c -> inv denied d0 c'.
Proof. intros (H1 & H2 & H3 & H4 & H5 & _) [Ht Hf Hd]. unfold wrong_logins in *. constructor; unfold wrong_logins; rewrite ?H1, ?H2, ?H3, ?H4, ?H5; done. Qed.

Lemma similar_good c c' flow : similar c c' -> inv denied d0 c -> auth_failures c < MAX_AUTH_FAILURES -> good c flow c'.
Proof.
  intros Hs Hi Hf. split; [by eapply similar_inv|]. destruct Hs as (H1 & _ & H3 & _ & _ & H6). split; [by right|]. destruct flow; [|done]. lia.
Qed.

Lemma similar_trans c c' c'' : similar c c' -> similar c' c'' -> similar c c''.
Proof. unfold similar. intros. destruct_and!. split_and!; congruence || lia. Qed.

Lemma good_after c c' flow c'' : similar c c' -> good c' flow c'' -> good c flow c''.
Proof. intros Hs [Hi [Hn Hf]]. split; [done|]. split; [|done]. eapply no_longer_trans; [|done]. destruct Hs as (? & _ & _ & _ & _ & ?). by right. Qed.

Lemma wp_next (Q : Read -> Conn -> Prop) F c :
  (forall r c', similar c c' -> match r with Command _ | TooBig => (length (input c') < length (input c))%nat | _ => True end -> Q r c') -> wp next_command Q F c.
Proof.
  intros H. unfold wp, next_command. destruct (read_command_rest (bool_decide (is_Some (account c))) (input c)) as (x & rest & -> & Hle & Hlt).
  apply H; [|done]. unfold similar. by split_and!.
Qed.

Lemma wp_send s (Q : unit -> Conn -> Prop) F c : (forall c', similar c c' -> Q tt c') -> wp (send s) Q F c.
Proof. intros H. apply H. unfold similar. by split_and!. Qed.

Lemma wp_tell t (Q : unit -> Conn -> Prop) F c : (forall c', similar c c' -> Q tt c') -> wp (tell t) Q F c.
Proof. intros H. apply H. unfold similar. by split_and!. Qed.

Lemma wp_answered s c : inv denied d0 c -> auth_failures c < MAX_AUTH_FAILURES -> forall F, wp (answered s) (good c) F c.
Proof. intros Hi Hf F. apply wp_bind, wp_send. intros c' Hs. apply wp_ret. by apply similar_good. Qed.

Lemma wp_bye s c : inv denied d0 c -> forall F, wp (bye s) (good c) F c.
Proof.
  intros Hi F. apply wp_bind, wp_send. intros c' Hs. apply wp_ret. split; [by eapply similar_inv|]. destruct Hs as (? & _ & _ & _ & _ & ?). split; [by right|done].
Qed.

(** A handler after a step that changes nothing that matters. *)
Lemma wp_after c c' (m : N Flow) F : similar c c' -> wp m (good c') F c' -> wp m (good c) F c'.
Proof. intros Hs. apply wp_mono; [|done]. intros flow c''. by apply good_after. Qed.

Lemma wp_taken r (Q : option (list Arg) -> Conn -> Prop) c : inv denied d0 c -> (forall o, Q o c) -> wp (taken r) Q (inv denied d0) c.
Proof. intros Hi H. destruct r; cbn [taken]; by repeat wp_step. Qed.

Lemma wp_response w (Q : option (list byte) -> Conn -> Prop) c : inv denied d0 c -> (forall o c', similar c c' -> Q o c') -> wp (read_response w) Q (inv denied d0) c.
Proof.
  intros Hi H. unfold read_response. case_match; [apply wp_ret, H; unfold similar; by split_and!|].
  apply wp_bind, wp_next. intros r c' Hs _. apply wp_bind, wp_taken; [by eapply similar_inv|]. intros o. apply wp_ret. by apply H.
Qed.

(** One more refused login, and whether the connection goes on after it. *)
Lemma refused_good t c : inv denied d0 (one_failure c) -> forall c', similar (one_failure c) c' -> wp (refused_login t) (good c) (inv denied d0) c'.
Proof.
  intros Hi1 c' Hs. assert (inv denied d0 c') as Hi' by by eapply similar_inv.
  assert (no_longer c c') as Hn by (destruct Hs as (? & _ & _ & _ & _ & ?); by right).
  assert (forall flow c'', good c' flow c'' -> good c flow c'') as Hgood.
  { intros flow c'' [Hi'' [Hn' Hf']]. split; [done|]. split; [by eapply no_longer_trans|done]. }
  unfold refused_login. apply wp_bind, wp_get. destruct (Z.leb_spec MAX_AUTH_FAILURES (auth_failures c'));
    (eapply wp_mono; [apply Hgood|done|]); [by apply wp_bye|]. by apply wp_answered.
Qed.

(** Logging in. *)
Definition tried_more (what : Credential) (said : Auth) (c : Conn) : Conn :=
  {| encrypted := encrypted c; account := account c; login := login c; auth_failures := auth_failures c;
     input := input c; db := db c; sent := sent c; told := told c; tried := tried c ++ [{| over_tls := encrypted c; credential := what; verdict := said |}] |}.

Lemma tried_more_wrong what said c : length (wrong_logins (tried_more what said c)) =
  (length (wrong_logins c) + if wrong_login {| over_tls := encrypted c; credential := what; verdict := said |} then 1 else 0)%nat.
Proof. unfold wrong_logins. cbn. rewrite List.filter_app, length_app. cbn [List.filter]. by case_match. Qed.

(** A login that is let in, or that the store cannot answer for. *)
Lemma inv_tried what said c : inv denied d0 c -> encrypted c = true ->
  wrong_login {| over_tls := encrypted c; credential := what; verdict := said |} = false -> inv denied d0 (tried_more what said c).
Proof.
  intros [[Ht Ha] [Hw Hf] Hd] He Hr. constructor; [|rewrite tried_more_wrong, Hr; cbn; lia|done].
  split; [|done]. apply Forall_app. split; [done|]. by constructor.
Qed.

(** A wrong login, counted. *)
Lemma inv_wrong what said c : inv denied d0 c -> encrypted c = true -> auth_failures c < MAX_AUTH_FAILURES ->
  wrong_login {| over_tls := encrypted c; credential := what; verdict := said |} = true -> inv denied d0 (one_failure (tried_more what said c)).
Proof.
  intros [[Ht Ha] [Hw Hf] Hd] He Hlt Hr. constructor; [| |done].
  - split; [|done]. apply Forall_app. split; [done|]. by constructor.
  - change (wrong_logins (one_failure ?x)) with (wrong_logins x). rewrite tried_more_wrong, Hr. cbn. lia.
Qed.

Lemma wp_logged_in w a t s c : (denied -> denies w) -> auth w = AuthOk a -> inv denied d0 c -> encrypted c = true -> auth_failures c < MAX_AUTH_FAILURES ->
  wp (tell t;; modify (set_login (Some a));; answered s) (good c) (inv denied d0) c.
Proof.
  intros Hw Ha Hi He Hf. apply wp_bind, wp_tell. intros c' Hs. apply wp_bind, wp_modify, wp_bind, wp_send. intros c'' Hs'. apply wp_ret.
  assert (inv denied d0 (set_login (Some a) c')) as Hl.
  { destruct Hs as (H1 & _ & H3 & H4 & _). destruct Hi as [Ht Hb Hd]. constructor; cbn.
    - split; [rewrite H4; apply Ht|]. intros _. by rewrite H1.
    - unfold wrong_logins. cbn. rewrite H3, H4. apply Hb.
    - intros Hden. specialize (Hw Hden). unfold denies in Hw. by rewrite Ha in Hw. }
  split; [by eapply similar_inv|]. destruct Hs as (H1 & _ & H3 & _ & _ & H6), Hs' as (H1' & _ & H3' & _ & _ & H6'). cbn in *.
  split; [right; split; [congruence|lia]|lia].
Qed.

Lemma wp_refused t (told : N unit) c : inv denied d0 (one_failure c) ->
  (forall (Q : unit -> Conn -> Prop) F, (forall c', similar c c' -> Q tt c') -> wp told Q F c) ->
  wp (told;; modify one_failure;; refused_login t) (good c) (inv denied d0) c.
Proof.
  intros Hi Htold. apply wp_bind, Htold. intros c' Hs. apply wp_bind, wp_modify. apply refused_good; [done|].
  unfold similar in *. destruct_and!. cbn. split_and!; try done. lia.
Qed.

Lemma wp_login w username password c : (denied -> denies w) -> inv denied d0 c -> encrypted c = true -> auth_failures c < MAX_AUTH_FAILURES ->
  wp (login_with w username password) (good c) (inv denied d0) c.
Proof.
  intros Hw Hi He Hf. unfold login_with. case_match; [by apply wp_answered|]. apply wp_bind, wp_modify. set (what := Password username password). fold (tried_more what (auth w) c).
  change (good c) with (good (tried_more what (auth w) c)).
  destruct (auth w) as [a|reason|] eqn:Ha; [eapply wp_logged_in; [done..|by apply inv_tried|done|done]| |by apply wp_answered, Hf; apply inv_tried].
  apply wp_refused; [by apply inv_wrong|]. intros Q F HQ. destruct reason; try (by apply wp_tell). apply wp_ret, HQ. unfold similar. by split_and!.
Qed.

Lemma wp_bearer w msg xoauth2 c : (denied -> denies w) -> inv denied d0 c -> encrypted c = true -> auth_failures c < MAX_AUTH_FAILURES ->
  wp (bearer_login w msg xoauth2) (good c) (inv denied d0) c.
Proof.
  intros Hw Hi He Hf. unfold bearer_login. destruct (if xoauth2 then _ else _) as [parsed|]; [|by apply wp_answered].
  destruct (blocked w); [by apply wp_answered|]. apply wp_bind, wp_modify. set (what := Token (user parsed) (token parsed)). fold (tried_more what (auth w) c).
  change (good c) with (good (tried_more what (auth w) c)). set (c' := tried_more what (auth w) c).
  assert (wrong_login {| over_tls := encrypted c; credential := what; verdict := auth w |} = true -> wp (tell (ToldFailure (default [] (user parsed)));; modify one_failure;;
              send (string_ (encode64 (sasl_bearer_error to_json xoauth2 (bs "mail") hostname)) ++ CRLF);;
              _ ← read_response w; refused_login (bs "The token is not valid")) (good c') (inv denied d0) c') as Hrefused.
  { intros Hwrong. assert (inv denied d0 (one_failure c')) as Hi1 by by apply inv_wrong. apply wp_bind, wp_tell. intros c1 H1. apply wp_bind, wp_modify, wp_bind, wp_send. intros c2 H2.
    assert (similar (one_failure c') c2) as Hs by (unfold similar in *; destruct_and!; cbn in *; split_and!; congruence || lia).
    apply wp_bind, wp_response; [by eapply similar_inv|]. intros o c3 H3. apply refused_good; [done|]. by eapply similar_trans. }
  assert (wrong_login {| over_tls := encrypted c; credential := what; verdict := auth w |} = false -> inv denied d0 c') as Hright by by apply inv_tried.
  unfold wrong_login in Hrefused, Hright. cbn [verdict credential what] in Hrefused, Hright.
  destruct (auth w) as [a|reason|] eqn:Ha; [|by apply Hrefused|by apply wp_answered; [apply Hright|]].
  destruct (sasl_user_matches (user parsed) (login_of a)); [by eapply wp_logged_in; [..|apply Hright| |]|by apply Hrefused].
Qed.

Lemma wp_authenticate w params c : (denied -> denies w) -> inv denied d0 c -> auth_failures c < MAX_AUTH_FAILURES ->
  wp (authenticate w params) (good c) (inv denied d0) c.
Proof.
  intros Hw Hi Hf. unfold authenticate. apply wp_bind, wp_get. case_match; [by apply wp_answered|].
  destruct (encrypted c) eqn:He; [|by apply wp_answered]. cbn [negb]. apply wp_bind.
  match goal with |- wp _ (fun r c' => wp (@?k r) _ _ c') _ _ => assert (forall r c', similar c c' -> wp (k r) (good c) (inv denied d0) c') as Hrest end.
  { intros r c' Hs. assert (inv denied d0 c') as Hi' by by eapply similar_inv.
    assert (encrypted c' = true /\ auth_failures c' < MAX_AUTH_FAILURES) as [He' Hf'] by (destruct Hs as (-> & _ & -> & _); done).
    eapply wp_after; [done|]. destruct r as [response|]; [|by apply wp_bye]. cbv zeta.
    repeat wp_step; first [by apply wp_answered | by apply wp_bearer | by apply wp_login]. }
  wp_step; [apply wp_ret, (Hrest (Some (text _))); unfold similar; by split_and!|].
  apply wp_bind, wp_send. intros c' Hs. destruct (late_response w); [by apply wp_ret, (Hrest None)|]. apply wp_bind, wp_next. intros r c'' Hs' _.
  apply wp_bind, wp_taken; [eapply similar_inv; [|done]; by eapply similar_trans|]. intros o. apply wp_ret, (Hrest (Some (response_of o))). by eapply similar_trans.
Qed.

Lemma wp_starttls w c : inv denied d0 c -> auth_failures c < MAX_AUTH_FAILURES -> wp (starttls w) (good c) (inv denied d0) c.
Proof.
  intros Hi Hf. unfold starttls. apply wp_bind, wp_get. destruct (encrypted c) eqn:He; [by apply wp_answered|].
  apply wp_bind, wp_send. intros c' Hs. assert (good c Close c') as Hclose by by apply similar_good.
  case_match; [by apply wp_ret|]. destruct (handshake w (input c)) as [inside|]; [|by apply wp_ret].
  apply wp_bind, wp_modify, wp_bind, wp_get, wp_bind, wp_send. intros c'' Hs'. apply wp_ret.
  destruct Hs as (H1 & H2 & H3 & H4 & H5 & _), Hs' as (G1 & G2 & G3 & G4 & G5 & _). cbn in *. destruct Hi as [Ht Hb Hd]. split.
  - constructor; [split; [rewrite G4, H4; apply Ht|done]|unfold wrong_logins; by rewrite G3, H3, G4, H4|]. rewrite G2, G5, H2, H5. done.
  - split; [left; split; congruence|]. lia.
Qed.

Lemma bye_closes t c : exists c', bye t c = (Ok Close, c').
Proof. by eexists. Qed.

(** A script command: only the scripts change. *)
Lemma wp_script w s params c : account c <> None -> inv denied d0 c -> auth_failures c < MAX_AUTH_FAILURES ->
  wp (run_script w s params) (good c) (inv denied d0) c.
Proof.
  intros Ha Hi Hf. unfold run_script. apply wp_bind, wp_get. set (a := match account c with Some a => account_id_of a | None => 0 end).
  pose proof (script_command_returns blob_of new_rowid validate failed_text (between w) a (now w) s params (db c)) as H. unfold wp in H.
  destruct (script_command _ _ _ _ _ _ _ _ _ _) as [[answer|e| |] d]; try done.
  apply wp_bind, wp_modify. assert (inv denied d0 (set_db d c)) as Hi'.
  { destruct Hi as [Ht Hb Hd]. constructor; cbn; [done|done|]. intros Hden. by destruct (Hd Hden). }
  eapply wp_mono; [|done|by apply wp_answered]. intros flow c' [Hg [Hn Hf']]. split; [done|]. split; [exact Hn|done].
Qed.

Lemma wp_holds w (Q : bool -> Conn -> Prop) F c : account c <> None -> inv denied d0 c ->
  (forall b c', encrypted c' = encrypted c -> account c' <> None -> auth_failures c' = auth_failures c -> input c' = input c -> inv denied d0 c' -> Q b c') ->
  wp (login_holds w) Q F c.
Proof.
  intros Ha Hi H. unfold login_holds. apply wp_bind, wp_get. repeat wp_step; apply H; try done.
  destruct Hi as [Ht Hb Hd]. constructor; cbn; [|done|].
  - split; [apply Ht|]. intros _. by apply Ht.
  - intros Hden. by destruct (Hd Hden).
Qed.

Lemma wp_dispatch w args c : (denied -> denies w) -> inv denied d0 c -> auth_failures c < MAX_AUTH_FAILURES ->
  wp (dispatch w args) (good c) (inv denied d0) c.
Proof.
  intros Hw Hi Hf. unfold dispatch. destruct args as [|[name|?] params]; try by apply wp_answered. set (n := to_ascii_uppercase name).
  unfold command. apply wp_bind, wp_get. cbv zeta. apply wp_bind.
  match goal with |- wp _ (fun b c' => wp (@?k b) _ _ c') _ _ =>
    assert (forall b c', encrypted c' = encrypted c -> bool_decide (is_Some (account c')) = bool_decide (is_Some (account c)) -> auth_failures c' = auth_failures c ->
      input c' = input c -> inv denied d0 c' -> wp (k b) (good c) (inv denied d0) c') as Hrest end.
  { intros b c' He Ha Hf' Hin Hi'. assert (auth_failures c' < MAX_AUTH_FAILURES) as Hlt by lia.
    eapply (wp_mono _ (good c') _ (inv denied d0)); [|done|].
    { intros flow c'' [Hi'' [Hn Hl]]. split; [done|]. split; [|done]. eapply no_longer_trans; [|done]. right. split; [done|]. by rewrite Hin. }
    destruct b; cbn [negb]; [|by apply wp_bye]. apply wp_bind, wp_get. rewrite <-Ha.
    set (logged := bool_decide (is_Some (account c'))). assert (logged = true -> account c' <> None) as Hlogged by (intros [? ->]%bool_decide_eq_true; done).
    repeat first [by apply wp_answered | by apply wp_starttls | by apply wp_authenticate | wp_step].
    - apply wp_send. intros c'' Hs. apply wp_ret. by apply similar_good.
    - eapply (wp_mono _ (good (set_login None c')) _ (inv denied d0)); [|done|].
      { intros flow c'' [Hi'' [Hn Hl]]. split; [done|]. split; [exact Hn|done]. }
      apply wp_answered; [|done]. destruct Hi' as [Ht Hb Hd]. constructor; cbn; [by split; [apply Ht|]|done|].
      intros Hden. by destruct (Hd Hden).
    - apply wp_script; [by apply Hlogged|done|done]. }
  wp_step; [|by apply wp_ret, (Hrest true)].
  apply andb_true_iff in Heqb as [Ha%bool_decide_eq_true _]. apply wp_holds; [by intros Hn; rewrite Hn in Ha; destruct Ha|done|].
  intros b c' He Hacc Hf' Hin Hi'. apply (Hrest b c'); try done. rewrite !bool_decide_true; [done|done|]. by apply not_eq_None_Some.
Qed.

(** A turn that goes on took something from the client. *)
Definition advanced (c c' : Conn) : Prop :=
  encrypted c = false /\ encrypted c' = true \/ encrypted c' = encrypted c /\ (length (input c') < length (input c))%nat.

Definition turned (c : Conn) (flow : Flow) (c' : Conn) : Prop := good c flow c' /\ (flow = Continue -> advanced c c').

Lemma wp_turn_bye t c : inv denied d0 c -> wp (bye t) (turned c) (inv denied d0) c.
Proof.
  intros Hi. destruct (bye_closes t c) as [c' Heq]. pose proof (wp_bye t c Hi (fun _ => True)) as H. unfold wp in *. rewrite Heq in *. by split.
Qed.

(** What was read makes the turn one that advances. *)
Lemma wp_turn_read (m : N Flow) c c' : similar c c' -> (length (input c') < length (input c))%nat ->
  wp m (good c') (inv denied d0) c' -> wp m (turned c) (inv denied d0) c'.
Proof.
  intros Hs Hlt. apply wp_mono; [|done]. intros flow c'' Hg. split; [by eapply good_after|]. intros _.
  destruct Hg as [_ [[[H1 H2]|[H1 H2]] _]], Hs as (H3 & _); [left; split; congruence|right; split; [congruence|lia]].
Qed.

Lemma wp_turn w c : (denied -> denies w) -> inv denied d0 c -> auth_failures c < MAX_AUTH_FAILURES -> wp (turn w) (turned c) (inv denied d0) c.
Proof.
  intros Hw Hi Hf. unfold turn. destruct (late w); [by apply wp_turn_bye|]. apply wp_bind, wp_next. intros r c' Hs Hlt.
  assert (inv denied d0 c') as Hi' by by eapply similar_inv. assert (auth_failures c' < MAX_AUTH_FAILURES) as Hf' by (destruct Hs as (_ & _ & -> & _); done).
  destruct r as [args| | |problem|]; [apply wp_turn_read; [done|done|by apply wp_dispatch]|apply wp_turn_read; [done|done|by apply wp_answered]| | |done].
  - apply wp_ret. split; [by eapply similar_good|done].
  - eapply wp_mono; [|done|by apply wp_turn_bye]. intros flow c'' [Hg Ha]. split; [by eapply good_after|]. intros Hc.
    destruct (Ha Hc) as [[H1 H2]|[H1 H2]], Hs as (H3 & _ & _ & _ & _ & H4); [left; split; congruence|right; split; [congruence|lia]].
Qed.

(** Enough turns: the bytes before TLS, and then those that came through it. *)
Lemma turns_end : forall c (worlds : nat -> World), (forall n, denied -> denies (worlds n)) -> inv denied d0 c -> auth_failures c < MAX_AUTH_FAILURES ->
  exists fuel, wp (turns fuel worlds) (fun _ => inv denied d0) (inv denied d0) c.
Proof.
  assert (forall e n c worlds, encrypted c = e -> (length (input c) <= n)%nat ->
    (e = false -> forall c (worlds : nat -> World), encrypted c = true -> (forall n, denied -> denies (worlds n)) -> inv denied d0 c -> auth_failures c < MAX_AUTH_FAILURES ->
       exists fuel, wp (turns fuel worlds) (fun _ => inv denied d0) (inv denied d0) c) ->
    (forall n, denied -> denies (worlds n)) -> inv denied d0 c -> auth_failures c < MAX_AUTH_FAILURES ->
    exists fuel, wp (turns fuel worlds) (fun _ => inv denied d0) (inv denied d0) c) as H.
  { intros e. induction n as [|n IH]; intros c worlds He Hn Htls Hw Hi Hf;
      pose proof (wp_turn (worlds O) c (Hw O) Hi Hf) as Hturn; unfold wp in Hturn; destruct (turn (worlds O) c) as [[flow|[]| |] c'] eqn:Eturn; try done.
    2, 4: exists 1%nat; unfold wp; cbn [turns]; unfold mbind, M_bind; by rewrite Eturn.
    all: destruct Hturn as [[Hi' [_ Hf']] Hadv]; destruct flow; [|exists 1%nat; unfold wp; cbn [turns]; unfold mbind, M_bind; by rewrite Eturn].
    all: assert (exists fuel, wp (turns fuel (fun n => worlds (S n))) (fun _ => inv denied d0) (inv denied d0) c') as [fuel Hfuel];
      [|exists (S fuel); unfold wp; cbn [turns]; unfold mbind, M_bind; rewrite Eturn; exact Hfuel].
    all: destruct (Hadv eq_refl) as [[H1 H2]|[H1 H2]]; [apply Htls; [congruence|done|intros k; apply Hw|done|done]|].
    - lia.
    - apply (IH c'); [congruence|lia|done|intros k; apply Hw|done|done]. }
  intros c worlds. destruct (encrypted c) eqn:He; [by apply (H true (length (input c)) c)|].
  apply (H false (length (input c)) c worlds He); [lia|]. intros _ c1 w1 H1. by apply (H true (length (input c1)) c1).
Qed.
End kept.

(** C36: A ManageSieve connection ends, whatever the client sends before and inside TLS and
    whatever the store and the limiter say, when the client hangs up at the latest. Until
    then at most three of the logins the store answers for are wrong, no password or token is tried and nobody
    is logged in before TLS is on, and a client that nobody lets in leaves the scripts of
    everyone as they are. *)
Theorem sieve_connection_safe worlds client d0 :
  exists fuel c, (run fuel worlds (accepted client d0)).2 = c /\ returns (run fuel worlds (accepted client d0)).1
    /\ (length (wrong_logins c) <= 3)%nat
    /\ Forall (fun t => over_tls t = true) (tried c) /\ (account c <> None -> encrypted c = true)
    /\ ((forall n, denies (worlds n)) -> account c = None /\ db c = d0).
Proof.
  set (denied := forall n, denies (worlds n)). set (c0 := accepted client d0).
  assert (exists c1, greeting c0 = (Ok tt, c1) /\ inv denied d0 c1 /\ auth_failures c1 = 0) as (c1 & Hg & Hi & Hf).
  { eexists. split; [reflexivity|]. split; [|done]. by constructor. }
  destruct (turns_end denied d0 c1 worlds) as [fuel H]; [intros n Hd; apply Hd|done|by rewrite Hf|].
  exists fuel, (turns fuel worlds c1).2. unfold run, mbind, M_bind. rewrite Hg. split; [done|].
  unfold wp in H. destruct (turns fuel worlds c1) as [[[]|[]| |] c2]; try done; destruct H as [[Ht Ha] Hb Hd]; cbn [fst snd]; split_and!; try done; unfold MAX_AUTH_FAILURES in Hb; lia.
Qed.
End session.
