(* ===== verification/SmtpHeaders.v ===== *)
(** * Header fields of a raw message (crates\/uwumail-smtp\/src\/headers.rs)

    Splitting a message into its fields, reading and removing them, the authserv-id of
    Authentication-Results, and line endings. Fields are the bytes of the message; what
    is removed is what no field with the unwanted name, and no verdict in this server's
    name, is left of. *)

From S2P Require Import Prelude Utf8.

Module Headers.

(** [start] is where [raw] begins, as the pointers of the source tell. *)
Record RawHeader := { name : list byte; start : nat; raw : list byte }.

(** ** Splitting *)

(** The line at the front, its break included. *)
Fixpoint first_line (s : list byte) : list byte :=
  match s with b :: s' => if decide (b = x0a) then [b] else b :: first_line s' | [] => [] end.

Definition is_blank (line : list byte) : bool := bool_decide (line = [x0d; x0a]) || bool_decide (line = [x0a]).

Definition starts_folded (line : list byte) : bool := match line with b :: _ => bool_decide (b = x20 \/ b = x09) | [] => false end.

(** The name of the field a line begins. *)
Definition field_name (line : list byte) : option (list byte) :=
  colon ← Prelude.position (fun b => bool_decide (b = ":"%byte)) line;
  name ← from_utf8 (take colon line);
  if bool_decide (name = []) || existsb (fun b => bool_decide (b = x20 \/ b = x09)) name then None else Some name.

(** A folded line belongs to the last field. *)
Definition extend (line : list byte) (h : RawHeader) : RawHeader := {| name := name h; start := start h; raw := raw h ++ line |}.

Definition extend_last (line : list byte) (headers : list RawHeader) : list RawHeader :=
  match rev headers with [] => [] | h :: before => rev before ++ [extend line h] end.

(** From [pos] on, where [rest] is what is left; every turn takes a line. *)
Fixpoint split_loop (fuel : nat) (rest : list byte) (pos : nat) (headers : list RawHeader) : list RawHeader * nat :=
  match fuel, rest with
  | O, _ | _, [] => (headers, pos)
  | S fuel, _ =>
      let line := first_line rest in
      let after := drop (length line) rest in
      let line_end := (pos + length line)%nat in
      if is_blank line then (headers, line_end)
      else if starts_folded line then
        if bool_decide (headers = []) then (headers, pos)
        else split_loop fuel after line_end (extend_last line headers)
      else
        match field_name line with
        | None => (headers, pos)
        | Some name => split_loop fuel after line_end (headers ++ [{| name := name; start := pos; raw := line |}])
        end
  end.

(** The fields, and where the body starts. *)
Definition split (raw : list byte) : list RawHeader * nat := split_loop (length raw) raw 0 [].

(** ** Reading *)

Definition line_break (b : byte) : bool := bool_decide (b = x0d \/ b = x0a).

Fixpoint skip_spaces (s : list byte) : list byte :=
  match s with b :: s' => if is_ascii_whitespace b then skip_spaces s' else s | [] => [] end.

Definition trim_spaces (s : list byte) : list byte := rev (skip_spaces (rev (skip_spaces s))).

(** [RawHeader::value] *)
Definition value (h : RawHeader) : list byte :=
  let text := from_utf8_lossy (raw h) in
  let value := match split_once ":"%byte text with Some (_, v) => v | None => [] end in
  join (bs " ") (List.filter (fun s => negb (bool_decide (s = []))) (map trim_spaces (split_test line_break value))).

Definition is_named (n : list byte) (h : RawHeader) : bool := eq_ignore_ascii_case (name h) n.

Definition count (message n : list byte) : nat := length (List.filter (is_named n) (split message).1).
Definition first_value (message n : list byte) : option (list byte) := value <$> List.find (is_named n) (split message).1.
Definition values (message n : list byte) : list (list byte) := map value (List.filter (is_named n) (split message).1).
Definition header_block (message : list byte) : list byte := take (split message).2 message.

Definition ends_with (suffix s : list byte) : bool := bool_decide (is_Some (strip_suffix suffix s)).

Definition header_block_fault (message : list byte) : option (list byte) :=
  let '(headers, body_start) := split message in
  let block := take body_start message in
  if negb (bool_decide (body_start = length message) || ends_with [x0d; x0a; x0d; x0a] block || ends_with [x0a; x0a] block)
  then Some (bs "the message has a malformed header block")
  else if (1 <? length (List.filter (is_named (bs "From")) headers))%nat then Some (bs "a message may have only one From header")
  else None.

(** ** Removing *)

(** [without]: the message between the fields that go. *)
Fixpoint without_from (message : list byte) (pos : nat) (removed : list RawHeader) : list byte :=
  match removed with
  | [] => drop pos message
  | h :: removed => slice message pos (start h) ++ without_from message (start h + length (raw h)) removed
  end.

Definition without (message : list byte) (unwanted : RawHeader -> bool) : list byte :=
  match List.filter unwanted (split message).1 with
  | [] => message
  | removed => without_from message 0 removed
  end.

(** ** The authserv-id of Authentication-Results *)

Definition MAX_AUTH_WORD : nat := 1024.
Definition MAX_AUTH_PART_WORDS : nat := 32.

(** One part while it is read: its words, whether there are too many, the word and
    whether it is too long, whether in quotes, how deep in comments. *)
Record Part := { words : list (list Z); overflow : bool; word : list Z; too_long : bool; quoted : bool; depth : nat }.

Definition new_part : Part := {| words := []; overflow := false; word := []; too_long := false; quoted := false; depth := 0 |}.

Definition end_word (p : Part) : Part :=
  let kept := negb (bool_decide (word p = [])) && negb (too_long p) in
  let room := (length (words p) <? MAX_AUTH_PART_WORDS)%nat in
  {| words := if kept && room then words p ++ [word p] else words p;
     overflow := overflow p || (kept && negb room); word := []; too_long := false; quoted := quoted p; depth := depth p |}.

Definition push (c : Z) (p : Part) : Part :=
  if too_long p then p
  else if (MAX_AUTH_WORD <? length (utf8 (word p)) + length (utf8_char c))%nat
  then {| words := words p; overflow := overflow p; word := []; too_long := true; quoted := quoted p; depth := depth p |}
  else {| words := words p; overflow := overflow p; word := word p ++ [c]; too_long := too_long p; quoted := quoted p; depth := depth p |}.

Definition set_quoted (q : bool) (p : Part) : Part :=
  {| words := words p; overflow := overflow p; word := word p; too_long := too_long p; quoted := q; depth := depth p |}.
Definition set_depth (d : nat) (p : Part) : Part :=
  {| words := words p; overflow := overflow p; word := word p; too_long := too_long p; quoted := quoted p; depth := d |}.

Definition part_words (p : Part) : list (list Z) := if overflow p then [] else words p.

(** The end of the value. *)
Definition part_end (p : Part) (malformed : bool) : list (list Z) * option (list Z) * bool :=
  (part_words (end_word p), None, malformed || quoted p || (0 <? depth p)%nat).

(** [next]: the words of the part, what follows it (none at the end), and whether the part
    was malformed. *)
Fixpoint next_part (cs : list Z) (p : Part) (malformed : bool) : list (list Z) * option (list Z) * bool :=
  match cs with
  | [] => part_end p malformed
  | c :: cs =>
      if quoted p then
        if c =? bz "\" then match cs with c :: cs => next_part cs (push c p) malformed | [] => part_end p malformed end
        else if c =? 0x22 then next_part cs (set_quoted false p) malformed
        else next_part cs (push c p) malformed
      else if (0 <? depth p)%nat then
        if c =? bz "\" then match cs with _ :: cs => next_part cs p malformed | [] => part_end p malformed end
        else if c =? bz "(" then next_part cs (set_depth (depth p + 1) p) malformed
        else if c =? bz ")" then next_part cs (set_depth (depth p - 1) p) malformed
        else next_part cs p malformed
      else if c =? 0x22 then next_part cs (set_quoted true p) malformed
      else if c =? bz ")" then next_part cs (end_word p) true
      else if c =? bz "(" then next_part cs (set_depth 1 (end_word p)) malformed
      else if c =? bz ";" then (part_words (end_word p), Some cs, malformed)
      else if (c =? 0x20) || (c =? 0x09) || (c =? 0x0d) || (c =? 0x0a) then next_part cs (end_word p) malformed
      else next_part cs (push c p) malformed
  end.

(** [auth_results_parts]: every part, and whether the value was well formed. *)
Fixpoint parts_fuel (fuel : nat) (cs : list Z) (malformed : bool) : list (list (list Z)) * bool :=
  match fuel with
  | O => ([], malformed)
  | S fuel =>
      match next_part cs new_part malformed with
      | (words, None, malformed) => ([words], malformed)
      | (words, Some cs, malformed) => let '(parts, malformed) := parts_fuel fuel cs malformed in (words :: parts, malformed)
      end
  end.

Definition auth_results_parts (value : list byte) : list (list (list byte)) * bool :=
  let cs := default [] (chars value) in
  let '(parts, malformed) := parts_fuel (S (length cs)) cs false in (map (map utf8) parts, negb malformed).

Fixpoint trim_end_dots_rev (s : list byte) : list byte :=
  match s with b :: s' => if decide (b = "."%byte) then trim_end_dots_rev s' else s | [] => [] end.

Definition trim_end_dots (s : list byte) : list byte := rev (trim_end_dots_rev (rev s)).

Definition authserv_id (value : list byte) : option (list byte) :=
  first ← head (auth_results_parts value).1;
  id ← head first;
  let id := trim_end_dots id in
  if bool_decide (id = []) then None else Some id.

Definition claims_to_be (value hostname : list byte) : bool :=
  match authserv_id value with Some authserv => eq_ignore_ascii_case authserv hostname | None => false end.

Definition strip_forged_auth_results (message hostname : list byte) : list byte :=
  without message (fun h => is_named (bs "Authentication-Results") h && claims_to_be (value h) hostname).
Definition strip_spam_verdicts (message : list byte) : list byte :=
  without message (fun h => is_named (bs "X-Spam-Score") h || is_named (bs "X-Spam-Status") h).
Definition strip_virus_verdicts (message : list byte) : list byte := without message (is_named (bs "X-Virus-Scanned")).
Definition LABEL_HEADER : list byte := bs "X-UwUMail-Label".
Definition strip_label_headers (message : list byte) : list byte := without message (is_named LABEL_HEADER).
Definition strip_faces (message : list byte) : list byte := without message (is_named (bs "Face")).
Definition strip_verification_info (message : list byte) : list byte := without message (is_named (bs "Verification-Info")).

(** ** Line endings and directions *)

Definition is_bidi_control (c : Z) : bool :=
  existsb (Z.eqb c) [0x200E; 0x200F; 0x061C] || ((0x202A <=? c) && (c <=? 0x202E)) || ((0x2066 <=? c) && (c <=? 0x2069)).

Definition without_bidi (text : list byte) : list byte := utf8 (List.filter (fun c => negb (is_bidi_control c)) (default [] (chars text))).

Fixpoint crlf_only (s : list byte) : list byte :=
  match s with
  | [] => []
  | b :: s' =>
      if decide (b = x0d) then
        [x0d; x0a] ++ match s' with c :: s'' => if decide (c = x0a) then crlf_only s'' else crlf_only s' | [] => [] end
      else if decide (b = x0a) then [x0d; x0a] ++ crlf_only s'
      else b :: crlf_only s'
  end.

Fixpoint normalize_from (previous : byte) (s : list byte) : list byte :=
  match s with
  | [] => []
  | b :: s' => (if decide (b = x0a /\ previous <> x0d) then [x0d; b] else [b]) ++ normalize_from b s'
  end.

Definition normalize_line_endings (s : list byte) : list byte := normalize_from x00 s.

Definition nl : list byte := [x0d; x0a].

Example forged_behind_comment :
  let message := bs "Authentication-Results: (by our filter) mx.example.org.; dkim=pass" ++ nl ++ bs " more" ++ nl ++ bs "Subject: Hi" ++ nl ++ nl ++ bs "body" in
  strip_forged_auth_results message (bs "mx.example.org") = bs "Subject: Hi" ++ nl ++ nl ++ bs "body".
Proof. vm_compute. reflexivity. Qed.


(** ** What a message is to [split]

    A relation that says how the fields lie in the message: each is its first line with
    the folded lines behind it, and the last ends where [split] stops. *)

(** [folds s f after]: the folded lines [f] at the front of [s], and what follows. *)
Inductive folds : list byte -> list byte -> list byte -> Prop :=
| folds_end s : starts_folded s = false -> folds s [] s
| folds_line s f after :
    starts_folded s = true -> folds (drop (length (first_line s)) s) f after -> folds s (first_line s ++ f) after.

(** Where no field begins: at the end, a blank line, or a line that is none. *)
Definition stops (s : list byte) : Prop :=
  starts_folded s = false /\ (s = [] \/ is_blank (first_line s) = true \/ field_name (first_line s) = None).

Definition Field : Type := list byte * list byte.

Inductive fields : list byte -> list Field -> list byte -> Prop :=
| fields_end s : stops s -> fields s [] s
| fields_one s n f after hs stop :
    s <> [] -> starts_folded s = false -> is_blank (first_line s) = false -> field_name (first_line s) = Some n ->
    folds (drop (length (first_line s)) s) f after -> fields after hs stop ->
    fields s ((n, first_line s ++ f) :: hs) stop.

(** The fields at their places. *)
Fixpoint place (pos : nat) (hs : list Field) : list RawHeader :=
  match hs with
  | [] => []
  | (n, r) :: hs => {| name := n; start := pos; raw := r |} :: place (pos + length r) hs
  end.

Definition total (hs : list Field) : list byte := concat (map snd hs).

(** The blank line is read with the fields. *)
Definition blank_length (stop : list byte) : nat := if is_blank (first_line stop) then length (first_line stop) else 0%nat.

(** *** Lines *)

Lemma first_line_drop s : s = first_line s ++ drop (length (first_line s)) s.
Proof. induction s as [|b s IH]; [done|]. simpl. case_decide; simpl; [by rewrite drop_0 | by rewrite <- IH]. Qed.

Lemma first_line_nonempty s : s <> [] -> first_line s <> [].
Proof. destruct s as [|b s]; [done|]. simpl. by case_decide. Qed.

Lemma first_line_length s : s <> [] -> (0 < length (first_line s))%nat.
Proof. intros Hs%first_line_nonempty. by destruct (first_line s); [|simpl; lia]. Qed.

Lemma starts_folded_line s : starts_folded (first_line s) = starts_folded s.
Proof. destruct s as [|b s]; [done|]. simpl. by case_decide. Qed.

(** The line at the front is the same whatever follows it, if something did. *)
Lemma first_line_app s t :
  (drop (length (first_line s)) s = [] -> t = []) -> first_line (first_line s ++ t) = first_line s.
Proof.
  induction s as [|b s IH]; simpl; [intros ->; done|]. case_decide as Hb; simpl; [by rewrite Hb|].
  intros Ht. rewrite decide_False by done. by rewrite IH.
Qed.

Lemma app_length_drop (l t : list byte) : drop (length l) (l ++ t) = t.
Proof. apply drop_app_length. Qed.

(** *** The relation and the loop *)

Lemma folds_app s f after : folds s f after -> s = f ++ after /\ starts_folded after = false.
Proof.
  induction 1 as [s H|s f after H _ [IH Ha]]; [done|]. split; [|done].
  rewrite (first_line_drop s) at 1. by rewrite IH, <- app_assoc.
Qed.

Lemma fields_app s hs stop : fields s hs stop -> s = total hs ++ stop.
Proof.
  induction 1 as [s H|s n f after hs stop Hs Hf Hb Hn Hfolds _ IH]; [done|].
  unfold total in *. simpl. apply folds_app in Hfolds as [Ha _]. rewrite (first_line_drop s) at 1. by rewrite Ha, IH, <- !app_assoc.
Qed.

Lemma folds_exists s : exists f after, folds s f after.
Proof.
  induction s as [s IH] using (induction_ltof1 _ length). unfold ltof in IH.
  destruct (starts_folded s) eqn:E; [|eexists _, _; by constructor].
  destruct (IH (drop (length (first_line s)) s)) as (f & after & H).
  - assert (s <> []) by (by intros ->). rewrite length_drop. pose proof (first_line_length s ltac:(done)).
    assert (0 < length s)%nat by (destruct s; [done | simpl; lia]). lia.
  - eexists _, _. by apply folds_line.
Qed.

Lemma fields_exists s : starts_folded s = false -> exists hs stop, fields s hs stop.
Proof.
  induction s as [s IH] using (induction_ltof1 _ length). unfold ltof in IH. intros Hf.
  destruct (decide (s = [])) as [->|Hs]; [eexists _, _; constructor; split; [done | by left]|].
  destruct (is_blank (first_line s)) eqn:Hb; [eexists _, _; constructor; split; [done | by right; left]|].
  destruct (field_name (first_line s)) as [n|] eqn:Hn; [|eexists _, _; constructor; split; [done | by right; right]].
  destruct (folds_exists (drop (length (first_line s)) s)) as (f & after & Hfolds).
  pose proof (folds_app _ _ _ Hfolds) as [Ha Haf]. pose proof (first_line_length s Hs) as Hl.
  destruct (IH after) as (hs & stop & H); [|done|eexists _, _; by eapply fields_one].
  pose proof (f_equal length Ha) as Hlen. rewrite length_drop, length_app in Hlen. assert (0 < length s)%nat by (destruct s; [done | simpl; lia]). lia.
Qed.

(** One turn of the loop, where something is left. *)
Lemma split_loop_turn fuel s pos headers :
  s <> [] -> split_loop (S fuel) s pos headers =
    (let line := first_line s in
     let after := drop (length line) s in
     let line_end := (pos + length line)%nat in
     if is_blank line then (headers, line_end)
     else if starts_folded s then
       if bool_decide (headers = []) then (headers, pos)
       else split_loop fuel after line_end (extend_last line headers)
     else
       match field_name line with
       | None => (headers, pos)
       | Some name => split_loop fuel after line_end (headers ++ [{| name := name; start := pos; raw := line |}])
       end).
Proof. intros Hs. rewrite <- starts_folded_line. by destruct s. Qed.

Lemma folded_not_blank s : starts_folded s = true -> is_blank (first_line s) = false.
Proof.
  rewrite <- starts_folded_line. unfold is_blank. intros H. apply orb_false_iff.
  split; apply bool_decide_eq_false; intros E; by rewrite E in H.
Qed.

Lemma folds_loop s f after pos hs h fuel :
  folds s f after -> (length s <= fuel)%nat ->
  exists fuel', (length after <= fuel')%nat /\
    split_loop fuel s pos (hs ++ [h]) = split_loop fuel' after (pos + length f) (hs ++ [extend f h]).
Proof.
  intros H. revert pos h fuel. induction H as [s H|s f after H _ IH]; intros pos h fuel Hfuel.
  { exists fuel. split; [done|]. unfold extend. rewrite app_nil_r, Nat.add_0_r. by destruct h. }
  assert (s <> []) as Hs by (by intros ->). pose proof (first_line_length s Hs) as Hl.
  assert (0 < length s)%nat by (destruct s; [done | simpl; lia]).
  destruct fuel as [|fuel]; [lia|].
  destruct (IH (pos + length (first_line s))%nat (extend (first_line s) h) fuel) as (fuel' & Hfuel' & E).
  { rewrite length_drop. lia. }
  exists fuel'. split; [done|]. rewrite length_app, Nat.add_assoc.
  assert (extend (first_line s ++ f) h = extend f (extend (first_line s) h)) as -> by (unfold extend; simpl; by rewrite app_assoc).
  rewrite <- E, split_loop_turn by done. cbv zeta.
  rewrite folded_not_blank, H by done. rewrite bool_decide_eq_false_2 by (by destruct hs).
  unfold extend_last. rewrite rev_app_distr. simpl. by rewrite rev_involutive.
Qed.

Lemma stops_loop s pos hs fuel :
  stops s -> (length s <= fuel)%nat -> split_loop fuel s pos hs = (hs, pos + blank_length s)%nat.
Proof.
  intros [Hf Hs] Hfuel. unfold blank_length. destruct (decide (s = [])) as [->|Hne]; [destruct fuel; simpl; f_equal; lia|].
  destruct fuel as [|fuel]; [destruct s; simpl in *; [done | lia]|].
  rewrite split_loop_turn by done. cbv zeta. destruct (is_blank (first_line s)) eqn:Hb; [done|]. rewrite Hf.
  destruct Hs as [?|[?|Hn]]; [done..|]. rewrite Hn, Nat.add_0_r. done.
Qed.

Lemma fields_loop s hs stop pos before fuel :
  fields s hs stop -> (length s <= fuel)%nat ->
  split_loop fuel s pos before = (before ++ place pos hs, pos + length (total hs) + blank_length stop)%nat.
Proof.
  intros H. revert pos before fuel. induction H as [s H|s n f after hs stop Hs Hf Hb Hn Hfolds H IH]; intros pos before fuel Hfuel.
  { rewrite (stops_loop s) by done. simpl. by rewrite app_nil_r, Nat.add_0_r. }
  pose proof (first_line_length s Hs) as Hl. assert (0 < length s)%nat by (destruct s; [done | simpl; lia]).
  destruct fuel as [|fuel]; [lia|]. rewrite split_loop_turn by done. cbv zeta.
  rewrite Hb, Hf, Hn.
  destruct (folds_loop _ _ _ (pos + length (first_line s)) before {| name := n; start := pos; raw := first_line s |} fuel Hfolds)
    as (fuel' & Hfuel' & ->); [rewrite length_drop; lia|].
  rewrite IH by done. unfold total. simpl. rewrite <- app_assoc. unfold extend. simpl. rewrite !length_app.
  f_equal; [|lia]. do 2 f_equal. f_equal. lia.
Qed.

(** [split] of a message that begins with a field, or with none. *)
Lemma split_fields s hs stop : fields s hs stop -> split s = (place 0 hs, length (total hs) + blank_length stop)%nat.
Proof. intros H. unfold split. by rewrite (fields_loop _ _ _ _ _ _ H). Qed.

Lemma split_folded s : starts_folded s = true -> split s = ([], 0%nat).
Proof.
  intros H. assert (s <> []) as Hs by (by intros ->). unfold split.
  assert (exists k, length s = S k) as [k ->] by (destruct s; [done | by eexists]).
  rewrite split_loop_turn by done. cbv zeta. by rewrite folded_not_blank, H by done.
Qed.

(** *** Taking fields out *)

Lemma folds_put s f after t : folds s f after -> starts_folded t = false -> (after = [] -> t = []) -> folds (f ++ t) f t.
Proof.
  intros H Ht. induction H as [s H|s f after H Hf IH]; intros Hempty; [by constructor|].
  pose proof (folds_app _ _ _ Hf) as [Hd _].
  assert (first_line (first_line s ++ f ++ t) = first_line s) as Hl.
  { apply first_line_app. rewrite Hd. intros [-> ->]%app_nil. by rewrite Hempty. }
  rewrite <- app_assoc. rewrite <- Hl at 2. apply folds_line.
  - by rewrite <- starts_folded_line, Hl, starts_folded_line.
  - rewrite Hl, drop_app_length. by apply IH.
Qed.

Lemma fields_start s hs stop : fields s hs stop -> starts_folded s = false.
Proof. destruct 1 as [s []|]; done. Qed.

Lemma fields_keep s hs stop (keep : Field -> bool) :
  fields s hs stop -> fields (total (List.filter keep hs) ++ stop) (List.filter keep hs) stop /\ (s = [] -> stop = []).
Proof.
  induction 1 as [s H|s n f after hs stop Hs Hf Hb Hn Hfolds H [IH Hstop]]; [split; [by constructor | done]|]. split; [|done].
  simpl. destruct (keep _); [|done]. unfold total in *. simpl. rewrite <- !app_assoc.
  set (rest := concat _ ++ stop) in *.
  pose proof (fields_start _ _ _ IH) as Hrest. pose proof (folds_app _ _ _ Hfolds) as [Hd _].
  assert (after = [] -> rest = []) as Hempty.
  { intros ->. subst rest. inversion H; subst; [|done]. done. }
  assert (first_line (first_line s ++ f ++ rest) = first_line s) as Hl.
  { apply first_line_app. rewrite Hd. intros [-> ->]%app_nil. by rewrite Hempty. }
  rewrite <- Hl at 2. eapply fields_one; rewrite ?Hl; try done.
  - intros [Hnil _]%app_nil. by apply first_line_nonempty in Hs.
  - by rewrite <- starts_folded_line, Hl, starts_folded_line.
  - rewrite drop_app_length. by eapply folds_put.
Qed.

(** *** What [without] leaves *)

(** A field by itself, wherever it stands. *)
Definition field (h : RawHeader) : Field := (name h, raw h).
Definition body (message : list byte) : list byte := drop (split message).2 message.

Lemma place_fields pos hs : map field (place pos hs) = hs.
Proof. revert pos. induction hs as [|[n r] hs IH]; intros pos; [done|]. simpl. by rewrite IH. Qed.

Lemma filter_place pos hs (u : Field -> bool) :
  map field (List.filter (fun h => u (field h)) (place pos hs)) = List.filter u hs.
Proof.
  revert pos. induction hs as [|[n r] hs IH]; intros pos; [done|]. simpl.
  change (u (field {| name := n; start := pos; raw := r |})) with (u (n, r)). destruct (u (n, r)); simpl; by rewrite IH.
Qed.

Lemma slice_all (m : list byte) from to : (from <= to)%nat -> slice m from to ++ drop to m = drop from m.
Proof.
  intros H. unfold slice. replace (drop to m) with (drop (to - from) (drop from m)) by (rewrite drop_drop; f_equal; lia).
  apply take_drop.
Qed.

Lemma without_from_place m (u : Field -> bool) hs stop from pos :
  (from <= pos)%nat -> drop pos m = total hs ++ stop ->
  without_from m from (List.filter (fun h => u (field h)) (place pos hs)) =
    slice m from pos ++ total (List.filter (fun f => negb (u f)) hs) ++ stop.
Proof.
  revert from pos. induction hs as [|[n r] hs IH]; intros from pos Hle Hd.
  { cbn [place List.filter without_from total map concat app]. unfold total in *. simpl in *. rewrite <- Hd. by rewrite slice_all. }
  assert (drop (pos + length r) m = total hs ++ stop) as Hd'.
  { rewrite <- drop_drop, Hd. unfold total. simpl. by rewrite <- app_assoc, drop_app_length. }
  simpl. change (u (field {| name := n; start := pos; raw := r |})) with (u (n, r)). destruct (u (n, r)); simpl.
  - rewrite IH by (done || lia). unfold slice at 2. rewrite Nat.sub_diag. simpl. done.
  - rewrite IH by (done || lia). set (kept := List.filter _ hs). change (total ((n, r) :: kept)) with (r ++ total kept).
    rewrite <- (app_assoc r), (app_assoc (slice m from pos)). f_equal.
    unfold slice. replace (pos + length r - from)%nat with ((pos - from) + length r)%nat by lia.
    rewrite <- take_take_drop, drop_drop. replace (from + (pos - from))%nat with pos by lia.
    rewrite Hd. change (total ((n, r) :: hs)) with (r ++ total hs). by rewrite <- app_assoc, take_app_length.
Qed.

Lemma body_fields s hs stop : fields s hs stop -> body s = drop (blank_length stop) stop.
Proof.
  intros H. unfold body. rewrite (split_fields _ _ _ H), (fields_app _ _ _ H). simpl. by rewrite <- drop_drop, drop_app_length.
Qed.

(** Whatever goes by what a field says: exactly that is gone, from what [split] reads. *)
Lemma without_exact m (u : Field -> bool) :
  let left := without m (fun h => u (field h)) in
  map field (split left).1 = List.filter (fun f => negb (u f)) (map field (split m).1) /\ body left = body m.
Proof.
  intros left. subst left. unfold without. destruct (starts_folded m) eqn:Hf.
  { rewrite (split_folded m Hf). simpl. by rewrite (split_folded m Hf). }
  destruct (fields_exists m Hf) as (hs & stop & H).
  assert ((match List.filter (fun h => u (field h)) (split m).1 with [] => m
           | removed => without_from m 0 removed end) = total (List.filter (fun f => negb (u f)) hs) ++ stop) as ->.
  { rewrite (split_fields _ _ _ H). cbn [fst].
    assert (without_from m 0 (List.filter (fun h => u (field h)) (place 0 hs)) =
              total (List.filter (fun f => negb (u f)) hs) ++ stop) as <-.
    { rewrite (without_from_place m u hs stop 0 0) by (done || by rewrite drop_0; apply fields_app). done. }
    by destruct (List.filter _ (place 0 hs)); [simpl; rewrite drop_0|]. }
  destruct (fields_keep _ _ _ (fun f => negb (u f)) H) as [Hk _].
  rewrite (body_fields _ _ _ Hk), (body_fields _ _ _ H), (split_fields _ _ _ Hk), (split_fields _ _ _ H).
  cbn [fst]. by rewrite !place_fields.
Qed.

(** A verdict in this server's name. *)
Definition forged (hostname : list byte) (f : Field) : bool :=
  let h := {| name := f.1; start := 0; raw := f.2 |} in is_named (bs "Authentication-Results") h && claims_to_be (value h) hostname.

(** After [strip_forged_auth_results] the fields of a message, as the server itself
    reads them, are exactly the fields it had before that are no Authentication-Results in
    this server's name, in their order and byte by byte, and the body is the same. So no
    forged verdict is left, not even one that removing another brings to light, and nothing
    else is lost. *)
Theorem strip_forged_exact m hostname :
  let left := strip_forged_auth_results m hostname in
  map field (split left).1 = List.filter (fun f => negb (forged hostname f)) (map field (split m).1) /\ body left = body m.
Proof. exact (without_exact m (forged hostname)). Qed.

(** The same of every other [strip_]: what is named so is gone. *)
Lemma strip_named m n :
  map field (split (without m (is_named n))).1 =
    List.filter (fun f => negb (eq_ignore_ascii_case f.1 n)) (map field (split m).1) /\ body (without m (is_named n)) = body m.
Proof. exact (without_exact m (fun f => eq_ignore_ascii_case f.1 n)). Qed.

(** ** Line endings *)

(** Every CR is followed by LF and every LF comes after CR. *)
Fixpoint only_crlf (s : list byte) : bool :=
  match s with
  | [] => true
  | b :: s' =>
      if decide (b = x0d) then match s' with c :: s'' => bool_decide (c = x0a) && only_crlf s'' | [] => false end
      else negb (bool_decide (b = x0a)) && only_crlf s'
  end.

(** [crlf_only] leaves no CR or LF on its own, which nothing behind this server could
    read as the end of a message or of a line that this server did not see; and a message
    that has none is not touched. *)
Theorem crlf_only_exact s : only_crlf (crlf_only s) = true /\ (only_crlf s = true -> crlf_only s = s).
Proof.
  induction s as [s IH] using (induction_ltof1 _ length). unfold ltof in IH. destruct s as [|b s]; [done|]. simpl.
  case_decide as Hr.
  - subst b. destruct s as [|c s]; [done|]. case_decide as Hc.
    + subst c. simpl. destruct (IH s) as [IH1 IH2]; [simpl; lia|]. split; [done|].
      intros H. by rewrite IH2.
    + simpl. rewrite (bool_decide_eq_false_2 (c = x0a)) by done. split; [|done].
      destruct (IH (c :: s)) as [IH1 _]; [simpl; lia|]. exact IH1.
  - case_decide as Hn; [subst b; simpl; split; [apply IH; simpl; lia | done]|].
    simpl. rewrite decide_False, bool_decide_eq_false_2 by done. destruct (IH s) as [IH1 IH2]; [simpl; lia|].
    split; [done|]. intros H. by rewrite IH2.
Qed.

(** [normalize_line_endings] leaves no LF on its own, and is [crlf_only] where no CR is on its own. *)
Fixpoint no_bare_lf (previous : byte) (s : list byte) : bool :=
  match s with [] => true | b :: s' => negb (bool_decide (b = x0a /\ previous <> x0d)) && no_bare_lf b s' end.

Lemma normalize_no_bare_lf s : forall previous, no_bare_lf previous (normalize_from previous s) = true.
Proof.
  induction s as [|b s IH]; intros previous; [done|]. simpl. case_decide as Hb; simpl.
  - destruct Hb as [-> Hp]. simpl. by rewrite IH.
  - by rewrite bool_decide_eq_false_2, IH by done.
Qed.

Lemma normalize_same s : forall previous, no_bare_lf previous s = true -> normalize_from previous s = s.
Proof.
  induction s as [|b s IH]; intros previous H; [done|]. simpl in *. apply andb_prop in H as [Hb H].
  apply negb_true_iff, bool_decide_eq_false in Hb. rewrite decide_False by done. simpl. by rewrite IH.
Qed.

Lemma normalize_line_endings_idem s : normalize_line_endings (normalize_line_endings s) = normalize_line_endings s.
Proof. apply normalize_same, normalize_no_bare_lf. Qed.

Lemma normalize_length s : forall previous, (length (normalize_from previous s) <= 2 * length s)%nat.
Proof. induction s as [|b s IH]; intros previous; [done|]. simpl. specialize (IH b). case_decide; simpl; lia. Qed.

End Headers.
