(* ===== verification/Address.v ===== *)
(** * Mail addresses (crates\/uwumail-store\/src\/address.rs)

    How every address that comes in from outside is read: a local part and a domain, both
    in the one form the store looks up. Unicode lower casing and IDNA are variables. What
    is read has no byte that could end a line, an angle bracket or a header, and reads as
    itself again. *)

From S2P Require Import Prelude Utf8.

Fixpoint trim_start_byte (d : byte) (s : list byte) : list byte :=
  match s with b :: s' => if decide (b = d) then trim_start_byte d s' else s | [] => [] end.

(** [trim_start_matches] and [trim_end_matches] of a character of one byte. *)
Definition trim_end_byte (d : byte) (s : list byte) : list byte := rev (trim_start_byte d (rev s)).

Definition ends_with_byte (d : byte) (s : list byte) : bool := bool_decide (last s = Some d).
Definition starts_with_byte (d : byte) (s : list byte) : bool := bool_decide (head s = Some d).

Fixpoint has_double (d : byte) (s : list byte) : bool :=
  match s with
  | a :: (b :: _) as s' => bool_decide (a = d /\ b = d) || has_double d s'
  | _ => false
  end.

Definition valid_label (label : list byte) : bool :=
  negb (bool_decide (label = [])) && (length label <=? 63)%nat && negb (starts_with_byte "-"%byte label) && negb (ends_with_byte "-"%byte label)
  && forallb (fun b => is_ascii_alphanumeric b || bool_decide (b = "-"%byte)) label.

Definition valid_domain (ascii : list byte) : bool := (length ascii <=? 253)%nat && forallb valid_label (split_on "."%byte ascii).

(** [char::is_control] *)
Definition is_control (c : Z) : bool := ((0 <=? c) && (c <? 32)) || ((127 <=? c) && (c <? 160)).

(** The characters an address is written with around a local part. *)
Definition special : list byte := bs "<>()[]\,;:@" ++ [x22].

Definition local_char (c : Z) : bool := negb (is_whitespace c) && negb (is_control c) && negb (existsb (fun b => bz b =? c) special).

Definition valid_local (local : list byte) : bool :=
  negb (bool_decide (local = [])) && (length local <=? 64)%nat && negb (starts_with_byte "."%byte local) && negb (ends_with_byte "."%byte local)
  && negb (has_double "."%byte local) && match chars local with Some cs => forallb local_char cs | None => false end.

(** [base_local_part] *)
Definition base_local_part (local : list byte) : list byte :=
  match split_once "+"%byte local with
  | Some (base, _) => if bool_decide (base = []) then local else base
  | None => local
  end.

Section address.
(** [str::to_lowercase] and [idna::domain_to_ascii]. *)
Context (to_lowercase : list byte -> list byte) (domain_to_ascii : list byte -> option (list byte)).

Definition normalize_domain (domain : list byte) : option (list byte) :=
  let domain := trim_end_byte "."%byte (trim domain) in
  if bool_decide (domain = []) then None
  else ascii ← domain_to_ascii domain; if valid_domain ascii then Some ascii else None.

Definition normalize_address (address : list byte) : option (list byte * list byte) :=
  let address := trim_end_byte ">"%byte (trim_start_byte "<"%byte (trim address)) in
  '(local, domain) ← rsplit_once "@"%byte address;
  let local := to_lowercase local in
  if valid_local local then domain ← normalize_domain domain; Some (local, domain) else None.

Definition address_of (p : list byte * list byte) : list byte := p.1 ++ bs "@" ++ p.2.
End address.

Example reads_addresses :
  let normalize := normalize_address to_ascii_lowercase (fun d => Some (to_ascii_lowercase d)) in
  normalize (bs " <Mini@Example.org> ") = Some (bs "mini", bs "example.org")
  /\ normalize (bs "no-at-sign") = None /\ normalize (bs "a b@example.org") = None /\ normalize (bs "mini@-bad-.example") = None
  /\ base_local_part (bs "mini+shop") = bs "mini" /\ base_local_part (bs "+only") = bs "+only".
Proof. vm_compute. done. Qed.

(** ** Bytes of a normalized address *)

(** No control, space, quote, bracket, or other separator. *)
Definition plain_byte (b : byte) : bool := (127 <? bz b) || ((32 <? bz b) && (bz b <? 127) && negb (existsb (fun s => bz s =? bz b) special)).

Lemma utf8_char_byte c b : is_scalar c = true -> b ∈ utf8_char c -> bz b = c \/ 128 <= bz b.
Proof.
  intros Hs Hb. apply is_scalar_range in Hs. unfold utf8_char in Hb. repeat case_match; rewrite ?elem_of_cons, ?elem_of_nil in Hb;
    destruct_or? Hb; try done; subst b; rewrite bz_zb_small by dlia; dlia.
Qed.

Lemma local_bytes local : valid_local local = true -> Forall (fun b => plain_byte b = true) local.
Proof.
  unfold valid_local. intros [_ Hc]%andb_prop. destruct (chars local) as [cs|] eqn:E; [|done].
  apply chars_Some in E as [-> Hs]. apply Forall_forall. intros b (c & Hb & Hin)%list_elem_of_bind.
  rewrite Forall_forall in Hs. specialize (Hs c Hin). rewrite forallb_forall in Hc.
  apply list_elem_of_In, Hc in Hin. unfold local_char in Hin.
  apply andb_prop in Hin as [[Hw Hctl]%andb_prop Hsp]. unfold plain_byte.
  destruct (utf8_char_byte c b Hs Hb) as [<-|Hbig]; [|lia].
  destruct (127 <? bz b) eqn:Hbig; [done|]. apply orb_true_iff. right. pose proof (bz_range b).
  apply negb_true_iff in Hw, Hctl, Hsp. unfold is_whitespace in Hw. unfold is_control in Hctl.
  apply orb_false_iff in Hw as [[Hw1 Hw2]%orb_false_iff Hw3]. apply bool_decide_eq_false in Hw2.
  assert (bz b <> 32) by (intros Heq; apply Hw2; rewrite Heq; set_solver).
  apply andb_true_intro. split; [lia|]. apply negb_true_iff, Hsp.
Qed.

Lemma split_on_bytes (P : byte -> Prop) d s : Forall (Forall P) (split_on d s) -> Forall (fun b => b = d \/ P b) s.
Proof.
  induction s as [|b s IH]; [constructor|]. simpl. case_decide as Hb.
  - intros [_ H]%Forall_cons. constructor; [by left | by apply IH].
  - destruct (split_on d s) as [|part parts]; [intros [[Hp _]%Forall_cons _]%Forall_cons; constructor; [by right|by apply IH]|].
    intros [[Hp Hpart]%Forall_cons Hparts]%Forall_cons. constructor; [by right | apply IH; by constructor].
Qed.

Lemma split_on_nonempty d s : split_on d s <> [].
Proof. destruct s; [done|]. simpl. case_decide; [done|]. by destruct (split_on d s). Qed.

Lemma split_on_one d s p : split_on d s = [p] -> p = s /\ d ∉ s.
Proof.
  revert p. induction s as [|b s IH]; intros p; simpl; [intros [= <-]; split; [done | apply not_elem_of_nil]|].
  case_decide as Hb; [intros [= _ H]; by apply split_on_nonempty in H|].
  destruct (split_on d s) as [|q qs] eqn:E; [by apply split_on_nonempty in E|]. intros [= <- ->].
  destruct (IH q eq_refl) as [-> Hn]. split; [done|]. by apply not_elem_of_cons.
Qed.

Lemma split_on_last d s : exists l p, last (split_on d s) = Some p /\ s = l ++ p /\ d ∉ p.
Proof.
  induction s as [|b s (l & p & Hl & -> & Hp)]; [exists [], []; split_and!; [done..|apply not_elem_of_nil]|]. simpl.
  case_decide as Hb.
  - exists (b :: l), p. split_and!; [|done..]. pose proof (split_on_nonempty d (l ++ p)). destruct (split_on d (l ++ p)); [done|exact Hl].
  - destruct (split_on d (l ++ p)) as [|q [|q' qs]] eqn:E; [by apply split_on_nonempty in E| |by exists (b :: l), p].
    apply split_on_one in E as [-> Hn]. exists [], (b :: l ++ p). split_and!; [done..|]. by apply not_elem_of_cons.
Qed.

Definition domain_byte (b : byte) : bool := is_ascii_alphanumeric b || bool_decide (b = "-"%byte) || bool_decide (b = "."%byte).

Lemma valid_label_inv l : valid_label l = true -> l <> [] /\ Forall (fun b => (is_ascii_alphanumeric b || bool_decide (b = "-"%byte)) = true) l.
Proof.
  unfold valid_label. intros [[[[Hn _]%andb_prop _]%andb_prop _]%andb_prop H]%andb_prop.
  apply negb_true_iff, bool_decide_eq_false in Hn. split; [done|]. rewrite forallb_forall in H.
  apply Forall_forall. intros b Hb. by apply H, list_elem_of_In.
Qed.

Lemma domain_bytes d : valid_domain d = true -> Forall (fun b => domain_byte b = true) d /\ d <> [] /\ last d <> Some "."%byte.
Proof.
  unfold valid_domain. intros [_ H]%andb_prop. rewrite forallb_forall in H.
  assert (forall l, l ∈ split_on "."%byte d -> l <> [] /\ Forall (fun b => (is_ascii_alphanumeric b || bool_decide (b = "-"%byte)) = true) l) as Hl
    by (intros l Hl; by apply valid_label_inv, H, list_elem_of_In).
  destruct (split_on_last "."%byte d) as (before & p & Hp & -> & Hdot). apply last_Some in Hp as [parts Hp].
  destruct (Hl p) as [Hne _]; [rewrite Hp; set_solver|]. split_and!.
  - assert (Forall (Forall (fun b => (is_ascii_alphanumeric b || bool_decide (b = "-"%byte)) = true)) (split_on "."%byte (before ++ p))) as Hall
      by (apply Forall_forall; intros l Hin; by apply Hl).
    apply split_on_bytes in Hall. eapply Forall_impl; [exact Hall|]. intros b [->|Hb]; [done|]. unfold domain_byte. by rewrite Hb.
  - intros [_ ->]%app_nil. done.
  - rewrite last_app. destruct (last p) as [x|] eqn:Hx; [|by apply last_None in Hx].
    intros [= ->]. apply last_Some in Hx as [q ->]. set_solver.
Qed.

Lemma domain_byte_plain b : domain_byte b = true -> plain_byte b = true /\ graphic b = true /\ b <> "@"%byte /\ b <> ">"%byte.
Proof. destruct b; vm_compute; intros H; try discriminate H; split_and!; done. Qed.

Lemma plain_byte_at b : plain_byte b = true -> b <> "@"%byte /\ b <> "<"%byte.
Proof. destruct b; vm_compute; intros H; try discriminate H; split; done. Qed.

(** Text whose first and last characters are no blanks is kept when it is trimmed. *)
Lemma trim_kept c cs c' :
  Forall (fun c => is_scalar c = true) (c :: cs) -> last (c :: cs) = Some c' -> is_whitespace c = false -> is_whitespace c' = false ->
  trim (utf8 (c :: cs)) = utf8 (c :: cs).
Proof.
  intros Hs Hl Hc Hc'. assert (trim_start (utf8 (c :: cs)) = utf8 (c :: cs)) as E.
  { pose proof (Forall_inv Hs) as Hsc. simpl in Hsc. change (utf8 (c :: cs)) with (utf8_char c ++ utf8 cs). unfold trim_start.
    destruct (length _) eqn:El; [|cbn [trim_start_fuel]; by rewrite utf8_step_char, Hc].
    pose proof (utf8_char_nonempty c). rewrite length_app in El. destruct (utf8_char c); [done | simpl in El; lia]. }
  unfold trim. rewrite E. unfold trim_end. rewrite chars_utf8 by done.
  apply last_Some in Hl as [before ->]. rewrite rev_app_distr. cbn [rev app drop_whitespace]. rewrite Hc'.
  cbn [rev]. by rewrite rev_involutive.
Qed.

Section laws.
Context (to_lowercase : list byte -> list byte) (domain_to_ascii : list byte -> option (list byte)).

Lemma normalize_address_inv a local domain :
  normalize_address to_lowercase domain_to_ascii a = Some (local, domain) ->
  valid_local local = true /\ valid_domain domain = true
  /\ (exists l, local = to_lowercase l) /\ (exists d, domain_to_ascii d = Some domain).
Proof.
  unfold normalize_address. destruct (rsplit_once _ _) as [[l d]|]; [|done]. simpl.
  destruct (valid_local (to_lowercase l)) eqn:Hl; [|done]. unfold normalize_domain.
  case_bool_decide; [done|]. destruct (domain_to_ascii _) as [x|] eqn:Ed; [|done]. simpl.
  destruct (valid_domain x) eqn:Hx; [|done]. intros [= <- <-]. split_and!; [done..|by eexists|by eexists].
Qed.

Lemma normalize_domain_again domain :
  valid_domain domain = true -> normalize_domain domain_to_ascii domain = ascii ← domain_to_ascii domain; if valid_domain ascii then Some ascii else None.
Proof.
  intros (Hb & Hne & Hdot)%domain_bytes. unfold normalize_domain. rewrite trim_graphic.
  - unfold trim_end_byte. assert (trim_start_byte "."%byte (rev domain) = rev domain) as ->.
    { destruct (rev domain) as [|b d] eqn:E; [done|]. simpl. rewrite decide_False; [done|]. intros ->. apply Hdot.
      rewrite <- (rev_involutive domain), E. simpl. apply last_snoc. }
    rewrite rev_involutive. by rewrite bool_decide_eq_false_2.
  - eapply Forall_impl; [exact Hb|]. intros b H. by apply domain_byte_plain in H as (_ & ? & _).
Qed.

(** The address of both parts is read as these parts. *)
Lemma normalize_address_of local domain :
  valid_local local = true -> valid_domain domain = true ->
  normalize_address to_lowercase domain_to_ascii (address_of (local, domain)) =
    (let local := to_lowercase local in
     if valid_local local then domain ← normalize_domain domain_to_ascii domain; Some (local, domain) else None).
Proof.
  intros Hl Hd. pose proof (local_bytes local Hl) as Hlb. pose proof (domain_bytes domain Hd) as (Hdb & Hne & _).
  unfold normalize_address. assert (trim (address_of (local, domain)) = address_of (local, domain)) as ->.
  { unfold address_of. simpl. pose proof Hl as Hl'. unfold valid_local in Hl'. apply andb_prop in Hl' as [Hl' Hc].
    destruct (chars local) as [cs|] eqn:E; [|done]. apply chars_Some in E as [-> Hs].
    destruct cs as [|c cs]; [done|]. apply andb_prop in Hc as [Hc _].
    assert (utf8 (c :: cs) ++ "@"%byte :: domain = utf8 (c :: (cs ++ bz "@" :: map bz domain))) as ->.
    { change (c :: cs ++ bz "@" :: map bz domain) with ((c :: cs) ++ map bz ("@"%byte :: domain)). rewrite utf8_app. f_equal.
      symmetry. apply utf8_ascii. constructor; [done|]. eapply Forall_impl; [exact Hdb|]. intros b Hb. apply domain_byte_plain in Hb as (_ & Hg & _).
      by apply graphic_char. }
    destruct (last domain) as [e|] eqn:He; [|by apply last_None in He].
    assert (e ∈ domain) as Hin by (apply last_Some in He as [? ->]; set_solver).
    rewrite Forall_forall in Hdb. pose proof (Hdb e Hin) as Hg. apply domain_byte_plain in Hg as (_ & Hg & _).
    apply (trim_kept c _ (bz e)).
    - inversion Hs; subst. constructor; [done|]. apply Forall_app; split; [done|]. apply Forall_forall. intros z Hz.
      assert (exists b, z = bz b /\ bz b < 128) as (b & -> & Hb).
      { apply elem_of_cons in Hz as [->|(b & -> & Hb)%list_elem_of_fmap]; [by exists "@"%byte|]. exists b. split; [done|].
        apply Hdb, domain_byte_plain in Hb as (_ & Hb & _). unfold graphic in Hb. lia. }
      apply is_scalar_range. pose proof (bz_range b). lia.
    - apply last_Some in He as [before ->]. rewrite map_app. simpl.
      change (c :: cs ++ bz "@" :: map bz before ++ [bz e]) with ((c :: cs) ++ (bz "@" :: map bz before) ++ [bz e]).
      rewrite app_assoc. apply last_snoc.
    - unfold local_char in Hc. apply andb_prop in Hc as [[Hc _]%andb_prop _]. by apply negb_true_iff in Hc.
    - by apply graphic_char in Hg as [_ ?]. }
  assert (trim_start_byte "<"%byte (address_of (local, domain)) = address_of (local, domain)) as ->.
  { unfold address_of. simpl. destruct local as [|b l]; [done|]. apply Forall_inv in Hlb. simpl.
    rewrite decide_False; [done|]. by apply plain_byte_at in Hlb as [_ ?]. }
  assert (trim_end_byte ">"%byte (address_of (local, domain)) = address_of (local, domain)) as ->.
  { unfold trim_end_byte, address_of. simpl. destruct (last domain) as [e|] eqn:He; [|by apply last_None in He].
    apply last_Some in He as [before ->]. assert (e <> ">"%byte) by (apply Forall_app in Hdb as [_ Hdb]; apply Forall_inv in Hdb; by apply domain_byte_plain in Hdb as (_ & _ & _ & ?)).
    replace (local ++ "@"%byte :: before ++ [e]) with ((local ++ "@"%byte :: before) ++ [e]) by (by rewrite <- app_assoc).
    rewrite rev_app_distr. simpl. rewrite decide_False by done. simpl. by rewrite rev_involutive. }
  unfold address_of. simpl. rewrite rsplit_once_app; [done|]. intros Hat. rewrite Forall_forall in Hdb.
  apply Hdb, domain_byte_plain in Hat. naive_solver.
Qed.
End laws.

(** An address that was read is at most 64 bytes before the [@] and 253 behind it; none
    of these is a blank, a control character, a quote or a separator of mail syntax, and
    the domain is letters, digits, hyphens and dots: it cannot end a line, close an angle
    bracket or begin a parameter where it is written out. Written out, it is read as
    itself, so what one part of the server stores is what the others look up. *)
Theorem normalized_addresses to_lowercase domain_to_ascii a local domain
  (lower_idem : forall s, to_lowercase (to_lowercase s) = to_lowercase s)
  (ascii_idem : forall d x, domain_to_ascii d = Some x -> valid_domain x = true -> domain_to_ascii x = Some x) :
  normalize_address to_lowercase domain_to_ascii a = Some (local, domain) ->
  Forall (fun b => plain_byte b = true) local /\ (0 < length local <= 64)%nat
  /\ Forall (fun b => domain_byte b = true) domain /\ (0 < length domain <= 253)%nat
  /\ normalize_address to_lowercase domain_to_ascii (address_of (local, domain)) = Some (local, domain).
Proof.
  intros H. apply normalize_address_inv in H as (Hl & Hd & (l & ->) & (d & Hx)).
  pose proof (domain_bytes domain Hd) as (Hdb & Hne & _). split_and!.
  - by apply local_bytes.
  - unfold valid_local in Hl. destruct (to_lowercase l); [done | simpl; lia].
  - unfold valid_local in Hl. apply andb_prop in Hl as [[[[[_ Hl]%andb_prop _]%andb_prop _]%andb_prop _]%andb_prop _]. by apply Nat.leb_le.
  - done.
  - destruct domain; [done | simpl; lia].
  - unfold valid_domain in Hd. apply andb_prop in Hd as [Hd _]. by apply Nat.leb_le.
  - rewrite normalize_address_of by done. cbv zeta. rewrite lower_idem, Hl, normalize_domain_again by done.
    rewrite (ascii_idem d domain Hx Hd). simpl. by rewrite Hd.
Qed.

Lemma normalized_addresses_witness :
  let normalize := normalize_address to_ascii_lowercase (fun d => Some (to_ascii_lowercase d)) in
  normalize (bs " <Mini+Shop@Mail.Example.ORG.> ") = Some (bs "mini+shop", bs "mail.example.org")
  /\ normalize (bs "mini+shop@mail.example.org") = Some (bs "mini+shop", bs "mail.example.org").
Proof.
  intros normalize. assert (normalize (bs " <Mini+Shop@Mail.Example.ORG.> ") = Some (bs "mini+shop", bs "mail.example.org")) as H
    by (vm_compute; reflexivity).
  split; [exact H|]. refine (proj2 (proj2 (proj2 (proj2 (normalized_addresses _ _ _ _ _ _ _ H))))).
  - apply to_ascii_lowercase_idem.
  - intros d x [= <-] _. by rewrite to_ascii_lowercase_idem.
Defined.
