(* ===== verification/SmtpSession.v ===== *)
(** * An SMTP session (crates\/uwumail-smtp\/src\/inbound.rs)

    What a client on the MX or a submission port can do: the commands, AUTH, the
    recipients, DATA and BDAT, and the loop that reads for them. smtp-proto reads the
    bytes ([Receivers]); the store, the limiter and the clock answer through a [World] for
    each step. What becomes of a message that was taken whole is [receive] for other
    servers' mail and [submit] for our people's: here it is what they were handed
    ([handed]), and their answer. Sending does not fail. *)

From S2P Require Import Prelude Effects Utf8 Network Srs Sasl SmtpHeaders Address ImapSessionDispatch.

Module Smtp.

Definition MAX_HOPS : nat := 50.
Definition MAX_ERRORS : Z := 10.
Definition MAX_AUTH_FAILURES : Z := 3.
(** Milliseconds. *)
Definition NO_PROGRESS_LIMIT : Z := 180 * 1000.
Definition TRANSFER_LIMIT : Z := 600 * 1000.
Definition READ : nat := 16 * 1024.

(** ** Data *)

Inductive ListenerKind := Mx | Submission | SubmissionTls.

Definition is_submission (k : ListenerKind) : bool := match k with Mx => false | _ => true end.

Record Account := { account_id : Z; account_login : list byte }.

Record Envelope := { env_address : list byte; env_size : Z; env_id : option (list byte) }.

Inductive ReportKind := Tls | Dmarc.

Module Masked.
Inductive MaskedState := Pending | Enabled | Disabled | Deleted.
End Masked.

Record MaskedDelivery := { masked_id : Z; masked_account : option Z; masked_state : Masked.MaskedState }.

Definition delivers_to (m : MaskedDelivery) : option Z :=
  match masked_state m with Masked.Deleted => None | _ => masked_account m end.

Inductive WhoMaySend := Anyone | Members | Domain.

#[export] Instance WhoMaySend_eq_dec : EqDecision WhoMaySend.
Proof. solve_decision. Defined.

Record GroupDelivery := { group_address : list byte; who_may_send : WhoMaySend; members : list Z }.

Record GroupEntry := { entry_address : list byte; restricted : bool }.

Record Recipient := {
  rcpt_address : list byte; local_account : option Z; srs_return : option (list byte); report : option ReportKind;
  forward_to : option (list (list byte * option Z)); trap : bool; group : option GroupEntry; masked : option MaskedDelivery;
  notify_flags : Z; orcpt : option (list byte) }.

(** A mailbox as RCPT asks about it. *)
Record Mailbox := { has_mailbox : bool; quota_bytes : Z; used_bytes : Z }.

(** ** What smtp-proto reads *)

Inductive Mechanism := PLAIN | LOGIN | OAUTHBEARER | XOAUTH2 | OtherMechanism.

Record MailFrom := { from_address : list byte; from_size : Z; from_env_id : option (list byte) }.
Record RcptTo := { to_address : list byte; to_flags : Z; to_orcpt : option (list byte) }.

Inductive Request :=
  | Ehlo (host : list byte) | Helo (host : list byte) | Lhlo | StartTls
  | Auth_ (mechanism : Mechanism) (initial_response : list byte)
  | Mail (from : MailFrom) | Rcpt (to : RcptTo) | Data_ | Bdat_ (chunk_size : Z) (is_last : bool)
  | Rset | Noop | Quit_ | Vrfy | Help | Expn | Etrn | Atrn | Burl.

Inductive ProtoError := UnknownCommand | ResponseTooLong | InvalidSenderAddress | InvalidRecipientAddress | OtherError (text : list byte).

Inductive Ingested := Parsed (request : Request) | NeedsMoreData | Failed (err : ProtoError).

(** The receivers: each takes bytes from the front of the input, and says what is left. *)
Class Receivers := {
  RequestReceiver : Type; request_new : RequestReceiver;
  request_ingest : RequestReceiver -> list byte -> RequestReceiver * list byte * Ingested;
  DataReceiver : Type; data_new : DataReceiver;
  data_ingest : DataReceiver -> list byte -> list byte -> DataReceiver * list byte * list byte * bool;
  BdatReceiver : Type; bdat_new : Z -> bool -> BdatReceiver; bdat_is_last : BdatReceiver -> bool;
  bdat_ingest : BdatReceiver -> list byte -> list byte -> BdatReceiver * list byte * list byte * bool;
  DummyDataReceiver : Type; dummy_new_data : DataReceiver -> DummyDataReceiver; dummy_new_bdat : Z -> DummyDataReceiver;
  dummy_ingest : DummyDataReceiver -> list byte -> DummyDataReceiver * list byte * bool;
  LineReceiver : Type; line_new : LineReceiver; line_buf : LineReceiver -> list byte;
  line_ingest : LineReceiver -> list byte -> LineReceiver * list byte * bool }.

Inductive AuthStep :=
  | PlainResponse | LoginUsername | LoginPassword (username : list byte) | BearerResponse (xoauth2 : bool) | BearerFailed.

Inductive State `{Receivers} :=
  | SCommand (receiver : RequestReceiver)
  | SData (receiver : DataReceiver)
  | SDataDiscard (receiver : DummyDataReceiver)
  | SBdat (receiver : BdatReceiver)
  | SBdatTooBig (receiver : DummyDataReceiver) (last : bool)
  | SBdatDiscard (receiver : DummyDataReceiver)
  | SAuth (step : AuthStep) (line : LineReceiver).

Inductive Next := Continue | NData | NBdat (size : Z) (last : bool) | NBdatDiscard (size : Z) | NAuth (step : AuthStep) | NStartTls | NQuit.

(** ** The session *)

(** [Taken]: during STARTTLS. [Server] is TLS, with its description. *)
Inductive Stream := Plain | Server (description : list byte) | Taken.

Definition stream_is_tls (s : Stream) : bool := match s with Server _ => true | _ => false end.

Record Origin := { o_peer : IpAddr; o_helo : list byte; o_tls : option (list byte); o_submitted : bool }.

(** What was given to [receive] or, with an account, to [submit]. *)
Record Handed := { h_account : option Account; h_origin : Origin; h_envelope : Envelope; h_recipients : list Recipient; h_raw : list byte }.

(** [MailAuth] or the failure of the store. *)
Inductive Auth := AuthOk (account : Account) | AuthDenied (reason : Denied) | AuthFailed.

(** What the store was asked to let in, and its answer. *)
Inductive Credential := Password (login password : list byte) | Token (user : option (list byte)) (token : list byte).

Record Try := { over_tls : bool; credential : Credential; verdict : Auth }.

(** What the limiter was told. *)
Inductive Told := ToldSuccess (username login : list byte) | ToldUnknown (username : list byte) | ToldFailure (username : list byte).

(** Behind the fields of the source: what was sent, what the limiter was told, the
    passwords and tokens that were tried, whether over TLS and what the store said of them,
    and what was handed on. *)
Record Session := {
  stream : Stream; peer : IpAddr; kind : ListenerKind; helo : option (list byte); account : option Account;
  envelope : option Envelope; recipients : list Recipient; message : list byte; message_too_big : bool;
  errors : Z; auth_failures : Z; messages_ended : Z;
  sent : list byte; told : list Told; tried : list Try; handed : list Handed }.

Definition new (st : Stream) (p : IpAddr) (k : ListenerKind) : Session :=
  {| stream := st; peer := p; kind := k; helo := None; account := None; envelope := None; recipients := []; message := [];
     message_too_big := false; errors := 0; auth_failures := 0; messages_ended := 0; sent := []; told := []; tried := []; handed := [] |}.

(** The fields that change, one at a time. *)
Definition set_stream x c := {| stream := x; peer := peer c; kind := kind c; helo := helo c; account := account c; envelope := envelope c;
  recipients := recipients c; message := message c; message_too_big := message_too_big c; errors := errors c; auth_failures := auth_failures c;
  messages_ended := messages_ended c; sent := sent c; told := told c; tried := tried c; handed := handed c |}.
Definition set_helo x c := {| stream := stream c; peer := peer c; kind := kind c; helo := x; account := account c; envelope := envelope c;
  recipients := recipients c; message := message c; message_too_big := message_too_big c; errors := errors c; auth_failures := auth_failures c;
  messages_ended := messages_ended c; sent := sent c; told := told c; tried := tried c; handed := handed c |}.
Definition set_account x c := {| stream := stream c; peer := peer c; kind := kind c; helo := helo c; account := x; envelope := envelope c;
  recipients := recipients c; message := message c; message_too_big := message_too_big c; errors := errors c; auth_failures := auth_failures c;
  messages_ended := messages_ended c; sent := sent c; told := told c; tried := tried c; handed := handed c |}.
Definition set_envelope x c := {| stream := stream c; peer := peer c; kind := kind c; helo := helo c; account := account c; envelope := x;
  recipients := recipients c; message := message c; message_too_big := message_too_big c; errors := errors c; auth_failures := auth_failures c;
  messages_ended := messages_ended c; sent := sent c; told := told c; tried := tried c; handed := handed c |}.
Definition set_recipients x c := {| stream := stream c; peer := peer c; kind := kind c; helo := helo c; account := account c; envelope := envelope c;
  recipients := x; message := message c; message_too_big := message_too_big c; errors := errors c; auth_failures := auth_failures c;
  messages_ended := messages_ended c; sent := sent c; told := told c; tried := tried c; handed := handed c |}.
Definition set_message x big c := {| stream := stream c; peer := peer c; kind := kind c; helo := helo c; account := account c; envelope := envelope c;
  recipients := recipients c; message := x; message_too_big := big; errors := errors c; auth_failures := auth_failures c;
  messages_ended := messages_ended c; sent := sent c; told := told c; tried := tried c; handed := handed c |}.
Definition set_counts e f m c := {| stream := stream c; peer := peer c; kind := kind c; helo := helo c; account := account c; envelope := envelope c;
  recipients := recipients c; message := message c; message_too_big := message_too_big c; errors := e; auth_failures := f;
  messages_ended := m; sent := sent c; told := told c; tried := tried c; handed := handed c |}.
Definition set_logs s t p h c := {| stream := stream c; peer := peer c; kind := kind c; helo := helo c; account := account c; envelope := envelope c;
  recipients := recipients c; message := message c; message_too_big := message_too_big c; errors := errors c; auth_failures := auth_failures c;
  messages_ended := messages_ended c; sent := s; told := t; tried := p; handed := h |}.

Definition is_tls (c : Session) : bool := stream_is_tls (stream c).

Abbreviation N := (M Session unit).

Definition one_error : N unit := modify (fun c => set_counts (errors c + 1) (auth_failures c) (messages_ended c) c).
Definition one_auth_failure : N unit := modify (fun c => set_counts (errors c) (auth_failures c + 1) (messages_ended c) c).
Definition one_message : N unit := modify (fun c => set_counts (errors c) (auth_failures c) (messages_ended c + 1) c).
Definition tell (t : Told) : N unit := modify (fun c => set_logs (sent c) (told c ++ [t]) (tried c) (handed c) c).
Definition trying (what : Credential) (said : Auth) : N unit :=
  modify (fun c => set_logs (sent c) (told c) (tried c ++ [{| over_tls := is_tls c; credential := what; verdict := said |}]) (handed c) c).
Definition hand (h : Handed) : N unit := modify (fun c => set_logs (sent c) (told c) (tried c) (handed c ++ [h]) c).

(** ** What others answer *)

(** The settings as they are at that moment. *)
Record Live := { max_message_size : Z; max_recipients : nat; require_tls_for_auth : bool; traps : list (list byte); reveal_client_ip : bool }.

Inductive MimeAnswer := MimeFine | MimeFault (fault : list byte) | MimeLost.

Inductive Window := Hour | Day.

(** What [submit] comes to: the id of what was queued, or its [SubmitError]. *)
Inductive Submitted :=
  | Queued (id : list byte) | NoFrom | ForbiddenFrom (address : list byte) | AmbiguousSender | InvalidRecipient (address : list byte)
  | NoRecipients | NobodyAccepted | SendingOff | InternalOnly | AccountLocked | TooManyRecipients | RateLimited (window : Window)
  | OverLimit (window : Window) | TooLarge | MalformedHeaders | Virus (name : list byte) | Spam | Suspended (minutes : Z) | QueueFailed.

(** What one step is answered: a store that fails answers [None]. [domain_is_local] is asked
    up to three times for a recipient. [handshake]: the description of the TLS session. *)
Record World := {
  live : Live; server_tls : bool; handshake : option (list byte);
  blocked : bool; begins : bool; auth : Auth;
  owns_address : Z -> list byte -> option bool;
  local_for_outside : option bool; local_for_srs : option bool; local_for_unknown : option bool;
  internal_only : option bool; sender_internal_only : option bool;
  srs_secret : option (list byte); today : Z;
  report_recipient : option (option ReportKind);
  forward_address_targets : option (option (list (list byte * option Z)));
  group_delivery : option (option GroupDelivery); group_accepts : option bool; delivery_target : Z -> option (option Z);
  masked_delivery : option (option MaskedDelivery); resolve_recipient : option (option Z); account_by_id : option (option Mailbox);
  mime : MimeAnswer; submitted : Submitted; received : list byte }.

(** [unwrap_or(false)] *)
Definition yes (a : option bool) : bool := default false a.

Section session.
Context `{Receivers} (hostname : list byte) (digest : list byte -> list byte -> list byte)
        (to_lowercase : list byte -> list byte) (domain_to_ascii : list byte -> option (list byte))
        (decode64 : list byte -> option (list byte)) (encode64 : list byte -> list byte)
        (to_json : list (list byte * list byte) -> list byte).

Definition CRLF : list byte := [x0d; x0a].

Definition reply (text : list byte) : N unit :=
  c ← get;
  match stream c with
  | Taken => panic
  | _ => modify (fun c => set_logs (sent c ++ text ++ CRLF) (told c) (tried c) (handed c) c)
  end.

(** Whether the connection was closed, as it says. *)
Definition error (text : list byte) : N bool :=
  one_error;;
  c ← get;
  if MAX_ERRORS <=? errors c then reply (bs "421 4.7.0 Too many errors, closing connection");; mret true
  else reply text;; mret false.

(** [self.error(..).await?; return Ok(Next::Continue)], and an answer. *)
Definition refuse (text : list byte) : N Next := error text;; mret Continue.
Definition answer (text : list byte) : N Next := reply text;; mret Continue.

Definition reset_transaction : N unit := modify (fun c => set_message [] false (set_recipients [] (set_envelope None c))).

(** ** EHLO and STARTTLS *)

Definition auth_available (w : World) (c : Session) : bool := is_submission (kind c) && (is_tls c || negb (require_tls_for_auth (live w))).

(** Every line but the last with a hyphen. *)
Fixpoint reply_lines (lines : list (list byte)) : list byte :=
  match lines with
  | [] => []
  | [line] => bs "250 " ++ line
  | line :: lines => bs "250-" ++ line ++ CRLF ++ reply_lines lines
  end.

Definition ehlo (w : World) (host : list byte) (extended : bool) : N Next :=
  reset_transaction;;
  if negb extended then modify (set_helo (Some host));; answer (bs "250 " ++ hostname)
  else
    c ← get;
    let lines := [hostname ++ bs " Hello " ++ host; bs "PIPELINING"; bs "8BITMIME"; bs "SMTPUTF8"; bs "ENHANCEDSTATUSCODES"; bs "CHUNKING";
                  bs "SIZE " ++ dec (max_message_size (live w))]
                 ++ (if negb (is_tls c) && server_tls w then [bs "STARTTLS"] else [])
                 ++ (if auth_available w c && negb (bool_decide (is_Some (account c))) then [bs "AUTH PLAIN LOGIN OAUTHBEARER XOAUTH2"] else []) in
    modify (set_helo (Some host));;
    answer (reply_lines lines).

Definition start_tls (w : World) : N unit :=
  c ← get;
  if negb (server_tls w) then panic
  else
    modify (set_stream Taken);;
    match stream c with
    | Plain =>
        match handshake w with
        | None => throw tt
        | Some description => modify (set_stream (Server description));; modify (set_helo None);; reset_transaction
        end
    | _ => throw tt
    end.

(** ** AUTH *)

Definition decode_utf8 (value : list byte) : option (list byte) := bytes ← decode64 (trim value); from_utf8 bytes.

Definition auth_refused : N Next :=
  c ← get;
  if MAX_AUTH_FAILURES <=? auth_failures c then reply (bs "421 4.7.0 Too many failed logins, closing connection");; mret NQuit
  else answer (bs "535 5.7.8 Authentication credentials invalid").

Definition check_credentials (w : World) (login password : list byte) : N Next :=
  if negb (begins w) then answer (bs "454 4.7.0 Too many failed logins, try again later")
  else
    trying (Password login password) (auth w);;
    match auth w with
    | AuthOk a =>
        tell (ToldSuccess login (account_login a));; modify (set_account (Some a));; answer (bs "235 2.7.0 Authentication succeeded")
    | AuthDenied reason =>
        match reason with
        | Denied.AppPasswordRequired => mret tt
        | Denied.UnknownLogin => tell (ToldUnknown login)
        | _ => tell (ToldFailure login)
        end;;
        one_auth_failure;;
        auth_refused
    | AuthFailed => answer (bs "454 4.7.0 Temporary authentication failure")
    end.

Definition auth_plain (w : World) (response : list byte) : N Next :=
  match plain_login (decode64 response) with
  | InvalidPlain => refuse (bs "501 5.5.2 Invalid PLAIN authentication data")
  | SomeoneElse => refuse (bs "535 5.7.8 Authorization identity must match the login")
  | TryLogin authcid password => check_credentials w authcid password
  end.

Definition auth_bearer (w : World) (response : list byte) (xoauth2 : bool) : N Next :=
  match decode64 (trim response) with
  | None => refuse (bs "501 5.5.2 Invalid base64 data")
  | Some message =>
      match (if xoauth2 then parse_xoauth2 message else parse_oauthbearer message) with
      | None => refuse (bs "501 5.5.2 Invalid token authentication data")
      | Some parsed =>
          let username := default [] (user parsed) in
          trying (Token (user parsed) (token parsed)) (auth w);;
          match auth w with
          | AuthFailed => answer (bs "454 4.7.0 Temporary authentication failure")
          | r =>
              match match r with AuthOk a => if sasl_user_matches (user parsed) (account_login a) then Some a else None | _ => None end with
              | Some a =>
                  tell (ToldSuccess username (account_login a));; modify (set_account (Some a));; answer (bs "235 2.7.0 Authentication succeeded")
              | None =>
                  tell (ToldFailure username);;
                  one_auth_failure;;
                  reply (bs "334 " ++ encode64 (sasl_bearer_error to_json xoauth2 (bs "smtp") (Some hostname)));;
                  mret (NAuth BearerFailed)
              end
          end
      end
  end.

(** The user name of LOGIN. *)
Definition auth_username (text : list byte) : N Next :=
  match decode_utf8 text with
  | Some username => reply (bs "334 UGFzc3dvcmQ6");; mret (NAuth (LoginPassword username))
  | None => refuse (bs "501 5.5.2 Invalid base64 data")
  end.

Definition auth_mechanism (w : World) (mechanism : Mechanism) (initial : list byte) : N Next :=
  let empty := bool_decide (initial = []) in
  match mechanism with
  | PLAIN => if empty then reply (bs "334 ");; mret (NAuth PlainResponse) else auth_plain w initial
  | LOGIN => if empty then reply (bs "334 VXNlcm5hbWU6");; mret (NAuth LoginUsername) else auth_username initial
  | OAUTHBEARER | XOAUTH2 =>
      let xoauth2 := match mechanism with XOAUTH2 => true | _ => false end in
      if empty then reply (bs "334 ");; mret (NAuth (BearerResponse xoauth2)) else auth_bearer w initial xoauth2
  | OtherMechanism => refuse (bs "504 5.5.4 Authentication mechanism not supported")
  end.

Definition auth_command (w : World) (mechanism : Mechanism) (initial_response : list byte) : N Next :=
  c ← get;
  if negb (is_submission (kind c)) then refuse (bs "503 5.5.1 Authentication is only available on the submission ports")
  else if negb (auth_available w c) then refuse (bs "538 5.7.11 Encryption required, use STARTTLS first")
  else if bool_decide (is_Some (account c)) then refuse (bs "503 5.5.1 Already authenticated")
  else if bool_decide (is_Some (envelope c)) then refuse (bs "503 5.5.1 AUTH is not allowed during a mail transaction")
  else if blocked w then reply (bs "421 4.7.0 Too many failed logins from your network, try again later");; mret NQuit
  else
    let initial := trim initial_response in
    auth_mechanism w mechanism (if bool_decide (initial = bs "=") then [] else initial).

Definition auth_line (w : World) (step : AuthStep) (line : list byte) : N Next :=
  match step with
  | BearerFailed => auth_refused
  | _ =>
      if bool_decide (line = bs "*") then refuse (bs "501 5.0.0 Authentication cancelled")
      else
        match step with
        | PlainResponse => auth_plain w line
        | LoginUsername => auth_username line
        | LoginPassword username =>
            match decode_utf8 line with
            | Some password => check_credentials w username password
            | None => refuse (bs "501 5.5.2 Invalid base64 data")
            end
        | BearerResponse xoauth2 => auth_bearer w line xoauth2
        | BearerFailed => auth_refused
        end
  end.
(** ** MAIL and RCPT *)

(** With a login: an address of theirs. *)
Definition may_send_as (w : World) (c : Session) (address : list byte) : bool :=
  match account c with Some a => negb (bool_decide (address = [])) && yes (owns_address w (account_id a) address) | None => true end.

Definition mail (w : World) (from : MailFrom) : N Next :=
  c ← get;
  if negb (bool_decide (is_Some (helo c))) then refuse (bs "503 5.5.1 Say EHLO first")
  else if bool_decide (is_Some (envelope c)) then refuse (bs "503 5.5.1 Nested MAIL command")
  else if is_submission (kind c) && negb (bool_decide (is_Some (account c))) then refuse (bs "530 5.7.0 Authentication required")
  else if max_message_size (live w) <? from_size from then refuse (bs "552 5.3.4 Message too big")
  else
    let address := trim (from_address from) in
    if negb (may_send_as w c address) then refuse (bs "553 5.7.1 You are not allowed to send as <" ++ address ++ bs ">")
    else
      modify (set_envelope (Some {| env_address := address; env_size := from_size from; env_id := from_env_id from |}));;
      answer (bs "250 2.1.0 Sender OK").

(** A recipient that nothing is known of yet. *)
Definition plain_recipient (to : RcptTo) (address : list byte) : Recipient :=
  {| rcpt_address := address; local_account := None; srs_return := None; report := None; forward_to := None; trap := false; group := None;
     masked := None; notify_flags := to_flags to; orcpt := to_orcpt to |}.

Definition to_local (account : option Z) (m : option MaskedDelivery) (r : Recipient) : Recipient :=
  {| rcpt_address := rcpt_address r; local_account := account; srs_return := srs_return r; report := report r; forward_to := forward_to r;
     trap := trap r; group := group r; masked := m; notify_flags := notify_flags r; orcpt := orcpt r |}.
Definition to_srs (original : list byte) (r : Recipient) : Recipient :=
  {| rcpt_address := rcpt_address r; local_account := local_account r; srs_return := Some original; report := report r; forward_to := forward_to r;
     trap := trap r; group := group r; masked := masked r; notify_flags := notify_flags r; orcpt := orcpt r |}.
Definition to_report (k : ReportKind) (r : Recipient) : Recipient :=
  {| rcpt_address := rcpt_address r; local_account := local_account r; srs_return := srs_return r; report := Some k; forward_to := forward_to r;
     trap := trap r; group := group r; masked := masked r; notify_flags := notify_flags r; orcpt := orcpt r |}.
Definition to_trap (r : Recipient) : Recipient :=
  {| rcpt_address := rcpt_address r; local_account := local_account r; srs_return := srs_return r; report := report r; forward_to := forward_to r;
     trap := true; group := group r; masked := masked r; notify_flags := notify_flags r; orcpt := orcpt r |}.
Definition to_forward (targets : list (list byte * option Z)) (r : Recipient) : Recipient :=
  {| rcpt_address := rcpt_address r; local_account := local_account r; srs_return := srs_return r; report := report r; forward_to := Some targets;
     trap := trap r; group := group r; masked := masked r; notify_flags := notify_flags r; orcpt := orcpt r |}.
Definition to_member (g : GroupEntry) (member : option Z) (r : Recipient) : Recipient :=
  {| rcpt_address := rcpt_address r; local_account := member; srs_return := srs_return r; report := report r; forward_to := forward_to r;
     trap := trap r; group := Some g; masked := masked r; notify_flags := notify_flags r; orcpt := orcpt r |}.

Definition has_recipient (c : Session) (address : list byte) : bool := existsb (fun r => bool_decide (rcpt_address r = address)) (recipients c).

Definition push_recipients (rs : list Recipient) : N unit := modify (fun c => set_recipients (recipients c ++ rs) c).

(** Once for an address. *)
Definition take_recipient (r : Recipient) : N Next :=
  c ← get;
  (if has_recipient c (rcpt_address r) then mret tt else push_recipients [r]);;
  answer (bs "250 2.1.5 Recipient OK").

Definition no_mailbox (address : list byte) : N Next := refuse (bs "550 5.1.1 <" ++ address ++ bs ">: No such mailbox here").
Definition takes_no_mail (address : list byte) : N Next := refuse (bs "550 5.1.1 <" ++ address ++ bs ">: This address does not take mail").
Definition lookup_failed : N Next := answer (bs "451 4.3.0 Temporary lookup failure").

(** Whom a group delivers to: each once, in order. *)
Definition add_target (w : World) (entries : list Z) (member : Z) : list Z :=
  match delivery_target w member with
  | Some (Some target) => if bool_decide (target ∈ entries) then entries else entries ++ [target]
  | _ => entries
  end.

Definition group_entry (g : GroupDelivery) : GroupEntry :=
  {| entry_address := group_address g; restricted := negb (bool_decide (who_may_send g = Anyone)) |}.

Definition group_rcpt (w : World) (address : list byte) (g : GroupDelivery) (to : RcptTo) : N Next :=
  c ← get;
  match group_accepts w with
  | Some true =>
      if has_recipient c address then answer (bs "250 2.1.5 Recipient OK")
      else
        let submission := is_submission (kind c) in
        let entries := if submission then [] else foldl (add_target w) [] (members g) in
        if negb submission && bool_decide (entries = []) then takes_no_mail address
        else
          let local_accounts := if submission then [None] else map Some entries in
          push_recipients (map (fun member => to_member (group_entry g) member (plain_recipient to address)) local_accounts);;
          answer (bs "250 2.1.5 Recipient OK")
  | Some false =>
      refuse match who_may_send g with
             | Domain =>
                 let domain := match rsplit_once "@"%byte (group_address g) with Some (_, domain) => domain | None => [] end in
                 bs "550 5.7.1 <" ++ address ++ bs ">: Only addresses of " ++ domain ++ bs " may write to this group"
             | _ => bs "550 5.7.1 <" ++ address ++ bs ">: Only members of this group may write to it"
             end
  | None => lookup_failed
  end.

(** The mailbox an address leads to, its redirect if it has none, and its room. *)
Definition deliver_local (w : World) (address : list byte) (to : RcptTo) (found : option Z) (m : option MaskedDelivery) : N Next :=
  c ← get;
  let take account := take_recipient (to_local account (m ← m; if bool_decide (is_Some (delivers_to m)) then Some m else None) (plain_recipient to address)) in
  match found, account_by_id w with
  | Some id, Some (Some mailbox) =>
      if negb (has_mailbox mailbox) then
        match default None (delivery_target w id) with
        | None => takes_no_mail address
        | Some target => take (Some target)
        end
      else if (0 <? quota_bytes mailbox)
              && (quota_bytes mailbox <? used_bytes mailbox + match envelope c with Some e => wrap_i64 (env_size e) | None => 0 end)
      then answer (bs "452 4.2.2 <" ++ address ++ bs ">: Mailbox is full")
      else take found
  | _, _ => take found
  end.

(** What [resolve_recipient] found, or where the mail goes otherwise. *)
Definition mailbox_rcpt (w : World) (address : list byte) (to : RcptTo) : N Next :=
  c ← get;
  let m := default None (masked_delivery w) in
  match resolve_recipient w with
  | None => lookup_failed
  | Some found =>
      if negb (bool_decide (is_Some found)) && yes (local_for_unknown w) then no_mailbox address
      else if negb (bool_decide (is_Some found)) && negb (is_submission (kind c)) then refuse (bs "550 5.7.1 Relaying denied")
      else deliver_local w address to found m
  end.

Definition srs_rcpt (w : World) (address : list byte) (to : RcptTo) : N Next :=
  c ← get;
  let original := secret ← srs_secret w; reverse_ digest secret address (today w) in
  let is_bounce := match envelope c with Some e => bool_decide (env_address e = []) | None => false end in
  match original with
  | Some original =>
      if is_bounce then take_recipient (to_srs original (plain_recipient to address))
      else refuse (bs "550 5.7.1 This address only accepts delivery notices")
  | None => no_mailbox address
  end.

(** An account that may only send to addresses here, to somewhere else. *)
Definition sends_outside (w : World) (c : Session) : bool :=
  is_submission (kind c) && bool_decide (is_Some (account c)) && negb (yes (local_for_outside w))
  && (yes (internal_only w) || yes (sender_internal_only w)).

Definition rcpt (w : World) (to : RcptTo) : N Next :=
  c ← get;
  let submission := is_submission (kind c) in
  if negb (bool_decide (is_Some (envelope c))) then refuse (bs "503 5.5.1 Send MAIL first")
  else if (max_recipients (live w) <=? length (recipients c))%nat then answer (bs "452 4.5.3 Too many recipients")
  else
    match normalize_address to_lowercase domain_to_ascii (to_address to) with
    | None => refuse (bs "501 5.1.3 Bad recipient address syntax")
    | Some (local, domain) =>
        let address := local ++ bs "@" ++ domain in
        if sends_outside w c then refuse (bs "550 5.7.1 <" ++ address ++ bs ">: This account may only send to addresses on this server")
        else if negb submission && looks_like_srs local && yes (local_for_srs w) then srs_rcpt w address to
        else
          match (if submission then None else default None (report_recipient w)) with
          | Some k => take_recipient (to_report k (plain_recipient to address))
          | None =>
              if negb submission && existsb (fun t => eq_ignore_ascii_case t address) (traps (live w))
              then take_recipient (to_trap (plain_recipient to address))
              else
                match default None (forward_address_targets w) with
                | Some targets => take_recipient (to_forward targets (plain_recipient to address))
                | None =>
                    match group_delivery w with
                    | Some (Some g) => group_rcpt w address g to
                    | Some None => mailbox_rcpt w address to
                    | None => lookup_failed
                    end
                end
          end
    end.

(** ** A message that is there *)

Definition tls_description (s : Stream) : option (list byte) := match s with Server d => Some d | _ => None end.

Definition origin (c : Session) : Origin :=
  {| o_peer := peer c; o_helo := default [] (helo c); o_tls := tls_description (stream c); o_submitted := bool_decide (is_Some (account c)) |}.

Definition window_name (w : Window) : list byte := match w with Hour => bs "hour" | Day => bs "day" end.

Definition submit_answer (s : Submitted) : list byte :=
  match s with
  | Queued id => bs "250 2.0.0 Message queued as " ++ id
  | NoFrom => bs "550 5.6.0 The message has no From header"
  | ForbiddenFrom address => bs "550 5.7.1 You are not allowed to send as <" ++ address ++ bs ">"
  | AmbiguousSender => bs "550 5.6.0 A message may have only one Sender"
  | InvalidRecipient address => bs "501 5.1.3 <" ++ address ++ bs "> is not a valid address"
  | NoRecipients => bs "503 5.5.1 Send RCPT first"
  | NobodyAccepted => bs "552 5.2.2 No recipient could take the message"
  | SendingOff => bs "550 5.7.1 Sending through this server is switched off for this account"
  | InternalOnly => bs "550 5.7.1 This account may only send to addresses on this server"
  | AccountLocked => bs "550 5.7.1 This account is disabled or in the trash"
  | TooManyRecipients => bs "452 4.5.3 Too many recipients"
  | RateLimited window => bs "451 4.7.1 Sending limit for this " ++ window_name window ++ bs " reached, please try again later"
  | OverLimit window => bs "550 5.5.3 This message has more recipients than this account may send to in one " ++ window_name window
  | TooLarge => bs "552 5.3.4 The message is too large"
  | MalformedHeaders => bs "550 5.6.0 The message has a malformed header block"
  | Virus name => bs "554 5.7.0 This message contains " ++ name
  | Spam => bs "550 5.7.1 This message looks like spam and was not sent"
  | Suspended minutes => bs "550 5.7.1 Sending to other servers is suspended for this account for " ++ dec minutes ++ bs " more minutes; ask your admin if this is a mistake"
  | QueueFailed => bs "451 4.3.0 Could not queue the message, please try again"
  end.

(** What [self.smtp.submit] is given, and its answer. *)
Definition submit (w : World) (env : Envelope) (rs : list Recipient) (raw : list byte) : N (list byte) :=
  c ← get;
  a ← expect (account c);
  hand {| h_account := Some a; h_origin := origin c; h_envelope := env; h_recipients := rs; h_raw := raw |};;
  mret (submit_answer (submitted w)).

Definition receive (w : World) (env : Envelope) (rs : list Recipient) (raw : list byte) : N (list byte) :=
  c ← get;
  hand {| h_account := None; h_origin := origin c; h_envelope := env; h_recipients := rs; h_raw := raw |};;
  mret (received w).

(** The answer that refuses the message, if its structure does. *)
Definition mime_structure (w : World) : option (list byte) :=
  match mime w with
  | MimeFine => None
  | MimeFault fault => Some (bs "554 5.6.0 Refused: " ++ fault)
  | MimeLost => Some (bs "451 4.3.0 Temporary server error")
  end.

Definition finish_message (w : World) (raw : list byte) : N unit :=
  c ← get;
  let env := envelope c in
  let rs := recipients c in
  modify (fun c => set_recipients [] (set_envelope None c));;
  match env with
  | None => reply (bs "503 5.5.1 Send MAIL first")
  | Some env =>
      match mime_structure w with
      | Some answer => reply answer
      | None =>
          if (MAX_HOPS <? Headers.count raw (bs "Received"))%nat then reply (bs "554 5.4.6 Too many hops, possible mail loop")
          else
            let raw := Headers.normalize_line_endings raw in
            response ← (if is_submission (kind c) then submit w env rs raw else receive w env rs raw);
            reply response
      end
  end.

(** ** Commands *)

Definition command (w : World) (request : Request) : N Next :=
  c ← get;
  match request with
  | Ehlo host => ehlo w host true
  | Helo host => ehlo w host false
  | StartTls =>
      if is_tls c || negb (server_tls w) then refuse (bs "503 5.5.1 TLS is not available")
      else reply (bs "220 2.0.0 Ready to start TLS");; mret NStartTls
  | Auth_ mechanism initial_response => auth_command w mechanism initial_response
  | Mail from => mail w from
  | Rcpt to => rcpt w to
  | Data_ =>
      if bool_decide (recipients c = []) then refuse (bs "503 5.5.1 Send MAIL and RCPT first")
      else reply (bs "354 Start mail input; end with <CRLF>.<CRLF>");; mret NData
  | Bdat_ chunk_size is_last => if bool_decide (recipients c = []) then mret (NBdatDiscard chunk_size) else mret (NBdat chunk_size is_last)
  | Rset => reset_transaction;; answer (bs "250 2.0.0 OK")
  | Noop => answer (bs "250 2.0.0 OK")
  | Quit_ => reply (bs "221 2.0.0 Bye, see you soon");; mret NQuit
  | Vrfy => answer (bs "252 2.5.2 Cannot verify, but will accept the message and try")
  | Help => answer (bs "214 2.0.0 See https://github.com/MinifyX/UwUMail-Server")
  | Lhlo | Expn | Etrn | Atrn | Burl => refuse (bs "502 5.5.1 Command not implemented")
  end.

(** ** Reading *)

(** [checked_add] of two [usize]. *)
Definition chunk_fits (buffered size max_size : Z) : bool := (buffered + size <=? u64_max) && (buffered + size <=? max_size).

(** After one turn: read on, the session is over, or the next turn. *)
Inductive Turn := Break (s : State) | Return | Again (s : State) (rest : list byte).

Definition error_text (err : ProtoError) : list byte :=
  match err with
  | UnknownCommand => bs "500 5.5.1 Unknown command"
  | ResponseTooLong => bs "500 5.5.6 Line too long"
  | InvalidSenderAddress => bs "501 5.1.7 Bad sender address syntax"
  | InvalidRecipientAddress => bs "501 5.1.3 Bad recipient address syntax"
  | OtherError text => bs "501 5.5.4 " ++ text
  end.

Definition next_state (w : World) (max_size : Z) (rx : RequestReceiver) (rest : list byte) (next : Next) : N Turn :=
  match next with
  | Continue => mret (Again (SCommand rx) rest)
  | NData => modify (set_message [] false);; mret (Again (SData data_new) rest)
  | NBdat size last =>
      c ← get;
      if negb (message_too_big c) && chunk_fits (Z.of_nat (length (message c))) size max_size
      then mret (Again (SBdat (bdat_new size last)) rest)
      else modify (set_message [] true);; mret (Again (SBdatTooBig (dummy_new_bdat size) last) rest)
  | NBdatDiscard size => mret (Again (SBdatDiscard (dummy_new_bdat size)) rest)
  | NAuth step => mret (Again (SAuth step line_new) rest)
  | NStartTls => start_tls w;; mret (Break (SCommand request_new))
  | NQuit => mret Return
  end.

(** [std::mem::take(&mut self.message)] *)
Definition take_message : N (list byte) := c ← get; modify (set_message [] (message_too_big c));; mret (message c).

Definition put_message (m : list byte) : N unit := modify (fun c => set_message m (message_too_big c) c).

(** The message is whole. *)
Definition message_ended (w : World) : N unit := raw ← take_message; one_message;; finish_message w raw.

Definition too_big : N unit := reset_transaction;; one_message;; reply (bs "552 5.3.4 Message too big").

Definition turn (w : World) (max_size : Z) (s : State) (bytes : list byte) : N Turn :=
  match s with
  | SCommand rx =>
      let '(rx, rest, r) := request_ingest rx bytes in
      match r with
      | Parsed request => next ← command w request; next_state w max_size rx rest next
      | NeedsMoreData => mret (Break (SCommand rx))
      | Failed err => closed ← error (error_text err); if (closed : bool) then mret Return else mret (Again (SCommand rx) rest)
      end
  | SData rx =>
      c ← get;
      let '(rx, rest, m, done) := data_ingest rx bytes (message c) in
      put_message m;;
      if done then
        message_ended w;; mret (Again (SCommand request_new) rest)
      else if max_size <? Z.of_nat (length m) then
        modify (set_message [] true);; mret (Again (SDataDiscard (dummy_new_data rx)) rest)
      else mret (Break (SData rx))
  | SDataDiscard rx =>
      let '(rx, rest, done) := dummy_ingest rx bytes in
      if done then too_big;; mret (Again (SCommand request_new) rest) else mret (Break (SDataDiscard rx))
  | SBdat rx =>
      c ← get;
      let '(rx, rest, m, done) := bdat_ingest rx bytes (message c) in
      put_message m;;
      if done then
        (if negb (bdat_is_last rx) then reply (bs "250 2.0.0 Chunk received")
         else message_ended w);;
        mret (Again (SCommand request_new) rest)
      else mret (Break (SBdat rx))
  | SBdatTooBig rx last =>
      let '(rx, rest, done) := dummy_ingest rx bytes in
      if done then
        (if negb last then reply (bs "250 2.0.0 Chunk received") else too_big);; mret (Again (SCommand request_new) rest)
      else mret (Break (SBdatTooBig rx last))
  | SBdatDiscard rx =>
      let '(rx, rest, done) := dummy_ingest rx bytes in
      if done then reply (bs "503 5.5.1 Send MAIL and RCPT first");; mret (Again (SCommand request_new) rest)
      else mret (Break (SBdatDiscard rx))
  | SAuth step rx =>
      let '(rx, rest, done) := line_ingest rx bytes in
      if negb done then mret (Break (SAuth step rx))
      else
        next ← auth_line w step (trim (from_utf8_lossy (line_buf rx)));
        match next with
        | NAuth step => mret (Again (SAuth step line_new) rest)
        | NQuit => mret Return
        | _ => mret (Again (SCommand request_new) rest)
        end
  end.

(** A chunk may be empty. *)
Definition in_chunk (s : State) : bool := match s with SBdat _ | SBdatTooBig _ _ | SBdatDiscard _ => true | _ => false end.

(** The inner loop, over the bytes of one read: the state to read on in, or none when the
    session is over. *)
Fixpoint ingest (fuel : nat) (worlds : nat -> World) (max_size : Z) (s : State) (bytes : list byte) : N (option State) :=
  match fuel with
  | O => out_of_fuel
  | S fuel =>
      t ← turn (worlds O) max_size s bytes;
      match t with
      | Break s => mret (Some s)
      | Return => mret None
      | Again s rest =>
          if bool_decide (rest = []) && negb (in_chunk s) then mret (Some s) else ingest fuel (fun n => worlds (S n)) max_size s rest
      end
  end.

(** A turn for every byte, one for an empty chunk behind each, and one for a message that
    begins to be thrown away. *)
Definition enough (bytes : list byte) : nat := (4 * length bytes + 4)%nat.

Definition transferring (s : State) : bool := match s with SCommand _ | SAuth _ _ => false | _ => true end.

(** ** The connection *)

(** No bytes: the end of the stream. *)
Inductive Arrival := Bytes (bytes : list byte) | ReadError.

(** One wait for the client: when it began, how long until something came, what came, how
    the steps on it were answered, and when they were done. *)
Record Event := { begun : Z; waited : Z; arrival : Arrival; worlds : nat -> World; done_at : Z }.

Record Deadline := { deadline : Z; in_transfer : bool }.

(** A transfer that begins has a deadline of its own. *)
Definition now_transferring (e : Event) (s : State) (d : Deadline) : Deadline :=
  if transferring s && negb (in_transfer d) then {| deadline := begun e + TRANSFER_LIMIT; in_transfer := true |} else d.

(** A login, or the end of a message. *)
Definition progress (before after : Session) : bool :=
  negb (bool_decide (is_Some (account after) <-> is_Some (account before))) || negb (messages_ended after =? messages_ended before).

(** One turn of the outer loop of [run]: what it reads on in, or none when the session is
    over. *)
Definition await (idle max_size : Z) (e : Event) (s : State) (d : Deadline) : N (option (State * Deadline)) :=
  let d := now_transferring e s d in
  let left := Z.max 0 (deadline d - begun e) in
  if Z.min idle left <? waited e then
    reply (if left <=? idle then bs "421 4.4.2 Session took too long, closing connection"
           else bs "421 4.4.2 Idle for too long, closing connection");;
    mret None
  else
    match arrival e with
    | ReadError => throw tt
    | Bytes [] => mret None
    | Bytes bytes =>
        before ← get;
        s ← ingest (enough bytes) (worlds e) max_size s bytes;
        match s with
        | None => mret None
        | Some s =>
            after ← get;
            mret (Some (s, if progress before after then {| deadline := done_at e + NO_PROGRESS_LIMIT; in_transfer := false |} else d))
        end
    end.

(** When no event is left the client is gone. *)
Fixpoint loop (idle max_size : Z) (events : list Event) (s : State) (d : Deadline) : N unit :=
  match events with
  | [] => mret tt
  | e :: events => r ← await idle max_size e s d; match r with Some (s, d) => loop idle max_size events s d | None => mret tt end
  end.

Definition at_start (now : Z) : Deadline := {| deadline := now + NO_PROGRESS_LIMIT; in_transfer := false |}.

Definition run (timeout_secs max_size now : Z) (events : list Event) : N unit :=
  reply (bs "220 " ++ hostname ++ bs " ESMTP UwUMail ready");;
  loop (Z.max timeout_secs 10 * 1000) max_size events (SCommand request_new) (at_start now).
End session.
End Smtp.
