(* ===== verification/SmtpSessionSafe.v ===== *)
(** * What an SMTP session promises

    Over every run of [Smtp.run], whatever the client sends, when, and whatever the store,
    the limiter and the settings answer meanwhile: no panic and no endless loop, what is
    handed on and for whom, what of a message is kept in memory, and where passwords may be
    tried. *)

From S2P Require Import Prelude Effects Utf8 Network Srs Sasl SmtpHeaders Address ImapSessionDispatch SmtpSession.
Import Smtp.

(** What the theorems need of smtp-proto: a receiver reads from the front; a request, an
    error or a line ends with a byte it read, and so does DATA; a message grows by no more
    than what was read, and by a chunk of no more than its size. *)
Class ReceiverLaws `{Receivers} := {
  bdat_left : BdatReceiver -> Z;
  request_takes rx bytes rx' rest r : request_ingest rx bytes = (rx', rest, r) -> bytes <> [] -> r <> NeedsMoreData ->
    (length rest < length bytes)%nat;
  data_takes rx bytes m rx' rest m' done : data_ingest rx bytes m = (rx', rest, m', done) ->
    (length rest <= length bytes /\ length m' + length rest <= length m + length bytes)%nat;
  bdat_takes rx bytes m rx' rest m' done : bdat_ingest rx bytes m = (rx', rest, m', done) ->
    (length rest <= length bytes)%nat /\ Z.of_nat (length m') + bdat_left rx' <= Z.of_nat (length m) + bdat_left rx;
  bdat_left_new size last : bdat_left (bdat_new size last) <= Z.max 0 size;
  bdat_left_pos rx : 0 <= bdat_left rx;
  dummy_takes rx bytes rx' rest done : dummy_ingest rx bytes = (rx', rest, done) -> (length rest <= length bytes)%nat;
  line_takes rx bytes rx' rest : line_ingest rx bytes = (rx', rest, true) -> bytes <> [] -> (length rest < length bytes)%nat }.

(** Taken for someone or something here: a mailbox, a report, a trap, the people behind a
    forwarding address, or the sender a bounce goes back to. *)
Definition here (e : Envelope) (r : Recipient) : Prop :=
  is_Some (local_account r) \/ is_Some (report r) \/ trap r = true \/ is_Some (forward_to r) \/ (is_Some (srs_return r) /\ env_address e = []).

(** A login the store answered for, and that is not let in: refused, or a token of somebody
    else than the client says it is. *)
Definition wrong_login (t : Try) : bool :=
  match verdict t, credential t with
  | AuthDenied _, _ => true
  | AuthOk a, Token user _ => negb (sasl_user_matches user (account_login a))
  | _, _ => false
  end.

Definition wrong_logins (c : Session) : list Try := List.filter wrong_login (tried c).

Section safe.
Context `{Laws : ReceiverLaws} (hostname : list byte) (digest : list byte -> list byte -> list byte)
        (to_lowercase : list byte -> list byte) (domain_to_ascii : list byte -> option (list byte))
        (decode64 : list byte -> option (list byte)) (encode64 : list byte -> list byte)
        (to_json : list (list byte * list byte) -> list byte).
(** The listener, the limit, whose addresses are whose, and whether TLS is required to log in. *)
Context (k : ListenerKind) (max_size : Z) (owned : Z -> list byte -> Prop) (strict : Prop).
Context (max_pos : 0 <= max_size).

(** The answers stay within that. *)
Definition truthful (w : World) : Prop :=
  (forall id a, owns_address w id a = Some true -> owned id a) /\ (strict -> require_tls_for_auth (live w) = true).

(** ** The invariant *)

Definition envelope_ok (c : Session) : Prop :=
  match envelope c with
  | None => recipients c = []
  | Some e =>
      if is_submission k then exists a, account c = Some a /\ env_address e <> [] /\ owned (account_id a) (env_address e)
      else Forall (here e) (recipients c)
  end.

Definition handed_ok (h : Handed) : Prop :=
  h_recipients h <> [] /\ Z.of_nat (length (h_raw h)) <= 2 * (max_size + Z.of_nat READ)
  /\ (if is_submission k
      then exists a, h_account h = Some a /\ env_address (h_envelope h) <> [] /\ owned (account_id a) (env_address (h_envelope h))
      else h_account h = None /\ Forall (here (h_envelope h)) (h_recipients h)).

Record base (c : Session) : Prop := {
  b_stream : stream c <> Taken;
  b_kind : kind c = k;
  b_mx : k = Mx -> account c = None /\ tried c = [];
  b_envelope : envelope_ok c;
  b_handed : Forall handed_ok (handed c);
  b_tried : strict -> Forall (fun t => over_tls t = true) (tried c);
  b_wrong : Z.of_nat (length (wrong_logins c)) = auth_failures c;
  b_failures : 0 <= auth_failures c <= MAX_AUTH_FAILURES;
  b_message : Z.of_nat (length (message c)) <= max_size }.

(** A password may come. *)
Definition secure (c : Session) : Prop := k <> Mx /\ (strict -> is_tls c = true).

#[local] Instance AuthStep_eq_dec : EqDecision AuthStep.
Proof. solve_decision. Defined.

Definition step_ok (step : AuthStep) (c : Session) : Prop :=
  secure c /\ account c = None /\ (step <> BearerFailed -> auth_failures c < MAX_AUTH_FAILURES).

(** What a command leaves. *)
Definition next_ok (w : World) (next : Next) (c : Session) : Prop :=
  base c /\
  match next with
  | NQuit => True
  | NAuth step => step_ok step c
  | NData | NBdat _ _ => auth_failures c < MAX_AUTH_FAILURES /\ recipients c <> []
  | NStartTls => auth_failures c < MAX_AUTH_FAILURES /\ server_tls w = true /\ stream c = Plain
  | Continue | NBdatDiscard _ => auth_failures c < MAX_AUTH_FAILURES
  end.

Lemma base_logs c s t : base c -> base (set_logs s t (tried c) (handed c) c).
Proof. by intros []. Qed.

(** ** Answers *)

Lemma wp_reply text (Q : unit -> Session -> Prop) F c :
  stream c <> Taken -> (forall s, Q tt (set_logs s (told c) (tried c) (handed c) c)) -> wp (reply text) Q F c.
Proof. intros Hs Hq. unfold reply. apply wp_bind, wp_get. destruct (stream c); [apply wp_modify, Hq..|done]. Qed.

Lemma wp_answer w text F c : base c -> auth_failures c < MAX_AUTH_FAILURES -> wp (answer text) (next_ok w) F c.
Proof.
  intros Hb Hf. unfold answer. apply wp_bind, wp_reply; [apply Hb|]. intros s. apply wp_ret. split; [by apply base_logs | exact Hf].
Qed.

Lemma wp_error text (Q : bool -> Session -> Prop) F c :
  stream c <> Taken -> (forall b s e, Q b (set_logs s (told c) (tried c) (handed c) (set_counts e (auth_failures c) (messages_ended c) c))) ->
  wp (error text) Q F c.
Proof.
  intros Hs Hq. unfold error. apply wp_bind, wp_modify, wp_bind, wp_get.
  case_match; apply wp_bind, wp_reply; try done; intros s; apply wp_ret, Hq.
Qed.

Lemma wp_refuse w text F c : base c -> auth_failures c < MAX_AUTH_FAILURES -> wp (refuse text) (next_ok w) F c.
Proof.
  intros Hb Hf. unfold refuse. apply wp_bind, wp_error; [apply Hb|]. intros b s e. apply wp_ret. split; [|exact Hf].
  by destruct Hb.
Qed.

(** A reply and the next thing. *)
Lemma wp_reply_next w text next F c : next_ok w next c -> wp (reply text;; mret next) (next_ok w) F c.
Proof.
  intros [Hb Hn]. apply wp_bind, wp_reply; [apply Hb|]. intros s. apply wp_ret. split; [by apply base_logs | by destruct next].
Qed.

(** ** AUTH *)

Lemma smtp_refused_ok w c F : base c -> wp auth_refused (next_ok w) F c.
Proof.
  intros Hb. unfold auth_refused. apply wp_bind, wp_get. case_match; [by apply wp_reply_next|]. apply wp_answer; [done|lia].
Qed.

(** The state after a try, and the counter after one that is wrong. *)
Definition after_try (what : Credential) (said : Auth) (c : Session) : Session :=
  set_logs (sent c) (told c) (tried c ++ [{| over_tls := is_tls c; credential := what; verdict := said |}]) (handed c) c.

Definition one_failure (c : Session) : Session := set_counts (errors c) (auth_failures c + 1) (messages_ended c) c.

Lemma wrong_after what said c : length (wrong_logins (after_try what said c)) =
  (length (wrong_logins c) + if wrong_login {| over_tls := is_tls c; credential := what; verdict := said |} then 1 else 0)%nat.
Proof. unfold wrong_logins. cbn. rewrite List.filter_app, length_app. cbn [List.filter]. by case_match. Qed.

Lemma tried_over_tls what said c : base c -> secure c -> strict -> Forall (fun t => over_tls t = true) (tried (after_try what said c)).
Proof. intros Hb [_ Hs] Hst. apply Forall_app. split; [by apply (b_tried _ Hb)|]. constructor; [by apply Hs | done]. Qed.

Lemma base_tried what said c : base c -> secure c ->
  wrong_login {| over_tls := is_tls c; credential := what; verdict := said |} = false -> base (after_try what said c).
Proof.
  intros Hb Hs Hw. pose proof (tried_over_tls what said c Hb Hs) as Ht. pose proof (wrong_after what said c) as Hl. rewrite Hw in Hl.
  destruct Hs. destruct Hb. constructor; try done. change (auth_failures (after_try what said c)) with (auth_failures c). lia.
Qed.

Lemma base_wrong what said c : base c -> secure c -> auth_failures c < MAX_AUTH_FAILURES ->
  wrong_login {| over_tls := is_tls c; credential := what; verdict := said |} = true -> base (one_failure (after_try what said c)).
Proof.
  intros Hb Hs Hf Hw. pose proof (tried_over_tls what said c Hb Hs) as Ht. pose proof (wrong_after what said c) as Hl. rewrite Hw in Hl.
  destruct Hs. destruct Hb. constructor; try done; [|cbn; lia].
  change (auth_failures (one_failure (after_try what said c))) with (auth_failures c + 1).
  change (wrong_logins (one_failure (after_try what said c))) with (wrong_logins (after_try what said c)). lia.
Qed.

Lemma base_account a c : base c -> k <> Mx -> account c = None -> base (set_account (Some a) c).
Proof.
  intros [] Hk Ha. constructor; try done. unfold envelope_ok in *. cbn. destruct (envelope c); [|done].
  destruct (is_submission k); [|done]. destruct b_envelope0 as (? & Ha' & _). congruence.
Qed.

Lemma wp_check w login password c F : truthful w -> base c -> secure c -> account c = None -> auth_failures c < MAX_AUTH_FAILURES ->
  wp (check_credentials w login password) (next_ok w) F c.
Proof.
  intros Hw Hb Hs Ha Hf. unfold check_credentials. wp_step; [by apply wp_answer|].
  apply wp_bind, wp_modify. change (set_logs _ _ _ _ c) with (after_try (Password login password) (auth w) c).
  assert (k <> Mx) as Hk by apply Hs. destruct (auth w) as [a|reason|] eqn:Hauth;
    [assert (base (after_try (Password login password) (AuthOk a) c)) as Hb1 by by apply base_tried|
     |apply wp_answer; [by apply base_tried|exact Hf]].
  - apply wp_bind, wp_modify, wp_bind, wp_modify, wp_answer; [|exact Hf].
    apply base_account; [by apply (base_logs (after_try _ _ c))|done|exact Ha].
  - apply wp_bind. set (c1 := after_try _ _ c).
    assert (forall t, wp (one_auth_failure;; auth_refused) (next_ok w) F (set_logs (sent c1) t (tried c1) (handed c1) c1)) as Hgo.
    { intros t. apply wp_bind, wp_modify, smtp_refused_ok. by apply (base_logs (one_failure c1)), base_wrong. }
    destruct reason; by apply wp_modify, Hgo.
Qed.

Lemma wp_plain w response c F : truthful w -> base c -> secure c -> account c = None -> auth_failures c < MAX_AUTH_FAILURES ->
  wp (auth_plain decode64 w response) (next_ok w) F c.
Proof. intros. unfold auth_plain. case_match; [by apply wp_refuse..|by apply wp_check]. Qed.

Lemma smtp_bearer_ok w response x c F : truthful w -> base c -> secure c -> account c = None -> auth_failures c < MAX_AUTH_FAILURES ->
  wp (auth_bearer hostname decode64 encode64 to_json w response x) (next_ok w) F c.
Proof.
  intros Hw Hb Hs Ha Hf. unfold auth_bearer. destruct (decode64 _) as [m|]; [|by apply wp_refuse].
  destruct (if x then _ else _) as [parsed|]; [|by apply wp_refuse]. cbv zeta.
  apply wp_bind, wp_modify. set (c1 := set_logs _ _ _ _ c). set (try_ := {| over_tls := is_tls c; credential := Token (user parsed) (token parsed); verdict := auth w |}).
  assert (k <> Mx) as Hk by apply Hs.
  assert (forall a u l, wrong_login try_ = false -> wp (tell (ToldSuccess u l);; modify (set_account (Some a));; answer (bs "235 2.7.0 Authentication succeeded")) (next_ok w) F c1) as Hin.
  { intros a u l Hr. assert (base c1) as Hb1 by by apply base_tried. apply wp_bind, wp_modify, wp_bind, wp_modify, wp_answer; [|exact Hf].
    apply base_account; [by apply (base_logs c1)|done|exact Ha]. }
  assert (forall u t, wrong_login try_ = true -> wp (tell (ToldFailure u);; one_auth_failure;; reply t;; mret (NAuth BearerFailed)) (next_ok w) F c1) as Hout.
  { intros u t Hr. apply wp_bind, wp_modify, wp_bind, wp_modify, wp_reply_next. split; [|split; [exact Hs|by split]].
    by apply (base_logs (one_failure c1)), base_wrong. }
  unfold wrong_login in *. cbn [verdict credential try_] in *. destruct (auth w) as [a|reason|] eqn:Hauth;
    [destruct (sasl_user_matches _ _) eqn:Hm; [apply Hin|apply Hout]|by apply Hout|apply wp_answer; [|done]]; try by rewrite ?Hm.
  by apply base_tried.
Qed.

Lemma wp_username w text c F : base c -> secure c -> account c = None -> auth_failures c < MAX_AUTH_FAILURES ->
  wp (auth_username decode64 text) (next_ok w) F c.
Proof.
  intros Hb Hs Ha Hf. unfold auth_username. case_match; [|by apply wp_refuse]. apply wp_reply_next. split; [done|]. by split.
Qed.

Lemma wp_auth w mechanism initial c F : truthful w -> base c -> auth_failures c < MAX_AUTH_FAILURES ->
  wp (auth_command hostname decode64 encode64 to_json w mechanism initial) (next_ok w) F c.
Proof.
  intros Hw Hb Hf. unfold auth_command. apply wp_bind, wp_get.
  destruct (is_submission (kind c)) eqn:Hk; [|by apply wp_refuse]. destruct (auth_available w c) eqn:Hav; [|by apply wp_refuse].
  case_bool_decide as Ha; [by apply wp_refuse|]. apply eq_None_not_Some in Ha. cbn [negb].
  case_bool_decide as He; [by apply wp_refuse|]. wp_step; [by apply wp_reply_next|]. cbv zeta.
  assert (secure c) as Hs.
  { split; [intros E; rewrite (b_kind _ Hb), E in Hk; done|]. intros Hst. unfold auth_available in Hav. rewrite Hk in Hav.
    destruct Hw as [_ Hw]. rewrite (Hw Hst) in Hav. by destruct (is_tls c). }
  unfold auth_mechanism. destruct mechanism; try (by apply wp_refuse);
    (wp_step; [apply wp_reply_next; by split|]); [by apply wp_plain|by apply wp_username|by apply smtp_bearer_ok..].
Qed.

Lemma wp_auth_line w step line c F : truthful w -> base c -> step_ok step c ->
  wp (auth_line hostname decode64 encode64 to_json w step line) (next_ok w) F c.
Proof.
  intros Hw Hb (Hs & Ha & Hstep). destruct (decide (step = BearerFailed)) as [->|Hne]; [by apply smtp_refused_ok|].
  specialize (Hstep Hne). unfold auth_line. destruct step; try done;
    (wp_step; [by apply wp_refuse|]); [by apply wp_plain|by apply wp_username| |by apply smtp_bearer_ok].
  case_match; [by apply wp_check|by apply wp_refuse].
Qed.

(** ** MAIL and RCPT *)

Definition emptied (c : Session) : Session := set_message [] false (set_recipients [] (set_envelope None c)).

Lemma base_reset c : base c -> base (emptied c).
Proof. intros []. by constructor. Qed.

Lemma base_helo h c : base c -> base (set_helo h c).
Proof. by intros []. Qed.

Lemma wp_mail w from c F : truthful w -> base c -> auth_failures c < MAX_AUTH_FAILURES -> wp (mail w from) (next_ok w) F c.
Proof.
  intros [Hown _] Hb Hf. unfold mail. apply wp_bind, wp_get.
  wp_step; [by apply wp_refuse|]. clear Heqb. case_bool_decide as He; [by apply wp_refuse|]. wp_step; [by apply wp_refuse|].
  wp_step; [by apply wp_refuse|]. cbv zeta. destruct (may_send_as w c _) eqn:Hmay; [|by apply wp_refuse].
  apply wp_bind, wp_modify, wp_answer; [|exact Hf]. apply eq_None_not_Some in He.
  pose proof (b_kind _ Hb) as Hk. pose proof (b_envelope _ Hb) as Henv. destruct Hb. constructor; try done.
  unfold envelope_ok in *. rewrite He in Henv. cbn. rewrite <- Hk in *. unfold may_send_as in Hmay.
  destruct (is_submission (kind c)); [|rewrite Henv; constructor].
  destruct (account c) as [a|]; [|done]. exists a. split; [done|].
  apply andb_prop in Hmay as [Hne Hy]. apply negb_true_iff, bool_decide_eq_false in Hne. split; [done|].
  apply Hown. by destruct (owns_address w _ _) as [[]|].
Qed.

(** Entries that may join the others. *)
Definition may_join (c : Session) (rs : list Recipient) : Prop :=
  exists e, envelope c = Some e /\ (is_submission k = false -> Forall (here e) rs).

Lemma base_push rs c : base c -> may_join c rs -> base (set_recipients (recipients c ++ rs) c).
Proof.
  intros Hb (e & He & Hrs). destruct Hb. constructor; try done. unfold envelope_ok in *. cbn. rewrite He in *.
  destruct (is_submission k); [done|]. apply Forall_app. split; [done | by apply Hrs].
Qed.

Lemma wp_take w r c F : base c -> auth_failures c < MAX_AUTH_FAILURES -> may_join c [r] -> wp (take_recipient r) (next_ok w) F c.
Proof.
  intros Hb Hf Hr. unfold take_recipient. apply wp_bind, wp_get, wp_bind. wp_step; [apply wp_ret; by apply wp_answer|].
  apply wp_modify, wp_answer; [by apply base_push|exact Hf].
Qed.

Lemma join_one c r e : envelope c = Some e -> (is_submission k = false -> here e r) -> may_join c [r].
Proof. intros He Hr. exists e. split; [done|]. intros Hk. constructor; [by apply Hr | done]. Qed.

Lemma wp_group w address g to c F : base c -> auth_failures c < MAX_AUTH_FAILURES -> is_Some (envelope c) ->
  wp (group_rcpt w address g to) (next_ok w) F c.
Proof.
  intros Hb Hf [e He]. unfold group_rcpt. apply wp_bind, wp_get.
  destruct (group_accepts w) as [[]|]; [|by apply wp_refuse|by apply wp_answer].
  wp_step; [by apply wp_answer|]. cbv zeta. wp_step; [by apply wp_refuse|].
  apply wp_bind, wp_modify, wp_answer; [|exact Hf]. apply base_push; [done|]. exists e. split; [done|].
  rewrite <- (b_kind _ Hb). intros ->. apply Forall_forall. intros r (m & -> & Hm)%list_elem_of_fmap.
  apply list_elem_of_fmap in Hm as (z & -> & _). left. by eexists.
Qed.

Lemma wp_local w address to found m c F : base c -> auth_failures c < MAX_AUTH_FAILURES -> is_Some (envelope c) ->
  (is_submission k = false -> is_Some found) -> wp (deliver_local w address to found m) (next_ok w) F c.
Proof.
  intros Hb Hf [e He] Hfound. unfold deliver_local. apply wp_bind, wp_get. cbv zeta.
  assert (forall a m, (is_submission k = false -> is_Some a) ->
            wp (take_recipient (to_local a m (plain_recipient to address))) (next_ok w) F c) as Htake.
  { intros a m' Ha. apply wp_take; [done|done|]. eapply join_one; [done|]. intros Hk. left. by apply Ha. }
  destruct found as [id|]; [|by apply Htake]. destruct (account_by_id w) as [[mb|]|]; [|by apply Htake..].
  wp_step; [destruct (default None (delivery_target w id)); [apply Htake; by eexists|by apply wp_refuse]|].
  wp_step; [by apply wp_answer|by apply Htake].
Qed.

Lemma wp_mailbox w address to c F : base c -> auth_failures c < MAX_AUTH_FAILURES -> is_Some (envelope c) ->
  wp (mailbox_rcpt w address to) (next_ok w) F c.
Proof.
  intros Hb Hf He. unfold mailbox_rcpt. apply wp_bind, wp_get. cbv zeta.
  destruct (resolve_recipient w) as [found|]; [|by apply wp_answer]. wp_step; [by apply wp_refuse|].
  wp_step; [by apply wp_refuse|]. apply wp_local; try done. intros Hk. rewrite (b_kind _ Hb), Hk in *.
  case_bool_decide as Hs; [done|]. by cbn in *.
Qed.

Lemma wp_srs w address to c F : base c -> auth_failures c < MAX_AUTH_FAILURES -> is_Some (envelope c) ->
  wp (srs_rcpt digest w address to) (next_ok w) F c.
Proof.
  intros Hb Hf [e He]. unfold srs_rcpt. apply wp_bind, wp_get. cbv zeta. case_match; [|by apply wp_refuse].
  rewrite He. case_bool_decide as Hbounce; [|by apply wp_refuse]. apply wp_take; [done|done|]. eapply join_one; [done|].
  intros _. do 4 right. split; [by eexists|done].
Qed.

Lemma wp_rcpt w to c F : base c -> auth_failures c < MAX_AUTH_FAILURES -> wp (rcpt digest to_lowercase domain_to_ascii w to) (next_ok w) F c.
Proof.
  intros Hb Hf. unfold rcpt. apply wp_bind, wp_get. cbv zeta. case_bool_decide as He; [|by apply wp_refuse]. cbn [negb].
  wp_step; [by apply wp_answer|]. destruct (normalize_address _ _ _) as [[local domain]|]; [|by apply wp_refuse].
  wp_step; [by apply wp_refuse|]. wp_step; [by apply wp_srs|]. pose proof He as [e Hee].
  assert (forall r, here e r -> wp (take_recipient r) (next_ok w) F c) as Htake.
  { intros r Hr. apply wp_take; [done|done|]. by eapply join_one. }
  match goal with |- wp (match ?x with _ => _ end) _ _ _ => destruct x end; [apply Htake; right; left; by eexists|].
  wp_step; [apply Htake; right; right; by left|].
  match goal with |- wp (match ?x with _ => _ end) _ _ _ => destruct x end; [apply Htake; do 3 right; left; by eexists|].
  destruct (group_delivery w) as [[g|]|]; [by apply wp_group|by apply wp_mailbox|by apply wp_answer].
Qed.

(** ** The other commands *)

Lemma wp_ehlo w host extended c F : base c -> auth_failures c < MAX_AUTH_FAILURES -> wp (ehlo hostname w host extended) (next_ok w) F c.
Proof.
  intros Hb Hf. unfold ehlo. apply wp_bind, wp_modify. pose proof (base_reset _ Hb) as Hb'.
  wp_step; [apply wp_bind, wp_modify, wp_answer; [by apply base_helo|exact Hf]|].
  apply wp_bind, wp_get. cbv zeta. apply wp_bind, wp_modify, wp_answer; [by apply base_helo|exact Hf].
Qed.

Lemma smtp_command_ok w request c F : truthful w -> base c -> auth_failures c < MAX_AUTH_FAILURES ->
  wp (command hostname digest to_lowercase domain_to_ascii decode64 encode64 to_json w request) (next_ok w) F c.
Proof.
  intros Hw Hb Hf. unfold command. apply wp_bind, wp_get.
  destruct request; try (by apply wp_refuse); try (by apply wp_answer);
    [by apply wp_ehlo|by apply wp_ehlo| |by apply wp_auth|by apply wp_mail|by apply wp_rcpt| | | |].
  - destruct (is_tls c) eqn:Ht; [by apply wp_refuse|]. destruct (server_tls w) eqn:Hst; [|by apply wp_refuse].
    apply wp_reply_next. split; [done|]. split_and!; [done..|]. pose proof (b_stream _ Hb). unfold is_tls in Ht. by destruct (stream c).
  - case_bool_decide; [by apply wp_refuse|]. by apply wp_reply_next.
  - case_bool_decide; by apply wp_ret.
  - apply wp_bind, wp_modify, wp_answer; [by apply base_reset|exact Hf].
  - by apply wp_reply_next.
Qed.

(** ** Messages *)

(** A session that ended, perhaps in the middle of STARTTLS. *)
Definition gone (c : Session) : Prop := base (set_stream Plain c).

Lemma base_gone c : base c -> gone c.
Proof. intros []. by constructor. Qed.

(** What reading goes on with. *)
Definition fits (s : State) (c : Session) : Prop :=
  match s with
  | SAuth step _ => step_ok step c
  | SData _ => auth_failures c < MAX_AUTH_FAILURES /\ recipients c <> []
  | SBdat rx => auth_failures c < MAX_AUTH_FAILURES /\ recipients c <> [] /\ Z.of_nat (length (message c)) + bdat_left rx <= max_size
  | _ => auth_failures c < MAX_AUTH_FAILURES
  end.

Definition same_failures (c c' : Session) : Prop := base c' /\ auth_failures c' = auth_failures c.

Lemma wp_finish w raw c F : base c -> recipients c <> [] -> Z.of_nat (length raw) <= max_size + Z.of_nat READ ->
  wp (finish_message w raw) (fun _ => same_failures c) F c.
Proof.
  intros Hb Hr Hl. unfold finish_message. apply wp_bind, wp_get. cbv zeta. apply wp_bind, wp_modify. set (c1 := set_recipients _ _).
  assert (base c1) as Hb1 by (destruct Hb; by constructor).
  assert (forall text, wp (reply text) (fun _ => same_failures c) F c1) as Hreply.
  { intros text. apply wp_reply; [apply Hb1|]. intros s. split; [by apply base_logs|done]. }
  destruct (envelope c) as [e|] eqn:He; [|by apply Hreply]. case_match; [by apply Hreply|]. wp_step; [by apply Hreply|].
  pose proof (b_envelope _ Hb) as Henv. unfold envelope_ok in Henv. rewrite He in Henv.
  assert (forall h, handed_ok h -> base (set_logs (sent c1) (told c1) (tried c1) (handed c1 ++ [h]) c1)) as Hhand.
  { intros h Hh. destruct Hb1. constructor; try done. cbn. apply Forall_app. split; [done | by constructor]. }
  assert (Z.of_nat (length (Headers.normalize_line_endings raw)) <= 2 * (max_size + Z.of_nat READ)) as Hlen.
  { unfold Headers.normalize_line_endings. pose proof (Headers.normalize_length raw x00). lia. }
  assert (forall text h, handed_ok h -> wp (reply text) (fun _ => same_failures c) F (set_logs (sent c1) (told c1) (tried c1) (handed c1 ++ [h]) c1)) as Hgo.
  { intros text h Hh. specialize (Hhand h Hh). apply wp_reply; [apply Hhand|]. intros s. split; [by apply base_logs|done]. }
  apply wp_bind. pose proof (b_kind _ Hb) as Hk. destruct (is_submission (kind c)) eqn:Hs; rewrite Hk in Hs; rewrite Hs in Henv.
  - destruct Henv as (a & Ha & Hne & Hown). apply wp_bind, wp_get, wp_bind. apply (wp_expect _ a); [exact Ha|].
    apply wp_bind, wp_modify, wp_ret, Hgo. split; [done|]. split; [done|]. rewrite Hs. by exists a.
  - apply wp_bind, wp_get, wp_bind, wp_modify, wp_ret, Hgo. split; [done|]. split; [done|]. by rewrite Hs.
Qed.

Lemma base_message m b c : base c -> Z.of_nat (length m) <= max_size -> base (set_message m b c).
Proof. intros [] Hm. by constructor. Qed.

Lemma base_ended m c : base c -> base (set_counts (errors c) (auth_failures c) m c).
Proof. by intros []. Qed.

(** The message is taken out and handed on. *)
Lemma smtp_taken_ok w m c F : base c -> recipients c <> [] -> Z.of_nat (length m) <= max_size + Z.of_nat READ ->
  wp (message_ended w) (fun _ => same_failures c) F (set_message m (message_too_big c) c).
Proof.
  intros Hb Hr Hm. apply wp_bind, wp_bind, wp_get, wp_bind, wp_modify, wp_ret, wp_bind, wp_modify. cbn [message set_message].
  set (c1 := set_counts _ _ _ _). assert (base c1) as Hb1 by (destruct Hb; by constructor).
  eapply wp_mono; [|done|by apply (wp_finish w m c1)]. intros _ c' [H1 H2]. by split.
Qed.

Lemma wp_too_big c F : base c -> wp too_big (fun _ => same_failures c) F c.
Proof.
  intros Hb. apply wp_bind, wp_modify, wp_bind, wp_modify. set (c1 := set_counts _ _ _ _). assert (base c1) as Hb1 by (destruct Hb; by constructor).
  apply wp_reply; [apply Hb1|]. intros s. split; [by apply base_logs|done].
Qed.

(** ** A turn *)

Definition rank (s : State) : nat := match s with SData _ => 2 | SCommand _ | SAuth _ _ => 0 | _ => 1 end.

Definition left_to_do (s : State) (bytes : list byte) : nat := (3 * length bytes + rank s)%nat.

Definition turned (s : State) (bytes : list byte) (t : Turn) (c : Session) : Prop :=
  base c /\
  match t with
  | Return => True
  | Break s' => fits s' c
  | Again s' rest => fits s' c /\ (left_to_do s' rest < left_to_do s bytes)%nat /\ (length rest <= length bytes)%nat
  end.

Lemma wp_start_tls w c : base c -> auth_failures c < MAX_AUTH_FAILURES -> server_tls w = true -> stream c = Plain ->
  wp (start_tls w) (fun _ => same_failures c) gone c.
Proof.
  intros Hb Hf Hw Hs. unfold start_tls. apply wp_bind, wp_get. rewrite Hw, Hs. cbn [negb]. apply wp_bind, wp_modify.
  destruct (handshake w); [|apply wp_throw; destruct Hb; by constructor].
  apply wp_bind, wp_modify, wp_bind, wp_modify, wp_modify. split; [|done]. destruct Hb. constructor; try done.
Qed.

Lemma smtp_next_ok w rx bytes rest next c s : truthful w -> next_ok w next c -> (length rest < length bytes)%nat -> rank s = 0%nat ->
  wp (next_state w max_size rx rest next) (turned s bytes) gone c.
Proof.
  intros Hw [Hb Hn] Hlt Hrank. assert (forall s', (rank s' <= 2)%nat -> (left_to_do s' rest < left_to_do s bytes)%nat) as Hdo
    by (intros s' Hs'; unfold left_to_do; lia).
  destruct next as [| |size is_last|size|step| |]; cbn [next_state].
  - apply wp_ret. split; [done|]. split; [done|]. split; [apply Hdo; cbn; lia | lia].
  - apply wp_bind, wp_modify, wp_ret. split; [by apply base_message|]. split; [done|]. split; [apply Hdo; cbn; lia | lia].
  - apply wp_bind, wp_get. wp_step.
    + apply wp_ret. split; [done|]. split; [|split; [apply Hdo; cbn; lia | lia]]. destruct Hn as [Hf Hr]. split; [done|]. split; [done|].
      apply andb_prop in Heqb as [_ Hc]. unfold chunk_fits in Hc. pose proof (bdat_left_new size is_last). pose proof (b_message _ Hb). lia.
    + apply wp_bind, wp_modify, wp_ret. split; [by apply base_message|]. split; [apply Hn|]. split; [apply Hdo; cbn; lia | lia].
  - apply wp_ret. split; [done|]. split; [done|]. split; [apply Hdo; cbn; lia | lia].
  - apply wp_ret. split; [done|]. split; [done|]. split; [apply Hdo; cbn; lia | lia].
  - destruct Hn as (Hf & Ht & Hs). apply wp_bind. eapply wp_mono; [|done|by apply wp_start_tls].
    intros _ c' [Hb' Hf']. apply wp_ret. split; [done|]. cbn. lia.
  - by apply wp_ret.
Qed.

Lemma smtp_turn_ok w s bytes c : truthful w -> base c -> fits s c -> (length bytes <= READ)%nat -> bytes <> [] \/ in_chunk s = true ->
  wp (turn hostname digest to_lowercase domain_to_ascii decode64 encode64 to_json w max_size s bytes) (turned s bytes) gone c.
Proof.
  intros Hw Hb Hfit Hread Hbytes.
  assert (forall rx rest c', same_failures c c' -> auth_failures c < MAX_AUTH_FAILURES -> (length rest <= length bytes)%nat ->
            (0 < rank s)%nat -> turned s bytes (Again (SCommand rx) rest) c') as Hagain.
  { intros rx rest c' [Hb' Hf'] Hf Hle Hrank. split; [done|]. split; [cbn; lia|]. unfold left_to_do. cbn. lia. }
  destruct s as [rx|rx|rx|rx|rx is_last|rx|step rx]; cbn [turn].
  - destruct Hbytes as [Hbytes|]; [|done]. destruct (request_ingest rx bytes) as [[rx' rest] r] eqn:E.
    pose proof (request_takes _ _ _ _ _ E Hbytes) as Hlt. destruct r as [request| |err].
    + apply wp_bind. eapply wp_mono; [|done|by apply smtp_command_ok]. intros next c' Hn. apply (smtp_next_ok w rx' bytes rest next c'); [done|done|by apply Hlt|done].
    + by apply wp_ret.
    + specialize (Hlt ltac:(done)). apply wp_bind, wp_error; [apply Hb|]. intros b t e. set (c1 := set_logs _ _ _ _ _).
      assert (base c1) as Hb1 by (destruct Hb; by constructor). destruct b; apply wp_ret; split; try done.
      split; [done|]. split; [unfold left_to_do; cbn; lia | lia].
  - destruct Hfit as [Hf Hr]. apply wp_bind, wp_get. destruct (data_ingest rx bytes (message c)) as [[[rx' rest] m] done] eqn:E.
    pose proof (data_takes _ _ _ _ _ _ _ E) as [Hle Hm]. pose proof (b_message _ Hb) as Hmc. apply wp_bind, wp_modify.
    destruct done; [|case_match].
    + apply wp_bind. eapply wp_mono; [|done|by apply (smtp_taken_ok w m c); [..|lia]]. intros ? c' Hs. apply wp_ret, Hagain; [done..|cbn; lia].
    + apply wp_bind, wp_modify, wp_ret. set (c1 := set_message [] _ _). assert (base c1) as Hb1 by (destruct Hb; by constructor).
      split; [done|]. split; [done|]. split; [unfold left_to_do; cbn; lia | lia].
    + apply wp_ret. split; [apply base_message; [done|lia]|]. by split.
  - destruct (dummy_ingest rx bytes) as [[rx' rest] done] eqn:E. apply dummy_takes in E. destruct done; [|by apply wp_ret].
    apply wp_bind. eapply wp_mono; [|done|by apply wp_too_big]. intros ? c' Hs. apply wp_ret, Hagain; [done..|cbn; lia].
  - destruct Hfit as (Hf & Hr & Hfit). apply wp_bind, wp_get. destruct (bdat_ingest rx bytes (message c)) as [[[rx' rest] m] done] eqn:E.
    pose proof (bdat_takes _ _ _ _ _ _ _ E) as [Hle Hm]. pose proof (bdat_left_pos rx') as Hpos. apply wp_bind, wp_modify.
    assert (base (set_message m (message_too_big c) c)) as Hb1 by (apply base_message; [done|lia]).
    destruct done; [|apply wp_ret; split; [done|]; split; [done|]; split; [done|cbn; lia]].
    apply wp_bind. eapply (wp_mono _ (fun _ => same_failures c) _ gone); [|done|].
    + intros ? c' Hs. apply wp_ret, Hagain; [done..|cbn; lia].
    + wp_step; [apply wp_reply; [apply Hb1|]; intros t; split; [by apply base_logs|done]|]. apply smtp_taken_ok; [done|done|lia].
  - destruct (dummy_ingest rx bytes) as [[rx' rest] done] eqn:E. apply dummy_takes in E. destruct done; [|by apply wp_ret].
    apply wp_bind. eapply (wp_mono _ (fun _ => same_failures c) _ gone); [|done|].
    + intros ? c' Hs. apply wp_ret, Hagain; [done..|cbn; lia].
    + wp_step; [apply wp_reply; [apply Hb|]; intros t; split; [by apply base_logs|done]|]. by apply wp_too_big.
  - destruct (dummy_ingest rx bytes) as [[rx' rest] done] eqn:E. apply dummy_takes in E. destruct done; [|by apply wp_ret].
    apply wp_bind, wp_reply; [apply Hb|]. intros t. apply wp_ret, Hagain; [split; [by apply base_logs|done]|done|done|cbn; lia].
  - destruct Hbytes as [Hbytes|]; [|done]. destruct (line_ingest rx bytes) as [[rx' rest] done] eqn:E.
    destruct done; [|by apply wp_ret]. apply line_takes in E; [|done]. apply wp_bind.
    eapply wp_mono; [|done|by apply wp_auth_line]. intros next c' [Hb' Hn].
    assert (forall s', rank s' = 0%nat -> (left_to_do s' rest < left_to_do (SAuth step rx) bytes)%nat) as Hdo
      by (intros s' Hs'; unfold left_to_do; cbn; lia).
    destruct next; apply wp_ret; (split; [done|]); try done; (split; [try apply Hn; done|split; [by apply Hdo|lia]]).
Qed.

Lemma wp_ingest fuel worlds s bytes c : (forall n, truthful (worlds n)) -> base c -> fits s c -> (length bytes <= READ)%nat ->
  bytes <> [] \/ in_chunk s = true -> (left_to_do s bytes < fuel)%nat ->
  wp (ingest hostname digest to_lowercase domain_to_ascii decode64 encode64 to_json fuel worlds max_size s bytes)
     (fun s' c' => base c' /\ match s' with Some s' => fits s' c' | None => True end) gone c.
Proof.
  revert worlds s bytes c. induction fuel as [|fuel IH]; intros worlds s bytes c Hw Hb Hfit Hread Hbytes Hfuel; [lia|].
  cbn [ingest]. apply wp_bind. eapply wp_mono; [|done|by apply (smtp_turn_ok (worlds O) s bytes c)].
  intros t c' [Hb' Ht]. destruct t as [s'| |s' rest]; [by apply wp_ret|by apply wp_ret|]. destruct Ht as (Hfit' & Hlt & Hle).
  wp_step; [by apply wp_ret|]. apply IH; try done; [lia| |lia].
  apply andb_false_iff in Heqb as [Hne%bool_decide_eq_false|Hc%negb_false_iff]; [by left|by right].
Qed.

(** ** The connection *)

(** Reads fit the buffer, and what is answered stays within [truthful]. *)
Definition event_ok (e : Event) : Prop :=
  (forall bytes, arrival e = Bytes bytes -> (length bytes <= READ)%nat) /\ forall n, truthful (worlds e n).

Lemma left_enough s bytes : (left_to_do s bytes < enough bytes)%nat.
Proof. unfold left_to_do, enough. destruct s; cbn; lia. Qed.

Lemma wp_await idle e s d c : event_ok e -> base c -> fits s c ->
  wp (await hostname digest to_lowercase domain_to_ascii decode64 encode64 to_json idle max_size e s d)
     (fun r c' => match r with Some (s', _) => base c' /\ fits s' c' | None => gone c' end) gone c.
Proof.
  intros [Hread Hw] Hb Hfit. unfold await. cbv zeta.
  wp_step; [apply wp_bind, wp_reply; [apply Hb|]; intros t; by apply wp_ret, base_gone, base_logs|].
  destruct (arrival e) as [[|b bytes]|]; [by apply wp_ret, base_gone| |by apply wp_throw, base_gone].
  apply wp_bind, wp_get, wp_bind. eapply wp_mono; [|done|apply wp_ingest; try done].
  - intros [s'|] c' [Hb' Hfit']; [|by apply wp_ret, base_gone]. by apply wp_bind, wp_get, wp_ret.
  - by apply Hread.
  - by left.
  - apply left_enough.
Qed.

Lemma wp_loop idle events s d c : Forall event_ok events -> base c -> fits s c ->
  wp (loop hostname digest to_lowercase domain_to_ascii decode64 encode64 to_json idle max_size events s d) (fun _ => gone) gone c.
Proof.
  intros He. revert s d c. induction He as [|e events Hok _ IH]; intros s d c Hb Hfit; [by apply wp_ret, base_gone|].
  cbn [loop]. apply wp_bind. eapply wp_mono; [|done|by apply wp_await].
  intros [[s' d']|] c'; [intros [Hb' Hfit']; by apply IH|intros Hg; by apply wp_ret].
Qed.

Lemma smtp_run_ok timeout_secs now events c : Forall event_ok events -> base c -> auth_failures c = 0 ->
  wp (run hostname digest to_lowercase domain_to_ascii decode64 encode64 to_json timeout_secs max_size now events) (fun _ => gone) gone c.
Proof.
  intros He Hb Hf. unfold run. apply wp_bind, wp_reply; [apply Hb|]. intros t. apply wp_loop; [done|by apply base_logs|].
  cbn. rewrite Hf. vm_compute. done.
Qed.
End safe.

(** C2: A session on the MX or a submission port never panics and never runs on, whatever the
    client sends and whatever the store, the limiter and the settings answer. On the MX
    nobody logs in, and every recipient of a message it takes is someone or something here:
    it is no open relay, a bounce's way back to a sender it rewrote apart. On submission
    every message it takes is sent by a logged-in account as an address the store says is
    theirs. No message without a recipient is taken, at most three of all the logins the store
    answers for are wrong, a message in the making is never larger than the limit, and
    passwords and tokens are only tried over TLS where the settings ask for it. *)
Theorem smtp_session_safe `{Laws : ReceiverLaws} hostname digest to_lowercase domain_to_ascii decode64 encode64 to_json
    k st p timeout_secs max_size now events (owned : Z -> list byte -> Prop) :
  st <> Taken -> 0 <= max_size ->
  (forall e bytes, e ∈ events -> arrival e = Bytes bytes -> (length bytes <= READ)%nat) ->
  (forall e n id a, e ∈ events -> owns_address (worlds e n) id a = Some true -> owned id a) ->
  exists r c,
    run hostname digest to_lowercase domain_to_ascii decode64 encode64 to_json timeout_secs max_size now events (new st p k) = (r, c)
    /\ returns r /\ Forall (handed_ok k max_size owned) (handed c) /\ (k = Mx -> account c = None /\ tried c = [])
    /\ (length (wrong_logins c) <= 3)%nat /\ Z.of_nat (length (message c)) <= max_size
    /\ ((forall e n, e ∈ events -> require_tls_for_auth (live (worlds e n)) = true) -> Forall (fun t => over_tls t = true) (tried c)).
Proof.
  intros Hst Hmax Hread Hown. set (strict := forall e n, e ∈ events -> require_tls_for_auth (live (worlds e n)) = true).
  assert (Forall (event_ok owned strict) events) as He.
  { apply Forall_forall. intros e Hin. split; [intros bytes; by apply Hread|]. intros n. split; [intros id a; by apply Hown|].
    intros Hs. by apply Hs. }
  assert (base k max_size owned strict (new st p k)) as Hb by (constructor; try done; unfold envelope_ok; vm_compute; done).
  pose proof (smtp_run_ok hostname digest to_lowercase domain_to_ascii decode64 encode64 to_json k max_size owned strict Hmax timeout_secs now events _ He Hb eq_refl) as Hrun.
  unfold wp in Hrun. destruct (run _ _ _ _ _ _ _ _ _ _ _ _) as [r c]. exists r, c. split; [done|].
  destruct r as [[]|[]| |]; try done; destruct Hrun as [? ? Hmx ? Hh Ht Hw Hf Hm]; split_and!; try done; unfold MAX_AUTH_FAILURES in *; cbn in Hw; unfold wrong_logins in *; cbn in *; lia.
Qed.

(** ** Waiting *)

Section waiting.
Context `{Receivers} (hostname : list byte) (digest : list byte -> list byte -> list byte)
        (to_lowercase : list byte -> list byte) (domain_to_ascii : list byte -> option (list byte))
        (decode64 : list byte -> option (list byte)) (encode64 : list byte -> list byte)
        (to_json : list (list byte * list byte) -> list byte) (idle max_size : Z).

(** The session reads [events] one after the other, on a clock that goes on, and gets
    nowhere: nobody logs in and no message ends. [now] is when it began to wait. *)
Inductive stalls : Z -> list Event -> State -> Deadline -> Session -> Prop :=
| stalls_end now s d c : stalls now [] s d c
| stalls_wait now e events s d c s' d' c' :
    now <= begun e -> 0 <= waited e ->
    await hostname digest to_lowercase domain_to_ascii decode64 encode64 to_json idle max_size e s d c = (Ok (Some (s', d')), c') ->
    progress c c' = false -> stalls (begun e + waited e) events s' d' c' -> stalls now (e :: events) s d c.

Definition total_waited (events : list Event) : Z := foldr (fun e total => waited e + total) 0 events.

Definition may_wait (now : Z) (d : Deadline) : Z := Z.max 0 (deadline d - now) + (if in_transfer d then 0 else TRANSFER_LIMIT).

Lemma await_stalled e s d c s' d' c' :
  await hostname digest to_lowercase domain_to_ascii decode64 encode64 to_json idle max_size e s d c = (Ok (Some (s', d')), c') ->
  progress c c' = false -> d' = now_transferring e s d /\ waited e <= Z.min idle (Z.max 0 (deadline d' - begun e)).
Proof.
  unfold await. cbv zeta. set (d1 := now_transferring e s d). intros Ha Hp. destruct (Z.min _ _ <? waited e) eqn:Hw.
  { unfold mbind, M_bind in Ha. repeat case_match; simplify_eq. }
  destruct (arrival e) as [[|b bytes]|]; [done| |done]. unfold mbind, M_bind in Ha. cbn [get] in Ha.
  destruct (ingest _ _ _ _ _ _ _ _ _ _ _ _ _) as [[[s1|]|[]| |] c1] eqn:E; try done.
  cbn in Ha. injection Ha as <- <- <-. rewrite Hp. split; [done|lia].
Qed.

Lemma stalls_may_wait now events s d c : stalls now events s d c -> total_waited events <= may_wait now d.
Proof.
  induction 1 as [now s d c|now e events s d c s' d' c' Hnow Hwait Ha Hp _ IH].
  { unfold may_wait, TRANSFER_LIMIT. cbn. destruct (in_transfer d); lia. }
  apply await_stalled in Ha as [-> Hw]; [|done]. cbn [total_waited foldr]. unfold may_wait, now_transferring in *.
  destruct (transferring s && negb (in_transfer d)) eqn:Ht; cbn [in_transfer deadline] in *.
  - apply andb_prop in Ht as [_ ->%negb_true_iff]. unfold TRANSFER_LIMIT in *. unfold total_waited in *. lia.
  - unfold total_waited in *. destruct (in_transfer d); lia.
Qed.
End waiting.

(** C28: A client that gets nowhere does not hold its connection by waiting: from the start
    on, until somebody logs in or a message ends, all the waits for its next bytes together
    are no longer than the three minutes without progress and the ten of one transfer,
    however it spreads its bytes over them. *)
Theorem stalling_ends `{Receivers} hostname digest to_lowercase domain_to_ascii decode64 encode64 to_json idle max_size now events c :
  stalls hostname digest to_lowercase domain_to_ascii decode64 encode64 to_json idle max_size now events (SCommand request_new) (at_start now) c ->
  total_waited events <= NO_PROGRESS_LIMIT + TRANSFER_LIMIT.
Proof. intros Hs%stalls_may_wait. unfold may_wait, at_start in Hs. cbn in Hs. unfold NO_PROGRESS_LIMIT, TRANSFER_LIMIT in *. lia. Qed.
