(* ===== verification/SmtpSample.v ===== *)
(** * A small SMTP reader, and sessions on it

    An instance of [Smtp.Receivers] in place of smtp-proto, with its laws: a line is a
    command, DATA ends at a dot on a line of its own (dots are not doubled), a chunk after
    its bytes. The sessions run on it show that the theorems speak of something, and what a
    session does that its comments do not say. *)

From S2P Require Import Prelude Effects Utf8 Network Srs Sasl SmtpHeaders Address ImapSessionDispatch SmtpSession SmtpSessionSafe.
Import Smtp.

(** A line, when there is a whole one. *)
Definition take_line (buf bytes : list byte) : list byte * list byte * option (list byte) :=
  match split_once x0a bytes with
  | Some (line, rest) => ([], rest, Some (buf ++ line))
  | None => (buf ++ bytes, [], None)
  end.

Definition angle (s : list byte) : list byte :=
  match split_once "<"%byte s with
  | Some (_, s) => match split_once ">"%byte s with Some (a, _) => a | None => [] end
  | None => []
  end.

Definition request_of (line : list byte) : Ingested :=
  let starts p := starts_with (bs p) line in
  if starts "EHLO "%string then Parsed (Ehlo (trim (drop 5 line)))
  else if starts "STARTTLS"%string then Parsed StartTls
  else if starts "AUTH PLAIN "%string then Parsed (Auth_ PLAIN (drop 11 line))
  else if starts "MAIL FROM:"%string then Parsed (Mail {| from_address := angle line; from_size := 0; from_env_id := None |})
  else if starts "RCPT TO:"%string then Parsed (Rcpt {| to_address := angle line; to_flags := 0; to_orcpt := None |})
  else if starts "DATA"%string then Parsed Data_
  else if starts "BDAT 3 LAST"%string then Parsed (Bdat_ 3 true)
  else if starts "NOOP"%string then Parsed Noop
  else if starts "QUIT"%string then Parsed Quit_
  else Failed UnknownCommand.

Definition sample_request (rx bytes : list byte) : list byte * list byte * Ingested :=
  match take_line rx bytes with
  | (rx, rest, Some line) => (rx, rest, request_of line)
  | (rx, rest, None) => (rx, rest, NeedsMoreData)
  end.

Definition dot : list byte := [x0d; x0a; "."%byte; x0d; x0a].

(** To the dot at the end of [seen]. *)
Fixpoint until_dot (seen bytes : list byte) : list byte * list byte * bool :=
  match bytes with
  | [] => (seen, [], false)
  | b :: bytes =>
      let seen := seen ++ [b] in
      match strip_suffix dot seen with Some m => (m ++ [x0d; x0a], bytes, true) | None => until_dot seen bytes end
  end.

Definition sample_chunk (rx : Z * bool) (bytes m : list byte) : (Z * bool) * list byte * list byte * bool :=
  let n := Z.to_nat rx.1 in
  ((rx.1 - Z.of_nat (length (take n bytes)), rx.2), drop n bytes, m ++ take n bytes, (n <=? length bytes)%nat).

(** What was seen of DATA, or how much of a chunk is left. *)
Definition sample_dummy (rx : list byte + Z) (bytes : list byte) : (list byte + Z) * list byte * bool :=
  match rx with
  | inl seen => let '(seen, rest, done) := until_dot seen bytes in (inl seen, rest, done)
  | inr more => let n := Z.to_nat more in (inr (more - Z.of_nat (length (take n bytes))), drop n bytes, (n <=? length bytes)%nat)
  end.

#[export] Instance sample : Receivers := {|
  RequestReceiver := list byte; request_new := []; request_ingest := sample_request;
  DataReceiver := unit; data_new := tt;
  data_ingest := fun _ bytes m => let '(m, rest, done) := until_dot m bytes in (tt, rest, m, done);
  BdatReceiver := Z * bool; bdat_new := fun size last => (size, last); bdat_is_last := snd; bdat_ingest := sample_chunk;
  DummyDataReceiver := list byte + Z; dummy_new_data := fun _ => inl []; dummy_new_bdat := inr; dummy_ingest := sample_dummy;
  LineReceiver := list byte; line_new := []; line_buf := id;
  line_ingest := fun rx bytes => match take_line rx bytes with (rx, rest, Some line) => (line, rest, true) | (rx, rest, None) => (rx, rest, false) end |}.

Lemma take_line_some buf bytes buf' rest line : take_line buf bytes = (buf', rest, Some line) -> (length rest < length bytes)%nat.
Proof.
  unfold take_line. destruct (split_once x0a bytes) as [[l r]|] eqn:E; [|done]. apply split_once_Some in E as [-> _].
  intros [= _ <- _]. rewrite length_app. simpl. lia.
Qed.

Lemma until_dot_takes bytes : forall seen seen' rest done, until_dot seen bytes = (seen', rest, done) ->
  (length rest <= length bytes /\ length seen' + length rest <= length seen + length bytes)%nat.
Proof.
  induction bytes as [|b bytes IH]; intros seen seen' rest done; cbn [until_dot]; [intros [= <- <- _]; simpl; lia|].
  destruct (strip_suffix dot (seen ++ [b])) as [m|] eqn:E.
  - intros [= <- <- _]. apply strip_suffix_Some, (f_equal length) in E. rewrite !length_app in *. simpl in *. lia.
  - intros [H1 H2]%IH. rewrite length_app in H2. simpl in *. lia.
Qed.

#[export] Instance sample_laws : ReceiverLaws.
Proof.
  apply (Build_ReceiverLaws sample (fun rx : Z * bool => Z.max 0 rx.1)).
  - intros rx bytes rx' rest r H _ Hr. cbn in H. unfold sample_request in H.
    destruct (take_line rx bytes) as [[b t] [line|]] eqn:E; simplify_eq. by eapply take_line_some.
  - intros rx bytes m rx' rest m' done H. cbn in H. destruct (until_dot m bytes) as [[s r] d] eqn:E. simplify_eq. by eapply until_dot_takes.
  - intros rx bytes m rx' rest m' done H. cbn in H. unfold sample_chunk in H. simplify_eq.
    rewrite length_drop, length_app. cbn [fst]. split; [lia|]. rewrite length_take. lia.
  - intros size last. cbn. lia.
  - intros rx. cbn. lia.
  - intros rx bytes rx' rest done H. cbn in H. unfold sample_dummy in H. destruct rx as [seen|n].
    + destruct (until_dot seen bytes) as [[s r] d] eqn:E. simplify_eq. by eapply until_dot_takes.
    + simplify_eq. rewrite length_drop. lia.
  - intros rx bytes rx' rest H _. cbn in H. destruct (take_line rx bytes) as [[b t] [line|]] eqn:E; simplify_eq. by eapply take_line_some.
Defined.

(** ** Sessions *)

Definition mini : Account := {| account_id := 1; account_login := bs "mini@example.org" |}.

(** A server that knows one person. *)
Definition answers (known : bool) : World :=
  {| live := {| max_message_size := 100; max_recipients := 10; require_tls_for_auth := true; traps := []; reveal_client_ip := false |};
     server_tls := true; handshake := Some (bs "TLSv1_3"); blocked := false; begins := true; auth := AuthOk mini;
     owns_address := fun id a => Some (bool_decide (id = 1 /\ a = bs "mini@example.org"));
     local_for_outside := Some known; local_for_srs := Some known; local_for_unknown := Some known; internal_only := Some false;
     sender_internal_only := Some false; srs_secret := None; today := 0; report_recipient := Some None; forward_address_targets := Some None;
     group_delivery := Some None; group_accepts := Some true; delivery_target := fun _ => Some None; masked_delivery := Some None;
     resolve_recipient := Some (if known then Some 1 else None); account_by_id := None;
     mime := MimeFine; submitted := Queued (bs "1"); received := bs "250 2.0.0 Message accepted as 1" |}.

Definition line (s : string) : list byte := bs s ++ [x0d; x0a].

(** What the client sends, an answered read each. *)
Definition reads (at_ : Z) (known : bool) (inputs : list (list byte)) : list Event :=
  map (fun input => {| begun := at_; waited := 0; arrival := Bytes input; worlds := fun _ => answers known; done_at := at_ |}) inputs.

Definition run_sample (st : Stream) (k : ListenerKind) (events : list Event) : outcome unit unit * Session :=
  run (bs "mx.example.org") (fun _ _ => []) to_ascii_lowercase (fun d => Some (to_ascii_lowercase d)) (fun s => Some s) id (fun _ => [])
    60 100 0 events (new st (V4 0) k).

Definition login : list byte := bs "AUTH PLAIN " ++ [x00] ++ bs "mini@example.org" ++ [x00] ++ bs "secret" ++ [x0d; x0a].

Definition message_to (to : string) : list byte :=
  line "MAIL FROM:<mini@example.org>" ++ line ("RCPT TO:<" ++ to ++ ">") ++ line "DATA" ++ line "Subject: Hi" ++ line "" ++ line "body" ++ line ".".

Definition submission_events : list Event := reads 5 false [line "EHLO me" ++ login ++ message_to "leni@elsewhere.example"; line "QUIT"].

Example submits :
  let '(r, c) := run_sample (Server []) Submission submission_events in
  r = Ok tt /\ map h_raw (handed c) = [line "Subject: Hi" ++ line "" ++ line "body"] /\ length (tried c) = 1%nat.
Proof. vm_compute. done. Qed.

(** Nothing is relayed. *)
Example no_relay :
  let '(r, c) := run_sample Plain Mx (reads 5 false [line "EHLO me" ++ message_to "leni@elsewhere.example"]) in
  handed c = [] /\ errors c = 6.
Proof. vm_compute. done. Qed.

(** The tenth and every later error is answered with a closing that [command] does not
    carry out: only an error of reading ends the session. *)
Definition ten_nested : list Event :=
  reads 5 false [line "EHLO me"; line "MAIL FROM:<a@elsewhere.example>" ++ mjoin (replicate 10 (line "MAIL FROM:<a@elsewhere.example>")); line "NOOP"].

Example goes_on_after_421 :
  let '(r, c) := run_sample Plain Mx ten_nested in
  errors c = 10 /\ exists before, sent c = before ++ line "421 4.7.0 Too many errors, closing connection" ++ line "250 2.0.0 OK".
Proof.
  vm_compute. split; [done|]. match goal with |- exists _, ?s = _ => exists (take (length s - length (line "421 4.7.0 Too many errors, closing connection" ++ line "250 2.0.0 OK")) s) end.
  vm_compute. done.
Qed.

(** A client whose bytes are always there already is read long after its deadline. *)
Example flooding_goes_on :
  let '(r, c) := run_sample Plain Mx (reads 5 false [line "NOOP"] ++ reads (24 * 3600 * 1000) false [line "NOOP"; line "NOOP"]) in
  r = Ok tt /\ messages_ended c = 0 /\ exists before, sent c = before ++ line "250 2.0.0 OK" ++ line "250 2.0.0 OK".
Proof.
  vm_compute. split_and!; [done..|]. match goal with |- exists _, ?s = _ => exists (take (length s - 2 * length (line "250 2.0.0 OK")) s) end.
  vm_compute. done.
Qed.

(** ** Witnesses *)

Lemma smtp_session_safe_witness : exists c,
  run_sample (Server []) Submission submission_events = (Ok tt, c) /\ length (handed c) = 1%nat
  /\ Forall (handed_ok Submission 100 (fun id a => id = 1 /\ a = bs "mini@example.org")) (handed c)
  /\ Forall (fun t => over_tls t = true) (tried c).
Proof.
  destruct (smtp_session_safe (bs "mx.example.org") (fun _ _ => []) to_ascii_lowercase (fun d => Some (to_ascii_lowercase d)) (fun s => Some s) id
              (fun _ => []) Submission (Server []) (V4 0) 60 100 0 submission_events (fun id a => id = 1 /\ a = bs "mini@example.org"))
    as (r & c & Hrun & _ & Hh & _ & _ & _ & Ht).
  - done.
  - done.
  - intros e bytes He Hb. unfold submission_events, reads in He. apply list_elem_of_fmap in He as (i & -> & Hi). cbn in Hb.
    injection Hb as <-. rewrite !elem_of_cons in Hi. destruct Hi as [->|[->|Hi%elem_of_nil]]; [..|done]; by vm_compute; lia.
  - intros e n id a He Ho. unfold submission_events, reads in He. apply list_elem_of_fmap in He as (i & -> & _). cbn in Ho.
    injection Ho as Ho. by apply bool_decide_eq_true in Ho.
  - exists c. assert (run_sample (Server []) Submission submission_events = (r, c)) as H by exact Hrun.
    assert (fst (run_sample (Server []) Submission submission_events) = Ok tt /\ length (handed (snd (run_sample (Server []) Submission submission_events))) = 1%nat)
      as [H1 H2] by (split; vm_compute; reflexivity).
    rewrite H in H1, H2. cbn in H1, H2. subst r. split; [exact H|]. split; [exact H2|]. split; [exact Hh|]. apply Ht.
    intros e n He. unfold submission_events, reads in He. by apply list_elem_of_fmap in He as (i & -> & _).
Defined.

(** A client that sends a byte a minute, and then nothing. *)
Definition slow : Event := {| begun := 0; waited := 50 * 1000; arrival := Bytes (bs "N"); worlds := fun _ => answers true; done_at := 50 * 1000 |}.
Definition slower : Event := {| begun := 50 * 1000; waited := 55 * 1000; arrival := Bytes (bs "O"); worlds := fun _ => answers true; done_at := 105 * 1000 |}.

Definition read_so_far (s : string) : State := @SCommand sample (bs s).

Definition sample_await : Event -> State -> Deadline -> N (option (State * Deadline)) :=
  await (bs "mx.example.org") (fun _ _ => []) to_ascii_lowercase (fun d => Some (to_ascii_lowercase d)) (fun s => Some s) id (fun _ => []) (60 * 1000) 100.

Definition sample_stalls : Z -> list Event -> State -> Deadline -> Session -> Prop :=
  stalls (bs "mx.example.org") (fun _ _ => []) to_ascii_lowercase (fun d => Some (to_ascii_lowercase d)) (fun s => Some s) id (fun _ => []) (60 * 1000) 100.

Lemma sample_stalls_wait now e events s d c s' d' c' :
  now <= begun e -> 0 <= waited e -> sample_await e s d c = (Ok (Some (s', d')), c') -> progress c c' = false ->
  sample_stalls (begun e + waited e) events s' d' c' -> sample_stalls now (e :: events) s d c.
Proof. apply stalls_wait. Qed.

Lemma stalling_ends_witness :
  sample_stalls 0 [slow; slower] (SCommand request_new) (at_start 0) (new Plain (V4 0) Mx)
  /\ total_waited [slow; slower] <= NO_PROGRESS_LIMIT + TRANSFER_LIMIT.
Proof.
  assert (sample_stalls 0 [slow; slower] (SCommand request_new) (at_start 0) (new Plain (V4 0) Mx)) as H.
  { apply (sample_stalls_wait 0 slow [slower] (SCommand request_new) (at_start 0) (new Plain (V4 0) Mx) (read_so_far "N") (at_start 0) (new Plain (V4 0) Mx));
      [by vm_compute|by vm_compute|reflexivity|reflexivity|].
    apply (sample_stalls_wait _ slower [] (read_so_far "N") (at_start 0) (new Plain (V4 0) Mx) (read_so_far "NO") (at_start 0) (new Plain (V4 0) Mx));
      [by vm_compute|by vm_compute|reflexivity|reflexivity|]. apply stalls_end. }
  split; [exact H|]. exact (stalling_ends _ _ _ _ _ _ _ _ _ _ _ _ H).
Defined.
