(* ===== verification/Relay.v ===== *)
(** * Trusted relays (crates\/uwumail-smtp\/src\/relay.rs)

    Networks whose servers are believed, and who really sent a message that such a server
    passed on: the first hop of its Received fields that is not believed. *)

From S2P Require Import Prelude Utf8 Network SmtpHeaders.

Module Relay.

Record IpNetwork := { address : IpAddr; prefix : Z }.

#[export] Instance IpNetwork_eq_dec : EqDecision IpNetwork.
Proof. solve_decision. Defined.

Inductive NetworkError := NotAnAddress (value : list byte) | InvalidPrefix (value : list byte).

(** [from_str] *)
Definition parse (value : list byte) : IpNetwork + NetworkError :=
  let value := trim value in
  let '(address, prefix) := match split_once "/"%byte value with Some (address, prefix) => (address, Some prefix) | None => (value, None) end in
  match parse_ip address with
  | None => inr (NotAnAddress value)
  | Some ip =>
      let address := to_canonical ip in
      let max := if is_ipv4 address then 32 else 128 in
      match match prefix with Some p => n ← parse_unsigned 255 p; if n <=? max then Some n else None | None => Some max end with
      | Some prefix => inl {| address := address; prefix := prefix |}
      | None => inr (InvalidPrefix value)
      end
  end.

Fixpoint parse_list (values : list (list byte)) : list IpNetwork + NetworkError :=
  match values with
  | [] => inl []
  | v :: values =>
      match parse v with
      | inl n => match parse_list values with inl ns => inl (n :: ns) | inr e => inr e end
      | inr e => inr e
      end
  end.

(** The bits a network fixes, of an address of [w] bits. *)
Definition network_mask (w prefix : Z) : Z := default 0 (checked_shl w (2 ^ w - 1) (w - prefix)).

Definition contains (n : IpNetwork) (ip : IpAddr) : bool :=
  match address n, to_canonical ip with
  | V4 net, V4 ip => Z.land net (network_mask 32 (prefix n)) =? Z.land ip (network_mask 32 (prefix n))
  | V6 net, V6 ip => Z.land net (network_mask 128 (prefix n)) =? Z.land ip (network_mask 128 (prefix n))
  | _, _ => false
  end.

(** ** Received *)

(** [str::find] *)
Fixpoint find_text (needle s : list byte) : option nat :=
  if starts_with needle s then Some O
  else match s with [] => None | _ :: s => S <$> find_text needle s end.

Definition bracket (b : byte) : bool := bool_decide (b = "["%byte \/ b = "]"%byte).

(** [trim_matches(['[', ']'])] *)
Fixpoint skip_brackets (s : list byte) : list byte := match s with b :: s' => if bracket b then skip_brackets s' else s | [] => [] end.
Definition trim_brackets (s : list byte) : list byte := rev (skip_brackets (rev (skip_brackets s))).

Definition without_prefix (literal : list byte) : list byte :=
  match strip_prefix (bs "IPv6:") literal with
  | Some l => l
  | None => default literal (strip_prefix (bs "ipv6:") literal)
  end.

Definition parse_received_from (value : list byte) : option (list byte * IpAddr) :=
  let lower := to_ascii_lowercase value in
  start ← find_text (bs "from ") lower;
  let from_start := (start + 5)%nat in
  let from_end := match find_text (bs " by ") (drop from_start lower) with Some i => (from_start + i)%nat | None => length value end in
  let from := slice value from_start from_end in
  word ← head (split_whitespace from);
  let helo := trim_brackets word in
  paren ← find_text (bs "(") from;
  let comment := drop paren from in
  open ← find_text (bs "[") comment;
  let inside := drop (S open) comment in
  close ← find_text (bs "]") inside;
  let literal := trim (take close inside) in
  ip ← parse_ip (without_prefix literal);
  Some (helo, to_canonical ip).

Fixpoint walk (trusted : list IpNetwork) (hops : list (list byte)) : option (IpAddr * list byte) :=
  match hops with
  | [] => None
  | hop :: hops =>
      match parse_received_from hop with
      | None => None
      | Some (helo, ip) => if existsb (fun n => contains n ip) trusted then walk trusted hops else Some (ip, helo)
      end
  end.

Definition original_client (raw : list byte) (trusted : list IpNetwork) : option (IpAddr * list byte) :=
  walk trusted (Headers.values raw (bs "Received")).

Definition network (s : string) : IpNetwork := match parse (bs s) with inl n => n | inr _ => {| address := V4 0; prefix := 99 |} end.

Example hops :
  let raw := bs "Received: from mx.relay.local (mx.relay.local [192.168.1.20])" ++ [x0d; x0a; x09] ++ bs "by mail.example.net (Postfix) with ESMTP" ++ [x0d; x0a]
             ++ bs "Received: from [203.0.113.7] (unknown [198.51.100.9]) by relay.local" ++ [x0d; x0a; x0d; x0a] in
  original_client raw [network "192.168.1.0/24"] = (ip ← parse_ip (bs "198.51.100.9"); Some (ip, bs "203.0.113.7"))
  /\ original_client raw [] = (ip ← parse_ip (bs "192.168.1.20"); Some (ip, bs "mx.relay.local"))
  /\ parse_received_from (bs "from [203.0.113.7] by relay.local") = None.
Proof. vm_compute. done. Qed.

(** ** What a relay wrote *)

Lemma starts_with_cons b n c s : starts_with (b :: n) (c :: s) = bool_decide (c = b) && starts_with n s.
Proof.
  unfold starts_with. cbn. destruct (decide (c = b)) as [->|Hne].
  - rewrite (bool_decide_true (b = b)) by done. cbn. apply bool_decide_ext. split; [by intros [= ->]|by intros ->].
  - by rewrite !bool_decide_false by congruence.
Qed.

(** What does not hold the first byte is skipped. *)
Lemma find_text_skip b n s r : b ∉ s -> find_text (b :: n) (s ++ r) = (fun i => (length s + i)%nat) <$> find_text (b :: n) r.
Proof.
  induction s as [|c s IH]; intros Hn; cbn [app].
  - cbn. by destruct (find_text (b :: n) r).
  - apply not_elem_of_cons in Hn as [Hc Hn]. cbn [find_text]. rewrite starts_with_cons, bool_decide_false by done. cbn [andb]. rewrite IH by done.
    by destruct (find_text (b :: n) r).
Qed.

Lemma find_text_here n s : find_text n (n ++ s) = Some 0%nat.
Proof.
  assert (starts_with n (n ++ s) = true) as H by (unfold starts_with; by rewrite take_app_length, bool_decide_true).
  destruct n, s; cbn [app find_text] in *; by rewrite ?H.
Qed.

Lemma find_byte b s r : b ∉ s -> find_text [b] (s ++ b :: r) = Some (length s).
Proof. intros H. rewrite find_text_skip by done. rewrite (find_text_here [b] r : find_text [b] (b :: r) = Some 0%nat). cbn. by rewrite Nat.add_0_r. Qed.

Lemma head_split_whitespace w r : w <> [] -> Forall (fun b => graphic b = true) w -> Forall (fun b => is_ascii b = true) r ->
  head (split_whitespace (w ++ " "%byte :: r)) = Some w.
Proof.
  intros Hne Hw Hr. assert (Forall (fun b => is_ascii b = true) w) as Ha by (eapply Forall_impl; [exact Hw|]; intros b Hb; by apply graphic_char in Hb as [? _]).
  assert (split_whitespace (w ++ " "%byte :: r) = List.filter (fun w => negb (bool_decide (w = []))) (map utf8 (split_at is_whitespace ((bz <$> w) ++ bz " "%byte :: (bz <$> r))))) as ->.
  { unfold split_whitespace, split_chars. rewrite chars_ascii by (apply Forall_app; split; [done|by constructor]). by rewrite fmap_app, fmap_cons. }
  assert (forall cs, split_at is_whitespace ((bz <$> w) ++ bz " "%byte :: cs) = (bz <$> w) :: split_at is_whitespace cs) as ->.
  { intros cs. clear -Hw. induction Hw as [|b w Hb Hw IH]; [done|]. rewrite fmap_cons. cbn [app split_at]. apply graphic_char in Hb as [_ ->]. by rewrite IH. }
  cbn [map]. rewrite utf8_ascii by done. cbn [List.filter]. rewrite bool_decide_false by done. done.
Qed.

(** A hop as a relay writes it: [from HELO (HOST \[ADDRESS\]) by ...] *)
Record Hop := { greeted : list byte; host : list byte; literal : list byte; more : list byte }.

Definition hop_text (h : Hop) : list byte :=
  bs "from " ++ greeted h ++ bs " (" ++ host h ++ bs " [" ++ literal h ++ bs "]) by " ++ more h.

Definition visible (unwanted : list byte) (s : list byte) : Prop := Forall (fun b => graphic b = true /\ b ∉ unwanted) s.

(** Only the sender of the hop chooses the greeting: any visible text without a bracket that
    opens a comment. *)
Record hop_ok (h : Hop) : Prop := {
  hop_greeted : greeted h <> [] /\ visible (bs "(") (greeted h);
  hop_host : visible (bs "[") (host h);
  hop_literal : visible (bs "]") (literal h) }.

Lemma visible_graphic u s : visible u s -> Forall (fun b => graphic b = true) s.
Proof. intros H. eapply Forall_impl; [exact H|]. by intros b [? _]. Qed.

Lemma visible_without u s b : visible u s -> b ∈ u \/ graphic b = false -> b ∉ s.
Proof. intros H Hb Hin. apply (proj1 (Forall_forall _ _) H) in Hin as [Hg Hn]. destruct Hb as [?|Hb]; [done|congruence]. Qed.

Lemma lower_visible u s : visible u s -> " "%byte ∉ to_ascii_lowercase s.
Proof.
  intros H (b & Hb & Hin)%list_elem_of_fmap. apply (proj1 (Forall_forall _ _) H) in Hin as [Hg _]. revert Hg Hb. by_bytes b.
Qed.

(** Up to [by], everything is the relay's own. *)
Definition told (h : Hop) : list byte := greeted h ++ bs " (" ++ host h ++ bs " [" ++ literal h ++ bs "])".

Lemma by_after_told h : hop_ok h -> find_text (bs " by ") (to_ascii_lowercase (told h ++ bs " by " ++ more h)) = Some (length (told h)).
Proof.
  intros [[_ Hg] Hh Hl]. apply lower_visible in Hg, Hh, Hl. unfold told. rewrite <- !app_assoc, !lower_app.
  assert (forall s, length (to_ascii_lowercase s) = length s) as Hlen by (intros s; apply length_map).
  assert (forall b r, b <> "b"%byte -> find_text (bs " by ") (" "%byte :: b :: r) = (fun i => S i) <$> find_text (bs " by ") (b :: r)) as Hstep.
  { intros b r Hb. cbn [find_text]. change (bs " by ") with (" "%byte :: "b"%byte :: bs "y "). by rewrite !starts_with_cons, (bool_decide_false (b = "b"%byte)). }
  change (bs " by ") with (" "%byte :: bs "by "). rewrite find_text_skip by done. change (" "%byte :: bs "by ") with (bs " by ").
  change (to_ascii_lowercase (bs " (") ++ ?r) with (" "%byte :: "("%byte :: r). rewrite Hstep by done.
  change (to_ascii_lowercase (bs " [") ++ ?r) with (bs " [" ++ r).
  rewrite (app_comm_cons _ _ "("%byte). change (bs " by ") with (" "%byte :: bs "by "). rewrite find_text_skip by (apply not_elem_of_cons; by split).
  change (" "%byte :: bs "by ") with (bs " by "). change (bs " [" ++ ?r) with (" "%byte :: "["%byte :: r). rewrite Hstep by done.
  change (to_ascii_lowercase (bs "])")) with (bs "])"). rewrite (app_comm_cons _ _ "["%byte), (app_assoc _ (bs "])")).
  change (bs " by ") with (" "%byte :: bs "by "). rewrite find_text_skip.
  - change (to_ascii_lowercase (" "%byte :: bs "by ") ++ ?r) with ((" "%byte :: bs "by ") ++ r). rewrite find_text_here. cbn. repeat (rewrite ?length_app; cbn). rewrite !Hlen. f_equal. lia.
  - rewrite not_elem_of_app, not_elem_of_cons. split_and!; [done|done|]. apply not_elem_of_cons. split; [done|]. apply not_elem_of_cons. split; [done|apply not_elem_of_nil].
Qed.

Lemma not_before_blank b s : b ∉ s -> b <> " "%byte -> b ∉ s ++ bs " ".
Proof. intros Hs Hb. apply not_elem_of_app. split; [done|]. by intros ?%list_elem_of_singleton. Qed.

(** What is read off a hop: the address the relay wrote, whatever the greeting. *)
Lemma parse_hop h : hop_ok h ->
  parse_received_from (hop_text h) = ip ← parse_ip (without_prefix (literal h)); Some (trim_brackets (greeted h), to_canonical ip).
Proof.
  intros Hok. pose proof (by_after_told h Hok) as Hby. destruct Hok as [[Hne Hg] Hh Hl].
  assert (hop_text h = bs "from " ++ told h ++ bs " by " ++ more h) as Htext by (unfold hop_text, told; rewrite <- !app_assoc; done).
  unfold parse_received_from. rewrite Htext, lower_app. change (to_ascii_lowercase (bs "from ")) with (bs "from ").
  rewrite find_text_here. cbn [mbind option_bind Nat.add]. change (drop 5 (bs "from " ++ ?s)) with s. rewrite Hby. cbn [Nat.add].
  assert (slice (bs "from " ++ told h ++ bs " by " ++ more h) 5 (5 + length (told h)) = told h) as Hslice.
  { unfold slice. change (drop 5 (bs "from " ++ ?s)) with s. rewrite Nat.add_sub_swap, Nat.sub_diag by lia. cbn [Nat.add]. apply take_app_length. }
  cbn [Nat.add] in Hslice. rewrite Hslice.
  assert (head (split_whitespace (told h)) = Some (greeted h)) as ->.
  { unfold told. apply head_split_whitespace; [done|by eapply visible_graphic|].
    assert (forall u s, visible u s -> Forall (fun b => is_ascii b = true) s) as Hasc by (intros u s Hs; eapply Forall_impl; [exact Hs|]; intros b [Hb _]; by apply graphic_char in Hb as [? _]).
    apply Forall_cons. split; [done|]. apply Forall_app. split; [by eapply Hasc|]. repeat (apply Forall_cons; split; [done|]). apply Forall_app. split; [by eapply Hasc|by repeat constructor]. }
  cbn [mbind option_bind]. set (inside := host h ++ bs " [" ++ literal h ++ bs "])").
  assert (told h = (greeted h ++ bs " ") ++ "("%byte :: inside) as Htold by (unfold told, inside; by rewrite <- app_assoc).
  assert (find_text (bs "(") (told h) = Some (length (greeted h ++ bs " "))) as ->.
  { rewrite Htold. apply find_byte, not_before_blank; [|done]. eapply visible_without; [exact Hg|]. left. by left. }
  cbn [mbind option_bind]. rewrite Htold, drop_app_length.
  assert ("("%byte :: inside = ("("%byte :: host h ++ bs " ") ++ "["%byte :: literal h ++ bs "])") as Hinside by (unfold inside; cbn; by rewrite <- app_assoc).
  rewrite Hinside. change (bs "[") with ["["%byte]. rewrite find_byte.
  2: { apply not_elem_of_cons. split; [done|]. apply not_before_blank; [|done]. eapply visible_without; [exact Hh|]. left. by left. }
  cbn [mbind option_bind]. set (front := "("%byte :: host h ++ bs " ").
  assert (drop (S (length front)) (front ++ "["%byte :: literal h ++ bs "])") = literal h ++ bs "])") as ->.
  { rewrite cons_middle, app_assoc. apply drop_app_length'. rewrite length_app. cbn. lia. }
  change (bs "])") with ("]"%byte :: bs ")"). change (bs "]") with ["]"%byte]. rewrite find_byte.
  2: { eapply visible_without; [exact Hl|]. left. by left. }
  cbn [mbind option_bind]. rewrite take_app_length, trim_graphic by (by eapply visible_graphic). done.
Qed.

(** Who sent a message cannot be forged behind a trusted relay. When the topmost
    Received fields were written by trusted relays and the next by another client's
    connection to the last of them, then the sender's address is the one that relay saw and
    wrote down: whatever the client greeted with (an address in brackets, too), and
    whatever the message itself claims in fields further down. *)
Theorem original_client_exact raw trusted above h below ips ip : Headers.values raw (bs "Received") = map hop_text (above ++ [h]) ++ below ->
  Forall hop_ok (above ++ [h]) ->
  Forall2 (fun a i => parse_ip (without_prefix (literal a)) = Some i /\ existsb (fun n => contains n (to_canonical i)) trusted = true) above ips ->
  parse_ip (without_prefix (literal h)) = Some ip -> existsb (fun n => contains n (to_canonical ip)) trusted = false ->
  original_client raw trusted = Some (to_canonical ip, trim_brackets (greeted h)).
Proof.
  intros Hvalues Hok Habove Hip Hno. unfold original_client. rewrite Hvalues, map_app, <- app_assoc. cbn [map app].
  apply Forall_app in Hok as [Hok [Hh _]%Forall_cons]. clear Hvalues. induction Habove as [|a i above ips [Hi Hyes] Habove IH]; cbn [map app walk].
  - rewrite parse_hop, Hip by done. cbn [mbind option_bind]. by rewrite Hno.
  - apply Forall_cons in Hok as [Ha Hok]. rewrite parse_hop, Hi by done. cbn [mbind option_bind]. rewrite Hyes. by apply IH.
Qed.

(** A client that greets with the address of someone else, and forges a hop of its own. *)
Lemma original_client_exact_witness :
  let relay := {| greeted := bs "mx.relay.local"; host := bs "mx.relay.local"; literal := bs "192.168.1.20"; more := bs "mail.example.net (Postfix)" |} in
  let client := {| greeted := bs "[203.0.113.7]"; host := bs "unknown"; literal := bs "IPv6:2001:db8::9"; more := bs "relay.local" |} in
  let line h := bs "Received: " ++ hop_text h ++ [x0d; x0a] in
  let raw := line relay ++ line client ++ bs "Received: from bank.example (bank.example [198.51.100.1]) by x" ++ [x0d; x0a; x0d; x0a] ++ bs "Hi" in
  original_client raw [network "192.168.1.0/24"] = Some (V6 0x20010db8000000000000000000000009, bs "203.0.113.7").
Proof.
  cbv zeta. set (relay := Build_Hop _ _ _ _). set (client := Build_Hop (bs "[203.0.113.7]") _ _ _).
  apply (original_client_exact _ _ [relay] client [bs "from bank.example (bank.example [198.51.100.1]) by x"] [V4 0xc0a80114] (V6 0x20010db8000000000000000000000009)).
  - vm_compute. reflexivity.
  - repeat (apply Forall_cons; split); [..|by apply Forall_nil]; (split; [split; [done|]| |]); apply (bool_decide_unpack (Forall _ _)); vm_compute; exact I.
  - repeat constructor; vm_compute; reflexivity.
  - vm_compute. reflexivity.
  - vm_compute. reflexivity.
Defined.
End Relay.
