(* ===== verification/SmtpClient.v ===== *)
(** * Speaking SMTP to other servers (crates\/uwumail-smtp\/src\/client.rs)

    Reading replies off a stream that comes in pieces, what a server says it can do, and
    [dot_stuff], which makes of a message what is sent after DATA. The stream is a list of
    reads; connecting, TLS and base64 are left to arguments. *)

From S2P Require Import Prelude Utf8 SmtpHeaders.

Module Client.

Record Reply := { code : Z; text : list byte }.

Definition is_positive (r : Reply) : bool := (200 <=? code r) && (code r <? 400).
Definition is_permanent (r : Reply) : bool := 500 <=? code r.

(** [Display] *)
Definition to_string (r : Reply) : list byte := dec (code r) ++ bs " " ++ text r.

(** ** Replies *)

Inductive IoError := InvalidData (why : list byte) | TimedOut (why : list byte) | UnexpectedEof (why : list byte) | ReadFailed.

(** What comes of a wait for bytes, which has a limit; [Got []] is the end of the stream. *)
Inductive Arrival := Got (bytes : list byte) | TooLate | Broken.

(** [get(4..)] of a line, which is cut between characters only. *)
Definition after_code (line : list byte) : list byte :=
  match line !! 4%nat with
  | Some b => if continuation b then [] else drop 4 line
  | None => []
  end.

Inductive Line := Last | More | Bad.

Definition line_kind (line : list byte) : Line :=
  if (length line <? 3)%nat || negb (forallb is_ascii_digit (take 3 line)) then Bad
  else if bool_decide (line !! 3%nat = Some "-"%byte) then More else Last.

Definition reply_of (lines : list (list byte)) : Reply :=
  {| code := match lines with l :: _ => default 0 (parse_unsigned 65535 (take 3 l)) | [] => 0 end;
     text := join [x0a] (map after_code lines) |}.

Definition MAX_LINES : nat := 100.
Definition MAX_PENDING : nat := 64 * 1024.

(** What the lines that are there come to: a reply or an error, with what is left of the
    stream, or nothing yet. *)
Inductive Drained := Answer (r : Reply + IoError) (pending : list byte) | Waits (pending : list byte) (lines : list (list byte)).

Fixpoint drain (fuel : nat) (pending : list byte) (lines : list (list byte)) : Drained :=
  match fuel with
  | O => Waits pending lines
  | S fuel =>
      match position (fun b => bool_decide (b = x0a)) pending with
      | None => Waits pending lines
      | Some pos =>
          let line := trim_end (from_utf8_lossy (take (S pos) pending)) in
          let pending := drop (S pos) pending in
          match line_kind line with
          | Bad => Answer (inr (InvalidData (bs "bad SMTP reply: " ++ line))) pending
          | Last => Answer (inl (reply_of (lines ++ [line]))) pending
          | More =>
              if (MAX_LINES <? length (lines ++ [line]))%nat then Answer (inr (InvalidData (bs "SMTP reply too long"))) pending
              else drain fuel pending (lines ++ [line])
          end
      end
  end.

(** [read_reply_with]; none when the reads are used up and it would wait for more. *)
Fixpoint read_reply (reads : list Arrival) (pending : list byte) (lines : list (list byte)) : option ((Reply + IoError) * list byte * list Arrival) :=
  match drain (S (length pending)) pending lines with
  | Answer r pending => Some (r, pending, reads)
  | Waits pending lines =>
      if (MAX_PENDING <? length pending)%nat then Some (inr (InvalidData (bs "SMTP reply line too long")), pending, reads)
      else
        match reads with
        | [] => None
        | TooLate :: reads => Some (inr (TimedOut (bs "the server did not answer in time")), pending, reads)
        | Broken :: reads => Some (inr ReadFailed, pending, reads)
        | Got [] :: reads => Some (inr (UnexpectedEof (bs "the server closed the connection")), pending, reads)
        | Got bytes :: reads => read_reply reads (pending ++ bytes) lines
        end
  end.

(** ** What a server can do *)

Record Capabilities := { starttls : bool; size : option Z; smtputf8 : bool; eight_bit_mime : bool; auth_plain : bool; auth_login : bool }.

Definition no_capabilities : Capabilities :=
  {| starttls := false; size := None; smtputf8 := false; eight_bit_mime := false; auth_plain := false; auth_login := false |}.

Definition is_word (w : option (list byte)) (s : string) : bool := bool_decide (w = Some (bs s)).

Definition capability (caps : Capabilities) (line : list byte) : Capabilities :=
  let words := split_whitespace (to_ascii_uppercase line) in
  let first := head words in
  let offers m := existsb (fun w => bool_decide (w = bs m)) (tail words) in
  {| starttls := starttls caps || is_word first "STARTTLS";
     smtputf8 := smtputf8 caps || is_word first "SMTPUTF8";
     eight_bit_mime := eight_bit_mime caps || is_word first "8BITMIME";
     size := if is_word first "SIZE" then s ← (w ← words !! 1%nat; parse_unsigned u64_max w); if 0 <? s then Some s else None else size caps;
     auth_plain := auth_plain caps || (is_word first "AUTH" && offers "PLAIN");
     auth_login := auth_login caps || (is_word first "AUTH" && offers "LOGIN") |}.

Definition ehlo_capabilities (r : Reply) : Capabilities :=
  if is_positive r then foldl capability no_capabilities (tail (str_lines (text r))) else no_capabilities.

Definition ehlo_command (hostname : list byte) : list byte := bs "EHLO " ++ hostname ++ [x0d; x0a].

(** ** Logins *)

Section logins.
Context (base64_encode : list byte -> list byte).

Definition auth_plain_command (username password : list byte) : list byte :=
  bs "AUTH PLAIN " ++ base64_encode ([x00] ++ username ++ [x00] ++ password) ++ [x0d; x0a].

(** [auth_xoauth2]: what is sent next, if anything, once the first command is answered. *)
Definition after_xoauth2 (r : Reply) : option (list byte) := if code r =? 334 then Some [x0d; x0a] else None.
End logins.

(** ** Messages *)

Fixpoint stuff (line_start : bool) (raw : list byte) : list byte :=
  match raw with
  | [] => []
  | b :: raw' =>
      if decide (b = x0d) then
        [x0d; x0a] ++ match raw' with c :: raw'' => if decide (c = x0a) then stuff true raw'' else stuff true raw' | [] => [] end
      else if decide (b = x0a) then [x0d; x0a] ++ stuff true raw'
      else (if line_start && bool_decide (b = "."%byte) then bs "." else []) ++ b :: stuff false raw'
  end.

Definition dot_stuff (raw : list byte) : list byte :=
  let out := stuff true raw in
  (if Headers.ends_with [x0d; x0a] out then out else out ++ [x0d; x0a]) ++ bs "." ++ [x0d; x0a].

Example stuffs :
  dot_stuff (bs "a" ++ [x0d; x0a] ++ bs ".b" ++ [x0d; x0a] ++ bs "..c") = bs "a" ++ [x0d; x0a] ++ bs "..b" ++ [x0d; x0a] ++ bs "...c" ++ [x0d; x0a] ++ bs "." ++ [x0d; x0a]
  /\ dot_stuff (bs "a" ++ [x0d] ++ bs "." ++ [x0d] ++ bs "b") = bs "a" ++ [x0d; x0a] ++ bs ".." ++ [x0d; x0a] ++ bs "b" ++ [x0d; x0a] ++ bs "." ++ [x0d; x0a].
Proof. vm_compute. done. Qed.

(** ** The other side *)

(** A server that reads the message line by line: [ends] says how many bytes the end of a
    line has, where there is one. *)
Fixpoint read_line (ends : list byte -> option nat) (s : list byte) : option (list byte * list byte) :=
  match ends s with
  | Some n => Some ([], drop n s)
  | None => match s with [] => None | b :: s => '(line, rest) ← read_line ends s; Some (b :: line, rest) end
  end.

Definition unstuffed (line : list byte) : list byte := match line with b :: line' => if decide (b = "."%byte) then line' else line | [] => [] end.

(** Up to the line with a dot alone: the message, and what follows it. *)
Fixpoint receive (ends : list byte -> option nat) (fuel : nat) (s : list byte) : option (list byte * list byte) :=
  match fuel with
  | O => None
  | S fuel =>
      '(line, rest) ← read_line ends s;
      if bool_decide (line = bs ".") then Some ([], rest)
      else '(message, rest) ← receive ends fuel rest; Some (unstuffed line ++ [x0d; x0a] ++ message, rest)
  end.

(** CR LF ends a line, and nothing does that has neither; what a server makes of a CR or an
    LF alone is its own affair. *)
Record line_ends (ends : list byte -> option nat) : Prop := {
  ends_crlf : forall s, ends (x0d :: x0a :: s) = Some 2%nat;
  ends_only : forall b s, b <> x0d -> b <> x0a -> ends (b :: s) = None }.

(** What is sent: the message with whole line ends, the last one among them. *)
Definition meant (raw : list byte) : list byte :=
  let out := Headers.crlf_only raw in if Headers.ends_with [x0d; x0a] out then out else out ++ [x0d; x0a].

(** ** Lines *)

Definition free (line : list byte) : Prop := Forall (fun b => b <> x0d /\ b <> x0a) line.

Definition stuffed_line (line : list byte) : list byte := match line with b :: _ => if decide (b = "."%byte) then "."%byte :: line else line | [] => [] end.

Definition whole (f : list byte -> list byte) (ls : list (list byte)) : list byte := concat (map (fun l => f l ++ [x0d; x0a]) ls).

Lemma stuff_free line s start : free line -> s = [] \/ (exists b s', s = b :: s' /\ (b = x0d \/ b = x0a)) ->
  stuff start (line ++ s) = (if start then stuffed_line line else line) ++ stuff (start && bool_decide (line = [])) s.
Proof.
  intros Hl. revert start. induction Hl as [|b line [Hr Hn] Hl IH]; intros start Hs; [by destruct start|].
  cbn [app stuff]. rewrite !decide_False by done. rewrite IH by done. cbn [andb]. unfold stuffed_line.
  destruct start; cbn [andb]; [case_decide as Hd; [subst; done|rewrite bool_decide_eq_false_2 by done]|]; done.
Qed.

Lemma ends_with_iff suffix s : Headers.ends_with suffix s = true <-> exists t, s = t ++ suffix.
Proof.
  unfold Headers.ends_with. rewrite bool_decide_eq_true. split.
  - intros (t & Ht). exists t. by apply strip_suffix_Some.
  - intros (t & ->). exists t. unfold strip_suffix. rewrite length_app, Nat.add_sub, drop_app_length, take_app_length.
    repeat case_decide; done || lia.
Qed.

Lemma split_free raw : exists line s, raw = line ++ s /\ free line /\ (s = [] \/ exists b s', s = b :: s' /\ (b = x0d \/ b = x0a)).
Proof.
  induction raw as [|b raw (line & s & -> & Hl & Hs)].
  - exists [], []. split; [done|]. split; [constructor|]. by left.
  - destruct (decide (b = x0d \/ b = x0a)) as [Hb|Hb].
    + exists [], (b :: line ++ s). split; [done|]. split; [constructor|]. right. by exists b, (line ++ s).
    + exists (b :: line), s. split; [done|]. split; [|done]. constructor; [tauto|done].
Qed.

(** A message is lines and what follows the last line end. *)
Lemma raw_lines raw : exists ls l, Forall free ls /\ free l /\
  stuff true raw = whole stuffed_line ls ++ stuffed_line l /\ Headers.crlf_only raw = whole id ls ++ l.
Proof.
  induction raw as [raw IH] using (induction_ltof1 _ length). unfold ltof in IH.
  assert (exists line s, raw = line ++ s /\ free line /\ (s = [] \/ exists b s', s = b :: s' /\ (b = x0d \/ b = x0a))) as (line & s & -> & Hl & Hs).
  { apply split_free. }
  assert (forall rest, Headers.crlf_only (line ++ rest) = line ++ Headers.crlf_only rest) as Hcrlf.
  { intros rest. clear -Hl. induction Hl as [|b line [Hr Hn] Hl IH]; [done|]. cbn. rewrite !decide_False by done. by rewrite IH. }
  assert (forall s, stuff (true && bool_decide (line = [])) (x0d :: s) = stuff true (x0d :: s)) as Hr by done.
  assert (forall s, stuff (true && bool_decide (line = [])) (x0a :: s) = stuff true (x0a :: s)) as Hn by done.
  rewrite stuff_free, Hcrlf by done. destruct Hs as [->|(b & s' & -> & Hb)].
  { exists [], line. cbn. rewrite !app_nil_r. done. }
  assert (exists rest, (length rest < length (line ++ b :: s'))%nat /\ stuff true (b :: s') = [x0d; x0a] ++ stuff true rest /\ Headers.crlf_only (b :: s') = [x0d; x0a] ++ Headers.crlf_only rest) as (rest & Hlen & Hst & Hco).
  { rewrite length_app. destruct Hb as [->| ->]; [|exists s'; cbn; split; [lia|done]].
    destruct s' as [|c s'']; [by exists []; cbn; split; [lia|]|]. destruct (decide (c = x0a)) as [->|Hc].
    - exists s''. cbn. split; [lia|done].
    - exists (c :: s''). split; [cbn; lia|]. simpl. by rewrite !(decide_False (P := c = x0a)). }
  destruct (IH rest Hlen) as (ls & l & Hls & Hl' & Hstuff & Honly). exists (line :: ls), l.
  split; [by constructor|]. split; [done|]. destruct Hb as [->| ->].
  - rewrite Hr, Hst, Hco, Hstuff, Honly. unfold whole. cbn. by rewrite <- !app_assoc.
  - rewrite Hn, Hst, Hco, Hstuff, Honly. unfold whole. cbn. by rewrite <- !app_assoc.
Qed.

Lemma free_stuffed l : free l -> free (stuffed_line l).
Proof. intros Hl. destruct Hl as [|b l Hb Hl]; [constructor|]. cbn. case_decide; repeat constructor; try done; by destruct Hb. Qed.

Lemma ends_whole f ls x : free x -> Headers.ends_with [x0d; x0a] (whole f ls ++ x) = bool_decide (x = [] /\ ls <> []).
Proof.
  intros Hx. destruct (bool_decide _) eqn:E.
  - apply bool_decide_eq_true in E as [-> Hls]. destruct (exists_last Hls) as (ls' & l & ->). rewrite app_nil_r. apply ends_with_iff.
    exists (whole f ls' ++ f l). unfold whole. rewrite map_app, concat_app. cbn. by rewrite app_nil_r, <- app_assoc.
  - apply bool_decide_eq_false in E. apply not_true_is_false. intros (t & Ht)%ends_with_iff. apply E.
    destruct x as [|b x' _] using rev_ind.
    + split; [done|]. intros ->. rewrite app_nil_r in Ht. by destruct t.
    + exfalso. rewrite app_assoc in Ht. change [x0d; x0a] with ([x0d] ++ [x0a]) in Ht. rewrite app_assoc in Ht.
      apply app_inj_tail in Ht as [_ ->]. apply Forall_app in Hx as [_ Hx]. by apply Forall_cons in Hx as [[_ ?] _].
Qed.

(** What is sent and what is meant are the same lines. *)
Lemma sent_lines raw : exists ls, Forall free ls /\ dot_stuff raw = whole stuffed_line ls ++ bs "." ++ [x0d; x0a] /\ meant raw = whole id ls.
Proof.
  destruct (raw_lines raw) as (ls & l & Hls & Hl & Hstuff & Honly). unfold dot_stuff, meant. cbv zeta. rewrite Hstuff, Honly.
  rewrite !ends_whole by (try apply free_stuffed; done).
  rewrite (bool_decide_ext (stuffed_line l = [] /\ ls <> []) (l = [] /\ ls <> [])) by (destruct l; cbn; [done|case_decide; naive_solver]).
  case_bool_decide as H; [destruct H as [-> _]; exists ls; cbn; by rewrite !app_nil_r|].
  exists (ls ++ [l]). split; [by apply Forall_app; split; [|constructor]|]. unfold whole. rewrite !map_app, !concat_app. cbn. rewrite !app_nil_r, <- !app_assoc. done.
Qed.

(** ** Reading it *)

Section server.
Context (ends : list byte -> option nat) (Hends : line_ends ends).

Lemma read_line_free line rest : free line -> read_line ends (line ++ x0d :: x0a :: rest) = Some (line, rest).
Proof.
  induction 1 as [|b line [Hr Hn] Hl IH]; cbn.
  - by rewrite (ends_crlf _ Hends).
  - by rewrite (ends_only _ Hends), IH.
Qed.

Lemma unstuffed_line l : unstuffed (stuffed_line l) = l /\ stuffed_line l <> bs ".".
Proof.
  destruct l as [|b l]; [done|]. cbn. case_decide as H; cbn.
  - by subst.
  - rewrite decide_False by done. split; [done|]. intros [= -> _]. done.
Qed.

Lemma receive_lines ls rest : forall fuel, (length ls < fuel)%nat -> Forall free ls ->
  receive ends fuel (whole stuffed_line ls ++ bs "." ++ [x0d; x0a] ++ rest) = Some (whole id ls, rest).
Proof.
  induction ls as [|l ls IH]; intros [|fuel] Hf Hls; cbn in Hf; try lia.
  - cbn [receive]. change (read_line ends _) with (read_line ends (bs "." ++ x0d :: x0a :: rest)). rewrite read_line_free by (repeat constructor; done). done.
  - apply Forall_cons in Hls as [Hl Hls]. cbn [receive]. unfold whole. cbn [map concat]. rewrite <- !app_assoc. cbn [app].
    rewrite read_line_free by by apply free_stuffed. cbn [mbind option_bind]. destruct (unstuffed_line l) as [Hun Hne].
    rewrite bool_decide_false by done. pose proof (IH fuel ltac:(lia) Hls) as E. unfold whole in E. cbn [app] in E. by rewrite E, Hun.
Qed.

(** C14: A message arrives as it was meant and ends where it was meant to, at any server.
    Whatever the message holds (dots at the start of lines, CR and LF alone, a dot alone
    between them) and whatever is sent after it: a server that takes CR LF for the end of a
    line gets the message with whole line ends, and everything after it, whatever else it
    takes for an end of a line; so no server can be led to see the end of the message, and a
    command behind it, where this server saw none. A message whose lines are whole arrives
    byte for byte. *)
Theorem dot_stuff_received raw rest :
  receive ends (length (dot_stuff raw)) (dot_stuff raw ++ rest) = Some (meant raw, rest) /\
  Headers.only_crlf (dot_stuff raw) = true /\
  (Headers.only_crlf raw = true -> Headers.ends_with [x0d; x0a] raw = true -> meant raw = raw).
Proof.
  destruct (sent_lines raw) as (ls & Hls & Hsent & Hmeant). split; [|split].
  - rewrite Hmeant, Hsent. rewrite <- !app_assoc. apply receive_lines; [|done]. rewrite !length_app. unfold whole. clear.
    assert (length ls <= length (concat (map (fun l => stuffed_line l ++ [x0d; x0a]) ls)))%nat by (induction ls as [|l ls IH]; cbn; [lia|rewrite !length_app; cbn; lia]).
    cbn. lia.
  - rewrite Hsent. clear -Hls. unfold whole. induction Hls as [|l ls Hl Hls IH]; [done|]. cbn [map concat]. rewrite <- !app_assoc.
    apply free_stuffed in Hl. induction Hl as [|b x [Hr Hn] Hx IHx]; [exact IH|]. cbn. by rewrite decide_False, bool_decide_eq_false_2.
  - intros Honly Hcr. unfold meant. destruct (Headers.crlf_only_exact raw) as [_ ->]; [|done]. by rewrite Hcr.
Qed.
End server.

(** A server that takes a CR or an LF alone for the end of a line too. *)
Definition lax (s : list byte) : option nat :=
  match s with
  | b :: s' =>
      if decide (b = x0d) then match s' with c :: _ => if decide (c = x0a) then Some 2%nat else Some 1%nat | [] => Some 1%nat end
      else if decide (b = x0a) then Some 1%nat else None
  | [] => None
  end.

Lemma lax_ends : line_ends lax.
Proof. split; [done|]. intros b s Hr Hn. cbn. by rewrite !decide_False. Qed.

(** A message that hides a second one behind a dot between lone carriage returns. *)
Lemma dot_stuff_received_witness :
  let raw := bs "x" ++ [x0d] ++ bs "." ++ [x0d; x0a] ++ bs "MAIL FROM:<a@example.com>" ++ [x0a; x0d] in
  receive lax 100 (raw ++ [x0d; x0a]) = Some (bs "x" ++ [x0d; x0a], bs "MAIL FROM:<a@example.com>" ++ [x0a; x0d; x0d; x0a])
  /\ receive lax (length (dot_stuff raw)) (dot_stuff raw ++ bs "QUIT") = Some (meant raw, bs "QUIT")
  /\ meant raw = bs "x" ++ [x0d; x0a] ++ bs "." ++ [x0d; x0a] ++ bs "MAIL FROM:<a@example.com>" ++ [x0d; x0a; x0d; x0a].
Proof.
  cbv zeta. split; [vm_compute; reflexivity|]. split; [|vm_compute; reflexivity]. apply (dot_stuff_received lax lax_ends).
Defined.

(** ** Replies off a stream *)

(** The most that waits to be read: what may be there before a read, and a read. *)
Definition READ : nat := 4096.
Definition BUFFER : nat := MAX_PENDING + READ.
#[local] Opaque MAX_PENDING READ MAX_LINES.

Definition some_bytes (a : Arrival) : Prop := match a with Got bytes => (length bytes <= READ)%nat | _ => True end.

Lemma drain_bounded fuel : forall pending lines r, drain fuel pending lines = r ->
  match r with
  | Answer _ p => (length p <= length pending)%nat
  | Waits p ls => (length p <= length pending)%nat /\ (length lines <= length ls)%nat /\ ((length lines <= MAX_LINES)%nat -> (length ls <= MAX_LINES)%nat) /\
      (length ls = length lines -> p = pending)
  end.
Proof.
  induction fuel as [|fuel IH]; intros pending ls r <-; cbn [drain]; [done|].
  destruct (position _ pending) as [pos|] eqn:Hpos; [|done]. cbv zeta. apply position_lt in Hpos.
  set (rest := drop (S pos) pending). assert (length rest < length pending)%nat as Hrest by (subst rest; rewrite length_drop; lia).
  destruct (line_kind _); [lia| |lia]. destruct (MAX_LINES <? _)%nat eqn:Hmany; [lia|]. apply Nat.ltb_ge in Hmany. rewrite length_app in Hmany. cbn in Hmany.
  specialize (IH rest (ls ++ [trim_end (from_utf8_lossy (take (S pos) pending))]) _ eq_refl). destruct (drain _ _ _) as [q p|p ls'].
  - lia.
  - destruct IH as (H1 & H2 & H3 & H4). rewrite length_app in *. cbn in *. split; [lia|]. split; [lia|]. split; [intros _; apply H3; lia|lia].
Qed.

Lemma read_reply_progress reads : forall pending ls, Forall some_bytes reads -> (length pending <= BUFFER)%nat -> (length ls <= MAX_LINES)%nat ->
  (S MAX_LINES * S BUFFER <= length reads + length ls * S BUFFER + length pending)%nat ->
  exists r p rest, read_reply reads pending ls = Some (r, p, rest) /\ (length p <= BUFFER)%nat /\ rest `suffix_of` reads.
Proof.
  induction reads as [|a reads IH]; intros pending ls Hreads Hp Hls Hmany; cbn [read_reply];
    destruct (drain (S (length pending)) pending ls) as [r p|p ls'] eqn:E; apply drain_bounded in E.
  1,3: eexists _, _, _; split; [done|]; split; [lia|done].
  all: destruct E as (Hp' & Hmono & Hmax & Hsame); destruct (MAX_PENDING <? length p)%nat eqn:Hlong;
    [eexists _, _, _; split; [done|]; split; [lia|done]|apply Nat.ltb_ge in Hlong].
  all: assert (length ls * S BUFFER + length pending <= length ls' * S BUFFER + length p)%nat as Hmore
    by (destruct (decide (length ls' = length ls)) as [Heq|Hne]; [rewrite Heq, (Hsame Heq); lia|
        pose proof (Nat.mul_le_mono_r (S (length ls)) (length ls') (S BUFFER) ltac:(lia)); lia]).
  all: pose proof (Nat.mul_le_mono_r (length ls') MAX_LINES (S BUFFER) ltac:(auto)) as Hfull.
  - exfalso. unfold BUFFER in *. cbn [length] in Hmany. lia.
  - apply Forall_cons in Hreads as [Ha Hreads]. destruct a as [bytes| |]; [|eexists _, _, _; split; [done|]; split; [lia|by eexists [_]]..].
    destruct bytes as [|b bytes]; [eexists _, _, _; split; [done|]; split; [lia|by eexists [_]]|]. cbn in Ha.
    destruct (IH (p ++ b :: bytes) ls') as (r & q & rest & -> & Hq & Hrest); [done| |by apply Hmax| |].
    + rewrite length_app. cbn [length]. unfold BUFFER. lia.
    + rewrite length_app. cbn [length] in *. lia.
    + eexists _, _, _. split; [done|]. split; [done|]. by apply suffix_cons_r.
Qed.

(** Reading a reply comes to an end and holds little. Whatever a server sends, and in
    whatever pieces: after at most 101 times 68 KiB reads there is a reply or an error, and
    what is left over for the next reply is at most 68 KiB. *)
Theorem read_reply_ends reads pending : Forall some_bytes reads -> (length pending <= BUFFER)%nat ->
  (S MAX_LINES * S BUFFER <= length reads)%nat ->
  exists r p rest, read_reply reads pending [] = Some (r, p, rest) /\ (length p <= BUFFER)%nat /\ rest `suffix_of` reads.
Proof. intros. apply read_reply_progress; cbn; lia || done. Qed.

Lemma read_reply_ends_witness :
  let reads := replicate (S MAX_LINES * S BUFFER) (Got (bs "2")) in
  exists r p rest, read_reply reads [] [] = Some (r, p, rest) /\ (length p <= BUFFER)%nat /\ rest `suffix_of` reads.
Proof.
  cbv zeta. apply read_reply_ends.
  - apply Forall_replicate. apply Nat.leb_le. vm_compute. reflexivity.
  - apply Nat.le_0_l.
  - by rewrite length_replicate.
Defined.

(** ** What a server wrote *)

(** A line of a reply: three digits, whether it is the last one, and text. *)
Definition line_of (ds : list byte) (final : bool) (t : list Z) : list byte := ds ++ (if final then bs " " else bs "-") ++ utf8 t ++ [x0d; x0a].

Fixpoint written (ds : list byte) (texts : list (list Z)) : list byte :=
  match texts with
  | [] => []
  | [t] => line_of ds true t
  | t :: texts => line_of ds false t ++ written ds texts
  end.

(** Text without line feeds, and without white space at its end. *)
Record text_ok (t : list Z) : Prop := {
  text_scalar : Forall (fun c => is_scalar c = true) t;
  text_one_line : 10 ∉ t;
  text_end : forall c, last t = Some c -> is_whitespace c = false;
  text_short : (length (utf8 t) + 8 <= MAX_PENDING)%nat }.

Definition code_ok (ds : list byte) : Prop := length ds = 3%nat /\ Forall (fun b => is_ascii_digit b = true) ds.

(** A character begins with what continues none, and only the line feed has one. *)
Lemma utf8_char_shape c : is_scalar c = true -> exists b s, utf8_char c = b :: s /\ continuation b = false /\ (b = x0a -> c = 10) /\ x0a ∉ s.
Proof.
  intros Hc%is_scalar_range. unfold utf8_char.
  assert (forall z, 128 <= z < 256 -> zb z <> x0a) as Hne by (intros z Hz E; apply (f_equal bz) in E; rewrite bz_zb_small in E by lia; change (bz x0a) with 10 in E; lia).
  repeat case_match; eexists _, _; (split; [reflexivity|]); (split; [ranges; rewrite bz_zb_small by dlia; dlia|]); (split;
    [intros E; apply (f_equal bz) in E; rewrite bz_zb_small in E by dlia; change (bz x0a) with 10 in E; dlia|]).
  all: rewrite ?not_elem_of_cons; split_and?; try (apply not_elem_of_nil); apply not_eq_sym, Hne; dlia.
Qed.

Lemma utf8_no_feed t : Forall (fun c => is_scalar c = true) t -> 10 ∉ t -> x0a ∉ utf8 t.
Proof.
  induction 1 as [|c t Hc Ht IH]; [intros _; apply not_elem_of_nil|]. intros [Hne Hn]%not_elem_of_cons. change (utf8 (c :: t)) with (utf8_char c ++ utf8 t).
  destruct (utf8_char_shape c Hc) as (b & s & -> & _ & Hb & Hs). apply not_elem_of_app. split; [|by apply IH].
  apply not_elem_of_cons. split; [|done]. intros E. by apply Hne, eq_sym, Hb.
Qed.

Lemma digit_not_feed ds : code_ok ds -> x0a ∉ ds.
Proof. intros [_ Hd] Hin. by apply (proj1 (Forall_forall _ _) Hd) in Hin. Qed.

(** What is left of a line when its end is taken off. *)
Definition shown (ds : list byte) (final : bool) (t : list Z) : list byte :=
  if final && bool_decide (t = []) then ds else ds ++ (if final then bs " " else bs "-") ++ utf8 t.

Lemma drop_whitespace_end X c : is_whitespace c = false -> rev (drop_whitespace (rev (X ++ [c]))) = X ++ [c].
Proof. intros Hc. rewrite rev_app_distr. cbn. rewrite Hc. cbn. by rewrite rev_involutive. Qed.

Lemma line_shown ds final t : code_ok ds -> text_ok t -> trim_end (from_utf8_lossy (line_of ds final t)) = shown ds final t.
Proof.
  intros [Hlen Hds] [Hsc _ Hend _]. set (sep := if final then " "%byte else "-"%byte).
  assert (forall b, is_ascii_digit b = true -> is_ascii b = true) as Hasc by (intros b; unfold is_ascii_digit, is_ascii; lia).
  assert (is_ascii sep = true) as Hsep by (by destruct final).
  assert (Forall (fun b => is_ascii b = true) (ds ++ [sep])) as Hfront.
  { apply Forall_app. split; [eapply Forall_impl; [exact Hds|done]|by repeat constructor]. }
  assert (line_of ds final t = utf8 ((bz <$> ds ++ [sep]) ++ t ++ [13; 10])) as Hline.
  { rewrite !utf8_app, utf8_ascii by done. unfold line_of. rewrite <- app_assoc. by destruct final. }
  assert (Forall (fun c => is_scalar c = true) ((bz <$> ds ++ [sep]) ++ t ++ [13; 10])) as Hall.
  { apply Forall_app. split; [|apply Forall_app; split; [done|by repeat constructor]]. apply Forall_fmap. eapply Forall_impl; [exact Hfront|].
    intros b Hb. cbn. unfold is_ascii in Hb. pose proof (bz_range b). apply is_scalar_range. lia. }
  rewrite Hline, from_utf8_lossy_utf8 by done. unfold trim_end. rewrite chars_utf8 by done. rewrite !rev_app_distr. cbn [rev app drop_whitespace].
  change (is_whitespace 10) with true. change (is_whitespace 13) with true. cbv iota.
  rewrite <- rev_app_distr. unfold shown. destruct t as [|c0 t0 _] using rev_ind.
  - rewrite app_nil_r, bool_decide_true, andb_true_r by done. destruct final; subst sep.
    + rewrite fmap_app, rev_app_distr. cbn [fmap list_fmap rev app drop_whitespace]. change (is_whitespace (bz " "%byte)) with true. cbv iota.
      destruct ds as [|d ds' _] using rev_ind; [done|]. apply Forall_app in Hds as [_ [Hd _]%Forall_cons]. rewrite fmap_app. change (bz <$> [d]) with [bz d]. rewrite drop_whitespace_end.
      * change [bz d] with (bz <$> [d]). rewrite <- fmap_app. apply utf8_ascii. apply Forall_app in Hfront as [? _]. done.
      * unfold is_whitespace. unfold is_ascii_digit in Hd. rewrite bool_decide_false by (rewrite !elem_of_cons, elem_of_nil; lia). lia.
    + rewrite fmap_app. cbn [fmap list_fmap]. rewrite drop_whitespace_end by done. change [bz "-"%byte] with (bz <$> ["-"%byte]). rewrite <- fmap_app. cbn.
      by rewrite utf8_ascii.
  - rewrite app_assoc, drop_whitespace_end by (apply Hend, last_snoc). rewrite bool_decide_false by (by destruct t0). rewrite andb_false_r.
    rewrite <- app_assoc, utf8_app, utf8_ascii, <- app_assoc by done. by destruct final.
Qed.

Lemma shown_line ds final t : code_ok ds -> text_ok t ->
  take 3 (shown ds final t) = ds /\ line_kind (shown ds final t) = (if final then Last else More) /\ after_code (shown ds final t) = utf8 t.
Proof.
  intros [Hlen Hds] [Hsc _ _ _]. destruct ds as [|a [|b [|c [|]]]]; try done. clear Hlen.
  assert (forallb is_ascii_digit [a; b; c] = true) as Hd by (cbn; repeat (apply Forall_cons in Hds as [-> Hds]); done).
  assert (forall sep, after_code ([a; b; c] ++ sep :: utf8 t) = utf8 t) as Hafter.
  { intros sep. unfold after_code. cbn. destruct Hsc as [|x t Hx Hsc]; [done|]. change (utf8 (x :: t)) with (utf8_char x ++ utf8 t).
    destruct (utf8_char_shape x Hx) as (y & s & -> & Hy & _). cbn. by rewrite Hy. }
  assert (forall s, line_kind ([a; b; c] ++ s) = if bool_decide (head s = Some "-"%byte) then More else Last) as Hkind.
  { intros s. unfold line_kind. change (take 3 ([a; b; c] ++ s)) with [a; b; c]. rewrite Hd. cbn. by destruct s. }
  unfold shown. destruct final; cbn [andb]; [case_bool_decide as Ht; [subst t|]|].
  - rewrite <- (app_nil_r [a; b; c]), Hkind. done.
  - rewrite Hkind. split; [done|]. split; [done|]. apply (Hafter " "%byte).
  - rewrite Hkind. split; [done|]. split; [done|]. apply (Hafter "-"%byte).
Qed.

Lemma line_of_feed ds final t : code_ok ds -> text_ok t -> exists l, line_of ds final t = l ++ [x0a] /\ x0a ∉ l.
Proof.
  intros Hds [Hsc Hone _ _]. exists (ds ++ (if final then bs " " else bs "-") ++ utf8 t ++ [x0d]). split.
  - unfold line_of. by rewrite <- !app_assoc.
  - rewrite !not_elem_of_app. split_and!; [by apply digit_not_feed| |by apply utf8_no_feed|].
    + destruct final; apply not_elem_of_cons; (split; [done|apply not_elem_of_nil]).
    + apply not_elem_of_cons. split; [done|apply not_elem_of_nil].
Qed.

Lemma no_feed s : x0a ∉ s -> Forall (fun b => bool_decide (b = x0a) = false) s.
Proof. intros H. apply Forall_forall. intros b Hb. apply bool_decide_eq_false. by intros ->. Qed.

Lemma drain_line fuel ds final t s ls : code_ok ds -> text_ok t ->
  drain (S fuel) (line_of ds final t ++ s) ls =
    if final then Answer (inl (reply_of (ls ++ [shown ds final t]))) s
    else if (MAX_LINES <? length (ls ++ [shown ds final t]))%nat then Answer (inr (InvalidData (bs "SMTP reply too long"))) s
    else drain fuel s (ls ++ [shown ds final t]).
Proof.
  intros Hds Ht. destruct (line_of_feed ds final t Hds Ht) as (l & Hl & Hn). cbn [drain].
  assert (position (fun b => bool_decide (b = x0a)) (line_of ds final t ++ s) = Some (length l)) as Hpos.
  { rewrite Hl, <- app_assoc. apply position_app_r; [by apply no_feed|done]. }
  assert (S (length l) = length (line_of ds final t)) as Hlen by (rewrite Hl, length_app; cbn; lia).
  rewrite Hpos, Hlen, take_app_length, drop_app_length. cbv zeta. rewrite line_shown by done. destruct (shown_line ds final t Hds Ht) as (_ & -> & _).
  by destruct final.
Qed.

Lemma drain_part fuel s e ds final t ls : code_ok ds -> text_ok t -> line_of ds final t = s ++ e -> e <> [] -> drain fuel s ls = Waits s ls.
Proof.
  intros Hds Ht Heq He. destruct fuel as [|fuel]; [done|]. cbn [drain]. destruct (line_of_feed ds final t Hds Ht) as (l & Hl & Hn).
  destruct e as [|x e _] using rev_ind; [done|]. rewrite Hl, app_assoc in Heq. apply app_inj_tail in Heq as [-> _].
  destruct (position _ s) as [i|] eqn:Hpos; [|done]. apply position_Some in Hpos as (y & Hy & Hx%bool_decide_eq_true). subst y.
  exfalso. apply Hn, elem_of_app. left. by eapply list_elem_of_lookup_2.
Qed.

(** The lines of a reply as they are kept. *)
Fixpoint all_shown (ds : list byte) (texts : list (list Z)) : list (list byte) :=
  match texts with [] => [] | [t] => [shown ds true t] | t :: texts => shown ds false t :: all_shown ds texts end.

Lemma reply_of_shown ds texts : code_ok ds -> Forall text_ok texts -> texts <> [] ->
  reply_of (all_shown ds texts) = {| code := default 0 (parse_unsigned 65535 ds); text := join [x0a] (map utf8 texts) |}.
Proof.
  intros Hds Ht Hne. assert (map after_code (all_shown ds texts) = map utf8 texts) as Htext.
  { clear Hne. induction Ht as [|t texts Ht Hts IH]; [done|]. destruct texts as [|u texts]; cbn [all_shown map] in *.
    - by destruct (shown_line ds true t Hds Ht) as (_ & _ & ->).
    - rewrite IH. by destruct (shown_line ds false t Hds Ht) as (_ & _ & ->). }
  unfold reply_of. rewrite Htext. destruct Ht as [|t texts Ht Hts]; [done|]. f_equal. destruct texts as [|u texts]; cbn [all_shown].
  - by destruct (shown_line ds true t Hds Ht) as (-> & _).
  - by destruct (shown_line ds false t Hds Ht) as (-> & _).
Qed.

Lemma written_cons ds t texts : written ds (t :: texts) = line_of ds (bool_decide (texts = [])) t ++ written ds texts.
Proof. destruct texts; cbn; [by rewrite app_nil_r|done]. Qed.

Lemma all_shown_cons ds t texts : all_shown ds (t :: texts) = shown ds (bool_decide (texts = [])) t :: all_shown ds texts.
Proof. by destruct texts. Qed.

Lemma written_nil ds texts : code_ok ds -> written ds texts = [] -> texts = [].
Proof. intros [Hlen _]. destruct texts as [|t texts]; [done|]. rewrite written_cons. unfold line_of. by destruct ds. Qed.

(** The lines that are there, of a reply whose other bytes are still to come. *)
Lemma drain_written ds texts : code_ok ds -> Forall text_ok texts -> texts <> [] -> forall fuel pending more rest ls,
  pending ++ more = written ds texts ++ rest -> (length pending < fuel)%nat -> (length ls + length texts <= S MAX_LINES)%nat ->
  (exists p, drain fuel pending ls = Answer (inl (reply_of (ls ++ all_shown ds texts))) p /\ p ++ more = rest) \/
  (exists p ls' texts', drain fuel pending ls = Waits p ls' /\ more <> [] /\ p ++ more = written ds texts' ++ rest /\ Forall text_ok texts' /\ texts' <> [] /\
    ls' ++ all_shown ds texts' = ls ++ all_shown ds texts /\ (length p <= MAX_PENDING)%nat /\ (length ls' + length texts' <= S MAX_LINES)%nat).
Proof.
  intros Hds. induction 1 as [|t texts Ht Hts IH]; [done|]. intros _ fuel pending more rest ls Heq Hfuel Hlines.
  rewrite written_cons, <- app_assoc in Heq. rewrite all_shown_cons. set (final := bool_decide (texts = [])) in *.
  assert ((exists s, pending = line_of ds final t ++ s /\ s ++ more = written ds texts ++ rest) \/
          (exists e, line_of ds final t = pending ++ e /\ e <> [] /\ more = e ++ written ds texts ++ rest)) as [(s & -> & Hs)|(e & Hline & He & Hmore)].
  { destruct (app_eq_inv _ _ _ _ Heq) as [(s & -> & Hs)|(e & Hline & Hmore)]; [left; by exists s|].
    destruct (decide (e = [])) as [->|He]; [|right; by exists e]. left. exists []. rewrite app_nil_r in *. done. }
  - destruct fuel as [|fuel]; [lia|]. rewrite drain_line by done. rewrite !length_app in *. cbn [length] in *. subst final. case_bool_decide as Hend.
    + left. subst texts. exists s. cbn in Hs. done.
    + assert (0 < length texts)%nat by (destruct texts; [done|cbn; lia]). destruct (MAX_LINES <? _)%nat eqn:E; [apply Nat.ltb_lt in E; lia|].
      assert (0 < length (line_of ds false t))%nat by (destruct (line_of_feed ds false t Hds Ht) as (l & -> & _); rewrite length_app; cbn; lia).
      specialize (IH Hend fuel s more rest (ls ++ [shown ds false t]) Hs). rewrite !length_app, <- !app_assoc in IH. cbn [app length] in IH. apply IH; lia.
  - right. rewrite (drain_part fuel pending e ds final t ls) by done. exists pending, ls, (t :: texts). split; [done|].
    split; [subst more; by destruct e|]. rewrite written_cons, all_shown_cons. fold final. split; [by rewrite Hmore, Hline, <- !app_assoc|].
    split; [by constructor|]. split; [done|]. split; [done|]. split; [|done]. destruct Ht as [_ _ _ Hshort]. destruct Hds as [Hlen _].
    apply (f_equal length) in Hline. unfold line_of in Hline. rewrite !length_app in Hline. cbn in Hline. destruct final; cbn in Hline; lia.
Qed.

(** A reply is read as it was written, in whatever pieces it comes. When a server wrote
    a reply of up to 101 lines, then for every way to cut what it sent into reads the client
    gets its code and its text, line by line, as soon as the last line is there; what was
    written after it is left, whole, for the next reply. *)
Theorem read_reply_written ds texts chunks pending rest : code_ok ds -> Forall text_ok texts -> texts <> [] -> (length texts <= S MAX_LINES)%nat ->
  Forall (fun c => c <> []) chunks -> pending ++ concat chunks = written ds texts ++ rest ->
  exists left_over later,
    read_reply (map Got chunks) pending [] =
      Some (inl {| code := default 0 (parse_unsigned 65535 ds); text := join [x0a] (map utf8 texts) |}, left_over, map Got later)
    /\ left_over ++ concat later = rest.
Proof.
  intros Hds Hts Hne Hlen Hchunks Heq. rewrite <- reply_of_shown by done.
  assert (forall ls texts', (length ls + length texts' <= S MAX_LINES)%nat -> Forall text_ok texts' -> texts' <> [] -> pending ++ concat chunks = written ds texts' ++ rest ->
    exists left_over later, read_reply (map Got chunks) pending ls = Some (inl (reply_of (ls ++ all_shown ds texts')), left_over, map Got later)
      /\ left_over ++ concat later = rest) as Hall; [|by apply (Hall [] texts)].
  clear Hts Hne Hlen Heq texts. revert pending. induction Hchunks as [|c chunks Hc Hchunks IH]; intros pending ls texts Hlen Hts Hne Heq; cbn [map read_reply].
  all: destruct (drain_written ds texts Hds Hts Hne (S (length pending)) pending _ rest ls Heq ltac:(lia) Hlen)
    as [(p & -> & Hp)|(p & ls' & texts' & -> & Hmore & Hp & Hts' & Hne' & Hshown & Hshort & Hlen')].
  - by exists p, [].
  - done.
  - exists p, (c :: chunks). done.
  - destruct (MAX_PENDING <? length p)%nat eqn:E; [apply Nat.ltb_lt in E; lia|]. destruct c as [|b c]; [done|]. rewrite <- Hshown.
    apply IH; try done. rewrite <- Hp. cbn [concat]. by rewrite <- app_assoc.
Qed.

(** The answer to EHLO, cut in the middle of its line ends, with the next reply behind it. *)
Lemma read_reply_written_witness :
  let texts := [bz <$> bs "mx.example.org"; bz <$> bs "PIPELINING"; bz <$> bs "STARTTLS"; bz <$> bs "SIZE 1000"] in
  let sent := written (bs "250") texts ++ bs "220 " in
  let chunks := [take 19 sent; take 14 (drop 19 sent); drop 33 sent] in
  (exists left_over later,
    read_reply (map Got chunks) [] [] = Some (inl {| code := 250; text := join [x0a] (map utf8 texts) |}, left_over, map Got later)
    /\ left_over ++ concat later = bs "220 ")
  /\ ehlo_capabilities {| code := 250; text := join [x0a] (map utf8 texts) |} =
     {| starttls := true; size := Some 1000; smtputf8 := false; eight_bit_mime := false; auth_plain := false; auth_login := false |}.
Proof.
  cbv zeta. split; [|vm_compute; reflexivity].
  apply (read_reply_written (bs "250") [bz <$> bs "mx.example.org"; bz <$> bs "PIPELINING"; bz <$> bs "STARTTLS"; bz <$> bs "SIZE 1000"] _ [] (bs "220 ")).
  - split; [done|repeat constructor].
  - repeat (apply Forall_cons; split); [..|apply Forall_nil; done].
    all: split; [by repeat constructor | apply (bool_decide_unpack (10 ∉ _)); vm_compute; exact I | intros c [= <-]; vm_compute; reflexivity | apply Nat.leb_le; vm_compute; reflexivity].
  - done.
  - apply Nat.leb_le. vm_compute. reflexivity.
  - repeat constructor; vm_compute; discriminate.
  - vm_compute. reflexivity.
Defined.
End Client.
