(* ===== verification/PublicIp.v ===== *)
(** * Addresses on the internet (crates\/uwumail-store\/src\/public_ip.rs)

    Which addresses a worker may talk to on somebody else's word: the mail servers of a
    domain, a fetched mailbox, a list. *)

From S2P Require Import Prelude Network.

Module PublicIp.

(** The 32 bits that begin at octet [at_] of an IPv6 address. *)
Definition embedded (a at_ : Z) : Z := Z.shiftr a (96 - 8 * at_) `mod` 2 ^ 32.

Definition public_v4 (v4 : Z) : bool :=
  let a := octet v4 0 in
  let b := octet v4 1 in
  let c := octet v4 2 in
  let is_unspecified := v4 =? 0 in
  let is_loopback := a =? 127 in
  let is_private := (a =? 10) || ((a =? 172) && ((16 <=? b) && (b <=? 31))) || ((a =? 192) && (b =? 168)) in
  let is_link_local := (a =? 169) && (b =? 254) in
  let is_broadcast := v4 =? 2 ^ 32 - 1 in
  let is_multicast := (224 <=? a) && (a <=? 239) in
  negb (is_unspecified || is_loopback || is_private || is_link_local || is_broadcast || is_multicast
        || (a =? 0)
        || (240 <=? a)
        || ((a =? 100) && (Z.land b 0xc0 =? 64))
        || ((a =? 198) && (Z.land b 0xfe =? 18))
        || ((a =? 192) && (b =? 0) && ((c =? 0) || (c =? 2)))
        || ((a =? 198) && (b =? 51) && (c =? 100))
        || ((a =? 203) && (b =? 0) && (c =? 113))).

Definition is_public_ip (ip : IpAddr) : bool :=
  match to_canonical ip with
  | V4 v4 => public_v4 v4
  | V6 v6 =>
      let first := segment v6 0 in
      let second := segment v6 1 in
      let six := Z.shiftr v6 32 in
      let is_loopback := v6 =? 1 in
      let is_unspecified := v6 =? 0 in
      if (six =? Z.shiftl 0x64ff9b 64) || ((six =? 0) && negb is_loopback) then negb is_unspecified && public_v4 (embedded v6 12)
      else if first =? 0x2002 then public_v4 (embedded v6 2)
      else negb (is_unspecified
                 || ((first =? 0x64) && (second =? 0xff9b) && (segment v6 2 =? 1))
                 || ((first =? 0x2001) && (second =? 0))
                 || is_loopback
                 || (Z.land first 0xff00 =? 0xff00)
                 || (Z.land first 0xfe00 =? 0xfc00)
                 || (Z.land first 0xffc0 =? 0xfe80)
                 || ((first =? 0x2001) && (second =? 0x0db8)))
  end.

Definition read (s : string) : IpAddr := default (V4 0) (parse_ip (bs s)).

Example only_addresses_on_the_internet_are_public :
  forallb (fun s => negb (is_public_ip (read s)))
    ["127.0.0.1"; "10.1.2.3"; "172.16.0.1"; "192.168.1.20"; "169.254.1.1"; "100.64.0.1"; "0.0.0.0"; "255.255.255.255"; "224.0.0.1"; "198.18.0.1";
     "::1"; "::"; "fe80::1"; "fd00::1"; "ff02::1"; "::ffff:10.0.0.1"; "64:ff9b::7f00:1"; "64:ff9b:1::a00:1"; "2002:7f00:1::"; "::127.0.0.1"; "2001:db8::1"; "2001::1"]%string
  = true
  /\ forallb (fun s => is_public_ip (read s)) ["9.9.9.9"; "2606:4700::1111"; "64:ff9b::909:909"; "2002:909:909::1"; "::ffff:9.9.9.9"; "172.32.0.1"; "100.128.0.1"]%string = true.
Proof. vm_compute. done. Qed.

(** ** The networks nobody on the internet is in *)

Definition special_v4 : list Network :=
  omap (fun s => parse_network (bs s))
    ["0.0.0.0/8"; "10.0.0.0/8"; "100.64.0.0/10"; "127.0.0.0/8"; "169.254.0.0/16"; "172.16.0.0/12"; "192.0.0.0/24"; "192.0.2.0/24"; "192.168.0.0/16";
     "198.18.0.0/15"; "198.51.100.0/24"; "203.0.113.0/24"; "224.0.0.0/4"; "240.0.0.0/4"]%string.

(** An IPv4 network: the addresses with the bits it fixes. *)
Lemma contains_v4 net p a : 0 <= net < 2 ^ 32 -> 0 <= p <= 32 -> 0 <= a < 2 ^ 32 ->
  contains {| address := V4 net; prefix := p |} (V4 a) = (a / 2 ^ (32 - p) =? net / 2 ^ (32 - p)).
Proof.
  intros Hn Hp Ha. apply eq_true_iff_eq. rewrite contains_iff; [|exact (conj Hn (conj eq_refl Hp))|exact Ha]. cbn -[Z.pow]. rewrite Z.eqb_eq, <- !Z.shiftr_div_pow2 by lia.
  split; [by intros [_ H]|intros H; by split].
Qed.

Lemma octet_bounds a i : 0 <= octet a i < 256.
Proof. unfold octet. change 0xff with (Z.ones 8). rewrite Z.land_ones by lia. by apply Z.mod_pos_bound. Qed.

(** The tests on bits, as tests on ranges. *)
Lemma octet_bits b : 0 <= b < 256 -> (Z.land b 0xc0 =? 64) = (b / 64 =? 1) /\ (Z.land b 0xfe =? 18) = (b / 2 =? 9).
Proof.
  intros Hb. assert (forallb (fun n => let b := Z.of_nat n in bool_decide ((Z.land b 0xc0 =? 64) = (b / 64 =? 1) /\ (Z.land b 0xfe =? 18) = (b / 2 =? 9))) (seq 0 256) = true) as H by (vm_compute; reflexivity).
  rewrite forallb_forall in H. specialize (H (Z.to_nat b)). rewrite Z2Nat.id in H by lia. apply bool_decide_eq_true in H; [done|]. apply in_seq. lia.
Qed.

(** An IPv4 address is on the internet exactly when it is in none of the networks that
    are reserved: this machine, private and shared networks, link-local, documentation,
    benchmarks, multicast and what is kept for later. *)
Theorem public_v4_networks a : 0 <= a < 2 ^ 32 -> public_v4 a = negb (existsb (fun n => contains n (V4 a)) special_v4).
Proof.
  intros Ha. unfold public_v4. pose proof (octets a Ha) as Ho. pose proof (octet_bounds a 0) as H0. pose proof (octet_bounds a 1) as H1. pose proof (octet_bounds a 2) as H2. pose proof (octet_bounds a 3) as H3.
  destruct (octet_bits (octet a 1) H1) as [-> ->].
  revert Ho H0 H1 H2 H3. generalize (octet a 0), (octet a 1), (octet a 2), (octet a 3). intros x y z w Ho Hx Hy Hz Hw. cbv zeta.
  assert (a / 2 ^ 24 = x) as H24 by dlia. assert (a / 2 ^ 28 = x / 16) as H28 by dlia.
  assert (a / 2 ^ 16 = x * 256 + y) as H16 by dlia. assert (a / 2 ^ 8 = (x * 256 + y) * 256 + z) as H8 by dlia.
  assert (a / 2 ^ 22 = x * 4 + y / 64) as H22 by dlia. assert (a / 2 ^ 20 = x * 16 + y / 16) as H20 by dlia. assert (a / 2 ^ 17 = x * 128 + y / 2) as H17 by dlia.
  let l := eval vm_compute in special_v4 in change special_v4 with l. cbn [existsb]. rewrite !contains_v4 by lia. f_equal.
  change (32 - 8) with 24. change (32 - 10) with 22. change (32 - 16) with 16. change (32 - 12) with 20. change (32 - 24) with 8. change (32 - 15) with 17. change (32 - 4) with 28.
  rewrite H24, H28, H16, H8, H22, H20, H17. clear H24 H28 H16 H8 H22 H20 H17.
  repeat match goal with |- context [Z.eqb ?e (Z.div ?c ?d)] => let v := eval vm_compute in (Z.div c d) in change (Z.div c d) with v end.
  assert ((x * 4 + y / 64 =? 401) = (x =? 100) && (y / 64 =? 1)) as -> by dlia.
  assert ((x * 256 + y =? 43518) = (x =? 169) && (y =? 254)) as -> by lia.
  assert ((x * 16 + y / 16 =? 2753) = (x =? 172) && ((16 <=? y) && (y <=? 31))) as -> by dlia.
  assert (((x * 256 + y) * 256 + z =? 12582912) = (x =? 192) && (y =? 0) && (z =? 0)) as -> by lia.
  assert (((x * 256 + y) * 256 + z =? 12582914) = (x =? 192) && (y =? 0) && (z =? 2)) as -> by lia.
  assert ((x * 256 + y =? 49320) = (x =? 192) && (y =? 168)) as -> by lia.
  assert ((x * 128 + y / 2 =? 25353) = (x =? 198) && (y / 2 =? 9)) as -> by dlia.
  assert (((x * 256 + y) * 256 + z =? 12989284) = (x =? 198) && (y =? 51) && (z =? 100)) as -> by lia.
  assert (((x * 256 + y) * 256 + z =? 13303921) = (x =? 203) && (y =? 0) && (z =? 113)) as -> by lia.
  assert ((x / 16 =? 14) = (224 <=? x) && (x <=? 239)) as -> by dlia. assert ((x / 16 =? 15) = (240 <=? x)) as -> by dlia.
  assert ((a =? 0) = true -> (x =? 0) = true) as Hnone by lia. assert ((a =? 2 ^ 32 - 1) = true -> (240 <=? x) = true) as Hall by lia.
  rewrite orb_false_r. apply eq_true_iff_eq. clear -Hnone Hall. repeat (rewrite orb_true_iff || rewrite andb_true_iff). tauto.
Qed.

Lemma public_v4_networks_witness :
  public_v4 0xac1fffff = negb (existsb (fun n => contains n (V4 0xac1fffff)) special_v4) /\ public_v4 0xac1fffff = false /\ public_v4 0xac200000 = true.
Proof. split; [apply (public_v4_networks 0xac1fffff); lia|split; vm_compute; reflexivity]. Defined.

(** An IPv6 address that carries an IPv4 address is as public as that: mapped, NAT64,
    6to4 with whatever behind it, and the old compatible form. *)
Theorem carried_v4 a low : 0 <= a < 2 ^ 32 -> 0 <= low < 2 ^ 80 ->
  is_public_ip (V6 (0xffff * 2 ^ 32 + a)) = public_v4 a /\
  is_public_ip (V6 (0x64ff9b * 2 ^ 96 + a)) = public_v4 a /\
  is_public_ip (V6 (0x2002 * 2 ^ 112 + a * 2 ^ 80 + low)) = public_v4 a /\
  is_public_ip (V6 a) = public_v4 a.
Proof.
  intros Ha Hlow.
  assert (forall h b n, 0 <= n -> 0 <= b < 2 ^ n -> Z.shiftr (h * 2 ^ n + b) n = h) as Hhigh.
  { intros h b n Hn Hb. rewrite Z.shiftr_div_pow2 by lia. rewrite Z.div_add_l by lia. rewrite Z.div_small by lia. lia. }
  assert (forall h, 0 <= h -> (h * 2 ^ 32 + a) mod 2 ^ 32 = a) as Hlast by (intros h Hh; rewrite Z.add_comm, Z.mod_add by lia; by apply Z.mod_small).
  split_and!.
  - unfold is_public_ip, to_canonical. by rewrite Hhigh, Hlast by lia.
  - unfold is_public_ip, to_canonical. replace (0x64ff9b * 2 ^ 96 + a) with (0x64ff9b0000000000000000 * 2 ^ 32 + a) by lia. rewrite Hhigh by lia.
    change (_ =? 0xffff) with false. cbv iota zeta. rewrite Hhigh by lia. change (_ =? Z.shiftl _ 64) with true. cbn [orb]. unfold embedded.
    change (96 - 8 * 12) with 0. rewrite Z.shiftr_0_r, Hlast by lia. replace (_ =? 0) with false by lia. done.
  - set (v := 0x2002 * 2 ^ 112 + a * 2 ^ 80 + low).
    assert (0x2002 * 2 ^ 80 <= Z.shiftr v 32) as Hsix by (rewrite Z.shiftr_div_pow2 by lia; apply Z.div_le_lower_bound; lia).
    unfold is_public_ip, to_canonical. rewrite (proj2 (Z.eqb_neq (Z.shiftr v 32) 0xffff)) by lia. cbv iota zeta.
    rewrite (proj2 (Z.eqb_neq (Z.shiftr v 32) (Z.shiftl 0x64ff9b 64))) by (change (Z.shiftl 0x64ff9b 64) with (0x64ff9b * 2 ^ 64); lia).
    rewrite (proj2 (Z.eqb_neq (Z.shiftr v 32) 0)) by lia. cbn [orb andb].
    assert (segment v 0 = 0x2002) as ->.
    { unfold segment. change (112 - 16 * 0) with 112. unfold v. rewrite <- Z.add_assoc, Hhigh by lia. reflexivity. }
    change (0x2002 =? 0x2002) with true. cbv iota. unfold embedded. change (96 - 8 * 2) with 80. unfold v.
    replace (0x2002 * 2 ^ 112 + a * 2 ^ 80 + low) with ((0x2002 * 2 ^ 32 + a) * 2 ^ 80 + low) by lia. by rewrite Hhigh, Hlast by lia.
  - assert (Z.shiftr a 32 = 0) as Hs by (rewrite Z.shiftr_div_pow2 by lia; by apply Z.div_small).
    unfold is_public_ip, to_canonical. rewrite Hs. change (0 =? 0xffff) with false. cbv iota zeta. rewrite Hs.
    change (0 =? Z.shiftl _ _) with false. change (0 =? 0) with true. cbn [orb andb]. destruct (Z.eqb_spec a 1) as [->|Hone]; [reflexivity|].
    cbn [negb]. cbv iota. unfold embedded. change (96 - 8 * 12) with 0. rewrite Z.shiftr_0_r, Z.mod_small by lia. destruct (Z.eqb_spec a 0) as [->|Hzero]; [reflexivity|done].
Qed.

Lemma carried_v4_witness :
  is_public_ip (V6 (0xffff * 2 ^ 32 + 0x0a000001)) = public_v4 0x0a000001 /\ is_public_ip (read "64:ff9b::a00:1") = public_v4 0x0a000001
  /\ is_public_ip (read "2002:a00:1::7") = public_v4 0x0a000001 /\ is_public_ip (read "::10.0.0.1") = public_v4 0x0a000001 /\ public_v4 0x0a000001 = false.
Proof.
  destruct (carried_v4 0x0a000001 7 ltac:(lia) ltac:(lia)) as (H1 & H2 & H3 & H4).
  split; [exact H1|]. split; [exact H2|]. split; [exact H3|]. split; [exact H4|]. vm_compute. reflexivity.
Defined.

(** Networks for documentation that are newer than the code. *)
Example documentation_elsewhere : is_public_ip (read "3fff::1") = true /\ is_public_ip (read "100::1") = true.
Proof. vm_compute. done. Qed.
End PublicIp.
