(* ===== verification/MtaSts.v ===== *)
(** * MTA-STS (crates\/uwumail-smtp\/src\/mta_sts.rs)

    The policies that say which mail servers a domain has and that they are reached over
    TLS only: reading and writing them, which hosts they allow, and which policy holds when
    the network answers this or that. DNS, HTTPS and the table of known policies are
    arguments. *)

From S2P Require Import Prelude Utf8 Address.

Module MtaSts.

Definition TESTING_MAX_AGE : Z := 24 * 3600.
Definition ENFORCE_MAX_AGE : Z := 7 * 24 * 3600.
Definition MAX_AGE_LIMIT : Z := 31557600.

Inductive Mode := Enforce | Testing | NoPolicy.

#[export] Instance Mode_eq_dec : EqDecision Mode.
Proof. solve_decision. Defined.

Definition mode_as_str (m : Mode) : list byte := match m with Enforce => bs "enforce" | Testing => bs "testing" | NoPolicy => bs "none" end.

Definition mode_parse (value : list byte) : option Mode :=
  if bool_decide (value = bs "enforce") then Some Enforce
  else if bool_decide (value = bs "testing") then Some Testing
  else if bool_decide (value = bs "none") then Some NoPolicy else None.

Record Policy := { mode : Mode; mx : list (list byte); max_age : Z }.

Definition mx_name (name : list byte) : list byte := to_ascii_lowercase (trim_end_byte "."%byte name).

(** [Policy::ours] *)
Definition ours (enforced : bool) (names : list (list byte)) : Policy :=
  {| mode := if enforced then Enforce else Testing; mx := map mx_name names; max_age := if enforced then ENFORCE_MAX_AGE else TESTING_MAX_AGE |}.

(** ** Reading *)

(** What was read so far. *)
Record Fields := { f_version : option (list byte); f_mode : option Mode; f_mx : list (list byte); f_max_age : option Z }.

Definition no_fields : Fields := {| f_version := None; f_mode := None; f_mx := []; f_max_age := None |}.

Definition parse_line (f : Fields) (line : list byte) : Fields + list byte :=
  let line := trim line in
  if bool_decide (line = []) then inl f
  else
    match split_once ":"%byte line with
    | None => inr (bs "the line " ++ [x22] ++ line ++ [x22] ++ bs " is not key: value")
    | Some (key, value) =>
        let value := trim value in
        let key := trim key in
        if bool_decide (key = bs "version") then inl {| f_version := Some value; f_mode := f_mode f; f_mx := f_mx f; f_max_age := f_max_age f |}
        else if bool_decide (key = bs "mode") then
          match mode_parse value with
          | Some m => inl {| f_version := f_version f; f_mode := Some m; f_mx := f_mx f; f_max_age := f_max_age f |}
          | None => inr (bs "unknown mode " ++ [x22] ++ value ++ [x22])
          end
        else if bool_decide (key = bs "mx") then inl {| f_version := f_version f; f_mode := f_mode f; f_mx := f_mx f ++ [mx_name value]; f_max_age := f_max_age f |}
        else if bool_decide (key = bs "max_age") then
          match parse_unsigned u64_max value with
          | Some seconds => inl {| f_version := f_version f; f_mode := f_mode f; f_mx := f_mx f; f_max_age := Some (Z.min seconds MAX_AGE_LIMIT) |}
          | None => inr (bs "max_age " ++ [x22] ++ value ++ [x22] ++ bs " is not a number")
          end
        else inl f
    end.

Fixpoint parse_lines (f : Fields) (ls : list (list byte)) : Fields + list byte :=
  match ls with
  | [] => inl f
  | l :: ls => match parse_line f l with inl f => parse_lines f ls | inr e => inr e end
  end.

Definition parse (text : list byte) : Policy + list byte :=
  match parse_lines no_fields (str_lines text) with
  | inr e => inr e
  | inl f =>
      if negb (bool_decide (f_version f = Some (bs "STSv1"))) then inr (bs "the policy does not start with version: STSv1")
      else
        match f_mode f, f_max_age f with
        | None, _ => inr (bs "the policy has no mode")
        | _, None => inr (bs "the policy has no max_age")
        | Some m, Some age =>
            if negb (bool_decide (m = NoPolicy)) && bool_decide (f_mx f = []) then inr (bs "the policy lists no mx")
            else inl {| mode := m; mx := f_mx f; max_age := age |}
        end
  end.

(** ** Writing *)

Definition crlf : list byte := [x0d; x0a].

Definition to_text (p : Policy) : list byte :=
  bs "version: STSv1" ++ crlf ++ bs "mode: " ++ mode_as_str (mode p) ++ crlf
  ++ concat (map (fun name => bs "mx: " ++ name ++ crlf) (mx p)) ++ bs "max_age: " ++ dec (max_age p) ++ crlf.

(** ** Hosts *)

(** A name, or one label more than the name after [*.] *)
Definition pattern_allows (pattern host : list byte) : bool :=
  match strip_prefix (bs "*.") pattern with
  | Some parent =>
      match split_once "."%byte host with
      | Some (label, rest) => negb (bool_decide (label = [])) && bool_decide (rest = parent)
      | None => false
      end
  | None => bool_decide (pattern = host)
  end.

Definition allows (p : Policy) (host : list byte) : bool := existsb (fun pattern => pattern_allows pattern (mx_name host)) (mx p).

(** ** Which policy holds *)

Record CachedStsPolicy := { c_policy_id : list byte; c_mode : list byte; c_mx : list (list byte); c_max_age : Z; c_fetched_at : Z }.

Definition expired (c : CachedStsPolicy) (at_ : Z) : bool := c_fetched_at c + c_max_age c <=? at_.

Definition of_cached (c : CachedStsPolicy) : Policy :=
  {| mode := default NoPolicy (mode_parse (c_mode c)); mx := c_mx c; max_age := Z.max (c_max_age c) 0 |}.

Inductive ResultType := StsPolicyInvalid | StsWebpkiInvalid | StsPolicyFetchError.

Record Lookup := { policy : option Policy; failure : option ResultType }.

(** A file from [https://mta-sts.<domain>/.well-known/mta-sts.txt] *)
Record Fetched := { content_type : list byte; body : list byte }.

Definition read_fetched (f : Fetched) : Policy + list byte :=
  let media_type := trim (default [] (head (split_on ";"%byte (content_type f)))) in
  if negb (eq_ignore_ascii_case media_type (bs "text/plain")) then inr (bs "the policy is served as " ++ [x22] ++ media_type ++ [x22] ++ bs " instead of text/plain")
  else parse (body f).

(** [policy_for]: what holds, and what is kept for later. [known]: what was kept before;
    [id]: of the TXT record, if there is one; [certificate]: an error names a certificate.
    [readable], [writable]: whether the store gives what was kept, and keeps what is new. *)
Definition policy_for (now : Z) (readable writable : bool) (known : option CachedStsPolicy) (id : option (list byte)) (fetched : Fetched + list byte) (certificate : list byte -> bool)
    : Lookup * option CachedStsPolicy :=
  let cached := c ← (if readable then known else None); if expired c now then None else Some c in
  match id with
  | None => ({| policy := of_cached <$> cached; failure := None |}, known)
  | Some id =>
      match (c ← cached; if bool_decide (c_policy_id c = id) then Some c else None) with
      | Some c => ({| policy := Some (of_cached c); failure := None |}, known)
      | None =>
          let failed := match fetched with inl _ => StsPolicyInvalid | inr e => if certificate e then StsWebpkiInvalid else StsPolicyFetchError end in
          match match fetched with inl f => read_fetched f | inr e => inr e end with
          | inl p =>
              ({| policy := Some p; failure := None |},
               if writable then Some {| c_policy_id := id; c_mode := mode_as_str (mode p); c_mx := mx p; c_max_age := max_age p; c_fetched_at := now |} else known)
          | inr _ =>
              match cached with
              | Some c => ({| policy := Some (of_cached c); failure := None |}, known)
              | None => ({| policy := None; failure := Some failed |}, known)
              end
          end
      end
  end.

Example reads :
  let text ls := concat (map (fun l => bs l ++ [x0a]) ls) in
  (match parse (text ["version: STSv1"; "mode: enforce"; "mx: *.mx.example.com"; "mx: mail.example.com."; "max_age: 999999999"]%string) with
   | inl p => max_age p = 31557600 /\ allows p (bs "a.mx.example.com") = true /\ allows p (bs "MAIL.example.com.") = true
              /\ allows p (bs "mx.example.com") = false /\ allows p (bs "a.b.mx.example.com") = false
   | inr _ => False
   end)
  /\ parse (text ["version: STSv1"; "mode: enforce"; "max_age: 60"]%string) = inr (bs "the policy lists no mx").
Proof. vm_compute. done. Qed.

(** ** What is written is read back *)

Lemma step_ascii b s : is_ascii b = true -> utf8_step (b :: s) = Char (bz b) s.
Proof. intros Hb. unfold utf8_step. pose proof (bz_range b). unfold is_ascii in Hb. unfold in_range. rewrite (proj2 (Z.leb_le 0 (bz b))) by lia. cbn. by rewrite (proj2 (Z.leb_le (bz b) 127)) by lia. Qed.

Lemma trim_start_graphic b s : graphic b = true -> trim_start (b :: s) = b :: s.
Proof. intros [Hb Hw]%graphic_char. unfold trim_start. cbn [length trim_start_fuel]. by rewrite step_ascii, Hw. Qed.

Lemma trim_start_blank s : trim_start (" "%byte :: s) = trim_start s.
Proof. unfold trim_start. cbn [length trim_start_fuel]. by rewrite step_ascii. Qed.

Lemma trim_end_graphic s b : Forall (fun b => is_ascii b = true) s -> graphic b = true -> trim_end (s ++ [b]) = s ++ [b].
Proof.
  intros Hs [Hb Hw]%graphic_char. assert (Forall (fun b => is_ascii b = true) (s ++ [b])) as Hall by (apply Forall_app; by repeat constructor).
  unfold trim_end. rewrite chars_ascii by done. rewrite fmap_app, rev_app_distr. cbn [fmap list_fmap rev app drop_whitespace]. rewrite Hw.
  cbn [rev]. rewrite rev_involutive. change [bz b] with (bz <$> [b]). rewrite <- fmap_app. by apply utf8_ascii.
Qed.

(** Text with blanks inside only. *)
Definition tidy (s : list byte) : Prop :=
  Forall (fun b => is_ascii b = true) s /\ (exists b s', s = b :: s' /\ graphic b = true) /\ (exists s' b, s = s' ++ [b] /\ graphic b = true).

Lemma trim_tidy s : tidy s -> trim s = s.
Proof.
  intros (Hs & (b & s' & -> & Hb) & (s'' & c & E & Hc)). unfold trim. rewrite trim_start_graphic by done. rewrite E in *.
  apply Forall_app in Hs as [Hs _]. by apply trim_end_graphic.
Qed.

Lemma trim_blank_graphic s : Forall (fun b => graphic b = true) s -> trim (" "%byte :: s) = s.
Proof. intros Hs. unfold trim. rewrite trim_start_blank. by apply trim_graphic. Qed.

Lemma graphic_ascii s : Forall (fun b => graphic b = true) s -> Forall (fun b => is_ascii b = true) s.
Proof. intros H. eapply Forall_impl; [exact H|]. intros b Hb. by apply graphic_char in Hb as [? _]. Qed.

(** A line [key: value] is read as such. *)
Lemma tidy_line key value : key <> [] -> value <> [] -> Forall (fun b => graphic b = true) key -> Forall (fun b => graphic b = true) value -> tidy (key ++ bs ": " ++ value).
Proof.
  intros Hk Hv Hkey Hval. split; [|split].
  - apply Forall_app. split; [by apply graphic_ascii|]. apply Forall_app. split; [by repeat constructor|by apply graphic_ascii].
  - destruct key as [|b key]; [done|]. exists b, (key ++ bs ": " ++ value). split; [done|]. by apply Forall_cons in Hkey as [? _].
  - destruct value as [|b value _] using rev_ind; [done|]. exists (key ++ bs ": " ++ value), b. rewrite <- !app_assoc. split; [done|].
    apply Forall_app in Hval as [_ [? _]%Forall_cons]. done.
Qed.

Lemma line_break_free s : Forall (fun b => graphic b = true) s -> x0a ∉ s /\ x0d ∉ s.
Proof. intros H. split; intros Hin; by apply (proj1 (Forall_forall _ _) H) in Hin. Qed.

Lemma str_lines_crlf ls : Forall (fun l => x0a ∉ l) ls -> str_lines (concat (map (fun l => l ++ crlf) ls)) = ls.
Proof.
  intros H. unfold str_lines. assert (split_on x0a (concat (map (fun l => l ++ crlf) ls)) = map (fun l => l ++ [x0d]) ls ++ [[]]) as ->.
  { induction H as [|l ls Hl Hls IH]; [done|]. cbn [map concat]. unfold crlf at 1. rewrite <- app_assoc. cbn [app]. rewrite cons_middle, app_assoc.
    rewrite split_on_app; [by rewrite IH|]. rewrite not_elem_of_app. split; [done|]. by intros ?%list_elem_of_singleton. }
  rewrite removelast_last, last_snoc, app_nil_r, map_map. clear H. induction ls as [|l ls IH]; [done|]. cbn [map]. rewrite IH. f_equal.
  unfold drop_cr, strip_suffix. rewrite length_app. cbn [length]. rewrite Nat.add_sub, drop_app_length, take_app_length.
  repeat case_decide; done || lia.
Qed.

(** What a line of its own sets. *)
Definition set_field (f : Fields) (key value : list byte) : Fields + list byte :=
  if bool_decide (key = bs "version") then inl {| f_version := Some value; f_mode := f_mode f; f_mx := f_mx f; f_max_age := f_max_age f |}
  else if bool_decide (key = bs "mode") then
    match mode_parse value with
    | Some m => inl {| f_version := f_version f; f_mode := Some m; f_mx := f_mx f; f_max_age := f_max_age f |}
    | None => inr (bs "unknown mode " ++ [x22] ++ value ++ [x22])
    end
  else if bool_decide (key = bs "mx") then inl {| f_version := f_version f; f_mode := f_mode f; f_mx := f_mx f ++ [mx_name value]; f_max_age := f_max_age f |}
  else if bool_decide (key = bs "max_age") then
    match parse_unsigned u64_max value with
    | Some seconds => inl {| f_version := f_version f; f_mode := f_mode f; f_mx := f_mx f; f_max_age := Some (Z.min seconds MAX_AGE_LIMIT) |}
    | None => inr (bs "max_age " ++ [x22] ++ value ++ [x22] ++ bs " is not a number")
    end
  else inl f.

Lemma parse_field f key value : key <> [] -> value <> [] -> Forall (fun b => graphic b = true) key -> Forall (fun b => graphic b = true) value -> ":"%byte ∉ key ->
  parse_line f (key ++ bs ": " ++ value) = set_field f key value.
Proof.
  intros Hk Hv Hkey Hval Hcolon. unfold parse_line. rewrite trim_tidy by by apply tidy_line. cbv zeta. rewrite bool_decide_false by (by destruct key).
  change (bs ": " ++ value) with (":"%byte :: " "%byte :: value). rewrite split_once_app by done. by rewrite trim_blank_graphic, trim_graphic by done.
Qed.

Definition policy_lines (p : Policy) : list (list byte) :=
  [bs "version: STSv1"; bs "mode: " ++ mode_as_str (mode p)] ++ map (fun name => bs "mx: " ++ name) (mx p) ++ [bs "max_age: " ++ dec (max_age p)].

Lemma to_text_lines p : to_text p = concat (map (fun l => l ++ crlf) (policy_lines p)).
Proof.
  unfold to_text, policy_lines. rewrite !map_app, !concat_app, map_map. cbn [map concat]. rewrite app_nil_r. rewrite <- !app_assoc. do 4 f_equal.
Qed.

(** A policy as it is published: names as [ours] makes them, no longer than a year. *)
Record policy_ok (p : Policy) : Prop := {
  ok_names : Forall (fun name => name <> [] /\ Forall (fun b => graphic b = true) name /\ mx_name name = name) (mx p);
  ok_some : mode p = NoPolicy \/ mx p <> [];
  ok_age : 0 <= max_age p <= MAX_AGE_LIMIT }.

Lemma parse_names names rest f : Forall (fun name => name <> [] /\ Forall (fun b => graphic b = true) name /\ mx_name name = name) names ->
  parse_lines f (map (fun name => bs "mx: " ++ name) names ++ rest) =
  parse_lines {| f_version := f_version f; f_mode := f_mode f; f_mx := f_mx f ++ names; f_max_age := f_max_age f |} rest.
Proof.
  intros H. revert f. induction H as [|name names (Hne & Hg & Hmx) Hnames IH]; intros f; [rewrite app_nil_r; by destruct f|]. cbn [map app parse_lines].
  change (bs "mx: " ++ name) with (bs "mx" ++ bs ": " ++ name). rewrite parse_field; [|done|done|by repeat constructor|done|by apply (bool_decide_unpack (":"%byte ∉ bs "mx"))].
  change (set_field f (bs "mx") name) with (inl (B := list byte) {| f_version := f_version f; f_mode := f_mode f; f_mx := f_mx f ++ [mx_name name]; f_max_age := f_max_age f |}).
  cbv iota beta. rewrite IH, Hmx. cbn. by rewrite <- app_assoc.
Qed.

Lemma mode_round_trip m : mode_parse (mode_as_str m) = Some m.
Proof. by destruct m. Qed.

(** A published policy is read as it was meant: the text senders fetch gives back the
    mode, every name in its order and the age, whatever the policy is. *)
Theorem policy_round_trip p : policy_ok p -> parse (to_text p) = inl p.
Proof.
  intros [Hnames Hsome Hage]. unfold parse. rewrite to_text_lines, str_lines_crlf.
  - unfold policy_lines. cbn [app parse_lines].
    change (parse_line no_fields (bs "version: STSv1")) with (inl (B := list byte) {| f_version := Some (bs "STSv1"); f_mode := None; f_mx := []; f_max_age := None |}).
    cbv iota beta. cbn [parse_lines].
    assert (forall f, parse_line f (bs "mode: " ++ mode_as_str (mode p)) = inl {| f_version := f_version f; f_mode := Some (mode p); f_mx := f_mx f; f_max_age := f_max_age f |}) as ->
      by (intros f; destruct (mode p); vm_compute; reflexivity).
    cbv iota beta. cbn [parse_lines]. rewrite parse_names by done. cbn [f_version f_mode f_mx f_max_age app parse_lines].
    change (bs "max_age: " ++ dec (max_age p)) with (bs "max_age" ++ bs ": " ++ dec (max_age p)). rewrite parse_field.
    + unfold set_field. rewrite !bool_decide_false by done. rewrite bool_decide_true by done. rewrite parse_unsigned_dec by (unfold u64_max; unfold MAX_AGE_LIMIT in Hage; lia).
      cbn [f_version f_mode f_mx f_max_age]. rewrite bool_decide_true by done. cbn [negb]. rewrite Z.min_l by lia.
      destruct Hsome as [Hmode|Hmx].
      * rewrite (bool_decide_true (mode p = NoPolicy)) by done. cbn. by destruct p.
      * rewrite (bool_decide_false (mx p = [])) by done. rewrite andb_false_r. by destruct p.
    + done.
    + apply dec_nonempty.
    + by repeat constructor.
    + eapply Forall_impl; [apply dec_all_digits; lia|]. intros b Hb. revert Hb. by_bytes b.
    + by apply (bool_decide_unpack (":"%byte ∉ bs "max_age")).
  - unfold policy_lines. repeat (apply Forall_app; split).
    + repeat constructor; [by apply (bool_decide_unpack (x0a ∉ bs "version: STSv1"))|]. destruct (mode p); by apply (bool_decide_unpack (x0a ∉ _)).
    + apply Forall_forall. intros l (name & -> & Hin)%list_elem_of_fmap. apply (proj1 (Forall_forall _ _) Hnames) in Hin as (_ & Hg & _).
      apply not_elem_of_app. split; [by apply (bool_decide_unpack (x0a ∉ bs "mx: "))|by apply line_break_free].
    + repeat constructor. apply not_elem_of_app. split; [by apply (bool_decide_unpack (x0a ∉ bs "max_age: "))|].
      intros Hin. apply (proj1 (Forall_forall _ _) (dec_all_digits (max_age p) ltac:(lia))) in Hin. done.
Qed.

Lemma policy_round_trip_witness :
  let p := ours true [bs "Mail.Example.org."; bs "*.mx.example.org"] in
  parse (to_text p) = inl p /\ mx p = [bs "mail.example.org"; bs "*.mx.example.org"] /\ allows p (bs "a.mx.example.org.") = true.
Proof.
  cbv zeta. split; [|split; vm_compute; reflexivity]. apply policy_round_trip. split.
  - apply (bool_decide_unpack (Forall (fun name => name <> [] /\ Forall (fun b => graphic b = true) name /\ mx_name name = name) _)). vm_compute. exact I.
  - right. vm_compute. discriminate.
  - vm_compute. split; discriminate.
Defined.

(** ** A policy cannot be made to disappear *)

(** C35: Who stands between this server and a domain's DNS and web server cannot take a
    known policy away (RFC 8461, section 5.1). Until it expires, a policy that was kept
    holds, whatever the TXT record is or is not, whatever the web server answers or
    whatever breaks; only another well-formed policy, announced by another id and fetched
    over HTTPS, takes its place, in this delivery and, when the store can write it, in later
    ones. This server's own store must give the kept policy: one that cannot be read counts
    as none. *)
Theorem no_downgrade now c writable id fetched certificate : expired c now = false ->
  let '(found, kept) := policy_for now true writable (Some c) id fetched certificate in
  (policy found = Some (of_cached c) /\ kept = Some c) \/
  (exists i f p, id = Some i /\ i <> c_policy_id c /\ fetched = inl f /\ read_fetched f = inl p /\ policy found = Some p /\
     if writable : bool then of_cached <$> kept = Some {| mode := mode p; mx := mx p; max_age := Z.max (max_age p) 0 |} else kept = Some c).
Proof.
  intros Hc. unfold policy_for. cbn [mbind option_bind]. rewrite Hc. destruct id as [i|]; [|by left]. cbn [mbind option_bind]. case_bool_decide as Hid; [by left|].
  destruct fetched as [f|e]; [|by left]. destruct (read_fetched f) as [p|] eqn:Hp; [|by left]. right. exists i, f, p. split; [done|]. split; [congruence|].
  do 3 (split; [done|]). destruct writable; [|done]. cbn. unfold of_cached. cbn. by rewrite mode_round_trip.
Qed.

Definition kept_policy : CachedStsPolicy :=
  {| c_policy_id := bs "20260101"; c_mode := bs "enforce"; c_mx := [bs "mail.example.org"]; c_max_age := 604800; c_fetched_at := 0 |}.

(** The record is gone and the web server serves something else: the policy still holds. *)
Lemma no_downgrade_witness :
  expired kept_policy 3600 = false
  /\ (let '(found, kept) := policy_for 3600 true true (Some kept_policy) None (inr (bs "connection refused")) (fun _ => false) in
      (policy found = Some (of_cached kept_policy) /\ kept = Some kept_policy) \/
      (exists i f p, None = Some i /\ i <> c_policy_id kept_policy /\ inr (A := Fetched) (bs "connection refused") = inl f /\ read_fetched f = inl p /\ policy found = Some p /\
        of_cached <$> kept = Some {| mode := mode p; mx := mx p; max_age := Z.max (max_age p) 0 |})).
Proof. split; [vm_compute; reflexivity|]. apply (no_downgrade 3600 kept_policy true None (inr (bs "connection refused")) (fun _ => false)). vm_compute. reflexivity. Defined.
End MtaSts.
