(* ===== verification/Microsoft.v ===== *)
(** * What Microsoft's mail servers answer (crates\/uwumail-smtp\/src\/microsoft.rs)

    Telling their refusals apart: block lists, bans, throttling, failed authentication.
    The worker holds mail back on what [holds] says. *)

From S2P Require Import Prelude Utf8 Network Address ImapSearch.

Module Microsoft.

Definition MICROSOFT_HOSTS : list (list byte) :=
  [bs "protection.outlook.com"; bs "outlook.com"; bs "hotmail.com"; bs "protection.office365.us"; bs "partner.outlook.cn"].

Definition has_suffix (suffix s : list byte) : bool := bool_decide (is_Some (strip_suffix suffix s)).

Definition is_microsoft_host (host : list byte) : bool :=
  let host := to_ascii_lowercase (trim_end_byte "."%byte host) in
  existsb (fun suffix => bool_decide (host = suffix) || has_suffix (bs "." ++ suffix) host) MICROSOFT_HOSTS.

Inductive IssueKind := Blocked | Throttled | Authentication.
Inductive IssueScope := Ip | Domain.

Module Group.
Inductive IssueGroup := BlockList | Banned | IpRefused | Throttled | Authentication | Dmarc.
End Group.
Abbreviation IssueGroup := Group.IssueGroup.

#[export] Instance IssueGroup_eq_dec : EqDecision IssueGroup.
Proof. solve_decision. Defined.

Definition group_as_str (g : IssueGroup) : list byte :=
  match g with
  | Group.BlockList => bs "blockList" | Group.Banned => bs "banned" | Group.IpRefused => bs "ipRefused"
  | Group.Throttled => bs "throttled" | Group.Authentication => bs "authentication" | Group.Dmarc => bs "dmarc"
  end.

Definition group_parse (value : list byte) : option IssueGroup :=
  List.find (fun g => bool_decide (group_as_str g = value))
    [Group.BlockList; Group.Banned; Group.IpRefused; Group.Throttled; Group.Authentication; Group.Dmarc].

Definition group_kind (g : IssueGroup) : IssueKind :=
  match g with
  | Group.BlockList | Group.Banned | Group.IpRefused => Blocked
  | Group.Throttled => Throttled
  | Group.Authentication | Group.Dmarc => Authentication
  end.

Definition group_scope (g : IssueGroup) : IssueScope := match g with Group.Authentication | Group.Dmarc => Domain | _ => Ip end.

Record Refusal := { refusal_group : IssueGroup; code : list byte; ip : option IpAddr }.

Definition ends_token (c : Z) : bool := is_whitespace c || existsb (fun b => c =? bz b) (bs ",;()[]").

(** [trim_end_matches] of dots and colons. *)
Fixpoint skip_stops (s : list byte) : list byte :=
  match s with b :: s' => if decide (b = "."%byte \/ b = ":"%byte) then skip_stops s' else s | [] => [] end.
Definition trim_stops (s : list byte) : list byte := rev (skip_stops (rev s)).

Definition status_code (token : list byte) : option (Z * Z * Z) :=
  match split_on "."%byte (trim_stops token) with
  | [class; subject; detail] =>
      class ← parse_unsigned 255 class;
      if negb (existsb (Z.eqb class) [2; 4; 5]) || (3 <? length subject)%nat || (3 <? length detail)%nat then None
      else subject ← parse_unsigned 65535 subject; detail ← parse_unsigned 65535 detail; Some (class, subject, detail)
  | _ => None
  end.

Definition status_codes (text : list byte) : list (Z * Z * Z) := omap status_code (split_chars ends_token text).

Definition s_token (token : list byte) : option (list byte) :=
  digits ← strip_prefix (bs "S") token;
  if ((3 <=? length digits)%nat && (length digits <=? 4)%nat) && forallb is_ascii_digit digits then Some token else None.

Definition s_code (text : list byte) : option (list byte) := find_map s_token (split_test (fun b => negb (is_ascii_alphanumeric b)) text).

Definition bracketed_ip (text : list byte) : option IpAddr :=
  find_map (fun rest => inside ← head (split_on "]"%byte rest); parse_ip (trim inside)) (tail (split_on "["%byte text)).

Definition sounds_like_microsoft (lower : list byte) : bool :=
  existsb (fun sign => has_substring sign lower)
    [bs "outlook.com"; bs "hotmail.com"; bs "microsoft"; bs "exchangelabs"; bs "office365"; bs "outlook.cn"; bs "live.com"].

(** The codes of Microsoft's own block lists. *)
Definition block_list_code (code : option (list byte)) : option (list byte) :=
  code ← code; if existsb (fun c => bool_decide (c = code)) [bs "S3150"; bs "S3140"; bs "S3115"] then Some code else None.

Definition group_of_status (s : Z * Z * Z) : option IssueGroup :=
  let '(class, subject, detail) := s in
  if negb (subject =? 7) then None
  else if class =? 4 then if existsb (Z.eqb detail) [650; 500] then Some Group.Throttled else None
  else if class =? 5 then
    if detail =? 515 then Some Group.Authentication
    else if detail =? 509 then Some Group.Dmarc
    else if existsb (Z.eqb detail) [511; 606] then Some Group.Banned
    else if (600 <=? detail) && (detail <=? 799) then Some Group.IpRefused
    else None
  else None.

Definition show_status (s : Z * Z * Z) : list byte := let '(class, subject, detail) := s in dec class ++ bs "." ++ dec subject ++ bs "." ++ dec detail.

Definition classify (reply : list byte) (from_microsoft : bool) : option Refusal :=
  let lower := to_ascii_lowercase reply in
  let s := s_code reply in
  if negb from_microsoft && negb (sounds_like_microsoft lower) && negb (bool_decide (is_Some (block_list_code s))) then None
  else
    let address := bracketed_ip reply in
    let codes := status_codes reply in
    let refusal g c := Some {| refusal_group := g; code := c; ip := address |} in
    match block_list_code s with
    | Some c => refusal Group.BlockList c
    | None =>
        match find_map (fun st => g ← group_of_status st; Some (g, show_status st)) codes with
        | Some (g, c) => refusal g c
        | None =>
            let first fallback := match codes with st :: _ => show_status st | [] => fallback end in
            if existsb (fun st => bool_decide (st = (5, 7, 1))) codes
               && existsb (fun w => has_substring w lower) [bs "block list"; bs "blocklist"; bs "blocked using"; bs "banned sender"; bs "blacklist"]
            then refusal Group.BlockList (bs "5.7.1")
            else if has_substring (bs "banned sender") lower then refusal Group.Banned (first (bs "5.7.511"))
            else if starts_with (bs "4") reply && (has_substring (bs "rate limited") lower || has_substring (bs "temporarily rate limit") lower)
            then refusal Group.Throttled (first (bs "4.7.650"))
            else None
        end
    end.

Definition holds (reply : list byte) : bool :=
  match classify reply true with Some r => match group_kind (refusal_group r) with Blocked => true | _ => false end | None => false end.

Example block_lists :
  let reply := bs "550 5.7.1 Unfortunately, messages from [203.0.113.5] weren't sent. part of their network is on our block list (S3150)." in
  refusal_group <$> classify reply true = Some Group.BlockList /\ code <$> classify reply false = Some (bs "S3150")
  /\ (r ← classify reply true; ip r) = Some (V4 (((203 * 256 + 0) * 256 + 113) * 256 + 5)) /\ holds reply = true
  /\ classify (bs "550 5.1.1 unknown user") true = None
  /\ refusal_group <$> classify (bs "451 4.7.650 The mail server [203.0.113.5] has been temporarily rate limited") true = Some Group.Throttled.
Proof. vm_compute. done. Qed.

Example hosts :
  is_microsoft_host (bs "hotmail-com.olc.protection.outlook.com.") = true /\ is_microsoft_host (bs "mx1.hotmail.com") = true
  /\ is_microsoft_host (bs "notoutlook.com") = false.
Proof. vm_compute. done. Qed.

Lemma group_parse_as_str g : group_parse (group_as_str g) = Some g.
Proof. by destruct g; vm_compute. Qed.

(** Who is not a Microsoft server cannot say it: only their words, or their block lists'
    codes, count. *)
Lemma classify_from_others reply r : classify reply false = Some r ->
  sounds_like_microsoft (to_ascii_lowercase reply) = true \/ is_Some (block_list_code (s_code reply)).
Proof.
  unfold classify. cbn [negb andb]. destruct (sounds_like_microsoft _); [by left|]. cbn [negb].
  case_bool_decide; [by right|done].
Qed.
End Microsoft.
