(* ===== verification/Queue.v ===== *)
(** * The delivery queue in the store (crates\/uwumail-store\/src\/queue.rs)

    Messages that wait for other servers, their recipients, and what was refused. The
    state is the three tables; every method is one transaction, but for marking a recipient as
    failed, which is two ([mark_refused], [note_refused]). SQLite's part is what its
    documentation says: a new row gets an id no row has ([new_rowid], of each table), and
    of the rows a LIMIT leaves out, none comes before one it takes ([picks]). Blobs, the
    accounts and their suspensions are arguments. *)

From S2P Require Import Prelude Utf8 Address.

Module Queue.

Definition REFUSED_KEPT_SECS : Z := 30 * 24 * 3600.
Definition REFUSED_KEPT_ROWS : Z := 5000.
Definition REFUSED_COPY_MAX_BYTES : Z := 10 * 1024 * 1024.
Definition REFUSED_ERROR_MAX_CHARS : nat := 500.

Inductive QueueRecipientStatus := Pending | Delivered | Failed.

#[export] Instance QueueRecipientStatus_eq_dec : EqDecision QueueRecipientStatus.
Proof. solve_decision. Defined.

Record NewQueueRecipient := { n_address : list byte; n_notify_flags : Z; n_orcpt : option (list byte) }.

Record QueueRecipient := {
  message_id : Z; address : list byte; domain : list byte; status : QueueRecipientStatus; attempts : Z; next_attempt_at : Z;
  last_error : option (list byte); notify_flags : Z; orcpt : option (list byte) }.

Record QueuedMessage := {
  blob : list byte; return_path : list byte; account_id : option Z; size : Z; env_id : option (list byte); created_at : Z; expires_at : Z }.

(** A row of [refused_deliveries]. *)
Record Refused := {
  at_ : Z; sender : list byte; recipient : list byte; error : list byte; gave_up : bool; kept : option (list byte); r_account : option Z;
  r_env_id : option (list byte); r_notify_flags : Z; r_orcpt : option (list byte); lifetime : Z }.

Record Db := { messages : gmap Z QueuedMessage; recipients : gmap Z QueueRecipient; refused : gmap Z Refused }.

(** A message and those of its recipients that are to be tried, with their ids. *)
Record QueueEntry := { entry_message : Z; message : QueuedMessage; entry_recipients : list (Z * QueueRecipient) }.

(** [Database]: SQLite itself failed. *)
Inductive StoreError := Invalid (text : list byte) | NotFound (id : Z) | Database.

(** ** Refusals *)

(** The list Microsoft names in parentheses, as [(S3150)]. *)
Definition microsoft_list (error : list byte) : option (list byte) :=
  find_map (fun rest =>
    match split_once ")"%byte rest with
    | Some (inside, _) =>
        match inside with
        | "S"%byte :: digits => if (1 <? length inside)%nat && forallb is_ascii_digit digits then Some inside else None
        | _ => None
        end
    | None => None
    end) (tail (split_on "("%byte error)).

Definition refusal_cause (recipient error : list byte) : list byte :=
  let code := w ← head (split_whitespace error); if (length w =? 3)%nat && forallb is_ascii_digit w then Some w else None in
  let enhanced := _ ← code; w ← split_whitespace error !! 1%nat; if (length (split_on "."%byte w) =? 3)%nat then Some w else None in
  let code := default [] code ++ bs " " ++ default [] enhanced in
  let domain := match rsplit_once "@"%byte recipient with Some (_, domain) => domain | None => recipient end in
  let microsoft := existsb (fun p => starts_with p domain) [bs "hotmail."; bs "outlook."; bs "live."; bs "msn."] in
  match (if microsoft then microsoft_list error else None) with
  | Some l => code ++ bs " " ++ l
  | None => code ++ bs " @" ++ domain
  end.

Section queue.
Context (normalize : list byte -> option (list byte * list byte)).
Context (new_message : gmap Z QueuedMessage -> Z) (new_recipient : gmap Z QueueRecipient -> Z) (new_refused : gmap Z Refused -> Z).

Definition with_messages ms db := {| messages := ms; recipients := recipients db; refused := refused db |}.
Definition with_recipients rs db := {| messages := messages db; recipients := rs; refused := refused db |}.
Definition with_refused rs db := {| messages := messages db; recipients := recipients db; refused := rs |}.

(** ** Into the queue *)

Definition insert_message (m : QueuedMessage) (db : Db) : Z * Db :=
  let i := new_message (messages db) in (i, with_messages (<[i := m]> (messages db)) db).

Definition insert_recipient (r : QueueRecipient) (db : Db) : Db :=
  with_recipients (<[new_recipient (recipients db) := r]> (recipients db)) db.

(** [status] and [attempts] by their defaults. *)
Definition fresh_recipient (id : Z) (address domain : list byte) (now flags : Z) (orcpt : option (list byte)) : QueueRecipient :=
  {| message_id := id; address := address; domain := domain; status := Pending; attempts := 0; next_attempt_at := now; last_error := None;
     notify_flags := flags; orcpt := orcpt |}.

Definition insert_fresh (id now : Z) (db : Db) (n : (list byte * list byte) * NewQueueRecipient) : Db :=
  let '((local, domain), r) := n in
  insert_recipient (fresh_recipient id (address_of (local, domain)) domain now (n_notify_flags r) (n_orcpt r)) db.

(** Every address in its one form, or none at all. *)
Definition normalized (rs : list NewQueueRecipient) : option (list ((list byte * list byte) * NewQueueRecipient)) :=
  mapM (fun r => p ← normalize (n_address r); Some (p, r)) rs.

Definition enqueue (now : Z) (return_path : list byte) (rs : list NewQueueRecipient) (blob : list byte) (size : Z) (account : option Z)
    (env_id : option (list byte)) (lifetime_secs : Z) (db : Db) : (Z + StoreError) * Db :=
  match rs with
  | [] => (inr (Invalid (bs "a queued message needs recipients")), db)
  | _ =>
      match normalized rs with
      | None => (inr (Invalid (bs "not an email address")), db)
      | Some ns =>
          let m := {| blob := blob; return_path := return_path; account_id := account; size := size; env_id := env_id;
                      created_at := now; expires_at := now + lifetime_secs |} in
          let '(id, db) := insert_message m db in
          (inl id, foldl (insert_fresh id now) db ns)
      end
  end.

(** ** Out to the worker *)

Definition due (now : Z) (r : QueueRecipient) : bool := bool_decide (status r = Pending) && (next_attempt_at r <=? now).

(** The recipients a claim takes: due ones, at most [limit], and all of them or those that
    were due first. *)
Record picks (now : Z) (limit : nat) (chosen : list Z) (db : Db) : Prop := {
  picks_nodup : NoDup chosen;
  picks_due : forall i, i ∈ chosen -> exists r, recipients db !! i = Some r /\ due now r = true;
  picks_limit : (length chosen <= limit)%nat;
  picks_first : forall j s, recipients db !! j = Some s -> due now s = true -> j ∉ chosen ->
    length chosen = limit /\ forall i r, i ∈ chosen -> recipients db !! i = Some r -> next_attempt_at r <= next_attempt_at s }.

Definition leased (until : Z) (r : QueueRecipient) : QueueRecipient :=
  {| message_id := message_id r; address := address r; domain := domain r; status := status r; attempts := attempts r; next_attempt_at := until;
     last_error := last_error r; notify_flags := notify_flags r; orcpt := orcpt r |}.

Definition lease_one (until : Z) (db : Db) (i : Z) : Db := with_recipients (alter (leased until) i (recipients db)) db.

(** With the other recipients of the same message. *)
Fixpoint add_to_entries (m : QueuedMessage) (i : Z) (r : QueueRecipient) (entries : list QueueEntry) : list QueueEntry :=
  match entries with
  | [] => [{| entry_message := message_id r; message := m; entry_recipients := [(i, r)] |}]
  | e :: entries =>
      if entry_message e =? message_id r
      then {| entry_message := entry_message e; message := message e; entry_recipients := entry_recipients e ++ [(i, r)] |} :: entries
      else e :: add_to_entries m i r entries
  end.

Definition add_claimed (db : Db) (entries : list QueueEntry) (i : Z) : list QueueEntry :=
  match recipients db !! i with
  | Some r => match messages db !! message_id r with Some m => add_to_entries m i r entries | None => entries end
  | None => entries
  end.

Definition claim_due_deliveries (now lease_secs : Z) (chosen : list Z) (db : Db) : list QueueEntry * Db :=
  let db := foldl (lease_one (now + lease_secs)) db chosen in
  (foldl (add_claimed db) [] chosen, db).

Definition next_queue_attempt_at (db : Db) : option Z :=
  map_fold (fun _ r least => if bool_decide (status r = Pending) then Some (match least with Some l => Z.min l (next_attempt_at r) | None => next_attempt_at r end) else least)
    None (recipients db).

(** ** Outcomes *)

Definition marked (s : QueueRecipientStatus) (text : option (list byte)) (next : option Z) (r : QueueRecipient) : QueueRecipient :=
  {| message_id := message_id r; address := address r; domain := domain r; status := s; attempts := attempts r + 1;
     next_attempt_at := default (next_attempt_at r) next; last_error := text; notify_flags := notify_flags r; orcpt := orcpt r |}.

Definition update_recipient (i : Z) (s : QueueRecipientStatus) (text : option (list byte)) (next : option Z) (db : Db) : (unit + StoreError) * Db :=
  match recipients db !! i with
  | None => (inr (NotFound i), db)
  | Some r => (inl tt, with_recipients (<[i := marked s text next r]> (recipients db)) db)
  end.

(** The characters a text begins with. *)
Definition take_chars (n : nat) (s : list byte) : list byte := match chars s with Some cs => utf8 (take n cs) | None => s end.

Definition highest (rs : gmap Z Refused) : option Z := map_fold (fun i _ m => Some (match m with Some m => Z.max m i | None => i end)) None rs.

(** Old ones go, and all but the newest. *)
Definition prune (now : Z) (rs : gmap Z Refused) : gmap Z Refused :=
  let young := filter (fun ir => now - REFUSED_KEPT_SECS <= at_ ir.2) rs in
  match highest young with
  | Some top => filter (fun ir => top - REFUSED_KEPT_ROWS < ir.1) young
  | None => young
  end.

(** [owned]: the sender is an address of the account, which is not in the trash. *)
Definition note_refused (now : Z) (i : Z) (text : list byte) (given_up owned : bool) (db : Db) : Db :=
  let noted :=
    match r ← recipients db !! i; m ← messages db !! message_id r; Some (r, m) with
    | Some (r, m) =>
        <[new_refused (refused db) :=
            {| at_ := now; sender := return_path m; recipient := address r; error := take_chars REFUSED_ERROR_MAX_CHARS text; gave_up := given_up;
               kept := if owned && (size m <=? REFUSED_COPY_MAX_BYTES) then Some (blob m) else None; r_account := account_id m;
               r_env_id := env_id m; r_notify_flags := notify_flags r; r_orcpt := orcpt r; lifetime := expires_at m - created_at m |}]> (refused db)
    | None => refused db
    end in
  with_refused (prune now noted) db.

Definition mark_recipient_delivered (i : Z) (response : list byte) (db : Db) : (unit + StoreError) * Db :=
  update_recipient i Delivered (Some response) None db.

Definition mark_recipient_deferred (i : Z) (text : list byte) (next : Z) (db : Db) : (unit + StoreError) * Db :=
  update_recipient i Pending (Some text) (Some next) db.

(** Refused outright, or put off until the message expired: two transactions. This is the
    first; when it went well, [note_refused] is called with what is returned here. *)
Definition mark_refused (given_up : bool) (i : Z) (text : list byte) (db : Db) : ((list byte * bool) + StoreError) * Db :=
  match update_recipient i Failed (Some text) None db with
  | (inl _, db) => (inl (text, given_up), db)
  | (inr e, db) => (inr e, db)
  end.

Definition mark_recipient_failed := mark_refused false.
Definition mark_recipient_given_up := mark_refused true.

(** [ON DELETE CASCADE] *)
Definition drop_message (id : Z) (db : Db) : Db :=
  {| messages := delete id (messages db); recipients := filter (fun ir => message_id ir.2 <> id) (recipients db); refused := refused db |}.

Definition pending_of (id : Z) (db : Db) : nat :=
  length (List.filter (fun ir => (message_id ir.2 =? id) && bool_decide (status ir.2 = Pending)) (map_to_list (recipients db))).

Definition complete_queue_message (id : Z) (db : Db) : bool * Db :=
  if (0 <? pending_of id db)%nat then (false, db) else (true, drop_message id db).

(** ** What an admin does *)

Definition retry_queue_message (now id : Z) (db : Db) : (unit + StoreError) * Db :=
  if (0 <? pending_of id db)%nat
  then (inl tt, with_recipients ((fun r => if (message_id r =? id) && bool_decide (status r = Pending) then leased now r else r) <$> recipients db) db)
  else (inr (NotFound id), db).

Definition delete_queue_message (id : Z) (db : Db) : (unit + StoreError) * Db :=
  match messages db !! id with Some _ => (inl tt, drop_message id db) | None => (inr (NotFound id), db) end.

Definition clear_refused_deliveries (db : Db) : nat * Db := (base.size (refused db), with_refused ∅ db).

Record RefusedResend := { resent : nat; dropped : nat; skipped : nat }.

(** [may_send]: the account is there and not suspended. [blob_size]: of a blob that is still
    there. *)
Definition resend_one (now : Z) (may_send : Z -> bool) (blob_size : list byte -> option Z) (cause : list byte)
    (acc : RefusedResend * Db) (row : Z * Refused) : RefusedResend * Db :=
  let '(outcome, db) := acc in
  let '(i, r) := row in
  let account := a ← r_account r; if may_send a then Some a else None in
  let gone db := with_refused (delete i (refused db)) db in
  let drop := ({| resent := resent outcome; dropped := dropped outcome + 1; skipped := skipped outcome |}, gone db) in
  if negb (bool_decide (refusal_cause (recipient r) (error r) = cause)) then acc
  else
    match kept r, account with
    | Some _, None => ({| resent := resent outcome; dropped := dropped outcome; skipped := skipped outcome + 1 |}, db)
    | Some b, Some a =>
        match blob_size b with
        | Some s =>
            let '(id, db) := insert_message {| blob := b; return_path := sender r; account_id := Some a; size := s; env_id := r_env_id r;
                                               created_at := now; expires_at := now + Z.max (lifetime r) 3600 |} db in
            let domain := match rsplit_once "@"%byte (recipient r) with Some (_, domain) => domain | None => [] end in
            ({| resent := resent outcome + 1; dropped := dropped outcome; skipped := skipped outcome |},
             gone (insert_recipient (fresh_recipient id (recipient r) domain now (r_notify_flags r) (r_orcpt r)) db))
        | None => drop
        end
    | None, _ => drop
    end.

(** [rows]: those of the last 30 days, in whatever order SQLite gives them. *)
Definition resend_refused (now : Z) (may_send : Z -> bool) (blob_size : list byte -> option Z) (rows : list (Z * Refused)) (id : Z) (db : Db)
    : (RefusedResend + StoreError) * Db :=
  match List.find (fun row => row.1 =? id) rows with
  | None => (inr (NotFound id), db)
  | Some (_, fixed) =>
      let '(outcome, db) := foldl (resend_one now may_send blob_size (refusal_cause (recipient fixed) (error fixed)))
                                  ({| resent := 0; dropped := 0; skipped := 0 |}, db) rows in
      (inl outcome, db)
  end.
End queue.

Example causes :
  let s3150 := bs "550 5.7.1 part of their network is on our block list (S3150). [AGT=PFA]" in
  refusal_cause (bs "a@hotmail.com") s3150 = refusal_cause (bs "b@outlook.com") s3150
  /\ refusal_cause (bs "a@example.com") s3150 = bs "550 5.7.1 @example.com"
  /\ refusal_cause (bs "a@example.com") (bs "connection refused") = refusal_cause (bs "b@example.com") (bs "timed out").
Proof. vm_compute. done. Qed.
End Queue.
