(* ===== verification/Delivery.v ===== *)
(** * The delivery worker (crates\/uwumail-smtp\/src\/outbound.rs)

    [run_queue] claims due recipients and starts an attempt for each domain of a message;
    [deliver_group] is such an attempt: it hands the message over, marks every recipient,
    and clears the queue. What other servers say is the argument [answers]. Attempts run
    beside each other, beside the worker and beside whoever uses the queue: every
    transaction of the store, and every use of the set of recipients in flight, is a step. *)

From S2P Require Import Prelude Utf8 SmtpClient Microsoft Queue.
Import Queue.

Module Delivery.

Definition LEASE_SECS : Z := 3600.
Definition CLAIM : nat := 200.
Definition HOLD_SECS : Z := 48 * 3600.
Definition HOLD_RETRY_SECS : Z := 45 * 60.

(** ** Outcomes *)

Inductive Outcome := ODelivered (reply : list byte) | ODeferred (error : list byte) | OFailed (error : list byte) | OHeld (error : list byte).

Definition from_reply (r : Client.Reply) : Outcome :=
  if Client.is_positive r then ODelivered (Client.to_string r)
  else if Client.is_permanent r then OFailed (Client.to_string r) else ODeferred (Client.to_string r).

(** [MicrosoftWatch::outcome]; [microsoft]: the session is with one of their hosts. *)
Definition watch_outcome (microsoft : bool) (r : Client.Reply) : Outcome :=
  if microsoft && Client.is_permanent r && Microsoft.holds (Client.to_string r) then OHeld (Client.to_string r) else from_reply r.

(** [dsn::status_code] *)
Definition status_token (token : list byte) : bool :=
  match split_on "."%byte token with
  | [a; b; c] =>
      existsb (fun d => bool_decide (a = d)) [bs "2"; bs "4"; bs "5"]
      && forallb (fun p => negb (bool_decide (p = [])) && (length p <=? 3)%nat && forallb is_ascii_digit p) [b; c]
  | _ => false
  end.

Definition status_code (error : list byte) : list byte :=
  default (bs "5.0.0") (List.find status_token (split_chars (fun c => is_whitespace c || (c =? bz ",") || (c =? bz ";")) error)).

Definition is_unknown_user (error : list byte) : bool :=
  existsb (fun c => bool_decide (c = status_code error)) [bs "5.1.0"; bs "5.1.1"; bs "5.1.10"].

Definition STEPS : list Z := [300; 900; 1800; 3600; 7200; 10800; 21600].

Definition retry_delay (attempt : Z) : Z := default 0 (STEPS !! Nat.min (Z.to_nat (Z.max attempt 1) - 1) (length STEPS - 1)).

(** [held_inside]: what the store says of the account, or why it fails. *)
Definition held_inside (account : option Z) (internal_only : bool + list byte) (recipients : list (Z * QueueRecipient)) : option (list Outcome) :=
  match account with
  | None => None
  | Some _ =>
      match internal_only with
      | inl false => None
      | inl true =>
          Some (map (fun ir => OFailed (bs "550 5.7.1 <" ++ address ir.2 ++ bs ">: This account may only send to addresses on this server")) recipients)
      | inr err => Some (map (fun _ => ODeferred (bs "451 4.3.0 " ++ err)) recipients)
      end
  end.

(** What an attempt comes to, and whether the other side had its say. *)
Definition outcomes_of (content_there : bool) (account : option Z) (internal_only : bool + list byte) (answers : list Outcome)
    (recipients : list (Z * QueueRecipient)) : bool * list Outcome :=
  if content_there then
    match held_inside account internal_only recipients with
    | Some outcomes => (false, outcomes)
    | None => (true, answers)
    end
  else (false, map (fun _ => OFailed (bs "the message content was lost")) recipients).

Record FailedRecipient := { f_address : list byte; f_error : list byte }.

(** Whom the sender is told about, and whether an address was not known. *)
Record Notes := { failed : list FailedRecipient; delayed : list FailedRecipient; unknown_user : bool }.

Section worker.
(** The flags of smtp-proto. *)
Context (RCPT_NOTIFY_NEVER RCPT_NOTIFY_DELAY : Z).
Context (new_refused : gmap Z Refused -> Z).

(** A write of the store: when SQLite fails, nothing is changed. *)
Definition written {A} (broken : bool) (write : Db -> (A + StoreError) * Db) (db : Db) : (A + StoreError) * Db :=
  if broken then (inr Database, db) else write db.

(** What is left to note of a refusal: the text, and whether it was given up. An error of the
    store is only logged. *)
Definition to_note (r : ((list byte * bool) + StoreError) * Db) : option (list byte * bool) * Db :=
  (match r.1 with inl refusal => Some refusal | inr _ => None end, r.2).

Definition first_hold (r : QueueRecipient) : bool := negb (match last_error r with Some e => Microsoft.holds e | None => false end).
Definition wants_delay (r : QueueRecipient) : bool := (notify_flags r =? 0) || negb (Z.land (notify_flags r) RCPT_NOTIFY_DELAY =? 0).

(** The recipient of an attempt is marked: the sender's notes, what [note_refused] is to
    write in a transaction of its own, and the queue. *)
Definition mark_one (now : Z) (broken : bool) (m : QueuedMessage) (i : Z) (r : QueueRecipient) (o : Outcome) (notes : Notes) (db : Db)
    : Notes * (option (list byte * bool) * Db) :=
  let this e := {| f_address := address r; f_error := e |} in
  let hold_until := Z.min (expires_at m) (created_at m + HOLD_SECS) in
  let fails e :=
    ({| failed := failed notes ++ (if Z.land (notify_flags r) RCPT_NOTIFY_NEVER =? 0 then [this e] else []); delayed := delayed notes;
        unknown_user := unknown_user notes || is_unknown_user e |},
     to_note (written broken (mark_recipient_failed i e) db)) in
  match o with
  | ODelivered reply => (notes, (None, (written broken (mark_recipient_delivered i reply) db).2))
  | ODeferred e =>
      let next := now + retry_delay (attempts r + 1) in
      if expires_at m <? next then
        ({| failed := failed notes ++ [this e]; delayed := delayed notes; unknown_user := unknown_user notes |},
         to_note (written broken (mark_recipient_given_up i e) db))
      else (notes, (None, (written broken (mark_recipient_deferred i e next) db).2))
  | OHeld e =>
      if now + HOLD_RETRY_SECS <=? hold_until then
        ({| failed := failed notes; delayed := delayed notes ++ (if first_hold r && wants_delay r then [this e] else []); unknown_user := unknown_user notes |},
         (None, (written broken (mark_recipient_deferred i e (now + HOLD_RETRY_SECS)) db).2))
      else fails e
  | OFailed e => fails e
  end.

(** ** The worker *)

(** [BTreeMap::entry(..).or_default().push(..)] *)
Fixpoint add_to_domain (ir : Z * QueueRecipient) (groups : list (list byte * list (Z * QueueRecipient))) : list (list byte * list (Z * QueueRecipient)) :=
  match groups with
  | [] => [(domain ir.2, [ir])]
  | (d, g) :: groups =>
      if bool_decide (d = domain ir.2) then (d, g ++ [ir]) :: groups
      else if bytes_le (domain ir.2) d then (domain ir.2, [ir]) :: (d, g) :: groups
      else (d, g) :: add_to_domain ir groups
  end.

Definition by_domain (rs : list (Z * QueueRecipient)) : list (list byte * list (Z * QueueRecipient)) :=
  foldl (fun groups ir => add_to_domain ir groups) [] rs.

(** [filter(|r| inflight.insert(r.id))] *)
Fixpoint take_off (rs : list (Z * QueueRecipient)) (inflight : gset Z) : list (Z * QueueRecipient) * gset Z :=
  match rs with
  | [] => ([], inflight)
  | ir :: rs =>
      if bool_decide (ir.1 ∈ inflight) then take_off rs inflight
      else let '(kept, inflight) := take_off rs ({[ir.1]} ∪ inflight) in (ir :: kept, inflight)
  end.

(** What an attempt has left to do: to hand over, to mark who is left, to note that one was
    refused and go on marking, or to clear up. *)
Inductive Phase :=
  | Sending
  | Marking (content_there : bool) (todo : list ((Z * QueueRecipient) * Outcome)) (notes : Notes)
  | Noting (i : Z) (refusal : list byte * bool) (content_there : bool) (todo : list ((Z * QueueRecipient) * Outcome)) (notes : Notes)
  | Left.

Record Task := { t_id : Z; t_message : QueuedMessage; t_recipients : list (Z * QueueRecipient); phase : Phase }.

Definition at_phase (p : Phase) (t : Task) : Task := {| t_id := t_id t; t_message := t_message t; t_recipients := t_recipients t; phase := p |}.

Definition no_notes : Notes := {| failed := []; delayed := []; unknown_user := false |}.

Definition tasks_of (e : QueueEntry) (rs : list (Z * QueueRecipient)) : list Task :=
  map (fun g => {| t_id := entry_message e; t_message := message e; t_recipients := g.2; phase := Sending |}) (by_domain rs).

(** The queue, the clock, the recipients in flight, what the worker claimed and has not
    started, the attempts under way, and what senders were told: bounces, and delays. Behind
    them, the ids that were ever given to a recipient, and for whom attempts were made. *)
Record S := {
  db : Db; clock : Z; inflight : gset Z; claimed : list QueueEntry; tasks : list Task;
  told : list (list byte * list FailedRecipient * list FailedRecipient); used : gset Z; tries : list Z }.

Definition with_db d s :=
  {| db := d; clock := clock s; inflight := inflight s; claimed := claimed s; tasks := tasks s; told := told s;
     used := used s ∪ dom (recipients d); tries := tries s |}.
Definition with_tasks ts s :=
  {| db := db s; clock := clock s; inflight := inflight s; claimed := claimed s; tasks := ts; told := told s; used := used s; tries := tries s |}.
Definition with_tries l s :=
  {| db := db s; clock := clock s; inflight := inflight s; claimed := claimed s; tasks := tasks s; told := told s; used := used s; tries := tries s ++ l |}.

Definition claim (chosen : list Z) (s : S) : S :=
  let '(entries, d) := claim_due_deliveries (clock s) LEASE_SECS chosen (db s) in
  {| db := d; clock := clock s; inflight := inflight s; claimed := entries; tasks := tasks s; told := told s; used := used s; tries := tries s |}.

Definition start (e : QueueEntry) (rest : list QueueEntry) (s : S) : S :=
  let '(rs, fl) := take_off (entry_recipients e) (inflight s) in
  {| db := db s; clock := clock s; inflight := fl; claimed := rest; tasks := tasks s ++ tasks_of e rs; told := told s; used := used s; tries := tries s |}.

Definition ids (rs : list (Z * QueueRecipient)) : list Z := map fst rs.

(** [dsn::bounce] and [dsn::delayed]: whoever is told what; nobody without a return path or
    without the content. *)
Definition bounces (content_there : bool) (m : QueuedMessage) (notes : Notes) : list (list byte * list FailedRecipient * list FailedRecipient) :=
  if negb content_there || bool_decide (return_path m = []) || (bool_decide (failed notes = []) && bool_decide (delayed notes = [])) then []
  else [(return_path m, failed notes, delayed notes)].

(** The attempt leaves the set of those in flight, and the sender is told. *)
Definition leave (before : list Task) (t : Task) (after : list Task) (content_there : bool) (notes : Notes) (s : S) : S :=
  {| db := db s; clock := clock s; inflight := inflight s ∖ list_to_set (ids (t_recipients t)); claimed := claimed s;
     tasks := before ++ at_phase Left t :: after; told := told s ++ bounces content_there (t_message t) notes; used := used s; tries := tries s |}.

(** Everything the process held is gone. *)
Definition crash (s : S) : S := {| db := db s; clock := clock s; inflight := ∅; claimed := []; tasks := []; told := told s; used := used s; tries := tries s |}.

Definition tick (now : Z) (s : S) : S :=
  {| db := db s; clock := now; inflight := inflight s; claimed := claimed s; tasks := tasks s; told := told s; used := used s; tries := tries s |}.

(** After a mark. *)
Definition then_note (i : Z) (refusal : option (list byte * bool)) (content_there : bool) (todo : list ((Z * QueueRecipient) * Outcome)) (notes : Notes) : Phase :=
  match refusal with Some r => Noting i r content_there todo notes | None => Marking content_there todo notes end.

(** ** Everything beside everything

    [retries]: whether an admin asks for a retry now and then. [once]: that the store gives no
    recipient an id another one had. SQLite does not promise it for these tables, see
    [DeliveryEnds.ids_used_twice]. A write that fails ([broken]) is logged and changes
    nothing; one that fails before the queue is touched is no step. *)

Definition claimed_ids (s : S) : list Z := concat (map (fun e => ids (entry_recipients e)) (claimed s)).

Context (normalize : list byte -> option (list byte * list byte)).
Context (new_message : gmap Z QueuedMessage -> Z) (new_recipient : gmap Z QueueRecipient -> Z).

(** The ids of new recipients. *)
Definition ids_are_new (once : Prop) (s : S) (d : Db) : Prop :=
  once -> forall i, is_Some (recipients d !! i) -> recipients (db s) !! i = None -> i ∉ used s.

Inductive step (retries once : Prop) (s : S) : S -> Prop :=
| step_enqueue return_path rs blob size account env_id lifetime :
    let d := (enqueue normalize new_message new_recipient (clock s) return_path rs blob size account env_id lifetime (db s)).2 in
    ids_are_new once s d -> step retries once s (with_db d s)
| step_resend may_send blob_size rows id :
    rows ≡ₚ map_to_list (filter (fun ir => clock s - REFUSED_KEPT_SECS <= at_ ir.2) (refused (db s))) ->
    let d := (resend_refused new_message new_recipient (clock s) may_send blob_size rows id (db s)).2 in
    ids_are_new once s d -> step retries once s (with_db d s)
| step_clear : step retries once s (with_db (clear_refused_deliveries (db s)).2 s)
| step_retry id : retries -> step retries once s (with_db (retry_queue_message (clock s) id (db s)).2 s)
| step_delete id : step retries once s (with_db (delete_queue_message id (db s)).2 s)
| step_claim chosen : claimed s = [] -> picks (clock s) CLAIM chosen (db s) -> step retries once s (claim chosen s)
| step_start e rest : claimed s = e :: rest -> step retries once s (start e rest s)
| step_answers before t after content_there internal_only answers :
    tasks s = before ++ t :: after -> phase t = Sending ->
    let outcomes := (outcomes_of content_there (account_id (t_message t)) internal_only answers (t_recipients t)).2 in
    step retries once s
      (with_tries (ids (t_recipients t)) (with_tasks (before ++ at_phase (Marking content_there (zip (t_recipients t) outcomes) no_notes) t :: after) s))
| step_mark before t after content_there i r o todo notes broken notes' refusal d :
    tasks s = before ++ t :: after -> phase t = Marking content_there (((i, r), o) :: todo) notes ->
    mark_one (clock s) broken (t_message t) i r o notes (db s) = (notes', (refusal, d)) ->
    step retries once s (with_db d (with_tasks (before ++ at_phase (then_note i refusal content_there todo notes') t :: after) s))
| step_note before t after i text given_up content_there todo notes owned (broken : bool) :
    tasks s = before ++ t :: after -> phase t = Noting i (text, given_up) content_there todo notes ->
    let d := if broken then db s else note_refused new_refused (clock s) i text given_up owned (db s) in
    step retries once s (with_db d (with_tasks (before ++ at_phase (Marking content_there todo notes) t :: after) s))
| step_leave before t after content_there notes :
    tasks s = before ++ t :: after -> phase t = Marking content_there [] notes ->
    step retries once s (leave before t after content_there notes s)
| step_complete before t after (broken : bool) :
    tasks s = before ++ t :: after -> phase t = Left ->
    let d := if broken then db s else (complete_queue_message (t_id t) (db s)).2 in
    step retries once s (with_db d (with_tasks (before ++ after) s))
| step_crash : step retries once s (crash s)
| step_tick now : clock s <= now -> step retries once s (tick now s).

(** A queue that begins empty. *)
Definition empty_queue (now : Z) : S :=
  {| db := {| messages := ∅; recipients := ∅; refused := ∅ |}; clock := now; inflight := ∅; claimed := []; tasks := []; told := []; used := ∅; tries := [] |}.

Inductive reached (retries once : Prop) : S -> Prop :=
| reached_start now : reached retries once (empty_queue now)
| reached_step s s' : reached retries once s -> step retries once s s' -> reached retries once s'.
End worker.
End Delivery.
