(* ===== verification/DeliverySafe.v ===== *)
(** * What the queue and its worker promise

    Over every interleaving of [Delivery.step]: a recipient that waits is never lost, but by
    an admin's hand, and who marks it is an attempt that was made for it. *)

From S2P Require Import Prelude Utf8 Microsoft Queue Delivery.
Import Queue Delivery.

(** ** The tables *)

(** Only when it is due next differs. *)
Definition same (r r' : QueueRecipient) : Prop := leased 0 r = leased 0 r'.

#[export] Instance same_equivalence : Equivalence same.
Proof. split; unfold same; [by intros ? | by intros ?? -> | by intros ??? -> ->]. Qed.

Lemma same_leased u r : same r (leased u r).
Proof. by destruct r. Qed.

Lemma same_message r r' : same r r' -> message_id r = message_id r'.
Proof. destruct r, r'. by intros [= -> -> -> -> -> -> -> ->]. Qed.

Lemma same_status r r' : same r r' -> status r = status r'.
Proof. destruct r, r'. by intros [= -> -> -> -> -> -> -> ->]. Qed.

Lemma same_attempts r r' : same r r' -> attempts r = attempts r'.
Proof. destruct r, r'. by intros [= -> -> -> -> -> -> -> ->]. Qed.

(** Every recipient's message is there. *)
Definition fk (d : Db) : Prop := forall i r, recipients d !! i = Some r -> is_Some (messages d !! message_id r).

(** Whoever is there stays as they are, for the same message. *)
Definition kept_by (d d' : Db) : Prop := forall i r, recipients d !! i = Some r ->
  exists r', recipients d' !! i = Some r' /\ same r r' /\ messages d' !! message_id r = messages d !! message_id r.

(** A transaction that leaves nobody out. *)
Definition safe (d d' : Db) : Prop := fk d -> fk d' /\ kept_by d d'.

Lemma kept_refl d : kept_by d d.
Proof. intros i r Hr. by exists r. Qed.

Lemma safe_refl d : safe d d.
Proof. intros H. split; [done|]. apply kept_refl. Qed.

Lemma safe_trans d d' d'' : safe d d' -> safe d' d'' -> safe d d''.
Proof.
  intros H1 H2 Hf. destruct (H1 Hf) as [Hf' Hk]. destruct (H2 Hf') as [Hf'' Hk']. split; [done|].
  intros i r Hr. destruct (Hk i r Hr) as (r' & Hr' & Hsame & Hm). destruct (Hk' i r' Hr') as (r'' & Hr'' & Hsame' & Hm').
  exists r''. split; [done|]. split; [by etransitivity|]. by rewrite <- Hm, (same_message _ _ Hsame).
Qed.

Lemma safe_foldl {A} (f : Db -> A -> Db) l d : (forall d a, a ∈ l -> safe d (f d a)) -> safe d (foldl f d l).
Proof.
  revert d. induction l as [|a l IH]; intros d H; [apply safe_refl|]. simpl.
  eapply safe_trans; [apply H; left|]. apply IH. intros d' b Hb. apply H. by right.
Qed.

Lemma safe_refused rs d : safe d (with_refused rs d).
Proof. intros H. split; [exact H|]. exact (kept_refl d). Qed.

(** ** Transactions *)

Section store.
Context (normalize : list byte -> option (list byte * list byte)).
Context (new_message : gmap Z QueuedMessage -> Z) (new_recipient : gmap Z QueueRecipient -> Z) (new_refused : gmap Z Refused -> Z).
Hypothesis message_is_new : forall t, t !! new_message t = None.
Hypothesis recipient_is_new : forall t, t !! new_recipient t = None.

Lemma safe_insert_message m d i d' : insert_message new_message m d = (i, d') -> safe d d' /\ messages d' !! i = Some m.
Proof.
  intros [= <- <-]. split; [|apply lookup_insert_eq]. intros Hf.
  assert (forall j r, recipients d !! j = Some r -> message_id r <> new_message (messages d)) as Hne.
  { intros j r Hr E. apply Hf in Hr as [x Hx]. rewrite E, message_is_new in Hx. done. }
  split.
  - intros j r Hr. cbn in *. rewrite lookup_insert_ne by exact (not_eq_sym (Hne _ _ Hr)). by eapply Hf.
  - intros j r Hr. exists r. split; [done|]. split; [done|]. cbn. apply lookup_insert_ne. exact (not_eq_sym (Hne _ _ Hr)).
Qed.

Lemma safe_insert_recipient r d : is_Some (messages d !! message_id r) -> safe d (insert_recipient new_recipient r d).
Proof.
  intros Hm Hf. split.
  - intros j q Hq. cbn in *. apply lookup_insert_Some in Hq as [[_ <-]|[_ Hq]]; [done|by eapply Hf].
  - intros j q Hq. exists q. split; [|done]. cbn. rewrite lookup_insert_ne; [done|]. intros E. by rewrite <- E, recipient_is_new in Hq.
Qed.

Lemma insert_fresh_messages id now d n : messages (insert_fresh new_recipient id now d n) = messages d.
Proof. by destruct n as [[] ?]. Qed.

Lemma safe_enqueue now rp rs b sz a e lt d : safe d (enqueue normalize new_message new_recipient now rp rs b sz a e lt d).2.
Proof.
  unfold enqueue. destruct rs as [|r rs]; [apply safe_refl|]. destruct (normalized _ _) as [ns|]; [|apply safe_refl]. cbv zeta.
  destruct (insert_message _ _ _) as [id d1] eqn:E. apply safe_insert_message in E as [H1 Hid]. cbn [snd]. eapply safe_trans; [exact H1|].
  clear H1. revert d1 Hid. induction ns as [|n ns IH]; intros d1 Hid; [apply safe_refl|]. simpl. apply (safe_trans _ (insert_fresh new_recipient id now d1 n)).
  - destruct n as [[local domain] x]. unfold insert_fresh. apply safe_insert_recipient. eexists. exact Hid.
  - apply IH. by rewrite insert_fresh_messages.
Qed.

Lemma safe_resend now may bsz rows id d : safe d (resend_refused new_message new_recipient now may bsz rows id d).2.
Proof.
  unfold resend_refused. destruct (List.find _ rows) as [[j fixed]|]; [|apply safe_refl].
  set (cause := refusal_cause _ _). set (o := {| resent := 0 |}). clearbody cause o.
  assert (forall acc row, safe acc.2 (resend_one new_message new_recipient now may bsz cause acc row).2) as Hone.
  { intros [out d1] [i r]. unfold resend_one. cbn [snd]. cbv zeta. case_match; [apply safe_refl|].
    destruct (kept r) as [b|]; [|apply safe_refused]. destruct (_ ← _; _) as [a|]; [|apply safe_refl].
    destruct (bsz b) as [sz|]; [|apply safe_refused].
    destruct (insert_message _ _ _) as [mid d2] eqn:E. apply safe_insert_message in E as [H1 Hid]. cbn [snd].
    eapply safe_trans; [exact H1|]. eapply safe_trans; [|apply safe_refused]. apply safe_insert_recipient. eexists. exact Hid. }
  assert (forall acc, safe acc.2 (foldl (resend_one new_message new_recipient now may bsz cause) acc rows).2) as Hall.
  { induction rows as [|row rows IH]; intros acc; [apply safe_refl|]. simpl. eapply safe_trans; [apply Hone | apply IH]. }
  specialize (Hall (o, d)). destruct (foldl _ _ _) as [out d']. exact Hall.
Qed.

Lemma safe_lease u d i : safe d (lease_one u d i).
Proof.
  intros Hf. split.
  - intros j r Hr. cbn in Hr. destruct (decide (j = i)) as [->|Hne].
    + rewrite lookup_alter_eq in Hr. apply fmap_Some in Hr as (q & Hq & ->). exact (Hf _ _ Hq).
    + rewrite lookup_alter_ne in Hr by done. by eapply Hf.
  - intros j r Hr. cbn. destruct (decide (j = i)) as [->|Hne].
    + exists (leased u r). rewrite lookup_alter_eq, Hr. split; [done|]. split; [apply same_leased|done].
    + exists r. by rewrite lookup_alter_ne.
Qed.

Lemma safe_retry now id d : safe d (retry_queue_message now id d).2.
Proof.
  unfold retry_queue_message. case_match; [|apply safe_refl]. intros Hf. split.
  - intros j r Hr. cbn in Hr. rewrite lookup_fmap in Hr. apply fmap_Some in Hr as (q & Hq & ->). case_match; exact (Hf _ _ Hq).
  - intros j r Hr. cbn. rewrite lookup_fmap, Hr. eexists. split; [done|]. split; [|done]. case_match; [apply same_leased|done].
Qed.

Lemma pending_of_pos id i r d : recipients d !! i = Some r -> status r = Pending -> message_id r = id -> (0 < pending_of id d)%nat.
Proof.
  intros Hr Hs Hm. unfold pending_of. assert ((i, r) ∈ List.filter (fun ir => (message_id ir.2 =? id) && bool_decide (status ir.2 = Pending)) (map_to_list (recipients d))) as Hin.
  { apply list_elem_of_In, filter_In. split; [by apply list_elem_of_In, elem_of_map_to_list|]. cbn. rewrite bool_decide_true, andb_true_r by done. by apply Z.eqb_eq. }
  destruct (List.filter _ _); [by apply elem_of_nil in Hin | simpl; lia].
Qed.

(** What goes with its message: all of them, and nobody else. *)
Lemma drop_fk id d : fk d -> fk (drop_message id d).
Proof. intros Hf j r. cbn. intros [Hr Hne]%map_lookup_filter_Some. cbn in Hne. rewrite lookup_delete_ne by done. by eapply Hf. Qed.

Lemma drop_other id d i r : recipients d !! i = Some r -> message_id r <> id ->
  recipients (drop_message id d) !! i = Some r /\ messages (drop_message id d) !! message_id r = messages d !! message_id r.
Proof. intros Hr Hne. cbn. split; [by apply map_lookup_filter_Some|]. by rewrite lookup_delete_ne. Qed.

Lemma complete_ok id d i r : fk d -> recipients d !! i = Some r -> status r = Pending ->
  let d' := (complete_queue_message id d).2 in recipients d' !! i = Some r /\ messages d' !! message_id r = messages d !! message_id r.
Proof.
  unfold complete_queue_message. intros Hf Hr Hs. destruct (0 <? pending_of id d)%nat eqn:Hp; [done|]. apply Nat.ltb_ge in Hp.
  apply drop_other; [done|]. intros E. pose proof (pending_of_pos id i r d Hr Hs E) as Hpos. cbn in *. lia.
Qed.

(** ** Marking *)

(** What a mark says of an outcome: a recipient is settled as it went, or waits again. *)
Definition mark_says (now : Z) (m : QueuedMessage) (o : Outcome) (r : QueueRecipient) (s : QueueRecipientStatus) (next : option Z) : Prop :=
  match s with
  | Delivered => (exists reply, o = ODelivered reply) /\ next = None
  | Failed =>
      match o with
      | ODelivered _ => False
      | ODeferred _ => expires_at m < now + retry_delay (attempts r + 1)
      | OHeld _ => Z.min (expires_at m) (created_at m + HOLD_SECS) < now + HOLD_RETRY_SECS
      | OFailed _ => True
      end /\ next = None
  | Pending => exists n, next = Some n /\ now + 300 <= n <= expires_at m /\ (forall reply, o <> ODelivered reply)
  end.

Lemma retry_delay_long a : 300 <= retry_delay a.
Proof.
  unfold retry_delay. assert (Forall (fun x => 300 <= x) STEPS) as H by (repeat constructor; lia).
  destruct (lookup_lt_is_Some_2 STEPS (Nat.min (Z.to_nat (Z.max a 1) - 1) (length STEPS - 1))) as [x Hx]; [cbn; lia|].
  rewrite Hx. rewrite Forall_forall in H. by apply H, (list_elem_of_lookup_2 _ _ _ Hx).
Qed.

(** A mark changes its own row or, when the write fails or the row is gone, none. *)
Definition marks (d d' : Db) (i : Z) (s : QueueRecipientStatus) (text : list byte) (next : option Z) : Prop :=
  d' = d \/ exists q, recipients d !! i = Some q /\ messages d' = messages d /\ recipients d' = <[i := marked s (Some text) next q]> (recipients d).

Lemma update_marks broken i s text next d : marks d (written broken (update_recipient i s (Some text) next) d).2 i s text next.
Proof.
  unfold written, update_recipient. destruct broken; [by left|]. destruct (recipients d !! i) as [q|] eqn:Hq; [|by left].
  right. by exists q.
Qed.

Lemma refused_marks g broken i e d : marks d (to_note (written broken (mark_refused g i e) d)).2 i Failed e None.
Proof.
  pose proof (update_marks broken i Failed e None d) as H. unfold to_note, written, mark_refused in *. destruct broken; [done|].
  destruct (update_recipient i Failed (Some e) None d) as [[[]|?] d'] eqn:E; cbn in *; by rewrite ?E in H.
Qed.

Lemma mark_one_rows never delay now broken m i r o n d n' refusal d' :
  mark_one never delay now broken m i r o n d = (n', (refusal, d')) ->
  exists s text next, mark_says now m o r s next /\ marks d d' i s text next.
Proof.
  unfold mark_one, mark_recipient_delivered, mark_recipient_deferred, mark_recipient_failed, mark_recipient_given_up. cbv zeta.
  assert (forall g e, (refusal, d') = to_note (written broken (mark_refused g i e) d) -> marks d d' i Failed e None) as Hfail.
  { intros g e E. pose proof (refused_marks g broken i e d) as H. by rewrite <- E in H. }
  assert (forall s text next, d' = (written broken (update_recipient i s (Some text) next) d).2 -> marks d d' i s text next) as Hup.
  { intros s text next ->. apply update_marks. }
  destruct o as [reply|e|e|e].
  - intros [= _ _ <-]. exists Delivered, reply, None. split; [by split; [eexists|]|by apply Hup].
  - pose proof (retry_delay_long (attempts r + 1)). destruct (expires_at m <? _) eqn:Hlate.
    + intros E. apply (f_equal snd) in E. cbn [snd] in E. exists Failed, e, None. split; [split; [by apply Z.ltb_lt|done]|by eapply Hfail].
    + intros [= _ _ <-]. exists Pending, e, (Some (now + retry_delay (attempts r + 1))). split; [eexists; split; [done|]; split; [lia|done]|by apply Hup].
  - intros E. apply (f_equal snd) in E. cbn [snd] in E. exists Failed, e, None. split; [done|by eapply Hfail].
  - unfold HOLD_RETRY_SECS, HOLD_SECS. destruct (now + 45 * 60 <=? _) eqn:Hheld.
    + intros [= _ _ <-]. exists Pending, e, (Some (now + HOLD_RETRY_SECS)).
      split; [eexists; split; [done|]; split; [unfold HOLD_RETRY_SECS; lia|done]|by apply Hup].
    + intros E. apply (f_equal snd) in E. cbn [snd] in E. exists Failed, e, None.
      split; [split; [cbn; unfold HOLD_RETRY_SECS, HOLD_SECS; apply Z.leb_gt in Hheld; lia|done]|by eapply Hfail].
Qed.
End store.

(** ** Claims and starts *)

Definition entry_ok (d : Db) (e : QueueEntry) : Prop :=
  messages d !! entry_message e = Some (message e) /\
  forall ir, ir ∈ entry_recipients e -> recipients d !! ir.1 = Some ir.2 /\ status ir.2 = Pending /\ message_id ir.2 = entry_message e.

Definition entry_ids (es : list QueueEntry) : list Z := concat (map (fun e => ids (entry_recipients e)) es).

Lemma add_to_entries_ids m i r es : entry_ids (add_to_entries m i r es) ≡ₚ i :: entry_ids es.
Proof.
  induction es as [|e es IH]; [done|]. cbn [add_to_entries]. case_match.
  - unfold entry_ids, ids. cbn [map concat entry_recipients]. rewrite map_app. cbn [map fst]. rewrite <- app_assoc. cbn [app].
    by rewrite <- Permutation_middle.
  - unfold entry_ids in *. cbn [map concat]. rewrite IH. by rewrite <- Permutation_middle.
Qed.

Lemma add_to_entries_ok d m i r es : Forall (entry_ok d) es -> recipients d !! i = Some r -> status r = Pending -> messages d !! message_id r = Some m ->
  Forall (entry_ok d) (add_to_entries m i r es).
Proof.
  intros Hes Hr Hs Hm. induction Hes as [|e es [He1 He2] Hes IH]; cbn [add_to_entries].
  - constructor; [|constructor]. split; [done|]. intros ir Hin. apply list_elem_of_singleton in Hin as ->. done.
  - case_match eqn:E; [|by constructor]. apply Z.eqb_eq in E. constructor; [|done]. split; [done|]. cbn.
    intros ir [Hin| ->%list_elem_of_singleton]%elem_of_app; [by apply He2|]. done.
Qed.

Lemma add_claimed_ok d l : forall es, Forall (entry_ok d) es -> NoDup (entry_ids es ++ l) ->
  (forall i r, i ∈ l -> recipients d !! i = Some r -> status r = Pending) ->
  let es' := foldl (add_claimed d) es l in Forall (entry_ok d) es' /\ NoDup (entry_ids es').
Proof.
  induction l as [|i l IH]; intros es Hes Hnd Hp; [by rewrite app_nil_r in Hnd|]. cbn [foldl].
  assert (NoDup (entry_ids es ++ l)) as Hskip by (rewrite <- Permutation_middle in Hnd; by apply NoDup_cons in Hnd as [_ ?]).
  assert (forall j r, j ∈ l -> recipients d !! j = Some r -> status r = Pending) as Hp' by (intros j r Hj; apply Hp; by right).
  assert (Forall (entry_ok d) (add_claimed d es i) /\ NoDup (entry_ids (add_claimed d es i) ++ l)) as [Hes1 Hnd1]; [|by apply IH].
  unfold add_claimed. destruct (recipients d !! i) as [r|] eqn:Hr; [|done]. destruct (messages d !! message_id r) as [m|] eqn:Hm; [|done].
  split; [|by rewrite add_to_entries_ids; cbn [app]; rewrite Permutation_middle].
  apply add_to_entries_ok; try done. eapply Hp; [by left|done].
Qed.

Lemma lease_row u d i j r : recipients (lease_one u d i) !! j = Some r -> exists q, recipients d !! j = Some q /\ same q r.
Proof.
  cbn. destruct (decide (j = i)) as [->|Hne].
  - rewrite lookup_alter_eq. intros (q & Hq & ->)%fmap_Some. exists q. split; [done|apply same_leased].
  - rewrite lookup_alter_ne by done. intros Hr. by exists r.
Qed.

Lemma leases_row u l : forall d j r, recipients (foldl (lease_one u) d l) !! j = Some r -> exists q, recipients d !! j = Some q /\ same q r.
Proof.
  induction l as [|i l IH]; intros d j r Hr; [by exists r|]. apply IH in Hr as (q & Hq & Hs). apply lease_row in Hq as (q' & Hq' & Hs').
  exists q'. split; [done|by etransitivity].
Qed.

Lemma claim_ok now limit lease chosen d es d' : picks now limit chosen d -> claim_due_deliveries now lease chosen d = (es, d') ->
  safe d d' /\ Forall (entry_ok d') es /\ NoDup (entry_ids es).
Proof.
  intros Hp. unfold claim_due_deliveries. intros [= <- <-]. set (d' := foldl _ d chosen). split.
  - apply safe_foldl. intros d1 i _. apply safe_lease.
  - apply add_claimed_ok; [constructor|apply Hp|]. intros i r Hi Hr. apply leases_row in Hr as (q & Hq & Hs). rewrite <- (same_status _ _ Hs).
    destruct (picks_due _ _ _ _ Hp i Hi) as (q' & Hq' & Hdue). rewrite Hq in Hq'. injection Hq' as <-.
    unfold due in Hdue. apply andb_prop in Hdue as [Hdue _]. by apply bool_decide_eq_true in Hdue.
Qed.

Lemma take_off_ok rs : forall fl, let '(kept, fl') := take_off rs fl in
  (forall ir, ir ∈ kept -> ir ∈ rs /\ ir.1 ∉ fl /\ ir.1 ∈ fl') /\ NoDup (ids kept) /\ fl ⊆ fl'.
Proof.
  induction rs as [|ir rs IH]; intros fl; cbn [take_off]; [split; [by intros ? ?%elem_of_nil|]; split; [constructor|done]|].
  case_bool_decide as Hin.
  - specialize (IH fl). destruct (take_off rs fl) as [kept fl']. destruct IH as (H1 & H2 & H3). split; [|done].
    intros x Hx. destruct (H1 x Hx) as (? & ? & ?). split; [by right|done].
  - specialize (IH ({[ir.1]} ∪ fl)). destruct (take_off rs _) as [kept fl']. destruct IH as (H1 & H2 & H3). split; [|split].
    + intros x [->|Hx]%elem_of_cons; [split; [by left|]; split; [done|set_solver]|].
      destruct (H1 x Hx) as (? & ? & ?). split; [by right|]. split; [set_solver|done].
    + constructor; [|done]. intros (x & Hx & Hk)%list_elem_of_fmap. destruct (H1 x Hk) as (_ & Hnin & _). set_solver.
    + set_solver.
Qed.

Lemma by_domain_all rs : concat (map snd (by_domain rs)) ≡ₚ rs.
Proof.
  unfold by_domain. assert (forall ir gs, concat (map snd (add_to_domain ir gs)) ≡ₚ ir :: concat (map snd gs)) as Hadd.
  { intros ir gs. induction gs as [|[d g] gs IH]; [done|]. cbn [add_to_domain]. case_bool_decide.
    - cbn [map concat snd]. rewrite <- app_assoc. cbn [app]. by rewrite <- Permutation_middle.
    - case_match; [done|]. cbn [map concat snd]. rewrite IH. by rewrite <- Permutation_middle. }
  assert (forall gs, concat (map snd (foldl (fun gs ir => add_to_domain ir gs) gs rs)) ≡ₚ rs ++ concat (map snd gs)) as H.
  { induction rs as [|ir rs IH]; intros gs; [done|]. cbn [foldl]. rewrite IH, Hadd. by rewrite <- Permutation_middle. }
  rewrite H. by rewrite app_nil_r.
Qed.

(** ** Who an attempt was made for *)

(** Whom an attempt has left to mark. *)
Definition todo (t : Task) : list (Z * QueueRecipient) :=
  match phase t with Sending => t_recipients t | Marking _ todo _ | Noting _ _ _ todo _ => map fst todo | Left => [] end.

(** Whom the mail is for, whatever became of it. *)
Definition same_recipient (r r' : QueueRecipient) : Prop :=
  message_id r = message_id r' /\ address r = address r' /\ domain r = domain r' /\ notify_flags r = notify_flags r' /\ orcpt r = orcpt r'.

#[export] Instance same_recipient_equivalence : Equivalence same_recipient.
Proof. split; unfold same_recipient; [done | intros ??; intuition congruence | intros ???; intuition congruence]. Qed.

Lemma same_same_recipient r r' : same r r' -> same_recipient r r'.
Proof. destruct r, r'. by intros [= -> -> -> -> -> -> -> ->]. Qed.

Lemma marked_same_recipient s text next r : same_recipient r (marked s text next r).
Proof. by destruct r. Qed.

(** The recipients, as they were when they were claimed, that some attempt has to mark or the
    worker has to start one for. *)
Definition made (s : S) (m : QueuedMessage) (ir : Z * QueueRecipient) : Prop :=
  (exists t, t ∈ tasks s /\ t_message t = m /\ ir ∈ todo t) \/ (exists e, e ∈ claimed s /\ message e = m /\ ir ∈ entry_recipients e).

(** The row is still the one of the claim, with its message. *)
Definition still (d : Db) (m : QueuedMessage) (ir : Z * QueueRecipient) : Prop :=
  forall r, recipients d !! ir.1 = Some r -> same_recipient ir.2 r /\ messages d !! message_id r = Some m.

Record inv (once : Prop) (s : S) : Prop := {
  i_fk : fk (db s);
  i_used : forall i, is_Some (recipients (db s) !! i) -> i ∈ used s;
  i_made : forall m ir, made s m ir -> ir.1 ∈ used s /\ (once -> still (db s) m ir) }.

(** Nobody becomes somebody else. *)
Definition old_rows (d d' : Db) : Prop := forall i r', recipients d' !! i = Some r' ->
  recipients d !! i = None \/
  exists r, recipients d !! i = Some r /\ same_recipient r r' /\ messages d' !! message_id r' = messages d !! message_id r.

Lemma kept_old d d' : kept_by d d' -> old_rows d d'.
Proof.
  intros Hk i r' Hr'. destruct (recipients d !! i) as [r|] eqn:Hr; [right|by left]. destruct (Hk i r Hr) as (r'' & Hr'' & Hs & Hm).
  rewrite Hr' in Hr''. injection Hr'' as <-. exists r. rewrite <- (same_message _ _ Hs). split; [done|]. by split; [apply same_same_recipient|].
Qed.

Lemma drop_old id d : old_rows d (drop_message id d).
Proof.
  intros i r. cbn. intros [Hr Hne]%map_lookup_filter_Some. cbn in Hne. right. exists r. split; [done|]. split; [done|]. by rewrite lookup_delete_ne.
Qed.

Lemma marks_old d d' i s text next : marks d d' i s text next -> old_rows d d'.
Proof.
  intros [->|(q & Hq & Hm & Hr)]; [apply kept_old, kept_refl|]. intros j r'. rewrite Hr, Hm.
  intros [[<- <-]|[_ Hj]]%lookup_insert_Some; right; [exists q|by exists r']. split; [done|]. by split; [apply marked_same_recipient|].
Qed.

Lemma marks_fk d d' i s text next : marks d d' i s text next -> fk d -> fk d'.
Proof.
  intros [->|(q & Hq & Hm & Hr)] Hf; [done|]. intros j r'. rewrite Hr, Hm. intros [[<- <-]|[_ Hj]]%lookup_insert_Some; [exact (Hf _ _ Hq)|by eapply Hf].
Qed.

(** The table changes, and who attempts are made for does not. *)
Lemma inv_db once s s' : inv once s -> fk (db s') -> old_rows (db s) (db s') -> ids_are_new once s (db s') ->
  (forall m ir, made s' m ir -> made s m ir) -> used s ⊆ used s' -> (forall i, is_Some (recipients (db s') !! i) -> i ∈ used s') -> inv once s'.
Proof.
  intros [] Hf Hold Hnew Hmade Hused Hin. constructor; [done|done|]. intros m ir Hm%Hmade. destruct (i_made0 m ir Hm) as [Hu Hst].
  split; [by apply Hused|]. intros Ho r' Hr'. destruct (Hold _ _ Hr') as [Hn|(r & Hr & Hs & Hmsg)].
  - by destruct (Hnew Ho ir.1 ltac:(by eexists) Hn).
  - destruct (Hst Ho r Hr) as [H1 H2]. split; [by etransitivity|]. congruence.
Qed.

Lemma inv_with_db once s d : inv once s -> fk d -> old_rows (db s) d -> ids_are_new once s d -> inv once (with_db d s).
Proof.
  intros Hinv Hf Hold Hnew. apply (inv_db once s); try done; cbn; [set_solver|].
  intros i Hi. apply elem_of_union. right. by apply elem_of_dom.
Qed.

Lemma no_new once s d : (forall i, is_Some (recipients d !! i) -> is_Some (recipients (db s) !! i)) -> ids_are_new once s d.
Proof. intros H _ i Hi Hn. apply H in Hi as [r Hr]. congruence. Qed.

(** Nothing but who is made for what. *)
Lemma inv_tasks once s s' : inv once s -> db s' = db s -> used s' = used s -> (forall m ir, made s' m ir -> made s m ir) -> inv once s'.
Proof.
  intros Hinv Hd Hu Hm. apply (inv_db once s); rewrite ?Hd, ?Hu; try done; try apply Hinv; [apply kept_old, kept_refl|by apply no_new].
Qed.

(** A task that goes on to something else. *)
Lemma made_task s s' before t t' after : tasks s = before ++ t :: after -> tasks s' = before ++ t' :: after -> claimed s' = claimed s ->
  t_message t' = t_message t -> (forall ir, ir ∈ todo t' -> ir ∈ todo t) -> forall m ir, made s' m ir -> made s m ir.
Proof.
  intros Hts Hts' Hc Hm Hsub m ir [(x & Hx & <- & Hir)|He]; [left|right; by rewrite <- Hc]. rewrite Hts' in Hx. rewrite Hts.
  apply elem_of_app in Hx as [Hx|[->|Hx]%elem_of_cons].
  - exists x. by rewrite elem_of_app; auto.
  - exists t. rewrite elem_of_app, elem_of_cons. auto.
  - exists x. rewrite elem_of_app, elem_of_cons. auto.
Qed.

Lemma zip_prefix {A B} (xs : list A) (ys : list B) : exists tl, xs = map fst (zip xs ys) ++ tl.
Proof.
  revert ys. induction xs as [|x xs IH]; intros ys; [by exists []|]. destruct ys as [|y ys]; [by exists (x :: xs)|].
  destruct (IH ys) as [tl Htl]. exists tl. cbn. by f_equal.
Qed.

Lemma tasks_of_elem e rs t : t ∈ tasks_of e rs ->
  t_message t = message e /\ phase t = Sending /\ (forall ir, ir ∈ t_recipients t -> ir ∈ rs).
Proof.
  intros (g & -> & Hg)%list_elem_of_fmap. split_and!; try done.
  intros ir Hir. rewrite <- by_domain_all. apply list_elem_of_In, in_concat. exists g.2. split; [apply in_map, list_elem_of_In|apply list_elem_of_In]; done.
Qed.

Lemma claim_rows s chosen es d : picks (clock s) CLAIM chosen (db s) -> claim_due_deliveries (clock s) LEASE_SECS chosen (db s) = (es, d) ->
  claim chosen s = {| db := d; clock := clock s; inflight := inflight s; claimed := es; tasks := tasks s; told := told s; used := used s; tries := tries s |}
  /\ safe (db s) d /\ Forall (entry_ok d) es /\ (forall i, is_Some (recipients d !! i) -> is_Some (recipients (db s) !! i)).
Proof.
  intros Hp E. split; [by unfold claim; rewrite E|]. pose proof (claim_ok _ _ _ _ _ _ _ Hp E) as (Hs & Hes & _). split; [done|]. split; [done|].
  unfold claim_due_deliveries in E. injection E as _ <-. intros i [r Hr]. apply leases_row in Hr as (q & Hq & _). by exists q.
Qed.

Lemma inv_claim once s chosen : picks (clock s) CLAIM chosen (db s) -> inv once s -> inv once (claim chosen s).
Proof.
  intros Hp Hinv. destruct (claim_due_deliveries (clock s) LEASE_SECS chosen (db s)) as [es d] eqn:E.
  destruct (claim_rows s chosen es d Hp E) as (-> & Hsafe & Hes & Hdom). pose proof Hinv as [Hf Hu Hm]. destruct (Hsafe Hf) as [Hf' Hk].
  assert (inv once {| db := d; clock := clock s; inflight := inflight s; claimed := []; tasks := tasks s; told := told s; used := used s; tries := tries s |}) as [_ Hu' Hm'].
  { apply (inv_db once s); try done; [by apply kept_old|by apply no_new| |cbn; intros i Hi; by apply Hu, Hdom].
    intros m ir [?|(e & He%elem_of_nil & _)]; [by left|done]. }
  constructor; [done|done|]. intros m ir [Ht|(e & He & <- & Hir)]; [apply Hm'; by left|]. cbn in He. rewrite Forall_forall in Hes.
  destruct (Hes e He) as [Hmsg Hrs]. destruct (Hrs ir Hir) as (Hr & _ & Hid). split; [apply Hu'; cbn; by eexists|].
  intros _ r Hr'. cbn in Hr', Hr. rewrite Hr' in Hr. injection Hr as ->. split; [done|]. cbn. by rewrite Hid.
Qed.

Lemma inv_start once s e rest : claimed s = e :: rest -> inv once s -> inv once (start e rest s).
Proof.
  intros Hc Hinv. unfold start. pose proof (take_off_ok (entry_recipients e) (inflight s)) as Hto. destruct (take_off _ _) as [rs fl].
  destruct Hto as (Hkept & _). eapply inv_tasks; [exact Hinv|done|done|]. intros m ir [(t & Ht & <- & Hir)|(x & Hx & <- & Hir)]; cbn in *.
  - apply elem_of_app in Ht as [Ht|Ht]; [left; by exists t|right]. apply tasks_of_elem in Ht as (-> & Hs & Hrs). unfold todo in Hir. rewrite Hs in Hir.
    exists e. rewrite Hc. split; [by left|]. split; [done|]. by apply Hkept, Hrs.
  - right. exists x. rewrite Hc. split; [by right|done].
Qed.

(** ** Every step keeps it *)

Section worker.
Context (never delay : Z) (normalize : list byte -> option (list byte * list byte)).
Context (new_message : gmap Z QueuedMessage -> Z) (new_recipient : gmap Z QueueRecipient -> Z) (new_refused : gmap Z Refused -> Z).
Hypothesis message_is_new : forall t, t !! new_message t = None.
Hypothesis recipient_is_new : forall t, t !! new_recipient t = None.
Notation step := (step never delay new_refused normalize new_message new_recipient).
Notation reached := (reached never delay new_refused normalize new_message new_recipient).

Lemma inv_safe once s d : inv once s -> safe (db s) d -> ids_are_new once s d -> inv once (with_db d s).
Proof. intros Hinv Hsafe Hnew. destruct (Hsafe (i_fk _ _ Hinv)) as [Hf Hk]. by apply inv_with_db; [..|apply kept_old|]. Qed.

Lemma inv_drop once s id : inv once s -> inv once (with_db (drop_message id (db s)) s).
Proof.
  intros Hinv. apply inv_with_db; [done|apply drop_fk, Hinv|apply drop_old|]. apply no_new. intros i [r Hr]. cbn in Hr.
  apply map_lookup_filter_Some in Hr as [Hr _]. by exists r.
Qed.

Lemma retry_dom now id d i : is_Some (recipients (retry_queue_message now id d).2 !! i) -> is_Some (recipients d !! i).
Proof. unfold retry_queue_message. case_match; [|done]. cbn. rewrite lookup_fmap. intros [r (q & Hq & _)%fmap_Some]. by exists q. Qed.

Lemma inv_mark once s before t after i r o rest there notes broken notes' refusal d : inv once s -> tasks s = before ++ t :: after ->
  phase t = Marking there (((i, r), o) :: rest) notes ->
  mark_one never delay (clock s) broken (t_message t) i r o notes (db s) = (notes', (refusal, d)) ->
  inv once (with_db d (with_tasks (before ++ at_phase (then_note i refusal there rest notes') t :: after) s)).
Proof.
  intros Hinv Hts Hp Hmark. apply mark_one_rows in Hmark as (st & text & next & _ & Hrows).
  assert (inv once (with_tasks (before ++ at_phase (then_note i refusal there rest notes') t :: after) s)) as Hinv'.
  { eapply inv_tasks; [exact Hinv|done|done|]. eapply made_task; [exact Hts|done|done|done|].
    intros ir Hir. unfold todo in *. rewrite Hp. cbn in Hir. destruct refusal; cbn in Hir; by right. }
  eapply inv_with_db; [done|cbn; eapply marks_fk; [done|apply Hinv]|cbn; by eapply marks_old|]. apply no_new. cbn.
  destruct Hrows as [->|(q & Hq & _ & ->)]; [done|]. intros j [x [[<- _]|[_ Hx]]%lookup_insert_Some]; [by exists q|by exists x].
Qed.

Lemma inv_step retries once s s' : inv once s -> step retries once s s' -> inv once s'.
Proof.
  intros Hinv Hstep. destruct Hstep.
  - apply inv_safe; [done|by apply safe_enqueue|done].
  - apply inv_safe; [done|by apply safe_resend|done].
  - apply inv_safe; [done|apply safe_refused|by apply no_new].
  - apply inv_safe; [done|apply safe_retry|]. apply no_new. apply retry_dom.
  - unfold delete_queue_message. destruct (messages (db s) !! id); [by apply inv_drop|]. apply inv_safe; [done|apply safe_refl|by apply no_new].
  - by apply inv_claim.
  - by apply inv_start.
  - eapply inv_tasks; [exact Hinv|done|done|]. eapply made_task; [exact H|done|done|done|]. unfold todo. rewrite H0. cbn.
    destruct (zip_prefix (t_recipients t) outcomes) as [tl Htl]. intros ir Hir. rewrite Htl. apply elem_of_app. by left.
  - by eapply inv_mark.
  - apply inv_safe; [|subst d; cbn; destruct broken; [apply safe_refl|apply safe_refused]|apply no_new; subst d; by destruct broken].
    eapply inv_tasks; [exact Hinv|done|done|]. eapply made_task; [exact H|done|done|done|]. unfold todo. by rewrite H0.
  - eapply inv_tasks; [exact Hinv|done|done|]. eapply made_task; [exact H|done|done|done|]. by intros ir ?%elem_of_nil.
  - assert (inv once (with_tasks (before ++ after) s)) as Hinv'.
    { eapply inv_tasks; [exact Hinv|done|done|]. intros m ir [(x & Hx & Hir)|?]; [left|by right]. exists x. rewrite H. split; [|done].
      cbn in Hx. rewrite elem_of_app in *. rewrite elem_of_cons. tauto. }
    subst d. destruct broken; [apply inv_safe; [done|apply safe_refl|by apply no_new]|]. unfold complete_queue_message.
    destruct (0 <? _)%nat; [apply inv_safe; [done|apply safe_refl|by apply no_new]|]. exact (inv_drop _ _ _ Hinv').
  - eapply inv_tasks; [exact Hinv|done|done|]. intros m ir [(x & Hx%elem_of_nil & _)|(x & Hx%elem_of_nil & _)]; done.
  - by eapply inv_tasks; [exact Hinv|..].
Qed.

Lemma inv_reached retries once s : reached retries once s -> inv once s.
Proof.
  induction 1 as [now|]; [|by eapply inv_step]. constructor; cbn; [done|by intros i [? ?]|].
  intros m ir [(x & Hx%elem_of_nil & _)|(x & Hx%elem_of_nil & _)]; done.
Qed.

(** ** What a step does to those who wait *)

(** An attempt that is about to mark the recipient, and has made [st] of it. *)
Definition settles (once : Prop) (s : S) (i : Z) (r : QueueRecipient) (m : QueuedMessage) (st : QueueRecipientStatus) : Prop :=
  exists t there q o rest notes next, t ∈ tasks s /\ phase t = Marking there (((i, q), o) :: rest) notes /\
    mark_says (clock s) (t_message t) o q st next /\ (once -> same_recipient q r /\ t_message t = m).

Definition goes_on (once : Prop) (s s' : S) (i : Z) (r : QueueRecipient) : Prop :=
  exists m r', messages (db s) !! message_id r = Some m /\ messages (db s') !! message_id r = Some m /\
    recipients (db s') !! i = Some r' /\ same_recipient r r' /\ (status r' = Pending \/ settles once s i r m (status r')).

(** An admin takes the message out. *)
Definition taken_out (s s' : S) (r : QueueRecipient) : Prop := s' = with_db (delete_queue_message (message_id r) (db s)).2 s.

Lemma stays_goes_on once s s' i r : inv once s -> recipients (db s) !! i = Some r -> status r = Pending ->
  (exists r', recipients (db s') !! i = Some r' /\ same r r' /\ messages (db s') !! message_id r = messages (db s) !! message_id r) -> goes_on once s s' i r.
Proof.
  intros [Hf _ _] Hr Hs (r' & Hr' & Hsame & Hm'). destruct (Hf _ _ Hr) as [m Hm].
  exists m, r'. split; [done|]. split; [by rewrite Hm'|]. split; [done|]. split; [by apply same_same_recipient|]. left. by rewrite <- (same_status _ _ Hsame).
Qed.

Lemma kept_goes_on once s s' i r : inv once s -> safe (db s) (db s') -> recipients (db s) !! i = Some r -> status r = Pending -> goes_on once s s' i r.
Proof. intros Hinv Hsafe Hr Hs. eapply stays_goes_on; [done..|]. destruct (Hsafe (i_fk _ _ Hinv)) as [_ Hk]. exact (Hk _ _ Hr). Qed.

Lemma mark_goes_on once s before t after there j x o rest notes broken notes' refusal d i r : inv once s -> tasks s = before ++ t :: after ->
  phase t = Marking there (((j, x), o) :: rest) notes ->
  mark_one never delay (clock s) broken (t_message t) j x o notes (db s) = (notes', (refusal, d)) ->
  recipients (db s) !! i = Some r -> status r = Pending ->
  goes_on once s (with_db d (with_tasks (before ++ at_phase (then_note j refusal there rest notes') t :: after) s)) i r.
Proof.
  intros Hinv Hts Hp Hmark Hr Hs. apply mark_one_rows in Hmark as (st & text & next & Hsays & [->|(q & Hq & Hm & Hrows)]).
  { eapply stays_goes_on; [done..|]. by exists r. }
  destruct (decide (j = i)) as [->|Hne].
  2: { eapply stays_goes_on; [done..|]. exists r. cbn. by rewrite Hrows, Hm, lookup_insert_ne by done. }
  rewrite Hr in Hq. injection Hq as <-. pose proof Hinv as [Hf _ Hmade]. destruct (Hf _ _ Hr) as [m Hmr].
  exists m, (marked st (Some text) next r). cbn. rewrite Hm, Hrows, lookup_insert_eq. do 3 (split; [done|]). split; [apply marked_same_recipient|].
  right. exists t, there, x, o, rest, notes, next. assert (t ∈ tasks s) as Ht by (rewrite Hts, elem_of_app, elem_of_cons; tauto).
  split; [done|]. split; [done|]. split; [done|]. intros Ho.
  destruct (Hmade (t_message t) (i, x)) as [_ Hst]; [left; exists t; split; [done|]; split; [done|]; unfold todo; rewrite Hp; by left|].
  destruct (Hst Ho r Hr) as [Hsame Hmsg]. cbn in Hsame. split; [done|congruence].
Qed.

(** C4: mail that waits is not lost. Whatever runs beside whatever (the worker's claims and
    starts, attempts that answer, mark, note, leave and complete in any order, new mail,
    resends, retries and deletions by an admin, writes that fail, a crash that forgets
    everything in flight): a recipient that is pending is, after any step, still there with
    its message, its address, its flags and its original recipient, unless an admin deleted
    this message; and it is still pending unless an attempt for its id marked it. It is then
    delivered only when the other side took the mail, and failed only when that attempt was
    refused, or the message would expire before the next try. The attempt was made for this
    very recipient and message, as long as the store gives no id twice. *)
Theorem nobody_lost retries once s s' i r : reached retries once s -> step retries once s s' -> recipients (db s) !! i = Some r -> status r = Pending ->
  goes_on once s s' i r \/ taken_out s s' r.
Proof.
  intros Hreach Hstep Hr Hs. pose proof (inv_reached _ _ _ Hreach) as Hinv. destruct Hstep.
  all: try (left; by apply kept_goes_on; [done|apply safe_refl|done|done]).
  - left. apply kept_goes_on; [done|by apply safe_enqueue|done|done].
  - left. apply kept_goes_on; [done|by apply safe_resend|done|done].
  - left. apply kept_goes_on; [done|apply safe_refused|done|done].
  - left. apply kept_goes_on; [done|apply safe_retry|done|done].
  - destruct (decide (message_id r = id)) as [<-|Hne]; [by right|left]. unfold delete_queue_message.
    eapply stays_goes_on; [done..|]. exists r. destruct (messages (db s) !! id); [|done]. cbn [db snd with_db].
    destruct (drop_other id (db s) i r Hr Hne) as [H1 H2]. by rewrite H1, H2.
  - left. apply kept_goes_on; [done| |done|done]. destruct (claim_due_deliveries (clock s) LEASE_SECS chosen (db s)) as [es d] eqn:E.
    destruct (claim_rows s chosen es d ltac:(done) E) as (-> & Hsafe & _). exact Hsafe.
  - left. apply kept_goes_on; [done| |done|done]. unfold start. destruct (take_off _ _). apply safe_refl.
  - left. by eapply mark_goes_on.
  - left. apply kept_goes_on; [done| |done|done]. subst d. cbn. destruct broken; [apply safe_refl|apply safe_refused].
  - left. eapply stays_goes_on; [done..|]. exists r. subst d. destruct broken; [done|].
    destruct (complete_ok (t_id t) (db s) i r (i_fk _ _ Hinv) Hr Hs) as [H1 H2]. cbn [db with_db with_tasks]. by rewrite H1, H2.
Qed.
End worker.
