(* ===== verification/DeliveryEnds.v ===== *)
(** * Putting mail off comes to an end

    Between two claims of a recipient lie at least five minutes, and no try is put off beyond
    the day the message expires: how often a recipient is tried is bounded by how long it is
    there, and how often it is put off by how long its message lives. Then the queue at
    concrete mail, and what becomes of it when an id is used twice. *)

From S2P Require Import Prelude Utf8 Microsoft Queue Delivery DeliverySafe.
Import Queue Delivery.

(** ** Counting *)

Abbreviation count l i := (Z.of_nat (count_occ Z.eq_dec l i)).

(** Attempts that were claimed and not started, that talk to the other side, and that know
    the answer and have not marked it. *)
Definition sending_ids (t : Task) : list Z := match phase t with Sending => ids (t_recipients t) | _ => [] end.
Definition marking_ids (t : Task) : list Z := match phase t with Sending => [] | _ => ids (todo t) end.

Definition sending (s : S) : list Z := concat (map sending_ids (tasks s)).
Definition marking (s : S) : list Z := concat (map marking_ids (tasks s)).

(** Whom an attempt keeps in flight. *)
Definition held (t : Task) : list Z := match phase t with Left => [] | _ => ids (t_recipients t) end.

Definition all_held (ts : list Task) : list Z := concat (map held ts).

(** No more than two claims of a recipient are open: one that is not started, and one whose
    attempt is in flight. *)
Record apart (s : S) : Prop := {
  a_sub : forall t, t ∈ tasks s -> NoDup (ids (todo t)) /\ forall i, i ∈ ids (todo t) -> i ∈ held t;
  a_nodup : NoDup (all_held (tasks s));
  a_inflight : forall i, i ∈ all_held (tasks s) -> i ∈ inflight s;
  a_once : NoDup (claimed_ids s) }.

Lemma concat_mid {A} (f : A -> list Z) before x after : concat (map f (before ++ x :: after)) = concat (map f before) ++ f x ++ concat (map f after).
Proof. by rewrite map_app, concat_app. Qed.

Lemma all_held_mid before t after : all_held (before ++ t :: after) = all_held before ++ held t ++ all_held after.
Proof. apply concat_mid. Qed.

Lemma in_concat_map {A} (f : A -> list Z) l x i : x ∈ l -> i ∈ f x -> i ∈ concat (map f l).
Proof. intros Hx Hi. apply list_elem_of_In, in_concat. exists (f x). split; [by apply in_map, list_elem_of_In | by apply list_elem_of_In]. Qed.

Lemma concat_map_in {A} (f : A -> list Z) l i : i ∈ concat (map f l) -> exists x, x ∈ l /\ i ∈ f x.
Proof. intros (k & (x & <- & Hx)%in_map_iff & Hi)%list_elem_of_In%in_concat. exists x. split; by apply list_elem_of_In. Qed.

Lemma NoDup_apart {A} (a b c : list A) x : NoDup (a ++ b ++ c) -> x ∈ b -> x ∉ a /\ x ∉ c.
Proof.
  intros (_ & Hb & (_ & Hc & _)%NoDup_app)%NoDup_app Hx. split; [|by apply Hc]. intros Ha. apply (Hb x Ha), elem_of_app. by left.
Qed.

Lemma NoDup_concat {A} (ls : list (list A)) l : NoDup (concat ls) -> l ∈ ls -> NoDup l.
Proof.
  induction ls as [|k ls IH]; intros Hnd Hin; [by apply elem_of_nil in Hin|]. apply NoDup_app in Hnd as (Hk & _ & Hr).
  apply elem_of_cons in Hin as [->|Hin]; [done|by apply IH].
Qed.

Lemma count_nodup l i : NoDup l -> 0 <= count l i <= 1.
Proof. intros Hl. apply NoDup_ListNoDup, (NoDup_count_occ Z.eq_dec) with (x := i) in Hl. lia. Qed.

Lemma count_in l i : i ∈ l -> 1 <= count l i.
Proof. intros Hi%list_elem_of_In. apply (count_occ_In Z.eq_dec) in Hi. lia. Qed.

Lemma count_out l i : i ∉ l -> count l i = 0.
Proof. intros Hi. rewrite (proj1 (count_occ_not_In Z.eq_dec l i)); [done|]. by rewrite <- list_elem_of_In. Qed.

Lemma count_app l k i : count (l ++ k) i = count l i + count k i.
Proof. rewrite count_occ_app. lia. Qed.

Lemma count_perm l k i : l ≡ₚ k -> count l i = count k i.
Proof. intros H. by rewrite (proj1 (Permutation_count_occ Z.eq_dec l k) H i). Qed.

Lemma count_sub l k i : NoDup l -> (forall j, j ∈ l -> j ∈ k) -> count l i <= count k i.
Proof.
  intros Hl Hsub. destruct (decide (i ∈ l)) as [Hi|Hi]; [|rewrite (count_out l) by done; lia].
  pose proof (count_nodup l i Hl). pose proof (count_in k i (Hsub i Hi)). lia.
Qed.

(** ** One attempt at a time *)

(** A task that goes on to something else. *)
Lemma apart_task s s' before t t' after : apart s -> tasks s = before ++ t :: after -> tasks s' = before ++ t' :: after -> claimed s' = claimed s ->
  inflight s' = inflight s -> held t' = held t -> NoDup (ids (todo t')) -> (forall i, i ∈ ids (todo t') -> i ∈ held t') -> apart s'.
Proof.
  intros [] Hts Hts' Hc Hfl Hh Hnd Hin. assert (all_held (tasks s') = all_held (tasks s)) as Hall by (by rewrite Hts, Hts', !all_held_mid, Hh).
  constructor; rewrite ?Hall, ?Hfl; try done; [|by unfold claimed_ids; rewrite Hc].
  intros x Hx. rewrite Hts', elem_of_app, elem_of_cons in Hx. rewrite Hts in a_sub0.
  destruct Hx as [Hx|[->|Hx]]; [apply a_sub0; rewrite elem_of_app; tauto|done|apply a_sub0; rewrite elem_of_app, elem_of_cons; tauto].
Qed.

(** Fewer tasks, with the same ones in flight. *)
Lemma apart_fewer s s' before t after : apart s -> tasks s = before ++ t :: after -> tasks s' = before ++ after -> claimed s' = claimed s ->
  inflight s' = inflight s -> apart s'.
Proof.
  intros [] Hts Hts' Hc Hfl. assert (forall x, x ∈ tasks s' -> x ∈ tasks s) as Hel by (intros x; rewrite Hts, Hts', !elem_of_app, elem_of_cons; tauto).
  rewrite Hts, all_held_mid in a_nodup0. assert (all_held (tasks s') = all_held before ++ all_held after) as Hall by (rewrite Hts'; unfold all_held; by rewrite map_app, concat_app).
  constructor; [intros x Hx; by apply a_sub0, Hel| | |by unfold claimed_ids; rewrite Hc].
  - rewrite Hall. apply NoDup_app in a_nodup0 as (Hb & Hx & Ha). apply NoDup_app in Ha as (_ & _ & Ha). apply NoDup_app. split; [done|]. split; [|done].
    intros i Hi Hi'. apply (Hx i Hi), elem_of_app. by right.
  - rewrite Hfl. intros i Hi. apply a_inflight0. rewrite Hts, all_held_mid. rewrite Hall in Hi. rewrite !elem_of_app in *. tauto.
Qed.

Lemma tasks_of_held e rs : all_held (tasks_of e rs) ≡ₚ ids rs.
Proof.
  unfold all_held, tasks_of. rewrite map_map. cbn [held phase t_recipients]. unfold ids. rewrite <- (map_map snd (map fst)), <- concat_map.
  by rewrite by_domain_all.
Qed.

Lemma tasks_of_sending e rs : concat (map sending_ids (tasks_of e rs)) ≡ₚ ids rs.
Proof. rewrite <- (tasks_of_held e rs). unfold all_held, tasks_of. by rewrite !map_map. Qed.

Lemma apart_start s e rest : claimed s = e :: rest -> apart s -> apart (start e rest s).
Proof.
  intros Hc []. unfold start. pose proof (take_off_ok (entry_recipients e) (inflight s)) as Hto. destruct (take_off _ _) as [rs fl].
  destruct Hto as (Hkept & Hnd & Hfl).
  assert (all_held (tasks s ++ tasks_of e rs) ≡ₚ all_held (tasks s) ++ ids rs) as Hall.
  { rewrite <- tasks_of_held with (e := e). unfold all_held. by rewrite map_app, concat_app. }
  assert (NoDup (all_held (tasks s ++ tasks_of e rs))) as Hnd'.
  { rewrite Hall. apply NoDup_app. split_and!; [done| |done]. intros i Hi (x & -> & Hx)%list_elem_of_fmap.
    destruct (Hkept _ Hx) as (_ & Hnin & _). by apply Hnin, a_inflight0. }
  constructor; cbn -[all_held]; try done.
  - intros t [Ht|Ht]%elem_of_app; [by apply a_sub0|]. destruct (tasks_of_elem _ _ _ Ht) as (_ & Hs & _). unfold DeliverySafe.todo, held. rewrite Hs. split; [|done].
    eapply NoDup_concat; [exact Hnd'|]. apply list_elem_of_In. replace (ids (t_recipients t)) with (held t) by (unfold held; by rewrite Hs).
    apply in_map, list_elem_of_In, elem_of_app. by right.
  - intros i. rewrite Hall. intros [Hi|(x & -> & Hx)%list_elem_of_fmap]%elem_of_app; [by apply Hfl, a_inflight0|by apply Hkept].
  - unfold claimed_ids in *. rewrite Hc in a_once0. cbn in *. by apply NoDup_app in a_once0 as (_ & _ & ?).
Qed.

Lemma apart_leave s before t after there notes : tasks s = before ++ t :: after -> phase t = Marking there [] notes ->
  apart s -> apart (leave before t after there notes s).
Proof.
  intros Hts Hp []. rewrite Hts in *. assert (held t = ids (t_recipients t)) as Hh by (unfold held; by rewrite Hp). rewrite all_held_mid in *.
  constructor; cbn -[all_held]; rewrite ?all_held_mid; cbn [held at_phase phase app]; try done.
  - intros x [Hx|[->|Hx]%elem_of_cons]%elem_of_app; [apply a_sub0; rewrite elem_of_app; tauto| |apply a_sub0; rewrite elem_of_app, elem_of_cons; tauto].
    split; [constructor|by intros i ?%elem_of_nil].
  - apply NoDup_app in a_nodup0 as (Hb & Hx & Ha). apply NoDup_app in Ha as (_ & _ & Ha). apply NoDup_app. split; [done|]. split; [|done].
    intros i Hi Hi'. apply (Hx i Hi), elem_of_app. by right.
  - intros i Hi. apply elem_of_difference. split; [apply a_inflight0; rewrite !elem_of_app in *; tauto|]. rewrite elem_of_list_to_set, <- Hh. intros Hi'.
    destruct (NoDup_apart _ _ _ i a_nodup0 Hi') as [Hb Ha]. by apply elem_of_app in Hi as [?|?].
Qed.

Section worker.
Context (never delay : Z) (normalize : list byte -> option (list byte * list byte)).
Context (new_message : gmap Z QueuedMessage -> Z) (new_recipient : gmap Z QueueRecipient -> Z) (new_refused : gmap Z Refused -> Z).
Hypothesis message_is_new : forall t, t !! new_message t = None.
Hypothesis recipient_is_new : forall t, t !! new_recipient t = None.
Notation step := (step never delay new_refused normalize new_message new_recipient).
Notation reached := (reached never delay new_refused normalize new_message new_recipient).

Lemma apart_step retries once s s' : apart s -> step retries once s s' -> apart s'.
Proof.
  intros Ha Hstep. destruct Hstep; try (by destruct Ha).
  - destruct Ha. unfold claim. destruct (claim_due_deliveries _ _ _ _) as [es d] eqn:E. constructor; try done. cbn. by eapply claim_ok.
  - by apply apart_start.
  - pose proof (a_sub s Ha t) as Hsub. destruct Hsub as [Hnd Hin]; [rewrite H, elem_of_app, elem_of_cons; tauto|].
    destruct (zip_prefix (t_recipients t) outcomes) as [tl Htl]. unfold DeliverySafe.todo, held in *. rewrite H0 in *.
    eapply apart_task; [exact Ha|exact H|done|done|done|unfold held; by rewrite H0|..]; unfold DeliverySafe.todo, held; cbn.
    + rewrite Htl in Hnd. unfold ids in Hnd. rewrite map_app in Hnd. by apply NoDup_app in Hnd as (? & _ & _).
    + intros i Hi. rewrite Htl. unfold ids. rewrite map_app, elem_of_app. by left.
  - pose proof (a_sub s Ha t) as Hsub. destruct Hsub as [Hnd Hin]; [rewrite H, elem_of_app, elem_of_cons; tauto|].
    unfold DeliverySafe.todo, held in *. rewrite H0 in *. cbn in Hnd, Hin. apply NoDup_cons in Hnd as [_ Hnd].
    eapply apart_task; [exact Ha|exact H|done|done|done|..]; unfold DeliverySafe.todo, held; rewrite ?H0; destruct refusal; cbn; try done;
      intros j Hj; apply Hin; by right.
  - pose proof (a_sub s Ha t) as Hsub. destruct Hsub as [Hnd Hin]; [rewrite H, elem_of_app, elem_of_cons; tauto|].
    unfold DeliverySafe.todo, held in *. rewrite H0 in *. eapply apart_task; [exact Ha|exact H|done|done|done|..]; unfold DeliverySafe.todo, held; rewrite ?H0; done.
  - by apply apart_leave.
  - by eapply apart_fewer.
  - constructor; [by intros ? ?%elem_of_nil|by apply NoDup_nil|by intros ? ?%elem_of_nil|by apply NoDup_nil].
Qed.

Lemma apart_reached retries once s : reached retries once s -> apart s.
Proof. induction 1; [|by eapply apart_step]. constructor; [by intros ? ?%elem_of_nil|by apply NoDup_nil|by intros ? ?%elem_of_nil|by apply NoDup_nil]. Qed.

Lemma marking_held s i : apart s -> i ∈ marking s -> i ∈ all_held (tasks s).
Proof.
  intros [] (t & Ht & Hi)%concat_map_in. apply (in_concat_map held _ t); [done|]. apply a_sub0; [done|]. unfold marking_ids in Hi. destruct (phase t); [by apply elem_of_nil in Hi|done..].
Qed.

(** At most one of them is in flight. *)
Lemma in_flight_once s i : apart s -> 0 <= count (sending s) i + count (marking s) i <= 1.
Proof.
  intros [Hsub Hnd _ _]. split; [lia|]. enough (count (sending s) i + count (marking s) i <= count (all_held (tasks s)) i) as H.
  { pose proof (count_nodup _ i Hnd). lia. }
  unfold sending, marking, all_held in *. clear Hnd. induction (tasks s) as [|t ts IH]; [done|]. cbn [map concat]. rewrite !count_app.
  specialize (IH (fun x Hx => Hsub x ltac:(by right))). destruct (Hsub t ltac:(by left)) as [Hn Hin].
  assert (count (sending_ids t) i + count (marking_ids t) i <= count (held t) i); [|lia]. unfold sending_ids, marking_ids. destruct (phase t) eqn:Hp.
  - unfold held. rewrite Hp. cbn. lia.
  - pose proof (count_sub _ _ i Hn Hin). cbn. lia.
  - pose proof (count_sub _ _ i Hn Hin). cbn. lia.
  - unfold todo. rewrite Hp. cbn. lia.
Qed.

(** ** What every step keeps *)

(** Claims of a recipient that were tried or are to be tried. *)
Definition begun (s : S) (i : Z) : Z := count (tries s) i + count (sending s) i + count (claimed_ids s) i.

(** What its row may still hear of. *)
Definition open (s : S) (i : Z) : Z := count (claimed_ids s) i + count (sending s) i + count (marking s) i.

Definition life (m : QueuedMessage) : Z := Z.max 0 (expires_at m - created_at m).

(** A row, and what was and is begun for it: claims come in their time, who waits has time
    left for what was put off, and of the marks that are to come two may be late. *)
Record timely (s : S) (m : QueuedMessage) (i : Z) (r : QueueRecipient) : Prop := {
  t_attempts : 0 <= attempts r;
  t_tried : attempts r + count (marking s) i <= count (tries s) i;
  t_rate : 0 < begun s i -> created_at m + 300 * (begun s i - 1) <= clock s;
  t_next : status r = Pending -> created_at m + 300 * begun s i <= next_attempt_at r;
  t_life : status r = Pending -> 300 * attempts r <= life m;
  t_late : 300 * (attempts r + open s i) <= life m + 600 }.

Record ends (s : S) : Prop := {
  e_rows : forall i r m, recipients (db s) !! i = Some r -> messages (db s) !! message_id r = Some m -> timely s m i r;
  e_used : forall i, i ∈ tries s -> i ∈ used s }.

(** Nothing new is begun for it: a step that only moves what there is. *)
Record moves (s s' : S) (i : Z) : Prop := {
  m_tries : count (tries s) i <= count (tries s') i;
  m_begun : begun s' i <= begun s i;
  m_open : open s' i <= open s i;
  m_marking : count (marking s') i - count (tries s') i <= count (marking s) i - count (tries s) i;
  m_clock : clock s <= clock s' }.

Lemma moves_same s s' i : tries s' = tries s -> tasks s' = tasks s -> claimed s' = claimed s -> clock s <= clock s' -> moves s s' i.
Proof. intros Ht Hts Hc Hk. by constructor; unfold begun, open, sending, marking, claimed_ids; rewrite ?Ht, ?Hts, ?Hc. Qed.

(** One task goes on to something else. *)
Lemma moves_task s s' i before t t' after l : tasks s = before ++ t :: after -> tasks s' = before ++ t' :: after -> claimed s' = claimed s ->
  clock s' = clock s -> tries s' = tries s ++ l -> count l i + count (sending_ids t') i <= count (sending_ids t) i ->
  count (sending_ids t') i + count (marking_ids t') i <= count (sending_ids t) i + count (marking_ids t) i ->
  count (marking_ids t') i <= count (marking_ids t) i + count l i -> moves s s' i.
Proof.
  intros Hts Hts' Hc Hk Hl Hs Ho Hm. constructor; unfold begun, open, sending, marking, claimed_ids; rewrite ?Hl, ?Hts, ?Hts', ?Hc, ?Hk, ?concat_mid, ?count_app; lia.
Qed.

Lemma timely_moves s s' m i r : moves s s' i -> timely s m i r -> timely s' m i r.
Proof.
  intros [] []. constructor; [done|lia|intros H; specialize (t_rate0 ltac:(lia)); lia|intros H; specialize (t_next0 H); lia|done|lia].
Qed.

Lemma ends_moves s s' : ends s -> db s' = db s -> (forall i, moves s s' i) -> (forall i, i ∈ tries s' -> i ∈ used s') -> ends s'.
Proof.
  intros Hends Hd Hm Hu. constructor; [|done]. rewrite Hd. intros i r m Hr Hmsg. eapply timely_moves; [apply Hm|by eapply e_rows].
Qed.

(** A recipient nothing was begun for. *)
Definition unknown (s : S) (i : Z) : Prop := count (tries s) i = 0 /\ count (sending s) i = 0 /\ count (claimed_ids s) i = 0 /\ count (marking s) i = 0.

Lemma unused_unknown once s i : inv once s -> ends s -> i ∉ used s -> unknown s i.
Proof.
  intros [_ _ Hm] [_ Ht] Hi. assert (forall m ir, made s m ir -> ir.1 <> i) as Hno by (intros m ir Hir <-; by destruct (Hm m ir Hir)).
  split_and!; apply count_out; intros Hin; [by apply Hi, Ht|..].
  - apply concat_map_in in Hin as (t & Hx & Hid). unfold sending_ids in Hid. destruct (phase t) eqn:Hp; try by apply elem_of_nil in Hid.
    apply list_elem_of_fmap in Hid as (ir & -> & Hir). apply (Hno (t_message t) ir); [|done]. left. exists t. unfold todo. by rewrite Hp.
  - apply concat_map_in in Hin as (e & Hx & (ir & -> & Hir)%list_elem_of_fmap). apply (Hno (message e) ir); [|done]. right. by exists e.
  - apply concat_map_in in Hin as (t & Hx & Hid). unfold marking_ids in Hid.
    assert (i ∈ ids (todo t)) as (ir & -> & Hir)%list_elem_of_fmap by (destruct (phase t); [by apply elem_of_nil in Hid|done..]).
    apply (Hno (t_message t) ir); [|done]. left. by exists t.
Qed.

(** A row that is there is as it was, or not touched but put off or brought forward in time. *)
Definition same_times (d d' : Db) : Prop := forall i r' m, recipients d' !! i = Some r' -> messages d' !! message_id r' = Some m ->
  (exists r, recipients d !! i = Some r /\ messages d !! message_id r = Some m /\ r' = r) \/
  (recipients d !! i = None /\ attempts r' = 0 /\ created_at m <= next_attempt_at r').

Lemma same_times_refl d : same_times d d.
Proof. intros i r m Hr Hm. left. by exists r. Qed.

Lemma same_times_trans d d' d'' : (forall i, is_Some (recipients d !! i) -> is_Some (recipients d' !! i)) ->
  same_times d d' -> same_times d' d'' -> same_times d d''.
Proof.
  intros Hdom H H' i r m Hr Hm. destruct (H' i r m Hr Hm) as [(q & Hq & Hmq & ->)|(Hn & Ha)]; [by apply H|].
  right. split; [|done]. destruct (recipients d !! i) eqn:E; [|done]. destruct (Hdom i); [by eexists|congruence].
Qed.

(** The table changes: rows go, or new ones come. *)
Lemma ends_fewer s d : (forall i r m, recipients d !! i = Some r -> messages d !! message_id r = Some m ->
  recipients (db s) !! i = Some r /\ messages (db s) !! message_id r = Some m) -> ends s -> ends (with_db d s).
Proof.
  intros H Hends. constructor; cbn.
  - intros i r m Hr Hm. destruct (H i r m Hr Hm). eapply timely_moves; [|by eapply e_rows]. by apply moves_same.
  - intros i Hi. apply elem_of_union. left. by apply (e_used s Hends).
Qed.

Lemma ends_db s d : inv True s -> same_times (db s) d -> ids_are_new True s d -> ends s -> ends (with_db d s).
Proof.
  intros Hinv Hst Hnew Hends. constructor; cbn.
  - intros i r m Hr Hm. destruct (Hst i r m Hr Hm) as [(q & Hq & Hmq & ->)|(Hn & Ha & Hc)].
    + eapply timely_moves; [|by eapply e_rows]. by apply moves_same.
    + assert (unknown s i) as (H1 & H2 & H3 & H4) by (eapply unused_unknown; [done|done|apply Hnew; [done|by eexists|done]]).
      constructor; unfold begun, open; change (tries (with_db d s)) with (tries s); change (sending (with_db d s)) with (sending s); change (marking (with_db d s)) with (marking s);
        change (claimed_ids (with_db d s)) with (claimed_ids s); rewrite ?H1, ?H2, ?H3, ?H4, ?Ha; unfold life; try lia.
  - intros i Hi. apply elem_of_union. left. by apply (e_used s Hends).
Qed.

(** ** New mail *)

Lemma drop_times id d : same_times d (drop_message id d).
Proof.
  intros i r m. cbn. intros [Hi Hne]%map_lookup_filter_Some. cbn in Hne. rewrite lookup_delete_ne by done. intros Hm. left. by exists r.
Qed.

(** What an insertion of rows adds to a table that is well-formed. *)
Definition adds (d d' : Db) : Prop := fk d -> same_times d d' /\ fk d' /\ forall i, is_Some (recipients d !! i) -> is_Some (recipients d' !! i).

Lemma adds_refl d : adds d d.
Proof. intros Hf. split; [apply same_times_refl|done]. Qed.

Lemma adds_trans d d' d'' : adds d d' -> adds d' d'' -> adds d d''.
Proof.
  intros H H' Hf. destruct (H Hf) as (H1 & Hf' & H2). destruct (H' Hf') as (H3 & Hf'' & H4).
  split; [by eapply same_times_trans|]. split; [done|]. intros i Hi. by apply H4, H2.
Qed.

Lemma adds_refused rs d : adds d (with_refused rs d).
Proof. intros Hf. split; [|done]. exact (same_times_refl d). Qed.

Lemma adds_message m d : adds d (insert_message new_message m d).2.
Proof.
  intros Hf. assert (forall j r, recipients d !! j = Some r -> new_message (messages d) <> message_id r) as Hne.
  { intros j r Hj E. apply Hf in Hj as [x Hx]. by rewrite <- E, message_is_new in Hx. }
  split; [|split; [|done]].
  - intros i r n. cbn. intros Hr. rewrite lookup_insert_ne by eauto. intros Hn. left. by exists r.
  - intros i r. cbn. intros Hi. rewrite lookup_insert_ne by eauto. by eapply Hf.
Qed.

Lemma adds_fresh id a dom flags orc now m d : messages d !! id = Some m -> created_at m = now ->
  adds d (insert_recipient new_recipient (fresh_recipient id a dom now flags orc) d).
Proof.
  intros Hm Hc Hf. split; [|split].
  - intros i r n. cbn. intros [[<- <-]|[_ Hi]]%lookup_insert_Some Hn; [|left; by exists r].
    right. cbn in Hn |- *. rewrite Hm in Hn. injection Hn as <-. split; [apply recipient_is_new|]. split; [done|lia].
  - intros i r. cbn. intros [[_ <-]|[_ Hi]]%lookup_insert_Some; [by eexists|by eapply Hf].
  - intros i Hi. cbn. rewrite lookup_insert_is_Some. destruct (decide (new_recipient (recipients d) = i)); [by left|by right].
Qed.

Lemma adds_enqueue now rp rs b sz a e lt d : adds d (enqueue normalize new_message new_recipient now rp rs b sz a e lt d).2.
Proof.
  unfold enqueue. destruct rs as [|r rs]; [apply adds_refl|]. destruct (normalized _ _) as [ns|]; [|apply adds_refl]. cbv zeta.
  set (m := Build_QueuedMessage _ _ _ _ _ _ _). pose proof (adds_message m d) as H1.
  assert (messages (insert_message new_message m d).2 !! (insert_message new_message m d).1 = Some m) as Hid by apply lookup_insert_eq.
  destruct (insert_message _ _ _) as [id d1]. cbn [fst snd] in *. eapply adds_trans; [exact H1|]. clear H1.
  revert d1 Hid. induction ns as [|n ns IH]; intros d1 Hid; [apply adds_refl|]. simpl. apply (adds_trans _ (insert_fresh new_recipient id now d1 n)).
  - destruct n as [[local domain] x]. by eapply adds_fresh.
  - apply IH. by rewrite insert_fresh_messages.
Qed.

Lemma adds_resend now may bsz rows id d : adds d (resend_refused new_message new_recipient now may bsz rows id d).2.
Proof.
  unfold resend_refused. destruct (List.find _ rows) as [[j fixed]|]; [|apply adds_refl].
  set (cause := refusal_cause _ _). set (o := {| resent := 0 |}). clearbody cause o.
  assert (forall acc row, adds acc.2 (resend_one new_message new_recipient now may bsz cause acc row).2) as Hone.
  { intros [out d1] [i r]. unfold resend_one. cbn [snd]. cbv zeta. case_match; [apply adds_refl|].
    destruct (kept r) as [b|]; [|apply adds_refused]. destruct (_ ← _; _) as [a|]; [|apply adds_refl].
    destruct (bsz b) as [sz|]; [|apply adds_refused].
    set (m := Build_QueuedMessage _ _ _ _ _ _ _). pose proof (adds_message m d1) as H1.
    assert (messages (insert_message new_message m d1).2 !! (insert_message new_message m d1).1 = Some m) as Hid by apply lookup_insert_eq.
    destruct (insert_message _ _ _) as [mid d2]. cbn [fst snd] in *. eapply adds_trans; [exact H1|].
    eapply adds_trans; [|apply adds_refused]. by eapply adds_fresh. }
  assert (forall acc, adds acc.2 (foldl (resend_one new_message new_recipient now may bsz cause) acc rows).2) as Hall.
  { induction rows as [|row rows IH]; intros acc; [apply adds_refl|]. simpl. eapply adds_trans; [apply Hone | apply IH]. }
  specialize (Hall (o, d)). destruct (foldl _ _ _) as [out d']. exact Hall.
Qed.

(** ** Claims *)

Lemma leases_lookup u l : forall d j, NoDup l -> recipients (foldl (lease_one u) d l) !! j = (if decide (j ∈ l) then leased u <$> recipients d !! j else recipients d !! j).
Proof.
  induction l as [|i l IH]; intros d j Hnd; [by rewrite decide_False by apply not_elem_of_nil|]. apply NoDup_cons in Hnd as [Hi Hnd].
  cbn [foldl]. rewrite IH by done. cbn. destruct (decide (j = i)) as [->|Hne].
  - rewrite decide_False by done. rewrite decide_True by by left. by rewrite lookup_alter_eq.
  - rewrite lookup_alter_ne by done. destruct (decide (j ∈ l)); [rewrite decide_True by by right|rewrite decide_False; [done|]]; [done|].
    rewrite elem_of_cons. tauto.
Qed.

Lemma leases_messages u l : forall d, messages (foldl (lease_one u) d l) = messages d.
Proof. induction l as [|i l IH]; intros d; [done|]. cbn. by rewrite IH. Qed.

Lemma claimed_chosen d l : forall es i, i ∈ entry_ids (foldl (add_claimed d) es l) -> i ∈ l \/ i ∈ entry_ids es.
Proof.
  induction l as [|j l IH]; intros es i Hi; [by right|]. cbn in Hi. destruct (IH _ _ Hi) as [?|Hin]; [left; by right|].
  unfold add_claimed in Hin. case_match; [|by right]. case_match; [|by right]. rewrite add_to_entries_ids in Hin.
  apply elem_of_cons in Hin as [->|?]; [left; by left|by right].
Qed.

Lemma ends_claim s chosen : apart s -> claimed s = [] -> picks (clock s) CLAIM chosen (db s) -> ends s -> ends (claim chosen s).
Proof.
  intros Ha Hc Hp Hends. unfold claim. destruct (claim_due_deliveries _ _ _ _) as [es d] eqn:E.
  pose proof (claim_ok _ _ _ _ _ _ _ Hp E) as (_ & _ & Hnd). unfold claim_due_deliveries in E. injection E as Hes <-.
  set (d := foldl _ _ chosen) in *. constructor; [|apply Hends]. cbn [db]. intros i r' m Hr'. unfold d. rewrite leases_messages. intros Hm.
  unfold d in Hr'. rewrite leases_lookup in Hr' by apply Hp. set (s' := Build_S _ _ _ _ _ _ _ _).
  assert (begun s i = count (tries s) i + count (sending s) i) as Hb by (unfold begun, claimed_ids; rewrite Hc; cbn [map concat count_occ]; lia).
  assert (begun s' i = begun s i + count (entry_ids es) i) as Hb' by (rewrite Hb; done).
  assert (open s' i = open s i + count (entry_ids es) i) as Ho'.
  { unfold open. change (claimed_ids s') with (entry_ids es). change (sending s') with (sending s). change (marking s') with (marking s).
    unfold claimed_ids. rewrite Hc. cbn [map concat count_occ]. lia. }
  pose proof (count_nodup _ i Hnd) as Hone. destruct (decide (i ∈ chosen)) as [Hin|Hout].
  - apply fmap_Some in Hr' as (r & Hr & ->). destruct (picks_due _ _ _ _ Hp i Hin) as (q & Hq & Hdue). rewrite Hr in Hq. injection Hq as <-.
    apply andb_prop in Hdue as [Hs%bool_decide_eq_true Hnext%Z.leb_le]. destruct (e_rows s Hends i r m Hr Hm) as [H1 H2 H3 H4 H5 H6].
    specialize (H4 Hs). specialize (H5 Hs). pose proof (in_flight_once s i Ha) as Hfl.
    constructor; cbn [attempts status next_attempt_at leased]; change (marking s') with (marking s); change (tries s') with (tries s); change (clock s') with (clock s);
      rewrite ?Hb', ?Ho'; unfold LEASE_SECS; try done; try lia. unfold open, claimed_ids. rewrite Hc. cbn [map concat count_occ]. lia.
  - assert (count (entry_ids es) i = 0) as H0.
    { apply count_out. subst es. intros [?|Hn%elem_of_nil]%claimed_chosen; done. }
    eapply timely_moves; [|by eapply e_rows]. constructor; rewrite ?Hb', ?Ho', ?H0; change (marking s') with (marking s); change (tries s') with (tries s);
      change (clock s') with (clock s); lia.
Qed.

(** ** Every other step *)

Lemma ends_start s e rest : claimed s = e :: rest -> ends s -> ends (start e rest s).
Proof.
  intros Hc Hends. unfold start. pose proof (take_off_ok (entry_recipients e) (inflight s)) as Hto. destruct (take_off _ _) as [rs fl].
  destruct Hto as (Hkept & Hnd & _). eapply ends_moves; [exact Hends|done| |apply Hends]. intros i. set (s' := Build_S _ _ _ _ _ _ _ _).
  assert (count (sending s') i = count (sending s) i + count (ids rs) i) as Hs.
  { unfold sending. cbn. rewrite map_app, concat_app, count_app. by rewrite (count_perm _ _ i (tasks_of_sending e rs)). }
  assert (count (marking s') i = count (marking s) i) as Hm.
  { unfold marking. cbn. rewrite map_app, concat_app, count_app. enough (concat (map marking_ids (tasks_of e rs)) = []) as -> by (cbn; lia).
    unfold tasks_of. rewrite map_map. cbn. by induction (by_domain rs). }
  assert (count (claimed_ids s) i = count (ids (entry_recipients e)) i + count (claimed_ids s') i) as Hcl by (unfold claimed_ids; rewrite Hc; cbn [map concat]; by rewrite count_app).
  assert (count (ids rs) i <= count (ids (entry_recipients e)) i) as Hle.
  { apply count_sub; [done|]. intros j (ir & -> & Hir)%list_elem_of_fmap. apply list_elem_of_fmap. exists ir. split; [done|]. by apply Hkept. }
  constructor; unfold begun, open; rewrite ?Hs, ?Hm, ?Hcl; cbn; lia.
Qed.

Lemma ends_answers s before t after there answers : inv True s -> tasks s = before ++ t :: after -> phase t = Sending -> ends s ->
  ends (with_tries (ids (t_recipients t)) (with_tasks (before ++ at_phase (Marking there (zip (t_recipients t) answers) no_notes) t :: after) s)).
Proof.
  intros Hinv Hts Hp Hends. eapply ends_moves; [exact Hends|done| |].
  - intros i. destruct (zip_prefix (t_recipients t) answers) as [tl Htl].
    assert (count (ids (map fst (zip (t_recipients t) answers))) i <= count (ids (t_recipients t)) i) as Hle.
    { unfold ids. rewrite Htl at 2. rewrite map_app, count_app. lia. }
    eapply moves_task; [exact Hts|done..| | |]; unfold sending_ids, marking_ids, DeliverySafe.todo; rewrite Hp; cbn [phase at_phase count_occ]; lia.
  - cbn. intros i [Hi|(ir & -> & Hir)%list_elem_of_fmap]%elem_of_app; [by apply Hends|]. apply (i_made _ _ Hinv (t_message t) ir). left. exists t.
    rewrite Hts, elem_of_app, elem_of_cons. split; [tauto|]. split; [done|]. unfold todo. by rewrite Hp.
Qed.

(** A task that says no more of anyone. *)
Lemma ends_quiet s before t p after : tasks s = before ++ t :: after -> sending_ids t = [] -> sending_ids (at_phase p t) = [] ->
  (forall i, count (marking_ids (at_phase p t)) i <= count (marking_ids t) i) -> ends s -> ends (with_tasks (before ++ at_phase p t :: after) s).
Proof.
  intros Hts Hs Hs' Hm Hends. eapply ends_moves; [exact Hends|done| |apply Hends]. intros i. specialize (Hm i).
  eapply (moves_task _ _ _ before t _ after []); [exact Hts|done|done|done|by rewrite app_nil_r|..]; rewrite ?Hs, ?Hs'; cbn; lia.
Qed.

Lemma ends_mark s before t after there i r o rest notes broken notes' refusal d : inv True s -> tasks s = before ++ t :: after ->
  phase t = Marking there (((i, r), o) :: rest) notes ->
  mark_one never delay (clock s) broken (t_message t) i r o notes (db s) = (notes', (refusal, d)) -> ends s ->
  ends (with_db d (with_tasks (before ++ at_phase (then_note i refusal there rest notes') t :: after) s)).
Proof.
  intros Hinv Hts Hp Hmark Hends. apply mark_one_rows in Hmark as (st & text & next & Hsays & Hrows). set (p := then_note _ _ _ _ _).
  assert (marking_ids t = i :: marking_ids (at_phase p t)) as Hids by (unfold marking_ids, todo; rewrite Hp; by destruct refusal).
  assert (sending_ids (at_phase p t) = [] /\ sending_ids t = []) as [Hs' Hs] by (unfold sending_ids; rewrite Hp; by destruct refusal).
  assert (ends (with_tasks (before ++ at_phase p t :: after) s)) as Hq.
  { eapply ends_quiet; [done|done|done| |done]. intros j. rewrite Hids. cbn. destruct (Z.eq_dec i j); lia. }
  destruct Hrows as [->|(q & Hrow & Hm & Hr)]; [by eapply ends_fewer|]. constructor; [|intros j Hj; apply elem_of_union; left; by apply Hends].
  cbn [db with_db]. rewrite Hm, Hr. intros j x n [[<- <-]|[Hne Hj]]%lookup_insert_Some Hn.
  2: { eapply timely_moves; [|by eapply (e_rows _ Hq)]. by apply moves_same. }
  cbn [message_id marked] in Hn. assert (still (db s) (t_message t) (i, r)) as Hstill.
  { apply (i_made _ _ Hinv (t_message t) (i, r)); [|done]. left. exists t. rewrite Hts, elem_of_app, elem_of_cons. split; [tauto|]. split; [done|].
    unfold todo. rewrite Hp. by left. }
  destruct (Hstill q Hrow) as [_ Hmsg]. rewrite Hn in Hmsg. injection Hmsg as ->.
  set (s' := with_db _ _). assert (forall k, count (marking s) k = count (marking s') k + if Z.eq_dec i k then 1 else 0) as Hmk.
  { intros k. unfold marking. cbn. rewrite Hts, !concat_mid, !count_app, Hids. cbn. destruct (Z.eq_dec i k); lia. }
  assert (count (sending s) i = count (sending s') i) as Hsd.
  { unfold sending. cbn. rewrite Hts, !concat_mid, !count_app, Hs, Hs'. done. }
  specialize (Hmk i). destruct (Z.eq_dec i i) as [_|]; [|done]. destruct (e_rows s Hends i q _ Hrow Hn) as [H1 H2 H3 H4 H5 H6].
  assert (begun s' i = begun s i) as Hb by (unfold begun; rewrite Hsd; done).
  assert (open s' i + 1 = open s i) as Ho by (unfold open; rewrite Hsd, Hmk; change (claimed_ids s') with (claimed_ids s); lia).
  assert (attempts q + 1 <= begun s i) as Hbeg by (unfold begun; lia). specialize (H3 ltac:(lia)).
  constructor; cbn [attempts status next_attempt_at marked]; rewrite ?Hb; change (tries s') with (tries s); change (clock s') with (clock s); try lia.
  - intros ->. destruct Hsays as (k & -> & Hk & _). cbn. lia.
  - intros ->. destruct Hsays as (k & -> & Hk & _). unfold life. lia.
Qed.

Lemma ends_step s s' : inv True s -> apart s -> ends s -> step False True s s' -> ends s'.
Proof.
  intros Hinv Hap Hends Hstep. destruct Hstep.
  - apply ends_db; [done|apply adds_enqueue, Hinv|done|done].
  - apply ends_db; [done|apply adds_resend, Hinv|done|done].
  - by apply ends_fewer.
  - done.
  - apply ends_fewer; [|done]. intros i r m Hr Hm. unfold delete_queue_message in *. destruct (messages (db s) !! id); [|done].
    destruct (drop_times id (db s) i r m Hr Hm) as [(? & Hq & Hmq & ->)|(Hn & _)]; [done|]. cbn in Hr. apply map_lookup_filter_Some in Hr as [Hr _]. congruence.
  - by apply ends_claim.
  - by apply ends_start.
  - by apply ends_answers.
  - by eapply ends_mark.
  - apply ends_fewer; [subst d; by destruct broken|]. eapply ends_quiet; [exact H|..|done]; unfold sending_ids, marking_ids, DeliverySafe.todo; by rewrite ?H0.
  - eapply (ends_moves (with_tasks (before ++ at_phase Left t :: after) s)); [|done|intros i; by apply moves_same|apply Hends].
    eapply ends_quiet; [exact H|..|done]; unfold sending_ids, marking_ids, DeliverySafe.todo; by rewrite ?H0.
  - apply ends_fewer.
    + subst d. intros i r m. destruct broken; [done|]. cbn. unfold complete_queue_message. destruct (0 <? _)%nat; [done|]. intros Hr Hm.
      destruct (drop_times (t_id t) (db s) i r m Hr Hm) as [(? & Hq & Hmq & ->)|(Hn & _)]; [done|]. cbn in Hr. apply map_lookup_filter_Some in Hr as [Hr _]. congruence.
    + eapply ends_moves; [exact Hends|done| |apply Hends]. intros i.
      assert (sending_ids t = [] /\ marking_ids t = []) as [Hs Hm] by (unfold sending_ids, marking_ids, DeliverySafe.todo; by rewrite ?H0).
      constructor; unfold begun, open, sending, marking; change (claimed_ids (with_tasks (before ++ after) s)) with (claimed_ids s);
        cbn [with_tasks tasks tries clock]; rewrite ?H, ?concat_mid, ?Hs, ?Hm, ?map_app, ?concat_app, ?count_app; cbn [count_occ]; lia.
  - eapply ends_moves; [exact Hends|done| |apply Hends]. intros i. constructor; unfold begun, open; cbn -[count_occ sending marking claimed_ids];
      change (sending (crash s)) with (@nil Z); change (marking (crash s)) with (@nil Z); change (claimed_ids (crash s)) with (@nil Z); cbn [count_occ]; lia.
  - eapply ends_moves; [exact Hends|done| |apply Hends]. intros i. by apply moves_same.
Qed.

End worker.

(** ** At concrete mail *)

Module Sample.

Definition parts (a : list byte) : option (list byte * list byte) := rsplit_once "@"%byte a.

Definition to_one (a : string) : NewQueueRecipient := {| n_address := bs a; n_notify_flags := 0; n_orcpt := None |}.

Definition queued (from to : string) (s : S) : S :=
  with_db (enqueue parts next_rowid next_rowid (clock s) (bs from) [to_one to] (bs from) 100 None None 432000 (db s)).2 s.

(** Mail is queued and claimed, and its attempt begins. *)
Definition s1 := queued "amy@here.example" "bob@there.example" (empty_queue 0).
Definition s2 := claim [1] s1.
Definition s3 := match claimed s2 with e :: rest => start e rest s2 | [] => s2 end.
Definition answered (o : Outcome) (s : S) : S :=
  match tasks s with
  | t :: after => with_tries (ids (t_recipients t)) (with_tasks (at_phase (Marking true (zip (t_recipients t) [o]) no_notes) t :: after) s)
  | [] => s
  end.
Definition s4 := answered (ODeferred (bs "451 4.7.1 try later")) s3.
Definition marked_s (s : S) : S :=
  match tasks s with
  | t :: after =>
      match phase t with
      | Marking there (((i, r), o) :: todo) notes =>
          let '(notes, (refusal, d)) := mark_one 1 4 (clock s) false (t_message t) i r o notes (db s) in
          with_db d (with_tasks (at_phase (then_note i refusal there todo notes) t :: after) s)
      | _ => s
      end
  | [] => s
  end.
Definition s5 := marked_s s4.

Notation step := (step 1 4 next_rowid parts next_rowid next_rowid).
Notation reached := (reached 1 4 next_rowid parts next_rowid next_rowid).

Lemma first_pick : picks 0 CLAIM [1] (db s1).
Proof.
  assert (recipients (db s1) = {[ 1 := default (fresh_recipient 1 [] [] 0 0 None) (recipients (db s1) !! 1) ]}) as E by (vm_compute; reflexivity).
  constructor.
  - apply NoDup_singleton.
  - intros i ->%list_elem_of_singleton. eexists. split; [vm_compute; reflexivity|vm_compute; reflexivity].
  - vm_compute. lia.
  - intros j s Hj _ Hn. rewrite E in Hj. apply lookup_singleton_Some in Hj as [<- _]. by rewrite list_elem_of_singleton in Hn.
Qed.

Lemma reached_s4 : reached False True s4.
Proof.
  apply (reached_step _ _ _ _ _ _ _ _ s3). 1: apply (reached_step _ _ _ _ _ _ _ _ s2). 1: apply (reached_step _ _ _ _ _ _ _ _ s1).
  1: apply (reached_step _ _ _ _ _ _ _ _ (empty_queue 0)). 1: apply reached_start.
  - apply (step_enqueue _ _ _ _ _ _ _ _ (empty_queue 0) (bs "amy@here.example") [to_one "bob@there.example"] (bs "amy@here.example") 100 None None 432000).
    intros _ i _ _. set_solver.
  - apply (step_claim _ _ _ _ _ _ _ _ s1 [1]); [vm_compute; reflexivity|apply first_pick].
  - destruct (claimed s2) as [|e rest] eqn:E; [by vm_compute in E|]. unfold s3. rewrite E. by apply step_start.
  - assert (Forall (fun t => phase t = Sending /\ account_id (t_message t) = None) (tasks s3)) as H by (vm_compute; repeat constructor).
    destruct (tasks s3) as [|t after] eqn:E; [by vm_compute in E|]. unfold s4, answered. rewrite E. apply Forall_cons in H as [[Hp Ha] _].
    pose proof (step_answers 1 4 next_rowid parts next_rowid next_rowid False True s3 [] t after true (inl false) [ODeferred (bs "451 4.7.1 try later")] E Hp) as Hstep.
    rewrite Ha in Hstep. exact Hstep.
Qed.

Lemma marks_s4 : step False True s4 s5.
Proof.
  destruct (tasks s4) as [|t after] eqn:E; [by vm_compute in E|]. destruct (phase t) as [|there [|[[i r] o] todo] notes| |] eqn:Hp.
  1-2,4-5: exfalso; assert (Forall (fun t => match phase t with Marking _ (_ :: _) _ => True | _ => False end) (tasks s4)) as H by (vm_compute; repeat constructor);
    rewrite E in H; apply Forall_cons in H as [H _]; by rewrite Hp in H.
  unfold s5, marked_s. rewrite E, Hp. destruct (mark_one _ _ _ _ _ _ _ _ _ _) as [notes' [refusal d]] eqn:Hm.
  by apply (step_mark _ _ _ _ _ _ _ _ s4 [] t after there i r o todo notes false).
Qed.

Lemma reached_s5 : reached False True s5.
Proof. eapply reached_step; [apply reached_s4|apply marks_s4]. Qed.
End Sample.

(** Bob's server asks for patience: he is marked, and waits on. *)
Lemma nobody_lost_witness :
  let r := default (fresh_recipient 0 [] [] 0 0 None) (recipients (db Sample.s4) !! 1) in
  address r = bs "bob@there.example" /\ status r = Pending /\ (goes_on True Sample.s4 Sample.s5 1 r \/ taken_out Sample.s4 Sample.s5 r)
  /\ (status <$> recipients (db Sample.s5) !! 1) = Some Pending /\ (attempts <$> recipients (db Sample.s5) !! 1) = Some 1.
Proof.
  cbv zeta. split; [vm_compute; reflexivity|]. split; [vm_compute; reflexivity|]. split; [|split; vm_compute; reflexivity].
  apply (nobody_lost 1 4 Sample.parts next_rowid next_rowid next_rowid next_rowid_new next_rowid_new False True).
  - apply Sample.reached_s4.
  - apply Sample.marks_s4.
  - vm_compute. reflexivity.
  - vm_compute. reflexivity.
Defined.


(** An admin deletes a message while its attempt talks to the other side; mail that comes
    now gets the same ids. The attempt marks the new recipient as delivered and completes
    the new message: Dan's mail is gone, and nobody ever tried to deliver it. *)
Example ids_used_twice :
  let s := Sample.answered (ODelivered (bs "250 ok")) Sample.s3 in
  let s := with_db (delete_queue_message 1 (db s)).2 s in
  let s := Sample.queued "cat@here.example" "dan@other.example" s in
  let s' := Sample.marked_s s in
  (address <$> recipients (db s) !! 1) = Some (bs "dan@other.example")
  /\ (return_path <$> messages (db s) !! 1) = Some (bs "cat@here.example")
  /\ (status <$> recipients (db s') !! 1) = Some Delivered
  /\ (complete_queue_message 1 (db s')).2 = {| messages := ∅; recipients := ∅; refused := ∅ |}.
Proof. vm_compute. done. Qed.

(** An attempt outlasts its lease, and leaves between the next claim and its start: Bob's
    server took the message, and a second attempt for it begins. *)
Example claimed_before_it_left :
  let s := tick 3600 Sample.s3 in
  let s := claim [1] s in
  let s := Sample.marked_s (Sample.answered (ODelivered (bs "250 ok")) s) in
  let s := match tasks s with t :: after => leave [] t after true no_notes s | [] => s end in
  let s := match claimed s with e :: rest => start e rest s | [] => s end in
  (status <$> recipients (db s) !! 1) = Some Delivered /\ map ids (map t_recipients (List.filter (fun t => match phase t with Sending => true | _ => false end) (tasks s))) = [[1]].
Proof. vm_compute. done. Qed.
