(* ===== verification/Outbound.v ===== *)
(** * Talking to other mail servers (crates\/uwumail-smtp\/src\/outbound.rs, dane.rs)

    Where the mail of a domain goes ([resolve_targets]: routes, relays, MX records, DANE and
    MTA-STS), one SMTP transaction with one of these servers ([session]), and the tries one
    after the other ([deliver_domain]). Names, addresses and policies are an argument,
    [Names]; a connection is an argument too, [World], which says what comes back. What is
    said on it is kept in a log, each command with the TLS it was sent under. *)

From S2P Require Import Prelude Effects Utf8 Network Address PublicIp Relay SmtpClient MtaSts Microsoft Queue Delivery.
Import Queue Delivery.

Module Outbound.

#[local] Existing Instance MtaSts.Mode_eq_dec.

Definition MAX_HOSTS : nat := 5.
Definition MAX_ADDRESSES_PER_HOST : nat := 3.

Definition SocketAddr : Type := IpAddr * Z.

Inductive RelaySecurity := Starttls | Tls | NoSecurity.

#[export] Instance RelaySecurity_eq_dec : EqDecision RelaySecurity.
Proof. solve_decision. Defined.

Record RelayConfig := {
  r_host : list byte; r_port : Z; security : RelaySecurity; username : option (list byte); password : option (list byte); oauth : bool }.

(** ** DANE *)

Record Tlsa := { usage : Z; selector : Z; matching : Z; data : list byte }.

Definition usable (t : Tlsa) : bool := ((usage t =? 2) || (usage t =? 3)) && (selector t <=? 1) && (matching t <=? 2).

Inductive HostTlsa := NoTlsa | Records (records : list Tlsa) | BogusTlsa.

Inductive Dane := DaneOff | Verify (records : list Tlsa) | EncryptOnly (records : list Tlsa) | DaneBogus.

Definition dane_of (h : HostTlsa) : Dane :=
  match h with
  | NoTlsa => DaneOff
  | BogusTlsa => DaneBogus
  | Records records => match List.filter usable records with [] => EncryptOnly records | rs => Verify rs end
  end.

Definition applies (d : Dane) : bool := match d with DaneOff => false | _ => true end.

Inductive ValidatedMx := Secure (hosts : list (list byte)) | Insecure | BogusMx.

(** ** Targets *)

Inductive Via := Mx | Route | ViaRelay (relay : RelayConfig).

(** [reports]: whether the domain's TLS reports hear of sessions with it. *)
Record Target := {
  host : list byte; addrs : list SocketAddr; via : Via; verified_tls : bool; sts_testing : bool; dane : Dane; reports : bool }.

Definition elsewhere (host : list byte) (addrs : list SocketAddr) (via : Via) : Target :=
  {| host := host; addrs := addrs; via := via; verified_tls := false; sts_testing := false; dane := DaneOff; reports := false |}.

Definition relay_of (t : Target) : option RelayConfig := match via t with ViaRelay r => Some r | Mx | Route => None end.

(** The outgoing server of a fetched address. [from_oauth]: it signs in with a token. *)
Record FetchSender := {
  fs_host : list byte; fs_port : Z; fs_tls : bool; fs_username : list byte; fs_password : list byte; fs_address : list byte; from_oauth : bool }.

Inductive MxAnswer := MxHosts (hosts : list (list byte)) | MxNotFound | MxFailed (error : list byte).
Inductive IpAnswer := Ips (ips : list IpAddr) | IpNotFound | IpFailed.

(** What configuration, store and network say. *)
Record Names := {
  routes : list byte -> option (list byte);
  lookup_host : list byte -> Z -> list SocketAddr;
  fetch_sender : Z -> list byte -> option FetchSender;
  access_token : FetchSender -> list byte + list byte;
  configured_relay : option RelayConfig;
  mx_lookup : list byte -> MxAnswer;
  validated_mx : list byte -> ValidatedMx;
  sts : list byte -> MtaSts.Lookup;
  ip_lookup : list byte -> IpAnswer;
  host_tlsa : list byte -> HostTlsa;
  allow_private_mx : bool;
  mx_port : Z }.

Section names.
Context (n : Names).

Definition lookup (host : list byte) (port : Z) : list SocketAddr := take MAX_ADDRESSES_PER_HOST (lookup_host n host port).

(** A route [host:port]. *)
Definition route_target (domain route : list byte) : list Target + Outcome :=
  match '(host, port) ← rsplit_once ":"%byte route; port ← parse_unsigned 65535 port; Some (Relay.trim_brackets host, port) with
  | Some (host, port) => inl [elsewhere host (lookup host port) Route]
  | None => inr (ODeferred (bs "the route for " ++ domain ++ bs " is not host:port"))
  end.

Definition sender_relay (s : FetchSender) (password : list byte) : RelayConfig :=
  {| r_host := fs_host s; r_port := fs_port s; security := if fs_tls s then Tls else Starttls; username := Some (fs_username s);
     password := Some password; oauth := from_oauth s |}.

Definition sender_route (account : option Z) (return_path : list byte) : option Target + Outcome :=
  match account with
  | None => inl None
  | Some a =>
      if bool_decide (return_path = []) then inl None
      else
        match fetch_sender n a return_path with
        | None => inl None
        | Some s =>
            match if from_oauth s then access_token n s else inl (fs_password s) with
            | inr err => inr (ODeferred (bs "sending as " ++ fs_address s ++ bs ": " ++ err))
            | inl password =>
                let relay := sender_relay s password in
                inl (Some (elsewhere (r_host relay) (List.filter (fun a => PublicIp.is_public_ip a.1) (lookup (r_host relay) (r_port relay))) (ViaRelay relay)))
            end
        end
  end.

(** The hosts a domain names, and whether only by not naming any. *)
Definition mx_hosts (domain : list byte) : (list (list byte) * bool) + Outcome :=
  match mx_lookup n domain with
  | MxHosts hosts => let hosts := map (trim_end_byte "."%byte) hosts in inl (match hosts with [] => ([domain], true) | _ => (hosts, false) end)
  | MxNotFound => inl ([domain], true)
  | MxFailed err => inr (ODeferred (bs "DNS lookup for " ++ domain ++ bs " failed: " ++ err))
  end.

(** One MX host: a target, or none because all its addresses are inside, or its lookup failed. *)
Definition mx_target (secure enforced : bool) (policy : option MtaSts.Policy) (h : list byte) (ips : list IpAddr) : option Target :=
  let found := negb (bool_decide (ips = [])) in
  let addrs := map (fun ip => (ip, mx_port n)) (List.filter (fun ip => allow_private_mx n || PublicIp.is_public_ip ip) ips) in
  if found && bool_decide (addrs = []) then None
  else
    let d := if secure then dane_of (host_tlsa n h) else DaneOff in
    Some {| host := h; addrs := addrs; via := Mx; verified_tls := enforced && negb (applies d);
            sts_testing := bool_decide (is_Some policy) && negb enforced && negb (applies d); dane := d; reports := true |}.

Fixpoint mx_targets (domain : list byte) (secure enforced implicit : bool) (policy : option MtaSts.Policy) (hosts : list (list byte))
    (targets : list Target) (looked_up private : nat) : list Target + Outcome :=
  match hosts with
  | [] =>
      if bool_decide (targets = []) && (0 <? private)%nat && (private =? looked_up)%nat
      then inr (OFailed (bs "550 5.4.4 The mail servers of " ++ domain ++ bs " point to private addresses, not to the internet"))
      else inl targets
  | h :: hosts =>
      match ip_lookup n h with
      | Ips ips =>
          match mx_target secure enforced policy h ips with
          | Some t => mx_targets domain secure enforced implicit policy hosts (targets ++ [t]) (looked_up + 1) private
          | None => mx_targets domain secure enforced implicit policy hosts targets (looked_up + 1) (private + 1)
          end
      | IpNotFound =>
          if implicit then inr (OFailed (bs "550 5.1.2 The domain " ++ domain ++ bs " does not exist"))
          else mx_targets domain secure enforced implicit policy hosts targets looked_up private
      | IpFailed => mx_targets domain secure enforced implicit policy hosts targets looked_up private
      end
  end.

(** A policy that says something, and whether it is enforced. *)
Definition policy_of (domain : list byte) : option MtaSts.Policy :=
  p ← MtaSts.policy (sts n domain); if bool_decide (MtaSts.mode p = MtaSts.NoPolicy) then None else Some p.

Definition is_enforced (policy : option MtaSts.Policy) : bool := match policy with Some p => bool_decide (MtaSts.mode p = MtaSts.Enforce) | None => false end.

(** The hosts an enforced policy leaves. *)
Definition allowed_hosts (policy : option MtaSts.Policy) (hosts : list (list byte)) : list (list byte) :=
  match policy with Some p => if is_enforced policy then List.filter (MtaSts.allows p) hosts else hosts | None => hosts end.

Definition by_mx (domain : list byte) : list Target + Outcome :=
  match mx_hosts domain with
  | inr o => inr o
  | inl (hosts, implicit) =>
      match validated_mx n domain with
      | BogusMx => inr (ODeferred (bs "DNSSEC: the MX records of " ++ domain ++ bs " do not validate"))
      | validated =>
          let '(hosts, implicit) := match validated with Secure hosts => (hosts, false) | _ => (hosts, implicit) end in
          let secure := match validated with Secure _ => true | _ => false end in
          if bool_decide (hosts = [[]]) then inr (OFailed (bs "556 5.1.10 " ++ domain ++ bs " does not accept mail (null MX)"))
          else
            let policy := policy_of domain in
            let allowed := allowed_hosts policy hosts in
            if is_enforced policy && bool_decide (allowed = [])
            then inr (ODeferred (bs "MTA-STS: the policy of " ++ domain ++ bs " allows none of its mail servers"))
            else mx_targets domain secure (is_enforced policy) implicit policy (take MAX_HOSTS allowed) [] 0 0
      end
  end.

Definition resolve_targets (domain : list byte) (account : option Z) (return_path : list byte) : list Target + Outcome :=
  match routes n domain with
  | Some route => route_target domain route
  | None =>
      match sender_route account return_path with
      | inr o => inr o
      | inl (Some target) => inl [target]
      | inl None =>
          match configured_relay n with
          | Some relay => inl [elsewhere (r_host relay) (lookup (r_host relay) (r_port relay)) (ViaRelay relay)]
          | None => by_mx domain
          end
      end
  end.
End names.

(** ** A connection *)

(** Which certificates a handshake takes: one the TLSA records name, a valid one, any while
    a problem is noted, or any. *)
Inductive TlsConfig := DaneConfig (records : list Tlsa) (names : list (list byte)) | Verified | ReportOnly | Opportunistic.

Inductive TlsResult := StarttlsNotSupported | OtherResult (name : list byte).

Inductive Command :=
  | Ehlo | Helo | StartTls | AuthPlain (username password : list byte) | AuthXoauth2 (username token : list byte) | EmptyLine
  | MailFrom (line : list byte) | RcptTo (address : list byte) | DataCommand | Content (raw : list byte) | QuitCommand.

(** A refusal of Microsoft that the admins hear of. *)
Record MicrosoftRefusal := {
  about : Microsoft.IssueScope; subject : list byte; group : Microsoft.IssueGroup; refusal_code : list byte; refusal_ip_text : list byte;
  sender_domain : list byte; said : list byte }.

(** What was sent, under which TLS, and what came back: nothing that is waited for, a reply,
    or an error. *)
Record Said := { under : option TlsConfig; command : Command; came : option (Client.Reply + list byte) }.

Record Wire := {
  tls : option TlsConfig; log : list Said; heard : nat; noted : bool; issues : list MicrosoftRefusal; accepted_by_microsoft : bool;
  reported : list (option TlsResult) }.

Definition fresh_wire (noted : bool) : Wire :=
  {| tls := None; log := []; heard := 0; noted := noted; issues := []; accepted_by_microsoft := false; reported := [] |}.

(** What the other side does: whether it can be reached, what it answers to each read, how
    the handshake goes; and what this side's resolver says of its own name. *)
Record World := {
  connects : option (list byte); leaves_from : option IpAddr; replies : nat -> Client.Reply + list byte;
  config_fails : option (list byte); handshake_fails : option (list byte); failed_as : TlsResult; certificate_problem : option TlsResult;
  own_addresses : list IpAddr }.

Abbreviation N := (M Wire (list byte)).

Definition set_tls c s := {| tls := Some c; log := log s; heard := heard s; noted := noted s; issues := issues s; accepted_by_microsoft := accepted_by_microsoft s; reported := reported s |}.
Definition set_log l s := {| tls := tls s; log := l; heard := heard s; noted := noted s; issues := issues s; accepted_by_microsoft := accepted_by_microsoft s; reported := reported s |}.
Definition set_heard h s := {| tls := tls s; log := log s; heard := h; noted := noted s; issues := issues s; accepted_by_microsoft := accepted_by_microsoft s; reported := reported s |}.
Definition set_issue i s := {| tls := tls s; log := log s; heard := heard s; noted := true; issues := issues s ++ [i]; accepted_by_microsoft := accepted_by_microsoft s; reported := reported s |}.
Definition set_accepted s := {| tls := tls s; log := log s; heard := heard s; noted := noted s; issues := issues s; accepted_by_microsoft := true; reported := reported s |}.
Definition set_reported r s := {| tls := tls s; log := log s; heard := heard s; noted := noted s; issues := issues s; accepted_by_microsoft := accepted_by_microsoft s; reported := reported s ++ [r] |}.

(** [is_private] of servercheck.rs. *)
Definition is_private (ip : IpAddr) : bool :=
  match ip with
  | V4 v4 =>
      let a := octet v4 0 in
      let b := octet v4 1 in
      (a =? 10) || ((a =? 172) && ((16 <=? b) && (b <=? 31))) || ((a =? 192) && (b =? 168)) || (a =? 127) || ((a =? 169) && (b =? 254))
      || ((a =? 100) && (Z.land b 0xc0 =? 64))
  | V6 v6 => let first := segment v6 0 in (v6 =? 1) || (Z.land first 0xfe00 =? 0xfc00) || (Z.land first 0xffc0 =? 0xfe80)
  end.

Definition is_unspecified (ip : IpAddr) : bool := match ip with V4 a | V6 a => a =? 0 end.

(** The address a refusal is about: one of ours that it names, or the one mail left from. *)
Definition refusal_ip (named local_ip : option IpAddr) (ours : list IpAddr) : option IpAddr :=
  match named with
  | Some ip => if bool_decide (Some ip = local_ip) || bool_decide (ip ∈ ours) then Some ip else local_ip
  | None => local_ip
  end.

Section session.
Context (base64_encode : list byte -> list byte) (hostname : list byte).
Context (require_tls : bool) (w : World) (target : Target) (message : QueuedMessage) (raw : list byte) (recipients : list QueueRecipient).

Definition crlf : list byte := [x0d; x0a].

(** What goes over the wire. *)
Definition command_bytes (c : Command) : list byte :=
  match c with
  | Ehlo => Client.ehlo_command hostname
  | Helo => bs "HELO " ++ hostname ++ crlf
  | StartTls => bs "STARTTLS" ++ crlf
  | AuthPlain u p => Client.auth_plain_command base64_encode u p
  | AuthXoauth2 u t => bs "AUTH XOAUTH2 " ++ base64_encode (bs "user=" ++ u ++ [x01] ++ bs "auth=Bearer " ++ t ++ [x01; x01]) ++ crlf
  | EmptyLine => crlf
  | MailFrom line => line ++ crlf
  | RcptTo a => bs "RCPT TO:<" ++ a ++ bs ">" ++ crlf
  | DataCommand => bs "DATA" ++ crlf
  | Content raw => Client.dot_stuff raw
  | QuitCommand => bs "QUIT" ++ crlf
  end.

(** ** Watching Microsoft *)

Definition relay : option RelayConfig := relay_of target.
Definition microsoft : bool := negb (bool_decide (is_Some relay)) && Microsoft.is_microsoft_host (host target).
Definition local_ip : option IpAddr := ip ← leaves_from w; if is_unspecified ip || is_private ip then None else Some ip.
Definition return_domain : list byte := match rsplit_once "@"%byte (return_path message) with Some (_, d) => to_ascii_lowercase d | None => [] end.

Definition watch_refused (r : Client.Reply) : N unit :=
  s ← get;
  if noted s || negb microsoft || Client.is_positive r then mret tt
  else
    match Microsoft.classify (Client.to_string r) true with
    | None => mret tt
    | Some refusal =>
        let ours := match Microsoft.ip refusal with Some ip => if bool_decide (Some ip = local_ip) then [] else take MAX_ADDRESSES_PER_HOST (own_addresses w) | None => [] end in
        let ip := match refusal_ip (Microsoft.ip refusal) local_ip ours with Some ip => show_ip ip | None => [] end in
        let scope := Microsoft.group_scope (Microsoft.refusal_group refusal) in
        modify (set_issue {| about := scope; subject := match scope with Microsoft.Ip => ip | Microsoft.Domain => return_domain end;
                             group := Microsoft.refusal_group refusal; refusal_code := Microsoft.code refusal; refusal_ip_text := ip;
                             sender_domain := return_domain; said := Client.to_string r |})
    end.

Definition watch_delivered : N unit := if microsoft then modify set_accepted else mret tt.

Definition outcome (r : Client.Reply) : Outcome := watch_outcome microsoft r.

(** ** What is said *)

Definition read_reply : N Client.Reply :=
  s ← get;
  put (set_heard (heard s + 1) s);;
  match replies w (heard s) with inl r => mret r | inr e => throw e end.

Definition say (c : Command) (came : option (Client.Reply + list byte)) : N unit :=
  modify (fun s => set_log (log s ++ [{| under := tls s; command := c; came := came |}]) s).

(** [Client::send] *)
Definition send (c : Command) : N Client.Reply :=
  s ← get;
  say c (Some (replies w (heard s)));;
  read_reply.

Definition quit : N unit := say QuitCommand None.

Definition ehlo : N (Client.Reply * Client.Capabilities) :=
  r ← send Ehlo; mret (r, Client.ehlo_capabilities r).

(** [tls_handshake]: nothing to do on a connection that has TLS. *)
Definition handshake (c : TlsConfig) : N (option (list byte)) :=
  s ← get;
  match tls s, handshake_fails w with
  | Some _, _ => mret None
  | None, Some e => mret (Some e)
  | None, None => put (set_tls c s);; mret None
  end.

Definition report (r : option TlsResult) : N unit := if reports target then modify (set_reported r) else mret tt.

Definition domain : list byte := match recipients with r :: _ => Queue.domain r | [] => [] end.

(** ** STARTTLS *)

Definition want_tls : bool := match relay with Some r => negb (bool_decide (security r = Tls)) | None => true end.

Definition must_tls : bool :=
  match relay with Some r => bool_decide (security r = Starttls) | None => require_tls || verified_tls target || applies (dane target) end.

Definition config : N TlsConfig :=
  let made c := match config_fails w with Some e => throw e | None => mret c end in
  match dane target, relay with
  | Verify records, None => made (DaneConfig records [host target; domain])
  | _, _ =>
      if match relay with Some r => negb (bool_decide (security r = NoSecurity)) | None => false end || verified_tls target then mret Verified
      else if sts_testing target then made ReportOnly
      else mret Opportunistic
  end.

Definition upgrade : N Client.Capabilities :=
  c ← config;
  failed ← handshake c;
  match failed with
  | Some e => report (Some (failed_as w));; throw (bs "TLS: " ++ e)
  | None =>
      report (match c with ReportOnly => certificate_problem w | _ => None end);;
      '(reply, caps) ← ehlo;
      if negb (Client.is_positive reply) then throw (bs "EHLO after STARTTLS: " ++ Client.to_string reply) else mret caps
  end.

Definition secure (caps : Client.Capabilities) : N Client.Capabilities :=
  s ← get;
  if want_tls && negb (bool_decide (is_Some (tls s))) then
    if Client.starttls caps then
      reply ← send StartTls;
      if Client.code reply =? 220 then upgrade
      else
        report (Some StarttlsNotSupported);;
        if must_tls then throw (bs "STARTTLS refused: " ++ Client.to_string reply) else mret caps
    else
      report (Some StarttlsNotSupported);;
      if must_tls then throw (bs "the server does not offer STARTTLS") else mret caps
  else mret caps.

(** ** The login at a relay *)

Definition auth_xoauth2 (u t : list byte) : N Client.Reply :=
  reply ← send (AuthXoauth2 u t);
  if Client.code reply =? 334 then send EmptyLine else mret reply.

(** The outcome for everyone, when the relay does not let us in. *)
Definition log_in : N (option Outcome) :=
  match relay with
  | Some r =>
      match username r, password r with
      | Some u, Some p =>
          reply ← (if oauth r then auth_xoauth2 u p else send (AuthPlain u p));
          if negb (Client.is_positive reply) then quit;; mret (Some (ODeferred (bs "the relay refused our login: " ++ Client.to_string reply)))
          else mret None
      | _, _ => mret None
      end
  | None => mret None
  end.

(** ** The transaction *)

Definition everyone (o : Outcome) : list Outcome := map (fun _ => o) recipients.

Definition is_ascii_text (s : list byte) : bool := forallb is_ascii s.

Definition needs_utf8 : bool := negb (is_ascii_text (return_path message)) || existsb (fun r => negb (is_ascii_text (address r))) recipients.

Definition mail_from (caps : Client.Capabilities) : list byte :=
  bs "MAIL FROM:<" ++ return_path message ++ bs ">"
  ++ (if bool_decide (is_Some (Client.size caps)) then bs " SIZE=" ++ dec (Z.of_nat (length raw)) else [])
  ++ (if Client.eight_bit_mime caps && negb (is_ascii_text raw) then bs " BODY=8BITMIME" else [])
  ++ (if needs_utf8 then bs " SMTPUTF8" else []).

(** RCPT for each recipient: the outcomes there are, and the indices that were accepted. *)
Fixpoint rcpts (index : nat) (rs : list QueueRecipient) (outcomes : list (option Outcome)) (accepted : list nat) : N (list (option Outcome) * list nat) :=
  match rs with
  | [] => mret (outcomes, accepted)
  | r :: rs =>
      reply ← send (RcptTo (address r));
      if Client.is_positive reply then rcpts (index + 1) rs outcomes (accepted ++ [index])
      else
        watch_refused reply;;
        rcpts (index + 1) rs (<[index := Some (outcome reply)]> outcomes) accepted
  end.

Definition fill (o : Outcome) (accepted : list nat) (outcomes : list (option Outcome)) : list (option Outcome) :=
  foldl (fun os i => <[i := Some o]> os) outcomes accepted.

(** [expect("every recipient has an outcome")] *)
Fixpoint collect (outcomes : list (option Outcome)) : N (list Outcome) :=
  match outcomes with
  | [] => mret []
  | o :: outcomes => o ← expect o; os ← collect outcomes; mret (o :: os)
  end.

(** DATA and the message: the outcome of those who were accepted, and whether the connection
    still stands. *)
Definition hand_over : N (Outcome * bool) :=
  reply ← send DataCommand;
  if negb (Client.code reply =? 354) then watch_refused reply;; mret (outcome reply, true)
  else
    s ← get;
    say (Content raw) (Some (replies w (heard s)));;
    modify (fun s => set_heard (heard s + 1) s);;
    match replies w (heard s) with
    | inl reply =>
        (if Client.is_positive reply then watch_delivered else watch_refused reply);;
        mret (outcome reply, true)
    | inr e => mret (ODeferred (bs "connection lost after sending: " ++ e), false)
    end.

Definition transaction (caps : Client.Capabilities) : N (list Outcome) :=
  if match Client.size caps with Some limit => limit <? Z.of_nat (length raw) | None => false end then
    quit;;
    mret (everyone (OFailed (bs "552 5.3.4 The message is too big for " ++ host target ++ bs " (limit " ++ dec (default 0 (Client.size caps)) ++ bs " bytes)")))
  else if needs_utf8 && negb (Client.smtputf8 caps) then
    quit;;
    mret (everyone (OFailed (bs "553 5.6.7 The receiving server does not support international addresses")))
  else
    reply ← send (MailFrom (mail_from caps));
    if negb (Client.is_positive reply) then watch_refused reply;; quit;; mret (everyone (outcome reply))
    else
      '(outcomes, accepted) ← rcpts 0 recipients (replicate (length recipients) None) [];
      if bool_decide (accepted = []) then quit;; collect outcomes
      else
        '(final, stands) ← hand_over;
        (if (stands : bool) then quit else mret tt);;
        collect (fill final accepted outcomes).

(** The greeting, and EHLO or HELO. *)
Definition hello : N Client.Capabilities :=
  greeting ← read_reply;
  if negb (Client.code greeting =? 220) then watch_refused greeting;; throw (bs "greeting: " ++ Client.to_string greeting)
  else
    '(reply, caps) ← ehlo;
    if negb (Client.is_positive reply) then
      helo ← send Helo;
      if negb (Client.is_positive helo) then throw (bs "HELO: " ++ Client.to_string helo) else mret caps
    else mret caps.

Definition conversation : N (list Outcome) :=
  caps ← hello;
  caps ← secure caps;
  refused ← log_in;
  match refused with
  | Some o => mret (everyone o)
  | None => transaction caps
  end.

(** [session]: an error means that nothing was taken and another server may be tried. *)
Definition session : N (list Outcome) :=
  match connects w with
  | Some e => throw e
  | None =>
      failed ← (if match relay with Some r => bool_decide (security r = Tls) | None => false end then handshake Verified else mret None);
      match failed with
      | Some e => throw e
      | None => conversation
      end
  end.
End session.

(** ** The tries, one after the other *)

(** A connection that was made, and how it ended. *)
Record Tried := { with_target : Target; at_address : SocketAddr; wire : Wire }.

Section domain.
Context (require_tls : bool) (world : Target -> SocketAddr -> World) (n : Names) (message : QueuedMessage) (raw : list byte) (recipients : list QueueRecipient).

Definition noted_at_first (t : Target) : bool := bool_decide (is_Some (relay_of t)).

Definition connection (t : Target) (a : SocketAddr) : Effects.outcome (list byte) (list Outcome) * Wire :=
  session require_tls (world t a) t message raw recipients (fresh_wire (noted_at_first t)).

(** The addresses of a server: what came of the first transaction there was, or the last
    error, and what was tried. *)
Fixpoint try_addresses (t : Target) (addresses : list SocketAddr) (last : list byte) (tried : list Tried)
    : (Effects.outcome (list byte) (list Outcome)) * list Tried :=
  match addresses with
  | [] => (Err last, tried)
  | a :: addresses =>
      let '(r, s) := connection t a in
      let tried := tried ++ [{| with_target := t; at_address := a; wire := s |}] in
      match r with
      | Err e => try_addresses t addresses (host t ++ bs " [" ++ show_ip a.1 ++ bs "]: " ++ e) tried
      | r => (r, tried)
      end
  end.

Fixpoint try_targets (targets : list Target) (last : list byte) (tried : list Tried) : (Effects.outcome (list byte) (list Outcome)) * list Tried :=
  match targets with
  | [] => (Err last, tried)
  | t :: targets =>
      match dane t with
      | DaneBogus => try_targets targets (host t ++ bs ": DNSSEC: its TLSA records do not validate") tried
      | _ =>
          match try_addresses t (addrs t) last tried with
          | (Err e, tried) => try_targets targets e tried
          | r => r
          end
      end
  end.

Definition deliver_domain (domain : list byte) : Effects.outcome (list byte) (list Outcome) * list Tried :=
  match resolve_targets n domain (account_id message) (return_path message) with
  | inr o => (Ok (everyone recipients o), [])
  | inl targets =>
      match try_targets targets (bs "no mail server for " ++ domain ++ bs " could be reached") [] with
      | (Err e, tried) => (Ok (everyone recipients (ODeferred e)), tried)
      | r => r
      end
  end.
End domain.
End Outbound.
