(* ===== verification/OutboundSafe.v ===== *)
(** * What talking to other servers promises

    Over everything the other side may answer: mail that is to be protected is never said
    in the clear, a message is handed over at most once, and an outcome says what happened
    to its recipient. *)

From S2P Require Import Prelude Effects Utf8 Network Address PublicIp Relay SmtpClient MtaSts Microsoft Queue Delivery Outbound.
Import Queue Delivery Outbound.

(** What gives the mail, its envelope or a password away. *)
Definition revealing (c : Command) : bool := match c with Ehlo | Helo | StartTls | QuitCommand => false | _ => true end.

Definition is_content (e : Said) : bool := match command e with Content _ => true | _ => false end.

Definition contents (l : list Said) : nat := length (List.filter is_content l).

Lemma contents_app l e : contents (l ++ [e]) = (contents l + if is_content e then 1 else 0)%nat.
Proof. unfold contents. rewrite List.filter_app, length_app. cbn. by destruct (is_content e). Qed.

Section session.
Context (require_tls : bool) (w : World) (target : Target) (message : QueuedMessage) (raw : list byte) (recipients : list QueueRecipient).
Notation relay := (relay target).
Notation domain := (domain recipients).

(** Mail to this server goes under TLS or not at all. *)
Definition protected : bool :=
  match relay with Some r => negb (bool_decide (security r = NoSecurity)) | None => require_tls || verified_tls target || applies (dane target) end.

(** The TLS that was meant: a relay proves its name, DANE's records name the certificate, an
    enforced policy wants a valid one. *)
Definition meant_config (c : TlsConfig) : Prop :=
  match relay with
  | Some _ => c = Verified
  | None => match dane target with Verify records => c = DaneConfig records [host target; domain] | _ => verified_tls target = true -> c = Verified end
  end.

Definition entry_ok (e : Said) : Prop := protected = true -> revealing (command e) = true -> exists c, under e = Some c /\ meant_config c.

Definition secured (s : Wire) : Prop := protected = true -> exists c, tls s = Some c /\ meant_config c.

(** Nothing was handed over yet. *)
Definition quiet (s : Wire) : Prop := Forall entry_ok (log s) /\ contents (log s) = 0%nat.

(** The talk is the same; what the admins hear of it may differ. *)
Definition same_talk (s s' : Wire) : Prop := tls s' = tls s /\ log s' = log s /\ heard s' = heard s.

Lemma quiet_same s s' : same_talk s s' -> quiet s -> quiet s'.
Proof. intros (_ & Hl & _) []. split; by rewrite Hl. Qed.

Lemma secured_same s s' : same_talk s s' -> secured s -> secured s'.
Proof. intros (Ht & _) H Hp. destruct (H Hp) as (c & Hc & Hm). exists c. by rewrite Ht. Qed.

(** ** Steps *)

Lemma wp_same {A} (m : N A) a Q F s : (exists s', m s = (Ok a, s') /\ same_talk s s') -> (forall s', same_talk s s' -> Q a s') -> wp m Q F s.
Proof. intros (s' & E & Hs) HQ. unfold wp. rewrite E. by apply HQ. Qed.

Lemma wp_watched r Q F s : (forall s', same_talk s s' -> Q tt s') -> wp (watch_refused w target message r) Q F s.
Proof.
  apply wp_same. unfold watch_refused. unfold mbind, M_bind, get. destruct (_ || _ || _); [by exists s|].
  destruct (Microsoft.classify _ _) as [refusal|]; [|by exists s]. cbv zeta. eexists. split; [reflexivity|]. done.
Qed.

Lemma wp_delivered Q F s : (forall s', same_talk s s' -> Q tt s') -> wp (watch_delivered target) Q F s.
Proof. apply wp_same. unfold watch_delivered. destruct (microsoft target); [|by exists s]. eexists. by split. Qed.

Lemma wp_report r Q F s : (forall s', same_talk s s' -> Q tt s') -> wp (report target r) Q F s.
Proof. apply wp_same. unfold report. destruct (reports target); [|by exists s]. eexists. by split. Qed.

Definition said_now (c : Command) (came : option (Client.Reply + list byte)) (s : Wire) : Said := {| under := tls s; command := c; came := came |}.

(** What is said next: it must be fit to be heard. *)
Lemma entry_now c came s : (revealing c = true -> secured s) -> entry_ok (said_now c came s).
Proof. intros H Hp Hr. destruct (H Hr Hp) as (k & Hk & Hm). by exists k. Qed.

Lemma wp_read Q F s : (forall r s', replies w (heard s) = inl r -> tls s' = tls s -> log s' = log s -> Q r s') -> (forall s', log s' = log s -> F s') -> wp (read_reply w) Q F s.
Proof. intros HQ HF. unfold wp, read_reply, mbind, M_bind, get, put. destruct (replies w (heard s)) as [r|e] eqn:E; [by apply HQ|by apply HF]. Qed.

(** A command that is no content leaves a quiet talk quiet. *)
Lemma wp_sent c Q s : match c with Content _ => False | _ => True end -> quiet s -> (revealing c = true -> secured s) ->
  (forall r s', tls s' = tls s -> log s' = log s ++ [said_now c (Some (inl r)) s] -> quiet s' -> Q r s') -> wp (send w c) Q quiet s.
Proof.
  intros Hc [Hok Hno] Hsec HQ. unfold send. apply wp_bind. unfold get, wp at 1. apply wp_bind. unfold say, modify, wp at 1.
  assert (forall came, Forall entry_ok (log s ++ [said_now c came s]) /\ contents (log s ++ [said_now c came s]) = 0%nat) as Hlog.
  { intros came. split; [apply Forall_app; split; [done|]; constructor; [by apply entry_now|constructor]|]. rewrite contents_app, Hno. by destruct c. }
  apply wp_read.
  - intros r s' Hr Ht Hl. cbn in Hr, Ht, Hl. rewrite Hr in Hl. apply HQ; [done|done|]. unfold quiet. rewrite Hl. apply Hlog.
  - intros s' Hl. cbn in Hl. unfold quiet. rewrite Hl. apply Hlog.
Qed.

Lemma wp_quit Q F s : (forall s', tls s' = tls s -> log s' = log s ++ [said_now QuitCommand None s] -> Q tt s') -> wp quit Q F s.
Proof. intros HQ. unfold quit, say. apply wp_modify. by apply HQ. Qed.

Lemma wp_handshake c Q F s : (forall s', log s' = log s -> (tls s = None -> tls s' = Some c) -> (forall k, tls s = Some k -> tls s' = Some k) -> Q None s') ->
  (forall e, Q (Some e) s) -> wp (handshake w c) Q F s.
Proof.
  intros Hn He. unfold handshake, wp, mbind, M_bind, get, put. destruct (tls s) as [k|] eqn:E; [by apply Hn; cbn; congruence|].
  destruct (handshake_fails w) as [e|]; [apply He|]. by apply Hn; cbn; congruence.
Qed.

Lemma wp_greeted Q s : quiet s -> (forall x s', tls s' = tls s -> quiet s' -> Q x s') -> wp (ehlo w) Q quiet s.
Proof. intros Hs HQ. unfold ehlo. apply wp_bind, wp_sent; [done|done|done|]. intros r s' Ht _ Hq. apply wp_ret. by apply HQ. Qed.

(** ** TLS *)

Lemma config_meant c s : fst (config w target recipients s) = Ok c -> protected = true -> must_tls require_tls target = true -> meant_config c.
Proof.
  unfold config, meant_config, must_tls, protected. intros Hc Hp Hm.
  destruct relay as [r|] eqn:Hr.
  - assert (negb (bool_decide (security r = NoSecurity)) || verified_tls target = true) as Hv by (by rewrite Hp).
    destruct (dane target); rewrite Hv in Hc; by injection Hc.
  - destruct (dane target) as [|records|records|]; [|destruct (config_fails w); [done|by injection Hc]|..].
    all: intros Hv; rewrite Hv in Hc; by injection Hc.
Qed.

Lemma config_pure s : (exists c, config w target recipients s = (Ok c, s)) \/ (exists e, config w target recipients s = (Err e, s)).
Proof.
  unfold config. destruct (config_fails w) as [e|]; destruct (dane target); destruct relay as [r|]; try (destruct (negb _ || _)); try (destruct (false || _));
    try (destruct (verified_tls target)); try (destruct (sts_testing target)); (by left; eexists) || (by right; eexists).
Qed.

Lemma wp_config Q F s : (forall c, fst (config w target recipients s) = Ok c -> Q c s) -> F s -> wp (config w target recipients) Q F s.
Proof. intros HQ HF. unfold wp. destruct (config_pure s) as [(c & E)|(e & E)]; rewrite E in *; [by apply HQ|done]. Qed.

(** How a connection begins: with TLS at a relay that wants it at once, else without. *)
Definition begun (s : Wire) : Prop :=
  match relay with Some r => if bool_decide (security r = Tls) then tls s = Some Verified else tls s = None | None => tls s = None end.

Lemma protected_must s : begun s -> tls s = None -> protected = true -> must_tls require_tls target = true /\ want_tls target = true.
Proof.
  unfold begun, protected, must_tls, want_tls. destruct relay as [r|]; [|done]. destruct (security r) eqn:E; rewrite ?E; cbn; intros Hb Hn; try done. by rewrite Hb in Hn.
Qed.

Lemma wp_upgrade Q s : quiet s -> begun s -> tls s = None ->
  (forall caps s', quiet s' -> secured s' -> Q caps s') -> wp (upgrade w target recipients) Q quiet s.
Proof.
  intros Hq Hb Hn HQ. unfold upgrade. apply wp_bind, wp_config; [|done]. intros c Hc. apply wp_bind, wp_handshake.
  - intros s1 Hl Ht _. assert (quiet s1) as Hq1 by (unfold quiet; by rewrite Hl). assert (secured s1) as Hs1.
    { intros Hp. exists c. split; [by apply Ht|]. destruct (protected_must s Hb Hn Hp) as [Hm _]. by eapply config_meant. }
    apply wp_bind, wp_report. intros s2 Hs2. apply wp_bind, wp_greeted; [by eapply quiet_same|]. intros [reply caps] s3 Ht3 Hq3.
    destruct (negb _); [by apply wp_throw|]. apply wp_ret, HQ; [done|]. intros Hp. destruct (secured_same _ _ Hs2 Hs1 Hp) as (k & Hk & Hm). exists k. by rewrite Ht3.
  - intros e. apply wp_bind, wp_report. intros s2 Hs2. apply wp_throw. by eapply quiet_same.
Qed.

Lemma wp_secure caps Q s : quiet s -> begun s -> (forall caps s', quiet s' -> secured s' -> Q caps s') ->
  wp (secure require_tls w target recipients caps) Q quiet s.
Proof.
  intros Hq Hb HQ. unfold secure. apply wp_bind, wp_get. destruct (tls s) as [k|] eqn:Ht.
  - cbn. rewrite andb_false_r. apply wp_ret, HQ; [done|]. intros Hp. revert Hb Hp. unfold begun, protected, meant_config.
    destruct relay as [r|]; [|by rewrite Ht]. case_bool_decide; [|by rewrite Ht]. rewrite Ht. intros [= ->] _. by exists Verified.
  - rewrite bool_decide_false by (intros [? ?]; done). cbn [negb]. rewrite andb_true_r.
    destruct (want_tls target) eqn:Hw.
    + assert (forall s', must_tls require_tls target = false -> secured s') as Hfree by (intros s' Hm Hp; destruct (protected_must s Hb Ht Hp); congruence).
      destruct (Client.starttls caps).
      * apply wp_bind, wp_sent; [done|done|done|]. intros r s1 Ht1 Hl1 Hq1. destruct (Client.code r =? 220).
        -- apply wp_upgrade; [done|unfold begun in *; by rewrite Ht1|by rewrite Ht1|done].
        -- apply wp_bind, wp_report. intros s2 Hs2. destruct (must_tls _ _) eqn:Hm; [apply wp_throw; by eapply quiet_same|].
           apply wp_ret, HQ; [by eapply quiet_same|by apply Hfree].
      * apply wp_bind, wp_report. intros s2 Hs2. destruct (must_tls _ _) eqn:Hm; [apply wp_throw; by eapply quiet_same|].
        apply wp_ret, HQ; [by eapply quiet_same|by apply Hfree].
    + apply wp_ret, HQ; [done|]. intros Hp. destruct (protected_must s Hb Ht Hp). congruence.
Qed.

(** ** The login *)

Lemma wp_log_in Q s : quiet s -> secured s ->
  (forall o s', quiet s' -> secured s' -> (forall x t, o = Some x -> x <> ODelivered t) -> Q o s') -> wp (log_in w target) Q quiet s.
Proof.
  intros Hq Hs HQ. assert (forall s', tls s' = tls s -> secured s') as Hsec by (intros s' E Hp; destruct (Hs Hp) as (k & Hk & Hm); exists k; by rewrite E).
  assert (forall s', quiet s' -> secured s' -> Q None s') as Hnone by (intros s' ??; by apply HQ). unfold log_in. destruct relay as [r|]; [|by apply wp_ret, Hnone].
  destruct (username r) as [u|]; [|by apply wp_ret, Hnone]. destruct (password r) as [p|]; [|by apply wp_ret, Hnone].
  apply wp_bind. assert (forall c, match c with Content _ => False | _ => True end -> forall Q', (forall x s', tls s' = tls s -> quiet s' -> Q' x s') -> wp (send w c) Q' quiet s) as Hsend.
  { intros c Hc Q' HQ'. apply wp_sent; [done|done|done|]. intros x s' Ht _ Hq'. by apply HQ'. }
  assert (forall x s', tls s' = tls s -> quiet s' ->
    wp (if negb (Client.is_positive x) then quit;; mret (Some (ODeferred (bs "the relay refused our login: " ++ Client.to_string x))) else mret None) Q quiet s') as Hrest.
  { intros x s' Ht [Hok Hno]. destruct (negb _); [|apply wp_ret, Hnone; [done|by apply Hsec]]. apply wp_bind, wp_quit. intros s2 Ht2 Hl2. apply wp_ret, HQ.
    - unfold quiet. rewrite Hl2, contents_app, Hno. split; [|done]. apply Forall_app. split; [done|]. constructor; [by apply entry_now|constructor].
    - apply Hsec. congruence.
    - by intros ?? [= <-]. }
  destruct (oauth r); [|by apply Hsend]. unfold auth_xoauth2. apply wp_bind, Hsend; [done|]. intros x s' Ht Hq'. destruct (Client.code x =? 334).
  - apply wp_sent; [done|done|intros _; by apply Hsec|]. intros y s2 Ht2 _ Hq2. apply Hrest; [congruence|done].
  - apply wp_ret. by apply Hrest.
Qed.

(** ** The recipients *)

Notation outcome := (outcome target).

Definition rcpt_said (under : option TlsConfig) (r : QueueRecipient) (reply : Client.Reply) : Said :=
  {| under := under; command := RcptTo (address r); came := Some (inl reply) |}.

Definition rcpts_said (under : option TlsConfig) (rs : list QueueRecipient) (replies : list Client.Reply) : list Said :=
  zip_with (rcpt_said under) rs replies.

Fixpoint accepted_at (i : nat) (replies : list Client.Reply) : list nat :=
  match replies with [] => [] | r :: rs => (if Client.is_positive r then [i] else []) ++ accepted_at (i + 1) rs end.

Fixpoint place (i : nat) (replies : list Client.Reply) (outcomes : list (option Outcome)) : list (option Outcome) :=
  match replies with
  | [] => outcomes
  | r :: rs => place (i + 1) rs (if Client.is_positive r then outcomes else <[i := Some (outcome r)]> outcomes)
  end.

Lemma wp_rcpts rs : forall i outcomes accepted Q s, quiet s -> secured s ->
  (forall replies s', length replies = length rs -> tls s' = tls s -> log s' = log s ++ rcpts_said (tls s) rs replies -> quiet s' ->
    Q (place i replies outcomes, accepted ++ accepted_at i replies) s') ->
  wp (rcpts w target message i rs outcomes accepted) Q quiet s.
Proof.
  induction rs as [|r rs IH]; intros i outcomes accepted Q s Hq Hs HQ; cbn [rcpts].
  - apply wp_ret. specialize (HQ [] s). rewrite !app_nil_r in HQ. by apply HQ.
  - assert (forall s', tls s' = tls s -> secured s') as Hsec by (intros s' E Hp; destruct (Hs Hp) as (k & Hk & Hm); exists k; by rewrite E).
    apply wp_bind, wp_sent; [done|done|done|]. intros reply s1 Ht1 Hl1 Hq1. destruct (Client.is_positive reply) eqn:Hpos; [|apply wp_bind, wp_watched; intros s2 (Ht2 & Hl2 & Hh2)].
    + apply IH; [done|by apply Hsec|]. intros replies s' Hlen Ht Hl Hq'. specialize (HQ (reply :: replies) s'). cbn [place accepted_at] in HQ. rewrite Hpos in HQ.
      rewrite <- app_assoc. apply HQ; [by cbn; f_equal|congruence| |done]. by rewrite Hl, Hl1, Ht1, <- app_assoc.
    + apply IH; [by eapply quiet_same|apply Hsec; congruence|]. intros replies s' Hlen Ht Hl Hq'. specialize (HQ (reply :: replies) s'). cbn [place accepted_at] in HQ.
      rewrite Hpos in HQ. apply HQ; [by cbn; f_equal|congruence| |done]. by rewrite Hl, Hl2, Hl1, Ht2, Ht1, <- app_assoc.
Qed.

(** What becomes of the recipients: each is judged by the answer to its own RCPT, or by what
    became of the message. *)
Definition judged (fin : Outcome) (replies : list Client.Reply) : list Outcome :=
  map (fun r => if Client.is_positive r then fin else outcome r) replies.

Definition opened (r : Client.Reply) : option Outcome := if Client.is_positive r then None else Some (outcome r).

Lemma insert_middle {A} (pre : list A) x y post : <[length pre := y]> (pre ++ x :: post) = pre ++ y :: post.
Proof. rewrite insert_app_r_alt by done. by rewrite Nat.sub_diag. Qed.

Lemma place_opened replies : forall pre, place (length pre) replies (pre ++ replicate (length replies) None) = pre ++ map opened replies.
Proof.
  induction replies as [|r rs IH]; intros pre; [done|]. cbn [place length replicate map]. specialize (IH (pre ++ [opened r])).
  rewrite length_app in IH. cbn [length] in IH. rewrite <- !app_assoc in IH. cbn [app] in IH. rewrite <- IH. f_equal. unfold opened.
  destruct (Client.is_positive r); [done|]. by rewrite insert_middle.
Qed.

Lemma fill_judged fin replies : forall pre, fill fin (accepted_at (length pre) replies) (pre ++ map opened replies) = pre ++ map Some (judged fin replies).
Proof.
  unfold fill, judged. induction replies as [|r rs IH]; intros pre; [done|]. cbn [accepted_at map]. rewrite foldl_app.
  specialize (IH (pre ++ [Some (if Client.is_positive r then fin else outcome r)])). rewrite length_app in IH. cbn [length] in IH. rewrite <- !app_assoc in IH.
  cbn [app] in IH. rewrite <- IH. f_equal. unfold opened. destruct (Client.is_positive r); cbn; [|done]. by rewrite insert_middle.
Qed.

Lemma accepted_none i replies : accepted_at i replies = [] -> Forall (fun r => Client.is_positive r = false) replies.
Proof. revert i. induction replies as [|r rs IH]; intros i; [constructor|]. cbn. destruct (Client.is_positive r) eqn:E; [done|]. cbn. constructor; [done|by eapply IH]. Qed.

Lemma judged_none fin replies : Forall (fun r => Client.is_positive r = false) replies -> map opened replies = map Some (judged fin replies).
Proof. induction 1 as [|r rs E H IH]; [done|]. cbn. rewrite IH. unfold opened. by rewrite E. Qed.

Lemma wp_collect os : forall Q F s, Q os s -> wp (collect (map Some os)) Q F s.
Proof.
  induction os as [|o os IH]; intros Q F s HQ; [by apply wp_ret|]. cbn [map collect]. apply wp_bind. apply (wp_expect _ o); [done|]. apply wp_bind, IH. by apply wp_ret.
Qed.

(** ** The end of a transaction *)

Definition said_under (u : option TlsConfig) (c : Command) (came : option (Client.Reply + list byte)) : Said := {| under := u; command := c; came := came |}.

(** What was said after the recipients, and what it means for the ones that were accepted. *)
Inductive finished (fin : Outcome) (u : option TlsConfig) : list Said -> Prop :=
  | Refused_data d : Client.code d <> 354 -> fin = outcome d -> finished fin u [said_under u DataCommand (Some (inl d)); said_under u QuitCommand None]
  | Answered d r : Client.code d = 354 -> fin = outcome r ->
      finished fin u [said_under u DataCommand (Some (inl d)); said_under u (Content raw) (Some (inl r)); said_under u QuitCommand None]
  | Lost d e : Client.code d = 354 -> fin = ODeferred (bs "connection lost after sending: " ++ e) ->
      finished fin u [said_under u DataCommand (Some (inl d)); said_under u (Content raw) (Some (inr e))].

Inductive settled (os : list Outcome) (l : list Said) : Prop :=
  | Turned_away o : (forall t, o <> ODelivered t) -> contents l = 0%nat -> os = everyone recipients o -> settled os l
  | Nobody before u replies : contents before = 0%nat -> length replies = length recipients -> Forall (fun r => Client.is_positive r = false) replies ->
      l = before ++ rcpts_said u recipients replies ++ [said_under u QuitCommand None] -> os = map outcome replies -> settled os l
  | Judged before u replies fin after : contents before = 0%nat -> length replies = length recipients -> finished fin u after ->
      l = before ++ rcpts_said u recipients replies ++ after -> os = judged fin replies -> settled os l.

(** How a session ends. *)
Definition ended (os : list Outcome) (s : Wire) : Prop := Forall entry_ok (log s) /\ settled os (log s).

Lemma entries_now (s0 s : Wire) c came : tls s = tls s0 -> Forall entry_ok (log s) -> (revealing c = true -> secured s0) ->
  Forall entry_ok (log s ++ [said_under (tls s0) c came]).
Proof.
  intros Ht Hok Hsec. apply Forall_app. split; [done|]. constructor; [|constructor]. intros Hp Hr. destruct (Hsec Hr Hp) as (k & Hk & Hm). by exists k.
Qed.

Lemma outcome_negative r t : Client.is_positive r = false -> outcome r <> ODelivered t.
Proof. unfold Outbound.outcome, watch_outcome, from_reply. intros ->. by destruct (_ && _); [|destruct (Client.is_permanent r)]. Qed.

(** DATA and the message, said once. *)
Lemma wp_hand_over Q s : quiet s -> secured s ->
  (forall fin (stands : bool) s' after, tls s' = tls s -> log s' = log s ++ after -> Forall entry_ok (log s') ->
    finished fin (tls s) (after ++ if stands then [said_under (tls s) QuitCommand None] else []) -> Q (fin, stands) s') ->
  wp (hand_over w target message raw) Q quiet s.
Proof.
  intros Hq Hs HQ. unfold hand_over. apply wp_bind, wp_sent; [done|done|done|]. intros d s1 Ht1 Hl1 [Hok1 _]. destruct (Client.code d =? 354) eqn:Hd; cbn [negb].
  - apply wp_bind, wp_get, wp_bind. unfold say. apply wp_modify, wp_bind, wp_modify. cbn. rewrite Ht1. apply Z.eqb_eq in Hd.
    assert (forall came, Forall entry_ok (log s1 ++ [said_under (tls s) (Content raw) came])) as Hok by (intros came; by apply entries_now).
    destruct (replies w (heard s1)) as [r|e].
    + apply wp_bind. assert (forall s', same_talk {| tls := tls s1; log := log s1 ++ [said_under (tls s) (Content raw) (Some (inl r))]; heard := heard s1 + 1; noted := noted s1; issues := issues s1;
          accepted_by_microsoft := accepted_by_microsoft s1; reported := reported s1 |} s' -> wp (mret (outcome r, true) : N (Outcome * bool)) Q quiet s') as Hrest.
      { intros s' (Ht & Hl & _). cbn in Ht, Hl. apply wp_ret. eapply (HQ _ true s' [said_under (tls s) DataCommand (Some (inl d)); said_under (tls s) (Content raw) (Some (inl r))]);
          [congruence|by rewrite Hl, Hl1, <- app_assoc|rewrite Hl; apply Hok|by eapply Answered]. }
      destruct (Client.is_positive r); [by apply wp_delivered|by apply wp_watched].
    + apply wp_ret. eapply (HQ _ false _ [said_under (tls s) DataCommand (Some (inl d)); said_under (tls s) (Content raw) (Some (inr e))]);
        [done|by cbn; rewrite Hl1, <- app_assoc|apply Hok|by eapply Lost].
  - apply Z.eqb_neq in Hd. apply wp_bind, wp_watched. intros s2 (Ht2 & Hl2 & _). apply wp_ret.
    eapply (HQ _ true s2 [said_under (tls s) DataCommand (Some (inl d))]); [congruence|by rewrite Hl2, Hl1|by rewrite Hl2|by eapply Refused_data].
Qed.

Lemma contents_apps l l' : contents (l ++ l') = (contents l + contents l')%nat.
Proof. unfold contents. by rewrite List.filter_app, length_app. Qed.

(** Everyone is turned away, politely. *)
Lemma wp_turned_away o F s : quiet s -> (forall t, o <> ODelivered t) -> wp (quit;; mret (everyone recipients o)) ended F s.
Proof.
  intros [Hok Hno] Ho. apply wp_bind, wp_quit. intros s' Ht Hl. apply wp_ret. split; rewrite Hl.
  - by apply (entries_now s s QuitCommand).
  - eapply Turned_away; [done|by rewrite contents_app, Hno|done].
Qed.

Lemma wp_transaction caps s : quiet s -> secured s -> wp (transaction w target message raw recipients caps) ended quiet s.
Proof.
  intros Hq Hs. unfold transaction. destruct (match Client.size caps with Some _ => _ | None => _ end); [by apply wp_turned_away|].
  destruct (needs_utf8 message recipients && _); [by apply wp_turned_away|].
  apply wp_bind, wp_sent; [done|done|done|]. intros r s1 Ht1 _ Hq1. destruct (Client.is_positive r) eqn:Hr; cbn [negb].
  2: { apply wp_bind, wp_watched. intros s2 Hs2. apply wp_turned_away; [by eapply quiet_same|]. intros t. by apply outcome_negative. }
  assert (secured s1) as Hs1 by (intros Hp; destruct (Hs Hp) as (k & Hk & Hm); exists k; by rewrite Ht1).
  apply wp_bind, wp_rcpts; [done|done|]. intros replies s2 Hlen Ht2 Hl2 Hq2. rewrite app_nil_l.
  assert (secured s2) as Hs2 by (intros Hp; destruct (Hs1 Hp) as (k & Hk & Hm); exists k; by rewrite Ht2).
  rewrite <- Hlen. pose proof (place_opened replies []) as Hplace. cbn [length app] in Hplace. rewrite Hplace. clear Hplace. case_bool_decide as Hacc.
  - apply accepted_none in Hacc. apply wp_bind, wp_quit. intros s3 Ht3 Hl3. rewrite (judged_none (ODeferred []) _ Hacc). apply wp_collect. destruct Hq2 as [Hok2 _]. split.
    + rewrite Hl3. by apply (entries_now s2 s2 QuitCommand).
    + eapply (Nobody _ _ (log s1) (tls s1) replies); [apply Hq1|done|done| |].
      * rewrite Hl3, Hl2, <- app_assoc. unfold said_now, said_under. by rewrite Ht2.
      * unfold judged. apply map_ext_Forall. eapply Forall_impl; [exact Hacc|]. by intros ? ->.
  - apply wp_bind, wp_hand_over; [done|done|]. intros fin stands s3 after Ht3 Hl3 Hok3 Hfin. pose proof (fill_judged fin replies []) as Hfill. cbn [length app] in Hfill. rewrite Hfill. clear Hfill.
    assert (forall s', log s' = log s3 ++ (if stands then [said_under (tls s2) QuitCommand None] else []) -> wp (collect (map Some (judged fin replies))) ended quiet s') as Hend.
    { intros s' Hl. apply wp_collect. split.
      - rewrite Hl. destruct stands; [|by rewrite app_nil_r]. by apply (entries_now s2 s3 QuitCommand).
      - eapply (Judged _ _ (log s1) (tls s1) replies fin); [apply Hq1|done|rewrite <- Ht2; exact Hfin| |done]. by rewrite Hl, Hl3, Hl2, <- !app_assoc. }
    apply wp_bind. destruct stands.
    + apply wp_quit. intros s4 Ht4 Hl4. apply Hend. rewrite Hl4. unfold said_now, said_under. by rewrite Ht3.
    + apply wp_ret, Hend. by rewrite app_nil_r.
Qed.

Lemma wp_hello Q s : quiet s -> (forall caps s', tls s' = tls s -> quiet s' -> Q caps s') -> wp (hello w target message) Q quiet s.
Proof.
  intros Hq HQ. unfold hello. apply wp_bind, wp_read; [|intros s' Hl; unfold quiet; by rewrite Hl]. intros g s1 _ Ht1 Hl1.
  assert (quiet s1) as Hq1 by (unfold quiet; by rewrite Hl1). destruct (negb _).
  - apply wp_bind, wp_watched. intros s2 Hs2. apply wp_throw. by eapply quiet_same.
  - apply wp_bind, wp_greeted; [done|]. intros [reply caps] s2 Ht2 Hq2. destruct (negb _); [|apply wp_ret, HQ; [congruence|done]].
    apply wp_bind, wp_sent; [done|done|done|]. intros r s3 Ht3 _ Hq3. destruct (negb _); [by apply wp_throw|]. apply wp_ret, HQ; [congruence|done].
Qed.

Lemma wp_conversation s : quiet s -> begun s -> wp (conversation require_tls w target message raw recipients) ended quiet s.
Proof.
  intros Hq Hb. unfold conversation. apply wp_bind, wp_hello; [done|]. intros caps s1 Ht1 Hq1.
  apply wp_bind, wp_secure; [done|unfold begun in *; by rewrite Ht1|]. intros caps' s2 Hq2 Hs2. apply wp_bind, wp_log_in; [done|done|].
  intros o s3 Hq3 Hs3 Ho. destruct o as [o|]; [|by apply wp_transaction]. apply wp_ret. split; [apply Hq3|].
  eapply Turned_away; [intros t; by apply (Ho o t)|apply Hq3|done].
Qed.

Lemma wp_session noted : wp (session require_tls w target message raw recipients) ended quiet (fresh_wire noted).
Proof.
  assert (quiet (fresh_wire noted)) as Hq by (split; [constructor|done]).
  unfold session. destruct (connects w); [by apply wp_throw|]. apply wp_bind. destruct relay as [r|] eqn:Hr; [case_bool_decide as Hsec|].
  - apply wp_handshake; [|intros e; by apply wp_throw]. intros s' Hl Ht _. apply wp_conversation; [unfold quiet; by rewrite Hl|].
    unfold begun. rewrite Hr, bool_decide_true by done. by apply Ht.
  - apply wp_ret, wp_conversation; [done|]. unfold begun. by rewrite Hr, bool_decide_false.
  - apply wp_ret, wp_conversation; [done|]. unfold begun. by rewrite Hr.
Qed.
End session.

(** ** Targets *)

Section names.
Context (n : Names).

(** The TLSA records of a host, when the MX records of the domain validate. *)
Definition dane_here (domain host : list byte) : Dane := match validated_mx n domain with Secure _ => dane_of (host_tlsa n host) | _ => DaneOff end.

(** A host the domain's MX records name, as the policy has it. *)
Definition by_policy (domain : list byte) (policy : option MtaSts.Policy) (t : Target) : Prop :=
  via t = Mx /\ dane t = dane_here domain (host t) /\ verified_tls t = is_enforced policy && negb (applies (dane t)) /\
  (forall p, policy = Some p -> is_enforced policy = true -> MtaSts.allows p (host t) = true) /\
  Forall (fun a => allow_private_mx n = true \/ PublicIp.is_public_ip a.1 = true) (addrs t).

Lemma mx_target_policy domain secure policy h ips t : secure = match validated_mx n domain with Secure _ => true | _ => false end ->
  (forall p, policy = Some p -> is_enforced policy = true -> MtaSts.allows p h = true) ->
  mx_target n secure (is_enforced policy) policy h ips = Some t -> by_policy domain policy t.
Proof.
  intros Hsec Hallow. unfold mx_target. destruct (_ && _); [done|]. intros [= <-]. unfold by_policy, dane_here. cbn. split; [done|]. split; [|split; [done|]].
  - rewrite Hsec. by destruct (validated_mx n domain).
  - split; [done|]. apply Forall_map, List.Forall_forall. intros ip [_ H]%List.filter_In. cbn. by apply orb_true_iff.
Qed.

Lemma mx_targets_policy domain secure policy implicit hosts : secure = match validated_mx n domain with Secure _ => true | _ => false end ->
  (forall h p, h ∈ hosts -> policy = Some p -> is_enforced policy = true -> MtaSts.allows p h = true) ->
  forall targets looked_up private ts, Forall (by_policy domain policy) targets ->
  mx_targets n domain secure (is_enforced policy) implicit policy hosts targets looked_up private = inl ts -> Forall (by_policy domain policy) ts /\ (length ts <= length targets + length hosts)%nat.
Proof.
  intros Hsec Hallow. induction hosts as [|h hosts IH]; intros targets looked_up private ts Ht; cbn [mx_targets].
  - destruct (_ && _); [done|]. intros [= <-]. split; [done|cbn; lia].
  - specialize (IH ltac:(set_solver)). destruct (ip_lookup n h) as [ips| |].
    + destruct (mx_target _ _ _ _ _ _) as [t|] eqn:Hm; intros Hgo; apply IH in Hgo as [H1 H2]; rewrite ?length_app in *; try (split; [done|cbn in *; lia]); [|done].
      apply Forall_app. split; [done|]. constructor; [|constructor]. eapply mx_target_policy; [exact Hsec| |exact Hm]. set_solver.
    + destruct implicit; [done|]. intros Hgo; apply IH in Hgo as [H1 H2]; [split; [done|cbn; lia]|done].
    + intros Hgo; apply IH in Hgo as [H1 H2]; [split; [done|cbn; lia]|done].
Qed.

Lemma by_mx_policy domain ts : by_mx n domain = inl ts -> Forall (by_policy domain (policy_of n domain)) ts /\ (length ts <= MAX_HOSTS)%nat.
Proof.
  unfold by_mx. destruct (mx_hosts n domain) as [[hosts0 implicit0]|]; [|done].
  assert (forall secure implicit hosts, secure = match validated_mx n domain with Secure _ => true | _ => false end ->
    mx_targets n domain secure (is_enforced (policy_of n domain)) implicit (policy_of n domain) (take MAX_HOSTS (allowed_hosts (policy_of n domain) hosts)) [] 0 0 = inl ts ->
    Forall (by_policy domain (policy_of n domain)) ts /\ (length ts <= MAX_HOSTS)%nat) as Hgo.
  { intros secure implicit hosts Hsec H. apply mx_targets_policy in H as [H1 H2]; [|done| |constructor].
    - rewrite length_take in H2. cbn [length] in H2. split; [done|lia].
    - intros h p Hin Hp He. apply elem_of_take in Hin as (i & Hi & _). unfold allowed_hosts in Hi. rewrite He, Hp in Hi.
      apply list_elem_of_lookup_2, list_elem_of_In, List.filter_In in Hi. by destruct Hi. }
  destruct (validated_mx n domain) as [vhosts| |]; [..|done]; cbn zeta beta iota; (case_bool_decide; [done|]); (destruct (_ && _); [done|]); by apply Hgo.
Qed.

Lemma mx_hosts_undelivered domain t : mx_hosts n domain <> inr (ODelivered t).
Proof. unfold mx_hosts. by destruct (mx_lookup n domain). Qed.

Lemma mx_targets_undelivered domain secure enforced implicit policy hosts : forall targets looked_up private t,
  mx_targets n domain secure enforced implicit policy hosts targets looked_up private <> inr (ODelivered t).
Proof.
  induction hosts as [|h hosts IH]; intros targets looked_up private t; cbn [mx_targets]; [by destruct (_ && _)|].
  destruct (ip_lookup n h); [destruct (mx_target _ _ _ _ _ _)|destruct implicit|]; done || apply IH.
Qed.

(** No server, no delivery. *)
Lemma resolve_undelivered domain account return_path t : resolve_targets n domain account return_path <> inr (ODelivered t).
Proof.
  unfold resolve_targets, route_target, sender_route, by_mx. destruct (routes n domain) as [route|]; [by destruct (_ ≫= _) as [[]|]|].
  destruct account as [a|]; [case_bool_decide; [|destruct (fetch_sender n a return_path) as [s|]; [destruct (if from_oauth s then _ else _); done|]]|].
  all: destruct (configured_relay n); [done|]; pose proof (mx_hosts_undelivered domain t) as Hm; destruct (mx_hosts n domain) as [[hosts implicit]|]; [|congruence].
  all: destruct (validated_mx n domain); cbn zeta beta iota; try done; (case_bool_decide; [done|]); (destruct (_ && bool_decide _); [done|]); apply mx_targets_undelivered.
Qed.
End names.

(** ** The tries *)

Section domain.
Context (require_tls : bool) (world : Target -> SocketAddr -> World) (n : Names) (message : QueuedMessage) (raw : list byte) (recipients : list QueueRecipient).
Notation connection := (connection require_tls world message raw recipients).
Notation try_addresses := (try_addresses require_tls world message raw recipients).
Notation try_targets := (try_targets require_tls world message raw recipients).
Notation deliver_domain := (deliver_domain require_tls world n message raw recipients).

Definition kept (t : Tried) : Prop := Forall (entry_ok require_tls (with_target t) recipients) (log (wire t)).

Definition silent (t : Tried) : Prop := kept t /\ contents (log (wire t)) = 0%nat.

(** Where the tries led: each one before the last took nothing. *)
Definition went (r : Effects.outcome (list byte) (list Outcome)) (tried : list Tried) : Prop :=
  match r with
  | Ok os => exists before final, tried = before ++ [final] /\ Forall silent before /\
      ended require_tls (with_target final) raw recipients os (wire final)
  | Err _ => Forall silent tried
  | Panicked | OutOfFuel => False
  end.

Lemma connection_went t a : match (connection t a).1 with
  | Ok os => ended require_tls t raw recipients os (connection t a).2
  | Err _ => quiet require_tls t recipients (connection t a).2
  | _ => False
  end.
Proof. pose proof (wp_session require_tls (world t a) t message raw recipients (noted_at_first t)) as H. unfold wp in H. unfold Outbound.connection. by destruct (session _ _ _ _ _ _ _) as [[] s]. Qed.

Lemma try_addresses_went t addresses : forall last tried, Forall silent tried ->
  went (try_addresses t addresses last tried).1 (try_addresses t addresses last tried).2.
Proof.
  induction addresses as [|a addresses IH]; intros last tried Ht; [done|]. cbn [Outbound.try_addresses].
  pose proof (connection_went t a) as Hc. destruct (connection t a) as [[os|e| |] s]; [|apply IH|done|done].
  - by exists tried, {| with_target := t; at_address := a; wire := s |}.
  - apply Forall_app. split; [done|]. constructor; [exact Hc|constructor].
Qed.

Lemma try_targets_went targets : forall last tried, Forall silent tried -> went (try_targets targets last tried).1 (try_targets targets last tried).2.
Proof.
  induction targets as [|t targets IH]; intros last tried Ht; [done|]. cbn [Outbound.try_targets]. pose proof (try_addresses_went t (addrs t) last tried Ht) as H.
  destruct (dane t); try (by apply IH); destruct (try_addresses t (addrs t) last tried) as [[os|e| |] tried']; done || by apply IH.
Qed.

(** Where they went: to a target there is, and not where the TLSA records are bogus. *)
Definition reached (targets : list Target) (t : Tried) : Prop := with_target t ∈ targets /\ at_address t ∈ addrs (with_target t) /\ dane (with_target t) <> DaneBogus.

Lemma try_addresses_reached t targets addresses : forall last tried, t ∈ targets -> dane t <> DaneBogus -> (forall a, a ∈ addresses -> a ∈ addrs t) ->
  Forall (reached targets) tried -> Forall (reached targets) (try_addresses t addresses last tried).2.
Proof.
  induction addresses as [|a addresses IH]; intros last tried Hin Hd Ha Ht; [done|]. cbn [Outbound.try_addresses].
  assert (forall s, Forall (reached targets) (tried ++ [{| with_target := t; at_address := a; wire := s |}])) as Hnext.
  { intros s. apply Forall_app. split; [done|]. constructor; [|constructor]. split; [done|]. split; [apply Ha; set_solver|done]. }
  destruct (connection t a) as [[os|e| |] s]; try apply Hnext. apply IH; [done|done| |apply Hnext]. set_solver.
Qed.

Lemma try_targets_reached all targets : forall last tried, (forall t, t ∈ targets -> t ∈ all) ->
  Forall (reached all) tried -> Forall (reached all) (try_targets targets last tried).2.
Proof.
  induction targets as [|t targets IH]; intros last tried Hin Ht; [done|]. cbn [Outbound.try_targets].
  assert (dane t <> DaneBogus -> Forall (reached all) (try_addresses t (addrs t) last tried).2) as H by (intros Hd; apply try_addresses_reached; set_solver).
  assert (forall e tried, Forall (reached all) tried -> Forall (reached all) (try_targets targets e tried).2) as Hrest by (intros e tried' Htr; apply IH; set_solver).
  destruct (dane t); try (by apply Hrest); specialize (H ltac:(done)); destruct (try_addresses t (addrs t) last tried) as [[os|e| |] tried']; done || by apply Hrest.
Qed.

Lemma deliver_domain_went domain : exists os, (deliver_domain domain).1 = Ok os /\
  ((Forall silent (deliver_domain domain).2 /\ exists o, os = everyone recipients o /\ forall t, o <> ODelivered t) \/ went (Ok os) (deliver_domain domain).2).
Proof.
  unfold Outbound.deliver_domain. destruct (resolve_targets _ _ _ _) as [targets|o] eqn:Hres.
  - pose proof (try_targets_went targets (bs "no mail server for " ++ domain ++ bs " could be reached") [] ltac:(constructor)) as H.
    destruct (try_targets _ _ _) as [[os|e| |] tried]; [exists os; by split; [|right]| |done|done].
    exists (everyone recipients (ODeferred e)). split; [done|]. left. split; [done|]. by exists (ODeferred e).
  - exists (everyone recipients o). split; [done|]. left. split; [constructor|]. exists o. split; [done|]. intros t ->. by eapply resolve_undelivered.
Qed.
End domain.

(** ** What a talk hands over *)

Lemma contents_rcpts u rs replies : contents (rcpts_said u rs replies) = 0%nat.
Proof. revert replies. induction rs as [|r rs IH]; intros [|y replies]; try done. exact (IH replies). Qed.

Lemma contents_in e l : contents l = 0%nat -> e ∈ l -> is_content e = false.
Proof.
  unfold contents. intros H%length_zero_iff_nil He. destruct (is_content e) eqn:E; [|done].
  assert (In e (List.filter is_content l)) as Hin by (apply List.filter_In; split; [by apply list_elem_of_In|done]). by rewrite H in Hin.
Qed.

Lemma rcpts_said_lookup u rs replies i r reply : rs !! i = Some r -> replies !! i = Some reply -> rcpt_said u r reply ∈ rcpts_said u rs replies.
Proof. intros Hr Hy. apply list_elem_of_lookup. exists i. apply lookup_zip_with_Some. by exists r, reply. Qed.

Section settled.
Context (target : Target) (raw : list byte) (recipients : list QueueRecipient).
Notation settled := (settled target raw recipients).
Notation finished := (finished target raw).

Lemma finished_contents fin u after : finished fin u after -> (contents after <= 1)%nat.
Proof. intros []; cbn; lia. Qed.

Lemma settled_contents os l : settled os l -> (contents l <= 1)%nat.
Proof.
  intros [o _ H _|before u replies Hb _ _ -> _|before u replies fin after Hb _ Hf -> _]; [lia|..]; rewrite !contents_apps, contents_rcpts, Hb; [cbn; lia|].
  by apply finished_contents in Hf.
Qed.

Lemma settled_length os l : settled os l -> length os = length recipients.
Proof. intros [o _ _ ->|before u replies _ Hl _ _ ->|before u replies fin after _ Hl _ _ ->]; unfold everyone, judged; by rewrite length_map. Qed.

(** The message, or DATA, was answered so that it counts as taken. *)
Definition answered_positively (l : list Said) : Prop :=
  exists u r, Client.is_positive r = true /\ (said_under u (Content raw) (Some (inl r)) ∈ l \/ said_under u DataCommand (Some (inl r)) ∈ l /\ Client.code r <> 354).

Lemma outcome_delivered r t : outcome target r = ODelivered t -> Client.is_positive r = true /\ t = Client.to_string r.
Proof.
  intros H. destruct (Client.is_positive r) eqn:E; [|by apply outcome_negative in H]. split; [done|]. revert H. unfold outcome, watch_outcome, from_reply. rewrite E.
  destruct (_ && _); [done|]. by intros [= <-].
Qed.

Lemma finished_delivered t u after : finished (ODelivered t) u after -> answered_positively after.
Proof.
  intros [d Hd H|d r _ H|]; [..|done]; symmetry in H; apply outcome_delivered in H as [H _]; exists u; eexists; (split; [exact H|]).
  - right. split; [by left|done].
  - left. by right; left.
Qed.

(** A recipient counts as delivered only after its own RCPT and the message were taken. *)
Lemma settled_delivered os l i t : settled os l -> os !! i = Some (ODelivered t) ->
  answered_positively l /\ exists r u reply, recipients !! i = Some r /\ Client.is_positive reply = true /\ rcpt_said u r reply ∈ l.
Proof.
  intros [o Ho _ ->|before u replies _ Hl Hneg -> ->|before u replies fin after _ Hl Hf -> ->] Hi.
  - unfold everyone in Hi. rewrite list_lookup_fmap in Hi. destruct (recipients !! i); [|done]. injection Hi as Hi. by destruct (Ho t).
  - rewrite list_lookup_fmap in Hi. destruct (replies !! i) as [reply|] eqn:E; [|done]. injection Hi as Hi. rewrite Forall_lookup in Hneg. apply Hneg in E. by apply outcome_negative in Hi.
  - unfold judged in Hi. rewrite list_lookup_fmap in Hi. destruct (replies !! i) as [reply|] eqn:E; [|done]. injection Hi as Hi.
    destruct (Client.is_positive reply) eqn:Hpos; [|by apply outcome_negative in Hi]. subst fin. apply finished_delivered in Hf as (u' & r & Hr & Hin). split.
    + exists u', r. split; [done|]. destruct Hin as [Hin|[Hin ?]]; [left|right]; set_solver.
    + destruct (lookup_lt_is_Some_2 recipients i) as [q Hq]; [rewrite <- Hl; by eapply lookup_lt_Some|]. exists q, u, reply. split; [done|]. split; [done|].
      apply elem_of_app. right. apply elem_of_app. left. by eapply rcpts_said_lookup.
Qed.

Lemma outcome_positive r : Client.is_positive r = true -> outcome target r = ODelivered (Client.to_string r).
Proof.
  intros H. unfold outcome, watch_outcome, from_reply. rewrite H. enough (Client.is_permanent r = false) as -> by (by rewrite andb_false_r).
  unfold Client.is_positive, Client.is_permanent in *. lia.
Qed.

(** Once the message was taken, everyone has it but who was refused by name. *)
Lemma settled_taken os l u r i q : settled os l -> said_under u (Content raw) (Some (inl r)) ∈ l -> Client.is_positive r = true -> recipients !! i = Some q ->
  os !! i = Some (ODelivered (Client.to_string r)) \/
  exists u' reply, Client.is_positive reply = false /\ rcpt_said u' q reply ∈ l /\ os !! i = Some (outcome target reply).
Proof.
  intros Hs Hin Hpos Hq. assert (forall before u' replies, contents before = 0%nat -> said_under u (Content raw) (Some (inl r)) ∈ before \/ said_under u (Content raw) (Some (inl r)) ∈ rcpts_said u' recipients replies -> False) as Hno.
  { intros before u' replies Hb [H|H]; eapply contents_in in H; try done. apply contents_rcpts. }
  destruct Hs as [o _ Hc _|before u' replies Hb _ _ -> _|before u' replies fin after Hb Hl Hf -> ->].
  - by eapply contents_in in Hin.
  - exfalso. rewrite !elem_of_app in Hin. destruct Hin as [H|[H|H]]; [by eapply (Hno before u' replies); [|left]|by eapply (Hno before u' replies); [|right]|by apply list_elem_of_singleton in H].
  - assert (fin = ODelivered (Client.to_string r)) as ->.
    { rewrite !elem_of_app in Hin. destruct Hin as [H|[H|H]]; [by destruct (Hno before u' replies Hb (or_introl H))|by destruct (Hno before u' replies Hb (or_intror H))|].
      destruct Hf as [d Hd ->|d r' Hd ->|d e Hd ->]; rewrite !elem_of_cons in H; destruct_or!; try done; try (by apply elem_of_nil in H). injection H as _ ->. by apply outcome_positive. }
    destruct (lookup_lt_is_Some_2 replies i) as [reply Hy]; [rewrite Hl; by eapply lookup_lt_Some|]. unfold judged. rewrite list_lookup_fmap, Hy. cbn.
    destruct (Client.is_positive reply) eqn:Hp; [by left|]. right. exists u', reply. split; [done|]. split; [|done].
    apply elem_of_app. right. apply elem_of_app. left. by eapply rcpts_said_lookup.
Qed.
End settled.

Definition handed (tried : list Tried) : nat := list_sum (map (fun x => contents (log (wire x))) tried).

Lemma handed_silent require_tls recipients tried : Forall (silent require_tls recipients) tried -> handed tried = 0%nat.
Proof. unfold handed. induction 1 as [|x tried [_ Hx] _ IH]; [done|]. cbn. by rewrite Hx. Qed.

Section sent.
Context (require_tls : bool) (world : Target -> SocketAddr -> World) (n : Names) (message : QueuedMessage) (raw : list byte) (recipients : list QueueRecipient).
Notation deliver_domain := (deliver_domain require_tls world n message raw recipients).

(** C3: Over every way the servers of a domain may answer, break off or stay silent, a try
    ends with one outcome for each recipient and without a panic; the message is handed over
    at most once, over all servers and addresses that are tried; a recipient counts as
    delivered only when one server took its RCPT and then took the message, or answered DATA
    with a positive code other than 354, which counts as if it had although nothing is sent
    ([Sample.delivered_unsent]); and once a server took the message, every recipient counts as delivered but
    those it refused by name, so that no later try sends them the message again. *)
Theorem handed_over_once domain : exists os, (deliver_domain domain).1 = Ok os /\ length os = length recipients /\ (handed (deliver_domain domain).2 <= 1)%nat /\
  (forall i t, os !! i = Some (ODelivered t) -> exists x r u reply, x ∈ (deliver_domain domain).2 /\ answered_positively raw (log (wire x)) /\
     recipients !! i = Some r /\ Client.is_positive reply = true /\ rcpt_said u r reply ∈ log (wire x)) /\
  (forall x u r i q, x ∈ (deliver_domain domain).2 -> said_under u (Content raw) (Some (inl r)) ∈ log (wire x) -> Client.is_positive r = true -> recipients !! i = Some q ->
     os !! i = Some (ODelivered (Client.to_string r)) \/
     exists u' reply, Client.is_positive reply = false /\ rcpt_said u' q reply ∈ log (wire x) /\ os !! i = Some (outcome (with_target x) reply)).
Proof.
  destruct (deliver_domain_went require_tls world n message raw recipients domain) as (os & -> & Hwent). exists os. split; [done|].
  assert (forall l x u r, Forall (silent require_tls recipients) l -> x ∈ l -> said_under u (Content raw) (Some (inl r)) ∈ log (wire x) -> False) as Hno.
  { intros l x u r Hl Hx Hin. rewrite Forall_forall in Hl. apply Hl in Hx as [_ Hx]. by eapply contents_in in Hin. }
  destruct Hwent as [(Hs & o & -> & Ho)|(before & x & -> & Hs & _ & Hend)].
  - split; [apply length_map|]. split; [rewrite (handed_silent _ _ _ Hs); lia|]. split.
    + intros i t Hi. unfold everyone in Hi. rewrite list_lookup_fmap in Hi. destruct (recipients !! i); [|done]. injection Hi as Hi. by destruct (Ho t).
    + intros x u r i q Hx Hin. by destruct (Hno _ x u r Hs Hx).
  - split; [by eapply settled_length|]. split.
    { unfold handed. rewrite map_app, list_sum_app. fold (handed before). rewrite (handed_silent _ _ _ Hs). cbn. apply settled_contents in Hend. lia. }
    split.
    + intros i t Hi. destruct (settled_delivered _ _ _ _ _ _ _ Hend Hi) as (Ha & r & u & reply & Hr). exists x, r, u, reply. split; [set_solver|done].
    + intros y u r i q Hy Hin Hpos Hq. apply elem_of_app in Hy as [Hy| ->%list_elem_of_singleton]; [by destruct (Hno _ y u r Hs Hy)|]. by eapply settled_taken.
Qed.

Lemma deliver_domain_kept domain : Forall (kept require_tls recipients) (deliver_domain domain).2.
Proof.
  destruct (deliver_domain_went require_tls world n message raw recipients domain) as (os & _ & [(Hs & _)|(before & x & -> & Hs & Hk & _)]).
  - eapply Forall_impl; [exact Hs|]. by intros ? [].
  - apply Forall_app. split; [eapply Forall_impl; [exact Hs|]; by intros ? []|by constructor].
Qed.

Lemma deliver_domain_reached domain targets : resolve_targets n domain (account_id message) (return_path message) = inl targets ->
  Forall (reached targets) (deliver_domain domain).2.
Proof.
  intros Hr. unfold Outbound.deliver_domain. rewrite Hr. pose proof (try_targets_reached require_tls world message raw recipients targets targets
    (bs "no mail server for " ++ domain ++ bs " could be reached") [] ltac:(done) ltac:(constructor)) as H.
  by destruct (try_targets _ _ _ _ _ _ _ _) as [[] ?].
Qed.

(** The domain's own mail servers are asked, and not another one in their place. *)
Definition direct (domain : list byte) : Prop :=
  routes n domain = None /\ sender_route n (account_id message) (return_path message) = inl None /\ configured_relay n = None.

Lemma direct_resolves domain : direct domain -> resolve_targets n domain (account_id message) (return_path message) = by_mx n domain.
Proof. intros (Hr & Hs & Hc). unfold resolve_targets. by rewrite Hr, Hs, Hc. Qed.

(** C13: Mail to a domain that enforces MTA-STS, whose own servers are asked (no route, relay or
    outgoing server of its own stands in), is protected from who can redirect or listen: of
    everything that is said in any try, the envelope, the message and the rest of what
    gives mail away is only said to a host the policy names, at an address of the internet
    unless private ones were allowed, and under TLS whose certificate was checked, against
    the name of the host or, where validated MX records lead to usable TLSA records, against
    these; where these lead to TLSA records none of which is usable, only under TLS; a host
    whose TLSA records do not validate is not talked to at all. *)
Theorem mail_goes_protected domain p : direct domain -> MtaSts.policy (sts n domain) = Some p -> MtaSts.mode p = MtaSts.Enforce ->
  Forall (fun x => let t := with_target x in
    MtaSts.allows p (host t) = true /\ (allow_private_mx n = true \/ PublicIp.is_public_ip (at_address x).1 = true) /\ dane_here n domain (host t) <> DaneBogus /\
    Forall (fun e => revealing (command e) = true -> exists c, under e = Some c /\
      match dane_here n domain (host t) with
      | DaneOff => c = Verified
      | Verify records => c = DaneConfig records [host t; Outbound.domain recipients]
      | EncryptOnly _ | DaneBogus => True
      end) (log (wire x))) (deliver_domain domain).2.
Proof.
  intros Hd Hp Hm. destruct (by_mx n domain) as [targets|o] eqn:Hmx.
  2: { unfold Outbound.deliver_domain. rewrite direct_resolves, Hmx by done. constructor. }
  pose proof (deliver_domain_reached domain targets ltac:(by rewrite direct_resolves)) as Hr. pose proof (deliver_domain_kept domain) as Hk.
  apply by_mx_policy in Hmx as [Hpol _]. assert (policy_of n domain = Some p) as Hpo.
  { unfold policy_of. rewrite Hp. cbn. by rewrite bool_decide_false by (rewrite Hm; done). }
  rewrite Hpo in Hpol; clear Hpo. assert (is_enforced (Some p) = true) as He by (unfold is_enforced; by apply bool_decide_true). rewrite Forall_forall in Hr. rewrite Forall_forall in Hk. rewrite Forall_forall in Hpol. rewrite Forall_forall.
  intros x Hx. destruct (Hr x Hx) as (Hin & Ha & Hb). destruct (Hpol _ Hin) as (Hvia & Hdane & Hver & Hallow & Haddr). rewrite Forall_forall in Haddr.
  cbv zeta. rewrite <- Hdane. split; [by apply (Hallow p)|]. split; [by apply Haddr|]. split; [done|].
  specialize (Hk x Hx). unfold kept in Hk. eapply Forall_impl; [exact Hk|]. intros e Hentry Hrev. rewrite He in Hver. unfold entry_ok, protected, meant_config, relay, relay_of in Hentry.
  rewrite Hvia, Hver in Hentry. destruct Hentry as (c & Hc & Hmeant); [by destruct require_tls, (applies _)|done|]. exists c. split; [done|].
  destruct (dane (with_target x)); [by apply Hmeant|done|done|done].
Qed.
End sent.

(** ** A sample *)

Module Sample.

Definition enforced_policy : MtaSts.Policy := {| MtaSts.mode := MtaSts.Enforce; MtaSts.mx := [bs "mx.there.example"]; MtaSts.max_age := 604800 |}.

(** A domain with two MX hosts, one of which its policy does not name. *)
Definition names (policy : option MtaSts.Policy) : Names := {|
  routes := fun _ => None; lookup_host := fun _ _ => []; fetch_sender := fun _ _ => None; access_token := fun _ => inr []; configured_relay := None;
  mx_lookup := fun _ => MxHosts [bs "mx.evil.example"; bs "mx.there.example."]; validated_mx := fun _ => Insecure;
  sts := fun _ => {| MtaSts.policy := policy; MtaSts.failure := None |}; ip_lookup := fun _ => Ips [V4 0x08080808]; host_tlsa := fun _ => NoTlsa;
  allow_private_mx := false; mx_port := 25 |}.

Definition reply (code : Z) (text : list byte) : Client.Reply + list byte := inl {| Client.code := code; Client.text := text |}.

Definition answering (rs : list (Client.Reply + list byte)) : World := {|
  connects := None; leaves_from := None; replies := fun i => default (inr (bs "the server closed the connection")) (rs !! i);
  config_fails := None; handshake_fails := None; failed_as := OtherResult []; certificate_problem := None; own_addresses := [] |}.

Definition message : QueuedMessage :=
  {| blob := []; return_path := bs "ann@here.example"; account_id := None; size := 8; env_id := None; created_at := 0; expires_at := 0 |}.

Definition recipient (address : list byte) : QueueRecipient :=
  {| message_id := 1; address := address; Queue.domain := bs "there.example"; status := Pending; attempts := 0; next_attempt_at := 0; last_error := None;
     notify_flags := 0; orcpt := None |}.

Definition recipients : list QueueRecipient := [recipient (bs "bob@there.example"); recipient (bs "cat@there.example")].

Definition run (policy : option MtaSts.Policy) (rs : list (Client.Reply + list byte)) : Effects.outcome (list byte) (list Outcome) * list Tried :=
  deliver_domain false (fun _ _ => answering rs) (names policy) message (bs "Hello") recipients (bs "there.example").

(** STARTTLS, and one of two recipients is unknown. *)
Definition friendly : list (Client.Reply + list byte) :=
  [reply 220 (bs "mx"); reply 250 ([x0a] ++ bs "STARTTLS"); reply 220 (bs "go"); reply 250 (bs "mx"); reply 250 (bs "ok"); reply 250 (bs "ok"); reply 550 (bs "5.1.1 unknown");
   reply 354 (bs "go"); reply 250 (bs "taken"); reply 221 (bs "bye")].

Example one_taken : fst (run (Some enforced_policy) friendly) = Ok [ODelivered (bs "250 taken"); OFailed (bs "550 5.1.1 unknown")]
  /\ map (fun x => host (with_target x)) (snd (run (Some enforced_policy) friendly)) = [bs "mx.there.example"]
  /\ map (fun x => map (fun e => (under e, command e)) (log (wire x))) (snd (run (Some enforced_policy) friendly)) =
       [[(None, Ehlo); (None, StartTls); (Some Verified, Ehlo); (Some Verified, MailFrom (bs "MAIL FROM:<ann@here.example>"));
         (Some Verified, RcptTo (bs "bob@there.example")); (Some Verified, RcptTo (bs "cat@there.example")); (Some Verified, DataCommand);
         (Some Verified, Content (bs "Hello")); (Some Verified, QuitCommand)]].
Proof. vm_compute. repeat split. Qed.

(** Without the policy the first host would have been asked, and without STARTTLS in the clear. *)
Example no_policy : map (fun x => map (fun e => (under e, command e)) (log (wire x))) (snd (run None [reply 220 []; reply 250 []; reply 450 []])) =
  [[(None, Ehlo); (None, MailFrom (bs "MAIL FROM:<ann@here.example>")); (None, QuitCommand)]].
Proof. vm_compute. reflexivity. Qed.

(** A server that answers DATA with another positive code than 354: nothing is sent, and the
    recipients count as delivered. *)
Example delivered_unsent : let '(r, tried) := run None [reply 220 []; reply 250 []; reply 250 []; reply 250 []; reply 250 []; reply 250 (bs "ok")] in
  r = Ok [ODelivered (bs "250 ok"); ODelivered (bs "250 ok")] /\ handed tried = 0%nat.
Proof. vm_compute. by split. Qed.
End Sample.

Lemma mail_goes_protected_witness :
  direct (Sample.names (Some Sample.enforced_policy)) Sample.message (bs "there.example")
  /\ length (snd (Sample.run (Some Sample.enforced_policy) Sample.friendly)) = 1%nat
  /\ Forall (fun x => let t := with_target x in
       MtaSts.allows Sample.enforced_policy (host t) = true /\ (false = true \/ PublicIp.is_public_ip (at_address x).1 = true) /\
       dane_here (Sample.names (Some Sample.enforced_policy)) (bs "there.example") (host t) <> DaneBogus /\
       Forall (fun e => revealing (command e) = true -> exists c, under e = Some c /\
         match dane_here (Sample.names (Some Sample.enforced_policy)) (bs "there.example") (host t) with
         | DaneOff => c = Verified
         | Verify records => c = DaneConfig records [host t; Outbound.domain Sample.recipients]
         | EncryptOnly _ | DaneBogus => True
         end) (log (wire x))) (snd (Sample.run (Some Sample.enforced_policy) Sample.friendly)).
Proof.
  split; [by split; [|split]|]. split; [vm_compute; reflexivity|].
  apply (mail_goes_protected false (fun _ _ => Sample.answering Sample.friendly) (Sample.names (Some Sample.enforced_policy)) Sample.message (bs "Hello") Sample.recipients
    (bs "there.example") Sample.enforced_policy); [by split; [|split]|reflexivity|reflexivity].
Defined.
