(* ===== verification/SenderLists.v ===== *)
(** * Allowed and blocked senders (crates\/uwumail-store\/src\/sender_lists.rs and rules.rs,
      crates\/uwumail-smtp\/src\/sender_lists.rs)

    What a person, a domain or the whole server lists about senders: the form entries are
    kept in, the table of them, and what they decide for a message. The table is a map,
    SQLite what its documentation says of the statements; Unicode lower casing and IDNA are
    variables, as is the id a new row gets. *)

From S2P Require Import Prelude Effects Utf8 Network Address Relay.

Module SenderLists.

Definition SENDER_LIST_PERSONAL_LIMIT : nat := 1000.
Definition SENDER_LIST_ADMIN_LIMIT : nat := 10000.
Definition NOTE_MAX_CHARS : nat := 200.
Definition MIN_PREFIX_V4 : Z := 8.
Definition MIN_PREFIX_V6 : Z := 16.
Definition PATTERN_MIN_TEXT : nat := 3.
Definition PATTERN_MAX_CHARS : nat := 254.

Inductive SenderList := Allow | Block.
Inductive SenderKind := Ip | Host | Address | Domain | Pattern.
Inductive ListScope := OfServer | OfDomain (id : Z) | OfAccount (id : Z).
Inductive ListOwner := Admin | Person (account : Z).

#[export] Instance SenderList_eq_dec : EqDecision SenderList.
Proof. solve_decision. Defined.
#[export] Instance SenderKind_eq_dec : EqDecision SenderKind.
Proof. solve_decision. Defined.
#[export] Instance ListScope_eq_dec : EqDecision ListScope.
Proof. solve_decision. Defined.

(** (account, domain) *)
Definition ids (s : ListScope) : option Z * option Z :=
  match s with OfServer => (None, None) | OfDomain id => (None, Some id) | OfAccount id => (Some id, None) end.

Definition limit (s : ListScope) : nat := match s with OfAccount _ => SENDER_LIST_PERSONAL_LIMIT | _ => SENDER_LIST_ADMIN_LIMIT end.

Definition looks_after (owner : ListOwner) (scope : ListScope) : bool :=
  match owner, scope with
  | Admin, _ => true
  | Person owner, OfAccount account => owner =? account
  | _, _ => false
  end.

Record SenderListEntry := {
  id : Z; elist : SenderList; kind : SenderKind; value : list byte; note : list byte; domain : option (list byte); scope : ListScope;
  created_at : Z; created_by : list byte; expires_at : option Z; hits : Z; last_hit_at : option Z }.

Inductive StoreError := Rule (code : string) (message : list byte) | NotFound (what : list byte) | Constraint | Internal (why : list byte).

Definition invalid (message : list byte) : StoreError := Rule "senderInvalid" message.

Definition quoted (s : list byte) : list byte := bs "'" ++ s ++ bs "'".

(** ** Values *)

Definition parse_network (value : list byte) : option (IpAddr * Z) :=
  let '(address, prefix) := match split_once "/"%byte value with Some (address, prefix) => (address, Some prefix) | None => (value, None) end in
  address ← to_canonical <$> parse_ip address;
  let max := longest address in
  prefix ← match prefix with Some p => n ← parse_unsigned 255 p; if n <=? max then Some n else None | None => Some max end;
  Some (address, prefix).

Definition has (b : byte) (s : list byte) : bool := existsb (fun c => bool_decide (c = b)) s.

Definition guess_sender_kind (value : list byte) : SenderKind :=
  let value := trim value in
  if bool_decide (is_Some (parse_network value)) then Ip
  else if match strip_prefix (bs "*.") value with Some rest => has "."%byte rest && negb (has "*"%byte rest || has "@"%byte rest) | None => false end then Host
  else if has "*"%byte value then Pattern
  else if has "@"%byte value && negb (starts_with (bs "@") value) then Address
  else Domain.

Definition star : Z := bz "*"%byte.

(** Runs of [*] squeezed into one. *)
Fixpoint squeeze (after_star : bool) (cs : list Z) : list Z :=
  match cs with
  | [] => []
  | c :: cs => if (c =? star) && after_star then squeeze true cs else c :: squeeze (c =? star) cs
  end.

Definition text_chars (cs : list Z) : nat := length (List.filter (fun c => negb (c =? star)) cs).

Section values.
(** [char::to_lowercase]; [str::to_lowercase] and [idna::domain_to_ascii] of addresses. *)
Context (char_lowercase : Z -> list Z) (to_lowercase : list byte -> list byte) (domain_to_ascii : list byte -> option (list byte)).

Definition normalize_pattern (original : list byte) : list byte + StoreError :=
  let cs := default [] (chars original) in
  if negb (has "*"%byte original) then inr (invalid (quoted original ++ bs " has no '*'; list it as an address or domain"))
  else if existsb (fun c => is_whitespace c || is_control c) cs then inr (invalid (quoted original ++ bs " may not contain spaces"))
  else
    let pattern := squeeze false (cs ≫= char_lowercase) in
    if (text_chars pattern <? PATTERN_MIN_TEXT)%nat then inr (invalid (quoted original ++ bs " would match nearly every sender"))
    else if (PATTERN_MAX_CHARS <? length pattern)%nat then inr (invalid (quoted original ++ bs " is too long"))
    else inl (utf8 pattern).

Definition normalize_name (name original : list byte) : list byte + StoreError :=
  match normalize_domain domain_to_ascii name with
  | None => inr (invalid (quoted original ++ bs " is not a valid name"))
  | Some name => if has "."%byte name then inl name else inr (invalid (quoted original ++ bs " needs at least one dot"))
  end.

(** A network: its address without the bits the prefix leaves free. *)
Definition normalize_network (original : list byte) : list byte + StoreError :=
  match parse_network original with
  | None => inr (invalid (quoted original ++ bs " is not an IP address or network"))
  | Some (V4 ip, prefix) =>
      if prefix <? MIN_PREFIX_V4 then inr (invalid (quoted original ++ bs " is wider than /" ++ dec MIN_PREFIX_V4))
      else
        let masked := Z.land ip (Relay.network_mask 32 prefix) in
        inl (if prefix =? 32 then show_ip (V4 masked) else show_ip (V4 masked) ++ bs "/" ++ dec prefix)
  | Some (V6 ip, prefix) =>
      if prefix <? MIN_PREFIX_V6 then inr (invalid (quoted original ++ bs " is wider than /" ++ dec MIN_PREFIX_V6))
      else
        let masked := Z.land ip (Relay.network_mask 128 prefix) in
        inl (if prefix =? 128 then show_ip (V6 masked) else show_ip (V6 masked) ++ bs "/" ++ dec prefix)
  end.

Definition normalize_sender (kind : SenderKind) (value : list byte) : list byte + StoreError :=
  let original := trim value in
  match kind with
  | Ip => normalize_network original
  | Host =>
      match strip_prefix (bs "*.") original with
      | Some rest => match normalize_name rest original with inl name => inl (bs "*." ++ name) | inr e => inr e end
      | None => normalize_name original original
      end
  | Address =>
      match normalize_address to_lowercase domain_to_ascii original with
      | Some (local, domain) => inl (local ++ bs "@" ++ domain)
      | None => inr (invalid (quoted original ++ bs " is not a valid email address"))
      end
  | Domain =>
      let name := trim_start_byte "@"%byte original in
      normalize_name (default name (strip_prefix (bs "*.") name)) original
  | Pattern => normalize_pattern original
  end.
End values.

(** ** Patterns *)

(** The middle parts, each at the first place there is. *)
Fixpoint skip_parts (rest : list byte) (parts : list (list byte)) : option (list byte) :=
  match parts with
  | [] => Some rest
  | part :: parts => at_ ← Relay.find_text part rest; skip_parts (drop (at_ + length part) rest) parts
  end.

Definition ends_with (suffix s : list byte) : bool := bool_decide (is_Some (strip_suffix suffix s)).

Definition pattern_matches (pattern text : list byte) : bool :=
  match split_on "*"%byte pattern with
  | [] => bool_decide (text = [])
  | first :: parts =>
      match strip_prefix first text with
      | None => false
      | Some rest =>
          match last parts with
          | None => bool_decide (rest = [])
          | Some final =>
              match skip_parts rest (take (length parts - 1) parts) with
              | None => false
              | Some rest => (length final <=? length rest)%nat && ends_with final rest
              end
          end
      end
  end.

(** ** The decision for a message *)

Record Sender := { ip : option IpAddr; envelope : option (list byte); from : option (list byte); from_verified : bool }.

Inductive Decision := NoDecision | Allowed (e : SenderListEntry) | Junk (e : SenderListEntry) | Reject (e : SenderListEntry).

Record Lists := { entries : list SenderListEntry; hosts : list (list byte) }.

Definition domain_of (address : list byte) : option (list byte) := snd <$> rsplit_once "@"%byte address.

Definition labels (name : list byte) : Z := Z.of_nat (length (split_on "."%byte name)).

Definition specificity (e : SenderListEntry) : Z :=
  match kind e with
  | Address => 400
  | Host => match strip_prefix (bs "*.") (value e) with Some parent => 200 + labels parent | None => 300 end
  | Ip =>
      match split_once "/"%byte (value e) with
      | None => 300
      | Some (address, prefix) =>
          let bits := default 0 (parse_unsigned u32_max prefix) in
          200 + (bits * 32) `mod` 2 ^ 32 `div` (if has ":"%byte address then 128 else 32)
      end
  | Domain => 100 + labels (value e)
  | Pattern => 1 + Z.min 98 (Z.of_nat (text_chars (default [] (chars (value e)))))
  end.

Definition matches (l : Lists) (e : SenderListEntry) (s : Sender) : bool :=
  let block := bool_decide (elist e = Block) in
  let from := if block || from_verified s then from s else None in
  let envelope := if block then envelope s else None in
  let addresses := option_list from ++ option_list envelope in
  match kind e with
  | Ip => match ip s with Some a => match Relay.parse (value e) with inl n => Relay.contains n a | inr _ => false end | None => false end
  | Host =>
      existsb (fun h => match strip_prefix (bs "*.") (value e) with Some parent => ends_with (bs "." ++ parent) h | None => bool_decide (h = value e) end) (hosts l)
  | Address => existsb (fun a => bool_decide (a = value e)) addresses
  | Domain => existsb (fun a => match domain_of a with Some d => bool_decide (d = value e) || ends_with (bs "." ++ value e) d | None => false end) addresses
  | Pattern => existsb (pattern_matches (value e)) addresses
  end.

(** Ordered by how narrow they are, a block before an allowance as narrow. *)
Definition rank_le (a b : SenderListEntry) : bool :=
  (specificity a <? specificity b) || ((specificity a =? specificity b) && (bool_decide (elist a = Allow) || bool_decide (elist b = Block))).

(** [max_by_key]: the last of the largest. *)
Definition max_by_rank (es : list SenderListEntry) : option SenderListEntry :=
  foldl (fun best e => match best with Some b => if rank_le b e then Some e else Some b | None => Some e end) None es.

Definition best (l : Lists) (s : Sender) (belongs : SenderListEntry -> bool) : option SenderListEntry :=
  max_by_rank (List.filter (fun e => belongs e && matches l e s) (entries l)).

Definition of_server (e : SenderListEntry) : bool := bool_decide (scope e = OfServer).
Definition of_domain (d : list byte) (e : SenderListEntry) : bool :=
  match scope e with OfDomain _ => bool_decide (domain e = Some d) | _ => false end.
Definition of_account (a : Z) (e : SenderListEntry) : bool := bool_decide (scope e = OfAccount a).

Definition is_block (e : SenderListEntry) : bool := bool_decide (elist e = Block).

(** [Option::or] *)
Definition or_ {A} (a b : option A) : option A := match a with Some _ => a | None => b end.

Definition decide_ (l : Lists) (s : Sender) (account : Z) (domain : list byte) : Decision :=
  if bool_decide (entries l = []) then NoDecision
  else
    let server := best l s of_server in
    let domain := best l s (of_domain domain) in
    let own := best l s (of_account account) in
    match List.find is_block (option_list domain ++ option_list server) with
    | Some e => Reject e
    | None =>
        match or_ own (or_ domain server) with
        | Some e => if is_block e then Junk e else Allowed e
        | None => NoDecision
        end
    end.

(** ** Patterns: any text for each star *)

(** The texts that fit: the parts in their order, with any text between two of them. *)
Inductive fits : list (list byte) -> list byte -> Prop :=
  | Fits_last p : fits [p] p
  | Fits_more p between parts t : fits parts t -> fits (p :: parts) (p ++ between ++ t).

Definition fits_behind (parts : list (list byte)) (rest : list byte) : Prop := exists before t, rest = before ++ t /\ fits parts t.

Lemma starts_with_app n s : starts_with n s = true <-> exists r, s = n ++ r.
Proof.
  unfold starts_with. rewrite bool_decide_eq_true. split.
  - intros H. exists (drop (length n) s). by rewrite <- H at 1; rewrite take_drop.
  - intros [r ->]. apply take_app_length.
Qed.

Lemma find_text_at n s i : Relay.find_text n s = Some i -> s = take i s ++ n ++ drop (i + length n) s.
Proof.
  revert i. induction s as [|b s IH]; intros i; cbn [Relay.find_text]; destruct (starts_with n _) eqn:E.
  - intros [= <-]. apply starts_with_app in E as [r E]. rewrite E. cbn. by rewrite drop_app_length.
  - done.
  - intros [= <-]. apply starts_with_app in E as [r E]. rewrite E. cbn. by rewrite drop_app_length.
  - destruct (Relay.find_text n s) as [j|]; [|done]. intros [= <-]. cbn. by rewrite <- (IH j).
Qed.

(** No place is before the first. *)
Lemma find_text_first n x r : exists i y, Relay.find_text n (x ++ n ++ r) = Some i /\ drop (i + length n) (x ++ n ++ r) = y ++ r.
Proof.
  assert (forall x, drop (length n) (x ++ n ++ r) = drop (length n) (x ++ n) ++ r) as Hdrop.
  { intros x'. rewrite app_assoc. apply drop_app_le. rewrite length_app. lia. }
  induction x as [|c x IH]; cbn [app].
  - exists 0%nat, []. split; [apply Relay.find_text_here|]. cbn. by rewrite drop_app_length.
  - cbn [Relay.find_text]. destruct (starts_with n _).
    + exists 0%nat, (drop (length n) ((c :: x) ++ n)). split; [done|]. apply (Hdrop (c :: x)).
    + destruct IH as (i & y & -> & Hy). by exists (S i), y.
Qed.

Lemma fits_nil t : ~ fits [] t.
Proof. inversion 1. Qed.

Lemma fits_one p t : fits [p] t -> t = p.
Proof. inversion 1 as [|? between ? t' H']; [done|]. by destruct (fits_nil t'). Qed.

Lemma fits_more_behind p parts rest : parts <> [] ->
  fits_behind (p :: parts) rest <-> exists before r, rest = before ++ p ++ r /\ fits_behind parts r.
Proof.
  intros Hne. split.
  - intros (before & t & -> & Hf). inversion Hf as [|? between ? t' Hf']; subst; [done|]. exists before, (between ++ t'). split; [done|]. by exists between, t'.
  - intros (before & r & -> & between & t & -> & Hf). exists before, (p ++ between ++ t). split; [done|]. by constructor.
Qed.

Lemma fits_behind_more parts y r : fits_behind parts r -> fits_behind parts (y ++ r).
Proof. intros (before & t & -> & Hf). exists (y ++ before), t. by rewrite app_assoc. Qed.

Lemma ends_with_app suffix s : ends_with suffix s = true <-> exists before, s = before ++ suffix.
Proof.
  unfold ends_with. rewrite bool_decide_eq_true. split.
  - intros [before ->%strip_suffix_Some]. by exists before.
  - intros [before ->]. unfold strip_suffix. rewrite length_app, decide_True by lia. rewrite Nat.add_sub, drop_app_length, decide_True by done. by eexists.
Qed.

Lemma strip_prefix_iff p s r : strip_prefix p s = Some r <-> s = p ++ r.
Proof.
  unfold strip_prefix. split.
  - case_decide as H; [|done]. intros [= <-]. by rewrite <- H at 1; rewrite take_drop.
  - intros ->. by rewrite take_app_length, drop_app_length, decide_True.
Qed.

Lemma skip_parts_fits final parts : forall rest,
  match skip_parts rest parts with Some rest => ends_with final rest | None => false end = true <-> fits_behind (parts ++ [final]) rest.
Proof.
  induction parts as [|p parts IH]; intros rest; cbn [skip_parts app].
  - rewrite ends_with_app. split.
    + intros [before ->]. exists before, final. split; [done|constructor].
    + intros (before & t & -> & Hf). apply fits_one in Hf as ->. by exists before.
  - rewrite fits_more_behind by (by destruct parts). split.
    + destruct (Relay.find_text p rest) as [i|] eqn:Hi; [|done]. cbn. intros H%IH. apply find_text_at in Hi. by exists (take i rest), (drop (i + length p) rest).
    + intros (before & r & -> & Hr). destruct (find_text_first p before r) as (i & y & -> & Hy). cbn. rewrite Hy. by apply IH, fits_behind_more.
Qed.

Lemma pattern_fits pattern text : pattern_matches pattern text = true <-> fits (split_on "*"%byte pattern) text.
Proof.
  unfold pattern_matches. pose proof (split_on_nonempty "*"%byte pattern) as Hne. destruct (split_on "*"%byte pattern) as [|first parts]; [done|]. clear Hne.
  assert (forall r, strip_prefix first (first ++ r) = Some r) as Hstrip by (intros r; by apply strip_prefix_iff).
  destruct parts as [|p parts] using rev_ind.
  - cbn. split.
    + destruct (strip_prefix first text) as [rest|] eqn:E; [|done]. intros ->%bool_decide_eq_true. apply strip_prefix_iff in E as ->. rewrite app_nil_r. constructor.
    + intros ->%fits_one. pose proof (Hstrip []) as H. rewrite app_nil_r in H. by rewrite H.
  - clear IHparts. rewrite last_snoc, length_app, take_app_le by (cbn; lia). rewrite Nat.add_sub, firstn_all. split.
    + destruct (strip_prefix first text) as [rest|] eqn:E; [|done]. apply strip_prefix_iff in E as ->. intros H.
      assert (match skip_parts rest parts with Some rest => ends_with p rest | None => false end = true) as (between & t & -> & Hf)%skip_parts_fits.
      { destruct (skip_parts rest parts); [|done]. by apply andb_true_iff in H as [_ H]. }
      by constructor.
    + intros Hf. inversion Hf as [? Heq|? between ? t Hf']; subst; [by destruct parts|]. rewrite Hstrip.
      assert (fits_behind (parts ++ [p]) (between ++ t)) as H by (by exists between, t). apply skip_parts_fits in H. destruct (skip_parts _ _) as [rest|]; [|done].
      rewrite H, andb_true_r. apply ends_with_app in H as [before ->]. rewrite length_app. apply Nat.leb_le. lia.
Qed.

(** C40: a listed pattern matches exactly the texts it stands for: its parts in their order
    with any text for each star, the first part at the front and the last at the end; taking
    each part at the first place there is misses none. *)
Theorem pattern_matches_exact pattern text : pattern_matches pattern text = true <-> fits (split_on "*"%byte pattern) text.
Proof. apply pattern_fits. Qed.

Example some_patterns :
  pattern_matches (bs "*.test") (bs "anna@shop.test") = true /\ pattern_matches (bs "*.test") (bs "anna@shop.test.example.org") = false
  /\ pattern_matches (bs "info@*.example.test") (bs "info@mail.example.test") = true /\ pattern_matches (bs "a*a") (bs "a") = false.
Proof. vm_compute. done. Qed.

(** ** The narrowest entry decides *)

Lemma rank_le_iff a b : rank_le a b = true <-> specificity a < specificity b \/ specificity a = specificity b /\ (elist a = Block -> elist b = Block).
Proof.
  unfold rank_le. rewrite orb_true_iff, andb_true_iff, orb_true_iff, !bool_decide_eq_true, Z.ltb_lt, Z.eqb_eq. destruct (elist a), (elist b); intuition congruence.
Qed.

Lemma rank_le_refl a : rank_le a a = true.
Proof. apply rank_le_iff. by right. Qed.

Lemma rank_le_total a b : rank_le a b = false -> rank_le b a = true.
Proof.
  intros H%not_true_iff_false. rewrite rank_le_iff in H. apply rank_le_iff. destruct (Z.lt_trichotomy (specificity a) (specificity b)) as [?|[?|?]]; [tauto| |tauto].
  right. split; [done|]. destruct (elist a), (elist b); tauto.
Qed.

Lemma rank_le_trans a b c : rank_le a b = true -> rank_le b c = true -> rank_le a c = true.
Proof. rewrite !rank_le_iff. intros [H1|[H1 H2]] [H3|[H3 H4]]; [left; lia|left; lia|left; lia|]. right. split; [lia|tauto]. Qed.

Lemma max_by_rank_from es : forall b, exists m,
  foldl (fun best e => match best with Some b => if rank_le b e then Some e else Some b | None => Some e end) (Some b) es = Some m /\
  m ∈ b :: es /\ forall e, e ∈ b :: es -> rank_le e m = true.
Proof.
  induction es as [|x es IH]; intros b; cbn [foldl].
  - exists b. split; [done|]. split; [by left|]. intros e ->%list_elem_of_singleton. apply rank_le_refl.
  - destruct (rank_le b x) eqn:E.
    + destruct (IH x) as (m & -> & Hin & Hm). exists m. split; [done|]. split; [by right|]. intros e [->|He]%elem_of_cons; [|by apply Hm].
      eapply rank_le_trans; [exact E|]. apply Hm. by left.
    + destruct (IH b) as (m & -> & Hin & Hm). exists m. split; [done|]. split; [set_solver|]. intros e He. apply elem_of_cons in He as [->|[->|He]%elem_of_cons]; [apply Hm; by left| |apply Hm; by right].
      eapply rank_le_trans; [by apply rank_le_total|]. apply Hm. by left.
Qed.

Lemma max_by_rank_max es : match max_by_rank es with Some m => m ∈ es /\ forall e, e ∈ es -> rank_le e m = true | None => es = [] end.
Proof. destruct es as [|b es]; [done|]. unfold max_by_rank. cbn [foldl]. by destruct (max_by_rank_from es b) as (m & -> & H). Qed.

Section decision.
Context (l : Lists) (s : Sender).

(** A matching entry of a scope than which none is narrower; as narrow ones it blocks if
    any of them does. *)
Definition narrowest (belongs : SenderListEntry -> bool) (e : SenderListEntry) : Prop :=
  e ∈ entries l /\ belongs e = true /\ matches l e s = true /\
  forall e', e' ∈ entries l -> belongs e' = true -> matches l e' s = true ->
    specificity e' < specificity e \/ specificity e' = specificity e /\ (elist e' = Block -> elist e = Block).

Definition nothing (belongs : SenderListEntry -> bool) : Prop := forall e, e ∈ entries l -> belongs e = true -> matches l e s = false.

Lemma in_filter (f : SenderListEntry -> bool) e es : e ∈ List.filter f es <-> e ∈ es /\ f e = true.
Proof. rewrite !list_elem_of_In. apply List.filter_In. Qed.

Lemma best_narrowest belongs : match best l s belongs with Some e => narrowest belongs e | None => nothing belongs end.
Proof.
  unfold best. pose proof (max_by_rank_max (List.filter (fun e => belongs e && matches l e s) (entries l))) as H. destruct (max_by_rank _) as [e|].
  - destruct H as [[Hin [Hb Hm]%andb_prop]%in_filter Hmax]. do 3 (split; [done|]). intros e' Hin' Hb' Hm'.
    apply rank_le_iff, Hmax, in_filter. by rewrite Hb', Hm'.
  - intros e Hin Hb. destruct (matches l e s) eqn:Hm; [|done]. assert (e ∈ (@nil SenderListEntry)) as Hf by (rewrite <- H; apply in_filter; by rewrite Hb, Hm). by apply elem_of_nil in Hf.
Qed.

(** Neither the server nor the domain of the recipient refuses: each block of theirs that
    matches has a narrower allowance of the same scope. *)
Definition no_refusal (d : list byte) : Prop :=
  forall belongs e, belongs = of_server \/ belongs = of_domain d -> e ∈ entries l -> belongs e = true -> matches l e s = true -> elist e = Block ->
    exists e', e' ∈ entries l /\ belongs e' = true /\ matches l e' s = true /\ elist e' = Allow /\ specificity e < specificity e'.

(** Allowing by who wrote the message takes a From that was vouched for and is meant. *)
Definition vouched (e : SenderListEntry) : Prop :=
  match kind e with
  | Address => from_verified s = true /\ from s = Some (value e)
  | Domain => from_verified s = true /\ exists a d, from s = Some a /\ domain_of a = Some d /\ (d = value e \/ exists sub, d = sub ++ bs "." ++ value e)
  | Pattern => from_verified s = true /\ exists a, from s = Some a /\ fits (split_on "*"%byte (value e)) a
  | Ip | Host => True
  end.

Lemma allowed_vouched e : matches l e s = true -> elist e = Allow -> vouched e.
Proof.
  unfold matches, vouched. intros Hm Ha. rewrite Ha in Hm. rewrite bool_decide_false in Hm by done. cbn [orb] in Hm. rewrite app_nil_r in Hm.
  destruct (kind e); try done; destruct (from_verified s); try done; destruct (from s) as [a|]; try done; change (option_list (Some a)) with [a] in Hm; cbn [existsb] in Hm; rewrite orb_false_r in Hm; split; try done.
  - by apply bool_decide_eq_true in Hm as ->.
  - destruct (domain_of a) as [d|] eqn:Hd; [|done]. exists a, d. split; [done|]. split; [done|]. apply orb_true_iff in Hm as [Hm%bool_decide_eq_true|Hm%ends_with_app]; [by left|by right].
  - exists a. split; [done|]. by apply pattern_fits.
Qed.

Lemma refusal_free d : List.find is_block (option_list (best l s (of_domain d)) ++ option_list (best l s of_server)) = None -> no_refusal d.
Proof.
  intros Hf belongs e Hb Hin Hbe Hm Hblock. pose proof (best_narrowest belongs) as H.
  assert (forall b, best l s belongs = Some b -> elist b = Allow) as Hall.
  { intros b Hbest. assert (b ∈ option_list (best l s (of_domain d)) ++ option_list (best l s of_server)) as Hin'.
    { apply elem_of_app. destruct Hb as [-> | ->]; [right|left]; rewrite Hbest; by left. }
    apply list_elem_of_In in Hin'. pose proof (List.find_none _ _ Hf b Hin') as Hn. unfold is_block in Hn. apply bool_decide_eq_false in Hn. by destruct (elist b). }
  destruct (best l s belongs) as [b|]; [|by rewrite H in Hm]. specialize (Hall b ltac:(done)). destruct H as (Hin' & Hb' & Hm' & Hmax).
  destruct (Hmax e Hin Hbe Hm) as [Hlt|[_ Hbl]]; [|by rewrite Hbl in Hall]. by exists b.
Qed.

Lemma narrowest_in belongs e : narrowest belongs e -> belongs e = true /\ matches l e s = true.
Proof. by intros (_ & ? & ? & _). Qed.
End decision.

(** C38: who decides about a message. A block of the server or of the recipient's domain
    refuses it, unless the same list has a narrower allowance, and nothing a person lists
    changes that; otherwise the narrowest entry of the person goes first, then that of the
    domain, then that of the server. Nobody is let in for what a From says (an address, a
    domain or a pattern) unless SPF or DKIM vouched for it; an allowance for an IP address or
    a host name needs no such thing. Without a matching entry nothing is decided. *)
Theorem decision_exact l s account d :
  let own := of_account account in
  match decide_ l s account d with
  | Reject e => elist e = Block /\ (narrowest l s (of_domain d) e \/ narrowest l s of_server e)
  | Junk e => elist e = Block /\ narrowest l s own e /\ no_refusal l s d
  | Allowed e => elist e = Allow /\ vouched s e /\ no_refusal l s d /\
      (narrowest l s own e \/ nothing l s own /\ (narrowest l s (of_domain d) e \/ nothing l s (of_domain d) /\ narrowest l s of_server e))
  | NoDecision => nothing l s own /\ nothing l s (of_domain d) /\ nothing l s of_server
  end.
Proof.
  cbv zeta. unfold decide_. case_bool_decide as Hempty.
  { unfold nothing. rewrite Hempty. split_and!; intros e He; by apply elem_of_nil in He. }
  pose proof (best_narrowest l s of_server) as Hs. pose proof (best_narrowest l s (of_domain d)) as Hd. pose proof (best_narrowest l s (of_account account)) as Ho.
  destruct (List.find is_block _) as [e|] eqn:Hf.
  - apply List.find_some in Hf as [Hin Hb%bool_decide_eq_true]. split; [done|]. apply list_elem_of_In, elem_of_app in Hin.
    destruct Hin as [Hin|Hin]; [left; destruct (best l s (of_domain d)) as [b|]|right; destruct (best l s of_server) as [b|]]; cbn in Hin; try (by apply elem_of_nil in Hin);
      apply list_elem_of_singleton in Hin as ->; done.
  - pose proof (refusal_free l s d Hf) as Hfree.
    assert (forall e, e ∈ option_list (best l s (of_domain d)) ++ option_list (best l s of_server) -> is_block e = false) as Hnb.
    { intros e He%list_elem_of_In. by apply (List.find_none _ _ Hf). }
    assert (forall e belongs, narrowest l s belongs e -> is_block e = false -> elist e = Allow /\ vouched s e) as Hallow.
    { intros e belongs (_ & _ & Hm & _) Hnone. assert (elist e = Allow) as Ha by (unfold is_block in Hnone; apply bool_decide_eq_false in Hnone; by destruct (elist e)).
      split; [done|]. by eapply allowed_vouched. }
    destruct (best l s (of_account account)) as [e|].
    + cbn. destruct (is_block e) eqn:Hb; [apply bool_decide_eq_true in Hb; exact (conj Hb (conj Ho Hfree))|]. destruct (Hallow e _ Ho Hb). auto.
    + destruct (best l s (of_domain d)) as [e|].
      * cbn. assert (is_block e = false) as Hb by (apply Hnb; set_solver). rewrite Hb. destruct (Hallow e _ Hd Hb). auto 8.
      * destruct (best l s of_server) as [e|]; cbn; [|done]. assert (is_block e = false) as Hb by (apply Hnb; set_solver). rewrite Hb. destruct (Hallow e _ Hs Hb). auto 8.
Qed.

(** ** The table *)

Record Row := {
  account_id : option Z; domain_id : option Z; r_list : SenderList; r_kind : SenderKind; r_value : list byte; r_note : list byte; r_created_at : Z;
  r_created_by : list byte; r_expires_at : option Z; r_hits : Z; r_last_hit_at : option Z }.

(** [sender_lists], the names of [domains] and the ids of [accounts]. *)
Record Db := { rows : gmap Z Row; domains : gmap Z (list byte); accounts : gset Z }.

Definition with_rows (rs : gmap Z Row) (db : Db) : Db := {| rows := rs; domains := domains db; accounts := accounts db |}.

Definition row_scope (r : Row) : ListScope :=
  match account_id r, domain_id r with Some a, _ => OfAccount a | None, Some d => OfDomain d | None, None => OfServer end.

(** [entry] *)
Definition entry (db : Db) (i : Z) (r : Row) : SenderListEntry :=
  {| id := i; elist := r_list r; kind := r_kind r; value := r_value r; note := r_note r; domain := d ← domain_id r; domains db !! d; scope := row_scope r;
     created_at := r_created_at r; created_by := r_created_by r; expires_at := r_expires_at r; hits := r_hits r; last_hit_at := r_last_hit_at r |}.

(** [scope_filter] *)
Definition in_scope (s : ListScope) (r : Row) : Prop :=
  match s with
  | OfServer => account_id r = None /\ domain_id r = None
  | OfDomain d => domain_id r = Some d
  | OfAccount a => account_id r = Some a
  end.

#[export] Instance in_scope_dec s r : base.Decision (in_scope s r).
Proof. destruct s; simpl; apply _. Defined.

Definition find (db : Db) (i : Z) : option SenderListEntry := entry db i <$> rows db !! i.

(** The rows in the way of a value: those of its scope that have it, but the one that is changed. *)
Definition listed (rs : gmap Z Row) (s : ListScope) (k : SenderKind) (v : list byte) (except : option Z) : gmap Z Row :=
  filter (fun ir : Z * Row => in_scope s ir.2 /\ r_kind ir.2 = k /\ r_value ir.2 = v /\ ir.1 <> default 0 except) rs.

Definition show_list (l : SenderList) : list byte := match l with Allow => bs "allow" | Block => bs "block" end.

Definition check_free (db : Db) (s : ListScope) (k : SenderKind) (v : list byte) (except : option Z) : unit + StoreError :=
  match last (map_to_list (listed (rows db) s k v except)) with
  | Some (_, r) => inr (Rule "senderListed" (r_value r ++ bs " is already on the " ++ show_list (r_list r) ++ bs " list"))
  | None => inl tt
  end.

Definition members (rs : gmap Z Row) (s : ListScope) : nat := size (filter (fun ir : Z * Row => in_scope s ir.2) rs).

Definition check_room (db : Db) (s : ListScope) : unit + StoreError :=
  let count := members (rows db) s in
  if (limit s <=? count)%nat then inr (Rule "senderListFull" (bs "the list already holds " ++ dec (Z.of_nat count) ++ bs " entries")) else inl tt.

(** What SQLite checks of a row: its references and the unique index, which takes no account
    and no domain for 0. *)
Definition same_key (r r' : Row) : Prop :=
  default 0 (account_id r) = default 0 (account_id r') /\ default 0 (domain_id r) = default 0 (domain_id r') /\ r_kind r = r_kind r' /\ r_value r = r_value r'.

#[export] Instance same_key_dec r r' : base.Decision (same_key r r').
Proof. unfold same_key. apply _. Defined.

Definition references (db : Db) (r : Row) : bool :=
  match account_id r with Some a => bool_decide (a ∈ accounts db) | None => true end
  && match domain_id r with Some d => bool_decide (is_Some (domains db !! d)) | None => true end.

Definition put (db : Db) (i : Z) (r : Row) : Db + StoreError :=
  if references db r && bool_decide (filter (fun jr : Z * Row => jr.1 <> i /\ same_key jr.2 r) (rows db) = ∅)
  then inl (with_rows (<[i := r]> (rows db)) db) else inr Constraint.

(** [?] *)
Definition and_then {A B} (m : A + StoreError) (k : A -> B + StoreError) : B + StoreError := match m with inl a => k a | inr e => inr e end.
Notation "'let?' x := m 'in' k" := (and_then m (fun x => k)) (at level 61, x name, m at next level, k at level 200, right associativity).

Record NewSenderListEntry := {
  n_scope : ListScope; n_list : SenderList; n_kind : option SenderKind; n_value : list byte; n_note : list byte; n_created_by : list byte; n_expires_at : option Z }.

(** A change of a rule about senders; what is left out stays. *)
Inductive RuleList := SetAllow | SetBlock | SetPoints.
Record RuleChange := {
  c_value : option (list byte); c_list : option RuleList; c_kind : option SenderKind; c_note : option (list byte); c_expires_at : option (option Z);
  c_scope : option ListScope }.

Section table.
Context (char_lowercase : Z -> list Z) (to_lowercase : list byte -> list byte) (domain_to_ascii : list byte -> option (list byte)).
Context (new_rowid : gmap Z Row -> Z).
Notation normalize_sender := (normalize_sender char_lowercase to_lowercase domain_to_ascii).

Definition checked (new : NewSenderListEntry) : (SenderKind * list byte * list byte) + StoreError :=
  let kind := default (guess_sender_kind (n_value new)) (n_kind new) in
  let? value := normalize_sender kind (n_value new) in
  let note := trim (n_note new) in
  if (NOTE_MAX_CHARS <? length (default [] (chars note)))%nat then inr (invalid (bs "the note is longer than " ++ dec (Z.of_nat NOTE_MAX_CHARS) ++ bs " characters"))
  else inl (kind, value, note).

Definition insert (new : NewSenderListEntry) (kind : SenderKind) (value note : list byte) (now : Z) (db : Db) : (Z * Db) + StoreError :=
  let? _ := check_free db (n_scope new) kind value None in
  let? _ := check_room db (n_scope new) in
  let i := new_rowid (rows db) in
  let? db := put db i {| account_id := (ids (n_scope new)).1; domain_id := (ids (n_scope new)).2; r_list := n_list new; r_kind := kind; r_value := value; r_note := note;
                         r_created_at := now; r_created_by := n_created_by new; r_expires_at := n_expires_at new; r_hits := 0; r_last_hit_at := None |} in
  inl (i, db).

Definition add_sender_list_entry (new : NewSenderListEntry) (now : Z) (db : Db) : (SenderListEntry * Db) + StoreError :=
  let? checked := checked new in
  let? added := insert new checked.1.1 checked.1.2 checked.2 now db in
  match find added.2 added.1 with Some e => inl (e, added.2) | None => inr (Internal (bs "the new entry vanished")) end.

Definition remove_sender_list_entry (owner : ListOwner) (i : Z) (db : Db) : (SenderListEntry * Db) + StoreError :=
  match find db i with
  | Some e => if looks_after owner (scope e) then inl (e, with_rows (delete i (rows db)) db) else inr (NotFound (bs "list entry " ++ dec i))
  | None => inr (NotFound (bs "list entry " ++ dec i))
  end.

Definition not_found (i : Z) : StoreError := NotFound (bs "sender rule " ++ dec i).

Definition note_ok (note : list byte) : list byte + StoreError :=
  let note := trim note in
  if (NOTE_MAX_CHARS <? length (default [] (chars note)))%nat then inr (Rule "ruleInvalid" (bs "the note is longer than " ++ dec (Z.of_nat NOTE_MAX_CHARS) ++ bs " characters"))
  else inl note.

(** [change_one] of a rule about senders. *)
Definition change_one (owner : ListOwner) (i : Z) (change : RuleChange) (db : Db) : Db + StoreError :=
  match rows db !! i with
  | None => inr (not_found i)
  | Some r =>
      if negb (looks_after owner (row_scope r)) then inr (not_found i)
      else
        let scope := default (row_scope r) (c_scope change) in
        if negb (looks_after owner scope) then inr (not_found i)
        else
          let? note := match c_note change with Some note => note_ok note | None => inl (r_note r) end in
          let kind := match c_kind change, c_value change with Some k, _ => k | None, Some v => guess_sender_kind v | None, None => r_kind r end in
          let? value := normalize_sender kind (default (r_value r) (c_value change)) in
          let? list := match c_list change with
                       | None => inl (r_list r)
                       | Some SetAllow => inl Allow
                       | Some SetBlock => inl Block
                       | Some SetPoints => inr (Rule "ruleInvalid" (bs "a sender is allowed or blocked, not given points"))
                       end in
          let? _ := check_free db scope kind value (Some i) in
          let? _ := if bool_decide (scope = row_scope r) then inl tt else check_room db scope in
          put db i {| account_id := (ids scope).1; domain_id := (ids scope).2; r_list := list; r_kind := kind; r_value := value; r_note := note;
                      r_created_at := r_created_at r; r_created_by := r_created_by r; r_expires_at := default (r_expires_at r) (c_expires_at change);
                      r_hits := r_hits r; r_last_hit_at := r_last_hit_at r |}
  end.

Definition delete_one (owner : ListOwner) (i : Z) (db : Db) : Db + StoreError :=
  match rows db !! i with
  | Some r => if looks_after owner (row_scope r) then inl (with_rows (delete i (rows db)) db) else inr (not_found i)
  | None => inr (not_found i)
  end.

(** [note_rule_hits] *)
Definition hit (now : Z) (r : Row) : Row :=
  {| account_id := account_id r; domain_id := domain_id r; r_list := r_list r; r_kind := r_kind r; r_value := r_value r; r_note := r_note r;
     r_created_at := r_created_at r; r_created_by := r_created_by r; r_expires_at := r_expires_at r; r_hits := r_hits r + 1; r_last_hit_at := Some now |}.

Definition note_rule_hits (senders : list Z) (now : Z) (db : Db) : Db := with_rows (foldl (fun rs i => alter (hit now) i rs) (rows db) senders) db.

(** [remove_expired_rules] *)
Definition remove_expired_rules (now : Z) (db : Db) : Db :=
  with_rows (filter (fun ir : Z * Row => match r_expires_at ir.2 with Some at_ => now <? at_ | None => true end = true) (rows db)) db.

(** The entries that can matter for a message: they have not run out, and are of the server,
    these domains or these accounts. *)
Definition matters (now : Z) (ds : list (list byte)) (accs : list Z) (db : Db) (i : Z) (r : Row) : bool :=
  match r_expires_at r with Some at_ => now <? at_ | None => true end
  && (bool_decide (account_id r = None /\ domain_id r = None)
      || match d ← domain_id r; domains db !! d with Some d => bool_decide (d ∈ ds) | None => false end
      || match account_id r with Some a => bool_decide (a ∈ accs) | None => false end).
End table.

(** ** What the table keeps *)

Lemma members_insert rs i r s : rs !! i = None -> members (<[i := r]> rs) s = (members rs s + if decide (in_scope s r) then 1 else 0)%nat.
Proof.
  intros Hi. unfold members. case_decide as H.
  - rewrite map_filter_insert_True by done. rewrite map_size_insert_None by (by rewrite map_lookup_filter_None; left). lia.
  - rewrite map_filter_insert_False by done. rewrite delete_id by done. lia.
Qed.

Lemma members_delete rs i s : (members (delete i rs) s <= members rs s)%nat.
Proof. unfold members. apply map_subseteq_size, map_filter_subseteq_mono, delete_subseteq. Qed.

Lemma members_delete_in rs i r s : rs !! i = Some r -> in_scope s r -> members rs s = (members (delete i rs) s + 1)%nat.
Proof.
  intros Hi Hs. rewrite <- (insert_delete_id rs i r) at 1 by done. rewrite members_insert by apply lookup_delete_eq. by rewrite decide_True.
Qed.

Section wf.
Context (char_lowercase : Z -> list Z) (to_lowercase : list byte -> list byte) (domain_to_ascii : list byte -> option (list byte)).
Context (new_rowid : gmap Z Row -> Z) (new_rowid_is_new : forall t, t !! new_rowid t = None /\ 0 < new_rowid t).
Notation normalize_sender := (normalize_sender char_lowercase to_lowercase domain_to_ascii).

Definition one_scope (r : Row) : Prop := account_id r = None \/ domain_id r = None.

Record row_ok (db : Db) (r : Row) : Prop := {
  row_one : one_scope r;
  row_references : references db r = true;
  row_normal : exists original, normalize_sender (r_kind r) original = inl (r_value r);
  row_note : (length (default [] (chars (r_note r))) <= NOTE_MAX_CHARS)%nat }.

(** Each value is on one of the lists of a scope, once, in its one form, and no scope has
    more than its limit. *)
Record wf (db : Db) : Prop := {
  wf_ids : (forall a, a ∈ accounts db -> 0 < a) /\ (forall d, is_Some (domains db !! d) -> 0 < d);
  wf_rows : forall i r, rows db !! i = Some r -> 0 < i /\ row_ok db r;
  wf_unique : forall i j r r', rows db !! i = Some r -> rows db !! j = Some r' -> row_scope r = row_scope r' -> r_kind r = r_kind r' -> r_value r = r_value r' -> i = j;
  wf_room : forall s, (members (rows db) s <= limit s)%nat }.

Lemma in_scope_iff s r : one_scope r -> in_scope s r <-> row_scope r = s.
Proof.
  unfold one_scope, in_scope, row_scope. destruct s, (account_id r), (domain_id r); intros [?|?]; simplify_eq; split; intros; destruct_and?; simplify_eq; done.
Qed.

Lemma same_key_scope db r r' : wf db -> row_ok db r -> references db r' = true -> one_scope r' -> same_key r r' -> row_scope r = row_scope r' /\ r_kind r = r_kind r' /\ r_value r = r_value r'.
Proof.
  intros [[Ha Hd] _ _ _] [Hone Href _ _] Href' Hone' (Hacc & Hdom & Hk & Hv). split; [|done]. revert Hacc Hdom Hone Hone' Href Href'. unfold references, one_scope, row_scope.
  destruct (account_id r) as [a|], (account_id r') as [a'|]; cbn; intros Hacc; try (subst; intros _ _ _; done).
  - intros _ _ _ Href%andb_prop _. destruct Href as [Href%bool_decide_eq_true _]. apply Ha in Href. lia.
  - intros _ _ _ _ Href'%andb_prop. destruct Href' as [Href'%bool_decide_eq_true _]. apply Ha in Href'. lia.
  - intros Hdom _ _ Href Href'. destruct (domain_id r) as [d|], (domain_id r') as [d'|]; cbn in Hdom; try done; [by subst|..].
    + apply bool_decide_eq_true, Hd in Href. lia.
    + apply bool_decide_eq_true, Hd in Href'. lia.
Qed.

Lemma row_ok_rows db rs r : row_ok (with_rows rs db) r <-> row_ok db r.
Proof. split; intros []; by split. Qed.

(** A row that comes or changes. *)
Lemma put_wf db i r : wf db -> 0 < i -> one_scope r -> (exists original, normalize_sender (r_kind r) original = inl (r_value r)) ->
  (length (default [] (chars (r_note r))) <= NOTE_MAX_CHARS)%nat ->
  (forall j r', rows db !! j = Some r' -> j <> i -> row_scope r' = row_scope r -> r_kind r' = r_kind r -> r_value r' = r_value r -> False) ->
  (members (delete i (rows db)) (row_scope r) < limit (row_scope r))%nat ->
  match put db i r with inl db' => wf db' | inr e => e = Constraint /\ references db r = false end.
Proof.
  intros Hwf Hpos Hone Hnorm Hnote Hfree Hroom. unfold put. destruct (references db r) eqn:Href; [|done]. cbn [andb].
  rewrite bool_decide_true.
  2: { apply map_empty. intros j. apply map_lookup_filter_None. destruct (rows db !! j) as [r'|] eqn:Hj; [|by left]. right. intros ? [= <-] [Hji Hkey]. cbn in *.
       destruct (same_key_scope db r' r Hwf (proj2 (wf_rows db Hwf j r' Hj)) Href Hone Hkey) as (?&?&?). by eapply Hfree. }
  assert (row_ok db r) as Hrow by (by split).
  split; cbn.
  - apply Hwf.
  - intros j r' Hj. rewrite row_ok_rows. apply lookup_insert_Some in Hj as [[<- <-]|[_ Hj]]; [done|]. by apply wf_rows.
  - intros j k r1 r2 Hj Hk Hs Hki Hv. apply lookup_insert_Some in Hj as [[Hij <-]|[Hji Hj]]; apply lookup_insert_Some in Hk as [[Hik <-]|[Hki' Hk]].
    + congruence.
    + exfalso. by eapply (Hfree k r2); [|congruence|..].
    + exfalso. by eapply (Hfree j r1); [|congruence|..].
    + by eapply (wf_unique db Hwf).
  - intros s. rewrite <- insert_delete_eq, members_insert by apply lookup_delete_eq. case_decide as Hs.
    + apply in_scope_iff in Hs as <-; [|done]. lia.
    + pose proof (members_delete (rows db) i s). pose proof (wf_room db Hwf s). lia.
Qed.

Lemma delete_wf db i : wf db -> wf (with_rows (delete i (rows db)) db).
Proof.
  intros Hwf. split; cbn.
  - apply Hwf.
  - intros j r Hj%lookup_delete_Some. rewrite row_ok_rows. by eapply wf_rows; [|apply Hj].
  - intros j k r r' Hj%lookup_delete_Some Hk%lookup_delete_Some. eapply (wf_unique db Hwf); [apply Hj|apply Hk].
  - intros s. pose proof (members_delete (rows db) i s). pose proof (wf_room db Hwf s). lia.
Qed.

Lemma free_means db s k v except : wf db -> check_free db s k v except = inl tt ->
  forall j r, rows db !! j = Some r -> j <> default 0 except -> row_scope r = s -> r_kind r = k -> r_value r = v -> False.
Proof.
  intros Hwf Hfree j r Hj Hne Hs Hk Hv. unfold check_free in Hfree. destruct (last _) as [[? ?]|] eqn:Hl; [done|]. apply last_None, map_to_list_empty_iff in Hl.
  assert (listed (rows db) s k v except !! j = Some r) as Hin; [|by rewrite Hl, lookup_empty in Hin].
  apply map_lookup_filter_Some. split; [done|]. split_and!; try done. apply in_scope_iff; [|done]. by apply (wf_rows db Hwf j r Hj).
Qed.

Lemma room_means db s : check_room db s = inl tt -> (members (rows db) s < limit s)%nat.
Proof. unfold check_room. destruct (_ <=? _)%nat eqn:E; [done|]. apply Nat.leb_gt in E. done. Qed.

(** The account or the domain of a scope is gone. *)
Definition missing (db : Db) (s : ListScope) : Prop :=
  match s with OfServer => False | OfDomain d => domains db !! d = None | OfAccount a => a ∉ accounts db end.

(** A call that returns leaves the table well-formed; SQLite only refuses what names an
    account or a domain that is not there. *)
Definition kept {A} (after : A -> Db) (db : Db) (s : ListScope) (r : A + StoreError) : Prop :=
  match r with inl a => wf (after a) | inr Constraint => missing db s | inr (Internal _) => False | inr _ => True end.

Lemma references_missing db s r : account_id r = (ids s).1 -> domain_id r = (ids s).2 -> references db r = false -> missing db s.
Proof.
  unfold references, missing. intros -> ->. destruct s; cbn; [done|..].
  - intros H%bool_decide_eq_false. by apply eq_None_not_Some.
  - rewrite andb_true_r. by intros H%bool_decide_eq_false.
Qed.

Lemma put_kept db i r s : wf db -> 0 < i -> account_id r = (ids s).1 -> domain_id r = (ids s).2 -> (exists original, normalize_sender (r_kind r) original = inl (r_value r)) ->
  (length (default [] (chars (r_note r))) <= NOTE_MAX_CHARS)%nat ->
  (forall j r', rows db !! j = Some r' -> j <> i -> row_scope r' = s -> r_kind r' = r_kind r -> r_value r' = r_value r -> False) ->
  (members (delete i (rows db)) s < limit s)%nat -> kept Datatypes.id db s (put db i r).
Proof.
  intros Hwf Hpos Ha Hd Hnorm Hnote Hfree Hroom. assert (row_scope r = s) as Hs by (unfold row_scope; rewrite Ha, Hd; by destruct s).
  pose proof (put_wf db i r Hwf Hpos) as H. rewrite Hs in H. specialize (H ltac:(unfold one_scope; rewrite Ha, Hd; destruct s; auto) Hnorm Hnote Hfree Hroom).
  destruct (put db i r) as [db'|e]; [done|]. destruct H as [-> Href]. by eapply references_missing.
Qed.

Lemma checked_means new k v note : checked char_lowercase to_lowercase domain_to_ascii new = inl (k, v, note) ->
  (exists original, normalize_sender k original = inl v) /\ (length (default [] (chars note)) <= NOTE_MAX_CHARS)%nat.
Proof.
  unfold checked, and_then. destruct (normalize_sender _ _) as [value|] eqn:Hn; [|done]. destruct (_ <? _)%nat eqn:Hl; [done|]. intros [= <- <- <-].
  apply Nat.ltb_ge in Hl. split; [|done]. by exists (n_value new).
Qed.

Lemma normalize_rule kind original e : normalize_sender kind original = inr e -> exists message, e = invalid message.
Proof.
  unfold SenderLists.normalize_sender, normalize_network, normalize_name, normalize_pattern. intros H. destruct kind; repeat case_match; simplify_eq; by eexists.
Qed.

Lemma add_kept new now db : wf db ->
  kept snd db (n_scope new) (add_sender_list_entry char_lowercase to_lowercase domain_to_ascii new_rowid new now db).
Proof.
  intros Hwf. unfold add_sender_list_entry. destruct (checked _ _ _ _) as [[[k v] note]|e] eqn:Hc; cbn [and_then].
  2: { unfold checked, and_then in Hc. destruct (normalize_sender _ _) as [value|e'] eqn:Hn; [case_match; by simplify_eq|]. injection Hc as <-. by apply normalize_rule in Hn as [? ->]. }
  apply checked_means in Hc as [Hnorm Hnote]. unfold insert. cbn [fst snd].
  destruct (check_free db (n_scope new) k v None) as [[]|e] eqn:Hfree; cbn [and_then]; [|unfold check_free in Hfree; repeat case_match; by simplify_eq].
  destruct (check_room db (n_scope new)) as [[]|e] eqn:Hroom; cbn [and_then]; [|unfold check_room in Hroom; case_match; by simplify_eq].
  pose proof (free_means db _ _ _ _ Hwf Hfree) as Hf. apply room_means in Hroom. set (i := new_rowid (rows db)). set (r := {| account_id := _ |}).
  destruct (new_rowid_is_new (rows db)) as [Hi Hpos]. fold i in Hi, Hpos.
  assert (kept Datatypes.id db (n_scope new) (put db i r)) as Hput.
  { apply put_kept; try done; cbn.
    - intros j r' Hj _. apply (Hf j r' Hj). apply (wf_rows db Hwf) in Hj as [? _]. cbn. lia.
    - by rewrite delete_id. }
  destruct (put db i r) as [db'|e] eqn:Hp; [|done]. cbn [and_then fst snd]. unfold put in Hp. destruct (_ && _); [|done]. injection Hp as <-.
  unfold find. cbn. by rewrite lookup_insert_eq.
Qed.

Lemma note_ok_means n note : note_ok n = inl note -> (length (default [] (chars note)) <= NOTE_MAX_CHARS)%nat.
Proof. unfold note_ok. case_match eqn:Hl; [done|]. intros [= <-]. by apply Nat.ltb_ge in Hl. Qed.

Lemma change_kept owner i change db : wf db ->
  kept Datatypes.id db (default OfServer (or_ (c_scope change) (row_scope <$> rows db !! i)))
    (change_one char_lowercase to_lowercase domain_to_ascii owner i change db).
Proof.
  intros Hwf. unfold change_one. destruct (rows db !! i) as [r|] eqn:Hi; [|done]. destruct (negb _); [done|].
  replace (default OfServer (or_ (c_scope change) (row_scope <$> Some r))) with (default (row_scope r) (c_scope change)) by (by destruct (c_scope change)).
  set (s := default (row_scope r) (c_scope change)). destruct (negb _); [done|].
  destruct (wf_rows db Hwf i r Hi) as [Hpos Hrow].
  destruct (match c_note change with Some note => note_ok note | None => inl (r_note r) end) as [n|e] eqn:Hn; cbn [and_then].
  2: { destruct (c_note change); [|done]. unfold note_ok in Hn. case_match; by simplify_eq. }
  assert (length (default [] (chars n)) <= NOTE_MAX_CHARS)%nat as Hnote.
  { destruct (c_note change) as [n'|]; [by apply note_ok_means in Hn|]. injection Hn as <-. apply Hrow. }
  set (k := match c_kind change with Some k => _ | None => _ end).
  destruct (normalize_sender k _) as [v|e] eqn:Hv; cbn [and_then]; [|by apply normalize_rule in Hv as [? ->]].
  destruct (match c_list change with None => _ | Some _ => _ end) as [li|e] eqn:Hli; cbn [and_then].
  2: { destruct (c_list change) as [[]|]; by simplify_eq. }
  destruct (check_free db s k v (Some i)) as [[]|e] eqn:Hfree; cbn [and_then]; [|unfold check_free in Hfree; repeat case_match; by simplify_eq].
  pose proof (free_means db _ _ _ _ Hwf Hfree) as Hf.
  assert (match (if bool_decide (s = row_scope r) then inl tt else check_room db s) with
          | inl _ => (members (delete i (rows db)) s < limit s)%nat | inr e => exists c m, e = Rule c m end) as Hroom.
  { case_bool_decide as Hs.
    - pose proof (wf_room db Hwf s) as Hle.
      rewrite (members_delete_in (rows db) i r s) in Hle; [lia|done|]. apply in_scope_iff; [apply Hrow|done].
    - destruct (check_room db s) as [[]|e] eqn:Hr; [|unfold check_room in Hr; case_match; simplify_eq; by do 2 eexists].
      apply room_means in Hr. pose proof (members_delete (rows db) i s). lia. }
  destruct (if bool_decide (s = row_scope r) then _ else _) as [[]|e]; cbn [and_then]; [|by destruct Hroom as (? & ? & ->)].
  apply put_kept; try done. by exists (default (r_value r) (c_value change)).
Qed.

(** Rows that were there, up to their counters. *)
Definition only_counters (old rs : gmap Z Row) : Prop :=
  forall i r, rs !! i = Some r -> exists r0, old !! i = Some r0 /\ account_id r = account_id r0 /\ domain_id r = domain_id r0 /\
    r_kind r = r_kind r0 /\ r_value r = r_value r0 /\ r_note r = r_note r0.

Lemma rows_wf db rs : wf db -> only_counters (rows db) rs -> wf (with_rows rs db).
Proof.
  intros Hwf Hrs. split; cbn.
  - apply Hwf.
  - intros i r Hi. destruct (Hrs i r Hi) as (r0 & Hi0 & Ha & Hd & Hk & Hv & Hn). destruct (wf_rows db Hwf i r0 Hi0) as [Hpos [H1 H2 H3 H4]]. split; [done|].
    split; unfold one_scope, references in *; cbn; by rewrite ?Ha, ?Hd, ?Hk, ?Hv, ?Hn.
  - intros i j r r' Hi Hj Hs Hk Hv. destruct (Hrs i r Hi) as (r0 & Hi0 & Ha & Hd & ? & ? & ?). destruct (Hrs j r' Hj) as (r1 & Hj1 & Ha' & Hd' & ? & ? & ?).
    unfold row_scope in Hs. rewrite Ha, Hd, Ha', Hd' in Hs. eapply (wf_unique db Hwf i j r0 r1); [done|done|exact Hs|congruence|congruence].
  - intros s. etrans; [|apply (wf_room db Hwf s)]. unfold members. rewrite <- (size_dom (filter _ rs)), <- (size_dom (filter _ (rows db))).
    apply subseteq_size. intros i [r Hi]%elem_of_dom. apply map_lookup_filter_Some in Hi as [Hi Hs]. destruct (Hrs i r Hi) as (r0 & Hi0 & Ha & Hd & _).
    apply elem_of_dom. exists r0. apply map_lookup_filter_Some. split; [done|]. cbn in *. unfold in_scope in *. destruct s; by rewrite <- ?Ha, <- ?Hd.
Qed.

Lemma hits_kept senders now db : wf db -> wf (note_rule_hits senders now db).
Proof.
  intros Hwf. apply rows_wf; [done|]. assert (forall rs, only_counters (rows db) rs -> only_counters (rows db) (foldl (fun rs i => alter (hit now) i rs) rs senders)) as Hgo.
  { induction senders as [|x senders IH]; intros rs Hrs; [done|]. cbn [foldl]. apply IH. intros i r Hi. apply lookup_alter_Some in Hi as [(-> & r' & Hr & ->)|[_ Hi]]; [|by apply Hrs].
    destruct (Hrs _ r' Hr) as (r0 & H). exists r0. exact H. }
  apply Hgo. intros i r Hi. by exists r.
Qed.

Lemma expire_kept now db : wf db -> wf (remove_expired_rules now db).
Proof. intros Hwf. apply rows_wf; [done|]. intros i r Hi%map_lookup_filter_Some_1_1. by exists r. Qed.

(** C39: whatever admins and people do to the lists, and whatever runs out or is counted, each
    value stays on one list of a scope at most once and in its one form, entries belong to
    accounts and domains that are there, and no list grows beyond its limit. The checks of
    the code come first: the unique index never refuses anything, and SQLite only refuses an
    account or a domain that is gone. *)
Theorem lists_well_formed db : wf db ->
  (forall new now, kept snd db (n_scope new) (add_sender_list_entry char_lowercase to_lowercase domain_to_ascii new_rowid new now db)) /\
  (forall owner i, kept snd db OfServer (remove_sender_list_entry owner i db)) /\
  (forall owner i change, kept Datatypes.id db (default OfServer (or_ (c_scope change) (row_scope <$> rows db !! i)))
     (change_one char_lowercase to_lowercase domain_to_ascii owner i change db)) /\
  (forall owner i, kept Datatypes.id db OfServer (delete_one owner i db)) /\
  (forall senders now, wf (note_rule_hits senders now db)) /\ (forall now, wf (remove_expired_rules now db)).
Proof.
  intros Hwf. split_and!.
  - intros new now. by apply add_kept.
  - intros owner i. unfold remove_sender_list_entry. destruct (find db i) as [e|]; [|done]. destruct (looks_after _ _); [|done]. by apply delete_wf.
  - intros owner i change. by apply change_kept.
  - intros owner i. unfold delete_one. destruct (rows db !! i) as [r|]; [|done]. destruct (looks_after _ _); [|done]. by apply delete_wf.
  - intros senders now. by apply hits_kept.
  - intros now. by apply expire_kept.
Qed.
End wf.

(** ** A sample *)

Definition no_entries : Db := {| rows := ∅; domains := {[ 3 := bs "here.example" ]}; accounts := {[ 7 ]} |}.

Definition idna (d : list byte) : option (list byte) := Some (to_ascii_lowercase d).

Definition lower_char (c : Z) : list Z := if (65 <=? c) && (c <=? 90) then [c + 32] else [c].

Definition new_entry (s : ListScope) (l : SenderList) (v : string) : NewSenderListEntry :=
  {| n_scope := s; n_list := l; n_kind := None; n_value := bs v; n_note := []; n_created_by := []; n_expires_at := None |}.

Definition added (new : NewSenderListEntry) (db : Db) : Db :=
  match add_sender_list_entry lower_char to_ascii_lowercase idna next_rowid new 0 db with inl (_, db) => db | inr _ => db end.

Definition some_entries : Db := added (new_entry (OfAccount 7) Block "*Newsletter*") (added (new_entry OfServer Allow "192.0.2.77/24") no_entries).

Example kept_in_one_form : r_value <$> rows some_entries = {[ 1 := bs "192.0.2.0/24"; 2 := bs "*newsletter*" ]}
  /\ add_sender_list_entry lower_char to_ascii_lowercase idna next_rowid (new_entry OfServer Block "192.0.2.1/24") 0 some_entries
     = inr (Rule "senderListed" (bs "192.0.2.0/24 is already on the allow list"))
  /\ add_sender_list_entry lower_char to_ascii_lowercase idna next_rowid (new_entry (OfDomain 4) Block "a.example") 0 some_entries = inr Constraint.
Proof. vm_compute. done. Qed.

Lemma no_entries_wf : wf lower_char to_ascii_lowercase idna no_entries.
Proof.
  split; cbn.
  - split; [intros a ->%elem_of_singleton; lia|]. intros d [x Hx]. apply lookup_singleton_Some in Hx as [<- _]. lia.
  - intros i r Hi. by rewrite lookup_empty in Hi.
  - intros i j r r' Hi. by rewrite lookup_empty in Hi.
  - intros s. unfold members. rewrite map_filter_empty, map_size_empty. lia.
Qed.

Lemma lists_well_formed_witness :
  wf lower_char to_ascii_lowercase idna (added (new_entry OfServer Allow "192.0.2.77/24") no_entries)
  /\ (r_value <$> rows (added (new_entry OfServer Allow "192.0.2.77/24") no_entries)) = {[ 1 := bs "192.0.2.0/24" ]}.
Proof.
  split; [|vm_compute; reflexivity].
  destruct (lists_well_formed lower_char to_ascii_lowercase idna next_rowid (fun t => conj (next_rowid_new t) (next_rowid_positive t)) no_entries no_entries_wf) as [H _].
  specialize (H (new_entry OfServer Allow "192.0.2.77/24") 0). unfold added. destruct (add_sender_list_entry _ _ _ _ _ _ _) as [[e db]|e] eqn:E; [exact H|]. vm_compute in E. discriminate.
Defined.

(** A block of the server holds against a person's allowance; allowing a domain takes a From
    that was vouched for. *)
Example decisions :
  let e s l k v := {| id := 0; elist := l; kind := k; value := bs v; note := []; domain := None; scope := s; created_at := 0; created_by := []; expires_at := None; hits := 0; last_hit_at := None |} in
  let l := {| entries := [e OfServer Block Domain "shop.example"; e (OfAccount 7) Allow Address "amy@shop.example"; e (OfAccount 7) Allow Domain "here.example"]; hosts := [] |} in
  let s f v := {| ip := None; envelope := None; from := Some (bs f); from_verified := v |} in
  decide_ l (s "amy@shop.example"%string true) 7 (bs "here.example") = Reject (e OfServer Block Domain "shop.example"%string)
  /\ decide_ l (s "bob@here.example"%string false) 7 (bs "here.example") = NoDecision
  /\ decide_ l (s "bob@here.example"%string true) 7 (bs "here.example") = Allowed (e (OfAccount 7) Allow Domain "here.example"%string).
Proof. vm_compute. done. Qed.
End SenderLists.
