(* ===== verification/MimeLimits.v ===== *)
(** * Limits on the structure of a message (crates\/uwumail-store\/src\/mime_limits.rs)

    [shape] walks a message the way mail-parser does, with the functions of mail-parser's
    stream, and counts: how deep parts nest, how many there are, how many header fields they
    have and how much of the message is searched for boundaries that never come. It stops at
    the first limit that is passed. The stream is third-party code: [MailParser] has the
    functions that are called, [StreamLaws] what is relied on. The state of [scan] is a
    record, its budget lives on in the messages inside that are encoded. The theorem says
    that every message is judged, with no panic, and within which bounds. *)

From S2P Require Import Prelude Effects Relay.

Module MimeLimits.

Definition MAX_MIME_DEPTH : nat := 64.
Definition MAX_MIME_PARTS : nat := 5000.
Definition MAX_HEADER_FIELDS : nat := 20000.
#[local] Arguments MAX_MIME_DEPTH : simpl never.
#[local] Arguments MAX_MIME_PARTS : simpl never.
#[local] Arguments MAX_HEADER_FIELDS : simpl never.
Definition MAX_NESTED_ENCODED : nat := 3.
Definition SEARCH_FACTOR : Z := 8.
Definition SEARCH_ALLOWANCE : Z := 2 ^ 20.

Definition usize_max : Z := 2 ^ 64 - 1.

Inductive MimeFault := TooDeep | TooManyParts | TooManyHeaderFields | TooComplex.

Record MimeShape := { depth : nat; parts : nat; header_fields : nat }.

(** The names of fields mail-parser knows and the code tells apart. *)
Inductive HeaderName :=
  | Subject | Comments | ContentDescription | ContentLocation | ContentTransferEncoding
  | From | To | Cc | Bcc | ReplyTo | Sender | ResentTo | ResentFrom | ResentBcc | ResentCc | ResentSender
  | ListArchive | ListHelp | ListId | ListOwner | ListPost | ListSubscribe | ListUnsubscribe
  | Date | ResentDate
  | MessageId | References | InReplyTo | ReturnPath | ContentId | ResentMessageId
  | Keywords | ContentLanguage | Received | MimeVersion | ContentType_ | ContentDisposition
  | OtherName.

(** ** mail-parser *)

Class MailParser := {
  MessageStream : Type;
  HeaderValue : Type;
  ContentType : Type;
  new : list byte -> MessageStream;
  offset : MessageStream -> nat;
  peek : MessageStream -> option byte;
  next : MessageStream -> MessageStream;
  is_eof : MessageStream -> bool;
  parse_header_name : MessageStream -> option HeaderName * MessageStream;
  parse_unstructured : MessageStream -> HeaderValue * MessageStream;
  parse_address : MessageStream -> HeaderValue * MessageStream;
  parse_date : MessageStream -> HeaderValue * MessageStream;
  parse_id : MessageStream -> HeaderValue * MessageStream;
  parse_comma_separared : MessageStream -> HeaderValue * MessageStream;
  parse_received : MessageStream -> HeaderValue * MessageStream;
  parse_raw : MessageStream -> HeaderValue * MessageStream;
  parse_content_type : MessageStream -> HeaderValue * MessageStream;
  seek_next_part : list byte -> MessageStream -> bool * MessageStream;
  seek_next_part_offset : list byte -> MessageStream -> option nat * MessageStream;
  seek_part_end : option (list byte) -> MessageStream -> (Z * bool) * MessageStream;
  skip_crlf : MessageStream -> MessageStream;
  decode_base64_mime : list byte -> MessageStream -> (Z * list byte) * MessageStream;
  decode_quoted_printable_mime : list byte -> MessageStream -> (Z * list byte) * MessageStream;
  mime_part : list byte -> MessageStream -> (Z * list byte) * MessageStream;
  is_multipart_end : MessageStream -> bool * MessageStream;
  as_content_type : HeaderValue -> option ContentType;
  as_text : HeaderValue -> option (list byte);
  ctype : ContentType -> list byte;
  subtype : ContentType -> option (list byte);
  attribute : ContentType -> list byte -> option (list byte);
}.

(** What is relied on: a stream over a message stays within it, reads its bytes in order, and
    finds a boundary that is ahead. [over raw s]: [s] is a stream over [raw]. *)
Class StreamLaws (mp : MailParser) := {
  over : list byte -> MessageStream -> Prop;
  over_new raw : over raw (new raw);
  over_offset raw s : over raw s -> (offset s <= length raw)%nat;
  peek_at raw s : over raw s -> peek s = raw !! offset s;
  next_moves raw s : over raw s -> over raw (next s) /\ (is_Some (peek s) -> offset (next s) = S (offset s));
  over_name raw s : over raw s -> over raw (parse_header_name s).2;
  over_value raw s : over raw s ->
    Forall (fun parse : MessageStream -> HeaderValue * MessageStream => over raw (parse s).2)
      [parse_unstructured; parse_address; parse_date; parse_id; parse_comma_separared; parse_received; parse_raw; parse_content_type];
  over_seek b raw s : over raw s -> over raw (seek_next_part b s).2 /\
    (is_Some (Relay.find_text (bs "--" ++ b) (drop (offset s) raw)) -> (seek_next_part b s).1 = true);
  over_seek_offset b raw s : over raw s -> over raw (seek_next_part_offset b s).2 /\
    (is_Some (Relay.find_text (bs "--" ++ b) (drop (offset s) raw)) -> is_Some (seek_next_part_offset b s).1);
  over_part_end b raw s : over raw s -> over raw (seek_part_end b s).2;
  over_crlf raw s : over raw s -> over raw (skip_crlf s);
  over_body raw s b : over raw s ->
    Forall (fun body : list byte -> MessageStream -> (Z * list byte) * MessageStream => over raw (body b s).2)
      [decode_base64_mime; decode_quoted_printable_mime; mime_part];
  over_end raw s : over raw s -> over raw (is_multipart_end s).2;
}.

(** ** The budget *)

Record Budget := { shape_ : MimeShape; search_left : Z }.

Definition set_shape (f : MimeShape -> MimeShape) (b : Budget) : Budget := {| shape_ := f (shape_ b); search_left := search_left b |}.

(** [Budget::part], [Budget::field], [Budget::depth] *)
Definition part : M Budget MimeFault unit :=
  modify (set_shape (fun s => {| depth := depth s; parts := S (parts s); header_fields := header_fields s |}));;
  b ← get; if decide (MAX_MIME_PARTS < parts (shape_ b))%nat then throw TooManyParts else mret tt.

Definition field : M Budget MimeFault unit :=
  modify (set_shape (fun s => {| depth := depth s; parts := parts s; header_fields := S (header_fields s) |}));;
  b ← get; if decide (MAX_HEADER_FIELDS < header_fields (shape_ b))%nat then throw TooManyHeaderFields else mret tt.

Definition depth_ (d : nat) : M Budget MimeFault unit :=
  modify (set_shape (fun s => {| depth := depth s `max` d; parts := parts s; header_fields := header_fields s |}));;
  if decide (MAX_MIME_DEPTH < d)%nat then throw TooDeep else mret tt.

Definition boundary_ahead (rest boundary : list byte) : M Budget MimeFault bool :=
  match Relay.find_text (bs "--" ++ boundary) rest with
  | Some _ => mret true
  | None =>
      b ← get;
      if decide (search_left b < Z.of_nat (length rest)) then throw TooComplex
      else put {| shape_ := shape_ b; search_left := search_left b - Z.of_nat (length rest) |};; mret false
  end.

(** ** The walk *)

Inductive Kind := Multipart | Digest | Message | Other.
#[export] Instance kind_eq_dec : EqDecision Kind.
Proof. solve_decision. Defined.

Inductive Encoding := Plain | Base64 | QuotedPrintable.
#[export] Instance encoding_eq_dec : EqDecision Encoding.
Proof. solve_decision. Defined.

Record State := { kind : Kind; boundary : option (list byte); part_id : nat }.
Definition set_boundary (b : option (list byte)) (s : State) : State := {| kind := kind s; boundary := b; part_id := part_id s |}.

Inductive Flow := Continue | Break.

Section walk.
Context `{mp : MailParser}.

Record PartFields := { content_type : option HeaderValue; encoding : option HeaderValue; any : bool }.
Definition no_fields : PartFields := {| content_type := None; encoding := None; any := false |}.

(** The variables of [scan]. *)
Record Scan := { stream : MessageStream; state : State; stack : list (State * option nat); parts_here : nat; fields : PartFields; budget : Budget }.

Definition set_stream (x : MessageStream) (s : Scan) : Scan :=
  {| stream := x; state := state s; stack := stack s; parts_here := parts_here s; fields := fields s; budget := budget s |}.
Definition set_fields (x : PartFields) (s : Scan) : Scan :=
  {| stream := stream s; state := state s; stack := stack s; parts_here := parts_here s; fields := x; budget := budget s |}.
Definition set_budget (x : Budget) (s : Scan) : Scan :=
  {| stream := stream s; state := state s; stack := stack s; parts_here := parts_here s; fields := fields s; budget := x |}.
Definition set_state (x : State) (s : Scan) : Scan :=
  {| stream := stream s; state := x; stack := stack s; parts_here := parts_here s; fields := fields s; budget := budget s |}.
Definition set_nesting (x : State) (st : list (State * option nat)) (n : nat) (s : Scan) : Scan :=
  {| stream := stream s; state := x; stack := st; parts_here := n; fields := fields s; budget := budget s |}.

Definition run : Type -> Type := M Scan MimeFault.

Definition on_budget {A} (m : M Budget MimeFault A) : run A := fun s => let '(r, b) := m (budget s) in (r, set_budget b s).
Definition on_stream {A} (f : MessageStream -> A * MessageStream) : run A := fun s => let '(a, x) := f (stream s) in (Ok a, set_stream x s).
Definition moved (f : MessageStream -> MessageStream) : run unit := modify (fun s => set_stream (f (stream s)) s).

(** [kind] *)
Definition kind_of (ct : option ContentType) (parent : Kind) : bool * Kind :=
  match ct with
  | Some c =>
      if bool_decide (ctype c = bs "multipart" /\ subtype c = Some (bs "digest")) then (true, Digest)
      else if bool_decide (ctype c = bs "multipart") then (true, Multipart)
      else if bool_decide (ctype c = bs "message" /\ (subtype c = Some (bs "rfc822") \/ subtype c = Some (bs "global"))) then (false, Message)
      else (false, Other)
  | None => if decide (parent = Digest) then (false, Message) else (false, Other)
  end.

Definition encoding_of (value : option HeaderValue) : Encoding :=
  match value ≫= as_text with
  | Some text =>
      if eq_ignore_ascii_case text (bs "base64") then Base64
      else if eq_ignore_ascii_case text (bs "quoted-printable") then QuotedPrintable else Plain
  | None => Plain
  end.

(** The inner loop of [read_headers]: whether the block ended there, or a field begins. *)
Fixpoint skip_blank (fuel : nat) : run (option bool) :=
  match fuel with
  | O => out_of_fuel
  | S fuel' =>
      s ← get;
      match peek (stream s) with
      | Some b =>
          if decide (b = x0a) then moved next;; mret (Some true)
          else if negb (is_ascii_whitespace b) then mret None
          else moved next;; skip_blank fuel'
      | None => mret (Some false)
      end
  end.

Definition parse_value (name : HeaderName) : MessageStream -> HeaderValue * MessageStream :=
  match name with
  | Subject | Comments | ContentDescription | ContentLocation | ContentTransferEncoding => parse_unstructured
  | From | To | Cc | Bcc | ReplyTo | Sender | ResentTo | ResentFrom | ResentBcc | ResentCc | ResentSender
  | ListArchive | ListHelp | ListId | ListOwner | ListPost | ListSubscribe | ListUnsubscribe => parse_address
  | Date | ResentDate => parse_date
  | MessageId | References | InReplyTo | ReturnPath | ContentId | ResentMessageId => parse_id
  | Keywords | ContentLanguage => parse_comma_separared
  | Received => parse_received
  | MimeVersion => parse_raw
  | ContentType_ | ContentDisposition => parse_content_type
  | OtherName => parse_raw
  end.

Definition keep_field (name : HeaderName) (value : HeaderValue) (f : PartFields) : PartFields :=
  match name with
  | ContentType_ => {| content_type := Some value; encoding := encoding f; any := true |}
  | ContentTransferEncoding => {| content_type := content_type f; encoding := Some value; any := true |}
  | _ => {| content_type := content_type f; encoding := encoding f; any := true |}
  end.

(** [read_headers]: each turn counts a field. *)
Fixpoint header_loop (fuel : nat) (raw : list byte) : run bool :=
  match fuel with
  | O => out_of_fuel
  | S fuel' =>
      ended ← skip_blank (S (length raw));
      match ended with
      | Some more => mret more
      | None =>
          on_budget field;;
          name ← on_stream parse_header_name;
          match name with
          | Some name =>
              value ← on_stream (parse_value name);
              modify (fun s => set_fields (keep_field name value (fields s)) s);; header_loop fuel' raw
          | None => s ← get; if is_eof (stream s) then mret false else header_loop fuel' raw
          end
      end
  end.

Definition read_headers (raw : list byte) : run bool := header_loop (S (S MAX_HEADER_FIELDS)) raw.

(** [budget.boundary_ahead(&raw\[offset..\], boundary)] *)
Definition ahead (raw b : list byte) : run bool :=
  s ← get;
  rest ← expect (get_slice raw (offset (stream s)) (length raw));
  on_budget (boundary_ahead rest b).

(** A multipart part whose boundary is ahead: the parts in it are read next. *)
Definition enter_multipart (raw : list byte) (d : nat) (k : Kind) (b : list byte) : run bool :=
  if bool_decide (b = []) then mret false
  else
    found ← ahead raw b;
    if negb found then mret false
    else
      sought ← on_stream (seek_next_part b);
      if negb sought then panic
      else
        s ← get;
        let inner := {| kind := k; boundary := Some b; part_id := parts_here s |} in
        put (set_nesting inner ((state s, None) :: stack s) (S (parts_here s)) s);;
        on_budget (depth_ (d + S (length (stack s))));;
        moved skip_crlf;;
        mret true.

(** An enclosed message that is not encoded: its header is read next. *)
Definition enter_message (d : nat) : run unit :=
  s ← get;
  let inner := {| kind := Message; boundary := boundary (state s); part_id := parts_here s |} in
  put (set_nesting inner ((set_boundary None (state s), Some (S (parts_here s))) :: stack s) 0 s);;
  on_budget (depth_ (d + S (length (stack s)))).

(** The part around the message that ends; [false] when there is none. *)
Definition leave_message : run bool :=
  s ← get;
  if decide (kind (state s) = Message) then
    match stack s with
    | (outer, Some outer_parts) :: rest => put (set_nesting (set_boundary (boundary (state s)) outer) rest outer_parts s);; mret true
    | _ => mret false
    end
  else mret true.

(** The part around the multipart that ends, when the next part of it is ahead. *)
Definition leave_multipart (raw : list byte) : run bool :=
  s ← get;
  match stack s with
  | (outer, _) :: rest =>
      if decide (part_id (state s) < parts_here s)%nat then
        put (set_nesting outer rest (parts_here s) s);;
        match boundary outer with
        | Some b =>
            found ← ahead raw b;
            if negb found then mret false
            else
              sought ← on_stream (seek_next_part_offset b);
              match sought with None => panic | Some _ => mret true end
        | None => mret false
        end
      else mret false
  | [] => mret false
  end.

(** The loop at the end of a part: which parts and messages end with it. *)
Fixpoint close_parts (fuel : nat) (raw : list byte) : run Flow :=
  match fuel with
  | O => out_of_fuel
  | S fuel' =>
      inside ← leave_message;
      if negb inside then mret Break
      else
        ended ← on_stream is_multipart_end;
        if negb ended then mret Continue
        else
          more ← leave_multipart raw;
          if (more : bool) then close_parts fuel' raw else mret Break
  end.

(** A part without parts of its own. [nested] is [scan] on an encoded message. *)
Definition leaf (nested : option (list byte -> nat -> M Budget MimeFault unit)) (raw : list byte) (d : nat) (k : Kind) (e : Encoding) : run Flow :=
  s ← get;
  let b := default [] (boundary (state s)) in
  body ← on_stream (match e with Base64 => decode_base64_mime b | QuotedPrintable => decode_quoted_printable_mime b | Plain => mime_part b end);
  (if decide (body.1 = usize_max) then
     s ← get;
     end_ ← on_stream (seek_part_end (boundary (state s))) : run (Z * bool);
     if negb end_.2 then modify (fun s => set_state (set_boundary None (state s)) s) else mret tt
   else if decide (k = Message) then
     match nested with Some scan => s ← get; on_budget (scan (snd body) (d + length (stack s) + 1)%nat) | None => mret tt end
   else mret tt);;
  modify (fun s => set_nesting (state s) (stack s) (S (parts_here s)) s);;
  s ← get;
  if decide (is_Some (boundary (state s))) then close_parts (S (length (stack s))) raw
  else if decide (length raw <= offset (stream s))%nat then mret Break else mret Continue.

(** One turn of the loop of [scan]: a header block and what it says of the part. *)
Definition turn (nested : option (list byte -> nat -> M Budget MimeFault unit)) (raw : list byte) (d : nat) : run Flow :=
  modify (set_fields no_fields);;
  more ← read_headers raw;
  if negb more then mret Break
  else
    on_budget part;;
    s ← get;
    let ct : option ContentType := content_type (fields s) ≫= as_content_type in
    let '(is_multipart, k) := kind_of ct (kind (state s)) in
    let announced : option (list byte) := if is_multipart then ct ≫= fun c => attribute c (bs "boundary") else None in
    entered ← (match announced with Some b => enter_multipart raw d k b | None => mret false end);
    if (entered : bool) then mret Continue
    else
      let k := if announced then Other else k in
      let e := encoding_of (encoding (fields s)) in
      if bool_decide (k = Message /\ e = Plain) then enter_message d;; mret Continue
      else leaf nested raw d k e.

Fixpoint turns (fuel : nat) (nested : option (list byte -> nat -> M Budget MimeFault unit)) (raw : list byte) (d : nat) : run unit :=
  match fuel with
  | O => out_of_fuel
  | S fuel' =>
      flow ← turn nested raw d;
      match flow with Continue => turns fuel' nested raw d | Break => mret tt end
  end.

Definition start (raw : list byte) (b : Budget) : Scan :=
  {| stream := new raw; state := {| kind := Message; boundary := None; part_id := 0 |}; stack := []; parts_here := 0; fields := no_fields; budget := b |}.

(** [scan]: each turn counts a part. A header block that runs to the end is a message of one part. *)
Fixpoint scan (encoded_left : nat) (raw : list byte) (d : nat) : M Budget MimeFault unit := fun b =>
  let nested := match encoded_left with O => None | S less => Some (scan less) end in
  let body : run unit :=
    turns (S (S MAX_MIME_PARTS)) nested raw d;;
    s ← get;
    if bool_decide (parts (shape_ (budget s)) = parts (shape_ b)) && any (fields s) then on_budget part else mret tt in
  let '(r, s) := body (start raw b) in (r, budget s).

Definition full_budget (raw : list byte) : Budget :=
  {| shape_ := {| depth := 0; parts := 0; header_fields := 0 |};
     search_left := (usize_max `min` (usize_max `min` (Z.of_nat (length raw) * SEARCH_FACTOR) + SEARCH_ALLOWANCE)) |}.

Definition shape (raw : list byte) : outcome MimeFault MimeShape * Budget :=
  (scan MAX_NESTED_ENCODED raw 0;; b ← get; mret (shape_ b)) (full_budget raw).

Definition check (raw : list byte) : outcome MimeFault unit :=
  match (shape raw).1 with Ok _ => Ok tt | Err e => Err e | Panicked => Panicked | OutOfFuel => OutOfFuel end.

(** ** Lemmas: what every step keeps *)

Definition within (b : Budget) : Prop :=
  (depth (shape_ b) <= MAX_MIME_DEPTH)%nat /\ (parts (shape_ b) <= MAX_MIME_PARTS)%nat /\ (header_fields (shape_ b) <= MAX_HEADER_FIELDS)%nat /\ 0 <= search_left b.

Definition grown (b b' : Budget) : Prop :=
  (parts (shape_ b) <= parts (shape_ b'))%nat /\ (header_fields (shape_ b) <= header_fields (shape_ b'))%nat /\ search_left b' <= search_left b.

Lemma grown_refl b : grown b b.
Proof. repeat split; lia. Qed.

Lemma grown_trans b c e : grown b c -> grown c e -> grown b e.
Proof. unfold grown. lia. Qed.

Lemma wp_on_budget {A} (m : M Budget MimeFault A) Q F (s : Scan) :
  wp m (fun a b => Q a (set_budget b s)) (fun b => F (set_budget b s)) (budget s) -> wp (on_budget m) Q F s.
Proof. unfold wp, on_budget. by destruct (m (budget s)) as [[] ?]. Qed.

Lemma wp_on_stream {A} (f : MessageStream -> A * MessageStream) Q F (s : Scan) :
  Q (f (stream s)).1 (set_stream (f (stream s)).2 s) -> wp (on_stream f) Q F s.
Proof. unfold wp, on_stream. by destruct (f (stream s)). Qed.

Lemma wp_part b : within b -> wp part (fun _ b' => within b' /\ grown b b' /\ (parts (shape_ b) < parts (shape_ b'))%nat) (fun _ => True) b.
Proof. unfold part, within, grown. intros Hb. repeat wp_step; cbn in *; [done|lia]. Qed.

Lemma wp_field b : within b -> wp field (fun _ b' => within b' /\ grown b b' /\ (header_fields (shape_ b) < header_fields (shape_ b'))%nat) (fun _ => True) b.
Proof. unfold field, within, grown. intros Hb. repeat wp_step; cbn in *; [done|lia]. Qed.

Lemma wp_depth d b : within b -> wp (depth_ d) (fun _ b' => within b' /\ grown b b' /\ (d <= MAX_MIME_DEPTH)%nat) (fun _ => True) b.
Proof. unfold depth_, within, grown. intros Hb. repeat wp_step; cbn in *; [done|lia]. Qed.

Lemma wp_boundary_ahead rest b x : within x ->
  wp (boundary_ahead rest b) (fun found x' => within x' /\ grown x x' /\ (found = true -> is_Some (Relay.find_text (bs "--" ++ b) rest))) (fun _ => True) x.
Proof. unfold boundary_ahead, within, grown. intros Hx. repeat wp_step; cbn in *; try done; split_and!; try lia; eauto. Qed.

Context `{laws : !StreamLaws mp}.

(** What holds between the steps of a walk over [raw] that sits [d] deep and began with the
    budget [b]. *)
Definition good (raw : list byte) (d : nat) (b : Budget) (s : Scan) : Prop :=
  over raw (stream s) /\ within (budget s) /\ grown b (budget s) /\ (stack s = [] \/ (d + length (stack s) <= MAX_MIME_DEPTH)%nat).

Lemma good_now raw d b s : good raw d b s -> good raw d (budget s) s.
Proof. by intros (?&?&?&?). Qed.

Lemma good_since raw d b b' s : grown b b' -> good raw d b' s -> good raw d b s.
Proof. intros ? (?&?&?&?). split_and!; try done. by eapply grown_trans. Qed.

Lemma good_budget raw d b s x : good raw d b s -> within x -> grown (budget s) x -> good raw d b (set_budget x s).
Proof. intros (?&?&?&?) ??. split_and!; cbn; try done. by eapply grown_trans. Qed.

Lemma good_stream raw d b s x : good raw d b s -> over raw x -> good raw d b (set_stream x s).
Proof. by intros (?&?&?&?) ?. Qed.

Lemma good_nesting raw d b s x st n : good raw d b s -> (length st <= length (stack s))%nat -> good raw d b (set_nesting x st n s).
Proof. intros (?&?&?&Hs) ?. split_and!; cbn; try done. destruct Hs as [Hs|Hs]; [left|right; lia]. rewrite Hs in *. by destruct st; cbn in *; [|lia]. Qed.

Lemma good_fields raw d b s x : good raw d b s -> good raw d b (set_fields x s).
Proof. by intros (?&?&?&?). Qed.

Lemma good_state raw d b s x : good raw d b s -> good raw d b (set_state x s).
Proof. by intros (?&?&?&?). Qed.

#[local] Hint Resolve good_stream good_budget good_fields good_state : core.

Lemma wp_skip_blank raw d b : forall fuel s, good raw d b s -> (length raw < fuel + offset (stream s))%nat ->
  wp (skip_blank fuel) (fun _ s' => good raw d b s' /\ budget s' = budget s) (fun _ => True) s.
Proof.
  induction fuel as [|fuel IH]; intros s Hs Hf; pose proof (proj1 Hs) as Ho; pose proof (over_offset _ _ Ho); [lia|].
  cbn [skip_blank]. repeat wp_step; try (by split); destruct (next_moves _ _ Ho) as [? Hn].
  - split; [|done]. by apply good_stream.
  - unfold moved. apply wp_modify. eapply wp_mono; [| |apply IH]; [..|apply good_stream; done|]; cbn; [done|done|].
    rewrite Hn by (by eexists). lia.
Qed.

Lemma over_parsed raw name s : over raw s -> over raw (parse_value name s).2.
Proof.
  intros Hs. pose proof (over_value _ _ Hs) as H. rewrite !Forall_cons in H. by destruct H as (?&?&?&?&?&?&?&?&?), name.
Qed.

Lemma wp_header_loop raw d b : forall fuel s, good raw d b s -> (S MAX_HEADER_FIELDS < fuel + header_fields (shape_ (budget s)))%nat ->
  wp (header_loop fuel raw) (fun _ s' => good raw d b s') (fun _ => True) s.
Proof.
  induction fuel as [|fuel IH]; intros s Hs Hf; [pose proof (proj1 (proj2 Hs)) as (_&_&?&_); lia|].
  cbn [header_loop]. wp_step. eapply wp_mono; [| |apply (wp_skip_blank raw d b)]; [|done|done|lia]. intros ended s1 [H1 Hb]. destruct ended as [more|]; [by wp_step|].
  wp_step. apply wp_on_budget. eapply wp_mono; [| |apply wp_field, H1]; [|done]. cbn. intros _ x (Hx & Hg & Hlt).
  assert (good raw d b (set_budget x s1)) as H2 by eauto.
  wp_step. apply wp_on_stream. pose proof (over_name _ _ (proj1 H2)) as Hn. set (s2 := set_stream _ _).
  assert (good raw d b s2) as H3 by (by apply good_stream). rewrite <- Hb in Hf.
  destruct (parse_header_name _).1 as [name|].
  - wp_step. apply wp_on_stream. pose proof (over_parsed raw name (stream s2) (proj1 H3)). repeat wp_step. apply IH; [auto|cbn; unfold s2; cbn; lia].
  - repeat wp_step; [done|]. apply IH; [done|cbn; unfold s2; cbn; lia].
Qed.

Lemma wp_ahead raw d b s c : good raw d b s ->
  wp (ahead raw c) (fun found s' => good raw d b s' /\ grown (budget s) (budget s') /\ stream s' = stream s /\ stack s' = stack s /\ state s' = state s /\ parts_here s' = parts_here s
    /\ (found = true -> is_Some (Relay.find_text (bs "--" ++ c) (drop (offset (stream s)) raw)))) (fun _ => True) s.
Proof.
  intros Hs. unfold ahead. repeat wp_step. pose proof (over_offset _ _ (proj1 Hs)) as Ho.
  assert (get_slice raw (offset (stream s)) (length raw) = Some (drop (offset (stream s)) raw)) as Hd.
  { unfold get_slice. rewrite decide_True by lia. f_equal. unfold slice. rewrite take_ge; [done|]. rewrite length_drop. lia. }
  eapply wp_expect; [done|]. apply wp_on_budget. eapply wp_mono; [| |apply wp_boundary_ahead, Hs]; [|done]. cbn. intros found x (?&?&?).
  split_and!; auto.
Qed.

Lemma wp_enter_multipart raw d b k c s : good raw d b s ->
  wp (enter_multipart raw d k c) (fun _ s' => good raw d b s' /\ grown (budget s) (budget s')) (fun _ => True) s.
Proof.
  intros Hs. unfold enter_multipart. wp_step; [wp_step; split; [done|apply grown_refl]|].
  wp_step. eapply wp_mono; [| |by apply (wp_ahead raw d b)]; [|done]. intros found s1 (H1 & Hg & Hst & Hsk & Hss & Hp & Hfound).
  destruct found; cbn [negb]; [|by wp_step]. wp_step. apply wp_on_stream. destruct (over_seek c _ _ (proj1 H1)) as [Ho ->]; [|by rewrite Hst; auto].
  cbn [negb]. repeat wp_step. apply wp_on_budget. eapply wp_mono; [| |apply wp_depth, H1]; [|done]. cbn. intros _ x (Hx & Hgx & Hd).
  repeat wp_step. pose proof (over_crlf _ _ Ho). split; [|cbn; by eapply grown_trans].
  destruct H1 as (?&?&?&?). split_and!; cbn; try done; [by eapply grown_trans|right; lia].
Qed.

Lemma wp_enter_message raw d b s : good raw d b s ->
  wp (enter_message d) (fun _ s' => good raw d b s' /\ grown (budget s) (budget s')) (fun _ => True) s.
Proof.
  intros Hs. unfold enter_message. repeat wp_step. apply wp_on_budget. eapply wp_mono; [| |apply wp_depth, Hs]; [|done]. cbn. intros _ x (Hx & Hgx & Hd).
  split; [|done]. destruct Hs as (?&?&?&?). split_and!; cbn; try done; [by eapply grown_trans|right; lia].
Qed.

Lemma wp_leave_message raw d b s : good raw d b s ->
  wp leave_message (fun _ s' => good raw d b s' /\ budget s' = budget s /\ (length (stack s') <= length (stack s))%nat) (fun _ => True) s.
Proof.
  intros Hs. unfold leave_message. repeat wp_step; split_and!; try done; try (apply good_nesting; [done|]);
    repeat match goal with H : stack s = _ |- _ => rewrite H end; cbn; lia.
Qed.

Lemma wp_leave_multipart raw d b s : good raw d b s ->
  wp (leave_multipart raw) (fun more s' => good raw d b s' /\ grown (budget s) (budget s') /\ (more = true -> (length (stack s') < length (stack s))%nat)) (fun _ => True) s.
Proof.
  intros Hs. pose proof (grown_refl (budget s)). unfold leave_multipart. do 3 wp_step; [by wp_step|]. wp_step. wp_step; [|by wp_step]. wp_step. wp_step.
  match goal with H : stack s = (?o, _) :: ?st |- _ => assert (good raw d b (set_nesting o st (parts_here s) s)) as H1 by (apply good_nesting; [done|rewrite H; cbn; lia]) end.
  wp_step; [|by wp_step]. wp_step. eapply wp_mono; [| |by apply (wp_ahead raw d b)]; [|done]. intros found s1 (H2 & Hg & Hst & Hsk & Hss & Hp & Hfound).
  destruct found; cbn [negb]; [|by wp_step]. wp_step. apply wp_on_stream.
  match goal with |- context [seek_next_part_offset ?c _] => destruct (over_seek_offset c _ _ (proj1 H2)) as [Ho [m Hs1]]; [by rewrite Hst; auto|] end.
  rewrite Hs1. wp_step. split_and!; [by apply good_stream|done|]. intros _. cbn. rewrite Hsk. cbn. lia.
Qed.

Lemma wp_close_parts raw d b : forall fuel s, good raw d b s -> (length (stack s) < fuel)%nat ->
  wp (close_parts fuel raw) (fun _ s' => good raw d b s' /\ grown (budget s) (budget s')) (fun _ => True) s.
Proof.
  induction fuel as [|fuel IH]; intros s Hs Hf; [lia|]. cbn [close_parts]. wp_step.
  eapply wp_mono; [| |by apply (wp_leave_message raw d b)]; [|done]. intros inside s1 (H1 & Hb & Hl). rewrite <- Hb.
  wp_step; [by wp_step|]. wp_step. apply wp_on_stream. pose proof (over_end _ _ (proj1 H1)) as Ho. set (s2 := set_stream _ _).
  assert (good raw d b s2) as H2 by (by apply good_stream). wp_step; [by wp_step|]. wp_step.
  eapply wp_mono; [| |by apply (wp_leave_multipart raw d b)]; [|done]. intros more s3 (H3 & Hg & Hl3). destruct more; [|by wp_step].
  eapply wp_mono; [| |apply IH]; [..|done|]; [|done|]; [|specialize (Hl3 eq_refl); cbn in Hl3; lia].
  cbn. intros _ s4 [??]. split; [done|]. by eapply grown_trans.
Qed.

(** What [scan] promises about an encoded message. *)
Definition promised (nested : list byte -> nat -> M Budget MimeFault unit) : Prop :=
  forall raw d x, within x -> wp (nested raw d) (fun _ x' => within x' /\ grown x x') (fun _ => True) x.

Lemma wp_leaf nested raw d b k e s : good raw d b s -> (forall scan, nested = Some scan -> promised scan) ->
  wp (leaf nested raw d k e) (fun _ s' => good raw d b s' /\ grown (budget s) (budget s')) (fun _ => True) s.
Proof.
  intros Hs Hn. unfold leaf. do 3 wp_step. apply wp_on_stream. set (c := default _ _).
  match goal with |- context [(match e with _ => _ end) ?x] => assert (over raw (match e with Base64 => decode_base64_mime c | QuotedPrintable => decode_quoted_printable_mime c | Plain => mime_part c end x).2) as Ho end.
  { pose proof (over_body raw (stream s) c (proj1 Hs)) as H. rewrite !Forall_cons in H. by destruct H as (?&?&?&_), e. }
  set (s1 := set_stream _ _). set (body := fst ((match e with Base64 => _ | _ => _ end) _)). assert (good raw d b s1) as H1 by (by apply good_stream). change (budget s) with (budget s1). clearbody s1 body. clear c Hs Ho s.
  wp_step. eapply (wp_mono _ (fun _ s' => good raw d b s' /\ grown (budget s1) (budget s')) _ (fun _ => True)); [|done|].
  - intros _ s2 [H2 Hg]. do 5 wp_step.
    + eapply wp_mono; [| |apply (wp_close_parts raw d b)]; [..|by apply good_nesting|cbn; lia]; [|done]. intros _ s3 [??]. split; [done|]. by eapply grown_trans.
    + by repeat wp_step; split; try apply good_nesting.
  - pose proof (grown_refl (budget s1)). wp_step; [|wp_step; [wp_step|]].
    + do 3 wp_step. apply wp_on_stream. pose proof (over_part_end (boundary (state s1)) _ _ (proj1 H1)).
      assert (good raw d b (set_stream (seek_part_end (boundary (state s1)) (stream s1)).2 s1)) by (by apply good_stream). repeat wp_step; split; auto.
    + do 2 wp_step. apply wp_on_budget. eapply wp_mono; [| |apply Hn; [done|apply H1]]; [|done]. cbn. intros _ x [??]. split; [by apply good_budget|done].
    + by wp_step.
    + by wp_step.
Qed.

Lemma wp_one_turn nested raw d b s : good raw d b s -> (forall scan, nested = Some scan -> promised scan) ->
  wp (turn nested raw d) (fun flow s' => good raw d b s' /\ (flow = Continue -> (parts (shape_ (budget s)) < parts (shape_ (budget s')))%nat)) (fun _ => True) s.
Proof.
  intros Hs Hn. unfold turn. do 3 wp_step. unfold read_headers.
  eapply wp_mono; [| |apply (wp_header_loop raw d (budget s))]; [..|by eapply good_fields, good_now|cbn; lia]; [|done]. intros more s1 H1.
  assert (forall s', good raw d (budget s) s' -> good raw d b s') as Hb by (intros s'; apply good_since, Hs).
  wp_step; [by wp_step; split; auto|]. wp_step. apply wp_on_budget. eapply wp_mono; [| |apply wp_part, H1]; [|done]. intros _ x (Hx & Hg & Hlt).
  pose proof (proj1 (proj2 (proj2 H1))) as Hg1. set (s2 := set_budget x s1). assert (good raw d (budget s2) s2) as H2 by (by apply (good_now _ _ (budget s)), good_budget).
  assert (forall s', good raw d (budget s2) s' -> good raw d b s' /\ (parts (shape_ (budget s)) < parts (shape_ (budget s')))%nat) as Hend.
  { intros s' H'. split; [apply Hb; eapply good_since; [|done]; by eapply grown_trans|]. destruct H' as (_&_&(?&_)&_), Hg1 as (?&_). cbn in *. lia. }
  do 2 wp_step. cbn zeta. destruct (kind_of _ _) as [is_multipart k]. wp_step.
  eapply (wp_mono _ (fun _ s' => good raw d (budget s2) s') _ (fun _ => True)); [|done|].
  - intros entered s3 H3. destruct entered; [wp_step; split; intros; by apply Hend|]. wp_step.
    + wp_step. eapply wp_mono; [| |by apply (wp_enter_message raw d (budget s2))]; [|done]. intros _ s4 [??]. wp_step. split; intros; by apply Hend.
    + eapply wp_mono; [| |by apply (wp_leaf nested raw d (budget s2))]; [|done]. intros flow s4 [??]. split; intros; by apply Hend.
  - wp_step; [|by wp_step]. eapply wp_mono; [| |by apply (wp_enter_multipart raw d (budget s2))]; [|done]. by intros _ s3 [??].
Qed.

Lemma wp_turns nested raw d b : (forall scan, nested = Some scan -> promised scan) ->
  forall fuel s, good raw d b s -> (S MAX_MIME_PARTS < fuel + parts (shape_ (budget s)))%nat -> wp (turns fuel nested raw d) (fun _ s' => good raw d b s') (fun _ => True) s.
Proof.
  intros Hn. induction fuel as [|fuel IH]; intros s Hs Hf; [pose proof (proj1 (proj2 Hs)) as (_&?&_); lia|].
  cbn [turns]. wp_step. eapply wp_mono; [| |by apply (wp_one_turn nested raw d b)]; [|done]. intros flow s1 [H1 Hlt]. destruct flow; [|by wp_step].
  apply IH; [done|]. specialize (Hlt eq_refl). lia.
Qed.

Lemma scan_promised n : promised (scan n).
Proof.
  induction n as [n IH] using lt_wf_ind. intros raw d x Hx.
  set (nested := match n with O => None | S less => Some (scan less) end).
  assert (forall scan, nested = Some scan -> promised scan) as Hn by (destruct n; intros ? [= <-]; apply IH; lia).
  set (body := turns (S (S MAX_MIME_PARTS)) nested raw d;; s ← get;
    if bool_decide (parts (shape_ (budget s)) = parts (shape_ x)) && any (fields s) then on_budget part else mret tt).
  assert (wp body (fun _ s => good raw d x s) (fun _ => True) (start raw x)) as Hbody.
  { unfold body. wp_step. assert (good raw d x (start raw x)) by (split_and!; cbn; [apply over_new|done|apply grown_refl|by left]).
    eapply wp_mono; [| |apply (wp_turns nested raw d x Hn)]; [..|done|cbn; lia]; [|done]. cbn beta. intros _ s Hs. repeat wp_step; [|done].
    apply wp_on_budget. eapply wp_mono; [| |apply wp_part, Hs]; [|done]. cbn. intros _ y (?&?&_). by apply good_budget. }
  assert (scan n raw d x = let '(r, s) := body (start raw x) in (r, budget s)) as Heq by (by destruct n).
  unfold wp in *. rewrite Heq. destruct (body (start raw x)) as [[] s]; try done. by destruct Hbody as (?&?&?&?).
Qed.

(** C34: every message is judged: [shape] ends, with no panic, whatever the message holds and
    however its parts nest, announce boundaries and are encoded. One that is let through has at
    most 64 levels, 5000 parts and 20000 header fields as [shape] counts them (an enclosed message
    that is encoded is not counted as a level of its own: 67 levels pass,
    [encoded_levels_uncounted]), and what was searched in vain for boundaries is no more than eight times the message and a mebibyte. *)
Theorem every_message_judged raw :
  match shape raw with
  | (Ok s, b) => (depth s <= 64)%nat /\ (parts s <= 5000)%nat /\ (header_fields s <= 20000)%nat
      /\ 0 <= search_left (full_budget raw) - search_left b <= 8 * Z.of_nat (length raw) + 2 ^ 20
  | (Err _, _) => True
  | (Panicked, _) | (OutOfFuel, _) => False
  end.
Proof.
  assert (wp (scan MAX_NESTED_ENCODED raw 0;; b ← get; mret (shape_ b)) (fun s b => s = shape_ b /\ within b /\ grown (full_budget raw) b) (fun _ => True) (full_budget raw)) as H.
  { wp_step. eapply wp_mono; [| |apply scan_promised]; [|done|].
    - intros _ b [??]. by repeat wp_step.
    - unfold within, full_budget, usize_max, SEARCH_FACTOR, SEARCH_ALLOWANCE. cbn -[Z.mul Z.add Z.min Z.of_nat Z.sub Z.pow]. lia. }
  unfold wp in H. fold (shape raw) in H. destruct (shape raw) as [[] b]; try done. destruct H as (-> & (Hd & Hp & Hf & Hs) & (_ & _ & Hg)).
  unfold MAX_MIME_DEPTH, MAX_MIME_PARTS, MAX_HEADER_FIELDS in *. split_and!; try done; [lia|].
  assert (search_left (full_budget raw) <= 8 * Z.of_nat (length raw) + 2 ^ 20); [|lia].
  unfold full_budget, SEARCH_FACTOR, SEARCH_ALLOWANCE. cbn [search_left]. lia.
Qed.
End walk.

(** ** A sample: a parser of mail as simple as it gets *)

Module Mini.
(** A line break for each bar. *)
Definition text (s : string) : list byte := (fun b => if decide (b = "|"%byte) then x0a else b) <$> bs s.
Definition Stream : Type := list byte * nat.
Definition rest (s : Stream) : list byte := drop s.2 s.1.
Definition move (n : nat) (s : Stream) : Stream := (s.1, (s.2 + n) `min` length s.1)%nat.
Definition until (stop text : list byte) : nat := default (length text) (Relay.find_text stop text).
Definition line (s : Stream) : list byte := take (until (text "|") (rest s)) (rest s).

Definition name_of (name : list byte) : HeaderName :=
  if eq_ignore_ascii_case name (bs "content-type") then ContentType_
  else if eq_ignore_ascii_case name (bs "content-transfer-encoding") then ContentTransferEncoding else OtherName.

Definition header_name (s : Stream) : option HeaderName * Stream :=
  match split_once ":"%byte (line s) with
  | Some (name, _) => (Some (name_of name), move (S (length name)) s)
  | None => (None, move (S (length (line s))) s)
  end.

Definition value (s : Stream) : list byte * Stream :=
  (filter (fun b => b ∉ [x20; x0d]) (line s), move (S (length (line s))) s).

Definition seek (b : list byte) (s : Stream) : option nat * Stream :=
  match Relay.find_text (bs "--" ++ b) (rest s) with
  | Some i => (Some (s.2 + i)%nat, move (i + 2 + length b) s)
  | None => (None, s)
  end.

Definition body (b : list byte) (s : Stream) : (Z * list byte) * Stream :=
  let n := if bool_decide (b = []) then length (rest s) else until (text "|--" ++ b) (rest s) in
  ((Z.of_nat (s.2 + n), take n (rest s)), move (n + 3 + length b) s).

Definition crlf (s : Stream) : Stream := if starts_with (text "|") (rest s) then move 1 s else s.

Definition type_of (v : list byte) : list byte * list byte * list byte :=
  let '(t, parameter) := default (v, []) (split_once ";"%byte v) in
  let '(t, sub) := default (t, []) (split_once "/"%byte t) in (t, sub, drop 9 parameter).

#[export] Instance parser : MailParser := {|
  MessageStream := Stream; HeaderValue := list byte; ContentType := list byte * list byte * list byte;
  new raw := (raw, 0%nat); offset := snd; peek s := s.1 !! s.2; next := move 1; is_eof s := bool_decide (s.2 = length s.1);
  parse_header_name := header_name; parse_unstructured := value; parse_address := value; parse_date := value; parse_id := value;
  parse_comma_separared := value; parse_received := value; parse_raw := value; parse_content_type := value;
  seek_next_part b s := (bool_decide (is_Some (seek b s).1), (seek b s).2); seek_next_part_offset := seek;
  seek_part_end b s := ((Z.of_nat s.2, true), s); skip_crlf := crlf;
  decode_base64_mime := body; decode_quoted_printable_mime := body; mime_part := body;
  is_multipart_end s := if starts_with (bs "--") (rest s) then (true, move 2 s) else (false, crlf s);
  as_content_type v := Some (type_of v); as_text := Some; ctype t := t.1.1; subtype t := Some t.1.2; attribute t name := Some t.2;
|}.

#[export] Instance laws : StreamLaws parser.
Proof.
  refine {| over raw s := s.1 = raw /\ (s.2 <= length raw)%nat |}; cbn; intros *.
  - split; [done|lia].
  - by intros [].
  - by intros [<- _].
  - intros [<- H]. split; [split; [done|lia]|]. intros [x Hx%lookup_lt_Some]. lia.
  - intros [<- H]. unfold header_name. destruct (split_once _ _) as [[? ?]|]; cbn; split; done || lia.
  - intros [<- H]. rewrite !Forall_cons. cbn. split_and!; done || lia.
  - intros [<- H]. unfold seek, rest. destruct (Relay.find_text _ _); cbn; [|split; [done|by intros []]]. split; [split; [done|lia]|]. done.
  - intros [<- H]. unfold seek, rest. destruct (Relay.find_text _ _); cbn; [|done]. split; [split; [done|lia]|by eexists].
  - done.
  - intros [<- H]. unfold crlf. destruct (starts_with _ _); cbn; split; done || lia.
  - intros [<- H]. rewrite !Forall_cons. cbn. split_and!; done || lia.
  - intros [<- H]. unfold crlf. repeat destruct (starts_with _ _); cbn; split; done || lia.
Defined.

(** Messages inside messages, and one more that is encoded. *)
Definition layer : list byte := text "Content-Type: message/rfc822||".
Definition encoded_layer : list byte := text "Content-Type: message/rfc822|Content-Transfer-Encoding: base64||".
Definition bottom : list byte := text "Subject: bottom||hi|".
Definition nested (n : nat) : list byte := Nat.iter n (app layer) bottom.
Definition digest : list byte := text "Content-Type: multipart/digest; boundary=d||--d||Subject: one||Eins|--d||Subject: two||Zwei|--d--|".

Definition judged (raw : list byte) : option MimeShape + option MimeFault :=
  match (shape raw).1 with Ok s => inl (Some s) | Err e => inr (Some e) | Panicked => inl None | OutOfFuel => inr None end.
End Mini.

Example structures : Mini.judged (Mini.nested 64) = inl (Some {| depth := 64; parts := 65; header_fields := 65 |})
  /\ Mini.judged (Mini.nested 65) = inr (Some TooDeep)
  /\ Mini.judged Mini.digest = inl (Some {| depth := 2; parts := 5; header_fields := 3 |}).
Proof. vm_compute. done. Qed.

(** A message that is encoded is not counted as a level of its own: one that nests 67 levels
    deep is let through. *)
Example encoded_levels_uncounted :
  Mini.judged (Nat.iter 64 (app Mini.layer) (Nat.iter 3 (app Mini.encoded_layer) Mini.bottom))
  = inl (Some {| depth := 64; parts := 68; header_fields := 71 |}).
Proof. vm_compute. done. Qed.

Lemma every_message_judged_witness :
  match shape (mp := Mini.parser) (Mini.nested 2) with
  | (Ok s, b) => (depth s <= 64)%nat /\ (parts s <= 5000)%nat /\ (header_fields s <= 20000)%nat
      /\ 0 <= search_left (full_budget (Mini.nested 2)) - search_left b <= 8 * Z.of_nat (length (Mini.nested 2)) + 2 ^ 20
  | (Err _, _) => True
  | (Panicked, _) | (OutOfFuel, _) => False
  end.
Proof. apply (every_message_judged (mp := Mini.parser) (laws := Mini.laws)). Defined.
End MimeLimits.
