(* ===== verification/Forwarding.v ===== *)
(** * Passing mail on and answering it (crates\/uwumail-smtp\/src\/forward.rs, vacation.rs)

    [plan] says where the mail of a person goes, [send] passes one message on to people here
    and to other servers, [maybe_reply] is the vacation response. What the store answers is in
    a [World]; a step returns what it did as a list of [Sent]. The list of public suffixes and
    the HMAC of [Srs] are arguments. The theorems: what is passed on goes where it is meant to
    go, a forged sender of our own is not made good by it, and mail does not go in circles. *)

From stdpp Require Import sorting.
From S2P Require Import Prelude Utf8 SmtpHeaders Srs Relay.

Module Forwarding.
Import SmtpHeaders.Headers.

(** ** Data *)

(** [checks::Action] and [checks::Verdict]: what the checks at the door found. *)
Inductive Action := Accept | Quarantine | Reject (reason : list byte).

Record Verdict := {
  header : list byte; action : Action; sender_verified : bool; dmarc_passed : bool; spf_failed : bool; dkim_failed : bool;
  dmarc_failed : bool; from_domain : option (list byte); from_address : option (list byte); from_verified : bool;
  face_signed : bool; verification_signed : bool }.

(** Addresses, with the account of people on this server. *)
Definition Targets : Type := list (list byte * option Z).

Record Plan := { keep_copy : bool; targets : Targets }.

(** What [active_forwarding] answers. *)
Record ActiveForwarding := { active_keep_copy : bool; active_targets : Targets }.

Record Proof_ := { proven_envelope : bool; unproven_from : option (list byte) }.

Definition PROVEN : Proof_ := {| proven_envelope := true; unproven_from := None |}.

(** [Proof::of] *)
Definition proof_of (verdict : option Verdict) : Proof_ :=
  match verdict with
  | Some v => {| proven_envelope := sender_verified v; unproven_from := if dmarc_passed v then None else from_domain v |}
  | None => PROVEN
  end.

Record Forwarder := { forwarder_name : list byte; forwarder_account : option Z; proof : Proof_; smtp_delivered : bool }.

(** What was done: a message stored for an account, or put into the queue. *)
Inductive Sent :=
  | StoredFor (account : Z) (message : list byte) (marked : bool)
  | Queued (return_path : list byte) (recipients : list (list byte)) (message : list byte) (account : option Z) (lifetime : Z).

(** What the store and the settings answer; [ingests] of the n-th target. *)
Record World := {
  external_allowed : bool;
  active_forwarding : Z -> option ActiveForwarding;
  delivery_target : Z -> option Z;
  ingests : nat -> Z -> bool;
  is_local_domain : list byte -> bool;
  srs_secret : option (list byte);
  enqueues : bool;
  hostname : list byte;
  today : Z;
  lifetime : Z }.

(** [plan] *)
Definition plan (w : World) (account : Z) : Plan :=
  match active_forwarding w account with
  | Some active =>
      let targets := List.filter (fun t : list byte * option Z => bool_decide (is_Some t.2) || external_allowed w) (active_targets active) in
      {| keep_copy := active_keep_copy active || bool_decide (targets = []); targets := targets |}
  | None => {| keep_copy := true; targets := [] |}
  end.

Section forward.
(** [hex::encode] of an HMAC, and [psl::domain_str]. *)
Context (digest : list byte -> list byte -> list byte) (domain_str : list byte -> option (list byte)).

Definition organizational (domain : list byte) : list byte :=
  let domain := to_ascii_lowercase (trim_end_dots domain) in default domain (domain_str domain).

Definition aligned (a b : list byte) : bool := bool_decide (organizational a = organizational b).

(** The loop over the targets: what was stored here, and what is for other servers. *)
Fixpoint pass_on (w : World) (f : Forwarder) (forwarded : list byte) (n : nat) (ts : Targets) : list Sent * list (list byte) :=
  match ts with
  | [] => ([], [])
  | (address, local) :: ts =>
      let '(sent, remote) := pass_on w f forwarded (S n) ts in
      match local with
      | Some account =>
          match delivery_target w account with
          | Some target => if ingests w n target then (StoredFor target forwarded (smtp_delivered f) :: sent, remote) else (sent, remote)
          | None => (sent, remote)
          end
      | None => (sent, address :: remote)
      end
  end.

Definition domain_of (address : list byte) : option (list byte) := snd <$> rsplit_once "@"%byte address.

Definition delivered_to (recipient : list byte) (h : RawHeader) : bool :=
  is_named (bs "Delivered-To") h && eq_ignore_ascii_case (Headers.value h) recipient.

(** [send]: whether the message reached a target, and what was done. *)
Definition send (w : World) (f : Forwarder) (recipient envelope_from message : list byte) (ts : Targets) : bool * list Sent :=
  if bool_decide (ts = []) then (false, [])
  else if existsb (delivered_to recipient) (Headers.split message).1 then (false, [])
  else
    let forwarded := bs "Delivered-To: " ++ recipient ++ [x0d; x0a] ++ message in
    let '(stored, remote) := pass_on w f forwarded 0 ts in
    let reached := negb (bool_decide (stored = [])) in
    if bool_decide (remote = []) then (reached, stored)
    else
      let our_domain := default (hostname w) (domain_of (forwarder_name f)) in
      if match unproven_from (proof f) with Some from => aligned from our_domain | None => false end then (reached, stored)
      else
        let own_sender := proven_envelope (proof f) && is_local_domain w (default [] (domain_of envelope_from)) in
        let return_path :=
          if bool_decide (envelope_from = []) || own_sender then Some envelope_from
          else (fun secret => rewrite_ digest secret envelope_from our_domain (today w)) <$> srs_secret w in
        match return_path with
        | None => (reached, stored)
        | Some return_path =>
            if enqueues w then (true, stored ++ [Queued return_path remote forwarded (forwarder_account f) (lifetime w)])
            else (reached, stored)
        end.

(** ** What is sent goes where it is meant to go *)

(** The targets on this server, and the addresses elsewhere. *)
Definition here (w : World) (ts : Targets) (account : Z) : Prop :=
  exists address a, (address, Some a) ∈ ts /\ delivery_target w a = Some account.

Definition elsewhere (ts : Targets) : list (list byte) := omap (fun t : list byte * option Z => match t.2 with None => Some t.1 | Some _ => None end) ts.

Definition for_targets (w : World) (f : Forwarder) (message : list byte) (ts : Targets) (x : Sent) : Prop :=
  exists account, x = StoredFor account message (smtp_delivered f) /\ here w ts account.

(** Where a target's mail goes: to the person it is, or whom they hand it to, if their store
    takes it. *)
Definition takes (w : World) (ts : Targets) (n : nat) (account : Z) : Prop :=
  exists address a, ts !! n = Some (address, Some a) /\ delivery_target w a = Some account /\ ingests w n account = true.

(** What was stored here: once for each target whose store takes it, in order, and nothing else. *)
Definition for_here (w : World) (f : Forwarder) (message : list byte) (ts : Targets) (stored : list Sent) : Prop :=
  exists taken : list (nat * Z), StronglySorted lt taken.*1 /\ stored = map (fun t => StoredFor t.2 message (smtp_delivered f)) taken
    /\ forall n account, (n, account) ∈ taken <-> takes w ts n account.

Lemma pass_on_spec w f m ts : forall k,
  (exists taken : list (nat * Z), StronglySorted lt taken.*1 /\ (pass_on w f m k ts).1 = map (fun t => StoredFor t.2 m (smtp_delivered f)) taken
    /\ forall n account, (n, account) ∈ taken <->
         exists i address a, n = (k + i)%nat /\ ts !! i = Some (address, Some a) /\ delivery_target w a = Some account /\ ingests w n account = true)
  /\ (pass_on w f m k ts).2 = elsewhere ts.
Proof.
  induction ts as [|[address local] ts IH]; intros k.
  { split; [|done]. exists []. split_and!; [constructor|done|]. intros n account. split; [by intros ?%elem_of_nil|]. by intros (i & ? & ? & _ & ? & _). }
  cbn. destruct (IH (S k)) as [(taken & Hsort & Hs & Hall) Hr]. destruct (pass_on _ _ _ _ ts) as [sent remote]. cbn [fst snd] in *. subst sent remote.
  assert (forall t, t ∈ taken -> (k < t.1)%nat) as Hlater by (intros [n account] (i & ? & ? & -> & _)%Hall; cbn; lia).
  assert (forall n account, (exists i a0 a, n = (k + i)%nat /\ ((address, local) :: ts) !! i = Some (a0, Some a) /\ delivery_target w a = Some account /\ ingests w n account = true)
    <-> (n = k /\ local ≫= delivery_target w = Some account /\ ingests w k account = true) \/ (n, account) ∈ taken) as Hsplit.
  { intros n account. rewrite Hall. split.
    - intros ([|i] & a0 & a & -> & Hi & H1 & H2); cbn in Hi; [left|right; by exists i, a0, a; rewrite Nat.add_succ_comm].
      injection Hi as _ ->. rewrite Nat.add_0_r in H2. split_and!; [lia|done|done].
    - intros [(-> & H1 & H2)|(i & a0 & a & -> & H)]; [|exists (S i), a0, a; by rewrite <- Nat.add_succ_comm].
      destruct local as [a|]; [|done]. exists 0%nat, address, a. by rewrite Nat.add_0_r. }
  assert ((forall x, local ≫= delivery_target w = Some x -> ingests w k x = false) ->
    exists taken0 : list (nat * Z), StronglySorted lt taken0.*1 /\ map (fun t => StoredFor t.2 m (smtp_delivered f)) taken = map (fun t => StoredFor t.2 m (smtp_delivered f)) taken0
      /\ forall n account, (n, account) ∈ taken0 <-> exists i a0 a, n = (k + i)%nat /\ ((address, local) :: ts) !! i = Some (a0, Some a) /\ delivery_target w a = Some account /\ ingests w n account = true) as Hskip.
  { intros Hno. exists taken. split_and!; [done|done|]. intros n account. rewrite Hsplit. split; [by right|]. intros [(_ & H1 & H2)|?]; [|done]. by rewrite (Hno _ H1) in H2. }
  destruct local as [account|]; cbn; [|split; [by apply Hskip|done]].
  destruct (delivery_target w account) as [target|] eqn:Ht; cbn; [|split; [apply Hskip; cbn; by rewrite Ht|done]].
  destruct (ingests w k target) eqn:Hi; cbn; (split; [|done]); [|apply Hskip; cbn; rewrite Ht; by intros ? [= <-]].
  exists ((k, target) :: taken). split_and!; [|done|].
  - cbn. constructor; [done|]. apply Forall_forall. intros n (t & -> & Hin)%list_elem_of_fmap. by apply Hlater.
  - intros n a. rewrite Hsplit, elem_of_cons. cbn. rewrite Ht. split; [intros [[= -> ->]|?]; auto|intros [(-> & [= ->] & _)|?]; auto].
Qed.

Lemma for_here_stored w f m ts : for_here w f m ts (pass_on w f m 0 ts).1.
Proof.
  destruct (pass_on_spec w f m ts 0) as [(taken & Hsort & Hs & Hall) _]. exists taken. split_and!; [done|done|]. intros n account. rewrite Hall. unfold takes.
  split; [intros (i & address & a & -> & H); by exists address, a|intros (address & a & H); by exists n, address, a].
Qed.

Lemma for_here_targets w f m ts stored : for_here w f m ts stored -> Forall (for_targets w f m ts) stored.
Proof.
  intros (taken & _ & -> & Hall). apply Forall_forall. intros x ([n account] & -> & (address & a & Hn & Ha & _)%Hall)%list_elem_of_fmap. exists account. split; [done|].
  exists address, a. split; [by eapply list_elem_of_lookup_2|done].
Qed.

(** What may stand as the sender of what is queued. *)
Definition honest (w : World) (f : Forwarder) (envelope_from return_path : list byte) : Prop :=
  envelope_from = [] /\ return_path = [] \/
  proven_envelope (proof f) = true /\ is_local_domain w (default [] (domain_of envelope_from)) = true /\ return_path = envelope_from \/
  exists secret, srs_secret w = Some secret /\ return_path = rewrite_ digest secret envelope_from (default (hostname w) (domain_of (forwarder_name f))) (today w).

(** What was put into the queue: nothing, or one message for all addresses elsewhere. *)
Definition for_elsewhere (w : World) (f : Forwarder) (envelope_from message : list byte) (ts : Targets) (queued : list Sent) : Prop :=
  queued = [] \/ exists return_path,
    queued = [Queued return_path (elsewhere ts) message (forwarder_account f) (lifetime w)] /\ elsewhere ts <> [] /\ honest w f envelope_from return_path /\
    forall from, unproven_from (proof f) = Some from -> aligned from (default (hostname w) (domain_of (forwarder_name f))) = false.

Lemma send_exact w f recipient envelope_from message ts :
  let '(reached, sent) := send w f recipient envelope_from message ts in
  let forwarded := bs "Delivered-To: " ++ recipient ++ [x0d; x0a] ++ message in
  (reached = true <-> sent <> []) /\
  if existsb (delivered_to recipient) (Headers.split message).1 then sent = []
  else exists stored queued, sent = stored ++ queued /\ for_here w f forwarded ts stored /\ for_elsewhere w f envelope_from forwarded ts queued.
Proof.
  unfold send. case_bool_decide as Hts.
  { split; [done|]. case_match; [done|]. exists [], []. subst ts. split_and!; [done|apply (for_here_stored w f _ [])|by left]. }
  destruct (existsb _ _) eqn:Hloop; [done|]. set (forwarded := bs "Delivered-To: " ++ _).
  pose proof (for_here_stored w f forwarded ts) as Hs. destruct (pass_on_spec w f forwarded ts 0) as [_ Hr]. destruct (pass_on _ _ _ _ _) as [stored remote]. cbn [fst snd] in Hs, Hr. subst remote.
  assert (negb (bool_decide (stored = [])) = true <-> stored <> []) as Hreached by (by rewrite negb_true_iff, bool_decide_eq_false).
  assert (exists stored' queued, stored = stored' ++ queued /\ for_here w f forwarded ts stored' /\ for_elsewhere w f envelope_from forwarded ts queued) as Hnone
    by (exists stored, []; rewrite app_nil_r; split_and!; try done; by left).
  destruct (bool_decide (elsewhere ts = [])) eqn:Hremote; [by split_and!|].
  destruct (match unproven_from (proof f) with Some from => _ | None => false end) eqn:Ha; [by split_and!|].
  match goal with |- context [match ?r with Some _ => _ | None => _ end] => destruct r as [return_path|] eqn:Hp end; [|by split_and!].
  destruct (enqueues w); [|by split_and!]. split; [split; [intros _; by destruct stored|done]|].
  eexists stored, _. split_and!; [done|done|]. right. exists return_path. apply bool_decide_eq_false in Hremote. split_and!; try done.
  - unfold honest. case_bool_decide as He; cbn in Hp; [injection Hp as <-; by left|].
    destruct (proven_envelope (proof f)), (is_local_domain w _) eqn:Hl; cbn in Hp; try (injection Hp as <-; by right; left);
      right; right; apply fmap_Some in Hp as (secret & ? & ->); by eexists.
  - intros from Hf. by rewrite Hf in Ha.
Qed.

Lemma send_spec w f recipient envelope_from message ts :
  let '(reached, sent) := send w f recipient envelope_from message ts in
  let forwarded := bs "Delivered-To: " ++ recipient ++ [x0d; x0a] ++ message in
  (reached = true <-> sent <> []) /\
  (existsb (delivered_to recipient) (Headers.split message).1 = true -> sent = []) /\
  exists stored queued, sent = stored ++ queued /\ Forall (for_targets w f forwarded ts) stored /\ for_elsewhere w f envelope_from forwarded ts queued.
Proof.
  pose proof (send_exact w f recipient envelope_from message ts) as H. destruct (send _ _ _ _ _ _) as [reached sent]. destruct H as [Hr H].
  destruct (existsb _ _).
  - subst sent. split_and!; [done|done|]. exists [], []. split_and!; [done|done|by left].
  - destruct H as (stored & queued & -> & Hs & Hq). split_and!; [done|done|]. exists stored, queued. split_and!; [done|by apply for_here_targets|done].
Qed.

(** C32: what is passed on goes where it is meant to go. It is stored exactly once for each
    target that is a person here and whose store takes it (theirs, or of whom they hand their mail
    to), and queued at most once, for all addresses elsewhere. A sender is only kept that is empty or that
    was proven to be one of ours; any other comes from an address of ours that says so. Nothing
    goes to other servers whose From was not proven and is aligned with the domain of the forwarder,
    under which it would be sent (a From of another domain of this server may), and nothing at
    all that was here before. The caller is told exactly whether a target was reached. *)
Theorem forwarded_honestly w f recipient envelope_from message ts :
  let '(reached, sent) := send w f recipient envelope_from message ts in
  let forwarded := bs "Delivered-To: " ++ recipient ++ [x0d; x0a] ++ message in
  (reached = true <-> sent <> []) /\
  if existsb (delivered_to recipient) (Headers.split message).1 then sent = []
  else exists stored queued, sent = stored ++ queued /\ for_here w f forwarded ts stored /\ for_elsewhere w f envelope_from forwarded ts queued.
Proof. apply send_exact. Qed.

(** ** Mail does not go in circles *)

Lemma first_line_whole s t : x0a ∉ s -> first_line (s ++ x0a :: t) = s ++ [x0a].
Proof.
  induction s as [|b s IH]; intros Hs; cbn; [done|]. apply not_elem_of_cons in Hs as [Hb Hs]. rewrite decide_False by done. by rewrite IH.
Qed.

(** Lines that all end. *)
Definition complete (s : list byte) : Prop := s = [] \/ exists before, s = before ++ [x0a].

Lemma complete_drop n s : complete s -> complete (drop n s).
Proof.
  intros [->|[before ->]]; [left; by destruct n|]. destruct (decide (n <= length before)%nat).
  - right. exists (drop n before). by rewrite drop_app_le.
  - left. apply drop_ge. rewrite length_app. cbn. lia.
Qed.

Lemma first_line_complete s t : s <> [] -> complete s -> first_line (s ++ t) = first_line s.
Proof.
  intros Hs [->|[before ->]]; [done|]. clear Hs. rewrite <- app_assoc. cbn. induction before as [|b before IH]; cbn; [done|].
  destruct (decide (b = x0a)); [done|]. by rewrite IH.
Qed.

Lemma starts_folded_app s t : s <> [] -> starts_folded (s ++ t) = starts_folded s.
Proof. by destruct s. Qed.

Lemma drop_line s t : drop (length (first_line s)) (s ++ t) = drop (length (first_line s)) s ++ t.
Proof. apply drop_app_le. rewrite (first_line_drop s) at 2. rewrite length_app. lia. Qed.

Lemma folds_complete s f after m : folds s f after -> complete s -> starts_folded m = false -> folds (s ++ m) f (after ++ m).
Proof.
  intros H Hc Hm. induction H as [s H|s f after H _ IH].
  - constructor. destruct (decide (s = [])) as [->|]; [done|]. by rewrite starts_folded_app.
  - assert (s <> []) as Hs by (by intros ->). rewrite <- (first_line_complete s m) by done. constructor; [by rewrite starts_folded_app|].
    rewrite first_line_complete, drop_line by done. by apply IH, complete_drop.
Qed.

Lemma folds_complete_after s f after : folds s f after -> complete s -> complete after.
Proof. induction 1 as [s H|s f after H _ IH]; [done|]. intros Hc. by apply IH, complete_drop. Qed.

(** Fields put on top of a message. *)
Lemma fields_on_top s hs m hs' stop : fields s hs [] -> complete s -> fields m hs' stop -> fields (s ++ m) (hs ++ hs') stop.
Proof.
  intros H Hc Hm. pose proof (fields_start _ _ _ Hm) as Hf. remember [] as e eqn:He. revert Hc.
  induction H as [s H|s n f after hs e Hs Hsf Hb Hn Hfolds H IH]; subst; intros Hc; [done|]. cbn.
  rewrite <- (first_line_complete s m) by done. eapply fields_one with (after := after ++ m);
    rewrite ?first_line_complete, ?starts_folded_app by done; try done; [by destruct s| |].
  - rewrite drop_line. apply folds_complete; [done|by apply complete_drop|done].
  - apply IH; [done|]. by eapply folds_complete_after, complete_drop.
Qed.

Lemma split_test_free p s t : Forall (fun b => p b = false) s ->
  split_test p (s ++ t) = match split_test p t with part :: parts => (s ++ part) :: parts | [] => [s] end.
Proof.
  induction 1 as [|b s Hb _ IH]; cbn; [destruct t as [|b t]; cbn; [done|]; destruct (p b); [done|]; by destruct (split_test p t)|].
  rewrite Hb, IH. by destruct (split_test p t).
Qed.

Definition visible (s : list byte) : Prop := s <> [] /\ Forall (fun b => graphic b = true) s.

Lemma graphic_not_space b : graphic b = true -> is_ascii_whitespace b = false /\ line_break b = false /\ b <> x0a /\ is_ascii b = true.
Proof. intros Hb. split_and!; [by by_bytes b..|intros ->; done|by by_bytes b]. Qed.

Lemma skip_spaces_visible b s : graphic b = true -> skip_spaces (b :: s) = b :: s.
Proof. intros (Hb & _)%graphic_not_space. cbn. by rewrite Hb. Qed.

Lemma trim_spaces_visible s : visible s -> trim_spaces (x20 :: s) = s.
Proof.
  intros [Hs Hg]. unfold trim_spaces. cbn [skip_spaces is_ascii_whitespace]. change (is_ascii_whitespace x20) with true. cbn iota.
  destruct s as [|a s]; [done|]. rewrite skip_spaces_visible by (by apply Forall_cons in Hg as [? _]).
  assert (Forall (fun b => graphic b = true) (rev (a :: s))) as Hr by (by apply Forall_rev). destruct (rev (a :: s)) as [|z r] eqn:He.
  - by apply (f_equal length) in He; rewrite length_rev in He.
  - rewrite skip_spaces_visible by (by apply Forall_cons in Hr as [? _]). by rewrite <- He, rev_involutive.
Qed.

Definition delivered_line (recipient : list byte) : list byte := bs "Delivered-To: " ++ recipient ++ [x0d; x0a].

Lemma delivered_value r n p : visible r -> Headers.value {| name := n; start := p; raw := delivered_line r |} = r.
Proof.
  intros Hr. unfold Headers.value. cbn [raw].
  assert (from_utf8_lossy (delivered_line r) = delivered_line r) as ->.
  { eapply from_utf8_lossy_valid, chars_ascii. unfold delivered_line. apply Forall_app. split; [by vm_compute; repeat constructor|].
    apply Forall_app. split; [|by repeat constructor]. eapply Forall_impl; [apply Hr|]. intros b Hb. by apply graphic_not_space in Hb as (_&_&_&?). }
  change (split_once ":"%byte (delivered_line r)) with (Some (bs "Delivered-To", x20 :: r ++ [x0d; x0a])). cbn iota beta.
  change (x20 :: r ++ [x0d; x0a]) with ((x20 :: r) ++ [x0d; x0a]). rewrite split_test_free.
  - change (split_test line_break [x0d; x0a]) with [[]; []; [] : list byte]. cbn [map]. rewrite app_nil_r, trim_spaces_visible by done.
    change (trim_spaces []) with ([] : list byte). cbn [List.filter]. rewrite bool_decide_eq_false_2 by apply Hr. done.
  - constructor; [done|]. eapply Forall_impl; [apply Hr|]. intros b Hb. by apply graphic_not_space in Hb as (_&?&_).
Qed.

Lemma delivered_field r m : visible r -> starts_folded m = false ->
  exists hs stop, fields (delivered_line r ++ m) ((bs "Delivered-To", delivered_line r) :: hs) stop.
Proof.
  intros Hr Hm. destruct (fields_exists m Hm) as (hs & stop & H). exists hs, stop.
  assert (first_line (delivered_line r ++ m) = delivered_line r) as Hl.
  { replace (delivered_line r ++ m) with ((bs "Delivered-To: " ++ r ++ [x0d]) ++ x0a :: m) by (unfold delivered_line; by rewrite <- !app_assoc).
    rewrite first_line_whole; [unfold delivered_line; by rewrite <- !app_assoc|]. rewrite !not_elem_of_app. split_and!.
    - by apply (bool_decide_eq_false_1 (x0a ∈ _)).
    - intros Hx. destruct Hr as [_ Hg]. rewrite Forall_forall in Hg. apply Hg in Hx. by apply graphic_not_space in Hx as (_&_&?&_).
    - by apply (bool_decide_eq_false_1 (x0a ∈ _)). }
  assert (delivered_line r = first_line (delivered_line r ++ m) ++ []) as Hr' by (by rewrite app_nil_r).
  rewrite Hr' at 2. eapply fields_one with (after := m); rewrite ?Hl; try done.
  rewrite drop_app_length. by constructor.
Qed.

Definition message_of (x : Sent) : list byte := match x with StoredFor _ m _ | Queued _ _ m _ _ => m end.

(** C33: mail does not go in circles. What was passed on for an address is not passed on for it
    again, when it comes back with whatever fields other servers put on top of it. *)
Theorem no_circles w f recipient envelope_from message ts x : visible recipient -> starts_folded message = false ->
  x ∈ (send w f recipient envelope_from message ts).2 ->
  forall top fs, fields top fs [] -> complete top -> forall w' f' envelope_from' ts', send w' f' recipient envelope_from' (top ++ message_of x) ts' = (false, []).
Proof.
  intros Hr Hm Hx top fs Htop Hc w' f' envelope_from' ts'.
  assert (message_of x = delivered_line recipient ++ message) as ->.
  { unfold delivered_line. rewrite <- !app_assoc. revert Hx. pose proof (send_spec w f recipient envelope_from message ts) as H.
    destruct (send w f recipient envelope_from message ts) as [reached sent]. destruct H as (_ & _ & stored & queued & -> & Hs & Hq). cbn.
    intros [Hx|Hx]%elem_of_app; [rewrite Forall_forall in Hs; by destruct (Hs x Hx) as (account & -> & _)|].
    destruct Hq as [->|(return_path & -> & _)]; [by apply elem_of_nil in Hx|by apply list_elem_of_singleton in Hx as ->]. }
  destruct (delivered_field recipient message Hr Hm) as (hs & stop & H).
  unfold send. case_bool_decide; [done|]. rewrite (split_fields _ _ _ (fields_on_top _ _ _ _ _ Htop Hc H)). cbn [fst].
  assert (forall p before, existsb (delivered_to recipient) (place p (before ++ (bs "Delivered-To", delivered_line recipient) :: hs)) = true) as ->; [|done].
  intros p before. revert p. induction before as [|[n r] before IH]; intros p; cbn [app place existsb]; [|rewrite IH; apply orb_true_r].
  apply orb_true_intro. left. unfold delivered_to. rewrite delivered_value by done. apply andb_true_iff. split; [done|apply eq_ignore_ascii_case_refl].
Qed.

(** ** The vacation response *)

Definition contains (word s : list byte) : bool := bool_decide (is_Some (Relay.find_text word s)).

Definition MACHINES : list (list byte) :=
  [bs "mailer-daemon"; bs "postmaster"; bs "noreply"; bs "no-reply"; bs "donotreply"; bs "do-not-reply"; bs "listserv"; bs "majordomo"; bs "bounce"].

Definition is_automated_sender (address : list byte) : bool :=
  let local := to_ascii_lowercase (default [] (head (split_on "@"%byte address))) in
  existsb (fun word => contains word local) MACHINES || starts_with (bs "owner-") local || Headers.ends_with (bs "-request") local.

Definition is_automated_message (message : list byte) : bool :=
  let value name := to_ascii_lowercase <$> first_value message name in
  match value (bs "Auto-Submitted") with Some v => negb (bool_decide (v = bs "no")) | None => false end
  || match value (bs "Precedence") with Some v => bool_decide (v ∈ [bs "bulk"; bs "list"; bs "junk"]) | None => false end
  || match value (bs "X-Auto-Response-Suppress") with Some v => contains (bs "all") v || contains (bs "oof") v | None => false end
  || existsb (fun name => bool_decide (is_Some (first_value message name))) [bs "List-Id"; bs "List-Unsubscribe"; bs "List-Post"; bs "Feedback-ID"].

Definition strip_tag (address : list byte) : list byte :=
  match split_once "@"%byte address with
  | Some (local, domain) => default local (head (split_on "+"%byte local)) ++ bs "@" ++ domain
  | None => address
  end.

(** What is asked for a response: the account and its addresses, whether a response is due, the
    To and Cc addresses mail-parser reads, and the response as mail-builder and the signer write it. *)
Record Vacation := {
  vacation_login : list byte; internal_only : bool; own_addresses : list (list byte); due : bool;
  addressed_to : option (list (option (list byte))); reply : option (list byte); signatures : list byte; resolved : option Z }.

(** [maybe_reply]; [None] for an account that cannot be read. *)
Definition maybe_reply (w : World) (vacation : option Vacation) (account : Z) (envelope_from : list byte) (sender_verified : bool) (message : list byte) : list Sent :=
  if negb sender_verified || bool_decide (envelope_from = []) || is_automated_sender envelope_from || is_automated_message message then []
  else
    match vacation with
    | None => []
    | Some v =>
        if internal_only v && negb (is_local_domain w (default [] (domain_of envelope_from))) then []
        else
          match addressed_to v with
          | None => []
          | Some addresses =>
              let mine (address : list byte) :=
                let address := to_ascii_lowercase address in
                existsb (fun own => bool_decide (own = address) || (bool_decide (is_Some (split_once "+"%byte address)) && bool_decide (strip_tag address = own))) (own_addresses v) in
              if negb (existsb mine (omap id addresses)) || negb (due v) then []
              else
                match reply v with
                | None => []
                | Some reply =>
                    let signed := signatures v ++ reply in
                    match resolved v ≫= delivery_target w with
                    | Some local => if ingests w 0 local then [StoredFor local signed false] else []
                    | None => if enqueues w then [Queued [] [envelope_from] signed (Some account) (lifetime w)] else []
                    end
                end
          end
    end.

(** Who gets a response: a verified sender that is no machine, for mail no machine sent; and the
    response comes from nobody, so that it is not answered itself. *)
Lemma reply_sent w v account envelope_from verified message x : x ∈ maybe_reply w v account envelope_from verified message ->
  (verified = true /\ envelope_from <> [] /\ is_automated_sender envelope_from = false /\ is_automated_message message = false) /\
  ((exists to m, x = StoredFor to m false) \/ exists m, x = Queued [] [envelope_from] m (Some account) (lifetime w)).
Proof.
  unfold maybe_reply. destruct (negb verified || _ || _ || _) eqn:Hg; [by intros ?%elem_of_nil|].
  rewrite !orb_false_iff, negb_false_iff, bool_decide_eq_false in Hg. destruct Hg as (((? & ?) & ?) & ?). intros Hx. split; [done|]. revert Hx.
  destruct v as [v|]; [|by intros ?%elem_of_nil]. destruct (_ && _); [by intros ?%elem_of_nil|]. destruct (addressed_to v); [|by intros ?%elem_of_nil].
  destruct (_ || _); [by intros ?%elem_of_nil|]. destruct (reply v); [|by intros ?%elem_of_nil]. destruct (_ ≫= _) as [to|].
  - destruct (ingests w 0 to); [|by intros ?%elem_of_nil]. intros ->%list_elem_of_singleton. left. by eexists _, _.
  - destruct (enqueues w); [|by intros ?%elem_of_nil]. intros ->%list_elem_of_singleton. right. by eexists.
Qed.
End forward.

(** ** A sample *)

Definition secret_digits (secret data : list byte) : list byte := bs "0badcafe".
Definition last_label (domain : list byte) : option (list byte) := domain_of domain.

Definition some_world : World := {|
  external_allowed := true; active_forwarding _ := Some {| active_keep_copy := false; active_targets := [(bs "oma@home.example", None); (bs "mini@uwu.example", Some 8)] |};
  delivery_target := Some; ingests _ _ := true; is_local_domain d := bool_decide (d = bs "uwu.example"); srs_secret := Some (bs "key");
  enqueues := true; hostname := bs "mx.uwu.example"; today := 20710; lifetime := 432000 |}.

Definition lenis : Forwarder := {| forwarder_name := bs "lenis@uwu.example"; forwarder_account := Some 7; proof := PROVEN; smtp_delivered := true |}.
Definition hello : list byte := bs "Subject: Hi" ++ [x0d; x0a; x0d; x0a] ++ bs "Miau".
Definition hello_sent : bool * list Sent :=
  send secret_digits (fun _ => None) some_world lenis (bs "lenis@uwu.example") (bs "opa@else.example") hello (targets (plan some_world 7)).

Example forwards : hello_sent =
  let m := bs "Delivered-To: lenis@uwu.example" ++ [x0d; x0a] ++ hello in
  (true, [StoredFor 8 m true; Queued (bs "SRS0=0badcafe=hg=else.example=opa@uwu.example") [bs "oma@home.example"] m (Some 7) 432000]).
Proof. vm_compute. reflexivity. Qed.

Example machines : is_automated_sender (bs "MAILER-DAEMON@example.org") = true /\ is_automated_sender (bs "list-request@lists.example.org") = true
  /\ is_automated_sender (bs "nyu@example.org") = false /\ strip_tag (bs "mini+shop@example.org") = bs "mini@example.org"
  /\ is_automated_message (bs "Auto-Submitted: auto-replied" ++ [x0d; x0a; x0d; x0a]) = true.
Proof. vm_compute. repeat split. Qed.

Lemma no_circles_witness : exists x, head hello_sent.2 = Some x /\
  send secret_digits (fun _ => None) some_world lenis (bs "lenis@uwu.example") (bs "opa@else.example") (bs "Received: x" ++ [x0d; x0a] ++ message_of x) [(bs "oma@home.example", None)] = (false, []).
Proof.
  assert (exists x rest, hello_sent.2 = x :: rest) as (x & rest & Hx) by (eexists _, _; vm_compute; reflexivity).
  exists x. split; [by rewrite Hx|]. rewrite app_assoc.
  apply (no_circles secret_digits (fun _ => None) some_world lenis (bs "lenis@uwu.example") (bs "opa@else.example") hello (targets (plan some_world 7)) x) with (fs := [(bs "Received", bs "Received: x" ++ [x0d; x0a])]).
  - split; [done|]. apply Forall_forall. intros b Hb. by repeat (apply elem_of_cons in Hb as [->|Hb]; [done|]); apply elem_of_nil in Hb.
  - done.
  - unfold hello_sent in Hx. rewrite Hx. by apply list_elem_of_here.
  - change (bs "Received: x" ++ [x0d; x0a]) with (first_line (bs "Received: x" ++ [x0d; x0a]) ++ []) at 2. eapply fields_one with (after := []); try done; [by constructor|].
    constructor. split; [done|by left].
  - right. by exists (bs "Received: x" ++ [x0d]).
Defined.
End Forwarding.
