(* ===== verification/Filing.v ===== *)
(** * Carrying out a Sieve script (crates\/uwumail-smtp\/src\/rules.rs, sieve.rs)

    [run] turns the actions of the engine into a [Plan], [plan] keeps the message in the inbox
    when the script fails in any way, and [deliver] carries the plan out: redirects through
    [Forwarding.send], then one stored copy for each set of keywords. The engine of sieve-rs and
    what the store answers are arguments. The theorem: a script loses no message. *)

From stdpp Require Import sorting.
From S2P Require Import Prelude Utf8 Address ImapMailboxes Forwarding.

Module Filing.
Import Forwarding.Forwarding.

(** ** What a script may do (sieve.rs) *)

Definition MAX_REDIRECTS : nat := 1.
Definition MAX_ACTIONS : nat := 64.

Inductive Target := Inbox | InFolder (name : list byte) (mailbox_id : option (list byte)) (create : bool).

Record Filing_ := { target : Target; keywords : list (list byte) }.

Record Plan_ := { filings : list Filing_; redirects : list (list byte); discarded : bool }.

Definition no_plan : Plan_ := {| filings := []; redirects := []; discarded := false |}.

(** [Plan::keep] *)
Definition keep : Plan_ := {| filings := [{| target := Inbox; keywords := [] |}]; redirects := []; discarded := false |}.

Record Folder := { folder_id : Z; folder_path : list byte }.

(** [keyword] *)
Definition keyword (flag : list byte) : option (list byte) :=
  let flag := trim flag in
  match strip_prefix (bs "\") flag with
  | Some system =>
      let system := to_ascii_lowercase system in
      if bool_decide (system = bs "seen") then Some (bs "$seen")
      else if bool_decide (system = bs "flagged") then Some (bs "$flagged")
      else if bool_decide (system = bs "answered") then Some (bs "$answered")
      else if bool_decide (system = bs "draft") then Some (bs "$draft") else None
  | None =>
      if negb (bool_decide (flag = [])) && (length flag <=? 255)%nat
         && forallb (fun b => (0x21 <=? bz b) && (bz b <=? 0x7e) && negb (bool_decide (b ∈ [x28; x29; x7b; x5d; x25; x2a; x22; x5c]))) flag
      then Some (to_ascii_lowercase flag) else None
  end.

(** [mailbox_number] *)
Definition mailbox_number (id : list byte) : option Z :=
  digits ← strip_prefix (bs "m") id;
  if bool_decide (digits = []) || (18 <? length digits)%nat || starts_with (bs "0") digits || negb (forallb is_ascii_digit digits) then None
  else parse_i64 digits.

Definition is_inbox (path : list byte) : bool := eq_ignore_ascii_case path (bs "INBOX").

(** [trim_end_matches('/')] *)
Fixpoint skip_slashes (s : list byte) : list byte := match s with b :: s' => if decide (b = "/"%byte) then skip_slashes s' else s | [] => [] end.
Definition trim_slashes (s : list byte) : list byte := rev (skip_slashes (rev s)).

Definition normalize_path (path inbox : list byte) : list byte :=
  let path := trim_slashes path in
  match split_once "/"%byte path with
  | Some (first, rest) => if is_inbox first then inbox ++ bs "/" ++ rest else path
  | None => if is_inbox path then inbox else path
  end.

Definition find_folder (folders : list Folder) (inbox path : list byte) : option Folder :=
  let path := normalize_path path inbox in List.find (fun f => bool_decide (folder_path f = path)) folders.

(** [SieveMailbox], [SieveAction] and how a run ends, as the engine has them. *)
Inductive SieveMailbox := ByName (name : list byte) | ById (id : list byte).
Inductive SieveAction :=
  | Keep (flags : list (list byte)) (message_id : Z)
  | FileInto (folder : list byte) (flags : list (list byte)) (mailbox_id special_use : option (list byte)) (create : bool) (message_id : Z)
  | Discard
  | Redirect (address : list byte) (message_id : Z)
  | OtherAction.
Inductive RunEnd := Finished | Pending | Stopped (reason : list byte).

(** [Collector::exists] and [mailbox_exists] *)
Definition exists_ (folders : list Folder) (inbox : list byte) (m : SieveMailbox) : bool :=
  match m with
  | ByName name => bool_decide (is_Some (find_folder folders inbox name))
  | ById id => match mailbox_number id with Some n => existsb (fun f => folder_id f =? n) folders | None => false end
  end.

Definition mailbox_exists (folders : list Folder) (inbox : list byte) (mailboxes : list SieveMailbox) (special_use : list (list byte)) : bool :=
  bool_decide (special_use = []) && forallb (exists_ folders inbox) mailboxes.

Definition text_le (a b : list byte) : Prop := bytes_le a b = true.
#[export] Instance text_le_dec : RelDecision text_le.
Proof. intros a b. unfold text_le. apply _. Defined.

(** [Collector::keywords]: a set in order. *)
Definition keywords_of (flags : list (list byte)) : list (list byte) := merge_sort text_le (remove_dups (omap keyword (flags ≫= split_whitespace))).

Record Collector := { plan_ : Plan_; actions : nat; refused : bool }.

Definition push_filing (f : Filing_) (p : Plan_) : Plan_ := {| filings := filings p ++ [f]; redirects := redirects p; discarded := discarded p |}.
Definition with_plan (p : Plan_) (c : Collector) : Collector := {| plan_ := p; actions := actions c; refused := refused c |}.
Definition refuse (c : Collector) : Collector := {| plan_ := plan_ c; actions := actions c; refused := true |}.

(** [Collector::action] *)
Definition action (a : SieveAction) (c : Collector) : Collector :=
  let c := {| plan_ := plan_ c; actions := S (actions c); refused := refused c |} in
  if (MAX_ACTIONS <? actions c)%nat then refuse c
  else
    match a with
    | Keep flags 0 => with_plan (push_filing {| target := Inbox; keywords := keywords_of flags |} (plan_ c)) c
    | FileInto folder flags mailbox_id None create 0 =>
        let target := if is_inbox folder && bool_decide (mailbox_id = None) then Inbox else InFolder folder mailbox_id create in
        with_plan (push_filing {| target := target; keywords := keywords_of flags |} (plan_ c)) c
    | Discard => with_plan {| filings := filings (plan_ c); redirects := redirects (plan_ c); discarded := true |} c
    | Redirect address 0 => with_plan {| filings := filings (plan_ c); redirects := redirects (plan_ c) ++ [address]; discarded := discarded (plan_ c) |} c
    | _ => refuse c
    end.

Definition or_else {A} (a b : option A) : option A := match a with Some _ => a | None => b end.

Section run.
(** The engine: whether the script compiles, and what a run of it hands over. *)
Context (compiles : list byte -> bool)
  (engine : list byte -> list byte -> list byte * list byte -> (list SieveMailbox -> list (list byte) -> bool) -> list SieveAction * RunEnd).

(** [run]: [None] for a script that fails. *)
Definition run (script message from to : list byte) (folders : list Folder) : option Plan_ :=
  if negb (compiles script) then None
  else
    let inbox := match folders with f :: _ => folder_path f | [] => bs "Inbox" end in
    let '(done, ended) := engine script message (from, to) (mailbox_exists folders inbox) in
    let c := foldl (fun c a => action a c) {| plan_ := no_plan; actions := 0; refused := false |} done in
    match ended with
    | Finished =>
        if refused c then None
        else Some {| filings := filings (plan_ c); redirects := take MAX_REDIRECTS (redirects (plan_ c)); discarded := discarded (plan_ c) |}
    | Pending | Stopped _ => None
    end.

(** Why a run gave no plan (rules.rs). *)
Inductive Skipped := StillRunning | Busy | TimedOut | Crashed.

(** [plan]: any failure is the same as no script. *)
Definition plan (skipped : option Skipped) (script message from to : list byte) (folders : list Folder) : Plan_ :=
  match skipped with
  | Some _ => keep
  | None => default keep (run script message from to folders)
  end.

End run.

(** ** Filing (rules.rs) *)

Definition MAX_CREATED_PER_MESSAGE : nat := 10.

(** [path_of]: the names up to the root, at most 65 of them. *)
Fixpoint path_names (fuel : nat) (by_id : gmap Z ImapMailbox) (m : ImapMailbox) : list (list byte) :=
  match fuel with
  | O => []
  | S fuel =>
      match parent_id m ≫= fun p => by_id !! p with
      | Some up => path_names fuel by_id up ++ [box_name m]
      | None => [box_name m]
      end
  end.

Definition path_of (all : list ImapMailbox) (m : ImapMailbox) : list byte := join (bs "/") (path_names 65 (by_id_of all) m).

(** [folders]: the inbox first. *)
Definition folders_of (all : list ImapMailbox) : list Folder :=
  let folder m := {| folder_id := box_id m; folder_path := path_of all m |} in
  map folder (List.filter ImapMailboxes.is_inbox all) ++ map folder (List.filter (fun m => negb (ImapMailboxes.is_inbox m)) all).

Inductive StoreError := QuotaExceeded | OtherStoreError.

(** What the store answers while a message is filed; [stores] of the n-th copy, with its id. *)
Record Store := {
  imap_mailboxes : list ImapMailbox + StoreError;
  create_mailbox : list byte -> option Z -> option Z;
  resolve_recipient : list byte -> option (option Z);
  login : option (list byte);
  stores : nat -> Z + StoreError }.

(** The levels of [folder_for] with [:create]: the folder, and the folders and the allowance left. *)
Fixpoint create_levels (st : Store) (levels : list (list byte)) (current : list byte) (parent : option Z) (folders : list Folder) (may_create : nat) :
    option Z * (list Folder * nat) :=
  match levels with
  | [] => (parent, (folders, may_create))
  | level :: levels =>
      let current := (if bool_decide (current = []) then [] else current ++ bs "/") ++ level in
      match List.find (fun f => bool_decide (folder_path f = current)) folders with
      | Some existing => create_levels st levels current (Some (folder_id existing)) folders may_create
      | None =>
          match may_create with
          | O => (None, (folders, O))
          | S less =>
              match create_mailbox st level parent with
              | Some id => create_levels st levels current (Some id) (folders ++ [{| folder_id := id; folder_path := current |}]) less
              | None => (None, (folders, less))
              end
          end
      end
  end.

(** [folder_for] *)
Definition folder_for (st : Store) (folders : list Folder) (t : Target) (may_create : nat) : option Z * (list Folder * nat) :=
  match t with
  | Inbox => (None, (folders, may_create))
  | InFolder name mailbox_id create =>
      match (mailbox_id ≫= mailbox_number) ≫= fun n => List.find (fun f => folder_id f =? n) folders with
      | Some f => (Some (folder_id f), (folders, may_create))
      | None =>
          let inbox := match folders with f :: _ => folder_path f | [] => [] end in
          match find_folder folders inbox name with
          | Some f => (Some (folder_id f), (folders, may_create))
          | None =>
              if negb create then (None, (folders, may_create))
              else create_levels st (split_on "/"%byte (normalize_path name inbox)) [] None folders may_create
          end
      end
  end.

(** Groups in the order of a [BTreeMap] over lists of keywords. *)
Fixpoint texts_le (a b : list (list byte)) : bool :=
  match a, b with
  | [], _ => true
  | _ :: _, [] => false
  | x :: a, y :: b => if bool_decide (x = y) then texts_le a b else bytes_le x y
  end.

Fixpoint push_group (keywords : list (list byte)) (mailbox : Z) (groups : list (list (list byte) * list Z)) : list (list (list byte) * list Z) :=
  match groups with
  | [] => [(keywords, [mailbox])]
  | (k, ms) :: groups' =>
      if bool_decide (keywords = k) then (k, ms ++ [mailbox]) :: groups'
      else if texts_le keywords k then (keywords, [mailbox]) :: groups else (k, ms) :: push_group keywords mailbox groups'
  end.

(** The loop over the filings. *)
Record Placing := { folders : list Folder; allowance : nat; groups : list (list (list byte) * list Z); placed : list Z; in_inbox : bool }.

Definition place_one (st : Store) (inbox_id : option Z) (labels : list (list byte)) (p : Placing) (f : Filing_) : Placing :=
  let '(found, (fs, left_)) := folder_for st (folders p) (target f) (allowance p) in
  match or_else found inbox_id with
  | None => {| folders := fs; allowance := left_; groups := groups p; placed := placed p; in_inbox := in_inbox p |}
  | Some mailbox =>
      let inside := in_inbox p || bool_decide (Some mailbox = inbox_id) in
      if bool_decide (mailbox ∈ placed p) then {| folders := fs; allowance := left_; groups := groups p; placed := placed p; in_inbox := inside |}
      else
        let ks := merge_sort text_le (foldl (fun ks l => if bool_decide (l ∈ ks) then ks else ks ++ [l]) (keywords f) labels) in
        {| folders := fs; allowance := left_; groups := push_group ks mailbox (groups p); placed := placed p ++ [mailbox]; in_inbox := inside |}
  end.

(** A stored copy: its folders, or none for the inbox as the store finds it, and its keywords. *)
Record Copy := { copy_id : Z; copy_mailboxes : list Z; copy_keywords : list (list byte) }.

(** The loop that stores: the copies that were made, and the error it ended with. The first
    copy decides. *)
Fixpoint store_copies (st : Store) (n : nat) (stored : bool) (gs : list (list (list byte) * list Z)) : list Copy * option StoreError :=
  match gs with
  | [] => ([], None)
  | (ks, ms) :: gs =>
      match stores st n with
      | inl id =>
          let '(copies, failed) := store_copies st (S n) true gs in
          ({| copy_id := id; copy_mailboxes := ms; copy_keywords := ks |} :: copies, failed)
      | inr e => if negb stored then ([], Some e) else store_copies st (S n) stored gs
      end
  end.

Record Filed := { filed_stored : bool; filed_mailbox : option (list byte); email_ids : list Z }.

Section deliver.
Context (digest : list byte -> list byte -> list byte) (domain_str : list byte -> option (list byte))
  (to_lowercase : list byte -> list byte) (domain_to_ascii : list byte -> option (list byte)).

(** [redirect_target] *)
Definition redirect_target (w : World) (st : Store) (account : Z) (address : list byte) : option (list byte * option Z) :=
  '(local, domain) ← normalize_address to_lowercase domain_to_ascii address;
  let address := local ++ bs "@" ++ domain in
  match resolve_recipient st address with
  | Some (Some target) => if target =? account then None else Some (address, Some target)
  | Some None =>
      if negb (external_allowed w) then None
      else
        active ← active_forwarding w account;
        if existsb (fun t : list byte * option Z => bool_decide (t.2 = None) && eq_ignore_ascii_case t.1 address) (active_targets active) then Some (address, None) else None
  | None => None
  end.

(** The loop over the redirects: whether one reached somebody, whether one was refused, and what was sent. *)
Fixpoint redirect_all (w : World) (st : Store) (account : Z) (recipient envelope_from message : list byte) (p : Proof_) (addresses : list (list byte)) : bool * bool * list Sent :=
  match addresses with
  | [] => (false, false, [])
  | address :: addresses =>
      let '(redirected, refused, sent) := redirect_all w st account recipient envelope_from message p addresses in
      match redirect_target w st account address with
      | Some t =>
          let f := {| forwarder_name := default recipient (login st); forwarder_account := Some account; proof := p; smtp_delivered := true |} in
          let '(reached, now) := send digest domain_str w f recipient envelope_from message [t] in
          if reached then (true, refused, now ++ sent) else (redirected, true, now ++ sent)
      | None => (redirected, true, sent)
      end
  end.

(** [deliver] once the script has a plan: what is answered, what was redirected, and the copies
    that are stored. [decided] is the plan over the folders. *)
Definition carry_out (w : World) (st : Store) (account : Z) (decided : list Folder -> Plan_) (recipient envelope_from message : list byte)
    (labels : list (list byte)) (p : Proof_) : (Filed + StoreError) * list Sent * list Copy :=
  match imap_mailboxes st with
  | inr e => (inr e, [], [])
  | inl all =>
      let fs := folders_of all in
      let plan := decided fs in
      let '(redirected, refused, sent) := redirect_all w st account recipient envelope_from message p (redirects plan) in
      let fl := if bool_decide (filings plan = []) && (refused || negb (discarded plan || redirected)) then filings keep else filings plan in
      let inbox_id := folder_id <$> head fs in
      let placing := foldl (place_one st inbox_id labels) {| folders := fs; allowance := MAX_CREATED_PER_MESSAGE; groups := []; placed := []; in_inbox := false |} fl in
      let gs := if bool_decide (groups placing = []) && negb (bool_decide (fl = [])) then [(labels, [])] else groups placing in
      let '(copies, failed) := store_copies st 0 false gs in
      match failed with
      | Some e => (inr e, sent, copies)
      | None =>
          let stored := negb (bool_decide (copies = [])) in
          let mailbox := if stored then Some (if in_inbox placing then bs "inbox" else bs "rules") else None in
          (inl {| filed_stored := stored; filed_mailbox := mailbox; email_ids := copy_id <$> copies |}, sent, copies)
      end
  end.

(** [deliver]: [marked] is the message with the labels as headers, as the script sees it. *)
Definition deliver compiles engine (skipped : option Skipped) (script marked : list byte) (w : World) (st : Store) (account : Z)
    (recipient envelope_from message : list byte) (labels : list (list byte)) (p : Proof_) : (Filed + StoreError) * list Sent * list Copy :=
  carry_out w st account (fun fs => plan compiles engine skipped script marked envelope_from recipient fs) recipient envelope_from message labels p.

(** ** A script loses no message *)

(** A folder of the account, or one that was made for it. *)
Definition owned (st : Store) (m : Z) : Prop :=
  (exists all box, imap_mailboxes st = inl all /\ box ∈ all /\ box_id box = m) \/ exists level parent, create_mailbox st level parent = Some m.

Definition all_owned (st : Store) (fs : list Folder) : Prop := Forall (fun f => owned st (folder_id f)) fs.

Lemma folders_owned st all : imap_mailboxes st = inl all -> all_owned st (folders_of all).
Proof.
  intros Hall. apply Forall_forall. intros f [Hf|Hf]%elem_of_app; apply list_elem_of_In, in_map_iff in Hf as (box & <- & [Hb _]%List.filter_In);
    left; exists all, box; (split_and!; [done|by apply list_elem_of_In|done]).
Qed.

Lemma found_owned st (p : Folder -> bool) fs f : all_owned st fs -> List.find p fs = Some f -> owned st (folder_id f).
Proof. intros Hf [Hin _]%List.find_some. unfold all_owned in Hf. rewrite Forall_forall in Hf. by apply Hf, list_elem_of_In. Qed.

Lemma created_owned st levels : forall current parent fs n found fs' n', all_owned st fs -> (forall m, parent = Some m -> owned st m) ->
  create_levels st levels current parent fs n = (found, (fs', n')) -> all_owned st fs' /\ forall m, found = Some m -> owned st m.
Proof.
  induction levels as [|level levels IH]; intros current parent fs n found fs' n' Hfs Hp; cbn; [by intros [= <- <- <-]|].
  destruct (List.find _ fs) as [f|] eqn:Hf; [apply IH; [done|]; intros m [= <-]; by eapply found_owned|].
  destruct n as [|n]; [by intros [= <- <- <-]|]. destruct (create_mailbox st level parent) as [id|] eqn:Hid; [|by intros [= <- <- <-]].
  assert (owned st id) by (right; by eexists _, _). apply IH; [|by intros m [= <-]]. apply Forall_app. split; [done|]. by constructor.
Qed.

Lemma folder_owned st fs t n found fs' n' : all_owned st fs -> folder_for st fs t n = (found, (fs', n')) -> all_owned st fs' /\ forall m, found = Some m -> owned st m.
Proof.
  intros Hfs. destruct t as [|name mailbox_id create]; cbn; [by intros [= <- <- <-]|].
  destruct (_ ≫= _) as [f|] eqn:Hf; [intros [= <- <- <-]; split; [done|]; intros m [= <-]; apply bind_Some in Hf as (? & _ & Hf); by eapply found_owned|].
  destruct (find_folder _ _ _) as [f|] eqn:Hn; [intros [= <- <- <-]; split; [done|]; intros m [= <-]; by eapply found_owned|].
  destruct create; cbn; [by apply created_owned|by intros [= <- <- <-]].
Qed.

Lemma push_group_places k m gs : concat (push_group k m gs).*2 ≡ₚ m :: concat gs.*2.
Proof.
  induction gs as [|[k' ms] gs IH]; cbn; [done|]. case_bool_decide; cbn; [rewrite <- app_assoc; cbn; by rewrite <- Permutation_middle|].
  destruct (texts_le k k'); cbn; [done|]. by rewrite IH, <- Permutation_middle.
Qed.

Lemma push_group_keys k m gs x : x ∈ (push_group k m gs).*1 -> x = k \/ x ∈ gs.*1.
Proof.
  induction gs as [|[k' ms] gs IH]; cbn; [by intros ->%list_elem_of_singleton; left|]. case_bool_decide; cbn; [by right|].
  destruct (texts_le k k'); cbn; [by intros [->|?]%elem_of_cons; [left|right]|]. intros [->|[?|?]%IH]%elem_of_cons; [right|by left|right]; by constructor.
Qed.

Lemma push_group_nonempty k m gs : push_group k m gs <> [].
Proof. destruct gs as [|[k' ms] gs]; cbn; [done|]. case_bool_decide; [done|]. by destruct (texts_le k k'). Qed.

Lemma labels_added labels ks l : l ∈ labels -> l ∈ merge_sort text_le (foldl (fun ks l => if bool_decide (l ∈ ks) then ks else ks ++ [l]) ks labels).
Proof.
  rewrite merge_sort_Permutation. assert (forall labels ks, l ∈ ks \/ l ∈ labels -> l ∈ foldl (fun ks l => if bool_decide (l ∈ ks) then ks else ks ++ [l]) ks labels) as H; [|auto].
  clear. induction labels as [|x labels IH]; intros ks; cbn; [by intros [?|?%elem_of_nil]|]. rewrite elem_of_cons. intros H. apply IH. case_bool_decide; [by destruct H as [?|[->|?]]; auto|].
  rewrite elem_of_app, list_elem_of_singleton. tauto.
Qed.

(** What holds after each filing. *)
Definition placing_ok (st : Store) (labels : list (list byte)) (p : Placing) : Prop :=
  all_owned st (folders p) /\ NoDup (placed p) /\ concat (groups p).*2 ≡ₚ placed p /\ Forall (owned st) (placed p) /\
  forall k, k ∈ (groups p).*1 -> forall l, l ∈ labels -> l ∈ k.

Lemma place_one_ok st inbox_id labels p f : (forall m, inbox_id = Some m -> owned st m) -> placing_ok st labels p -> placing_ok st labels (place_one st inbox_id labels p f).
Proof.
  intros Hi (Hfs & Hnd & Hg & Ho & Hk). unfold place_one. destruct (folder_for _ _ _ _) as [found [fs n]] eqn:Hf. apply folder_owned in Hf as [Hfs' Hfound]; [|done].
  destruct (or_else found inbox_id) as [m|] eqn:Hm; [|by split_and!]. case_bool_decide as Hin; [by split_and!|].
  assert (owned st m) by (destruct found; cbn in Hm; simplify_eq; auto). split_and!; cbn; [done| | | |].
  - apply NoDup_app. split_and!; [done| |apply NoDup_singleton]. intros x Hx ->%list_elem_of_singleton. done.
  - rewrite push_group_places, Hg. apply Permutation_cons_append.
  - apply Forall_app. by split; [|constructor].
  - intros k [->|?]%push_group_keys; [intros l; apply labels_added|auto].
Qed.

Lemma placings_ok st inbox_id labels fl : forall p, (forall m, inbox_id = Some m -> owned st m) -> placing_ok st labels p -> placing_ok st labels (foldl (place_one st inbox_id labels) p fl).
Proof. induction fl as [|f fl IH]; intros p Hi Hp; cbn; [done|]. by apply IH, place_one_ok. Qed.

(** Once a copy is stored, the loop goes to its end. *)
Lemma copies_of st gs : forall n stored copies failed, store_copies st n stored gs = (copies, failed) ->
  (fun c => (copy_keywords c, copy_mailboxes c)) <$> copies `sublist_of` gs /\ (stored = false -> failed = None -> gs <> [] -> copies <> []) /\
  (is_Some failed -> stored = false /\ copies = []).
Proof.
  induction gs as [|[ks ms] gs IH]; intros n stored copies failed; cbn; [intros [= <- <-]; split_and!; [done|done|by intros [? ?]]|].
  destruct (stores st n) as [id|e].
  - destruct (store_copies _ _ _ gs) as [cs f] eqn:Hc. intros [= <- <-]. apply IH in Hc as (? & _ & Hf). split_and!; [by constructor|done|].
    intros Hs. by destruct (Hf Hs).
  - destruct stored; cbn; [|intros [= <- <-]; split_and!; [apply sublist_nil_l|done|done]]. intros (? & ? & Hf)%IH. split_and!; [by constructor|done|done].
Qed.

Lemma redirect_none w st account recipient envelope_from message p : redirect_all w st account recipient envelope_from message p [] = (false, false, []).
Proof. done. Qed.

Lemma redirect_one w st account recipient envelope_from message p address redirected refused sent :
  redirect_all w st account recipient envelope_from message p [address] = (redirected, refused, sent) -> refused = negb redirected /\ (redirected = true -> sent <> []).
Proof.
  unfold redirect_all. destruct (redirect_target w st account address) as [t|]; [|by intros [= <- <- <-]].
  set (f := {| forwarder_name := _ |}). pose proof (send_spec digest domain_str w f recipient envelope_from message [t]) as H. destruct (send _ _ _ _ _ _ _ _) as [reached now].
  rewrite app_nil_r. destruct H as ([Hr _] & _). destruct reached; intros [= <- <- <-]; split; auto.
Qed.

(** What a message that is stored nowhere was meant for: the script ran, filed it nowhere, and
    threw it away or sent it on, which reached somebody. *)
Definition meant_to_leave (decided : option Plan_) (sent : list Sent) : Prop :=
  exists plan, decided = Some plan /\ filings plan = [] /\ (redirects plan = [] /\ discarded plan = true \/ (exists address, redirects plan = [address]) /\ sent <> []).

Lemma run_redirects compiles engine script message from to fs p : run compiles engine script message from to fs = Some p -> (length (redirects p) <= 1)%nat.
Proof.
  unfold run. destruct (negb _); [done|]. destruct (engine _ _ _ _) as [done_ ended]. destruct ended; [|done|done]. destruct (refused _); [done|]. intros [= <-]. cbn. rewrite length_take. unfold MAX_REDIRECTS. lia.
Qed.

(** When the delivery fails, nothing was stored. *)
Lemma deliver_failed compiles engine skipped script marked w st account recipient envelope_from message labels p e sent copies :
  deliver compiles engine skipped script marked w st account recipient envelope_from message labels p = (inr e, sent, copies) -> copies = [].
Proof.
  unfold deliver, carry_out. destruct (imap_mailboxes st); [|by intros [= _ _ <-]]. destruct (redirect_all _ _ _ _ _ _ _ _) as [[? ?] ?].
  destruct (store_copies _ _ _ _) as [cs failed] eqn:Hc. apply copies_of in Hc as (_ & _ & Hf). destruct failed; intros [= _ _ <-]. by apply Hf.
Qed.

(** C12: a script loses no message. When the delivery is a success, a copy is stored, or the
    script ran to its end, filed the message nowhere and threw it away or sent it on to somebody
    it reached. What fails to run, and a redirect that is refused or reaches nobody, leaves the
    message in the mailbox. No folder gets two copies, each folder is one of the account or was
    made for it, each copy has all its labels; and when the delivery fails, nothing was stored. *)
Theorem script_loses_nothing compiles engine skipped script marked w st account recipient envelope_from message labels p :
  let '(answer, sent, copies) := deliver compiles engine skipped script marked w st account recipient envelope_from message labels p in
  match answer with
  | inl filed =>
      (filed_stored filed = true <-> copies <> []) /\ email_ids filed = copy_id <$> copies /\
      (copies = [] -> skipped = None /\ exists fs, meant_to_leave (run compiles engine script marked envelope_from recipient fs) sent) /\
      NoDup (concat (copy_mailboxes <$> copies)) /\
      forall c, c ∈ copies -> Forall (owned st) (copy_mailboxes c) /\ forall l, l ∈ labels -> l ∈ copy_keywords c
  | inr _ => copies = []
  end.
Proof.
  unfold deliver, carry_out. destruct (imap_mailboxes st) as [all|e] eqn:Hall; [|done]. set (fs := folders_of all). set (decided := plan _ _ _ _ _ _ _ fs).
  destruct (redirect_all _ _ _ _ _ _ _ _) as [[redirected refused] sent] eqn:Hr. set (fl := if (_ : bool) then filings keep else filings decided).
  set (placing := foldl _ _ fl). set (gs := if (_ : bool) then [(labels, [])] else groups placing).
  assert (placing_ok st labels placing) as (_ & Hnd & Hg & Ho & Hk).
  { apply placings_ok; [|split_and!; cbn; [by apply folders_owned|constructor|done|constructor|by intros k ?%elem_of_nil]].
    intros m Hm. pose proof (folders_owned st all Hall) as Hf. fold fs in Hf. destruct fs as [|f rest]; [done|]. injection Hm as <-. by apply Forall_cons in Hf as [? _]. }
  assert (NoDup (concat gs.*2) /\ Forall (owned st) (concat gs.*2) /\ forall k, k ∈ gs.*1 -> forall l, l ∈ labels -> l ∈ k) as (Hnd' & Ho' & Hk').
  { unfold gs. clearbody placing; clearbody fl. destruct (_ && _); [cbn; split_and!; [constructor|constructor|by intros k ->%list_elem_of_singleton]|]. split_and!; [by rewrite Hg|by rewrite Hg|done]. }
  assert (fl <> [] -> gs <> []) as Hgs.
  { intros Hfl. unfold gs. destruct (groups placing); [|by rewrite bool_decide_eq_false_2]. by rewrite bool_decide_eq_true_2, bool_decide_eq_false_2. }
  destruct (store_copies st 0 false gs) as [copies failed] eqn:Hc. apply copies_of in Hc as (Hsub & Hsome & Hfailed).
  destruct failed as [e|]; [by apply Hfailed|]. cbn.
  assert (concat (copy_mailboxes <$> copies) `sublist_of` concat gs.*2) as Hplaces.
  { clear -Hsub. remember ((fun c => (copy_keywords c, copy_mailboxes c)) <$> copies) as x eqn:Hx. revert copies Hx. induction Hsub as [|[k m] a b _ IH|[k m] a b _ IH]; intros copies Hx.
    - by destruct copies.
    - destruct copies as [|c copies]; [done|]. injection Hx as -> -> ->. cbn. apply sublist_app; [done|by apply IH].
    - cbn. apply sublist_inserts_l. by apply IH. }
  split_and!; [by rewrite negb_true_iff, bool_decide_eq_false|done| |by eapply sublist_NoDup|].
  - intros ->. destruct (decide (fl = [])) as [Hfl|Hfl]; [|by specialize (Hsome eq_refl eq_refl (Hgs Hfl))]. unfold fl in Hfl.
    case_bool_decide as Hf; cbn in Hfl; [|done]. destruct (refused || negb (discarded decided || redirected)) eqn:Hcond; [done|]. apply orb_false_iff in Hcond as [-> Hcond].
    unfold plan in decided. destruct skipped as [?|]; [done|]. split; [done|]. exists fs. destruct (run _ _ _ _ _ _ fs) as [pl|] eqn:Hrun; [|done]. cbn in decided. subst decided.
    exists pl. split_and!; [done..|]. pose proof (run_redirects _ _ _ _ _ _ _ _ Hrun) as Hl. destruct (redirects pl) as [|a [|a' rest]]; [| |cbn in Hl; lia].
    + rewrite redirect_none in Hr. injection Hr as <- <-. left. split; [done|]. by destruct (discarded pl).
    + apply redirect_one in Hr as [Hr Hsent]. right. split; [by eexists|]. apply Hsent. by destruct redirected.
  - intros c Hc. assert ((copy_keywords c, copy_mailboxes c) ∈ gs) as Hin. { eapply elem_of_submseteq; [|by apply sublist_submseteq, Hsub]. by apply (list_elem_of_fmap_2 (fun c => (copy_keywords c, copy_mailboxes c))). }
    split; [|apply Hk'; by apply (list_elem_of_fmap_2 fst) in Hin]. eapply Forall_forall. intros m Hm. rewrite Forall_forall in Ho'. apply Ho'.
    eapply elem_of_submseteq; [|by apply sublist_submseteq, Hplaces]. apply list_elem_of_In, in_concat. exists (copy_mailboxes c). split; [by apply list_elem_of_In, list_elem_of_fmap_2|by apply list_elem_of_In].
Qed.
End deliver.

(** ** A sample *)

Definition box (id : Z) (parent : option Z) (name : string) (r : option MailboxRole) : ImapMailbox :=
  {| box_id := id; parent_id := parent; box_name := bs name; role := r; subscribed := true; box_uid_validity := 1; box_uid_next := 1 |}.

Definition some_boxes : list ImapMailbox := [box 3 None "Work" None; box 4 (Some 3) "Boss" None; box 1 None "Posteingang" (Some MailboxRole.Inbox)].

Definition some_store (stores : nat -> Z + StoreError) : Store := {|
  imap_mailboxes := inl some_boxes; create_mailbox _ _ := Some 9; resolve_recipient _ := Some None; login := Some (bs "lenis@uwu.example"); stores := stores |}.

Definition filed (done : list SieveAction) (stores : nat -> Z + StoreError) : (Filed + StoreError) * list Sent * list Copy :=
  deliver secret_digits (fun _ => None) to_ascii_lowercase Some (fun _ => true) (fun _ _ _ _ => (done, Finished)) None (bs "keep;") hello
    some_world (some_store stores) 7 (bs "lenis@uwu.example") (bs "opa@else.example") hello [bs "receipts"] PROVEN.

Example files : filed [FileInto (bs "Work/Boss") [bs "\Seen"] None None false 0; Keep [] 0; FileInto (bs "inbox") [] None None false 0; FileInto (bs "Work/New") [bs "\Seen"] None None true 0] (fun n => inl (Z.of_nat n))
  = (inl {| filed_stored := true; filed_mailbox := Some (bs "inbox"); email_ids := [0; 1] |}, [],
     [{| copy_id := 0; copy_mailboxes := [4; 9]; copy_keywords := [bs "$seen"; bs "receipts"] |}; {| copy_id := 1; copy_mailboxes := [1]; copy_keywords := [bs "receipts"] |}]).
Proof. vm_compute. reflexivity. Qed.

(** A redirect with a copy whose copy cannot be stored: the redirect went out, and the sender
    is told to try again, which sends it out once more. *)
Example redirected_and_refused :
  let '(answer, sent, copies) := filed [Redirect (bs "oma@home.example") 0; Keep [] 0] (fun _ => inr OtherStoreError) in
  answer = inr OtherStoreError /\ length sent = 1%nat /\ copies = [].
Proof. vm_compute. done. Qed.
End Filing.
