(* ===== verification/Receive.v ===== *)
(** * Mail that comes in (crates\/uwumail-smtp\/src\/inbound.rs, [receive])

    What happens to a message between the end of DATA and the mailboxes: the checks that turn it
    away, greylisting, and the loop over its recipients with forwarding, groups, masked addresses,
    traps, scripts and the mailbox, and the answer the sender gets. What DNS, the spam filter with
    its floating-point scores, the virus scanner and the store answer is in a [World]; what is done
    is a list of [Did]. [receive] is the function of the code from its first line to its last. *)

From stdpp Require Import sorting.
From S2P Require Import Prelude Utf8 Network SmtpHeaders Relay SmtpSession SenderLists Forwarding Filing.

Module Receive.
Import SmtpSession.Smtp Forwarding.Forwarding.

(** ** Data *)

Inductive Origin := Client (peer : IpAddr) (helo : list byte) | Fetched (checkable : option (IpAddr * list byte)).

Inductive Checked := Off | Clean | Found (name : list byte) | Unchecked (reason : list byte).

(** [spam::Outcome], and what a score says once its points are compared. *)
Inductive Outcome := Deliver | Suspicious | ToJunk | Refuse.

Record Score := { outcome : Outcome; on_its_own : Outcome; very_spammy : bool; nothing_against : bool; attributed : bool; score_headers : bool -> list byte }.

Inductive SpamAction := NoteDelivered | NoteJunk | NoteGreylist | NoteReject | NoteDmarc | NoteBlocked | NoteVirus | NoteSettled.
Inductive Stat := StatReceived | StatJunk | StatSpam | StatVirus | StatPolicy | StatGreylisted.
Inductive Place := InInbox | InJunk | InTrash.
Inductive Returning := Fresh | SettledBefore.

#[export] Instance outcome_eq_dec : EqDecision Outcome.
Proof. solve_decision. Defined.
#[export] Instance spam_action_eq_dec : EqDecision SpamAction.
Proof. solve_decision. Defined.
#[export] Instance place_eq_dec : EqDecision Place.
Proof. solve_decision. Defined.

Record Noted := { noted_address : list byte; noted_action : SpamAction; noted_mailbox : option (list byte) }.
#[export] Instance noted_eq_dec : EqDecision Noted.
Proof. solve_decision. Defined.

Record FailedRecipient := { failed_address : list byte; error : list byte }.

(** What is done. *)
Inductive Did :=
  | Stored (account : Z) (place : Place) (message : list byte)
  | Scripted (account : Z) (answer : Filing.Filed + Filing.StoreError) (sent : list Sent) (copies : list Filing.Copy)
  | Passed (account : option Z) (sent : list Sent)
  | Trapped | Reported (kind : ReportKind) (authenticated : bool) | Complained (authenticated : bool)
  | MaskedNoted (id : Z)
  | LabelWork (account : Z) | CodeKept (account : Z)
  | Returned (recipients : list (list byte)) (message : list byte)
  | Held (account : Z)
  | Hits (entries : list Z)
  | NotedAs (action : SpamAction) (recipients : list Noted)
  | Counted (stat : Stat)
  | Reputation (junk : bool) | Learnt (spam : bool)
  | FaceKept (from : list byte)
  | Replied (account : Z) (sent : list Sent)
  | Scheduled (account : Z) (verified_from : option (list byte))
  | Bounced (failed : list FailedRecipient).

Inductive Answer :=
  | Accepted | StorageFailure | GroupRefused | MailboxFull
  | RefusedDmarc (reason : list byte) | RefusedSender | RefusedVirus (name : list byte) | RefusedSpam | TryAgain (minutes : Z).

(** What the settings, the checks and the store answer. *)
Record World := {
  hostname : list byte; trusted_relays : list Relay.IpNetwork; verify_senders : bool; greylist_hold : bool; bayes : bool;
  verify : IpAddr * list byte -> Verdict; verify_signatures : Verdict; from_addresses : option (list (list byte));
  sender_of : option (IpAddr * list byte) -> option Verdict -> SenderLists.Sender; lists : SenderLists.Lists;
  scanned : Checked; scored : option Score; personal : Z -> list byte -> Outcome;
  detected : option bool; greylist_wait : list byte -> option Z; fast_lane : Z -> bool; held : Z -> bool;
  received_header : option (list byte) -> list byte;
  returning : Z -> option Returning; trash : nat -> Z + Filing.StoreError; account_login : Z -> option (list byte);
  forwards : nat -> Forwarding.World; script : Z -> option (list byte); skipped : nat -> option Filing.Skipped; filing : nat -> Filing.Store;
  label_keywords : Z -> list (list byte); for_sieve : list byte -> list (list byte) -> list byte;
  stores : nat -> Z + Filing.StoreError; auto_labels : Z -> bool; returns : bool; local_domain : list byte -> bool; face_png : list byte -> bool;
  itip : bool; vacation : Z -> option Vacation; replies : Z -> Forwarding.World }.

(** ** Before the recipients *)

(** [Origin::client] *)
Definition client_of (w : World) (origin : Origin) (raw : list byte) : option (IpAddr * list byte) :=
  match origin with
  | Client peer helo => if existsb (fun n => Relay.contains n peer) (trusted_relays w) then Relay.original_client raw (trusted_relays w) else Some (peer, helo)
  | Fetched checkable => checkable
  end.

(** [checks::rejecting], [from_domains] and [check_headers] *)
Definition rejecting (hostname reason : list byte) : Verdict := {|
  header := bs "Authentication-Results: " ++ hostname ++ bs "; none" ++ [x0d; x0a]; action := Reject reason; sender_verified := false; dmarc_passed := false;
  spf_failed := false; dkim_failed := false; dmarc_failed := true; from_domain := None; from_address := None; from_verified := false;
  face_signed := false; verification_signed := false |}.

Definition from_domains (addresses : list (list byte)) : nat :=
  length (remove_dups (to_ascii_lowercase <$> omap domain_of addresses)).

Definition check_headers (w : World) (raw : list byte) : option Verdict :=
  match Headers.header_block_fault raw with
  | Some reason => Some (rejecting (hostname w) reason)
  | None =>
      match from_addresses w with
      | Some addresses => if (1 <? from_domains addresses)%nat then Some (rejecting (hostname w) (bs "a message may have From addresses in only one domain")) else None
      | None => None
      end
  end.

Definition verdict_of (w : World) (origin : Origin) (client : option (IpAddr * list byte)) (raw : list byte) : option Verdict :=
  match client, origin with
  | Some c, _ => if verify_senders w then Some (verify w c) else check_headers w raw
  | None, Fetched _ => if verify_senders w then Some (verify_signatures w) else check_headers w raw
  | None, Client _ _ => check_headers w raw
  end.

(** [all_recipients] *)
Definition all_recipients (rs : list Recipient) (action : SpamAction) : list Noted :=
  foldl (fun noted r => if existsb (fun n => bool_decide (noted_address n = rcpt_address r)) noted then noted
    else noted ++ [{| noted_address := rcpt_address r; noted_action := action; noted_mailbox := None |}]) [] rs.

Definition decisions_of (w : World) (s : SenderLists.Sender) (rs : list Recipient) : list SenderLists.Decision :=
  let targets := omap (fun r => '(_, d) ← rsplit_once "@"%byte (rcpt_address r); a ← local_account r; Some (a, d)) rs in
  let lists := if bool_decide (targets = []) then {| SenderLists.entries := []; SenderLists.hosts := [] |} else lists w in
  (fun r => match local_account r, rsplit_once "@"%byte (rcpt_address r) with
            | Some account, Some (_, domain) => SenderLists.decide_ lists s account domain
            | _, _ => SenderLists.NoDecision end) <$> rs.

Definition entry_of (d : SenderLists.Decision) : option SenderLists.SenderListEntry :=
  match d with SenderLists.NoDecision => None | SenderLists.Allowed e | SenderLists.Junk e | SenderLists.Reject e => Some e end.

Definition is_allow (d : SenderLists.Decision) : bool := match d with SenderLists.Allowed _ => true | _ => false end.
Definition is_reject (d : SenderLists.Decision) : bool := match d with SenderLists.Reject _ => true | _ => false end.

(** What the score means for one person, where nothing else decided. *)
Definition personal_of (w : World) (quarantined : bool) (r : Recipient) (d : SenderLists.Decision) : option Outcome :=
  match scored w, local_account r, d with
  | Some _, Some account, SenderLists.NoDecision =>
      if quarantined then None else Some (personal w account (default [] (domain_of (rcpt_address r))))
  | _, _, _ => None
  end.

Definition refuses (junk : bool) (r : Recipient) (d : SenderLists.Decision) (theirs : option Outcome) : bool :=
  match d with
  | SenderLists.Reject _ => true
  | SenderLists.NoDecision =>
      if decide (is_Some (forward_to r)) then junk
      else bool_decide (srs_return r = None) && bool_decide (report r = None) && bool_decide (theirs = Some Refuse)
  | _ => false
  end.

(** *** Greylisting *)

(** The first loop: who waits, and who a signed code might carry past. *)
Fixpoint waits (w : World) (code : bool) (rds : list (Recipient * SenderLists.Decision)) : list Z * list (Recipient * Z) :=
  match rds with
  | [] => ([], [])
  | (r, d) :: rds =>
      let '(waiting, lane) := waits w code rds in
      if is_allow d || trap r then (waiting, lane)
      else
        match (if code then local_account r else None) with
        | Some account => (waiting, (r, account) :: lane)
        | None => (option_list (greylist_wait w (rcpt_address r)) ++ waiting, lane)
        end
  end.

(** The second loop: how many the lane lets through, and who waits after all. *)
Fixpoint lane (w : World) (open : bool) (taken : list Z) (ras : list (Recipient * Z)) : nat * list Z :=
  match ras with
  | [] => (0%nat, [])
  | (r, account) :: ras =>
      if open && (bool_decide (account ∈ taken) || fast_lane w account) then
        let '(laned, waiting) := lane w true (taken ++ [account]) ras in (S laned, waiting)
      else
        let '(laned, waiting) := lane w false taken ras in (laned, option_list (greylist_wait w (rcpt_address r)) ++ waiting)
  end.

Definition eligible (rs : list Recipient) : nat := length (List.filter (fun r => negb (trap r)) rs).

Definition least (l : list Z) : option Z := match l with [] => None | a :: l => Some (foldl Z.min a l) end.

(** How long everybody is asked to wait, when everybody is. *)
Definition greylisted (w : World) (code : bool) (rs : list Recipient) (ds : list SenderLists.Decision) : option Z :=
  let '(waiting, fast) := waits w code (zip rs ds) in
  let others := (eligible rs - length fast)%nat in
  let '(laned, more) := lane w (bool_decide (others = 0%nat)) [] fast in
  if negb (existsb is_allow ds) && (0 <? eligible rs)%nat && bool_decide (length (waiting ++ more) + laned = eligible rs)%nat then least (waiting ++ more) else None.

Definition MAX_HELD_SIZE : Z := 5 * 1024 * 1024.
Definition MAX_MESSAGE : Z := 1024 * 1024.

(** [hold_greylisted]: the accounts it was kept for. *)
Definition hold_greylisted (w : World) (rs : list Recipient) (message : list byte) : list Did :=
  if MAX_HELD_SIZE <? Z.of_nat (length message) then [] else Held <$> List.filter (held w) (omap local_account rs).

(** ** The loop over the recipients *)

Record Loop := {
  delivered : nat; inbox_accounts : list Z; failed : list FailedRecipient; temporary : bool; seen : list Z; returned : list (list byte);
  groups_reached : list (list byte); groups_failed : list (list byte * FailedRecipient); group_refused : bool; noted : list Noted; did : list Did }.

Definition begin_loop : Loop := {|
  delivered := 0; inbox_accounts := []; failed := []; temporary := false; seen := []; returned := [];
  groups_reached := []; groups_failed := []; group_refused := false; noted := []; did := [] |}.

Definition did_ (x : list Did) (l : Loop) : Loop := {|
  delivered := delivered l; inbox_accounts := inbox_accounts l; failed := failed l; temporary := temporary l; seen := seen l; returned := returned l;
  groups_reached := groups_reached l; groups_failed := groups_failed l; group_refused := group_refused l; noted := noted l; did := did l ++ x |}.

(** One more recipient has it; [inbox]: in a mailbox, so that it may be answered. *)
Definition count_delivered (inbox : option Z) (g : option GroupEntry) (l : Loop) : Loop := {|
  delivered := S (delivered l); inbox_accounts := inbox_accounts l ++ option_list inbox; failed := failed l; temporary := temporary l; seen := seen l; returned := returned l;
  groups_reached := groups_reached l ++ option_list (entry_address <$> g); groups_failed := groups_failed l; group_refused := group_refused l; noted := noted l; did := did l |}.

Definition reach (g : option GroupEntry) (l : Loop) : Loop := {|
  delivered := delivered l; inbox_accounts := inbox_accounts l; failed := failed l; temporary := temporary l; seen := seen l; returned := returned l;
  groups_reached := groups_reached l ++ option_list (entry_address <$> g); groups_failed := groups_failed l; group_refused := group_refused l; noted := noted l; did := did l |}.

Definition push_returned (original : list byte) (l : Loop) : Loop := {|
  delivered := delivered l; inbox_accounts := inbox_accounts l; failed := failed l; temporary := temporary l; seen := seen l; returned := returned l ++ [original];
  groups_reached := groups_reached l; groups_failed := groups_failed l; group_refused := group_refused l; noted := noted l; did := did l |}.

Definition push_seen (account : Z) (l : Loop) : Loop := {|
  delivered := delivered l; inbox_accounts := inbox_accounts l; failed := failed l; temporary := temporary l; seen := seen l ++ [account]; returned := returned l;
  groups_reached := groups_reached l; groups_failed := groups_failed l; group_refused := group_refused l; noted := noted l; did := did l |}.

Definition refuse_group (l : Loop) : Loop := {|
  delivered := delivered l; inbox_accounts := inbox_accounts l; failed := failed l; temporary := temporary l; seen := seen l; returned := returned l;
  groups_reached := groups_reached l; groups_failed := groups_failed l; group_refused := true; noted := noted l; did := did l |}.

(** [note_for] *)
Definition note_for (address : list byte) (a : SpamAction) (mailbox : option (list byte)) (l : Loop) : Loop :=
  let n := {| noted_address := address; noted_action := a; noted_mailbox := mailbox |} in
  {| delivered := delivered l; inbox_accounts := inbox_accounts l; failed := failed l; temporary := temporary l; seen := seen l; returned := returned l;
     groups_reached := groups_reached l; groups_failed := groups_failed l; group_refused := group_refused l;
     noted := if bool_decide (n ∈ noted l) then noted l else noted l ++ [n]; did := did l |}.

Definition FULL : list byte := bs "552 5.2.2 Mailbox is full".
Definition STORAGE : list byte := bs "451 4.3.0 Temporary storage failure".

(** A recipient who cannot have it: told of, or left to their group. *)
Definition fail_ (address : list byte) (g : option GroupEntry) (e : Filing.StoreError) (l : Loop) : Loop :=
  let error := match e with Filing.QuotaExceeded => FULL | Filing.OtherStoreError => STORAGE end in
  let failure := {| failed_address := address; error := error |} in
  {| delivered := delivered l; inbox_accounts := inbox_accounts l; failed := failed l ++ match g with None => [failure] | Some _ => [] end;
     temporary := temporary l || match e with Filing.QuotaExceeded => false | Filing.OtherStoreError => true end; seen := seen l; returned := returned l;
     groups_reached := groups_reached l; groups_failed := groups_failed l ++ match g with Some g => [(entry_address g, failure)] | None => [] end;
     group_refused := group_refused l; noted := noted l; did := did l |}.

(** What holds for the message as a whole. *)
Record Facts := {
  w : World; env_from : list byte; raw : list byte; message : list byte; verdict : option Verdict; junk : bool; server_rejects : bool; hashed : bool; code : bool }.

Definition proof_ (f : Facts) : Proof_ := proof_of (verdict f).
Definition dmarc (f : Facts) : bool := match verdict f with Some v => dmarc_passed v | None => false end.
Definition verified (f : Facts) : bool := match verdict f with Some v => sender_verified v | None => true end.

Section loop.
(** What [Forwarding] and [Filing] take of third-party code. *)
Context (digest : list byte -> list byte -> list byte) (domain_str : list byte -> option (list byte))
  (to_lowercase : list byte -> list byte) (domain_to_ascii : list byte -> option (list byte)) (compiles : list byte -> bool)
  (engine : list byte -> list byte -> list byte * list byte -> (list Filing.SieveMailbox -> list (list byte) -> bool) -> list Filing.SieveAction * Filing.RunEnd).

(** Whether the message goes to Junk for a person: what a list says, else their own filter, else the server. *)
Definition junk_for (f : Facts) (d : SenderLists.Decision) (theirs : option Outcome) : bool :=
  match d with
  | SenderLists.NoDecision => match theirs with Some o => bool_decide (o = ToJunk \/ o = Refuse) | None => junk f end
  | _ => negb (is_allow d)
  end.

Definition mailbox_name (j : bool) : list byte := if j then bs "junk" else bs "inbox".

(** What the person's script or the mailbox makes of it: where it is, whether it stayed, and what was done. *)
Definition store_for (f : Facts) (n : nat) (r : Recipient) (account : Z) (j : bool) : (option (list byte) * bool + Filing.StoreError) * list Did :=
  let labels := if j then [] else label_keywords (w f) account in
  match (if j then None else script (w f) account) with
  | Some s =>
      let '(answer, sent, copies) :=
        Filing.deliver digest domain_str to_lowercase domain_to_ascii compiles engine (skipped (w f) n) s (for_sieve (w f) (message f) labels)
          (forwards (w f) n) (filing (w f) n) account (rcpt_address r) (env_from f) (message f) labels (proof_ f) in
      (match answer with inl filed => inl (Filing.filed_mailbox filed, Filing.filed_stored filed) | inr e => inr e end, [Scripted account answer sent copies])
  | None =>
      match stores (w f) n with
      | inl _ => (inl (Some (mailbox_name j), true), [Stored account (if j then InJunk else InInbox) (message f)])
      | inr e => (inr e, [])
      end
  end.

(** A message for a person: passed on, and filed when it stays. *)
Definition file (f : Facts) (n : nat) (r : Recipient) (account : Z) (j : bool) (l : Loop) : Loop :=
  let plan := if j then {| keep_copy := true; targets := [] |} else Forwarding.plan (forwards (w f) n) account in
  let '(forwarded, l) :=
    match (if bool_decide (targets plan = []) then None else account_login (w f) account) with
    | Some login =>
        let forwarder := {| forwarder_name := login; forwarder_account := Some account; proof := proof_ f; smtp_delivered := true |} in
        let '(reached, sent) := send digest domain_str (forwards (w f) n) forwarder (rcpt_address r) (env_from f) (message f) (targets plan) in
        (reached, did_ [Passed (Some account) sent] l)
    | None => (false, l)
    end in
  if negb (keep_copy plan) && forwarded then count_delivered (Some account) (group r) (note_for (rcpt_address r) NoteDelivered None l)
  else
    let '(stored, now) := store_for f n r account j in
    let l := did_ now l in
    match stored with
    | inl (mailbox, kept) =>
        let l := if negb j && kept then did_ ((if auto_labels (w f) account then [LabelWork account] else []) ++ (if code f then [CodeKept account] else [])) l else l in
        count_delivered (if negb j && kept then Some account else None) (group r) (note_for (rcpt_address r) (if j then NoteJunk else NoteDelivered) mailbox l)
    | inr e => fail_ (rcpt_address r) (group r) e l
    end.

(** A recipient who is a person here. *)
Definition for_account (f : Facts) (n : nat) (r : Recipient) (account : Z) (d : SenderLists.Decision) (theirs : option Outcome) (l : Loop) : Loop :=
  let note_masked := match masked r with Some m => [MaskedNoted (masked_id m)] | None => [] end in
  if bool_decide (account ∈ seen l) then did_ note_masked (reach (group r) l)
  else
    let l := push_seen account l in
    if hashed f && match returning (w f) account with Some SettledBefore => true | _ => false end then
      count_delivered None (group r) (note_for (rcpt_address r) NoteSettled None l)
    else
      let l := did_ note_masked l in
      if match masked r with Some m => match masked_state m with Masked.Disabled => true | _ => false end | None => false end then
        match trash (w f) n with
        | inl _ => count_delivered None None (note_for (rcpt_address r) NoteDelivered (Some (bs "trash")) (did_ [Stored account InTrash (message f)] l))
        | inr e => fail_ (rcpt_address r) None e l
        end
      else file f n r account (junk_for f d theirs) l.

(** One turn of the loop; [n] counts the turns. *)
Definition deliver_one (f : Facts) (n : nat) (r : Recipient) (d : SenderLists.Decision) (theirs : option Outcome) (l : Loop) : Loop :=
  match srs_return r with
  | Some original => push_returned original l
  | None =>
      if trap r then count_delivered None None (note_for (rcpt_address r) NoteJunk None (did_ (if bayes (w f) then [Trapped] else []) l))
      else
        match report r with
        | Some kind => count_delivered None None (did_ [Reported kind (dmarc f)] l)
        | None =>
            match forward_to r with
            | Some ts =>
                let passed :=
                  if junk f then []
                  else
                    let forwarder := {| forwarder_name := rcpt_address r; forwarder_account := None; proof := proof_ f; smtp_delivered := true |} in
                    [Passed None (send digest domain_str (forwards (w f) n) forwarder (rcpt_address r) (env_from f) (message f) ts).2] in
                count_delivered None None (note_for (rcpt_address r) (if junk f then NoteJunk else NoteDelivered) None (did_ passed l))
            | None =>
                match local_account r with
                | None => l
                | Some account =>
                    if server_rejects f then note_for (rcpt_address r) NoteReject None l
                    else
                      match group r with
                      | Some g =>
                          if existsb (fun s => eq_ignore_ascii_case s (entry_address g) || eq_ignore_ascii_case s (rcpt_address r)) (Headers.values (raw f) (bs "Delivered-To"))
                          then count_delivered None (Some g) l
                          else if restricted g && negb (verified f) then refuse_group l
                          else for_account f n r account d theirs l
                      | None => for_account f n r account d theirs l
                      end
                end
            end
        end
  end.

Fixpoint deliver_all (f : Facts) (n : nat) (rs : list (Recipient * SenderLists.Decision * option Outcome)) (l : Loop) : Loop :=
  match rs with
  | [] => l
  | (r, d, theirs) :: rs => deliver_all f (S n) rs (deliver_one f n r d theirs l)
  end.

(** ** The whole message *)

(** [clamav::header] *)
Definition scan_header (c : Checked) : list byte :=
  match c with
  | Off | Found _ => []
  | Clean => bs "X-Virus-Scanned: yes (ClamAV)" ++ [x0d; x0a]
  | Unchecked reason => bs "X-Virus-Scanned: no (" ++ reason ++ bs ")" ++ [x0d; x0a]
  end.

(** What of the message is kept below our own headers. *)
Definition cleaned (c : Checked) (raw : list byte) : list byte :=
  let raw := Headers.strip_spam_verdicts raw in
  let raw := if bool_decide (Headers.values raw Headers.LABEL_HEADER = []) then raw else Headers.strip_label_headers raw in
  match c with Off => raw | _ => Headers.strip_virus_verdicts raw end.

(** A group nobody could get the message through fails like one person would. *)
Definition fail_groups (l : Loop) : list FailedRecipient :=
  foldl (fun failed gf => if bool_decide (fst gf ∈ groups_reached l) || existsb (fun known => bool_decide (failed_address known = failed_address (snd gf))) failed
    then failed else failed ++ [snd gf]) (failed l) (groups_failed l).

(** [single_face]: the one Face header that is small enough. *)
Definition MAX_FACE_HEADER_BYTES : nat := 4096.
Definition single_face (raw : list byte) : option (list byte) :=
  match List.filter (Headers.is_named (bs "Face")) (Headers.split raw).1 with
  | [face] => if (MAX_FACE_HEADER_BYTES <? length (Headers.raw face))%nat then None else Some (Headers.value face)
  | _ => None
  end.

Definition face_of (f : Facts) : list Did :=
  if junk f then []
  else
    match (v ← verdict f; if dmarc_passed v && face_signed v then from_address v else None), single_face (raw f) with
    | Some from, Some value =>
        match rsplit_once "@"%byte from with
        | Some (_, domain) => if negb (local_domain (w f) domain) && face_png (w f) value then [FaceKept from] else []
        | None => []
        end
    | _, _ => []
    end.

(** What the sender's reputation and the filter learn of a message that arrived. *)
Definition learn (f : Facts) (quarantined allowed : bool) : list Did :=
  match scored (w f) with
  | Some s =>
      if attributed s then
        let wanted := negb (junk f) && dmarc f && nothing_against s in
        let spam := very_spammy s && negb allowed in
        Reputation (quarantined || bool_decide (on_its_own s = ToJunk \/ on_its_own s = Refuse))
        :: if bayes (w f) && (spam || wanted) then [Learnt spam] else []
      else []
  | None => []
  end.

(** The end of [receive]: what is done once every recipient had a turn, and the answer. *)
Definition finish (f : Facts) (quarantined allowed : bool) (l : Loop) : Answer * list Did :=
  let failed := fail_groups l in
  let '(l, back) :=
    if bool_decide (returned l = []) then (l, [])
    else if returns (w f) then (Nat.iter (length (returned l)) (count_delivered None None) l, [Returned (returned l) (message f)])
    else (l, []) in
  let temporary := temporary l || (negb (bool_decide (returned l = [])) && negb (returns (w f))) in
  if bool_decide (delivered l = 0%nat) then
    (if temporary then StorageFailure else if group_refused l then GroupRefused else MailboxFull, did l ++ back)
  else
    let junked := existsb (fun n => bool_decide (noted_action n = NoteJunk)) (noted l) in
    let notes := Counted StatReceived :: (if junked then [Counted StatJunk] else []) ++ [NotedAs (if junked then NoteJunk else NoteDelivered) (noted l)] in
    let verified_from := v ← verdict f; if from_verified v || dmarc_passed v then from_address v else None in
    let answers := inbox_accounts l ≫= fun account =>
      Replied account (maybe_reply (replies (w f) account) (vacation (w f) account) account (env_from f) (verified f) (message f))
      :: if itip (w f) then [Scheduled account verified_from] else [] in
    let bounces := if negb (bool_decide (failed = [])) && verified f then [Bounced failed] else [] in
    (Accepted, did l ++ back ++ notes ++ learn f quarantined allowed ++ face_of f ++ answers ++ bounces).

(** [abuse::is_abuse_address], and the desk whose complaints are read on the side. *)
Definition is_abuse_address (address : list byte) : bool :=
  match split_once "@"%byte address with Some (local, _) => eq_ignore_ascii_case local (bs "abuse") | None => false end.

Definition complaint (f : Facts) (rs : list Recipient) : list Did :=
  if existsb (fun r => negb (trap r) && bool_decide (srs_return r = None) && bool_decide (report r = None) && is_abuse_address (rcpt_address r)) rs
  then [Complained (dmarc f)] else [].

(** Who sent the message, and what the checks find about it. *)
Definition judge (w : World) (origin : Origin) (raw : list byte) : option (IpAddr * list byte) * option Verdict :=
  let client := client_of w origin raw in (client, verdict_of w origin client raw).

(** [receive] *)
Definition receive (w : World) (origin : Origin) (env_from : list byte) (rs : list Recipient) (raw : list byte) : Answer * list Did :=
  let raw := Headers.strip_forged_auth_results raw (hostname w) in
  let '(client, verdict) := judge w origin raw in
  match (v ← verdict; match action v with Reject reason => Some reason | _ => None end) with
  | Some reason => (RefusedDmarc reason, [NotedAs NoteDmarc (all_recipients rs NoteDmarc); Counted StatPolicy])
  | None =>
      let decisions := decisions_of w (sender_of w client verdict) rs in
      let decided := merge_sort Z.le (remove_dups (SenderLists.id <$> omap entry_of decisions)) in
      let hits := if bool_decide (decided = []) then [] else [Hits decided] in
      if negb (bool_decide (decisions = [])) && forallb is_reject decisions then
        (RefusedSender, hits ++ [NotedAs NoteBlocked (all_recipients rs NoteBlocked); Counted StatPolicy])
      else
        let allowed := existsb is_allow decisions in
        match scanned w with
        | Found name => (RefusedVirus name, hits ++ [NotedAs NoteVirus (all_recipients rs NoteVirus); Counted StatVirus])
        | checked =>
            let outcome := match scored w with Some s => outcome s | None => Deliver end in
            let quarantined := match verdict with Some v => match action v with Quarantine => true | _ => false end | None => false end in
            let junk := quarantined || bool_decide (outcome = ToJunk \/ outcome = Refuse) in
            let theirs := (fun rd => personal_of w quarantined rd.1 rd.2) <$> zip rs decisions in
            let everyone_refuses := negb (bool_decide (rs = [])) && forallb (fun rdt => refuses junk rdt.1.1 rdt.1.2 rdt.2) (zip (zip rs decisions) theirs) in
            let server_rejects := bool_decide (outcome = Refuse) && negb allowed in
            if (server_rejects && negb (existsb trap rs)) || everyone_refuses then
              (RefusedSpam, hits ++ [NotedAs NoteReject (all_recipients rs NoteReject); Counted StatSpam])
            else
              let code := match verdict with Some _ => if Z.of_nat (length raw) <=? MAX_MESSAGE then detected w else None | None => None end in
              let raw := cleaned checked raw in
              let single := match rs with [r] => Some (rcpt_address r) | _ => None end in
              let message := received_header w single ++ match verdict with Some v => header v | None => [] end ++ scan_header checked
                ++ match scored w with Some s => score_headers s junk | None => [] end ++ raw in
              match (if bool_decide (outcome = Suspicious) && bool_decide (is_Some client) then greylisted w (default false code) rs decisions else None) with
              | Some seconds =>
                  (TryAgain (Z.max ((seconds + 59) / 60) 1),
                   hits ++ [NotedAs NoteGreylist (all_recipients rs NoteGreylist)] ++ (if greylist_hold w then hold_greylisted w rs message else []) ++ [Counted StatGreylisted])
              | None =>
                  let f := {| w := w; env_from := env_from; raw := raw; message := message; verdict := verdict; junk := junk;
                              server_rejects := server_rejects; hashed := greylist_hold w; code := bool_decide (is_Some code) |} in
                  finish f quarantined allowed (deliver_all f 0 (zip (zip rs decisions) theirs) (did_ (hits ++ complaint f rs) begin_loop))
              end
        end
  end.
End loop.

(** What the client is told. *)
Definition answer_text (id : list byte) (a : Answer) : list byte :=
  match a with
  | Accepted => bs "250 2.0.0 Message accepted as " ++ id
  | StorageFailure => bs "451 4.3.0 Temporary storage failure, please try again later"
  | GroupRefused => bs "550 5.7.1 This group only takes mail from certain senders, and this one could not be verified"
  | MailboxFull => bs "552 5.2.2 Mailbox is full"
  | RefusedDmarc reason => bs "550 5.7.1 " ++ reason
  | RefusedSender => bs "550 5.7.1 Mail from this sender is not accepted here"
  | RefusedVirus name => bs "554 5.7.0 This message contains " ++ name
  | RefusedSpam => bs "550 5.7.1 This message looks like spam"
  | TryAgain minutes => bs "451 4.7.1 Please try again in " ++ dec minutes ++ bs " minutes"
  end ++ [x0d; x0a].

End Receive.
