(* ===== verification/ReceiveSafe.v ===== *)
(** * What holds of mail that comes in

    Whatever the checks, the filter, the scripts and the store answer: mail that is not taken is
    in no mailbox, a person gets a message once, mail that is junk for somebody goes nowhere
    else, and each person a message was taken for has it, or the sender is told, or it is said
    here why neither. *)

From stdpp Require Import sorting.
From S2P Require Import Prelude Utf8 Network SmtpHeaders SmtpSession SenderLists Forwarding Filing Receive.

Module ReceiveSafe.
Import SmtpSession.Smtp Forwarding.Forwarding Receive.Receive.

(** ** What a turn of the loop does *)

(** The accounts whose mailbox or script was asked, those with the message in Junk, and those
    whose forwarding passed it on. *)
Definition keeper (x : Did) : option Z := match x with Stored a _ _ | Scripted a _ _ _ => Some a | _ => None end.
Definition junked (x : Did) : option Z := match x with Stored a InJunk _ => Some a | _ => None end.
Definition passer (x : Did) : option Z := match x with Passed a _ => a | _ => None end.
Definition replier (x : Did) : option Z := match x with Replied a _ => Some a | _ => None end.
Definition is_passed (x : Did) : bool := match x with Passed _ _ => true | _ => false end.
Definition passed_for_nobody (x : Did) : bool := match x with Passed None _ => true | _ => false end.

(** What may happen for mail that is not taken: nothing is stored, learned, queued or answered
    by the server. A script whose copy could not be stored may have passed it on, and so may
    the forwarding of a person for whom [failed_for] says the same. *)
Definition harmless (failed_for : Z -> Prop) (x : Did) : Prop :=
  match x with
  | Scripted _ answer _ copies => copies = [] /\ exists e, answer = inr e
  | Passed (Some a) _ => failed_for a
  | MaskedNoted _ | Complained _ | Held _ | Hits _ | NotedAs _ _ | Counted _ => True
  | _ => False
  end.

(** The message is in the mailbox of [a], or with the script of [a], or it was passed on. *)
Definition has (a : Z) (x : Did) : Prop :=
  match x with Stored b _ _ => b = a | Scripted b (inl _) _ _ => b = a | Passed (Some b) sent => b = a /\ sent <> [] | _ => False end.

(** The store did not take it in turn [n], for [a]: the mailbox, the Trash, or the folders of a
    script. *)
Definition store_failed (w : World) (log : list Did) (n : nat) (a : Z) : Prop :=
  (exists e, stores w n = inr e \/ trash w n = inr e) \/ exists e sent, Scripted a (inr e) sent [] ∈ log.

(** The turn of one of the recipients, who is [a]. *)
Definition failed_for (w : World) (log : list Did) (rs : list Recipient) (a : Z) : Prop :=
  exists n r, rs !! n = Some r /\ local_account r = Some a /\ store_failed w log n a.

Lemma harmless_mono (P Q : Z -> Prop) xs : (forall a, P a -> Q a) -> Forall (harmless P) xs -> Forall (harmless Q) xs.
Proof. intros H Hx. eapply Forall_impl; [exact Hx|]. intros x. destruct x as [| |[a|]| | | | | | | | | | | | | | | | | ]; cbn; auto. Qed.

Lemma store_failed_mono w log log' n a : log ⊆ log' -> store_failed w log n a -> store_failed w log' n a.
Proof. intros H [?|(e & sent & Hin)]; [by left|right]. exists e, sent. by apply H. Qed.

Lemma failed_for_mono w log log' rs rs' a : log ⊆ log' -> failed_for w log rs a -> failed_for w log' (rs ++ rs') a.
Proof. intros H (n & r & Hr & Ha & Hf). exists n, r. split_and!; [by apply lookup_app_l_Some|done|by eapply store_failed_mono]. Qed.

Section turns.
Context (digest : list byte -> list byte -> list byte) (domain_str : list byte -> option (list byte))
  (to_lowercase : list byte -> list byte) (domain_to_ascii : list byte -> option (list byte)) (compiles : list byte -> bool)
  (engine : list byte -> list byte -> list byte * list byte -> (list Filing.SieveMailbox -> list (list byte) -> bool) -> list Filing.SieveAction * Filing.RunEnd).

Notation one := (deliver_one digest domain_str to_lowercase domain_to_ascii compiles engine).
Notation all := (deliver_all digest domain_str to_lowercase domain_to_ascii compiles engine).
Notation person := (for_account digest domain_str to_lowercase domain_to_ascii compiles engine).
Notation stored_for := (store_for digest domain_str to_lowercase domain_to_ascii compiles engine).
Notation filed := (file digest domain_str to_lowercase domain_to_ascii compiles engine).

(** How turn [n] for the account [a], or for nobody here, changes what is known; [x] is what it
    does, [s] the account that is seen from now on. *)
Record turned (f : Facts) (n : nat) (a : option Z) (s : list Z) (x : list Did) (l l' : Loop) : Prop := {
  turned_did : did l' = did l ++ x;
  turned_seen : seen l' = seen l ++ s;
  turned_keepers : omap keeper x `sublist_of` option_list a;
  turned_passers : omap passer x `sublist_of` option_list a;
  turned_inbox : exists i, inbox_accounts l' = inbox_accounts l ++ i /\ i `sublist_of` option_list a;
  turned_replied : omap replier x = [];
  turned_junk : omap junked x <> [] -> omap passer x = [] /\ inbox_accounts l' = inbox_accounts l;
  turned_rejected : server_rejects f = true -> junk f = true -> omap keeper x = [] /\ existsb is_passed x = false;
  turned_bad : junk f = true -> existsb passed_for_nobody x = false;
  turned_more : (delivered l <= delivered l')%nat;
  turned_harmless : delivered l' = delivered l -> Forall (harmless (fun b => a = Some b /\ store_failed (w f) x n b)) x;
  turned_failed : exists fs, failed l' = failed l ++ fs;
  turned_groups : exists gs, groups_failed l' = groups_failed l ++ gs }.

Ltac turn := split; cbn; rewrite ?app_nil_r, <- ?app_assoc; try done; try lia; try (by repeat constructor); try (by eexists); try (by eexists [_]);
  try (by eexists; split; [|by apply sublist_nil_l]; rewrite ?app_nil_r); try (by eexists [_]; split; [|repeat constructor]); try (by exists []; rewrite app_nil_r).

Lemma store_for_spec f n r a j stored x : stored_for f n r a j = (stored, x) ->
  match stored with
  | inl _ => exists z, x = [z] /\ keeper z = Some a /\ passer z = None /\ is_passed z = false /\ (is_Some (junked z) -> j = true) /\ replier z = None /\ has a z
  | inr e => x = [] /\ stores (w f) n = inr e \/ exists sent, x = [Scripted a (inr e) sent []]
  end.
Proof.
  unfold store_for. destruct (if j then None else script (w f) a) as [s|] eqn:Hs.
  - destruct (Filing.deliver _ _ _ _ _ _ _ _ _ _ _ _ _ _ _ _ _) as [[answer sent] copies] eqn:Hd. intros [= <- <-]. destruct answer as [filed|e].
    + eexists. split_and!; try done. by intros [].
    + apply Filing.deliver_failed in Hd as ->. right. by eexists.
  - destruct (stores (w f) n); intros [= <- <-]; [|left; by split]. eexists. split_and!; try done. cbn. by destruct j; [|intros []].
Qed.

(** What is done once a message stays: filing, with the work that follows. *)
Lemma filed_turned f n r a j p l : server_rejects f = false -> (p = [] \/ j = false /\ exists sent, p = [Passed (Some a) sent]) ->
  exists x, turned f n (Some a) [] (p ++ x) l (
    let '(stored, now) := stored_for f n r a j in
    let l := did_ now (did_ p l) in
    match stored with
    | inl (mailbox, kept) =>
        let l := if negb j && kept then did_ ((if auto_labels (w f) a then [LabelWork a] else []) ++ (if code f then [CodeKept a] else [])) l else l in
        count_delivered (if negb j && kept then Some a else None) (group r) (note_for (rcpt_address r) (if j then NoteJunk else NoteDelivered) mailbox l)
    | inr e => fail_ (rcpt_address r) (group r) e l
    end).
Proof.
  intros Hr Hp. destruct (stored_for f n r a j) as [stored now] eqn:Hs. apply store_for_spec in Hs. destruct stored as [[mailbox kept]|e].
  - destruct Hs as (z & -> & Hz & Hpz & Hnp & Hj & Hrz & _). set (work := _ ++ _).
    assert (omap replier work = [] /\ omap keeper work = [] /\ omap passer work = [] /\ omap junked work = [] /\ existsb is_passed work = false /\ existsb passed_for_nobody work = false) as (Hw0 & Hw1 & Hw2 & Hw3 & Hw4 & Hw5)
      by (unfold work; by destruct (auto_labels (w f) a), (code f)).
    set (done_ := if negb j && kept then work else []).
    assert (Forall (fun e => e = []) [omap keeper done_; omap passer done_; omap junked done_]) as Hd by (unfold done_; destruct (_ && _); rewrite ?Hw1, ?Hw2, ?Hw3; repeat constructor).
    apply Forall_cons in Hd as [Hd1 [Hd2 [Hd3 _]%Forall_cons]%Forall_cons].
    exists ([z] ++ done_). assert (passed_for_nobody z = false) as Hnz by (by destruct z).
    assert (existsb passed_for_nobody done_ = false) as Hd5 by (unfold done_; by destruct (_ && _)).
    split; try (cbn; rewrite ?app_nil_r; done).
    + unfold done_. destruct (negb j && kept); cbn; by rewrite <- ?app_assoc.
    + unfold done_. destruct (negb j && kept); cbn; by rewrite ?app_nil_r.
    + rewrite !omap_app. cbn. rewrite Hz, Hd1. destruct Hp as [->|[_ [sent ->]]]; repeat constructor.
    + rewrite !omap_app. cbn. rewrite Hpz, Hd2. destruct Hp as [->|[_ [sent ->]]]; repeat constructor.
    + exists (option_list (if negb j && kept then Some a else None)). split; [by destruct (negb j && kept)|]. destruct (negb j && kept); [done|]. by apply sublist_nil_l.
    + rewrite !omap_app. cbn. rewrite Hrz. assert (omap replier done_ = []) as -> by (unfold done_; by destruct (negb j && kept)). by destruct Hp as [->|[_ [sent ->]]].
    + rewrite !omap_app. cbn. rewrite Hd3, app_nil_r. intros Hjunk. assert (j = true) as ->.
      { destruct Hp as [->|[_ [sent ->]]]; cbn in Hjunk; (destruct (junked z); [by apply Hj|done]). }
      destruct Hp as [->|[? _]]; [|done]. rewrite Hpz, Hd2. cbn. by rewrite app_nil_r.
    + rewrite Hr. done.
    + intros _. rewrite !existsb_app. cbn. rewrite Hnz, Hd5. by destruct Hp as [->|[_ [sent ->]]].
    + destruct (negb j && kept); cbn; lia.
    + destruct (negb j && kept); cbn; lia.
    + exists []. destruct (negb j && kept); cbn; by rewrite app_nil_r.
    + exists []. destruct (negb j && kept); cbn; by rewrite app_nil_r.
  - exists now. assert (omap keeper now `sublist_of` [a] /\ omap passer now = [] /\ omap junked now = [] /\ existsb passed_for_nobody now = false /\ forall P, Forall (harmless P) now) as (H1 & H2 & H3 & H4 & H5).
    { destruct Hs as [[-> _]|[sent ->]]; cbn; split_and!; try done; try by repeat constructor. intros P. constructor; [|done]. split; [done|by eexists]. }
    split; cbn; rewrite ?app_nil_r, ?Hr; try done; try lia.
    + by rewrite <- app_assoc.
    + rewrite omap_app. destruct Hp as [->|[_ [sent ->]]]; done.
    + rewrite omap_app, H2, app_nil_r. destruct Hp as [->|[_ [sent ->]]]; repeat constructor.
    + exists []. rewrite app_nil_r. split; [done|apply sublist_nil_l].
    + rewrite omap_app. assert (omap replier now = []) as -> by (by destruct Hs as [[-> _]|[sent ->]]). by destruct Hp as [->|[_ [sent ->]]].
    + rewrite omap_app, H3, app_nil_r. by destruct Hp as [->|[_ [sent ->]]].
    + intros _. rewrite existsb_app, H4. by destruct Hp as [->|[_ [sent ->]]].
    + intros _. apply Forall_app. split; [|done]. destruct Hp as [->|[_ [sent ->]]]; [constructor|]. constructor; [|constructor]. split; [done|].
      destruct Hs as [[-> Hs]|[sent' ->]]; [left; exists e; by left|right]. exists e, sent'. set_solver.
    + by eexists.
    + by eexists.
Qed.

Lemma file_turned f n r a j l : server_rejects f = false -> exists x, turned f n (Some a) [] x l (filed f n r a j l).
Proof.
  intros Hr. unfold file. set (plan := if j then _ else _).
  destruct (if bool_decide (targets plan = []) then None else account_login (w f) a) as [login|] eqn:Hlogin.
  - assert (j = false) as Hj by (by destruct j). destruct (send _ _ _ _ _ _ _ _) as [reached sent]. destruct (negb (keep_copy plan) && reached).
    + exists [Passed (Some a) sent]. split; cbn; rewrite ?app_nil_r, ?Hr; try done; try lia; try (by repeat constructor); try (by exists []; rewrite app_nil_r). by exists [a].
    + destruct (filed_turned f n r a j [Passed (Some a) sent] l Hr) as [x Hx]; [right; by eauto|]. by exists ([Passed (Some a) sent] ++ x).
  - rewrite andb_false_r. destruct (filed_turned f n r a j [] l Hr) as [x Hx]; [by left|]. exists x. cbn [app] in Hx.
    replace (did_ [] l) with l in Hx by (destruct l; unfold did_; cbn; by rewrite app_nil_r). done.
Qed.

Definition note_masked (r : Recipient) : list Did := match masked r with Some m => [MaskedNoted (masked_id m)] | None => [] end.

(** A turn on what a masked address and the list of accounts seen have changed already. *)
Lemma turned_after f n r b x l l' : turned f n (Some b) [] x (did_ (note_masked r) (push_seen b l)) l' -> turned f n (Some b) [b] (note_masked r ++ x) l l'.
Proof.
  intros [Hd Hs Hk Hp (i & Hi & His) Hrp Hj Hr Hb Hm Hh Hf Hg]. unfold note_masked in *. cbn in *. destruct (masked r) as [m|]; cbn in *; split; cbn; try done; try by eexists.
  - by rewrite Hd, <- app_assoc.
  - by rewrite Hs, app_nil_r.
  - intros H. constructor; [done|]. eapply harmless_mono; [|by apply Hh]. intros c [-> Hsf]. split; [done|]. eapply store_failed_mono; [|exact Hsf]. set_solver.
  - by rewrite Hd, app_nil_r.
  - by rewrite Hs, app_nil_r.
Qed.

(** A turn that neither finds nor makes anything for an account here. *)
Lemma turned_none f n x l l' : did l' = did l ++ x -> seen l' = seen l -> inbox_accounts l' = inbox_accounts l -> (delivered l <= delivered l')%nat ->
  omap keeper x = [] -> omap passer x = [] -> omap junked x = [] -> omap replier x = [] -> (junk f = true -> existsb is_passed x = false) -> (delivered l' = delivered l -> Forall (harmless (fun _ => False)) x) ->
  (exists fs, failed l' = failed l ++ fs) -> (exists gs, groups_failed l' = groups_failed l ++ gs) -> turned f n None [] x l l'.
Proof.
  intros Hd Hs Hi Hm Hk Hp Hj Hrp Hb Hh Hf Hg. split; try done; rewrite ?app_nil_r; try done; try by rewrite ?Hk, ?Hp, ?Hj.
  - exists []. by rewrite app_nil_r.
  - intros _ ?. split; auto.
  - intros H. specialize (Hb H). clear -Hb. induction x as [|y x IH]; [done|]. cbn in *. apply orb_false_iff in Hb as [Hy Hx]. rewrite IH by done. by destruct y.
  - intros H. eapply harmless_mono; [|by apply Hh]. done.
Qed.

Lemma person_turned f n r b d theirs l : server_rejects f = false -> local_account r = Some b ->
  exists a x, turned f n a (option_list a) x l (person f n r b d theirs l) /\ forall c, a = Some c -> local_account r = Some c /\ c ∉ seen l.
Proof.
  intros Hr Hb. unfold for_account. fold (note_masked r). case_bool_decide as Hseen.
  - exists None, (note_masked r). split; [|done]. unfold note_masked. apply turned_none; try done; destruct (masked r); cbn; rewrite ?app_nil_r; try done; try lia; try (by exists []; rewrite app_nil_r).
    intros _. by repeat constructor.
  - assert (forall x l', turned f n (Some b) [b] x l l' -> exists a x, turned f n a (option_list a) x l l' /\ forall c, a = Some c -> local_account r = Some c /\ c ∉ seen l) as Hsome.
    { intros x l' H. exists (Some b), x. split; [done|]. by intros c [= <-]. }
    destruct (hashed f && _); [apply (Hsome []); split; cbn; rewrite ?app_nil_r; try done; try lia; try (by constructor); try (by exists []; rewrite app_nil_r); exists []; rewrite app_nil_r; split; [done|apply sublist_nil_l]|].
    destruct (match masked r with Some m => _ | None => false end).
    + destruct (trash (w f) n) as [id|e].
      * apply (Hsome (note_masked r ++ [Stored b InTrash (message f)])), turned_after.
        split; cbn; rewrite ?app_nil_r, ?Hr; try done; try lia; try (by repeat constructor); try (by exists []; rewrite app_nil_r). exists []. rewrite ?app_nil_r. split; [done|apply sublist_nil_l].
      * apply (Hsome (note_masked r ++ [])), turned_after.
        split; cbn; rewrite ?app_nil_r, ?Hr; try done; try lia; try (by constructor); try (by eexists); try (by exists []; rewrite app_nil_r). exists []. rewrite ?app_nil_r. split; [done|apply sublist_nil_l].
    + destruct (file_turned f n r b (junk_for f d theirs) (did_ (note_masked r) (push_seen b l)) Hr) as [x Hx]. by eapply Hsome, turned_after.
Qed.

(** A recipient that is not read by the server itself or passed on. *)
Definition plain (r : Recipient) : Prop := srs_return r = None /\ trap r = false /\ report r = None /\ forward_to r = None.

Lemma one_turned f n r d theirs l : exists a x, turned f n a (option_list a) x l (one f n r d theirs l) /\ forall c, a = Some c -> local_account r = Some c /\ c ∉ seen l /\ plain r.
Proof.
  assert (forall x l', turned f n None [] x l l' -> exists a x, turned f n a (option_list a) x l l' /\ forall c, a = Some c -> local_account r = Some c /\ c ∉ seen l /\ plain r) as Hnone by (intros x l' H; by exists None, x).
  assert (turned f n None [] [] l l) as Hnil by (apply turned_none; rewrite ?app_nil_r; try done; try lia; by exists []; rewrite app_nil_r).
  assert (forall b, server_rejects f = false -> local_account r = Some b -> plain r ->
    exists a x, turned f n a (option_list a) x l (person f n r b d theirs l) /\ forall c, a = Some c -> local_account r = Some c /\ c ∉ seen l /\ plain r) as Hperson.
  { intros b Hr Hb Hp. destruct (person_turned f n r b d theirs l Hr Hb) as (a & x & Ht & Ha). exists a, x. split; [done|]. intros c Hc. by destruct (Ha c Hc). }
  unfold deliver_one. destruct (srs_return r) as [original|] eqn:H1.
  { apply (Hnone []), turned_none; cbn; rewrite ?app_nil_r; try done; by exists []; rewrite app_nil_r. }
  destruct (trap r) eqn:H2. { apply (Hnone (if bayes (w f) then [Trapped] else [])), turned_none; destruct (bayes (w f)); cbn; rewrite ?app_nil_r; try done; try lia; by exists []; rewrite app_nil_r. }
  destruct (report r) as [kind|] eqn:H3. { apply (Hnone [Reported kind (dmarc f)]), turned_none; cbn; rewrite ?app_nil_r; try done; try lia; by exists []; rewrite app_nil_r. }
  destruct (forward_to r) as [ts|] eqn:H4.
  { set (passed := if junk f then [] else _). apply (Hnone passed), turned_none; unfold passed; destruct (junk f); cbn; rewrite ?app_nil_r; try done; try lia; by exists []; rewrite app_nil_r. }
  destruct (local_account r) as [b|] eqn:Hb; [|by eapply Hnone]. assert (plain r) by (by split_and!).
  destruct (server_rejects f) eqn:Hr. { apply (Hnone []), turned_none; cbn; rewrite ?app_nil_r; try done; by exists []; rewrite app_nil_r. }
  destruct (group r) as [g|]; [|by apply Hperson].
  destruct (existsb _ _). { apply (Hnone []), turned_none; cbn; rewrite ?app_nil_r; try done; try lia; by exists []; rewrite app_nil_r. }
  destruct (restricted g && _); [|by apply Hperson]. apply (Hnone []), turned_none; cbn; rewrite ?app_nil_r; try done; by exists []; rewrite app_nil_r.
Qed.

(** ** What holds after any number of turns *)

Record inv (f : Facts) (done_ : list Recipient) (l : Loop) : Prop := {
  inv_keepers : NoDup (omap keeper (did l)) /\ omap keeper (did l) ⊆ seen l;
  inv_passers : NoDup (omap passer (did l)) /\ omap passer (did l) ⊆ seen l;
  inv_inbox : NoDup (inbox_accounts l) /\ inbox_accounts l ⊆ seen l;
  inv_replied : omap replier (did l) = [];
  inv_junk : forall a, a ∈ omap junked (did l) -> a ∉ omap passer (did l) /\ a ∉ inbox_accounts l;
  inv_rejected : server_rejects f = true -> junk f = true -> omap keeper (did l) = [] /\ existsb is_passed (did l) = false;
  inv_bad : junk f = true -> existsb passed_for_nobody (did l) = false;
  inv_harmless : delivered l = 0%nat -> Forall (harmless (failed_for (w f) (did l) done_)) (did l) }.

Lemma junked_keeper (xs : list Did) : omap junked xs ⊆ omap keeper xs.
Proof.
  intros a. rewrite !list_elem_of_omap. intros (x & Hx & Ha). exists x. split; [done|]. by destruct x as [? []| | | | | | | | | | | | | | | | | | | ].
Qed.

Lemma fresh_sublist (a : option Z) (new old seen : list Z) : (forall b, a = Some b -> b ∉ seen) -> new `sublist_of` option_list a -> NoDup old -> old ⊆ seen ->
  NoDup (old ++ new) /\ old ++ new ⊆ seen ++ option_list a.
Proof.
  intros Ha Hn Hd Ho. split.
  - apply NoDup_app. split_and!; [done| |by eapply sublist_NoDup; [|done]; destruct a; [apply NoDup_singleton|constructor]].
    intros b Hb Hbn. destruct a as [c|]; [|by apply sublist_nil_r in Hn as ->; apply elem_of_nil in Hbn].
    apply (Ha c eq_refl), Ho. eapply elem_of_submseteq in Hbn; [|by apply sublist_submseteq]. by apply list_elem_of_singleton in Hbn as <-.
  - intros b. rewrite !elem_of_app. intros [Hb|Hb]; [left; by apply Ho|right]. eapply elem_of_submseteq; [done|by apply sublist_submseteq].
Qed.

Lemma inv_turned f done_ r a x l l' : inv f done_ l -> turned f (length done_) a (option_list a) x l l' -> (forall b, a = Some b -> local_account r = Some b /\ b ∉ seen l) -> inv f (done_ ++ [r]) l'.
Proof.
  intros [[Hk Hks] [Hp Hps] [Hi His] Hrp Hj Hr Hb Hh] [Td Ts Tk Tp (i & Ti & Tis) Trp Tj Tr Tb Tm Th _ _] Hra.
  assert (forall b, a = Some b -> b ∉ seen l) as Ha by (intros b Hab; by apply Hra). split; rewrite ?Td, ?Ts, ?Ti, ?omap_app.
  - by apply fresh_sublist.
  - by apply fresh_sublist.
  - by apply fresh_sublist.
  - by rewrite Hrp, Trp.
  - intros b [Hb1|Hb1]%elem_of_app.
    + destruct (Hj b Hb1) as [Hbp Hbi]. assert (a <> Some b) as Hab by (intros ->; by apply (Ha b eq_refl), Hks, junked_keeper).
      assert (forall new, new `sublist_of` option_list a -> b ∉ new) as Hnew.
      { intros new Hn Hbn. eapply elem_of_submseteq in Hbn; [|by apply sublist_submseteq]. destruct a as [c|]; [|by apply elem_of_nil in Hbn]. apply list_elem_of_singleton in Hbn as ->. done. }
      rewrite !not_elem_of_app. auto.
    + assert (omap junked x <> []) as Hne by (intros Hnil; rewrite Hnil in Hb1; by apply elem_of_nil in Hb1). destruct (Tj Hne) as [Hxp Hxi].
      assert (a = Some b) as Hab. { apply junked_keeper in Hb1. eapply elem_of_submseteq in Hb1; [|by apply sublist_submseteq]. destruct a; [|by apply elem_of_nil in Hb1]. by apply list_elem_of_singleton in Hb1 as ->. }
      specialize (Ha b Hab). rewrite Hxp, app_nil_r, <- Ti, Hxi. split; intros H; [by apply Ha, Hps|by apply Ha, His].
  - intros H1 H2. destruct (Hr H1 H2) as [-> Hr2], (Tr H1 H2) as [-> Tr2]. by rewrite existsb_app, Hr2, Tr2.
  - intros H1. by rewrite existsb_app, Hb, Tb.
  - intros H0. apply Forall_app. split.
    + eapply harmless_mono; [|apply Hh; lia]. intros b. apply failed_for_mono. set_solver.
    + eapply harmless_mono; [|apply Th; lia]. intros b [Hab Hs]. exists (length done_), r. destruct (Hra b Hab) as [Hl _].
      split_and!; [by apply list_lookup_middle|done|]. eapply store_failed_mono; [|exact Hs]. set_solver.
Qed.

Lemma all_inv f rs : forall l done_, inv f done_ l -> inv f (done_ ++ rs.*1.*1) (all f (length done_) rs l).
Proof.
  induction rs as [|[[r d] theirs] rs IH]; intros l done_ Hl; cbn; [by rewrite app_nil_r|].
  destruct (one_turned f (length done_) r d theirs l) as (a & x & Ht & Ha).
  replace (done_ ++ r :: rs.*1.*1) with ((done_ ++ [r]) ++ rs.*1.*1) by (by rewrite <- app_assoc).
  replace (S (length done_)) with (length (done_ ++ [r])) by (rewrite length_app; cbn; lia).
  apply IH. eapply inv_turned; [done..|]. intros b Hb. destruct (Ha b Hb) as (? & ? & _). done.
Qed.

(** *** What becomes of each person *)

Definition through (f : Facts) (g : GroupEntry) (r : Recipient) : bool :=
  existsb (fun s => eq_ignore_ascii_case s (entry_address g) || eq_ignore_ascii_case s (rcpt_address r)) (Headers.values (raw f) (bs "Delivered-To")).

Definition own_fate (f : Facts) (l : Loop) (n : nat) (r : Recipient) (a : Z) : Prop :=
  (exists x, x ∈ did l /\ has a x) \/
  (hashed f = true /\ returning (w f) a = Some SettledBefore) \/
  (store_failed (w f) (did l) n a /\ ((exists fl, fl ∈ failed l /\ failed_address fl = rcpt_address r) \/
     exists g fl, group r = Some g /\ (entry_address g, fl) ∈ groups_failed l /\ failed_address fl = rcpt_address r)) \/
  exists g, group r = Some g /\ (through f g r = true \/ restricted g = true /\ verified f = false).

Lemma own_fate_turned f k a s x l l' n r b : turned f k a s x l l' -> own_fate f l n r b -> own_fate f l' n r b.
Proof.
  intros [Td _ _ _ _ _ _ _ _ _ _ [fs Tf] [gs Tg]] [(y & Hy & Hh)|[H|[[Hs H]|H]]].
  - left. exists y. split; [|done]. rewrite Td. apply elem_of_app. by left.
  - by right; left.
  - right; right; left. split; [eapply store_failed_mono; [|exact Hs]; rewrite Td; set_solver|].
    rewrite Tf, Tg. destruct H as [(fl & Hfl & H)|(g & fl & Hg & Hfl & H)]; [left; exists fl|right; exists g, fl]; rewrite elem_of_app; auto.
  - by right; right; right.
Qed.

(** Whether the turn counts for the group: only when the message got to the person. *)
Definition counts_for (r : Recipient) (a : Z) (l l' : Loop) : Prop :=
  groups_reached l' = groups_reached l \/
  groups_reached l' = groups_reached l ++ option_list (entry_address <$> group r) /\ exists x, x ∈ did l' /\ has a x.

Lemma file_fate f n r a j l : own_fate f (filed f n r a j l) n r a /\ counts_for r a l (filed f n r a j l).
Proof.
  unfold file. set (plan := if j then _ else _). set (fwd := match _ with Some _ => _ | None => (false, l) end).
  destruct fwd as [forwarded l1] eqn:Hfwd. destruct (negb (keep_copy plan) && forwarded) eqn:Hc.
  - apply andb_true_iff in Hc as [_ ->]. unfold fwd in Hfwd. destruct (if bool_decide _ then None else _) as [login|]; [|done].
    match type of Hfwd with context [send ?a ?b ?c ?d ?e ?g ?h ?i] => pose proof (send_spec a b c d e g h i) as Hs; destruct (send a b c d e g h i) as [reached sent] end.
    injection Hfwd as -> <-. assert (exists x, x ∈ did l ++ [Passed (Some a) sent] /\ has a x) as Hhas.
    { exists (Passed (Some a) sent). split; [apply elem_of_app; right; by apply list_elem_of_singleton|]. split; [done|]. by apply Hs. }
    split; [by left|by right].
  - assert (groups_reached l1 = groups_reached l) as Hl1.
    { unfold fwd in Hfwd. destruct (if bool_decide _ then None else _); [destruct (send _ _ _ _ _ _ _ _)|]; by injection Hfwd as _ <-. }
    destruct (stored_for f n r a j) as [stored now] eqn:Hs. apply store_for_spec in Hs. destruct stored as [[mailbox kept]|e].
    + destruct Hs as (z & -> & _ & _ & _ & _ & _ & Hz). set (l2 := count_delivered _ _ _).
      assert (exists x, x ∈ did l2 /\ has a x) as Hhas.
      { exists z. split; [|done]. unfold l2. destruct (negb j && kept); cbn; rewrite !elem_of_app, list_elem_of_singleton; auto. }
      split; [by left|]. right. split; [|done]. unfold l2. destruct (negb j && kept); cbn; by rewrite Hl1.
    + split; [|left; cbn; by rewrite Hl1]. right; right; left. split.
      * destruct Hs as [[-> Hs]|[sent ->]]; [left; exists e; by left|right]. exists e, sent. cbn. apply elem_of_app. right. by apply list_elem_of_singleton.
      * destruct (group r) as [g|] eqn:Hg.
        -- right. exists g. eexists. split; [done|]. split; [cbn; apply elem_of_app; right; by apply list_elem_of_singleton|done].
        -- left. eexists. split; [cbn; apply elem_of_app; right; by apply list_elem_of_singleton|done].
Qed.

(** The message got to the person, or had got to them before, or to their group. *)
Definition own_good (f : Facts) (l : Loop) (r : Recipient) (a : Z) : Prop :=
  (exists x, x ∈ did l /\ has a x) \/ (hashed f = true /\ returning (w f) a = Some SettledBefore) \/ exists g, group r = Some g /\ through f g r = true.

(** Whether a turn counts for the group: when it got there, or another turn was for the account. *)
Definition group_turn (f : Facts) (r : Recipient) (l l' : Loop) : Prop :=
  groups_reached l' = groups_reached l \/
  exists g b, group r = Some g /\ groups_reached l' = groups_reached l ++ [entry_address g] /\ local_account r = Some b /\ (own_good f l' r b \/ b ∈ seen l).

Lemma counts_turn f r a (l l0 l' : Loop) : local_account r = Some a -> groups_reached l0 = groups_reached l -> counts_for r a l0 l' -> group_turn f r l l'.
Proof.
  intros Ha Hl [H|[H Hx]]; [left; congruence|]. rewrite Hl in H. destruct (group r) as [g|] eqn:Hg; [|left; by rewrite app_nil_r in H].
  right. exists g, a. split_and!; [done..|]. left. by left.
Qed.

Lemma person_fate f n r a d theirs l : local_account r = Some a ->
  (a ∈ seen l \/ own_fate f (person f n r a d theirs l) n r a) /\ group_turn f r l (person f n r a d theirs l).
Proof.
  intros Ha. assert (forall l', groups_reached l' = groups_reached l ++ option_list (entry_address <$> group r) -> own_good f l' r a \/ a ∈ seen l -> group_turn f r l l') as Hcount.
  { intros l' H Hg. destruct (group r) as [g|] eqn:E; [|left; by rewrite app_nil_r in H]. right. by exists g, a. }
  unfold for_account. case_bool_decide as Hs; [split; [by left|]; by apply Hcount; [|right]|]. destruct (hashed f && _) eqn:Hh.
  - assert (hashed f = true /\ returning (w f) a = Some SettledBefore) as Hset.
    { apply andb_true_iff in Hh as [-> Hh]. split; [done|]. by destruct (returning (w f) a) as [[]|]. }
    split; [right; by right; left|]. apply Hcount; [done|]. left. by right; left.
  - destruct (match masked r with Some m => match masked_state m with Masked.Disabled => _ | _ => _ end | None => _ end).
    + destruct (trash (w f) n) as [id|e] eqn:Htrash.
      * split; [right; left|left; cbn; by rewrite app_nil_r]. exists (Stored a InTrash (message f)). split; [cbn; rewrite !elem_of_app, list_elem_of_singleton; auto|done].
      * split; [right|by left]. right; right; left. split; [left; exists e; by right|]. left. eexists. split; [cbn; apply elem_of_app; right; by apply list_elem_of_singleton|done].
    + match goal with |- context [filed f n r a ?j ?l0] => destruct (file_fate f n r a j l0) as [H1 H2] end. split; [by right|]. by eapply counts_turn.
Qed.

Lemma one_fate f n r d theirs l : server_rejects f = false ->
  (forall a, plain r -> local_account r = Some a -> a ∈ seen l \/ own_fate f (one f n r d theirs l) n r a) /\ group_turn f r l (one f n r d theirs l).
Proof.
  intros Hr. unfold deliver_one. assert (forall l', groups_reached l' = groups_reached l -> group_turn f r l l') as Hsame by (intros l' H; by left).
  destruct (srs_return r) eqn:H1; [split; [intros a (? & _); congruence|by apply Hsame]|].
  destruct (trap r) eqn:H2; [split; [intros a (_ & ? & _); congruence|apply Hsame; destruct (bayes (w f)); cbn; by rewrite app_nil_r]|].
  destruct (report r) eqn:H3; [split; [intros a (_ & _ & ? & _); congruence|apply Hsame; cbn; by rewrite app_nil_r]|].
  destruct (forward_to r) eqn:H4; [split; [intros a (_ & _ & _ & ?); congruence|apply Hsame; destruct (junk f); cbn; by rewrite app_nil_r]|].
  destruct (local_account r) as [b|] eqn:Hb; [|split; [done|by apply Hsame]]. rewrite Hr.
  destruct (person_fate f n r b d theirs l Hb) as [Hp Hg].
  assert (forall l', own_fate f l' n r b -> forall a, plain r -> Some b = Some a -> a ∈ seen l \/ own_fate f l' n r a) as Hfate by (intros l' H a _ [= <-]; by right).
  destruct (group r) as [g|] eqn:Eg; [|split; [intros a _ [= <-]; exact Hp|exact Hg]]. destruct (existsb _ _) eqn:Ht.
  - split; [apply Hfate; right; right; right; exists g; split; [done|]; by left|]. right. exists g, b. split_and!; [done..|].
    left. right; right. by exists g.
  - destruct (restricted g && negb (verified f)) eqn:Hc; [|split; [intros a _ [= <-]; exact Hp|exact Hg]]. split; [|by apply Hsame].
    apply Hfate. right; right; right. exists g. split; [done|]. right. apply andb_true_iff in Hc as [-> Hc]. split; [done|]. by destruct (verified f).
Qed.

(** Somebody of the group got it, or another recipient stood for them. *)
Definition group_got (f : Facts) (l : Loop) (done_ : list Recipient) (address : list byte) : Prop :=
  exists m r g b, done_ !! m = Some r /\ group r = Some g /\ entry_address g = address /\ local_account r = Some b /\
    (own_good f l r b \/ exists m' r', (m' < m)%nat /\ done_ !! m' = Some r' /\ local_account r' = Some b).

Record fates (f : Facts) (done_ : list Recipient) (l : Loop) : Prop := {
  fates_seen : forall a, a ∈ seen l -> exists n r, done_ !! n = Some r /\ local_account r = Some a /\ own_fate f l n r a;
  fates_done : forall r a, r ∈ done_ -> plain r -> local_account r = Some a -> exists n r', done_ !! n = Some r' /\ local_account r' = Some a /\ own_fate f l n r' a;
  fates_groups : forall address, address ∈ groups_reached l -> group_got f l done_ address }.

Lemma group_got_turned f k a s x l l' done_ r address : turned f k a s x l l' -> group_got f l done_ address -> group_got f l' (done_ ++ [r]) address.
Proof.
  intros Ht (m & r' & g & b & Hm & Hg & He & Hb & H). exists m, r', g, b. split_and!; [by apply lookup_app_l_Some|done..|].
  destruct H as [[(y & Hy & Hh)|H]|(m' & r2 & Hlt & Hm' & H)]; [left; left|left; by right|right; exists m', r2; split_and!; [done|by apply lookup_app_l_Some|done]].
  exists y. split; [|done]. rewrite (turned_did _ _ _ _ _ _ _ Ht). apply elem_of_app. by left.
Qed.

Lemma fates_turned f done_ r d theirs l : server_rejects f = false -> fates f done_ l -> fates f (done_ ++ [r]) (one f (length done_) r d theirs l).
Proof.
  intros Hr [Hseen Hdone Hgroups]. destruct (one_turned f (length done_) r d theirs l) as (a & x & Ht & Ha).
  destruct (one_fate f (length done_) r d theirs l Hr) as [Hone Hgroup]. set (l' := one f _ r d theirs l) in *.
  assert (forall b, b ∈ seen l -> exists n r', (done_ ++ [r]) !! n = Some r' /\ local_account r' = Some b /\ own_fate f l' n r' b) as Hold.
  { intros b (n & r' & Hin & Hl & Hf)%Hseen. exists n, r'. split_and!; [by apply lookup_app_l_Some|done|by eapply own_fate_turned]. }
  assert (forall b, plain r -> local_account r = Some b -> exists n r', (done_ ++ [r]) !! n = Some r' /\ local_account r' = Some b /\ own_fate f l' n r' b) as Hnew.
  { intros b Hp Hb. destruct (Hone b Hp Hb) as [H|H]; [by apply Hold|]. exists (length done_), r. split_and!; [by apply list_lookup_middle|done|done]. }
  split.
  - intros b. rewrite (turned_seen _ _ _ _ _ _ _ Ht), elem_of_app. intros [Hb|Hb]; [by apply Hold|]. destruct a as [c|]; [|by apply elem_of_nil in Hb].
    apply list_elem_of_singleton in Hb as ->. destruct (Ha c eq_refl) as (? & _ & ?). by apply Hnew.
  - intros r' b [Hin|Hin]%elem_of_app Hp Hl.
    + destruct (Hdone r' b Hin Hp Hl) as (n & r2 & Hin2 & Hl2 & Hf). exists n, r2. split_and!; [by apply lookup_app_l_Some|done|by eapply own_fate_turned].
    + apply list_elem_of_singleton in Hin as ->. by apply Hnew.
  - intros address. destruct Hgroup as [->|(g & b & Hg & -> & Hb & H)]; [intros Had; by eapply group_got_turned, Hgroups|].
    intros [Had| ->%list_elem_of_singleton]%elem_of_app; [by eapply group_got_turned, Hgroups|].
    exists (length done_), r, g, b. split_and!; [by apply list_lookup_middle|done..|]. destruct H as [H|(m & r' & Hm & Hl & _)%Hseen]; [by left|right].
    exists m, r'. split_and!; [by eapply lookup_lt_Some|by apply lookup_app_l_Some|done].
Qed.

Lemma all_fates f : server_rejects f = false -> forall rs l done_, fates f done_ l -> fates f (done_ ++ rs.*1.*1) (all f (length done_) rs l).
Proof.
  intros Hr. induction rs as [|[[r d] theirs] rs IH]; intros l done_ Hl; cbn; [by rewrite app_nil_r|].
  replace (done_ ++ r :: rs.*1.*1) with ((done_ ++ [r]) ++ rs.*1.*1) by (by rewrite <- app_assoc).
  replace (S (length done_)) with (length (done_ ++ [r])) by (rewrite length_app; cbn; lia).
  by apply IH, fates_turned.
Qed.

(** ** The whole message *)

(** What says nothing about anybody's mailbox. *)
Definition quiet (x : Did) : bool :=
  match x with Stored _ _ _ | Scripted _ _ _ _ | Passed _ _ | Replied _ _ => false | _ => true end.

Lemma quiet_log xs : forallb quiet xs = true ->
  omap keeper xs = [] /\ omap passer xs = [] /\ omap junked xs = [] /\ omap replier xs = [] /\ existsb is_passed xs = false /\ existsb passed_for_nobody xs = false.
Proof.
  induction xs as [|x xs IH]; [done|]. cbn. intros [Hx (?&?&?&?&?&?)%IH]%andb_true_iff. by destruct x.
Qed.

Lemma counts_returned n l : let l' := Nat.iter n (count_delivered None None) l in
  did l' = did l /\ inbox_accounts l' = inbox_accounts l /\ delivered l' = (n + delivered l)%nat /\ group_refused l' = group_refused l /\ temporary l' = temporary l /\ noted l' = noted l.
Proof.
  induction n as [|n IH]; [done|]. rewrite Nat.iter_succ. cbn zeta in *. set (l' := Nat.iter n _ l) in *. cbn. destruct IH as (-> & -> & -> & -> & -> & ->). by rewrite app_nil_r.
Qed.

Lemma answers_quiet f l : exists answers,
  (inbox_accounts l ≫= fun account => Replied account (maybe_reply (replies (w f) account) (vacation (w f) account) account (env_from f) (verified f) (message f))
      :: if itip (w f) then [Scheduled account (v ← verdict f; if from_verified v || dmarc_passed v then from_address v else None)] else []) = answers
  /\ omap replier answers = inbox_accounts l /\ omap keeper answers = [] /\ omap passer answers = [] /\ omap junked answers = [] /\ existsb is_passed answers = false
  /\ existsb passed_for_nobody answers = false.
Proof.
  eexists. split; [done|]. induction (inbox_accounts l) as [|a others IH]; [done|]. destruct IH as (H1 & H2 & H3 & H4 & H5 & H6). cbn [mbind list_bind]. rewrite !omap_app, !existsb_app, H1, H2, H3, H4, H5, H6.
  by destruct (itip (w f)).
Qed.

(** What [finish] adds to the log of the loop. *)
Lemma finish_spec f q al l answer log : finish f q al l = (answer, log) ->
  answer <> Accepted /\ delivered l = 0%nat /\ log = did l \/
  answer = Accepted /\ exists rest, log = did l ++ rest /\ omap keeper rest = [] /\ omap passer rest = [] /\ omap junked rest = [] /\ existsb is_passed rest = false /\ existsb passed_for_nobody rest = false
    /\ omap replier rest = inbox_accounts l /\ (verified f = true -> fail_groups l <> [] -> Bounced (fail_groups l) ∈ rest).
Proof.
  unfold finish. set (pair := if bool_decide (returned l = []) then _ else _).
  assert (exists l' back, pair = (l', back) /\ did l' = did l /\ inbox_accounts l' = inbox_accounts l /\ forallb quiet back = true /\ (delivered l' = 0%nat -> delivered l = 0%nat /\ back = [])) as (l' & back & -> & Hd & Hi & Hq & H0).
  { unfold pair. case_bool_decide as Hret; [by eexists _, _; split_and!|]. destruct (returns (w f)); [|by eexists _, _; split_and!].
    pose proof (counts_returned (length (returned l)) l) as (?&?&Hdel&_). eexists _, _. split_and!; [done..|]. rewrite Hdel. destruct (returned l); [done|]. cbn. lia. }
  case_bool_decide as Hz.
  - destruct (H0 Hz) as [H0l ->]. destruct (_ || _); [intros [= <- <-]|destruct (group_refused l'); intros [= <- <-]]; left; split_and!; try done; by rewrite app_nil_r, Hd.
  - pose proof (answers_quiet f l') as (answers & -> & Ha1 & Ha2 & Ha3 & Ha4 & Ha5 & Ha6). set (notes := _ :: _). set (bounces := if _ && _ then [Bounced _] else _).
    assert (forallb quiet (back ++ notes) = true) as Hnotes by (rewrite forallb_app, Hq; unfold notes; by destruct (existsb _ (noted l'))).
    assert (forallb quiet (learn f q al ++ face_of f) = true) as Hlearn.
    { rewrite forallb_app. unfold learn, face_of. apply andb_true_iff. split; [destruct (scored (w f)) as [s|]; [|done]; destruct (attributed s); [|done]; cbn zeta; match goal with |- context [if ?b then [Learnt _] else _] => by destruct b end|].
      destruct (junk f); [done|]. destruct (_ ≫= _); [|done]. destruct (single_face _); [|done]. destruct (rsplit_once _ _) as [[? ?]|]; [|done]. match goal with |- context [if ?b then [FaceKept _] else _] => by destruct b end. }
    assert (forallb quiet bounces = true) as Hb by (unfold bounces; by destruct (_ && _)).
    assert (bounces = if negb (bool_decide (fail_groups l = [])) && verified f then [Bounced (fail_groups l)] else []) as Hbounces by done. clearbody notes bounces.
    apply quiet_log in Hnotes as (N1 & N2 & N3 & N4 & N5 & N6), Hlearn as (L1 & L2 & L3 & L4 & L5 & L6), Hb as (B1 & B2 & B3 & B4 & B5 & B6).
    intros [= <- <-]. right. split; [done|]. exists ((back ++ notes) ++ (learn f q al ++ face_of f) ++ answers ++ bounces).
    rewrite Hd. split; [by rewrite <- !app_assoc|]. rewrite !(omap_app _ (back ++ notes)), !(omap_app _ (learn f q al ++ face_of f)), !(omap_app _ answers), !(existsb_app _ (back ++ notes)), !(existsb_app _ (learn f q al ++ face_of f)), !(existsb_app _ answers).
    rewrite N1, N2, N3, N4, N5, N6, L1, L2, L3, L4, L5, L6, Ha1, Ha2, Ha3, Ha4, Ha5, Ha6, B1, B2, B3, B4, B5, B6, app_nil_r. split_and!; try done; [by cbn; rewrite ?app_nil_r|].
    intros Hv Hf. rewrite !elem_of_app. right; right; right. rewrite Hbounces, Hv, bool_decide_eq_false_2 by done. by apply list_elem_of_singleton.
Qed.

(** The recipients of the loop are those of the message. *)
Lemma zipped {A B C} (g : A -> B) (h : A * B -> C) (l : list A) : (zip (zip l (g <$> l)) (h <$> zip l (g <$> l))).*1.*1 = l.
Proof.
  rewrite fst_zip by (by rewrite length_fmap). rewrite fst_zip by (by rewrite length_fmap). done.
Qed.

Definition stripped (w : World) (raw : list byte) : list byte := Headers.strip_forged_auth_results raw (hostname w).
Definition verdict_on (w : World) (origin : Origin) (raw : list byte) : option Verdict := (judge w origin (stripped w raw)).2.
Definition decided (w : World) (origin : Origin) (raw : list byte) (rs : list Recipient) : list SenderLists.Decision :=
  decisions_of w (sender_of w (judge w origin (stripped w raw)).1 (verdict_on w origin raw)) rs.

(** The checks or the score say the message belongs in Junk. *)
Definition suspicious (w : World) (origin : Origin) (raw : list byte) : Prop :=
  (exists s, scored w = Some s /\ (outcome s = ToJunk \/ outcome s = Refuse)) \/ exists v, verdict_on w origin raw = Some v /\ action v = Quarantine.

(** The score turns it down, and no list allows its sender. *)
Definition turned_down (w : World) (origin : Origin) (raw : list byte) (rs : list Recipient) : Prop :=
  exists s, scored w = Some s /\ outcome s = Refuse /\ existsb is_allow (decided w origin raw rs) = false.

(** What the loop is given. *)
Record facts_ok (w0 : World) (origin : Origin) (raw0 : list byte) (rs : list Recipient) (f : Facts) : Prop := {
  facts_world : w f = w0; facts_hashed : hashed f = greylist_hold w0; facts_verdict : verdict f = verdict_on w0 origin raw0;
  facts_raw : raw f = cleaned (scanned w0) (stripped w0 raw0);
  facts_junk : suspicious w0 origin raw0 -> junk f = true;
  facts_rejects : server_rejects f = true <-> turned_down w0 origin raw0 rs }.

Notation receive_ := (receive digest domain_str to_lowercase domain_to_ascii compiles engine).

Lemma hold_quiet w rs m : (forall P, Forall (harmless P) (hold_greylisted w rs m)) /\ forallb quiet (hold_greylisted w rs m) = true.
Proof.
  unfold hold_greylisted. destruct (_ <? _); [by split; constructor|]. induction (List.filter (held w) _) as [|a l [IH1 IH2]]; [by split; constructor|]. by split; [constructor|].
Qed.

Lemma held_log w rs m : let xs := [NotedAs NoteGreylist (all_recipients rs NoteGreylist)] ++ (if greylist_hold w then hold_greylisted w rs m else []) ++ [Counted StatGreylisted] in
  forallb quiet xs = true /\ forall P, Forall (harmless P) xs.
Proof.
  cbn zeta. destruct (hold_quiet w rs m) as [Hh1 Hh2]. split; [rewrite !forallb_app; destruct (greylist_hold w); by rewrite ?Hh2|intros P].
  apply Forall_app. split; [by repeat constructor|]. apply Forall_app. split; [by destruct (greylist_hold w)|by repeat constructor].
Qed.

Lemma complaint_quiet f rs : forallb quiet (complaint f rs) = true /\ forall P, Forall (harmless P) (complaint f rs).
Proof. unfold complaint. destruct (existsb _ rs); split; by repeat constructor. Qed.

Lemma receive_cases w origin env_from rs raw answer log : receive_ w origin env_from rs raw = (answer, log) ->
  answer <> Accepted /\ (forall P, Forall (harmless P) log) /\ forallb quiet log = true \/
  exists f q al rds before, facts_ok w origin raw rs f /\ rds.*1.*1 = rs /\ forallb quiet before = true /\ (forall P, Forall (harmless P) before) /\
    finish f q al (all f 0 rds (did_ before begin_loop)) = (answer, log).
Proof.
  unfold receive. fold (stripped w raw).
  assert (decided w origin raw rs = decisions_of w (sender_of w (judge w origin (stripped w raw)).1 (judge w origin (stripped w raw)).2) rs) as Hdec by done.
  assert (verdict_on w origin raw = (judge w origin (stripped w raw)).2) as Hv by done. destruct (judge w origin (stripped w raw)) as [client verdict]. cbn [fst snd] in *.
  destruct (verdict ≫= _) as [reason|]; [intros [= <- <-]; left; split_and!; [done|by repeat constructor|done]|].
  rewrite <- Hdec. set (decisions := decided w origin raw rs) in *. set (hits := if bool_decide (merge_sort _ _ = []) then [] else [Hits _]).
  assert (forallb quiet hits = true /\ forall P, Forall (harmless P) hits) as [Hq Hh] by (unfold hits; case_bool_decide; split; by repeat constructor). clearbody hits.
  assert (forall xs, forallb quiet xs = true -> (forall P, Forall (harmless P) xs) -> (forall P, Forall (harmless P) (hits ++ xs)) /\ forallb quiet (hits ++ xs) = true) as Happ.
  { intros xs ??. rewrite forallb_app, Hq. split; [|done]. intros P. by apply Forall_app. }
  destruct (negb (bool_decide (decisions = [])) && _); [intros [= <- <-]; left; split; [done|]; apply Happ; by repeat constructor|].
  set (quarantined := match verdict with Some v => _ | None => false end). set (out := match scored w with Some s => outcome s | None => Deliver end).
  set (junk_ := quarantined || bool_decide (out = ToJunk \/ out = Refuse)). set (allowed := existsb is_allow decisions).
  assert (suspicious w origin raw -> junk_ = true) as Hsus.
  { intros [(s & Hs & Ho)|(v & Hvs & Ha)]; unfold junk_; [unfold out; rewrite Hs, bool_decide_eq_true_2 by done; apply orb_true_r|].
    unfold quarantined. rewrite <- Hv, Hvs, Ha. done. }
  assert (bool_decide (out = Refuse) && negb allowed = true <-> turned_down w origin raw rs) as Hrej.
  { rewrite andb_true_iff, bool_decide_eq_true, negb_true_iff. unfold out, turned_down. fold decisions. split.
    - intros [Ho Ha]. destruct (scored w) as [s|]; [|done]. by exists s.
    - intros (s & -> & Ho & Ha). done. }
  destruct (scanned w) as [| |name|reason] eqn:Hscan; try (intros [= <- <-]; left; split; [done|]; apply Happ; by repeat constructor).
  all: cbn zeta; fold quarantined; fold out; fold junk_; fold allowed;
    destruct ((bool_decide (out = Refuse) && negb allowed && negb (existsb trap rs)) || _); [intros [= <- <-]; left; split; [done|]; apply Happ; by repeat constructor|].
  all: match goal with |- context [match ?m with Some _ => _ | None => _ end = _] => destruct m as [seconds|] end.
  1, 3, 5: intros [= <- <-]; left; split; [done|]; apply Happ; apply held_log.
  all: intros Hfin; right; match type of Hfin with finish ?f ?q ?al (deliver_all _ _ _ _ _ _ _ 0 ?rds (did_ (?h ++ complaint ?g ?u) _)) = _ =>
    exists f, q, al, rds, (h ++ complaint g u); destruct (complaint_quiet g u) as [Hc1 Hc2] end.
  all: destruct (Happ _ Hc1 Hc2); split_and!; [split; cbn; first [done|by rewrite Hv|by rewrite Hscan]|apply zipped|done..].
Qed.

Lemma begin_inv f before : forallb quiet before = true -> (forall P, Forall (harmless P) before) -> inv f [] (did_ before begin_loop).
Proof.
  intros (H1 & H2 & H3 & H4 & H5 & H6)%quiet_log Hh. split; cbn; rewrite ?H1, ?H2, ?H3, ?H4; try done; try (split; [by constructor|done]). by intros a ?%elem_of_nil.
Qed.


(** C6: a person gets a message once, and junk goes nowhere. However often an account is among
    the recipients, through groups and directly, its mailbox or script is asked once, its
    forwarding passes the message on once and one response is sent. Who has it in Junk has it
    nowhere else: not passed on, not answered. What the checks or the score take for junk is not
    passed on by a forwarding address, and what the score refuses while no list allows the sender
    reaches no mailbox at all. *)
Theorem each_person_once w origin env_from rs raw :
  let '(answer, log) := receive_ w origin env_from rs raw in
  NoDup (omap keeper log) /\ NoDup (omap passer log) /\ NoDup (omap replier log) /\
  (forall a, a ∈ omap junked log -> a ∉ omap passer log /\ a ∉ omap replier log) /\
  (suspicious w origin raw -> existsb passed_for_nobody log = false) /\
  (turned_down w origin raw rs -> omap keeper log = [] /\ existsb is_passed log = false).
Proof.
  destruct (receive_ w origin env_from rs raw) as [answer log] eqn:Hr. apply receive_cases in Hr as [(_ & _ & H)|(f & q & al & rds & before & Hok & _ & Hq & Hh & Hf)].
  { apply quiet_log in H as (-> & -> & -> & -> & -> & ->). split_and!; try done; try by constructor. by intros a ?%elem_of_nil. }
  pose proof (all_inv f rds _ [] (begin_inv f before Hq Hh)) as H. change (length (@nil Recipient)) with 0%nat in H. destruct H as [[Hk _] [Hp _] [Hi _] Hrp Hj Hrej Hbad _]. set (l := all f 0 rds _) in *. clearbody l.
  assert (turned_down w origin raw rs -> server_rejects f = true /\ junk f = true) as Hdown.
  { intros Ht. split; [by apply Hok|]. apply (facts_junk _ _ _ _ _ Hok). destruct Ht as (s & Hs & Ho & _). left. exists s. auto. }
  apply finish_spec in Hf as [(_ & H0 & ->)|[_ (rest & -> & R1 & R2 & R3 & R4 & R5 & R6 & _)]].
  - split_and!; try done; [|intros a Ha; split; [by apply Hj|]|intros; by apply Hbad, Hok|intros Ht; by apply Hrej; apply Hdown].
    all: rewrite Hrp; (by constructor) || by intros ?%elem_of_nil.
  - rewrite !omap_app, !existsb_app, R1, R2, R3, R4, R5, R6, !app_nil_r, !orb_false_r.
    rewrite Hrp. cbn. split_and!; try done; [intros; by apply Hbad, Hok|intros Ht; by apply Hrej; apply Hdown].
Qed.

(** Who failed is among those the sender is told of. *)
Lemma failed_told l : failed l ⊆ fail_groups l.
Proof.
  unfold fail_groups. generalize (failed l). induction (groups_failed l) as [|gf gs IH]; intros fs; cbn; [done|].
  etrans; [|apply IH]. destruct (_ || _); [done|]. intros x ?. apply elem_of_app. by left.
Qed.

(** Nor is anyone of a group forgotten that nobody was reached in. *)
Lemma group_told l address fl : (address, fl) ∈ groups_failed l ->
  (exists fl', fl' ∈ fail_groups l /\ failed_address fl' = failed_address fl) \/ address ∈ groups_reached l.
Proof.
  unfold fail_groups. generalize (failed l). generalize (groups_failed l). intros gs. 
  assert (forall gs fs, fs ⊆ foldl (fun failed gf => if bool_decide (fst gf ∈ groups_reached l) || existsb (fun known => bool_decide (failed_address known = failed_address (snd gf))) failed
    then failed else failed ++ [snd gf]) fs gs) as Hkeep.
  { clear. induction gs as [|gf gs IH]; intros fs; cbn; [done|]. etrans; [|apply IH]. destruct (_ || _); [done|]. set_solver. }
  induction gs as [|gf gs IH]; intros fs Hin; cbn; [by apply elem_of_nil in Hin|].
  apply elem_of_cons in Hin as [<-|Hin]; [|by apply IH]. cbn. case_bool_decide as Hr; cbn; [by right|left].
  destruct (existsb _ fs) eqn:He.
  - apply existsb_exists in He as (known & Hk & Heq%bool_decide_eq_true). exists known. split; [|done]. by apply Hkeep, list_elem_of_In.
  - exists fl. split; [|done]. apply Hkeep, elem_of_app. right. by apply list_elem_of_singleton.
Qed.

(** The group had the message before: it passed through it. *)
Definition through_before (w : World) (raw : list byte) (g : GroupEntry) (r : Recipient) : bool :=
  existsb (fun s => eq_ignore_ascii_case s (entry_address g) || eq_ignore_ascii_case s (rcpt_address r))
    (Headers.values (cleaned (scanned w) (stripped w raw)) (bs "Delivered-To")).

(** The sender is told that the message did not reach [address]. *)
Definition told (log : list Did) (address : list byte) : Prop :=
  exists fs fl, Bounced fs ∈ log /\ fl ∈ fs /\ failed_address fl = address.

Definition sender_proved (w : World) (origin : Origin) (raw : list byte) : bool :=
  match verdict_on w origin raw with Some v => sender_verified v | None => true end.

(** Somebody of the group got it or had it before, or another recipient was for their account. *)
Definition group_reached (w : World) (origin : Origin) (raw : list byte) (log : list Did) (rs : list Recipient) (address : list byte) : Prop :=
  exists m r g b, rs !! m = Some r /\ group r = Some g /\ entry_address g = address /\ local_account r = Some b /\
    ((exists x, x ∈ log /\ has b x) \/ (greylist_hold w = true /\ returning w b = Some SettledBefore) \/ through_before w raw g r = true
     \/ exists m' r', (m' < m)%nat /\ rs !! m' = Some r' /\ local_account r' = Some b).

(** Why a person whose message was taken is done with: they have it, had it before, their store
    failed in the turn of this recipient and the sender is told of them or cannot be trusted, or
    another of their group got through, or the group they are in had it before or does not take
    it from this sender. *)
Definition accounted (w : World) (origin : Origin) (raw : list byte) (log : list Did) (rs : list Recipient) (n : nat) (r : Recipient) (a : Z) : Prop :=
  (exists x, x ∈ log /\ has a x) \/
  (greylist_hold w = true /\ returning w a = Some SettledBefore) \/
  (store_failed w log n a /\ (told log (rcpt_address r) \/ sender_proved w origin raw = false \/
     exists g, group r = Some g /\ group_reached w origin raw log rs (entry_address g))) \/
  exists g, group r = Some g /\ (through_before w raw g r = true \/ restricted g = true /\ sender_proved w origin raw = false).


End turns.

(** ** Samples *)

Definition passing (keep queue : bool) : Forwarding.World := {|
  external_allowed := true; active_forwarding _ := Some {| active_keep_copy := keep; active_targets := [(bs "oma@home.example", None)] |};
  delivery_target := Some; ingests _ _ := true; is_local_domain d := bool_decide (d = bs "uwu.example"); srs_secret := Some (bs "key");
  enqueues := queue; Forwarding.hostname := bs "mx.uwu.example"; today := 20710; lifetime := 432000 |}.

(** A server without checks, filter and lists, where account 8 forwards its mail. *)
Definition some_server (queue : bool) (disk : nat -> Z + Filing.StoreError) : World := {|
  hostname := bs "mx.uwu.example"; trusted_relays := []; verify_senders := false; greylist_hold := false; bayes := false;
  verify _ := rejecting [] []; verify_signatures := rejecting [] []; from_addresses := Some [bs "opa@else.example"];
  sender_of _ _ := {| SenderLists.ip := None; SenderLists.envelope := None; SenderLists.from := None; SenderLists.from_verified := false |};
  lists := {| SenderLists.entries := []; SenderLists.hosts := [] |};
  scanned := Off; scored := None; personal _ _ := Deliver; detected := None; greylist_wait _ := None; fast_lane _ := false; held _ := false;
  received_header _ := bs "Received: by mx.uwu.example" ++ [x0d; x0a]; returning _ := Some Fresh; trash _ := inl 1; account_login _ := Some (bs "mini@uwu.example");
  forwards _ := passing true queue; script _ := None; skipped _ := None;
  filing _ := {| Filing.imap_mailboxes := inl []; Filing.create_mailbox _ _ := None; Filing.resolve_recipient _ := None; Filing.login := None; Filing.stores := disk |};
  label_keywords _ := []; for_sieve m _ := m; stores := disk; auto_labels _ := false; returns := true; local_domain _ := false; face_png _ := false;
  itip := false; vacation _ := None; replies _ := passing true queue |}.

Definition rcpt (address : string) (account : option Z) (g : option GroupEntry) (ts : option (list (list byte * option Z))) : Recipient := {|
  rcpt_address := bs address; local_account := account; srs_return := None; report := None; forward_to := ts; trap := false; group := g; masked := None;
  notify_flags := 0; orcpt := None |}.

Definition from_else : Origin := Client (V4 0xcb007109) (bs "mail.else.example").

Notation received queue disk rs := (receive secret_digits (fun _ => None) to_ascii_lowercase Some (fun _ => true) (fun _ _ _ _ => ([], Filing.Finished))
  (some_server queue disk) from_else (bs "opa@else.example") rs hello).

(** Directly and through a group: one message, and a second person whose disk is full is named in a bounce. *)
Definition third_full (n : nat) : Z + Filing.StoreError := if bool_decide (n = 2)%nat then inr Filing.QuotaExceeded else inl (Z.of_nat n).
Definition nyu : Recipient := rcpt "nyu@uwu.example" (Some 9) None None.
Definition to_three : list Recipient :=
  [rcpt "mini@uwu.example" (Some 8) None None; rcpt "team@uwu.example" (Some 8) (Some {| entry_address := bs "team@uwu.example"; restricted := false |}) None; nyu].

Example once_and_bounced :
  let '(answer, log) := received true third_full to_three in
  answer = Accepted /\ omap keeper log = [8] /\ omap passer log = [8; 9]
  /\ last log = Some (Bounced [{| failed_address := bs "nyu@uwu.example"; error := FULL |}]).
Proof. vm_compute. done. Qed.


(** A forwarding address whose message cannot be queued: the sender is told it was accepted, and
    it is nowhere. *)
Example forwarded_nowhere :
  let '(answer, log) := received false (fun n => inl (Z.of_nat n)) [rcpt "alle@uwu.example" None None (Some [(bs "oma@home.example", None)])] in
  answer = Accepted /\ log = [Passed None []; Counted StatReceived; NotedAs NoteDelivered [{| noted_address := bs "alle@uwu.example"; noted_action := NoteDelivered; noted_mailbox := None |}]].
Proof. vm_compute. done. Qed.

(** A person who keeps a copy and whose store fails: the message was passed on, and the sender is
    told to try again, which passes it on once more. *)
Example passed_on_and_refused :
  let '(answer, log) := received true (fun _ => inr Filing.OtherStoreError) [rcpt "mini@uwu.example" (Some 8) None None] in
  answer = StorageFailure /\ exists sent, log = [Passed (Some 8) [sent]].
Proof. vm_compute. split; [done|by eexists]. Qed.
End ReceiveSafe.
