(* ===== verification/Submission.v ===== *)
(** * Mail our own people send (crates\/uwumail-smtp\/src\/submission.rs)

    [submit] is [Smtp::submit]: whether the account may send this message at all, as whom and to
    how many, what is put on top of the message and taken out of it, and what becomes of each
    recipient, here ([deliver_locally]) and elsewhere. The answers of the store, the scanner, the
    filter and the signer are in a [World]; what is done is a list of [Did], and the sending limits
    are the state of [SendLimit]. *)

From S2P Require Import Prelude Effects Utf8 Address SmtpHeaders SendLimit SmtpSession Forwarding.

Module Submission.
Import Forwarding.Forwarding.

(** ** Data *)

Record Account := {
  account_id : Z; account_login : list byte; display_name : list byte; account_internal_only : bool;
  disabled : bool; deleted : bool; protocol_smtp : bool }.

Definition can_log_in (a : Account) : bool := negb (disabled a) && negb (deleted a).

Record SubmissionRecipient := { address : list byte; notify_flags : Z; orcpt : option (list byte) }.

Record Submission_ := {
  account : Account; mail_from : list byte; recipients : list SubmissionRecipient; raw : list byte;
  env_id : option (list byte); trace : option (list byte) }.

Record Submitted := { id : list byte; queue_message_id : option Z; local_deliveries_ : nat; remote_recipients : nat }.

Inductive SubmitError :=
  | NoFrom | ForbiddenFrom (address : list byte) | AmbiguousSender | NoRecipients | InvalidRecipient (address : list byte)
  | NobodyAccepted | SendingOff | InternalOnly | AccountLocked | TooManyRecipients | RateLimited (window : SendLimit.Window)
  | OverLimit (window : SendLimit.Window) | TooLarge | MalformedHeaders | Virus (name : list byte) | Spam | Suspended (minutes : Z) | QueueFailed.

Inductive StoreError := QuotaExceeded | OtherStoreError (text : list byte).

Record FailedRecipient := { failed_address : list byte; error : list byte }.

Inductive StrikeKind := SpamStrike | RateLimitStrike | BounceStrike | ComplaintStrike.

(** What is done. *)
Inductive Did :=
  | Struck (kind : StrikeKind)
  | Stored (account : Z) (trash : bool) (message : list byte)
  | Passed (account : option Z) (sent : list Sent)
  | MaskedNoted (id : Z)
  | Replied (account : Z) (sent : list Sent)
  | Scheduled (account : Z) (author : list byte)
  | Enqueued (mail_from : list byte) (recipients : list SubmissionRecipient) (message : list byte) (env_id : option (list byte))
  | SentIdNoted (message_id : list byte) (domains : list (list byte))
  | Bounced (failed : list FailedRecipient)
  | SharedCopy (account : Z) (message : list byte)
  | CountedSubmitted.

(** What the settings, the store, the scanner and the filter answer. [stores] and [passing] are
    asked at the n-th delivery; [send_suspension] before the message is touched, and
    [suspended_later] when a forward elsewhere comes up. *)
Record World := {
  our_hostname : list byte; max_recipients : nat; max_message_size : Z; per_hour : Z; per_day : Z; now : Z;
  account_by_id : option (option Account); owns : list byte -> option bool; addresses_internal_only : list (list byte) -> option bool;
  local_domain : list byte -> bool; send_suspension : option (option Z); suspended_later : option (option Z);
  company_footer : list byte -> option (option (list byte)); virus : list byte -> option (list byte); looks_like_spam : list byte -> bool;
  sender_face : list byte -> option (list byte); rfc822_date : list byte; random_id : list byte; signatures_of : list byte -> list byte -> list byte;
  group_delivery : list byte -> option Smtp.GroupDelivery; group_accepts : Smtp.GroupDelivery -> bool; target_of : Z -> option Z;
  resolve_recipient : list byte -> option Z; masked_delivery : list byte -> option Smtp.MaskedDelivery; forward_address_targets : list byte -> option Targets;
  login_of : Z -> option (list byte); stores : nat -> Z -> option StoreError; passing : nat -> Forwarding.World;
  vacation_of : Z -> option Vacation; itip : bool; queue_id : option Z; shared_mailbox : list byte -> option Z; shared_stores : bool }.

(** The log, the sending limits, what is known about leaving this server, and how many deliveries were begun. *)
Record Run := { log : list Did; limits : SendLimit.State; may_leave_ : option bool; turns : nat }.

Definition run : Type -> Type := M Run SubmitError.

Definition say (x : list Did) : run unit :=
  modify (fun s => {| log := log s ++ x; limits := limits s; may_leave_ := may_leave_ s; turns := turns s |}).
Definition set_leave (known : option bool) : run unit :=
  modify (fun s => {| log := log s; limits := limits s; may_leave_ := known; turns := turns s |}).
Definition next_turn : run nat :=
  s ← get; put {| log := log s; limits := limits s; may_leave_ := may_leave_ s; turns := S (turns s) |};; mret (turns s).

Definition ensure (b : bool) (e : SubmitError) : run unit := if b then mret tt else throw e.
Definition yes (answer : option bool) : bool := default false answer.

(** ** Who may send *)

(** [over_limit] *)
Definition over_limit (recipients per_hour per_day : Z) : option SubmitError :=
  if (0 <? per_hour) && (per_hour <? recipients) then Some (OverLimit SendLimit.Hour)
  else if (0 <? per_day) && (per_day <? recipients) then Some (OverLimit SendLimit.Day) else None.

(** [take_send_budget] *)
Definition take_send_budget (w : World) (account : Account) (recipients : Z) : run (option SubmitError) :=
  match over_limit recipients (per_hour w) (per_day w) with
  | Some e => mret (Some e)
  | None =>
      s ← get;
      let '(refused, l) := SendLimit.take (account_id account) recipients (per_hour w) (per_day w) (now w) (limits s) in
      put {| log := log s; limits := l; may_leave_ := may_leave_ s; turns := turns s |};;
      mret (RateLimited <$> refused)
  end.

(** [strip_bcc] *)
Definition strip_bcc (raw : list byte) : list byte := Headers.without_from raw 0 (List.filter (Headers.is_named (bs "Bcc")) (Headers.split raw).1).

Definition stored_error (e : StoreError) : list byte :=
  match e with QuotaExceeded => bs "552 5.2.2 Mailbox is full" | OtherStoreError text => bs "451 4.3.0 " ++ text end.

Definition is_here (t : list byte * option Z) : bool := bool_decide (is_Some t.2).
Definition leaves (ts : Targets) : bool := existsb (fun t => negb (is_here t)) ts.
Definition only_here (ts : Targets) : Targets := List.filter is_here ts.

Section submit.
(** The header fields mail-parser reads with the addresses of those that hold some, and the name
    of the first author; what footer.rs fills in and appends; the arguments of [Forwarding] and
    [Address]. *)
Context (headers_of : list byte -> option (list (list byte * option (list (option (list byte)))))) (author_name : list byte -> option (list byte))
  (filled : list byte -> list byte -> list byte -> list byte) (append : list byte -> list byte -> option (list byte))
  (digest : list byte -> list byte -> list byte) (domain_str : list byte -> option (list byte))
  (to_lowercase : list byte -> list byte) (domain_to_ascii : list byte -> option (list byte)).

(** The addresses of the fields named one of [names]; [None]: a field that holds no addresses. *)
Definition addresses_of (names : list (list byte)) (h : list byte * option (list (option (list byte)))) : list (list byte) :=
  if existsb (eq_ignore_ascii_case h.1) names then omap (fun a : option (list byte) => a) (default [] h.2) else [].

Definition addresses_named (names : list (list byte)) (fields : list (list byte * option (list (option (list byte))))) : list (list byte) :=
  fields ≫= addresses_of names.

(** [claimed_addresses]: the authors, and whoever else the fields of the message claim to be its
    sender. A field that stands behind a CR on its own is part of the field before it here. *)
Definition claimed_addresses (raw : list byte) : run (list (list byte) * list (list byte)) :=
  ensure (Headers.count raw (bs "From") <=? 1)%nat NoFrom;;
  ensure (bool_decide (Headers.header_block_fault raw = None)) MalformedHeaders;;
  ensure (Headers.count raw (bs "Sender") <=? 1)%nat AmbiguousSender;;
  let fields := default [] (headers_of raw) in
  let from := addresses_named [bs "From"] fields in
  ensure (negb (bool_decide (from = []))) NoFrom;;
  mret (from, addresses_named [bs "Sender"; bs "Resent-From"; bs "Resent-Sender"] fields).

(** [with_company_footer] *)
Fixpoint find_footer (w : World) (from_all : list (list byte)) : option (option (list byte * list byte)) :=
  match from_all with
  | [] => Some None
  | address :: rest =>
      match company_footer w (default [] (domain_of address)) with
      | Some (Some footer) => Some (Some (footer, address))
      | Some None => find_footer w rest
      | None => None
      end
  end.

Definition with_company_footer (w : World) (account : Account) (from_all : list (list byte)) (raw : list byte) : list byte :=
  match find_footer w from_all with
  | Some (Some (footer, from)) =>
      let name := match author_name raw with Some name => if bool_decide (trim name = []) then display_name account else name | None => display_name account end in
      default raw (append raw (filled footer name (to_ascii_lowercase from)))
  | _ => raw
  end.

Fixpoint domains_of (rs : list SubmissionRecipient) : run (list (list byte)) :=
  match rs with
  | [] => mret []
  | r :: rs =>
      d ← ok_or (normalize_address to_lowercase domain_to_ascii (address r)) (InvalidRecipient (address r));
      ds ← domains_of rs; mret (d.2 :: ds)
  end.

(** [checked_account]: whether the message may only go to addresses here, and whether it is for anyone elsewhere. *)
Definition checked_account (w : World) (s : Submission_) : run (bool * bool) :=
  ensure (negb (bool_decide (recipients s = []))) NoRecipients;;
  current ← ok_or (account_by_id w) QueueFailed;
  current ← ok_or (a ← current; if can_log_in a then Some a else None) AccountLocked;
  ensure (protocol_smtp current) SendingOff;;
  ensure (length (recipients s) <=? max_recipients w)%nat TooManyRecipients;;
  ensure (Z.of_nat (length (raw s)) <=? max_message_size w) TooLarge;;
  ensure (negb (bool_decide (mail_from s = [])) && yes (owns w (mail_from s))) (ForbiddenFrom (mail_from s));;
  let raw := Headers.normalize_line_endings (raw s) in
  fs ← claimed_addresses raw;
  let '(from, sender) := fs in
  (match List.find (fun a => negb (yes (owns w a))) (from ++ sender) with Some a => throw (ForbiddenFrom a) | None => mret tt end);;
  internal_only ← (if account_internal_only current then mret true else ok_or (addresses_internal_only w (mail_from s :: from ++ sender)) QueueFailed);
  ds ← domains_of (recipients s);
  let outside := existsb (fun d => negb (local_domain w d)) ds in
  ensure (negb (internal_only && negb (existsb (local_domain w) ds))) InternalOnly;;
  (if outside && negb internal_only then
     suspension ← ok_or (send_suspension w) QueueFailed;
     match suspension with Some until => throw (Suspended (Z.quot (until - now w + 59) 60)) | None => mret tt end
   else mret tt);;
  ensure (Z.of_nat (length (with_company_footer w (account s) from raw)) <=? max_message_size w) TooLarge;;
  mret (internal_only, outside).

(** [check_submission] *)
Definition check_submission (w : World) (s : Submission_) : run unit :=
  checked_account w s;;
  match over_limit (Z.of_nat (length (recipients s))) (per_hour w) (per_day w) with Some e => throw e | None => mret tt end.

(** [may_leave]: asked once. *)
Definition may_leave (w : World) (signed : list byte) : run bool :=
  s ← get;
  match may_leave_ s with
  | Some known => mret known
  | None =>
      let suspended := match suspended_later w with Some (Some _) => true | _ => false end in
      let known := negb suspended && negb (looks_like_spam w signed) in
      set_leave (Some known);; mret known
  end.

(** ** Each recipient *)

(** [deliver_locally]: the error for a bounce, if there is one. *)
Definition deliver_locally (w : World) (s : Submission_) (account : Z) (address signed author : list byte) (to_trash : bool) : run (option (list byte)) :=
  n ← next_turn;
  if to_trash then
    match stores w n account with
    | None => say [Stored account true signed];; mret None
    | Some e => mret (Some (stored_error e))
    end
  else
    let plan := plan (passing w n) account in
    plan ← (if leaves (targets plan) then
              known ← may_leave w signed;
              mret (if (known : bool) then plan else {| keep_copy := true; targets := only_here (targets plan) |})
            else mret plan);
    (match (if bool_decide (targets plan = []) then None else login_of w account) with
     | Some login =>
         let forwarder := {| forwarder_name := login; forwarder_account := Some account; proof := PROVEN; smtp_delivered := false |} in
         say [Passed (Some account) (send digest domain_str (passing w n) forwarder address (mail_from s) signed (targets plan)).2]
     | None => mret tt
     end);;
    if negb (keep_copy plan) then mret None
    else
      match stores w n account with
      | Some e => mret (Some (stored_error e))
      | None =>
          say ([Stored account false signed; Replied account (maybe_reply (passing w n) (vacation_of w account) account (mail_from s) true signed)]
               ++ if itip w then [Scheduled account author] else []);;
          mret None
      end.

Record Tally := { failed : list FailedRecipient; local_deliveries : nat; remote : list SubmissionRecipient; reached : list Z }.

Definition no_tally : Tally := {| failed := []; local_deliveries := 0; remote := []; reached := [] |}.
Definition fails (address error : list byte) (t : Tally) : Tally :=
  {| failed := failed t ++ [{| failed_address := address; error := error |}]; local_deliveries := local_deliveries t; remote := remote t; reached := reached t |}.
Definition counts (t : Tally) : Tally := {| failed := failed t; local_deliveries := S (local_deliveries t); remote := remote t; reached := reached t |}.
Definition reach (account : Z) (t : Tally) : Tally :=
  {| failed := failed t; local_deliveries := local_deliveries t; remote := remote t; reached := reached t ++ [account] |}.
Definition push_remote (r : SubmissionRecipient) (t : Tally) : Tally :=
  {| failed := failed t; local_deliveries := local_deliveries t; remote := remote t ++ [r]; reached := reached t |}.

Definition NOT_TAKEN : list byte := bs "550 5.1.1 This address does not take mail".
Definition refusal (address text : list byte) : list byte := bs "550 5.7.1 <" ++ address ++ bs ">: " ++ text.

(** The members of a group: whether somebody got it, and what went wrong last. *)
Fixpoint each_member (w : World) (s : Submission_) (address signed author : list byte) (ms : list Z) (got_it : bool) (failure : option (list byte)) (t : Tally) :
    run (bool * option (list byte) * Tally) :=
  match ms with
  | [] => mret (got_it, failure, t)
  | m :: ms =>
      match target_of w m with
      | None => each_member w s address signed author ms got_it failure t
      | Some target =>
          if bool_decide (target ∈ reached t) then each_member w s address signed author ms true failure t
          else
            error ← deliver_locally w s target address signed author false;
            match error with
            | None => each_member w s address signed author ms true failure (reach target t)
            | Some e => each_member w s address signed author ms got_it (Some e) (reach target t)
            end
      end
  end.

Definition to_group (w : World) (s : Submission_) (g : Smtp.GroupDelivery) (address signed author : list byte) (t : Tally) : run Tally :=
  if negb (group_accepts w g) then mret (fails address (refusal address (bs "You may not write to this group")) t)
  else if existsb (fun seen => eq_ignore_ascii_case seen (Smtp.group_address g)) (Headers.values signed (bs "Delivered-To")) then mret (counts t)
  else
    done_ ← each_member w s address signed author (Smtp.members g) false None t;
    let '(got_it, failure, t) := done_ in
    mret (if got_it : bool then counts t else fails address (default NOT_TAKEN failure) t).

Definition to_person (w : World) (s : Submission_) (target : Z) (address signed author : list byte) (t : Tally) : run Tally :=
  if bool_decide (target ∈ reached t) then mret (counts t)
  else
    let masked := masked_delivery w address in
    (match masked with Some m => say [MaskedNoted (Smtp.masked_id m)] | None => mret tt end);;
    let to_trash := match masked with Some m => match Smtp.masked_state m with Smtp.Masked.Disabled => true | _ => false end | None => false end in
    error ← deliver_locally w s target address signed author to_trash;
    mret (match error with None => counts (reach target t) | Some e => fails address e (reach target t) end).

Definition to_forwarding (w : World) (s : Submission_) (internal_only : bool) (ts : Targets) (address signed : list byte) (t : Tally) : run Tally :=
  let cut := internal_only && leaves ts in
  let t := if cut then fails address (refusal address (bs "This account may only send to addresses on this server, so it did not go on to addresses elsewhere")) t else t in
  let ts := if cut then only_here ts else ts in
  if cut && bool_decide (ts = []) then mret t
  else
    ts ← (if leaves ts then known ← may_leave w signed; mret (if (known : bool) then ts else only_here ts) else mret ts);
    n ← next_turn;
    let forwarder := {| forwarder_name := address; forwarder_account := Some (account_id (account s)); proof := PROVEN; smtp_delivered := false |} in
    say [Passed None (send digest domain_str (passing w n) forwarder address (mail_from s) signed ts).2];;
    mret (counts t).

(** One turn of the loop over the recipients. *)
Definition one_recipient (w : World) (s : Submission_) (internal_only : bool) (signed author : list byte) (t : Tally) (r : SubmissionRecipient) : run Tally :=
  d ← ok_or (normalize_address to_lowercase domain_to_ascii (address r)) (InvalidRecipient (address r));
  let '(local, domain) := d in
  let address := local ++ bs "@" ++ domain in
  if internal_only && negb (local_domain w domain) then mret (fails address (refusal address (bs "This account may only send to addresses on this server")) t)
  else
    match group_delivery w address with
    | Some g => to_group w s g address signed author t
    | None =>
        match resolve_recipient w address with
        | Some account =>
            match target_of w account with
            | Some target => to_person w s target address signed author t
            | None => mret (fails address NOT_TAKEN t)
            end
        | None =>
            if local_domain w domain then
              match forward_address_targets w address with
              | Some ts => to_forwarding w s internal_only ts address signed t
              | None => mret (fails address (bs "550 5.1.1 <" ++ address ++ bs ">: No such mailbox here") t)
              end
            else mret (push_remote {| Submission.address := address; notify_flags := notify_flags r; orcpt := orcpt r |} t)
        end
    end.

Fixpoint each_recipient (w : World) (s : Submission_) (internal_only : bool) (signed author : list byte) (rs : list SubmissionRecipient) (t : Tally) : run Tally :=
  match rs with
  | [] => mret t
  | r :: rs => t ← one_recipient w s internal_only signed author t r; each_recipient w s internal_only signed author rs t
  end.

(** ** The message *)

(** What senders may not write themselves is taken out. *)
Definition stripped (w : World) (raw : list byte) : list byte :=
  let raw := Headers.strip_verification_info (Headers.strip_label_headers (Headers.strip_faces raw)) in
  Headers.strip_spam_verdicts (Headers.strip_forged_auth_results raw (our_hostname w)).

Definition from_domain (author : list byte) : list byte := default [] (to_ascii_lowercase <$> domain_of author).

(** The fields put on top. *)
Definition added (w : World) (author raw : list byte) : list byte :=
  default [] (sender_face w author)
  ++ (match Headers.first_value raw (bs "Date") with None => bs "Date: " ++ rfc822_date w ++ [x0d; x0a] | Some _ => [] end)
  ++ match Headers.first_value raw (bs "Message-ID") with None => bs "Message-ID: <" ++ random_id w ++ bs "@" ++ from_domain author ++ bs ">" ++ [x0d; x0a] | Some _ => [] end.

Definition message_of_raw (w : World) (author raw : list byte) : list byte := added w author raw ++ Headers.crlf_only (strip_bcc raw).

Definition sign (w : World) (s : Submission_) (author message : list byte) : list byte :=
  signatures_of w (from_domain author) message ++ default [] (trace s) ++ message.

(** [submit_checked] *)
Definition submit_checked (w : World) (s : Submission_) (internal_only : bool) (raw : list byte) (from : list (list byte)) : run Submitted :=
  author ← expect (head from);
  let raw := with_company_footer w (account s) from (stripped w raw) in
  ensure (Z.of_nat (length raw) <=? max_message_size w) TooLarge;;
  let message := message_of_raw w author raw in
  let signed := sign w s author message in
  t ← each_recipient w s internal_only signed author (recipients s) no_tally;
  queued ← (if bool_decide (remote t = []) then mret None
            else
              id ← ok_or (queue_id w) QueueFailed;
              say ([Enqueued (mail_from s) (remote t) signed (env_id s)]
                   ++ match Headers.first_value message (bs "Message-ID") with Some m => [SentIdNoted m (omap (fun r => domain_of (address r)) (remote t))] | None => [] end);;
              mret (Some id));
  ensure (negb (bool_decide (local_deliveries t = 0%nat /\ remote t = [] /\ length (failed t) = length (recipients s)))) NobodyAccepted;;
  say (if bool_decide (failed t = []) then [] else [Bounced (failed t)]);;
  say (match shared_mailbox w author with Some shared => if shared_stores w then [SharedCopy shared (added w author raw ++ raw)] else [] | None => [] end);;
  say [CountedSubmitted];;
  mret {| id := random_id w; queue_message_id := queued; local_deliveries_ := local_deliveries t; remote_recipients := length (remote t) |}.

(** [submit] *)
Definition submit (w : World) (s : Submission_) : run Submitted :=
  who ← checked_account w s;
  let '(internal_only, outside) := who in
  let raw := Headers.normalize_line_endings (raw s) in
  fs ← claimed_addresses raw;
  let from := fst fs in
  match virus w raw with
  | Some name => throw (Virus name)
  | None =>
      if outside && negb internal_only && looks_like_spam w raw then say [Struck SpamStrike];; throw Spam
      else
        refused ← take_send_budget w (account s) (Z.of_nat (length (recipients s)));
        match refused with
        | Some e => say [Struck RateLimitStrike];; throw e
        | None =>
            set_leave (if outside || internal_only then Some true else None);;
            submit_checked w s internal_only raw from
        end
  end.

(** What the session answers its client with ([Session::submit] in inbound.rs, and [Smtp.submit_answer]). *)
Definition told_session (r : outcome SubmitError Submitted) : option Smtp.Submitted :=
  let window (x : SendLimit.Window) := match x with SendLimit.Hour => Smtp.Hour | SendLimit.Day => Smtp.Day end in
  match r with
  | Ok s => Some (Smtp.Queued (id s))
  | Err e =>
      Some (match e with
      | NoFrom => Smtp.NoFrom | ForbiddenFrom a => Smtp.ForbiddenFrom a | AmbiguousSender => Smtp.AmbiguousSender | NoRecipients => Smtp.NoRecipients
      | InvalidRecipient a => Smtp.InvalidRecipient a | NobodyAccepted => Smtp.NobodyAccepted | SendingOff => Smtp.SendingOff | InternalOnly => Smtp.InternalOnly
      | AccountLocked => Smtp.AccountLocked | TooManyRecipients => Smtp.TooManyRecipients | RateLimited x => Smtp.RateLimited (window x) | OverLimit x => Smtp.OverLimit (window x)
      | TooLarge => Smtp.TooLarge | MalformedHeaders => Smtp.MalformedHeaders | Virus name => Smtp.Virus name | Spam => Smtp.Spam
      | Suspended minutes => Smtp.Suspended minutes | QueueFailed => Smtp.QueueFailed end)
  | Panicked | OutOfFuel => None
  end.
End submit.
End Submission.
