(* ===== verification/SubmissionSafe.v ===== *)
(** * What holds of mail our own people send

    Whatever the store, the scanner, the filter and the signer answer: nobody is spoken for,
    nothing leaves that may not, each recipient is accounted for, and what others see of a
    message is what was checked. *)

From S2P Require Import Prelude Effects Utf8 Address SmtpHeaders SendLimit SmtpSession Relay Forwarding Submission.

Module SubmissionSafe.
Import Forwarding.Forwarding Submission.Submission.

(** ** Lines of a header *)

Lemma only_crlf_line p q : Headers.only_crlf ((p ++ [x0a]) ++ q) = Headers.only_crlf (p ++ [x0a]) && Headers.only_crlf q.
Proof.
  induction p as [p IH] using (induction_ltof1 _ length). unfold ltof in IH. destruct p as [|b p]; [done|]. cbn. case_decide as Hb.
  - destruct p as [|c p]; [done|]. cbn. rewrite IH by (cbn; lia). by rewrite andb_assoc.
  - rewrite IH by (cbn; lia). by rewrite andb_assoc.
Qed.

Lemma first_line_ends s : (exists p, Headers.first_line s = p ++ [x0a]) \/ drop (length (Headers.first_line s)) s = [].
Proof.
  induction s as [|b s IH]; [by right|]. cbn. case_decide as Hb; [subst b; left; by exists []|]. destruct IH as [[p ->]|IH]; [left; by exists (b :: p)|by right].
Qed.

Lemma folds_ends s f after : Headers.folds s f after -> f = [] \/ (exists p, f = p ++ [x0a]) \/ after = [].
Proof.
  induction 1 as [s H|s f after H Hf IH]; [by left|right]. destruct (first_line_ends s) as [[p Hp]|Hd].
  - destruct IH as [->|[[q ->]| ->]]; [left; exists p; by rewrite app_nil_r|left; exists (Headers.first_line s ++ q); by rewrite app_assoc|by right].
  - right. rewrite Hd in Hf. by inversion Hf.
Qed.

(** Leaving fields out leaves no line ending broken. *)
Lemma fields_only_crlf s hs stop (keep : Headers.Field -> bool) : Headers.fields s hs stop -> Headers.only_crlf s = true ->
  Headers.only_crlf (Headers.total (List.filter keep hs) ++ stop) = true.
Proof.
  induction 1 as [s H|s n f after hs stop Hs Hsf Hb Hn Hfolds H IH]; [done|]. intros Hc.
  assert (s = (Headers.first_line s ++ f) ++ after) as Heq.
  { rewrite (Headers.first_line_drop s) at 1. pose proof (Headers.folds_app _ _ _ Hfolds) as [-> _]. by rewrite app_assoc. }
  assert ((exists p, Headers.first_line s ++ f = p ++ [x0a]) \/ after = []) as Hends.
  { destruct (folds_ends _ _ _ Hfolds) as [->|[[p ->]| ->]]; [|left; exists (Headers.first_line s ++ p); by rewrite app_assoc|by right].
    destruct (first_line_ends s) as [[p ->]|Hd]; [left; exists p; by rewrite app_nil_r|right; rewrite Hd in Hfolds; by inversion Hfolds]. }
  cbn [List.filter]. destruct Hends as [[p Hp]|Hnil].
  - rewrite Heq, Hp, only_crlf_line in Hc. apply andb_true_iff in Hc as [Hc1 Hc2]. destruct (keep _); [|by apply IH].
    unfold Headers.total in *. cbn. rewrite Hp, <- app_assoc. rewrite <- (app_assoc p), (app_assoc p), only_crlf_line, Hc1. by apply IH.
  - subst after. inversion H; subst; [|done]. unfold Headers.total. cbn. destruct (keep _); cbn; [|done]. rewrite ?app_nil_r in *. by rewrite <- Heq.
Qed.

(** What [without] leaves, as fields and what stops them. *)
Lemma without_left m (u : Headers.Field -> bool) hs stop : Headers.fields m hs stop ->
  Headers.without m (fun h => u (Headers.field h)) = Headers.total (List.filter (fun f => negb (u f)) hs) ++ stop /\
  Headers.without_from m 0 (List.filter (fun h => u (Headers.field h)) (Headers.split m).1) = Headers.total (List.filter (fun f => negb (u f)) hs) ++ stop /\
  Headers.fields (Headers.total (List.filter (fun f => negb (u f)) hs) ++ stop) (List.filter (fun f => negb (u f)) hs) stop.
Proof.
  intros H. assert (Headers.without_from m 0 (List.filter (fun h => u (Headers.field h)) (Headers.split m).1) = Headers.total (List.filter (fun f => negb (u f)) hs) ++ stop) as Hw.
  { rewrite (Headers.split_fields _ _ _ H). cbn [fst]. rewrite (Headers.without_from_place m u hs stop 0 0) by (done || by rewrite drop_0; apply Headers.fields_app). done. }
  destruct (Headers.fields_keep _ _ _ (fun f => negb (u f)) H) as [Hk _]. split_and!; [|done|done]. rewrite <- Hw. unfold Headers.without. by destruct (List.filter _ _); [cbn; rewrite drop_0|].
Qed.

Lemma filter_filter {A} (f g : A -> bool) l : List.filter f (List.filter g l) = List.filter (fun a => g a && f a) l.
Proof. induction l as [|a l IH]; cbn; [done|]. destruct (g a) eqn:Hg; cbn; rewrite IH; [by destruct (f a)|done]. Qed.

(** ** Who may send, and what *)

Section safe.
Context (headers_of : list byte -> option (list (list byte * option (list (option (list byte)))))) (author_name : list byte -> option (list byte))
  (filled : list byte -> list byte -> list byte -> list byte) (append : list byte -> list byte -> option (list byte))
  (digest : list byte -> list byte -> list byte) (domain_str : list byte -> option (list byte))
  (to_lowercase : list byte -> list byte) (domain_to_ascii : list byte -> option (list byte)).

Notation normal := (normalize_address to_lowercase domain_to_ascii).
Notation submit_ := (submit headers_of author_name filled append digest domain_str to_lowercase domain_to_ascii).
Notation checked := (submit_checked author_name filled append digest domain_str to_lowercase domain_to_ascii).
Notation locally := (deliver_locally digest domain_str).
Notation footer_ := (with_company_footer author_name filled append).

(** What the header of the message says about who sends it, as it is read here: fields behind a CR
    on its own are not seen ([hidden_from_is_signed]). *)
Record claims (raw : list byte) (from claimed : list (list byte)) : Prop := {
  claims_one : (Headers.count raw (bs "From") <= 1)%nat /\ (Headers.count raw (bs "Sender") <= 1)%nat;
  claims_block : Headers.header_block_fault raw = None;
  claims_some : from <> [];
  claims_from : from = addresses_named [bs "From"] (default [] (headers_of raw));
  claims_claimed : claimed = addresses_named [bs "Sender"; bs "Resent-From"; bs "Resent-Sender"] (default [] (headers_of raw)) }.

(** The account, or one it sends as, may only send to addresses here. *)
Definition inside_only (w : World) (s : Submission_) : Prop :=
  (exists current, account_by_id w = Some (Some current) /\ account_internal_only current = true) \/
  exists sending, mail_from s ∈ sending /\ addresses_internal_only w sending = Some true.

(** The account may send this message: it is active and may use SMTP, every address the message is
    from is its own, and it is within the limits. [internal]: it must stay here; [outside]: it is
    for somebody elsewhere. *)
Record authorised (w : World) (s : Submission_) (from : list (list byte)) (internal outside : bool) : Prop := {
  auth_active : exists current, account_by_id w = Some (Some current) /\ can_log_in current = true /\ protocol_smtp current = true
    /\ (account_internal_only current = true -> internal = true);
  auth_inside : internal = true -> inside_only w s;
  auth_recipients : recipients s <> [] /\ (length (recipients s) <= max_recipients w)%nat;
  auth_size : Z.of_nat (length (raw s)) <= max_message_size w;
  auth_own : mail_from s <> [] /\ exists claimed, claims (Headers.normalize_line_endings (raw s)) from claimed
    /\ Forall (fun a => owns w a = Some true) (mail_from s :: from ++ claimed);
  auth_outside : outside = false -> forall r local domain, r ∈ recipients s -> normal (address r) = Some (local, domain) -> local_domain w domain = true;
  auth_suspended : outside = true -> internal = false -> send_suspension w = Some None }.

Lemma wp_ensure b e (Q : unit -> Run -> Prop) F s : (b = true -> Q tt s) -> F s -> wp (ensure b e) Q F s.
Proof. destruct b; intros HQ HF; [by apply HQ|done]. Qed.

Lemma yes_true o : yes o = true -> o = Some true.
Proof. by destruct o as [[]|]. Qed.

Lemma find_none {A} (f : A -> bool) l : List.find f l = None -> Forall (fun a => f a = false) l.
Proof. induction l as [|a l IH]; cbn; [constructor|]. destruct (f a) eqn:?; [done|]. intros. by constructor; [|apply IH]. Qed.

Lemma claimed_spec raw (s : Run) : wp (claimed_addresses headers_of raw) (fun fs s' => s' = s /\ claims raw fs.1 fs.2) (fun s' => s' = s) s.
Proof.
  unfold claimed_addresses. repeat (wp_step || (apply wp_ensure; [intros ?|done])). cbn. split; [done|].
  split; cbn; try done; [split; by apply Nat.leb_le|by eapply bool_decide_eq_true|].
  match goal with H : negb (bool_decide (_ = [])) = true |- _ => by apply negb_true_iff, bool_decide_eq_false in H end.
Qed.

Lemma domains_spec rs (s : Run) :
  wp (domains_of to_lowercase domain_to_ascii rs) (fun ds s' => s' = s /\ Forall2 (fun r d => exists local, normal (address r) = Some (local, d)) rs ds) (fun s' => s' = s) s.
Proof.
  induction rs as [|r rs IH]; cbn [domains_of]; [by split; [|constructor]|]. wp_step. apply wp_ok_or; [|done]. intros [local d] Hd. wp_step.
  eapply wp_mono; [| |exact IH]; cbn; [|done]. intros ds s' [-> H]. split; [done|]. constructor; [by eexists|done].
Qed.

Lemma checked_spec w s (st : Run) :
  wp (checked_account headers_of author_name filled append to_lowercase domain_to_ascii w s)
    (fun io st' => st' = st /\ exists from, authorised w s from io.1 io.2 /\ from = addresses_named [bs "From"] (default [] (headers_of (Headers.normalize_line_endings (raw s)))))
    (fun st' => st' = st) st.
Proof.
  unfold checked_account. wp_step. apply wp_ensure; [|done]. intros Hrs. wp_step. apply wp_ok_or; [|done]. intros current Hcur. wp_step. apply wp_ok_or; [|done]. intros a Ha.
  repeat (wp_step; apply wp_ensure; [|done]; intros ?).
  wp_step. eapply wp_mono; [| |apply claimed_spec]; [|by intros ? ->]. cbn beta. intros [from sender] st' [-> Hclaims]. cbn [fst snd] in Hclaims.
  destruct (List.find _ (from ++ sender)) as [bad|] eqn:Hfind; [done|]. do 3 wp_step.
  eapply (wp_mono _ (fun i s' => s' = st /\ (account_internal_only a = true -> i = true) /\ (i = true -> account_internal_only a = true \/ addresses_internal_only w (mail_from s :: from ++ sender) = Some true)) _ (fun s' => s' = st)); [|by intros ? ->|].
  2: { destruct (account_internal_only a); [split_and!; [done..|by left]|]. apply wp_ok_or; [|done]. intros i Hi. split_and!; [done..|]. intros ->. by right. }
  cbn beta. intros internal ? (-> & Hint & Hint'). wp_step. eapply wp_mono; [| |apply domains_spec]; [|by intros ? ->]. cbn beta. intros ds ? [-> Hds]. wp_step. apply wp_ensure; [|done]. intros Hinside.
  set (outside := existsb _ ds). wp_step.
  eapply (wp_mono _ (fun _ s' => s' = st /\ (outside = true -> internal = false -> send_suspension w = Some None)) _ (fun s' => s' = st)); [|by intros ? ->|].
  2: { destruct (outside && negb internal) eqn:Ho; [|by split; [|intros -> ->]]. wp_step. apply wp_ok_or; [|done]. by intros [until|] Hs. }
  cbn beta. intros _ ? [-> Hsus]. wp_step. apply wp_ensure; [|done]. intros Hlen. wp_step. split; [done|]. exists from. split; [|apply Hclaims].
  destruct current as [c|]; [|done]. cbn in Ha. destruct (can_log_in c) eqn:Hcl; [|done]. injection Ha as ->.
  apply andb_true_iff in H2 as [Hm Hown]. split.
  - by exists a.
  - intros Hi. destruct (Hint' Hi) as [?|?]; [left; by exists a|right]. eexists. split; [apply list_elem_of_here|done].
  - split; [by apply negb_true_iff, bool_decide_eq_false in Hrs|by apply Nat.leb_le].
  - by apply Z.leb_le.
  - split; [by apply negb_true_iff, bool_decide_eq_false in Hm|]. exists sender. split; [done|]. constructor; [by apply yes_true|].
    eapply Forall_impl; [by apply find_none|]. cbn. intros x Hx. by apply yes_true, negb_false_iff.
  - intros Ho r local domain Hr Hn. cbn in Ho. apply list_elem_of_lookup in Hr as [i Hi]. destruct (Forall2_lookup_l _ _ _ _ _ Hds Hi) as (d & Hd & l & Hl).
    rewrite Hn in Hl. injection Hl as -> ->. apply list_elem_of_lookup_2 in Hd. destruct (local_domain w d) eqn:Hloc; [done|]. exfalso.
    assert (outside = true) as Hc by (apply existsb_exists; exists d; split; [by apply list_elem_of_In|by rewrite Hloc]). by rewrite Ho in Hc.
  - done.
Qed.
(** ** What one submission does *)

Definition delivered_line (recipient : list byte) : list byte := bs "Delivered-To: " ++ recipient ++ [x0d; x0a].
Definition is_queued (x : Sent) : bool := match x with Queued _ _ _ _ _ => true | _ => false end.

(** Nothing is known that would keep the message from leaving through somebody's forwarding. *)
Definition unsuspicious (w : World) (signed : list byte) : Prop :=
  match suspended_later w with Some (Some _) => False | _ => True end /\ looks_like_spam w signed = false.

Definition elsewhere_ (w : World) (r : SubmissionRecipient) : Prop := exists local domain, address r = local ++ bs "@" ++ domain /\ local_domain w domain = false.

(** What may be done for a message that is sent as [signed]. *)
Definition proper (w : World) (s : Submission_) (internal outside : bool) (signed : list byte) (x : Did) : Prop :=
  match x with
  | Struck _ => False
  | Stored _ _ m => m = signed
  | Passed a sent => forall y, y ∈ sent -> (exists d, message_of y = delivered_line d ++ signed) /\
      (is_queued y = true -> (internal = true \/ outside = true \/ unsuspicious w signed) /\ (a = None -> internal = false))
  | Enqueued f rs m _ => f = mail_from s /\ m = signed /\ internal = false /\ outside = true /\ Forall (elsewhere_ w) rs
  | _ => True
  end.

(** The address of a recipient in its one form. *)
Definition addr (r : SubmissionRecipient) (a : list byte) : Prop := exists local domain, normal (address r) = Some (local, domain) /\ a = local ++ bs "@" ++ domain.

(** Mail for the address [a] is for the account [b]: its own, or that of a member of the group. *)
Definition reaches (w : World) (a : list byte) (b : Z) : Prop :=
  match group_delivery w a with
  | Some g => exists m, m ∈ Smtp.members g /\ target_of w m = Some b
  | None => exists c, resolve_recipient w a = Some c /\ target_of w c = Some b
  end.

(** The account [a] has the message, or keeps no mail that it forwards. *)
Definition kept (w : World) (l : list Did) (a : Z) : Prop := (exists trash m, Stored a trash m ∈ l) \/ exists n, keep_copy (plan (passing w n) a) = false.

Definition store_failed (w : World) (a : Z) : Prop := exists n e, stores w n a = Some e.

(** What became of the account [b]; [told]: the addresses the sender hears of. A group only fails as a whole. *)
Definition person_done (w : World) (s : Submission_) (l : list Did) (told : list (list byte)) (b : Z) : Prop :=
  kept w l b \/ (store_failed w b /\ exists r a, r ∈ recipients s /\ addr r a /\ reaches w a b /\ (a ∈ told \/ is_Some (group_delivery w a))).

(** What became of the address [a]; [queued]: those the message is queued for. *)
Definition done_for (w : World) (s : Submission_) (signed : list byte) (l : list Did) (told queued : list (list byte)) (a : list byte) : Prop :=
  a ∈ queued \/ a ∈ told \/ (exists b, reaches w a b /\ person_done w s l told b) \/
  (exists g, group_delivery w a = Some g /\ existsb (fun seen => eq_ignore_ascii_case seen (Smtp.group_address g)) (Headers.values signed (bs "Delivered-To")) = true) \/
  exists ts sent, forward_address_targets w a = Some ts /\ Passed None sent ∈ l.

Lemma kept_more w l l' a : l ⊆ l' -> kept w l a -> kept w l' a.
Proof. intros Hl [(t & m & H)|H]; [left; exists t, m; by apply Hl|by right]. Qed.

Lemma person_more w s l l' told told' b : l ⊆ l' -> told ⊆ told' -> person_done w s l told b -> person_done w s l' told' b.
Proof.
  intros Hl Ht [H|(H & r & a & ? & ? & ? & H')]; [left; by eapply kept_more|right; split; [done|]]. exists r, a. split_and!; try done. destruct H' as [?|?]; [left; by apply Ht|by right].
Qed.

Lemma done_more w s signed l l' told told' queued queued' a : l ⊆ l' -> told ⊆ told' -> queued ⊆ queued' ->
  done_for w s signed l told queued a -> done_for w s signed l' told' queued' a.
Proof.
  intros Hl Ht Hq [H|[H|[(b & Hb & H)|[H|(ts & sent & H & H')]]]].
  - left. by apply Hq.
  - right; left. by apply Ht.
  - right; right; left. exists b. split; [done|]. by eapply person_more.
  - by right; right; right; left.
  - right; right; right; right. exists ts, sent. split; [done|by apply Hl].
Qed.

Section events.
Context (w : World) (s : Submission_) (internal outside : bool) (signed author : list byte).
Context (Hout : outside = false -> forall r local domain, r ∈ recipients s -> normal (address r) = Some (local, domain) -> local_domain w domain = true).

Notation proper_ := (proper w s internal outside signed).

(** What a step keeps: it adds proper events, and [may_leave_] is not taken back. *)
Definition settled (st : Run) : Prop := may_leave_ st = Some true -> internal = true \/ outside = true \/ unsuspicious w signed.
Definition further (st st' : Run) : Prop := exists x, log st' = log st ++ x /\ Forall proper_ x.

Definition step {A} (R : A -> list Did -> Prop) (m : run A) (st : Run) : Prop :=
  wp m (fun a st' => R a (log st') /\ settled st' /\ further st st') (fun st' => settled st' /\ further st st') st.

Lemma further_refl st : further st st.
Proof. exists []. by rewrite app_nil_r. Qed.

Lemma further_log st st' : further st st' -> log st ⊆ log st'.
Proof. intros (x & -> & _) y ?. apply elem_of_app. by left. Qed.

Lemma further_trans a b c : further a b -> further b c -> further a c.
Proof. intros (x & Hx & Px) (y & Hy & Py). exists (x ++ y). rewrite Hy, Hx, <- app_assoc. split; [done|by apply Forall_app]. Qed.

Lemma step_bind {A B} (m : run A) (k : A -> run B) R R' st :
  step R m st -> (forall a st', R a (log st') -> settled st' -> further st st' -> step R' (k a) st') -> step R' (m ≫= k) st.
Proof.
  unfold step. intros Hm Hk. wp_step. eapply wp_mono; [| |exact Hm]; [|done]. cbn beta. intros a st1 (HR & Hs & Hf). specialize (Hk a st1 HR Hs Hf).
  eapply wp_mono; [| |exact Hk]; cbn beta; [intros b st2 (?&?&?)|intros st2 (?&?)]; split_and!; try done; by eapply further_trans.
Qed.

Lemma step_ret {A} (a : A) (R : A -> list Did -> Prop) st : settled st -> R a (log st) -> step R (mret a) st.
Proof. intros ??. split_and!; [done..|apply further_refl]. Qed.

Lemma step_ok_or {A} (o : option A) e st : settled st -> step (fun a _ => o = Some a) (ok_or o e) st.
Proof. intros ?. apply wp_ok_or; [intros a ->; split_and!; [done..|apply further_refl]|split; [done|apply further_refl]]. Qed.

Lemma step_ensure b e st : settled st -> step (fun _ _ => b = true) (ensure b e) st.
Proof. intros ?. apply wp_ensure; [intros ->; split_and!; [done..|apply further_refl]|split; [done|apply further_refl]]. Qed.

Lemma step_say x st : settled st -> Forall proper_ x -> step (fun _ l => x ⊆ l) (say x) st.
Proof. intros ??. split_and!; cbn; [intros y ?; apply elem_of_app; by right|done|by exists x]. Qed.

Lemma step_turn st : settled st -> step (fun _ _ => True) next_turn st.
Proof. intros ?. split_and!; cbn; [done..|exists []; by rewrite app_nil_r]. Qed.

Lemma step_may_leave st : settled st -> step (fun b _ => b = true -> internal = true \/ outside = true \/ unsuspicious w signed) (may_leave w signed) st.
Proof.
  intros Hs. unfold may_leave, step. wp_step. wp_step. destruct (may_leave_ st) as [b|] eqn:Hb.
  - split_and!; [intros ->; by apply Hs|done|apply further_refl].
  - set (known := negb _ && negb _). assert (known = true -> internal = true \/ outside = true \/ unsuspicious w signed) as Hk.
    { unfold known. intros [H1 H2]%andb_true_iff. right; right. split; [|by apply negb_true_iff]. by destruct (suspended_later w) as [[]|]. }
    split_and!; cbn; [done|intros [= ->]; by apply Hk|exists []; by rewrite app_nil_r].
Qed.
(** What [send] does with a message. *)
Lemma sent_messages fw f recipient envelope_from ts y : y ∈ (send digest domain_str fw f recipient envelope_from signed ts).2 ->
  (exists d, message_of y = delivered_line d ++ signed) /\ (is_queued y = true -> leaves ts = true).
Proof.
  pose proof (send_spec digest domain_str fw f recipient envelope_from signed ts) as H. destruct (send _ _ _ _ _ _ _ _) as [reached sent]. destruct H as (_ & _ & stored & queued & -> & Hs & Hq). cbn.
  assert (bs "Delivered-To: " ++ recipient ++ [x0d; x0a] ++ signed = delivered_line recipient ++ signed) as Hline by (unfold delivered_line; by rewrite <- !app_assoc).
  intros [Hy|Hy]%elem_of_app.
  - rewrite Forall_forall in Hs. destruct (Hs y Hy) as (account & -> & _). cbn. split; [exists recipient; exact Hline|done].
  - destruct Hq as [->|(return_path & -> & Hne & _)]; [by apply elem_of_nil in Hy|]. apply list_elem_of_singleton in Hy as ->. cbn. split; [exists recipient; exact Hline|]. intros _.
    clear -Hne. unfold leaves, is_here, elsewhere in *. induction ts as [|[a [b|]] ts IH]; cbn in *; [done|by apply IH|done].
Qed.

Lemma only_here_leaves ts : leaves (only_here ts) = false.
Proof. unfold leaves, only_here. induction ts as [|t ts IH]; cbn; [done|]. destruct (is_here t) eqn:Ht; cbn; [by rewrite Ht, IH|done]. Qed.

Lemma locally_step account address to_trash st : settled st ->
  step (fun r l => match r with None => kept w l account | Some _ => store_failed w account end) (locally w s account address signed author to_trash) st.
Proof.
  intros Hst. unfold deliver_locally. eapply step_bind; [by apply step_turn|]. intros n st1 _ Hs1 _. clear st Hst.
  destruct to_trash.
  { destruct (stores w n account) as [e|] eqn:He; [apply step_ret; [done|by exists n, e]|]. eapply step_bind; [apply (step_say [Stored account true signed]); [done|by repeat constructor]|].
    intros [] st2 Hin Hs2 _. apply step_ret; [done|]. left. exists true, signed. apply Hin. by apply list_elem_of_singleton. }
  set (plan0 := plan (passing w n) account).
  eapply (step_bind _ _ (fun p _ => (leaves (targets p) = true -> internal = true \/ outside = true \/ unsuspicious w signed) /\ (keep_copy p = false -> keep_copy plan0 = false))).
  { destruct (leaves (targets plan0)) eqn:Hl; [|apply step_ret; [done|by rewrite Hl]]. eapply step_bind; [by apply step_may_leave|]. intros [] st2 Hk Hs2 _; apply step_ret; try done.
    - split; [by intros _; apply Hk|done].
    - cbn. by rewrite only_here_leaves. }
  intros p st2 [Hk Hc] Hs2 _. clear st1 Hs1.
  eapply (step_bind _ _ (fun _ _ => True)).
  { destruct (if bool_decide _ then None else _) as [login|]; [|by apply step_ret].
    eapply wp_mono; [| |apply step_say; [done|]]; cbn beta; [by intros [] ? (_ & ?)|done|]. constructor; [|constructor]. intros y Hy. apply sent_messages in Hy as [Hm Hq]. split; [done|].
    intros Hy. split; [by apply Hk, Hq|done]. }
  intros [] st3 _ Hs3 _. clear st2 Hs2. destruct (keep_copy p) eqn:Hkc; cbn [negb]; [|apply step_ret; [done|right; exists n; by apply Hc]].
  destruct (stores w n account) as [e|] eqn:He; [apply step_ret; [done|by exists n, e]|]. eapply step_bind; [apply step_say; [done|]|].
  { apply Forall_app. split; [by repeat constructor|]. destruct (itip w); by repeat constructor. }
  intros [] st4 Hin Hs4 _. apply step_ret; [done|]. left. exists false, signed. apply Hin. by apply list_elem_of_here.
Qed.
(** *** The loop over the recipients *)

Definition told (t : Tally) : list (list byte) := failed_address <$> failed t.
Definition queued (t : Tally) : list (list byte) := address <$> remote t.

Record tally_ok (t : Tally) (l : list Did) : Prop := {
  tally_reached : forall b, b ∈ reached t -> person_done w s l (told t) b;
  tally_inside : internal = true -> remote t = [];
  tally_remote : Forall (elsewhere_ w) (remote t) /\ (remote t <> [] -> outside = true) }.

Definition tally_more (t t' : Tally) : Prop := told t ⊆ told t' /\ queued t ⊆ queued t'.

Lemma tally_more_refl t : tally_more t t.
Proof. by split. Qed.

Lemma tally_more_trans a b c : tally_more a b -> tally_more b c -> tally_more a c.
Proof. intros [H1 H2] [H3 H4]. split; [by rewrite H1|by rewrite H2]. Qed.

Lemma tally_ok_log t l l' : l ⊆ l' -> tally_ok t l -> tally_ok t l'.
Proof. intros Hl [H1 H2 H3]. split; [|done..]. intros b Hb. eapply person_more; [done..|by apply H1]. Qed.

Lemma tally_further t st st' : further st st' -> tally_ok t (log st) -> tally_ok t (log st').
Proof. intros Hf. by apply tally_ok_log, further_log. Qed.

Lemma counts_ok t l : tally_ok t l -> tally_ok (counts t) l /\ tally_more t (counts t).
Proof. by intros [H1 H2 H3]. Qed.

Lemma fails_ok a e t l : tally_ok t l -> tally_ok (fails a e t) l /\ tally_more t (fails a e t) /\ a ∈ told (fails a e t).
Proof.
  intros [H1 H2 H3]. assert (told t ⊆ told (fails a e t)) as Ht by (unfold told; cbn; rewrite fmap_app; intros x ?; apply elem_of_app; by left).
  split_and!; [split; [|done..]; intros b Hb; eapply person_more; [done..|by apply H1]|done|].
  unfold told. cbn. rewrite fmap_app. apply elem_of_app. right. by apply list_elem_of_here.
Qed.

Lemma reach_ok b t l : tally_ok t l -> person_done w s l (told t) b -> tally_ok (reach b t) l /\ tally_more t (reach b t).
Proof. intros [H1 H2 H3] Hb. split; [|done]. split; [|done..]. cbn. intros c [Hc| ->%list_elem_of_singleton]%elem_of_app; [by apply H1|done]. Qed.

Section recipient.
Context (r : SubmissionRecipient) (a : list byte) (Hr : r ∈ recipients s) (Ha : addr r a).

(** The turn ends well: the tally is in order, and [a] has an end. *)
Definition ended (t t' : Tally) (l : list Did) : Prop := tally_ok t' l /\ tally_more t t' /\ done_for w s signed l (told t') (queued t') a.

Lemma failed_ended e t l : tally_ok t l -> ended t (fails a e t) l.
Proof. intros (H1 & H2 & H3)%(fails_ok a e). split_and!; [done..|by right; left]. Qed.

Lemma failed_after e t t1 l : tally_ok t1 l -> tally_more t t1 -> ended t (fails a e t1) l.
Proof. intros (H1 & H2 & H3)%(fails_ok a e) Hm. split_and!; [done|by eapply tally_more_trans|by right; left]. Qed.

Lemma members_step g ms got failure t st : group_delivery w a = Some g -> (forall m, m ∈ ms -> m ∈ Smtp.members g) -> settled st -> tally_ok t (log st) ->
  (got = true -> exists b, reaches w a b /\ person_done w s (log st) (told t) b) ->
  step (fun x l => let '(got', _, t') := x in tally_ok t' l /\ tally_more t t' /\ (got' = true -> exists b, reaches w a b /\ person_done w s l (told t') b))
    (each_member digest domain_str w s a signed author ms got failure t) st.
Proof.
  intros Hg. revert got failure t st. induction ms as [|m ms IH]; intros got failure t st Hms Hs Ht Hgot; cbn [each_member].
  { by apply step_ret. }
  assert (forall m', m' ∈ ms -> m' ∈ Smtp.members g) as Hms' by (intros m' ?; apply Hms; by apply list_elem_of_further).
  destruct (target_of w m) as [b|] eqn:Hb; [|by apply IH].
  assert (reaches w a b) as Hreach by (unfold reaches; rewrite Hg; exists m; split; [by apply Hms, list_elem_of_here|done]).
  case_bool_decide as Hin. { apply IH; try done. intros _. exists b. split; [done|by apply Ht]. }
  eapply step_bind; [by apply locally_step|]. intros error st1 He Hs1 Hf. pose proof (tally_further _ _ _ Hf Ht) as Ht1.
  assert (person_done w s (log st1) (told t) b) as Hd.
  { destruct error; [right; split; [done|]; exists r, a; split_and!; try done; right; by rewrite Hg|by left]. }
  destruct (reach_ok b t _ Ht1 Hd) as [Ht2 Hm]. destruct error as [e|].
  - eapply wp_mono; [| |apply IH; try done]; cbn beta; [|done|].
    + by intros [[got' f'] t'] st2 ((?&?&?)&?&?).
    + intros Hg1. destruct (Hgot Hg1) as (c & ? & Hc). exists c. split; [done|]. eapply person_more; [by eapply further_log|done..].
  - eapply wp_mono; [| |apply IH; try done]; cbn beta; [|done|].
    + by intros [[got' f'] t'] st2 ((?&?&?)&?&?).
    + intros _. by exists b.
Qed.

Lemma group_step g t st : group_delivery w a = Some g -> settled st -> tally_ok t (log st) -> step (ended t) (to_group digest domain_str w s g a signed author t) st.
Proof.
  intros Hg Hs Ht. unfold to_group. destruct (negb (group_accepts w g)); [apply step_ret; [done|by apply failed_ended]|]. destruct (existsb _ _) eqn:Hseen.
  { apply step_ret; [done|]. destruct (counts_ok t _ Ht) as [H1 H2]. split_and!; [done..|]. right; right; right; left. by exists g. }
  eapply step_bind; [by apply (members_step g)|]. intros [[got failure] t'] st1 (Ht1 & Hm & Hgot) Hs1 _. apply step_ret; [done|]. destruct got; [|by apply failed_after].
  destruct (counts_ok t' _ Ht1) as [H1 H2]. split_and!; [done|done|]. right; right; left. by apply Hgot.
Qed.

Lemma person_step b t st : reaches w a b -> settled st -> tally_ok t (log st) -> step (ended t) (to_person digest domain_str w s b a signed author t) st.
Proof.
  intros Hb Hs Ht. unfold to_person. case_bool_decide as Hin.
  { apply step_ret; [done|]. destruct (counts_ok t _ Ht) as [H1 H2]. split_and!; [done..|]. right; right; left. exists b. split; [done|by apply Ht]. }
  eapply (step_bind _ _ (fun _ _ => True)).
  { destruct (masked_delivery w a); [|by apply step_ret]. eapply wp_mono; [| |apply step_say; [done|by repeat constructor]]; cbn beta; [by intros [] ? (_ & ?)|done]. }
  intros [] st1 _ Hs1 Hf1. pose proof (tally_further _ _ _ Hf1 Ht) as Ht1. eapply step_bind; [by apply locally_step|]. intros error st2 He Hs2 Hf2. pose proof (tally_further _ _ _ Hf2 Ht1) as Ht2.
  apply step_ret; [done|]. destruct error as [e|].
  - destruct (fails_ok a e t _ Ht2) as (H1 & H2 & H3). change (fails a e (reach b t)) with (reach b (fails a e t)).
    destruct (reach_ok b _ _ H1) as [H4 H5]. { right. split; [done|]. exists r, a. split_and!; [done..|by left]. }
    split_and!; [done|done|by right; left].
  - destruct (reach_ok b t _ Ht2) as [H1 H2]; [by left|]. destruct (counts_ok _ _ H1) as [H3 H4]. split_and!; [done|done|]. right; right; left. exists b. split; [done|by left].
Qed.

Lemma forwarding_step ts t st : forward_address_targets w a = Some ts -> settled st -> tally_ok t (log st) -> step (ended t) (to_forwarding digest domain_str w s internal ts a signed t) st.
Proof.
  intros Hts Hs Ht. unfold to_forwarding. set (cut := internal && leaves ts). set (t1 := if cut then fails a _ t else t). set (ts1 := if cut then only_here ts else ts).
  assert (tally_ok t1 (log st) /\ tally_more t t1 /\ (cut = true -> a ∈ told t1)) as (H1 & H2 & H3) by (unfold t1; destruct cut; [|done]; by destruct (fails_ok a (refusal a (bs "This account may only send to addresses on this server, so it did not go on to addresses elsewhere")) t _ Ht) as (?&?&?)).
  destruct (cut && bool_decide (ts1 = [])) eqn:Hc.
  { apply andb_true_iff in Hc as [Hc _]. apply step_ret; [done|]. split_and!; [done..|]. right; left. by apply H3. }
  assert (leaves ts1 = true -> internal = false) as Hin.
  { unfold ts1, cut. destruct internal; cbn [andb]; [|done]. destruct (leaves ts) eqn:Hl; [by rewrite only_here_leaves|by rewrite Hl]. }
  eapply (step_bind _ _ (fun ts' _ => leaves ts' = true -> internal = false /\ (internal = true \/ outside = true \/ unsuspicious w signed))).
  { destruct (leaves ts1) eqn:Hl; [|apply step_ret; [done|by intros Hl'; rewrite Hl in Hl']]. eapply step_bind; [by apply step_may_leave|]. intros known st1 Hk Hs1 _. apply step_ret; [done|].
    destruct known; [intros _; split; [by apply Hin|by apply Hk]|by rewrite only_here_leaves]. }
  intros ts' st1 Hts' Hs1 Hf1. eapply step_bind; [by apply step_turn|]. intros n st2 _ Hs2 Hf2. eapply step_bind; [apply step_say; [done|]|].
  { constructor; [|constructor]. intros y Hy. apply sent_messages in Hy as [Hm Hq]. split; [done|]. intros Hy. destruct (Hts' (Hq Hy)) as [H4 H5]. by split; [|intros _]. }
  intros [] st3 Hlog Hs3 Hf3. apply step_ret; [done|]. destruct (counts_ok t1 (log st3)) as [H4 H5]. { by eapply tally_further, tally_further, tally_further. }
  split_and!; [done|done|]. right; right; right; right. eexists ts, _. split; [done|]. apply Hlog. by apply list_elem_of_here.
Qed.
End recipient.

Lemma recipient_step r t st : r ∈ recipients s -> settled st -> tally_ok t (log st) ->
  step (fun t' l => exists a, addr r a /\ ended a t t' l) (one_recipient digest domain_str to_lowercase domain_to_ascii w s internal signed author t r) st.
Proof.
  intros Hr Hs Ht. unfold one_recipient. eapply step_bind; [by apply step_ok_or|]. intros [local domain] st1 Hn Hs1 Hf1. cbn beta in Hn. set (a := local ++ bs "@" ++ domain).
  assert (addr r a) as Ha by (by exists local, domain). pose proof (tally_further _ _ _ Hf1 Ht) as Ht1. clear st Hs Hf1 Ht.
  assert (forall m, step (ended a t) m st1 -> step (fun t' l => exists a, addr r a /\ ended a t t' l) m st1) as Hend.
  { intros m Hm. eapply wp_mono; [| |exact Hm]; cbn beta; [|done]. intros t' st2 (?&?&?). split_and!; try done. by exists a. }
  apply Hend. destruct (internal && negb (local_domain w domain)) eqn:Hi; [apply step_ret; [done|by apply failed_ended]|].
  destruct (group_delivery w a) as [g|] eqn:Hg; [by eapply group_step|]. destruct (resolve_recipient w a) as [c|] eqn:Hc.
  { destruct (target_of w c) as [b|] eqn:Hb; [|apply step_ret; [done|by apply failed_ended]]. eapply person_step; try done. unfold reaches. rewrite Hg. by exists c. }
  destruct (local_domain w domain) eqn:Hl.
  { destruct (forward_address_targets w a) as [ts|] eqn:Hts; [|apply step_ret; [done|by apply failed_ended]]. by apply forwarding_step. }
  apply step_ret; [done|]. destruct Ht1 as [H1 H2 [H3 H4]].
  assert (internal = false) as Hint by (by destruct internal). assert (outside = true) as Hout' by (destruct outside; [done|]; by rewrite (Hout eq_refl r local domain) in Hl).
  split_and!.
  - split; cbn; [done|by rewrite Hint|]. split; [|done]. apply Forall_app. split; [done|]. constructor; [|constructor]. by exists local, domain.
  - split; [done|]. unfold queued. cbn. rewrite fmap_app. intros x ?. apply elem_of_app. by left.
  - left. unfold queued. cbn. rewrite fmap_app. apply elem_of_app. right. by apply list_elem_of_here.
Qed.

Lemma recipients_step rs : forall t st, rs ⊆ recipients s -> settled st -> tally_ok t (log st) ->
  step (fun t' l => tally_ok t' l /\ tally_more t t' /\ forall r, r ∈ rs -> exists a, addr r a /\ done_for w s signed l (told t') (queued t') a)
    (each_recipient digest domain_str to_lowercase domain_to_ascii w s internal signed author rs t) st.
Proof.
  induction rs as [|r rs IH]; intros t st Hrs Hs Ht; cbn [each_recipient]; [apply step_ret; [done|]; split_and!; [done..|by intros r ?%elem_of_nil]|].
  eapply step_bind; [by apply recipient_step; [apply Hrs, list_elem_of_here|..]|]. intros t1 st1 (a & Ha & Ht1 & Hm1 & Hd) Hs1 Hf1.
  eapply wp_mono; [| |apply IH; [|done..]]; cbn beta; [|done|by intros x ?; apply Hrs, list_elem_of_further].
  intros t2 st2 ((Ht2 & Hm2 & Hall) & Hs2 & Hf2). split_and!; try done; [by eapply tally_more_trans|]. intros r' [->|Hr']%elem_of_cons; [|by apply Hall].
  exists a. split; [done|]. eapply done_more; [by eapply further_log|apply Hm2..|done].
Qed.
End events.

(** ** The whole submission *)

(** The addresses the sender hears of, and those the message was queued for. *)
Definition bounced (l : list Did) : list (list byte) := l ≫= fun x => match x with Bounced fs => failed_address <$> fs | _ => [] end.
Definition enqueued (l : list Did) : list (list byte) := l ≫= fun x => match x with Enqueued _ rs _ _ => address <$> rs | _ => [] end.

Lemma bounced_in fs l : Bounced fs ∈ l -> failed_address <$> fs ⊆ bounced l.
Proof. intros H a Ha. apply list_elem_of_bind. by exists (Bounced fs). Qed.

Lemma enqueued_in f rs m e l : Enqueued f rs m e ∈ l -> address <$> rs ⊆ enqueued l.
Proof. intros H a Ha. apply list_elem_of_bind. by exists (Enqueued f rs m e). Qed.

(** The message as it is sent. *)
Definition signed_ (w : World) (s : Submission_) (from : list (list byte)) (author : list byte) : list byte :=
  sign w s author (message_of_raw w author (footer_ w (account s) from (stripped w (Headers.normalize_line_endings (raw s))))).

Lemma submit_checked_step w s internal outside from author st :
  (outside = false -> forall r local domain, r ∈ recipients s -> normal (address r) = Some (local, domain) -> local_domain w domain = true) ->
  head from = Some author -> let signed := signed_ w s from author in settled w internal outside signed st ->
  step w s internal outside signed (fun _ l => forall r, r ∈ recipients s -> exists a, addr r a /\ done_for w s signed l (bounced l) (enqueued l) a)
    (checked w s internal (Headers.normalize_line_endings (raw s)) from) st.
Proof.
  intros Hout Hauthor signed Hs. unfold submit_checked. rewrite Hauthor. cbn [expect]. eapply (step_bind _ _ _ _ _ _ _ (fun a _ => a = author)); [by apply step_ret|].
  intros ? st1 -> Hs1 _. clear st Hs. fold footer_. set (sent := footer_ w (account s) from _). eapply step_bind; [by apply step_ensure|]. intros [] st2 _ Hs2 _. clear st1 Hs1.
  change (sign w s author (message_of_raw w author sent)) with signed. set (message := message_of_raw w author sent).
  eapply step_bind; [apply recipients_step; [done|done|done|]; split; [by intros b ?%elem_of_nil|done|done]|]. intros t st3 (Ht & _ & Hall) Hs3 _. clear st2 Hs2. destruct Ht as [_ Hin [Hrem Hno]].
  eapply (step_bind _ _ _ _ _ _ _ (fun _ l => queued t ⊆ enqueued l)).
  { unfold queued. case_bool_decide as He; [apply step_ret; [done|]; rewrite He; by intros x ?%elem_of_nil|]. eapply step_bind; [by apply step_ok_or|]. intros id st4 _ Hs4 _.
    assert (internal = false) as Hi by (destruct internal; [by destruct He; apply Hin|done]).
    eapply step_bind; [apply step_say; [done|]; apply Forall_app; split; [constructor; [split_and!; [done|done|done|by apply Hno|done]|constructor]|destruct (Headers.first_value _ _); by repeat constructor]|].
    intros [] st5 Hlog Hs5 _. apply step_ret; [done|]. eapply enqueued_in, Hlog. by apply list_elem_of_here. }
  intros qid st4 Hq Hs4 Hf4. eapply step_bind; [by apply step_ensure|]. intros [] st5 _ Hs5 Hf5.
  eapply (step_bind _ _ _ _ _ _ _ (fun _ l => told t ⊆ bounced l)).
  { eapply wp_mono; [| |apply step_say; [done|]]; cbn beta; [|done|by case_bool_decide; repeat constructor]. intros [] st6 (Hlog & ? & ?). split; [|done]. unfold told. case_bool_decide as He; [rewrite He; by intros x ?%elem_of_nil|].
    eapply bounced_in, Hlog. by apply list_elem_of_here. }
  intros [] st6 Hb Hs6 Hf6. eapply step_bind; [apply step_say; [done|]|]. { destruct (shared_mailbox w author); [|constructor]. destruct (shared_stores w); by repeat constructor. }
  intros [] st7 _ Hs7 Hf7. eapply step_bind; [apply step_say; [done|by repeat constructor]|]. intros [] st8 _ Hs8 Hf8. apply step_ret; [done|].
  intros r Hr. destruct (Hall r Hr) as (a & Ha & Hd). exists a. split; [done|].
  assert (forall f : list Did -> list (list byte), (forall x y, f (x ++ y) = f x ++ f y) -> forall i j, further w s internal outside signed i j -> f (log i) ⊆ f (log j)) as Hgrow.
  { intros f Hf i j (x & -> & _). rewrite Hf. intros y ?. apply elem_of_app. by left. }
  assert (forall x y, bounced (x ++ y) = bounced x ++ bounced y) as Hba by (intros; apply bind_app). assert (forall x y, enqueued (x ++ y) = enqueued x ++ enqueued y) as Hea by (intros; apply bind_app).
  assert (further w s internal outside signed st6 st8) as H68 by (by eapply further_trans). assert (further w s internal outside signed st4 st6) as H46 by (by eapply further_trans).
  eapply done_more; [| | |exact Hd].
  - apply (further_log w s internal outside signed). eapply further_trans; [done|]. by eapply further_trans.
  - etrans; [exact Hb|]. by apply Hgrow.
  - etrans; [exact Hq|]. apply Hgrow; [done|]. by eapply further_trans.
Qed.
(** What let the message through: the account, the scanner, the filter and the limits. *)
Definition let_through (w : World) (s : Submission_) (l : SendLimit.State) (from : list (list byte)) (internal outside : bool) : Prop :=
  let n := Z.of_nat (length (recipients s)) in let m := Headers.normalize_line_endings (raw s) in
  authorised w s from internal outside /\ virus w m = None /\ (outside = true -> internal = false -> looks_like_spam w m = false) /\
  over_limit n (per_hour w) (per_day w) = None /\ (SendLimit.take (account_id (account s)) n (per_hour w) (per_day w) (now w) l).1 = None.

(** A run that touched the message. *)
Definition went_on (w : World) (s : Submission_) (l : SendLimit.State) (x : list Did) (P : list byte -> Prop) : Prop :=
  exists from author internal outside, let_through w s l from internal outside /\ head from = Some author /\
    Forall (proper w s internal outside (signed_ w s from author)) x /\ P (signed_ w s from author).

Definition struck (x : Did) : Prop := match x with Struck _ => True | _ => False end.

Lemma budget_spec w a n st :
  wp (take_send_budget w a n) (fun r st' => log st' = log st /\ (r = None -> over_limit n (per_hour w) (per_day w) = None /\ (SendLimit.take (account_id a) n (per_hour w) (per_day w) (now w) (limits st)).1 = None))
    (fun _ => False) st.
Proof.
  unfold take_send_budget. destruct (over_limit n _ _) as [e|]; [by split|]. wp_step. wp_step. destruct (SendLimit.take _ _ _ _ _ _) as [refused l]. repeat wp_step. cbn. split; [done|]. by destruct refused.
Qed.

Lemma submit_spec w s st :
  wp (submit_ w s)
    (fun _ st' => exists x, log st' = log st ++ x /\ went_on w s (limits st) x
      (fun signed => forall r, r ∈ recipients s -> exists a, addr r a /\ done_for w s signed (log st') (bounced (log st')) (enqueued (log st')) a))
    (fun st' => exists x, log st' = log st ++ x /\ (Forall struck x \/ went_on w s (limits st) x (fun _ => True))) st.
Proof.
  assert (forall st', log st' = log st -> exists x, log st' = log st ++ x /\ (Forall struck x \/ went_on w s (limits st) x (fun _ => True))) as Hnone.
  { intros st' ->. exists []. rewrite app_nil_r. split; [done|]. left. constructor. }
  unfold submit. wp_step. eapply wp_mono; [| |apply checked_spec]; [|by intros ? ->; apply Hnone]. cbn beta. intros [internal outside] ? [-> (from & Hauth & Hfrom)]. cbn [fst snd] in Hauth. wp_step.
  eapply wp_mono; [| |apply claimed_spec]; [|by intros ? ->; apply Hnone]. cbn beta. intros [from' claimed] ? [-> Hc]. cbn [fst snd] in *.
  assert (from' = from) as -> by (rewrite Hfrom; apply Hc). destruct (virus w _) as [name|] eqn:Hvirus; [by apply Hnone|].
  destruct (outside && negb internal && looks_like_spam w _) eqn:Hspam.
  { unfold say. repeat wp_step. cbn. exists [Struck SpamStrike]. split; [done|]. left. by repeat constructor. }
  wp_step. eapply wp_mono; [| |apply budget_spec]; [|done]. cbn beta. intros refused st1 [Hlog Hbudget]. destruct refused as [e|].
  { unfold say. repeat wp_step. cbn. rewrite Hlog. exists [Struck RateLimitStrike]. split; [done|]. left. by repeat constructor. }
  destruct (Hbudget eq_refl) as [Hover Htake]. clear Hbudget.
  assert (let_through w s (limits st) from internal outside) as Hlet.
  { split_and!; try done. intros -> ->. by destruct (looks_like_spam w _). }
  assert (exists author, head from = Some author) as [author Hauthor] by (destruct Hc as [_ _ Hne _ _]; destruct from; [done|by eexists]).
  wp_step. unfold set_leave. wp_step. set (st2 := {| log := log st1; limits := _; may_leave_ := _; turns := _ |}).
  assert (settled w internal outside (signed_ w s from author) st2) as Hs2 by (intros H; cbn in H; destruct outside, internal; auto; done).
  eapply wp_mono; [| |apply (submit_checked_step w s internal outside from author st2); [apply Hauth|done|done]]; cbn beta.
  - intros sub st3 (Hdone & _ & x & Hx & Hp). exists x. cbn in Hx. rewrite Hlog in Hx. split; [done|]. by exists from, author, internal, outside.
  - intros st3 (_ & x & Hx & Hp). exists x. cbn in Hx. rewrite Hlog in Hx. split; [done|]. right. by exists from, author, internal, outside.
Qed.



(** C9: nobody is forgotten. When a submission succeeds, each of its recipients has an address it
    is queued for, or the sender gets a bounce that names it, or it was handed to a forwarding
    address, or the group has had it, or it is for somebody here, or a member of the group, who
    has it, or keeps no mail of what they forward, or whose mailbox did not take it, which the
    sender hears of unless they are in a group. *)
Theorem submission_accounted w s st :
  let '(r, st') := submit_ w s st in match r with
  | Ok _ => exists signed, forall r, r ∈ recipients s -> exists a, addr r a /\ done_for w s signed (log st') (bounced (log st')) (enqueued (log st')) a
  | Err _ => True
  | Panicked | OutOfFuel => False
  end.
Proof.
  pose proof (submit_spec w s st) as H. unfold wp in H. destruct (submit_ w s st) as [[] st']; try done.
  destruct H as (x & _ & from & author & internal & outside & _ & _ & _ & H). eexists. exact H.
Qed.
(** ** What the others see *)

Definition named (n : list byte) (f : Headers.Field) : bool := eq_ignore_ascii_case f.1 n.

(** The fields that people may not write themselves, and blind copies. *)
Definition removed (hostname : list byte) (f : Headers.Field) : bool :=
  named (bs "Face") f || named Headers.LABEL_HEADER f || named (bs "Verification-Info") f || Headers.forged hostname f
  || (named (bs "X-Spam-Score") f || named (bs "X-Spam-Status") f) || named (bs "Bcc") f.

Lemma stripped_fields w m hs stop : Headers.fields m hs stop ->
  let keep f := negb (removed (our_hostname w) f) in
  strip_bcc (stripped w m) = Headers.total (List.filter keep hs) ++ stop /\ Headers.fields (Headers.total (List.filter keep hs) ++ stop) (List.filter keep hs) stop.
Proof.
  intros H keep. unfold stripped, Headers.strip_spam_verdicts, Headers.strip_forged_auth_results, Headers.strip_verification_info, Headers.strip_label_headers, Headers.strip_faces, strip_bcc.
  destruct (without_left _ (named (bs "Face")) _ _ H) as (H1 & _ & F1). change (Headers.is_named (bs "Face")) with (fun h => named (bs "Face") (Headers.field h)). rewrite H1.
  destruct (without_left _ (named Headers.LABEL_HEADER) _ _ F1) as (H2 & _ & F2). change (Headers.is_named Headers.LABEL_HEADER) with (fun h => named Headers.LABEL_HEADER (Headers.field h)). rewrite H2.
  destruct (without_left _ (named (bs "Verification-Info")) _ _ F2) as (H3 & _ & F3). change (Headers.is_named (bs "Verification-Info")) with (fun h => named (bs "Verification-Info") (Headers.field h)). rewrite H3.
  destruct (without_left _ (Headers.forged (our_hostname w)) _ _ F3) as (H4 & _ & F4).
  change (Headers.without ?m (fun h => Headers.is_named (bs "Authentication-Results") h && Headers.claims_to_be (Headers.value h) (our_hostname w)))
    with (Headers.without m (fun h => Headers.forged (our_hostname w) (Headers.field h))). rewrite H4.
  destruct (without_left _ (fun f => named (bs "X-Spam-Score") f || named (bs "X-Spam-Status") f) _ _ F4) as (H5 & _ & F5).
  change (fun h => Headers.is_named (bs "X-Spam-Score") h || Headers.is_named (bs "X-Spam-Status") h) with (fun h => named (bs "X-Spam-Score") (Headers.field h) || named (bs "X-Spam-Status") (Headers.field h)). rewrite H5.
  destruct (without_left _ (named (bs "Bcc")) _ _ F5) as (_ & H6 & F6). change (Headers.is_named (bs "Bcc")) with (fun h => named (bs "Bcc") (Headers.field h)). rewrite H6.
  match type of F6 with Headers.fields _ ?left _ => assert (List.filter keep hs = left) as -> end; [|done].
  rewrite !filter_filter. apply List.filter_ext. intros f. unfold keep, removed. rewrite !negb_orb. by rewrite <- ?andb_assoc.
Qed.

(** C11: what others see is what was checked. Where line endings are whole and no company footer is
    set, the header of the message as it is sent is what this server puts on top, followed by
    exactly the fields the sender wrote, byte by byte and in their order, without blind copies,
    pictures, labels, verification notes and verdicts in this server's name; and the body is the
    same. So From and Sender are those that were checked, and no Bcc is left. *)
Theorem seen_as_checked w s from author fs :
  let m := Headers.normalize_line_endings (raw s) in
  let message := message_of_raw w author (stripped w m) in
  let top := signatures_of w (from_domain author) message ++ default [] (trace s) ++ added w author (stripped w m) in
  (forall d, company_footer w d = Some None) -> Headers.only_crlf m = true -> Headers.header_block_fault m = None ->
  Headers.fields top fs [] -> complete top ->
  map Headers.field (Headers.split (signed_ w s from author)).1 = fs ++ List.filter (fun f => negb (removed (our_hostname w) f)) (map Headers.field (Headers.split m).1) /\
  Headers.body (signed_ w s from author) = Headers.body m.
Proof.
  intros m message top Hfooter Hcrlf Hfault Htop Hcomplete.
  assert (Headers.starts_folded m = false) as Hf.
  { destruct (Headers.starts_folded m) eqn:Hf; [|done]. unfold Headers.header_block_fault in Hfault. rewrite Headers.split_folded in Hfault by done. by destruct m. }
  destruct (Headers.fields_exists m Hf) as (hs & stop & H). destruct (stripped_fields w m hs stop H) as [Hs Hk]. set (keep := fun f => negb (removed (our_hostname w) f)) in *.
  assert (signed_ w s from author = top ++ Headers.total (List.filter keep hs) ++ stop) as ->.
  { unfold signed_, sign. assert (footer_ w (account s) from (stripped w m) = stripped w m) as Hnone.
    { unfold with_company_footer. assert (find_footer w from = Some None) as -> by (induction from as [|a l IH]; cbn; [done|by rewrite Hfooter]). done. }
    fold m. rewrite Hnone. fold message. unfold top. rewrite <- !app_assoc. unfold message at 2, message_of_raw. do 3 f_equal. rewrite Hs.
    apply Headers.crlf_only_exact. eapply fields_only_crlf; [done|]. done. }
  pose proof (fields_on_top _ _ _ _ _ Htop Hcomplete Hk) as Hall.
  rewrite (Headers.body_fields _ _ _ Hall), (Headers.body_fields _ _ _ H), (Headers.split_fields _ _ _ Hall), (Headers.split_fields _ _ _ H). cbn [fst]. by rewrite !Headers.place_fields.
Qed.
End safe.

(** ** Samples *)

Definition mini : Account := {|
  account_id := 7; account_login := bs "mini@uwu.example"; display_name := bs "Mini"; account_internal_only := false; disabled := false; deleted := false; protocol_smtp := true |}.

Definition forwarding (keep queue : bool) : Forwarding.World := {|
  external_allowed := true; active_forwarding a := if a =? 8 then Some {| active_keep_copy := keep; active_targets := [(bs "oma@home.example", None)] |} else None;
  delivery_target := Some; ingests _ _ := true; is_local_domain d := bool_decide (d = bs "uwu.example"); srs_secret := Some (bs "key");
  enqueues := queue; hostname := bs "mx.uwu.example"; today := 20710; lifetime := 432000 |}.

(** Mini (7) and Nyu (8), who forwards her mail, are here; alle@ passes mail on. *)
Definition some_server (current : Account) (keep queue : bool) (queue_id : option Z) (suspended : option Z) : World := {|
  our_hostname := bs "mx.uwu.example"; max_recipients := 100; max_message_size := 10000; per_hour := 50; per_day := 0; now := 1000000;
  account_by_id := Some (Some current); owns a := Some (bool_decide (a = bs "mini@uwu.example")); addresses_internal_only _ := Some false;
  local_domain d := bool_decide (d = bs "uwu.example"); send_suspension := Some suspended; suspended_later := Some suspended;
  company_footer _ := Some None; virus _ := None; looks_like_spam m := bool_decide (is_Some (Relay.find_text (bs "cheap") m));
  sender_face _ := None; rfc822_date := bs "today"; random_id := bs "1"; signatures_of _ _ := bs "DKIM-Signature: x" ++ [x0d; x0a];
  group_delivery _ := None; group_accepts _ := true; target_of := Some;
  resolve_recipient a := if bool_decide (a = bs "mini@uwu.example") then Some 7 else if bool_decide (a = bs "nyu@uwu.example") then Some 8 else None;
  masked_delivery _ := None; forward_address_targets a := if bool_decide (a = bs "alle@uwu.example") then Some [(bs "oma@home.example", None)] else None;
  login_of a := Some (bs "nyu@uwu.example"); stores _ _ := None; passing _ := forwarding keep queue; vacation_of _ := None; itip := false;
  queue_id := queue_id; shared_mailbox _ := None; shared_stores := true |}.

Definition letter (subject : string) : list byte := bs "From: mini@uwu.example" ++ Headers.nl ++ bs "Subject: " ++ bs subject ++ Headers.nl ++ Headers.nl ++ bs "Miau".

Definition to (rs : list string) (raw : list byte) : Submission_ := {|
  account := mini; mail_from := bs "mini@uwu.example"; recipients := (fun a => {| address := bs a; notify_flags := 0; orcpt := None |}) <$> rs; raw := raw;
  env_id := None; trace := None |}.

Notation sent w s := (submit (fun raw => Some ((fun h => (Headers.name h, Some [Some (Headers.value h)])) <$> (Headers.split raw).1)) (fun _ => None) (fun f _ _ => f) (fun _ _ => None)
  secret_digits (fun _ => None) to_ascii_lowercase Some w s {| log := []; limits := {| SendLimit.accounts := ∅; SendLimit.swept_at := 0 |}; may_leave_ := None; turns := 0 |}).

Definition kinds (log : list Did) : list (list byte) :=
  (fun x => match x with Struck _ => bs "strike" | Stored _ _ _ => bs "stored" | Passed _ [] => bs "passed nowhere" | Passed _ _ => bs "passed" | MaskedNoted _ => bs "masked" | Replied _ _ => bs "replied"
    | Scheduled _ _ => bs "scheduled" | Enqueued _ _ _ _ => bs "enqueued" | SentIdNoted _ _ => bs "noted" | Bounced _ => bs "bounced" | SharedCopy _ _ => bs "copy" | CountedSubmitted => bs "counted" end) <$> log.

(** To oneself, to Nyu who forwards and keeps a copy, elsewhere and to nobody. *)
Example sends : let '(r, st) := sent (some_server mini true true (Some 5) None) (to ["mini@uwu.example"; "nyu@uwu.example"; "opa@else.example"; "who@uwu.example"] (letter "Hi")) in
  returns r /\ kinds (log st) = bs <$> ["stored"; "replied"; "passed"; "stored"; "replied"; "enqueued"; "noted"; "bounced"; "counted"]
  /\ enqueued (log st) = [bs "opa@else.example"] /\ bounced (log st) = [bs "who@uwu.example"].
Proof. vm_compute. done. Qed.

(** Nyu keeps no copy, and the queue does not take what she forwards: the sender is told it was
    sent, and it is nowhere. [receive] keeps such a message. *)
Example accepted_and_lost : let '(r, st) := sent (some_server mini false false (Some 5) None) (to ["nyu@uwu.example"] (letter "Hi")) in
  (exists x, r = Ok x) /\ log st = [Passed (Some 8) []; CountedSubmitted].
Proof. vm_compute. split; [by eexists|done]. Qed.

(** The queue fails once the people here have the message: the sender is told to try again, and
    they get it once more. *)
Example delivered_and_refused : let '(r, st) := sent (some_server mini true true None None) (to ["mini@uwu.example"; "opa@else.example"] (letter "Hi")) in
  r = Err QueueFailed /\ kinds (log st) = bs <$> ["stored"; "replied"].
Proof. vm_compute. done. Qed.

(** A suspended account writes to a forwarding address whose targets are elsewhere: the sender is
    told it was sent, and it is nowhere. *)
Example suspended_and_lost : let '(r, st) := sent (some_server mini true true (Some 5) (Some 2000000)) (to ["alle@uwu.example"] (letter "Hi")) in
  (exists x, r = Ok x) /\ log st = [Passed None []; CountedSubmitted].
Proof. vm_compute. split; [by eexists|done]. Qed.

(** Of an account that may only send here neither the suspension nor the filter is asked: its spam
    leaves through the forwarding of somebody here. *)
Example internal_spam_leaves :
  let inside := {| account_id := 7; account_login := bs "mini@uwu.example"; display_name := bs "Mini"; account_internal_only := true; disabled := false; deleted := false; protocol_smtp := true |} in
  let w := some_server inside true true (Some 5) (Some 2000000) in let '(r, st) := sent w (to ["nyu@uwu.example"] (letter "cheap")) in
  (exists x, r = Ok x) /\ looks_like_spam w (letter "cheap") = true /\ existsb (fun x => match x with Passed _ l => existsb is_queued l | _ => false end) (log st) = true.
Proof. vm_compute. split_and!; [by eexists|done|done]. Qed.

(** A CR on its own in a field is made a line break once everything was checked and taken out: the
    message is sent, and signed, with a second From and a Bcc that nobody looked at. *)
Definition hidden_fields : list byte :=
  bs "From: mini@uwu.example" ++ Headers.nl ++ bs "Subject: Hi" ++ [x0d] ++ bs "From: admin@uwu.example" ++ [x0d] ++ bs "Bcc: opa@else.example" ++ Headers.nl ++ Headers.nl ++ bs "Miau".

Example hidden_from_is_signed : let '(r, st) := sent (some_server mini true true (Some 5) None) (to ["opa@else.example"] hidden_fields) in
  (exists x, r = Ok x) /\ match log st with
  | Enqueued _ _ m _ :: _ => Headers.values m (bs "From") = [bs "mini@uwu.example"; bs "admin@uwu.example"] /\ Headers.values m (bs "Bcc") = [bs "opa@else.example"]
  | _ => False
  end.
Proof. vm_compute. split; [by eexists|done]. Qed.

Definition top_fields : list Headers.Field :=
  [(bs "DKIM-Signature", bs "DKIM-Signature: x" ++ Headers.nl); (bs "Date", bs "Date: today" ++ Headers.nl); (bs "Message-ID", bs "Message-ID: <1@uwu.example>" ++ Headers.nl)].

Lemma seen_as_checked_witness :
  let w := some_server mini true true (Some 5) None in let s := to ["opa@else.example"] (letter "Hi") in
  map Headers.field (Headers.split (signed_ (fun _ => None) (fun f _ _ => f) (fun _ _ => None) w s [bs "mini@uwu.example"] (bs "mini@uwu.example"))).1
    = top_fields ++ map Headers.field (Headers.split (letter "Hi")).1.
Proof.
  cbn zeta. set (w := some_server mini true true (Some 5) None). set (s := to ["opa@else.example"] (letter "Hi")).
  assert (List.filter (fun f => negb (removed (our_hostname w) f)) (map Headers.field (Headers.split (Headers.normalize_line_endings (raw s))).1) = map Headers.field (Headers.split (letter "Hi")).1) as <- by (vm_compute; reflexivity).
  apply (seen_as_checked (fun _ => None) (fun f _ _ => f) (fun _ _ => None) w s [bs "mini@uwu.example"] (bs "mini@uwu.example") top_fields); [done|vm_compute; reflexivity|vm_compute; reflexivity| |].
  - set (top := _ ++ _ ++ _). assert (top = Headers.total top_fields) as -> by (vm_compute; reflexivity).
    repeat (eapply Headers.fields_one with (f := []); [done|reflexivity|reflexivity|reflexivity|apply Headers.folds_end; reflexivity|]). apply Headers.fields_end. split; [done|by left].
  - right. eexists (removelast (Headers.total top_fields)). vm_compute. reflexivity.
Defined.
End SubmissionSafe.
